(* ===== verification/_CoqProject ===== *)
-Q . S2P
Prelude.v
BTree.v
Types.v
Retained.v
Journal.v
Contract.v
Acceptor.v
PromisePage.v
Storage.v
QuorumSystem.v
AcceptorConfig.v
DeployConfig.v
ZoneRule.v
QuorumRead.v
Rounds.v
ProxyLeader.v
Tally.v
Leadership.v
Proposer.v
Election.v
Decree.v
DecreeSystem.v
Batcher.v
MatchmakerSet.v
MatchmakerState.v
Matchmaker.v
MatchmakerInv.v
MatchmakerStorage.v
Generation.v
GenerationInv.v
MatchNode.v
Matchmaking.v
Campaign.v
MatchSystem.v
Collector.v
LogWorld.v
LogInv.v
LogSteps.v
LogLearn.v
LogLead.v
LogRounds.v
LogElect.v
LogMarks.v
LogSystem.v
LogMatch.v
Replica.v
ReplicaInv.v
ReplicaRead.v
ReplicaNode.v
ReplicaNodeInv.v
ReplicaSystem.v
LogReplica.v
Reconfigurer.v
Reconstruct.v
ReconfigurerInv.v
ReconfigurerFold.v
Handover.v
HandoverSim.v
HandoverSafety.v
HandoverDriver.v
