(* ===== verification/Prelude.v ===== *)
(** * paros: verification of the consensus core

    paros is a replicated journal on Paxos.  Its core is the crate
    [crates/lib/paros-core]: state machines without I/O (roles), each heavily
    asserted, that a driver feeds with messages and ticks and whose writes the
    driver persists before it sends what they answer.  This library models the
    roles that carry the safety argument and proves what they promise.  Paths
    below are under [crates/lib/paros-core/src].

    ** How the code is modelled

    - A function that may hit an [assert!] or an [expect] returns [run A]:
      [Done a], or [Panic msg] with the message of the assertion.  A theorem
      that a call equals [Done ...] therefore also says that no assertion fires;
      the exactness theorems say when one does.
    - State is passed explicitly: a method on [&mut self] returns the new record.
    - [u64] and [usize] are [N]; [+] and [*] panic when they leave the width (the
      overflow check of a debug build), [saturating_*] and [checked_*] are
      written out.  [BTreeMap] and [BTreeSet] are stdpp's [gmap] and [gset]; what
      their order adds is in [BTree.v].
    - Rust's [Ord], [Fingerprint], [Storage] and [From<AcceptorWrite>] are type
      classes; generic parameters ([Id], [V]) stay generic.
    - Reachability probes ([probe!]), serde and formatting are left out.

    ** The files, in dependency order

    - [Prelude] (this file): the [run] monad and its proof steps, Rust's [Ord],
      option predicates, machine integers.  [BTree]: ordered maps and sets.
    - [Types] ([types.rs]): ballots and their order, the FNV-1a fold.
    - [Retained] ([retained.rs]): the map with a floor the acceptor's logs are.
    - [Journal] ([journal/]): what the decided log drives: the per-journal state
      machine ([JournalState::apply]) in both writer modes.
    - [Contract] ([contract/write.rs], [contract/limits.rs]): durable writes,
      which of them need an fsync, page ceilings.
    - [Acceptor] ([acceptor.rs], [acceptor/retention.rs]): the acceptor role;
      [PromisePage]: its paged Phase-1b answers.
    - [Storage] ([contract/storage.rs], [contract/mem_storage.rs],
      [contract/hard_state.rs], [read_back_log] of [node/boot.rs]): durable state
      and the boot scan.
    - [QuorumSystem] ([membership/quorum_system.rs]) and [AcceptorConfig]
      ([membership/acceptor_config.rs], [ids.rs], [failure_domain.rs]): majority,
      flexible and grid quorums over sorted memberships.  [ZoneRule]
      ([membership/zone_rule.rs]): which memberships survive a lost zone.
    - [QuorumRead] ([quorum_read.rs]): reads served from a Phase-1 quorum's
      fences, beside the leader.
    - [Rounds] ([proposer/rounds.rs]), [Tally] (the tallies of [proposer.rs]),
      [Leadership] ([proposer/recovery.rs], [proposer/authority.rs]): the
      proposer's parts.  [Proposer] composes them; [Election] is Phase 1 and the
      repair probe over it ([proposer/election.rs], [proposer/probe.rs]).
    - [ProxyLeader] ([proxy_leader.rs], [proxy_leader/ready.rs]): the stateless
      relay of Phase 2 that counts votes for a leader.  [Batcher] ([batcher.rs]):
      the per-journal lanes that gather appends into one command.
    - [Decree] ([decree.rs], and the acceptors' half in
      [matchmaker/generation.rs]): a single-decree Paxos wired out of the roles.
    - [DecreeSystem]: that decree as a distributed system, any number of
      proposers against the acceptors of one configuration over a network that
      loses, duplicates and reorders.
    - [MatchmakerSet] ([membership/matchmaker_set.rs]), [MatchmakerState]
      ([matchmaker/state.rs], [matchmaker/message.rs]) and [Matchmaker]
      ([matchmaker.rs], [matchmaker/ready.rs]): the per-ballot registry of
      acceptor configurations.  [MatchmakerInv]: its invariant [mm_wf] and what
      every registry call does under it.  [MatchmakerStorage]
      ([matchmaker/storage.rs]): the store of its durable records.
    - [Generation] ([matchmaker/generation.rs]) and [GenerationInv]: the handover
      of one matchmaker set to the next, and what each message does.
    - [MatchNode] ([drain] of [crates/lib/paros-roles/src/matchmaker.rs]): a
      matchmaker over its store, with drains, crashes and restarts.
    - [Matchmaking] ([matchmaking.rs], [matchmaking/probe.rs]) and [Campaign]
      ([node/matchmaking.rs]): the candidate's half.
    - [MatchSystem]: campaigns and matchmakers as a distributed system.
    - [Collector] ([collector.rs], and its calls in [node/gc.rs]): the leader's
      garbage collection of configurations older than its own.
    - [LogWorld] ([node/acceptor.rs], [election.rs], [phase2.rs], [learn.rs],
      [catch_up.rs], [boot.rs] and the parts of [helpers.rs], [policy.rs] and
      [node.rs] they call, the checks of [node/invariants.rs]): the colocated node's
      handlers of the log over the acceptor and the proposer, with its keep-alives and
      repair ticks and the node-wide checks at their exit, as a distributed system.
      [LogInv]: its invariant and what preserves it; [LogSteps] (a node's moves, Phase 1),
      [LogLearn] (learning, walks, compaction, accepts), [LogLead] (a round and its
      decision), [LogRounds] (recovery, repairs, proposals, votes), [LogElect]
      (campaigns, promises, paging, repair ticks, winning), [LogMarks] (no handler
      lowers a durable watermark), [LogSystem] (catch-up, trims, restarts, and
      the properties).
    - [LogMatch]: the log run by the campaigns of [MatchSystem].
    - [DeployConfig] ([contract/config.rs]): what a node is booted with.
    - [Replica] ([replica.rs]): the learner's role: the chosen prefix, the journal
      folded over it with the indexes that fold keeps, walks, truncations, trim
      jumps, reads, the boot.  [ReplicaInv]: the reference fold of the whole log
      ([state_before], [slot_verdict]), the invariant [replica_core] that a replica
      is that fold, and what every operation does under it; [ReplicaRead]: journal
      reads against the records of the reference.
    - [ReplicaNode] ([replica_node.rs], [replica_node/ready.rs]): the replica that is
      not an acceptor, over its store.  [ReplicaNodeInv]: its invariant, what its
      batches leave in the store, and its boot.  [ReplicaSystem] ([drain] of
      [crates/lib/paros-roles/src/replica.rs]): a replica node driven by any sequence
      of messages, ticks, reads, drains and crashes, and the properties.
    - [LogReplica]: the replicas of a deployment, those colocated with the acceptors and
      those on nodes of their own, fed by the log of [LogWorld].
    - [Reconfigurer] ([matchmaker/reconfigurer.rs]): the state machine that replaces
      one matchmaker set by the next.  [Reconstruct]: the union of the frozen
      registries; [ReconfigurerInv], [ReconfigurerFold]: its invariant [rc_wf], what
      its calls and its replies do under it.
    - [Handover]: reconfigurers on any number of nodes against the old set and the
      members of its successors, as a distributed system; [HandoverSim]: its simulation
      by [DecreeSystem]; [HandoverSafety]: the properties.
    - [HandoverDriver] ([crates/lib/paros-roles/src/node/handover.rs], [Cadence] of
      [node/report.rs], [pace_handover] of [node/shared.rs], the reply arm of
      [node.rs]): the pacing of a handover, as steps of that system.

    ** What the theorems show

    - The log ([LogSystem]): no two chosen values of a slot differ, and what a node
      holds as chosen is chosen ([log_agreement]); no assertion of the modelled
      handlers fires and the node-wide checks pass, whatever is lost, repeated or reordered and whenever nodes restart or
      find records rotted ([log_never_panics]); the chosen prefix is sound and
      durable ([log_prefix_sound]).  Chosen is a Phase-2 quorum of votes, counted
      or not.  The proof is against an interface ([LogConfigs]): what a campaign is
      registered with, and that its Phase 1 covers every lower configuration; one
      fixed configuration satisfies it ([plain_configs]), and so does
      [MatchSystem] ([log_over_matchmaking]), so agreement holds across
      reconfigurations.
    - Replicas ([ReplicaSystem]): a replica is the fold of the decided log, whatever
      it missed, truncated, jumped over or lost ([replica_fold_exact]); no assertion
      fires on what a sound log sends it ([replica_never_panics]); a restart forgets nothing persisted
      ([replica_restart_rebuilds]); reads serve the records and the longest page the
      bounds allow ([replica_read_exact]); compaction drops all it may, and what it
      keeps is enough to judge every retained and every later slot again
      ([compaction_target_greatest]); a tick asks for the first missing record
      ([tick_pulls_the_hole]).  Fed by one log, replicas agree on commands, verdicts
      and journals ([fleet_agrees]).  [partial_truncation_rejudges] shows what a floor
      below the compaction target costs.
    - Matchmaking ([MatchSystem]): when two campaigns complete at one matchmaker
      set, the later one's Phase 1 covers the earlier one's configuration unless
      it was garbage-collected ([matchmaking_covers]); a completed
      reconfiguration is never missed ([reconfiguration_honored]); no assertion
      fires ([matchmaking_never_panics]), through crashes, restarts, lost and
      repeated messages, paging, record elision, garbage collection and
      generation handovers.
    - A matchmaker alone: each call is a short reference function
      ([register_exact], [gc_exact], [activate_exact],
      [fold_registration_exact] and the lemmas beside them); pages read in turn carry the whole history
      ([history_pages_complete]); registries only grow above the watermark
      ([registry_append_only]); a restarted matchmaker answers as the original
      ([restart_answers_alike]); its decree handlers meet a specification of
      promise and vote, and with it are the acceptors of [DecreeSystem]
      ([matchmaker_decree_refines]).
      [cursor_above_ballot_panics] shows the one request that stops it.

    - Handovers ([HandoverSafety]): all reconfigurers of a generation publish one
      successor, through crashes that forget everything ([successors_agree]); it is
      published only once every one of its members holds its whole bootstrap
      ([successor_bootstrapped]); every bootstrap carries what a majority of the old set
      registered, or the watermark that collected it ([handover_carries]); no assertion
      fires ([handover_never_panics]).  The driver's beats are steps of that system,
      which put on the network what the driver sends and nothing else
      ([handover_driver_refines]).
    - The decree is Paxos ([DecreeSystem]): all chosen values agree
      ([decree_agreement]); every step refines a write-once register holding a
      proposed value ([decree_refines_consensus]); no handler's assertion fires
      in any reachable state ([decree_never_panics]); from any reachable state a
      fresh highest ballot can get a value chosen ([decree_progress]).  The proof
      is by an invariant over the step relation and uses of the quorums only that
      they meet ([QuorumsMeet]), which [config_quorums_meet] discharges.  A proposer that
      lost its memory may open a ballot again as long as no value was sent at it, which is
      what a reconfigurer's decree floor ensures.
    - Quorums: every Phase-1 and Phase-2 quorum of an admitted system meet
      ([quorums_intersect], [config_new_safe]); the predicates count what they
      say ([quorum_predicates_exact]); a slot's fan-out can decide it
      ([phase2_fanout_decides]); the constructor returns exactly on admitted
      memberships ([config_new_exact]).
    - Acceptors: across any sequence of calls no promise falls and no vote is
      lost above the floor ([acceptor_keeps_votes], [promise_is_a_fence]); each
      operation exactly, errors included ([prepare_exact],
      [record_accepted_exact], [acceptor_boots_exactly]); pages carry exactly the
      suffix ([promise_page_exact], [promise_pages_rebuild]) and pass the
      receiver's check ([cut_pages_are_accepted]).
    - Durability: a persisted call survives a reboot
      ([persisted_call_survives_reboot]); a batch with a vote is always flushed
      ([for_batch_persists_votes]); [mem_repair_breaks_boot] shows the one store
      state that does not boot.
    - Phase 1: campaigns open, fold and close exactly ([open_phase1_exact],
      [fold_promise_exact]); P2c keeps the highest report
      ([merge_reports_highest]); with rotted records, a slot is recovered or
      decided only when no hidden choice is possible ([close_phase1_safe],
      [resolve_probe_safe], [fold_probe_promise_exact]).
    - Phase 2: votes, decisions, moves and re-sends ([fold_accepted_in_exact],
      [rounds_decided_exact], [move_to_keeps_value], [resend_page_exact],
      [resend_pages_fair]); recovery sweeps its range exactly once
      ([recovery_sweep_exact]); a held authority meets every later election
      ([authority_meets_elections]).
    - Reads: every entry chosen before a quorum read opens is below the slot it
      is served at ([quorum_read_linearizable]), and no message stops the reader
      ([quorum_reads_never_panic]).
    - Garbage collection: a leader reports configurations as collected only when
      its own ballot is recovered, the prefix is durable where it must be and a
      quorum of matchmakers acknowledged ([gc_effective_safe],
      [gc_never_panics]).
    - Proxy leaders and batchers: a relayed commit is backed by a Phase-2 quorum
      of the ballot's governing configuration, for a round delegated to that proxy
      ([proxy_commits_backed]), no assertion fires and no round is lost
      ([proxy_never_panics]); a batcher neither loses, repeats nor reorders an
      append ([batcher_conserves]), and applying a batch is applying its appends
      one by one ([batch_transparent]).
    - Zones: an admitted membership keeps both quorums after any zone it promises
      to survive is lost ([zone_rule_survives]).
    - Journal: [apply] refines a short specification and keeps the invariant
      ([journal_apply_refines]); retries are idempotent, one writer per term,
      [SetLeader] is a compare-and-set.

    ** Bounds and fuel

    Loops are folds over the entries of a map.  The one merge loop,
    [promise_fill], runs on fuel: one step per entry left plus one, which
    [promise_page_ok] shows is always enough.
    [promise_pages] and [resend_pages] take the number of pages; their theorems
    say how many are enough.  [pop_over], the proxy leader's eviction loop, runs
    on the size of the map it empties, enough by [pop_over_bounded]; a proxy
    leader is handed fewer than [u64_max] messages.  A batcher's limits are below
    half the width.  Hypotheses of the form [len members < usize_max]
    and [a_faulty_repaired a + 1 <= u64_max] are the widths of the code's own
    counters; the histories a campaign has folded fit in memory (the last clause
    of [enabled] in [MatchSystem]).  [reg] assigns each ballot of a journal the
    one registration its candidate makes: a ballot carries its node's identity,
    and a node opens one campaign per ballot.  [request_ok] is what the
    reconfigurer promises of a handover request.

    In [LogWorld] a handler is one step: its writes are durable when its messages
    leave, as the drivers do it, and a crash between handlers is [LReboot], which may
    find any of the node's records rotted.  A message is kept forever and names no
    addressee, so any node may receive it, late and again.  How far a walk of the
    chosen prefix goes and what it truncates ([Advance]) are inputs, bounded by what
    is chosen: the replica decides them, and the theorems hold for every choice.
    [log_enabled] asks that slots stay below [u64_max] and that the counter of
    repaired records does not overflow.

    The replica's loops run on fuel: [refold_loop] on the slots left of the prefix,
    [walk_loop] on the apply page, [compaction_loop] on the slots above the floor (it
    strictly lowers the floor it tries), [read_loop] on the positions asked for; the
    lemmas [refold_ok], [walk_loop_ok], [compaction_target_ok] and [read_loop_ok] show
    each is enough.  The log a replica folds is a function [L] of the slot, and
    [replica_message_ok] says its messages carry it: [LogReplica] discharges that for
    commits and replays from the agreement of the log, and for trim points from the
    floors of the replicas colocated with the acceptors, whose nodes are the only ones
    that answer [TrimmedTo].  A boot reads what the journal store's scan finds
    ([scanned]: a slot rewritten after its record rotted has no rotted mark left); over
    [MemStorage] it does not, see [mem_repair_breaks_boot].  [fits] asks that the journal's positions and
    terms stay inside [u64].

    In [Handover] the old members answer from their decree record and from the
    registries they froze with ([serve]): [serve_covers] says that whatever a whole
    matchmaker answers, [serve] may answer.  The rest of an answer (whether the generation is served, how
    far a bootstrap is held, what is activated) is arbitrary.  A reply reaches only the
    incarnation that asked, since a node's reply channels die with it; rounds stay below
    [u64_max], and a target fits in memory ([op_fits]).

    ** What is not modelled

    Of the colocated node ([node/]): leadership handoff, delegation to proxies, the
    learning of configurations and the pool of addressable nodes, the wiring of quorum
    reads, heartbeats, the leader hint, the election clock (a campaign may open at any
    time), counters and the ready batch, with the guards and the assertions over them;
    the node-wide checks are those over the acceptor, the proposer, the role and the
    chosen slots.  The walk of the
    chosen prefix is an input there; the [Replica] the node embeds is the one modelled
    here.  In [Campaign], the node's assertions over its own role, election and
    operating ballot.
    [log_over_matchmaking] is about campaigns at one matchmaker set with nothing
    collected; that the sets of a handover chain carry their registries over is
    [handover_carries].  Around a handover: the republishing of a chosen set to a
    straggler, and its adoption by the journals of a node.  The replica node's
    observability counters.  Left out because
    they are I/O or instrumentation around the core: the wire format, sockets,
    storage engines, binaries, the simulator and its audits. *)

From stdpp Require Export base tactics option list sorting numbers strings.
From stdpp Require Export fin_maps gmap fin_sets fin_map_dom.

#[global] Set Default Proof Using "Type".
Open Scope N_scope.

(** ** Panicking computations

    A Rust function that carries [assert!]s either returns or panics.  [run A]
    is that result; [Panic] keeps the message of the assertion that failed, so
    a theorem can say which one does (or that none does). *)

Inductive run (A : Type) : Type :=
| Done (a : A)
| Panic (msg : string).
Arguments Done {A} a.
Arguments Panic {A} msg.

#[export] Instance run_ret : MRet run := @Done.
#[export] Instance run_bind : MBind run := fun A B f c =>
  match c with
  | Done a => f a
  | Panic msg => Panic msg
  end.

(** [assert!(P, msg)]. *)
Definition rassert (P : Prop) `{Decision P} (msg : string) : run unit :=
  if decide P then Done tt else Panic msg.

(** [Option::expect(msg)]. *)
Definition rexpect {A} (o : option A) (msg : string) : run A :=
  match o with Some a => Done a | None => Panic msg end.

(** A fold whose body may panic: a [for] loop over an iterator. *)
Fixpoint foldM {A B} (f : B -> A -> run B) (b : B) (l : list A) : run B :=
  match l with
  | [] => Done b
  | a :: l' => b' ← f b a; foldM f b' l'
  end.

(** [Iterator::all] and [Iterator::any] with a predicate that may panic. *)
Fixpoint allM {A} (f : A -> run bool) (l : list A) : run bool :=
  match l with
  | [] => Done true
  | a :: l' => f a ≫= fun b : bool => if b then allM f l' else Done false
  end.
Fixpoint anyM {A} (f : A -> run bool) (l : list A) : run bool :=
  match l with
  | [] => Done false
  | a :: l' => f a ≫= fun b : bool => if b then Done true else anyM f l'
  end.

Definition returns {A} (c : run A) : Prop := exists a, c = Done a.

Lemma bind_Done {A B} (a : A) (f : A -> run B) : (Done a ≫= f) = f a.
Proof. reflexivity. Qed.

Lemma bind_Done_inv {A B} (c : run A) (f : A -> run B) b :
  c ≫= f = Done b -> exists a, c = Done a /\ f a = Done b.
Proof. destruct c; simpl; [eauto|discriminate]. Qed.

Lemma rassert_true P `{Decision P} msg : P -> rassert P msg = Done tt.
Proof. intros. unfold rassert. by rewrite decide_True. Qed.

Lemma rassert_inv P `{Decision P} msg u : rassert P msg = Done u -> P.
Proof. unfold rassert. by case_decide. Qed.

Lemma rassert_seq {B} P `{Decision P} msg (f : unit -> run B) r :
  P -> f tt = r -> rassert P msg ≫= f = r.
Proof. intros HP <-. by rewrite rassert_true. Qed.

Lemma rassert_fails {B} P `{Decision P} msg (f : unit -> run B) :
  ~ P -> rassert P msg ≫= f = Panic msg.
Proof. intros HP. unfold rassert. by rewrite decide_False. Qed.

Lemma bind_seq {A B} (c : run A) a (f : A -> run B) r :
  c = Done a -> f a = r -> c ≫= f = r.
Proof. by intros -> <-. Qed.

Lemma allM_ok {A} (f : A -> run bool) (P : A -> Prop) `{forall a, Decision (P a)} l :
  (forall a, a ∈ l -> f a = Done (bool_decide (P a))) -> allM f l = Done (bool_decide (Forall P l)).
Proof.
  induction l as [|a l IH]; intros Hf; simpl; [done|].
  rewrite Hf by left. simpl. destruct (decide (P a)) as [Ha|Ha];
    [rewrite (bool_decide_eq_true_2 (P a)) by done|rewrite (bool_decide_eq_false_2 (P a)) by done].
  - rewrite IH by (intros; apply Hf; by right). f_equal. apply bool_decide_ext.
    rewrite Forall_cons. tauto.
  - rewrite bool_decide_eq_false_2; [done|]. rewrite Forall_cons. tauto.
Qed.

Lemma anyM_ok {A} (f : A -> run bool) (P : A -> Prop) `{forall a, Decision (P a)} l :
  (forall a, a ∈ l -> f a = Done (bool_decide (P a))) -> anyM f l = Done (bool_decide (Exists P l)).
Proof.
  induction l as [|a l IH]; intros Hf; simpl.
  - done.
  - rewrite Hf by left. simpl. destruct (decide (P a)) as [Ha|Ha];
      [rewrite (bool_decide_eq_true_2 (P a)) by done|rewrite (bool_decide_eq_false_2 (P a)) by done].
    + rewrite bool_decide_eq_true_2; [done|]. by left.
    + rewrite IH by (intros; apply Hf; by right). f_equal. apply bool_decide_ext.
      rewrite Exists_cons. tauto.
Qed.

(** A loop of checks passes when each does. *)
Lemma foldM_checks {A} (f : A -> run unit) (l : list A) :
  (forall a, a ∈ l -> f a = Done tt) -> foldM (fun _ a => f a) tt l = Done tt.
Proof.
  induction l as [|a l IH]; intros Hf; simpl; [done|].
  rewrite Hf by left. simpl. apply IH. intros. apply Hf. by right.
Qed.

Lemma foldM_app {A B} (f : B -> A -> run B) b (l k : list A) :
  foldM f b (l ++ k) = (b' ← foldM f b l; foldM f b' k).
Proof. revert b. induction l as [|a l IH]; intros b; simpl; [done|]. destruct (f b a); simpl; [apply IH|done]. Qed.

Lemma rexpect_inv {A} (o : option A) msg a : rexpect o msg = Done a -> o = Some a.
Proof. destruct o; simpl; congruence. Qed.

(** Proof steps over [run].  [rassert_by tac] discharges the assertion a body
    starts with; [rbind lem] runs its first call by the equation [lem];
    [rinv H] takes a body that returned apart. *)
Ltac rsimpl := repeat (rewrite bind_Done); cbn [fst snd].
Tactic Notation "rassert_by" tactic3(tac) :=
  apply rassert_seq; [tac|cbv beta].
Tactic Notation "rbind" uconstr(lem) :=
  eapply bind_seq; [eapply lem|cbv beta].

Ltac rinv_step H :=
  lazymatch type of H with
  | mbind _ ?c = Done _ =>
      let a := fresh "r" in let E := fresh "E" in
      apply bind_Done_inv in H as (a & E & H);
      lazymatch type of E with
      | rassert _ _ = Done _ => apply rassert_inv in E
      | rexpect _ _ = Done _ => apply rexpect_inv in E
      | _ => idtac
      end;
      cbv beta in H
  | (let '_ := ?p in _) = Done _ => destruct p
  end.
Ltac rinv H := repeat rinv_step H.

(** ** Rust's [Ord]

    A total order with decidable comparison; [ord_lt] is the strict order. *)

Class Ord (K : Type) `{EqDecision K} := {
  ord_le : relation K;
  ord_le_dec :: RelDecision ord_le;
  ord_le_total_order :: TotalOrder ord_le }.

#[global] Arguments ord_le : simpl never.

Definition ord_lt {K} `{Ord K} (x y : K) : Prop := ~ ord_le y x.

#[export] Instance ord_lt_dec {K} `{Ord K} : RelDecision ord_lt.
Proof. unfold ord_lt. intros x y. apply _. Defined.

Definition ord_max {K} `{Ord K} (x y : K) : K := if decide (ord_le x y) then y else x.

Section ord.
Context {K : Type} `{Ord K}.
Implicit Types x y z : K.

#[export] Instance ord_le_total : Total ord_le.
Proof. intros x y. destruct (trichotomy (strict ord_le) x y) as [[? _]|[->|[? _]]]; [left|left|right]; done. Qed.

Lemma ord_le_refl x : ord_le x x.
Proof. reflexivity. Qed.
Lemma ord_le_trans x y z : ord_le x y -> ord_le y z -> ord_le x z.
Proof. intros. by etrans. Qed.
Lemma ord_le_antisymm x y : ord_le x y -> ord_le y x -> x = y.
Proof. intros. by apply (anti_symm ord_le). Qed.
Lemma ord_lt_le x y : ord_lt x y -> ord_le x y.
Proof. intros. destruct (total ord_le x y); [done|by destruct H0]. Qed.
Lemma ord_not_le x y : ~ ord_le x y <-> ord_lt y x.
Proof. done. Qed.
Lemma ord_not_lt x y : ~ ord_lt x y <-> ord_le y x.
Proof. unfold ord_lt. split; [apply dec_stable|auto]. Qed.
Lemma ord_lt_irrefl x : ~ ord_lt x x.
Proof. intros Hx. apply Hx, ord_le_refl. Qed.
Lemma ord_lt_trans x y z : ord_lt x y -> ord_lt y z -> ord_lt x z.
Proof. intros Hxy Hyz Hzx. apply Hyz. etrans; [apply Hzx|by apply ord_lt_le]. Qed.
Lemma ord_le_lt_trans x y z : ord_le x y -> ord_lt y z -> ord_lt x z.
Proof. intros Hxy Hyz Hzx. apply Hyz. by etrans. Qed.
Lemma ord_lt_le_trans x y z : ord_lt x y -> ord_le y z -> ord_lt x z.
Proof. intros Hxy Hyz Hzx. apply Hxy. by etrans. Qed.
Lemma ord_lt_ne x y : ord_lt x y -> x <> y.
Proof. intros Hxy ->. by apply ord_lt_irrefl in Hxy. Qed.
Lemma ord_le_ne_lt x y : ord_le x y -> x <> y -> ord_lt x y.
Proof. intros Hxy Hne Hyx. by apply Hne, ord_le_antisymm. Qed.
Lemma ord_lt_cases x y : ord_lt x y \/ x = y \/ ord_lt y x.
Proof.
    destruct (decide (ord_le x y)); [|by right; right].
    destruct (decide (x = y)); [by right; left|]. left. by apply ord_le_ne_lt.
Qed.
Lemma ord_max_ge_l x y : ord_le x (ord_max x y).
Proof. unfold ord_max. case_decide; [done|reflexivity]. Qed.
Lemma ord_max_ge_r x y : ord_le y (ord_max x y).
Proof. unfold ord_max. case_decide; [reflexivity|by apply ord_lt_le]. Qed.
Lemma ord_max_lub x y z : ord_le x z -> ord_le y z -> ord_le (ord_max x y) z.
Proof. unfold ord_max. by case_decide. Qed.
End ord.

#[export] Program Instance N_ord : Ord N := {| ord_le := N.le |}.
Next Obligation. repeat split; try apply _. intros x y. unfold strict. lia. Qed.

(** [Option<K>]: [None] below every [Some]. *)
Definition opt_le {K} `{Ord K} (a b : option K) : Prop :=
  match a, b with
  | None, _ => True
  | Some _, None => False
  | Some x, Some y => ord_le x y
  end.

#[export] Instance opt_le_dec {K} `{Ord K} : RelDecision (opt_le (K:=K)).
Proof. intros [x|] [y|]; simpl; apply _. Defined.

#[export] Program Instance option_ord {K} `{Ord K} : Ord (option K) := {| ord_le := opt_le |}.
Next Obligation.
  intros K ? ?. split; [split; [split|]|].
  - intros [x|]; simpl; [reflexivity|done].
  - intros [x|] [y|] [z|]; simpl; try done. apply ord_le_trans.
  - intros [x|] [y|]; simpl; try done. intros. f_equal. by apply ord_le_antisymm.
  - intros [x|] [y|]; unfold strict; simpl; [|naive_solver..].
    destruct (ord_lt_cases x y) as [Hl|[->|Hl]]; [left|by right; left|right; right];
      (split; [by apply ord_lt_le|done]).
Qed.

#[export] Instance opt_le_partial_order {K} `{Ord K} : PartialOrder (opt_le (K:=K)).
Proof. change (PartialOrder (@ord_le (option K) _ option_ord)). apply _. Qed.

(** Comparisons of slots are comparisons of numbers. *)
Ltac ord_N := cbv beta iota delta [ord_lt ord_max ord_le N_ord opt_le option_ord] in *.
Ltac olia := ord_N; repeat case_decide; lia.

(** ** Option predicates of the standard library *)

Definition is_none_or {A} (P : A -> Prop) (o : option A) : Prop :=
  match o with Some a => P a | None => True end.
Definition is_some_and {A} (P : A -> Prop) (o : option A) : Prop :=
  match o with Some a => P a | None => False end.

#[export] Instance is_none_or_dec {A} (P : A -> Prop) (o : option A)
  `{forall a, Decision (P a)} : Decision (is_none_or P o).
Proof. destruct o; simpl; apply _. Defined.
#[export] Instance is_some_and_dec {A} (P : A -> Prop) (o : option A)
  `{forall a, Decision (P a)} : Decision (is_some_and P o).
Proof. destruct o; simpl; apply _. Defined.

(** ** Machine integers *)

Definition u64_max : N := 2 ^ 64 - 1.
Definition usize_max : N := 2 ^ 64 - 1.

(** [a + b] on [u64], with the overflow check of a debug build. *)
Definition u64_add (a b : N) : run N :=
  if decide (a + b <= u64_max) then Done (a + b) else Panic "attempt to add with overflow".
Definition u64_saturating_add (a b : N) : N := N.min (a + b) u64_max.
Definition u64_checked_add (a b : N) : option N :=
  if decide (a + b <= u64_max) then Some (a + b) else None.
Definition u64_checked_sub (a b : N) : option N :=
  if decide (b <= a) then Some (a - b) else None.
Definition usize_saturating_add (a b : N) : N := N.min (a + b) usize_max.
Definition usize_saturating_mul (a b : N) : N := N.min (a * b) usize_max.
(** [a + b] and [a * b] on [usize], with the overflow check of a debug build. *)
Definition usize_add (a b : N) : run N :=
  if decide (a + b <= usize_max) then Done (a + b) else Panic "attempt to add with overflow".
Definition usize_mul (a b : N) : run N :=
  if decide (a * b <= usize_max) then Done (a * b) else Panic "attempt to multiply with overflow".
Definition usize_checked_mul (a b : N) : option N :=
  if decide (a * b <= usize_max) then Some (a * b) else None.

(** The length of a collection, as the [usize] the code compares. *)
Definition len {A} (l : list A) : N := N.of_nat (length l).
Definition msize {K V} `{Countable K} (m : gmap K V) : N := N.of_nat (size m).
Definition ssize {K} `{Countable K} (s : gset K) : N := N.of_nat (size s).

(** [lo..hi]. *)
Definition range (lo hi : N) : list N := (fun i => lo + N.of_nat i) <$> seq 0 (N.to_nat (hi - lo)).

Lemma elem_of_range lo hi k : k ∈ range lo hi <-> lo <= k < hi.
Proof.
  unfold range. rewrite list_elem_of_fmap. setoid_rewrite elem_of_seq. split.
  - intros (i & -> & Hi). lia.
  - intros Hk. exists (N.to_nat (k - lo)). lia.
Qed.

Lemma u64_add_ok a b : a + b <= u64_max -> u64_add a b = Done (a + b).
Proof. intros. unfold u64_add. by rewrite decide_True. Qed.
Lemma usize_add_ok a b : a + b <= usize_max -> usize_add a b = Done (a + b).
Proof. intros. unfold usize_add. by rewrite decide_True. Qed.

(** A sum, exact and as [Iterator::sum] computes it at a width. *)
Definition Nsum (l : list N) : N := foldr N.add 0 l.
Definition usize_sum (l : list N) : run N := foldM usize_add 0 l.
Definition u64_sum (l : list N) : run N := foldM u64_add 0 l.

#[export] Instance Nsum_proper : Proper ((≡ₚ) ==> (=)) Nsum.
Proof. induction 1; simpl; lia. Qed.
Lemma Nsum_sublist l l' : l `sublist_of` l' -> Nsum l <= Nsum l'.
Proof. induction 1; simpl; lia. Qed.
Lemma Nsum_app l l' : Nsum (l ++ l') = Nsum l + Nsum l'.
Proof. induction l; simpl; lia. Qed.
Lemma foldM_add_ok (add : N -> N -> run N) (bound : N) l a :
  (forall a b, a + b <= bound -> add a b = Done (a + b)) -> a + Nsum l <= bound ->
  foldM add a l = Done (a + Nsum l).
Proof.
  intros Hadd. revert a. induction l as [|n l IH]; intros a Hl; simpl in *; [f_equal; lia|].
  rewrite Hadd by lia. rsimpl. rewrite IH by lia. f_equal. lia.
Qed.
Lemma usize_sum_ok l : Nsum l <= usize_max -> usize_sum l = Done (Nsum l).
Proof. intros. by apply (foldM_add_ok _ usize_max l 0 usize_add_ok). Qed.
Lemma u64_sum_ok l : Nsum l <= u64_max -> u64_sum l = Done (Nsum l).
Proof. intros. by apply (foldM_add_ok _ u64_max l 0 u64_add_ok). Qed.

(** A filter that keeps everything, or nothing. *)
Lemma filter_all {A} (P : A -> Prop) `{forall x, Decision (P x)} l : Forall P l -> filter P l = l.
Proof. induction 1; [done|]. rewrite filter_cons, decide_True by done. congruence. Qed.
Lemma filter_none {A} (P : A -> Prop) `{forall x, Decision (P x)} l : Forall (fun x => ~ P x) l -> filter P l = [].
Proof. induction 1; [done|]. by rewrite filter_cons, decide_False. Qed.

Lemma half_spec (n : N) : 2 * (n / 2) <= n < 2 * (n / 2) + 2.
Proof.
  pose proof (N.Div0.mul_div_le n 2). pose proof (N.mul_succ_div_gt n 2 ltac:(done)). lia.
Qed.

(** The facts about the components' operations that [eauto with paros] uses. *)
Create HintDb paros.
