(* ===== verification/BTree.v ===== *)
(** * [BTreeMap] and [BTreeSet] over stdpp's finite maps

    A [BTreeMap<K, V>] is a [gmap K V]; what the order of its keys adds (the
    entries in key order, the first and the last key, ranges, [split_off]) is
    defined here once, with the lemmas the components share. *)

From S2P Require Import Prelude.

Section btree.
Context {K : Type} `{Ord K, !Countable K}.

Definition key_le {V} (x y : K * V) : Prop := ord_le x.1 y.1.

#[export] Instance key_le_dec {V} : RelDecision (key_le (V:=V)).
Proof. intros x y. unfold key_le. apply _. Defined.
#[export] Instance key_le_trans {V} : Transitive (key_le (V:=V)).
Proof. intros x y z. apply ord_le_trans. Qed.
#[export] Instance key_le_total {V} : Total (key_le (V:=V)).
Proof. intros x y. apply (total ord_le). Qed.

(** [BTreeMap::iter]: the entries in key order. *)
Definition bt_entries {V} (m : gmap K V) : list (K * V) := merge_sort key_le (map_to_list m).
Definition bt_keys {V} (m : gmap K V) : list K := (bt_entries m).*1.
(** [keys().next()] and [keys().next_back()]. *)
Definition first_key_of {V} (m : gmap K V) : option K := head (bt_keys m).
Definition last_key_of {V} (m : gmap K V) : option K := last (bt_keys m).
(** [range(from..)]. *)
Definition bt_range_from {V} (from : K) (m : gmap K V) : list (K * V) :=
  filter (fun kv => ord_le from kv.1) (bt_entries m).
(** [range(..to)]. *)
Definition bt_range_to {V} (to : K) (m : gmap K V) : list (K * V) :=
  filter (fun kv => ord_lt kv.1 to) (bt_entries m).
(** [range(lo..hi)], which panics when the bounds cross. *)
Definition bt_range {V} (lo hi : K) (m : gmap K V) : run (list (K * V)) :=
  if decide (ord_lt hi lo) then Panic "range start is greater than range end in BTreeMap"
  else Done (filter (fun kv => ord_le lo kv.1 /\ ord_lt kv.1 hi) (bt_entries m)).
(** [split_off(&from)], the part at or above [from]. *)
Definition bt_split_off {V} (from : K) (m : gmap K V) : gmap K V :=
  filter (fun kv => ord_le from kv.1) m.
(** A [BTreeSet] in ascending order, its first and its last element. *)
Definition bs_elements (s : gset K) : list K := merge_sort ord_le (elements s).
Definition bs_first (s : gset K) : option K := head (bs_elements s).
Definition bs_last (s : gset K) : option K := last (bs_elements s).
Definition bs_split_off (from : K) (s : gset K) : gset K := filter (ord_le from) s.

Section maps.
Context {V : Type}.
Implicit Types m : gmap K V.

Lemma elem_of_bt_entries m k v : (k, v) ∈ bt_entries m <-> m !! k = Some v.
Proof. unfold bt_entries. by rewrite merge_sort_Permutation, elem_of_map_to_list. Qed.

Lemma elem_of_bt_keys m k : k ∈ bt_keys m <-> is_Some (m !! k).
Proof.
  unfold bt_keys. rewrite list_elem_of_fmap. split.
  - intros ([k' v] & -> & Hin). apply elem_of_bt_entries in Hin. by exists v.
  - intros [v Hv]. exists (k, v). by rewrite elem_of_bt_entries.
Qed.

Lemma NoDup_bt_keys m : NoDup (bt_keys m).
Proof.
  unfold bt_keys, bt_entries.
  rewrite (fmap_Permutation fst _ _ (merge_sort_Permutation _ _)).
  apply NoDup_fst_map_to_list.
Qed.

Lemma NoDup_bt_entries m : NoDup (bt_entries m).
Proof. eapply NoDup_fmap_1. apply NoDup_bt_keys. Qed.

Lemma length_bt_entries m : length (bt_entries m) = size m.
Proof. unfold bt_entries. rewrite merge_sort_Permutation. apply length_map_to_list. Qed.

Lemma bt_keys_sorted m : StronglySorted ord_lt (bt_keys m).
Proof.
  assert (StronglySorted key_le (bt_entries m)) as Hs
    by (apply StronglySorted_merge_sort; apply _).
  pose proof (NoDup_bt_keys m) as Hnd. revert Hs Hnd.
  unfold bt_keys. generalize (bt_entries m) as l.
  induction 1 as [|[k v] l Hs IH Hall]; cbn [fmap list_fmap fst]; intros Hnd; constructor.
  - apply IH. by apply NoDup_cons in Hnd as [_ ?].
  - apply NoDup_cons in Hnd as [Hk _]. rewrite Forall_forall in Hall. apply Forall_forall.
    intros k' Hk'. apply list_elem_of_fmap in Hk' as ([k'' v'] & -> & Hin).
    pose proof (Hall _ Hin) as Hle. unfold key_le in Hle; simpl in *.
    apply ord_le_ne_lt; [done|]. intros ->. apply Hk.
    apply list_elem_of_fmap. by exists (k'', v').
Qed.

Lemma bt_keys_nil m : bt_keys m = [] <-> m = ∅.
Proof.
  rewrite <-map_size_empty_iff, <-length_bt_entries, <-(length_fmap fst).
  fold (bt_keys m). by rewrite length_zero_iff_nil.
Qed.

Lemma first_key_of_None m : first_key_of m = None <-> m = ∅.
Proof.
  unfold first_key_of. by rewrite head_None, bt_keys_nil.
Qed.

Lemma first_key_of_Some m k :
  first_key_of m = Some k -> is_Some (m !! k) /\ forall k', is_Some (m !! k') -> ord_le k k'.
Proof.
  unfold first_key_of. intros Hh. pose proof (bt_keys_sorted m) as Hs.
  assert (k ∈ bt_keys m) as Hk by (destruct (bt_keys m); simplify_eq/=; set_solver).
  rewrite elem_of_bt_keys in Hk. split; [done|]. intros k' Hk'.
  apply elem_of_bt_keys in Hk'. destruct (bt_keys m) as [|k0 l]; simplify_eq/=.
  apply elem_of_cons in Hk' as [->|Hk']; [reflexivity|].
  apply StronglySorted_inv in Hs as [_ Hf]. rewrite Forall_forall in Hf.
  by apply ord_lt_le, Hf.
Qed.

Lemma last_key_of_None m : last_key_of m = None <-> m = ∅.
Proof.
  unfold last_key_of. by rewrite last_None, bt_keys_nil.
Qed.

Lemma last_key_of_Some m k :
  last_key_of m = Some k -> is_Some (m !! k) /\ forall k', is_Some (m !! k') -> ord_le k' k.
Proof.
  unfold last_key_of. intros Hl. pose proof (bt_keys_sorted m) as Hs.
  apply last_Some in Hl as [l Hl].
  assert (k ∈ bt_keys m) as Hk by (rewrite Hl; set_solver).
  rewrite elem_of_bt_keys in Hk. split; [done|]. intros k' Hk'.
  apply elem_of_bt_keys in Hk'. rewrite Hl in Hk', Hs.
  apply elem_of_app in Hk' as [Hk'|Hk']; [|by apply list_elem_of_singleton in Hk' as ->].
  apply ord_lt_le. eapply StronglySorted_app_1_elem_of; [done..|set_solver].
Qed.

Lemma first_key_of_is_Some m : is_Some (first_key_of m) <-> m <> ∅.
Proof. rewrite <-not_eq_None_Some, first_key_of_None. done. Qed.

(** "Every key is at or above [k]" is the test [first >= k]. *)
Lemma first_key_ge m k :
  is_none_or (fun f => ord_le k f) (first_key_of m) <->
  (forall k', is_Some (m !! k') -> ord_le k k').
Proof.
  destruct (first_key_of m) as [f|] eqn:E; simpl.
  - apply first_key_of_Some in E as [Hf Hmin]. split; [|by auto].
    intros Hle k' Hk'. etrans; [done|by apply Hmin].
  - apply first_key_of_None in E as ->. split; [|done].
    intros _ k' [v Hv]. by rewrite lookup_empty in Hv.
Qed.

Lemma elem_of_bt_range_from from m k v :
  (k, v) ∈ bt_range_from from m <-> m !! k = Some v /\ ord_le from k.
Proof.
  unfold bt_range_from. rewrite list_elem_of_filter, elem_of_bt_entries. simpl. tauto.
Qed.

Lemma bt_range_ok lo hi m :
  ord_le lo hi ->
  bt_range lo hi m = Done (filter (fun kv => ord_le lo kv.1 /\ ord_lt kv.1 hi) (bt_entries m)).
Proof. intros Hle. unfold bt_range. rewrite decide_False; [done|]. by rewrite ord_not_lt. Qed.

Lemma lookup_bt_split_off from m k :
  bt_split_off from m !! k = if decide (ord_le from k) then m !! k else None.
Proof.
  unfold bt_split_off. case_decide as Hk.
  - destruct (m !! k) eqn:E.
    + by apply map_lookup_filter_Some.
    + apply map_lookup_filter_None. by left.
  - apply map_lookup_filter_None. right. intros v _. done.
Qed.
End maps.

(** ** Sorted lists of entries *)

(** [x] before [y] in key order. *)
Definition key_lt {V} (x y : K * V) : Prop := ord_lt x.1 y.1.

#[export] Instance key_lt_antisymm {V} : AntiSymm (=) (key_lt (V:=V)).
Proof. intros x y Hxy Hyx. by destruct (ord_lt_irrefl x.1 (ord_lt_trans _ _ _ Hxy Hyx)). Qed.

Lemma StronglySorted_sublist {A} (R : relation A) (l k : list A) :
  l `sublist_of` k -> StronglySorted R k -> StronglySorted R l.
Proof.
  induction 1 as [|x l k Hsub IH|x l k Hsub IH]; intros Hs; [done|..];
    apply StronglySorted_inv in Hs as [Hs Hall]; [|by apply IH].
  constructor; [by apply IH|]. rewrite Forall_forall in *. intros y Hy.
  apply Hall. by eapply elem_of_sublist.
Qed.

Lemma sorted_keys_NoDup {V} (l : list (K * V)) : StronglySorted key_lt l -> NoDup l.*1.
Proof.
  induction 1 as [|x l _ IH Hall]; simpl; constructor; [|done].
  rewrite list_elem_of_fmap. intros (y & E & Hy). rewrite Forall_forall in Hall.
  specialize (Hall y Hy). unfold key_lt in Hall. rewrite <-E in Hall. by apply ord_lt_irrefl in Hall.
Qed.

Lemma bt_entries_sorted {V} (m : gmap K V) : StronglySorted key_lt (bt_entries m).
Proof.
  pose proof (bt_keys_sorted m) as Hs. unfold bt_keys in Hs.
  induction (bt_entries m) as [|x l IH]; simpl in *; [constructor|].
  apply StronglySorted_inv in Hs as [Hs Hall]. constructor; [by apply IH|].
  apply Forall_forall. intros y Hy. rewrite Forall_forall in Hall.
  apply Hall, list_elem_of_fmap. by exists y.
Qed.

(** A sorted list of entries is the map it collects into. *)
Lemma bt_entries_list_to_map {V} (l : list (K * V)) :
  StronglySorted key_lt l -> bt_entries (list_to_map l) = l.
Proof.
  intros Hs. apply (StronglySorted_unique key_lt); [apply bt_entries_sorted|done|].
  unfold bt_entries. rewrite merge_sort_Permutation. apply map_to_list_to_map.
  by apply sorted_keys_NoDup.
Qed.

Lemma last_key_of_list_to_map {V} (l : list (K * V)) :
  StronglySorted key_lt l -> last_key_of (list_to_map l) = last l.*1.
Proof. intros Hs. unfold last_key_of, bt_keys. by rewrite bt_entries_list_to_map. Qed.

Lemma size_sorted_list_to_map {V} (l : list (K * V)) :
  StronglySorted key_lt l -> size (list_to_map l : gmap K V) = length l.
Proof. intros Hs. apply map_size_list_to_map. by apply sorted_keys_NoDup. Qed.

Lemma lookup_sorted_list_to_map {V} (l : list (K * V)) k v :
  StronglySorted key_lt l -> (list_to_map l : gmap K V) !! k = Some v <-> (k, v) ∈ l.
Proof. intros Hs. symmetry. apply elem_of_list_to_map. by apply sorted_keys_NoDup. Qed.

(** A page of a sorted list ends strictly before what follows it. *)
Lemma sorted_page_last {V} (l : list (K * V)) n next :
  StronglySorted key_lt l -> head (drop n l) = Some next ->
  length (take n l) = n /\ is_none_or (fun last => ord_lt last next.1) (last (take n l).*1).
Proof.
  intros Hs Hd. assert (next ∈ drop n l) as Hin by (destruct (drop n l); simplify_eq/=; left).
  assert (n < length l)%nat as Hn.
  { destruct (decide (n < length l)%nat); [done|]. rewrite drop_ge in Hd by lia. done. }
  split; [rewrite length_take; lia|].
  destruct (last (take n l).*1) as [k|] eqn:E; simpl; [|done].
  apply last_Some in E as [l' E]. assert (k ∈ (take n l).*1) as Hk by (rewrite E; set_solver).
  apply list_elem_of_fmap in Hk as (y & -> & Hy).
  rewrite <-(take_drop n l) in Hs. by eapply (StronglySorted_app_1_elem_of key_lt) in Hs.
Qed.

(** A loop that inserts one value per entry collects the mapped entries over
    what was there. *)
Lemma foldM_insert {V A} (f : gmap K A -> K * V -> run (gmap K A)) (g : K -> V -> A) (m : gmap K V) acc :
  (forall acc k v, m !! k = Some v -> f acc (k, v) = Done (<[k := g k v]> acc)) ->
  exists acc', foldM f acc (bt_entries m) = Done acc' /\
    forall k, acc' !! k = match m !! k with Some v => Some (g k v) | None => acc !! k end.
Proof.
  intros Hf. assert (forall l acc, NoDup l.*1 -> (forall e, e ∈ l -> m !! e.1 = Some e.2) ->
    exists acc', foldM f acc l = Done acc' /\
      (forall e, e ∈ l -> acc' !! e.1 = Some (g e.1 e.2)) /\
      (forall k, k ∉ l.*1 -> acc' !! k = acc !! k)) as Hl.
  { induction l as [|[k v] l IH]; intros acc0 Hnd Hin; [exists acc0; by split_and!; [|intros ? ?%elem_of_nil|]|].
    simpl in Hnd. apply NoDup_cons in Hnd as [Hk Hnd]. simpl.
    rewrite (Hf acc0 k v (Hin (k, v) ltac:(left))). simpl.
    destruct (IH (<[k := g k v]> acc0) Hnd) as (acc' & E & Hsome & Hrest); [intros; apply Hin; by right|].
    exists acc'. split_and!; [done|..].
    - intros e [->|He]%elem_of_cons; [|by apply Hsome]. simpl. rewrite Hrest by done. apply lookup_insert_eq.
    - intros k' [Hne Hk']%not_elem_of_cons. rewrite Hrest by done. simpl in Hne. by rewrite lookup_insert_ne. }
  destruct (Hl (bt_entries m) acc (NoDup_bt_keys m)) as (acc' & E & Hsome & Hrest).
  { intros [k v] He. by apply elem_of_bt_entries in He. }
  exists acc'. split; [done|]. intros k. destruct (m !! k) as [v|] eqn:Ek.
  - apply elem_of_bt_entries in Ek. by apply (Hsome (k, v)).
  - apply Hrest. fold (bt_keys m). rewrite elem_of_bt_keys, Ek. by intros [].
Qed.

Lemma elem_of_bs_elements (s : gset K) k : k ∈ bs_elements s <-> k ∈ s.
Proof. unfold bs_elements. by rewrite merge_sort_Permutation, elem_of_elements. Qed.

Lemma NoDup_bs_elements (s : gset K) : NoDup (bs_elements s).
Proof. unfold bs_elements. rewrite merge_sort_Permutation. apply NoDup_elements. Qed.

Lemma bs_first_Some (s : gset K) k :
  bs_first s = Some k -> k ∈ s /\ forall k', k' ∈ s -> ord_le k k'.
Proof.
  unfold bs_first. intros Hh.
  assert (StronglySorted ord_le (bs_elements s)) as Hs
    by (apply StronglySorted_merge_sort; apply _).
  assert (k ∈ bs_elements s) as Hk by (destruct (bs_elements s); simplify_eq/=; set_solver).
  split; [by apply elem_of_bs_elements|]. intros k' Hk'.
  apply elem_of_bs_elements in Hk'. destruct (bs_elements s) as [|k0 l]; simplify_eq/=.
  apply elem_of_cons in Hk' as [->|Hk']; [reflexivity|].
  apply StronglySorted_inv in Hs as [_ Hf]. rewrite Forall_forall in Hf. by apply Hf.
Qed.

Lemma bs_last_Some (s : gset K) k :
  bs_last s = Some k -> k ∈ s /\ forall k', k' ∈ s -> ord_le k' k.
Proof.
  unfold bs_last. intros Hl.
  assert (StronglySorted ord_le (bs_elements s)) as Hs
    by (apply StronglySorted_merge_sort; apply _).
  apply last_Some in Hl as [l Hl].
  assert (k ∈ bs_elements s) as Hk by (rewrite Hl; set_solver).
  split; [by apply elem_of_bs_elements|]. intros k' Hk'.
  apply elem_of_bs_elements in Hk'. rewrite Hl in Hk', Hs.
  apply elem_of_app in Hk' as [Hk'|Hk']; [|by apply list_elem_of_singleton in Hk' as ->].
  eapply StronglySorted_app_1_elem_of; [done..|set_solver].
Qed.

Lemma elem_of_bs_split_off from (s : gset K) k :
  k ∈ bs_split_off from s <-> ord_le from k /\ k ∈ s.
Proof. unfold bs_split_off. by rewrite elem_of_filter. Qed.
Lemma bt_entries_insert {V} (h : gmap K V) k v :
  h !! k = None -> bt_entries (<[k := v]> h) ≡ₚ (k, v) :: bt_entries h.
Proof. intros Hk. unfold bt_entries. rewrite !merge_sort_Permutation. by apply map_to_list_insert. Qed.

(** A sum over the values when one entry is set. *)
Lemma Nsum_update {V} (f : V -> N) (h : gmap K V) k v :
  Nsum ((fun e => f e.2) <$> bt_entries (<[k := v]> h)) + match h !! k with Some w => f w | None => 0 end =
  f v + Nsum ((fun e => f e.2) <$> bt_entries h).
Proof.
  destruct (h !! k) as [w|] eqn:Ek.
  - rewrite <-(insert_delete_id h k w Ek) at 2. rewrite <-(insert_delete_eq h k v).
    rewrite !bt_entries_insert by apply lookup_delete_eq. cbn. lia.
  - rewrite bt_entries_insert by done. unfold Nsum. cbn. lia.
Qed.

End btree.

(** The same test over numeric keys, as the components write it. *)
Lemma first_key_geN {V} (m : gmap N V) (k : N) :
  is_none_or (fun f => k <= f) (first_key_of m) <-> (forall k', is_Some (m !! k') -> k <= k').
Proof. exact (first_key_ge m k). Qed.
