(* ===== verification/Types.v ===== *)
(** * Core domain types ([paros-core/src/types.rs])

    Ballots with their total order, the opaque [Value], the FNV-1a fold behind
    every fingerprint and the [Fingerprint] interface the proposer counts
    votes by. *)

From S2P Require Import Prelude BTree.

Abbreviation NodeId := N (only parsing).
Abbreviation Slot := N (only parsing).
(** A byte is a number below 256, a [Value] an opaque string of bytes. *)
Abbreviation bytes := (list N) (only parsing).

Record Ballot := mkBallot { round : N; node : NodeId }.

#[export] Instance Ballot_eq_dec : EqDecision Ballot.
Proof. solve_decision. Defined.
#[export] Instance Ballot_countable : Countable Ballot.
Proof.
  refine (inj_countable' (fun b => (round b, node b)) (fun p => mkBallot p.1 p.2) _).
  by intros [].
Defined.

(** [Ballot::zero]. *)
Definition zero : Ballot := {| round := 0; node := 0 |}.

(** [impl Ord for Ballot]: the higher round wins, ties go to the node id, and
    the assertion that the order agrees with equality. *)
Definition cmp (a b : Ballot) : run comparison :=
  let order := match N.compare (round a) (round b) with
               | Eq => N.compare (node a) (node b)
               | o => o
               end in
  rassert ((order = Eq) <-> (a = b)) "ballot order agrees with ballot equality";;
  mret order.

Definition ballot_le (a b : Ballot) : Prop :=
  round a < round b \/ (round a = round b /\ node a <= node b).

#[export] Instance ballot_le_dec : RelDecision ballot_le.
Proof. intros a b. unfold ballot_le. apply _. Defined.

#[export] Program Instance Ballot_ord : Ord Ballot := {| ord_le := ballot_le |}.
Next Obligation.
  split; [split; [split|]|].
  - intros []; unfold ballot_le; simpl; lia.
  - intros [] [] []; unfold ballot_le; simpl; lia.
  - intros [r n] [r' n']; unfold ballot_le; simpl; intros; f_equal; lia.
  - intros [r n] [r' n']. unfold strict, ballot_le; simpl.
    destruct (N.lt_trichotomy r r') as [?|[->|?]]; [left; lia| |right; right; lia].
    destruct (N.lt_trichotomy n n') as [?|[->|?]]; [left; lia|by right; left|right; right; lia].
Qed.

#[export] Instance ballot_le_partial_order : PartialOrder ballot_le.
Proof. change (PartialOrder (@ord_le Ballot _ Ballot_ord)). apply _. Qed.

Ltac blia := cbv beta iota delta [ord_lt ord_max ord_le Ballot_ord ballot_le] in *;
             simpl in *; lia.

Declare Scope ballot_scope.
Delimit Scope ballot_scope with B.
Notation "a ≤ b" := (@ord_le Ballot _ Ballot_ord a b) : ballot_scope.
Notation "a < b" := (@ord_lt Ballot _ Ballot_ord a b) : ballot_scope.

(** ** Fingerprints *)

Definition FNV_OFFSET : N := 0xcbf29ce484222325.
Definition FNV_PRIME : N := 0x00000100000001b3.

(** [hash ^= byte; hash = hash.wrapping_mul(PRIME)]. *)
Definition fnv_step (hash byte : N) : N := (N.lxor hash byte * FNV_PRIME) mod 2 ^ 64.
Definition fnv1a (hash : N) (bs : bytes) : N := foldl fnv_step hash bs.

(** [u64::to_le_bytes] and [u128::to_le_bytes]. *)
Fixpoint to_le_bytes (n : nat) (x : N) : bytes :=
  match n with
  | O => []
  | S n' => x mod 256 :: to_le_bytes n' (x / 256)
  end.

(** [trait Fingerprint]. *)
Class Fingerprint (V : Type) := fingerprint : V -> N.

(** ** Facts *)

Lemma cmp_returns a b : cmp a b = Done (if decide (a = b) then Eq
                                        else if decide (a ≤ b)%B then Lt else Gt).
Proof.
  unfold cmp. destruct a as [r n], b as [r' n']. simpl.
  destruct (N.compare_spec r r') as [->|?|?];
    [destruct (N.compare_spec n n') as [->|?|?]|..];
    (rewrite rassert_true; [|split; intros; simplify_eq; try done; lia]);
    cbn; repeat case_decide; simplify_eq; try done; blia.
Qed.

Lemma zero_le (b : Ballot) : (zero ≤ b)%B.
Proof. destruct b. blia. Qed.

Definition FNV_INV : N := 14886173955864302971.

Lemma byte_lxor_lt h b : h < 2 ^ 64 -> b < 256 -> N.lxor h b < 2 ^ 64.
Proof.
  intros Hh Hb. destruct (decide (N.lxor h b = 0)) as [->|Hne]; [lia|].
  apply N.log2_lt_pow2; [lia|].
  eapply N.le_lt_trans; [apply N.log2_lxor|].
  apply N.max_lub_lt.
  - destruct (decide (h = 0)) as [->|]; [simpl; lia|]. apply N.log2_lt_pow2; lia.
  - destruct (decide (b = 0)) as [->|]; [simpl; lia|].
    apply N.log2_lt_pow2; [lia|]. eapply N.lt_le_trans; [apply Hb|]. vm_compute. discriminate.
Qed.

Lemma fnv_mul_inj x y :
  x < 2 ^ 64 -> y < 2 ^ 64 -> (x * FNV_PRIME) mod 2 ^ 64 = (y * FNV_PRIME) mod 2 ^ 64 -> x = y.
Proof.
  intros Hx Hy E.
  assert (forall z, z < 2 ^ 64 -> ((z * FNV_PRIME) mod 2 ^ 64 * FNV_INV) mod 2 ^ 64 = z) as Hinv.
  { intros z Hz. rewrite N.Div0.mul_mod_idemp_l, <-N.mul_assoc, N.Div0.mul_mod.
    replace ((FNV_PRIME * FNV_INV) mod 2 ^ 64) with 1 by (vm_compute; reflexivity).
    rewrite N.mul_1_r, N.Div0.mod_mod. by apply N.mod_small. }
  rewrite <-(Hinv x Hx), <-(Hinv y Hy). by rewrite E.
Qed.

Lemma fnv_step_lt h b : fnv_step h b < 2 ^ 64.
Proof. unfold fnv_step. apply N.mod_lt. done. Qed.

Lemma fnv_step_inj h b h' b' :
  h < 2 ^ 64 -> h' < 2 ^ 64 -> b < 256 -> b' < 256 ->
  fnv_step h b = fnv_step h' b' -> N.lxor h b = N.lxor h' b'.
Proof. intros. apply fnv_mul_inj; try apply byte_lxor_lt; done. Qed.

Lemma fnv1a_lt h bs : h < 2 ^ 64 -> fnv1a h bs < 2 ^ 64.
Proof.
  revert h. induction bs as [|b bs IH]; intros h Hh; [done|].
  apply IH, fnv_step_lt.
Qed.

Lemma fnv1a_app h bs bs' : fnv1a h (bs ++ bs') = fnv1a (fnv1a h bs) bs'.
Proof. apply foldl_app. Qed.

Lemma fnv1a_inj bs h h' :
  h < 2 ^ 64 -> h' < 2 ^ 64 -> Forall (fun b => b < 256) bs ->
  fnv1a h bs = fnv1a h' bs -> h = h'.
Proof.
  intros Hh Hh' Hbs. revert h h' Hh Hh'.
  induction Hbs as [|b bs Hb _ IH]; intros h h' Hh Hh'; [done|].
  simpl. intros E. apply IH in E; [|apply fnv_step_lt..].
  apply fnv_step_inj in E; [|done..].
  apply (f_equal (fun x => N.lxor x b)) in E.
  by rewrite !N.lxor_assoc, !N.lxor_nilpotent, !N.lxor_0_r in E.
Qed.

(** The fold separates any two strings that differ in exactly one byte. *)
Lemma fnv1a_one_byte h pre suf b b' :
  h < 2 ^ 64 -> b < 256 -> b' < 256 -> Forall (fun x => x < 256) suf ->
  fnv1a h (pre ++ b :: suf) = fnv1a h (pre ++ b' :: suf) -> b = b'.
Proof.
  intros Hh Hb Hb' Hsuf. rewrite !fnv1a_app. simpl. intros E.
  apply fnv1a_inj in E; [|apply fnv_step_lt..|done].
  apply fnv_step_inj in E; [|by apply fnv1a_lt..|done|done].
  apply (f_equal (N.lxor (fnv1a h pre))) in E.
  by rewrite <-!N.lxor_assoc, N.lxor_nilpotent, !N.lxor_0_l in E.
Qed.
