(* ===== verification/Retained.v ===== *)
(** * The retained window ([paros-core/src/retained.rs])

    A map with a floor under it: everything at or above the floor and nothing
    below it.  The acceptor's two logs and a matchmaker's registries are
    instances.  [window_wf] is the type's one invariant; under it no operation
    of the type panics, except for the two whose argument may break it
    ([window_insert] and [window_raise_floor]). *)

From S2P Require Import Prelude BTree.

Record RetainedWindow (K V : Type) `{Countable K} := mkWindow {
  w_entries : gmap K V;
  w_floor : K }.
Arguments mkWindow {_ _ _ _} _ _.
Arguments w_entries {_ _ _ _} _.
Arguments w_floor {_ _ _ _} _.

Section window.
Context {K : Type} `{Ord K, !Countable K} {V : Type}.
Implicit Types (w : RetainedWindow K V) (k : K).

Definition window_first_key w : run (option K) :=
  let first := first_key_of (w_entries w) in
  rassert (is_Some first <-> w_entries w <> ∅) "a window has a first key iff it holds an entry";;
  mret first.

Definition window_assert_invariants w : run unit :=
  first ← window_first_key w;
  rassert (is_none_or (fun f => ord_le (w_floor w) f) first)
    "no entry survives below the retained window's floor".

Definition window_new (entries : gmap K V) (floor : K) : run (RetainedWindow K V) :=
  let count := size entries in
  let window := mkWindow entries floor in
  window_assert_invariants window;;
  rassert (size (w_entries window) = count) "a window keeps every entry it is built from";;
  mret window.

Definition window_floor w : run K :=
  rassert (is_none_or (fun first => ord_le (w_floor w) first) (first_key_of (w_entries w)))
    "no entry survives below the retained window's floor";;
  mret (w_floor w).

Definition window_below_floor w k : run bool :=
  let below := bool_decide (ord_lt k (w_floor w)) in
  (if below then rassert (w_entries w !! k = None) "a key below the floor is not retained"
   else mret tt);;
  mret below.

Definition window_entries w : run (gmap K V) :=
  rassert (is_none_or (fun first => ord_le (w_floor w) first) (first_key_of (w_entries w)))
    "no entry survives below the retained window's floor";;
  mret (w_entries w).

Definition window_get w k : run (option V) :=
  let value := w_entries w !! k in
  (if decide (is_Some value) then
     below ← window_below_floor w k;
     rassert (below = false) "a retained entry sits at or above the floor"
   else mret tt);;
  mret value.

Definition window_contains_key w k : run bool :=
  let contains := bool_decide (is_Some (w_entries w !! k)) in
  (if contains then
     below ← window_below_floor w k;
     rassert (below = false) "a retained key sits at or above the floor"
   else mret tt);;
  mret contains.

(** [range(from..)]. *)
Definition window_range_from w (from : K) : list (K * V) := bt_range_from from (w_entries w).

(** [range(lo..hi)]. *)
Definition window_range w (lo hi : K) : run (list (K * V)) := bt_range lo hi (w_entries w).

Definition window_last_key w : run (option K) :=
  let last := last_key_of (w_entries w) in
  rassert (is_none_or (fun k => ord_le (w_floor w) k) last) "the last entry sits above the floor";;
  mret last.

Definition window_insert w k (v : V) : run (RetainedWindow K V * option V) :=
  below ← window_below_floor w k;
  rassert (below = false) "a retained window never takes an entry below its floor";;
  let previous := w_entries w !! k in
  let w' := mkWindow (<[k := v]> (w_entries w)) (w_floor w) in
  rassert (is_Some (w_entries w' !! k)) "an inserted entry is retained";;
  mret (w', previous).

Definition window_remove w k : RetainedWindow K V * option V :=
  (mkWindow (delete k (w_entries w)) (w_floor w), w_entries w !! k).

Definition window_raise_floor w (floor : K) : run (RetainedWindow K V) :=
  rassert (ord_le (w_floor w) floor) "a retained window's floor never moves backward";;
  let w' := mkWindow (bt_split_off floor (w_entries w)) floor in
  rassert (w_floor w' = floor) "the floor lands where it was raised to";;
  window_assert_invariants w';;
  mret w'.

(** ** The invariant and the operations under it *)

Definition window_wf w : Prop := forall k, is_Some (w_entries w !! k) -> ord_le (w_floor w) k.

Lemma window_wf_first w :
  window_wf w <-> is_none_or (fun f => ord_le (w_floor w) f) (first_key_of (w_entries w)).
Proof. unfold window_wf. by rewrite first_key_ge. Qed.

Lemma window_first_key_ok w : window_first_key w = Done (first_key_of (w_entries w)).
Proof. unfold window_first_key. by rewrite rassert_true by apply first_key_of_is_Some. Qed.

Lemma window_assert_invariants_ok w : window_wf w -> window_assert_invariants w = Done tt.
Proof.
  intros Hw. unfold window_assert_invariants. rewrite window_first_key_ok, bind_Done.
  apply rassert_true. by apply window_wf_first.
Qed.

(** The constructor accepts exactly the well-formed windows. *)
Lemma window_new_iff entries floor w :
  window_new entries floor = Done w <-> w = mkWindow entries floor /\ window_wf w.
Proof.
  unfold window_new. split.
  - intros E. rinv E. unfold window_assert_invariants in E0.
    rewrite window_first_key_ok, bind_Done in E0. apply rassert_inv in E0.
    injection E as <-. split; [done|]. by apply window_wf_first.
  - intros [-> Hw]. rewrite window_assert_invariants_ok by done. rsimpl.
    by rewrite rassert_true.
Qed.

Lemma window_new_ok entries floor :
  window_wf (mkWindow entries floor) -> window_new entries floor = Done (mkWindow entries floor).
Proof. intros. by apply window_new_iff. Qed.

Lemma window_floor_ok w : window_wf w -> window_floor w = Done (w_floor w).
Proof. intros Hw. unfold window_floor. by rewrite rassert_true by by apply window_wf_first. Qed.

Lemma window_entries_ok w : window_wf w -> window_entries w = Done (w_entries w).
Proof. intros Hw. unfold window_entries. by rewrite rassert_true by by apply window_wf_first. Qed.

Lemma window_below_None w k : window_wf w -> ord_lt k (w_floor w) -> w_entries w !! k = None.
Proof.
  intros Hw Hlt. destruct (w_entries w !! k) eqn:E; [|done].
  destruct Hlt. apply Hw. by rewrite E.
Qed.

Lemma window_below_floor_ok w k :
  window_wf w -> window_below_floor w k = Done (bool_decide (ord_lt k (w_floor w))).
Proof.
  intros Hw. unfold window_below_floor. case_bool_decide; [|done].
  by rewrite rassert_true by by apply window_below_None.
Qed.

Lemma window_get_ok w k : window_wf w -> window_get w k = Done (w_entries w !! k).
Proof.
  intros Hw. unfold window_get. case_decide as Hk; [|done].
  rewrite window_below_floor_ok, bind_Done by done.
  rewrite rassert_true; [done|]. apply bool_decide_eq_false_2, ord_not_lt. by apply Hw.
Qed.

Lemma window_contains_key_ok w k :
  window_wf w -> window_contains_key w k = Done (bool_decide (is_Some (w_entries w !! k))).
Proof.
  intros Hw. unfold window_contains_key. case_bool_decide as Hk; [|done].
  rewrite window_below_floor_ok, bind_Done by done.
  rewrite rassert_true; [done|]. apply bool_decide_eq_false_2, ord_not_lt. by apply Hw.
Qed.

Lemma window_last_key_ok w : window_wf w -> window_last_key w = Done (last_key_of (w_entries w)).
Proof.
  intros Hw. unfold window_last_key. rewrite rassert_true; [done|].
  destruct (last_key_of _) eqn:E; simpl; [|done]. apply last_key_of_Some in E as [? _]. by apply Hw.
Qed.

Lemma window_insert_ok w k v :
  window_wf w -> ord_le (w_floor w) k ->
  window_insert w k v = Done (mkWindow (<[k := v]> (w_entries w)) (w_floor w), w_entries w !! k).
Proof.
  intros Hw Hk. unfold window_insert. rewrite window_below_floor_ok, bind_Done by done.
  rassert_by (by apply bool_decide_eq_false_2, ord_not_lt).
  rassert_by (simpl; rewrite lookup_insert_eq; by eexists). done.
Qed.

(** Inserting below the floor is the panic the type exists for. *)
Lemma window_insert_below w k v :
  window_wf w -> ord_lt k (w_floor w) ->
  window_insert w k v = Panic "a retained window never takes an entry below its floor".
Proof.
  intros Hw Hk. unfold window_insert. rewrite window_below_floor_ok, bind_Done by done.
  rewrite bool_decide_eq_true_2 by done. done.
Qed.

Lemma window_raise_floor_wf w floor : window_wf (mkWindow (bt_split_off floor (w_entries w)) floor).
Proof. intros k. simpl. rewrite lookup_bt_split_off. case_decide; [done|by intros [? ?]]. Qed.

Lemma window_raise_floor_ok w floor :
  ord_le (w_floor w) floor ->
  window_raise_floor w floor = Done (mkWindow (bt_split_off floor (w_entries w)) floor).
Proof.
  intros Hle. unfold window_raise_floor. rassert_by done. rassert_by done.
  by rewrite window_assert_invariants_ok by apply window_raise_floor_wf.
Qed.

Lemma window_insert_wf w k v :
  window_wf w -> ord_le (w_floor w) k -> window_wf (mkWindow (<[k := v]> (w_entries w)) (w_floor w)).
Proof.
  intros Hw Hk k'. simpl. rewrite lookup_insert. case_decide; [by subst|apply Hw].
Qed.

Lemma window_remove_wf w k : window_wf w -> window_wf (window_remove w k).1.
Proof.
  intros Hw k'. simpl. rewrite lookup_delete. case_decide; [by intros [? ?]|apply Hw].
Qed.
End window.

#[export] Hint Resolve window_insert_wf window_remove_wf window_raise_floor_wf : paros.

(** Rewrites every window operation to its pure result, the window's
    invariant being in the context or provable from the hints. *)
Ltac window_ok :=
  repeat first
    [ rewrite bind_Done
    | rewrite window_first_key_ok
    | rewrite window_floor_ok by eauto with paros
    | rewrite window_entries_ok by eauto with paros
    | rewrite window_below_floor_ok by eauto with paros
    | rewrite window_get_ok by eauto with paros
    | rewrite window_contains_key_ok by eauto with paros
    | rewrite window_last_key_ok by eauto with paros
    | rewrite window_assert_invariants_ok by eauto with paros ].
