(* ===== verification/Journal.v ===== *)
(** * The journal state machine ([paros-core/src/journal/])

    What a log slot decides ([Command]), its fingerprint, and the per-journal
    state machine every node folds over the decided slots
    ([JournalState::apply]): the leader fence, the dense positions, retries
    answered from the log, and truncation. *)

From S2P Require Import Prelude BTree Types.

Abbreviation Seq := N (only parsing).
Abbreviation LeaderUuid := N (only parsing).

(** ** Commands ([journal/command.rs], [journal/ids.rs]) *)

(** [LeaderUuid::is_set]. *)
Definition is_set (leader : LeaderUuid) : Prop := leader <> 0.

Record Entry := mkEntry { e_leader : LeaderUuid; e_seq : Seq; e_records : list bytes }.

Inductive Control :=
| Truncate (leader : LeaderUuid) (up_to : Seq)
| SetLeader (new : LeaderUuid) (old : option LeaderUuid)
| Noop.

Inductive Command :=
| Write (e : Entry)
| Ctrl (c : Control).

#[export] Instance Entry_eq_dec : EqDecision Entry.
Proof. solve_decision. Defined.
#[export] Instance Control_eq_dec : EqDecision Control.
Proof. solve_decision. Defined.
#[export] Instance Command_eq_dec : EqDecision Command.
Proof. solve_decision. Defined.

(** [Entry::count]. *)
Definition count (e : Entry) : N := len (e_records e).

(** [Command::write]. *)
Definition command_write (c : Command) : option Entry :=
  match c with Write e => Some e | Ctrl _ => None end.

Definition command_fingerprint (command : Command) : N :=
  match command with
  | Write entry =>
      let hash := fnv1a FNV_OFFSET [0] in
      let hash := fnv1a hash (to_le_bytes 16 (e_leader entry)) in
      let hash := fnv1a hash (to_le_bytes 8 (e_seq entry)) in
      let hash := fnv1a hash (to_le_bytes 8 (count entry)) in
      foldl (fun hash record => fnv1a (fnv1a hash (to_le_bytes 8 (len record))) record)
        hash (e_records entry)
  | Ctrl (Truncate leader up_to) =>
      let hash := fnv1a FNV_OFFSET [1] in
      let hash := fnv1a hash (to_le_bytes 16 leader) in
      fnv1a hash (to_le_bytes 8 up_to)
  | Ctrl Noop => fnv1a FNV_OFFSET [2]
  | Ctrl (SetLeader new old) =>
      let hash := fnv1a FNV_OFFSET [3] in
      let hash := fnv1a hash (to_le_bytes 16 new) in
      fnv1a hash (to_le_bytes 16 (default 0 old))
  end.

#[export] Instance Command_fingerprint : Fingerprint Command := command_fingerprint.

(** ** The state ([journal/state.rs]) *)

Inductive WriterMode := Single | Multi.

#[export] Instance WriterMode_eq_dec : EqDecision WriterMode.
Proof. solve_decision. Defined.

Record JournalState := mkJournal {
  j_leader : option LeaderUuid;
  j_term : N;
  j_next_seq : Seq;
  j_first_seq : Seq }.

Record JournalView := mkView {
  v_leader : option LeaderUuid;
  v_next_seq : Seq;
  v_first_seq : Seq }.

#[export] Instance JournalState_eq_dec : EqDecision JournalState.
Proof. solve_decision. Defined.
#[export] Instance JournalView_eq_dec : EqDecision JournalView.
Proof. solve_decision. Defined.

(** [JournalState::default]. *)
Definition journal_default : JournalState := mkJournal None 0 0 0.

Inductive Outcome :=
| OAccepted (seq : Seq) (count : N)
| ODuplicate (seq : Seq) (count : N)
| ORefused (v : JournalView)
| OTruncated (v : JournalView)
| OLeader (v : JournalView)
| OLeaderRefused (v : JournalView)
| OTrimmed (v : JournalView)
| OTruncateRefused (v : JournalView)
| OWrongMode (v : JournalView)
| ONoop.

Definition view (s : JournalState) : JournalView :=
  mkView (j_leader s) (j_next_seq s) (j_first_seq s).

Definition is_current (s : JournalState) (leader : LeaderUuid) : run bool :=
  let current := bool_decide (j_leader s = Some leader) in
  (if current then
     rassert (0 < j_term s) "a current leader holds a term";;
     rassert (is_set leader) "the unset uuid never leads"
   else mret tt);;
  mret current.

Definition journal_assert_invariants (s : JournalState) : run unit :=
  rassert (j_first_seq s <= j_next_seq s)
    "a journal's first position never passes its next one";;
  rassert (is_Some (j_leader s) <-> 0 < j_term s)
    "a journal has a leader exactly from its first term";;
  rassert (is_none_or is_set (j_leader s)) "the unset uuid never leads".

Definition set_next_seq (s : JournalState) (n : Seq) : JournalState :=
  mkJournal (j_leader s) (j_term s) n (j_first_seq s).

Definition apply_write (s : JournalState) (entry : Entry) (accepted_at : Seq -> option Entry)
  : run (JournalState * Outcome) :=
  if decide (e_seq entry < j_first_seq s) then mret (s, OTruncated (view s)) else
  if decide (e_seq entry < j_next_seq s) then
    match accepted_at (e_seq entry) with
    | Some original =>
        if decide (original = entry) then
          last ← u64_add (e_seq entry) (count entry);
          rassert (last <= j_next_seq s) "an accepted write lies below the next position";;
          mret (s, ODuplicate (e_seq entry) (count entry))
        else mret (s, ORefused (view s))
    | None => mret (s, ORefused (view s))
    end
  else
  current ← is_current s (e_leader entry);
  if decide (current = false \/ e_seq entry <> j_next_seq s \/ e_records entry = [])
  then mret (s, ORefused (view s)) else
  rassert (0 < count entry) "an accepted write carries records";;
  rassert (e_seq entry = j_next_seq s) "an accepted write takes the position it names";;
  let seq := j_next_seq s in
  next ← u64_add seq (count entry);
  let s' := set_next_seq s next in
  rassert (seq < j_next_seq s') "an accepted write advances the next position";;
  mret (s', OAccepted seq (count entry)).

Definition apply_append (s : JournalState) (entry : Entry) : run (JournalState * Outcome) :=
  rassert (~ is_set (e_leader entry)) "a multi-writer write names no leader";;
  if decide (e_records entry = []) then mret (s, ORefused (view s)) else
  let seq := j_next_seq s in
  next ← u64_add seq (count entry);
  let s' := set_next_seq s next in
  rassert (seq < j_next_seq s') "an accepted write advances the next position";;
  mret (s', OAccepted seq (count entry)).

Definition apply_set_leader (s : JournalState) (new : LeaderUuid) (old : option LeaderUuid)
  : run (JournalState * Outcome) :=
  if decide (old <> j_leader s \/ ~ is_set new \/ Some new = j_leader s)
  then mret (s, OLeaderRefused (view s)) else
  rassert (old = j_leader s) "a won SetLeader named the leader in force";;
  rassert (is_set new) "a won SetLeader installs a set uuid";;
  rassert (Some new <> j_leader s) "a won SetLeader installs a different uuid";;
  let before := j_term s in
  term ← u64_add (j_term s) 1;
  let s' := mkJournal (Some new) term (j_next_seq s) (j_first_seq s) in
  rassert (before < j_term s') "a won SetLeader moves past the term it was judged in";;
  current ← is_current s' new;
  rassert (current = true) "the new leader is the current one";;
  mret (s', OLeader (view s')).

Definition trim (s : JournalState) (up_to : Seq) : run (JournalState * Outcome) :=
  let before := j_first_seq s in
  let first := N.max (j_first_seq s) (N.min up_to (j_next_seq s)) in
  let s' := mkJournal (j_leader s) (j_term s) (j_next_seq s) first in
  rassert (before <= j_first_seq s') "a truncation never lowers first_seq";;
  rassert (j_first_seq s' <= j_next_seq s') "a truncation is clamped to next_seq";;
  mret (s', OTrimmed (view s')).

Definition apply_truncate (s : JournalState) (leader : LeaderUuid) (up_to : Seq)
  : run (JournalState * Outcome) :=
  current ← is_current s leader;
  if decide (current = false) then mret (s, OTruncateRefused (view s)) else
  trim s up_to.

Definition judge (s : JournalState) (mode : WriterMode) (command : Command)
  (accepted_at : Seq -> option Entry) : run (JournalState * Outcome) :=
  match mode, command with
  | _, Ctrl Noop => mret (s, ONoop)
  | Single, Write entry =>
      if decide (is_set (e_leader entry)) then apply_write s entry accepted_at
      else mret (s, OWrongMode (view s))
  | Single, Ctrl (Truncate leader up_to) =>
      if decide (is_set leader) then apply_truncate s leader up_to
      else mret (s, OWrongMode (view s))
  | Single, Ctrl (SetLeader new old) => apply_set_leader s new old
  | Multi, Write entry =>
      if decide (is_set (e_leader entry)) then mret (s, OWrongMode (view s))
      else apply_append s entry
  | Multi, Ctrl (Truncate leader up_to) =>
      if decide (is_set leader) then mret (s, OWrongMode (view s)) else trim s up_to
  | Multi, Ctrl (SetLeader _ _) => mret (s, OWrongMode (view s))
  end.

(** The outcomes a multi-writer journal never gives. *)
Definition fenced_or_retry (o : Outcome) : bool :=
  match o with
  | ODuplicate _ _ | OTruncated _ | OLeader _ | OLeaderRefused _ | OTruncateRefused _ => true
  | _ => false
  end.

Definition assert_mode (s : JournalState) (mode : WriterMode) (outcome : Outcome) : run unit :=
  match mode with
  | Single => mret tt
  | Multi =>
      rassert (j_leader s = None) "a multi-writer journal never gains a leader";;
      rassert (j_term s = 0) "a multi-writer journal never has a term";;
      rassert (fenced_or_retry outcome = false) "a multi-writer journal judges no fence and no retry"
  end.

(** The negative space [apply] asserts per outcome. *)
Definition assert_outcome (before after : JournalState) (outcome : Outcome) : run unit :=
  match outcome with
  | ORefused _ | OTruncated _ | OLeaderRefused _ | OTruncateRefused _ | OWrongMode _
  | ODuplicate _ _ | ONoop =>
      rassert (after = before) "a refused or no-op command moves nothing"
  | OAccepted seq n =>
      rassert (seq = j_next_seq before) "a write is accepted at the next position";;
      rassert (0 < n) "an accepted write carries records";;
      last ← u64_add seq n;
      rassert (j_next_seq after = last) "a write advances by its records";;
      rassert (j_term after = j_term before) "a write never moves the term";;
      rassert (j_first_seq after = j_first_seq before) "a write never truncates"
  | OLeader v =>
      rassert (v = view after) "a won SetLeader reports the state after it";;
      term ← u64_add (j_term before) 1;
      rassert (j_term after = term) "a won SetLeader raises the term by one";;
      rassert (j_leader after <> j_leader before) "a won SetLeader changes the leader";;
      rassert (j_next_seq after = j_next_seq before) "a SetLeader moves no position"
  | OTrimmed v =>
      rassert (v = view after) "a truncation reports the state after it";;
      rassert (j_next_seq after = j_next_seq before) "a truncation never moves next_seq";;
      rassert (j_term after = j_term before) "a truncation keeps the leader"
  end.

Definition assert_judged (before : JournalState) (outcome : Outcome) : run unit :=
  match outcome with
  | ORefused v | OTruncated v | OLeaderRefused v | OTruncateRefused v | OWrongMode v =>
      rassert (v = view before) "a refusal names the state it was judged against"
  | _ => mret tt
  end.

Definition apply (s : JournalState) (mode : WriterMode) (command : Command)
  (accepted_at : Seq -> option Entry) : run (JournalState * Outcome) :=
  journal_assert_invariants s;;
  (if decide (mode = Multi) then
     rassert (j_leader s = None) "a multi-writer journal never has a leader" else mret tt);;
  '(s', outcome) ← judge s mode command accepted_at;
  assert_mode s' mode outcome;;
  rassert (j_term s <= j_term s') "a journal's term never decreases";;
  rassert (j_next_seq s <= j_next_seq s') "a journal's next position never decreases";;
  rassert (j_first_seq s <= j_first_seq s') "a journal's first position never decreases";;
  (if decide (j_leader s' <> j_leader s) then
     rassert (j_term s < j_term s') "a journal's leader changes only with its term" else mret tt);;
  assert_outcome s s' outcome;;
  assert_judged s outcome;;
  journal_assert_invariants s';;
  mret (s', outcome).

(** ** The state machine's contract *)

(** The invariant of a journal under its writer mode. *)
Definition journal_wf (mode : WriterMode) (s : JournalState) : Prop :=
  j_first_seq s <= j_next_seq s /\
  (is_Some (j_leader s) <-> 0 < j_term s) /\
  is_none_or is_set (j_leader s) /\
  (mode = Multi -> j_leader s = None).

(** What the replica's positions index promises the state machine: a write it
    reports at a position was accepted whole below the next position. *)
Class PositionsIndex (s : JournalState) (accepted_at : Seq -> option Entry) : Prop :=
  positions_below : forall q e, accepted_at q = Some e -> q + count e <= j_next_seq s.

(** The positions and the term the command may consume fit their [u64]s. *)
Definition fits (s : JournalState) (command : Command) : Prop :=
  j_next_seq s <= u64_max /\
  match command with
  | Write e => j_next_seq s + count e <= u64_max
  | Ctrl (SetLeader _ _) => j_term s + 1 <= u64_max
  | _ => True
  end.

Lemma journal_assert_invariants_ok mode s :
  journal_wf mode s -> journal_assert_invariants s = Done tt.
Proof.
  intros (? & ? & ? & ?). unfold journal_assert_invariants.
  rassert_by done. rassert_by done. by apply rassert_true.
Qed.

Lemma is_current_ok mode s leader :
  journal_wf mode s -> is_current s leader = Done (bool_decide (j_leader s = Some leader)).
Proof.
  intros (? & Ht & Hl & _). unfold is_current. case_bool_decide as E; [|done].
  rewrite E in Ht, Hl. simpl in Hl.
  rewrite (rassert_true (0 < j_term s)) by (apply Ht; by eexists). rsimpl.
  by rewrite rassert_true.
Qed.

Lemma count_pos e : e_records e <> [] -> 0 < count e.
Proof. unfold count, len. destruct (e_records e); simpl; [done|lia]. Qed.

(** The effect of a command, as the call reference of the data plane gives it:
    what the journal answers and the state it moves to. *)
Definition write_single (s : JournalState) (e : Entry) (accepted_at : Seq -> option Entry)
  : JournalState * Outcome :=
  if decide (e_seq e < j_first_seq s) then (s, OTruncated (view s))
  else if decide (e_seq e < j_next_seq s) then
    (s, if decide (accepted_at (e_seq e) = Some e) then ODuplicate (e_seq e) (count e)
        else ORefused (view s))
  else if decide (j_leader s = Some (e_leader e) /\ e_seq e = j_next_seq s /\ e_records e <> [])
  then (set_next_seq s (j_next_seq s + count e), OAccepted (j_next_seq s) (count e))
  else (s, ORefused (view s)).

Definition write_multi (s : JournalState) (e : Entry) : JournalState * Outcome :=
  if decide (e_records e = []) then (s, ORefused (view s))
  else (set_next_seq s (j_next_seq s + count e), OAccepted (j_next_seq s) (count e)).

Definition trimmed (s : JournalState) (up_to : Seq) : JournalState * Outcome :=
  let s' := mkJournal (j_leader s) (j_term s) (j_next_seq s)
              (N.max (j_first_seq s) (N.min up_to (j_next_seq s))) in
  (s', OTrimmed (view s')).

Definition journal_spec (s : JournalState) (mode : WriterMode) (command : Command)
  (accepted_at : Seq -> option Entry) : JournalState * Outcome :=
  match mode, command with
  | _, Ctrl Noop => (s, ONoop)
  | Single, Write e =>
      if decide (is_set (e_leader e)) then write_single s e accepted_at else (s, OWrongMode (view s))
  | Single, Ctrl (Truncate leader up_to) =>
      if decide (is_set leader) then
        if decide (j_leader s = Some leader) then trimmed s up_to else (s, OTruncateRefused (view s))
      else (s, OWrongMode (view s))
  | Single, Ctrl (SetLeader new old) =>
      if decide (old = j_leader s /\ is_set new /\ Some new <> j_leader s) then
        let s' := mkJournal (Some new) (j_term s + 1) (j_next_seq s) (j_first_seq s) in
        (s', OLeader (view s'))
      else (s, OLeaderRefused (view s))
  | Multi, Write e =>
      if decide (is_set (e_leader e)) then (s, OWrongMode (view s)) else write_multi s e
  | Multi, Ctrl (Truncate leader up_to) =>
      if decide (is_set leader) then (s, OWrongMode (view s)) else trimmed s up_to
  | Multi, Ctrl (SetLeader _ _) => (s, OWrongMode (view s))
  end.

Lemma apply_write_ok s e accepted_at :
  journal_wf Single s -> PositionsIndex s accepted_at -> fits s (Write e) ->
  apply_write s e accepted_at = Done (write_single s e accepted_at).
Proof.
  intros Hwf Hidx [? Hfit]. unfold apply_write, write_single. case_decide; [done|].
  case_decide as Hold.
  { destruct (accepted_at (e_seq e)) as [e'|] eqn:E; [|by rewrite decide_False].
    destruct (decide (e' = e)) as [->|Hne].
    - pose proof (Hidx _ _ E). rewrite u64_add_ok by lia. rsimpl.
      rassert_by lia. by rewrite decide_True.
    - rewrite decide_False; [done|congruence]. }
  rewrite (is_current_ok Single) by done. rsimpl.
  case_decide as Href.
  { rewrite decide_False; [done|]. rewrite bool_decide_eq_false in Href. tauto. }
  rewrite bool_decide_eq_false in Href.
  assert (j_leader s = Some (e_leader e)) as Hl by (apply dec_stable; tauto).
  assert (e_seq e = j_next_seq s) as Hs by (apply dec_stable; tauto).
  assert (e_records e <> []) as Hr by tauto. apply count_pos in Hr as Hc.
  rewrite decide_True by done.
  rassert_by done. rassert_by done. rewrite u64_add_ok by done. rsimpl.
  rassert_by (simpl; lia). done.
Qed.

Lemma apply_append_ok s e :
  ~ is_set (e_leader e) -> fits s (Write e) -> apply_append s e = Done (write_multi s e).
Proof.
  intros Hl [? Hfit]. unfold apply_append, write_multi. rassert_by done.
  case_decide as Hr; [done|]. apply count_pos in Hr. rewrite u64_add_ok by done. rsimpl.
  rassert_by (simpl; lia). done.
Qed.

Lemma trim_ok mode s up_to : journal_wf mode s -> trim s up_to = Done (trimmed s up_to).
Proof.
  intros (? & _). unfold trim, trimmed. rassert_by (simpl; lia). rassert_by (simpl; lia). done.
Qed.

Lemma judge_ok s mode command accepted_at :
  journal_wf mode s -> PositionsIndex s accepted_at -> fits s command ->
  judge s mode command accepted_at = Done (journal_spec s mode command accepted_at).
Proof.
  intros Hwf Hidx Hfit. unfold judge, journal_spec.
  destruct mode, command as [e|[leader up_to|new old|]]; try case_decide; try done.
  - by apply apply_write_ok.
  - unfold apply_truncate. rewrite (is_current_ok Single) by done. rsimpl.
    case_bool_decide.
    + rewrite decide_False, decide_True by done. by apply (trim_ok Single).
    + by rewrite decide_True, decide_False by done.
  - unfold apply_set_leader. rewrite decide_False by tauto.
    destruct H as (? & ? & ?). rassert_by done. rassert_by done. rassert_by done.
    destruct Hfit. rewrite u64_add_ok by done. rsimpl. rassert_by (simpl; lia).
    unfold is_current; simpl. rewrite bool_decide_eq_true_2 by done.
    rewrite (rassert_true (0 < j_term s + 1)) by lia. rsimpl.
    rewrite (rassert_true (is_set new)) by done. rsimpl. by rewrite rassert_true.
  - unfold apply_set_leader. rewrite decide_True; [done|].
    destruct (decide (old = j_leader s)), (decide (is_set new)), (decide (Some new = j_leader s)); tauto.
  - by apply apply_append_ok.
  - by apply (trim_ok Multi).
Qed.

(** ** The transitions, as a relation

    A decided command leaves the journal still, appends records at the next
    position, installs a leader, or raises the first position. *)

Definition still (s : JournalState) (o : Outcome) : Prop :=
  match o with
  | ORefused v | OTruncated v | OLeaderRefused v | OTruncateRefused v | OWrongMode v => v = view s
  | ODuplicate _ _ | ONoop => True
  | OAccepted _ _ | OLeader _ | OTrimmed _ => False
  end.

Inductive journal_step (mode : WriterMode) (s : JournalState) : JournalState -> Outcome -> Prop :=
| step_still o :
    still s o -> (mode = Multi -> fenced_or_retry o = false) -> journal_step mode s s o
| step_append n :
    0 < n -> journal_step mode s (set_next_seq s (j_next_seq s + n)) (OAccepted (j_next_seq s) n)
| step_leader new s' :
    mode = Single -> is_set new -> Some new <> j_leader s ->
    s' = mkJournal (Some new) (j_term s + 1) (j_next_seq s) (j_first_seq s) ->
    journal_step mode s s' (OLeader (view s'))
| step_trim first s' :
    j_first_seq s <= first <= j_next_seq s ->
    s' = mkJournal (j_leader s) (j_term s) (j_next_seq s) first ->
    journal_step mode s s' (OTrimmed (view s')).

#[export] Hint Constructors journal_step : paros.

Lemma journal_spec_step s mode command accepted_at :
  journal_wf mode s ->
  journal_step mode s (journal_spec s mode command accepted_at).1
    (journal_spec s mode command accepted_at).2.
Proof.
  intros (Hf & _).
  destruct mode, command as [e|[leader up_to|new old|]]; unfold journal_spec;
    repeat (case_decide; simpl); try (apply step_still; done).
  - unfold write_single. repeat case_decide; simpl; try (apply step_still; done).
    apply step_append, count_pos. tauto.
  - eapply step_trim; [|done]. lia.
  - destruct H as (? & ? & ?). by apply (step_leader _ _ new).
  - unfold write_multi. case_decide; simpl; [by apply step_still|].
    apply step_append. by apply count_pos.
  - eapply step_trim; [|done]. lia.
Qed.

Lemma journal_step_wf mode s s' o : journal_wf mode s -> journal_step mode s s' o -> journal_wf mode s'.
Proof.
  intros (Hf & Ht & Hs & Hm). unfold journal_wf.
  destruct 1 as [|n|new ? ->|]; subst; simpl; split_and!; try done; try lia.
  split; intros; [lia|by eexists].
Qed.

Lemma journal_step_asserts mode s s' o :
  journal_wf mode s -> journal_step mode s s' o ->
  j_next_seq s' <= u64_max -> j_term s' <= u64_max ->
  assert_mode s' mode o = Done tt /\ assert_outcome s s' o = Done tt /\ assert_judged s o = Done tt.
Proof.
  intros Hwf Hst Hn Ht. pose proof (journal_step_wf _ _ _ _ Hwf Hst) as (_ & Ht' & _ & Hm').
  split.
  { unfold assert_mode. destruct mode; [done|]. specialize (Hm' eq_refl).
    rassert_by done. rewrite Hm' in Ht'. rassert_by (destruct (decide (j_term s' = 0)); [done|];
      assert (is_Some (None : option N)) as [? ?] by (apply Ht'; lia); done).
    apply rassert_true. destruct Hst; try done. auto. }
  destruct Hst as [o Ho _|n Hpos|new s' -> Hset Hne ->|f s' Hle ->]; simpl in *.
  - destruct o; simpl in *; try done; split; try done; by apply rassert_true.
  - split; [|done]. rassert_by done. rassert_by done. rewrite u64_add_ok by done. rsimpl.
    rassert_by done. rassert_by done. by apply rassert_true.
  - split; [|done]. rassert_by done. rewrite u64_add_ok by done. rsimpl.
    rassert_by done. rassert_by done. by apply rassert_true.
  - split; [|done]. rassert_by done. rassert_by done. by apply rassert_true.
Qed.

Lemma journal_step_monotone mode s s' o :
  journal_step mode s s' o ->
  j_term s <= j_term s' /\ j_next_seq s <= j_next_seq s' /\ j_first_seq s <= j_first_seq s' /\
  (j_leader s' <> j_leader s -> j_term s < j_term s').
Proof. destruct 1 as [|n|new ? ->|]; subst; simpl; split_and!; try done; lia. Qed.

Lemma journal_spec_fits s mode command accepted_at :
  fits s command -> j_term s <= u64_max ->
  j_next_seq (journal_spec s mode command accepted_at).1 <= u64_max /\
  j_term (journal_spec s mode command accepted_at).1 <= u64_max.
Proof.
  intros [Hn Hc] Ht.
  destruct mode, command as [e|[leader up_to|new old|]]; unfold journal_spec;
    repeat (case_decide; simpl); try done; simpl.
  - unfold write_single. repeat case_decide; simpl; done.
  - unfold write_multi. case_decide; simpl; done.
Qed.

Lemma apply_ok s mode command accepted_at :
  journal_wf mode s -> PositionsIndex s accepted_at -> fits s command -> j_term s <= u64_max ->
  apply s mode command accepted_at = Done (journal_spec s mode command accepted_at).
Proof.
  intros Hwf Hidx Hfit Ht. pose proof Hwf as (_ & _ & _ & Hm). unfold apply.
  rbind journal_assert_invariants_ok; [done|].
  eapply bind_seq with (a := tt);
    [case_decide; [by apply rassert_true; auto|done]|cbv beta].
  rbind judge_ok; [done..|].
  pose proof (journal_spec_step s mode command accepted_at Hwf) as Hst.
  pose proof (journal_spec_fits s mode command accepted_at Hfit Ht) as [Hn' Ht'].
  destruct (journal_spec s mode command accepted_at) as [s' o]. simpl in *.
  destruct (journal_step_asserts _ _ _ _ Hwf Hst Hn' Ht') as (Ha & Hb & Hc).
  destruct (journal_step_monotone _ _ _ _ Hst) as (Hmt & Hmn & Hmf & Hml).
  rewrite Ha, bind_Done. rassert_by done. rassert_by done. rassert_by done.
  eapply bind_seq with (a := tt);
    [case_decide; [by apply rassert_true; auto|done]|cbv beta].
  rewrite Hb, bind_Done, Hc, bind_Done.
  by rewrite (journal_assert_invariants_ok mode) by by eapply journal_step_wf.
Qed.

(** ** Properties of the journal *)

(** C36: [JournalState::apply] refines the journal's abstract transition
    function: on a well-formed journal it returns, none of its assertions
    fires, the answer and the next state are exactly [journal_spec]'s on every
    branch (refusals included), and the next state is well formed again. *)
Theorem journal_apply_refines s mode command accepted_at :
  journal_wf mode s -> PositionsIndex s accepted_at -> fits s command -> j_term s <= u64_max ->
  apply s mode command accepted_at = Done (journal_spec s mode command accepted_at) /\
  journal_wf mode (journal_spec s mode command accepted_at).1.
Proof.
  intros Hwf ? ? ?. split; [by apply apply_ok|].
  eapply journal_step_wf, journal_spec_step; done.
Qed.

(** Later states of one journal. *)
Definition journal_later (mode : WriterMode) : relation JournalState :=
  rtc (fun s s' => exists o, journal_step mode s s' o).

Lemma journal_later_wf mode s s' : journal_wf mode s -> journal_later mode s s' -> journal_wf mode s'.
Proof. intros Hwf H. induction H as [|s1 s2 s3 [o Ho] _ IH]; eauto using journal_step_wf. Qed.

Lemma journal_later_monotone mode s s' :
  journal_later mode s s' ->
  j_term s <= j_term s' /\ j_next_seq s <= j_next_seq s' /\ j_first_seq s <= j_first_seq s' /\
  (j_leader s' <> j_leader s -> j_term s < j_term s').
Proof.
  induction 1 as [s|s1 s2 s3 [o Ho] _ (? & ? & ? & Hl)]; [split_and!; done|].
  destruct (journal_step_monotone _ _ _ _ Ho) as (? & ? & ? & Hl').
  split_and!; try lia. intros Hne.
  destruct (decide (j_leader s3 = j_leader s2)) as [E|E]; [|specialize (Hl E); lia].
  rewrite E in Hne. specialize (Hl' Hne). lia.
Qed.

Definition accepted_outcome (o : Outcome) : option (Seq * N) :=
  match o with OAccepted q n => Some (q, n) | _ => None end.

Lemma apply_accepted_inv s s1 e accepted_at q n :
  journal_wf Single s -> PositionsIndex s accepted_at -> fits s (Write e) -> j_term s <= u64_max ->
  apply s Single (Write e) accepted_at = Done (s1, OAccepted q n) ->
  is_set (e_leader e) /\ j_leader s = Some (e_leader e) /\ e_seq e = j_next_seq s /\
  e_records e <> [] /\ q = e_seq e /\ n = count e /\ s1 = set_next_seq s (q + n).
Proof.
  intros Hwf Hidx Hfit Ht. rewrite apply_ok by done. simpl.
  unfold write_single. repeat case_decide; intros [= <- <- <-]; destruct_and?; by subst.
Qed.

(** A write is accepted at most once.  After [Accepted] at a position, the
    same write decided again, in any later state that still retains the
    position, is answered [Duplicate] with the first answer's position and
    count, and changes nothing. *)
Theorem write_retry_idempotent s s1 s2 e accepted_at accepted_at2 q n :
  journal_wf Single s -> PositionsIndex s accepted_at -> fits s (Write e) -> j_term s <= u64_max ->
  apply s Single (Write e) accepted_at = Done (s1, OAccepted q n) ->
  journal_later Single s1 s2 ->
  PositionsIndex s2 accepted_at2 -> accepted_at2 q = Some e -> j_first_seq s2 <= q ->
  fits s2 (Write e) -> j_term s2 <= u64_max ->
  apply s2 Single (Write e) accepted_at2 = Done (s2, ODuplicate q n).
Proof.
  intros Hwf Hidx Hfit Ht Happ Hlater Hidx2 Hat Hfirst Hfit2 Ht2.
  destruct (apply_accepted_inv _ _ _ _ _ _ Hwf Hidx Hfit Ht Happ)
    as (Hset & Hl & Hs & Hr & -> & -> & ->).
  assert (journal_wf Single s2) as Hwf2.
  { eapply journal_later_wf, Hlater. eapply journal_step_wf; [done|]. rewrite Hs.
    apply step_append. by apply count_pos. }
  destruct (journal_later_monotone _ _ _ Hlater) as (_ & Hn & _). simpl in Hn.
  apply count_pos in Hr. rewrite apply_ok by done. simpl.
  rewrite decide_True by done. unfold write_single.
  by rewrite decide_False, decide_True, decide_True by (done || lia).
Qed.

(** The leader fence.  Between two states of one journal with the same
    term the leader is the same, so two writes accepted in one term name the
    same leader: a leader whose [SetLeader] lost can place no record. *)
Theorem term_fixes_writer s s1 s2 s3 e e' at1 at2 q n q' n' :
  journal_wf Single s -> journal_wf Single s2 ->
  PositionsIndex s at1 -> PositionsIndex s2 at2 -> fits s (Write e) -> fits s2 (Write e') ->
  j_term s <= u64_max -> journal_later Single s1 s2 -> j_term s2 = j_term s ->
  apply s Single (Write e) at1 = Done (s1, OAccepted q n) ->
  apply s2 Single (Write e') at2 = Done (s3, OAccepted q' n') ->
  e_leader e = e_leader e' /\ q + n <= q'.
Proof.
  intros ? ? ? ? ? ? ? Hlater Hterm Ha Hb.
  apply apply_accepted_inv in Ha as (? & Hl & Hs & ? & -> & -> & ->); [|done..].
  apply apply_accepted_inv in Hb as (? & Hl' & Hs' & ? & -> & -> & ->); [|try done; lia..].
  destruct (journal_later_monotone _ _ _ Hlater) as (_ & Hn & _ & Hne). simpl in *.
  split; [|lia].
  destruct (decide (j_leader s2 = j_leader s)) as [E|E]; [congruence|]. specialize (Hne E). lia.
Qed.

(** A [SetLeader] is a compare-and-set.  Of two contenders that named the
    same leader in force, the second decided finds another leader in force and
    is refused, and the journal does not move. *)
Theorem set_leader_cas s s1 new new' old accepted_at accepted_at' v :
  journal_wf Single s -> PositionsIndex s accepted_at -> PositionsIndex s1 accepted_at' ->
  fits s (Ctrl (SetLeader new old)) -> j_term s + 2 <= u64_max ->
  apply s Single (Ctrl (SetLeader new old)) accepted_at = Done (s1, OLeader v) ->
  j_leader s1 = Some new /\ j_term s1 = j_term s + 1 /\
  apply s1 Single (Ctrl (SetLeader new' old)) accepted_at' = Done (s1, OLeaderRefused (view s1)).
Proof.
  intros Hwf ? ? Hfit Ht. rewrite apply_ok by (done || lia). simpl.
  case_decide as Hc; intros [= <- <-]. destruct Hc as (-> & ? & Hne).
  split; [done|]. split; [done|].
  rewrite apply_ok; simpl; try done.
  - rewrite decide_False; [done|]. simpl. intros [E _]. by rewrite E in Hne.
  - eapply (journal_step_wf _ s), step_leader; done.
  - destruct Hfit. split; simpl; lia.
  - lia.
Qed.

(** ** Witnesses *)

Definition ex_journal : JournalState := mkJournal (Some 7) 1 3 1.
Definition ex_entry : Entry := mkEntry 7 3 [[1]; [2]].
Definition ex_at : Seq -> option Entry := fun q => if decide (q = 3) then Some ex_entry else None.

Lemma no_positions s : PositionsIndex s (fun _ => None).
Proof. intros q e [=]. Defined.

Lemma ex_positions s : 5 <= j_next_seq s -> PositionsIndex s ex_at.
Proof. intros Hn q e. unfold ex_at. case_decide; intros [= <-]. subst q. by vm_compute. Defined.

Lemma ex_journal_wf : journal_wf Single ex_journal.
Proof. by repeat split. Defined.

Ltac journal_witness :=
  first [apply ex_journal_wf | apply no_positions | apply rtc_refl | done
        | vm_compute; repeat split; done | idtac].

Lemma journal_apply_refines_witness :
  apply ex_journal Single (Write ex_entry) (fun _ => None)
  = Done (mkJournal (Some 7) 1 5 1, OAccepted 3 2).
Proof.
  apply (journal_apply_refines ex_journal Single (Write ex_entry) (fun _ => None)); journal_witness.
Defined.

Lemma write_retry_idempotent_witness :
  apply (mkJournal (Some 7) 1 5 1) Single (Write ex_entry) ex_at
  = Done (mkJournal (Some 7) 1 5 1, ODuplicate 3 2).
Proof.
  apply (write_retry_idempotent ex_journal (mkJournal (Some 7) 1 5 1) (mkJournal (Some 7) 1 5 1)
           ex_entry (fun _ => None) ex_at 3 2); journal_witness.
  by apply ex_positions.
Defined.

Lemma term_fixes_writer_witness : e_leader ex_entry = 7 /\ 3 + 2 <= 5.
Proof.
  apply (term_fixes_writer ex_journal (mkJournal (Some 7) 1 5 1) (mkJournal (Some 7) 1 5 1)
           (mkJournal (Some 7) 1 6 1) ex_entry (mkEntry 7 5 [[9]]) (fun _ => None) (fun _ => None)
           3 2 5 1); journal_witness.
Defined.

Lemma set_leader_cas_witness :
  apply (mkJournal (Some 9) 2 3 1) Single (Ctrl (SetLeader 8 (Some 7))) (fun _ => None)
  = Done (mkJournal (Some 9) 2 3 1, OLeaderRefused (mkView (Some 9) 3 1)).
Proof.
  apply (set_leader_cas ex_journal (mkJournal (Some 9) 2 3 1) 9 8 (Some 7) (fun _ => None)
           (fun _ => None) (mkView (Some 9) 3 1)); journal_witness.
Defined.
