(* ===== verification/Contract.v ===== *)
(** * The durable-write contract and the limits ([paros-core/src/contract/])

    The semantic writes a batch surfaces ([write.rs]), their durability
    classification, and the page sizes a deployment runs under ([limits.rs]). *)

From S2P Require Import Prelude BTree Types Journal.

(** ** Writes *)

Inductive AcceptorWrite (V : Type) :=
| SetPromise (ballot : Ballot)
| AppendAccepted (slot : Slot) (ballot : Ballot) (value : V).
Arguments SetPromise {_} _.
Arguments AppendAccepted {_} _ _ _.

Inductive WriteOp :=
| WAcceptor (w : AcceptorWrite Command)
| WLearned (slot : Slot) (ballot : Ballot) (command : Command)
| WSetChosenIndex (slot : Slot)
| WTruncate (first : Slot) (sealed : JournalState)
| WTrimmedTo (point : Slot) (state : JournalState).

(** [W: From<AcceptorWrite<V>>]: where a deployment's batch puts the
    acceptor's writes. *)
Class FromWrite (V W : Type) := from_write : AcceptorWrite V -> W.

#[export] Instance WriteOp_from : FromWrite Command WriteOp := WAcceptor.
#[export] Instance AcceptorWrite_from V : FromWrite V (AcceptorWrite V) := id.

Inductive MustSync := Sync | Relaxed.

#[export] Instance MustSync_eq_dec : EqDecision MustSync.
Proof. solve_decision. Defined.

Definition needs_sync (w : WriteOp) : bool :=
  match w with
  | WAcceptor _ | WLearned _ _ _ | WTruncate _ _ | WTrimmedTo _ _ => true
  | WSetChosenIndex _ => false
  end.

Definition is_acceptor_write (w : WriteOp) : bool :=
  match w with WAcceptor _ => true | _ => false end.

Definition for_batch (writes : list WriteOp) : run MustSync :=
  let sync := if existsb needs_sync writes then Sync else Relaxed in
  (if existsb is_acceptor_write writes then
     rassert (sync = Sync) "a promise or a vote is always fsync'd" else mret tt);;
  mret sync.

(** ** Limits *)

Definition PROMISE_BATCH : N := 64.
Definition RECOVERY_BATCH : N := 64.
Definition RESEND_BATCH : N := 64.
Definition APPLY_BATCH : N := 64.
Definition READ_TTL_TICKS : N := 20.
Definition REGISTRY_PAGE : N := 64.

Record Limits := mkLimits {
  recovery_page : N;
  promise_page_limit : N;
  resend_page_limit : N;
  apply_page : N;
  read_window : N;
  registry_page : N }.

(** [Limits::DEFAULT]. *)
Definition limits_default : Limits :=
  mkLimits RECOVERY_BATCH PROMISE_BATCH RESEND_BATCH APPLY_BATCH READ_TTL_TICKS REGISTRY_PAGE.

(** [Limits::assert_valid]. *)
Definition limits_assert_valid (l : Limits) : run unit :=
  rassert (0 < recovery_page l) "a recovery page visits at least one slot";;
  rassert (recovery_page l <= RECOVERY_BATCH) "a recovery page never exceeds its ceiling";;
  rassert (0 < promise_page_limit l) "a promise page carries at least one entry";;
  rassert (promise_page_limit l <= PROMISE_BATCH) "a promise page never exceeds its ceiling";;
  rassert (0 < resend_page_limit l) "a re-send page carries at least one round";;
  rassert (resend_page_limit l <= RESEND_BATCH) "a re-send page never exceeds its ceiling";;
  rassert (0 < apply_page l) "an apply page releases at least one slot";;
  rassert (apply_page l <= APPLY_BATCH) "an apply page never exceeds its ceiling";;
  rassert (0 < registry_page l) "a registry page carries at least one registration";;
  rassert (registry_page l <= REGISTRY_PAGE) "a registry page never exceeds its ceiling".

Definition kept_read_window (l : Limits) : run N :=
  let kept := N.max (read_window l) READ_TTL_TICKS in
  rassert (read_window l <= kept) "the core keeps a read as long as its driver waits";;
  rassert (READ_TTL_TICKS <= kept) "a read window is never shorter than its floor";;
  mret kept.

Definition limits_valid (l : Limits) : Prop :=
  0 < recovery_page l <= RECOVERY_BATCH /\ 0 < promise_page_limit l <= PROMISE_BATCH /\
  0 < resend_page_limit l <= RESEND_BATCH /\ 0 < apply_page l <= APPLY_BATCH /\
  0 < registry_page l <= REGISTRY_PAGE.

Lemma limits_assert_valid_iff l : limits_assert_valid l = Done tt <-> limits_valid l.
Proof.
  unfold limits_assert_valid, limits_valid. split.
  - intros H. rinv H. apply rassert_inv in H. lia.
  - intros ([? ?] & [? ?] & [? ?] & [? ?] & [? ?]).
    do 9 (rassert_by done). by apply rassert_true.
Qed.

Lemma limits_default_valid : limits_valid limits_default.
Proof. by repeat split. Qed.

Definition only_advances_index (w : WriteOp) : bool :=
  match w with WSetChosenIndex _ => true | _ => false end.

(** A batch that carries a promise or a vote is classified [Sync], whatever
    else it carries, and the classification's own assertion never fires; a
    batch is [Relaxed] exactly when it only advances the chosen index. *)
Theorem for_batch_persists_votes (writes : list WriteOp) :
  for_batch writes = Done (if forallb only_advances_index writes then Relaxed else Sync).
Proof.
  unfold for_batch.
  assert (existsb needs_sync writes = negb (forallb only_advances_index writes)) as ->.
  { induction writes as [|[] writes IH]; simpl; done. }
  destruct (forallb only_advances_index writes) eqn:E; simpl.
  - assert (existsb is_acceptor_write writes = false) as ->; [|done].
    induction writes as [|[] writes IH]; simpl in *; auto; done.
  - by destruct (existsb is_acceptor_write writes).
Qed.
