(* ===== verification/Acceptor.v ===== *)
(** * The acceptor ([paros-core/src/acceptor.rs], [acceptor/retention.rs])

    One node's Paxos voting state: the durable promise, the per-slot records,
    the slots whose record was lost ([a_faulty]), and the compaction floor the
    two windows share.  Every operation of the role is a function that returns
    the next acceptor and the batch with the writes it emitted. *)

From S2P Require Import Prelude BTree Types Retained Journal Contract.

Inductive PrepareOutcome :=
| PBelowFloor
| PRefused
| PPromised (raised : bool).

Inductive AcceptOutcome := ABelowFloor | ARefused | AAdmitted.

Record PromisePage (V : Type) := mkPage {
  p_accepted : gmap Slot (Ballot * V);
  p_faulty : gmap Slot Ballot;
  p_next_from_slot : option Slot }.
Arguments mkPage {_} _ _ _.
Arguments p_accepted {_} _.
Arguments p_faulty {_} _.
Arguments p_next_from_slot {_} _.

Record Acceptor (V : Type) := mkAcceptor {
  a_promised : Ballot;
  a_records : RetainedWindow Slot (Ballot * V);
  a_faulty : RetainedWindow Slot Ballot;
  a_faulty_repaired : N;
  a_ceiling : Ballot }.
Arguments mkAcceptor {_} _ _ _ _ _.
Arguments a_promised {_} _.
Arguments a_records {_} _.
Arguments a_faulty {_} _.
Arguments a_faulty_repaired {_} _.
Arguments a_ceiling {_} _.

#[export] Instance PrepareOutcome_eq_dec : EqDecision PrepareOutcome.
Proof. solve_decision. Defined.
#[export] Instance AcceptOutcome_eq_dec : EqDecision AcceptOutcome.
Proof. solve_decision. Defined.

Section acceptor.
Context {V : Type} `{!EqDecision V}.
Implicit Types (a : Acceptor V) (page : PromisePage V).

(** ** Reads *)

Definition first_slot a : run Slot :=
  floor ← window_floor (a_records a);
  ffloor ← window_floor (a_faulty a);
  rassert (floor = ffloor) "the tri-state's two windows share one floor";;
  mret floor.

(** [[first, last].flatten().filter_map(get)] of [assert_invariants]. *)
Definition probe_ends {A} (w : RetainedWindow Slot A) : run (list A) :=
  first ← window_first_key w;
  last ← window_last_key w;
  values ← foldM (fun acc k => v ← window_get w k; mret (acc ++ option_list v)) []
             (option_list first ++ option_list last);
  mret values.

Definition acceptor_assert_invariants a : run unit :=
  rfirst ← window_first_key (a_records a);
  floor ← first_slot a;
  rassert (is_none_or (fun s => floor <= s) rfirst)
    "no accepted record survives below the compaction floor";;
  ffirst ← window_first_key (a_faulty a);
  floor ← first_slot a;
  rassert (is_none_or (fun s => floor <= s) ffirst)
    "no faulty entry survives below the compaction floor";;
  rfloor ← window_floor (a_records a);
  ffloor ← window_floor (a_faulty a);
  rassert (rfloor = ffloor) "the tri-state's two windows share one compaction floor";;
  faulty ← window_entries (a_faulty a);
  disjoint ← foldM (fun ok s => held ← window_contains_key (a_records a) s;
                                mret (ok && negb held)) true (bt_keys faulty);
  rassert (disjoint = true) "the faulty set stays disjoint from the accepted log";;
  rassert (a_ceiling a ≤ a_promised a)%B "the promise dominates every accepted record";;
  records ← probe_ends (a_records a);
  rassert (Forall (fun r : Ballot * V => r.1 ≤ a_ceiling a)%B records)
    "the ballot ceiling bounds every accepted record";;
  ballots ← probe_ends (a_faulty a);
  rassert (Forall (fun b => b ≤ a_ceiling a)%B ballots)
    "the ballot ceiling bounds every faulty record".

(** [Iterator::max] over ballots, [Ballot::zero] on an empty one. *)
Definition ballots_max (l : list Ballot) : Ballot := foldr ord_max zero l.

(** [Acceptor::new]. *)
Definition acceptor_new (promised : Ballot) (records : gmap Slot (Ballot * V)) (first : Slot)
  (faulty : gmap Slot Ballot) : run (Acceptor V) :=
  rassert (is_none_or (fun s => first <= s) (first_key_of records))
    "no accepted record survives below the compaction floor";;
  rassert (is_none_or (fun s => first <= s) (first_key_of faulty))
    "no faulty entry survives below the compaction floor";;
  let ceiling := ballots_max (((bt_entries records).*2).*1 ++ (bt_entries faulty).*2) in
  records ← window_new records first;
  faulty ← window_new faulty first;
  let acceptor := mkAcceptor promised records faulty 0 ceiling in
  acceptor_assert_invariants acceptor;;
  mret acceptor.

(** [Acceptor::promised]. *)
Definition promised a : run Ballot :=
  last ← window_last_key (a_records a);
  record ← match last with Some s => window_get (a_records a) s | None => mret None end;
  rassert (is_none_or (fun r : Ballot * V => r.1 ≤ a_promised a)%B record)
    "the promise dominates the last record";;
  mret (a_promised a).

(** [Acceptor::records] and [Acceptor::faulty]. *)
Definition acceptor_records a : run (gmap Slot (Ballot * V)) :=
  records ← window_entries (a_records a);
  floor ← first_slot a;
  rassert (is_none_or (fun s => floor <= s) (first_key_of records))
    "no accepted record survives below the compaction floor";;
  mret records.

Definition acceptor_faulty a : run (gmap Slot Ballot) :=
  faulty ← window_entries (a_faulty a);
  floor ← first_slot a;
  rassert (is_none_or (fun s => floor <= s) (first_key_of faulty))
    "no faulty entry survives below the compaction floor";;
  mret faulty.

(** [Acceptor::record]. *)
Definition acceptor_record a (slot : Slot) : run (option (Ballot * V)) :=
  record ← window_get (a_records a) slot;
  match record with
  | Some (ballot, v) =>
      below ← window_below_floor (a_records a) slot;
      rassert (below = false) "a readable record sits above the floor";;
      rassert (ballot ≤ a_promised a)%B "the promise dominates a readable record";;
      rotted ← window_contains_key (a_faulty a) slot;
      rassert (rotted = false) "a readable slot is never faulty";;
      mret (Some (ballot, v))
  | None => mret None
  end.

(** [Option<Slot>::max]es of [vote_watermark]. *)
Definition opt_max (x y : option Slot) : option Slot := ord_max x y.

Definition vote_watermark a : run (option Slot) :=
  floor ← first_slot a;
  let truncated := u64_checked_sub floor 1 in
  rlast ← window_last_key (a_records a);
  flast ← window_last_key (a_faulty a);
  let watermark := opt_max (opt_max rlast flast) truncated in
  rassert (ord_le rlast watermark) "the vote watermark covers every retained record";;
  rassert (ord_le flast watermark) "the vote watermark covers every faulty entry";;
  rassert (ord_le truncated watermark) "the vote watermark covers every truncated slot";;
  mret watermark.

(** ** Durable writes *)

Context {W : Type} `{!FromWrite V W}.

Definition set_promise a (ballot : Ballot) (writes : list W) : run (Acceptor V * list W) :=
  rassert (a_promised a ≤ ballot)%B "a node's promised ballot never decreases";;
  let writes_before := length writes in
  let '(a', writes') :=
    if decide (a_promised a <> ballot) then
      (mkAcceptor ballot (a_records a) (a_faulty a) (a_faulty_repaired a) (a_ceiling a),
       writes ++ [from_write (SetPromise ballot)])
    else (a, writes) in
  rassert (a_promised a' = ballot) "the promise lands on the requested ballot";;
  rassert (length writes' <= writes_before + 1)%nat "a promise change emits at most one write";;
  mret (a', writes').

(** ** Phase 1 *)

Definition prepare a (ballot : Ballot) (from_slot : Slot) (writes : list W)
  : run (Acceptor V * list W * PrepareOutcome) :=
  let writes_before := length writes in
  below ← window_below_floor (a_records a) from_slot;
  if decide (below = true) then mret (a, writes, PBelowFloor) else
  if decide (ballot < a_promised a)%B then mret (a, writes, PRefused) else
  let raised := bool_decide (a_promised a < ballot)%B in
  '(a', writes') ← (if raised then set_promise a ballot writes else mret (a, writes));
  rassert (a_promised a' = ballot) "a promise reply carries the exact promised ballot";;
  (if raised then
     rassert (length writes' = writes_before + 1)%nat "a raised promise emits one write"
   else
     rassert (length writes' = writes_before) "a re-affirmed promise emits no write");;
  mret (a', writes', PPromised raised).

(** The merge loop of [promise_page]: two peekable cursors in slot order.
    [fuel] bounds the iterations, one entry each. *)
Fixpoint promise_fill (fuel : nat) (limit : N) (readable : list (Slot * (Ballot * V)))
  (rotted : list (Slot * Ballot)) (accepted : gmap Slot (Ballot * V)) (faulty : gmap Slot Ballot)
  : run (gmap Slot (Ballot * V) * gmap Slot Ballot
         * list (Slot * (Ballot * V)) * list (Slot * Ballot)) :=
  match fuel with
  | O => Panic "promise_fill: out of fuel"
  | S fuel' =>
      if decide (msize accepted + msize faulty < limit) then
        match readable, rotted with
        | [], [] => mret (accepted, faulty, readable, rotted)
        | (slot, record) :: readable', [] =>
            promise_fill fuel' limit readable' rotted (<[slot := record]> accepted) faulty
        | [], (slot, fb) :: rotted' =>
            promise_fill fuel' limit readable rotted' accepted (<[slot := fb]> faulty)
        | (ra, record) :: readable', (rf, fb) :: rotted' =>
            if decide (ra < rf) then
              promise_fill fuel' limit readable' rotted (<[ra := record]> accepted) faulty
            else promise_fill fuel' limit readable rotted' accepted (<[rf := fb]> faulty)
        end
      else mret (accepted, faulty, readable, rotted)
  end.

(** The continuation cursor: the lowest slot either cursor still holds. *)
Definition page_cursor (readable : list (Slot * (Ballot * V))) (rotted : list (Slot * Ballot))
  : option Slot :=
  match readable, rotted with
  | [], [] => None
  | (slot, _) :: _, [] => Some slot
  | [], (slot, _) :: _ => Some slot
  | (ra, _) :: _, (rf, _) :: _ => Some (N.min ra rf)
  end.

Definition promise_page a (from_slot : Slot) (limit : N) : run (PromisePage V) :=
  rassert (0 < limit) "a promise page carries at least one entry";;
  rassert (limit <= PROMISE_BATCH) "a promise page stays under PROMISE_BATCH";;
  let readable := window_range_from (a_records a) from_slot in
  let rotted := window_range_from (a_faulty a) from_slot in
  '(accepted, faulty, readable, rotted) ←
    promise_fill (S (length readable + length rotted)) limit readable rotted ∅ ∅;
  let next := page_cursor readable rotted in
  let page := mkPage accepted faulty next in
  rassert (msize accepted + msize faulty <= limit) "a promise page is bounded by PROMISE_BATCH";;
  rassert (Forall (fun s => accepted !! s = None) (bt_keys faulty))
    "a promise page reports a slot as readable or faulty, never both";;
  rassert (Forall (fun s => from_slot <= s) (bt_keys accepted ++ bt_keys faulty))
    "a promise page starts at the requested slot";;
  match next with
  | Some n =>
      rassert (Forall (fun s => s < n) (bt_keys accepted ++ bt_keys faulty))
        "the continuation cursor lies past every slot the page carried";;
      rassert (msize accepted + msize faulty = limit)
        "only a full page carries a continuation cursor";;
      mret page
  | None => mret page
  end.

(** ** Phase 2 *)

Definition acceptor_admit a (ballot : Ballot) (slot : Slot) : run AcceptOutcome :=
  below ← window_below_floor (a_records a) slot;
  if decide (below = true) then mret ABelowFloor else
  if decide (ballot < a_promised a)%B then mret ARefused else mret AAdmitted.

Definition record_accepted a (slot : Slot) (ballot : Ballot) (command : V) (writes : list W)
  : run (Acceptor V * list W * bool) :=
  below ← window_below_floor (a_records a) slot;
  rassert (below = false) "never record an accept below the compaction floor";;
  rassert (ballot ≤ a_promised a)%B "a record is never accepted above the promise";;
  watermark_before ← vote_watermark a;
  let writes_before := length writes in
  let '(faulty', removed) := window_remove (a_faulty a) slot in
  let repaired := bool_decide (is_Some removed) in
  let repaired_before := a_faulty_repaired a in
  count' ← (if repaired then u64_add (a_faulty_repaired a) 1 else mret (a_faulty_repaired a));
  rassert (count' = repaired_before + (if repaired then 1 else 0)) "a repair is counted once";;
  held ← window_get (a_records a) slot;
  match held with
  | Some (recorded_ballot, recorded) =>
      if decide (ballot ≤ recorded_ballot)%B then
        rassert (recorded = command)
          "an accept at or below the recorded ballot carries the recorded command"
      else mret tt
  | None => mret tt
  end;;
  rassert (is_none_or (fun h : Ballot * V => h.1 ≤ ballot)%B held)
    "an accepted record's ballot never falls";;
  '(records', _) ← window_insert (a_records a) slot (ballot, command);
  let a' := mkAcceptor (a_promised a) records' faulty' count' (ord_max (a_ceiling a) ballot) in
  let writes' := writes ++ [from_write (AppendAccepted slot ballot command)] in
  watermark ← vote_watermark a';
  rassert (ord_le watermark_before watermark) "the vote watermark never decreases across a record";;
  rassert (length writes' = writes_before + 1)%nat "a record emits exactly one write";;
  now ← window_get (a_records a') slot;
  rassert (is_some_and (fun r : Ballot * V => r.1 = ballot) now)
    "the record lands at the recorded ballot";;
  rotted ← window_contains_key (a_faulty a') slot;
  rassert (rotted = false) "a recorded slot is never faulty";;
  mret (a', writes', repaired).

(** [Acceptor::rewrite]: the scrub's in-place repair. *)
Definition acceptor_rewrite a (slot : Slot) (writes : list W)
  : run (Acceptor V * list W * option Ballot) :=
  record ← acceptor_record a slot;
  match record with
  | None => mret (a, writes, None)
  | Some (ballot, value) =>
      watermark_before ← vote_watermark a;
      let promised_before := a_promised a in
      let writes_before := length writes in
      count' ← u64_add (a_faulty_repaired a) 1;
      let a' := mkAcceptor (a_promised a) (a_records a) (a_faulty a) count' (a_ceiling a) in
      let writes' := writes ++ [from_write (AppendAccepted slot ballot value)] in
      rassert (length writes' = writes_before + 1)%nat "a rewrite emits exactly one write";;
      held ← window_get (a_records a') slot;
      rassert (is_some_and (fun r : Ballot * V => r.1 = ballot /\ r.2 = value) held)
        "a rewrite keeps the record it writes";;
      rassert (a_promised a' = promised_before) "a rewrite never moves the promise";;
      watermark ← vote_watermark a';
      rassert (watermark = watermark_before) "a rewrite never moves the vote watermark";;
      mret (a', writes', Some ballot)
  end.

(** ** Retention ([acceptor/retention.rs]) *)

Definition drop_prefix a (first : Slot) : run (Acceptor V) :=
  floor ← first_slot a;
  rassert (floor <= first) "the compaction floor never moves backward";;
  watermark_before ← vote_watermark a;
  records ← window_raise_floor (a_records a) first;
  faulty ← window_raise_floor (a_faulty a) first;
  let a' := mkAcceptor (a_promised a) records faulty (a_faulty_repaired a) (a_ceiling a) in
  acceptor_assert_invariants a';;
  rfirst ← window_first_key (a_records a');
  rassert (is_none_or (fun s => first <= s) rfirst) "no record survives below a dropped prefix";;
  watermark ← vote_watermark a';
  rassert (ord_le watermark_before watermark)
    "the vote watermark never decreases across a truncation";;
  mret a'.

Definition truncate a (first : Slot) (sealed : JournalState) (writes : list WriteOp)
  : run (Acceptor V * list WriteOp) :=
  before ← promised a;
  a' ← drop_prefix a first;
  let writes' := writes ++ [WTruncate first sealed] in
  floor ← first_slot a';
  rassert (floor = first) "a truncation lands the floor on its slot";;
  after ← promised a';
  rassert (after = before) "a truncation never moves the promise";;
  mret (a', writes').

Definition trim_to a (point : Slot) (state : JournalState) (writes : list WriteOp)
  : run (Acceptor V * list WriteOp) :=
  before ← promised a;
  a' ← drop_prefix a point;
  let writes' := writes ++ [WTrimmedTo point state] in
  floor ← first_slot a';
  rassert (floor = point) "a trim jump lands the floor on its point";;
  after ← promised a';
  rassert (after = before) "a trim jump never moves the promise";;
  mret (a', writes').

(** ** The invariant *)

Record acceptor_wf a : Prop := {
  awf_records : window_wf (a_records a);
  awf_faulty : window_wf (a_faulty a);
  awf_floor : w_floor (a_records a) = w_floor (a_faulty a);
  awf_disjoint : forall s b, w_entries (a_faulty a) !! s = Some b -> w_entries (a_records a) !! s = None;
  awf_ceiling : (a_ceiling a ≤ a_promised a)%B;
  awf_records_le : forall s b v, w_entries (a_records a) !! s = Some (b, v) -> (b ≤ a_ceiling a)%B;
  awf_faulty_le : forall s b, w_entries (a_faulty a) !! s = Some b -> (b ≤ a_ceiling a)%B }.

Hint Resolve awf_records awf_faulty : paros.

(** The pure reading of the acceptor: floor and watermark. *)
Definition floor_of a : Slot := w_floor (a_records a).
Definition watermark_of a : option Slot :=
  ord_max (ord_max (last_key_of (w_entries (a_records a))) (last_key_of (w_entries (a_faulty a))))
    (u64_checked_sub (floor_of a) 1).

Lemma first_slot_ok a : acceptor_wf a -> first_slot a = Done (floor_of a).
Proof.
  intros Hwf. unfold first_slot. window_ok. by rewrite rassert_true by apply Hwf.
Qed.

Lemma vote_watermark_ok a : acceptor_wf a -> vote_watermark a = Done (watermark_of a).
Proof.
  intros Hwf. unfold vote_watermark. rewrite first_slot_ok by done. rsimpl. window_ok.
  fold (watermark_of a). unfold opt_max. fold (watermark_of a).
  rassert_by (etrans; [|apply ord_max_ge_l]; apply ord_max_ge_l).
  rassert_by (etrans; [|apply ord_max_ge_l]; apply ord_max_ge_r).
  rassert_by apply ord_max_ge_r. done.
Qed.

(** The watermark is the highest slot ever voted: it bounds exactly the slots
    that bound the two windows and the truncated prefix. *)
Lemma watermark_of_le a (m : option Slot) :
  ord_le (watermark_of a) m <->
  (forall s, is_Some (w_entries (a_records a) !! s) -> ord_le (Some s) m) /\
  (forall s, is_Some (w_entries (a_faulty a) !! s) -> ord_le (Some s) m) /\
  (forall s, s < floor_of a -> ord_le (Some s) m).
Proof.
  assert (forall A (e : gmap Slot A), ord_le (last_key_of e) m <->
    forall s, is_Some (e !! s) -> ord_le (Some s) m) as Hlast.
  { intros A e. destruct (last_key_of e) as [k|] eqn:E.
    - apply last_key_of_Some in E as [Hk Hmax]. split; [|by auto].
      intros Hle s Hs. etrans; [|done]. by apply Hmax.
    - apply last_key_of_None in E as ->. split; [|by intros; destruct m].
      intros _ s [? Hs]. by rewrite lookup_empty in Hs. }
  assert (ord_le (u64_checked_sub (floor_of a) 1) m <->
    forall s, s < floor_of a -> ord_le (Some s) m) as Hfl.
  { unfold u64_checked_sub. case_decide as Hd.
    - split; [|intros Hs; apply Hs; lia].
      intros Hle s Hs. etrans; [|done]. olia.
    - split; [|by intros; destruct m]. intros _ s Hs. lia. }
  rewrite <-!Hlast, <-Hfl. unfold watermark_of. split.
  - intros Hle. split_and!; (etrans; [|done]).
    + etrans; [|apply ord_max_ge_l]. apply ord_max_ge_l.
    + etrans; [|apply ord_max_ge_l]. apply ord_max_ge_r.
    + apply ord_max_ge_r.
  - intros (? & ? & ?). by repeat apply ord_max_lub.
Qed.

Lemma watermark_mono a a' :
  (forall s, is_Some (w_entries (a_records a) !! s) \/ is_Some (w_entries (a_faulty a) !! s) \/
     s < floor_of a ->
     is_Some (w_entries (a_records a') !! s) \/ is_Some (w_entries (a_faulty a') !! s) \/
     s < floor_of a') ->
  ord_le (watermark_of a) (watermark_of a').
Proof.
  intros Hsub. destruct (proj1 (watermark_of_le a' _) (ord_le_refl _)) as (H1 & H2 & H3).
  apply watermark_of_le. split_and!; intros s Hs;
    (edestruct (Hsub s) as [?|[?|?]]; [by eauto|..]; auto).
Qed.

Lemma probe_ends_ok {A} (w : RetainedWindow Slot A) :
  window_wf w -> exists l, probe_ends w = Done l /\ forall v, v ∈ l -> exists k, w_entries w !! k = Some v.
Proof.
  intros Hw. unfold probe_ends. window_ok.
  generalize (option_list (first_key_of (w_entries w)) ++ option_list (last_key_of (w_entries w))) as ks.
  intros ks. enough (forall acc, (forall v, v ∈ acc -> exists k, w_entries w !! k = Some v) ->
    exists l, foldM (fun acc k => v ← window_get w k; mret (acc ++ option_list v)) acc ks = Done l /\
      forall v, v ∈ l -> exists k, w_entries w !! k = Some v) as Hgen.
  { destruct (Hgen []) as (l & -> & Hl); [set_solver|]. by exists l. }
  induction ks as [|k ks IH]; intros acc Hacc; simpl; [by exists acc|].
  rewrite window_get_ok by done. rsimpl. apply IH. intros v [Hv|Hv]%elem_of_app; [by apply Hacc|].
  exists k. destruct (w_entries w !! k); simpl in Hv; [|set_solver].
  by apply list_elem_of_singleton in Hv as ->.
Qed.

Lemma acceptor_assert_invariants_ok a : acceptor_wf a -> acceptor_assert_invariants a = Done tt.
Proof.
  intros Hwf. unfold acceptor_assert_invariants.
  assert (forall A (w : RetainedWindow Slot A), window_wf w -> w_floor w = floor_of a ->
    is_none_or (fun s => floor_of a <= s) (first_key_of (w_entries w))) as Hfirst.
  { intros A w Hw <-. by apply window_wf_first in Hw. }
  assert (w_floor (a_faulty a) = floor_of a) as Hff by (symmetry; apply Hwf).
  rewrite !first_slot_ok by done. window_ok.
  rassert_by (apply Hfirst; eauto with paros).
  rassert_by (apply Hfirst; eauto with paros). window_ok.
  rassert_by apply Hwf. window_ok.
  eapply bind_seq with (a := true); [|cbv beta].
  { assert (forall s, s ∈ bt_keys (w_entries (a_faulty a)) -> w_entries (a_records a) !! s = None) as Hd.
    { intros s Hs. apply elem_of_bt_keys in Hs as [b Hb]. by eapply awf_disjoint. }
    revert Hd. generalize (bt_keys (w_entries (a_faulty a))) as ks. intros ks.
    induction ks as [|k ks IH]; intros Hd; simpl; [done|].
    window_ok. rewrite (Hd k), bool_decide_eq_false_2 by (done || set_solver || by intros [? ?]).
    apply IH. set_solver. }
  rassert_by done. rassert_by apply Hwf.
  destruct (probe_ends_ok (a_records a)) as (l & -> & Hl); [eauto with paros|]. rsimpl.
  rassert_by (apply Forall_forall; intros [b v] Hin; destruct (Hl _ Hin); simpl; by eapply awf_records_le).
  destruct (probe_ends_ok (a_faulty a)) as (l' & -> & Hl'); [eauto with paros|]. rsimpl.
  apply rassert_true, Forall_forall. intros b Hin. destruct (Hl' _ Hin). by eapply awf_faulty_le.
Qed.

(** ** The operations under the invariant *)

Definition with_promise a (ballot : Ballot) : Acceptor V :=
  mkAcceptor ballot (a_records a) (a_faulty a) (a_faulty_repaired a) (a_ceiling a).

Lemma with_promise_wf a ballot :
  acceptor_wf a -> (a_promised a ≤ ballot)%B -> acceptor_wf (with_promise a ballot).
Proof. intros [] Hle. constructor; simpl; try done. by etrans. Qed.

Lemma set_promise_ok a ballot (writes : list W) :
  (a_promised a ≤ ballot)%B ->
  set_promise a ballot writes =
    Done (with_promise a ballot,
          if decide (a_promised a = ballot) then writes
          else writes ++ [from_write (SetPromise ballot)]).
Proof.
  intros Hle. unfold set_promise. rassert_by done.
  destruct (decide (a_promised a = ballot)) as [<-|Hne].
  - rewrite decide_False by tauto. rassert_by done. rassert_by lia. by destruct a.
  - rewrite decide_True by done. rassert_by done.
    rassert_by (rewrite length_app; simpl; lia). done.
Qed.

(** The prepare handler on every branch. *)
Definition prepare_spec a (ballot : Ballot) (from_slot : Slot) (writes : list W)
  : Acceptor V * list W * PrepareOutcome :=
  if decide (from_slot < floor_of a) then (a, writes, PBelowFloor)
  else if decide (ballot < a_promised a)%B then (a, writes, PRefused)
  else if decide (ballot = a_promised a) then (a, writes, PPromised false)
  else (with_promise a ballot, writes ++ [from_write (SetPromise ballot)], PPromised true).

Lemma prepare_ok a ballot from_slot (writes : list W) :
  acceptor_wf a -> prepare a ballot from_slot writes = Done (prepare_spec a ballot from_slot writes).
Proof.
  intros Hwf. unfold prepare, prepare_spec. window_ok. fold (floor_of a).
  destruct (decide (from_slot < floor_of a)) as [Hlt|Hge].
  { rewrite decide_True; [done|]. apply bool_decide_eq_true_2. olia. }
  rewrite decide_False by (rewrite bool_decide_eq_true; olia).
  case_decide as Hb; [done|]. apply ord_not_lt in Hb.
  case_bool_decide as Hr.
  - rewrite set_promise_ok by done. rsimpl.
    rewrite decide_False by (by apply ord_lt_ne).
    rewrite decide_False by (by apply not_eq_sym, ord_lt_ne).
    rassert_by done. rassert_by (rewrite length_app; simpl; lia). done.
  - apply ord_not_lt in Hr. assert (ballot = a_promised a) as -> by by apply ord_le_antisymm.
    rewrite decide_True by done. rsimpl. rassert_by done. by rassert_by done.
Qed.

Lemma prepare_spec_wf a ballot from_slot (writes : list W) :
  acceptor_wf a -> acceptor_wf (prepare_spec a ballot from_slot writes).1.1.
Proof.
  intros Hwf. unfold prepare_spec. repeat case_decide; simpl; try done.
  apply with_promise_wf; [done|]. by apply ord_not_lt.
Qed.

Lemma acceptor_admit_ok a ballot slot :
  acceptor_wf a ->
  acceptor_admit a ballot slot = Done (if decide (slot < floor_of a) then ABelowFloor
                              else if decide (ballot < a_promised a)%B then ARefused else AAdmitted).
Proof.
  intros Hwf. unfold acceptor_admit. window_ok. fold (floor_of a).
  destruct (decide (slot < floor_of a)).
  - rewrite decide_True; [done|]. apply bool_decide_eq_true_2. olia.
  - rewrite decide_False by (rewrite bool_decide_eq_true; olia). by case_decide.
Qed.

(** A vote the acceptor may record: above the floor, under the promise, and
    over the held record either a higher ballot or the same vote again. *)
Definition recordable a (slot : Slot) (ballot : Ballot) (command : V) : Prop :=
  floor_of a <= slot /\ (ballot ≤ a_promised a)%B /\
  is_none_or (fun h : Ballot * V => h.1 ≤ ballot /\ (h.1 = ballot -> h.2 = command))%B
    (w_entries (a_records a) !! slot).

Definition was_faulty a (slot : Slot) : bool := bool_decide (is_Some (w_entries (a_faulty a) !! slot)).

Definition with_record a (slot : Slot) (ballot : Ballot) (command : V) : Acceptor V :=
  mkAcceptor (a_promised a)
    (mkWindow (<[slot := (ballot, command)]> (w_entries (a_records a))) (w_floor (a_records a)))
    (mkWindow (delete slot (w_entries (a_faulty a))) (w_floor (a_faulty a)))
    (a_faulty_repaired a + (if was_faulty a slot then 1 else 0)) (ord_max (a_ceiling a) ballot).

Lemma with_record_wf a slot ballot command :
  acceptor_wf a -> recordable a slot ballot command -> acceptor_wf (with_record a slot ballot command).
Proof.
  intros Hwf (Hs & Hp & _). constructor; simpl.
  - apply window_insert_wf; [apply Hwf|]. unfold floor_of in Hs; olia.
  - apply (window_remove_wf _ slot), Hwf.
  - apply Hwf.
  - intros s b [? Hb]%lookup_delete_Some. rewrite lookup_insert_ne by done. by eapply awf_disjoint.
  - apply ord_max_lub; [apply Hwf|done].
  - intros s b v. rewrite lookup_insert. case_decide as E.
    + intros [= <- <-]. apply ord_max_ge_r.
    + intros Hr. etrans; [by eapply awf_records_le|apply ord_max_ge_l].
  - intros s b [? Hb]%lookup_delete_Some. etrans; [by eapply awf_faulty_le|apply ord_max_ge_l].
Qed.

Lemma with_record_watermark a slot ballot command :
  ord_le (watermark_of a) (watermark_of (with_record a slot ballot command)).
Proof.
  apply watermark_mono. intros s Hs. simpl. rewrite lookup_insert, lookup_delete.
  destruct (decide (slot = s)); [left; by eexists|tauto].
Qed.

Lemma record_accepted_fits a slot ballot command (writes : list W) :
  acceptor_wf a -> recordable a slot ballot command -> (was_faulty a slot = true -> a_faulty_repaired a + 1 <= u64_max) ->
  record_accepted a slot ballot command writes =
    Done (with_record a slot ballot command,
          writes ++ [from_write (AppendAccepted slot ballot command)], was_faulty a slot).
Proof.
  intros Hwf Hrec Hfit. pose proof Hrec as (Hs & Hp & Hheld).
  pose proof (with_record_wf _ _ _ _ Hwf Hrec) as Hwf'.
  unfold record_accepted. window_ok. fold (floor_of a).
  rassert_by (apply bool_decide_eq_false_2; olia). rassert_by done.
  rewrite vote_watermark_ok by done. rsimpl. simpl window_remove. cbv iota beta.
  fold (was_faulty a slot).
  eapply bind_seq with (a := a_faulty_repaired a + (if was_faulty a slot then 1 else 0)); [|cbv beta].
  { unfold was_faulty in *. case_bool_decide; [apply u64_add_ok; auto|]. by rewrite N.add_0_r. }
  rassert_by done. window_ok.
  eapply bind_seq with (a := tt); [|cbv beta].
  { destruct (w_entries (a_records a) !! slot) as [[hb hv]|]; [|done]. simpl in Hheld.
    case_decide; [|done]. destruct Hheld as [? Heq]. apply rassert_true, Heq. by apply ord_le_antisymm. }
  rassert_by (destruct (w_entries (a_records a) !! slot); simpl in *; tauto).
  rewrite window_insert_ok; [|apply Hwf|exact Hs]. rsimpl. fold (with_record a slot ballot command).
  rewrite vote_watermark_ok by done. rsimpl. rassert_by apply with_record_watermark.
  rassert_by (rewrite length_app; simpl; lia).
  rewrite window_get_ok by apply Hwf'. rsimpl.
  rassert_by (simpl; by rewrite lookup_insert_eq).
  rewrite window_contains_key_ok by apply Hwf'. rsimpl. rassert_by (simpl; rewrite lookup_delete_eq;
    apply bool_decide_eq_false_2; by intros [? ?]). done.
Qed.

Lemma record_accepted_ok a slot ballot command (writes : list W) :
  acceptor_wf a -> recordable a slot ballot command -> a_faulty_repaired a + 1 <= u64_max ->
  record_accepted a slot ballot command writes =
    Done (with_record a slot ballot command,
          writes ++ [from_write (AppendAccepted slot ballot command)], was_faulty a slot).
Proof. intros. by apply record_accepted_fits. Qed.

(** The converse: a vote that may not be recorded panics. *)
Lemma record_accepted_inv a slot ballot command (writes : list W) r :
  acceptor_wf a -> record_accepted a slot ballot command writes = Done r ->
  recordable a slot ballot command.
Proof.
  intros Hwf. unfold record_accepted. window_ok. intros H. rinv H.
  apply bool_decide_eq_false in E. split; [unfold floor_of; olia|]. split; [done|].
  destruct (w_entries (a_records a) !! slot) as [[hb hv]|] eqn:El; [|done].
  simplify_eq/=. split; [done|]. intros ->.
  match goal with Hm : (if decide (ballot ≤ ballot)%B then _ else _) = _ |- _ =>
    rewrite decide_True in Hm by reflexivity; by apply rassert_inv in Hm end.
Qed.

(** ** Boot *)

Lemma ballots_max_ge (l : list Ballot) b : b ∈ l -> (b ≤ ballots_max l)%B.
Proof.
  induction l as [|x l IH]; [set_solver|]. intros [->|Hb]%elem_of_cons; simpl.
  - apply ord_max_ge_l.
  - etrans; [by apply IH|apply ord_max_ge_r].
Qed.

Lemma ballots_max_le (l : list Ballot) b : (forall x, x ∈ l -> x ≤ b)%B -> (ballots_max l ≤ b)%B.
Proof.
  induction l as [|x l IH]; intros Hl; simpl; [apply zero_le|].
  apply ord_max_lub; [apply Hl; set_solver|apply IH; set_solver].
Qed.

(** The durable states a boot may read back. *)
Record bootable (promise : Ballot) (records : gmap Slot (Ballot * V)) (first : Slot)
  (faulty : gmap Slot Ballot) : Prop := {
  boot_records : forall s, is_Some (records !! s) -> first <= s;
  boot_faulty : forall s, is_Some (faulty !! s) -> first <= s;
  boot_disjoint : forall s b, faulty !! s = Some b -> records !! s = None;
  boot_records_le : forall s b v, records !! s = Some (b, v) -> (b ≤ promise)%B;
  boot_faulty_le : forall s b, faulty !! s = Some b -> (b ≤ promise)%B }.

Definition booted (promise : Ballot) (records : gmap Slot (Ballot * V)) (first : Slot)
  (faulty : gmap Slot Ballot) : Acceptor V :=
  mkAcceptor promise (mkWindow records first) (mkWindow faulty first) 0
    (ballots_max (((bt_entries records).*2).*1 ++ (bt_entries faulty).*2)).

Lemma elem_of_boot_ballots (records : gmap Slot (Ballot * V)) (faulty : gmap Slot Ballot) b :
  b ∈ ((bt_entries records).*2).*1 ++ (bt_entries faulty).*2 <->
  (exists s v, records !! s = Some (b, v)) \/ (exists s, faulty !! s = Some b).
Proof.
  rewrite elem_of_app, <-list_fmap_compose, !list_elem_of_fmap. split.
  - intros [([s [b' v]] & -> & Hin)|([s b'] & -> & Hin)]; apply elem_of_bt_entries in Hin; eauto.
  - intros [(s & v & Hs)|(s & Hs)]; apply elem_of_bt_entries in Hs;
      [left; by exists (s, (b, v))|right; by exists (s, b)].
Qed.

Lemma booted_wf promise records first faulty :
  bootable promise records first faulty -> acceptor_wf (booted promise records first faulty).
Proof.
  intros []. constructor; simpl; try done.
  - apply ballots_max_le. intros b [(s & v & Hs)|(s & Hs)]%elem_of_boot_ballots; eauto.
  - intros s b v Hs. apply ballots_max_ge, elem_of_boot_ballots. eauto.
  - intros s b Hs. apply ballots_max_ge, elem_of_boot_ballots. eauto.
Qed.

Lemma acceptor_new_ok promise records first faulty :
  bootable promise records first faulty ->
  acceptor_new promise records first faulty = Done (booted promise records first faulty).
Proof.
  intros Hb. pose proof (booted_wf _ _ _ _ Hb) as Hwf. unfold acceptor_new.
  rassert_by (apply first_key_geN, Hb). rassert_by (apply first_key_geN, Hb).
  rewrite (window_new_ok records) by exact (awf_records _ Hwf).
  rewrite (window_new_ok faulty) by exact (awf_faulty _ Hwf). rsimpl.
  fold (booted promise records first faulty). by rewrite acceptor_assert_invariants_ok.
Qed.

Lemma contains_fold_inv (w : RetainedWindow Slot (Ballot * V)) (ks : list Slot) ok :
  window_wf w ->
  foldM (fun ok s => held ← window_contains_key w s; mret (ok && negb held)) ok ks = Done true ->
  forall s, s ∈ ks -> w_entries w !! s = None.
Proof.
  intros Hw. revert ok. induction ks as [|k ks IH]; intros ok H s Hs; [set_solver|].
  simpl in H. rewrite window_contains_key_ok in H by done. rewrite bind_Done in H. simpl in H.
  apply elem_of_cons in Hs as [->|Hs]; [|by eapply IH].
  destruct (w_entries w !! k) eqn:E; [|done]. exfalso.
  rewrite andb_false_r in H. clear -H Hw.
  induction ks as [|k' ks IH]; simpl in H; [done|].
  rewrite window_contains_key_ok in H by done. by apply IH.
Qed.

Lemma acceptor_assert_invariants_inv a u :
  window_wf (a_records a) -> window_wf (a_faulty a) -> acceptor_assert_invariants a = Done u ->
  (forall s b, w_entries (a_faulty a) !! s = Some b -> w_entries (a_records a) !! s = None) /\
  (a_ceiling a ≤ a_promised a)%B.
Proof.
  intros Hr Hf H. unfold acceptor_assert_invariants in H. rinv H.
  split; [|done]. intros s b Hs.
  match goal with He : window_entries _ = Done ?m, Hd : foldM _ _ (bt_keys ?m) = Done ?r |- _ =>
    rewrite window_entries_ok in He by done; injection He as <-;
    assert (r = true) as -> by done;
    eapply (contains_fold_inv _ _ _ Hr Hd), elem_of_bt_keys; by eexists end.
Qed.

(** [Acceptor::new] returns exactly on the bootable states. *)
Lemma acceptor_new_inv promise records first faulty a :
  acceptor_new promise records first faulty = Done a -> bootable promise records first faulty.
Proof.
  unfold acceptor_new. intros H. rinv H. injection H as <-.
  pose proof (proj1 (first_key_geN _ _) E). pose proof (proj1 (first_key_geN _ _) E0).
  apply window_new_iff in E1 as [-> Hr], E2 as [-> Hf].
  apply acceptor_assert_invariants_inv in E3 as [Hd Hc]; [|done..]. simpl in *.
  constructor; try done.
  - intros s b v Hs. etrans; [|exact Hc]. apply ballots_max_ge, elem_of_boot_ballots. eauto.
  - intros s b Hs. etrans; [|exact Hc]. apply ballots_max_ge, elem_of_boot_ballots. eauto.
Qed.

(** ** Reads under the invariant *)

Lemma promised_ok a : acceptor_wf a -> promised a = Done (a_promised a).
Proof.
  intros Hwf. unfold promised. window_ok.
  destruct (last_key_of _) as [s|]; [|done]. window_ok.
  rassert_by (destruct (w_entries (a_records a) !! s) as [[b v]|] eqn:E; [|done]; simpl;
              etrans; [by eapply awf_records_le|by apply Hwf]).
  done.
Qed.

Lemma acceptor_record_ok a slot :
  acceptor_wf a -> acceptor_record a slot = Done (w_entries (a_records a) !! slot).
Proof.
  intros Hwf. unfold acceptor_record. window_ok.
  destruct (w_entries (a_records a) !! slot) as [[b v]|] eqn:E; [|done]. window_ok.
  rassert_by (apply bool_decide_eq_false_2, ord_not_lt, (awf_records _ Hwf); by eexists).
  rassert_by (etrans; [by eapply awf_records_le|by apply Hwf]). window_ok.
  rassert_by (apply bool_decide_eq_false_2; intros [b' Hb']; apply (awf_disjoint _ Hwf) in Hb'; congruence).
  done.
Qed.

(** ** Repair and retention under the invariant *)

Definition with_repairs a (n : N) : Acceptor V :=
  mkAcceptor (a_promised a) (a_records a) (a_faulty a) n (a_ceiling a).

Lemma with_repairs_wf a n : acceptor_wf a -> acceptor_wf (with_repairs a n).
Proof. by intros []. Qed.

Lemma acceptor_rewrite_ok a slot (writes : list W) :
  acceptor_wf a -> a_faulty_repaired a + 1 <= u64_max ->
  acceptor_rewrite a slot writes =
    Done (match w_entries (a_records a) !! slot with
          | Some (ballot, value) =>
              (with_repairs a (a_faulty_repaired a + 1),
               writes ++ [from_write (AppendAccepted slot ballot value)], Some ballot)
          | None => (a, writes, None)
          end).
Proof.
  intros Hwf Hfit. unfold acceptor_rewrite. rewrite acceptor_record_ok by done. rsimpl.
  destruct (w_entries (a_records a) !! slot) as [[b v]|] eqn:E; [|done].
  rewrite vote_watermark_ok, u64_add_ok by done. rsimpl.
  fold (with_repairs a (a_faulty_repaired a + 1)).
  rassert_by (rewrite length_app; simpl; lia).
  rewrite window_get_ok by (simpl; apply Hwf). rsimpl. rassert_by (simpl; by rewrite E).
  rassert_by done. rewrite vote_watermark_ok by by apply with_repairs_wf. rsimpl.
  by rassert_by done.
Qed.

Definition dropped a (first : Slot) : Acceptor V :=
  mkAcceptor (a_promised a) (mkWindow (bt_split_off first (w_entries (a_records a))) first)
    (mkWindow (bt_split_off first (w_entries (a_faulty a))) first) (a_faulty_repaired a) (a_ceiling a).

Lemma dropped_lookup {A} (m : gmap Slot A) first s x :
  bt_split_off first m !! s = Some x -> first <= s /\ m !! s = Some x.
Proof. rewrite lookup_bt_split_off. case_decide; by intros. Qed.

Lemma dropped_wf a first : acceptor_wf a -> acceptor_wf (dropped a first).
Proof.
  intros Hwf. constructor; simpl; try done; try apply window_raise_floor_wf.
  - intros s b [? Hb]%dropped_lookup. rewrite lookup_bt_split_off. case_decide; [|done].
    by eapply awf_disjoint.
  - apply Hwf.
  - intros s b v [? Hb]%dropped_lookup. by eapply awf_records_le.
  - intros s b [? Hb]%dropped_lookup. by eapply awf_faulty_le.
Qed.

Lemma dropped_watermark a first :
  floor_of a <= first -> ord_le (watermark_of a) (watermark_of (dropped a first)).
Proof.
  intros Hle. apply watermark_mono. intros s Hs. unfold floor_of in *. simpl.
  rewrite !lookup_bt_split_off. change (ord_le first s) with (first <= s).
  destruct (decide (first <= s)); [|right; right; lia].
  destruct Hs as [?|[?|?]]; auto. lia.
Qed.

Lemma drop_prefix_ok a first :
  acceptor_wf a -> floor_of a <= first -> drop_prefix a first = Done (dropped a first).
Proof.
  intros Hwf Hle. pose proof (dropped_wf _ first Hwf) as Hwf'. unfold drop_prefix.
  rewrite first_slot_ok by done. rsimpl. rassert_by done.
  rewrite vote_watermark_ok by done. rsimpl.
  rewrite (window_raise_floor_ok (a_records a)) by exact Hle.
  rewrite (window_raise_floor_ok (a_faulty a)) by (rewrite <-(awf_floor _ Hwf); exact Hle). rsimpl.
  fold (dropped a first). rewrite acceptor_assert_invariants_ok by done. rsimpl.
  rewrite window_first_key_ok. rsimpl.
  rassert_by (apply first_key_geN; intros s Hs; exact (awf_records _ Hwf' s Hs)).
  rewrite vote_watermark_ok by done. rsimpl. by rassert_by by apply dropped_watermark.
Qed.

Lemma truncate_ok a first sealed writes :
  acceptor_wf a -> floor_of a <= first ->
  truncate a first sealed writes = Done (dropped a first, writes ++ [WTruncate first sealed]).
Proof.
  intros Hwf Hle. pose proof (dropped_wf _ first Hwf). unfold truncate.
  rewrite promised_ok, drop_prefix_ok by done. rsimpl.
  rewrite first_slot_ok by done. rsimpl. rassert_by done.
  rewrite promised_ok by done. rsimpl. by rassert_by done.
Qed.

Lemma trim_to_ok a point state writes :
  acceptor_wf a -> floor_of a <= point ->
  trim_to a point state writes = Done (dropped a point, writes ++ [WTrimmedTo point state]).
Proof.
  intros Hwf Hle. pose proof (dropped_wf _ point Hwf). unfold trim_to.
  rewrite promised_ok, drop_prefix_ok by done. rsimpl.
  rewrite first_slot_ok by done. rsimpl. rassert_by done.
  rewrite promised_ok by done. rsimpl. by rassert_by done.
Qed.
End acceptor.

(** ** Histories of one acceptor *)

Section history.
Context {V : Type} `{!EqDecision V} `{!FromWrite V WriteOp}.
Implicit Types (a : Acceptor V).

(** One call of the role that returned, with the writes it added. *)
Inductive acceptor_step a : Acceptor V -> list WriteOp -> Prop :=
| step_prepare ballot from a' ws o :
    prepare a ballot from [] = Done (a', ws, o) -> acceptor_step a a' ws
| step_promise ballot a' ws : set_promise a ballot [] = Done (a', ws) -> acceptor_step a a' ws
| step_record slot ballot command a' ws r :
    record_accepted a slot ballot command [] = Done (a', ws, r) ->
    a_faulty_repaired a + 1 <= u64_max -> acceptor_step a a' ws
| step_rewrite slot a' ws r :
    acceptor_rewrite a slot [] = Done (a', ws, r) ->
    a_faulty_repaired a + 1 <= u64_max -> acceptor_step a a' ws
| step_truncate first sealed a' ws : truncate a first sealed [] = Done (a', ws) -> acceptor_step a a' ws
| step_trim_to point state a' ws : trim_to a point state [] = Done (a', ws) -> acceptor_step a a' ws.

Definition acceptor_later : relation (Acceptor V) :=
  rtc (fun a a' => exists ws, acceptor_step a a' ws).

(** What one call does, as one of four pure transitions. *)
Inductive acceptor_move a : Acceptor V -> list WriteOp -> Prop :=
| move_none : acceptor_move a a []
| move_promise ballot :
    (a_promised a < ballot)%B ->
    acceptor_move a (with_promise a ballot) [from_write (SetPromise ballot)]
| move_record slot ballot command :
    recordable a slot ballot command ->
    acceptor_move a (with_record a slot ballot command) [from_write (AppendAccepted slot ballot command)]
| move_rewrite slot ballot command :
    w_entries (a_records a) !! slot = Some (ballot, command) ->
    acceptor_move a (with_repairs a (a_faulty_repaired a + 1))
      [from_write (AppendAccepted slot ballot command)]
| move_truncate first sealed :
    floor_of a <= first -> acceptor_move a (dropped a first) [WTruncate first sealed]
| move_trim point state :
    floor_of a <= point -> acceptor_move a (dropped a point) [WTrimmedTo point state].

Lemma drop_prefix_floor a first a' :
  acceptor_wf a -> drop_prefix a first = Done a' -> floor_of a <= first.
Proof.
  intros Hwf H. unfold drop_prefix in H. rewrite first_slot_ok in H by done.
  rewrite bind_Done in H. by rinv H.
Qed.

Lemma acceptor_step_move a a' ws : acceptor_wf a -> acceptor_step a a' ws -> acceptor_move a a' ws.
Proof.
  intros Hwf. destruct 1 as [b from a' ws o H|b a' ws H|s b c a' ws r H Hfit|s a' ws r H Hfit
    |first sealed a' ws H|point state a' ws H].
  - rewrite prepare_ok in H by done. injection H as H. unfold prepare_spec in H.
    repeat case_decide; simplify_eq; try apply move_none. apply move_promise.
    apply ord_le_ne_lt; [by apply ord_not_lt|by apply not_eq_sym].
  - assert (a_promised a ≤ b)%B as Hle by (unfold set_promise in H; by rinv H).
    rewrite set_promise_ok in H by done. injection H as <- <-. case_decide as E.
    + rewrite <-E. replace (with_promise a (a_promised a)) with a by by destruct a. apply move_none.
    + apply move_promise. by apply ord_le_ne_lt.
  - pose proof (record_accepted_inv _ _ _ _ _ _ Hwf H) as Hrec.
    rewrite record_accepted_ok in H by done. injection H as <- <- _. by apply move_record.
  - rewrite acceptor_rewrite_ok in H by done.
    destruct (w_entries (a_records a) !! s) as [[b c]|] eqn:E; simplify_eq; [|apply move_none].
    by apply (move_rewrite _ s).
  - assert (floor_of a <= first) as Hle
      by (unfold truncate in H; rinv H; eapply drop_prefix_floor; eassumption).
    rewrite truncate_ok in H by done. injection H as <- <-. by apply move_truncate.
  - assert (floor_of a <= point) as Hle
      by (unfold trim_to in H; rinv H; eapply drop_prefix_floor; eassumption).
    rewrite trim_to_ok in H by done. injection H as <- <-. by apply move_trim.
Qed.

Lemma acceptor_move_wf a a' ws : acceptor_wf a -> acceptor_move a a' ws -> acceptor_wf a'.
Proof.
  intros Hwf. destruct 1; [done|apply with_promise_wf; [done|by apply ord_lt_le]
    |by apply with_record_wf|by apply with_repairs_wf|by apply dropped_wf..].
Qed.

(** A later acceptor keeps every vote: the promise, the floor and the
    watermark only rise, and a retained vote is only replaced upward. *)
Record keeps_votes a a' : Prop := {
  kv_promise : (a_promised a ≤ a_promised a')%B;
  kv_floor : floor_of a <= floor_of a';
  kv_watermark : ord_le (watermark_of a) (watermark_of a');
  kv_votes : forall s b v, floor_of a' <= s -> w_entries (a_records a) !! s = Some (b, v) ->
    exists b' v', w_entries (a_records a') !! s = Some (b', v') /\ (b ≤ b')%B /\ (b = b' -> v = v') }.

Lemma keeps_votes_refl a : keeps_votes a a.
Proof. constructor; try reflexivity. eauto using ord_le_refl. Qed.

Lemma keeps_votes_trans a1 a2 a3 : keeps_votes a1 a2 -> keeps_votes a2 a3 -> keeps_votes a1 a3.
Proof.
  intros [P1 F1 W1 V1] [P2 F2 W2 V2]. constructor; [by etrans|by etrans|by etrans|].
  intros s b v Hs Hv. destruct (V1 s b v) as (b2 & v2 & Hv2 & Hle & Heq); [lia|done|].
  destruct (V2 s b2 v2) as (b3 & v3 & Hv3 & Hle' & Heq'); [lia|done|].
  exists b3, v3. split_and!; [done|by etrans|]. intros ->.
  assert (b2 = b3) as -> by by apply ord_le_antisymm. rewrite Heq by done. auto.
Qed.

Lemma acceptor_move_keeps a a' ws : acceptor_move a a' ws -> keeps_votes a a'.
Proof.
  destruct 1 as [|b Hb|slot b c (Hs & Hp & Hh)|s b c Hs|first sealed Hle|first state Hle].
  - apply keeps_votes_refl.
  - constructor; try reflexivity; [by apply ord_lt_le|]. eauto using ord_le_refl.
  - constructor; try reflexivity; [apply with_record_watermark|]. intros s b' v' _ Hv. simpl.
    rewrite lookup_insert. case_decide as E; [|eauto using ord_le_refl].
    subst s. rewrite Hv in Hh. destruct Hh as [Hle Heq]. simpl in *. eauto.
  - constructor; try reflexivity. eauto using ord_le_refl.
  - constructor; [reflexivity|done|by apply dropped_watermark|].
    intros s b v Hs Hv. simpl. rewrite lookup_bt_split_off, decide_True by exact Hs.
    eauto using ord_le_refl.
  - constructor; [reflexivity|done|by apply dropped_watermark|].
    intros s b v Hs Hv. simpl. rewrite lookup_bt_split_off, decide_True by exact Hs.
    eauto using ord_le_refl.
Qed.

Lemma acceptor_later_keeps a a' :
  acceptor_wf a -> acceptor_later a a' -> acceptor_wf a' /\ keeps_votes a a'.
Proof.
  intros Hwf H. revert Hwf. induction H as [a|a1 a2 a3 [ws Hst] _ IH]; intros Hwf.
  - split; [done|apply keeps_votes_refl].
  - apply acceptor_step_move in Hst; [|done].
    destruct IH as [Hwf' Hk]; [by eapply acceptor_move_wf|].
    split; [done|]. eapply keeps_votes_trans; [by eapply acceptor_move_keeps|done].
Qed.

(** ** Properties *)

(** C22: across any sequence of calls of the role, retention included, a
    well-formed acceptor stays well formed and keeps its votes: the promise,
    the compaction floor and the vote watermark never fall, and every record
    still above the floor is held at the same or a higher ballot, with the
    same value when the ballot is the same. *)
Theorem acceptor_keeps_votes a a' :
  acceptor_wf a -> acceptor_later a a' -> acceptor_wf a' /\ keeps_votes a a'.
Proof. apply acceptor_later_keeps. Qed.

(** The promise is a fence.  Once a [Prepare] is answered with a promise
    at [ballot], no later state of the acceptor admits an [Accept] at a lower
    ballot, for any slot. *)
Theorem promise_is_a_fence a a1 a2 ballot from ws raised lower slot :
  acceptor_wf a -> prepare a ballot from [] = Done (a1, ws, PPromised raised) ->
  acceptor_later a1 a2 -> (lower < ballot)%B ->
  acceptor_admit a2 lower slot = Done ABelowFloor \/ acceptor_admit a2 lower slot = Done ARefused.
Proof.
  intros Hwf Hp Hlater Hlt.
  assert (a_promised a1 = ballot /\ acceptor_wf a1) as [Hb Hwf1].
  { rewrite prepare_ok in Hp by done. injection Hp as Hp.
    pose proof (prepare_spec_wf a ballot from ([] : list WriteOp) Hwf) as Hw. rewrite Hp in Hw.
    split; [|done]. unfold prepare_spec in Hp. repeat case_decide; by simplify_eq. }
  destruct (acceptor_later_keeps _ _ Hwf1 Hlater) as [Hwf2 [Hle _ _ _]].
  rewrite acceptor_admit_ok by done. case_decide; [by left|right]. rewrite decide_True; [done|].
  eapply ord_lt_le_trans; [exact Hlt|]. by rewrite <-Hb.
Qed.

(** C37: [record_accepted] returns exactly on the votes Paxos allows: the slot
    at or above the floor, the ballot under the promise, and the held record
    either at a lower ballot or the very same vote.  It then emits the one
    durable write and moves nothing but the slot. *)
Theorem record_accepted_exact a slot ballot command (writes : list WriteOp) :
  acceptor_wf a -> a_faulty_repaired a + 1 <= u64_max ->
  (returns (record_accepted a slot ballot command writes) <-> recordable a slot ballot command) /\
  (recordable a slot ballot command ->
   record_accepted a slot ballot command writes =
     Done (with_record a slot ballot command,
           writes ++ [from_write (AppendAccepted slot ballot command)], was_faulty a slot) /\
   acceptor_wf (with_record a slot ballot command)).
Proof.
  intros Hwf Hfit. split.
  - split; [intros [r Hr]; by eapply record_accepted_inv|]. intros Hrec.
    rewrite record_accepted_ok by done. by eexists.
  - intros Hrec. split; [by apply record_accepted_ok|by apply with_record_wf].
Qed.

(** [prepare] on every branch: refused below the floor and below the
    promise without a write or a move, re-affirmed at the promise without a
    write, and raised with exactly the one durable promise; it never panics. *)
Theorem prepare_exact a ballot from (writes : list WriteOp) :
  acceptor_wf a ->
  prepare a ballot from writes = Done (prepare_spec a ballot from writes) /\
  acceptor_wf (prepare_spec a ballot from writes).1.1.
Proof. intros Hwf. split; [by apply prepare_ok|by apply prepare_spec_wf]. Qed.
End history.

(** [Acceptor::new] boots exactly the durable states the write side can
    have left (nothing below the floor, readable and faulty slots disjoint,
    every ballot under the promise), and boots them into a well-formed role. *)
Theorem acceptor_boots_exactly {V} `{!EqDecision V} promise (records : gmap Slot (Ballot * V)) first faulty :
  (returns (acceptor_new promise records first faulty) <-> bootable promise records first faulty) /\
  (bootable promise records first faulty ->
   acceptor_new promise records first faulty = Done (booted promise records first faulty) /\
   acceptor_wf (booted promise records first faulty)).
Proof.
  split; [split; [intros [a Ha]; by eapply acceptor_new_inv|]|].
  - intros Hb. rewrite acceptor_new_ok by done. by eexists.
  - intros Hb. split; [by apply acceptor_new_ok|by apply booted_wf].
Qed.

(** ** Witnesses *)

Definition ex_records : gmap Slot (Ballot * Command) := {[ 3 := (mkBallot 1 1, Ctrl Noop) ]}.
Definition ex_acceptor : Acceptor Command := booted (mkBallot 2 1) ex_records 2 ∅.

Lemma ex_bootable : bootable (mkBallot 2 1) ex_records 2 ∅.
Proof.
  constructor; unfold ex_records.
  - intros s [x Hx]. apply lookup_singleton_Some in Hx as [<- _]. lia.
  - intros s [x Hx]. by rewrite lookup_empty in Hx.
  - intros s b Hb. by rewrite lookup_empty in Hb.
  - intros s b v Hb. apply lookup_singleton_Some in Hb as [_ [= <- <-]]. blia.
  - intros s b Hb. by rewrite lookup_empty in Hb.
Defined.

Lemma ex_acceptor_wf : acceptor_wf ex_acceptor.
Proof. apply booted_wf, ex_bootable. Defined.

Lemma acceptor_boots_exactly_witness :
  acceptor_new (mkBallot 2 1) ex_records 2 ∅ = Done ex_acceptor.
Proof. apply (acceptor_boots_exactly (mkBallot 2 1) ex_records 2 ∅), ex_bootable. Defined.

Lemma prepare_exact_witness :
  prepare ex_acceptor (mkBallot 3 0) 2 [] =
    Done (with_promise ex_acceptor (mkBallot 3 0), [WAcceptor (SetPromise (mkBallot 3 0))], PPromised true).
Proof. apply (prepare_exact ex_acceptor (mkBallot 3 0) 2 []), ex_acceptor_wf. Defined.

Lemma record_accepted_exact_witness :
  returns (record_accepted ex_acceptor 3 (mkBallot 2 1) (Ctrl (SetLeader 1 None)) ([] : list WriteOp)) /\
  ~ recordable ex_acceptor 3 (mkBallot 1 1) (Ctrl (SetLeader 1 None)).
Proof.
  split.
  - apply (record_accepted_exact ex_acceptor 3 (mkBallot 2 1) (Ctrl (SetLeader 1 None)) []);
      [apply ex_acceptor_wf|done|].
    split_and!; [by vm_compute|reflexivity|].
    change (mkBallot 1 1 ≤ mkBallot 2 1 /\
      (mkBallot 1 1 = mkBallot 2 1 -> Ctrl Noop = Ctrl (SetLeader 1 None)))%B.
    split; [blia|done].
  - intros (_ & _ & H).
    change (mkBallot 1 1 ≤ mkBallot 1 1 /\
      (mkBallot 1 1 = mkBallot 1 1 -> Ctrl Noop = Ctrl (SetLeader 1 None)))%B in H.
    destruct H as [_ H]. by specialize (H eq_refl).
Defined.

Lemma promise_is_a_fence_witness :
  acceptor_admit (with_promise ex_acceptor (mkBallot 3 0)) (mkBallot 2 9) 7 = Done ABelowFloor \/
  acceptor_admit (with_promise ex_acceptor (mkBallot 3 0)) (mkBallot 2 9) 7 = Done ARefused.
Proof.
  apply (promise_is_a_fence ex_acceptor (with_promise ex_acceptor (mkBallot 3 0))
    (with_promise ex_acceptor (mkBallot 3 0)) (mkBallot 3 0) 2
    [WAcceptor (SetPromise (mkBallot 3 0))] true (mkBallot 2 9) 7).
  - apply ex_acceptor_wf.
  - by vm_compute.
  - apply rtc_refl.
  - blia.
Defined.

Lemma acceptor_keeps_votes_witness :
  keeps_votes ex_acceptor (with_promise ex_acceptor (mkBallot 3 0)).
Proof.
  apply (acceptor_keeps_votes ex_acceptor (with_promise ex_acceptor (mkBallot 3 0))).
  - apply ex_acceptor_wf.
  - apply rtc_once. exists [WAcceptor (SetPromise (mkBallot 3 0))].
    apply (step_prepare _ (mkBallot 3 0) 2 _ _ (PPromised true)). by vm_compute.
Defined.
