(* ===== verification/PromisePage.v ===== *)
(** * The promise pages ([Acceptor::promise_page])

    A page carries exactly the retained records and faulty entries from the
    requested slot up to its cursor, and following the cursors rebuilds the
    whole suffix. *)

From S2P Require Import Prelude BTree Types Retained Journal Contract Acceptor.

(** ** Sorted entry lists *)

Section sorted.
Context {A : Type}.
Implicit Types l : list (Slot * A).

Definition slots_sorted l : Prop := StronglySorted N.lt l.*1.

Lemma slots_sorted_cons s x l :
  slots_sorted ((s, x) :: l) <-> slots_sorted l /\ forall k, k ∈ l.*1 -> s < k.
Proof.
  unfold slots_sorted. rewrite fmap_cons. simpl. split.
  - intros [? Hf]%StronglySorted_inv. split; [done|]. by apply Forall_forall.
  - intros [? Hf]. constructor; [done|]. by apply Forall_forall.
Qed.

Lemma range_from_sorted from (m : gmap Slot A) : slots_sorted (bt_range_from from m).
Proof.
  unfold slots_sorted, bt_range_from.
  pose proof (bt_keys_sorted m) as Hs. unfold bt_keys in Hs. revert Hs.
  generalize (bt_entries m) as l. induction l as [|[k v] l IH]; [constructor|].
  rewrite fmap_cons. intros [Hs Hf]%StronglySorted_inv. rewrite filter_cons.
  destruct (decide _); [|by apply IH]. rewrite fmap_cons. constructor; [by apply IH|].
  rewrite Forall_forall in Hf. apply Forall_forall. intros k' Hk'.
  apply list_elem_of_fmap in Hk' as ([k'' v'] & -> & Hin%list_elem_of_filter). simpl.
  assert (ord_lt k k'') as Hlt; [|olia]. apply Hf, list_elem_of_fmap.
  exists (k'', v'). by destruct Hin.
Qed.

(** The map a run of insertions builds. *)
Definition taken l : gmap Slot A := list_to_map l.

Lemma taken_snoc l s x : s ∉ l.*1 -> taken (l ++ [(s, x)]) = <[s := x]> (taken l).
Proof. intros Hs. unfold taken. by apply list_to_map_snoc. Qed.

Lemma size_taken l : NoDup l.*1 -> size (taken l) = length l.
Proof.
  intros Hnd. unfold taken.
  rewrite <-length_map_to_list, map_to_list_to_map by done. done.
Qed.

Lemma lookup_taken l s x : NoDup l.*1 -> taken l !! s = Some x <-> (s, x) ∈ l.
Proof. intros Hnd. unfold taken. by rewrite <-elem_of_list_to_map. Qed.
End sorted.

(** ** The merge loop *)

Section page.
Context {V : Type} `{!EqDecision V}.
Implicit Types (a : Acceptor V) (R : list (Slot * (Ballot * V))) (F : list (Slot * Ballot)).

(** The loop's invariant: [R] and [F] are taken, [R'] and [F'] are left. *)
Record fill_state (limit : N) R F R' F' : Prop := {
  fs_R : NoDup R.*1;
  fs_F : NoDup F.*1;
  fs_R' : slots_sorted R';
  fs_F' : slots_sorted F';
  fs_disjoint : forall k, k ∈ R'.*1 -> k ∉ F'.*1;
  fs_RR : forall k k', k ∈ R.*1 -> k' ∈ R'.*1 -> k < k';
  fs_RF : forall k k', k ∈ R.*1 -> k' ∈ F'.*1 -> k < k';
  fs_FR : forall k k', k ∈ F.*1 -> k' ∈ R'.*1 -> k < k';
  fs_FF : forall k k', k ∈ F.*1 -> k' ∈ F'.*1 -> k < k';
  fs_len : (length R + length F <= N.to_nat limit)%nat }.

Lemma elem_of_snoc_fst {A} (l : list (Slot * A)) s x k :
  k ∈ (l ++ [(s, x)]).*1 <-> k ∈ l.*1 \/ k = s.
Proof. rewrite fmap_app, elem_of_app. simpl. by rewrite list_elem_of_singleton. Qed.

Lemma NoDup_snoc_fst {A} (l : list (Slot * A)) s x :
  NoDup l.*1 -> s ∉ l.*1 -> NoDup (l ++ [(s, x)]).*1.
Proof.
  intros Hnd Hs. rewrite fmap_app. apply NoDup_app. split_and!; [done| |apply NoDup_singleton].
  intros k Hk. simpl. rewrite list_elem_of_singleton. by intros ->.
Qed.

Lemma fill_state_readable limit R F s x R' F' :
  fill_state limit R F ((s, x) :: R') F' -> (forall k, k ∈ F'.*1 -> s < k) ->
  (length R + length F < N.to_nat limit)%nat ->
  (s ∉ R.*1) /\ fill_state limit (R ++ [(s, x)]) F R' F'.
Proof.
  intros [HR HF HR' HF' Hd HRR HRF HFR HFF Hl] Hs Hlim. rewrite fmap_cons in *. simpl in *.
  apply slots_sorted_cons in HR' as [HR' Hh].
  assert (s ∉ R.*1) as Hfr by (intros Hin; assert (s < s) by (apply HRR; [done|left]); lia).
  split; [done|]. constructor; try done.
  - by apply NoDup_snoc_fst.
  - intros k Hk. apply Hd. by right.
  - intros k k' [Hk| ->]%elem_of_snoc_fst Hk'; [apply HRR; [done|by right]|by apply Hh].
  - intros k k' [Hk| ->]%elem_of_snoc_fst Hk'; [by apply HRF|by apply Hs].
  - intros k k' Hk Hk'. apply HFR; [done|by right].
  - rewrite length_app. simpl. lia.
Qed.

Lemma fill_state_rotted limit R F s b R' F' :
  fill_state limit R F R' ((s, b) :: F') -> (forall k, k ∈ R'.*1 -> s < k) ->
  (length R + length F < N.to_nat limit)%nat ->
  (s ∉ F.*1) /\ fill_state limit R (F ++ [(s, b)]) R' F'.
Proof.
  intros [HR HF HR' HF' Hd HRR HRF HFR HFF Hl] Hs Hlim. rewrite fmap_cons in *. simpl in *.
  apply slots_sorted_cons in HF' as [HF' Hh].
  assert (s ∉ F.*1) as Hfr by (intros Hin; assert (s < s) by (apply HFF; [done|left]); lia).
  split; [done|]. constructor; try done.
  - by apply NoDup_snoc_fst.
  - intros k Hk Hk'. apply (Hd k Hk). by right.
  - intros k k' Hk Hk'. apply HRF; [done|by right].
  - intros k k' [Hk| ->]%elem_of_snoc_fst Hk'; [by apply HFR|by apply Hs].
  - intros k k' [Hk| ->]%elem_of_snoc_fst Hk'; [apply HFF; [done|by right]|by apply Hh].
  - rewrite length_app. simpl. lia.
Qed.

(** The loop, from a state of the invariant, stops in one: it returns (the
    fuel is enough), and it leaves entries behind only when the page is full. *)
Definition fills limit R F R' F' out : Prop :=
  exists R1 F1 R2 F2,
    out = Done (taken (R ++ R1), taken (F ++ F1), R2, F2) /\
    R' = R1 ++ R2 /\ F' = F1 ++ F2 /\ fill_state limit (R ++ R1) (F ++ F1) R2 F2 /\
    (R2 <> [] \/ F2 <> [] -> (length (R ++ R1) + length (F ++ F1) = N.to_nat limit)%nat).

Lemma fills_readable limit R F s x R' F' out :
  fills limit (R ++ [(s, x)]) F R' F' out -> fills limit R F ((s, x) :: R') F' out.
Proof.
  intros (R1 & F1 & R2 & F2 & -> & -> & -> & Hst & Hfull). rewrite <-app_assoc in *.
  by exists ((s, x) :: R1), F1, R2, F2.
Qed.

Lemma fills_rotted limit R F s b R' F' out :
  fills limit R (F ++ [(s, b)]) R' F' out -> fills limit R F R' ((s, b) :: F') out.
Proof.
  intros (R1 & F1 & R2 & F2 & -> & -> & -> & Hst & Hfull). rewrite <-app_assoc in *.
  by exists R1, ((s, b) :: F1), R2, F2.
Qed.

Lemma fills_stop limit R F R' F' :
  fill_state limit R F R' F' ->
  (R' <> [] \/ F' <> [] -> (length R + length F = N.to_nat limit)%nat) ->
  fills limit R F R' F' (Done (taken R, taken F, R', F')).
Proof. intros. exists [], [], R', F'. by rewrite !app_nil_r. Qed.

Lemma promise_fill_ok limit fuel R F R' F' :
  (length R' + length F' < fuel)%nat -> fill_state limit R F R' F' ->
  fills limit R F R' F' (promise_fill fuel limit R' F' (taken R) (taken F)).
Proof.
  revert R F R' F'. induction fuel as [|fuel IH]; intros R F R' F' Hfuel Hst; [lia|].
  simpl. unfold msize. rewrite !size_taken by apply Hst. pose proof (fs_len _ _ _ _ _ Hst).
  case_decide as Hlim; [|apply fills_stop; [done|lia]].
  assert (length R + length F < N.to_nat limit)%nat as Hl by lia.
  destruct R' as [|[s x] R''], F' as [|[s' b] F'']; [by apply fills_stop; [|intros []]|..].
  - destruct (fill_state_rotted _ _ _ _ _ _ _ Hst) as [Hfr Hst']; [set_solver|done|].
    apply fills_rotted. rewrite <-taken_snoc by done. apply IH; [simpl in *; lia|done].
  - destruct (fill_state_readable _ _ _ _ _ _ _ Hst) as [Hfr Hst']; [set_solver|done|].
    apply fills_readable. rewrite <-taken_snoc by done. apply IH; [simpl in *; lia|done].
  - pose proof (proj1 (slots_sorted_cons _ _ _) (fs_R' _ _ _ _ _ Hst)) as [_ HhR].
    pose proof (proj1 (slots_sorted_cons _ _ _) (fs_F' _ _ _ _ _ Hst)) as [_ HhF].
    pose proof (fs_disjoint _ _ _ _ _ Hst s ltac:(left)) as Hne.
    case_decide as Hlt.
    + destruct (fill_state_readable _ _ _ _ _ _ _ Hst) as [Hfr Hst']; [|done|].
      { intros k [->|Hk]%elem_of_cons; [done|]. specialize (HhF k Hk). lia. }
      apply fills_readable. rewrite <-taken_snoc by done. apply IH; [simpl in *; lia|done].
    + assert (s' < s) by (assert (s <> s') by (intros ->; apply Hne; left); lia).
      destruct (fill_state_rotted _ _ _ _ _ _ _ Hst) as [Hfr Hst']; [|done|].
      { intros k [->|Hk]%elem_of_cons; [done|]. specialize (HhR k Hk). lia. }
      apply fills_rotted. rewrite <-taken_snoc by done. apply IH; [simpl in *; lia|done].
Qed.

(** ** The page *)

Lemma page_cursor_Some R F n : page_cursor R F = Some n -> n ∈ R.*1 \/ n ∈ F.*1.
Proof.
  destruct R as [|[s x] R], F as [|[s' b] F]; simpl; intros [= <-]; [right; left|left; left|].
  destruct (N.min_spec s s') as [[_ ->]|[_ ->]]; [left; left|right; left].
Qed.

Lemma page_cursor_le R F k :
  slots_sorted R -> slots_sorted F -> k ∈ R.*1 \/ k ∈ F.*1 ->
  exists n, page_cursor R F = Some n /\ n <= k.
Proof.
  intros HR HF Hk.
  assert (forall A (l : list (Slot * A)) s x, slots_sorted ((s, x) :: l) -> k ∈ ((s, x) :: l).*1 -> s <= k)
    as Hh.
  { intros A l s x [_ Hl]%slots_sorted_cons. rewrite fmap_cons. intros [->|Hin]%elem_of_cons; [done|].
    specialize (Hl _ Hin). lia. }
  destruct R as [|[s x] R], F as [|[s' b] F]; simpl page_cursor.
  - destruct Hk as [Hk|Hk]; by apply not_elem_of_nil in Hk.
  - exists s'. split; [done|]. destruct Hk as [Hk|Hk]; [by apply not_elem_of_nil in Hk|by eapply Hh].
  - exists s. split; [done|]. destruct Hk as [Hk|Hk]; [by eapply Hh|by apply not_elem_of_nil in Hk].
  - exists (N.min s s'). split; [done|].
    destruct Hk as [Hk|Hk]; [apply (Hh _ _ _ _ HR) in Hk|apply (Hh _ _ _ _ HF) in Hk]; lia.
Qed.

(** The slots a page that starts at [from] answers for. *)
Definition in_slice (from : Slot) (next : option Slot) (s : Slot) : Prop :=
  from <= s /\ is_none_or (fun n => s < n) next.

#[export] Instance in_slice_dec from next s : Decision (in_slice from next s).
Proof. unfold in_slice. apply _. Defined.

(** A page is the slice of the two windows between the requested slot and its
    cursor, and a cursor is a retained slot past a full page. *)
Record page_of a (from : Slot) (limit : N) (page : PromisePage V) : Prop := {
  po_accepted : forall s, p_accepted page !! s =
    if decide (in_slice from (p_next_from_slot page) s) then w_entries (a_records a) !! s else None;
  po_faulty : forall s, p_faulty page !! s =
    if decide (in_slice from (p_next_from_slot page) s) then w_entries (a_faulty a) !! s else None;
  po_bound : msize (p_accepted page) + msize (p_faulty page) <= limit;
  po_next : forall n, p_next_from_slot page = Some n ->
    from < n /\ msize (p_accepted page) + msize (p_faulty page) = limit /\
    (is_Some (w_entries (a_records a) !! n) \/ is_Some (w_entries (a_faulty a) !! n)) }.

Lemma taken_slice {A} (m : gmap Slot A) from next (T L : list (Slot * A)) s :
  bt_range_from from m = T ++ L -> NoDup T.*1 ->
  (forall k n, k ∈ T.*1 -> next = Some n -> k < n) ->
  (forall k, k ∈ L.*1 -> exists n, next = Some n /\ n <= k) ->
  taken T !! s = if decide (in_slice from next s) then m !! s else None.
Proof.
  intros Hm HT Hlt Hle. apply option_eq. intros x. rewrite lookup_taken by done. split.
  - intros Hin. assert ((s, x) ∈ bt_range_from from m) as [Hs Hf]%elem_of_bt_range_from
      by (rewrite Hm; apply elem_of_app; by left).
    rewrite decide_True; [done|]. split; [exact Hf|].
    destruct next as [n|]; [|done]. apply (Hlt s n); [|done]. apply list_elem_of_fmap. by exists (s, x).
  - case_decide as Hin; [|done]. destruct Hin as [Hf Hn]. intros Hs.
    assert ((s, x) ∈ bt_range_from from m) as Hr by (apply elem_of_bt_range_from; split; [done|exact Hf]).
    rewrite Hm in Hr. apply elem_of_app in Hr as [?|Hr]; [done|].
    destruct (Hle s) as (n & -> & Hle'); [apply list_elem_of_fmap; by exists (s, x)|].
    simpl in Hn. lia.
Qed.

Lemma elem_of_range_keys {A} (m : gmap Slot A) from k :
  k ∈ (bt_range_from from m).*1 <-> is_Some (m !! k) /\ from <= k.
Proof.
  rewrite list_elem_of_fmap. split.
  - intros ([s x] & -> & [Hs Hf]%elem_of_bt_range_from). split; [by eexists|exact Hf].
  - intros [[x Hx] Hf]. exists (k, x). split; [done|]. apply elem_of_bt_range_from. by split.
Qed.

Lemma fill_init a from limit :
  acceptor_wf a ->
  fill_state limit [] [] (window_range_from (a_records a) from) (window_range_from (a_faulty a) from).
Proof.
  intros Hwf. constructor; simpl; try (intros k k' Hk; by apply not_elem_of_nil in Hk).
  - constructor.
  - constructor.
  - apply range_from_sorted.
  - apply range_from_sorted.
  - intros k [[x Hx] _]%elem_of_range_keys [[b Hb] _]%elem_of_range_keys.
    apply (awf_disjoint _ Hwf) in Hb. congruence.
  - lia.
Qed.

Lemma fill_page_of a from limit R1 F1 R2 F2 :
  0 < limit ->
  window_range_from (a_records a) from = R1 ++ R2 -> window_range_from (a_faulty a) from = F1 ++ F2 ->
  fill_state limit R1 F1 R2 F2 ->
  (R2 <> [] \/ F2 <> [] -> (length R1 + length F1 = N.to_nat limit)%nat) ->
  page_of a from limit (mkPage (taken R1) (taken F1) (page_cursor R2 F2)).
Proof.
  intros Hpos ER EF Hst Hfull. pose proof Hst as [HR HF HR' HF' Hd HRR HRF HFR HFF Hl].
  assert (forall k, k ∈ R1.*1 \/ k ∈ F1.*1 -> from <= k) as Hfrom.
  { intros k Hk. destruct Hk as [Hk|Hk].
    - apply (elem_of_range_keys (w_entries (a_records a)) from k).
      unfold window_range_from in ER. rewrite ER, fmap_app, elem_of_app. by left.
    - apply (elem_of_range_keys (w_entries (a_faulty a)) from k).
      unfold window_range_from in EF. rewrite EF, fmap_app, elem_of_app. by left. }
  constructor; simpl; unfold msize; rewrite ?size_taken by done.
  - intros s. eapply taken_slice; [exact ER|done| |].
    + intros k n Hk [Hn|Hn]%page_cursor_Some; [by apply HRR|by apply HRF].
    + intros k Hk. apply page_cursor_le; auto.
  - intros s. eapply taken_slice; [exact EF|done| |].
    + intros k n Hk [Hn|Hn]%page_cursor_Some; [by apply HFR|by apply HFF].
    + intros k Hk. apply page_cursor_le; auto.
  - lia.
  - intros n Hn. apply page_cursor_Some in Hn as Hin.
    assert (length R1 + length F1 = N.to_nat limit)%nat as Hlen.
    { apply Hfull. destruct Hin as [Hin|Hin]; [left|right]; intros ->; by apply not_elem_of_nil in Hin. }
    split_and!; [|lia|].
    + destruct R1 as [|[s x] R1], F1 as [|[s' b] F1]; [simpl in Hlen; lia|..].
      * assert (s' < n) by (destruct Hin; [apply HFR|apply HFF]; try done; left).
        specialize (Hfrom s' ltac:(right; left)). lia.
      * assert (s < n) by (destruct Hin; [apply HRR|apply HRF]; try done; left).
        specialize (Hfrom s ltac:(left; left)). lia.
      * assert (s < n) by (destruct Hin; [apply HRR|apply HRF]; try done; left).
        specialize (Hfrom s ltac:(left; left)). lia.
    + unfold window_range_from in *. destruct Hin as [Hin|Hin]; [left|right].
      * apply (elem_of_range_keys (w_entries (a_records a)) from n).
        rewrite ER, fmap_app, elem_of_app. by right.
      * apply (elem_of_range_keys (w_entries (a_faulty a)) from n).
        rewrite EF, fmap_app, elem_of_app. by right.
Qed.

Lemma page_slots a from limit page s :
  page_of a from limit page ->
  s ∈ bt_keys (p_accepted page) ++ bt_keys (p_faulty page) ->
  from <= s /\ forall n, p_next_from_slot page = Some n -> s < n.
Proof.
  intros [Ha Hf _ _] Hin. rewrite elem_of_app, !elem_of_bt_keys, Ha, Hf in Hin.
  destruct (decide (in_slice from (p_next_from_slot page) s)) as [[Hs Hn]|];
    [|by destruct Hin as [[? ?]|[? ?]]].
  split; [done|]. intros n En. by rewrite En in Hn.
Qed.

Lemma promise_page_ok a from limit :
  acceptor_wf a -> 0 < limit <= PROMISE_BATCH ->
  exists page, promise_page a from limit = Done page /\ page_of a from limit page.
Proof.
  intros Hwf [Hpos Hmax].
  destruct (promise_fill_ok limit (S (length (window_range_from (a_records a) from)
    + length (window_range_from (a_faulty a) from))) [] [] _ _ (Nat.lt_succ_diag_r _)
    (fill_init a from limit Hwf)) as (R1 & F1 & R2 & F2 & E & ER & EF & Hst & Hfull).
  simpl app in *. pose proof (fill_page_of a from limit R1 F1 R2 F2 Hpos ER EF Hst Hfull) as Hpage.
  exists (mkPage (taken R1) (taken F1) (page_cursor R2 F2)). split; [|done].
  unfold promise_page. rassert_by done. rassert_by done.
  rbind E. pose proof Hpage as [Ha Hf Hb Hn].
  cbn [p_accepted p_faulty p_next_from_slot] in *.
  rassert_by done.
  rassert_by (apply Forall_forall; intros s; rewrite elem_of_bt_keys, Hf, Ha;
    case_decide; [intros [b Hs]; by apply (awf_disjoint _ Hwf) in Hs|done]).
  rassert_by (apply Forall_forall; intros s Hs; by apply (page_slots _ _ _ _ _ Hpage)).
  destruct (page_cursor R2 F2) as [n|] eqn:En; [|done].
  rassert_by (apply Forall_forall; intros s Hs; by apply (page_slots _ _ _ _ _ Hpage)).
  rassert_by by eapply Hn. done.
Qed.

(** ** Following the cursors *)

(** A candidate re-asks with the cursor of the page it received until a page
    has none. *)
Fixpoint promise_pages (fuel : nat) a (from : Slot) (limit : N) : run (list (PromisePage V)) :=
  match fuel with
  | O => Panic "promise_pages: out of fuel"
  | S fuel' =>
      page ← promise_page a from limit;
      match p_next_from_slot page with
      | None => mret [page]
      | Some n => rest ← promise_pages fuel' a n limit; mret (page :: rest)
      end
  end.

Definition pages_accepted (pages : list (PromisePage V)) : gmap Slot (Ballot * V) :=
  foldr (fun page m => p_accepted page ∪ m) ∅ pages.
Definition pages_faulty (pages : list (PromisePage V)) : gmap Slot Ballot :=
  foldr (fun page m => p_faulty page ∪ m) ∅ pages.

Lemma slice_union {A} (m p rest : gmap Slot A) from next :
  (forall s, p !! s = if decide (in_slice from next s) then m !! s else None) ->
  match next with
  | Some n => from < n /\ rest = bt_split_off n m
  | None => rest = ∅
  end -> p ∪ rest = bt_split_off from m.
Proof.
  intros Hp Hrest. apply map_eq. intros s.
  rewrite lookup_union, Hp, lookup_bt_split_off. change (ord_le from s) with (from <= s).
  destruct next as [n|].
  - destruct Hrest as [Hn ->]. rewrite lookup_bt_split_off. change (ord_le n s) with (n <= s).
    unfold in_slice. simpl. repeat case_decide; try lia; destruct (m !! s); done.
  - subst rest. rewrite lookup_empty. unfold in_slice. simpl.
    repeat case_decide; try tauto; destruct (m !! s); done.
Qed.

(** Retained entries at or after [from]: what the fuel counts. *)
Definition pending a (from : Slot) : nat :=
  (size (bt_split_off from (w_entries (a_records a))) +
   size (bt_split_off from (w_entries (a_faulty a))))%nat.

Lemma split_off_size_lt {A} (m : gmap Slot A) (p : gmap Slot A) from n :
  p ∪ bt_split_off n m = bt_split_off from m -> p ##ₘ bt_split_off n m ->
  (size (bt_split_off n m) + size p = size (bt_split_off from m))%nat.
Proof. intros <- Hd. rewrite map_size_disj_union by done. lia. Qed.

Lemma slice_disjoint {A} (m p : gmap Slot A) from n :
  (forall s, p !! s = if decide (in_slice from (Some n) s) then m !! s else None) ->
  p ##ₘ bt_split_off n m.
Proof.
  intros Hp. apply map_disjoint_spec. intros s x y Hx Hy.
  apply dropped_lookup in Hy as [Hn _]. rewrite Hp in Hx. case_decide as Hs; [|done].
  destruct Hs as [_ Hs]. simpl in Hs. lia.
Qed.

Lemma page_progress a from limit page n :
  0 < limit -> page_of a from limit page -> p_next_from_slot page = Some n ->
  (pending a n < pending a from)%nat.
Proof.
  intros Hpos [Ha Hf Hb Hn] En. destruct (Hn n En) as (Hlt & Hfull & _). rewrite En in *.
  unfold pending, msize in *.
  pose proof (split_off_size_lt _ _ from n (slice_union _ _ _ from (Some n) Ha (conj Hlt eq_refl))
    (slice_disjoint _ _ _ _ Ha)).
  pose proof (split_off_size_lt _ _ from n (slice_union _ _ _ from (Some n) Hf (conj Hlt eq_refl))
    (slice_disjoint _ _ _ _ Hf)). lia.
Qed.

(** One [Promise] page is exactly the retained suffix from the requested
    slot up to its cursor, readable records and faulty entries apart, with at
    most [limit] entries and a cursor only past a full page; the call never
    panics. *)
Theorem promise_page_exact a from limit :
  acceptor_wf a -> 0 < limit <= PROMISE_BATCH ->
  exists page, promise_page a from limit = Done page /\ page_of a from limit page.
Proof. apply promise_page_ok. Qed.

(** Following the cursors terminates (within one page per retained entry)
    and rebuilds the whole suffix: nothing the acceptor voted at or after
    [from] is withheld, nothing is invented, and a lost record is never
    reported as absent. *)
Theorem promise_pages_rebuild a from limit fuel :
  acceptor_wf a -> 0 < limit <= PROMISE_BATCH -> (pending a from < fuel)%nat ->
  exists pages, promise_pages fuel a from limit = Done pages /\
    pages_accepted pages = bt_split_off from (w_entries (a_records a)) /\
    pages_faulty pages = bt_split_off from (w_entries (a_faulty a)).
Proof.
  intros Hwf Hlim. revert from. induction fuel as [|fuel IH]; intros from Hfuel; [lia|].
  destruct (promise_page_ok a from limit Hwf Hlim) as (page & E & Hpage).
  simpl. rewrite E, bind_Done. pose proof Hpage as [Ha Hf Hb Hn].
  destruct (p_next_from_slot page) as [n|] eqn:En.
  - destruct Hlim as [Hpos Hmax].
    pose proof (page_progress a from limit page n Hpos Hpage En).
    destruct (IH n) as (rest & -> & Hra & Hrf); [lia|].
    exists (page :: rest). split; [done|]. simpl.
    destruct (Hn n eq_refl) as (Hlt & _).
    split; eapply slice_union; try done; by rewrite ?Hra, ?Hrf.
  - exists [page]. split; [done|]. simpl. split; by eapply slice_union.
Qed.
End page.

(** ** Witnesses *)

Lemma promise_page_exact_witness :
  exists page, promise_page ex_acceptor 2 1 = Done page /\ page_of ex_acceptor 2 1 page.
Proof. apply (promise_page_exact ex_acceptor 2 1); [apply ex_acceptor_wf|done]. Defined.

Lemma promise_pages_rebuild_witness :
  exists pages, promise_pages 2 ex_acceptor 2 1 = Done pages /\
    pages_accepted pages = bt_split_off 2 ex_records /\ pages_faulty pages = bt_split_off 2 ∅.
Proof.
  apply (promise_pages_rebuild ex_acceptor 2 1 2); [apply ex_acceptor_wf|done|]. vm_compute. lia.
Defined.
