(* ===== verification/Storage.v ===== *)
(** * Durable state and the boot read-back ([contract/mem_storage.rs], [node/boot.rs])

    The in-memory [Storage] a driver persists each batch into, and the scan
    that turns durable state back into an acceptor.  A store that [mirrors] an
    acceptor mirrors it again after every call whose writes were persisted, and
    boots into the same voting state. *)

From S2P Require Import Prelude BTree Types Retained Journal Contract Acceptor.

Record HardState := mkHard { max_promised_ballot : Ballot; chosen_index : option Slot }.

(** [trait Storage]: what a boot reads. *)
Class Storage (S : Type) := {
  st_hard_state : S -> HardState;
  st_accepted : S -> Slot -> option (Ballot * Command);
  st_first_slot : S -> Slot;
  st_last_slot : S -> Slot;
  st_sealed_state : S -> JournalState;
  st_faulty_entries : S -> list (Slot * Ballot) }.

(** [MemStorage], less the configuration it carries unread. *)
Record MemStorage := mkMem {
  m_hard_state : HardState;
  m_accepted : gmap Slot (Ballot * Command);
  m_first_slot : Slot;
  m_faulty : list (Slot * Ballot);
  m_sealed : JournalState }.

Definition mem_new : MemStorage := mkMem (mkHard zero None) ∅ 0 [] journal_default.

Definition mem_raise_floor (st : MemStorage) (first : Slot) : run MemStorage :=
  let floor := N.max (m_first_slot st) first in
  let st' := mkMem (m_hard_state st) (bt_split_off floor (m_accepted st)) floor
               (filter (fun e => floor <= e.1) (m_faulty st)) (m_sealed st) in
  rassert (is_none_or (fun slot => floor <= slot) (first_key_of (m_accepted st')))
    "a raised floor drops every record below it";;
  mret st'.

Definition mem_set_hard (st : MemStorage) (h : HardState) : MemStorage :=
  mkMem h (m_accepted st) (m_first_slot st) (m_faulty st) (m_sealed st).
Definition mem_seal (st : MemStorage) (s : JournalState) : MemStorage :=
  mkMem (m_hard_state st) (m_accepted st) (m_first_slot st) (m_faulty st) s.
Definition mem_append (st : MemStorage) (slot : Slot) (ballot : Ballot) (c : Command) : MemStorage :=
  mkMem (m_hard_state st) (<[slot := (ballot, c)]> (m_accepted st)) (m_first_slot st) (m_faulty st)
    (m_sealed st).

Definition apply_one (st : MemStorage) (write : WriteOp) : run MemStorage :=
  match write with
  | WAcceptor (SetPromise ballot) =>
      rassert (max_promised_ballot (m_hard_state st) ≤ ballot)%B "a persisted promise never falls";;
      mret (mem_set_hard st (mkHard ballot (chosen_index (m_hard_state st))))
  | WAcceptor (AppendAccepted slot ballot command)
  | WLearned slot ballot command => mret (mem_append st slot ballot command)
  | WSetChosenIndex slot =>
      mret (mem_set_hard st (mkHard (max_promised_ballot (m_hard_state st)) (Some slot)))
  | WTruncate first sealed => mem_raise_floor (mem_seal st sealed) first
  | WTrimmedTo point state =>
      let st := mem_seal st state in
      boundary ← rexpect (u64_checked_sub point 1) "attempt to subtract with overflow";
      let h := m_hard_state st in
      let st := if decide (is_none_or (fun ci => ci < boundary) (chosen_index h))
                then mem_set_hard st (mkHard (max_promised_ballot h) (Some boundary)) else st in
      mem_raise_floor st point
  end.

(** [MemStorage::apply]. *)
Definition mem_apply (st : MemStorage) (writes : list WriteOp) : run MemStorage :=
  foldM apply_one st writes.

#[export] Instance MemStorage_storage : Storage MemStorage := {|
  st_hard_state := m_hard_state;
  st_accepted st slot := m_accepted st !! slot;
  st_first_slot := m_first_slot;
  st_last_slot st := default 0 (last_key_of (m_accepted st));
  st_sealed_state := m_sealed;
  st_faulty_entries := m_faulty |}.

(** [first..=last]. *)
Definition slot_range (first last : Slot) : list Slot := range first (last + 1).

Section boot.
Context {S : Type} `{!Storage S}.
Implicit Types st : S.

Definition read_record st (promised : Ballot) (accepted : gmap Slot (Ballot * Command)) (s : Slot)
  : run (gmap Slot (Ballot * Command)) :=
  match st_accepted st s with
  | Some record =>
      rassert (record.1 ≤ promised)%B "the durable promise dominates every accepted record";;
      mret (<[s := record]> accepted)
  | None => mret accepted
  end.

Definition read_faulty (first : Slot) (promised : Ballot) (accepted : gmap Slot (Ballot * Command))
  (faulty : gmap Slot Ballot) (entry : Slot * Ballot) : run (gmap Slot Ballot) :=
  if decide (entry.1 < first) then mret faulty else
  rassert (accepted !! entry.1 = None) "a faulty entry is never also a readable accepted record";;
  rassert (entry.2 ≤ promised)%B "the durable promise dominates every faulty record";;
  mret (<[entry.1 := entry.2]> faulty).

Definition read_back_log st (promised : Ballot)
  : run (Slot * gmap Slot (Ballot * Command) * gmap Slot Ballot) :=
  let first := st_first_slot st in
  accepted ← foldM (read_record st promised) ∅ (slot_range first (st_last_slot st));
  faulty ← foldM (read_faulty first promised accepted) ∅ (st_faulty_entries st);
  mret (first, accepted, faulty).

(** The acceptor half of [ColocatedNode::new]. *)
Definition boot_acceptor st : run (Acceptor Command) :=
  let promised := max_promised_ballot (st_hard_state st) in
  '(first, accepted, faulty) ← read_back_log st promised;
  acceptor_new promised accepted first faulty.
End boot.

(** ** Persisted state mirrors the role *)

Record mirrors (st : MemStorage) (a : Acceptor Command) : Prop := {
  mi_promise : max_promised_ballot (m_hard_state st) = a_promised a;
  mi_records : m_accepted st = w_entries (a_records a);
  mi_floor : m_first_slot st = floor_of a;
  mi_nodup : NoDup (m_faulty st).*1;
  mi_faulty : list_to_map (m_faulty st) = w_entries (a_faulty a) }.

(** The writes the in-memory store takes: a jump has a predecessor slot, and a
    record does not land on a faulty entry. *)
Definition persistable (a : Acceptor Command) (w : WriteOp) : Prop :=
  match w with
  | WAcceptor (AppendAccepted slot _ _) => w_entries (a_faulty a) !! slot = None
  | WTrimmedTo point _ => 0 < point
  | _ => True
  end.

Lemma filter_faulty_map (l : list (Slot * Ballot)) floor :
  NoDup l.*1 ->
  NoDup (filter (fun e => floor <= e.1) l).*1 /\
  (list_to_map (filter (fun e => floor <= e.1) l) : gmap Slot Ballot)
    = bt_split_off floor (list_to_map l).
Proof.
  intros Hnd.
  assert (NoDup (filter (fun e => floor <= e.1) l).*1) as Hnd'.
  { eapply sublist_NoDup; [done|]. apply fmap_sublist, sublist_filter. }
  split; [done|]. apply map_eq. intros s. apply option_eq. intros b.
  rewrite <-elem_of_list_to_map, list_elem_of_filter by done. simpl.
  rewrite lookup_bt_split_off. change (ord_le floor s) with (floor <= s).
  case_decide; [|by split; [intros [? _]|]].
  rewrite <-elem_of_list_to_map by done. tauto.
Qed.

Lemma mem_raise_floor_ok st a first :
  mirrors st a -> floor_of a <= first ->
  exists st', mem_raise_floor st first = Done st' /\ mirrors st' (dropped a first).
Proof.
  intros [Hp Hr Hf Hnd Hfl] Hle. unfold mem_raise_floor.
  replace (N.max (m_first_slot st) first) with first by lia.
  eexists. split.
  - rassert_by (apply first_key_geN; simpl; intros s [x Hx]; by apply dropped_lookup in Hx as [? _]). done.
  - destruct (filter_faulty_map (m_faulty st) first Hnd) as [? Hm].
    constructor; simpl; try done; [by rewrite Hr|by rewrite Hm, Hfl].
Qed.

Lemma mirrors_move st a a' w :
  mirrors st a -> acceptor_move a a' [w] -> persistable a w ->
  exists st', apply_one st w = Done st' /\ mirrors st' a'.
Proof.
  intros Hm Hmove Hper. pose proof Hm as [Hp Hr Hf Hnd Hfl].
  inversion Hmove as [|b Hb|slot b c Hrec|slot b c Hs|first sealed Hle|point state Hle]; subst; simpl in *.
  - eexists. split; [by rassert_by by rewrite Hp; apply ord_lt_le|]. by constructor.
  - eexists. split; [done|]. constructor; simpl; try done; [by rewrite Hr|].
    by rewrite Hfl, delete_id.
  - eexists. split; [done|]. constructor; simpl; try done. rewrite Hr. by apply insert_id.
  - by apply (mem_raise_floor_ok (mem_seal st sealed)); [constructor|].
  - unfold u64_checked_sub. rewrite decide_True by lia. simpl.
    apply mem_raise_floor_ok; [|done]. by case_decide; constructor.
Qed.

(** ** The boot scan reads the mirror back *)

Lemma elem_of_slot_range first last s : s ∈ slot_range first last <-> first <= s <= last.
Proof. unfold slot_range. rewrite elem_of_range. lia. Qed.

Lemma read_records_ok (st : MemStorage) promised acc l :
  (forall s b c, m_accepted st !! s = Some (b, c) -> (b ≤ promised)%B) ->
  exists m, foldM (read_record st promised) acc l = Done m /\
    forall s, m !! s = if decide (s ∈ l) then
                         match m_accepted st !! s with Some r => Some r | None => acc !! s end
                       else acc !! s.
Proof.
  intros Hle. revert acc. induction l as [|k l IH]; intros acc; cbn [foldM].
  - exists acc. split; [done|]. intros s. by rewrite decide_False by apply not_elem_of_nil.
  - assert (read_record st promised acc k =
      Done (match m_accepted st !! k with Some r => <[k := r]> acc | None => acc end)) as ->.
    { unfold read_record. simpl. destruct (m_accepted st !! k) as [[b c]|] eqn:E; [|done].
      by rewrite rassert_true by by eapply Hle. }
    rewrite bind_Done. destruct (m_accepted st !! k) as [[b c]|] eqn:E.
    + destruct (IH (<[k := (b, c)]> acc)) as (m & -> & Hm). exists m. split; [done|].
      intros s. rewrite Hm. destruct (decide (s = k)) as [->|Hne].
      * rewrite E, lookup_insert_eq. repeat case_decide; try done; exfalso; set_solver.
      * rewrite lookup_insert_ne by done. apply decide_ext. rewrite elem_of_cons. tauto.
    + destruct (IH acc) as (m & -> & Hm). exists m. split; [done|].
      intros s. rewrite Hm. destruct (decide (s = k)) as [->|Hne].
      * rewrite E. by repeat case_decide.
      * apply decide_ext. rewrite elem_of_cons. tauto.
Qed.

Lemma read_faulty_ok first promised accepted acc (l : list (Slot * Ballot)) :
  (forall s b, (s, b) ∈ l -> first <= s /\ accepted !! s = None /\ (b ≤ promised)%B) ->
  foldM (read_faulty first promised accepted) acc l
    = Done (foldl (fun m (e : Slot * Ballot) => <[e.1 := e.2]> m) acc l).
Proof.
  revert acc. induction l as [|[s b] l IH]; intros acc Hl; [done|]. cbn [foldM foldl].
  destruct (Hl s b) as (? & ? & ?); [left|].
  assert (read_faulty first promised accepted acc (s, b) = Done (<[s := b]> acc)) as ->.
  { unfold read_faulty. simpl. rewrite decide_False by lia. rassert_by done. by rassert_by done. }
  rewrite bind_Done. apply IH. intros s' b' Hin. apply Hl. by right.
Qed.

Lemma foldl_insert_map (l : list (Slot * Ballot)) (acc : gmap Slot Ballot) :
  NoDup l.*1 -> foldl (fun m (e : Slot * Ballot) => <[e.1 := e.2]> m) acc l = list_to_map l ∪ acc.
Proof.
  revert acc. induction l as [|[s b] l IH]; intros acc; simpl; [by rewrite (left_id_L ∅ _)|].
  intros [Hs Hnd]%NoDup_cons. rewrite IH by done.
  rewrite <-insert_union_l, insert_union_r; [done|].
  apply not_elem_of_list_to_map_1. done.
Qed.

Lemma read_back_ok st a :
  acceptor_wf a -> mirrors st a ->
  read_back_log st (a_promised a) = Done (floor_of a, w_entries (a_records a), w_entries (a_faulty a)).
Proof.
  intros Hwf [Hp Hr Hf Hnd Hfl]. unfold read_back_log.
  destruct (read_records_ok st (a_promised a) ∅ (slot_range (m_first_slot st) (st_last_slot st)))
    as (m & E & Hm).
  { intros s b c Hs. rewrite Hr in Hs. etrans; [by eapply awf_records_le|by apply Hwf]. }
  simpl in *. rewrite E, bind_Done.
  assert (m = w_entries (a_records a)) as ->.
  { apply map_eq. intros s. rewrite Hm, lookup_empty, Hr. case_decide as Hin.
    - by destruct (w_entries (a_records a) !! s).
    - symmetry. destruct (w_entries (a_records a) !! s) eqn:Es; [|done]. exfalso. apply Hin.
      apply elem_of_slot_range. rewrite Hf. split; [apply (awf_records _ Hwf); by eexists|].
      destruct (last_key_of (w_entries (a_records a))) as [k|] eqn:El; rewrite ?Hr, ?El; simpl.
      + apply last_key_of_Some in El as [_ Hmax]. apply (Hmax s). by eexists.
      + apply last_key_of_None in El. rewrite El, lookup_empty in Es. done. }
  rewrite read_faulty_ok.
  - rewrite bind_Done, foldl_insert_map, Hfl, (right_id_L ∅ _), Hf by done. done.
  - intros s b Hin. apply (elem_of_list_to_map (M := gmap Slot)) in Hin; [|done]. rewrite Hfl in Hin.
    split_and!.
    + rewrite Hf. unfold floor_of. rewrite (awf_floor _ Hwf). apply (awf_faulty _ Hwf). by eexists.
    + by eapply awf_disjoint.
    + etrans; [by eapply awf_faulty_le|by apply Hwf].
Qed.

(** What a reboot keeps: everything but the per-incarnation repair counter
    (and the ceiling, which is recomputed). *)
Definition rebooted (a : Acceptor Command) : Acceptor Command :=
  booted (a_promised a) (w_entries (a_records a)) (floor_of a) (w_entries (a_faulty a)).

Lemma wf_bootable (a : Acceptor Command) :
  acceptor_wf a ->
  bootable (a_promised a) (w_entries (a_records a)) (floor_of a) (w_entries (a_faulty a)).
Proof.
  intros Hwf. constructor.
  - apply Hwf.
  - unfold floor_of. rewrite (awf_floor _ Hwf). apply Hwf.
  - apply Hwf.
  - intros s b v Hs. etrans; [by eapply awf_records_le|by apply Hwf].
  - intros s b Hs. etrans; [by eapply awf_faulty_le|by apply Hwf].
Qed.

Lemma boot_acceptor_ok st a :
  acceptor_wf a -> mirrors st a -> boot_acceptor st = Done (rebooted a).
Proof.
  intros Hwf Hm. unfold boot_acceptor. simpl. rewrite (mi_promise _ _ Hm), read_back_ok by done.
  rsimpl. by apply acceptor_new_ok, wf_bootable.
Qed.

(** C35: crash recovery of the in-memory store.  Persist the writes of one call of the
    acceptor and crash, where no vote of the call lands on a slot whose record had rotted and
    a trim jump has a predecessor slot ([persistable]; a vote that repairs a rotted slot is
    the case in which this store does not boot): the store takes them, and the boot scan
    rebuilds the acceptor as the call left it (promise, records, faulty entries and floor),
    so a promise or a vote that was answered is not forgotten. *)
Theorem persisted_call_survives_reboot st a a' ws :
  acceptor_wf a -> mirrors st a -> acceptor_step a a' ws -> Forall (persistable a) ws ->
  exists st', mem_apply st ws = Done st' /\ mirrors st' a' /\
    boot_acceptor st' = Done (rebooted a') /\ acceptor_wf (rebooted a').
Proof.
  intros Hwf Hm Hst Hper. apply acceptor_step_move in Hst; [|done].
  assert (acceptor_wf a') as Hwf' by by eapply acceptor_move_wf.
  assert (exists st', mem_apply st ws = Done st' /\ mirrors st' a') as (st' & Happ & Hm').
  { destruct ws as [|w [|w' ws]].
    - inversion Hst; subst. by exists st.
    - apply Forall_cons in Hper as [Hper _]. destruct (mirrors_move _ _ _ _ Hm Hst Hper) as (st' & E & ?).
      exists st'. unfold mem_apply. simpl. by rewrite E.
    - inversion Hst. }
  exists st'. split_and!; [done|done|by apply boot_acceptor_ok|by apply booted_wf, wf_bootable].
Qed.

(** The scan stops at the first entry that is also readable. *)
Lemma read_faulty_clash first promised accepted acc (l : list (Slot * Ballot)) slot b r :
  (slot, b) ∈ l -> first <= slot -> accepted !! slot = Some r ->
  (forall s b, (s, b) ∈ l -> first <= s /\ (b ≤ promised)%B) ->
  foldM (read_faulty first promised accepted) acc l
    = Panic "a faulty entry is never also a readable accepted record".
Proof.
  intros Hin Hf Hr. revert acc. induction l as [|[s b'] l IH]; intros acc Hl; cbn [foldM].
  { by apply not_elem_of_nil in Hin. }
  destruct (Hl s b') as [? ?]; [left|]. destruct (accepted !! s) as [r'|] eqn:E.
  - assert (read_faulty first promised accepted acc (s, b')
      = Panic "a faulty entry is never also a readable accepted record") as ->; [|done].
    unfold read_faulty. cbn [fst snd]. rewrite decide_False by lia.
    apply rassert_fails. by rewrite E.
  - assert (read_faulty first promised accepted acc (s, b') = Done (<[s := b']> acc)) as ->.
    { unfold read_faulty. simpl. rewrite decide_False by lia. rassert_by done. by rassert_by done. }
    rewrite bind_Done. apply IH.
    + apply elem_of_cons in Hin as [[= -> ->]|?]; [congruence|done].
    + intros s' b'' Hin'. apply Hl. by right.
Qed.

(** C38: [MemStorage::apply] does not clear a faulty entry when its repair is
    persisted: after the role heals a slot, the store holds the slot both
    readable and faulty, and the next boot scan panics. *)
Theorem mem_repair_breaks_boot st a slot ballot command st' lost :
  acceptor_wf a -> mirrors st a -> recordable a slot ballot command ->
  w_entries (a_faulty a) !! slot = Some lost ->
  mem_apply st [WAcceptor (AppendAccepted slot ballot command)] = Done st' ->
  boot_acceptor st' = Panic "a faulty entry is never also a readable accepted record".
Proof.
  intros Hwf [Hp Hr Hf Hnd Hfl] (Hs & Hle & Hheld) Hlost [= <-].
  unfold boot_acceptor, read_back_log. set (st' := mem_append st slot ballot command).
  destruct (read_records_ok st' (max_promised_ballot (m_hard_state st)) ∅
    (slot_range (m_first_slot st) (st_last_slot st'))) as (m & E & Hm).
  { intros s b c. simpl. rewrite lookup_insert, Hp, Hr. case_decide; [by intros [= <- <-]|].
    intros Hs'. etrans; [by eapply awf_records_le|by apply Hwf]. }
  simpl in E |- *. rewrite E, bind_Done. erewrite (read_faulty_clash _ _ _ _ _ slot lost); [done|..].
  - apply (elem_of_list_to_map (M := gmap Slot)); [done|]. by rewrite Hfl.
  - by rewrite Hf.
  - rewrite Hm. rewrite decide_True; [simpl; by rewrite lookup_insert_eq|].
    apply elem_of_slot_range. rewrite Hf. split; [done|]. simpl.
    destruct (last_key_of (<[slot := (ballot, command)]> (m_accepted st))) as [k|] eqn:El; simpl.
    + apply last_key_of_Some in El as [_ Hmax]. apply (Hmax slot). rewrite lookup_insert_eq. by eexists.
    + apply last_key_of_None in El. by apply insert_non_empty in El.
  - intros s b Hin. apply (elem_of_list_to_map (M := gmap Slot)) in Hin; [|done]. rewrite Hfl in Hin.
    rewrite Hf, Hp. split.
    + unfold floor_of. rewrite (awf_floor _ Hwf). apply (awf_faulty _ Hwf). by eexists.
    + etrans; [by eapply awf_faulty_le|by apply Hwf].
Qed.

(** ** Witnesses *)

Definition ex_store : MemStorage :=
  mkMem (mkHard (mkBallot 2 1) None) ex_records 2 [] journal_default.

Lemma ex_mirrors : mirrors ex_store ex_acceptor.
Proof. constructor; try done. constructor. Defined.

Lemma persisted_call_survives_reboot_witness :
  exists st', mem_apply ex_store [WAcceptor (SetPromise (mkBallot 3 0))] = Done st' /\
    mirrors st' (with_promise ex_acceptor (mkBallot 3 0)) /\
    boot_acceptor st' = Done (rebooted (with_promise ex_acceptor (mkBallot 3 0))) /\
    acceptor_wf (rebooted (with_promise ex_acceptor (mkBallot 3 0))).
Proof.
  apply (persisted_call_survives_reboot ex_store ex_acceptor).
  - apply ex_acceptor_wf.
  - apply ex_mirrors.
  - apply (step_prepare _ (mkBallot 3 0) 2 _ _ (PPromised true)). by vm_compute.
  - by repeat constructor.
Defined.

Definition ex_rotted : Acceptor Command := booted (mkBallot 2 1) ∅ 2 {[ 5 := mkBallot 1 1 ]}.

Lemma ex_rotted_wf : acceptor_wf ex_rotted.
Proof.
  apply booted_wf. constructor.
  - intros s [x Hx]. by rewrite lookup_empty in Hx.
  - intros s [x Hx]. apply lookup_singleton_Some in Hx as [<- _]. lia.
  - intros s b _. apply lookup_empty.
  - intros s b v Hb. by rewrite lookup_empty in Hb.
  - intros s b Hb. apply lookup_singleton_Some in Hb as [_ <-]. blia.
Defined.

Lemma mem_repair_breaks_boot_witness :
  boot_acceptor (mkMem (mkHard (mkBallot 2 1) None) {[ 5 := (mkBallot 2 1, Ctrl Noop) ]} 2
    [(5, mkBallot 1 1)] journal_default)
  = Panic "a faulty entry is never also a readable accepted record".
Proof.
  apply (mem_repair_breaks_boot
    (mkMem (mkHard (mkBallot 2 1) None) ∅ 2 [(5, mkBallot 1 1)] journal_default) ex_rotted 5
    (mkBallot 2 1) (Ctrl Noop) _ (mkBallot 1 1)).
  - apply ex_rotted_wf.
  - constructor; try done. by apply NoDup_singleton.
  - split_and!; [by vm_compute|reflexivity|done].
  - done.
  - done.
Defined.
