(* ===== verification/QuorumSystem.v ===== *)
(** * Quorum systems ([paros-core/src/membership/quorum_system.rs])

    Majorities, flexible splits and acceptor grids: the quorum predicates of
    the two phases, the addressees of their messages, and the well-formedness
    an [AcceptorConfig] asserts.  The section's last part proves the fact Paxos
    safety rests on: over a membership that admits its system, every Phase-1
    quorum meets every Phase-2 quorum, whatever row or column it is judged by. *)

From S2P Require Import Prelude BTree Types.

Inductive QuorumSystem :=
| Majority
| Flexible (q1 q2 : N)
| Grid (rows cols acks : N).

#[export] Instance QuorumSystem_eq_dec : EqDecision QuorumSystem.
Proof. solve_decision. Defined.

Definition majority_of (members : N) : run N :=
  majority ← usize_add (members / 2) 1;
  rassert (members < usize_saturating_mul majority 2) "a majority self-intersects";;
  (if decide (0 < members) then
     rassert (majority <= members) "a majority fits inside its membership" else mret tt);;
  mret majority.

(** [Iterator::step_by]: the element at the cursor, then every [gap + 1]-th. *)
Fixpoint step_by_from {A} (gap skip : nat) (l : list A) : list A :=
  match l, skip with
  | [], _ => []
  | x :: l', O => x :: step_by_from gap gap l'
  | _ :: l', S skip' => step_by_from gap skip' l'
  end.
Definition step_by {A} (n : N) (l : list A) : list A := step_by_from (N.to_nat n - 1) 0 l.

Definition sorted_members {I} `{Ord I} (members : list I) : Prop := Sorted ord_lt members.

#[export] Instance sorted_members_dec {I} `{Ord I} (members : list I) : Decision (sorted_members members).
Proof.
  unfold sorted_members. induction members as [|x l IH]; [left; constructor|].
  destruct IH as [IH|IH]; [|right; by inversion 1].
  destruct l as [|y l]; [left; repeat constructor|].
  destruct (decide (ord_lt x y)) as [Hlt|Hlt].
  - left. constructor; [done|]. by constructor.
  - right. intros Hs. apply Hlt. by inversion Hs as [|? ? ? Hhd]; inversion Hhd.
Defined.

Definition residue (value modulus : N) : run N :=
  let modulus := N.max modulus 1 in
  let residue := value mod modulus in
  rassert (residue < modulus) "a residue lies below its modulus";;
  mret residue.

Definition rank_is_in (rank count : N) : run bool :=
  let inside := bool_decide (rank < count) in
  (if decide (count = 0) then
     rassert (inside = false) "no rank lies inside an empty deployment" else mret tt);;
  mret inside.

Definition slot_rank (slot : Slot) (count : N) : run (option N) :=
  let rank := if decide (count <> 0) then Some (slot mod count) else None in
  match rank with
  | Some rank =>
      inside ← rank_is_in rank count;
      rassert (inside = true) "a slot's rank lies inside the count"
  | None => mret tt
  end;;
  mret rank.

(** [QuorumSystem::grid] and [QuorumSystem::partitions]. *)
Definition grid (rows cols : N) : QuorumSystem := Grid rows cols rows.
Definition partitions (f n : N) : run QuorumSystem :=
  twice ← usize_mul 2 f;
  rows ← usize_add twice 1;
  acks ← usize_add f 1;
  mret (Grid rows n acks).

Definition phase1_per_column (qs : QuorumSystem) : run (option N) :=
  match qs with
  | Majority | Flexible _ _ => mret None
  | Grid rows _ acks =>
      let per_column := usize_saturating_add (rows - acks) 1 in
      (if decide (1 <= acks <= rows) then
         sum ← usize_add per_column acks;
         rassert (rows < sum) "inside a column a Phase-1 count meets a Phase-2 count"
       else mret tt);;
      mret (Some per_column)
  end.

Definition phase1_quorum_size (qs : QuorumSystem) (members : N) : run N :=
  size ← match qs with
         | Majority => majority_of members
         | Flexible q1 _ => mret q1
         | Grid _ cols _ =>
             per_column ← phase1_per_column qs;
             mret (usize_saturating_mul cols (default 0 per_column))
         end;
  match qs with
  | Grid rows cols acks =>
      if decide (1 <= acks <= rows /\ usize_checked_mul rows cols = Some members) then
        rassert (size <= members) "a Phase-1 quorum fits inside a tiled membership"
      else mret tt
  | _ => mret tt
  end;;
  mret size.

Definition phase2_quorum_size (qs : QuorumSystem) (members : N) : run N :=
  size ← match qs with
         | Majority => majority_of members
         | Flexible _ q2 => mret q2
         | Grid _ _ acks => mret acks
         end;
  match qs with
  | Grid rows cols _ =>
      if decide (usize_checked_mul rows cols = Some members /\ size <= rows) then
        rassert (size <= members) "a column's quorum fits inside a tiled membership"
      else mret tt
  | _ => mret tt
  end;;
  mret size.

Definition cross_intersects (qs : QuorumSystem) (members : N) : run bool :=
  intersects ← match qs with
               | Majority | Flexible _ _ =>
                   q1 ← phase1_quorum_size qs members;
                   q2 ← phase2_quorum_size qs members;
                   mret (bool_decide (members < usize_saturating_add q1 q2))
               | Grid rows _ acks => mret (bool_decide (1 <= acks <= rows))
               end;
  (if decide (qs = Majority) then
     rassert (intersects = true) "a majority or a grid cross-intersects by construction"
   else mret tt);;
  match qs with
  | Grid rows _ _ =>
      if intersects : bool then
        per_column ← phase1_per_column qs;
        rassert (is_some_and (fun per_column => per_column <= rows) per_column)
          "a grid's Phase-1 count fits in a column"
      else mret tt
  | _ => mret tt
  end;;
  mret intersects.

Definition admits (qs : QuorumSystem) (members : N) : run bool :=
  admits ← match qs with
           | Majority | Flexible _ _ =>
               q1 ← phase1_quorum_size qs members;
               q2 ← phase2_quorum_size qs members;
               if decide (1 <= members /\ 1 <= q1 <= members /\ 1 <= q2 <= members)
               then cross_intersects qs members else mret false
           | Grid rows cols acks =>
               mret (bool_decide (1 <= rows /\ 1 <= cols /\ 1 <= acks <= rows /\
                                  usize_checked_mul rows cols = Some members))
           end;
  (if admits : bool then
     cross ← cross_intersects qs members;
     rassert (cross = true) "an admitted system cross-intersects";;
     rassert (1 <= members) "an admitted system has a member"
   else mret tt);;
  mret admits.

Definition column_of (qs : QuorumSystem) (slot : Slot) : run (option N) :=
  column ← match qs with
           | Majority | Flexible _ _ => mret None
           | Grid _ cols _ => c ← residue slot cols; mret (Some c)
           end;
  match qs, column with
  | Grid _ cols _, Some column =>
      rassert (column < N.max cols 1) "a slot's column lies inside the grid"
  | _, _ => rassert (column = None) "only a grid names a column"
  end;;
  mret column.

Definition row_of (qs : QuorumSystem) (ctx : N) : run (option N) :=
  row ← match qs with
        | Majority | Flexible _ _ => mret None
        | Grid rows _ acks =>
            if decide (acks = rows) then r ← residue ctx rows; mret (Some r) else mret None
        end;
  match qs, row with
  | Grid rows _ acks, Some row =>
      rassert (row < N.max rows 1) "a read's row lies inside the grid";;
      rassert (acks = rows) "only a full-column grid reads one row"
  | _, _ => rassert (row = None) "only a grid names a row"
  end;;
  mret row.

Definition admits_read_row (qs : QuorumSystem) (row : option N) : bool :=
  match qs, row with
  | _, None => true
  | Grid rows _ acks, Some row => bool_decide (acks = rows /\ row < rows)
  | _, Some _ => false
  end.

Definition read_row (qs : QuorumSystem) (ctx : N) (chosen : option N) : run (option N) :=
  row ← match chosen with
        | Some row => if admits_read_row qs (Some row) then mret (Some row) else row_of qs ctx
        | None => row_of qs ctx
        end;
  match qs with
  | Grid rows _ _ =>
      if decide (1 <= rows) then
        rassert (admits_read_row qs row = true) "a read runs on an admitted row" else mret tt
  | _ => mret tt
  end;;
  mret row.

(** ** The quorum predicates, over any identity *)

Section quorum.
Context {I : Type} `{Ord I, !Countable I}.
Implicit Types (members : list I) (voters : gset I).

(** [members.binary_search(node)] over the sorted membership: the position of
    the one entry equal to [node]. *)
Definition position members (node : I) : option N :=
  N.of_nat ∘ fst <$> list_find (eq node) members.

Definition counted members voters : run N :=
  rassert (sorted_members members) "a counted membership is sorted and deduplicated";;
  let count := len (filter (fun v => is_Some (position members v)) (bs_elements voters)) in
  rassert (count <= len members) "only members count toward a quorum";;
  mret count.

Definition grid_row members (cols row : N) : run (list I) :=
  let start := N.min (usize_saturating_mul row cols) (len members) in
  let stop := N.min (usize_saturating_add start cols) (len members) in
  rassert (start <= stop) "a grid row is a forward range";;
  rassert (stop - start <= cols) "a grid row is at most one row wide";;
  mret (take (N.to_nat (stop - start)) (drop (N.to_nat start) members)).

Definition grid_column members (cols column : N) : run (list I) :=
  rassert (1 <= cols) "a grid has at least one column";;
  mret (step_by cols (drop (N.to_nat column) members)).

Definition column_votes members (cols column : N) voters : run N :=
  cells ← grid_column members cols column;
  let height := len cells in
  cells ← grid_column members cols column;
  let voted := len (filter (fun m => m ∈ voters) cells) in
  rassert (voted <= height) "a column counts at most its own members";;
  mret voted.

Definition all_voted (cell : list I) voters : bool := forallb (fun m => bool_decide (m ∈ voters)) cell.

Definition is_majority members voters : run bool :=
  count ← counted members voters;
  size ← majority_of (len members);
  let majority := bool_decide (size <= count) in
  (if decide (majority = true /\ members <> []) then
     rassert (voters <> ∅) "a majority holds a vote" else mret tt);;
  mret majority.

Definition is_phase1_quorum_in (qs : QuorumSystem) members voters (row : option N) : run bool :=
  quorum ← match qs with
           | Majority =>
               rassert (row = None) "only a grid names a row for a Phase-1 quorum";;
               is_majority members voters
           | Flexible q1 _ =>
               rassert (row = None) "only a grid names a row for a Phase-1 quorum";;
               count ← counted members voters;
               mret (bool_decide (q1 <= count))
           | Grid rows cols acks =>
               match row with
               | Some row =>
                   if decide (acks = rows /\ row < rows) then
                     cells ← grid_row members cols row; mret (all_voted cells voters)
                   else mret false
               | None =>
                   per ← phase1_per_column qs;
                   let per_column := default usize_max per in
                   if decide (1 <= cols) then
                     allM (fun c => votes ← column_votes members cols c voters;
                                    mret (bool_decide (per_column <= votes))) (range 0 cols)
                   else mret false
               end
           end;
  (if decide (quorum = true /\ members <> []) then
     count ← counted members voters;
     rassert (1 <= count) "a Phase-1 quorum holds a member's vote" else mret tt);;
  mret quorum.

Definition is_phase1_quorum (qs : QuorumSystem) members voters : run bool :=
  quorum ← is_phase1_quorum_in qs members voters None;
  (if decide (qs = Majority) then
     majority ← is_majority members voters;
     rassert (quorum = majority) "a majority's Phase-1 quorum is a majority" else mret tt);;
  mret quorum.

Definition is_phase1_addressee (qs : QuorumSystem) members (node : I) (row : option N) : run bool :=
  match position members node with
  | None => mret false
  | Some position =>
      match qs with
      | Majority | Flexible _ _ =>
          rassert (row = None) "only a grid names a row for a Phase-1 addressee";;
          mret true
      | Grid _ cols _ =>
          mret (bool_decide (is_none_or (fun row => 1 <= cols /\ position / cols = row) row))
      end
  end.

Definition phase1_addressees (qs : QuorumSystem) members (row : option N) : run (list I) :=
  addressees ← match qs with
               | Majority | Flexible _ _ =>
                   rassert (row = None) "only a grid names a row for a Phase-1 fan-out";;
                   mret members
               | Grid _ cols _ =>
                   match row with
                   | Some row => grid_row members cols row
                   | None => mret members
                   end
               end;
  rassert (len addressees <= len members) "a fan-out addresses only members";;
  (if decide (row = None) then
     rassert (len addressees = len members) "an unnamed row addresses everyone" else mret tt);;
  mret addressees.

Definition is_phase2_quorum_in (qs : QuorumSystem) members voters (column : option N) : run bool :=
  quorum ← match qs with
           | Majority =>
               rassert (column = None) "only a grid names a column for a Phase-2 quorum";;
               is_majority members voters
           | Flexible _ q2 =>
               rassert (column = None) "only a grid names a column for a Phase-2 quorum";;
               count ← counted members voters;
               mret (bool_decide (q2 <= count))
           | Grid _ cols acks =>
               match column with
               | Some column =>
                   if decide (column < cols) then
                     votes ← column_votes members cols column voters;
                     mret (bool_decide (acks <= votes))
                   else mret false
               | None =>
                   anyM (fun c => votes ← column_votes members cols c voters;
                                  mret (bool_decide (acks <= votes))) (range 0 cols)
               end
           end;
  (if decide (quorum = true /\ members <> []) then
     count ← counted members voters;
     rassert (1 <= count) "a Phase-2 quorum holds a member's vote" else mret tt);;
  mret quorum.

Definition is_phase2_quorum (qs : QuorumSystem) members voters : run bool :=
  quorum ← is_phase2_quorum_in qs members voters None;
  (if decide (qs = Majority) then
     majority ← is_majority members voters;
     rassert (quorum = majority) "a majority's Phase-2 quorum is a majority" else mret tt);;
  mret quorum.

Definition is_phase2_addressee (qs : QuorumSystem) members (node : I) (column : option N) : run bool :=
  match position members node with
  | None => mret false
  | Some position =>
      match qs with
      | Majority | Flexible _ _ =>
          rassert (column = None) "only a grid names a column for a Phase-2 addressee";;
          mret true
      | Grid _ cols _ =>
          mret (bool_decide (is_none_or (fun column => 1 <= cols /\ position mod cols = column) column))
      end
  end.

Definition phase2_addressees (qs : QuorumSystem) members (column : option N) : run (list I) :=
  addressees ← match qs with
               | Majority | Flexible _ _ =>
                   rassert (column = None) "only a grid names a column for a Phase-2 fan-out";;
                   mret members
               | Grid _ cols _ =>
                   match column with
                   | Some column => grid_column members cols column
                   | None => mret members
                   end
               end;
  rassert (len addressees <= len members) "a fan-out addresses only members";;
  (if decide (column = None) then
     rassert (len addressees = len members) "an unnamed column addresses everyone" else mret tt);;
  mret addressees.

(** ** Reference predicates *)

(** The votes of a list of members. *)
Definition votes_in (cell : list I) voters : N := len (filter (fun m => m ∈ voters) cell).

Definition column members (cols c : N) : list I := step_by cols (drop (N.to_nat c) members).
Definition row members (cols r : N) : list I :=
  take (N.to_nat cols) (drop (N.to_nat (r * cols)) members).

(** A membership of [n] admits its system. *)
Definition admitted (qs : QuorumSystem) (n : N) : Prop :=
  match qs with
  | Majority => 1 <= n
  | Flexible q1 q2 => 1 <= n /\ 1 <= q1 <= n /\ 1 <= q2 <= n /\ n < q1 + q2
  | Grid rows cols acks => 1 <= rows /\ 1 <= cols /\ 1 <= acks <= rows /\ rows * cols = n
  end.

#[export] Instance admitted_dec qs n : Decision (admitted qs n).
Proof. destruct qs; simpl; apply _. Defined.

(** A cell is named only under a grid. *)
Definition names_cell (qs : QuorumSystem) (cell : option N) : Prop :=
  match qs with Grid _ _ _ => True | _ => cell = None end.

Definition phase1_holds (qs : QuorumSystem) members voters (r : option N) : Prop :=
  match qs with
  | Majority => len members / 2 + 1 <= votes_in members voters
  | Flexible q1 _ => q1 <= votes_in members voters
  | Grid rows cols acks =>
      match r with
      | Some r => (acks = rows /\ r < rows) /\ Forall (fun m => m ∈ voters) (row members cols r)
      | None => Forall (fun c => rows - acks + 1 <= votes_in (column members cols c) voters) (range 0 cols)
      end
  end.

Definition phase2_holds (qs : QuorumSystem) members voters (c : option N) : Prop :=
  match qs with
  | Majority => len members / 2 + 1 <= votes_in members voters
  | Flexible _ q2 => q2 <= votes_in members voters
  | Grid _ cols acks =>
      match c with
      | Some c => c < cols /\ acks <= votes_in (column members cols c) voters
      | None => Exists (fun c => acks <= votes_in (column members cols c) voters) (range 0 cols)
      end
  end.

#[export] Instance phase1_holds_dec qs members voters r : Decision (phase1_holds qs members voters r).
Proof. destruct qs, r; simpl; apply _. Defined.
#[export] Instance phase2_holds_dec qs members voters c : Decision (phase2_holds qs members voters c).
Proof. destruct qs, c; simpl; apply _. Defined.

(** ** Counting *)

(** Two vote counts that add up to more than the cell share a voter. *)
Lemma pigeonhole (cell : list I) v1 v2 :
  len cell < votes_in cell v1 + votes_in cell v2 -> exists m, m ∈ cell /\ m ∈ v1 /\ m ∈ v2.
Proof.
  unfold votes_in, len. induction cell as [|x cell IH]; [simpl; lia|].
  rewrite !filter_cons. intros Hlt.
  destruct (decide (x ∈ v1)) as [H1|H1], (decide (x ∈ v2)) as [H2|H2]; simpl in Hlt.
  1: { exists x. split; [left|done]. }
  all: destruct IH as (m & ? & ?); [lia|]; exists m; split; [by right|done].
Qed.

Lemma votes_in_le (cell : list I) voters : votes_in cell voters <= len cell.
Proof. unfold votes_in, len. pose proof (length_filter (fun m => m ∈ voters) cell). lia. Qed.

Lemma votes_in_pos (cell : list I) voters :
  1 <= votes_in cell voters <-> exists m, m ∈ cell /\ m ∈ voters.
Proof.
  unfold votes_in, len. split.
  - intros Hle. destruct (filter _ cell) as [|m l] eqn:E; [simpl in Hle; lia|].
    exists m. assert (m ∈ filter (fun m => m ∈ voters) cell) as Hm by (rewrite E; left).
    apply list_elem_of_filter in Hm. tauto.
  - intros (m & Hm & Hv). assert (m ∈ filter (fun m => m ∈ voters) cell) as Hin
      by by apply list_elem_of_filter.
    destruct (filter _ cell); [by apply not_elem_of_nil in Hin|simpl; lia].
Qed.

Lemma votes_in_full (cell : list I) voters :
  Forall (fun m => m ∈ voters) cell -> votes_in cell voters = len cell.
Proof.
  unfold votes_in. induction 1 as [|m cell Hm _ IH]; [done|].
  rewrite filter_cons, decide_True by done. unfold len in *. simpl. lia.
Qed.

Lemma votes_in_all (cell : list I) voters : len cell <= votes_in cell voters -> Forall (fun m => m ∈ voters) cell.
Proof.
  unfold votes_in, len. induction cell as [|x cell IH]; [constructor|].
  rewrite filter_cons. pose proof (length_filter (fun m => m ∈ voters) cell).
  destruct (decide (x ∈ voters)); simpl; intros Hle; [constructor; [done|apply IH; lia]|lia].
Qed.

Lemma members_strongly_sorted members : sorted_members members -> StronglySorted ord_lt members.
Proof. apply Sorted_StronglySorted. intros x y z. apply ord_lt_trans. Qed.

Lemma members_NoDup members : sorted_members members -> NoDup members.
Proof.
  intros Hs%members_strongly_sorted. induction Hs as [|x l Hs IH Hf]; constructor; [|done].
  intros Hx. rewrite Forall_forall in Hf. by apply Hf, ord_lt_irrefl in Hx.
Qed.

Lemma position_Some members node : is_Some (position members node) <-> node ∈ members.
Proof.
  unfold position. rewrite fmap_is_Some. split.
  - intros [[i x] (Hi & <- & _)%list_find_Some]. by eapply list_elem_of_lookup_2.
  - intros Hin. destruct (list_find_elem_of (eq node) members node) as [p Hp]; [done|done|]. by exists p.
Qed.

Lemma position_lookup members node i :
  sorted_members members -> position members node = Some i <-> members !! N.to_nat i = Some node.
Proof.
  intros Hs%members_NoDup. unfold position. rewrite fmap_Some. split.
  - intros ([j x] & (Hj & <- & _)%list_find_Some & ->). simpl. by rewrite Nat2N.id.
  - intros Hi. exists (N.to_nat i, node). simpl. rewrite N2Nat.id. split; [|done].
    apply list_find_Some. split_and!; [done|done|]. intros j y Hj Hlt <-.
    assert (j = N.to_nat i) by by eapply NoDup_lookup. lia.
Qed.

Lemma counted_ok members voters :
  sorted_members members -> counted members voters = Done (votes_in members voters).
Proof.
  intros Hs. unfold counted. rassert_by done.
  assert (len (filter (fun v => is_Some (position members v)) (bs_elements voters))
          = votes_in members voters) as ->.
  { unfold votes_in, len. f_equal. apply Permutation_length, NoDup_Permutation.
    - apply NoDup_filter, NoDup_bs_elements.
    - by apply NoDup_filter, members_NoDup.
    - intros m. rewrite !list_elem_of_filter, position_Some, elem_of_bs_elements. tauto. }
  rassert_by apply votes_in_le. done.
Qed.

(** ** The grid's geometry *)

Lemma length_step_by_from (gap skip : nat) (l : list I) :
  (skip <= gap)%nat -> (length (step_by_from gap skip l) * S gap + skip <= length l + gap)%nat.
Proof.
  revert skip. induction l as [|x l IH]; intros skip Hs; simpl; [lia|].
  destruct skip as [|skip]; simpl; [specialize (IH gap)|specialize (IH skip)]; lia.
Qed.

Lemma elem_of_step_by_from (gap skip : nat) (l : list I) x i :
  (skip <= gap)%nat -> l !! (skip + i * S gap)%nat = Some x -> x ∈ step_by_from gap skip l.
Proof.
  revert skip i. induction l as [|y l IH]; intros skip i Hs; simpl; [done|].
  destruct skip as [|skip]; simpl.
  - destruct i as [|i]; simpl; [intros [= ->]; left|]. intros Hx. right.
    apply (IH gap i); [lia|]. by rewrite <-Hx; f_equal; lia.
  - intros Hx. apply (IH skip i); [lia|done].
Qed.

Lemma step_by_subset (gap skip : nat) (l : list I) x : x ∈ step_by_from gap skip l -> x ∈ l.
Proof.
  revert skip. induction l as [|y l IH]; intros skip; simpl; [done|].
  destruct skip as [|skip]; [|intros Hx; right; by eapply IH].
  intros [->|Hx]%elem_of_cons; [left|right; by eapply IH].
Qed.

Lemma column_subset members cols c m : m ∈ column members cols c -> m ∈ members.
Proof.
  intros Hm%step_by_subset. rewrite <-(take_drop (N.to_nat c) members). apply elem_of_app. by right.
Qed.

(** A column of a tiled membership is at most [rows] tall. *)
Lemma column_height members rows cols c :
  1 <= cols -> rows * cols = len members -> len (column members cols c) <= rows.
Proof.
  intros Hc Hn. unfold column, step_by, len in *.
  pose proof (length_step_by_from (N.to_nat cols - 1) 0 (drop (N.to_nat c) members) ltac:(lia)) as Hle.
  rewrite length_drop in Hle. replace (S (N.to_nat cols - 1)) with (N.to_nat cols) in Hle by lia.
  set (h := length (step_by_from _ _ _)) in *. nia.
Qed.

(** Row [r] and column [c] share the member at [r * cols + c]. *)
Lemma row_meets_column members rows cols r c :
  1 <= cols -> rows * cols = len members -> r < rows -> c < cols ->
  exists m, m ∈ row members cols r /\ m ∈ column members cols c.
Proof.
  intros Hcols Hn Hr Hc.
  assert (r * cols + c < len members) as Hlt by nia. unfold len in Hlt.
  destruct (lookup_lt_is_Some_2 members (N.to_nat (r * cols + c))) as [m Hm]; [lia|].
  exists m. split.
  - unfold row. apply (list_elem_of_lookup_2 _ (N.to_nat c)).
    rewrite lookup_take_lt by lia. rewrite lookup_drop. rewrite <-Hm. f_equal. lia.
  - unfold column, step_by. apply (elem_of_step_by_from _ _ _ _ (N.to_nat r)); [lia|].
    rewrite lookup_drop, <-Hm. f_equal. 
    replace (S (N.to_nat cols - 1)) with (N.to_nat cols) by lia. lia.
Qed.

Lemma row_subset members cols r m : m ∈ row members cols r -> m ∈ members.
Proof.
  unfold row. intros Hm. rewrite <-(take_drop (N.to_nat (r * cols)) members). apply elem_of_app. right.
  rewrite <-(take_drop (N.to_nat cols) (drop _ members)). apply elem_of_app. by left.
Qed.

(** ** Every Phase-1 quorum meets every Phase-2 quorum *)

Lemma holds_intersect qs members v1 v2 r c :
  admitted qs (len members) -> phase1_holds qs members v1 r -> phase2_holds qs members v2 c ->
  exists m, m ∈ members /\ m ∈ v1 /\ m ∈ v2.
Proof.
  intros Hadm H1 H2. destruct qs as [|q1 q2|rows cols acks]; simpl in *.
  - apply pigeonhole. pose proof (half_spec (len members)). lia.
  - apply pigeonhole. lia.
  - destruct Hadm as (Hrows & Hcols & Hacks & Hn).
    assert (exists c, c < cols /\ acks <= votes_in (column members cols c) v2) as (c' & Hc & Hv2).
    { destruct c as [c|]; [by exists c|]. apply Exists_exists in H2 as (c & Hc%elem_of_range & ?).
      exists c. split; [lia|done]. }
    pose proof (column_height members rows cols c' Hcols Hn) as Hh.
    enough (exists m, m ∈ column members cols c' /\ m ∈ v1 /\ m ∈ v2) as (m & Hm & ?)
      by (exists m; split; [by eapply column_subset|done]).
    destruct r as [r|].
    + destruct H1 as [[-> Hr] Hall]. rewrite Forall_forall in Hall.
      assert (Forall (fun m => m ∈ v2) (column members cols c')) as Hall2
        by (apply votes_in_all; pose proof (votes_in_le (column members cols c') v2); lia).
      rewrite Forall_forall in Hall2.
      destruct (row_meets_column members rows cols r c') as (m & Hmr & Hmc); [done..|].
      exists m. split_and!; [done|by apply Hall|by apply Hall2].
    + rewrite Forall_forall in H1. specialize (H1 c' ltac:(apply elem_of_range; lia)).
      apply pigeonhole. simpl in H1. lia.
Qed.

(** ** The code computes the reference predicates *)

Lemma majority_of_ok n : n < usize_max -> majority_of n = Done (n / 2 + 1).
Proof.
  intros Hn. unfold majority_of.
  pose proof (half_spec n).
  rewrite usize_add_ok by lia. rsimpl.
  rassert_by (unfold usize_saturating_mul; lia).
  case_decide; [|done]. by rassert_by lia.
Qed.

Lemma phase1_per_column_ok rows cols acks :
  1 <= acks <= rows -> rows < usize_max ->
  phase1_per_column (Grid rows cols acks) = Done (Some (rows - acks + 1)).
Proof.
  intros Ha Hr. unfold phase1_per_column. rewrite decide_True by done.
  unfold usize_saturating_add. replace (N.min (rows - acks + 1) usize_max) with (rows - acks + 1) by lia.
  rewrite usize_add_ok by lia. rsimpl. by rassert_by lia.
Qed.

Lemma cross_intersects_ok qs n :
  admitted qs n -> n < usize_max -> cross_intersects qs n = Done true.
Proof.
  intros Hadm Hn. unfold cross_intersects. destruct qs as [|q1 q2|rows cols acks]; simpl in Hadm.
  - unfold phase1_quorum_size, phase2_quorum_size. rewrite !majority_of_ok by done. simpl.
    rewrite bool_decide_eq_true_2; [done|]. unfold usize_saturating_add.
    pose proof (half_spec n). lia.
  - simpl. rewrite bool_decide_eq_true_2; [done|]. unfold usize_saturating_add. lia.
  - destruct Hadm as (? & ? & ? & ?). rewrite (bool_decide_eq_true_2 (1 <= acks <= rows)) by lia.
    rsimpl. rewrite decide_False by done. rsimpl.
    rewrite phase1_per_column_ok by (done || nia). rsimpl. by rassert_by (simpl; lia).
Qed.

Lemma checked_mul_Some a b n : usize_checked_mul a b = Some n <-> a * b = n /\ n <= usize_max.
Proof. unfold usize_checked_mul. case_decide; split; [intros [= <-]; lia|intros [-> _]; done|done|lia]. Qed.

Lemma admits_ok qs n : n < usize_max -> admits qs n = Done (bool_decide (admitted qs n)).
Proof.
  intros Hn. unfold admits.
  assert (forall b : bool, (b = true -> admitted qs n) ->
    (if b then cross ← cross_intersects qs n;
       rassert (cross = true) "an admitted system cross-intersects";;
       rassert (1 <= n) "an admitted system has a member" else mret tt) = Done tt) as Hpost.
  { intros [] Hb; [|done]. specialize (Hb eq_refl). rewrite cross_intersects_ok by done. rsimpl.
    rassert_by done. apply rassert_true. destruct qs; simpl in Hb; nia. }
  eapply bind_seq with (a := bool_decide (admitted qs n)); cbv beta.
  2: { rewrite Hpost; [done|]. by rewrite bool_decide_eq_true. }
  clear Hpost. destruct qs as [|q1 q2|rows cols acks].
  - unfold phase1_quorum_size, phase2_quorum_size. rewrite majority_of_ok by done. simpl.
    pose proof (half_spec n). destruct (decide (1 <= n)) as [H1|H1].
    + rewrite (decide_True (P := 1 <= n /\ _)) by lia.
      rewrite cross_intersects_ok by done. f_equal. symmetry. by apply bool_decide_eq_true_2.
    + rewrite (decide_False (P := 1 <= n /\ _)) by lia.
      unfold mret, run_ret. f_equal. symmetry. by apply bool_decide_eq_false_2.
  - cbn [phase1_quorum_size phase2_quorum_size mbind run_bind mret run_ret].
    case_decide as Hd.
    + unfold cross_intersects. cbn [phase1_quorum_size phase2_quorum_size mbind run_bind mret run_ret].
      rewrite decide_False by done. cbn [mbind run_bind mret run_ret]. f_equal. apply bool_decide_ext.
      unfold usize_saturating_add. simpl. lia.
    + f_equal. symmetry. apply bool_decide_eq_false_2. simpl. lia.
  - unfold mret, run_ret. f_equal. apply bool_decide_ext. rewrite checked_mul_Some. simpl. intuition lia.
Qed.

Lemma phase2_holds_member qs members voters c :
  admitted qs (len members) -> phase2_holds qs members voters c -> 1 <= votes_in members voters.
Proof.
  intros Hadm H2. destruct qs as [|q1 q2|rows cols acks]; simpl in *;
    [pose proof (N.le_0_l (len members / 2)); lia|lia|].
  destruct Hadm as (Hrows & Hcols & Hacks & Hn).
  assert (exists c, acks <= votes_in (column members cols c) voters) as (c' & Hv).
  { destruct c as [c|]; [exists c; tauto|]. apply Exists_exists in H2 as (c & _ & ?). by exists c. }
  destruct (proj1 (votes_in_pos (column members cols c') voters)) as (m & Hm & ?); [lia|].
  apply votes_in_pos. exists m. split; [by eapply column_subset|done].
Qed.

Lemma phase1_holds_member qs members voters r :
  admitted qs (len members) -> phase1_holds qs members voters r -> 1 <= votes_in members voters.
Proof.
  intros Hadm H1. destruct qs as [|q1 q2|rows cols acks]; simpl in *;
    [pose proof (N.le_0_l (len members / 2)); lia|lia|].
  destruct Hadm as (Hrows & Hcols & Hacks & Hn). apply votes_in_pos. destruct r as [r|].
  - destruct H1 as [[-> Hr] Hall]. rewrite Forall_forall in Hall.
    destruct (row_meets_column members rows cols r 0) as (m & Hmr & _); [done..|lia|].
    exists m. split; [by eapply row_subset|by apply Hall].
  - rewrite Forall_forall in H1. specialize (H1 0 ltac:(apply elem_of_range; lia)). simpl in H1.
    destruct (proj1 (votes_in_pos (column members cols 0) voters)) as (m & Hm & ?); [lia|].
    exists m. split; [by eapply column_subset|done].
Qed.

Lemma column_votes_ok members cols c voters :
  1 <= cols -> column_votes members cols c voters = Done (votes_in (column members cols c) voters).
Proof.
  intros Hc. unfold column_votes, grid_column. rewrite (rassert_true (1 <= cols)) by done. rsimpl.
  by rassert_by apply votes_in_le.
Qed.

Lemma grid_row_ok members rows cols r :
  rows * cols = len members -> len members < usize_max -> r < rows ->
  grid_row members cols r = Done (row members cols r).
Proof.
  intros Hn Hmax Hr. unfold grid_row.
  assert ((r + 1) * cols <= rows * cols) as Hle by (apply N.mul_le_mono_r; lia).
  assert (N.min (usize_saturating_mul r cols) (len members) = r * cols) as ->
    by (unfold usize_saturating_mul; lia).
  assert (N.min (usize_saturating_add (r * cols) cols) (len members) = r * cols + cols) as ->
    by (unfold usize_saturating_add; lia).
  rassert_by lia. rassert_by lia. unfold row.
  by replace (r * cols + cols - r * cols) with cols by lia.
Qed.

Lemma all_voted_ok (cell : list I) voters :
  all_voted cell voters = bool_decide (Forall (fun m => m ∈ voters) cell).
Proof.
  unfold all_voted. induction cell as [|x cell IH]; cbn [forallb]; [by rewrite bool_decide_eq_true_2|].
  rewrite IH. rewrite <-bool_decide_and. apply bool_decide_ext. by rewrite Forall_cons.
Qed.

Lemma is_majority_ok members voters :
  sorted_members members -> len members < usize_max ->
  is_majority members voters = Done (bool_decide (len members / 2 + 1 <= votes_in members voters)).
Proof.
  intros Hs Hn. unfold is_majority. rewrite counted_ok, majority_of_ok by done. rsimpl.
  case_decide as Hd; [|done]. destruct Hd as [Hd _]. apply bool_decide_eq_true in Hd.
  rassert_by idtac; [|done]. intros ->. pose proof (N.le_0_l (len members / 2)).
  destruct (proj1 (votes_in_pos members ∅)) as (m & _ & Hm); [lia|]. by apply not_elem_of_empty in Hm.
Qed.

(** The closing assertion of both predicates. *)
Lemma quorum_counted members voters msg (b : bool) :
  sorted_members members -> (b = true -> 1 <= votes_in members voters) ->
  ((if decide (b = true /\ members <> []) then
      count ← counted members voters; rassert (1 <= count) msg else mret tt);; mret b) = Done b.
Proof.
  intros Hs Hb. case_decide as Hd; [|done]. rewrite counted_ok by done. rsimpl.
  rassert_by by apply Hb, Hd. done.
Qed.

Lemma is_phase1_quorum_in_ok qs members voters r :
  sorted_members members -> len members < usize_max -> admitted qs (len members) -> names_cell qs r ->
  is_phase1_quorum_in qs members voters r = Done (bool_decide (phase1_holds qs members voters r)).
Proof.
  intros Hs Hn Hadm Hr. unfold is_phase1_quorum_in.
  eapply bind_seq with (a := bool_decide (phase1_holds qs members voters r)); cbv beta.
  2: { apply quorum_counted; [done|]. rewrite bool_decide_eq_true. by apply phase1_holds_member. }
  destruct qs as [|q1 q2|rows cols acks]; simpl in Hr.
  - rassert_by done. rewrite is_majority_ok by done. f_equal. by apply bool_decide_ext.
  - rassert_by done. rewrite counted_ok by done. rsimpl. unfold mret, run_ret. f_equal.
    by apply bool_decide_ext.
  - destruct Hadm as (Hrows & Hcols & Hacks & Hm). assert (rows < usize_max) as Hru by nia.
    destruct r as [r|]; simpl phase1_holds.
    + case_decide as Hd.
      * rewrite (grid_row_ok members rows) by (done || lia). rsimpl. rewrite all_voted_ok.
        unfold mret, run_ret. f_equal. apply bool_decide_ext. tauto.
      * unfold mret, run_ret. f_equal. symmetry. apply bool_decide_eq_false_2. tauto.
    + rewrite phase1_per_column_ok by done. rsimpl. rewrite decide_True by done.
      apply allM_ok. intros c _. by rewrite column_votes_ok.
Qed.

Lemma is_phase2_quorum_in_ok qs members voters c :
  sorted_members members -> len members < usize_max -> admitted qs (len members) -> names_cell qs c ->
  is_phase2_quorum_in qs members voters c = Done (bool_decide (phase2_holds qs members voters c)).
Proof.
  intros Hs Hn Hadm Hc. unfold is_phase2_quorum_in.
  eapply bind_seq with (a := bool_decide (phase2_holds qs members voters c)); cbv beta.
  2: { apply quorum_counted; [done|]. rewrite bool_decide_eq_true. by apply phase2_holds_member. }
  destruct qs as [|q1 q2|rows cols acks]; simpl in Hc.
  - rassert_by done. rewrite is_majority_ok by done. f_equal. by apply bool_decide_ext.
  - rassert_by done. rewrite counted_ok by done. rsimpl. unfold mret, run_ret. f_equal.
    by apply bool_decide_ext.
  - destruct Hadm as (Hrows & Hcols & Hacks & Hm). destruct c as [c|]; simpl phase2_holds.
    + case_decide as Hd.
      * rewrite column_votes_ok by done. rsimpl. unfold mret, run_ret. f_equal.
        apply bool_decide_ext. tauto.
      * unfold mret, run_ret. f_equal. symmetry. apply bool_decide_eq_false_2. tauto.
    + apply anyM_ok. intros c _. by rewrite column_votes_ok.
Qed.

Lemma is_phase1_quorum_ok qs members voters :
  sorted_members members -> len members < usize_max -> admitted qs (len members) ->
  is_phase1_quorum qs members voters = Done (bool_decide (phase1_holds qs members voters None)).
Proof.
  intros. unfold is_phase1_quorum. rewrite is_phase1_quorum_in_ok by (done || by destruct qs). rsimpl.
  case_decide as Hd; [subst qs|done]. rewrite is_majority_ok by done. rsimpl. by rassert_by done.
Qed.

Lemma is_phase2_quorum_ok qs members voters :
  sorted_members members -> len members < usize_max -> admitted qs (len members) ->
  is_phase2_quorum qs members voters = Done (bool_decide (phase2_holds qs members voters None)).
Proof.
  intros. unfold is_phase2_quorum. rewrite is_phase2_quorum_in_ok by (done || by destruct qs). rsimpl.
  case_decide as Hd; [subst qs|done]. rewrite is_majority_ok by done. rsimpl. by rassert_by done.
Qed.

(** ** Fan-out and tally agree *)

Lemma step_by_from_index (gap skip : nat) (l : list I) x :
  (skip <= gap)%nat -> x ∈ step_by_from gap skip l -> exists i, l !! (skip + i * S gap)%nat = Some x.
Proof.
  revert skip. induction l as [|y l IH]; intros skip Hs; simpl; [intros Hx; by apply not_elem_of_nil in Hx|].
  destruct skip as [|skip]; simpl.
  - intros [->|Hx]%elem_of_cons; [by exists 0%nat|]. apply IH in Hx as [i Hi]; [|lia].
    exists (S i). simpl. rewrite <-Hi. done.
  - intros Hx. apply IH in Hx as [i Hi]; [|lia]. by exists i.
Qed.

Lemma length_step_by_from_ge (gap skip : nat) (l : list I) :
  (skip <= gap)%nat -> (length l <= skip + length (step_by_from gap skip l) * S gap)%nat.
Proof.
  revert skip. induction l as [|x l IH]; intros skip Hs; simpl; [lia|].
  destruct skip as [|skip]; simpl; [specialize (IH gap)|specialize (IH skip)]; lia.
Qed.

Lemma column_height_eq members rows cols c :
  c < cols -> rows * cols = len members -> len (column members cols c) = rows.
Proof.
  intros Hc Hn. pose proof (column_height members rows cols c ltac:(lia) Hn).
  unfold column, step_by, len in *.
  pose proof (length_step_by_from_ge (N.to_nat cols - 1) 0 (drop (N.to_nat c) members) ltac:(lia)) as Hge.
  rewrite length_drop in Hge. replace (S (N.to_nat cols - 1)) with (N.to_nat cols) in Hge by lia.
  set (h := length (step_by_from _ _ _)) in *. nia.
Qed.

(** Everyone is a quorum. *)
Lemma everyone_holds qs members voters :
  admitted qs (len members) -> Forall (fun m => m ∈ voters) members ->
  phase1_holds qs members voters None /\ phase2_holds qs members voters None.
Proof.
  intros Hadm Hall. destruct qs as [|q1 q2|rows cols acks]; simpl in *;
    [pose proof (half_spec (len members)); rewrite votes_in_full by done; lia
    |rewrite votes_in_full by done; lia|].
  destruct Hadm as (Hr & Hc & Ha & Hm).
  assert (forall c, c < cols -> votes_in (column members cols c) voters = rows) as Hcol.
  { intros c Hlt. rewrite votes_in_full, (column_height_eq members rows) by
      (done || apply Forall_forall; intros m Hin; rewrite Forall_forall in Hall; eapply Hall, column_subset, Hin). done. }
  split.
  - apply Forall_forall. intros c [_ Hlt]%elem_of_range. rewrite Hcol by done. lia.
  - apply Exists_exists. exists 0. rewrite elem_of_range, Hcol by lia. lia.
Qed.

Lemma elem_of_column members cols c m :
  1 <= cols -> c < cols -> sorted_members members ->
  m ∈ column members cols c <-> exists p, position members m = Some p /\ p mod cols = c.
Proof.
  intros Hcols Hc Hs. unfold column, step_by. split.
  - intros Hm. apply step_by_from_index in Hm as [i Hi]; [|lia]. rewrite lookup_drop in Hi.
    replace (S (N.to_nat cols - 1)) with (N.to_nat cols) in Hi by lia.
    exists (c + N.of_nat i * cols). split.
    + apply position_lookup; [done|]. rewrite <-Hi. f_equal. lia.
    + rewrite N.Div0.mod_add. by apply N.mod_small.
  - intros (p & Hp & Hmod). apply position_lookup in Hp; [|done].
    pose proof (N.div_mod p cols ltac:(lia)) as Hdm.
    apply (elem_of_step_by_from _ _ _ _ (N.to_nat (p / cols))); [lia|].
    rewrite lookup_drop. replace (S (N.to_nat cols - 1)) with (N.to_nat cols) by lia.
    rewrite <-Hp. f_equal. lia.
Qed.

Lemma phase2_addressees_ok qs members c :
  names_cell qs c -> admitted qs (len members) -> is_none_or (fun c => forall rows cols acks,
    qs = Grid rows cols acks -> c < cols) c ->
  phase2_addressees qs members c =
    Done (match qs, c with Grid _ cols _, Some c => column members cols c | _, _ => members end).
Proof.
  intros Hc Hadm Hlt. unfold phase2_addressees. destruct qs as [|q1 q2|rows cols acks]; simpl in Hc.
  - subst c. repeat (rassert_by done); done.
  - subst c. repeat (rassert_by done); done.
  - destruct c as [c|]; [|by repeat (rassert_by done)].
    destruct Hadm as (Hrows & Hcols & Hacks & Hm). simpl in Hlt. specialize (Hlt _ _ _ eq_refl).
    unfold grid_column. rewrite (rassert_true (1 <= cols)) by done. rsimpl. fold (column members cols c).
    rassert_by idtac; [|done]. rewrite (column_height_eq members rows) by done. nia.
Qed.

Lemma is_phase2_addressee_ok qs members node c :
  sorted_members members -> names_cell qs c -> admitted qs (len members) ->
  is_none_or (fun c => forall rows cols acks, qs = Grid rows cols acks -> c < cols) c ->
  is_phase2_addressee qs members node c =
    Done (bool_decide (node ∈ match qs, c with
                              | Grid _ cols _, Some c => column members cols c
                              | _, _ => members end)).
Proof.
  intros Hs Hc Hadm Hlt. unfold is_phase2_addressee.
  pose proof (position_Some members node) as Hpos.
  destruct (position members node) as [p|] eqn:Ep.
  - assert (node ∈ members) as Hin by (apply Hpos; by eexists).
    destruct qs as [|q1 q2|rows cols acks]; simpl in Hc;
      [subst c; rassert_by done; by rewrite bool_decide_eq_true_2..|].
    unfold mret, run_ret. f_equal. apply bool_decide_ext. destruct c as [c|]; simpl; [|done].
    destruct Hadm as (Hrows & Hcols & Hacks & Hm). simpl in Hlt. specialize (Hlt _ _ _ eq_refl).
    rewrite elem_of_column by done. rewrite Ep. split; [intros [_ ?]; by exists p|].
    by intros (p' & [= <-] & ?).
  - unfold mret, run_ret. f_equal. symmetry. apply bool_decide_eq_false_2. intros Hin.
    assert (node ∈ members) as [? ?]%Hpos; [|done].
    destruct qs, c; try done. by eapply column_subset.
Qed.

(** ** Properties *)

(** The fact Paxos safety rests on.  Over a sorted membership that admits
    its quorum system (majority, flexible split or grid), the code's Phase-1
    predicate, in any row form, and its Phase-2 predicate, in any column form,
    never both hold for sets of voters that share no member. *)
Theorem quorums_intersect qs members v1 v2 r c :
  sorted_members members -> len members < usize_max ->
  admits qs (len members) = Done true -> names_cell qs r -> names_cell qs c ->
  is_phase1_quorum_in qs members v1 r = Done true ->
  is_phase2_quorum_in qs members v2 c = Done true ->
  exists m, m ∈ members /\ m ∈ v1 /\ m ∈ v2.
Proof.
  intros Hs Hn Hadm Hr Hc H1 H2. rewrite admits_ok in Hadm by done.
  injection Hadm as Hadm%bool_decide_eq_true.
  rewrite is_phase1_quorum_in_ok in H1 by done. injection H1 as H1%bool_decide_eq_true.
  rewrite is_phase2_quorum_in_ok in H2 by done. injection H2 as H2%bool_decide_eq_true.
  by eapply holds_intersect.
Qed.

(** The quorum predicates are total and exact: over an admitted, sorted
    membership none of their assertions fires, and each answers its reference
    count (a majority, [q1] or [q2] members, [rows - acks + 1] of every column
    or a whole row, [acks] of one column); a stranger's vote never counts. *)
Theorem quorum_predicates_exact qs members voters r c :
  sorted_members members -> len members < usize_max -> admitted qs (len members) ->
  names_cell qs r -> names_cell qs c ->
  admits qs (len members) = Done true /\
  is_phase1_quorum_in qs members voters r = Done (bool_decide (phase1_holds qs members voters r)) /\
  is_phase2_quorum_in qs members voters c = Done (bool_decide (phase2_holds qs members voters c)) /\
  counted members voters = Done (votes_in members voters).
Proof.
  intros Hs Hn Hadm Hr Hc. split_and!.
  - rewrite admits_ok by done. by rewrite bool_decide_eq_true_2.
  - by apply is_phase1_quorum_in_ok.
  - by apply is_phase2_quorum_in_ok.
  - by apply counted_ok.
Qed.

(** The Phase-2 fan-out reaches a quorum.  The acceptors a slot's message
    is addressed to (its column under a grid, everyone otherwise) are members
    the tally counts, each is an addressee by the tally's own guard, and when
    all of them vote the slot's predicate holds. *)
Theorem phase2_fanout_decides qs members slot voters :
  sorted_members members -> len members < usize_max -> admitted qs (len members) ->
  exists c addressees,
    column_of qs slot = Done c /\ phase2_addressees qs members c = Done addressees /\
    (forall m, m ∈ addressees <-> is_phase2_addressee qs members m c = Done true) /\
    (Forall (fun m => m ∈ voters) addressees -> is_phase2_quorum_in qs members voters c = Done true).
Proof.
  intros Hs Hn Hadm.
  assert (exists c, column_of qs slot = Done c /\ names_cell qs c /\
    is_none_or (fun c => forall rows cols acks, qs = Grid rows cols acks -> c < cols) c /\
    (forall rows cols acks, qs = Grid rows cols acks -> is_Some c)) as (c & Ec & Hc & Hlt & Hsome).
  { unfold column_of. destruct qs as [|q1 q2|rows cols acks]; [by exists None|by exists None|].
    destruct Hadm as (? & ? & ? & ?). exists (Some (slot mod cols)). unfold residue.
    replace (N.max cols 1) with cols by lia.
    assert (slot mod cols < cols) by (apply N.mod_lt; lia).
    split_and!; [|done|simpl; by intros ? ? ? [= <- <- <-]|by eexists].
    rewrite (rassert_true (slot mod cols < cols)) by done. rsimpl.
    by rewrite (rassert_true (slot mod cols < cols)). }
  eexists c, _. split_and!; [done|by apply phase2_addressees_ok|..].
  - intros m. rewrite is_phase2_addressee_ok by done. split; [|by intros [= ?%bool_decide_eq_true]].
    intros Hm. by rewrite bool_decide_eq_true_2.
  - intros Hall. rewrite is_phase2_quorum_in_ok by done. f_equal. apply bool_decide_eq_true_2.
    destruct qs as [|q1 q2|rows cols acks]; simpl in *.
    + rewrite votes_in_full by done. pose proof (half_spec (len members)). lia.
    + rewrite votes_in_full by done. lia.
    + destruct (Hsome _ _ _ eq_refl) as [c' ->]. destruct Hadm as (? & ? & ? & ?).
      specialize (Hlt _ _ _ eq_refl). split; [done|]. rewrite votes_in_full by done.
      rewrite (column_height_eq members rows) by done. lia.
Qed.
End quorum.

(** ** Witnesses *)

Definition ex_grid : QuorumSystem := Grid 3 2 2.
Definition ex_members : list NodeId := [1; 2; 3; 4; 5; 6].

Lemma ex_members_sorted : sorted_members ex_members.
Proof. by apply (bool_decide_unpack _). Defined.

(** Columns are [1; 3; 5] and [2; 4; 6]: two of each elect, two of one decide. *)
Lemma quorums_intersect_witness :
  exists m, m ∈ ex_members /\ m ∈ ({[1; 3; 2; 4]} : gset NodeId) /\ m ∈ ({[4; 6]} : gset NodeId).
Proof.
  apply (quorums_intersect ex_grid ex_members {[1; 3; 2; 4]} {[4; 6]} None (Some 1));
    [apply ex_members_sorted|done|done|done|done|by vm_compute|by vm_compute].
Defined.

Lemma quorum_predicates_exact_witness :
  is_phase2_quorum_in ex_grid ex_members ({[1; 2; 6]} : gset NodeId) (Some 1) = Done true.
Proof.
  apply (quorum_predicates_exact ex_grid ex_members {[1; 2; 6]} None (Some 1));
    [apply ex_members_sorted|done|by repeat split|done|done].
Defined.

Lemma phase2_fanout_decides_witness :
  exists c addressees,
    column_of ex_grid 7 = Done c /\ phase2_addressees ex_grid ex_members c = Done addressees /\
    (forall m, m ∈ addressees <-> is_phase2_addressee ex_grid ex_members m c = Done true) /\
    (Forall (fun m => m ∈ ({[2; 4; 6]} : gset NodeId)) addressees ->
     is_phase2_quorum_in ex_grid ex_members {[2; 4; 6]} c = Done true).
Proof.
  apply (phase2_fanout_decides ex_grid ex_members 7 {[2; 4; 6]});
    [apply ex_members_sorted|done|by repeat split].
Defined.
