(* ===== verification/AcceptorConfig.v ===== *)
(** * Acceptor configurations ([membership/acceptor_config.rs], [membership/ids.rs])

    A membership with its quorum system, and the quorum questions the roles
    ask it.  [config_wf] is what the only constructor asserts; under it every
    question returns the reference answer of [QuorumSystem.v]. *)

From S2P Require Import Prelude BTree Types QuorumSystem.

(** ** Identities of the slot-ranked tiers ([ids.rs]) *)

Definition MAX_ROLE_COUNT : N := 64.

(** [ProxyId::is_in] and [ReplicaId::is_in]. *)
Definition proxy_is_in (rank count : N) : run bool :=
  deployed ← rank_is_in rank count;
  (if deployed : bool then
     rassert (0 < count) "a deployed proxy belongs to a proxy deployment" else mret tt);;
  mret deployed.
Definition replica_is_in (rank count : N) : run bool :=
  deployed ← rank_is_in rank count;
  (if deployed : bool then
     rassert (0 < count) "a deployed replica belongs to a replica tier" else mret tt);;
  mret deployed.

(** [ProxyId::of] and [ReplicaId::of]. *)
Definition proxy_of (slot : Slot) (count : N) : run (option N) :=
  proxy ← slot_rank slot count;
  rassert (is_Some proxy <-> 0 < count) "a slot has a proxy iff proxies exist";;
  inside ← match proxy with Some p => proxy_is_in p count | None => mret true end;
  rassert (inside = true) "a slot's proxy is deployed";;
  mret proxy.
Definition replica_of (slot : Slot) (count : N) : run (option N) :=
  replica ← slot_rank slot count;
  rassert (is_Some replica <-> 0 < count) "a slot has a replica iff replicas exist";;
  inside ← match replica with Some r => replica_is_in r count | None => mret true end;
  rassert (inside = true) "a slot's replica is deployed";;
  mret replica.

(** [impl Fingerprint for Vec<MatchmakerId>]. *)
Definition members_fingerprint (members : list N) : N :=
  foldl (fun hash member => fnv1a hash (to_le_bytes 8 member)) FNV_OFFSET members.
#[export] Instance Members_fingerprint : Fingerprint (list N) := members_fingerprint.

(** ** Failure domains ([failure_domain.rs]) *)

Definition MAX_FAILURE_DOMAIN_BYTES : N := 64.
Record FailureDomain := mkDomain { fd_region : string; fd_az : string }.

#[export] Instance FailureDomain_eq_dec : EqDecision FailureDomain.
Proof. solve_decision. Defined.

Definition domain_is_well_formed (d : FailureDomain) : bool :=
  bool_decide (N.of_nat (String.length (fd_region d)) <= MAX_FAILURE_DOMAIN_BYTES /\
               N.of_nat (String.length (fd_az d)) <= MAX_FAILURE_DOMAIN_BYTES).

Definition domain_new (region az : string) : run FailureDomain :=
  let domain := mkDomain region az in
  rassert (N.of_nat (String.length region) <= MAX_FAILURE_DOMAIN_BYTES) "a region name is a short label";;
  rassert (N.of_nat (String.length az) <= MAX_FAILURE_DOMAIN_BYTES) "a zone name is a short label";;
  mret domain.

(** ** The configuration *)

Record AcceptorConfig (I : Type) := mkConfig {
  c_members : list I;
  c_quorum_system : QuorumSystem;
  c_domains : list FailureDomain;
  c_cell : N;
  c_proxies : N;
  c_replicas : N }.
Arguments mkConfig {_} _ _ _ _ _ _.
Arguments c_members {_} _.
Arguments c_quorum_system {_} _.
Arguments c_domains {_} _.
Arguments c_cell {_} _.
Arguments c_proxies {_} _.
Arguments c_replicas {_} _.

#[export] Instance AcceptorConfig_eq_dec {I} `{EqDecision I} : EqDecision (AcceptorConfig I).
Proof. solve_decision. Defined.

(** [Vec::dedup_by]: drops every element equal (by [eqb]) to its kept
    predecessor. *)
Fixpoint dedup_by {A} (eqb : A -> A -> bool) (l : list A) : list A :=
  match l with
  | [] => []
  | x :: l' =>
      match dedup_by eqb l' with
      | [] => [x]
      | y :: l'' => if eqb x y then x :: l'' else x :: y :: l''
      end
  end.

Section config.
Context {I : Type} `{Ord I, !Countable I}.
Implicit Types (config : AcceptorConfig I) (voters : gset I) (members : list I).

(** [members.sort_unstable(); members.dedup()]. *)
Definition normalize members : list I :=
  dedup_by (fun a b => bool_decide (a = b)) (merge_sort ord_le members).

Definition config_is_well_formed config : run bool :=
  let n := len (c_members config) in
  ok ← admits (c_quorum_system config) n;
  mret (ok && bool_decide (sorted_members (c_members config)) &&
        bool_decide (c_domains config = [] \/ len (c_domains config) = n)).

Definition config_build members (domains : list FailureDomain) (qs : QuorumSystem)
  : run (AcceptorConfig I) :=
  rassert (members <> []) "an acceptor configuration names at least one acceptor";;
  rassert (domains = [] \/ len domains = len members) "a configuration labels every member or none";;
  let config := mkConfig members qs domains 0 0 0 in
  ok ← config_is_well_formed config;
  rassert (ok = true) "an acceptor configuration admits its quorum system";;
  let n := len (c_members config) in
  cross ← cross_intersects (c_quorum_system config) n;
  rassert (cross = true) "an acceptor configuration's quorums cross-intersect";;
  q1 ← phase1_quorum_size (c_quorum_system config) n;
  rassert (q1 <= n) "a Phase-1 quorum fits the membership";;
  q2 ← phase2_quorum_size (c_quorum_system config) n;
  rassert (q2 <= n) "a Phase-2 quorum fits the membership";;
  mret config.

(** [AcceptorConfig::new]. *)
Definition config_new members (qs : QuorumSystem) : run (AcceptorConfig I) :=
  config_build (normalize members) [] qs.

(** The adjacent pairs of a list: [windows(2)]. *)
Definition pairs {A} (l : list A) : list (A * A) := zip l (tail l).

(** [AcceptorConfig::zoned]. *)
Definition config_zoned (members : list (I * FailureDomain)) (qs : QuorumSystem)
  : run (AcceptorConfig I) :=
  let sorted := merge_sort key_le members in
  rassert (Forall (fun p : (I * FailureDomain) * (I * FailureDomain) =>
                     p.1.1 = p.2.1 -> p.1.2 = p.2.2) (pairs sorted))
    "a member of a configuration has one failure domain";;
  let kept := dedup_by (fun a b => bool_decide (a.1 = b.1)) sorted in
  let '(members, domains) := (kept.*1, kept.*2) in
  rassert (forallb domain_is_well_formed domains = true)
    "a configuration's failure domains are short labels";;
  config_build members domains qs.

Definition config_contains config (node : I) : run bool :=
  let member := bool_decide (is_Some (position (c_members config) node)) in
  rassert (sorted_members (c_members config))
    "a configuration's membership is sorted and deduplicated";;
  mret member.

(** The assertion the four tallies share: a quorum counts at least its size. *)
Definition quorum_counts config voters (quorum : bool) (size : run N) (msg : string) : run bool :=
  (if quorum then
     count ← counted (c_members config) voters;
     needed ← size;
     rassert (needed <= count) msg
   else mret tt);;
  mret quorum.

Definition has_phase1_quorum config voters : run bool :=
  quorum ← is_phase1_quorum (c_quorum_system config) (c_members config) voters;
  quorum_counts config voters quorum
    (phase1_quorum_size (c_quorum_system config) (len (c_members config)))
    "a Phase-1 quorum counts at least the Phase-1 quorum size".

Definition has_phase1_quorum_in config voters (r : option N) : run bool :=
  quorum ← is_phase1_quorum_in (c_quorum_system config) (c_members config) voters r;
  quorum_counts config voters quorum
    (phase1_quorum_size (c_quorum_system config) (len (c_members config)))
    "a Phase-1 quorum counts at least the Phase-1 quorum size".

Definition config_admits_read_row config (r : option N) : bool :=
  admits_read_row (c_quorum_system config) r.

Definition config_row_of config (ctx : N) : run (option N) :=
  r ← row_of (c_quorum_system config) ctx;
  rassert (config_admits_read_row config r = true) "a derived row is one of this configuration's";;
  mret r.

Definition config_read_row config (ctx : N) (chosen : option N) : run (option N) :=
  r ← read_row (c_quorum_system config) ctx chosen;
  rassert (config_admits_read_row config r = true) "a read runs on one of this configuration's rows";;
  mret r.

Definition config_is_phase1_addressee config (node : I) (r : option N) : run bool :=
  addressee ← is_phase1_addressee (c_quorum_system config) (c_members config) node r;
  (if addressee : bool then
     member ← config_contains config node;
     rassert (member = true) "a Phase-1 addressee is a member"
   else mret tt);;
  mret addressee.

Definition config_phase1_addressees config (r : option N) : run (list I) :=
  addressees ← phase1_addressees (c_quorum_system config) (c_members config) r;
  ok ← allM (fun a => config_is_phase1_addressee config a r) addressees;
  rassert (ok = true) "a Phase-1 fan-out addresses exactly the row's members";;
  mret addressees.

Definition has_phase2_quorum config voters : run bool :=
  quorum ← is_phase2_quorum (c_quorum_system config) (c_members config) voters;
  quorum_counts config voters quorum
    (phase2_quorum_size (c_quorum_system config) (len (c_members config)))
    "a Phase-2 quorum counts at least the Phase-2 quorum size".

Definition has_phase2_quorum_in config voters (c : option N) : run bool :=
  quorum ← is_phase2_quorum_in (c_quorum_system config) (c_members config) voters c;
  quorum_counts config voters quorum
    (phase2_quorum_size (c_quorum_system config) (len (c_members config)))
    "a Phase-2 quorum counts at least the Phase-2 quorum size".

Definition config_is_phase2_addressee config (node : I) (c : option N) : run bool :=
  addressee ← is_phase2_addressee (c_quorum_system config) (c_members config) node c;
  (if addressee : bool then
     member ← config_contains config node;
     rassert (member = true) "a Phase-2 addressee is a member"
   else mret tt);;
  mret addressee.

Definition config_phase2_addressees config (c : option N) : run (list I) :=
  addressees ← phase2_addressees (c_quorum_system config) (c_members config) c;
  ok ← allM (fun a => config_is_phase2_addressee config a c) addressees;
  rassert (ok = true) "a Phase-2 fan-out addresses exactly the column's members";;
  mret addressees.

Definition config_column_of config (slot : Slot) : run (option N) :=
  c ← column_of (c_quorum_system config) slot;
  match c with
  | Some c =>
      addressees ← config_phase2_addressees config (Some c);
      rassert (addressees <> []) "a slot's column has members"
  | None => mret tt
  end;;
  mret c.

Definition config_members config : run (list I) :=
  rassert (c_members config <> []) "a configuration names an acceptor";;
  mret (c_members config).

Definition config_domains config : run (list FailureDomain) :=
  rassert (c_domains config = [] \/ len (c_domains config) = len (c_members config))
    "a configuration labels every member or none";;
  mret (c_domains config).

Definition config_with_cell config (cell : N) : run (AcceptorConfig I) :=
  let config := mkConfig (c_members config) (c_quorum_system config) (c_domains config) cell
                  (c_proxies config) (c_replicas config) in
  ok ← config_is_well_formed config;
  rassert (ok = true) "naming a cell keeps a configuration well formed";;
  mret config.

Definition config_with_counts config (proxies replicas : N) : run (AcceptorConfig I) :=
  rassert (proxies <= MAX_ROLE_COUNT /\ replicas <= MAX_ROLE_COUNT)
    "a configuration's role counts are at most the cap";;
  let config := mkConfig (c_members config) (c_quorum_system config) (c_domains config)
                  (c_cell config) proxies replicas in
  ok ← config_is_well_formed config;
  rassert (ok = true) "naming the counts keeps a configuration well formed";;
  mret config.

Definition has_replicas config : bool := bool_decide (0 < c_replicas config).
Definition has_proxies config : bool := bool_decide (0 < c_proxies config).

Definition reply_owner config (slot : Slot) : run (option N) :=
  owner ← replica_of slot (c_replicas config);
  rassert (bool_decide (is_Some owner) = has_replicas config) "a slot has a reply owner iff replicas run";;
  mret owner.

Definition is_zoned config : bool := bool_decide (c_domains config <> []).

Definition domain_of config (node : I) : run (option FailureDomain) :=
  match position (c_members config) node with
  | None => mret None
  | Some index =>
      let domain := c_domains config !! N.to_nat index in
      rassert (bool_decide (is_Some domain) = is_zoned config)
        "a member of a labeled configuration has a domain";;
      mret domain
  end.

Definition config_quorum_system config : run QuorumSystem :=
  ok ← admits (c_quorum_system config) (len (c_members config));
  rassert (ok = true) "a configuration admits its quorum system";;
  mret (c_quorum_system config).

Definition is_drawn_from config (pool : list I) : run bool :=
  rassert (sorted_members pool) "a pool is sorted and deduplicated";;
  mret (forallb (fun m => bool_decide (is_Some (position pool m))) (c_members config)).

(** ** The invariant *)

(** What [config_build] asserts.  A [Vec]'s length is at most [isize::MAX], so
    it is below the largest [usize]. *)
Record config_wf config : Prop := {
  cwf_sorted : sorted_members (c_members config);
  cwf_admitted : admitted (c_quorum_system config) (len (c_members config));
  cwf_len : len (c_members config) < usize_max;
  cwf_domains : c_domains config = [] \/ len (c_domains config) = len (c_members config) }.

Lemma admitted_nonempty qs members : admitted qs (len members) -> members <> [].
Proof. intros Hadm ->. destruct qs; simpl in *; unfold len in *; simpl in *; nia. Qed.

(** *** Distinct members who all voted are counted. *)
Lemma votes_in_ge members voters (l : list I) :
  NoDup members -> NoDup l -> (forall m, m ∈ l -> m ∈ members /\ m ∈ voters) ->
  len l <= votes_in members voters.
Proof.
  intros Hm Hl Hin. unfold votes_in, len.
  assert (l ⊆+ filter (fun m => m ∈ voters) members) as Hsub%submseteq_length.
  { apply NoDup_submseteq; [done|]. intros m Hml. apply list_elem_of_filter. destruct (Hin m Hml). tauto. }
  lia.
Qed.

Lemma sublist_step_by {A} (gap skip : nat) (l : list A) : step_by_from gap skip l `sublist_of` l.
Proof.
  revert skip. induction l as [|x l IH]; intros skip; simpl; [constructor|].
  destruct skip; constructor; apply IH.
Qed.

Lemma column_NoDup members cols c : NoDup members -> NoDup (column members cols c).
Proof.
  intros Hm. eapply sublist_NoDup; [exact Hm|]. unfold column, step_by.
  etrans; [apply sublist_step_by|apply sublist_drop].
Qed.

Lemma row_NoDup members cols r : NoDup members -> NoDup (row members cols r).
Proof.
  intros Hm. eapply sublist_NoDup; [exact Hm|]. unfold row.
  etrans; [apply sublist_take|apply sublist_drop].
Qed.

Lemma row_length members rows cols r :
  rows * cols = len members -> r < rows -> len (row members cols r) = cols.
Proof.
  intros Hn Hr. assert ((r + 1) * cols <= rows * cols) by (apply N.mul_le_mono_r; lia).
  unfold row, len in *. rewrite length_take, length_drop. lia.
Qed.

(** The voters of the columns [cs], column by column. *)
Definition columns_voters members (cols : N) voters (cs : list N) : list I :=
  cs ≫= fun c => filter (fun m => m ∈ voters) (column members cols c).

Lemma columns_voters_NoDup members cols voters cs :
  sorted_members members -> 1 <= cols -> NoDup cs -> Forall (fun c => c < cols) cs ->
  NoDup (columns_voters members cols voters cs).
Proof.
  intros Hs Hcols. unfold columns_voters.
  induction cs as [|c cs IH]; intros Hnd Hall; simpl; [constructor|].
  apply NoDup_cons in Hnd as [Hc Hnd]. apply Forall_cons in Hall as [Hlt Hall].
  apply NoDup_app. split_and!.
  - apply NoDup_filter, column_NoDup, members_NoDup, Hs.
  - intros m [_ Hm]%list_elem_of_filter Hin. apply list_elem_of_bind in Hin as (c' & [_ Hm']%list_elem_of_filter & Hc').
    rewrite Forall_forall in Hall.
    apply elem_of_column in Hm as (p & Hp & <-); [|done..].
    apply elem_of_column in Hm' as (p' & Hp' & <-); [|done|by apply Hall|done].
    rewrite Hp in Hp'. injection Hp' as <-. done.
  - by apply IH.
Qed.

Lemma columns_voters_length members cols voters cs k :
  Forall (fun c => k <= votes_in (column members cols c) voters) cs ->
  len cs * k <= len (columns_voters members cols voters cs).
Proof.
  unfold columns_voters. induction 1 as [|c cs Hc _ IH]; unfold len in *; [simpl; lia|].
  cbn [length mbind list_bind]. rewrite length_app, Nat2N.inj_succ, N.mul_succ_l.
  unfold votes_in, len in Hc. unfold mbind in *. lia.
Qed.

Lemma length_range lo hi : len (range lo hi) = hi - lo.
Proof. unfold range, len. rewrite length_fmap, length_seq. lia. Qed.

Lemma NoDup_range lo hi : NoDup (range lo hi).
Proof. unfold range. apply NoDup_fmap_2; [intros x y; lia|]. apply NoDup_seq. Qed.

(** A quorum counts at least its size. *)
Definition phase1_size (qs : QuorumSystem) (n : N) : N :=
  match qs with
  | Majority => n / 2 + 1
  | Flexible q1 _ => q1
  | Grid rows cols acks => cols * (rows - acks + 1)
  end.
Definition phase2_size (qs : QuorumSystem) (n : N) : N :=
  match qs with Majority => n / 2 + 1 | Flexible _ q2 => q2 | Grid _ _ acks => acks end.

Lemma phase1_quorum_size_ok qs n :
  admitted qs n -> n < usize_max ->
  phase1_quorum_size qs n = Done (phase1_size qs n) /\ phase1_size qs n <= n.
Proof.
  intros Hadm Hn. unfold phase1_quorum_size. destruct qs as [|q1 q2|rows cols acks]; simpl in Hadm.
  - rewrite majority_of_ok by done. simpl. pose proof (half_spec n). split; [done|lia].
  - simpl. split; [done|lia].
  - destruct Hadm as (Hr & Hc & Ha & Hm).
    assert (cols * (rows - acks + 1) <= n) as Hle by (rewrite <-Hm, (N.mul_comm rows); apply N.mul_le_mono_l; lia).
    split; [|done]. rewrite phase1_per_column_ok by (done || nia). rsimpl. simpl default.
    assert (usize_saturating_mul cols (rows - acks + 1) = cols * (rows - acks + 1)) as ->
      by (unfold usize_saturating_mul; lia).
    rewrite decide_True by (split; [done|apply checked_mul_Some; lia]). by rassert_by done.
Qed.

Lemma phase2_quorum_size_ok qs n :
  admitted qs n -> n < usize_max ->
  phase2_quorum_size qs n = Done (phase2_size qs n) /\ phase2_size qs n <= n.
Proof.
  intros Hadm Hn. unfold phase2_quorum_size. destruct qs as [|q1 q2|rows cols acks]; simpl in Hadm.
  - rewrite majority_of_ok by done. simpl. pose proof (half_spec n). split; [done|lia].
  - simpl. split; [done|lia].
  - destruct Hadm as (Hr & Hc & Ha & Hm). simpl phase2_size.
    assert (acks <= n) as Hle by nia. split; [|done]. rsimpl.
    rewrite decide_True by (split; [apply checked_mul_Some; lia|lia]). by rassert_by done.
Qed.

Lemma phase1_holds_size qs members voters r :
  sorted_members members -> admitted qs (len members) -> phase1_holds qs members voters r ->
  phase1_size qs (len members) <= votes_in members voters.
Proof.
  intros Hs Hadm Hh. destruct qs as [|q1 q2|rows cols acks]; simpl in *; [done|done|].
  destruct Hadm as (Hr & Hc & Ha & Hm). apply members_NoDup in Hs as Hnd. destruct r as [r|].
  - destruct Hh as [[-> Hlt] Hall]. rewrite Forall_forall in Hall.
    replace (cols * (rows - rows + 1)) with cols by lia.
    rewrite <-(row_length members rows cols r) at 1 by done. apply votes_in_ge; [done|by apply row_NoDup|].
    intros m Hin. split; [by eapply row_subset|by apply Hall].
  - etrans; [|apply (votes_in_ge members voters (columns_voters members cols voters (range 0 cols)))]; [|done|..].
    + pose proof (columns_voters_length _ _ _ _ _ Hh) as Hl. by rewrite length_range, N.sub_0_r in Hl.
    + apply columns_voters_NoDup; [done|done|apply NoDup_range|].
      apply Forall_forall. intros c Hin%elem_of_range. lia.
    + intros m Hin. apply list_elem_of_bind in Hin as (c & [? Hcol]%list_elem_of_filter & _).
      split; [by eapply column_subset|done].
Qed.

Lemma phase2_holds_size qs members voters c :
  sorted_members members -> admitted qs (len members) -> phase2_holds qs members voters c ->
  phase2_size qs (len members) <= votes_in members voters.
Proof.
  intros Hs Hadm Hh. destruct qs as [|q1 q2|rows cols acks]; simpl in *; [done|done|].
  apply members_NoDup in Hs as Hnd.
  assert (exists c, acks <= votes_in (column members cols c) voters) as (c' & Hv).
  { destruct c as [c|]; [exists c; tauto|]. apply Exists_exists in Hh as (c & _ & ?). by exists c. }
  etrans; [exact Hv|]. apply votes_in_ge; [done|by apply NoDup_filter, column_NoDup|].
  intros m [? Hcol]%list_elem_of_filter. split; [by eapply column_subset|done].
Qed.

(** A quorum has a voter. *)
Lemma quorum_size_pos qs n : admitted qs n -> 0 < phase1_size qs n /\ 0 < phase2_size qs n.
Proof.
  pose proof (N.le_0_l (n / 2)). destruct qs; simpl; intros Hadm; [lia|lia|].
  split; [apply N.mul_pos_pos|]; lia.
Qed.

Lemma votes_in_empty members : votes_in members (∅ : gset I) = 0.
Proof.
  unfold votes_in. induction members as [|x l IH]; [done|].
  rewrite filter_cons, decide_False by set_solver. apply IH.
Qed.

Lemma phase1_holds_nonempty config voters r :
  config_wf config -> phase1_holds (c_quorum_system config) (c_members config) voters r -> voters <> ∅.
Proof.
  intros Hwf Hh ->. apply phase1_holds_size in Hh; [|apply Hwf..]. rewrite votes_in_empty in Hh.
  pose proof (quorum_size_pos _ _ (cwf_admitted _ Hwf)). lia.
Qed.

Lemma phase2_holds_nonempty config voters c :
  config_wf config -> phase2_holds (c_quorum_system config) (c_members config) voters c -> voters <> ∅.
Proof.
  intros Hwf Hh ->. apply phase2_holds_size in Hh; [|apply Hwf..]. rewrite votes_in_empty in Hh.
  pose proof (quorum_size_pos _ _ (cwf_admitted _ Hwf)). lia.
Qed.

(** ** The configuration's questions under the invariant *)

Section wf.
Context (config : AcceptorConfig I) (Hwf : config_wf config).

Lemma config_contains_ok node :
  config_contains config node = Done (bool_decide (node ∈ c_members config)).
Proof using Hwf.
  unfold config_contains. rassert_by apply Hwf. unfold mret, run_ret. f_equal.
  apply bool_decide_ext, position_Some.
Qed.

Lemma quorum_counts_ok voters (P : Prop) `{!Decision P} (size : N) csize msg :
  csize = Done size -> (P -> size <= votes_in (c_members config) voters) ->
  quorum_counts config voters (bool_decide P) csize msg = Done (bool_decide P).
Proof using Hwf.
  intros -> HP. unfold quorum_counts. case_bool_decide; [|done].
  rewrite counted_ok by apply Hwf. rsimpl. by rassert_by auto.
Qed.

Lemma has_phase1_quorum_in_ok voters r :
  names_cell (c_quorum_system config) r ->
  has_phase1_quorum_in config voters r =
    Done (bool_decide (phase1_holds (c_quorum_system config) (c_members config) voters r)).
Proof using Hwf.
  intros Hr. unfold has_phase1_quorum_in. rewrite is_phase1_quorum_in_ok by (done || apply Hwf). rsimpl.
  eapply quorum_counts_ok; [apply phase1_quorum_size_ok; apply Hwf|].
  intros. eapply phase1_holds_size; [apply Hwf..|done].
Qed.

Lemma has_phase1_quorum_ok voters :
  has_phase1_quorum config voters =
    Done (bool_decide (phase1_holds (c_quorum_system config) (c_members config) voters None)).
Proof using Hwf.
  unfold has_phase1_quorum. rewrite is_phase1_quorum_ok by apply Hwf. rsimpl.
  eapply quorum_counts_ok; [apply phase1_quorum_size_ok; apply Hwf|].
  intros. eapply phase1_holds_size; [apply Hwf..|done].
Qed.

Lemma has_phase2_quorum_in_ok voters c :
  names_cell (c_quorum_system config) c ->
  has_phase2_quorum_in config voters c =
    Done (bool_decide (phase2_holds (c_quorum_system config) (c_members config) voters c)).
Proof using Hwf.
  intros Hc. unfold has_phase2_quorum_in. rewrite is_phase2_quorum_in_ok by (done || apply Hwf). rsimpl.
  eapply quorum_counts_ok; [apply phase2_quorum_size_ok; apply Hwf|].
  intros. eapply phase2_holds_size; [apply Hwf..|done].
Qed.

Lemma has_phase2_quorum_ok voters :
  has_phase2_quorum config voters =
    Done (bool_decide (phase2_holds (c_quorum_system config) (c_members config) voters None)).
Proof using Hwf.
  unfold has_phase2_quorum. rewrite is_phase2_quorum_ok by apply Hwf. rsimpl.
  eapply quorum_counts_ok; [apply phase2_quorum_size_ok; apply Hwf|].
  intros. eapply phase2_holds_size; [apply Hwf..|done].
Qed.

(** A column the configuration can judge by. *)
Definition column_valid (c : option N) : Prop :=
  match c_quorum_system config, c with
  | Grid _ cols _, Some c => c < cols
  | Grid _ _ _, None => True
  | _, c => c = None
  end.

Lemma column_valid_names c :
  column_valid c -> names_cell (c_quorum_system config) c /\
  is_none_or (fun c => forall rows cols acks, c_quorum_system config = Grid rows cols acks -> c < cols) c.
Proof using Type.
  unfold column_valid. destruct (c_quorum_system config), c; simpl; try done.
  intros Hc. split; [done|]. by intros ? ? ? [= <- <- <-].
Qed.

(** The acceptors a message in column [c] goes to. *)
Definition addressees_of (c : option N) : list I :=
  match c_quorum_system config, c with
  | Grid _ cols _, Some c => column (c_members config) cols c
  | _, _ => c_members config
  end.

Lemma addressees_of_members c m : m ∈ addressees_of c -> m ∈ c_members config.
Proof using Type.
  unfold addressees_of. destruct (c_quorum_system config), c; try done. apply column_subset.
Qed.

Lemma config_is_phase2_addressee_ok node c :
  column_valid c ->
  config_is_phase2_addressee config node c = Done (bool_decide (node ∈ addressees_of c)).
Proof using Hwf.
  intros [Hn Hlt]%column_valid_names. unfold config_is_phase2_addressee.
  rewrite is_phase2_addressee_ok by (done || apply Hwf). rsimpl. fold (addressees_of c).
  case_bool_decide as Hin; [|done]. rewrite config_contains_ok. rsimpl.
  rassert_by (by apply bool_decide_eq_true_2, (addressees_of_members c)). done.
Qed.

Lemma config_phase2_addressees_ok c :
  column_valid c -> config_phase2_addressees config c = Done (addressees_of c).
Proof using Hwf.
  intros Hv. pose proof (column_valid_names c Hv) as [Hn Hlt]. unfold config_phase2_addressees.
  rewrite phase2_addressees_ok by (done || apply Hwf). rsimpl. fold (addressees_of c).
  rewrite (allM_ok _ (fun m => m ∈ addressees_of c)).
  - rsimpl. rassert_by (apply bool_decide_eq_true_2, Forall_forall; done). done.
  - intros m _. by apply config_is_phase2_addressee_ok.
Qed.

(** The column a slot is judged by. *)
Definition slot_column (slot : Slot) : option N :=
  match c_quorum_system config with Grid _ cols _ => Some (slot mod cols) | _ => None end.

Lemma slot_column_valid slot : column_valid (slot_column slot).
Proof using Hwf.
  unfold slot_column, column_valid. pose proof (cwf_admitted _ Hwf) as Hadm.
  destruct (c_quorum_system config) as [|q1 q2|rows cols acks]; simpl in *; try done.
  apply N.mod_lt. lia.
Qed.

Lemma config_column_of_ok slot : config_column_of config slot = Done (slot_column slot).
Proof using Hwf.
  pose proof (slot_column_valid slot) as Hv. pose proof (cwf_admitted _ Hwf) as Hadm.
  unfold config_column_of, column_of. unfold slot_column in *.
  destruct (c_quorum_system config) as [|q1 q2|rows cols acks] eqn:Eqs; simpl in Hadm; [done|done|].
  destruct Hadm as (? & ? & ? & Hm). unfold residue. replace (N.max cols 1) with cols by lia.
  assert (slot mod cols < cols) as Hlt by (apply N.mod_lt; lia).
  rewrite !(rassert_true (slot mod cols < cols)) by done. rsimpl.
  rewrite (rassert_true (slot mod cols < cols)) by done. rsimpl.
  rewrite config_phase2_addressees_ok by done. rsimpl.
  rassert_by idtac; [|done]. unfold addressees_of. rewrite Eqs. intros Hnil.
  pose proof (column_height_eq (c_members config) rows cols (slot mod cols) Hlt Hm) as Hh.
  rewrite Hnil in Hh. unfold len in Hh. simpl in Hh. lia.
Qed.
End wf.

(** ** Construction *)

Lemma elem_of_dedup (l : list I) x : x ∈ dedup_by (fun a b => bool_decide (a = b)) l <-> x ∈ l.
Proof.
  induction l as [|y l IH]; simpl; [done|]. rewrite elem_of_cons, <-IH.
  destruct (dedup_by _ l) as [|z l']; [by rewrite elem_of_cons|].
  case_bool_decide as E; [subst z|]; rewrite !elem_of_cons; tauto.
Qed.

Lemma dedup_sorted (l : list I) :
  StronglySorted ord_le l -> StronglySorted ord_lt (dedup_by (fun a b => bool_decide (a = b)) l).
Proof.
  induction 1 as [|x l Hs IH Hall]; simpl; [constructor|].
  assert (forall z, z ∈ dedup_by (fun a b => bool_decide (a = b)) l -> ord_le x z) as Hle.
  { intros z Hz. rewrite elem_of_dedup in Hz. rewrite Forall_forall in Hall. by apply Hall. }
  destruct (dedup_by _ l) as [|y l']; [by repeat constructor|].
  apply StronglySorted_inv in IH as [IH Hy]. case_bool_decide as E; [subst y; by constructor|].
  assert (ord_lt x y) as Hxy by (apply ord_le_ne_lt; [apply Hle; left|done]).
  constructor; [by constructor|]. constructor; [done|].
  rewrite Forall_forall in Hy. apply Forall_forall. intros z Hz.
  eapply ord_lt_trans; [done|by apply Hy].
Qed.

Lemma normalize_sorted members : sorted_members (normalize members).
Proof.
  apply StronglySorted_Sorted, dedup_sorted. apply StronglySorted_merge_sort; apply _.
Qed.

Lemma elem_of_normalize members m : m ∈ normalize members <-> m ∈ members.
Proof. unfold normalize. by rewrite elem_of_dedup, merge_sort_Permutation. Qed.

Lemma config_is_well_formed_ok config :
  len (c_members config) < usize_max ->
  exists b, config_is_well_formed config = Done b /\ (b = true <-> config_wf config).
Proof.
  intros Hn. unfold config_is_well_formed. rewrite admits_ok by done. rsimpl.
  eexists. split; [done|]. rewrite !andb_true_iff, !bool_decide_eq_true. split.
  - intros [[? ?] ?]. by constructor.
  - by intros [].
Qed.

Lemma config_build_ok members domains qs :
  sorted_members members -> len members < usize_max -> admitted qs (len members) ->
  (domains = [] \/ len domains = len members) ->
  config_build members domains qs = Done (mkConfig members qs domains 0 0 0) /\
  config_wf (mkConfig members qs domains 0 0 0).
Proof.
  intros Hs Hn Hadm Hd. assert (config_wf (mkConfig members qs domains 0 0 0)) as Hwf by by constructor.
  split; [|done]. unfold config_build. rassert_by by eapply admitted_nonempty. rassert_by done.
  destruct (config_is_well_formed_ok (mkConfig members qs domains 0 0 0) Hn) as (b & -> & Hb).
  rsimpl. rassert_by by apply Hb. simpl. rewrite cross_intersects_ok by done. rsimpl. rassert_by done.
  destruct (phase1_quorum_size_ok qs (len members) Hadm Hn) as [-> ?]. rsimpl. rassert_by done.
  destruct (phase2_quorum_size_ok qs (len members) Hadm Hn) as [-> ?]. rsimpl. by rassert_by done.
Qed.

Lemma config_build_inv members domains qs config :
  len members < usize_max -> config_build members domains qs = Done config -> config_wf config.
Proof.
  intros Hn Hc. unfold config_build in Hc. rinv Hc. injection Hc as <-.
  destruct (config_is_well_formed_ok (mkConfig members qs domains 0 0 0) Hn) as (b & Eb & Hb).
  rewrite Eb in *. simplify_eq. by apply Hb.
Qed.

Lemma config_wf_intersect config v1 v2 r c :
  config_wf config -> names_cell (c_quorum_system config) r -> names_cell (c_quorum_system config) c ->
  has_phase1_quorum_in config v1 r = Done true -> has_phase2_quorum_in config v2 c = Done true ->
  exists m, m ∈ c_members config /\ m ∈ v1 /\ m ∈ v2.
Proof.
  intros Hwf Hr Hc H1 H2. rewrite has_phase1_quorum_in_ok in H1 by done.
  rewrite has_phase2_quorum_in_ok in H2 by done.
  injection H1 as H1%bool_decide_eq_true. injection H2 as H2%bool_decide_eq_true.
  eapply holds_intersect; [apply Hwf|done..].
Qed.
End config.

(** ** Properties *)

(** [AcceptorConfig::new] returns exactly when the sorted, deduplicated
    membership admits the quorum system.  What it returns names exactly the
    given acceptors, sorted and without duplicates, and is well formed. *)
Theorem config_new_exact {I} `{Ord I, !Countable I} (members : list I) qs :
  len (normalize members) < usize_max ->
  (returns (config_new members qs) <-> admitted qs (len (normalize members))) /\
  (forall config, config_new members qs = Done config ->
     config_wf config /\ c_quorum_system config = qs /\
     forall m, m ∈ c_members config <-> m ∈ members).
Proof.
  intros Hn. split; [split|].
  - intros [config Hc]. apply config_build_inv in Hc as Hwf; [|done].
    unfold config_new, config_build in Hc. rinv Hc. injection Hc as <-. apply Hwf.
  - intros Hadm. unfold config_new.
    destruct (config_build_ok (normalize members) [] qs (normalize_sorted members) Hn Hadm) as [-> _];
      [by left|by eexists].
  - intros config Hc. apply config_build_inv in Hc as Hwf; [|done]. split; [done|].
    unfold config_new, config_build in Hc. rinv Hc. injection Hc as <-. split; [done|].
    apply elem_of_normalize.
Qed.

(** C21: whatever configuration the constructor builds, a Phase-1 quorum of it
    (in any row form) and a Phase-2 quorum of it (in any column form), as the
    configuration's own tallies judge them, share an acceptor, and the
    tallies' assertions on the counts never fire. *)
Theorem config_new_safe {I} `{Ord I, !Countable I} (members : list I) qs config v1 v2 r c :
  len (normalize members) < usize_max -> config_new members qs = Done config ->
  names_cell qs r -> names_cell qs c ->
  (exists b1 b2, has_phase1_quorum_in config v1 r = Done b1 /\
                 has_phase2_quorum_in config v2 c = Done b2 /\
                 (b1 = true -> b2 = true -> exists m, m ∈ members /\ m ∈ v1 /\ m ∈ v2)).
Proof.
  intros Hn Hc Hr Hcol. apply config_build_inv in Hc as Hwf; [|done].
  assert (config = mkConfig (normalize members) qs [] 0 0 0) as ->
    by (unfold config_new, config_build in Hc; rinv Hc; by injection Hc as <-).
  eexists _, _. rewrite has_phase1_quorum_in_ok, has_phase2_quorum_in_ok by done.
  split_and!; [done|done|]. rewrite !bool_decide_eq_true. intros H1 H2.
  destruct (holds_intersect _ _ _ _ _ _ (cwf_admitted _ Hwf) H1 H2) as (m & Hm & ?).
  exists m. split; [by apply elem_of_normalize|done].
Qed.

(** ** Witnesses *)

Definition ex_config : AcceptorConfig NodeId := mkConfig [1; 2; 3] Majority [] 0 0 0.

Lemma ex_config_wf : config_wf ex_config.
Proof.
  constructor; [by apply (bool_decide_unpack _)|by vm_compute|by vm_compute|by left].
Defined.

Lemma config_new_exact_witness :
  returns (config_new [3; 1; 2; 3] Majority) /\ ~ admitted (Grid 2 2 1) (len (normalize [3; 1; 2; 3])).
Proof.
  split.
  - apply (config_new_exact [3; 1; 2; 3] Majority); by vm_compute.
  - intros (_ & _ & _ & E). by vm_compute in E.
Defined.

Lemma config_new_safe_witness :
  exists b1 b2,
    has_phase1_quorum_in (mkConfig [1; 2; 3] Majority [] 0 0 0) ({[1; 2]} : gset NodeId) None = Done b1 /\
    has_phase2_quorum_in (mkConfig [1; 2; 3] Majority [] 0 0 0) ({[2; 3]} : gset NodeId) None = Done b2 /\
    (b1 = true -> b2 = true -> exists m, m ∈ [3; 1; 2; 3] /\ m ∈ ({[1; 2]} : gset NodeId) /\ m ∈ ({[2; 3]} : gset NodeId)).
Proof.
  apply (config_new_safe [3; 1; 2; 3] Majority (mkConfig [1; 2; 3] Majority [] 0 0 0) {[1; 2]} {[2; 3]} None None);
    by vm_compute.
Defined.
