(* ===== verification/DeployConfig.v ===== *)
(** * A deployment's configuration ([contract/config.rs])

    What a node is booted with: its identity, the bootstrap membership and its
    quorum system, the pool a reconfiguration draws from, and the opt-in tiers. *)

From S2P Require Import Prelude BTree Types Journal QuorumSystem AcceptorConfig.

Record DeployConfig := mkDeploy {
  nc_id : NodeId;
  nc_peers : list NodeId;
  nc_quorum_system : QuorumSystem;
  nc_nodes : list NodeId;
  nc_matchmakers : list N;
  nc_matchmaker_pool : list N;
  nc_proxy_count : N;
  nc_replica_count : N;
  nc_journal : N;
  nc_writer_mode : WriterMode;
  nc_peer_domains : list FailureDomain;
  nc_cell_id : N }.

Implicit Types config : DeployConfig.

Definition pool config : list NodeId :=
  if decide (nc_nodes config = []) then nc_peers config else nc_nodes config.
Definition config_has_matchmakers config : bool := bool_decide (nc_matchmakers config <> []).
Definition config_has_proxies config : bool := bool_decide (0 < nc_proxy_count config).
Definition config_has_replicas config : bool := bool_decide (0 < nc_replica_count config).

Definition matchmaker_pool config : run (list N) :=
  let pool := if decide (nc_matchmaker_pool config = []) then nc_matchmakers config else nc_matchmaker_pool config in
  (if config_has_matchmakers config then rassert (pool <> []) "a matchmaker deployment has a matchmaker pool" else mret tt);;
  mret pool.

(** [Config::new]. *)
Definition deploy_config_new (id : NodeId) (journal : N) : run DeployConfig :=
  let config := mkDeploy id [] Majority [] [] [] 0 0 journal Single [] 0 in
  rassert (config_has_matchmakers config = false) "a fresh configuration names no matchmaker";;
  rassert (config_has_proxies config = false) "a fresh configuration runs no proxy";;
  rassert (config_has_replicas config = false) "a fresh configuration runs no replica tier";;
  mret config.

Definition bootstrap config : run (AcceptorConfig NodeId) :=
  if decide (nc_peer_domains config = []) then
    acceptors ← config_new (nc_peers config) (nc_quorum_system config);
    acceptors ← config_with_cell acceptors (nc_cell_id config);
    config_with_counts acceptors (nc_proxy_count config) (nc_replica_count config)
  else
    rassert (length (nc_peer_domains config) = length (nc_peers config))
      "a configuration labels every bootstrap member or none";;
    acceptors ← config_zoned (zip (nc_peers config) (nc_peer_domains config)) (nc_quorum_system config);
    rassert (is_zoned acceptors = true) "a labeled bootstrap stays labeled";;
    acceptors ← config_with_cell acceptors (nc_cell_id config);
    config_with_counts acceptors (nc_proxy_count config) (nc_replica_count config).

(** [Config::recorded]: as the format marker keeps it. *)
Definition recorded config : run DeployConfig :=
  let config := mkDeploy (nc_id config) (nc_peers config) (nc_quorum_system config) (nc_nodes config)
                  (nc_matchmakers config) (nc_matchmaker_pool config) 0 0 (nc_journal config)
                  (nc_writer_mode config) (nc_peer_domains config) (nc_cell_id config) in
  rassert (config_has_proxies config = false /\ config_has_replicas config = false)
    "the format marker records no count";;
  mret config.

(** [config.nodes = pool]. *)
Definition with_nodes config (nodes : list NodeId) : DeployConfig :=
  mkDeploy (nc_id config) (nc_peers config) (nc_quorum_system config) nodes
    (nc_matchmakers config) (nc_matchmaker_pool config) (nc_proxy_count config) (nc_replica_count config)
    (nc_journal config) (nc_writer_mode config) (nc_peer_domains config) (nc_cell_id config).

(** [pool().binary_search(&id).is_ok()]. *)
Definition pooled config (id : NodeId) : Prop := is_Some (position (pool config) id).
#[export] Instance pooled_dec config id : Decision (pooled config id).
Proof. unfold pooled. apply _. Defined.

Lemma pooled_iff config id : pooled config id <-> id ∈ pool config.
Proof. apply position_Some. Qed.

(** ** A bootstrap membership *)

Lemma dedup_by_sublist {A} (eqb : A -> A -> bool) (l : list A) : dedup_by eqb l `sublist_of` l.
Proof.
  induction l as [|x l IH]; simpl; [done|]. destruct (dedup_by eqb l) as [|y l']; [by apply sublist_skip|].
  destruct (eqb x y); apply sublist_skip; [|done]. etrans; [by apply sublist_cons|exact IH].
Qed.

Lemma zip_firsts {A B} (l : list A) (k : list B) : (zip l k).*1 `sublist_of` l.
Proof.
  revert k. induction l as [|x l IH]; intros [|y k]; simpl; try apply sublist_nil_l. by apply sublist_skip.
Qed.

Lemma config_build_members {I} `{Ord I, !Countable I} (members : list I) domains qs built :
  config_build members domains qs = Done built -> c_members built = members.
Proof. intros Hc. unfold config_build in Hc. rinv Hc. by injection Hc as <-. Qed.

(** Naming a cell or the role counts keeps the membership and its quorums. *)
Lemma config_named cell proxies replicas (acceptors acceptors' : AcceptorConfig NodeId) :
  config_wf acceptors ->
  (c ← config_with_cell acceptors cell; config_with_counts c proxies replicas) = Done acceptors' ->
  config_wf acceptors' /\ c_members acceptors' = c_members acceptors.
Proof.
  intros [] Hc. unfold config_with_cell, config_with_counts in Hc. rinv Hc. injection Hc as <-.
  rinv E. injection E as <-. split; [by constructor|done].
Qed.

(** A bootstrap that returns is well formed, and its members are peers. *)
Lemma bootstrap_inv config acceptors :
  len (nc_peers config) < usize_max -> bootstrap config = Done acceptors ->
  config_wf acceptors /\ forall m, m ∈ c_members acceptors -> m ∈ nc_peers config.
Proof.
  intros Hn Hb. unfold bootstrap in Hb.
  assert (forall members domains qs built, config_build members domains qs = Done built ->
    (forall m, m ∈ members -> m ∈ nc_peers config) -> (length members <= length (nc_peers config))%nat ->
    config_wf built /\ forall m, m ∈ c_members built -> m ∈ nc_peers config) as Hbuilt.
  { intros members domains qs built Hc Hm Hl. split.
    - eapply config_build_inv; [|exact Hc]. unfold len in *. lia.
    - by rewrite (config_build_members _ _ _ _ Hc). }
  case_decide.
  - apply bind_Done_inv in Hb as (built & Hc & Hb). destruct (Hbuilt _ _ _ _ Hc) as [Hwf Hm].
    { intros m. by rewrite elem_of_normalize. }
    { etrans; [by apply sublist_length, dedup_by_sublist|]. by rewrite merge_sort_Permutation. }
    destruct (config_named _ _ _ _ _ Hwf Hb) as [? ->]. done.
  - apply bind_Done_inv in Hb as (_ & _ & Hb). apply bind_Done_inv in Hb as (built & Hc & Hb).
    unfold config_zoned in Hc. apply bind_Done_inv in Hc as (_ & _ & Hc). apply bind_Done_inv in Hc as (_ & _ & Hc).
    set (sorted := merge_sort key_le _) in Hc. set (kept := dedup_by _ sorted) in Hc.
    assert (kept.*1 `sublist_of` sorted.*1) as Hk by apply fmap_sublist, dedup_by_sublist.
    assert (sorted.*1 ≡ₚ (zip (nc_peers config) (nc_peer_domains config)).*1) as Hp
      by apply fmap_Permutation, merge_sort_Permutation.
    pose proof (zip_firsts (nc_peers config) (nc_peer_domains config)) as Hz.
    destruct (Hbuilt _ _ _ _ Hc) as [Hwf Hm].
    { intros m Hm. eapply elem_of_sublist; [|exact Hz]. rewrite <-Hp. by eapply elem_of_sublist. }
    { etrans; [by apply sublist_length|]. rewrite Hp. by apply sublist_length. }
    apply bind_Done_inv in Hb as (_ & _ & Hb). destruct (config_named _ _ _ _ _ Hwf Hb) as [? ->]. done.
Qed.
