(* ===== verification/ZoneRule.v ===== *)
(** * The zone rule ([membership/zone_rule.rs])

    Whether a configuration labelled with failure domains survives the loss of
    any one of them, and none of them commits alone, asked through the
    configuration's own quorum predicates. *)

From S2P Require Import Prelude BTree Types QuorumSystem AcceptorConfig.

(** ** Derived orders: lists, and a type with an injective key *)

Section lexicographic.
Context {K : Type} `{Ord K}.

Fixpoint lex_le (l k : list K) : Prop :=
  match l, k with
  | [], _ => True
  | _ :: _, [] => False
  | x :: l, y :: k => ord_lt x y \/ x = y /\ lex_le l k
  end.

#[export] Instance lex_le_dec : RelDecision lex_le.
Proof.
  intros l. induction l as [|x l IH]; intros [|y k]; simpl; [apply _..|].
  destruct (decide (ord_lt x y)); [left; by left|].
  destruct (decide (x = y)) as [->|]; [|right; tauto].
  destruct (IH k); [left; tauto|right; tauto].
Defined.

#[export] Program Instance list_ord : Ord (list K) := {| ord_le := lex_le |}.
Next Obligation.
  split; [split; [split|]|].
  - intros l. induction l; simpl; [done|]. right. done.
  - intros l. induction l as [|x l IH]; intros [|y k] [|z m]; simpl; try done.
    intros [?|[-> ?]] [?|[-> ?]]; [left; by eapply ord_lt_trans|by left|by left|right; split; [done|by eapply IH]].
  - intros l. induction l as [|x l IH]; intros [|y k]; simpl; try done.
    intros [Hl|[-> ?]] [Hk|[E ?]]; [|subst..|].
    + by destruct (ord_lt_irrefl x (ord_lt_trans _ _ _ Hl Hk)).
    + by apply ord_lt_irrefl in Hl.
    + by apply ord_lt_irrefl in Hk.
    + f_equal. by apply IH.
  - intros l. unfold strict. induction l as [|x l IH]; intros [|y k]; simpl.
    + right. by left.
    + left. tauto.
    + right; right. tauto.
    + pose proof (ord_lt_irrefl x). pose proof (ord_lt_irrefl y).
      destruct (ord_lt_cases x y) as [Hl|[->|Hl]].
      * left. split; [by left|]. intros [?|[-> ?]]; [by eapply H0, ord_lt_trans|done].
      * destruct (IH k) as [[? ?]|[->|[? ?]]]; [left|by right; left|right; right]; split; tauto.
      * right; right. split; [by left|]. intros [?|[-> ?]]; [by eapply H0, ord_lt_trans|done].
Qed.
End lexicographic.

(** The bytes of a string, and the order of a [FailureDomain]: region, then zone. *)
Definition string_bytes (s : string) : list N := Ascii.N_of_ascii <$> String.list_ascii_of_string s.
Definition domain_key (d : FailureDomain) : list (list N) := [string_bytes (fd_region d); string_bytes (fd_az d)].

Lemma string_bytes_inj s t : string_bytes s = string_bytes t -> s = t.
Proof.
  assert (Inj (=) (=) Ascii.N_of_ascii) as Hinj.
  { intros a b E. by rewrite <-(Ascii.ascii_N_embedding a), E, Ascii.ascii_N_embedding. }
  intros E%(inj (fmap Ascii.N_of_ascii)).
  by rewrite <-(String.string_of_list_ascii_of_string s), E, String.string_of_list_ascii_of_string.
Qed.

Lemma domain_key_inj d e : domain_key d = domain_key e -> d = e.
Proof. destruct d, e. unfold domain_key. simpl. by intros [= ->%string_bytes_inj ->%string_bytes_inj]. Qed.

#[export] Program Instance FailureDomain_ord : Ord FailureDomain :=
  {| ord_le := fun d e => ord_le (domain_key d) (domain_key e) |}.
Next Obligation. intros d e. apply _. Defined.
Next Obligation.
  split; [split; [split|]|].
  - intros d. apply ord_le_refl.
  - intros d e f. apply ord_le_trans.
  - intros d e ? ?. by apply domain_key_inj, ord_le_antisymm.
  - intros d e. unfold strict. destruct (ord_lt_cases (domain_key d) (domain_key e)) as [Hl|[E|Hl]].
    + left. split; [by apply ord_lt_le|done].
    + right; left. by apply domain_key_inj.
    + right; right. split; [by apply ord_lt_le|done].
Qed.

#[export] Program Instance FailureDomain_countable : Countable FailureDomain :=
  inj_countable' (fun d => (fd_region d, fd_az d)) (fun p => mkDomain p.1 p.2) _.
Next Obligation. by intros []. Qed.

(** ** The rule *)

Inductive ZoneRule :=
| Unlabeled
| Holds
| LosesQuorum (domain : FailureDomain)
| CommitsAlone (domain : FailureDomain).

#[export] Instance ZoneRule_eq_dec : EqDecision ZoneRule.
Proof. solve_decision. Defined.

Definition zone_rule_holds (z : ZoneRule) : bool := match z with Holds => true | _ => false end.

Section zone.
Context {I : Type} `{Ord I, !Countable I}.
Implicit Types (config : AcceptorConfig I) (members : list I) (domains : list FailureDomain).

Definition distinct_domains config : run (gset FailureDomain) :=
  domains ← config_domains config;
  mret (list_to_set domains).

(** The members of a domain, and the others. *)
Definition place (domain : FailureDomain) (split : gset I * gset I) (member : I * FailureDomain)
  : gset I * gset I :=
  if decide (member.2 = domain) then ({[ member.1 ]} ∪ split.1, split.2)
  else (split.1, {[ member.1 ]} ∪ split.2).

(** One domain's verdict, if it breaks the rule. *)
Definition judge_domain config members domains (domain : FailureDomain) : run (option ZoneRule) :=
  let '(inside, outside) := foldl (place domain) (∅, ∅) (zip members domains) in
  rassert (inside <> ∅) "a domain of a configuration holds a member";;
  total ← usize_add (ssize inside) (ssize outside);
  rassert (total = len members) "a domain splits the membership in two";;
  first ← has_phase1_quorum config outside;
  survives ← (if first : bool then has_phase2_quorum config outside else mret false);
  if negb survives then mret (Some (LosesQuorum domain)) else
  alone ← has_phase2_quorum config inside;
  mret (if alone : bool then Some (CommitsAlone domain) else None).

Fixpoint judge_domains config members domains (l : list FailureDomain) : run (option ZoneRule) :=
  match l with
  | [] => mret None
  | domain :: l =>
      verdict ← judge_domain config members domains domain;
      match verdict with Some v => mret (Some v) | None => judge_domains config members domains l end
  end.

Definition zone_rule config : run ZoneRule :=
  if negb (is_zoned config) then mret Unlabeled else
  members ← config_members config;
  domains ← config_domains config;
  rassert (len members = len domains) "a labeled configuration labels every member";;
  distinct ← distinct_domains config;
  verdict ← judge_domains config members domains (bs_elements distinct);
  match verdict with
  | Some v => mret v
  | None =>
      distinct ← distinct_domains config;
      rassert (2 <= ssize distinct) "a configuration that holds the zone rule spans two domains";;
      mret Holds
  end.

(** ** The rule under the invariant *)

Definition inside_zone config (domain : FailureDomain) : gset I :=
  list_to_set (filter (fun p => p.2 = domain) (zip (c_members config) (c_domains config))).*1.
Definition outside_zone config (domain : FailureDomain) : gset I :=
  list_to_set (filter (fun p => p.2 <> domain) (zip (c_members config) (c_domains config))).*1.

(** The rule's two predicates for one domain. *)
Definition survives config (voters : gset I) : Prop :=
  phase1_holds (c_quorum_system config) (c_members config) voters None /\
  phase2_holds (c_quorum_system config) (c_members config) voters None.
Definition commits config (voters : gset I) : Prop :=
  phase2_holds (c_quorum_system config) (c_members config) voters None.

#[export] Instance survives_dec config voters : Decision (survives config voters).
Proof. unfold survives. apply _. Defined.
#[export] Instance commits_dec config voters : Decision (commits config voters).
Proof. unfold commits. apply _. Defined.

Definition domain_verdict config (domain : FailureDomain) : option ZoneRule :=
  if decide (survives config (outside_zone config domain)) then
    if decide (commits config (inside_zone config domain)) then Some (CommitsAlone domain) else None
  else Some (LosesQuorum domain).

Lemma place_all domain l (split : gset I * gset I) :
  foldl (place domain) split l =
    (list_to_set (filter (fun p => p.2 = domain) l).*1 ∪ split.1,
     list_to_set (filter (fun p => p.2 <> domain) l).*1 ∪ split.2).
Proof.
  revert split. induction l as [|[m d] l IH]; intros [a b]; cbn [foldl].
  { simpl. by rewrite !(left_id_L ∅ (∪)). }
  rewrite IH. unfold place. rewrite !filter_cons. cbn [fst snd]. destruct (decide (d = domain)) as [->|Hd].
  - rewrite decide_False by tauto. cbn [fst snd fmap list_fmap list_to_set]. f_equal; set_solver.
  - rewrite decide_True by done. cbn [fst snd fmap list_fmap list_to_set]. f_equal; set_solver.
Qed.

Context (config : AcceptorConfig I) (Hwf : config_wf config) (Hzoned : is_zoned config = true).

Lemma zoned_labels : length (c_members config) = length (c_domains config).
Proof using Hwf Hzoned.
  apply bool_decide_eq_true in Hzoned. destruct (cwf_domains _ Hwf) as [?|E]; [done|]. unfold len in E. lia.
Qed.

Lemma domain_split domain :
  ssize (inside_zone config domain) + ssize (outside_zone config domain) = len (c_members config).
Proof using Hwf Hzoned.
  unfold inside_zone, outside_zone, ssize, len.
  pose proof zoned_labels as Hl.
  assert (NoDup (zip (c_members config) (c_domains config)).*1) as Hnd.
  { rewrite fst_zip by lia. apply members_NoDup, Hwf. }
  pose proof (filter_app_complement (fun p : I * FailureDomain => p.2 = domain)
                (zip (c_members config) (c_domains config))) as Hp.
  rewrite !size_list_to_set.
  - rewrite !length_fmap, <-Nat2N.inj_add, <-length_app. f_equal.
    rewrite (Permutation_length Hp). rewrite length_zip_with. lia.
  - eapply sublist_NoDup; [exact Hnd|]. apply fmap_sublist, sublist_filter.
  - eapply sublist_NoDup; [exact Hnd|]. apply fmap_sublist, sublist_filter.
Qed.

Lemma inside_nonempty domain : domain ∈ c_domains config -> inside_zone config domain <> ∅.
Proof using Hwf Hzoned.
  intros [i Hi]%list_elem_of_lookup E. pose proof zoned_labels.
  assert (is_Some (c_members config !! i)) as [m Hm].
  { apply lookup_lt_is_Some. apply lookup_lt_Some in Hi. lia. }
  assert (m ∈ inside_zone config domain) as Hin; [|rewrite E in Hin; set_solver].
  unfold inside_zone. apply elem_of_list_to_set, list_elem_of_fmap. exists (m, domain). split; [done|].
  apply list_elem_of_filter. split; [done|]. apply list_elem_of_lookup. exists i.
  apply lookup_zip_with_Some. by eexists _, _.
Qed.

Lemma judge_domain_ok domain :
  domain ∈ c_domains config ->
  judge_domain config (c_members config) (c_domains config) domain = Done (domain_verdict config domain).
Proof using Hwf Hzoned.
  intros Hd. pose proof (domain_split domain) as Hs. pose proof (inside_nonempty domain Hd) as Hne.
  pose proof (cwf_len _ Hwf). unfold judge_domain. rewrite place_all. cbn [fst snd]. rewrite !(right_id_L ∅ (∪)).
  fold (inside_zone config domain) (outside_zone config domain). rassert_by done.
  rewrite usize_add_ok by lia. rsimpl. rassert_by done.
  rewrite has_phase1_quorum_ok by done. rsimpl. unfold domain_verdict.
  rewrite !has_phase2_quorum_ok by done. fold (commits config (outside_zone config domain)) (commits config (inside_zone config domain)).
  destruct (decide (survives config (outside_zone config domain))) as [[H1 H2]|Hs'].
  - rewrite (bool_decide_eq_true_2 _ H1). rsimpl. rewrite (bool_decide_eq_true_2 _ H2). cbn [negb].
    by case_bool_decide; case_decide.
  - destruct (decide (phase1_holds (c_quorum_system config) (c_members config) (outside_zone config domain) None)) as [H1|H1];
      [rewrite (bool_decide_eq_true_2 _ H1)|by rewrite (bool_decide_eq_false_2 _ H1)].
    rsimpl. rewrite (bool_decide_eq_false_2 (commits config (outside_zone config domain))); [done|].
    intros H2. by apply Hs'.
Qed.

Definition distinct : gset FailureDomain := list_to_set (c_domains config).

(** The verdict: that of the first domain, in order, that breaks the rule. *)
Definition zone_verdict : ZoneRule := default Holds (head (omap (domain_verdict config) (bs_elements distinct))).

Lemma judge_domains_ok l :
  Forall (fun d => d ∈ c_domains config) l ->
  judge_domains config (c_members config) (c_domains config) l = Done (head (omap (domain_verdict config) l)).
Proof using Hwf Hzoned.
  induction 1 as [|d l Hd _ IH]; [done|]. cbn [judge_domains omap list_omap].
  rewrite judge_domain_ok by done. rsimpl. by destruct (domain_verdict config d).
Qed.

Lemma no_verdict_iff l : head (omap (domain_verdict config) l) = None <->
  Forall (fun d => survives config (outside_zone config d) /\ ~ commits config (inside_zone config d)) l.
Proof.
  induction l as [|d l IH]; [done|]. rewrite Forall_cons, <-IH. cbn [omap list_omap].
  unfold domain_verdict at 1. repeat case_decide; simpl; naive_solver.
Qed.

Lemma two_domains :
  (forall d, d ∈ c_domains config -> survives config (outside_zone config d)) -> 2 <= ssize distinct.
Proof using Hwf Hzoned.
  intros Hs. apply bool_decide_eq_true in Hzoned. unfold ssize.
  destruct (c_domains config) as [|d l] eqn:El; [done|].
  assert (d ∈ distinct) as Hd by (unfold distinct; rewrite El; set_solver).
  destruct (decide (size distinct = 0%nat)) as [E|]; [apply size_empty_inv in E; set_solver|].
  destruct (decide (size distinct = 1%nat)) as [E|]; [|lia].
  apply size_1_elem_of in E as [e He]. assert (outside_zone config d = ∅) as Ho.
  { apply set_eq. intros m. split; [|set_solver]. unfold outside_zone.
    intros ([x y] & -> & [Hne Hin]%list_elem_of_filter)%elem_of_list_to_set%list_elem_of_fmap. simpl in Hne.
    apply list_elem_of_lookup in Hin as [i Hi]. apply lookup_zip_with_Some in Hi as (? & ? & [= <- <-] & _ & Hi).
    assert (y ∈ distinct) as Hy by (unfold distinct; apply elem_of_list_to_set, list_elem_of_lookup; by exists i).
    rewrite He, elem_of_singleton in Hd, Hy. congruence. }
  destruct (Hs d) as [H1 _]; [by left|]. rewrite Ho in H1. by eapply phase1_holds_nonempty in H1.
Qed.

Lemma distinct_elements d : d ∈ bs_elements distinct <-> d ∈ c_domains config.
Proof. unfold distinct. by rewrite elem_of_bs_elements, elem_of_list_to_set. Qed.

Lemma zone_rule_ok : zone_rule config = Done zone_verdict.
Proof using Hwf Hzoned.
  unfold zone_rule. rewrite Hzoned. cbn [negb]. pose proof zoned_labels as Hl.
  assert (config_members config = Done (c_members config)) as ->.
  { unfold config_members. rassert_by (eapply admitted_nonempty, Hwf). done. }
  assert (config_domains config = Done (c_domains config)) as Ed.
  { unfold config_domains. by rassert_by apply Hwf. }
  rsimpl. rewrite Ed. rsimpl. rassert_by (unfold len; by rewrite Hl).
  assert (distinct_domains config = Done distinct) as ->.
  { unfold distinct_domains. by rewrite Ed. }
  rsimpl. rewrite judge_domains_ok by (apply Forall_forall; apply distinct_elements). rsimpl.
  unfold zone_verdict. destruct (head _) as [v|] eqn:Eh; [done|]. apply no_verdict_iff in Eh.
  rassert_by (apply two_domains; intros d Hd; rewrite Forall_forall in Eh; by apply Eh, distinct_elements). done.
Qed.
End zone.

(** The zone rule is exact.  On a well-formed labelled configuration no
    assertion of it fires, and it holds exactly when, for every failure domain,
    the members outside it have a Phase-1 and a Phase-2 quorum and those inside
    have no Phase-2 quorum; otherwise the verdict names a domain that breaks it. *)
Theorem zone_rule_exact {I} `{Ord I, !Countable I} (config : AcceptorConfig I) :
  config_wf config -> is_zoned config = true ->
  exists v, zone_rule config = Done v /\
    (v = Holds <-> forall d, d ∈ c_domains config ->
       survives config (outside_zone config d) /\ ~ commits config (inside_zone config d)) /\
    match v with
    | Unlabeled => False
    | Holds => True
    | LosesQuorum d => d ∈ c_domains config /\ ~ survives config (outside_zone config d)
    | CommitsAlone d => d ∈ c_domains config /\ survives config (outside_zone config d) /\ commits config (inside_zone config d)
    end.
Proof.
  intros Hwf Hz. exists (zone_verdict config). split; [by apply zone_rule_ok|]. unfold zone_verdict.
  destruct (head (omap (domain_verdict config) (bs_elements (distinct config)))) as [v|] eqn:Eh.
  - assert (exists d, d ∈ c_domains config /\ domain_verdict config d = Some v) as (d & Hd & Ev).
    { apply head_Some_elem_of, list_elem_of_omap in Eh as (d & Hd & Ev). exists d. by rewrite <-distinct_elements. }
    unfold domain_verdict in Ev. repeat case_decide; simplify_eq/=; (split; [split; [done|by intros Hall; destruct (Hall _ Hd)]|done]).
  - apply no_verdict_iff in Eh. rewrite Forall_forall in Eh. simpl. split; [|done]. split; [|done].
    intros _ d Hd. by apply Eh, distinct_elements.
Qed.

(** What the rule is for.  When it holds, a value a Phase-2 quorum committed
    outlives any one failure domain: the members outside the domain are still a
    quorum for both phases, and one of them voted for the value. *)
Theorem zone_rule_survives {I} `{Ord I, !Countable I} (config : AcceptorConfig I) d voters :
  config_wf config -> zone_rule config = Done Holds -> d ∈ c_domains config ->
  has_phase2_quorum config voters = Done true ->
  has_phase1_quorum config (outside_zone config d) = Done true /\
  has_phase2_quorum config (outside_zone config d) = Done true /\
  exists m, m ∈ c_members config /\ m ∈ voters /\ m ∈ outside_zone config d.
Proof.
  intros Hwf Hz Hd Hv. assert (is_zoned config = true) as Hzo.
  { unfold is_zoned. apply bool_decide_eq_true_2. by intros E; rewrite E in Hd; apply elem_of_nil in Hd. }
  rewrite zone_rule_ok in Hz by done. injection Hz as Hz. unfold zone_verdict in Hz.
  destruct (head _) as [v|] eqn:Eh; simpl in Hz.
  { apply head_Some_elem_of, list_elem_of_omap in Eh as (e & _ & Ev). unfold domain_verdict in Ev.
    repeat case_decide; congruence. }
  apply no_verdict_iff in Eh. rewrite Forall_forall in Eh.
  destruct (Eh d) as [[H1 H2] _]; [by apply distinct_elements|].
  rewrite has_phase1_quorum_ok, has_phase2_quorum_ok by done. rewrite !bool_decide_eq_true_2 by done.
  split_and!; [done..|].
  destruct (config_wf_intersect config (outside_zone config d) voters None None) as (m & ? & ? & ?); [done|..].
  - by destruct (c_quorum_system config).
  - by destruct (c_quorum_system config).
  - rewrite has_phase1_quorum_in_ok by (done || by destruct (c_quorum_system config)). by rewrite bool_decide_eq_true_2.
  - rewrite has_phase2_quorum_ok in Hv by done. injection Hv as Hv%bool_decide_eq_true.
    rewrite has_phase2_quorum_in_ok by (done || by destruct (c_quorum_system config)). by rewrite bool_decide_eq_true_2.
  - by exists m.
Qed.

(** Three acceptors in three zones under a majority. *)
Definition sample_zoned : AcceptorConfig N :=
  mkConfig [0; 1; 2] Majority [mkDomain "r" "a"; mkDomain "r" "b"; mkDomain "r" "c"] 0 0 0.

Lemma sample_zoned_wf : config_wf sample_zoned.
Proof.
  constructor; [apply (bool_decide_unpack _); vm_compute; exact I|apply (bool_decide_unpack _); vm_compute; exact I|done|by right].
Qed.

Lemma zone_rule_exact_witness :
  exists v, zone_rule sample_zoned = Done v /\
    (v = Holds <-> forall d, d ∈ c_domains sample_zoned ->
       survives sample_zoned (outside_zone sample_zoned d) /\ ~ commits sample_zoned (inside_zone sample_zoned d)).
Proof.
  destruct (zone_rule_exact sample_zoned sample_zoned_wf eq_refl) as (v & ? & ? & _). by exists v.
Defined.

Lemma zone_rule_survives_witness :
  exists m, m ∈ c_members sample_zoned /\ m ∈ ({[0; 1]} : gset N) /\ m ∈ outside_zone sample_zoned (mkDomain "r" "a").
Proof.
  refine (proj2 (proj2 (zone_rule_survives sample_zoned (mkDomain "r" "a") {[0; 1]} sample_zoned_wf _ _ _))).
  - vm_compute. reflexivity.
  - by left.
  - vm_compute. reflexivity.
Defined.
