(* ===== verification/QuorumRead.v ===== *)
(** * Quorum reads ([quorum_read.rs])

    A linearizable read that asks one Phase-1 quorum of acceptors for the highest
    slot each voted in, and is served once the replica covers the maximum.  The
    first part is the tally ([QuorumReads]) with its assertions; the second its
    invariant; the last puts readers and voting acceptors together over a lossy
    network and shows that a served index covers every slot chosen before the
    read was opened ([quorum_read_linearizable]). *)

From S2P Require Import Prelude BTree Types Retained Acceptor QuorumSystem AcceptorConfig.

(** ** The tally *)

Inductive PreReadFold := PIgnored | PCounted | PSuperseded.
Inductive ReadStage := Tallying | Confirmed (index : option Slot).

#[export] Instance ReadStage_eq_dec : EqDecision ReadStage.
Proof. solve_decision. Defined.

(** [Iterator::max] over slots. *)
Definition max_slot (l : list Slot) : option Slot := foldr (fun s m => ord_max (Some s) m) None l.

Section reads.
Context {I : Type} `{Ord I, !Countable I}.

Record ReadBasis := mkBasis {
  rb_config : AcceptorConfig I;
  rb_since : Ballot;
  rb_fence : option Slot }.

Record QuorumRead := mkRead {
  qr_ctx : N;
  qr_row : option N;
  qr_config : AcceptorConfig I;
  qr_since : Ballot;
  qr_fence : option Slot;
  qr_watermarks : gmap I (option Slot);
  qr_created : N;
  qr_stage : ReadStage }.

Implicit Types (r : QuorumRead) (reads : list QuorumRead) (from me : I).

(** The accessors that assert. *)
Definition read_ctx r : run N :=
  rassert (config_admits_read_row (qr_config r) (qr_row r) = true) "a read asks a row of its configuration";;
  mret (qr_ctx r).
Definition read_row_of r : run (option N) :=
  rassert (config_admits_read_row (qr_config r) (qr_row r) = true) "a read asks a row of its configuration";;
  mret (qr_row r).
Definition read_config r : run (AcceptorConfig I) :=
  ok ← config_is_well_formed (qr_config r);
  rassert (ok = true) "a read is judged over a well-formed configuration";;
  mret (qr_config r).
Definition read_watermarks r : run (gmap I (option Slot)) :=
  ok ← allM (fun id => config_is_phase1_addressee (qr_config r) id (qr_row r)) (bt_keys (qr_watermarks r));
  rassert (ok = true) "every counted watermark comes from the read's row";;
  mret (qr_watermarks r).

(** The values of the watermarks, in key order. *)
Definition watermarks_of r : list (option Slot) := (bt_entries (qr_watermarks r)).*2.

Definition max_watermark r : run (option Slot) :=
  let max := max_slot (omap id (watermarks_of r)) in
  rassert (Forall (fun w => ord_le w max) (watermarks_of r)) "the read index covers every watermark the row reported";;
  mret max.

Definition confirmed_index r : run (option (option Slot)) :=
  match qr_stage r with
  | Tallying => mret None
  | Confirmed index =>
      max ← max_watermark r;
      rassert (index = max) "a confirmed index is the row's maximum";;
      mret (Some index)
  end.

(** [QuorumReads]: the open reads, in creation order. *)

Fixpoint tokens_once (seen : list N) reads : Prop :=
  match reads with
  | [] => True
  | r :: rest => qr_ctx r ∉ seen /\ tokens_once (seen ++ [qr_ctx r]) rest
  end.

#[export] Instance tokens_once_dec seen reads : Decision (tokens_once seen reads).
Proof. revert seen. induction reads; intros seen; simpl; apply _. Defined.

Definition reads_pending reads : run (list QuorumRead) :=
  rassert (tokens_once [] reads) "a read token is open at most once";;
  mret reads.

Definition reads_is_empty reads : bool := bool_decide (reads = []).

(** [QuorumReads::open]: the reads, and whom to send [PreRead] to. *)
Definition reads_open reads (ctx : N) (row : option N) (basis : ReadBasis) (created_tick : N)
  (own : option (I * option Slot)) : run (list QuorumRead * list I) :=
  let config := rb_config basis in
  rassert (Forall (fun r => qr_ctx r <> ctx) reads) "a quorum read token is opened at most once";;
  rassert (config_admits_read_row config row = true) "a quorum read is opened against a row of its configuration";;
  addressees ← config_phase1_addressees config row;
  '(watermarks, addressees) ←
    match own with
    | Some (me, watermark) =>
        addressee ← config_is_phase1_addressee config me row;
        rassert (addressee = true) "a reader seeds its own watermark only as an addressee of the row";;
        mret ({[ me := watermark ]}, filter (fun id => id <> me) addressees)
    | None => mret (∅, addressees)
    end;
  let open_ := len reads in
  let reads := reads ++ [mkRead ctx row config (rb_since basis) (rb_fence basis) watermarks created_tick Tallying] in
  match own with
  | Some (me, _) => rassert (me ∉ addressees) "a reader never pre-reads itself"
  | None => mret tt
  end;;
  rassert (len reads = open_ + 1) "opening adds exactly one read";;
  mret (reads, addressees).

Definition read_at reads (ctx : N) : option (nat * QuorumRead) := list_find (fun r => qr_ctx r = ctx) reads.

Definition reads_fold reads (ctx : N) from (watermark : option Slot) (config_since : option Ballot)
  : run (list QuorumRead * PreReadFold) :=
  match read_at reads ctx with
  | None => mret (reads, PIgnored)
  | Some (position, r) =>
      addressee ← config_is_phase1_addressee (qr_config r) from (qr_row r);
      if negb addressee then mret (reads, PIgnored) else
      if decide (is_some_and (fun since => qr_since r < since)%B config_since)
      then mret (delete position reads, PSuperseded) else
      if decide (qr_stage r <> Tallying \/ is_Some (qr_watermarks r !! from)) then mret (reads, PIgnored) else
      let r := mkRead (qr_ctx r) (qr_row r) (qr_config r) (qr_since r) (qr_fence r)
                 (<[from := watermark]> (qr_watermarks r)) (qr_created r) (qr_stage r) in
      rassert (qr_watermarks r !! from = Some watermark) "a counted watermark is the one reported";;
      rassert (qr_stage r = Tallying) "only a tallying read counts";;
      mret (<[position := r]> reads, PCounted)
  end.

Definition abandon_superseded reads (config_since : Ballot) : run (list QuorumRead) :=
  let reads := filter (fun r => config_since ≤ qr_since r)%B reads in
  rassert (Forall (fun r => config_since ≤ qr_since r)%B reads)
    "no read opened under a superseded configuration survives";;
  mret reads.

(** What [serve] does to one read: keep it (as it now is), or serve it. *)
Definition serve_one (covered : option Slot -> bool) r : run (QuorumRead + (N * option Slot)) :=
  stage ← match qr_stage r with
          | Tallying =>
              let answered := dom (qr_watermarks r) in
              whole ← has_phase1_quorum_in (qr_config r) answered (qr_row r);
              if negb whole then mret None else
              ok ← allM (fun id => config_is_phase1_addressee (qr_config r) id (qr_row r)) (bs_elements answered);
              rassert (ok = true) "every watermark behind a quorum read comes from the read's row";;
              max ← max_watermark r;
              mret (Some max)
          | Confirmed index => mret (Some index)
          end;
  match stage with
  | None => mret (inl r)
  | Some index =>
      let r := mkRead (qr_ctx r) (qr_row r) (qr_config r) (qr_since r) (qr_fence r)
                 (qr_watermarks r) (qr_created r) (Confirmed index) in
      let index := ord_max index (qr_fence r) in
      rassert (ord_le (qr_fence r) index) "a served read covers its basis's fence";;
      if negb (covered index) then mret (inl r) else mret (inr (qr_ctx r, index))
  end.

Definition serve_step (covered : option Slot -> bool) (acc : list QuorumRead * list (N * option Slot)) r
  : run (list QuorumRead * list (N * option Slot)) :=
  verdict ← serve_one covered r;
  match verdict with
  | inl r => mret (acc.1 ++ [r], acc.2)
  | inr served => mret (acc.1, acc.2 ++ [served])
  end.

Definition reads_serve reads (covered : option Slot -> bool) : run (list QuorumRead * list (N * option Slot)) :=
  '(reads, served) ← foldM (serve_step covered) ([], []) reads;
  rassert (Forall (fun s : N * option Slot => Forall (fun r => qr_ctx r <> s.1) reads) served)
    "a served read is no longer pending";;
  mret (reads, served).

(** [u64::saturating_sub] is subtraction on [N]. *)
Definition reads_expire reads (now ttl : N) : run (list QuorumRead) :=
  let reads := filter (fun r => now - qr_created r <= ttl) reads in
  rassert (Forall (fun r => now - qr_created r <= ttl) reads) "no read outlives its window";;
  rassert (Forall (fun r => qr_created r <= now) reads) "no read was opened in the future";;
  mret reads.

(** ** Rows of a configuration *)

(** Whom a read of a row asks. *)
Definition row_members (config : AcceptorConfig I) (row_ : option N) : list I :=
  match c_quorum_system config, row_ with
  | Grid _ cols _, Some r => row (c_members config) cols r
  | _, _ => c_members config
  end.

Lemma elem_of_row (members : list I) (cols r : N) (m : I) :
  1 <= cols -> sorted_members members ->
  m ∈ row members cols r <-> exists p, position members m = Some p /\ p / cols = r.
Proof.
  intros Hcols Hs. unfold row. split.
  - intros [i Hi]%list_elem_of_lookup. apply lookup_take_Some in Hi as [Hi Hlt]. rewrite lookup_drop in Hi.
    exists (r * cols + N.of_nat i). split.
    + apply position_lookup; [done|]. rewrite <-Hi. f_equal. lia.
    + rewrite N.add_comm, N.div_add by lia. rewrite N.div_small; lia.
  - intros (p & Hp & <-). apply position_lookup in Hp; [|done].
    pose proof (N.div_mod p cols ltac:(lia)) as Hdm. pose proof (N.mod_lt p cols ltac:(lia)).
    apply list_elem_of_lookup. exists (N.to_nat (p mod cols)). apply lookup_take_Some. split; [|lia].
    rewrite lookup_drop, <-Hp. f_equal. lia.
Qed.

Lemma row_members_subset config row_ m : m ∈ row_members config row_ -> m ∈ c_members config.
Proof. unfold row_members. destruct (c_quorum_system config), row_; try done. apply row_subset. Qed.

Section row.
Context (config : AcceptorConfig I) (Hwf : config_wf config).

Lemma row_names row_ : config_admits_read_row config row_ = true -> names_cell (c_quorum_system config) row_.
Proof. unfold config_admits_read_row, admits_read_row. by destruct (c_quorum_system config), row_. Qed.

Lemma config_is_phase1_addressee_ok node row_ :
  config_admits_read_row config row_ = true ->
  config_is_phase1_addressee config node row_ = Done (bool_decide (node ∈ row_members config row_)).
Proof using Hwf.
  intros Hr. unfold config_is_phase1_addressee.
  assert (is_phase1_addressee (c_quorum_system config) (c_members config) node row_ =
          Done (bool_decide (node ∈ row_members config row_))) as ->.
  { unfold is_phase1_addressee. pose proof (position_Some (c_members config) node) as Hpos.
    pose proof (cwf_admitted _ Hwf) as Hadm. pose proof (cwf_sorted _ Hwf) as Hs.
    destruct (position (c_members config) node) as [p|] eqn:Ep.
    - assert (node ∈ c_members config) as Hin by (apply Hpos; by eexists).
      apply row_names in Hr. unfold row_members.
      destruct (c_quorum_system config) as [|q1 q2|rows cols acks]; simpl in Hr;
        [subst row_; rassert_by done; by rewrite bool_decide_eq_true_2..|].
      unfold mret, run_ret. f_equal. apply bool_decide_ext. destruct row_ as [r|]; simpl; [|done].
      destruct Hadm as (_ & Hcols & _). rewrite elem_of_row, Ep by done. naive_solver.
    - unfold mret, run_ret. f_equal. symmetry. apply bool_decide_eq_false_2. intros Hin%row_members_subset.
      by apply Hpos in Hin as [? ?]. }
  rsimpl. case_bool_decide as Hin; [|done]. rewrite config_contains_ok by done. rsimpl.
  rassert_by (by apply bool_decide_eq_true_2, (row_members_subset _ row_)). done.
Qed.

Lemma config_phase1_addressees_ok row_ :
  config_admits_read_row config row_ = true ->
  config_phase1_addressees config row_ = Done (row_members config row_).
Proof using Hwf.
  intros Hr. unfold config_phase1_addressees.
  assert (phase1_addressees (c_quorum_system config) (c_members config) row_ =
          Done (row_members config row_)) as ->.
  { unfold phase1_addressees, row_members, config_admits_read_row, admits_read_row in *.
    pose proof (cwf_admitted _ Hwf) as Hadm. pose proof (cwf_len _ Hwf) as Hlen.
    destruct (c_quorum_system config) as [|q1 q2|rows cols acks], row_ as [r|]; try done;
      [by repeat (rassert_by done)..| |by repeat (rassert_by done)].
    destruct Hadm as (Hrows & Hcols & Hacks & Hm). apply bool_decide_eq_true in Hr as [_ Hr].
    rewrite (grid_row_ok _ rows) by done. rsimpl. rassert_by idtac; [|done].
    rewrite (row_length _ rows) by done. nia. }
  rsimpl. rewrite (allM_ok _ (fun m => m ∈ row_members config row_)).
  - rsimpl. rassert_by (apply bool_decide_eq_true_2, Forall_forall; done). done.
  - intros m _. by apply config_is_phase1_addressee_ok.
Qed.
End row.

(** ** The invariant of a read, and each call under it *)

Definition max_of r : option Slot := max_slot (omap id (watermarks_of r)).

Record read_wf r : Prop := {
  rd_config : config_wf (qr_config r);
  rd_row : config_admits_read_row (qr_config r) (qr_row r) = true;
  rd_members : forall m, is_Some (qr_watermarks r !! m) -> m ∈ row_members (qr_config r) (qr_row r);
  rd_confirmed : forall index, qr_stage r = Confirmed index -> index = max_of r /\
    phase1_holds (c_quorum_system (qr_config r)) (c_members (qr_config r)) (dom (qr_watermarks r)) (qr_row r) }.

Lemma max_slot_ge (l : list Slot) s : s ∈ l -> ord_le (Some s) (max_slot l).
Proof.
  induction 1 as [s l|s x l _ IH]; simpl; [apply ord_max_ge_l|]. eapply ord_le_trans; [exact IH|apply ord_max_ge_r].
Qed.

Lemma max_of_ge r m w : qr_watermarks r !! m = Some w -> ord_le w (max_of r).
Proof.
  intros Hm. destruct w as [s|]; [|done]. apply max_slot_ge, list_elem_of_omap. exists (Some s). split; [|done].
  unfold watermarks_of. apply list_elem_of_fmap. exists (m, Some s). split; [done|]. by apply elem_of_bt_entries.
Qed.

Lemma max_watermark_ok r : max_watermark r = Done (max_of r).
Proof.
  unfold max_watermark. rassert_by idtac; [|done]. apply Forall_forall. unfold watermarks_of.
  intros w ([m w'] & -> & Hin%elem_of_bt_entries)%list_elem_of_fmap. by eapply max_of_ge.
Qed.

(** The index a read is served at. *)
Definition served_index r : option Slot := ord_max (max_of r) (qr_fence r).
Definition whole r : Prop :=
  phase1_holds (c_quorum_system (qr_config r)) (c_members (qr_config r)) (dom (qr_watermarks r)) (qr_row r).

(** A read with its stage moved on. *)
Definition same_read r r' : Prop :=
  qr_ctx r' = qr_ctx r /\ qr_row r' = qr_row r /\ qr_config r' = qr_config r /\ qr_since r' = qr_since r /\
  qr_fence r' = qr_fence r /\ qr_watermarks r' = qr_watermarks r /\ qr_created r' = qr_created r.

Lemma serve_one_ok covered r :
  read_wf r ->
  exists v, serve_one covered r = Done v /\
    match v with
    | inl r' => same_read r r' /\ read_wf r'
    | inr (ctx, index) => ctx = qr_ctx r /\ index = served_index r /\ whole r /\ covered index = true
    end.
Proof.
  intros Hwf. pose proof Hwf as [Hc Hrow Hm Hconf]. unfold serve_one.
  assert (exists stage, match qr_stage r with
    | Tallying =>
        whole ← has_phase1_quorum_in (qr_config r) (dom (qr_watermarks r)) (qr_row r);
        if negb whole then mret None else
        ok ← allM (fun id => config_is_phase1_addressee (qr_config r) id (qr_row r)) (bs_elements (dom (qr_watermarks r)));
        rassert (ok = true) "every watermark behind a quorum read comes from the read's row";;
        max ← max_watermark r;
        mret (Some max)
    | Confirmed index => mret (Some index)
    end = Done stage /\ (stage = None \/ stage = Some (max_of r) /\ whole r)) as (stage & -> & Hst).
  { destruct (qr_stage r) as [|index] eqn:Es.
    - rewrite has_phase1_quorum_in_ok by (done || by apply row_names). rsimpl.
      case_bool_decide as Hq; cbn [negb]; [|eexists; split; [done|by left]].
      rewrite (allM_ok _ (fun id => id ∈ row_members (qr_config r) (qr_row r)))
        by (intros; by apply config_is_phase1_addressee_ok).
      rsimpl. rewrite rassert_true.
      + rsimpl. rewrite max_watermark_ok. rsimpl. eexists. split; [done|]. by right.
      + apply bool_decide_eq_true_2, Forall_forall. intros m Hin%elem_of_bs_elements%elem_of_dom. by apply Hm.
    - destruct (Hconf index eq_refl) as [-> ?]. eexists. split; [done|]. by right. }
  rsimpl. destruct Hst as [->|[-> Hw]].
  { eexists. split; [done|]. done. }
  cbn [qr_fence qr_ctx]. rewrite rassert_true by apply ord_max_ge_r. rsimpl. fold (served_index r).
  destruct (covered (served_index r)) eqn:Ec; cbn [negb]; eexists; (split; [done|]); [done|].
  split; [done|]. constructor; try done. simpl. by intros index [= <-].
Qed.

Lemma reads_serve_ok covered reads :
  Forall read_wf reads -> NoDup (qr_ctx <$> reads) ->
  exists kept served, reads_serve reads covered = Done (kept, served) /\
    Forall (fun r' => read_wf r' /\ exists r, r ∈ reads /\ same_read r r') kept /\
    Forall (fun s => exists r, r ∈ reads /\ s = (qr_ctx r, served_index r) /\ whole r /\ covered s.2 = true) served /\
    NoDup ((qr_ctx <$> kept) ++ served.*1).
Proof.
  intros Hwf Hnd.
  assert (forall l (acc : list QuorumRead * list (N * option Slot)), Forall read_wf l -> exists kept served,
    foldM (serve_step covered) acc l = Done (acc.1 ++ kept, acc.2 ++ served) /\
    Forall (fun r' => read_wf r' /\ exists r, r ∈ l /\ same_read r r') kept /\
    Forall (fun s => exists r, r ∈ l /\ s = (qr_ctx r, served_index r) /\ whole r /\ covered s.2 = true) served /\
    (qr_ctx <$> kept) ++ served.*1 ≡ₚ qr_ctx <$> l) as Hfold.
  { induction l as [|r l IH]; intros [kept served] Hl; simpl.
    - exists [], []. by rewrite !app_nil_r.
    - apply Forall_cons in Hl as [Hr Hl]. destruct (serve_one_ok covered r Hr) as (v & Ev & Hv).
      unfold serve_step at 2. rewrite Ev. rsimpl. cbn [fst snd].
      assert (forall (P : QuorumRead -> Prop), (exists r0, r0 ∈ l /\ P r0) -> exists r0, r0 ∈ r :: l /\ P r0) as Hweak.
      { intros P (r0 & Hr0 & HP). exists r0. split; [by right|done]. }
      destruct v as [r'|[ctx index]].
      + rsimpl. destruct (IH (kept ++ [r'], served) Hl) as (k & s & -> & Hk & Hs & Hp). cbn [fst snd].
        exists (r' :: k), s. split; [by rewrite <-app_assoc|]. split_and!.
        * constructor; [split; [tauto|]; exists r; split; [by left|tauto]|].
          eapply Forall_impl; [exact Hk|]. intros x [? ?]. split; [done|by apply Hweak].
        * eapply Forall_impl; [exact Hs|]. intros x ?. by apply Hweak.
        * simpl. rewrite Hp. destruct Hv as [(-> & _) _]. done.
      + rsimpl. destruct (IH (kept, served ++ [(ctx, index)]) Hl) as (k & s & -> & Hk & Hs & Hp). cbn [fst snd].
        exists k, ((ctx, index) :: s). split; [by rewrite <-app_assoc|]. split_and!.
        * eapply Forall_impl; [exact Hk|]. intros x [? ?]. split; [done|by apply Hweak].
        * constructor; [exists r; split; [by left|]; destruct Hv as (-> & -> & ? & ?); done|].
          eapply Forall_impl; [exact Hs|]. intros x ?. by apply Hweak.
        * simpl. rewrite <-Permutation_middle, Hp. by destruct Hv as (-> & _). }
  destruct (Hfold reads ([], []) Hwf) as (kept & served & E & Hk & Hs & Hp). exists kept, served.
  unfold reads_serve. rewrite E. cbn [fst snd app]. rsimpl. rewrite <-Hp in Hnd. split; [|by split_and!].
  rassert_by idtac; [|done]. apply NoDup_app in Hnd as (_ & Hdis & _).
  apply Forall_forall. intros s Hin. apply Forall_forall. intros r Hr E'.
  apply (Hdis (qr_ctx r)); [apply list_elem_of_fmap; by exists r|]. rewrite E'. apply list_elem_of_fmap. by exists s.
Qed.

Definition fresh_read ctx row_ basis now (own : option (I * option Slot)) : QuorumRead :=
  mkRead ctx row_ (rb_config basis) (rb_since basis) (rb_fence basis)
    (match own with Some (me, watermark) => {[ me := watermark ]} | None => ∅ end) now Tallying.

Lemma reads_open_ok reads ctx row_ basis now own :
  ctx ∉ (qr_ctx <$> reads) -> config_wf (rb_config basis) -> config_admits_read_row (rb_config basis) row_ = true ->
  is_none_or (fun o : I * option Slot => o.1 ∈ row_members (rb_config basis) row_) own ->
  exists addressees, reads_open reads ctx row_ basis now own =
    Done (reads ++ [fresh_read ctx row_ basis now own], addressees) /\ read_wf (fresh_read ctx row_ basis now own).
Proof.
  intros Hctx Hc Hrow Hown. unfold reads_open.
  rewrite (rassert_true (Forall _ _)) by (apply Forall_forall; intros r Hr E; apply Hctx, list_elem_of_fmap; by exists r). rsimpl.
  rewrite (rassert_true (config_admits_read_row _ _ = true)) by done. rsimpl.
  rewrite config_phase1_addressees_ok by done. rsimpl.
  assert (read_wf (fresh_read ctx row_ basis now own)) as Hwf.
  { constructor; simpl; try done. intros m [w Hm]. destruct own as [[me w']|]; [|done]. simpl in Hown.
    by apply lookup_singleton_Some in Hm as [<- _]. }
  destruct own as [[me w]|].
  - rewrite config_is_phase1_addressee_ok by done. rsimpl.
    rewrite (rassert_true (bool_decide _ = true)) by by apply bool_decide_eq_true_2. rsimpl.
    rewrite (rassert_true (me ∉ _)) by (rewrite list_elem_of_filter; tauto). rsimpl.
    rewrite rassert_true by (unfold len; rewrite length_app; simpl; lia). rsimpl. by eexists.
  - rsimpl. rewrite rassert_true by (unfold len; rewrite length_app; simpl; lia). rsimpl. by eexists.
Qed.

(** A read with one more watermark. *)
Definition counted_read r from (watermark : option Slot) : QuorumRead :=
  mkRead (qr_ctx r) (qr_row r) (qr_config r) (qr_since r) (qr_fence r)
    (<[from := watermark]> (qr_watermarks r)) (qr_created r) (qr_stage r).

Lemma reads_fold_ok reads ctx from watermark config_since :
  Forall read_wf reads -> exists reads' fold,
    reads_fold reads ctx from watermark config_since = Done (reads', fold) /\
    (reads' = reads \/ (exists i, reads' = delete i reads) \/
     exists i r, reads !! i = Some r /\ qr_ctx r = ctx /\ read_wf (counted_read r from watermark) /\
       qr_watermarks r !! from = None /\ reads' = <[i := counted_read r from watermark]> reads).
Proof.
  intros Hwf. unfold reads_fold, read_at.
  destruct (list_find _ reads) as [[i r]|] eqn:Ef; [|eexists _, _; split; [done|by left]].
  apply list_find_Some in Ef as (Hi & Ec & _). assert (read_wf r) as Hr.
  { rewrite Forall_forall in Hwf. by apply Hwf, (list_elem_of_lookup_2 _ i). }
  pose proof Hr as [Hc Hrow Hm Hconf]. rewrite config_is_phase1_addressee_ok by done. rsimpl.
  case_bool_decide as Hin; cbn [negb]; [|eexists _, _; split; [done|by left]].
  case_decide; [eexists _, _; split; [done|]; right; left; by exists i|].
  case_decide as Hskip; [eexists _, _; split; [done|by left]|].
  fold (counted_read r from watermark). rewrite (rassert_true (_ !! _ = _)) by (simpl; apply lookup_insert_eq). rsimpl.
  assert (qr_stage r = Tallying) as Es by (apply dec_stable; tauto).
  rewrite rassert_true by done. rsimpl. eexists _, _. split; [done|]. right; right. exists i, r.
  split_and!; try done.
  - constructor; simpl; try done.
    + intros m Hs. destruct (decide (m = from)) as [->|]; [done|]. rewrite lookup_insert_ne in Hs by done. by apply Hm.
    + rewrite Es. done.
  - apply eq_None_not_Some. tauto.
Qed.

Lemma abandon_superseded_ok reads since :
  abandon_superseded reads since = Done (filter (fun r => since ≤ qr_since r)%B reads).
Proof. unfold abandon_superseded. rassert_by idtac; [|done]. apply Forall_forall. intros r. rewrite list_elem_of_filter. tauto. Qed.

Lemma reads_expire_ok reads now ttl :
  Forall (fun r => qr_created r <= now) reads ->
  reads_expire reads now ttl = Done (filter (fun r => now - qr_created r <= ttl) reads).
Proof.
  intros Hc. rewrite Forall_forall in Hc. unfold reads_expire. rassert_by idtac; [|rassert_by idtac; [|done]];
    apply Forall_forall; intros r [? ?]%list_elem_of_filter; [done|by apply Hc].
Qed.

(** ** Readers among voting acceptors

    [rw_votes] is every vote cast so far; a read remembers the votes cast when it
    was opened ([rw_open]).  A [PreRead] is answered after the read was opened,
    with the acceptor's vote watermark, which covers its votes. *)

Record ReadWorld := mkReadWorld {
  rw_reads : list QuorumRead;
  rw_votes : gset (I * Slot);
  rw_acks : list (N * I * option Slot * option Ballot);
  rw_open : gmap N (gset (I * Slot) * ReadBasis);
  rw_now : N;
  rw_served : list (N * option Slot) }.

Inductive ReadLabel :=
| RVote (m : I) (s : Slot)
| ROpen (ctx : N) (row_ : option N) (basis : ReadBasis) (own : option (I * option Slot))
| RAnswer (ctx : N) (m : I) (watermark : option Slot) (since : option Ballot)
| RAck (ctx : N) (m : I) (watermark : option Slot) (since : option Ballot)
| RServe (covered : option Slot -> bool)
| RAbandon (since : Ballot)
| RTick
| RExpire (ttl : N).

Implicit Types w : ReadWorld.

Definition read_happens w (l : ReadLabel) : run ReadWorld :=
  match l with
  | RVote m s => mret (mkReadWorld (rw_reads w) ({[ (m, s) ]} ∪ rw_votes w) (rw_acks w) (rw_open w) (rw_now w) (rw_served w))
  | ROpen ctx row_ basis own =>
      '(reads, _) ← reads_open (rw_reads w) ctx row_ basis (rw_now w) own;
      mret (mkReadWorld reads (rw_votes w) (rw_acks w) (<[ctx := (rw_votes w, basis)]> (rw_open w)) (rw_now w) (rw_served w))
  | RAnswer ctx m watermark since =>
      mret (mkReadWorld (rw_reads w) (rw_votes w) (rw_acks w ++ [(ctx, m, watermark, since)]) (rw_open w) (rw_now w) (rw_served w))
  | RAck ctx m watermark since =>
      '(reads, _) ← reads_fold (rw_reads w) ctx m watermark since;
      mret (mkReadWorld reads (rw_votes w) (rw_acks w) (rw_open w) (rw_now w) (rw_served w))
  | RServe covered =>
      '(reads, served) ← reads_serve (rw_reads w) covered;
      mret (mkReadWorld reads (rw_votes w) (rw_acks w) (rw_open w) (rw_now w) (rw_served w ++ served))
  | RAbandon since =>
      reads ← abandon_superseded (rw_reads w) since;
      mret (mkReadWorld reads (rw_votes w) (rw_acks w) (rw_open w) (rw_now w) (rw_served w))
  | RTick => mret (mkReadWorld (rw_reads w) (rw_votes w) (rw_acks w) (rw_open w) (rw_now w + 1) (rw_served w))
  | RExpire ttl =>
      reads ← reads_expire (rw_reads w) (rw_now w) ttl;
      mret (mkReadWorld reads (rw_votes w) (rw_acks w) (rw_open w) (rw_now w) (rw_served w))
  end.

(** A watermark covers the votes of its acceptor. *)
Definition reports (votes : gset (I * Slot)) (m : I) (watermark : option Slot) : Prop :=
  forall s, (m, s) ∈ votes -> ord_le (Some s) watermark.

(** A token is opened once, over a well-formed configuration and one of its rows;
    a reader seeds its own watermark from inside the row; an answer follows its
    read; an ack was sent. *)
Definition read_enabled w (l : ReadLabel) : Prop :=
  match l with
  | RVote _ _ | RServe _ | RAbandon _ | RTick | RExpire _ => True
  | ROpen ctx row_ basis own =>
      rw_open w !! ctx = None /\ config_wf (rb_config basis) /\ config_admits_read_row (rb_config basis) row_ = true /\
      is_none_or (fun o : I * option Slot =>
        o.1 ∈ row_members (rb_config basis) row_ /\ reports (rw_votes w) o.1 o.2) own
  | RAnswer ctx m watermark _ => is_Some (rw_open w !! ctx) /\ reports (rw_votes w) m watermark
  | RAck ctx m watermark since => (ctx, m, watermark, since) ∈ rw_acks w
  end.

Inductive read_reachable : ReadWorld -> Prop :=
| read_start : read_reachable (mkReadWorld [] ∅ [] ∅ 0 [])
| read_next w l w' : read_reachable w -> read_enabled w l -> read_happens w l = Done w' -> read_reachable w'.

(** Who voted in a slot; a slot a Phase-2 quorum of some column voted in. *)
Definition voters_of (votes : gset (I * Slot)) (s : Slot) : gset I :=
  list_to_set (filter (fun v => v.2 = s) (elements votes)).*1.
Definition chosen_in (config : AcceptorConfig I) (votes : gset (I * Slot)) (s : Slot) : Prop :=
  exists c, names_cell (c_quorum_system config) c /\
    has_phase2_quorum_in config (voters_of votes s) c = Done true.

(** ** The invariant of the run *)

(** A read's watermarks cover the votes cast when it was opened. *)
Definition tracked_read (opened : gmap N (gset (I * Slot) * ReadBasis)) (now : N) r : Prop :=
  read_wf r /\ qr_created r <= now /\
  exists votes basis, opened !! qr_ctx r = Some (votes, basis) /\ rb_config basis = qr_config r /\
    rb_fence basis = qr_fence r /\ forall m watermark, qr_watermarks r !! m = Some watermark -> reports votes m watermark.

Definition served_well (opened : gmap N (gset (I * Slot) * ReadBasis)) (served : N * option Slot) : Prop :=
  exists votes basis, opened !! served.1 = Some (votes, basis) /\ ord_le (rb_fence basis) served.2 /\
    forall s, chosen_in (rb_config basis) votes s -> ord_le (Some s) served.2.

Record read_inv w : Prop := {
  ri_reads : Forall (tracked_read (rw_open w) (rw_now w)) (rw_reads w);
  ri_once : NoDup ((qr_ctx <$> rw_reads w) ++ (rw_served w).*1);
  ri_open : forall ctx votes basis, rw_open w !! ctx = Some (votes, basis) -> votes ⊆ rw_votes w;
  ri_acks : Forall (fun a : N * I * option Slot * option Ballot =>
    exists votes basis, rw_open w !! a.1.1.1 = Some (votes, basis) /\ reports votes a.1.1.2 a.1.2) (rw_acks w);
  ri_served : Forall (served_well (rw_open w)) (rw_served w) }.

Lemma elem_of_voters votes s m : m ∈ voters_of votes s <-> (m, s) ∈ votes.
Proof.
  unfold voters_of. rewrite elem_of_list_to_set, list_elem_of_fmap. split.
  - intros ([m' s'] & -> & [E Hin]%list_elem_of_filter). simpl in E. subst. by apply elem_of_elements.
  - intros Hin. exists (m, s). split; [done|]. apply list_elem_of_filter. split; [done|]. by apply elem_of_elements.
Qed.

(** The row meets every quorum that chose a slot. *)
Lemma served_covers opened now r :
  tracked_read opened now r -> whole r -> served_well opened (qr_ctx r, served_index r).
Proof.
  intros (Hwf & _ & votes & basis & Ho & Hc & Hf & Hrep) Hw. exists votes, basis. split; [done|].
  rewrite Hc, Hf. split; [apply ord_max_ge_r|]. simpl. intros s (c & Hcell & Hq). pose proof Hwf as [Hcw Hrow _ _].
  rewrite has_phase2_quorum_in_ok in Hq by done. injection Hq as Hq%bool_decide_eq_true.
  destruct (holds_intersect _ _ _ _ _ _ (cwf_admitted _ Hcw) Hw Hq) as (m & _ & [x Hx]%elem_of_dom & Hv%elem_of_voters).
  eapply ord_le_trans; [by eapply Hrep|]. eapply ord_le_trans; [by eapply max_of_ge|apply ord_max_ge_l].
Qed.

Lemma tracked_weaken opened opened' now now' r :
  tracked_read opened now r -> now <= now' ->
  (forall x, opened !! qr_ctx r = Some x -> opened' !! qr_ctx r = Some x) -> tracked_read opened' now' r.
Proof. intros (? & ? & votes & basis & Ho & ?) Hn Hi. split; [done|]. split; [lia|]. exists votes, basis. by rewrite (Hi _ Ho). Qed.

Definition with_reads w reads : ReadWorld :=
  mkReadWorld reads (rw_votes w) (rw_acks w) (rw_open w) (rw_now w) (rw_served w).

(** Dropping reads keeps the invariant. *)
Lemma read_inv_drop w reads :
  read_inv w -> reads `sublist_of` rw_reads w -> read_inv (with_reads w reads).
Proof.
  intros [] Hs. constructor; simpl; try done.
  - rewrite Forall_forall in *. intros r Hr. apply ri_reads0. by eapply elem_of_sublist.
  - eapply sublist_NoDup; [exact ri_once0|]. apply sublist_app; [by apply fmap_sublist|done].
Qed.

Lemma read_inv_wf w : read_inv w -> Forall read_wf (rw_reads w).
Proof. intros []. eapply Forall_impl; [exact ri_reads0|]. by intros r []. Qed.

Lemma opened_ctx w r : read_inv w -> r ∈ rw_reads w -> is_Some (rw_open w !! qr_ctx r).
Proof.
  intros [] Hr. rewrite Forall_forall in ri_reads0. destruct (ri_reads0 _ Hr) as (_ & _ & v & b & -> & _). by eexists.
Qed.

Lemma read_open_inv w ctx row_ basis own :
  read_inv w -> read_enabled w (ROpen ctx row_ basis own) ->
  exists w', read_happens w (ROpen ctx row_ basis own) = Done w' /\ read_inv w'.
Proof.
  intros Hinv (Hnew & Hc & Hrow & Hown). pose proof Hinv as [Hreads Honce Hopen Hacks Hserved].
  assert (forall r, r ∈ rw_reads w -> qr_ctx r <> ctx) as Hfresh.
  { intros r Hr <-. apply (opened_ctx _ _ Hinv) in Hr as [? ?]. congruence. }
  assert (ctx ∉ (rw_served w).*1) as Hfresh'.
  { intros (s & -> & Hs)%list_elem_of_fmap. rewrite Forall_forall in Hserved. destruct (Hserved _ Hs) as (? & ? & ? & _). congruence. }
  destruct (reads_open_ok (rw_reads w) ctx row_ basis (rw_now w) own) as (addressees & E & Hwf); [|done..| |].
  { intros (r & E & Hr)%list_elem_of_fmap. by apply (Hfresh r). }
  { destruct own as [[me wm]|]; [|done]. by destruct Hown. }
  simpl. rewrite E. rsimpl. eexists. split; [done|]. constructor; simpl.
  - apply Forall_app. split.
    + rewrite Forall_forall in Hreads |- *. intros r Hr. eapply tracked_weaken; [by apply Hreads|lia|].
      intros x Hx. rewrite lookup_insert_ne; [done|]. intros E'. by apply (Hfresh r Hr).
    + apply Forall_singleton. split; [done|]. split; [done|]. exists (rw_votes w), basis. simpl. rewrite lookup_insert_eq.
      split_and!; try done. intros m watermark Hm. destruct own as [[me wm]|]; [|done].
      apply lookup_singleton_Some in Hm as [<- <-]. by destruct Hown.
  - rewrite fmap_app. simpl. rewrite <-app_assoc. simpl. rewrite <-Permutation_middle. apply NoDup_cons. split; [|done].
    rewrite elem_of_app. intros [(r & E' & Hr)%list_elem_of_fmap|?]; [by apply (Hfresh r)|done].
  - intros c votes b [[-> [= <- <-]]|[? Hx]]%lookup_insert_Some; [done|]. by eapply Hopen.
  - eapply Forall_impl; [exact Hacks|]. intros a (votes & b & Ho & ?). exists votes, b. split; [|done].
    rewrite lookup_insert_ne; [done|]. congruence.
  - eapply Forall_impl; [exact Hserved|]. intros a (votes & b & Ho & ?). exists votes, b. split; [|done].
    rewrite lookup_insert_ne; [done|]. congruence.
Qed.

Lemma read_ack_inv w ctx m watermark since :
  read_inv w -> read_enabled w (RAck ctx m watermark since) ->
  exists w', read_happens w (RAck ctx m watermark since) = Done w' /\ read_inv w'.
Proof.
  intros Hinv Hack. simpl in *. pose proof Hinv as [Hreads Honce Hopen Hacks Hserved].
  destruct (reads_fold_ok (rw_reads w) ctx m watermark since (read_inv_wf _ Hinv)) as (reads & fold & -> & Hcase).
  rsimpl. eexists. split; [done|]. fold (with_reads w reads). destruct Hcase as [->|[[i ->]|(i & r & Hi & Ec & Hwf & Hnone & ->)]].
  - by apply read_inv_drop.
  - apply read_inv_drop; [done|]. apply sublist_delete.
  - rewrite Forall_forall in Hacks. destruct (Hacks _ Hack) as (votes & basis & Ho & Hrep). simpl in Ho, Hrep.
    constructor; simpl; try done.
    + apply Forall_insert; [done|]. rewrite Forall_lookup in Hreads. destruct (Hreads _ _ Hi) as (_ & Hcr & v & b & Hv & ? & ? & Hw).
      split; [done|]. split; [done|]. exists v, b. simpl. split_and!; try done.
      intros x y [[<- <-]|[? Hx]]%lookup_insert_Some; [|by eapply Hw]. rewrite Ec, Ho in Hv. by injection Hv as <- <-.
    + rewrite list_fmap_insert, list_insert_id; [done|]. rewrite list_lookup_fmap, Hi. done.
    + by rewrite Forall_forall.
Qed.

Lemma read_serve_inv w covered :
  read_inv w -> exists w', read_happens w (RServe covered) = Done w' /\ read_inv w'.
Proof.
  intros Hinv. simpl. pose proof Hinv as [Hreads Honce Hopen Hacks Hserved].
  pose proof Honce as (Hnd & Hdis & Hnd')%NoDup_app.
  destruct (reads_serve_ok covered (rw_reads w) (read_inv_wf _ Hinv) Hnd) as (kept & served & -> & Hk & Hs & Hp). rsimpl.
  eexists. split; [done|]. rewrite Forall_forall in Hreads. rewrite Forall_forall in Hk. rewrite Forall_forall in Hs. constructor; simpl; try done.
  - apply Forall_forall. intros r' Hr'. destruct (Hk _ Hr') as (Hwf & r & Hr & (E1 & E2 & E3 & E4 & E5 & E6 & E7)).
    destruct (Hreads _ Hr) as (_ & Hcr & v & b & Ho & ? & ? & Hw). split; [done|]. split; [by rewrite E7|].
    exists v, b. rewrite E1, E3, E5, E6. done.
  - rewrite fmap_app, (Permutation_app_comm (rw_served w).*1), app_assoc. apply NoDup_app. split_and!; [done| |done].
    intros c Hc. apply Hdis. apply elem_of_app in Hc as [(r' & -> & Hr')%list_elem_of_fmap|(s & -> & Hsn)%list_elem_of_fmap].
    + destruct (Hk _ Hr') as (_ & r & Hr & (-> & _)). apply list_elem_of_fmap. by exists r.
    + destruct (Hs _ Hsn) as (r & Hr & -> & _). apply list_elem_of_fmap. by exists r.
  - apply Forall_app. split; [done|]. apply Forall_forall. intros s Hsn. destruct (Hs _ Hsn) as (r & Hr & -> & Hw & _).
    eapply served_covers; [by apply Hreads|done].
Qed.

Lemma read_step_inv w l : read_inv w -> read_enabled w l -> exists w', read_happens w l = Done w' /\ read_inv w'.
Proof.
  intros Hinv Hen. pose proof Hinv as [Hreads Honce Hopen Hacks Hserved]. destruct l.
  - eexists. split; [done|]. constructor; simpl; try done. intros ? ? ? Ho%Hopen. set_solver.
  - by apply read_open_inv.
  - eexists. split; [done|]. constructor; simpl; try done. apply Forall_app. split; [done|]. apply Forall_singleton.
    destruct Hen as [[[votes basis] Ho] Hrep]. exists votes, basis. split; [done|]. simpl.
    intros s Hs. apply Hrep. by apply (Hopen _ _ _ Ho).
  - by apply read_ack_inv.
  - by apply read_serve_inv.
  - simpl. rewrite abandon_superseded_ok. rsimpl. eexists. split; [done|].
    apply (read_inv_drop w); [done|apply sublist_filter].
  - eexists. split; [done|]. constructor; simpl; try done. eapply Forall_impl; [exact Hreads|]. intros r Hr.
    eapply tracked_weaken; [done|lia|done].
  - simpl. rewrite reads_expire_ok by (eapply Forall_impl; [exact Hreads|]; by intros r (_ & ? & _)). rsimpl.
    eexists. split; [done|]. apply (read_inv_drop w); [done|apply sublist_filter].
Qed.

Lemma read_reachable_inv w : read_reachable w -> read_inv w.
Proof.
  induction 1 as [|w l w' _ IH Hen E].
  - constructor; simpl; try constructor; try done.
  - destruct (read_step_inv _ _ IH Hen) as (w2 & E2 & Hinv). congruence.
Qed.
End reads.

(** What a run relies on of an acceptor's answer: [vote_watermark] covers every
    vote the acceptor holds, readable or rotted, and every slot below its floor. *)
Lemma vote_watermark_reports {V} `{EqDecision V} (a : Acceptor V) watermark floor s :
  vote_watermark a = Done watermark -> first_slot a = Done floor ->
  is_Some (w_entries (a_records a) !! s) \/ is_Some (w_entries (a_faulty a) !! s) \/ s < floor ->
  ord_le (Some s) watermark.
Proof.
  assert (forall U (entries : gmap Slot U) (k : option Slot), is_Some (entries !! s) -> ord_le (last_key_of entries) k ->
    ord_le (Some s) k) as Hlast.
  { intros U entries k Hs Hk. eapply ord_le_trans; [|exact Hk]. destruct (last_key_of entries) eqn:El.
    - apply last_key_of_Some in El as [_ Hall]. by apply Hall.
    - apply last_key_of_None in El as ->. by destruct Hs. }
  unfold vote_watermark, window_last_key. intros Hw Hf. rewrite Hf in Hw. rinv Hw. rsimpl.
  rinv E0. rinv E1. injection E0 as <-. injection E1 as <-. injection Hw as <-.
  intros [Hs|[Hs|Hs]]; [by eapply Hlast..|]. simpl in E. injection E as <-.
  eapply ord_le_trans; [|done]. unfold u64_checked_sub. rewrite decide_True by lia. apply N.lt_le_pred in Hs. ord_N. lia.
Qed.

Section theorems.
Context {I : Type} `{Ord I, !Countable I}.
Implicit Types w : ReadWorld (I:=I).

(** C27: quorum reads are linearizable.  In any run of readers and voting
    acceptors, with lost, repeated and reordered answers, superseded
    configurations and expiring reads, a read is served at most once, at an index
    that covers its basis's fence and every slot a Phase-2 quorum of its
    configuration had voted in when the read was opened. *)
Theorem quorum_read_linearizable w ctx index :
  read_reachable w -> (ctx, index) ∈ rw_served w ->
  (exists votes basis, rw_open w !! ctx = Some (votes, basis) /\ ord_le (rb_fence basis) index /\
     forall s, chosen_in (rb_config basis) votes s -> ord_le (Some s) index) /\
  NoDup (rw_served w).*1.
Proof.
  intros [_ Honce _ _ Hserved]%read_reachable_inv Hin. split.
  - rewrite Forall_forall in Hserved. apply (Hserved _ Hin).
  - by apply NoDup_app in Honce as (_ & _ & ?).
Qed.

(** No assertion of the quorum-read tally fires in any run of readers and
    acceptors, whatever happens next. *)
Theorem quorum_reads_never_panic w l :
  read_reachable w -> read_enabled w l -> exists w', read_happens w l = Done w'.
Proof. intros Hr%read_reachable_inv Hen. destruct (read_step_inv _ _ Hr Hen) as (w' & ? & _). by exists w'. Qed.
End theorems.

(** Two of three acceptors vote in slot 5; a reader then asks a majority. *)
Definition sample_basis : ReadBasis (I:=N) := mkBasis (mkConfig [0; 1; 2] Majority [] 0 0 0) zero (Some 2).
Lemma sample_basis_wf : config_wf (rb_config sample_basis).
Proof. constructor; [apply (bool_decide_unpack _); vm_compute; exact I..|done|by left]. Qed.

#[export] Instance reports_dec {I} `{Ord I, !Countable I} (votes : gset (I * Slot)) m watermark :
  Decision (reports votes m watermark).
Proof.
  refine (cast_if (decide (Forall (fun v => v.1 = m -> ord_le (Some v.2) watermark) (elements votes)))).
  - intros s Hs. rewrite Forall_forall in f. apply (f (m, s)); [by apply elem_of_elements|done].
  - intros Hr. apply n, Forall_forall. intros [x s] Hin%elem_of_elements. simpl. intros ->. by apply Hr.
Defined.

(** The world after a label, and a run extended by it, [tac] proving that it may
    happen. *)
Definition read_after {I} `{Ord I, !Countable I} (w : ReadWorld (I:=I)) (l : ReadLabel (I:=I)) : ReadWorld (I:=I) :=
  match read_happens w l with Done w' => w' | Panic _ => w end.
Tactic Notation "read_next_by" constr(l) tactic(tac) :=
  match goal with
  | Hw : read_reachable ?w |- _ =>
      let Hen := fresh in let E := fresh in
      assert (read_enabled w l) as Hen by tac;
      assert (read_happens w l = Done (read_after w l)) as E by (vm_compute; reflexivity);
      apply (read_next w l _ Hw Hen) in E; clear Hw Hen; rename E into Hw
  end.
Ltac by_compute := apply (bool_decide_unpack _); vm_compute; exact I.

Lemma sample_read_reached :
  exists w, read_reachable w /\ (7, Some 6) ∈ rw_served w /\
    rw_open w !! 7 = Some ({[ (1, 5); (0, 5) ]}, sample_basis).
Proof.
  pose proof (read_start (I:=N)) as Hw.
  read_next_by (RVote 0 5) exact I.
  read_next_by (RVote 1 5) exact I.
  read_next_by (ROpen 7 None sample_basis (Some (0, Some 5)))
    (split_and!; [reflexivity|exact sample_basis_wf|reflexivity|split; [by left|by_compute]]).
  read_next_by (RVote 2 6) exact I.
  read_next_by (RAnswer 7 2 (Some 6) None) (split; [by eexists|by_compute]).
  read_next_by (RAck 7 2 (Some 6) None) by left.
  read_next_by (RServe (I:=N) (fun index => bool_decide (ord_le index (Some 9)))) exact I.
  eexists. split; [eassumption|]. split; [by left|vm_compute; reflexivity].
Qed.

Lemma quorum_read_linearizable_witness : ord_le (Some 5) (Some 6).
Proof.
  destruct sample_read_reached as (w & Hr & Hs & Ho).
  destruct (quorum_read_linearizable w 7 (Some 6) Hr Hs) as [(votes & basis & E & _ & Hall) _].
  rewrite Ho in E. injection E as <- <-. apply Hall. exists None. split; [reflexivity|vm_compute; reflexivity].
Defined.

Lemma quorum_reads_never_panic_witness :
  exists w', read_happens (mkReadWorld [] ∅ [] ∅ 0 []) (ROpen 7 None sample_basis None) = Done w'.
Proof.
  apply quorum_reads_never_panic; [apply read_start|]. split_and!; [reflexivity|exact sample_basis_wf|reflexivity|exact I].
Defined.
