(* ===== verification/Rounds.v ===== *)
(** * The Phase-2 tally ([paros-core/src/proposer/rounds.rs])

    The per-slot [Accept] rounds a leader streams: opening, delegation, moves
    between columns, the vote tally, the decision, and the fair bounded page a
    re-send draws from. *)

From S2P Require Import Prelude BTree Types Contract QuorumSystem AcceptorConfig.

Inductive Custody (I : Type) `{Countable I} :=
| Colocated (accepted_by : gset I)
| Delegated (proxy : N).
Arguments Colocated {_ _ _} _.
Arguments Delegated {_ _ _} _.

Record Round (I V : Type) `{Countable I} := mkRound {
  r_ballot : Ballot;
  r_command : V;
  r_custody : Custody I;
  r_column : option N;
  r_resends : N;
  r_moves : N }.
Arguments mkRound {_ _ _ _} _ _ _ _ _ _.
Arguments r_ballot {_ _ _ _} _.
Arguments r_command {_ _ _ _} _.
Arguments r_custody {_ _ _ _} _.
Arguments r_column {_ _ _ _} _.
Arguments r_resends {_ _ _ _} _.
Arguments r_moves {_ _ _ _} _.

Record PendingAccept (V : Type) := mkPending {
  pa_slot : Slot;
  pa_ballot : Ballot;
  pa_command : V;
  pa_column : option N;
  pa_proxy : option N }.
Arguments mkPending {_} _ _ _ _ _.
Arguments pa_slot {_} _.
Arguments pa_ballot {_} _.
Arguments pa_command {_} _.
Arguments pa_column {_} _.
Arguments pa_proxy {_} _.

Record Rounds (I V : Type) `{Countable I} := mkRounds {
  rs_by_slot : gmap Slot (Round I V);
  rs_resend_cursor : option Slot }.
Arguments mkRounds {_ _ _ _} _ _.
Arguments rs_by_slot {_ _ _ _} _.
Arguments rs_resend_cursor {_ _ _ _} _.

Section rounds.
Context {I : Type} `{Ord I, !Countable I} {V : Type} `{!Fingerprint V}.
Implicit Types (rs : Rounds I V) (r : Round I V) (config : AcceptorConfig I).

(** [Custody::colocated]. *)
Definition colocated (own_vote : option I) : Custody I :=
  Colocated (match own_vote with Some me => {[ me ]} | None => ∅ end).

Definition round_proxy r : option N :=
  match r_custody r with Delegated proxy => Some proxy | Colocated _ => None end.
Definition round_accepted_by r : option (gset I) :=
  match r_custody r with Colocated votes => Some votes | Delegated _ => None end.

Definition rounds_empty : Rounds I V := mkRounds ∅ None.
Definition rounds_is_empty rs : Prop := rs_by_slot rs = ∅.
Definition rounds_column rs (slot : Slot) : option (option N) := r_column <$> rs_by_slot rs !! slot.
Definition rounds_close rs (slot : Slot) : Rounds I V :=
  mkRounds (delete slot (rs_by_slot rs)) (rs_resend_cursor rs).

Definition rounds_retain_from rs (first : Slot) : run (Rounds I V) :=
  let rs' := mkRounds (filter (fun e => first <= e.1) (rs_by_slot rs)) (rs_resend_cursor rs) in
  rassert (is_none_or (fun s => first <= s) (first_key_of (rs_by_slot rs')))
    "no round survives below the retained boundary";;
  mret rs'.

Definition rounds_clear rs : Rounds I V := rounds_empty.

Definition is_open_at rs (slot : Slot) (ballot : Ballot) : bool :=
  bool_decide (is_some_and (fun r => r_ballot r = ballot) (rs_by_slot rs !! slot)).

Definition stalled_delegations rs (after : N) : run (list Slot) :=
  let stalled := (filter (fun e : Slot * Round I V =>
                            after <= r_resends e.2 /\ is_Some (round_proxy e.2))
                    (bt_entries (rs_by_slot rs))).*1 in
  rassert (Forall (fun s => is_some_and (fun r => round_accepted_by r = None) (rs_by_slot rs !! s)) stalled)
    "a stalled delegation holds no colocated tally";;
  mret stalled.

Definition rounds_stalled rs (after : N) : run (list Slot) :=
  let stalled := (filter (fun e : Slot * Round I V => after <= r_resends e.2)
                    (bt_entries (rs_by_slot rs))).*1 in
  rassert (sorted_members stalled) "stalled rounds are reported in slot order";;
  mret stalled.

Definition all_at rs (ballot : Ballot) : bool :=
  forallb (fun r => bool_decide (r_ballot r = ballot)) (bt_entries (rs_by_slot rs)).*2.

Definition close_below rs (ballot : Ballot) : run (Rounds I V * list Slot) :=
  let stale := (filter (fun e : Slot * Round I V => (r_ballot e.2 < ballot)%B)
                  (bt_entries (rs_by_slot rs))).*1 in
  let rs' := mkRounds (foldl (fun m slot => delete slot m) (rs_by_slot rs) stale)
               (rs_resend_cursor rs) in
  rassert (Forall (fun r => ballot ≤ r_ballot r)%B (bt_entries (rs_by_slot rs')).*2)
    "no round below the ballot survives";;
  mret (rs', stale).

Definition insert_round rs (slot : Slot) (ballot : Ballot) (command : V) (custody : Custody I)
  (column : option N) : run (Rounds I V) :=
  rassert (rs_by_slot rs !! slot = None) "a slot has at most one open Phase-2 round";;
  let open := size (rs_by_slot rs) in
  let rs' := mkRounds (<[slot := mkRound ballot command custody column 0 0]> (rs_by_slot rs))
               (rs_resend_cursor rs) in
  rassert (size (rs_by_slot rs') = open + 1)%nat "opening adds exactly one round";;
  rassert (is_some_and (fun r => r_ballot r = ballot) (rs_by_slot rs' !! slot))
    "an opened round runs at its ballot";;
  mret rs'.

(** [Rounds::open]. *)
Definition rounds_open rs (slot : Slot) (ballot : Ballot) (command : V) (own_vote : option I)
  (column : option N) : run (Rounds I V) :=
  rs' ← insert_round rs slot ballot command (colocated own_vote) column;
  rassert (is_some_and (fun r => round_proxy r = None) (rs_by_slot rs' !! slot))
    "an opened round is colocated";;
  mret rs'.

Definition open_delegated rs (slot : Slot) (ballot : Ballot) (command : V) (column : option N)
  (proxy : N) : run (Rounds I V) :=
  rs' ← insert_round rs slot ballot command (Delegated proxy) column;
  rassert (is_some_and (fun r => round_proxy r = Some proxy) (rs_by_slot rs' !! slot))
    "a delegated round names its proxy";;
  mret rs'.

Definition set_round rs (slot : Slot) r : Rounds I V :=
  mkRounds (<[slot := r]> (rs_by_slot rs)) (rs_resend_cursor rs).

Definition take_back rs (slot : Slot) (own_vote : option I) : run (Rounds I V * bool) :=
  match rs_by_slot rs !! slot with
  | None => mret (rs, false)
  | Some r =>
      match r_custody r with
      | Colocated _ => mret (rs, false)
      | Delegated _ =>
          let r' := mkRound (r_ballot r) (r_command r) (colocated own_vote) (r_column r)
                      (r_resends r) (r_moves r) in
          rassert (round_proxy r' = None) "a round taken back is colocated";;
          mret (set_round rs slot r', true)
      end
  end.

Definition move_to rs config (slot : Slot) (column : option N) (own_vote : option I)
  : run (Rounds I V * bool) :=
  match rs_by_slot rs !! slot with
  | None => mret (rs, false)
  | Some r =>
      if decide (r_column r = column \/ is_Some (round_proxy r)) then mret (rs, false) else
      own ← match own_vote with
            | Some me => config_is_phase2_addressee config me column
            | None => mret true
            end;
      rassert (own = true) "a moved round's own vote is in its new column";;
      let before := r_moves r in
      let r' := mkRound (r_ballot r) (r_command r) (colocated own_vote) column 0
                  (u64_saturating_add (r_moves r) 1) in
      rassert (before < r_moves r') "a move is counted";;
      ok ← match round_accepted_by r' with
           | Some votes => allM (fun n => config_is_phase2_addressee config n column) (bs_elements votes)
           | None => mret false
           end;
      rassert (ok = true) "a moved round counts only its new column";;
      mret (set_round rs slot r', true)
  end.

(** [Rounds::fold_accepted]. *)
Definition rounds_fold_accepted rs (from : I) (ballot : Ballot) (slot : Slot) (vhash : N)
  : run (Rounds I V * bool) :=
  match rs_by_slot rs !! slot with
  | None => mret (rs, false)
  | Some r =>
      if decide (r_ballot r <> ballot) then mret (rs, false) else
      rassert (fingerprint (r_command r) = vhash)
        "an Accepted at an open round's ballot names the round's command";;
      match r_custody r with
      | Colocated votes =>
          let votes' := {[ from ]} ∪ votes in
          rassert (from ∈ votes') "a counted vote is in the tally";;
          mret (set_round rs slot (mkRound (r_ballot r) (r_command r) (Colocated votes') (r_column r)
                                     (r_resends r) (r_moves r)), true)
      | Delegated _ => mret (rs, false)
      end
  end.

Definition rounds_fold_accepted_in rs config (from : I) (ballot : Ballot) (slot : Slot) (vhash : N)
  : run (Rounds I V * bool) :=
  match rounds_column rs slot with
  | None => mret (rs, false)
  | Some column =>
      addressee ← config_is_phase2_addressee config from column;
      if decide (addressee = false) then mret (rs, false) else
      '(rs', counted) ← rounds_fold_accepted rs from ballot slot vhash;
      (if counted : bool then
         rassert (rounds_column rs' slot = Some column) "a counted vote's round keeps its column";;
         addressees ← config_phase2_addressees config column;
         rassert (from ∈ addressees) "a counted vote is from the round's column"
       else mret tt);;
      mret (rs', counted)
  end.

(** [Rounds::decided]. *)
Definition rounds_decided rs (slot : Slot) config : run (option (Ballot * V)) :=
  match rs_by_slot rs !! slot with
  | None => mret None
  | Some r =>
      match round_accepted_by r with
      | None => mret None
      | Some votes =>
          quorum ← has_phase2_quorum_in config votes (r_column r);
          if decide (quorum = false) then mret None else
          ok ← allM (fun n => config_is_phase2_addressee config n (r_column r)) (bs_elements votes);
          rassert (ok = true) "every vote behind a decision comes from the round's column";;
          rassert (votes <> ∅) "a decision rests on at least one vote";;
          mret (Some (r_ballot r, r_command r))
      end
  end.

Definition page_entry (e : Slot * Round I V) : PendingAccept V :=
  mkPending e.1 (r_ballot e.2) (r_command e.2) (r_column e.2) (round_proxy e.2).

Definition count_resend (m : gmap Slot (Round I V)) (p : PendingAccept V) : gmap Slot (Round I V) :=
  alter (fun r => mkRound (r_ballot r) (r_command r) (r_custody r) (r_column r)
                    (u64_saturating_add (r_resends r) 1) (r_moves r)) (pa_slot p) m.

(** [Rounds::resend_page]. *)
Definition rounds_resend_page rs (limit : N) : run (Rounds I V * list (PendingAccept V)) :=
  rassert (0 < limit) "a re-send page carries at least one round";;
  rassert (limit <= RESEND_BATCH) "a re-send page never exceeds its ceiling";;
  let start := default 0 (rs_resend_cursor rs) in
  let pending := page_entry <$> take (N.to_nat limit) (bt_range_from start (rs_by_slot rs)) in
  let pending :=
    if decide (len pending < limit) then
      pending ++ (page_entry <$> take (N.to_nat (limit - len pending)) (bt_range_to start (rs_by_slot rs)))
    else pending in
  let by_slot := foldl count_resend (rs_by_slot rs) pending in
  let cursor := p ← last pending; u64_checked_add (pa_slot p) 1 in
  let rs' := mkRounds by_slot cursor in
  rassert (len pending <= limit) "a re-send page is bounded";;
  rassert (len pending = N.min limit (msize by_slot))
    "a re-send page is as full as the open rounds allow";;
  rassert (Forall (fun p => is_Some (by_slot !! pa_slot p)) pending)
    "a re-send page carries only open rounds";;
  mret (rs', pending).

(** ** Opening and folding, evaluated *)

Lemma insert_round_ok rs slot ballot command custody column :
  rs_by_slot rs !! slot = None ->
  insert_round rs slot ballot command custody column =
    Done (set_round rs slot (mkRound ballot command custody column 0 0)).
Proof.
  intros Hn. unfold insert_round. rassert_by done. cbn zeta.
  rassert_by (cbn; rewrite map_size_insert_None by done; lia).
  rassert_by (cbn; by rewrite lookup_insert_eq). done.
Qed.

Lemma rounds_open_ok rs slot ballot command own_vote column :
  rs_by_slot rs !! slot = None ->
  rounds_open rs slot ballot command own_vote column =
    Done (set_round rs slot (mkRound ballot command (colocated own_vote) column 0 0)).
Proof.
  intros Hn. unfold rounds_open. rewrite insert_round_ok by done. rsimpl.
  rassert_by (cbn; by rewrite lookup_insert_eq). done.
Qed.

(** A round a configuration can judge: its column is the configuration's, and
    it counts only acceptors of that column. *)
Definition round_wf config r : Prop :=
  column_valid config (r_column r) /\
  is_none_or (fun votes : gset I => forall m, m ∈ votes -> m ∈ addressees_of config (r_column r)) (round_accepted_by r).
Definition rounds_wf config rs : Prop :=
  forall slot r, rs_by_slot rs !! slot = Some r -> round_wf config r.

Lemma set_round_wf config rs slot r :
  rounds_wf config rs -> round_wf config r -> rounds_wf config (set_round rs slot r).
Proof.
  intros Hrs Hr s r'. cbn. rewrite lookup_insert. case_decide; [by intros [= <-]|apply Hrs].
Qed.

(** The round with one more vote. *)
Definition with_vote r (from : I) : option (Round I V) :=
  match r_custody r with
  | Colocated votes => Some (mkRound (r_ballot r) (r_command r) (Colocated ({[ from ]} ∪ votes))
                               (r_column r) (r_resends r) (r_moves r))
  | Delegated _ => None
  end.

Lemma rounds_fold_accepted_ok rs from ballot slot vhash r :
  rs_by_slot rs !! slot = Some r -> (r_ballot r = ballot -> fingerprint (r_command r) = vhash) ->
  rounds_fold_accepted rs from ballot slot vhash =
    Done (match with_vote r from with
          | Some r' => if decide (r_ballot r = ballot) then (set_round rs slot r', true) else (rs, false)
          | None => (rs, false)
          end).
Proof.
  intros Hr Hv. unfold rounds_fold_accepted, with_vote. rewrite Hr.
  destruct (decide (r_ballot r = ballot)) as [Hb|Hb].
  - rewrite decide_False by tauto. rassert_by auto. destruct (r_custody r); [|done].
    rassert_by set_solver. done.
  - rewrite decide_True by done. by destruct (r_custody r).
Qed.

Section judged.
Context (config : AcceptorConfig I) (Hwf : config_wf config).

Lemma rounds_decided_ok rs slot r votes :
  rs_by_slot rs !! slot = Some r -> round_accepted_by r = Some votes -> round_wf config r ->
  rounds_decided rs slot config =
    Done (if decide (phase2_holds (c_quorum_system config) (c_members config) votes (r_column r))
          then Some (r_ballot r, r_command r) else None).
Proof using Hwf.
  intros Hr Hv [Hc Ha]. rewrite Hv in Ha. unfold rounds_decided. rewrite Hr, Hv.
  pose proof (column_valid_names _ _ Hc) as [Hn _]. rewrite has_phase2_quorum_in_ok by done. rsimpl.
  destruct (decide (phase2_holds (c_quorum_system config) (c_members config) votes (r_column r))) as [Hh|Hh].
  - rewrite bool_decide_eq_true_2, decide_False by done.
    rewrite (allM_ok _ (fun n => n ∈ addressees_of config (r_column r)))
      by (intros; by apply config_is_phase2_addressee_ok). rsimpl.
    rassert_by (apply bool_decide_eq_true_2, Forall_forall; intros n Hn'%elem_of_bs_elements; by apply Ha).
    rassert_by by eapply phase2_holds_nonempty. done.
  - by rewrite bool_decide_eq_false_2, decide_True.
Qed.

(** One vote folded under the configuration's addressee guard. *)
Lemma rounds_fold_accepted_in_ok rs from ballot slot vhash r :
  rs_by_slot rs !! slot = Some r -> round_wf config r ->
  (r_ballot r = ballot -> fingerprint (r_command r) = vhash) ->
  rounds_fold_accepted_in rs config from ballot slot vhash =
    Done (match with_vote r from with
          | Some r' => if decide (r_ballot r = ballot /\ from ∈ addressees_of config (r_column r))
                       then (set_round rs slot r', true) else (rs, false)
          | None => (rs, false)
          end).
Proof using Hwf.
  intros Hr [Hc _] Hv. unfold rounds_fold_accepted_in, rounds_column. rewrite Hr. cbn [fmap option_fmap option_map].
  rewrite config_is_phase2_addressee_ok by done. rsimpl.
  destruct (decide (from ∈ addressees_of config (r_column r))) as [Hin|Hout].
  2: { rewrite bool_decide_eq_false_2, decide_True by done.
       destruct (with_vote r from); [by rewrite decide_False by tauto|done]. }
  rewrite bool_decide_eq_true_2, decide_False by done.
  erewrite rounds_fold_accepted_ok by done. rsimpl. destruct (with_vote r from) as [r'|] eqn:Ew; [|done].
  destruct (decide (r_ballot r = ballot)) as [Hb|Hb]; [|by rewrite decide_False by tauto].
  rewrite decide_True by done.
  assert (r_column r' = r_column r) as Ec by (unfold with_vote in Ew; destruct (r_custody r); by simplify_eq).
  rewrite (rassert_true (_ = Some _)) by (cbn; rewrite lookup_insert_eq; cbn; by rewrite Ec). rsimpl.
  rewrite config_phase2_addressees_ok by done. rsimpl. by rewrite rassert_true.
Qed.

Lemma with_vote_wf r from r' :
  round_wf config r -> from ∈ addressees_of config (r_column r) -> with_vote r from = Some r' -> round_wf config r'.
Proof using Type.
  intros [Hc Ha] Hf Hw. unfold with_vote in Hw. unfold round_wf, round_accepted_by in *.
  destruct (r_custody r); [|done]. injection Hw as <-. cbn in *. split; [done|].
  intros m [->%elem_of_singleton|?]%elem_of_union; [done|by apply Ha].
Qed.

(** The round a move leaves: same vote, new column, only the proposer's own vote. *)
Definition moved_round r column (own_vote : option I) : Round I V :=
  mkRound (r_ballot r) (r_command r) (colocated own_vote) column 0 (u64_saturating_add (r_moves r) 1).

Lemma move_to_ok rs slot r column own_vote :
  rs_by_slot rs !! slot = Some r -> r_column r <> column -> round_proxy r = None -> column_valid config column ->
  is_none_or (fun me => me ∈ addressees_of config column) own_vote -> r_moves r < u64_max ->
  move_to rs config slot column own_vote = Done (set_round rs slot (moved_round r column own_vote), true) /\
  round_wf config (moved_round r column own_vote).
Proof using Hwf.
  intros Hr Hne Hpx Hc Hown Hmv.
  assert (forall m, m ∈ (match own_vote with Some me => {[ me ]} | None => ∅ end : gset I) ->
    m ∈ addressees_of config column) as Hall.
  { destruct own_vote; cbn in *; [by intros m ->%elem_of_singleton|by intros m ?%elem_of_empty]. }
  split; [|by split]. unfold move_to. rewrite Hr.
  rewrite decide_False by (intros [?|[? E]]; [done|congruence]).
  eapply bind_seq with (a := true); [|cbv beta].
  { destruct own_vote; [|done]. rewrite config_is_phase2_addressee_ok by done. by rewrite bool_decide_eq_true_2. }
  rassert_by done. cbn zeta. rassert_by (cbn; unfold u64_saturating_add; lia).
  cbn [round_accepted_by r_custody colocated].
  rewrite (allM_ok _ (fun n => n ∈ addressees_of config column))
    by (intros; by apply config_is_phase2_addressee_ok). rsimpl.
  rassert_by (apply bool_decide_eq_true_2, Forall_forall; intros m Hm%elem_of_bs_elements; by apply Hall). done.
Qed.
End judged.

(** ** The re-send page *)

(** The open rounds in slot order, starting at the cursor and wrapping. *)
Definition rotation {A} (start : Slot) (m : gmap Slot A) : list (Slot * A) :=
  bt_range_from start m ++ bt_range_to start m.

Lemma rotation_perm {A} start (m : gmap Slot A) : rotation start m ≡ₚ bt_entries m.
Proof.
  unfold rotation, bt_range_from, bt_range_to.
  rewrite (list_filter_iff (fun kv : Slot * A => ord_lt kv.1 start) (fun kv => ~ ord_le start kv.1)) by done.
  apply filter_app_complement.
Qed.

Lemma count_resends_dom (l : list (PendingAccept V)) (m : gmap Slot (Round I V)) :
  dom (foldl count_resend m l) =@{gset Slot} dom m.
Proof. revert m. induction l as [|p l IH]; intros m; [done|]. cbn. rewrite IH. apply dom_alter_L. Qed.

(** Counting a re-send changes nothing the vote depends on. *)
Definition same_round (r r' : Round I V) : Prop :=
  r_ballot r' = r_ballot r /\ r_command r' = r_command r /\ r_custody r' = r_custody r /\
  r_column r' = r_column r /\ r_moves r' = r_moves r.

Lemma count_resends_same (l : list (PendingAccept V)) (m : gmap Slot (Round I V)) slot r :
  m !! slot = Some r -> exists r', foldl count_resend m l !! slot = Some r' /\ same_round r r'.
Proof.
  revert m r. induction l as [|p l IH]; intros m r Hr; [by exists r|]. cbn [foldl]. unfold count_resend at 2.
  destruct (decide (pa_slot p = slot)) as [<-|Hne].
  - destruct (IH (alter (fun r => mkRound (r_ballot r) (r_command r) (r_custody r) (r_column r)
      (u64_saturating_add (r_resends r) 1) (r_moves r)) (pa_slot p) m)
      (mkRound (r_ballot r) (r_command r) (r_custody r) (r_column r) (u64_saturating_add (r_resends r) 1) (r_moves r)))
      as (r' & -> & Hs); [by rewrite lookup_alter_eq, Hr|]. by exists r'.
  - apply IH. by rewrite lookup_alter_ne.
Qed.

Definition page_of_rounds rs (limit : N) : list (PendingAccept V) :=
  page_entry <$> take (N.to_nat limit) (rotation (default 0 (rs_resend_cursor rs)) (rs_by_slot rs)).
Definition rounds_after_page rs (limit : N) : Rounds I V :=
  mkRounds (foldl count_resend (rs_by_slot rs) (page_of_rounds rs limit))
    (p ← last (page_of_rounds rs limit); u64_checked_add (pa_slot p) 1).

Lemma page_length rs limit : len (page_of_rounds rs limit) = N.min limit (msize (rs_by_slot rs)).
Proof.
  unfold len, msize, page_of_rounds. rewrite length_fmap, length_take, rotation_perm, length_bt_entries. lia.
Qed.

Lemma page_slots_open rs limit p :
  p ∈ page_of_rounds rs limit ->
  exists r, rs_by_slot rs !! pa_slot p = Some r /\ p = page_entry (pa_slot p, r).
Proof.
  unfold page_of_rounds. intros ([k r] & -> & Hin)%list_elem_of_fmap.
  apply elem_of_take in Hin as (n & Hin & _). apply list_elem_of_lookup_2 in Hin.
  rewrite rotation_perm, elem_of_bt_entries in Hin. by exists r.
Qed.

Lemma resend_page_ok rs limit :
  0 < limit <= RESEND_BATCH ->
  rounds_resend_page rs limit = Done (rounds_after_page rs limit, page_of_rounds rs limit).
Proof.
  intros [Hpos Hmax]. unfold rounds_resend_page. rassert_by done. rassert_by done. cbn zeta.
  set (start := default 0 (rs_resend_cursor rs)).
  assert ((if decide (len (page_entry <$> take (N.to_nat limit) (bt_range_from start (rs_by_slot rs))) < limit)
     then (page_entry <$> take (N.to_nat limit) (bt_range_from start (rs_by_slot rs))) ++
       (page_entry <$> take (N.to_nat (limit - len (page_entry <$> take (N.to_nat limit) (bt_range_from start (rs_by_slot rs)))))
          (bt_range_to start (rs_by_slot rs)))
     else page_entry <$> take (N.to_nat limit) (bt_range_from start (rs_by_slot rs))) = page_of_rounds rs limit) as ->.
  { unfold page_of_rounds, rotation. fold start. rewrite take_app, fmap_app. unfold len.
    rewrite length_fmap, length_take. case_decide as Hlt.
    - do 3 f_equal. lia.
    - replace (N.to_nat limit - length (bt_range_from start (rs_by_slot rs)))%nat with 0%nat by lia.
      by rewrite app_nil_r. }
  assert (msize (foldl count_resend (rs_by_slot rs) (page_of_rounds rs limit)) = msize (rs_by_slot rs)) as Esz
    by (unfold msize; by rewrite <-!(size_dom (D:=gset Slot)), count_resends_dom).
  pose proof (page_length rs limit) as Hlen.
  rassert_by lia. rassert_by (by rewrite Esz). rassert_by idtac; [|done].
  apply Forall_forall. intros p (r & Hr & _)%page_slots_open.
  destruct (count_resends_same (page_of_rounds rs limit) _ _ _ Hr) as (r' & -> & _). by eexists.
Qed.

(** *** Fairness: the cursor walks the open rounds in a circle *)

Definition rotate (c : Slot) (ks : list Slot) : list Slot :=
  filter (fun k => c <= k) ks ++ filter (fun k => k < c) ks.

Lemma rotate_split c ps qs :
  Forall (fun k => k < c) ps -> Forall (fun k => c <= k) qs -> rotate c (ps ++ qs) = qs ++ ps.
Proof.
  intros Hp Hq. unfold rotate. rewrite !filter_app.
  rewrite (filter_none (fun k => c <= k) ps) by (eapply Forall_impl; [exact Hp|]; cbn; lia).
  rewrite (filter_none (fun k => k < c) qs) by (eapply Forall_impl; [exact Hq|]; cbn; lia).
  rewrite !filter_all by done. by rewrite app_nil_r.
Qed.

Lemma sorted_split c ks : StronglySorted N.lt ks ->
  exists ps qs, ks = ps ++ qs /\ Forall (fun k => k < c) ps /\ Forall (fun k => c <= k) qs.
Proof.
  induction 1 as [|k ks Hs (ps & qs & -> & Hp & Hq) Hk]; [by exists [], []|].
  destruct (decide (k < c)) as [Hlt|Hge]; [exists (k :: ps), qs; auto|].
  exists [], (k :: ps ++ qs). split_and!; [done..|]. constructor; [lia|].
  eapply Forall_impl; [exact Hk|]. cbn. lia.
Qed.

Lemma sorted_app_lt xs ys x y : StronglySorted N.lt (xs ++ ys) -> x ∈ xs -> y ∈ ys -> x < y.
Proof.
  induction xs as [|z xs IH]; cbn; intros Hs Hx Hy; [by apply not_elem_of_nil in Hx|].
  apply StronglySorted_inv in Hs as [Hs Hz]. apply elem_of_cons in Hx as [->|Hx]; [|by apply IH].
  rewrite Forall_forall in Hz. apply Hz, elem_of_app. by right.
Qed.

Lemma rotate_cut xs x ys :
  StronglySorted N.lt (xs ++ [x] ++ ys) -> rotate (x + 1) (xs ++ [x] ++ ys) = ys ++ xs ++ [x].
Proof.
  intros Hs. rewrite app_assoc. apply rotate_split.
  - apply Forall_app. split; [|by repeat constructor; lia]. apply Forall_forall. intros k Hk.
    assert (k < x); [|lia]. eapply sorted_app_lt; [exact Hs|done|by left].
  - apply Forall_forall. intros k Hk. rewrite app_assoc in Hs.
    assert (x < k); [|lia]. eapply sorted_app_lt; [exact Hs| |done]. apply elem_of_app. right. by left.
Qed.

(** The next rotation starts where the page ended. *)
Lemma rotate_after c ks xs x ys :
  StronglySorted N.lt ks -> rotate c ks = xs ++ [x] ++ ys -> rotate (x + 1) ks = ys ++ xs ++ [x].
Proof.
  intros Hs Hr. destruct (sorted_split c ks Hs) as (ps & qs & -> & Hp & Hq).
  rewrite rotate_split in Hr by done. rewrite app_assoc in Hr.
  apply app_eq_app in Hr as (l & [[E1 E2]|[E1 E2]]).
  - subst qs ys. rewrite <-!app_assoc. rewrite (app_assoc ps xs). rewrite rotate_cut.
    + by rewrite <-!app_assoc.
    + by rewrite <-!app_assoc in Hs |- *.
  - destruct l as [|x' l _] using rev_ind.
    + cbn in E2. rewrite app_nil_r in E1. subst ps qs. rewrite app_assoc in Hs |- *.
      pose proof (rotate_cut (ys ++ xs) x []) as Hc. rewrite app_nil_r in Hc. rewrite Hc by done.
      by rewrite <-app_assoc.
    + rewrite app_assoc in E1. apply app_inj_tail in E1 as [-> <-]. subst ps. rewrite <-!app_assoc in Hs |- *.
      rewrite rotate_cut by done. by rewrite <-!app_assoc.
Qed.

Lemma rotation_keys {A} c (m : gmap Slot A) : (rotation c m).*1 = rotate c (bt_keys m).
Proof.
  assert (forall (P : Slot -> Prop) (Q : Slot * A -> Prop) `{!forall k, Decision (P k), !forall kv, Decision (Q kv)} l,
    (forall kv, Q kv <-> P kv.1) -> (filter Q l).*1 = filter P l.*1) as Hf.
  { intros P Q ? ? l Hpq. induction l as [|kv l IH]; [done|]. rewrite fmap_cons, !filter_cons.
    destruct (decide (Q kv)) as [Hq|Hq]; [rewrite decide_True by by apply Hpq|rewrite decide_False by by rewrite <-Hpq].
    - rewrite fmap_cons. by f_equal.
    - apply IH. }
  unfold rotation, rotate, bt_range_from, bt_range_to, bt_keys. rewrite fmap_app. f_equal; apply Hf;
    intros kv; [done|]. unfold ord_lt, ord_le. cbn. lia.
Qed.

Lemma bt_keys_dom {A B} (m : gmap Slot A) (m' : gmap Slot B) :
  dom m =@{gset Slot} dom m' -> bt_keys m = bt_keys m'.
Proof.
  intros Hd. apply (StronglySorted_unique_strong ord_lt).
  - intros x y _ _ Hxy Hyx. exfalso. apply (ord_lt_irrefl x). by apply (ord_lt_trans x y).
  - apply bt_keys_sorted.
  - apply bt_keys_sorted.
  - apply NoDup_Permutation; [apply NoDup_bt_keys..|]. intros k.
    by rewrite !elem_of_bt_keys, <-!(elem_of_dom (D:=gset Slot)), Hd.
Qed.

(** [k] pages in a row, with nothing else in between: the slots re-sent. *)
Fixpoint resend_pages (k : nat) rs (limit : N) : run (list Slot) :=
  match k with
  | O => mret []
  | S k' =>
      '(rs', page) ← rounds_resend_page rs limit;
      rest ← resend_pages k' rs' limit;
      mret ((pa_slot <$> page) ++ rest)
  end.

Definition cursor_of rs : Slot := default 0 (rs_resend_cursor rs).

Lemma page_slots_rotate rs limit :
  pa_slot <$> page_of_rounds rs limit = take (N.to_nat limit) (rotate (cursor_of rs) (bt_keys (rs_by_slot rs))).
Proof.
  unfold page_of_rounds, cursor_of. rewrite <-rotation_keys, <-fmap_take, <-list_fmap_compose. done.
Qed.

Lemma rotate_perm c ks : rotate c ks ≡ₚ ks.
Proof.
  unfold rotate. rewrite (list_filter_iff (fun k => k < c) (fun k => ~ c <= k)) by (intros; lia).
  apply filter_app_complement.
Qed.

(** After a page, what was not sent comes first. *)
Lemma rotate_after_page rs limit :
  (forall s, is_Some (rs_by_slot rs !! s) -> s <= u64_max) -> 0 < limit ->
  let ks := rotate (cursor_of rs) (bt_keys (rs_by_slot rs)) in
  rotate (cursor_of (rounds_after_page rs limit)) (bt_keys (rs_by_slot rs)) =
    drop (N.to_nat limit) ks ++ take (N.to_nat limit) ks.
Proof.
  intros Hmax Hpos ks. pose proof (bt_keys_sorted (rs_by_slot rs)) as Hs.
  assert (StronglySorted N.lt (bt_keys (rs_by_slot rs))) as Hs'.
  { induction Hs as [|x l _ IH Hx]; constructor; [done|]. eapply Forall_impl; [exact Hx|].
    intros y. unfold ord_lt, ord_le. cbn. lia. }
  unfold cursor_of at 1. cbn [rs_resend_cursor rounds_after_page].
  assert ((p ← last (page_of_rounds rs limit); u64_checked_add (pa_slot p) 1) =
          (x ← last (take (N.to_nat limit) ks); u64_checked_add x 1)) as ->.
  { unfold ks. rewrite <-page_slots_rotate, fmap_last. by destruct (last (page_of_rounds rs limit)). }
  assert (ks ≡ₚ bt_keys (rs_by_slot rs)) as Hperm by apply rotate_perm.
  rewrite <-(take_drop (N.to_nat limit) ks) in Hperm. pose proof (take_drop (N.to_nat limit) ks) as Hcut.
  destruct (last (take (N.to_nat limit) ks)) as [x|] eqn:El.
  - apply last_Some in El as [xs Exs]. rewrite Exs, <-app_assoc in Hcut.
    pose proof (rotate_after _ _ _ _ _ Hs' (eq_sym Hcut)) as Hnext. rewrite Exs, <-Hnext. cbn.
    assert (x <= u64_max) as Hx.
    { apply Hmax, elem_of_bt_keys. rewrite <-Hperm, Exs, !elem_of_app. left. right. by left. }
    unfold u64_checked_add. destruct (decide (x + 1 <= u64_max)); [done|]. cbn.
    assert (forall s, s ∈ bt_keys (rs_by_slot rs) -> s < x + 1) as Hall.
    { intros s Hin%elem_of_bt_keys%Hmax. lia. }
    rewrite <-(app_nil_r (bt_keys _)) at 2. rewrite rotate_split; [|by apply Forall_forall|constructor].
    rewrite <-(app_nil_l (bt_keys _)) at 1. rewrite rotate_split; [|constructor|apply Forall_forall; intros; apply N.le_0_l].
    by rewrite app_nil_r.
  - apply last_None in El. rewrite El in *. cbn in Hcut, Hperm. rewrite Hcut in Hperm |- *.
    assert (ks = []) as Eks. { destruct ks; [done|]. destruct (N.to_nat limit) eqn:E; [lia|done]. }
    rewrite Eks in Hperm |- *. symmetry in Hperm. apply Permutation_nil_r in Hperm. by rewrite Hperm.
Qed.

Lemma resend_pages_cover k rs limit :
  (forall s, is_Some (rs_by_slot rs !! s) -> s <= u64_max) -> 0 < limit <= RESEND_BATCH ->
  exists slots, resend_pages k rs limit = Done slots /\
    forall s, s ∈ take (k * N.to_nat limit) (rotate (cursor_of rs) (bt_keys (rs_by_slot rs))) -> s ∈ slots.
Proof.
  revert rs. induction k as [|k IH]; intros rs Hmax Hl; cbn [resend_pages].
  { exists []. split; [done|]. by intros s ?. }
  rewrite resend_page_ok by done. rsimpl.
  assert (dom (rs_by_slot (rounds_after_page rs limit)) =@{gset Slot} dom (rs_by_slot rs)) as Hd by apply count_resends_dom.
  destruct (IH (rounds_after_page rs limit)) as (slots & -> & Hin); [|done|].
  { intros s. rewrite <-(elem_of_dom (D:=gset Slot)), Hd, elem_of_dom. apply Hmax. }
  rsimpl. eexists. split; [done|]. intros s. rewrite (bt_keys_dom _ _ Hd), rotate_after_page in Hin by (done || lia).
  rewrite page_slots_rotate, elem_of_app. set (ks := rotate _ _) in *. set (n := N.to_nat limit) in *.
  replace (S k * n)%nat with (n + k * n)%nat by lia. rewrite <-take_take_drop, elem_of_app.
  intros [?|Hs]; [by left|right]. apply Hin. rewrite take_app, elem_of_app. by left.
Qed.
End rounds.

(** ** Properties *)

Section properties.
Context {I : Type} `{Ord I, !Countable I} {V : Type} `{!Fingerprint V}.
Implicit Types (rs : Rounds I V) (r : Round I V) (config : AcceptorConfig I).

(** The Phase-2 tally decides exactly.  A slot's open round is decided iff the
    votes it counted are a Phase-2 quorum of the configuration in the round's
    column, with the round's own ballot and command; a delegated round and a
    slot without one are never decided here, and no assertion fires. *)
Theorem rounds_decided_exact rs config slot :
  config_wf config -> rounds_wf config rs ->
  exists d, rounds_decided rs slot config = Done d /\
    forall ballot command, d = Some (ballot, command) <->
      exists r votes, rs_by_slot rs !! slot = Some r /\ r_custody r = Colocated votes /\
        phase2_holds (c_quorum_system config) (c_members config) votes (r_column r) /\
        ballot = r_ballot r /\ command = r_command r.
Proof.
  intros Hwf Hrs. destruct (rs_by_slot rs !! slot) as [r|] eqn:Er.
  2: { exists None. split; [unfold rounds_decided; by rewrite Er|]. intros. split; [done|].
       by intros (r & votes & ? & _). }
  destruct (r_custody r) as [votes|proxy] eqn:Ec.
  - erewrite rounds_decided_ok by (done || by eapply Hrs || (unfold round_accepted_by; by rewrite Ec)).
    eexists. split; [done|]. intros ballot command. case_decide as Hq; split; try done.
    + intros [= <- <-]. by exists r, votes.
    + by intros (r' & votes' & [= <-] & _ & _ & -> & ->).
    + intros (r' & votes' & [= <-] & Ec' & Hq' & _). rewrite Ec in Ec'. by injection Ec' as <-.
  - exists None. split; [unfold rounds_decided, round_accepted_by; by rewrite Er, Ec|]. intros. split; [done|].
    intros (r' & votes' & [= <-] & Ec' & _). by rewrite Ec in Ec'.
Qed.

(** One vote, on every branch.  A vote counts iff it is at the open round's
    ballot, the round is colocated, and the voter is in the round's column; then
    it is added to that round and nothing else moves, otherwise nothing moves
    at all.  The tally's invariant is kept, so what a decision rests on is
    always votes of the round's own column. *)
Theorem fold_accepted_in_exact rs config from ballot slot vhash :
  config_wf config -> rounds_wf config rs ->
  (forall r, rs_by_slot rs !! slot = Some r -> r_ballot r = ballot -> fingerprint (r_command r) = vhash) ->
  exists rs' counted, rounds_fold_accepted_in rs config from ballot slot vhash = Done (rs', counted) /\
    rounds_wf config rs' /\ (counted = false -> rs' = rs) /\
    (forall s, s <> slot -> rs_by_slot rs' !! s = rs_by_slot rs !! s) /\
    (counted = true <-> exists r votes, rs_by_slot rs !! slot = Some r /\ r_custody r = Colocated votes /\
       r_ballot r = ballot /\ from ∈ addressees_of config (r_column r) /\
       rs_by_slot rs' !! slot = Some (mkRound (r_ballot r) (r_command r) (Colocated ({[ from ]} ∪ votes))
                                        (r_column r) (r_resends r) (r_moves r))).
Proof.
  intros Hwf Hrs Hv. destruct (rs_by_slot rs !! slot) as [r|] eqn:Er.
  2: { exists rs, false. split_and!; try done; [unfold rounds_fold_accepted_in, rounds_column; by rewrite Er|].
       split; [done|]. by intros (r & votes & ? & _). }
  erewrite rounds_fold_accepted_in_ok by (done || by eapply Hrs || by apply Hv).
  unfold with_vote at 1. destruct (r_custody r) as [votes|proxy] eqn:Ec.
  2: { exists rs, false. split_and!; try done. split; [done|]. intros (r' & votes & [= <-] & ? & _). congruence. }
  case_decide as Hd; eexists _, _; (split; [done|]); split_and!; try done.
  - apply set_round_wf; [done|]. eapply (with_vote_wf config r from); [by eapply Hrs|tauto|].
    unfold with_vote. by rewrite Ec.
  - intros s Hs. cbn. by rewrite lookup_insert_ne.
  - split; [intros _|done]. destruct Hd. exists r, votes. split_and!; try done. cbn. by rewrite lookup_insert_eq.
  - split; [done|]. intros (r' & votes' & [= <-] & _ & ? & ? & _). tauto.
Qed.

(** A move between columns never changes the vote: the round keeps its
    ballot and command, forgets the votes of the old column but the proposer's
    own, and the tally stays well formed; a delegated round, a round already
    in the column and an unknown slot stay as they are. *)
Theorem move_to_keeps_value rs config slot column own_vote :
  config_wf config -> rounds_wf config rs -> column_valid config column ->
  is_none_or (fun me => me ∈ addressees_of config column) own_vote ->
  (forall r, rs_by_slot rs !! slot = Some r -> r_moves r < u64_max) ->
  exists rs' moved, move_to rs config slot column own_vote = Done (rs', moved) /\ rounds_wf config rs' /\
    (moved = false -> rs' = rs) /\
    forall s, match rs_by_slot rs !! s, rs_by_slot rs' !! s with
              | Some r, Some r' => r_ballot r' = r_ballot r /\ r_command r' = r_command r /\
                  (moved = true -> s = slot -> r_column r' = column /\ r_custody r' = colocated own_vote)
              | None, None => True
              | _, _ => False
              end.
Proof.
  intros Hwf Hrs Hc Hown Hmv.
  assert (forall s, match rs_by_slot rs !! s, rs_by_slot rs !! s with
    | Some r, Some r' => r_ballot r' = r_ballot r /\ r_command r' = r_command r /\
        (false = true -> s = slot -> r_column r' = column /\ r_custody r' = colocated own_vote)
    | None, None => True | _, _ => False end) as Hsame by (intros s; by destruct (rs_by_slot rs !! s)).
  destruct (rs_by_slot rs !! slot) as [r|] eqn:Er.
  2: { exists rs, false. split_and!; try done. unfold move_to. by rewrite Er. }
  destruct (decide (r_column r = column \/ is_Some (round_proxy r))) as [Hstay|Hgo].
  { exists rs, false. split_and!; try done. unfold move_to. by rewrite Er, decide_True. }
  destruct (move_to_ok config Hwf rs slot r column own_vote) as [E Hw]; try done; [tauto| |by apply Hmv|].
  { destruct (round_proxy r) eqn:Ep; [|done]. destruct Hgo. right. by eexists. }
  eexists _, _. split; [exact E|]. split_and!; [by apply set_round_wf|done|].
  intros s. cbn. destruct (decide (slot = s)) as [<-|Hne].
  - by rewrite lookup_insert_eq, Er.
  - rewrite lookup_insert_ne by done. destruct (rs_by_slot rs !! s); [|done]. split_and!; [done..|]. by intros _ ->.
Qed.

(** A re-send page never panics: at any page size within its ceiling it
    carries [min limit open] distinct open rounds with the fields they hold,
    starting at the cursor and wrapping, and counting the re-send changes
    nothing a vote depends on. *)
Theorem resend_page_exact rs limit :
  0 < limit <= RESEND_BATCH ->
  exists rs' page, rounds_resend_page rs limit = Done (rs', page) /\
    len page = N.min limit (msize (rs_by_slot rs)) /\ NoDup (pa_slot <$> page) /\
    (forall p, p ∈ page -> exists r, rs_by_slot rs !! pa_slot p = Some r /\ p = page_entry (pa_slot p, r)) /\
    dom (rs_by_slot rs') =@{gset Slot} dom (rs_by_slot rs) /\
    (forall s r, rs_by_slot rs !! s = Some r -> exists r', rs_by_slot rs' !! s = Some r' /\ same_round r r').
Proof.
  intros Hl. exists (rounds_after_page rs limit), (page_of_rounds rs limit).
  split_and!; [by apply resend_page_ok|apply page_length| |apply page_slots_open|apply count_resends_dom|].
  - rewrite page_slots_rotate. eapply sublist_NoDup; [|apply sublist_take]. rewrite rotate_perm. apply NoDup_bt_keys.
  - intros s r. apply count_resends_same.
Qed.

(** Re-sends are fair: with [n] rounds open, [n / limit] pages rounded up
    re-send every one of them, wherever the cursor stands. *)
Theorem resend_pages_fair k rs limit :
  (forall s, is_Some (rs_by_slot rs !! s) -> s <= u64_max) -> 0 < limit <= RESEND_BATCH ->
  msize (rs_by_slot rs) <= N.of_nat k * limit ->
  exists slots, resend_pages k rs limit = Done slots /\
    forall s, is_Some (rs_by_slot rs !! s) -> s ∈ slots.
Proof.
  intros Hmax Hl Hk. destruct (resend_pages_cover k rs limit Hmax Hl) as (slots & E & Hin).
  exists slots. split; [done|]. intros s Hs%elem_of_bt_keys. apply Hin. rewrite take_ge.
  - by rewrite rotate_perm.
  - rewrite rotate_perm. unfold bt_keys. rewrite length_fmap, length_bt_entries. unfold msize in Hk. lia.
Qed.
End properties.

(** ** Witnesses *)

Definition ex_rounds : Rounds NodeId (list N) :=
  mkRounds {[ 3 := mkRound (mkBallot 1 1) [7] (Colocated {[1]}) None 0 0 ]} None.
Lemma ex_rounds_wf : rounds_wf ex_config ex_rounds.
Proof.
  intros slot r. cbn. intros [<- <-]%lookup_singleton_Some. split; [done|]. cbn.
  intros m ->%elem_of_singleton. by left.
Qed.

Lemma rounds_decided_exact_witness :
  exists d, rounds_decided ex_rounds 3 ex_config = Done d /\ d = None.
Proof.
  destruct (rounds_decided_exact ex_rounds ex_config 3 ex_config_wf ex_rounds_wf) as (d & E & _).
  exists d. split; [done|]. by vm_compute in E; injection E as <-.
Defined.

Lemma fold_accepted_in_exact_witness :
  exists rs' counted,
    rounds_fold_accepted_in ex_rounds ex_config 2 (mkBallot 1 1) 3 (fingerprint [7]) = Done (rs', counted) /\ counted = true.
Proof.
  destruct (fold_accepted_in_exact ex_rounds ex_config 2 (mkBallot 1 1) 3 (fingerprint [7]) ex_config_wf ex_rounds_wf)
    as (rs' & counted & E & _).
  - intros r Hr _. vm_compute in Hr. by injection Hr as <-.
  - exists rs', counted. split; [done|]. by vm_compute in E; injection E as _ <-.
Defined.

Definition ex_grid4 : AcceptorConfig NodeId := mkConfig [1; 2; 3; 4] (Grid 2 2 2) [] 0 0 0.
Definition ex_in_column : Rounds NodeId (list N) :=
  mkRounds {[ 3 := mkRound (mkBallot 1 1) [7] (Colocated {[2]}) (Some 1) 5 0 ]} None.

Lemma ex_grid4_wf : config_wf ex_grid4.
Proof. constructor; [apply (bool_decide_unpack _); by vm_compute|by vm_compute|by vm_compute|by left]. Qed.

Lemma move_to_keeps_value_witness :
  exists rs' moved, move_to ex_in_column ex_grid4 3 (Some 0) (Some 1) = Done (rs', moved) /\ moved = true.
Proof.
  destruct (move_to_keeps_value ex_in_column ex_grid4 3 (Some 0) (Some 1)) as (rs' & moved & E & _).
  - apply ex_grid4_wf.
  - intros slot r. cbn. intros [<- <-]%lookup_singleton_Some. split; [by vm_compute|]. cbn.
    intros m ->%elem_of_singleton. apply (bool_decide_unpack _). by vm_compute.
  - by vm_compute.
  - apply (bool_decide_unpack _). by vm_compute.
  - intros r Hr. vm_compute in Hr. by injection Hr as <-.
  - exists rs', moved. split; [done|]. by vm_compute in E; injection E as _ <-.
Defined.

Lemma resend_page_exact_witness :
  exists rs' page, rounds_resend_page ex_rounds 1 = Done (rs', page) /\ pa_slot <$> page = [3].
Proof.
  destruct (resend_page_exact ex_rounds 1) as (rs' & page & E & _); [done|].
  exists rs', page. split; [done|]. by vm_compute in E; injection E as _ <-.
Defined.

Lemma resend_pages_fair_witness :
  exists slots, resend_pages 1 ex_rounds 1 = Done slots /\ 3 ∈ slots.
Proof.
  destruct (resend_pages_fair 1 ex_rounds 1) as (slots & E & Hin); [|done|by vm_compute|].
  - intros s [r Hr]. cbn in Hr. by apply lookup_singleton_Some in Hr as [<- _].
  - exists slots. split; [done|]. apply Hin. by eexists.
Defined.
