(* ===== verification/ProxyLeader.v ===== *)
(** * The proxy leader ([proxy_leader.rs], [proxy_leader/ready.rs])

    A leader's Phase-2 fan-out and fold on a process of its own: a [Rounds] plus
    routing.  The first part is the role with its assertions; the second runs it
    against any sequence of delegations, votes, refusals, re-sends, evictions and
    drains, and shows that every [Commit] it sends rests on a Phase-2 quorum of
    votes it was sent ([proxy_commits_backed]). *)

From S2P Require Import Prelude BTree Types Journal Contract QuorumSystem AcceptorConfig Rounds.

Abbreviation ProxyId := N (only parsing).
Abbreviation NodeConfig := (AcceptorConfig NodeId).

(** ** Messages ([contract/message.rs]): those a proxy hears or sends *)

Inductive Party := PartyNode (node : NodeId) | PartyProxy (proxy : ProxyId).

Inductive Audience :=
| ToNode (node : NodeId)
| ToProxy (proxy : ProxyId)
| ToAcceptorsOf (config : NodeConfig) (column : option N)
| ToLearners.

Inductive Message :=
| MsgAccept (reply_to : Party) (leader : NodeId) (ballot : Ballot) (slot : Slot) (command : Command)
    (config : option NodeConfig)
| MsgAccepted (from : NodeId) (ballot : Ballot) (slot : Slot) (vhash : N)
| MsgNack (from : NodeId) (ballot : Ballot) (slot : Slot)
| MsgCommit (from : Party) (ballot : Ballot) (slot : Slot) (command : Command)
| MsgOther.

#[export] Instance Party_eq_dec : EqDecision Party.
Proof. solve_decision. Defined.

(** ** The role *)

Definition DONE_MEMORY : N := 1024.

Record ProxyCounters := mkCounters {
  pc_delegated : N; pc_refanned : N; pc_ignored : N; pc_decided : N;
  pc_relayed_nacks : N; pc_superseded : N; pc_expired : N }.

Record ProxyLeader := mkProxy {
  px_id : ProxyId;
  px_acceptors : NodeConfig;
  px_since : Ballot;
  px_ballot : Ballot;
  px_rounds : Rounds NodeId Command;
  px_delegators : gmap Slot NodeId;
  px_done : gmap Slot Ballot;
  px_messages : list (Audience * Message);
  px_counters : ProxyCounters }.

Implicit Types p : ProxyLeader.

(** Field updates. *)
Definition with_counters p c : ProxyLeader :=
  mkProxy (px_id p) (px_acceptors p) (px_since p) (px_ballot p) (px_rounds p) (px_delegators p) (px_done p) (px_messages p) c.
Definition with_tally p rounds delegators : ProxyLeader :=
  mkProxy (px_id p) (px_acceptors p) (px_since p) (px_ballot p) rounds delegators (px_done p) (px_messages p) (px_counters p).
Definition with_message p audience msg : ProxyLeader :=
  mkProxy (px_id p) (px_acceptors p) (px_since p) (px_ballot p) (px_rounds p) (px_delegators p) (px_done p)
    (px_messages p ++ [(audience, msg)]) (px_counters p).
Definition with_ballot p ballot : ProxyLeader :=
  mkProxy (px_id p) (px_acceptors p) (px_since p) ballot (px_rounds p) (px_delegators p) (px_done p) (px_messages p) (px_counters p).

(** The counters a proxy raises. *)
Definition count_ignored p : run ProxyLeader :=
  let c := px_counters p in n ← u64_add (pc_ignored c) 1;
  mret (with_counters p (mkCounters (pc_delegated c) (pc_refanned c) n (pc_decided c) (pc_relayed_nacks c) (pc_superseded c) (pc_expired c))).
Definition count_delegated p : run ProxyLeader :=
  let c := px_counters p in n ← u64_add (pc_delegated c) 1;
  mret (with_counters p (mkCounters n (pc_refanned c) (pc_ignored c) (pc_decided c) (pc_relayed_nacks c) (pc_superseded c) (pc_expired c))).
Definition count_refanned p : run ProxyLeader :=
  let c := px_counters p in n ← u64_add (pc_refanned c) 1;
  mret (with_counters p (mkCounters (pc_delegated c) n (pc_ignored c) (pc_decided c) (pc_relayed_nacks c) (pc_superseded c) (pc_expired c))).
Definition count_decided p : run ProxyLeader :=
  let c := px_counters p in n ← u64_add (pc_decided c) 1;
  mret (with_counters p (mkCounters (pc_delegated c) (pc_refanned c) (pc_ignored c) n (pc_relayed_nacks c) (pc_superseded c) (pc_expired c))).
Definition count_relayed p : run ProxyLeader :=
  let c := px_counters p in n ← u64_add (pc_relayed_nacks c) 1;
  mret (with_counters p (mkCounters (pc_delegated c) (pc_refanned c) (pc_ignored c) (pc_decided c) n (pc_superseded c) (pc_expired c))).
Definition count_superseded p : run ProxyLeader :=
  let c := px_counters p in n ← u64_add (pc_superseded c) 1;
  mret (with_counters p (mkCounters (pc_delegated c) (pc_refanned c) (pc_ignored c) (pc_decided c) (pc_relayed_nacks c) n (pc_expired c))).
Definition count_expired p : run ProxyLeader :=
  let c := px_counters p in n ← u64_add (pc_expired c) 1;
  mret (with_counters p (mkCounters (pc_delegated c) (pc_refanned c) (pc_ignored c) (pc_decided c) (pc_relayed_nacks c) (pc_superseded c) n)).

Definition proxy_assert_invariants p : run unit :=
  rassert (Forall (fun slot => is_Some (px_delegators p !! slot)) (bt_keys (rs_by_slot (px_rounds p))))
    "every open proxy round names the leader that delegated it";;
  rassert (Forall (fun slot => is_Some (rs_by_slot (px_rounds p) !! slot)) (bt_keys (px_delegators p)))
    "a proxy remembers a delegator only for an open round";;
  rassert (Forall (fun r => round_proxy r = None) (bt_entries (rs_by_slot (px_rounds p))).*2)
    "a proxy folds its own rounds";;
  rassert (all_at (px_rounds p) (px_ballot p) = true)
    "every open proxy round runs at the ballot the proxy works for";;
  rassert (msize (px_done p) <= DONE_MEMORY) "a proxy's closed-round memory is bounded".

Definition proxy_new (id : ProxyId) (acceptors : NodeConfig) : run ProxyLeader :=
  let p := mkProxy id acceptors zero zero rounds_empty ∅ ∅ [] (mkCounters 0 0 0 0 0 0 0) in
  proxy_assert_invariants p;;
  mret p.

Definition fan_out p (leader : NodeId) (ballot : Ballot) (slot : Slot) (command : Command) (column : option N)
  : run ProxyLeader :=
  rassert (ballot = px_ballot p) "a proxy fans out at the ballot it works for";;
  let queued := len (px_messages p) in
  let p := with_message p (ToAcceptorsOf (px_acceptors p) column)
             (MsgAccept (PartyProxy (px_id p)) leader ballot slot command None) in
  rassert (len (px_messages p) = queued + 1) "a fan-out queues one Accept";;
  mret p.

Definition learn_config p (ballot : Ballot) (config : option NodeConfig) : run ProxyLeader :=
  match config with
  | None => mret p
  | Some config =>
      if decide (ballot ≤ px_since p)%B then mret p else
      let since := px_since p in
      let p := mkProxy (px_id p) config ballot (px_ballot p) (px_rounds p) (px_delegators p) (px_done p)
                 (px_messages p) (px_counters p) in
      rassert (since < px_since p)%B "a learned configuration is strictly newer";;
      mret p
  end.

Definition forget_superseded p (slot : Slot) : run ProxyLeader :=
  count_superseded (with_tally p (px_rounds p) (delete slot (px_delegators p))).

(** [ProxyLeader::close_below]. *)
Definition proxy_close_below p (ballot : Ballot) : run ProxyLeader :=
  '(rounds, stale) ← close_below (px_rounds p) ballot;
  p ← foldM forget_superseded (with_tally p rounds (px_delegators p)) stale;
  rassert (all_at (px_rounds p) ballot = true) "a superseded leadership's rounds are gone";;
  mret p.

(** A delegation at the ballot the proxy works for. *)
Definition delegate_at p (leader : NodeId) (ballot : Ballot) (slot : Slot) (command : Command) : run ProxyLeader :=
  if decide (px_done p !! slot = Some ballot) then count_ignored p else
  column ← config_column_of (px_acceptors p) slot;
  match rs_by_slot (px_rounds p) !! slot with
  | Some r =>
      if decide (r_ballot r = ballot) then
        rassert (r_command r = command) "a re-delegation at the open round's ballot carries the round's command";;
        let p := with_tally p (px_rounds p) (<[slot := leader]> (px_delegators p)) in
        p ← count_refanned p;
        fan_out p leader ballot slot command column
      else Panic "every open proxy round runs at the proxy's ballot"
  | None =>
      rounds ← rounds_open (px_rounds p) slot ballot command None column;
      let p := with_tally p rounds (<[slot := leader]> (px_delegators p)) in
      p ← count_delegated p;
      p ← fan_out p leader ballot slot command column;
      rassert (is_open_at (px_rounds p) slot ballot = true) "a delegated round is open here";;
      rassert (px_delegators p !! slot = Some leader) "a round names its delegator";;
      mret p
  end.

Definition on_delegated p (reply_to : Party) (leader : NodeId) (ballot : Ballot) (slot : Slot) (command : Command)
  (config : option NodeConfig) : run ProxyLeader :=
  if decide (reply_to <> PartyProxy (px_id p)) then count_ignored p else
  if decide (ballot < px_ballot p)%B then count_ignored p else
  p ← (if decide (px_ballot p < ballot)%B then proxy_close_below (with_ballot p ballot) ballot else mret p);
  p ← learn_config p ballot config;
  delegate_at p leader ballot slot command.

(** [while self.done.len() > DONE_MEMORY { pop_first }]; the fuel is the map's size. *)
Fixpoint pop_over (fuel : nat) (done : gmap Slot Ballot) : gmap Slot Ballot :=
  match fuel with
  | O => done
  | S fuel =>
      if decide (DONE_MEMORY < msize done) then
        pop_over fuel (match first_key_of done with Some slot => delete slot done | None => done end)
      else done
  end.

Definition remember_done p (slot : Slot) (ballot : Ballot) : run ProxyLeader :=
  rassert (ballot = px_ballot p) "a proxy decides at the ballot it works for";;
  let done := <[slot := ballot]> (px_done p) in
  let done := pop_over (size done) done in
  rassert (msize done <= DONE_MEMORY) "a proxy's closed-round memory is bounded";;
  mret (mkProxy (px_id p) (px_acceptors p) (px_since p) (px_ballot p) (px_rounds p) (px_delegators p) done
          (px_messages p) (px_counters p)).

Definition proxy_on_accepted p (from : NodeId) (ballot : Ballot) (slot : Slot) (vhash : N) : run ProxyLeader :=
  '(rounds, counted) ← rounds_fold_accepted_in (px_rounds p) (px_acceptors p) from ballot slot vhash;
  let p := with_tally p rounds (px_delegators p) in
  if negb counted then mret p else
  decided ← rounds_decided (px_rounds p) slot (px_acceptors p);
  match decided with
  | None => mret p
  | Some (ballot, command) =>
      rassert (command_fingerprint command = vhash) "a proxy decides the command it was delegated";;
      let p := with_tally p (rounds_close (px_rounds p) slot) (delete slot (px_delegators p)) in
      p ← remember_done p slot ballot;
      p ← count_decided p;
      rassert (rounds_column (px_rounds p) slot = None) "a decided proxy round is closed";;
      rassert (px_delegators p !! slot = None) "a decided round forgets its delegator";;
      mret (with_message p ToLearners (MsgCommit (PartyProxy (px_id p)) ballot slot command))
  end.

Definition proxy_on_nack p (from : NodeId) (ballot : Ballot) (slot : Slot) : run ProxyLeader :=
  member ← config_contains (px_acceptors p) from;
  if decide (member = false \/ is_open_at (px_rounds p) slot ballot = false) then mret p else
  let delegator := px_delegators p !! slot in
  let p := with_tally p (rounds_close (px_rounds p) slot) (delete slot (px_delegators p)) in
  match delegator with
  | None => mret p
  | Some leader =>
      p ← count_relayed p;
      rassert (is_open_at (px_rounds p) slot ballot = false) "a refused proxy round is closed";;
      mret (with_message p (ToNode leader) (MsgNack from ballot slot))
  end.

(** [ProxyLeader::step]. *)
Definition proxy_step p (msg : Message) : run ProxyLeader :=
  let ballot := px_ballot p in
  let since := px_since p in
  p ← match msg with
      | MsgAccept reply_to leader ballot slot command config => on_delegated p reply_to leader ballot slot command config
      | MsgAccepted from ballot slot vhash => proxy_on_accepted p from ballot slot vhash
      | MsgNack from ballot slot => proxy_on_nack p from ballot slot
      | _ => mret p
      end;
  rassert (ballot ≤ px_ballot p)%B "a proxy's ballot never falls";;
  rassert (since ≤ px_since p)%B "a proxy's configuration never moves back";;
  proxy_assert_invariants p;;
  mret p.

Definition resend_one p (accept : PendingAccept Command) : run ProxyLeader :=
  leader ← rexpect (px_delegators p !! pa_slot accept) "every open proxy round names the leader that delegated it";
  fan_out p leader (pa_ballot accept) (pa_slot accept) (pa_command accept) (pa_column accept).

Definition resend_pending p : run ProxyLeader :=
  let ballot := px_ballot p in
  '(rounds, page) ← rounds_resend_page (px_rounds p) RESEND_BATCH;
  p ← foldM resend_one (with_tally p rounds (px_delegators p)) page;
  rassert (px_ballot p = ballot) "a re-fan-out never moves the proxy's ballot";;
  proxy_assert_invariants p;;
  mret p.

Definition has_pending_accepts p : run bool :=
  let pending := bool_decide (~ rounds_is_empty (px_rounds p)) in
  rassert (pending <> bool_decide (px_delegators p = ∅)) "a proxy holds a delegator exactly for each open round";;
  mret pending.

Definition evict p (slot : Slot) : run ProxyLeader :=
  count_expired (with_tally p (rounds_close (px_rounds p) slot) (delete slot (px_delegators p))).

Definition expire_stale p (after : N) : run (ProxyLeader * list Slot) :=
  stale ← rounds_stalled (px_rounds p) after;
  rassert (Forall (fun slot => is_some_and (fun r => after <= r_resends r) (rs_by_slot (px_rounds p) !! slot)) stale)
    "an evicted round reached the retention budget";;
  p ← foldM evict p stale;
  rassert (Forall (fun slot => rounds_column (px_rounds p) slot = None) stale) "an evicted round is gone";;
  rassert (Forall (fun r => r_resends r < after) (bt_entries (rs_by_slot (px_rounds p))).*2)
    "no round past the retention budget survives";;
  proxy_assert_invariants p;;
  mret (p, stale).

(** [ProxyLeader::delegator]. *)
Definition proxy_delegator p (slot : Slot) : run (option NodeId) :=
  let delegator := px_delegators p !! slot in
  (if decide (is_Some delegator) then
     rassert (is_Some (rounds_column (px_rounds p) slot)) "a delegator names an open round" else mret tt);;
  mret delegator.

(** [ProxyReady::messages] and [advance]. *)
Definition own_name (id : ProxyId) (msg : Message) : Prop :=
  match msg with
  | MsgAccept reply_to _ _ _ _ _ => reply_to = PartyProxy id
  | MsgCommit from _ _ _ => from = PartyProxy id
  | _ => True
  end.
Definition within_ballot (bound : Ballot) (msg : Message) : Prop :=
  match msg with
  | MsgAccept _ _ ballot _ _ _ | MsgCommit _ ballot _ _ => (ballot ≤ bound)%B
  | _ => True
  end.

#[export] Instance own_name_dec id msg : Decision (own_name id msg).
Proof. destruct msg; simpl; apply _. Defined.
#[export] Instance within_ballot_dec bound msg : Decision (within_ballot bound msg).
Proof. destruct msg; simpl; apply _. Defined.

Definition proxy_messages p : run (list (Audience * Message)) :=
  rassert (Forall (fun m : Audience * Message => own_name (px_id p) m.2) (px_messages p)) "a proxy speaks in its own name";;
  rassert (Forall (fun m : Audience * Message => within_ballot (px_ballot p) m.2) (px_messages p))
    "a proxy sends nothing above the ballot it works for";;
  mret (px_messages p).
Definition proxy_advance p : ProxyLeader :=
  mkProxy (px_id p) (px_acceptors p) (px_since p) (px_ballot p) (px_rounds p) (px_delegators p) (px_done p) []
    (px_counters p).

(** ** Deleting a list of slots *)

Definition deletes {A} (m : gmap Slot A) (l : list Slot) : gmap Slot A := foldl (fun m slot => delete slot m) m l.

Lemma lookup_deletes {A} (m : gmap Slot A) l k : deletes m l !! k = if decide (k ∈ l) then None else m !! k.
Proof.
  unfold deletes. revert m. induction l as [|x l IH]; intros m; [done|]. cbn [foldl]. rewrite IH.
  destruct (decide (k ∈ l)) as [Hk|Hk]; [by rewrite decide_True by (by right)|].
  destruct (decide (k = x)) as [->|Hne]; [by rewrite decide_True, lookup_delete_eq by (by left)|].
  rewrite lookup_delete_ne by done. rewrite decide_False; [done|]. rewrite elem_of_cons. tauto.
Qed.

Lemma msize_deletes {A} (m : gmap Slot A) l :
  NoDup l -> (forall k, k ∈ l -> is_Some (m !! k)) -> msize (deletes m l) + len l = msize m.
Proof.
  unfold msize, len. revert m. induction l as [|x l IH]; intros m Hnd Hin; [simpl; lia|].
  apply NoDup_cons in Hnd as [Hx Hnd]. unfold deletes in *. cbn [foldl length].
  destruct (Hin x) as [v Hv]; [by left|].
  assert (size (delete x m) = pred (size m)) as Hs by (apply map_size_delete_Some; by eexists).
  assert (size m <> 0)%nat by (apply (map_size_ne_0_lookup_2 _ x); by eexists).
  specialize (IH (delete x m) Hnd). rewrite Hs in IH. enough (N.of_nat (size (foldl (fun m slot => delete slot m) (delete x m) l)) + N.of_nat (length l) = N.of_nat (pred (size m))) by lia.
  apply IH. intros k Hk. rewrite lookup_delete_ne by (by intros ->). apply Hin. by right.
Qed.

(** Popping the first entry keeps the closed-round memory bounded: the fuel is
    enough. *)
Lemma pop_over_bounded fuel (done : gmap Slot Ballot) :
  (size done <= fuel)%nat -> msize (pop_over fuel done) <= DONE_MEMORY.
Proof.
  unfold msize. revert done. induction fuel as [|fuel IH]; intros done Hf; cbn [pop_over].
  - assert (size done = 0)%nat as -> by lia. done.
  - case_decide as Hlt; [|unfold msize in Hlt; lia]. apply IH.
    destruct (first_key_of done) as [slot|] eqn:Ef.
    + apply first_key_of_Some in Ef as [Hs _]. rewrite map_size_delete_Some by done. lia.
    + apply first_key_of_None in Ef as ->. unfold msize in Hlt. rewrite map_size_empty in Hlt. unfold DONE_MEMORY in Hlt. lia.
Qed.

(** ** A proxy's run

    [cmd] is the one command each ballot proposes at each slot.  [bootstrap] is the
    configuration the proxy is built with and [cfg] the configuration each ballot was
    registered with, on a matchmaker deployment; on a plain one there is none.  [heard] is
    every vote the proxy was sent and [asked] every round it was delegated. *)

Section run.
Context (cmd : Ballot -> Slot -> Command) (bootstrap : NodeConfig) (cfg : option (Ballot -> NodeConfig)).
Implicit Types (heard : gset (NodeId * Ballot * Slot)) (asked : gset (Ballot * Slot)).

(** The configuration a ballot's rounds are judged over: the bootstrap configuration for
    good on a plain deployment, else the one the ballot was registered with, where only the
    ballot before every leadership has the bootstrap's. *)
Definition governing (ballot : Ballot) : NodeConfig :=
  match cfg with
  | None => bootstrap
  | Some registered => if decide (ballot = zero) then bootstrap else registered ballot
  end.

(** What a commit rests on: a delegation, and the votes of a Phase-2 quorum. *)
Definition backed heard asked (ballot : Ballot) (slot : Slot) (command : Command) : Prop :=
  command = cmd ballot slot /\ (ballot, slot) ∈ asked /\
  exists votes : gset NodeId,
    has_phase2_quorum_in (governing ballot) votes (slot_column (governing ballot) slot) = Done true /\
    forall m, m ∈ votes -> (m, ballot, slot) ∈ heard.

Definition message_ok heard asked (id : ProxyId) (bound : Ballot) (m : Audience * Message) : Prop :=
  own_name id m.2 /\ within_ballot bound m.2 /\
  match m.2 with MsgCommit _ ballot slot command => backed heard asked ballot slot command | _ => True end.

(** An open round: the delegated command at the proxy's ballot, in the slot's
    column, with votes the proxy was sent. *)
Record proxy_round heard asked (config : NodeConfig) (ballot : Ballot) (slot : Slot) (r : Round NodeId Command) : Prop := {
  pr_ballot : r_ballot r = ballot;
  pr_command : r_command r = cmd ballot slot;
  pr_column : r_column r = slot_column config slot;
  pr_asked : (ballot, slot) ∈ asked;
  pr_votes : exists votes, r_custody r = Colocated votes /\
    forall m, m ∈ votes -> m ∈ addressees_of config (r_column r) /\ (m, ballot, slot) ∈ heard }.

(** Every delegated round is open or was closed for one counted reason, and a
    step raises at most one of the other counters. *)
Definition accounted p (steps : N) : Prop :=
  let c := px_counters p in
  pc_superseded c + pc_decided c + pc_relayed_nacks c + pc_expired c + msize (rs_by_slot (px_rounds p)) = pc_delegated c /\
  pc_delegated c + pc_refanned c + pc_ignored c <= steps.

Record proxy_wf heard asked (steps : N) p : Prop := {
  pw_config : config_wf (px_acceptors p);
  pw_governs : px_acceptors p = governing (px_ballot p);
  pw_since : (px_since p ≤ px_ballot p)%B;
  pw_dom : dom (px_delegators p) =@{gset Slot} dom (rs_by_slot (px_rounds p));
  pw_rounds : map_Forall (proxy_round heard asked (px_acceptors p) (px_ballot p)) (rs_by_slot (px_rounds p));
  pw_done : msize (px_done p) <= DONE_MEMORY;
  pw_counts : accounted p steps;
  pw_messages : Forall (message_ok heard asked (px_id p) (px_ballot p)) (px_messages p) }.

Lemma proxy_round_wf heard asked config ballot slot r :
  config_wf config -> proxy_round heard asked config ballot slot r -> round_wf config r.
Proof.
  intros Hc [Hb _ Hcol _ (votes & Hv & Hm)]. split.
  - rewrite Hcol. by apply slot_column_valid.
  - unfold round_accepted_by. rewrite Hv. simpl. intros m Hin. by apply Hm.
Qed.

Lemma proxy_rounds_wf heard asked steps p : proxy_wf heard asked steps p -> rounds_wf (px_acceptors p) (px_rounds p).
Proof. intros [Hc _ _ _ Hr _ _ _] slot r Hs. eapply proxy_round_wf; [done|by eapply Hr]. Qed.

Lemma delegator_iff heard asked steps p slot :
  proxy_wf heard asked steps p -> is_Some (px_delegators p !! slot) <-> is_Some (rs_by_slot (px_rounds p) !! slot).
Proof. intros [_ _ _ Hd _ _ _ _]. by rewrite <-!(elem_of_dom (D:=gset Slot)), Hd. Qed.

Lemma all_at_ok heard asked config ballot rounds :
  map_Forall (proxy_round heard asked config ballot) (rs_by_slot rounds) -> all_at rounds ballot = true.
Proof.
  intros Hr. unfold all_at. apply forallb_forall. intros r Hin%list_elem_of_In.
  apply list_elem_of_fmap in Hin as ([slot r'] & -> & Hin%elem_of_bt_entries).
  apply bool_decide_eq_true_2. by destruct (Hr _ _ Hin).
Qed.

Lemma proxy_assert_invariants_ok heard asked steps p :
  proxy_wf heard asked steps p -> proxy_assert_invariants p = Done tt.
Proof.
  intros Hwf. pose proof (fun s => delegator_iff _ _ _ _ s Hwf) as Hd. pose proof Hwf as [_ _ _ _ Hr Hdone _ _].
  unfold proxy_assert_invariants.
  rassert_by (apply Forall_forall; intros s Hs%elem_of_bt_keys; by apply Hd).
  rassert_by (apply Forall_forall; intros s Hs%elem_of_bt_keys; by apply Hd).
  rassert_by idtac.
  { apply Forall_forall. intros r ([s r'] & -> & Hin%elem_of_bt_entries)%list_elem_of_fmap.
    destruct (Hr _ _ Hin) as [_ _ _ _ (v & Hv & _)]. unfold round_proxy. simpl. by rewrite Hv. }
  rassert_by by eapply all_at_ok. by rewrite rassert_true.
Qed.

(** More votes, more delegations and more steps keep the invariant. *)
Lemma backed_mono heard asked heard' asked' b s c :
  heard ⊆ heard' -> asked ⊆ asked' -> backed heard asked b s c -> backed heard' asked' b s c.
Proof. intros Hh Ha (-> & ? & votes & ? & Hv). split; [done|]. split; [by apply Ha|]. exists votes. split_and!; auto. Qed.

Lemma message_mono heard asked heard' asked' id bound bound' m :
  heard ⊆ heard' -> asked ⊆ asked' -> (bound ≤ bound')%B ->
  message_ok heard asked id bound m -> message_ok heard' asked' id bound' m.
Proof.
  intros Hh Ha Hb (? & Hw & Hm). split; [done|]. split; [destruct (m.2); simpl in *; try done; by eapply ord_le_trans|].
  destruct (m.2); try done. by eapply backed_mono.
Qed.

Lemma proxy_round_mono heard asked heard' asked' config ballot slot r :
  heard ⊆ heard' -> asked ⊆ asked' ->
  proxy_round heard asked config ballot slot r -> proxy_round heard' asked' config ballot slot r.
Proof.
  intros Hh Ha [? ? ? ? (votes & ? & Hv)]. constructor; auto. exists votes. split; [done|].
  intros m Hm. destruct (Hv m Hm). auto.
Qed.

Lemma proxy_wf_mono heard asked heard' asked' steps p :
  heard ⊆ heard' -> asked ⊆ asked' -> proxy_wf heard asked steps p -> proxy_wf heard' asked' steps p.
Proof.
  intros Hh Ha []. constructor; auto.
  - intros s r Hr. eapply proxy_round_mono; [done..|by apply pw_rounds0].
  - eapply Forall_impl; [done|]. intros m. by apply message_mono.
Qed.

(** What a handler leaves. *)
Definition stepped heard asked (steps : N) p p' : Prop :=
  proxy_wf heard asked steps p' /\ px_id p' = px_id p /\ (px_ballot p ≤ px_ballot p')%B /\ (px_since p ≤ px_since p')%B.

Lemma stepped_refl heard asked steps steps' p :
  proxy_wf heard asked steps p -> steps <= steps' -> stepped heard asked steps' p p.
Proof.
  intros [] Hs. split; [|split; [done|split; apply ord_le_refl]]. constructor; try done. destruct pw_counts0. split; [done|lia].
Qed.

Lemma count_ignored_ok heard asked steps p :
  proxy_wf heard asked steps p -> steps < u64_max ->
  exists p', count_ignored p = Done p' /\ stepped heard asked (steps + 1) p p'.
Proof.
  intros [] Hs. destruct pw_counts0 as [Hc1 Hc2]. unfold count_ignored. rewrite u64_add_ok by lia. rsimpl. eexists. split; [done|].
  split; [|split; [done|split; apply ord_le_refl]]. constructor; try done. split; simpl; lia.
Qed.

Lemma fan_out_ok p leader ballot slot command column :
  ballot = px_ballot p ->
  fan_out p leader ballot slot command column =
    Done (with_message p (ToAcceptorsOf (px_acceptors p) column)
            (MsgAccept (PartyProxy (px_id p)) leader (px_ballot p) slot command None)).
Proof.
  intros ->. unfold fan_out. rassert_by done. rassert_by (simpl; unfold len; rewrite length_app; simpl; lia). done.
Qed.

Lemma with_message_wf heard asked steps p audience msg :
  proxy_wf heard asked steps p -> message_ok heard asked (px_id p) (px_ballot p) (audience, msg) ->
  proxy_wf heard asked steps (with_message p audience msg).
Proof. intros [] Hm. constructor; try done. simpl. apply Forall_app. split; [done|]. by apply Forall_singleton. Qed.

Lemma fan_out_message heard asked p leader slot command column :
  message_ok heard asked (px_id p) (px_ballot p)
    (ToAcceptorsOf (px_acceptors p) column, MsgAccept (PartyProxy (px_id p)) leader (px_ballot p) slot command None).
Proof. split; [done|]. split; [apply ord_le_refl|done]. Qed.

(** A delegation at the ballot the proxy works for. *)
Lemma delegate_at_ok heard asked steps p leader slot :
  proxy_wf heard asked steps p -> (px_ballot p, slot) ∈ asked -> steps < u64_max ->
  exists p', delegate_at p leader (px_ballot p) slot (cmd (px_ballot p) slot) = Done p' /\
    stepped heard asked (steps + 1) p p'.
Proof.
  intros Hwf Ha Hs. unfold delegate_at. case_decide; [by apply count_ignored_ok|].
  pose proof Hwf as [Hcw Hgov Hsince Hdom Hr Hdone [Hc1 Hc2] Hm]. rewrite config_column_of_ok by done. rsimpl.
  destruct (rs_by_slot (px_rounds p) !! slot) as [r|] eqn:Er.
  - pose proof (Hr _ _ Er) as Hpr. rewrite decide_True by apply Hpr. rewrite rassert_true by apply Hpr. rsimpl.
    unfold count_refanned. rewrite u64_add_ok by (simpl; lia). rsimpl. rewrite fan_out_ok by done. eexists. split; [done|].
    split; [|split; [done|split; apply ord_le_refl]]. apply with_message_wf; [|apply fan_out_message].
    constructor; try done; simpl.
    + rewrite dom_insert_L, Hdom. apply subseteq_union_1_L, singleton_subseteq_l, elem_of_dom. by eexists.
    + split; simpl; lia.
  - rewrite rounds_open_ok by done. rsimpl. unfold count_delegated. rewrite u64_add_ok by (simpl; lia). rsimpl.
    rewrite fan_out_ok by done. rsimpl. rewrite (rassert_true (is_open_at _ _ _ = true)).
    2: { unfold is_open_at. simpl. rewrite lookup_insert_eq. by apply bool_decide_eq_true_2. }
    rsimpl. rewrite rassert_true by (simpl; apply lookup_insert_eq). rsimpl. eexists. split; [done|].
    split; [|split; [done|split; apply ord_le_refl]]. apply with_message_wf; [|apply fan_out_message].
    constructor; try done; simpl.
    + by rewrite !dom_insert_L, Hdom.
    + apply map_Forall_insert_2; [|done]. constructor; try done. simpl. exists ∅. split; [done|]. by intros m ?%elem_of_empty.
    + split; simpl; [|lia]. unfold msize in *. rewrite map_size_insert_None by done. lia.
Qed.

(** *** Closing rounds *)

Definition closed p (slots : list Slot) (done : gmap Slot Ballot) (c : ProxyCounters) : ProxyLeader :=
  mkProxy (px_id p) (px_acceptors p) (px_since p) (px_ballot p)
    (mkRounds (deletes (rs_by_slot (px_rounds p)) slots) (rs_resend_cursor (px_rounds p)))
    (deletes (px_delegators p) slots) done (px_messages p) c.

(** How the rounds that end are counted. *)
Definition ended (c : ProxyCounters) : N := pc_superseded c + pc_decided c + pc_relayed_nacks c + pc_expired c.
Definition began (c : ProxyCounters) : N * N * N := (pc_delegated c, pc_refanned c, pc_ignored c).

Lemma closed_wf heard asked steps p slots done c :
  proxy_wf heard asked steps p -> NoDup slots -> (forall s, s ∈ slots -> is_Some (rs_by_slot (px_rounds p) !! s)) ->
  msize done <= DONE_MEMORY -> began c = began (px_counters p) -> ended c = ended (px_counters p) + len slots ->
  proxy_wf heard asked steps (closed p slots done c).
Proof.
  intros [Hcw Hg Hsi Hdom Hr Hdone [Hc1 Hc2] Hm] Hnd Hin Hd Hb He. constructor; try done; simpl.
  - apply set_eq. intros s. rewrite !elem_of_dom, !lookup_deletes. case_decide; [done|].
    rewrite <-!(elem_of_dom (D:=gset Slot)). by rewrite Hdom.
  - intros s r. rewrite lookup_deletes. case_decide; [done|]. apply Hr.
  - pose proof (msize_deletes _ slots Hnd Hin) as Hs. unfold began, ended in *. injection Hb as Eb1 Eb2 Eb3. split; simpl; [|by rewrite Eb1, Eb2, Eb3].
    rewrite Eb1. lia.
Qed.

Lemma closes_bounded heard asked steps p (slots : list Slot) :
  proxy_wf heard asked steps p -> NoDup slots -> (forall s, s ∈ slots -> is_Some (rs_by_slot (px_rounds p) !! s)) ->
  ended (px_counters p) + len slots <= steps.
Proof.
  intros [_ _ _ _ _ _ [Hc1 Hc2] _] Hnd Hin. pose proof (msize_deletes _ slots Hnd Hin) as Hs. unfold ended. lia.
Qed.

Definition add_superseded (c : ProxyCounters) (n : N) : ProxyCounters :=
  mkCounters (pc_delegated c) (pc_refanned c) (pc_ignored c) (pc_decided c) (pc_relayed_nacks c) (pc_superseded c + n) (pc_expired c).
Definition add_expired (c : ProxyCounters) (n : N) : ProxyCounters :=
  mkCounters (pc_delegated c) (pc_refanned c) (pc_ignored c) (pc_decided c) (pc_relayed_nacks c) (pc_superseded c) (pc_expired c + n).

Lemma forget_superseded_ok p l :
  pc_superseded (px_counters p) + len l <= u64_max ->
  foldM forget_superseded p l =
    Done (with_counters (with_tally p (px_rounds p) (deletes (px_delegators p) l)) (add_superseded (px_counters p) (len l))).
Proof.
  revert p. unfold len. induction l as [|s l IH]; intros p Hl; cbn [foldM length] in *.
  - unfold add_superseded. rewrite N.add_0_r. by destruct p as [? ? ? ? ? ? ? ? []].
  - unfold forget_superseded at 2, count_superseded. rewrite u64_add_ok by (simpl; lia). rsimpl.
    rewrite IH by (simpl; lia). unfold with_counters, with_tally, add_superseded, deletes. simpl. do 3 f_equal. lia.
Qed.

Lemma evict_ok p l :
  pc_expired (px_counters p) + len l <= u64_max ->
  foldM evict p l = Done (closed p l (px_done p) (add_expired (px_counters p) (len l))).
Proof.
  revert p. unfold len. induction l as [|s l IH]; intros p Hl; cbn [foldM length] in *.
  - unfold add_expired. rewrite N.add_0_r. by destruct p as [? ? ? ? [] ? ? ? []].
  - unfold evict at 2, count_expired. rewrite u64_add_ok by (simpl; lia). rsimpl.
    rewrite IH by (simpl; lia). unfold closed, add_expired, deletes. simpl. do 3 f_equal. lia.
Qed.

(** A higher ballot closes every round of the superseded leadership. *)
Lemma proxy_close_below_ok heard asked steps p ballot :
  proxy_wf heard asked steps p -> (px_ballot p < ballot)%B -> steps < u64_max ->
  let slots := bt_keys (rs_by_slot (px_rounds p)) in
  let p' := closed p slots (px_done p) (add_superseded (px_counters p) (len slots)) in
  proxy_close_below (with_ballot p ballot) ballot = Done (with_ballot p' ballot) /\
  rs_by_slot (px_rounds p') = ∅ /\ proxy_wf heard asked steps p'.
Proof.
  intros Hwf Hlt Hs slots p'.
  assert (NoDup slots) as Hnd by apply NoDup_bt_keys.
  assert (forall s, s ∈ slots -> is_Some (rs_by_slot (px_rounds p) !! s)) as Hin by (intros s; apply elem_of_bt_keys).
  pose proof (closes_bounded _ _ _ _ _ Hwf Hnd Hin) as Hbound.
  assert (deletes (rs_by_slot (px_rounds p)) slots = ∅) as Hemp.
  { apply map_eq. intros s. rewrite lookup_deletes, lookup_empty. case_decide as Hk; [done|].
    destruct (rs_by_slot (px_rounds p) !! s) eqn:E; [|done]. destruct Hk. apply elem_of_bt_keys. by eexists. }
  split_and!; [|done|].
  - unfold proxy_close_below, close_below. cbn [px_rounds with_ballot].
    assert (filter (fun e : Slot * Round NodeId Command => (r_ballot e.2 < ballot)%B) (bt_entries (rs_by_slot (px_rounds p)))
      = bt_entries (rs_by_slot (px_rounds p))) as ->.
    { apply filter_all, Forall_forall. intros [s r] Hsr%elem_of_bt_entries. simpl.
      by rewrite (pr_ballot _ _ _ _ _ _ (pw_rounds _ _ _ _ Hwf _ _ Hsr)). }
    fold (bt_keys (rs_by_slot (px_rounds p))). fold slots.
    change (foldl (fun m slot => delete slot m) (rs_by_slot (px_rounds p)) slots) with (deletes (rs_by_slot (px_rounds p)) slots).
    rewrite Hemp. rewrite (rassert_true (Forall _ _)) by (simpl; constructor). rsimpl.
    rewrite forget_superseded_ok by (unfold ended in Hbound; simpl; lia). rsimpl.
    rassert_by (unfold all_at; done). unfold mret, run_ret. f_equal. unfold p', closed. simpl. by rewrite Hemp.
  - apply closed_wf; try done; [apply Hwf|]. unfold ended, add_superseded. simpl. lia.
Qed.

(** *** Delegations *)

Definition with_config p config since ballot : ProxyLeader :=
  mkProxy (px_id p) config since ballot (px_rounds p) (px_delegators p) (px_done p) (px_messages p) (px_counters p).

Lemma raised_wf heard asked steps p config since ballot :
  proxy_wf heard asked steps p -> config_wf config -> config = governing ballot -> (px_ballot p ≤ ballot)%B -> (since ≤ ballot)%B ->
  (rs_by_slot (px_rounds p) = ∅ \/ config = px_acceptors p /\ ballot = px_ballot p) ->
  proxy_wf heard asked steps (with_config p config since ballot).
Proof.
  intros [Hw Hg Hsi Hdom Hr Hdone Hc Hm] Hcw Hgov Hle Hs Hcase. constructor; try done; simpl.
  - destruct Hcase as [Hemp|[-> ->]]; [|done]. rewrite Hemp. apply map_Forall_empty.
  - eapply Forall_impl; [done|]. intros m. by apply message_mono.
Qed.

(** What a delegation carries: the ballot's command, and its configuration. *)
Definition delegation_ok (ballot : Ballot) (slot : Slot) (command : Command) (config : option NodeConfig) : Prop :=
  command = cmd ballot slot /\ config = (fun registered => registered ballot) <$> cfg /\ is_none_or config_wf config.

(** The ballot moves, then the configuration. *)
Lemma learn_config_ok heard asked steps p ballot slot command config :
  proxy_wf heard asked steps p -> delegation_ok ballot slot command config -> (px_ballot p ≤ ballot)%B ->
  (rs_by_slot (px_rounds p) = ∅ \/ ballot = px_ballot p) ->
  exists p', learn_config (with_ballot p ballot) ballot config = Done p' /\ stepped heard asked steps p p' /\ px_ballot p' = ballot.
Proof.
  intros Hwf (_ & Hcfg & Hcw) Hle Hcase. pose proof Hwf as [Hw Hg Hsi _ _ _ _ _].
  assert (forall config since, config_wf config -> config = governing ballot -> (px_since p ≤ since)%B -> (since ≤ ballot)%B ->
    (rs_by_slot (px_rounds p) = ∅ \/ config = px_acceptors p /\ ballot = px_ballot p) ->
    stepped heard asked steps p (with_config p config since ballot)) as Hnew
    by (intros; split; [by apply raised_wf|done]).
  unfold learn_config. destruct config as [c|].
  - simpl in Hcw. cbn [px_since with_ballot]. case_decide as Hd.
    + eexists. split; [done|]. split; [|done]. apply (Hnew (px_acceptors p) (px_since p)); try done.
      * assert (ballot = px_ballot p) as ->. { apply ord_le_antisymm; [by eapply ord_le_trans|done]. } done.
      * by eapply ord_le_trans.
      * right. split; [done|]. apply ord_le_antisymm; [by eapply ord_le_trans|done].
    + rewrite rassert_true by done. rsimpl. eexists. split; [done|]. split; [|done].
      assert (ballot <> zero) as Hnz by (intros ->; apply Hd, zero_le).
      assert (c = governing ballot) as Hgov.
      { unfold governing. destruct cfg; simpl in Hcfg; [|done]. rewrite decide_False by done. congruence. }
      apply (Hnew c ballot); [done|done|by apply ord_lt_le|apply ord_le_refl|].
      destruct Hcase as [?|Hb]; [by left|right]. split; [|done]. by rewrite Hgov, Hb.
  - eexists. split; [done|]. split; [|done]. apply (Hnew (px_acceptors p) (px_since p)); try done.
    + rewrite Hg. unfold governing. by destruct cfg.
    + by eapply ord_le_trans.
    + destruct Hcase; auto.
Qed.

Lemma stepped_trans heard asked steps steps' p q r :
  stepped heard asked steps p q -> stepped heard asked steps' q r -> stepped heard asked steps' p r.
Proof.
  intros (_ & Ei & Hb & Hs) (Hwf & Ei' & Hb' & Hs'). split; [done|]. split; [congruence|]. split; by eapply ord_le_trans.
Qed.

Lemma on_delegated_ok heard asked steps p reply_to leader ballot slot command config :
  proxy_wf heard asked steps p -> (reply_to = PartyProxy (px_id p) -> delegation_ok ballot slot command config) ->
  (ballot, slot) ∈ asked \/ reply_to <> PartyProxy (px_id p) -> steps < u64_max ->
  exists p', on_delegated p reply_to leader ballot slot command config = Done p' /\ stepped heard asked (steps + 1) p p'.
Proof.
  intros Hwf Hd Ha Hs. unfold on_delegated. case_decide as Hto; [by apply count_ignored_ok|].
  specialize (Hd Hto). destruct Ha as [Ha|?]; [|done].
  case_decide as Hlt; [by apply count_ignored_ok|]. apply ord_not_lt in Hlt.
  assert (exists q, (if decide (px_ballot p < ballot)%B then proxy_close_below (with_ballot p ballot) ballot else mret p) =
    Done (with_ballot q ballot) /\ stepped heard asked steps p q /\
    (px_ballot q ≤ ballot)%B /\ (rs_by_slot (px_rounds q) = ∅ \/ ballot = px_ballot q)) as (q & -> & Hpq & Hle & Hcase).
  { case_decide as Hgt.
    - destruct (proxy_close_below_ok _ _ _ _ _ Hwf Hgt Hs) as (-> & Hemp & Hwf'). eexists. split; [done|].
      split; [|split; [done|by left]]. split; [done|]. split; [done|]. split; apply ord_le_refl.
    - apply ord_not_lt in Hgt. assert (px_ballot p = ballot) as <- by by apply ord_le_antisymm.
      exists p. split; [by destruct p|]. split; [by apply (stepped_refl _ _ steps)|]. split; [apply ord_le_refl|by right]. }
  rsimpl. destruct Hpq as (Hwfq & Hpq).
  destruct (learn_config_ok _ _ _ _ _ _ _ _ Hwfq Hd Hle Hcase) as (p1 & -> & Hq1 & <-). rsimpl.
  destruct Hd as (-> & _ & _).
  destruct (delegate_at_ok heard asked steps p1 leader slot) as (p2 & -> & H12); [apply Hq1|done..|].
  exists p2. split; [done|]. eapply stepped_trans; [|done]. eapply stepped_trans; [|done]. by split.
Qed.

(** *** Votes *)

Lemma with_vote_round heard asked config ballot slot (r r' : Round NodeId Command) from :
  proxy_round heard asked config ballot slot r -> with_vote r from = Some r' ->
  from ∈ addressees_of config (r_column r) -> (from, ballot, slot) ∈ heard ->
  proxy_round heard asked config ballot slot r'.
Proof.
  intros [Hb Hc Hcol Ha (votes & Hv & Hm)] Hw Hf Hh. unfold with_vote in Hw. rewrite Hv in Hw. injection Hw as <-.
  constructor; try done. simpl. eexists. split; [done|]. intros m [->%elem_of_singleton|?]%elem_of_union; auto.
Qed.

Lemma set_round_proxy_wf heard asked steps p slot r :
  proxy_wf heard asked steps p -> is_Some (rs_by_slot (px_rounds p) !! slot) ->
  proxy_round heard asked (px_acceptors p) (px_ballot p) slot r ->
  proxy_wf heard asked steps (with_tally p (set_round (px_rounds p) slot r) (px_delegators p)).
Proof.
  intros [Hcw Hg Hsi Hdom Hr Hdone [Hc1 Hc2] Hm] Hs Hnew. constructor; try done; simpl.
  - rewrite dom_insert_L, Hdom. symmetry. by apply subseteq_union_1_L, singleton_subseteq_l, elem_of_dom.
  - by apply map_Forall_insert_2.
  - split; [simpl|done]. unfold msize in *. by rewrite map_size_insert_Some.
Qed.

Definition add_decided (c : ProxyCounters) : ProxyCounters :=
  mkCounters (pc_delegated c) (pc_refanned c) (pc_ignored c) (pc_decided c + 1) (pc_relayed_nacks c) (pc_superseded c) (pc_expired c).
Definition add_relayed (c : ProxyCounters) : ProxyCounters :=
  mkCounters (pc_delegated c) (pc_refanned c) (pc_ignored c) (pc_decided c) (pc_relayed_nacks c + 1) (pc_superseded c) (pc_expired c).

Lemma close_one heard asked steps p slot r :
  proxy_wf heard asked steps p -> rs_by_slot (px_rounds p) !! slot = Some r ->
  NoDup [slot] /\ (forall s, s ∈ [slot] -> is_Some (rs_by_slot (px_rounds p) !! s)) /\ ended (px_counters p) + 1 <= steps.
Proof.
  intros Hwf Hr.
  assert (NoDup [slot]) as Hnd by apply NoDup_singleton.
  assert (forall s, s ∈ [slot] -> is_Some (rs_by_slot (px_rounds p) !! s)) as Hin
    by (intros s ->%list_elem_of_singleton; by eexists).
  split_and!; [done..|]. exact (closes_bounded _ _ _ _ _ Hwf Hnd Hin).
Qed.

(** A quorum of votes closes the round with one commit. *)
Definition decided_step p (slot : Slot) (ballot : Ballot) (command : Command) : ProxyLeader :=
  let done := <[slot := ballot]> (px_done p) in
  with_message (closed p [slot] (pop_over (size done) done) (add_decided (px_counters p)))
    ToLearners (MsgCommit (PartyProxy (px_id p)) ballot slot command).

Lemma decide_slot_ok heard asked steps p slot r votes :
  proxy_wf heard asked steps p -> steps < u64_max -> rs_by_slot (px_rounds p) !! slot = Some r ->
  r_custody r = Colocated votes ->
  phase2_holds (c_quorum_system (px_acceptors p)) (c_members (px_acceptors p)) votes (r_column r) ->
  stepped heard asked steps p (decided_step p slot (px_ballot p) (r_command r)).
Proof.
  intros Hwf Hs Hr Hv Hq. destruct (close_one _ _ _ _ _ _ Hwf Hr) as (Hnd & Hin & Hb).
  pose proof (pw_rounds _ _ _ _ Hwf _ _ Hr) as [Eb Ec Ecol Ha (votes' & Hv' & Hm)].
  rewrite Hv in Hv'. injection Hv' as <-. pose proof (pw_governs _ _ _ _ Hwf) as Hg.
  split; [|split; [done|split; apply ord_le_refl]]. apply with_message_wf.
  - apply closed_wf; try done; [by apply pop_over_bounded|]. unfold ended, len. simpl. lia.
  - split; [done|]. split; [apply ord_le_refl|]. split; [done|]. split; [done|].
    exists votes. rewrite <-Hg. split; [|by intros m [_ ?]%Hm]. pose proof (pw_config _ _ _ _ Hwf) as Hcw.
    rewrite <-Ecol. pose proof (slot_column_valid _ Hcw slot) as Hval. rewrite <-Ecol in Hval.
    rewrite has_phase2_quorum_in_ok by (done || by apply column_valid_names in Hval as [? _]).
    by rewrite bool_decide_eq_true_2.
Qed.

(** The votes a proxy is sent name the command its ballot proposed. *)
Lemma proxy_on_accepted_ok heard asked steps p from ballot slot vhash :
  proxy_wf heard asked steps p -> (from, ballot, slot) ∈ heard -> vhash = command_fingerprint (cmd ballot slot) ->
  steps < u64_max ->
  exists p', proxy_on_accepted p from ballot slot vhash = Done p' /\ stepped heard asked steps p p'.
Proof.
  intros Hwf Hh Hvh Hs. pose proof Hwf as [Hcw Hgov Hsi Hdom Hr Hdone Hc Hm]. unfold proxy_on_accepted.
  assert (stepped heard asked steps p p) as Hid by by apply (stepped_refl _ _ steps).
  destruct (rs_by_slot (px_rounds p) !! slot) as [r|] eqn:Er.
  2: { unfold rounds_fold_accepted_in, rounds_column. rewrite Er. simpl. exists p. split; [by destruct p|done]. }
  pose proof (Hr _ _ Er) as Hpr. pose proof Hpr as [Eb Ec Ecol Ha (votes & Hv & Hvm)].
  erewrite rounds_fold_accepted_in_ok; [|done|done|by eapply proxy_round_wf|].
  2: { intros <-. rewrite Hvh, Ec, Eb. done. }
  unfold with_vote at 1. rewrite Hv. case_decide as Hd; rsimpl; [|exists p; split; [by destruct p|done]].
  destruct Hd as [<- Hf]. simpl. set (r' := mkRound _ _ _ _ _ _).
  assert (proxy_round heard asked (px_acceptors p) (px_ballot p) slot r') as Hpr'.
  { apply (with_vote_round heard asked (px_acceptors p) (px_ballot p) slot r r' from); try done; [unfold with_vote; by rewrite Hv|by rewrite <-Eb]. }
  set (q := with_tally p (set_round (px_rounds p) slot r') (px_delegators p)).
  assert (proxy_wf heard asked steps q) as Hwfq by (apply set_round_proxy_wf; [done|by eexists|done]).
  assert (rs_by_slot (px_rounds q) !! slot = Some r') as Eq by (simpl; apply lookup_insert_eq).
  change (set_round (px_rounds p) slot r') with (px_rounds q).
  erewrite rounds_decided_ok; [|done|done|done|by eapply proxy_round_wf]. rsimpl.
  case_decide as Hq; [|exists q; split; [done|]; split; [done|]; split; [done|]; split; apply ord_le_refl].
  destruct (close_one _ _ _ _ _ _ Hwfq Eq) as (_ & _ & Hb).
  exists (decided_step q slot (px_ballot q) (r_command r')). split.
  - simpl in Eb. cbn [r_ballot r_command r']. rassert_by (by rewrite Hvh, Ec, Eb). unfold remember_done. cbn zeta. rewrite (rassert_true (r_ballot r = _)) by done. rsimpl.
    rewrite (rassert_true (msize _ <= _)) by by apply pop_over_bounded. rsimpl.
    unfold count_decided. unfold ended in Hb. change (px_counters q) with (px_counters p) in Hb.
    rewrite u64_add_ok by (cbn [px_counters with_tally pc_decided q]; lia). rsimpl.
    rassert_by (unfold rounds_column; simpl; by rewrite lookup_delete_eq).
    rassert_by (simpl; apply lookup_delete_eq). rewrite Eb. done.
  - eapply (decide_slot_ok _ _ _ q slot r'); [done..|]. exact Hq.
Qed.

Lemma proxy_on_nack_ok heard asked steps p from ballot slot :
  proxy_wf heard asked steps p -> steps < u64_max ->
  exists p', proxy_on_nack p from ballot slot = Done p' /\ stepped heard asked steps p p'.
Proof.
  intros Hwf Hs. unfold proxy_on_nack. rewrite config_contains_ok by apply (pw_config _ _ _ _ Hwf). rsimpl.
  case_decide as Hd; [exists p; split; [done|by apply (stepped_refl _ _ steps)]|].
  destruct (rs_by_slot (px_rounds p) !! slot) as [r|] eqn:Er.
  2: { destruct Hd. right. unfold is_open_at. by rewrite Er. }
  destruct (close_one _ _ _ _ _ _ Hwf Er) as (Hnd & Hin & Hb).
  destruct (px_delegators p !! slot) as [leader|] eqn:El.
  2: { assert (is_Some (px_delegators p !! slot)) as [? ?] by (eapply delegator_iff; [done|by eexists]). congruence. }
  unfold count_relayed. unfold ended in Hb. rewrite u64_add_ok by (cbn [px_counters with_tally]; lia). rsimpl.
  rewrite rassert_true by (unfold is_open_at; simpl; by rewrite lookup_delete_eq). rsimpl.
  exists (with_message (closed p [slot] (px_done p) (add_relayed (px_counters p))) (ToNode leader) (MsgNack from ballot slot)).
  split; [done|]. split; [|split; [done|split; apply ord_le_refl]]. apply with_message_wf; [|done].
  apply closed_wf; try done; [apply Hwf|]. unfold ended, len. simpl. lia.
Qed.

(** *** The step *)

(** What the network may hand the proxy. *)
Definition message_sound heard asked (id : ProxyId) (msg : Message) : Prop :=
  match msg with
  | MsgAccept reply_to _ ballot slot command config =>
      (reply_to = PartyProxy id -> delegation_ok ballot slot command config) /\
      ((ballot, slot) ∈ asked \/ reply_to <> PartyProxy id)
  | MsgAccepted from ballot slot vhash => (from, ballot, slot) ∈ heard /\ vhash = command_fingerprint (cmd ballot slot)
  | _ => True
  end.

Lemma proxy_step_ok heard asked steps p msg :
  proxy_wf heard asked steps p -> message_sound heard asked (px_id p) msg -> steps < u64_max ->
  exists p', proxy_step p msg = Done p' /\ stepped heard asked (steps + 1) p p'.
Proof.
  intros Hwf Hmsg Hs. unfold proxy_step.
  assert (exists p', (match msg with
      | MsgAccept reply_to leader ballot slot command config => on_delegated p reply_to leader ballot slot command config
      | MsgAccepted from ballot slot vhash => proxy_on_accepted p from ballot slot vhash
      | MsgNack from ballot slot => proxy_on_nack p from ballot slot
      | _ => mret p
      end) = Done p' /\ stepped heard asked (steps + 1) p p') as (p' & -> & Hst).
  { assert (forall q, stepped heard asked steps p q -> stepped heard asked (steps + 1) p q) as Hlift.
    { intros q Hq. eapply stepped_trans; [done|]. apply (stepped_refl _ _ steps); [apply Hq|lia]. }
    destruct msg; simpl in Hmsg.
    - destruct Hmsg. by apply on_delegated_ok.
    - destruct (proxy_on_accepted_ok heard asked steps p from ballot slot vhash) as (p' & ? & ?); [tauto..|]. eauto.
    - destruct (proxy_on_nack_ok heard asked steps p from ballot slot) as (p' & ? & ?); [done..|]. eauto.
    - exists p. split; [done|]. by apply Hlift, (stepped_refl _ _ steps).
    - exists p. split; [done|]. by apply Hlift, (stepped_refl _ _ steps). }
  pose proof Hst as (Hwf' & _ & Hb & Hsi). rsimpl.
  rewrite (rassert_true (px_ballot p ≤ px_ballot p')%B) by done. rsimpl. rewrite rassert_true by done. rsimpl.
  rewrite (proxy_assert_invariants_ok _ _ _ _ Hwf'). rsimpl. by exists p'.
Qed.

(** *** Re-sends, evictions and drains *)

Lemma with_page_wf heard asked steps p limit :
  proxy_wf heard asked steps p ->
  proxy_wf heard asked steps (with_tally p (rounds_after_page (px_rounds p) limit) (px_delegators p)).
Proof.
  intros [Hcw Hg Hsi Hdom Hr Hdone [Hc1 Hc2] Hm]. constructor; try done; simpl.
  - by rewrite count_resends_dom, Hdom.
  - intros s r' Hr'. destruct (rs_by_slot (px_rounds p) !! s) as [r|] eqn:Er.
    + destruct (count_resends_same (page_of_rounds (px_rounds p) limit) _ _ _ Er) as (r2 & E2 & (Eb & Ec & Ecu & Ecol & _)).
      rewrite Hr' in E2. injection E2 as <-. destruct (Hr _ _ Er) as [? ? ? ? (votes & ? & ?)].
      constructor; try congruence. exists votes. rewrite Ecol. split; [congruence|done].
    + exfalso. apply (not_elem_of_dom (D:=gset Slot)) in Er. rewrite <-(count_resends_dom (page_of_rounds (px_rounds p) limit)) in Er.
      apply not_elem_of_dom in Er. congruence.
  - split; [|done]. simpl. unfold msize in *. rewrite <-!(size_dom (D:=gset Slot)), count_resends_dom in *. done.
Qed.

Lemma resend_all_ok heard asked steps (page : list (PendingAccept Command)) p :
  proxy_wf heard asked steps p -> (forall a, a ∈ page -> is_Some (px_delegators p !! pa_slot a) /\ pa_ballot a = px_ballot p) ->
  exists p', foldM resend_one p page = Done p' /\ proxy_wf heard asked steps p' /\
    px_id p' = px_id p /\ px_ballot p' = px_ballot p /\ px_since p' = px_since p /\ px_rounds p' = px_rounds p.
Proof.
  revert p. induction page as [|a page IH]; intros p Hwf Hpage; cbn [foldM]; [by exists p|].
  destruct (Hpage a) as [[leader Hl] Hb]; [by left|]. unfold resend_one at 2. rewrite Hl. cbn [rexpect]. rsimpl.
  rewrite fan_out_ok by done. rsimpl.
  destruct (IH (with_message p (ToAcceptorsOf (px_acceptors p) (pa_column a))
    (MsgAccept (PartyProxy (px_id p)) leader (px_ballot p) (pa_slot a) (pa_command a) None))) as (p' & -> & Hp').
  - apply with_message_wf; [done|apply fan_out_message].
  - intros a' Ha'. apply (Hpage a'). by right.
  - by exists p'.
Qed.

Lemma resend_pending_ok heard asked steps p :
  proxy_wf heard asked steps p ->
  exists p', resend_pending p = Done p' /\ stepped heard asked steps p p'.
Proof.
  intros Hwf. unfold resend_pending. rewrite resend_page_ok by done. rsimpl.
  destruct (resend_all_ok heard asked steps (page_of_rounds (px_rounds p) RESEND_BATCH)
    (with_tally p (rounds_after_page (px_rounds p) RESEND_BATCH) (px_delegators p))) as (p' & -> & Hwf' & Ei & Eb & Es & _).
  - by apply with_page_wf.
  - intros a (r & Hr & ->)%page_slots_open. simpl. split; [eapply delegator_iff; [done|by eexists]|].
    by apply (pw_rounds _ _ _ _ Hwf _ _ Hr).
  - rsimpl. rewrite rassert_true by done. rsimpl. rewrite (proxy_assert_invariants_ok _ _ _ _ Hwf'). rsimpl.
    exists p'. split; [done|]. split; [done|]. split; [done|]. rewrite Eb, Es. split; apply ord_le_refl.
Qed.

Lemma stalled_slots (rounds : Rounds NodeId Command) after s :
  s ∈ (filter (fun e : Slot * Round NodeId Command => after <= r_resends e.2) (bt_entries (rs_by_slot rounds))).*1 <->
  is_some_and (fun r => after <= r_resends r) (rs_by_slot rounds !! s).
Proof.
  rewrite list_elem_of_fmap. split.
  - intros ([k r] & -> & [Ha Hin%elem_of_bt_entries]%list_elem_of_filter). simpl in *. by rewrite Hin.
  - destruct (rs_by_slot rounds !! s) as [r|] eqn:Er; [|done]. simpl. intros Ha. exists (s, r). split; [done|].
    by apply list_elem_of_filter; split; [|apply elem_of_bt_entries].
Qed.

Lemma expire_stale_ok heard asked steps p after :
  proxy_wf heard asked steps p -> steps < u64_max ->
  exists p' stale, expire_stale p after = Done (p', stale) /\ stepped heard asked steps p p'.
Proof.
  intros Hwf Hs. unfold expire_stale, rounds_stalled.
  pose proof (stalled_slots (px_rounds p) after) as Hst.
  set (stale := (filter _ (bt_entries (rs_by_slot (px_rounds p)))).*1) in *.
  assert (stale `sublist_of` bt_keys (rs_by_slot (px_rounds p))) as Hsub by apply fmap_sublist, sublist_filter.
  assert (NoDup stale) as Hnd by (eapply sublist_NoDup; [apply (NoDup_bt_keys (rs_by_slot (px_rounds p)))|done]).
  assert (forall s, s ∈ stale -> is_Some (rs_by_slot (px_rounds p) !! s)) as Hin.
  { intros s Hs'%Hst. destruct (rs_by_slot (px_rounds p) !! s); [by eexists|done]. }
  rewrite (rassert_true (sorted_members stale)).
  2: { apply StronglySorted_Sorted. eapply StronglySorted_sublist; [done|apply bt_keys_sorted]. }
  rsimpl. rewrite (rassert_true (Forall _ stale)) by (apply Forall_forall; intros s; apply Hst). rsimpl.
  pose proof (closes_bounded _ _ _ _ _ Hwf Hnd Hin) as Hb.
  rewrite evict_ok by (unfold ended in Hb; lia). rsimpl. set (p' := closed _ _ _ _).
  assert (proxy_wf heard asked steps p') as Hwf'.
  { apply closed_wf; try done; [apply Hwf|]. unfold ended, add_expired. simpl. lia. }
  exists p', stale. split; [|split; [done|split; [done|split; apply ord_le_refl]]].
  rassert_by (apply Forall_forall; intros s Hs'; unfold rounds_column; simpl; by rewrite lookup_deletes, decide_True).
  rassert_by idtac.
  { apply Forall_forall. intros r ([s r'] & -> & Hin'%elem_of_bt_entries)%list_elem_of_fmap. simpl in *.
    rewrite lookup_deletes in Hin'. case_decide as Hk; [done|]. destruct (decide (after <= r_resends r')); [|lia].
    destruct Hk. apply Hst. by rewrite Hin'. }
  rewrite (proxy_assert_invariants_ok _ _ _ _ Hwf'). done.
Qed.

Lemma proxy_messages_ok heard asked steps p :
  proxy_wf heard asked steps p -> proxy_messages p = Done (px_messages p).
Proof.
  intros [_ _ _ _ _ _ _ Hm]. unfold proxy_messages.
  rassert_by (eapply Forall_impl; [done|by intros m [? _]]).
  rassert_by (eapply Forall_impl; [done|by intros m (_ & ? & _)]). done.
Qed.

Lemma proxy_queries_ok heard asked steps p slot :
  proxy_wf heard asked steps p -> returns (has_pending_accepts p) /\ returns (proxy_delegator p slot).
Proof.
  intros Hwf. pose proof (pw_dom _ _ _ _ Hwf) as Hd. split.
  - eexists. unfold has_pending_accepts. rassert_by idtac; [|done].
    assert (px_delegators p = ∅ <-> rs_by_slot (px_rounds p) = ∅) as He
      by by rewrite <-!(dom_empty_iff_L (D:=gset Slot)), Hd.
    unfold rounds_is_empty. destruct (decide (rs_by_slot (px_rounds p) = ∅)) as [E|E].
    + rewrite bool_decide_eq_false_2 by tauto. by rewrite bool_decide_eq_true_2 by tauto.
    + rewrite bool_decide_eq_true_2 by tauto. by rewrite bool_decide_eq_false_2 by tauto.
  - eexists. unfold proxy_delegator. case_decide as Hs; [|done].
    rewrite rassert_true; [done|]. unfold rounds_column. apply fmap_is_Some. by eapply delegator_iff.
Qed.

(** ** The world around a proxy *)

Record ProxyWorld := mkProxyWorld {
  yw_proxy : ProxyLeader;
  yw_heard : gset (NodeId * Ballot * Slot);
  yw_asked : gset (Ballot * Slot);
  yw_sent : list (Audience * Message);
  yw_steps : N }.
Implicit Types w : ProxyWorld.

Inductive ProxyLabel :=
| YStep (msg : Message)
| YResend
| YExpire (after : N)
| YDrain.

(** A message that arrives is a vote heard, or a round asked for of this proxy. *)
Definition hear heard (msg : Message) : gset (NodeId * Ballot * Slot) :=
  match msg with MsgAccepted from ballot slot _ => {[ (from, ballot, slot) ]} ∪ heard | _ => heard end.
Definition ask (id : ProxyId) asked (msg : Message) : gset (Ballot * Slot) :=
  match msg with
  | MsgAccept reply_to _ ballot slot _ _ => if decide (reply_to = PartyProxy id) then {[ (ballot, slot) ]} ∪ asked else asked
  | _ => asked
  end.

Definition proxy_happens w (l : ProxyLabel) : run ProxyWorld :=
  match l with
  | YStep msg =>
      p ← proxy_step (yw_proxy w) msg;
      mret (mkProxyWorld p (hear (yw_heard w) msg) (ask (px_id (yw_proxy w)) (yw_asked w) msg) (yw_sent w) (yw_steps w + 1))
  | YResend =>
      p ← resend_pending (yw_proxy w);
      mret (mkProxyWorld p (yw_heard w) (yw_asked w) (yw_sent w) (yw_steps w))
  | YExpire after =>
      '(p, _) ← expire_stale (yw_proxy w) after;
      mret (mkProxyWorld p (yw_heard w) (yw_asked w) (yw_sent w) (yw_steps w))
  | YDrain =>
      messages ← proxy_messages (yw_proxy w);
      mret (mkProxyWorld (proxy_advance (yw_proxy w)) (yw_heard w) (yw_asked w) (yw_sent w ++ messages) (yw_steps w))
  end.

(** The leaders that delegate to this proxy propose one command per ballot and slot and name
    the ballot's configuration, if there is one; an acceptor's vote names the command it accepted; and the
    proxy is handed fewer than [2^64 - 1] messages. *)
Definition proxy_enabled w (l : ProxyLabel) : Prop :=
  yw_steps w < u64_max /\
  match l with
  | YStep (MsgAccept reply_to _ ballot slot command config) =>
      reply_to = PartyProxy (px_id (yw_proxy w)) -> delegation_ok ballot slot command config
  | YStep (MsgAccepted _ ballot slot vhash) => vhash = command_fingerprint (cmd ballot slot)
  | _ => True
  end.

Inductive proxy_reachable (id : ProxyId) : ProxyWorld -> Prop :=
| proxy_start p : proxy_new id bootstrap = Done p -> proxy_reachable id (mkProxyWorld p ∅ ∅ [] 0)
| proxy_moves w l w' :
    proxy_reachable id w -> proxy_enabled w l -> proxy_happens w l = Done w' ->
    proxy_reachable id w'.

Definition world_wf (id : ProxyId) w : Prop :=
  proxy_wf (yw_heard w) (yw_asked w) (yw_steps w) (yw_proxy w) /\ px_id (yw_proxy w) = id /\
  forall m, m ∈ yw_sent w -> exists bound, message_ok (yw_heard w) (yw_asked w) id bound m.

Lemma proxy_new_wf id :
  config_wf bootstrap -> exists p, proxy_new id bootstrap = Done p /\ world_wf id (mkProxyWorld p ∅ ∅ [] 0).
Proof.
  intros Hc. set (p := mkProxy id bootstrap zero zero rounds_empty ∅ ∅ [] (mkCounters 0 0 0 0 0 0 0)).
  assert (proxy_wf ∅ ∅ 0 p) as Hwf.
  { constructor; try done; simpl. unfold governing. by destruct cfg. }
  exists p. split; [|split; [done|split; [done|by intros m ?%not_elem_of_nil]]].
  unfold proxy_new. fold p. by rewrite (proxy_assert_invariants_ok _ _ _ _ Hwf).
Qed.

Lemma proxy_happens_ok id w l :
  world_wf id w -> proxy_enabled w l -> exists w', proxy_happens w l = Done w' /\ world_wf id w'.
Proof.
  intros (Hwf & Hid & Hsent) [Hs Hen].
  assert (forall p', stepped (yw_heard w) (yw_asked w) (yw_steps w) (yw_proxy w) p' ->
    world_wf id (mkProxyWorld p' (yw_heard w) (yw_asked w) (yw_sent w) (yw_steps w))) as Hstill.
  { intros p' (Hwf' & Hid' & _). split; [done|]. split; [simpl; congruence|done]. }
  destruct l as [msg| |after|]; simpl.
  - assert (yw_heard w ⊆ hear (yw_heard w) msg) as Hh by (destruct msg; simpl; try reflexivity; apply union_subseteq_r).
    assert (yw_asked w ⊆ ask (px_id (yw_proxy w)) (yw_asked w) msg) as Ha
      by (destruct msg; simpl; try case_decide; try reflexivity; apply union_subseteq_r).
    destruct (proxy_step_ok (hear (yw_heard w) msg) (ask (px_id (yw_proxy w)) (yw_asked w) msg) (yw_steps w) (yw_proxy w) msg)
      as (p' & -> & Hst & Hid' & _); [by eapply proxy_wf_mono| |done|].
    { destruct msg; simpl in *; try done; split; try done; [case_decide; [left|by right]|];
        apply elem_of_union; left; by apply elem_of_singleton. }
    rsimpl. eexists. split; [done|]. split; [done|]. split; [simpl; congruence|]. simpl. intros m Hm.
    destruct (Hsent m Hm) as [bound Hok]. exists bound. eapply message_mono; [done..|apply ord_le_refl|done].
  - destruct (resend_pending_ok _ _ _ _ Hwf) as (p' & -> & Hst). rsimpl. eauto.
  - destruct (expire_stale_ok _ _ _ _ after Hwf Hs) as (p' & stale & -> & Hst). rsimpl. eauto.
  - rewrite (proxy_messages_ok _ _ _ _ Hwf). rsimpl. eexists. split; [done|]. split; [|split; [done|]].
    + destruct Hwf. by constructor.
    + simpl. intros m [Hm|Hm]%elem_of_app; [by apply Hsent|]. exists (px_ballot (yw_proxy w)).
      pose proof (pw_messages _ _ _ _ Hwf) as Hall. rewrite Forall_forall in Hall. rewrite <-Hid. by apply Hall.
Qed.

Lemma proxy_reachable_wf id w :
  config_wf bootstrap -> proxy_reachable id w -> world_wf id w.
Proof.
  intros Hc. induction 1 as [p Hp|w l w' _ IH Hen Hw].
  - destruct (proxy_new_wf id Hc) as (p' & Hp' & Hwf). congruence.
  - destruct (proxy_happens_ok id w l IH Hen) as (w2 & E & Hwf). congruence.
Qed.
End run.

(** ** Properties *)

(** C29: a proxy never commits on its own.  In any run, with delegations of any
    number of leaders at any ballots, votes and refusals lost, repeated and
    reordered, re-sends and evictions, every [Commit] a proxy sends is in its own
    name, for a round delegated to it by name, with the command that ballot proposes at
    that slot, and rests on votes it was sent that are a Phase-2 quorum, in the
    slot's column, of the configuration the ballot runs under: the bootstrap configuration on
    a plain deployment, the ballot's registered one on a matchmaker deployment.  The runs are
    those in which the delegations addressed to it carry one command per ballot and slot and
    the ballot's own configuration, a vote names the command it accepted, and fewer than
    2^64 - 1 messages arrive. *)
Theorem proxy_commits_backed cmd bootstrap cfg id w audience from ballot slot command :
  config_wf bootstrap -> proxy_reachable cmd bootstrap cfg id w ->
  (audience, MsgCommit from ballot slot command) ∈ yw_sent w ->
  from = PartyProxy id /\ backed cmd bootstrap cfg (yw_heard w) (yw_asked w) ballot slot command.
Proof.
  intros Hc Hr Hin. destruct (proxy_reachable_wf _ _ _ _ _ Hc Hr) as (_ & _ & Hsent).
  by destruct (Hsent _ Hin) as (bound & Hown & _ & Hb).
Qed.

(** C39: a proxy never panics and loses no round.  Take any run on a well-formed bootstrap
    configuration in which the delegations addressed to the proxy carry one command per
    ballot and slot and the ballot's own configuration, a vote names the command it
    accepted, and fewer than 2^64 - 1 messages arrive ([proxy_enabled]).  Then every next
    message, re-send, eviction and drain of that kind returns: no assertion fires and no
    counter overflows.  Every round the proxy was ever delegated is still open or was
    counted once as ended, by a decision, a relayed refusal, a higher ballot or an
    eviction; and its memory of closed rounds stays within [DONE_MEMORY]. *)
Theorem proxy_never_panics cmd bootstrap cfg id w l :
  config_wf bootstrap -> proxy_reachable cmd bootstrap cfg id w -> proxy_enabled cmd cfg w l ->
  (exists w', proxy_happens w l = Done w') /\
  ended (px_counters (yw_proxy w)) + msize (rs_by_slot (px_rounds (yw_proxy w))) = pc_delegated (px_counters (yw_proxy w)) /\
  msize (px_done (yw_proxy w)) <= DONE_MEMORY.
Proof.
  intros Hc Hr Hen. pose proof (proxy_reachable_wf _ _ _ _ _ Hc Hr) as Hwf.
  destruct (proxy_happens_ok _ _ _ _ _ _ Hwf Hen) as (w' & E & _). destruct Hwf as ([_ _ _ _ _ Hd [Hc1 _] _] & _).
  split; [by exists w'|done].
Qed.

(** A leader delegates slot 4; two of three acceptors vote for it. *)
Definition sample_cmd (_ : Ballot) (_ : Slot) : Command := Ctrl Noop.
Definition sample_cfg : option (Ballot -> NodeConfig) := Some (fun _ => ex_config).
Definition sample_ballot : Ballot := mkBallot 3 1.
Definition sample_delegation : Message := MsgAccept (PartyProxy 9) 1 sample_ballot 4 (Ctrl Noop) (Some ex_config).

Definition proxy_after (w : ProxyWorld) (l : ProxyLabel) : ProxyWorld :=
  match proxy_happens w l with Done w' => w' | Panic _ => w end.
Ltac proxy_next l :=
  match goal with
  | Hw : proxy_reachable ?cmd ?bootstrap ?cfg ?id ?w |- _ =>
      let Hen := fresh in let E := fresh in
      assert (proxy_enabled cmd cfg w l) as Hen
        by (split; [vm_compute; reflexivity|first [exact I|reflexivity|intros _; split; [reflexivity|split; [reflexivity|exact ex_config_wf]]]]);
      assert (proxy_happens w l = Done (proxy_after w l)) as E by (vm_compute; reflexivity);
      apply (proxy_moves cmd bootstrap cfg id w l _ Hw Hen) in E; clear Hw Hen; rename E into Hw
  end.

Definition sample_vote (m : NodeId) : Message := MsgAccepted m sample_ballot 4 (command_fingerprint (Ctrl Noop)).

Lemma sample_proxy_reached :
  exists w, proxy_reachable sample_cmd ex_config sample_cfg 9 w /\
    (ToLearners, MsgCommit (PartyProxy 9) sample_ballot 4 (Ctrl Noop)) ∈ yw_sent w /\
    yw_heard w = {[ (2, sample_ballot, 4); (1, sample_ballot, 4) ]} /\ yw_steps w = 3.
Proof.
  pose proof (proxy_start sample_cmd ex_config sample_cfg 9 _ eq_refl) as Hw.
  proxy_next (YStep sample_delegation). proxy_next YDrain. proxy_next YResend. proxy_next YDrain.
  proxy_next (YStep (sample_vote 1)). proxy_next (YExpire 5). proxy_next (YStep (sample_vote 2)). proxy_next YDrain.
  eexists. split; [eassumption|]. split; [|split; vm_compute; reflexivity]. vm_compute. do 2 right. by left.
Qed.

Lemma proxy_commits_backed_witness :
  exists w, proxy_reachable sample_cmd ex_config sample_cfg 9 w /\
    backed sample_cmd ex_config sample_cfg {[ (2, sample_ballot, 4); (1, sample_ballot, 4) ]} (yw_asked w) sample_ballot 4 (Ctrl Noop).
Proof.
  destruct sample_proxy_reached as (w & Hr & Hin & <- & _). exists w. split; [done|].
  by destruct (proxy_commits_backed sample_cmd ex_config sample_cfg 9 w _ _ _ _ _ ex_config_wf Hr Hin).
Defined.

Lemma proxy_never_panics_witness :
  exists w w', yw_steps w = 3 /\ proxy_happens w (YStep (MsgNack 3 sample_ballot 4)) = Done w'.
Proof.
  destruct sample_proxy_reached as (w & Hr & _ & _ & Hs).
  destruct (proxy_never_panics sample_cmd ex_config sample_cfg 9 w (YStep (MsgNack 3 sample_ballot 4)) ex_config_wf Hr)
    as [[w' E] _]; [split; [rewrite Hs; vm_compute; reflexivity|exact I]|]. by exists w, w'.
Defined.
