(* ===== verification/Tally.v ===== *)
(** * The Phase-1 tallies ([paros-core/src/proposer.rs])

    The paging half an election and a repair probe share ([PromiseTally]), the
    P2c merge of reported votes ([merge_report]), the page-shape check at the
    wire, and the CTRL rule that decides a faulty-reported slot. *)

From S2P Require Import Prelude BTree Types Retained Journal Contract Acceptor PromisePage QuorumSystem AcceptorConfig.

Record PromiseTally (I : Type) `{Countable I} := mkTally {
  t_ballot : Ballot;
  t_from_slot : Slot;
  t_answered : gset I;
  t_promise_next : gmap I Slot }.
Arguments mkTally {_ _ _} _ _ _ _.
Arguments t_ballot {_ _ _} _.
Arguments t_from_slot {_ _ _} _.
Arguments t_answered {_ _ _} _.
Arguments t_promise_next {_ _ _} _.

Inductive PromiseFold := Ignored | Continue (next : Slot) | Answered.

#[export] Instance PromiseFold_eq_dec : EqDecision PromiseFold.
Proof. solve_decision. Defined.

Section tally.
Context {I : Type} `{Ord I, !Countable I}.
Implicit Types (t : PromiseTally I) (answered : gset I).

Definition tally_assert_invariants t : run unit :=
  rassert (Forall (fun id => id ∉ t_answered t) (bt_keys (t_promise_next t)))
    "an answered sender owes no further page";;
  rassert (Forall (fun next => t_from_slot t < next) (bt_entries (t_promise_next t)).*2)
    "a continuation cursor lies past the first slot".

(** [PromiseTally::new]. *)
Definition tally_new (ballot : Ballot) (from_slot : Slot) answered : run (PromiseTally I) :=
  let tally := mkTally ballot from_slot answered ∅ in
  tally_assert_invariants tally;;
  mret tally.

Definition promise_page_shape_valid {V} (expected : Slot) (accepted : gmap Slot (Ballot * V))
  (faulty : gmap Slot Ballot) (from_slot : Slot) (next_from_slot : option Slot) : bool :=
  let len := msize accepted + msize faulty in
  bool_decide (
    from_slot = expected /\ len <= PROMISE_BATCH /\
    Forall (fun slot => from_slot <= slot) (bt_keys accepted) /\
    Forall (fun slot => from_slot <= slot /\ accepted !! slot = None) (bt_keys faulty) /\
    is_none_or (fun next =>
      0 < len /\ from_slot < next /\
      is_none_or (fun last => last < next) (last_key_of accepted) /\
      is_none_or (fun last => last < next) (last_key_of faulty)) next_from_slot).

Definition tally_accepts {V} t (from : I) (ballot : Ballot) (from_slot : Slot)
  (accepted : gmap Slot (Ballot * V)) (faulty : gmap Slot Ballot) (next_from_slot : option Slot)
  : run bool :=
  if decide (t_ballot t <> ballot \/ from ∈ t_answered t) then mret false else
  let expected := default (t_from_slot t) (t_promise_next t !! from) in
  rassert (t_from_slot t <= expected) "a sender's cursor never precedes the first slot";;
  mret (promise_page_shape_valid expected accepted faulty from_slot next_from_slot).

Definition close_page t (from : I) (next_from_slot : option Slot) : run (PromiseTally I * PromiseFold) :=
  rassert (from ∉ t_answered t) "a page closes for a sender still owing one";;
  let previous := default (t_from_slot t) (t_promise_next t !! from) in
  '(t', fold) ←
    match next_from_slot with
    | Some next =>
        rassert (previous < next) "a continuation cursor only advances";;
        mret (mkTally (t_ballot t) (t_from_slot t) (t_answered t)
                (<[from := next]> (t_promise_next t)), Continue next)
    | None =>
        mret (mkTally (t_ballot t) (t_from_slot t) ({[ from ]} ∪ t_answered t)
                (delete from (t_promise_next t)), Answered)
    end;
  tally_assert_invariants t';;
  mret (t', fold).

Definition qualifying_answers answered (reporters : option (gmap I Ballot)) (threshold : option Ballot)
  : run (gset I) :=
  let qualifying := filter (fun node =>
    is_none_or (fun ballot => ord_le (Some ballot) threshold)
      (reporters ≫= fun reporters => reporters !! node)) answered in
  match reporters with
  | Some reporters =>
      rassert (Forall (fun e : I * Ballot => ord_lt threshold (Some e.2) -> e.1 ∉ qualifying)
                 (bt_entries reporters))
        "a faulty report above the threshold never qualifies"
  | None => mret tt
  end;;
  mret qualifying.

Definition member_union (configs : list (AcceptorConfig I)) : run (list I) :=
  members ← foldM (fun acc c => ms ← config_members c; mret (acc ++ ms)) [] configs;
  let members := normalize members in
  rassert (sorted_members members) "a member union is strictly ascending";;
  mret members.

Definition slot_decidable (prior : list (AcceptorConfig I)) answered
  (reporters : option (gmap I Ballot)) (threshold : option Ballot) : run bool :=
  qualifying ← qualifying_answers answered reporters threshold;
  allM (fun config => has_phase1_quorum config qualifying) prior.
End tally.

(** The P2c selection rule, at the merge: its last arm inserts. *)
Definition replace_report {V} (tally : gmap Slot (Ballot * V)) (slot : Slot)
  (ballot : Ballot) (command : V) : run (gmap Slot (Ballot * V)) :=
  let tally' := <[slot := (ballot, command)]> tally in
  rassert (is_some_and (fun r : Ballot * V => r.1 = ballot) (tally' !! slot))
    "a higher report replaces the tally's entry";;
  mret tally'.

Definition merge_report {V} `{!EqDecision V} (tally : gmap Slot (Ballot * V)) (slot : Slot)
  (ballot : Ballot) (command : V) : run (gmap Slot (Ballot * V)) :=
  match tally !! slot with
  | Some (held, recorded) =>
      if decide (ballot < held)%B then mret tally
      else if decide (ballot = held) then
        rassert (recorded = command)
          "two Phase-1 reports of one (slot, ballot) agree on the command";;
        mret tally
      else replace_report tally slot ballot command
  | None => replace_report tally slot ballot command
  end.

(** The merge loop of a page: every report, in slot order. *)
Definition merge_reports {V} `{!EqDecision V} (tally accepted : gmap Slot (Ballot * V))
  : run (gmap Slot (Ballot * V)) :=
  foldM (fun tally (e : Slot * (Ballot * V)) => merge_report tally e.1 e.2.1 e.2.2) tally
    (bt_entries accepted).

(** [entry(slot).or_default().insert(from, fb)] for every faulty entry. *)
Definition merge_faulty {I} `{Countable I} (from : I) (reports : gmap Slot (gmap I Ballot))
  (faulty : list (Slot * Ballot)) : gmap Slot (gmap I Ballot) :=
  foldl (fun reports (e : Slot * Ballot) =>
           <[e.1 := <[from := e.2]> (default ∅ (reports !! e.1))]> reports) reports faulty.

(** What one acceptor reported, after one acceptor's page. *)
Section merge_faulty.
Context {I : Type} `{Countable I}.
Implicit Types (reports : gmap Slot (gmap I Ballot)) (l : list (Slot * Ballot)).

Lemma merge_faulty_absent (from : I) reports l s : s ∉ l.*1 -> merge_faulty from reports l !! s = reports !! s.
Proof.
  unfold merge_faulty. revert reports. induction l as [|[k fb] l IH]; intros reports Hs; [done|].
  rewrite fmap_cons, not_elem_of_cons in Hs. destruct Hs as [Hne Hs]. cbn [foldl]. rewrite IH by done.
  cbn in *. by rewrite lookup_insert_ne.
Qed.

Lemma merge_faulty_other (from m : I) reports l s :
  m <> from -> (merge_faulty from reports l !! s ≫= fun r => r !! m) = (reports !! s ≫= fun r => r !! m).
Proof.
  intros Hne. unfold merge_faulty. revert reports. induction l as [|[k fb] l IH]; intros reports; [done|].
  cbn [foldl]. rewrite IH. cbn. rewrite lookup_insert. case_decide as E; [subst|done].
  destruct (reports !! s); cbn; rewrite lookup_insert_ne by done; [done|apply lookup_empty].
Qed.

Lemma merge_faulty_own (from : I) reports l s fb :
  NoDup l.*1 -> (s, fb) ∈ l -> (merge_faulty from reports l !! s ≫= fun r => r !! from) = Some fb.
Proof.
  revert reports. induction l as [|[k fb'] l IH]; intros reports Hnd Hin; [by apply not_elem_of_nil in Hin|].
  rewrite fmap_cons in Hnd. apply NoDup_cons in Hnd as [Hk Hnd]. apply elem_of_cons in Hin as [[= -> ->]|Hin].
  - change (merge_faulty from reports ((k, fb') :: l)) with
      (merge_faulty from (<[k := <[from := fb']> (default ∅ (reports !! k))]> reports) l).
    rewrite merge_faulty_absent by done. rewrite lookup_insert_eq. cbn. apply lookup_insert_eq.
  - by apply (IH (<[k := <[from := fb']> (default ∅ (reports !! k))]> reports)).
Qed.
End merge_faulty.

(** ** The paging invariant *)

Section tally_facts.
Context {I : Type} `{Ord I, !Countable I}.
Implicit Types (t : PromiseTally I).

Definition tally_wf t : Prop :=
  (forall id, is_Some (t_promise_next t !! id) -> id ∉ t_answered t) /\
  (forall id next, t_promise_next t !! id = Some next -> t_from_slot t < next).

Lemma tally_assert_invariants_ok t : tally_wf t -> tally_assert_invariants t = Done tt.
Proof.
  intros [Ha Hn]. unfold tally_assert_invariants.
  rassert_by (apply Forall_forall; intros id Hid%elem_of_bt_keys; by apply Ha).
  apply rassert_true, Forall_forall. intros next Hin.
  apply list_elem_of_fmap in Hin as ([id next'] & -> & Hin%elem_of_bt_entries). by eapply Hn.
Qed.

Lemma tally_new_ok ballot from_slot (answered : gset I) :
  tally_new ballot from_slot answered = Done (mkTally ballot from_slot answered ∅) /\
  tally_wf (mkTally ballot from_slot answered ∅).
Proof.
  assert (tally_wf (mkTally ballot from_slot answered ∅)) as Hwf.
  { split; simpl; intros id; rewrite lookup_empty; [by intros [? ?]|done]. }
  split; [|done]. unfold tally_new. by rewrite tally_assert_invariants_ok.
Qed.

Definition owed t (from : I) : Slot := default (t_from_slot t) (t_promise_next t !! from).

Lemma owed_ge t from : tally_wf t -> t_from_slot t <= owed t from.
Proof.
  intros [_ Hn]. unfold owed. destruct (t_promise_next t !! from) eqn:E; simpl; [|lia].
  apply Hn in E. lia.
Qed.

Lemma tally_accepts_ok {V} t from ballot from_slot (accepted : gmap Slot (Ballot * V)) faulty next :
  tally_wf t ->
  tally_accepts t from ballot from_slot accepted faulty next =
    Done (bool_decide (t_ballot t = ballot /\ from ∉ t_answered t) &&
          promise_page_shape_valid (owed t from) accepted faulty from_slot next).
Proof.
  intros Hwf. unfold tally_accepts. case_decide as Hd.
  - rewrite bool_decide_eq_false_2 by tauto. done.
  - rewrite bool_decide_eq_true_2 by (split; [apply dec_stable; tauto|tauto]).
    by rassert_by by apply owed_ge.
Qed.

(** What closing a page does to the tally. *)
Definition page_closed t (from : I) (next : option Slot) : PromiseTally I * PromiseFold :=
  match next with
  | Some n => (mkTally (t_ballot t) (t_from_slot t) (t_answered t) (<[from := n]> (t_promise_next t)),
               Continue n)
  | None => (mkTally (t_ballot t) (t_from_slot t) ({[ from ]} ∪ t_answered t)
               (delete from (t_promise_next t)), Answered)
  end.

Lemma close_page_ok t from next :
  tally_wf t -> from ∉ t_answered t -> is_none_or (fun n => owed t from < n) next ->
  close_page t from next = Done (page_closed t from next) /\ tally_wf (page_closed t from next).1.
Proof.
  intros Hwf Hf Hn. pose proof (owed_ge t from Hwf) as Hge. destruct Hwf as [Ha Hnx].
  assert (tally_wf (page_closed t from next).1) as Hwf'.
  { destruct next as [n|]; simpl in *; split; simpl.
    - intros id. rewrite lookup_insert. case_decide; [by subst|apply Ha].
    - intros id n'. rewrite lookup_insert. case_decide; [intros [= <-]; lia|apply Hnx].
    - intros id. rewrite lookup_delete. case_decide; [by intros [? ?]|].
      intros Hid%Ha. rewrite elem_of_union, elem_of_singleton. intros [->|?]; done.
    - intros id n'. rewrite lookup_delete. case_decide; [done|apply Hnx]. }
  split; [|done]. unfold close_page. rassert_by done. fold (owed t from).
  destruct next as [n|]; simpl in *.
  - rewrite rassert_true by done. rsimpl. by rewrite tally_assert_invariants_ok.
  - by rewrite tally_assert_invariants_ok.
Qed.
End tally_facts.

(** ** P2c: the highest ballot per slot *)

Section merge.
Context {V : Type} `{!EqDecision V}.
Implicit Types (tally accepted : gmap Slot (Ballot * V)) (x y : option (Ballot * V)).

(** Two reports of one slot agree when they are at one ballot (P2b). *)
Definition agree x y : Prop :=
  match x, y with
  | Some (b, v), Some (b', v') => b = b' -> v = v'
  | _, _ => True
  end.

(** The report at the higher ballot. *)
Definition best x y : option (Ballot * V) :=
  match x, y with
  | Some (b, v), Some (b', v') => if decide (b < b')%B then y else x
  | Some _, None => x
  | None, _ => y
  end.

Lemma merge_report_ok tally slot ballot command :
  agree (tally !! slot) (Some (ballot, command)) ->
  exists m, merge_report tally slot ballot command = Done m /\
    m !! slot = best (tally !! slot) (Some (ballot, command)) /\
    forall s, s <> slot -> m !! s = tally !! s.
Proof.
  intros Hag. unfold merge_report.
  assert (replace_report tally slot ballot command = Done (<[slot := (ballot, command)]> tally)) as ->.
  { unfold replace_report. by rassert_by (rewrite lookup_insert_eq; done). }
  destruct (tally !! slot) as [[held v]|] eqn:E; simpl in Hag |- *.
  - case_decide as Hlt.
    + exists tally. rewrite E, decide_False; [done|]. intros Hlt'.
      by eapply ord_lt_irrefl, ord_lt_trans.
    + case_decide as Heq.
      * subst held. rewrite rassert_true by auto. exists tally.
        rewrite E, decide_False by apply ord_lt_irrefl. done.
      * eexists. split; [done|]. rewrite lookup_insert_eq. split; [|intros; by apply lookup_insert_ne].
        rewrite decide_True; [done|]. apply ord_le_ne_lt; [by apply ord_not_lt|congruence].
  - eexists. split; [done|]. rewrite lookup_insert_eq. split; [done|]. intros; by apply lookup_insert_ne.
Qed.

Lemma merge_report_inv tally slot ballot command m :
  merge_report tally slot ballot command = Done m -> agree (tally !! slot) (Some (ballot, command)).
Proof.
  unfold merge_report. destruct (tally !! slot) as [[held v]|]; [|done]. simpl.
  case_decide as Hlt; [intros _ ->; by apply ord_lt_irrefl in Hlt|].
  case_decide as Heq; [|by intros _ ->]. intros Hm _. by rinv Hm.
Qed.

Lemma merge_list_ok (l : list (Slot * (Ballot * V))) tally :
  NoDup l.*1 -> (forall s r, (s, r) ∈ l -> agree (tally !! s) (Some r)) ->
  exists m, foldM (fun tally (e : Slot * (Ballot * V)) => merge_report tally e.1 e.2.1 e.2.2) tally l = Done m /\
    (forall s r, (s, r) ∈ l -> m !! s = best (tally !! s) (Some r)) /\
    (forall s, s ∉ l.*1 -> m !! s = tally !! s).
Proof.
  revert tally. induction l as [|[s [b v]] l IH]; intros tally Hnd Hag.
  { exists tally. split; [done|]. split; [|done]. intros s r Hin. by apply not_elem_of_nil in Hin. }
  rewrite fmap_cons in Hnd. apply NoDup_cons in Hnd as [Hs Hnd]. cbn [foldM fst snd] in *.
  destruct (merge_report_ok tally s b v) as (m & -> & Hms & Hmo); [apply Hag; left|].
  rewrite bind_Done.
  assert (forall s' r, (s', r) ∈ l -> s' <> s) as Hne.
  { intros s' r Hin ->. apply Hs, list_elem_of_fmap. by exists (s, r). }
  destruct (IH m Hnd) as (m' & -> & Hin & Hout).
  { intros s' r Hr. rewrite Hmo by by eapply Hne. apply Hag. by right. }
  exists m'. split; [done|]. split.
  - intros s' r [[= -> ->]|Hr]%elem_of_cons; [by rewrite Hout|].
    rewrite (Hin _ _ Hr). by rewrite Hmo by by eapply Hne.
  - intros s' Hs'. rewrite fmap_cons, not_elem_of_cons in Hs'. destruct Hs' as [? ?].
    rewrite Hout by done. by apply Hmo.
Qed.

Lemma merge_reports_ok tally accepted :
  (forall s, agree (tally !! s) (accepted !! s)) ->
  exists m, merge_reports tally accepted = Done m /\
    forall s, m !! s = best (tally !! s) (accepted !! s).
Proof.
  intros Hag. destruct (merge_list_ok (bt_entries accepted) tally) as (m & E & Hin & Hout).
  - apply NoDup_bt_keys.
  - intros s r Hr%elem_of_bt_entries. rewrite <-Hr. apply Hag.
  - exists m. split; [exact E|]. intros s. destruct (accepted !! s) as [r|] eqn:Es.
    + apply Hin. by apply elem_of_bt_entries.
    + assert (s ∉ (bt_entries accepted).*1) as Hs.
      { intros [? ?]%elem_of_bt_keys. congruence. }
      rewrite Hout by done. by destruct (tally !! s) as [[? ?]|].
Qed.

Lemma best_some x y r : best x y = Some r -> x = Some r \/ y = Some r.
Proof. destruct x as [[b v]|], y as [[b' v']|]; simpl; try case_decide; tauto. Qed.

Lemma best_ge_l x y b v : x = Some (b, v) -> exists b' v', best x y = Some (b', v') /\ (b ≤ b')%B.
Proof.
  intros ->. destruct y as [[b' v']|]; simpl; [|eauto using ord_le_refl].
  case_decide; eauto using ord_lt_le, ord_le_refl.
Qed.

Lemma best_ge_r x y b v : y = Some (b, v) -> exists b' v', best x y = Some (b', v') /\ (b ≤ b')%B.
Proof.
  intros ->. destruct x as [[b' v']|]; simpl; [|eauto using ord_le_refl].
  case_decide as Hlt; [eauto using ord_le_refl|]. apply ord_not_lt in Hlt. eauto.
Qed.
End merge.

(** ** Properties *)

(** The acceptor and the proposer agree on pages: every page an acceptor
    cuts, at whatever page size it runs under, passes the receiver's shape
    check at the cursor it was asked from. *)
Theorem cut_pages_are_accepted {V} `{!EqDecision V} (a : Acceptor V) from limit page :
  acceptor_wf a -> 0 < limit <= PROMISE_BATCH -> promise_page a from limit = Done page ->
  promise_page_shape_valid from (p_accepted page) (p_faulty page) from (p_next_from_slot page) = true.
Proof.
  intros Hwf Hlim Hp. destruct (promise_page_ok a from limit Hwf Hlim) as (page' & E & Hpage).
  rewrite E in Hp. injection Hp as ->. pose proof Hpage as [Ha Hf Hb Hn].
  apply bool_decide_eq_true_2.
  assert (forall s, s ∈ bt_keys (p_accepted page) -> s ∈ bt_keys (p_accepted page) ++ bt_keys (p_faulty page)) as Hina
    by (intros; apply elem_of_app; by left).
  assert (forall s, s ∈ bt_keys (p_faulty page) -> s ∈ bt_keys (p_accepted page) ++ bt_keys (p_faulty page)) as Hinf
    by (intros; apply elem_of_app; by right).
  split_and!; [done|lia|..].
  - apply Forall_forall. intros s Hs. by apply (page_slots _ _ _ _ _ Hpage), Hina.
  - apply Forall_forall. intros s Hs. split; [by apply (page_slots _ _ _ _ _ Hpage), Hinf|].
    apply elem_of_bt_keys in Hs as [b Hs]. rewrite Ha. rewrite Hf in Hs. case_decide; [|done].
    by eapply awf_disjoint.
  - destruct (p_next_from_slot page) as [n|] eqn:En; [|done]. destruct (Hn n eq_refl) as (? & Hfull & _).
    simpl. split_and!; [lia|done|..].
    + destruct (last_key_of (p_accepted page)) as [k|] eqn:El; [|done]. simpl.
      apply last_key_of_Some in El as [Hk _]. eapply (page_slots _ _ _ _ _ Hpage); [|by rewrite En].
      by apply Hina, elem_of_bt_keys.
    + destruct (last_key_of (p_faulty page)) as [k|] eqn:El; [|done]. simpl.
      apply last_key_of_Some in El as [Hk _]. eapply (page_slots _ _ _ _ _ Hpage); [|by rewrite En].
      by apply Hinf, elem_of_bt_keys.
Qed.

(** The P2c merge.  Folding a page into a tally returns exactly when no two
    reports of one (slot, ballot) carry different commands, and keeps, slot by
    slot, the report at the higher ballot: nothing reported is lost to a lower
    ballot, nothing is invented. *)
Theorem merge_reports_highest {V} `{!EqDecision V} (tally accepted : gmap Slot (Ballot * V)) :
  (forall s, agree (tally !! s) (accepted !! s)) ->
  exists m, merge_reports tally accepted = Done m /\
    (forall s, m !! s = best (tally !! s) (accepted !! s)) /\
    (forall s b v, tally !! s = Some (b, v) \/ accepted !! s = Some (b, v) ->
       exists b' v', m !! s = Some (b', v') /\ (b ≤ b')%B) /\
    (forall s r, m !! s = Some r -> tally !! s = Some r \/ accepted !! s = Some r).
Proof.
  intros Hag. destruct (merge_reports_ok tally accepted Hag) as (m & E & Hm).
  exists m. split_and!; [done|done|..].
  - intros s b v [Hs|Hs]; rewrite Hm; [by eapply best_ge_l|by eapply best_ge_r].
  - intros s r. rewrite Hm. apply best_some.
Qed.

(** ** Witnesses *)

Lemma cut_pages_are_accepted_witness :
  promise_page_shape_valid 2 (p_accepted (mkPage ex_records ∅ None)) ∅ 2 None = true.
Proof.
  apply (cut_pages_are_accepted ex_acceptor 2 1 (mkPage ex_records ∅ None));
    [apply ex_acceptor_wf|done|by vm_compute].
Defined.

Lemma merge_reports_highest_witness :
  exists m, merge_reports ex_records ({[ 3 := (mkBallot 4 2, Ctrl (SetLeader 1 None)) ]}) = Done m /\
    m !! 3 = Some (mkBallot 4 2, Ctrl (SetLeader 1 None)).
Proof.
  destruct (merge_reports_highest ex_records {[ 3 := (mkBallot 4 2, Ctrl (SetLeader 1 None)) ]})
    as (m & E & Hm & _).
  - intros s. unfold ex_records. destruct (decide (s = 3)) as [->|Hne].
    + by rewrite !lookup_singleton_eq.
    + by rewrite !lookup_singleton_ne.
  - exists m. split; [exact E|]. rewrite Hm. by vm_compute.
Defined.
