(* ===== verification/Leadership.v ===== *)
(** * Recovery and standing authority ([proposer/recovery.rs], [proposer/authority.rs])

    The bounded recovery a fresh leadership drains, and the [CheckQuorum]
    window that keeps proving its authority: the two standalone tallies the
    proposer embeds beside its rounds. *)

From S2P Require Import Prelude BTree Types QuorumSystem AcceptorConfig.

(** ** Recovery *)

Inductive RecoveryPolicy := Phase1Backed | Inherited.

#[export] Instance RecoveryPolicy_eq_dec : EqDecision RecoveryPolicy.
Proof. solve_decision. Defined.

Record Recovery (V : Type) := mkRecovery {
  rc_recovered : gmap Slot V;
  rc_blocked : gset Slot;
  rc_cursor : Slot;
  rc_end : Slot;
  rc_policy : RecoveryPolicy }.
Arguments mkRecovery {_} _ _ _ _ _.
Arguments rc_recovered {_} _.
Arguments rc_blocked {_} _.
Arguments rc_cursor {_} _.
Arguments rc_end {_} _.
Arguments rc_policy {_} _.

Inductive RecoveryStep (V : Type) := Recovered (command : V) | Fill | Undescribed.
Arguments Recovered {_} _.
Arguments Fill {_}.
Arguments Undescribed {_}.

Section recovery.
Context {V : Type}.
Implicit Types rc : Recovery V.

Definition recovery_policy rc : run RecoveryPolicy :=
  (if decide (rc_policy rc = Inherited) then
     rassert (rc_blocked rc = ∅) "an inherited recovery blocks no slot" else mret tt);;
  rassert (rc_cursor rc <= rc_end rc) "a recovery's cursor never passes its end";;
  mret (rc_policy rc).

Definition recovery_is_blocked rc (slot : Slot) : run bool :=
  let blocked := bool_decide (slot ∈ rc_blocked rc) in
  (if blocked then
     rassert (slot < rc_end rc) "a blocked slot lies below the recovery end";;
     rassert (rc_policy rc = Phase1Backed) "only Phase 1 blocks a slot"
   else mret tt);;
  mret blocked.

(** [Recovery::remaining]. *)
Definition recovery_left rc : run N :=
  rassert (rc_cursor rc <= rc_end rc) "a recovery's cursor never passes its end";;
  let remaining := rc_end rc - rc_cursor rc in
  (if decide (rc_cursor rc = rc_end rc) then
     rassert (remaining = 0) "a drained recovery has nothing left" else mret tt);;
  mret remaining.

(** The body of [Proposer::open_recovery] once no recovery is open. *)
Definition recovery_open (recovered : gmap Slot V) (blocked : gset Slot) (cursor last : Slot)
  (policy : RecoveryPolicy) : run (Recovery V) :=
  (if decide (policy = Inherited) then
     rassert (blocked = ∅) "an inherited recovery blocks no slot" else mret tt);;
  rassert (cursor <= last) "a recovery range is never inverted";;
  rassert (is_none_or (fun s => s < last) (bs_last blocked))
    "a blocked slot lies below the recovery end";;
  mret (mkRecovery recovered blocked cursor last policy).

(** The body of [Proposer::recovery_next] over the open recovery. *)
Definition recovery_step rc : run (Recovery V * option (Slot * RecoveryStep V)) :=
  if decide (rc_end rc <= rc_cursor rc) then mret (rc, None) else
  let slot := rc_cursor rc in
  rassert (slot < rc_end rc) "the pump hands out only slots inside the range";;
  let cursor := u64_saturating_add (rc_cursor rc) 1 in
  rassert (slot < cursor) "the recovery cursor only advances";;
  let step := match rc_recovered rc !! slot with
              | Some command => Recovered command
              | None => match rc_policy rc with Phase1Backed => Fill | Inherited => Undescribed end
              end in
  mret (mkRecovery (delete slot (rc_recovered rc)) (rc_blocked rc) cursor (rc_end rc) (rc_policy rc),
        Some (slot, step)).

(** The body of [Proposer::close_drained_recovery] over a drained recovery. *)
Definition recovery_close rc : run unit :=
  rassert (rc_end rc <= rc_cursor rc) "a closed recovery drained its range";;
  rassert (bt_range_from (rc_cursor rc) (rc_recovered rc) = [])
    "a closed recovery leaves no recovered slot unvisited".

(** ** The sweep *)

(** Drains the recovery: [recovery_step] until it reports the range swept. *)
Fixpoint recovery_drain (fuel : nat) rc : run (Recovery V * list (Slot * RecoveryStep V)) :=
  match fuel with
  | O => Panic "recovery_drain: out of fuel"
  | S fuel' =>
      '(rc', step) ← recovery_step rc;
      match step with
      | None => mret (rc', [])
      | Some s => '(rc'', steps) ← recovery_drain fuel' rc'; mret (rc'', s :: steps)
      end
  end.

(** What the pump does at a slot. *)
Definition sweep_at rc (slot : Slot) : RecoveryStep V :=
  match rc_recovered rc !! slot with
  | Some command => Recovered command
  | None => match rc_policy rc with Phase1Backed => Fill | Inherited => Undescribed end
  end.

Lemma range_cons lo hi : lo < hi -> range lo hi = lo :: range (lo + 1) hi.
Proof.
  intros Hlt. unfold range. replace (N.to_nat (hi - lo)) with (S (N.to_nat (hi - (lo + 1)))) by lia.
  cbn [seq fmap list_fmap]. f_equal; [lia|]. rewrite <-fmap_S_seq, <-list_fmap_compose.
  apply list_fmap_ext. intros i x _. simpl. lia.
Qed.

Lemma range_nil lo hi : hi <= lo -> range lo hi = [].
Proof. intros Hle. unfold range. by replace (N.to_nat (hi - lo)) with 0%nat by lia. Qed.

Definition swept rc : Recovery V :=
  mkRecovery (delete (rc_cursor rc) (rc_recovered rc)) (rc_blocked rc) (rc_cursor rc + 1)
    (rc_end rc) (rc_policy rc).

Lemma recovery_step_ok rc :
  rc_end rc <= u64_max ->
  recovery_step rc =
    Done (if decide (rc_end rc <= rc_cursor rc) then (rc, None)
          else (swept rc, Some (rc_cursor rc, sweep_at rc (rc_cursor rc)))).
Proof.
  intros Hmax. unfold recovery_step. case_decide as Hend; [done|].
  rassert_by lia. assert (u64_saturating_add (rc_cursor rc) 1 = rc_cursor rc + 1) as ->
    by (unfold u64_saturating_add; lia).
  by rassert_by lia.
Qed.

Lemma recovery_drain_ok fuel rc :
  rc_cursor rc <= rc_end rc -> rc_end rc <= u64_max ->
  (N.to_nat (rc_end rc - rc_cursor rc) < fuel)%nat ->
  exists rc', recovery_drain fuel rc =
      Done (rc', (fun s => (s, sweep_at rc s)) <$> range (rc_cursor rc) (rc_end rc)) /\
    rc_cursor rc' = rc_end rc /\ rc_end rc' = rc_end rc /\
    (forall s, rc_recovered rc' !! s =
       if decide (rc_cursor rc <= s < rc_end rc) then None else rc_recovered rc !! s).
Proof.
  revert rc. induction fuel as [|fuel IH]; intros rc Hle Hmax Hfuel; [lia|].
  cbn [recovery_drain]. rewrite recovery_step_ok, bind_Done by done. case_decide as Hend.
  - exists rc. rewrite range_nil by lia.
    split_and!; [done|lia|done|]. intros s. by rewrite decide_False by lia.
  - destruct (IH (swept rc)) as (rc' & -> & Hc & He & Hr); simpl; try lia.
    exists rc'. rewrite (range_cons (rc_cursor rc)) by lia. simpl in *.
    split_and!; [|done|done|].
    + unfold mret, run_ret. do 3 f_equal. apply list_fmap_ext. intros i s Hs. f_equal.
      unfold sweep_at. simpl. rewrite lookup_delete_ne; [done|].
      apply list_elem_of_lookup_2, elem_of_range in Hs. lia.
    + intros s. rewrite Hr. rewrite lookup_delete. repeat case_decide; done || lia.
Qed.

(** ** Properties *)

(** The recovery sweep terminates and is exact.  Draining an opened
    recovery hands out every slot of its range once, in order, each with the
    recovered command, or the fill (Phase-1-backed) or skip (inherited) its
    policy licenses; none of its assertions fires, and the drained recovery
    closes when nothing was recovered past its end. *)
Theorem recovery_sweep_exact recovered blocked cursor last policy rc :
  recovery_open recovered blocked cursor last policy = Done rc -> last <= u64_max ->
  (forall s, is_Some (recovered !! s) -> s < last) ->
  exists rc', recovery_drain (S (N.to_nat (last - cursor))) rc =
      Done (rc', (fun s => (s, sweep_at rc s)) <$> range cursor last) /\
    recovery_close rc' = Done tt /\
    (forall s, cursor <= s -> rc_recovered rc' !! s = None).
Proof.
  intros Ho Hmax Hrec. unfold recovery_open in Ho. rinv Ho. injection Ho as <-.
  destruct (recovery_drain_ok (S (N.to_nat (last - cursor)))
    (mkRecovery recovered blocked cursor last policy)) as (rc' & -> & Hc & He & Hr); simpl; [done|done|lia|].
  simpl in *.
  assert (forall s, cursor <= s -> rc_recovered rc' !! s = None) as Hnone.
  { intros s Hs. rewrite Hr. destruct (decide (cursor <= s < last)); [done|]. destruct (recovered !! s) eqn:Es; [|done].
    assert (s < last) by (apply Hrec; by eexists). lia. }
  exists rc'. split_and!; [done| |done]. unfold recovery_close. rassert_by lia.
  apply rassert_true. destruct (bt_range_from _ _) as [|[s v] l] eqn:Er; [done|].
  assert ((s, v) ∈ bt_range_from (rc_cursor rc') (rc_recovered rc')) as [Hs Hle]%elem_of_bt_range_from
    by (rewrite Er; left).
  rewrite Hnone in Hs; [done|]. change (rc_cursor rc' <= s) in Hle. lia.
Qed.
End recovery.

(** ** Authority *)

Record Authority (I : Type) `{Countable I} := mkAuthority {
  au_fence : option Slot;
  au_quorum_acked_by : gset I;
  au_quorum_elapsed : N }.
Arguments mkAuthority {_ _ _} _ _ _.
Arguments au_fence {_ _ _} _.
Arguments au_quorum_acked_by {_ _ _} _.
Arguments au_quorum_elapsed {_ _ _} _.

Section authority.
Context {I : Type} `{Ord I, !Countable I}.
Implicit Types (au : Authority I) (config : AcceptorConfig I).

(** [Authority::default], and what [Authority::clear] leaves. *)
Definition authority_default : Authority I := mkAuthority None ∅ 0.

Definition authority_renew au (own_vote : option I) : run (Authority I) :=
  let au' := mkAuthority (au_fence au)
               (match own_vote with Some me => {[ me ]} | None => ∅ end) 0 in
  rassert (size (au_quorum_acked_by au') = match own_vote with Some _ => 1 | None => 0 end)%nat
    "a renewed window holds only the own vote";;
  rassert (au_quorum_elapsed au' = 0) "a renewed window starts at age zero";;
  mret au'.

Definition authority_open au (fence : option Slot) (own_vote : option I) : run (Authority I) :=
  au' ← authority_renew (mkAuthority fence (au_quorum_acked_by au) (au_quorum_elapsed au)) own_vote;
  rassert (au_fence au' = fence) "an opened authority holds its fence";;
  rassert (au_quorum_elapsed au' = 0) "an opened authority's window is fresh";;
  mret au'.

Definition authority_credit au (from : I) : run (Authority I) :=
  let before := size (au_quorum_acked_by au) in
  let acked := {[ from ]} ∪ au_quorum_acked_by au in
  rassert (from ∈ acked) "a credited peer is in the window";;
  rassert (before <= size acked)%nat "a credit never shrinks the window";;
  mret (mkAuthority (au_fence au) acked (au_quorum_elapsed au)).

Definition authority_tick au : run (Authority I * N) :=
  let before := au_quorum_elapsed au in
  let elapsed := u64_saturating_add before 1 in
  rassert (0 < elapsed) "a ticked window has aged";;
  rassert (before <= elapsed) "a window's age never decreases";;
  mret (mkAuthority (au_fence au) (au_quorum_acked_by au) elapsed, elapsed).

Definition authority_holds_quorum au config : run bool :=
  holds ← has_phase2_quorum config (au_quorum_acked_by au);
  (if holds : bool then
     rassert (au_quorum_acked_by au <> ∅) "a held authority rests on acks" else mret tt);;
  mret holds.
End authority.

(** A standing authority is proof against a silent successor: when the
    window holds, every Phase-1 quorum of the configuration contains an
    acceptor that acked this leadership inside the window. *)
Theorem authority_meets_elections {I} `{Ord I, !Countable I} (au : Authority I) config voters :
  config_wf config -> authority_holds_quorum au config = Done true ->
  has_phase1_quorum config voters = Done true ->
  exists m, m ∈ au_quorum_acked_by au /\ m ∈ voters /\ m ∈ c_members config.
Proof.
  intros Hwf Hau H1. unfold authority_holds_quorum in Hau.
  rewrite has_phase2_quorum_ok in Hau by done. rewrite has_phase1_quorum_ok in H1 by done.
  injection H1 as H1%bool_decide_eq_true. rewrite bind_Done in Hau.
  case_bool_decide as H2; [|done].
  destruct (holds_intersect _ _ _ _ _ _ (cwf_admitted _ Hwf) H1 H2) as (m & ? & ? & ?). by exists m.
Qed.

(** ** Witnesses *)

Lemma recovery_sweep_exact_witness :
  exists rc', recovery_drain 3 (mkRecovery {[ 5 := 7 ]} ∅ 4 6 Phase1Backed) =
      Done (rc', [(4, Fill); (5, Recovered 7)]) /\
    recovery_close rc' = Done tt /\ (forall s, 4 <= s -> rc_recovered rc' !! s = None).
Proof.
  destruct (recovery_sweep_exact (V:=N) {[ 5 := 7 ]} ∅ 4 6 Phase1Backed
    (mkRecovery {[ 5 := 7 ]} ∅ 4 6 Phase1Backed)) as (rc' & E & Hc & Hn); [by vm_compute|done|..].
  - intros s [v Hv]. apply lookup_singleton_Some in Hv as [<- _]. lia.
  - exists rc'. split; [exact E|]. by split.
Defined.

Lemma authority_meets_elections_witness :
  exists m, m ∈ au_quorum_acked_by (mkAuthority None ({[1; 2]} : gset NodeId) 0) /\
    m ∈ ({[2; 3]} : gset NodeId) /\ m ∈ c_members ex_config.
Proof.
  apply (authority_meets_elections (mkAuthority None {[1; 2]} 0) ex_config {[2; 3]});
    [apply ex_config_wf|by vm_compute|by vm_compute].
Defined.
