(* ===== verification/Proposer.v ===== *)
(** * The proposer ([paros-core/src/proposer.rs] and [proposer/])

    The leader-side role: the open election, the repair probe, the Phase-2
    rounds, the recovery, the allocator frontier and the standing authority,
    with every operation that moves them.  The tallies themselves are in
    [Tally.v], [Rounds.v] and [Leadership.v]; this file composes them. *)

From S2P Require Import Prelude BTree Types Contract QuorumSystem AcceptorConfig Rounds Tally Leadership.

Record Election (I V : Type) `{Countable I} := mkElection {
  e_promises : PromiseTally I;
  e_config : AcceptorConfig I;
  e_prior : list (AcceptorConfig I);
  e_recovered : gmap Slot (Ballot * V);
  e_faulty_reports : gmap Slot (gmap I Ballot) }.
Arguments mkElection {_ _ _ _} _ _ _ _ _.
Arguments e_promises {_ _ _ _} _.
Arguments e_config {_ _ _ _} _.
Arguments e_prior {_ _ _ _} _.
Arguments e_recovered {_ _ _ _} _.
Arguments e_faulty_reports {_ _ _ _} _.

Record RepairProbe (I V : Type) `{Countable I} := mkProbe {
  pb_promises : PromiseTally I;
  pb_prior : list (AcceptorConfig I);
  pb_faulty_reports : gmap Slot (gmap I Ballot);
  pb_best_have : gmap Slot (Ballot * V);
  pb_blocked : gset Slot;
  pb_elapsed : N }.
Arguments mkProbe {_ _ _ _} _ _ _ _ _ _.
Arguments pb_promises {_ _ _ _} _.
Arguments pb_prior {_ _ _ _} _.
Arguments pb_faulty_reports {_ _ _ _} _.
Arguments pb_best_have {_ _ _ _} _.
Arguments pb_blocked {_ _ _ _} _.
Arguments pb_elapsed {_ _ _ _} _.

Record Campaign (I : Type) := mkCampaign {
  cp_me : option I;
  cp_ballot : Ballot;
  cp_config : AcceptorConfig I;
  cp_prior : list (AcceptorConfig I);
  cp_from_slot : Slot }.
Arguments mkCampaign {_} _ _ _ _ _.
Arguments cp_me {_} _.
Arguments cp_ballot {_} _.
Arguments cp_config {_} _.
Arguments cp_prior {_} _.
Arguments cp_from_slot {_} _.

Record Phase1Outcome (I V : Type) `{Countable I} := mkOutcome {
  po_ballot : Ballot;
  po_config : AcceptorConfig I;
  po_prior : list (AcceptorConfig I);
  po_promised_by : gset I;
  po_recovered : gmap Slot (Ballot * V);
  po_blocked : gset Slot;
  po_highest_reported : option Slot }.
Arguments mkOutcome {_ _ _ _} _ _ _ _ _ _ _.
Arguments po_ballot {_ _ _ _} _.
Arguments po_config {_ _ _ _} _.
Arguments po_prior {_ _ _ _} _.
Arguments po_promised_by {_ _ _ _} _.
Arguments po_recovered {_ _ _ _} _.
Arguments po_blocked {_ _ _ _} _.
Arguments po_highest_reported {_ _ _ _} _.

Record ProbeDecision (V : Type) := mkDecision { pd_slot : Slot; pd_command : option V }.
Arguments mkDecision {_} _ _.
Arguments pd_slot {_} _.
Arguments pd_command {_} _.

Record Proposer (I V : Type) `{Countable I} := mkProposer {
  p_election : option (Election I V);
  p_probe : option (RepairProbe I V);
  p_rounds : Rounds I V;
  p_recovery : option (Recovery V);
  p_next_slot : Slot;
  p_authority : Authority I }.
Arguments mkProposer {_ _ _ _} _ _ _ _ _ _.
Arguments p_election {_ _ _ _} _.
Arguments p_probe {_ _ _ _} _.
Arguments p_rounds {_ _ _ _} _.
Arguments p_recovery {_ _ _ _} _.
Arguments p_next_slot {_ _ _ _} _.
Arguments p_authority {_ _ _ _} _.

Section proposer.
Context {I : Type} `{Ord I, !Countable I} {V : Type} `{!EqDecision V, !Fingerprint V}.
Implicit Types (p : Proposer I V) (e : Election I V) (probe : RepairProbe I V) (config : AcceptorConfig I).

(** [Proposer::new]. *)
Definition proposer_new : Proposer I V :=
  mkProposer None None rounds_empty None 0 authority_default.

Definition with_election p (e : option (Election I V)) : Proposer I V :=
  mkProposer e (p_probe p) (p_rounds p) (p_recovery p) (p_next_slot p) (p_authority p).
Definition with_probe p (probe : option (RepairProbe I V)) : Proposer I V :=
  mkProposer (p_election p) probe (p_rounds p) (p_recovery p) (p_next_slot p) (p_authority p).
Definition with_rounds p (rs : Rounds I V) : Proposer I V :=
  mkProposer (p_election p) (p_probe p) rs (p_recovery p) (p_next_slot p) (p_authority p).
Definition with_recovery p (rc : option (Recovery V)) : Proposer I V :=
  mkProposer (p_election p) (p_probe p) (p_rounds p) rc (p_next_slot p) (p_authority p).
Definition with_next_slot p (slot : Slot) : Proposer I V :=
  mkProposer (p_election p) (p_probe p) (p_rounds p) (p_recovery p) slot (p_authority p).
Definition with_authority p (au : Authority I) : Proposer I V :=
  mkProposer (p_election p) (p_probe p) (p_rounds p) (p_recovery p) (p_next_slot p) au.

Definition probe_assert_invariants probe : run unit :=
  rassert (pb_blocked probe <> ∅) "an open repair probe holds a blocked slot";;
  rassert (Forall (fun s => s ∈ pb_blocked probe) (bt_keys (pb_best_have probe)))
    "the probe's have-tally is over blocked slots only";;
  rassert (Forall (fun s => s ∈ pb_blocked probe) (bt_keys (pb_faulty_reports probe)))
    "the probe's faulty tally is over blocked slots only";;
  rassert (is_none_or (fun s => t_from_slot (pb_promises probe) <= s) (bs_first (pb_blocked probe)))
    "a blocked slot lies inside the campaign range".

Definition proposer_assert_invariants p : run unit :=
  rassert (is_none_or (fun pr => pb_blocked pr <> ∅) (p_probe p))
    "an open repair probe holds at least one blocked slot";;
  inherited ← match p_recovery p with
              | Some rc => policy ← recovery_policy rc;
                           mret (bool_decide (policy = Phase1Backed \/ rc_blocked rc = ∅))
              | None => mret true
              end;
  rassert (inherited = true) "an inherited recovery blocks no slot";;
  (if decide (is_Some (p_election p)) then
     rassert (p_probe p = None) "a candidate holds no repair probe";;
     rassert (p_recovery p = None) "a candidate holds no recovery"
   else mret tt);;
  match p_probe p with Some pr => probe_assert_invariants pr | None => mret tt end.

Definition abandon p : run (Proposer I V) :=
  let p' := mkProposer None None (rounds_clear (p_rounds p)) None (p_next_slot p) authority_default in
  rassert (rounds_is_empty (p_rounds p')) "an abandoned leadership leaves no round";;
  rassert (au_fence (p_authority p') = None) "an abandoned leadership has no fence";;
  mret p'.

(** ** The slot allocator and Phase 2 ([rounds.rs]) *)

Definition allocate p : run (Proposer I V * Slot) :=
  let slot := p_next_slot p in
  rassert (slot < u64_max) "the slot space is never exhausted";;
  rassert (rs_by_slot (p_rounds p) !! slot = None) "the allocator hands out a slot no round holds";;
  next ← u64_add slot 1;
  mret (with_next_slot p next, slot).

Definition set_next_slot p (slot : Slot) : run (Proposer I V) :=
  let p' := with_next_slot p slot in
  rassert (p_next_slot p' = slot) "the installed frontier is the one handed in";;
  mret p'.

Definition raise_next_slot p (slot : Slot) : run (Proposer I V) :=
  let before := p_next_slot p in
  let p' := with_next_slot p (N.max (p_next_slot p) slot) in
  rassert (slot <= p_next_slot p') "a raised frontier covers the boundary";;
  rassert (before <= p_next_slot p') "the frontier never moves back on a raise";;
  mret p'.

Definition open_round p (slot : Slot) (ballot : Ballot) (command : V) (own_vote : option I)
  (column : option N) : run (Proposer I V) :=
  rassert (p_election p = None) "a candidate opens no Phase-2 round";;
  rs ← rounds_open (p_rounds p) slot ballot command own_vote column;
  rassert (is_open_at rs slot ballot = true) "the round is open at its ballot";;
  mret (with_rounds p rs).

Definition open_delegated_round p (slot : Slot) (ballot : Ballot) (command : V) (column : option N)
  (proxy : N) : run (Proposer I V) :=
  rassert (p_election p = None) "a candidate delegates no Phase-2 round";;
  rs ← open_delegated (p_rounds p) slot ballot command column proxy;
  rassert (is_open_at rs slot ballot = true) "the round is open at its ballot";;
  mret (with_rounds p rs).

Definition take_back_round p (slot : Slot) (own_vote : option I) : run (Proposer I V * bool) :=
  '(rs, taken) ← take_back (p_rounds p) slot own_vote;
  (if taken : bool then
     rassert (is_some_and (fun r => round_proxy r = None) (rs_by_slot rs !! slot))
       "a round taken back is colocated"
   else mret tt);;
  mret (with_rounds p rs, taken).

Definition move_round p config (slot : Slot) (column : option N) (own_vote : option I)
  : run (Proposer I V * bool) :=
  '(rs, moved) ← move_to (p_rounds p) config slot column own_vote;
  (if moved : bool then
     rassert (rounds_column rs slot = Some column) "a moved round runs in its new column"
   else mret tt);;
  mret (with_rounds p rs, moved).

Definition proposer_stalled_delegations p (after : N) : run (list Slot) :=
  stalled ← stalled_delegations (p_rounds p) after;
  rassert (Forall (fun s => is_some_and (fun r => after <= r_resends r)
                              (rs_by_slot (p_rounds p) !! s)) stalled)
    "a stalled delegation was re-delegated at least the budget";;
  mret stalled.

Definition fold_accepted p (from : I) (ballot : Ballot) (slot : Slot) (vhash : N)
  : run (Proposer I V * bool) :=
  '(rs, counted) ← rounds_fold_accepted (p_rounds p) from ballot slot vhash;
  (if counted : bool then
     rassert (is_open_at rs slot ballot = true) "a counted vote is the open round's";;
     rassert (p_election p = None) "a candidate counts no Phase-2 vote"
   else mret tt);;
  mret (with_rounds p rs, counted).

Definition fold_accepted_in p config (from : I) (ballot : Ballot) (slot : Slot) (vhash : N)
  : run (Proposer I V * bool) :=
  '(rs, counted) ← rounds_fold_accepted_in (p_rounds p) config from ballot slot vhash;
  mret (with_rounds p rs, counted).

Definition decided p (slot : Slot) config : run (option (Ballot * V)) :=
  d ← rounds_decided (p_rounds p) slot config;
  match d with
  | Some (ballot, _) =>
      rassert (is_open_at (p_rounds p) slot ballot = true) "a decision is the open round's";;
      rassert (p_election p = None) "a candidate decides nothing"
  | None => mret tt
  end;;
  mret d.

Definition close_round p (slot : Slot) : Proposer I V := with_rounds p (rounds_close (p_rounds p) slot).

Definition retain_rounds_from p (first : Slot) : run (Proposer I V) :=
  rs ← rounds_retain_from (p_rounds p) first;
  rassert (is_none_or (fun s => first <= s) (first_key_of (rs_by_slot rs)))
    "no round survives below the retained boundary";;
  mret (with_rounds p rs).

Definition resend_page p (limit : N) : run (Proposer I V * list (PendingAccept V)) :=
  '(rs, page) ← rounds_resend_page (p_rounds p) limit;
  rassert (len page <= limit) "a re-send page is bounded";;
  rassert (Forall (fun a => is_open_at rs (pa_slot a) (pa_ballot a) = true) page)
    "a re-send page carries open rounds at their ballots";;
  mret (with_rounds p rs, page).

Definition supersedes p (ballot : Ballot) (slot : Slot) : run bool :=
  let campaign := bool_decide (is_some_and (fun e => t_ballot (e_promises e) = ballot) (p_election p)) in
  let round := is_open_at (p_rounds p) slot ballot in
  (if campaign then
     rassert (round = false) "a Nack supersedes a campaign or a round, never both" else mret tt);;
  mret (campaign || round).

(** ** Recovery ([recovery.rs]) and authority ([authority.rs]) *)

Definition open_recovery p (recovered : gmap Slot V) (blocked : gset Slot) (cursor last : Slot)
  (policy : RecoveryPolicy) : run (Proposer I V) :=
  rassert (match p_recovery p with None => True | Some _ => False end)
    "one recovery continuation per leadership";;
  rc ← recovery_open recovered blocked cursor last policy;
  mret (with_recovery p (Some rc)).

Definition recovery_next p : run (Proposer I V * option (Slot * RecoveryStep V)) :=
  match p_recovery p with
  | None => mret (p, None)
  | Some rc => '(rc', step) ← recovery_step rc; mret (with_recovery p (Some rc'), step)
  end.

Definition recovery_blocked p (slot : Slot) : run bool :=
  blocked ← match p_recovery p with Some rc => recovery_is_blocked rc slot | None => mret false end;
  (if blocked : bool then
     rassert (is_some_and (fun rc => rc_policy rc = Phase1Backed) (p_recovery p))
       "only a Phase-1-backed recovery blocks a slot"
   else mret tt);;
  mret blocked.

Definition recovery_remaining p : run N :=
  match p_recovery p with Some rc => recovery_left rc | None => mret 0 end.

Definition close_drained_recovery p : run (Proposer I V) :=
  remaining ← recovery_remaining p;
  if decide (remaining <> 0) then mret p else
  match p_recovery p with
  | Some rc => recovery_close rc;; mret (with_recovery p None)
  | None => mret p
  end.

Definition fence p : run (option Slot) :=
  let fence := au_fence (p_authority p) in
  match fence with
  | Some f =>
      rassert (f < p_next_slot p) "a leadership's fence lies below its frontier";;
      rassert (p_election p = None) "a campaign holds no fence"
  | None => mret tt
  end;;
  mret fence.

Definition open_authority p (f : option Slot) (own_vote : option I) : run (Proposer I V) :=
  match f with
  | Some f => rassert (f < p_next_slot p) "a leadership's fence lies below its frontier"
  | None => mret tt
  end;;
  au ← authority_open (p_authority p) f own_vote;
  let p' := with_authority p au in
  held ← fence p';
  rassert (held = f) "an opened authority holds its fence";;
  mret p'.

Definition renew_authority p (own_vote : option I) : run (Proposer I V) :=
  rassert (p_election p = None) "a candidate has no authority to renew";;
  let f := au_fence (p_authority p) in
  au ← authority_renew (p_authority p) own_vote;
  rassert (au_fence au = f) "a renewed window keeps its fence";;
  mret (with_authority p au).

Definition credit_authority p (from : I) : run (Proposer I V) :=
  rassert (p_election p = None) "a candidate has no authority to credit";;
  au ← authority_credit (p_authority p) from;
  mret (with_authority p au).

Definition tick_authority p : run (Proposer I V * N) :=
  rassert (p_election p = None) "only a leadership's window ages";;
  '(au, age) ← authority_tick (p_authority p);
  rassert (0 < age) "a ticked window has aged";;
  mret (with_authority p au, age).

Definition authority_holds p config : run bool :=
  ok ← config_is_well_formed config;
  rassert (ok = true) "authority is judged over a well-formed configuration";;
  holds ← authority_holds_quorum (p_authority p) config;
  (if holds : bool then
     rassert (p_election p = None) "a campaign holds no standing authority" else mret tt);;
  mret holds.

(** ** Phase 2, evaluated *)

Lemma is_open_at_set rs slot (r : Round I V) : is_open_at (set_round rs slot r) slot (r_ballot r) = true.
Proof. unfold is_open_at. apply bool_decide_eq_true_2. cbn. by rewrite lookup_insert_eq. Qed.

Lemma open_round_ok p slot ballot command own_vote column :
  p_election p = None -> rs_by_slot (p_rounds p) !! slot = None ->
  open_round p slot ballot command own_vote column =
    Done (with_rounds p (set_round (p_rounds p) slot
                           (mkRound ballot command (colocated own_vote) column 0 0))).
Proof.
  intros He Hn. unfold open_round. rewrite He. rassert_by done. rewrite rounds_open_ok by done. rsimpl.
  rassert_by apply is_open_at_set. done.
Qed.

Lemma fold_accepted_ok p from ballot slot vhash r r' :
  p_election p = None -> rs_by_slot (p_rounds p) !! slot = Some r -> r_ballot r = ballot ->
  fingerprint (r_command r) = vhash -> with_vote r from = Some r' ->
  fold_accepted p from ballot slot vhash = Done (with_rounds p (set_round (p_rounds p) slot r'), true).
Proof.
  intros He Hr <- Hv Hw. unfold fold_accepted. erewrite rounds_fold_accepted_ok by done.
  rewrite Hw, decide_True by done. rsimpl.
  assert (r_ballot r = r_ballot r') as -> by (unfold with_vote in Hw; destruct (r_custody r); by simplify_eq).
  rewrite (rassert_true (_ = true)) by apply is_open_at_set. rewrite He. by rewrite !rassert_true.
Qed.

Lemma decided_ok p slot config r votes :
  config_wf config -> p_election p = None -> rs_by_slot (p_rounds p) !! slot = Some r ->
  round_accepted_by r = Some votes -> round_wf config r ->
  decided p slot config =
    Done (if decide (phase2_holds (c_quorum_system config) (c_members config) votes (r_column r))
          then Some (r_ballot r, r_command r) else None).
Proof.
  intros Hwf He Hr Hv Hrw. unfold decided. erewrite rounds_decided_ok by done. rsimpl.
  case_decide; [|done]. rewrite (rassert_true (_ = true)), He by (unfold is_open_at; rewrite Hr; by apply bool_decide_eq_true_2).
  by rewrite rassert_true.
Qed.
End proposer.
