(* ===== verification/Election.v ===== *)
(** * Phase 1 and the repair probe ([proposer/election.rs], [proposer/probe.rs])

    The campaign a candidate runs before it may propose anything, and the
    Phase 1 that keeps running for the slots a won election could not decide. *)

From S2P Require Import Prelude BTree Types Retained Journal Contract Acceptor PromisePage QuorumSystem AcceptorConfig Rounds Tally Leadership Proposer.

Section election.
Context {I : Type} `{Ord I, !Countable I} {V : Type} `{!EqDecision V, !Fingerprint V}.
Implicit Types (p : Proposer I V) (e : Election I V) (config : AcceptorConfig I).

(** ** Reads of the open election *)

Definition in_campaign_range {A} e (m : gmap Slot A) : Prop :=
  is_none_or (fun s => t_from_slot (e_promises e) <= s) (first_key_of m).

(** [Election::ballot]. *)
Definition election_ballot e : run Ballot :=
  rassert (in_campaign_range e (e_recovered e)) "the recovered suffix lies inside the campaign range";;
  rassert (in_campaign_range e (e_faulty_reports e)) "the faulty reports lie inside the campaign range";;
  mret (t_ballot (e_promises e)).

Definition election_config e : run (AcceptorConfig I) :=
  ok ← config_is_well_formed (e_config e);
  rassert (ok = true) "C_b admits its quorum system";;
  mret (e_config e).

Definition election_prior e : run (list (AcceptorConfig I)) :=
  ok ← allM config_is_well_formed (e_prior e);
  rassert (ok = true) "every configuration of H_b admits its quorum system";;
  rassert (NoDup (e_prior e)) "H_b names each configuration once";;
  mret (e_prior e).

Definition covered e : run bool :=
  allM (fun config => has_phase1_quorum config (t_answered (e_promises e))) (e_prior e).

Definition targets e (me : option I) : run (list I) :=
  members ← member_union (e_prior e ++ [e_config e]);
  let targets := filter (fun m => Some m <> me) members in
  match me with
  | Some me => rassert (me ∉ targets) "a candidate never addresses itself"
  | None => mret tt
  end;;
  own ← config_members (e_config e);
  rassert (Forall (fun m => Some m = me \/ m ∈ targets) own) "every member of C_b is addressed";;
  mret targets.

Definition unpromised e (me : option I) : run (list I) :=
  all ← targets e me;
  let unpromised := filter (fun m => m ∉ t_answered (e_promises e)) all in
  match me with
  | Some me => rassert (me ∉ unpromised) "a candidate never owes itself a promise"
  | None => mret tt
  end;;
  mret unpromised.

(** [Election::promised]. *)
Definition election_promised e : run (gset I) :=
  rassert (Forall (fun id => id ∉ t_answered (e_promises e)) (bt_keys (t_promise_next (e_promises e))))
    "an answered sender owes no further page";;
  mret (t_answered (e_promises e)).

Definition election_from_slot e : run Slot :=
  rassert (Forall (fun next => t_from_slot (e_promises e) < next)
             (bt_entries (t_promise_next (e_promises e))).*2)
    "a continuation cursor lies past the first slot";;
  mret (t_from_slot (e_promises e)).

Definition keep_alive_from e : run Slot :=
  let reported := opt_max (last_key_of (e_recovered e)) (last_key_of (e_faulty_reports e)) in
  from ← match reported with
         | Some slot => rexpect (u64_checked_add slot 1) "a slot past the reported suffix exists"
         | None => mret (t_from_slot (e_promises e))
         end;
  rassert (t_from_slot (e_promises e) <= from)
    "a keep-alive asks from the campaign's first slot or past it";;
  rassert (Forall (fun slot => slot < from) (bt_keys (e_recovered e)))
    "a keep-alive asks past every recovered slot";;
  rassert (Forall (fun slot => slot < from) (bt_keys (e_faulty_reports e)))
    "a keep-alive asks past every faulty report";;
  mret from.

Definition paging e : run bool :=
  let paging := bool_decide (t_promise_next (e_promises e) <> ∅) in
  rassert (Forall (fun id => id ∉ t_answered (e_promises e)) (bt_keys (t_promise_next (e_promises e))))
    "a paging sender has not answered completely";;
  mret paging.

(** [Election::recovered]. *)
Definition election_recovered e : run (gmap Slot (Ballot * V)) :=
  rassert (in_campaign_range e (e_recovered e)) "the recovered suffix lies inside the campaign range";;
  mret (e_recovered e).

(** [Proposer::election]. *)
Definition election p : run (option (Election I V)) :=
  (if decide (is_Some (p_election p)) then
     rassert (p_probe p = None) "a candidate holds no repair probe";;
     rassert (p_recovery p = None) "a candidate holds no recovery"
   else mret tt);;
  mret (p_election p).

(** ** Opening, folding and closing Phase 1 *)

Definition open_phase1 p (campaign : Campaign I) (own_records : gmap Slot (Ballot * V))
  (own_faulty : gmap Slot Ballot) : run (Proposer I V * list I) :=
  rassert (p_election p = None) "one Phase 1 per ballot";;
  rassert (rounds_is_empty (p_rounds p)) "a campaign opens with no Phase-2 round in flight";;
  rassert (p_probe p = None) "a campaign opens with no repair probe";;
  rassert (p_recovery p = None) "a campaign opens with no recovery";;
  let '(mkCampaign me ballot config prior from_slot) := campaign in
  let recovered := list_to_map (bt_range_from from_slot own_records) in
  let faulty_reports := match me with
                        | Some me => merge_faulty me ∅ (bt_range_from from_slot own_faulty)
                        | None => ∅
                        end in
  tally ← tally_new ballot from_slot (match me with Some me => {[ me ]} | None => ∅ end);
  let e := mkElection tally config prior recovered faulty_reports in
  targets ← targets e me;
  rassert (size (t_answered (e_promises e)) = match me with Some _ => 1 | None => 0 end)%nat
    "a fresh campaign has only the candidate's own promise";;
  rassert (is_none_or (fun s => from_slot <= s) (first_key_of (e_recovered e)))
    "the recovered suffix starts at the first slot";;
  mret (with_election p (Some e), targets).

Definition fold_promise p (from : I) (ballot : Ballot) (from_slot : Slot)
  (accepted : gmap Slot (Ballot * V)) (faulty : gmap Slot Ballot) (next_from_slot : option Slot)
  : run (Proposer I V * PromiseFold) :=
  match p_election p with
  | None => mret (p, Ignored)
  | Some e =>
      inside ← config_contains (e_config e) from;
      known ← (if inside : bool then mret true else anyM (fun c => config_contains c from) (e_prior e));
      if decide (known = false) then mret (p, Ignored) else
      ok ← tally_accepts (e_promises e) from ballot from_slot accepted faulty next_from_slot;
      if decide (ok = false) then mret (p, Ignored) else
      recovered ← merge_reports (e_recovered e) accepted;
      let reports := merge_faulty from (e_faulty_reports e) (bt_entries faulty) in
      '(tally, fold) ← close_page (e_promises e) from next_from_slot;
      let e' := mkElection tally (e_config e) (e_prior e) recovered reports in
      rassert (in_campaign_range e' (e_recovered e'))
        "the recovered suffix stays at or above the first slot";;
      rassert (in_campaign_range e' (e_faulty_reports e'))
        "the faulty reports stay at or above the first slot";;
      mret (with_election p (Some e'), fold)
  end.

Definition phase1_won p (promise : Ballot) : run bool :=
  match p_election p with
  | None => mret false
  | Some e =>
      cov ← covered e;
      let won := (cov : bool) && bool_decide (promise ≤ t_ballot (e_promises e))%B in
      (if won then
         (if decide (e_prior e <> []) then
            rassert (t_answered (e_promises e) <> ∅) "a won campaign rests on a promise"
          else mret tt);;
         rassert (promise ≤ t_ballot (e_promises e))%B "a won campaign is not below the promise"
       else mret tt);;
      mret won
  end.

(** The faulty-slot tally of [close_phase1]: the slots that stay blocked. *)
Definition close_faulty e (is_chosen : Slot -> bool)
  (acc : gset Slot * gmap Slot (Ballot * V) * gmap Slot (gmap I Ballot))
  (report : Slot * gmap I Ballot)
  : run (gset Slot * gmap Slot (Ballot * V) * gmap Slot (gmap I Ballot)) :=
  let '(blocked, have, faulty) := acc in
  let '(slot, reporters) := report in
  if is_chosen slot then mret acc else
  let held := e_recovered e !! slot in
  decidable ← slot_decidable (e_prior e) (t_answered (e_promises e)) (Some reporters) (fst <$> held);
  if decide (decidable = true) then mret acc else
  mret ({[ slot ]} ∪ blocked,
        match held with Some r => <[slot := r]> have | None => have end,
        <[slot := reporters]> faulty).

Definition close_phase1 p (is_chosen : Slot -> bool) : run (Proposer I V * Phase1Outcome I V) :=
  e ← rexpect (p_election p) "closing Phase 1 requires an open election";
  cov ← covered e;
  rassert (cov = true) "a won election holds a promise quorum of every prior configuration";;
  rassert (p_probe p = None) "a candidate holds no repair probe";;
  let rounds := rounds_clear (p_rounds p) in
  '(blocked, have, faulty) ← foldM (close_faulty e is_chosen) (∅, ∅, ∅) (bt_entries (e_faulty_reports e));
  let highest := opt_max (last_key_of (e_recovered e)) (last_key_of (e_faulty_reports e)) in
  rassert (Forall (fun s => is_Some (e_faulty_reports e !! s)) (bs_elements blocked))
    "only a faulty-reported slot is ever blocked";;
  probe ← (if decide (blocked <> ∅) then
             tally ← tally_new (t_ballot (e_promises e)) (t_from_slot (e_promises e))
                       (t_answered (e_promises e));
             mret (Some (mkProbe tally (e_prior e) faulty have blocked 0))
           else mret None);
  rassert (is_Some probe <-> blocked <> ∅) "a repair probe is open iff a slot stayed blocked";;
  rassert (rounds_is_empty rounds) "a fresh leadership starts with nothing in flight";;
  mret (mkProposer None probe rounds (p_recovery p) (p_next_slot p) (p_authority p),
        mkOutcome (t_ballot (e_promises e)) (e_config e) (e_prior e) (t_answered (e_promises e))
          (e_recovered e) blocked highest).

(** ** The repair probe *)

Definition requery (probe : RepairProbe I V) (me : I) : run (Ballot * Slot * list I) :=
  members ← member_union (pb_prior probe);
  let to := filter (fun m => m <> me /\ m ∉ t_answered (pb_promises probe)) members in
  rassert (me ∉ to) "the leader is never its own straggler";;
  rassert (is_none_or (fun s => t_from_slot (pb_promises probe) <= s) (bs_first (pb_blocked probe)))
    "a blocked slot lies inside the campaign range";;
  mret (t_ballot (pb_promises probe), t_from_slot (pb_promises probe), to).

Definition tick_probe p : run (Proposer I V * option N) :=
  match p_probe p with
  | None => mret (p, None)
  | Some probe =>
      let elapsed := u64_saturating_add (pb_elapsed probe) 1 in
      rassert (0 < elapsed) "a ticked probe has aged";;
      mret (with_probe p (Some (mkProbe (pb_promises probe) (pb_prior probe) (pb_faulty_reports probe)
              (pb_best_have probe) (pb_blocked probe) elapsed)), Some elapsed)
  end.

Definition fold_probe_promise p (from : I) (ballot : Ballot) (from_slot : Slot)
  (accepted : gmap Slot (Ballot * V)) (faulty : gmap Slot Ballot) (next_from_slot : option Slot)
  : run (Proposer I V * PromiseFold) :=
  match p_probe p with
  | None => mret (p, Ignored)
  | Some probe =>
      known ← anyM (fun c => config_contains c from) (pb_prior probe);
      if decide (known = false) then mret (p, Ignored) else
      ok ← tally_accepts (pb_promises probe) from ballot from_slot accepted faulty next_from_slot;
      if decide (ok = false) then mret (p, Ignored) else
      have ← merge_reports (pb_best_have probe) (filter (fun kv => kv.1 ∈ pb_blocked probe) accepted);
      let reports := merge_faulty from (pb_faulty_reports probe)
                       (filter (fun kv => kv.1 ∈ pb_blocked probe) (bt_entries faulty)) in
      '(tally, fold) ← close_page (pb_promises probe) from next_from_slot;
      let probe' := mkProbe tally (pb_prior probe) reports have (pb_blocked probe) (pb_elapsed probe) in
      probe_assert_invariants probe';;
      (if decide (fold = Answered) then
         rassert (from ∈ t_answered (pb_promises probe')) "an answered straggler is counted" else mret tt);;
      rassert (fold <> Ignored) "a page past the guards always folds";;
      mret (with_probe p (Some probe'), fold)
  end.

(** A slot leaves every tally of the probe. *)
Definition probe_drop (probe : RepairProbe I V) (slot : Slot) : RepairProbe I V :=
  mkProbe (pb_promises probe) (pb_prior probe) (delete slot (pb_faulty_reports probe))
    (delete slot (pb_best_have probe)) (pb_blocked probe ∖ {[ slot ]}) (pb_elapsed probe).

Definition resolve_one (acc : RepairProbe I V * list (ProbeDecision V)) (slot : Slot)
  : run (RepairProbe I V * list (ProbeDecision V)) :=
  let '(probe, decisions) := acc in
  let have := pb_best_have probe !! slot in
  decidable ← slot_decidable (pb_prior probe) (t_answered (pb_promises probe))
                (pb_faulty_reports probe !! slot) (fst <$> have);
  if decide (decidable = false) then mret acc else
  mret (probe_drop probe slot, decisions ++ [mkDecision slot (snd <$> have)]).

(** An open probe always has work: it closes when nothing stays blocked. *)
Definition probe_settle p (probe : RepairProbe I V) : run (Proposer I V) :=
  if decide (pb_blocked probe = ∅) then mret (with_probe p None)
  else probe_assert_invariants probe;; mret (with_probe p (Some probe)).

Definition resolve_probe p : run (Proposer I V * list (ProbeDecision V)) :=
  match p_probe p with
  | None => mret (p, [])
  | Some probe =>
      '(probe', decisions) ← foldM resolve_one (probe, []) (bs_elements (pb_blocked probe));
      rassert (Forall (fun d => pd_slot d ∉ pb_blocked probe') decisions)
        "a decided slot is no longer blocked";;
      p' ← probe_settle p probe';
      mret (p', decisions)
  end.

Definition probe_resolved_elsewhere p (slot : Slot) : run (Proposer I V) :=
  match p_probe p with
  | None => mret p
  | Some probe =>
      if decide (slot ∈ pb_blocked probe) then
        let probe' := probe_drop probe slot in
        rassert (slot ∉ pb_blocked probe') "a resolved slot is no longer blocked";;
        probe_settle p probe'
      else mret p
  end.

Definition probe_retain_from p (first : Slot) : run (Proposer I V) :=
  p' ← match p_probe p with
       | None => mret p
       | Some probe =>
           let probe' := mkProbe (pb_promises probe) (pb_prior probe)
                           (bt_split_off first (pb_faulty_reports probe))
                           (bt_split_off first (pb_best_have probe))
                           (bs_split_off first (pb_blocked probe)) (pb_elapsed probe) in
           rassert (is_none_or (fun s => first <= s) (bs_first (pb_blocked probe')))
             "no blocked slot survives below the jump";;
           mret (with_probe p (if decide (pb_blocked probe' = ∅) then None else Some probe'))
       end;
  rassert (is_none_or (fun pr => pb_blocked pr <> ∅) (p_probe p'))
    "an open repair probe holds a blocked slot";;
  mret p'.

(** ** The election under its invariant *)

Record election_wf e : Prop := {
  ewf_tally : tally_wf (e_promises e);
  ewf_config : config_wf (e_config e);
  ewf_prior : Forall config_wf (e_prior e);
  ewf_recovered : forall s, is_Some (e_recovered e !! s) -> t_from_slot (e_promises e) <= s;
  ewf_faulty : forall s, is_Some (e_faulty_reports e !! s) -> t_from_slot (e_promises e) <= s }.

(** The pure readings: who the campaign counts, and when it holds a quorum. *)
Definition campaigned e (from : I) : Prop :=
  from ∈ c_members (e_config e) \/ Exists (fun c => from ∈ c_members c) (e_prior e).
Definition promise_quorums (configs : list (AcceptorConfig I)) (voters : gset I) : Prop :=
  Forall (fun c => phase1_holds (c_quorum_system c) (c_members c) voters None) configs.

Lemma config_members_ok config : config_wf config -> config_members config = Done (c_members config).
Proof.
  intros Hwf. unfold config_members. rassert_by (eapply admitted_nonempty, Hwf). done.
Qed.

Lemma config_quorum_system_ok config :
  config_wf config -> config_quorum_system config = Done (c_quorum_system config).
Proof.
  intros Hwf. unfold config_quorum_system. rewrite admits_ok by apply Hwf. rsimpl.
  rassert_by (apply bool_decide_eq_true_2, Hwf). done.
Qed.

Lemma member_union_ok (configs : list (AcceptorConfig I)) :
  Forall config_wf configs -> exists l, member_union configs = Done l /\
    sorted_members l /\ forall m, m ∈ l <-> Exists (fun c => m ∈ c_members c) configs.
Proof.
  intros Hwf. unfold member_union.
  assert (forall acc, exists l,
    foldM (fun acc c => ms ← config_members c; mret (acc ++ ms)) acc configs = Done l /\
    forall m, m ∈ l <-> m ∈ acc \/ Exists (fun c => m ∈ c_members c) configs) as Hl.
  { induction Hwf as [|c cs Hc _ IH]; intros acc; cbn [foldM].
    - exists acc. split; [done|]. intros m. rewrite Exists_nil. tauto.
    - rewrite config_members_ok by done. rsimpl. destruct (IH (acc ++ c_members c)) as (l & -> & Hl).
      exists l. split; [done|]. intros m. rewrite Hl, elem_of_app, Exists_cons. tauto. }
  destruct (Hl []) as (l & -> & Hm). rsimpl. exists (normalize l).
  split; [by rassert_by apply normalize_sorted|]. split; [apply normalize_sorted|]. intros m. rewrite elem_of_normalize, Hm.
  rewrite elem_of_nil. tauto.
Qed.

Lemma covered_ok e : election_wf e ->
  covered e = Done (bool_decide (promise_quorums (e_prior e) (t_answered (e_promises e)))).
Proof.
  intros Hwf. unfold covered, promise_quorums. apply allM_ok. intros c Hc. apply has_phase1_quorum_ok.
  pose proof (ewf_prior _ Hwf) as Hp. rewrite Forall_forall in Hp. by apply Hp.
Qed.

Lemma phase1_won_ok p e promise : p_election p = Some e -> election_wf e ->
  phase1_won p promise =
    Done (bool_decide (promise_quorums (e_prior e) (t_answered (e_promises e)) /\
                       (promise ≤ t_ballot (e_promises e))%B)).
Proof.
  intros He Hwf. unfold phase1_won. rewrite He, covered_ok by done. rsimpl.
  rewrite <-bool_decide_and. case_bool_decide as Hw; [|done]. destruct Hw as [Hq Hb].
  rewrite (rassert_true (promise ≤ _)%B) by done.
  destruct (decide (e_prior e <> [])) as [Hne|]; [|done].
  rewrite rassert_true; [done|].
  destruct (e_prior e) as [|c cs] eqn:Ep; [done|]. apply Forall_cons in Hq as [Hq _].
  eapply phase1_holds_nonempty; [|done]. pose proof (ewf_prior _ Hwf) as Hp. rewrite Ep in Hp.
  by apply Forall_cons in Hp as [? _].
Qed.

Lemma campaigned_ok {A} e from (f : bool -> run A) : election_wf e ->
  (inside ← config_contains (e_config e) from;
   known ← (if inside : bool then mret true else anyM (fun c => config_contains c from) (e_prior e));
   f known) = f (bool_decide (campaigned e from)).
Proof.
  intros Hwf. rewrite config_contains_ok by apply Hwf. rsimpl. unfold campaigned.
  destruct (decide (from ∈ c_members (e_config e))) as [Hin|Hout].
  - rewrite (bool_decide_eq_true_2 (from ∈ _)) by done. rewrite bool_decide_eq_true_2; [done|by left].
  - rewrite (bool_decide_eq_false_2 (from ∈ _)) by done.
    rewrite (anyM_ok _ (fun c => from ∈ c_members c)).
    + rsimpl. apply (f_equal f), bool_decide_ext. tauto.
    + intros c Hc. apply config_contains_ok. pose proof (ewf_prior _ Hwf) as Hp.
      rewrite Forall_forall in Hp. by apply Hp.
Qed.

(** *** Opening a campaign *)

Lemma sorted_members_filter (P : I -> Prop) `{!forall m, Decision (P m)} (l : list I) :
  sorted_members l -> sorted_members (filter P l).
Proof.
  intros Hs%members_strongly_sorted. apply StronglySorted_Sorted.
  induction Hs as [|x l Hs IH Hx]; [constructor|]. rewrite filter_cons. case_decide; [|done].
  constructor; [done|]. apply Forall_forall. intros y [_ Hy]%list_elem_of_filter.
  rewrite Forall_forall in Hx. by apply Hx.
Qed.

Lemma targets_ok e me : election_wf e -> exists l, targets e me = Done l /\ sorted_members l /\
  forall m, m ∈ l <-> campaigned e m /\ Some m <> me.
Proof.
  intros Hwf. destruct (member_union_ok (e_prior e ++ [e_config e])) as (l & El & Hs & Hl).
  { apply Forall_app. split; [apply Hwf|apply Forall_singleton, Hwf]. }
  assert (forall m, m ∈ filter (fun m => Some m <> me) l <-> campaigned e m /\ Some m <> me) as Hm.
  { intros m. rewrite list_elem_of_filter, Hl, Exists_app, Exists_cons, Exists_nil. unfold campaigned. tauto. }
  exists (filter (fun m => Some m <> me) l). split_and!; [|by apply sorted_members_filter|done].
  unfold targets. rewrite El. rsimpl. eapply bind_seq with (a := tt).
  { destruct me as [me|]; [|done]. apply rassert_true. rewrite Hm. tauto. }
  cbv beta. rewrite config_members_ok by apply Hwf. rsimpl. rassert_by idtac; [|done].
  apply Forall_forall. intros m Hin. destruct (decide (Some m = me)); [by left|right].
  apply Hm. split; [by left|done].
Qed.

Lemma merge_faulty_range (from : I) (reports : gmap Slot (gmap I Ballot)) faulty s :
  is_Some (merge_faulty from reports faulty !! s) <-> is_Some (reports !! s) \/ s ∈ faulty.*1.
Proof.
  unfold merge_faulty. revert reports. induction faulty as [|[k b] l IH]; intros reports; simpl.
  - rewrite elem_of_nil. tauto.
  - rewrite IH. simpl. rewrite lookup_insert, elem_of_cons.
    destruct (decide (k = s)) as [->|Hne].
    + split; [intros _; right; by left|intros _; left; by eexists].
    + assert (s <> k) by congruence. tauto.
Qed.

(** The election a campaign opens with: the candidate's own records and reports. *)
Definition opened_election (c : Campaign I) (own_records : gmap Slot (Ballot * V))
  (own_faulty : gmap Slot Ballot) : Election I V :=
  mkElection (mkTally (cp_ballot c) (cp_from_slot c) (match cp_me c with Some me => {[ me ]} | None => ∅ end) ∅)
    (cp_config c) (cp_prior c) (list_to_map (bt_range_from (cp_from_slot c) own_records))
    (match cp_me c with
     | Some me => merge_faulty me ∅ (bt_range_from (cp_from_slot c) own_faulty)
     | None => ∅
     end).

Lemma lookup_range_from {A} from (m : gmap Slot A) s :
  (list_to_map (bt_range_from from m) : gmap Slot A) !! s = if decide (from <= s) then m !! s else None.
Proof.
  assert (NoDup (bt_range_from from m).*1) as Hnd.
  { eapply sublist_NoDup; [apply (NoDup_bt_keys m)|]. apply fmap_sublist, sublist_filter. }
  case_decide as Hle.
  - destruct (m !! s) as [x|] eqn:E.
    + apply elem_of_list_to_map; [done|]. by apply elem_of_bt_range_from.
    + apply not_elem_of_list_to_map. intros ([k x] & -> & Hin)%list_elem_of_fmap.
      apply elem_of_bt_range_from in Hin as [? _]. simpl in *. congruence.
  - apply not_elem_of_list_to_map. intros ([k x] & -> & Hin)%list_elem_of_fmap.
    by apply elem_of_bt_range_from in Hin as [_ ?].
Qed.

Lemma opened_election_wf c own_records own_faulty :
  config_wf (cp_config c) -> Forall config_wf (cp_prior c) ->
  election_wf (opened_election c own_records own_faulty).
Proof.
  intros Hc Hp. constructor; try done; [apply (tally_new_ok (cp_ballot c))|..]; intros s; cbn.
  - rewrite lookup_range_from. case_decide; [done|by intros [? ?]].
  - destruct (cp_me c); [|rewrite lookup_empty; by intros [? ?]].
    intros [Hs|Hs]%merge_faulty_range; [rewrite lookup_empty in Hs; by destruct Hs|].
    apply list_elem_of_fmap in Hs as ([k b] & -> & Hin). by apply elem_of_bt_range_from in Hin as [_ ?].
Qed.

Lemma open_phase1_ok p c own_records own_faulty :
  p_election p = None -> rounds_is_empty (p_rounds p) -> p_probe p = None -> p_recovery p = None ->
  config_wf (cp_config c) -> Forall config_wf (cp_prior c) ->
  exists l, open_phase1 p c own_records own_faulty =
      Done (with_election p (Some (opened_election c own_records own_faulty)), l) /\ sorted_members l /\
    forall m, m ∈ l <-> campaigned (opened_election c own_records own_faulty) m /\ Some m <> cp_me c.
Proof.
  intros He Hr Hp Hrec Hc Hpr. pose proof (opened_election_wf c own_records own_faulty Hc Hpr) as Hwf.
  destruct (targets_ok (opened_election c own_records own_faulty) (cp_me c) Hwf) as (l & El & Hs & Hl).
  exists l. split; [|done]. unfold open_phase1. do 4 rassert_by done.
  destruct c as [me ballot config prior from_slot]. cbn in *.
  rewrite (proj1 (tally_new_ok ballot from_slot _)). rsimpl.
  unfold opened_election in *. cbn in *. rewrite El. rsimpl.
  rassert_by (cbn; destruct me; [apply size_singleton|apply size_empty]).
  rassert_by (apply first_key_geN; intros s Hs'; by apply (ewf_recovered _ Hwf)). done.
Qed.

(** *** One page folded in *)

(** A page the campaign counts. *)
Definition page_counts e (from : I) (ballot : Ballot) (from_slot : Slot)
  (accepted : gmap Slot (Ballot * V)) (faulty : gmap Slot Ballot) (next : option Slot) : Prop :=
  campaigned e from /\ (t_ballot (e_promises e) = ballot /\ from ∉ t_answered (e_promises e)) /\
  promise_page_shape_valid (owed (e_promises e) from) accepted faulty from_slot next = true.

#[export] Instance page_counts_dec e from ballot from_slot accepted faulty next :
  Decision (page_counts e from ballot from_slot accepted faulty next).
Proof. unfold page_counts, campaigned. apply _. Defined.

(** What an election becomes when it folds a page. *)
Definition page_folded e (from : I) (recovered : gmap Slot (Ballot * V)) (faulty : gmap Slot Ballot)
  (next : option Slot) : Election I V :=
  mkElection (page_closed (e_promises e) from next).1 (e_config e) (e_prior e) recovered
    (merge_faulty from (e_faulty_reports e) (bt_entries faulty)).

Lemma fold_promise_ok p e from ballot from_slot accepted faulty next :
  p_election p = Some e -> election_wf e -> (forall s, agree (e_recovered e !! s) (accepted !! s)) ->
  if decide (page_counts e from ballot from_slot accepted faulty next) then
    exists recovered,
      fold_promise p from ballot from_slot accepted faulty next =
        Done (with_election p (Some (page_folded e from recovered faulty next)),
              (page_closed (e_promises e) from next).2) /\
      merge_reports (e_recovered e) accepted = Done recovered /\
      (forall s, recovered !! s = best (e_recovered e !! s) (accepted !! s)) /\
      election_wf (page_folded e from recovered faulty next)
  else fold_promise p from ballot from_slot accepted faulty next = Done (p, Ignored).
Proof.
  intros He Hwf Hag. pose proof (ewf_tally _ Hwf) as Ht. unfold fold_promise. rewrite He.
  rewrite campaigned_ok by done. rewrite tally_accepts_ok by done.
  case_decide as Hc; unfold page_counts in Hc.
  2: { destruct (decide (campaigned e from)) as [Hca|Hca].
       - rewrite decide_False by (rewrite bool_decide_eq_true_2 by done; done). rsimpl.
         rewrite decide_True; [done|]. apply not_true_iff_false. rewrite andb_true_iff, bool_decide_eq_true.
         tauto.
       - rewrite decide_True; [done|]. by apply bool_decide_eq_false_2. }
  destruct Hc as (Hca & [Hb Hna] & Hshape).
  rewrite (bool_decide_eq_true_2 (campaigned _ _)) by done.
  rewrite decide_False by done. rsimpl. rewrite bool_decide_eq_true_2 by done. rewrite Hshape.
  rewrite decide_False by done. destruct (merge_reports_ok _ _ Hag) as (recovered & Em & Hm).
  unfold promise_page_shape_valid in Hshape. apply bool_decide_eq_true in Hshape.
  destruct Hshape as (-> & _ & Hacc & Hfau & Hnext). pose proof (owed_ge _ from Ht) as Hge.
  rewrite Forall_forall in Hacc. rewrite Forall_forall in Hfau.
  destruct (close_page_ok (e_promises e) from next Ht Hna) as [Ecl Hwft].
  { destruct next; simpl in *; [tauto|done]. }
  assert (election_wf (page_folded e from recovered faulty next)) as Hwf'.
  { assert (t_from_slot (page_closed (e_promises e) from next).1 = t_from_slot (e_promises e)) as Efs
      by by destruct next.
    constructor; unfold page_folded; cbn; try apply Hwf; [done|..]; intros s; rewrite Efs.
    - rewrite Hm. intros [r Hr]. apply best_some in Hr as [Hr|Hr]; [apply (ewf_recovered _ Hwf); by eexists|].
      etrans; [done|]. apply Hacc, elem_of_bt_keys. by eexists.
    - intros [Hr|Hr]%merge_faulty_range; [by apply (ewf_faulty _ Hwf)|].
      etrans; [done|]. by apply Hfau. }
  exists recovered. split_and!; [|done|done|done]. rewrite Em. rsimpl. rewrite Ecl. rsimpl.
  destruct (page_closed (e_promises e) from next) as [t f] eqn:Ep. cbn.
  unfold page_folded in *. rewrite Ep in Hwf'. cbn in *.
  rassert_by (apply first_key_geN, Hwf'). rassert_by (apply first_key_geN, Hwf'). by rewrite Ep.
Qed.

(** *** The faulty-slot tally at the close *)

Definition qualifies (answered : gset I) (reporters : option (gmap I Ballot))
  (threshold : option Ballot) : gset I :=
  filter (fun node => is_none_or (fun ballot => ord_le (Some ballot) threshold)
                        (reporters ≫= fun reporters => reporters !! node)) answered.

Lemma slot_decidable_ok (prior : list (AcceptorConfig I)) answered reporters threshold :
  Forall config_wf prior ->
  slot_decidable prior answered reporters threshold =
    Done (bool_decide (promise_quorums prior (qualifies answered reporters threshold))).
Proof.
  intros Hwf. unfold slot_decidable, qualifying_answers. fold (qualifies answered reporters threshold).
  assert ((match reporters with
    | Some reporters0 => rassert (Forall (fun e : I * Ballot => ord_lt threshold (Some e.2) ->
         e.1 ∉ qualifies answered reporters threshold) (bt_entries reporters0))
        "a faulty report above the threshold never qualifies"
    | None => mret tt end) = Done tt) as ->.
  { destruct reporters as [rs|]; [|done]. apply rassert_true, Forall_forall.
    intros [i b] Hin%elem_of_bt_entries Hlt. unfold qualifies. rewrite elem_of_filter. simpl in *.
    rewrite Hin. simpl. intros [Hle _]. by apply Hlt. }
  rsimpl. unfold promise_quorums. apply allM_ok. intros c Hc. apply has_phase1_quorum_ok.
  rewrite Forall_forall in Hwf. by apply Hwf.
Qed.

(** A slot Phase 1 cannot decide: some acceptor reported its record rotted, and
    the answers that still count are no quorum of some prior configuration. *)
Definition undecided (prior : list (AcceptorConfig I)) (answered : gset I)
  (reports : gmap Slot (gmap I Ballot)) (have : gmap Slot (Ballot * V)) (slot : Slot) : Prop :=
  ~ promise_quorums prior (qualifies answered (reports !! slot) (fst <$> have !! slot)).

Definition blocks e (is_chosen : Slot -> bool) (slot : Slot) : Prop :=
  is_Some (e_faulty_reports e !! slot) /\ is_chosen slot = false /\
  undecided (e_prior e) (t_answered (e_promises e)) (e_faulty_reports e) (e_recovered e) slot.

(** The tallies the fold holds once it is through the reports of [l]. *)
Definition closed_over e (is_chosen : Slot -> bool) (l : list Slot)
  (acc : gset Slot * gmap Slot (Ballot * V) * gmap Slot (gmap I Ballot)) : Prop :=
  (forall s, s ∈ acc.1.1 <-> s ∈ l /\ blocks e is_chosen s) /\
  (forall s r, acc.1.2 !! s = Some r <-> s ∈ acc.1.1 /\ e_recovered e !! s = Some r) /\
  (forall s r, acc.2 !! s = Some r <-> s ∈ acc.1.1 /\ e_faulty_reports e !! s = Some r).

Lemma close_faulty_ok e is_chosen l acc slot reporters :
  election_wf e -> e_faulty_reports e !! slot = Some reporters -> (slot ∉ l) ->
  closed_over e is_chosen l acc ->
  exists acc', close_faulty e is_chosen acc (slot, reporters) = Done acc' /\
    closed_over e is_chosen (slot :: l) acc'.
Proof.
  intros Hwf Hr Hl Hacc. destruct acc as [[blocked have] faulty]. unfold close_faulty.
  assert (forall s, ~ blocks e is_chosen slot -> (s ∈ slot :: l /\ blocks e is_chosen s) <->
                    s ∈ l /\ blocks e is_chosen s) as Hskip.
  { intros s Hnb. rewrite elem_of_cons. split; [|tauto]. intros [[->|?] ?]; tauto. }
  destruct (is_chosen slot) eqn:Ec.
  { eexists. split; [done|]. destruct Hacc as (Hb & ? & ?). split; [|done]. intros s.
    rewrite Hskip; [apply Hb|]. intros (_ & ? & _). congruence. }
  rewrite slot_decidable_ok by apply Hwf. rsimpl.
  destruct (decide (undecided (e_prior e) (t_answered (e_promises e)) (e_faulty_reports e) (e_recovered e) slot))
    as [Hu|Hu]; unfold undecided in Hu; rewrite Hr in Hu.
  2: { apply dec_stable in Hu. rewrite decide_True by (by apply bool_decide_eq_true_2).
       eexists. split; [done|]. destruct Hacc as (Hb & ? & ?). split; [|done]. intros s.
       rewrite Hskip; [apply Hb|]. intros (_ & _ & Hu'). unfold undecided in Hu'. by rewrite Hr in Hu'. }
  rewrite decide_False by (by rewrite bool_decide_eq_false_2).
  eexists. split; [done|]. destruct Hacc as (Hb & Hh & Hf). unfold closed_over. cbn in *.
  assert (blocks e is_chosen slot) as Hbl
    by (split_and!; [by eexists|done|unfold undecided; by rewrite Hr]).
  assert (slot ∉ blocked) as Hsb by (rewrite Hb; tauto).
  split_and!.
  - intros s. rewrite elem_of_union, elem_of_singleton, elem_of_cons, Hb. split; [|tauto].
    intros [->|?]; tauto.
  - intros s r. rewrite elem_of_union, elem_of_singleton.
    destruct (decide (slot = s)) as [<-|Hne].
    + destruct (e_recovered e !! slot) as [r'|] eqn:Er; [rewrite lookup_insert_eq; tauto|].
      split; [intros [? ?]%Hh; tauto|]. by intros [_ ?].
    + assert (s <> slot) by congruence.
      destruct (e_recovered e !! slot) as [r'|] eqn:Er; [rewrite lookup_insert_ne by done|]; rewrite Hh; tauto.
  - intros s r. rewrite elem_of_union, elem_of_singleton.
    destruct (decide (slot = s)) as [<-|Hne].
    + rewrite lookup_insert_eq, Hr. tauto.
    + assert (s <> slot) by congruence. rewrite lookup_insert_ne, Hf by done. tauto.
Qed.

Lemma close_fold_ok e is_chosen (reports : list (Slot * gmap I Ballot)) l acc :
  election_wf e -> NoDup (reports.*1) ->
  (forall s r, (s, r) ∈ reports -> e_faulty_reports e !! s = Some r /\ (s ∉ l)) ->
  closed_over e is_chosen l acc ->
  exists acc', foldM (close_faulty e is_chosen) acc reports = Done acc' /\
    closed_over e is_chosen (rev_append reports.*1 l) acc'.
Proof.
  intros Hwf. revert l acc. induction reports as [|[s r] reports IH]; intros l acc Hnd Hrep Hacc.
  { by exists acc. }
  rewrite fmap_cons in Hnd. apply NoDup_cons in Hnd as [Hs Hnd]. cbn [foldM fmap list_fmap].
  destruct (Hrep s r) as [? ?]; [by left|].
  destruct (close_faulty_ok e is_chosen l acc s r) as (acc' & -> & Hacc'); [done..|]. rsimpl.
  apply IH; [done| |done]. intros s' r' Hin. split; [apply Hrep; by right|].
  rewrite not_elem_of_cons. split; [|by apply (Hrep s' r'); right].
  intros ->. apply Hs, list_elem_of_fmap. by exists (s, r').
Qed.

(** ** The probe's invariant *)

Record probe_wf (pb : RepairProbe I V) : Prop := {
  pwf_tally : tally_wf (pb_promises pb);
  pwf_prior : Forall config_wf (pb_prior pb);
  pwf_have : forall s, is_Some (pb_best_have pb !! s) -> s ∈ pb_blocked pb;
  pwf_faulty : forall s, is_Some (pb_faulty_reports pb !! s) -> s ∈ pb_blocked pb;
  pwf_range : forall s, s ∈ pb_blocked pb -> t_from_slot (pb_promises pb) <= s }.

Lemma probe_assert_invariants_ok pb :
  probe_wf pb -> pb_blocked pb <> ∅ -> probe_assert_invariants pb = Done tt.
Proof.
  intros [] Hne. unfold probe_assert_invariants. rassert_by done.
  rassert_by (apply Forall_forall; intros s Hs%elem_of_bt_keys; auto).
  rassert_by (apply Forall_forall; intros s Hs%elem_of_bt_keys; auto).
  apply rassert_true. destruct (bs_first _) as [s|] eqn:E; [|done]. apply bs_first_Some in E as [? _].
  simpl. auto.
Qed.

(** The probe a close leaves behind, if any. *)
Definition probe_after e (blocked : gset Slot) have faulty : option (RepairProbe I V) :=
  if decide (blocked <> ∅) then
    Some (mkProbe (mkTally (t_ballot (e_promises e)) (t_from_slot (e_promises e))
                     (t_answered (e_promises e)) ∅) (e_prior e) faulty have blocked 0)
  else None.

Definition highest_reported e : option Slot :=
  opt_max (last_key_of (e_recovered e)) (last_key_of (e_faulty_reports e)).

Lemma close_phase1_ok p e is_chosen :
  p_election p = Some e -> election_wf e -> p_probe p = None ->
  promise_quorums (e_prior e) (t_answered (e_promises e)) ->
  exists blocked have faulty,
    close_phase1 p is_chosen =
      Done (mkProposer None (probe_after e blocked have faulty) rounds_empty (p_recovery p)
              (p_next_slot p) (p_authority p),
            mkOutcome (t_ballot (e_promises e)) (e_config e) (e_prior e) (t_answered (e_promises e))
              (e_recovered e) blocked (highest_reported e)) /\
    (forall s, s ∈ blocked <-> blocks e is_chosen s) /\
    (forall s r, have !! s = Some r <-> s ∈ blocked /\ e_recovered e !! s = Some r) /\
    (forall s r, faulty !! s = Some r <-> s ∈ blocked /\ e_faulty_reports e !! s = Some r) /\
    is_none_or probe_wf (probe_after e blocked have faulty).
Proof.
  intros He Hwf Hpr Hq.
  destruct (close_fold_ok e is_chosen (bt_entries (e_faulty_reports e)) [] (∅, ∅, ∅))
    as ([[blocked have] faulty] & Efold & Hb & Hh & Hf); [done|apply NoDup_bt_keys|..].
  { intros s r Hin%elem_of_bt_entries. split; [done|]. apply not_elem_of_nil. }
  { split_and!; cbn; intros s; rewrite ?elem_of_nil, ?elem_of_empty; [tauto|..];
      intros r; rewrite lookup_empty, elem_of_empty; split; [done|tauto|done|tauto]. }
  cbn in Hb, Hh, Hf.
  assert (forall s, s ∈ blocked <-> blocks e is_chosen s) as Hb'.
  { intros s. rewrite Hb. fold (reverse (bt_entries (e_faulty_reports e)).*1). rewrite elem_of_reverse.
    fold (bt_keys (e_faulty_reports e)). rewrite elem_of_bt_keys. unfold blocks. tauto. }
  exists blocked, have, faulty.
  assert (is_none_or probe_wf (probe_after e blocked have faulty)) as Hpwf.
  { unfold probe_after. case_decide; [|done]. constructor; cbn.
    - apply (tally_new_ok (t_ballot (e_promises e)) _ _).
    - apply Hwf.
    - intros s [r Hr]. by apply Hh in Hr as [? _].
    - intros s [r Hr]. by apply Hf in Hr as [? _].
    - intros s (Hs & _)%Hb'. by apply (ewf_faulty _ Hwf). }
  split_and!; [|done..]. unfold close_phase1. rewrite He. cbn [rexpect]. rsimpl.
  rewrite covered_ok by done. rsimpl. rassert_by (by apply bool_decide_eq_true_2). rassert_by done.
  rewrite Efold. rsimpl. fold (highest_reported e).
  rassert_by (apply Forall_forall; intros s Hs%elem_of_bs_elements; by apply Hb' in Hs as [? _]).
  eapply bind_seq with (a := probe_after e blocked have faulty).
  { unfold probe_after. case_decide; [|done].
    by rewrite (proj1 (tally_new_ok (t_ballot (e_promises e)) _ _)). }
  cbv beta. rassert_by (unfold probe_after; case_decide; (split; [|by eauto]); [done|by intros [? ?]]).
  by rassert_by done.
Qed.

(** *** P2c with rotted records: what the qualifying answers see *)

Lemma decidable_covers prior answered reporters threshold (voters : gset I) c col b :
  Forall config_wf prior -> promise_quorums prior (qualifies answered reporters threshold) -> c ∈ prior ->
  phase2_holds (c_quorum_system c) (c_members c) voters col ->
  (forall m, m ∈ voters -> m ∈ answered -> ord_le (Some b) threshold \/
     exists fb, (reporters ≫= fun r => r !! m) = Some fb /\ (b ≤ fb)%B) ->
  ord_le (Some b) threshold.
Proof.
  intros Hwf Hq Hc H2 Hsee. unfold promise_quorums in Hq. rewrite Forall_forall in Hq.
  rewrite Forall_forall in Hwf. pose proof (Hwf _ Hc) as Hwc.
  destruct (holds_intersect _ _ _ _ _ _ (cwf_admitted _ Hwc) (Hq _ Hc) H2) as (m & _ & Hm & Hv).
  unfold qualifies in Hm. apply elem_of_filter in Hm as [Hth Ha].
  destruct (Hsee m Hv Ha) as [?|(fb & Efb & Hle)]; [done|].
  rewrite Efb in Hth. simpl in Hth. eapply ord_le_trans; [|exact Hth]. exact Hle.
Qed.

(** *** The probe's decisions *)

Definition decidable_in (pb : RepairProbe I V) (slot : Slot) : Prop :=
  promise_quorums (pb_prior pb)
    (qualifies (t_answered (pb_promises pb)) (pb_faulty_reports pb !! slot) (fst <$> pb_best_have pb !! slot)).

#[export] Instance decidable_in_dec pb slot : Decision (decidable_in pb slot).
Proof. unfold decidable_in, promise_quorums. apply _. Defined.

Definition decision_of (pb : RepairProbe I V) (slot : Slot) : ProbeDecision V :=
  mkDecision slot (snd <$> pb_best_have pb !! slot).

(** The same tallies, over the slots of [l]. *)
Definition same_over (l : list Slot) (pb cur : RepairProbe I V) : Prop :=
  pb_promises cur = pb_promises pb /\ pb_prior cur = pb_prior pb /\
  forall s, s ∈ l -> pb_faulty_reports cur !! s = pb_faulty_reports pb !! s /\
                     pb_best_have cur !! s = pb_best_have pb !! s.

Lemma resolve_fold_ok (pb : RepairProbe I V) (l : list Slot) cur ds :
  Forall config_wf (pb_prior pb) -> NoDup l -> same_over l pb cur ->
  foldM resolve_one (cur, ds) l =
    Done (foldl probe_drop cur (filter (decidable_in pb) l), ds ++ (decision_of pb <$> filter (decidable_in pb) l)).
Proof.
  intros Hwf. revert cur ds. induction l as [|s l IH]; intros cur ds Hnd (Hp & Hpr & Hsame).
  { simpl. by rewrite app_nil_r. }
  apply NoDup_cons in Hnd as [Hs Hnd]. cbn [foldM resolve_one].
  destruct (Hsame s ltac:(left)) as [Hf Hh]. rewrite Hp, Hpr, Hf, Hh, slot_decidable_ok by done. rsimpl.
  fold (decidable_in pb s). rewrite filter_cons. destruct (decide (decidable_in pb s)) as [Hd|Hd].
  - rewrite decide_False by (by rewrite bool_decide_eq_true_2). rsimpl. rewrite IH; [|done|].
    + cbn. by rewrite <-app_assoc.
    + split_and!; [done|done|]. intros s' Hs'. destruct (Hsame s') as [Hf' Hh']; [by right|].
      assert (s <> s') by by intros ->. cbn. by rewrite !lookup_delete_ne.
  - rewrite decide_True by (by rewrite bool_decide_eq_false_2). rsimpl. rewrite IH; [done|done|].
    split_and!; [done|done|]. intros s' Hs'. apply Hsame. by right.
Qed.

Lemma drop_cons_lookup {A} (m : gmap Slot A) k l s :
  (if decide (s ∈ l) then None else delete k m !! s) = if decide (s ∈ k :: l) then None else m !! s.
Proof.
  destruct (decide (s ∈ k :: l)) as [Hc|Hc]; rewrite elem_of_cons in Hc; case_decide; try tauto.
  - assert (s = k) as -> by tauto. apply lookup_delete_eq.
  - rewrite lookup_delete_ne by (intros ->; tauto). done.
Qed.

Lemma probe_drops (pb : RepairProbe I V) (l : list Slot) :
  let pb' := foldl probe_drop pb l in
  pb_promises pb' = pb_promises pb /\ pb_prior pb' = pb_prior pb /\
  (forall s, s ∈ pb_blocked pb' <-> s ∈ pb_blocked pb /\ (s ∉ l)) /\
  (forall s, pb_faulty_reports pb' !! s = if decide (s ∈ l) then None else pb_faulty_reports pb !! s) /\
  (forall s, pb_best_have pb' !! s = if decide (s ∈ l) then None else pb_best_have pb !! s).
Proof.
  revert pb. induction l as [|k l IH]; intros pb; cbn [foldl].
  { split_and!; try done. intros s. rewrite elem_of_nil. tauto. }
  destruct (IH (probe_drop pb k)) as (-> & -> & Hb & Hf & Hh). split_and!; [done|done|..]; intros s.
  - rewrite Hb. cbn. rewrite elem_of_difference, elem_of_singleton, not_elem_of_cons. tauto.
  - rewrite Hf. cbn. apply drop_cons_lookup.
  - rewrite Hh. cbn. apply drop_cons_lookup.
Qed.

Lemma probe_drops_wf (pb : RepairProbe I V) (l : list Slot) :
  probe_wf pb -> probe_wf (foldl probe_drop pb l).
Proof.
  intros Hwf. destruct (probe_drops pb l) as (Hp & Hpr & Hb & Hf & Hh).
  constructor; rewrite ?Hp, ?Hpr; try apply Hwf; intros s; rewrite ?Hb, ?Hf, ?Hh.
  - case_decide; [by intros [? ?]|]. intros Hs. split; [by apply (pwf_have _ Hwf)|done].
  - case_decide; [by intros [? ?]|]. intros Hs. split; [by apply (pwf_faulty _ Hwf)|done].
  - intros [? _]. by apply (pwf_range _ Hwf).
Qed.

Lemma probe_settle_ok p (pb : RepairProbe I V) : probe_wf pb ->
  probe_settle p pb = Done (with_probe p (if decide (pb_blocked pb = ∅) then None else Some pb)).
Proof.
  intros Hwf. unfold probe_settle. case_decide; [done|]. by rewrite probe_assert_invariants_ok.
Qed.

Lemma resolve_probe_ok p (pb : RepairProbe I V) :
  p_probe p = Some pb -> probe_wf pb ->
  let decided := filter (decidable_in pb) (bs_elements (pb_blocked pb)) in
  let pb' := foldl probe_drop pb decided in
  resolve_probe p =
    Done (with_probe p (if decide (pb_blocked pb' = ∅) then None else Some pb'), decision_of pb <$> decided).
Proof.
  intros Hp Hwf decided pb'. unfold resolve_probe. rewrite Hp.
  rewrite (resolve_fold_ok pb); [|apply Hwf|apply NoDup_bs_elements|done]. rsimpl. fold decided pb'.
  rassert_by idtac.
  { apply Forall_forall. intros d Hd. apply list_elem_of_fmap in Hd as (s & -> & Hs). cbn.
    destruct (probe_drops pb decided) as (_ & _ & Hb & _). unfold pb'. rewrite Hb. tauto. }
  rewrite probe_settle_ok by by apply probe_drops_wf. done.
Qed.

(** *** A straggler's page folded into the probe *)

Definition probe_page_counts (pb : RepairProbe I V) (from : I) (ballot : Ballot) (from_slot : Slot)
  (accepted : gmap Slot (Ballot * V)) (faulty : gmap Slot Ballot) (next : option Slot) : Prop :=
  Exists (fun c => from ∈ c_members c) (pb_prior pb) /\
  (t_ballot (pb_promises pb) = ballot /\ from ∉ t_answered (pb_promises pb)) /\
  promise_page_shape_valid (owed (pb_promises pb) from) accepted faulty from_slot next = true.

#[export] Instance probe_page_counts_dec pb from ballot from_slot accepted faulty next :
  Decision (probe_page_counts pb from ballot from_slot accepted faulty next).
Proof. unfold probe_page_counts. apply _. Defined.

(** The part of a page about blocked slots. *)
Definition over_blocked {A} (pb : RepairProbe I V) (m : gmap Slot A) : gmap Slot A :=
  filter (fun kv => kv.1 ∈ pb_blocked pb) m.

Lemma lookup_over_blocked {A} pb (m : gmap Slot A) s r :
  over_blocked pb m !! s = Some r <-> m !! s = Some r /\ s ∈ pb_blocked pb.
Proof. unfold over_blocked. by rewrite map_lookup_filter_Some. Qed.

Definition probe_folded (pb : RepairProbe I V) (from : I) have (faulty : gmap Slot Ballot)
  (next : option Slot) : RepairProbe I V :=
  mkProbe (page_closed (pb_promises pb) from next).1 (pb_prior pb)
    (merge_faulty from (pb_faulty_reports pb)
       (filter (fun kv : Slot * Ballot => kv.1 ∈ pb_blocked pb) (bt_entries faulty)))
    have (pb_blocked pb) (pb_elapsed pb).

Lemma fold_probe_promise_ok p pb from ballot from_slot accepted faulty next :
  p_probe p = Some pb -> probe_wf pb -> pb_blocked pb <> ∅ ->
  (forall s, agree (pb_best_have pb !! s) (over_blocked pb accepted !! s)) ->
  if decide (probe_page_counts pb from ballot from_slot accepted faulty next) then
    exists have,
      fold_probe_promise p from ballot from_slot accepted faulty next =
        Done (with_probe p (Some (probe_folded pb from have faulty next)),
              (page_closed (pb_promises pb) from next).2) /\
      (forall s, have !! s = best (pb_best_have pb !! s) (over_blocked pb accepted !! s)) /\
      probe_wf (probe_folded pb from have faulty next)
  else fold_probe_promise p from ballot from_slot accepted faulty next = Done (p, Ignored).
Proof.
  intros Hp Hwf Hne Hag. pose proof (pwf_tally _ Hwf) as Ht. unfold fold_probe_promise. rewrite Hp.
  rewrite (anyM_ok _ (fun c => from ∈ c_members c)).
  2: { intros c Hc. apply config_contains_ok. pose proof (pwf_prior _ Hwf) as Hpr.
       rewrite Forall_forall in Hpr. by apply Hpr. }
  rsimpl. rewrite tally_accepts_ok by done. case_decide as Hc; unfold probe_page_counts in Hc.
  2: { destruct (decide (Exists (fun c => from ∈ c_members c) (pb_prior pb))) as [Hca|Hca].
       - rewrite decide_False by (rewrite bool_decide_eq_true_2 by done; done). rsimpl.
         rewrite decide_True; [done|]. apply not_true_iff_false. rewrite andb_true_iff, bool_decide_eq_true.
         tauto.
       - rewrite decide_True; [done|]. by apply bool_decide_eq_false_2. }
  destruct Hc as (Hca & [Hb Hna] & Hshape).
  rewrite (bool_decide_eq_true_2 (Exists _ _)) by done.
  rewrite decide_False by done. rsimpl. rewrite bool_decide_eq_true_2 by done. rewrite Hshape.
  rewrite decide_False by done. destruct (merge_reports_ok _ _ Hag) as (have & Em & Hm).
  unfold promise_page_shape_valid in Hshape. apply bool_decide_eq_true in Hshape.
  destruct Hshape as (-> & _ & _ & _ & Hnext).
  destruct (close_page_ok (pb_promises pb) from next Ht Hna) as [Ecl Hwft].
  { destruct next; simpl in *; [tauto|done]. }
  assert (probe_wf (probe_folded pb from have faulty next)) as Hwf'.
  { assert (t_from_slot (page_closed (pb_promises pb) from next).1 = t_from_slot (pb_promises pb)) as Efs
      by by destruct next.
    constructor; unfold probe_folded; cbn; rewrite ?Efs; try apply Hwf; [done|..]; intros s.
    - rewrite Hm. intros [r Hr]. apply best_some in Hr as [Hr|Hr]; [apply (pwf_have _ Hwf); by eexists|].
      by apply lookup_over_blocked in Hr as [_ ?].
    - intros [Hr|Hr]%merge_faulty_range; [by apply (pwf_faulty _ Hwf)|].
      apply list_elem_of_fmap in Hr as (kv & -> & Hkv). by apply list_elem_of_filter in Hkv as [? _]. }
  exists have. split_and!; [|done|done]. fold (over_blocked pb accepted). rewrite Em. rsimpl.
  rewrite Ecl. rsimpl. destruct (page_closed (pb_promises pb) from next) as [t f] eqn:Ep. cbn.
  unfold probe_folded in *. rewrite Ep in Hwf' |- *. cbn in *.
  rewrite probe_assert_invariants_ok by done. rsimpl.
  assert (f = match next with Some n => Continue n | None => Answered end /\
          (next = None -> from ∈ t_answered t)) as [Ef Hans].
  { unfold page_closed in Ep. destruct next; simplify_eq/=; [done|]. split; [done|]. set_solver. }
  eapply bind_seq with (a := tt).
  { destruct next; simplify_eq; [done|]. rewrite decide_True by done. apply rassert_true. by apply Hans. }
  cbv beta. rassert_by (by destruct next; simplify_eq). done.
Qed.
End election.

(** ** Properties *)

Section properties.
Context {I : Type} `{Ord I, !Countable I} {V : Type} `{!EqDecision V, !Fingerprint V}.
Implicit Types (p : Proposer I V) (e : Election I V) (pb : RepairProbe I V).

(** Folding a promise page, on every branch.  A page at another ballot, from
    a stranger, from an acceptor that has answered, off its cursor or misshapen
    changes nothing; any other page moves the sender's cursor or completes its
    answer, and keeps per slot the highest-ballot report.  No assertion fires,
    and the election's invariant is kept. *)
Theorem fold_promise_exact p e from ballot from_slot accepted faulty next :
  p_election p = Some e -> election_wf e -> (forall s, agree (e_recovered e !! s) (accepted !! s)) ->
  (~ page_counts e from ballot from_slot accepted faulty next ->
     fold_promise p from ballot from_slot accepted faulty next = Done (p, Ignored)) /\
  (page_counts e from ballot from_slot accepted faulty next ->
     exists e', fold_promise p from ballot from_slot accepted faulty next =
                  Done (with_election p (Some e'),
                        match next with Some n => Continue n | None => Answered end) /\
       election_wf e' /\
       (forall s, e_recovered e' !! s = best (e_recovered e !! s) (accepted !! s)) /\
       (forall id, id ∈ t_answered (e_promises e') <->
          id ∈ t_answered (e_promises e) \/ (id = from /\ next = None)) /\
       (forall s, is_Some (e_faulty_reports e' !! s) <->
          is_Some (e_faulty_reports e !! s) \/ is_Some (faulty !! s))).
Proof.
  intros He Hwf Hag. pose proof (fold_promise_ok p e from ballot from_slot accepted faulty next He Hwf Hag) as Hok.
  case_decide as Hc; (split; [|intros]); try tauto. destruct Hok as (recovered & E & _ & Hm & Hwf').
  eexists. split_and!; [rewrite E; by destruct next|done|exact Hm|..].
  - intros id. destruct next; cbn; [split; [by left|by intros [?|[_ ?]]]|].
    rewrite elem_of_union, elem_of_singleton. tauto.
  - intros s. cbn. rewrite merge_faulty_range. fold (bt_keys faulty). by rewrite elem_of_bt_keys.
Qed.

(** Opening a campaign.  With nothing in flight it never panics, opens at its
    ballot with only the candidate's own promise and its own records at or above
    the first slot, and addresses exactly the members of the new configuration
    and of every prior one, in order and without itself. *)
Theorem open_phase1_exact p c own_records own_faulty :
  p_election p = None -> rounds_is_empty (p_rounds p) -> p_probe p = None -> p_recovery p = None ->
  config_wf (cp_config c) -> Forall config_wf (cp_prior c) ->
  exists e targets, open_phase1 p c own_records own_faulty = Done (with_election p (Some e), targets) /\
    election_wf e /\ t_ballot (e_promises e) = cp_ballot c /\
    (forall m, m ∈ t_answered (e_promises e) <-> Some m = cp_me c) /\
    (forall s, e_recovered e !! s = if decide (cp_from_slot c <= s) then own_records !! s else None) /\
    sorted_members targets /\
    (forall m, m ∈ targets <->
       (m ∈ c_members (cp_config c) \/ Exists (fun prior => m ∈ c_members prior) (cp_prior c)) /\ Some m <> cp_me c).
Proof.
  intros He Hr Hp Hrec Hc Hpr.
  destruct (open_phase1_ok p c own_records own_faulty He Hr Hp Hrec Hc Hpr) as (l & E & Hs & Hl).
  eexists _, l. split; [exact E|]. split_and!; [by apply opened_election_wf|done| |apply lookup_range_from|done|exact Hl].
  intros m. cbn. destruct (cp_me c) as [me|].
  - rewrite elem_of_singleton. split; [by intros ->|by intros [= ->]].
  - rewrite elem_of_empty. split; [done|by intros [=]].
Qed.

(** A straggler's page folded into the repair probe, on every branch: the
    same guards as an election's, and only the blocked slots' reports are kept,
    the highest ballot per slot; a probe never grows new blocked slots. *)
Theorem fold_probe_promise_exact p pb from ballot from_slot accepted faulty next :
  p_probe p = Some pb -> probe_wf pb -> pb_blocked pb <> ∅ ->
  (forall s, agree (pb_best_have pb !! s) (over_blocked pb accepted !! s)) ->
  (~ probe_page_counts pb from ballot from_slot accepted faulty next ->
     fold_probe_promise p from ballot from_slot accepted faulty next = Done (p, Ignored)) /\
  (probe_page_counts pb from ballot from_slot accepted faulty next ->
     exists pb', fold_probe_promise p from ballot from_slot accepted faulty next =
                   Done (with_probe p (Some pb'), match next with Some n => Continue n | None => Answered end) /\
       probe_wf pb' /\ pb_blocked pb' = pb_blocked pb /\
       (forall s, pb_best_have pb' !! s = best (pb_best_have pb !! s) (over_blocked pb accepted !! s))).
Proof.
  intros Hp Hwf Hne Hag.
  pose proof (fold_probe_promise_ok p pb from ballot from_slot accepted faulty next Hp Hwf Hne Hag) as Hok.
  case_decide as Hc; (split; [|intros]); try tauto. destruct Hok as (have & E & Hm & Hwf').
  eexists. split_and!; [rewrite E; by destruct next|done|done|exact Hm].
Qed.

(** [m]'s vote for slot [s] at ballot [b] reached the tally: a vote at [b] or
    above is held for the slot, or [m] reported a rotted record at [b] or above. *)
Definition reported (reports : gmap Slot (gmap I Ballot)) (have : gmap Slot (Ballot * V))
  (s : Slot) (m : I) (b : Ballot) : Prop :=
  (exists b' v, have !! s = Some (b', v) /\ (b ≤ b')%B) \/
  (exists fb, (reports !! s ≫= fun r => r !! m) = Some fb /\ (b ≤ fb)%B).

Lemma reported_covers prior answered reports have s (voters : gset I) c col b :
  Forall config_wf prior -> ~ undecided prior answered reports have s -> c ∈ prior ->
  phase2_holds (c_quorum_system c) (c_members c) voters col ->
  (forall m, m ∈ voters -> m ∈ answered -> reported reports have s m b) ->
  exists b' v, have !! s = Some (b', v) /\ (b ≤ b')%B.
Proof.
  intros Hwf Hd Hc H2 Hsee. apply dec_stable in Hd.
  pose proof (decidable_covers _ _ _ _ voters c col b Hwf Hd Hc H2) as Hle.
  destruct (have !! s) as [[b' v]|] eqn:E; simpl in Hle.
  - exists b', v. split; [done|]. apply Hle. intros m Hm Ha.
    destruct (Hsee m Hm Ha) as [(b'' & v' & E' & ?)|(fb & Efb & ?)]; [left|right; by exists fb].
    rewrite E in E'. by injection E' as <- <-.
  - exfalso. apply Hle. intros m Hm Ha.
    destruct (Hsee m Hm Ha) as [(b'' & v' & E' & ?)|(fb & Efb & ?)]; [congruence|right; by exists fb].
Qed.

(** C23: a won Phase 1 closes without an assertion firing.  It blocks exactly the
    faulty-reported slots whose remaining answers are no quorum of some prior
    configuration, opens a repair probe iff something is blocked, and what it
    recovers elsewhere is safe: if the votes of any Phase-2 quorum of any prior
    configuration at a ballot [b] reached the tally, the recovered vote of that
    slot is at [b] or above. *)
Theorem close_phase1_safe p e is_chosen :
  p_election p = Some e -> election_wf e -> p_probe p = None ->
  promise_quorums (e_prior e) (t_answered (e_promises e)) ->
  exists p' outcome, close_phase1 p is_chosen = Done (p', outcome) /\
    p_election p' = None /\ rounds_is_empty (p_rounds p') /\ po_recovered outcome = e_recovered e /\
    (forall s, s ∈ po_blocked outcome <-> blocks e is_chosen s) /\
    (is_Some (p_probe p') <-> po_blocked outcome <> ∅) /\ is_none_or probe_wf (p_probe p') /\
    (forall s c voters col b,
       (s ∉ po_blocked outcome) -> is_chosen s = false -> c ∈ e_prior e ->
       phase2_holds (c_quorum_system c) (c_members c) voters col ->
       (forall m, m ∈ voters -> m ∈ t_answered (e_promises e) ->
          reported (e_faulty_reports e) (e_recovered e) s m b) ->
       exists b' v, po_recovered outcome !! s = Some (b', v) /\ (b ≤ b')%B).
Proof.
  intros He Hwf Hp Hq. destruct (close_phase1_ok p e is_chosen He Hwf Hp Hq)
    as (blocked & have & faulty & E & Hb & _ & _ & Hpwf).
  eexists _, _. split; [exact E|]. cbn. split_and!; try done.
  - unfold probe_after. case_decide; (split; [|by eauto]); [done|by intros [? ?]].
  - intros s c voters col b Hs Hch Hc H2 Hsee. eapply reported_covers; [apply Hwf| |done..].
    intros Hu. apply Hs, Hb. split_and!; [|done|done].
    destruct (e_faulty_reports e !! s) eqn:Er; [by eexists|]. exfalso. apply Hu. rewrite Er.
    assert (qualifies (t_answered (e_promises e)) None (fst <$> e_recovered e !! s) =
            t_answered (e_promises e)) as ->; [|done].
    unfold qualifies. apply set_eq. intros x. rewrite elem_of_filter. simpl. tauto.
Qed.

(** The repair probe decides exactly the blocked slots its answers cover,
    in slot order, keeps the rest blocked with their tallies, closes when
    nothing is left, and decides safely: a slot that some Phase-2 quorum of a
    prior configuration voted at ballot [b] is decided to a vote at [b] or
    above, never filled. *)
Theorem resolve_probe_safe p pb :
  p_probe p = Some pb -> probe_wf pb ->
  exists probe' decisions, resolve_probe p = Done (with_probe p probe', decisions) /\
    pd_slot <$> decisions = filter (decidable_in pb) (bs_elements (pb_blocked pb)) /\
    (forall pb', probe' = Some pb' -> probe_wf pb' /\ pb_blocked pb' <> ∅ /\
       forall s, s ∈ pb_blocked pb' <-> s ∈ pb_blocked pb /\ ~ decidable_in pb s) /\
    (probe' = None -> forall s, s ∈ pb_blocked pb -> decidable_in pb s) /\
    (forall d c voters col b,
       d ∈ decisions -> c ∈ pb_prior pb -> phase2_holds (c_quorum_system c) (c_members c) voters col ->
       (forall m, m ∈ voters -> m ∈ t_answered (pb_promises pb) ->
          reported (pb_faulty_reports pb) (pb_best_have pb) (pd_slot d) m b) ->
       exists b' v, pb_best_have pb !! pd_slot d = Some (b', v) /\ (b ≤ b')%B /\ pd_command d = Some v).
Proof.
  intros Hp Hwf. pose proof (resolve_probe_ok p pb Hp Hwf) as E. cbn zeta in E.
  set (dl := filter (decidable_in pb) (bs_elements (pb_blocked pb))) in *.
  destruct (probe_drops pb dl) as (_ & _ & Hb & _).
  assert (forall s, s ∈ pb_blocked (foldl probe_drop pb dl) <-> s ∈ pb_blocked pb /\ ~ decidable_in pb s) as Hb'.
  { intros s. rewrite Hb. unfold dl. rewrite list_elem_of_filter, elem_of_bs_elements. tauto. }
  eexists _, _. split; [exact E|]. split_and!.
  - rewrite <-list_fmap_compose. apply list_fmap_id.
  - intros pb' Hpb'. case_decide; [done|]. injection Hpb' as <-.
    split_and!; [by apply probe_drops_wf|done|done].
  - case_decide as Hempty; [|done]. intros _ s Hs. apply dec_stable. intros Hnd.
    apply (not_elem_of_empty (C:=gset Slot) s). rewrite <-Hempty. by apply Hb'.
  - intros d c voters col b Hd Hc H2 Hsee. apply list_elem_of_fmap in Hd as (s & -> & Hs). cbn in *.
    apply list_elem_of_filter in Hs as [Hdec _].
    destruct (reported_covers (pb_prior pb) (t_answered (pb_promises pb)) (pb_faulty_reports pb)
      (pb_best_have pb) s voters c col b) as (b' & v & E' & ?); [apply Hwf| |done..|].
    { intros Hu. by apply Hu. }
    exists b', v. by rewrite E'.
Qed.
End properties.

(** ** Witnesses *)

Definition ex_election : Election NodeId N :=
  mkElection (mkTally (mkBallot 2 1) 0 {[1; 2]} ∅) ex_config [ex_config]
    {[ 0 := (mkBallot 1 1, 7) ]} {[ 1 := {[ 2 := mkBallot 1 1 ]} ]}.

Lemma ex_election_wf : election_wf ex_election.
Proof.
  constructor; [|apply ex_config_wf|apply Forall_singleton, ex_config_wf|intros; apply N.le_0_l..].
  by apply tally_new_ok.
Qed.

Definition ex_candidate : Proposer NodeId N :=
  mkProposer (Some ex_election) None rounds_empty None 0 authority_default.

Lemma ex_quorum : promise_quorums (e_prior ex_election) (t_answered (e_promises ex_election)).
Proof. repeat constructor. by vm_compute. Qed.

Lemma fold_promise_exact_witness :
  exists e', fold_promise ex_candidate 3 (mkBallot 2 1) 0 {[ 0 := (mkBallot 1 2, 8) ]} ∅ None =
      Done (with_election ex_candidate (Some e'), Answered) /\ e_recovered e' !! 0 = Some (mkBallot 1 2, 8).
Proof.
  destruct (fold_promise_exact ex_candidate ex_election 3 (mkBallot 2 1) 0 {[ 0 := (mkBallot 1 2, 8) ]} ∅ None)
    as [_ Hcount]; [done|apply ex_election_wf|..].
  { intros s. destruct (decide (s = 0)) as [->|Hne].
    - by vm_compute.
    - unfold ex_election. cbn. by rewrite !lookup_singleton_ne. }
  destruct Hcount as (e' & E & _ & Hr & _); [by apply (bool_decide_unpack _); vm_compute|].
  exists e'. split; [exact E|]. rewrite Hr. by vm_compute.
Defined.

Lemma close_phase1_safe_witness :
  exists p' outcome, close_phase1 ex_candidate (fun _ => false) = Done (p', outcome) /\
    1 ∈ po_blocked outcome /\ is_Some (p_probe p').
Proof.
  destruct (close_phase1_safe ex_candidate ex_election (fun _ => false))
    as (p' & outcome & E & _ & _ & _ & Hb & Hp & _); [done|apply ex_election_wf|done|apply ex_quorum|].
  exists p', outcome. assert (1 ∈ po_blocked outcome) as H1.
  { apply Hb. split_and!; [by eexists|done|]. unfold undecided, promise_quorums.
    apply (bool_decide_unpack _). by vm_compute. }
  split_and!; [done|done|]. apply Hp. intros E0. rewrite E0 in H1. by apply elem_of_empty in H1.
Defined.

Definition ex_probe : RepairProbe NodeId N :=
  mkProbe (mkTally (mkBallot 2 1) 0 {[1; 2; 3]} ∅) [ex_config]
    {[ 1 := {[ 2 := mkBallot 1 1 ]} ]} {[ 1 := (mkBallot 1 1, 9) ]} {[ 1 ]} 0.

Lemma ex_probe_wf : probe_wf ex_probe.
Proof.
  constructor; [by apply tally_new_ok|apply Forall_singleton, ex_config_wf|..|intros; apply N.le_0_l];
    intros s [r Hr]; cbn in Hr; apply lookup_singleton_Some in Hr as [<- _]; by apply elem_of_singleton.
Qed.

Lemma resolve_probe_safe_witness :
  exists probe' decisions, resolve_probe (mkProposer None (Some ex_probe) rounds_empty None 0 authority_default) =
      Done (mkProposer None probe' rounds_empty None 0 authority_default, decisions) /\
    pd_slot <$> decisions = [1].
Proof.
  destruct (resolve_probe_safe (mkProposer None (Some ex_probe) rounds_empty None 0 authority_default) ex_probe)
    as (probe' & decisions & E & Hd & _); [done|apply ex_probe_wf|].
  exists probe', decisions. split; [exact E|]. rewrite Hd. by vm_compute.
Defined.

Lemma open_phase1_exact_witness :
  exists e targets,
    open_phase1 proposer_new (mkCampaign (Some 1) (mkBallot 2 1) ex_config [ex_config] 0)
      ({[ 0 := (mkBallot 1 1, 7) ]} : gmap Slot (Ballot * N)) ∅ = Done (with_election proposer_new (Some e), targets) /\
    3 ∈ targets.
Proof.
  destruct (open_phase1_exact proposer_new (mkCampaign (Some 1) (mkBallot 2 1) ex_config [ex_config] 0)
    ({[ 0 := (mkBallot 1 1, 7) ]} : gmap Slot (Ballot * N)) ∅) as (e & targets & E & _ & _ & _ & _ & _ & Ht);
    [done..|apply ex_config_wf|apply Forall_singleton, ex_config_wf|].
  exists e, targets. split; [exact E|]. apply Ht. split; [|done]. left. apply (bool_decide_unpack _). by vm_compute.
Defined.

Definition ex_short_probe : RepairProbe NodeId N :=
  mkProbe (mkTally (mkBallot 2 1) 0 {[1; 2]} ∅) [ex_config]
    {[ 1 := {[ 2 := mkBallot 1 1 ]} ]} {[ 1 := (mkBallot 1 1, 9) ]} {[ 1 ]} 0.

Lemma fold_probe_promise_exact_witness :
  exists pb', fold_probe_promise (mkProposer None (Some ex_short_probe) rounds_empty None 0 authority_default)
      3 (mkBallot 2 1) 0 ∅ ∅ None =
    Done (mkProposer None (Some pb') rounds_empty None 0 authority_default, Answered) /\
    pb_blocked pb' = {[ 1 ]}.
Proof.
  destruct (fold_probe_promise_exact (mkProposer None (Some ex_short_probe) rounds_empty None 0 authority_default)
    ex_short_probe 3 (mkBallot 2 1) 0 ∅ ∅ None) as [_ Hc]; [done| |done|..].
  - constructor; [by apply tally_new_ok|apply Forall_singleton, ex_config_wf|..|intros; apply N.le_0_l];
      intros s [r Hr]; cbn in Hr; apply lookup_singleton_Some in Hr as [<- _]; by apply elem_of_singleton.
  - intros s. unfold over_blocked. rewrite map_filter_empty, lookup_empty. by destruct (pb_best_have _ !! s) as [[? ?]|].
  - destruct Hc as (pb' & E & _ & Hb & _); [by apply (bool_decide_unpack _); vm_compute|].
    exists pb'. split; [exact E|exact Hb].
Defined.
