(* ===== verification/Decree.v ===== *)
(** * A single-decree Paxos ([paros-core/src/decree.rs])

    One value, chosen once, over any acceptor configuration: the proposer role
    over a one-slot log.  The acceptors' half is the acceptor role over the
    same slot, wired as in [matchmaker/generation.rs]. *)

From S2P Require Import Prelude BTree Types Retained Journal Contract Acceptor PromisePage QuorumSystem AcceptorConfig Rounds Tally Leadership Proposer Election.

Definition DECREE_SLOT : Slot := 0.

(** The canonical form an acceptor brings a proposed value to before it votes:
    a matchmaker sorts and deduplicates the member list. *)
Class Canonical (V : Type) := canonical : V -> V.
#[export] Instance members_canonical {K} `{Ord K} : Canonical (list K) := normalize.

Inductive DecreePromise (V : Type) :=
| DIgnored
| DCounted (remaining : N)
| DQuorum (value : V).
Arguments DIgnored {_}.
Arguments DCounted {_} _.
Arguments DQuorum {_} _.

Inductive AcceptFold (V : Type) :=
| AIgnored
| ACounted (remaining : N)
| AChosen (value : V).
Arguments AIgnored {_}.
Arguments ACounted {_} _.
Arguments AChosen {_} _.

Record Decree (I V : Type) `{Countable I} := mkDecree {
  d_ballot : Ballot;
  d_acceptors : AcceptorConfig I;
  d_proposal : V;
  d_proposer : Proposer I V;
  d_preempted : option Ballot }.
Arguments mkDecree {_ _ _ _} _ _ _ _ _.
Arguments d_ballot {_ _ _ _} _.
Arguments d_acceptors {_ _ _ _} _.
Arguments d_proposal {_ _ _ _} _.
Arguments d_proposer {_ _ _ _} _.
Arguments d_preempted {_ _ _ _} _.

Section decree.
Context {I : Type} `{Ord I, !Countable I} {V : Type} `{!EqDecision V, !Fingerprint V, !Canonical V}.
Implicit Types (d : Decree I V) (acceptors : AcceptorConfig I).

Definition with_proposer d (p : Proposer I V) : Decree I V :=
  mkDecree (d_ballot d) (d_acceptors d) (d_proposal d) p (d_preempted d).

(** [Decree::new]. *)
Definition decree_new (ballot : Ballot) acceptors (proposal : V) : run (Decree I V) :=
  members ← config_members acceptors;
  rassert (members <> []) "a decree has an acceptor";;
  '(p, _) ← open_phase1 proposer_new (mkCampaign None ballot acceptors [acceptors] DECREE_SLOT) ∅ ∅;
  opened ← election p;
  at_ballot ← match opened with
              | Some e => b ← election_ballot e; mret (bool_decide (b = ballot))
              | None => mret false
              end;
  rassert (at_ballot = true) "a decree opens Phase 1 at its own ballot";;
  mret (mkDecree ballot acceptors proposal p None).

(** [Decree::value]. *)
Definition decree_value d : option V :=
  r_command <$> rs_by_slot (p_rounds (d_proposer d)) !! DECREE_SLOT.

Definition adopted_prior_vote d : bool :=
  bool_decide (is_some_and (fun v => v <> d_proposal d) (decree_value d)).

(** [Decree::preempted]. *)
Definition decree_preempted d : run (option Ballot) :=
  match d_preempted d with
  | Some promised => rassert (d_ballot d < promised)%B "a preempting promise lies above the ballot"
  | None => mret tt
  end;;
  mret (d_preempted d).

Definition unanswered_live d : run (list I) :=
  match rs_by_slot (p_rounds (d_proposer d)) !! DECREE_SLOT with
  | None =>
      opened ← election (d_proposer d);
      match opened with Some e => unpromised e None | None => mret [] end
  | Some round =>
      accepted_by ← rexpect (round_accepted_by round) "a decree round is colocated";
      members ← config_members (d_acceptors d);
      mret (filter (fun m => m ∉ accepted_by) members)
  end.

Definition unanswered d : run (list I) :=
  if decide (is_Some (d_preempted d)) then mret [] else
  live ← unanswered_live d;
  ok ← allM (fun m => config_contains (d_acceptors d) m) live;
  rassert (ok = true) "a decree re-send addresses only its acceptors";;
  mret live.

(** How many acceptors have promised. *)
Definition decree_promised d : run N :=
  opened ← election (d_proposer d);
  match opened with
  | Some e => promised ← election_promised e; mret (ssize promised)
  | None => mret 0
  end.

Definition on_promise d (from : I) (vote : option (Ballot * V)) : run (Decree I V * DecreePromise V) :=
  member ← config_contains (d_acceptors d) from;
  if decide (member = false \/ is_Some (d_preempted d)) then mret (d, DIgnored) else
  let accepted := match vote with Some vote => {[ DECREE_SLOT := vote ]} | None => ∅ end in
  '(p, fold) ← fold_promise (d_proposer d) from (d_ballot d) DECREE_SLOT accepted ∅ None;
  let d := with_proposer d p in
  if decide (fold <> Answered) then mret (d, DIgnored) else
  won ← phase1_won (d_proposer d) (d_ballot d);
  if decide (won = false) then
    qs ← config_quorum_system (d_acceptors d);
    members ← config_members (d_acceptors d);
    size ← phase1_quorum_size qs (len members);
    promised ← decree_promised d;
    mret (d, DCounted (size - promised))
  else
  '(p, outcome) ← close_phase1 (d_proposer d) (fun _ => false);
  let value := match po_recovered outcome !! DECREE_SLOT with
               | Some (_, v) => v
               | None => d_proposal d
               end in
  p ← open_round p DECREE_SLOT (d_ballot d) value None None;
  let d := with_proposer d p in
  rassert (decree_value d = Some value) "Phase 2 carries the selected value";;
  opened ← election (d_proposer d);
  rassert (match opened with None => True | Some _ => False end) "a won decree closes its Phase 1";;
  mret (d, DQuorum value).

Definition on_accepted d (from : I) : run (Decree I V * AcceptFold V) :=
  member ← config_contains (d_acceptors d) from;
  if decide (member = false \/ is_Some (d_preempted d)) then mret (d, AIgnored) else
  match rs_by_slot (p_rounds (d_proposer d)) !! DECREE_SLOT with
  | None => mret (d, AIgnored)
  | Some round =>
      accepted_by ← rexpect (round_accepted_by round) "a decree round is colocated";
      if decide (from ∈ accepted_by) then mret (d, AIgnored) else
      let vhash := fingerprint (r_command round) in
      '(p, counted) ← fold_accepted (d_proposer d) from (d_ballot d) DECREE_SLOT vhash;
      let d := with_proposer d p in
      if decide (counted = false) then mret (d, AIgnored) else
      chosen ← decided (d_proposer d) DECREE_SLOT (d_acceptors d);
      match chosen with
      | Some (ballot, value) =>
          rassert (ballot = d_ballot d) "a decree is chosen at its ballot";;
          rassert (decree_value d = Some value) "a decree chooses the value it proposed";;
          mret (d, AChosen value)
      | None =>
          let accepted := match rs_by_slot (p_rounds (d_proposer d)) !! DECREE_SLOT with
                          | Some round => default 0 (ssize <$> round_accepted_by round)
                          | None => 0
                          end in
          qs ← config_quorum_system (d_acceptors d);
          members ← config_members (d_acceptors d);
          size ← phase2_quorum_size qs (len members);
          mret (d, ACounted (size - accepted))
      end
  end.

Definition on_nack d (promised : Ballot) : run (Decree I V) :=
  if decide (promised ≤ d_ballot d)%B then mret d else
  let held := d_preempted d in
  let preempted := Some (match d_preempted d with Some held => ord_max held promised | None => promised end) in
  rassert (ord_le held preempted) "a decree's preemption floor never falls";;
  rassert (ord_le (Some promised) preempted) "a preemption covers the refusing promise";;
  mret (mkDecree (d_ballot d) (d_acceptors d) (d_proposal d) (d_proposer d) preempted).

(** ** The acceptors' half ([matchmaker/generation.rs])

    The durable decree record: the promise and the one vote.  The handlers are
    the decree paths of a matchmaker; [serves] is what the generation guard
    ahead of them ([serves_handover_of]) answered for the message. *)

Record DecreeRecord := mkRecord { dr_promised : Ballot; dr_vote : option (Ballot * V) }.

Inductive DecreeReply :=
| RPromised (ballot : Ballot) (vote : option (Ballot * V))
| RAccepted (ballot : Ballot)
| RNacked (ballot promised : Ballot)
| RRefused.

Definition decree_acceptor (r : DecreeRecord) : run (Acceptor V) :=
  let records := match dr_vote r with Some vote => {[ DECREE_SLOT := vote ]} | None => ∅ end in
  acceptor ← acceptor_new (dr_promised r) records DECREE_SLOT ∅;
  held ← promised acceptor;
  rassert (held = dr_promised r) "the decree acceptor holds the durable promise";;
  vote ← acceptor_record acceptor DECREE_SLOT;
  rassert (vote = dr_vote r) "the decree acceptor holds the durable vote";;
  mret acceptor.

Definition store_decree (r : DecreeRecord) (acceptor : Acceptor V) (writes : list (AcceptorWrite V))
  : run DecreeRecord :=
  match writes with
  | [] => mret r
  | _ =>
      promise ← promised acceptor;
      vote ← acceptor_record acceptor DECREE_SLOT;
      let r' := mkRecord promise vote in
      rassert (dr_promised r ≤ dr_promised r')%B "the decree promise never falls";;
      rassert (is_none_or (fun v : Ballot * V => v.1 ≤ dr_promised r')%B (dr_vote r'))
        "a decree vote never outranks the decree promise";;
      mret r'
  end.

Definition on_decree_prepare (serves : bool) (r : DecreeRecord) (ballot : Ballot)
  : run (DecreeRecord * DecreeReply) :=
  if negb serves then mret (r, RRefused) else
  acceptor ← decree_acceptor r;
  '(acceptor, writes, outcome) ← prepare acceptor ballot DECREE_SLOT ([] : list (AcceptorWrite V));
  match outcome with
  | PPromised _ =>
      vote ← acceptor_record acceptor DECREE_SLOT;
      r' ← store_decree r acceptor writes;
      rassert (dr_promised r' = ballot) "a decree promise lands on the prepared ballot";;
      mret (r', RPromised ballot vote)
  | PRefused | PBelowFloor =>
      held ← promised acceptor;
      rassert (ballot < held)%B "a decree Nack names a higher promise";;
      mret (r, RNacked ballot held)
  end.

Definition on_decree_accept (serves : bool) (r : DecreeRecord) (ballot : Ballot) (members : V)
  : run (DecreeRecord * DecreeReply) :=
  if negb serves then mret (r, RRefused) else
  let members := canonical members in
  acceptor ← decree_acceptor r;
  outcome ← acceptor_admit acceptor ballot DECREE_SLOT;
  match outcome with
  | AAdmitted =>
      '(acceptor, writes) ← set_promise acceptor ballot ([] : list (AcceptorWrite V));
      '(acceptor, writes, _) ← record_accepted acceptor DECREE_SLOT ballot members writes;
      r' ← store_decree r acceptor writes;
      rassert (dr_promised r' = ballot) "a decree vote lands with the promise at its ballot";;
      rassert (is_some_and (fun v : Ballot * V => v.1 = ballot) (dr_vote r'))
        "a decree vote is recorded at its ballot";;
      mret (r', RAccepted ballot)
  | ARefused | ABelowFloor =>
      held ← promised acceptor;
      rassert (ballot < held)%B "a decree Nack names a higher promise";;
      mret (r, RNacked ballot held)
  end.

(** ** The acceptors' half, evaluated *)

Definition record_ok (r : DecreeRecord) : Prop :=
  is_none_or (fun v : Ballot * V => v.1 ≤ dr_promised r)%B (dr_vote r).

Definition vote_map (vote : option (Ballot * V)) : gmap Slot (Ballot * V) :=
  match vote with Some vote => {[ DECREE_SLOT := vote ]} | None => ∅ end.

Lemma lookup_vote_map vote : vote_map vote !! DECREE_SLOT = vote.
Proof. destruct vote; unfold vote_map; [apply lookup_singleton_eq|apply lookup_empty]. Qed.

#[export] Instance vote_map_inj : Inj (=) (=) vote_map.
Proof. intros x y E. by rewrite <-(lookup_vote_map x), E, lookup_vote_map. Qed.

Lemma lookup_vote_map_Some vote s r : vote_map vote !! s = Some r -> s = DECREE_SLOT /\ vote = Some r.
Proof.
  destruct vote as [v|]; unfold vote_map; [|by rewrite lookup_empty].
  intros [<- <-]%lookup_singleton_Some. done.
Qed.

Definition record_acceptor (r : DecreeRecord) : Acceptor V :=
  booted (dr_promised r) (vote_map (dr_vote r)) DECREE_SLOT ∅.

Lemma record_acceptor_wf r : record_ok r ->
  bootable (dr_promised r) (vote_map (dr_vote r)) DECREE_SLOT ∅ /\ acceptor_wf (record_acceptor r).
Proof.
  intros Hok. assert (bootable (dr_promised r) (vote_map (dr_vote r)) DECREE_SLOT ∅) as Hb.
  { constructor; [intros; apply N.le_0_l..| | |]; intros s b; rewrite ?lookup_empty; [done| |done].
    intros v [_ E]%lookup_vote_map_Some. unfold record_ok in Hok. by rewrite E in Hok. }
  split; [done|]. by apply booted_wf.
Qed.

Lemma decree_acceptor_ok r : record_ok r -> decree_acceptor r = Done (record_acceptor r).
Proof.
  intros Hok. destruct (record_acceptor_wf r Hok) as [Hb Hwf]. unfold decree_acceptor.
  fold (vote_map (dr_vote r)). rewrite acceptor_new_ok by done. rsimpl. fold (record_acceptor r).
  rewrite promised_ok by done. rsimpl. rassert_by done.
  rewrite acceptor_record_ok by done. rsimpl. rassert_by apply lookup_vote_map. done.
Qed.

Lemma store_decree_ok r a (writes : list (AcceptorWrite V)) :
  acceptor_wf a -> (dr_promised r ≤ a_promised a)%B -> writes <> [] ->
  store_decree r a writes = Done (mkRecord (a_promised a) (w_entries (a_records a) !! DECREE_SLOT)).
Proof.
  intros Hwf Hle Hw. unfold store_decree. destruct writes; [done|].
  rewrite promised_ok by done. rsimpl. rewrite acceptor_record_ok by done. rsimpl.
  rassert_by done. rassert_by idtac; [|done]. cbn.
  destruct (w_entries (a_records a) !! DECREE_SLOT) as [[b v]|] eqn:E; [|done]. cbn.
  etrans; [by eapply awf_records_le|apply Hwf].
Qed.

Lemma on_decree_prepare_ok r ballot : record_ok r ->
  on_decree_prepare true r ballot =
    Done (if decide (ballot < dr_promised r)%B then (r, RNacked ballot (dr_promised r))
          else (mkRecord ballot (dr_vote r), RPromised ballot (dr_vote r))).
Proof.
  intros Hok. destruct (record_acceptor_wf r Hok) as [_ Hwf]. unfold on_decree_prepare. cbn [negb].
  rewrite decree_acceptor_ok by done. rsimpl. rewrite prepare_ok by done. rsimpl.
  pose proof (prepare_spec_wf (record_acceptor r) ballot DECREE_SLOT ([] : list (AcceptorWrite V)) Hwf) as Hwf'.
  revert Hwf'. unfold prepare_spec. rewrite decide_False by by vm_compute.
  change (a_promised (record_acceptor r)) with (dr_promised r).
  destruct (decide (ballot < dr_promised r)%B) as [Hlt|Hge].
  { intros _. rewrite promised_ok by done. rsimpl. by rassert_by done. }
  destruct (decide (ballot = dr_promised r)) as [->|Hne]; cbn [fst]; intros Hwf'.
  - rewrite acceptor_record_ok by done. rsimpl. cbn. rassert_by done.
    change (w_entries _) with (vote_map (dr_vote r)). rewrite lookup_vote_map. by destruct r.
  - rewrite acceptor_record_ok by done. rsimpl. rewrite store_decree_ok; [|done| |done].
    + rsimpl. rassert_by done. cbn. change (w_entries _) with (vote_map (dr_vote r)).
      by rewrite lookup_vote_map.
    + by apply ord_not_lt.
Qed.

Lemma on_decree_accept_ok r ballot value : record_ok r ->
  canonical value = value -> agree (dr_vote r) (Some (ballot, value)) ->
  on_decree_accept true r ballot value =
    Done (if decide (ballot < dr_promised r)%B then (r, RNacked ballot (dr_promised r))
          else (mkRecord ballot (Some (ballot, value)), RAccepted ballot)).
Proof.
  intros Hok Hc Hag. destruct (record_acceptor_wf r Hok) as [_ Hwf]. unfold on_decree_accept.
  cbn [negb]. rewrite Hc.
  rewrite decree_acceptor_ok by done. rsimpl. rewrite acceptor_admit_ok by done. rsimpl.
  rewrite decide_False by by vm_compute. change (a_promised (record_acceptor r)) with (dr_promised r).
  destruct (decide (ballot < dr_promised r)%B) as [Hlt|Hge].
  { rewrite promised_ok by done. rsimpl. by rassert_by done. }
  apply ord_not_lt in Hge. rewrite set_promise_ok by done. rsimpl.
  assert (acceptor_wf (with_promise (record_acceptor r) ballot)) as Hwp by by apply with_promise_wf.
  assert (recordable (with_promise (record_acceptor r) ballot) DECREE_SLOT ballot value) as Hrec.
  { split_and!; [apply N.le_0_l|reflexivity|]. change (w_entries _) with (vote_map (dr_vote r)).
    rewrite lookup_vote_map. destruct (dr_vote r) as [[b v]|] eqn:E; [|done]. cbn in *.
    split; [|done]. etrans; [|done]. unfold record_ok in Hok. by rewrite E in Hok. }
  rewrite record_accepted_ok by done. rsimpl.
  rewrite store_decree_ok; [|by apply with_record_wf|done|by case_decide].
  rsimpl. rassert_by done. cbn. rewrite lookup_insert_eq. by rassert_by done.
Qed.

(** ** The proposer's half, evaluated *)

Section proposing.
Context (ballot : Ballot) (acceptors : AcceptorConfig I) (proposal : V) (Hwf : config_wf acceptors).
Implicit Types (A votes : gset I) (held : option (Ballot * V)) (pre : option Ballot).

(** A decree in Phase 1: who promised, and the highest vote they reported. *)
Definition phase1_election A held : Election I V :=
  mkElection (mkTally ballot DECREE_SLOT A ∅) acceptors [acceptors] (vote_map held) ∅.
Definition decree_phase1 A held pre : Decree I V :=
  mkDecree ballot acceptors proposal
    (mkProposer (Some (phase1_election A held)) None rounds_empty None 0 authority_default) pre.

(** A decree in Phase 2: the value in its round, and who voted for it. *)
Definition decree_phase2 (value : V) votes pre : Decree I V :=
  mkDecree ballot acceptors proposal
    (mkProposer None None
       (mkRounds {[ DECREE_SLOT := mkRound ballot value (Colocated votes) None 0 0 ]} None)
       None 0 authority_default) pre.

Definition promise_quorum A : Prop :=
  phase1_holds (c_quorum_system acceptors) (c_members acceptors) A None.
Definition vote_quorum votes : Prop :=
  phase2_holds (c_quorum_system acceptors) (c_members acceptors) votes None.

(** P2c: the value Phase 2 must carry. *)
Definition selected held : V := match held with Some (_, v) => v | None => proposal end.

Lemma phase1_election_wf A held : election_wf (phase1_election A held).
Proof using Hwf.
  constructor; cbn; [apply (tally_new_ok ballot)|done|by apply Forall_singleton|..]; intros s _; apply N.le_0_l.
Qed.

Lemma decree_new_ok : decree_new ballot acceptors proposal = Done (decree_phase1 ∅ None None).
Proof using Hwf.
  unfold decree_new. rewrite config_members_ok by done. rsimpl. rassert_by (eapply admitted_nonempty, Hwf).
  destruct (open_phase1_ok (V:=V) proposer_new (mkCampaign None ballot acceptors [acceptors] DECREE_SLOT) ∅ ∅)
    as (l & El & _); [done..|by apply Forall_singleton|].
  rewrite El. rsimpl. cbn [election with_election p_election is_Some].
  assert (opened_election (mkCampaign None ballot acceptors [acceptors] DECREE_SLOT) ∅ ∅ =
          phase1_election ∅ None) as -> by done.
  unfold election. rewrite decide_True by by eexists. cbn. rassert_by (by rewrite bool_decide_eq_true_2). done.
Qed.

Lemma decree_election A held pre :
  election (d_proposer (decree_phase1 A held pre)) = Done (Some (phase1_election A held)).
Proof using Type. unfold election. rewrite decide_True by by eexists. done. Qed.

Lemma decree_promised_ok A held pre : decree_promised (decree_phase1 A held pre) = Done (ssize A).
Proof using Type.
  unfold decree_promised. rewrite decree_election. rsimpl. unfold election_promised.
  rewrite rassert_true by apply Forall_nil_2. done.
Qed.

Lemma promise_quorums_singleton A : promise_quorums [acceptors] A <-> promise_quorum A.
Proof using Type. unfold promise_quorums. by rewrite Forall_singleton. Qed.

(** The page of a one-slot log is always well shaped. *)
Lemma decree_page_shape vote :
  promise_page_shape_valid DECREE_SLOT (vote_map vote) (∅ : gmap Slot Ballot) DECREE_SLOT None = true.
Proof using Type.
  apply bool_decide_eq_true_2. split_and!; [done| | |apply Forall_nil_2|done].
  - destruct vote; by vm_compute.
  - apply Forall_forall. intros. apply N.le_0_l.
Qed.

Lemma best_vote_map held vote (m : gmap Slot (Ballot * V)) :
  (forall s, m !! s = best (vote_map held !! s) (vote_map vote !! s)) -> m = vote_map (best held vote).
Proof using Type.
  intros Hm. apply map_eq. intros s. rewrite Hm.
  destruct (decide (s = DECREE_SLOT)) as [->|Hne]; [by rewrite !lookup_vote_map|].
  assert (forall vote, vote_map vote !! s = None) as Hout.
  { intros x. destruct (vote_map x !! s) eqn:E; [|done]. by apply lookup_vote_map_Some in E as [? _]. }
  by rewrite !Hout.
Qed.

Lemma agree_vote_map held vote s : agree held vote -> agree (vote_map held !! s) (vote_map vote !! s).
Proof using Type.
  intros Hag. destruct (decide (s = DECREE_SLOT)) as [->|Hne]; [by rewrite !lookup_vote_map|].
  destruct (vote_map vote !! s) eqn:E; [by apply lookup_vote_map_Some in E as [? _]|].
  by destruct (vote_map held !! s) as [[? ?]|].
Qed.

(** A counted promise: the fold alone. *)
Lemma decree_fold_ok A held from vote :
  from ∈ c_members acceptors -> (from ∉ A) -> agree held vote ->
  fold_promise (d_proposer (decree_phase1 A held None)) from ballot DECREE_SLOT (vote_map vote) ∅ None =
    Done (d_proposer (decree_phase1 ({[ from ]} ∪ A) (best held vote) None), Answered).
Proof using Hwf.
  intros Hin Hna Hag.
  pose proof (fold_promise_ok (d_proposer (decree_phase1 A held None)) (phase1_election A held)
    from ballot DECREE_SLOT (vote_map vote) ∅ None eq_refl (phase1_election_wf A held)) as Hf.
  rewrite decide_True in Hf.
  2: { split_and!; [by left|done|done|]. apply decree_page_shape. }
  destruct Hf as (recovered & -> & _ & Hm & _).
  { intros s. by apply agree_vote_map. }
  apply best_vote_map in Hm as ->. done.
Qed.

(** [Decree::on_promise] on every branch. *)
Lemma on_promise_ok A held from vote :
  from ∈ c_members acceptors -> (from ∉ A) -> agree held vote ->
  let A' := {[ from ]} ∪ A in
  let value := selected (best held vote) in
  on_promise (decree_phase1 A held None) from vote =
    Done (if decide (promise_quorum A') then (decree_phase2 value ∅ None, DQuorum value)
          else (decree_phase1 A' (best held vote) None,
                DCounted (phase1_size (c_quorum_system acceptors) (len (c_members acceptors)) - ssize A'))).
Proof using Hwf.
  intros Hin Hna Hag A' value. unfold on_promise.
  change (d_acceptors _) with acceptors at 1. rewrite config_contains_ok by done. rsimpl.
  rewrite bool_decide_eq_true_2, decide_False by (done || by intros [?|[? ?]]).
  fold (vote_map vote). change (d_ballot (decree_phase1 A held None)) with ballot.
  rewrite decree_fold_ok by done. rsimpl. fold A'. rewrite decide_False by tauto.
  change (with_proposer (decree_phase1 A held None) _) with (decree_phase1 A' (best held vote) None).
  rewrite (phase1_won_ok _ (phase1_election A' (best held vote))) by (done || apply phase1_election_wf).
  rsimpl. set (won := bool_decide _).
  assert (won = bool_decide (promise_quorum A')) as ->.
  { apply bool_decide_ext. cbn. rewrite promise_quorums_singleton. split; [tauto|]. split; [done|reflexivity]. }
  destruct (decide (promise_quorum A')) as [Hq|Hq].
  2: { rewrite bool_decide_eq_false_2, decide_True by done. cbn [d_acceptors decree_phase1].
       rewrite config_quorum_system_ok by done. rsimpl. rewrite config_members_ok by done. rsimpl.
       rewrite (proj1 (phase1_quorum_size_ok _ _ (cwf_admitted _ Hwf) (cwf_len _ Hwf))). rsimpl.
       by rewrite decree_promised_ok. }
  rewrite bool_decide_eq_true_2, decide_False by done.
  destruct (close_phase1_ok (d_proposer (decree_phase1 A' (best held vote) None))
    (phase1_election A' (best held vote)) (fun _ => false)) as (blocked & have & faulty & -> & Hb & _);
    [done|apply phase1_election_wf|done|by apply promise_quorums_singleton|].
  rsimpl. assert (blocked = ∅) as ->.
  { apply set_eq. intros s. rewrite Hb, elem_of_empty. split; [|done]. intros ([r Hr] & _).
    cbn in Hr. by rewrite lookup_empty in Hr. }
  assert (probe_after (phase1_election A' (best held vote)) ∅ have faulty = None) as ->
    by (unfold probe_after; by rewrite decide_False by tauto).
  change (e_recovered _) with (vote_map (best held vote)). cbn [po_recovered]. rewrite lookup_vote_map.
  fold (selected (best held vote)). fold value.
  rewrite open_round_ok by done. rsimpl.
  change (with_proposer _ _) with (decree_phase2 value ∅ None).
  rassert_by by unfold decree_value. unfold election. rewrite decide_False by (by intros [? ?]). done.
Qed.

Lemma on_promise_ignored A held pre from vote :
  (from ∉ c_members acceptors) \/ is_Some pre \/ from ∈ A ->
  agree held vote ->
  on_promise (decree_phase1 A held pre) from vote = Done (decree_phase1 A held pre, DIgnored).
Proof using Hwf.
  intros Hign Hag. unfold on_promise. change (d_acceptors _) with acceptors at 1.
  rewrite config_contains_ok by done. rsimpl.
  destruct (decide (from ∈ c_members acceptors)) as [Hin|Hout];
    [|by rewrite bool_decide_eq_false_2, decide_True by (done || by left)].
  rewrite bool_decide_eq_true_2 by done. destruct pre as [b|]; [by rewrite decide_True by (right; by eexists)|].
  rewrite decide_False by (by intros [?|[? ?]]). fold (vote_map vote).
  assert (from ∈ A) as HA by (destruct Hign as [?|[[? ?]|?]]; done).
  pose proof (fold_promise_ok (d_proposer (decree_phase1 A held None)) (phase1_election A held)
    from ballot DECREE_SLOT (vote_map vote) ∅ None eq_refl (phase1_election_wf A held)
    (fun s => agree_vote_map _ _ s Hag)) as Hf.
  rewrite decide_False in Hf by (intros (_ & [_ Hn] & _); by apply Hn).
  change (d_ballot _) with ballot. rewrite Hf. rsimpl. by rewrite decide_True.
Qed.

Lemma on_promise_phase2 value votes pre from vote :
  on_promise (decree_phase2 value votes pre) from vote = Done (decree_phase2 value votes pre, DIgnored).
Proof using Hwf.
  unfold on_promise. change (d_acceptors _) with acceptors at 1. rewrite config_contains_ok by done. rsimpl.
  case_decide; [done|]. cbn. done.
Qed.

(** [Decree::on_accepted] on every branch. *)
Lemma on_accepted_ok value votes from :
  from ∈ c_members acceptors -> (from ∉ votes) -> (forall m, m ∈ votes -> m ∈ c_members acceptors) ->
  let votes' := {[ from ]} ∪ votes in
  on_accepted (decree_phase2 value votes None) from =
    Done (decree_phase2 value votes' None,
          if decide (vote_quorum votes') then AChosen value
          else ACounted (phase2_size (c_quorum_system acceptors) (len (c_members acceptors)) - ssize votes')).
Proof using Hwf.
  intros Hin Hna Hsub votes'. unfold on_accepted. change (d_acceptors _) with acceptors.
  rewrite config_contains_ok by done. rsimpl.
  rewrite bool_decide_eq_true_2, decide_False by (done || by intros [?|[? ?]]).
  change (d_ballot _) with ballot. change (rs_by_slot (p_rounds (d_proposer (decree_phase2 value votes None))) !! DECREE_SLOT)
    with (Some (mkRound ballot value (Colocated votes) None 0 0)).
  cbn [round_accepted_by r_custody rexpect]. rsimpl. rewrite decide_False by done.
  erewrite fold_accepted_ok by done. rsimpl. rewrite decide_False by done.
  change (with_proposer _ _) with (decree_phase2 value votes' None).
  erewrite (decided_ok _ _ _ (mkRound ballot value (Colocated votes') None 0 0)); [|done..|].
  2: { split; cbn; [by unfold column_valid; destruct (c_quorum_system acceptors)|]. intros m Hm.
       assert (m ∈ c_members acceptors) by (apply elem_of_union in Hm as [->%elem_of_singleton|?]; auto).
       by unfold addressees_of; destruct (c_quorum_system acceptors). }
  rsimpl. destruct (decide (vote_quorum votes')) as [Hq|Hq].
  - rewrite decide_True by exact Hq. rassert_by done. by rassert_by done.
  - rewrite decide_False by exact Hq. rewrite config_quorum_system_ok by done. rsimpl. rewrite config_members_ok by done. rsimpl.
    by rewrite (proj1 (phase2_quorum_size_ok _ _ (cwf_admitted _ Hwf) (cwf_len _ Hwf))).
Qed.

Lemma on_accepted_ignored value votes pre from :
  (from ∉ c_members acceptors) \/ is_Some pre \/ from ∈ votes ->
  on_accepted (decree_phase2 value votes pre) from = Done (decree_phase2 value votes pre, AIgnored).
Proof using Hwf.
  intros Hign. unfold on_accepted. change (d_acceptors _) with acceptors.
  rewrite config_contains_ok by done. rsimpl.
  destruct (decide (from ∈ c_members acceptors)) as [Hin|Hout];
    [|by rewrite bool_decide_eq_false_2, decide_True by (done || by left)].
  rewrite bool_decide_eq_true_2 by done. destruct pre as [b|]; [by rewrite decide_True by (right; by eexists)|].
  rewrite decide_False by (by intros [?|[? ?]]).
  change (rs_by_slot (p_rounds (d_proposer (decree_phase2 value votes None))) !! DECREE_SLOT)
    with (Some (mkRound ballot value (Colocated votes) None 0 0)).
  cbn [round_accepted_by r_custody rexpect]. rsimpl.
  assert (from ∈ votes) as HA by (destruct Hign as [?|[[? ?]|?]]; done). by rewrite decide_True.
Qed.

Lemma on_accepted_phase1 A held pre from :
  on_accepted (decree_phase1 A held pre) from = Done (decree_phase1 A held pre, AIgnored).
Proof using Hwf.
  unfold on_accepted. change (d_acceptors _) with acceptors. rewrite config_contains_ok by done. rsimpl.
  case_decide; [done|]. done.
Qed.

(** [Decree::on_nack]: a higher promise preempts. *)
Definition raised pre (promised : Ballot) : option Ballot :=
  if decide (promised ≤ ballot)%B then pre
  else Some (match pre with Some held => ord_max held promised | None => promised end).

Lemma on_nack_ok d promised : d_ballot d = ballot ->
  on_nack d promised = Done (mkDecree (d_ballot d) (d_acceptors d) (d_proposal d) (d_proposer d)
                               (raised (d_preempted d) promised)).
Proof using Type.
  intros Hb. unfold on_nack, raised. rewrite Hb. case_decide; [by destruct d; cbn in *; subst|].
  rassert_by (destruct (d_preempted d); cbn; [apply ord_max_ge_l|done]).
  rassert_by (destruct (d_preempted d); cbn; [apply ord_max_ge_r|apply ord_le_refl]). by rewrite <-Hb.
Qed.
End proposing.
End decree.

Arguments DecreeRecord V : clear implicits.
Arguments DecreeReply V : clear implicits.
Arguments mkRecord {_} _ _.
Arguments dr_promised {_} _.
Arguments dr_vote {_} _.
Arguments RPromised {_} _ _.
Arguments RAccepted {_} _.
Arguments RNacked {_} _ _.
Arguments RRefused {_}.
