(* ===== verification/DecreeSystem.v ===== *)
(** * The decree as a distributed system

    Any number of proposers run the decree of [Decree.v] against the acceptors
    of one configuration over a network that loses, duplicates and reorders
    messages at will: a message once sent stays deliverable forever.  A ballot
    is proposed at again, by a proposer that lost its memory, only while no
    value was sent at it.  The steps are the handlers themselves; the theorems
    are Paxos's: one value is ever chosen, it was proposed, and no handler's
    assertion ever fires. *)

From S2P Require Import Prelude BTree Types Retained Journal Contract Acceptor PromisePage QuorumSystem AcceptorConfig Rounds Tally Leadership Proposer Election Decree.

(** What the protocol asks of its quorums. *)
Class QuorumsMeet {I} `{Countable I} (promise vote : gset I -> Prop) : Prop :=
  quorums_meet : forall Q W, promise Q -> vote W -> exists m, m ∈ Q /\ m ∈ W.

#[export] Instance config_quorums_meet {I} `{Ord I, !Countable I} (acceptors : AcceptorConfig I)
  (Hwf : config_wf acceptors) : QuorumsMeet (promise_quorum acceptors) (vote_quorum acceptors).
Proof.
  intros Q W HQ HW. destruct (holds_intersect _ _ _ _ _ _ (cwf_admitted _ Hwf) HQ HW) as (m & _ & ? & ?).
  by exists m.
Qed.

Section system.
Context {I : Type} `{Ord I, !Countable I} {V : Type} `{!EqDecision V, !Fingerprint V, !Canonical V}.
Context (acceptors : AcceptorConfig I).

Inductive Msg :=
| MPrepare (b : Ballot)
| MAccept (b : Ballot) (v : V)
| MReply (from : I) (reply : DecreeReply V).

Record Sys := mkSys {
  s_proposers : gmap Ballot (Decree I V);
  s_records : I -> DecreeRecord V;
  s_sent : list Msg;
  s_chosen : list (Ballot * V);
  s_proposed : list V }.
Implicit Types (s : Sys) (b : Ballot) (v : V) (i : I).

Definition sys_init : Sys := mkSys ∅ (fun _ => mkRecord zero None) [] [] [].

Definition set_record s i (r : DecreeRecord V) (reply : DecreeReply V) : Sys :=
  mkSys (s_proposers s) (fun j => if decide (j = i) then r else s_records s j)
    (MReply i reply :: s_sent s) (s_chosen s) (s_proposed s).
Definition set_proposer s b (d : Decree I V) (sent : list Msg) (chosen : list (Ballot * V)) : Sys :=
  mkSys (<[b := d]> (s_proposers s)) (s_records s) (sent ++ s_sent s) (chosen ++ s_chosen s) (s_proposed s).
Definition add_proposal s v : Sys :=
  mkSys (s_proposers s) (s_records s) (s_sent s) (s_chosen s) (v :: s_proposed s).

(** Whether a value was sent at [b]. *)
Definition unsent s b : Prop := Forall (fun m => match m with MAccept b' _ => b' <> b | _ => True end) (s_sent s).
#[global] Instance unsent_dec s b : Decision (unsent s b).
Proof. unfold unsent. apply Forall_dec. intros []; apply _. Defined.

(** Phase 2 starts when the promise quorum is in. *)
Definition accepts_of b (outcome : DecreePromise V) : list Msg :=
  match outcome with DQuorum v => [MAccept b v] | _ => [] end.
Definition chosen_of b (outcome : AcceptFold V) : list (Ballot * V) :=
  match outcome with AChosen v => [(b, v)] | _ => [] end.

Inductive step s : Sys -> Prop :=
| step_propose b v d :
    unsent s b -> canonical v = v -> decree_new b acceptors v = Done d ->
    step s (set_proposer (add_proposal s v) b d [MPrepare b] [])
| step_prepare i b serves r reply :
    i ∈ c_members acceptors -> MPrepare b ∈ s_sent s ->
    on_decree_prepare serves (s_records s i) b = Done (r, reply) ->
    step s (set_record s i r reply)
| step_accept i b v serves r reply :
    i ∈ c_members acceptors -> MAccept b v ∈ s_sent s ->
    on_decree_accept serves (s_records s i) b v = Done (r, reply) ->
    step s (set_record s i r reply)
| step_promised i b vote d d' outcome :
    MReply i (RPromised b vote) ∈ s_sent s -> s_proposers s !! b = Some d ->
    on_promise d i vote = Done (d', outcome) ->
    step s (set_proposer s b d' (accepts_of b outcome) [])
| step_accepted i b d d' outcome :
    MReply i (RAccepted b) ∈ s_sent s -> s_proposers s !! b = Some d ->
    on_accepted d i = Done (d', outcome) ->
    step s (set_proposer s b d' [] (chosen_of b outcome))
| step_nacked i b promised d d' :
    MReply i (RNacked b promised) ∈ s_sent s -> s_proposers s !! b = Some d ->
    on_nack d promised = Done d' ->
    step s (set_proposer s b d' [] []).

Definition reachable : Sys -> Prop := rtc step sys_init.

(** ** The invariant *)

Definition voted s i b : Prop := MReply i (RAccepted b) ∈ s_sent s.

(** No quorum votes at [b] any more. *)
Definition blocked_at s b : Prop :=
  exists Q : gset I, promise_quorum acceptors Q /\
    forall i, i ∈ Q -> (b < dr_promised (s_records s i))%B /\ ~ voted s i b.

(** [v] is safe at [b]: below [b] only [v] is still choosable. *)
Definition safe_at s b v : Prop :=
  forall b', (b' < b)%B -> MAccept b' v ∈ s_sent s \/ blocked_at s b'.

(** A vote at or above [b'], reported or held. *)
Definition covers (vote : option (Ballot * V)) b' : Prop :=
  exists bv vv, vote = Some (bv, vv) /\ (b' ≤ bv)%B.

Definition promise_true s i b vote : Prop :=
  (b ≤ dr_promised (s_records s i))%B /\ i ∈ c_members acceptors /\
  is_none_or (fun r : Ballot * V => MAccept r.1 r.2 ∈ s_sent s) vote /\
  forall b', voted s i b' -> (b' < b)%B -> covers vote b'.

Definition proposed s v : Prop := v ∈ s_proposed s.

(** A promise quorum stands at or above [b]. *)
Definition fenced s b : Prop :=
  exists Q : gset I, promise_quorum acceptors Q /\ forall i, i ∈ Q -> (b ≤ dr_promised (s_records s i))%B.

Lemma unsent_iff s b : unsent s b <-> forall v, MAccept b v ∉ s_sent s.
Proof.
  unfold unsent. rewrite Forall_forall. split; [by intros Hu v Hm%Hu|].
  intros Hn m Hm. destruct m as [|b' v|]; [done| |done]. intros ->. by apply (Hn v).
Qed.

Inductive proposer_ok s b : Decree I V -> Prop :=
| ok_phase1 proposal A held pre :
    (forall v, MAccept b v ∉ s_sent s) -> canonical proposal = proposal -> proposed s proposal ->
    is_none_or (fun r : Ballot * V => MAccept r.1 r.2 ∈ s_sent s) held ->
    (forall i, i ∈ A -> exists vote, MReply i (RPromised b vote) ∈ s_sent s /\
       forall b', covers vote b' -> covers held b') ->
    proposer_ok s b (decree_phase1 b acceptors proposal A held pre)
| ok_phase2 proposal value votes pre :
    MAccept b value ∈ s_sent s ->
    (forall i, i ∈ votes -> i ∈ c_members acceptors /\ voted s i b) ->
    proposer_ok s b (decree_phase2 b acceptors proposal value votes pre).

Record inv s : Prop := {
  inv_records : forall i, record_ok (s_records s i);
  inv_vote : forall i bv vv, dr_vote (s_records s i) = Some (bv, vv) -> MAccept bv vv ∈ s_sent s;
  inv_voted : forall i b, voted s i b -> i ∈ c_members acceptors /\ covers (dr_vote (s_records s i)) b;
  inv_promise : forall i b vote, MReply i (RPromised b vote) ∈ s_sent s -> promise_true s i b vote;
  inv_proposer : forall b d, s_proposers s !! b = Some d -> proposer_ok s b d;
  inv_accept : forall b v, MAccept b v ∈ s_sent s ->
    is_Some (s_proposers s !! b) /\ canonical v = v /\ safe_at s b v /\ proposed s v;
  inv_fenced : forall b v, MAccept b v ∈ s_sent s -> fenced s b;
  inv_unique : forall b v v', MAccept b v ∈ s_sent s -> MAccept b v' ∈ s_sent s -> v = v';
  inv_chosen : forall b v, (b, v) ∈ s_chosen s -> MAccept b v ∈ s_sent s /\
    exists W : gset I, vote_quorum acceptors W /\ forall i, i ∈ W -> voted s i b }.

Lemma phase2_voters s b proposal value (votes : gset I) pre i :
  proposer_ok s b (decree_phase2 b acceptors proposal value votes pre) -> i ∈ votes -> i ∈ c_members acceptors.
Proof.
  set (d := decree_phase2 _ _ _ _ _ _). intros Hok.
  assert (rs_by_slot (p_rounds (d_proposer d)) !! DECREE_SLOT = Some (mkRound b value (Colocated votes) None 0 0)) as Er
    by done.
  destruct Hok as [|? ? votes' ? _ Hv]; [done|]. injection Er as _ <-. intros Hi. by apply Hv.
Qed.

(** ** What only grows *)

Record grows s s' : Prop := {
  grows_sent : forall m, m ∈ s_sent s -> m ∈ s_sent s';
  grows_promised : forall i, (dr_promised (s_records s i) ≤ dr_promised (s_records s' i))%B;
  grows_voted : forall i b, voted s' i b -> voted s i b \/ (dr_promised (s_records s i) ≤ b)%B;
  grows_proposed : forall v, proposed s v -> proposed s' v }.

Section growth.
Context (s s' : Sys) (Hg : grows s s').

Lemma blocked_at_grows b : blocked_at s b -> blocked_at s' b.
Proof using Hg.
  intros (Q & HQ & Hb). exists Q. split; [done|]. intros i Hi. destruct (Hb i Hi) as [Hlt Hnv]. split.
  - eapply ord_lt_le_trans; [done|]. by apply grows_promised.
  - intros [?|Hle]%(grows_voted _ _ Hg); [done|]. by apply Hlt.
Qed.

Lemma safe_at_grows b v : safe_at s b v -> safe_at s' b v.
Proof using Hg.
  intros Hs b' Hb'. destruct (Hs b' Hb'); [left; by apply (grows_sent _ _ Hg)|right; by apply blocked_at_grows].
Qed.

Lemma promise_true_grows i b vote : promise_true s i b vote -> promise_true s' i b vote.
Proof using Hg.
  intros (Hp & Hi & Hm & Hv). split_and!; [|done|..].
  - eapply ord_le_trans; [done|]. by apply grows_promised.
  - destruct vote; [|done]. by apply (grows_sent _ _ Hg).
  - intros b' [?|Hle]%(grows_voted _ _ Hg) Hlt; [by apply Hv|].
    exfalso. apply Hlt. by eapply ord_le_trans.
Qed.

Lemma proposer_ok_grows b d :
  (forall v, MAccept b v ∈ s_sent s' -> MAccept b v ∈ s_sent s) -> proposer_ok s b d -> proposer_ok s' b d.
Proof using Hg.
  intros Hnew [proposal A held pre Hna Hc Hp Hh HA|proposal value votes pre Hm Hv].
  - constructor; [|done|..].
    + intros v Hv. by apply (Hna v), Hnew.
    + by apply (grows_proposed _ _ Hg).
    + destruct held; [|done]. by apply (grows_sent _ _ Hg).
    + intros i Hi. destruct (HA i Hi) as (vote & ? & ?). exists vote. split; [by apply (grows_sent _ _ Hg)|done].
  - constructor; [by apply (grows_sent _ _ Hg)|]. intros i Hi. destruct (Hv i Hi). split; [done|].
    by apply (grows_sent _ _ Hg).
Qed.

Lemma fenced_grows b : fenced s b -> fenced s' b.
Proof using Hg.
  intros (Q & HQ & Hb). exists Q. split; [done|]. intros i Hi. eapply ord_le_trans; [by apply Hb|]. by apply grows_promised.
Qed.

Lemma accept_grows b v :
  is_Some (s_proposers s !! b) /\ canonical v = v /\ safe_at s b v /\ proposed s v ->
  is_Some (s_proposers s' !! b) -> is_Some (s_proposers s' !! b) /\ canonical v = v /\ safe_at s' b v /\ proposed s' v.
Proof using Hg.
  intros (_ & Hc & Hs & Hp) Hb. split_and!; [done|done|by apply safe_at_grows|by apply (grows_proposed _ _ Hg)].
Qed.

Lemma chosen_grows b v :
  MAccept b v ∈ s_sent s /\ (exists W : gset I, vote_quorum acceptors W /\ forall i, i ∈ W -> voted s i b) ->
  MAccept b v ∈ s_sent s' /\ (exists W : gset I, vote_quorum acceptors W /\ forall i, i ∈ W -> voted s' i b).
Proof using Hg.
  intros (Hm & W & HW & Hv). split; [by apply (grows_sent _ _ Hg)|]. exists W. split; [done|].
  intros i Hi. by apply (grows_sent _ _ Hg), Hv.
Qed.
End growth.

(** ** An acceptor's step *)

Lemma set_record_grows s i r reply :
  (dr_promised (s_records s i) ≤ dr_promised r)%B ->
  (forall b, reply = RAccepted b -> dr_promised (s_records s i) ≤ b)%B ->
  grows s (set_record s i r reply).
Proof.
  intros Hle Hacc. constructor; cbn.
  - intros m Hm. by right.
  - intros j. case_decide; [by subst|apply ord_le_refl].
  - intros j b. unfold voted. cbn. rewrite elem_of_cons. intros [[= -> <-]|?]; [right; by apply Hacc|by left].
  - done.
Qed.

Lemma set_record_inv s i r reply :
  inv s -> i ∈ c_members acceptors -> record_ok r -> (dr_promised (s_records s i) ≤ dr_promised r)%B ->
  (forall bv vv, dr_vote r = Some (bv, vv) -> MAccept bv vv ∈ s_sent s) ->
  (forall b, covers (dr_vote (s_records s i)) b -> covers (dr_vote r) b) ->
  (forall b, reply = RAccepted b -> (dr_promised (s_records s i) ≤ b)%B /\ covers (dr_vote r) b) ->
  (forall b vote, reply = RPromised b vote -> b = dr_promised r /\ vote = dr_vote r) ->
  inv (set_record s i r reply).
Proof.
  intros Hinv Hi Hok Hle Hvote Hcov Hacc Hprom.
  assert (grows s (set_record s i r reply)) as Hg by (apply set_record_grows; [done|]; intros; by apply Hacc).
  assert (forall b v, MAccept b v ∈ s_sent (set_record s i r reply) -> MAccept b v ∈ s_sent s) as Hold
    by (intros b v; cbn; rewrite elem_of_cons; by intros [?|?]).
  assert (forall j b, voted (set_record s i r reply) j b ->
    j ∈ c_members acceptors /\ covers (dr_vote (s_records (set_record s i r reply) j)) b) as Hvd.
  { intros j b. unfold voted. cbn. rewrite elem_of_cons. intros [[= -> <-]|Hv].
    - rewrite decide_True by done. split; [done|]. by apply Hacc.
    - apply (inv_voted _ Hinv) in Hv as [? ?]. split; [done|]. case_decide; [subst; by apply Hcov|done]. }
  constructor.
  - intros j. cbn. case_decide; [done|apply Hinv].
  - intros j bv vv. cbn. intros Hj. right. case_decide; [by apply Hvote|by eapply (inv_vote _ Hinv)].
  - done.
  - intros j b vote. cbn [s_sent set_record]. rewrite elem_of_cons.
    intros [[= -> Hr]|Hm]; [|by eapply promise_true_grows, (inv_promise _ Hinv)].
    destruct (Hprom b vote (eq_sym Hr)) as [-> ->].
    split_and!; [|done|..].
    + cbn. rewrite decide_True by done. apply ord_le_refl.
    + destruct (dr_vote r) as [[bv vv]|] eqn:E; [|done]. cbn. right. by apply Hvote.
    + intros b' Hv _. destruct (Hvd _ _ Hv) as [_ Hc]. cbn in Hc. by rewrite decide_True in Hc.
  - intros b d Hd. eapply proposer_ok_grows; [done|apply Hold|]. by apply (inv_proposer _ Hinv).
  - intros b v Hm%Hold. apply (inv_accept _ Hinv) in Hm. eapply accept_grows; [done..|apply Hm].
  - intros b v Hm%Hold. by eapply (fenced_grows _ _ Hg), (inv_fenced _ Hinv).
  - intros b v v' Hm%Hold Hm'%Hold. by eapply (inv_unique _ Hinv).
  - intros b v Hc. apply (chosen_grows s _ Hg). by apply (inv_chosen _ Hinv).
Qed.

Lemma record_unchanged_inv s i reply :
  inv s -> i ∈ c_members acceptors -> (forall b, reply <> RAccepted b) -> (forall b vote, reply <> RPromised b vote) ->
  inv (set_record s i (s_records s i) reply).
Proof.
  intros Hinv Hi Ha Hp. apply set_record_inv; try done; [apply Hinv|..].
  - intros bv vv. apply (inv_vote _ Hinv).
  - intros b E. by apply Ha in E.
  - intros b vote E. by apply Hp in E.
Qed.

(** ** A proposer's step *)

(** What a proposer at [b] may send: its prepare, or its one accept. *)
Definition may_send s b (m : Msg) : Prop :=
  match m with
  | MPrepare _ => True
  | MAccept b' v => b' = b /\ (forall v', MAccept b v' ∉ s_sent s) /\ canonical v = v /\ safe_at s b v /\ proposed s v /\
      fenced s b
  | MReply _ _ => False
  end.

Lemma set_proposer_grows s b d' sent chosen :
  (forall m, m ∈ sent -> may_send s b m) -> grows s (set_proposer s b d' sent chosen).
Proof.
  intros Hsend. constructor; cbn.
  - intros m Hm. apply elem_of_app. by right.
  - intros i. apply ord_le_refl.
  - intros i b'. unfold voted. cbn. rewrite elem_of_app. intros [Hm%Hsend|?]; [done|by left].
  - done.
Qed.

Lemma set_proposer_inv s b d' sent chosen :
  inv s -> (forall m, m ∈ sent -> may_send s b m) ->
  (forall v v', MAccept b v ∈ sent -> MAccept b v' ∈ sent -> v = v') ->
  proposer_ok (set_proposer s b d' sent chosen) b d' ->
  (forall b' v, (b', v) ∈ chosen -> MAccept b' v ∈ s_sent s /\
     exists W : gset I, vote_quorum acceptors W /\ forall i, i ∈ W -> voted s i b') ->
  inv (set_proposer s b d' sent chosen).
Proof.
  intros Hinv Hsend Huniq Hok Hch.
  pose proof (set_proposer_grows s b d' sent chosen Hsend) as Hg.
  set (s' := set_proposer s b d' sent chosen) in *.
  assert (forall m, m ∈ s_sent s' <-> m ∈ sent \/ m ∈ s_sent s) as Hsent
    by (intros m; cbn; apply elem_of_app).
  assert (forall i reply, MReply i reply ∈ s_sent s' -> MReply i reply ∈ s_sent s) as Hreply
    by (intros i reply [Hm%Hsend|?]%Hsent; done).
  constructor.
  - apply (inv_records _ Hinv).
  - intros i bv vv Hv. by apply (grows_sent _ _ Hg), (inv_vote _ Hinv i).
  - intros i b' Hv. by apply (inv_voted _ Hinv), Hreply.
  - intros i b' vote Hm. apply (promise_true_grows _ _ Hg), (inv_promise _ Hinv), Hreply, Hm.
  - intros b' d. cbn. rewrite lookup_insert. case_decide as E; [intros [= <-]; by subst|].
    intros Hd. apply (proposer_ok_grows _ _ Hg); [|by apply (inv_proposer _ Hinv)].
    intros v [Hm%Hsend|?]%Hsent; [|done]. by destruct Hm as [-> _].
  - intros b' v [Hm|Hm]%Hsent.
    + apply Hsend in Hm as (-> & _ & Hc & Hs & Hp & _). split_and!; [|done|by apply (safe_at_grows _ _ Hg)|by apply (grows_proposed _ _ Hg)].
      cbn. rewrite lookup_insert_eq. by eexists.
    + apply (inv_accept _ Hinv) in Hm. apply (accept_grows _ _ Hg _ _ Hm). cbn. rewrite lookup_insert.
      case_decide; [by eexists|apply Hm].
  - intros b' v [Hm|Hm]%Hsent; apply (fenced_grows _ _ Hg); [|by eapply (inv_fenced _ Hinv)].
    apply Hsend in Hm as (-> & _ & _ & _ & _ & ?). done.
  - intros b' v v' [Hm|Hm]%Hsent [Hm'|Hm']%Hsent.
    + pose proof (Hsend _ Hm) as [-> _]. by apply Huniq.
    + apply Hsend in Hm as (-> & Hno & _). by apply Hno in Hm'.
    + apply Hsend in Hm' as (-> & Hno & _). by apply Hno in Hm.
    + by eapply (inv_unique _ Hinv).
  - intros b' v. cbn. rewrite elem_of_app. intros [Hc|Hc]; apply (chosen_grows _ _ Hg);
      [by apply Hch|by apply (inv_chosen _ Hinv)].
Qed.

(** The state does not move when the proposer ignores a message. *)
Lemma proposer_unmoved_inv s b d' : inv s -> proposer_ok s b d' -> inv (set_proposer s b d' [] []).
Proof.
  intros Hinv Hok. apply set_proposer_inv; try done.
  - intros m Hm. by apply not_elem_of_nil in Hm.
  - intros v v' Hm. by apply not_elem_of_nil in Hm.
  - apply (proposer_ok_grows s); [|by intros|done]. apply set_proposer_grows.
    intros m Hm. by apply not_elem_of_nil in Hm.
  - intros b' v Hm. by apply not_elem_of_nil in Hm.
Qed.

(** P2c is safe: the value a promise quorum selects. *)
Lemma selected_safe s b proposal (Q : gset I) held :
  inv s -> promise_quorum acceptors Q ->
  is_none_or (fun r : Ballot * V => MAccept r.1 r.2 ∈ s_sent s) held ->
  (forall i, i ∈ Q -> exists vote, MReply i (RPromised b vote) ∈ s_sent s /\
     forall b', covers vote b' -> covers held b') ->
  safe_at s b (selected proposal held).
Proof.
  intros Hinv HQ Hheld HQv b' Hb'.
  assert (~ covers held b' -> blocked_at s b') as Hbl.
  { intros Hnc. exists Q. split; [done|]. intros i Hi. destruct (HQv i Hi) as (vote & Hm & Hcov).
    apply (inv_promise _ Hinv) in Hm as (Hp & _ & _ & Hv). split; [by eapply ord_lt_le_trans|].
    intros Hvd. by apply Hnc, Hcov, Hv. }
  destruct held as [[bv vv]|]; cbn in *.
  - destruct (ord_lt_cases b' bv) as [Hlt|[->|Hgt]]; [by apply (inv_accept _ Hinv) in Hheld; apply Hheld|by left|].
    right. apply Hbl. intros (bv' & vv' & [= <- <-] & Hle). by apply Hgt.
  - right. apply Hbl. by intros (? & ? & ? & _).
Qed.

Lemma covers_best held vote b : covers held b \/ covers vote b -> covers (best held vote) b.
Proof.
  intros [(bv & vv & -> & Hle)|(bv & vv & -> & Hle)].
  - destruct (best_ge_l (Some (bv, vv)) vote bv vv eq_refl) as (b' & v' & E & ?).
    exists b', v'. split; [done|by eapply ord_le_trans].
  - destruct (best_ge_r held (Some (bv, vv)) bv vv eq_refl) as (b' & v' & E & ?).
    exists b', v'. split; [done|by eapply ord_le_trans].
Qed.

Lemma reports_agree s (x y : option (Ballot * V)) :
  inv s -> is_none_or (fun r : Ballot * V => MAccept r.1 r.2 ∈ s_sent s) x ->
  is_none_or (fun r : Ballot * V => MAccept r.1 r.2 ∈ s_sent s) y -> agree x y.
Proof.
  intros Hinv Hx Hy. destruct x as [[b v]|], y as [[b' v']|]; try done. cbn in *. intros <-.
  by eapply (inv_unique _ Hinv).
Qed.

(** ** Every step keeps the invariant *)

Lemma sys_init_inv : inv sys_init.
Proof.
  constructor; unfold voted; cbn; intros;
    repeat match goal with Hm : _ ∈ [] |- _ => apply not_elem_of_nil in Hm end; try done.
Qed.

Lemma prepare_step_inv s i b serves r reply :
  inv s -> i ∈ c_members acceptors -> on_decree_prepare serves (s_records s i) b = Done (r, reply) ->
  inv (set_record s i r reply).
Proof.
  intros Hinv Hi E. pose proof (inv_records _ Hinv i) as Hok. destruct serves; [|by injection E as <- <-; apply record_unchanged_inv].
  rewrite on_decree_prepare_ok in E by done. injection E as E. case_decide as Hlt; injection E as <- <-.
  { by apply record_unchanged_inv. }
  apply ord_not_lt in Hlt. apply set_record_inv; cbn; try done.
  - unfold record_ok in *. cbn. destruct (dr_vote (s_records s i)) as [[bv vv]|]; [|done]. cbn in *.
    by eapply ord_le_trans.
  - apply (inv_vote _ Hinv).
  - by intros b' vote [= -> ->].
Qed.

(** The vote an acceptor is asked for never contradicts the one it holds. *)
Lemma accept_agrees s i b v : inv s -> MAccept b v ∈ s_sent s -> agree (dr_vote (s_records s i)) (Some (b, v)).
Proof.
  intros Hinv Hm. apply (reports_agree s); [done| |done].
  destruct (dr_vote (s_records s i)) as [[bv vv]|] eqn:E; [|done]. by eapply (inv_vote _ Hinv).
Qed.

Lemma accept_step_inv s i b v serves r reply :
  inv s -> i ∈ c_members acceptors -> MAccept b v ∈ s_sent s ->
  on_decree_accept serves (s_records s i) b v = Done (r, reply) -> inv (set_record s i r reply).
Proof.
  intros Hinv Hi Hm E. pose proof (inv_records _ Hinv i) as Hok. destruct serves; [|by injection E as <- <-; apply record_unchanged_inv].
  destruct (inv_accept _ Hinv _ _ Hm) as (_ & Hc & _).
  rewrite on_decree_accept_ok in E by (done || by apply accept_agrees).
  injection E as E. case_decide as Hlt; injection E as <- <-. { by apply record_unchanged_inv. }
  apply ord_not_lt in Hlt. apply set_record_inv; cbn; try done.
  - by intros bv vv [= <- <-].
  - intros b' (bv & vv & Ev & Hle). exists b, v. split; [done|]. unfold record_ok in Hok. rewrite Ev in Hok.
    cbn in Hok. eapply ord_le_trans; [done|]. by eapply ord_le_trans.
  - intros b' [= ->]. split; [done|]. exists b', v. split; [done|apply ord_le_refl].
Qed.

Context (Hwf : config_wf acceptors).

Lemma add_proposal_inv s v : inv s -> inv (add_proposal s v).
Proof.
  intros Hinv. assert (grows s (add_proposal s v)) as Hg
    by (constructor; [done|intros; apply ord_le_refl|by left|intros w Hw; by right]).
  destruct Hinv. constructor; try done.
  - intros b d Hd. apply (proposer_ok_grows _ _ Hg); auto.
  - intros b w Hm. apply (accept_grows _ _ Hg); auto. by eapply inv_accept0.
Qed.

Lemma propose_step_inv s b v d :
  inv s -> unsent s b -> canonical v = v -> decree_new b acceptors v = Done d ->
  inv (set_proposer (add_proposal s v) b d [MPrepare b] []).
Proof using Hwf.
  intros Hinv Hb Hc E. rewrite decree_new_ok in E by done. injection E as <-. rewrite unsent_iff in Hb.
  apply set_proposer_inv; try done; [by apply add_proposal_inv|..].
  - by intros m ->%list_elem_of_singleton.
  - by intros v1 v2 ?%list_elem_of_singleton.
  - constructor; [|done|by left|done..]. intros v'. cbn. rewrite elem_of_cons. intros [?|Hm]; [done|]. by apply (Hb v').
  - intros b' v' Hm. by apply not_elem_of_nil in Hm.
Qed.

(** What the promises counted so far say, with one more. *)
Lemma promise_counted s i b vote (A : gset I) held :
  MReply i (RPromised b vote) ∈ s_sent s ->
  (forall i, i ∈ A -> exists vote, MReply i (RPromised b vote) ∈ s_sent s /\
     forall b', covers vote b' -> covers held b') ->
  forall j, j ∈ {[ i ]} ∪ A -> exists vote', MReply j (RPromised b vote') ∈ s_sent s /\
     forall b', covers vote' b' -> covers (best held vote) b'.
Proof.
  intros Hm HA j [->%elem_of_singleton|Hj]%elem_of_union.
  - exists vote. split; [done|]. intros b' ?. apply covers_best. by right.
  - destruct (HA j Hj) as (vote' & ? & Hc). exists vote'. split; [done|]. intros b' ?. apply covers_best.
    left. by apply Hc.
Qed.

Lemma best_sent s held vote :
  is_none_or (fun r : Ballot * V => MAccept r.1 r.2 ∈ s_sent s) held ->
  is_none_or (fun r : Ballot * V => MAccept r.1 r.2 ∈ s_sent s) vote ->
  is_none_or (fun r : Ballot * V => MAccept r.1 r.2 ∈ s_sent s) (best held vote).
Proof.
  intros Hh Hv. destruct (best held vote) as [r|] eqn:E; [|done].
  apply best_some in E as [->|E]; [done|]. by rewrite E in Hv.
Qed.

(** Phase 1 of a proposer that reaches its quorum, turned into Phase 2. *)
Lemma quorum_step_inv s b proposal A held' :
  inv s -> (forall v, MAccept b v ∉ s_sent s) -> canonical proposal = proposal -> proposed s proposal ->
  promise_quorum acceptors A -> is_none_or (fun r : Ballot * V => MAccept r.1 r.2 ∈ s_sent s) held' ->
  (forall i, i ∈ A -> exists vote, MReply i (RPromised b vote) ∈ s_sent s /\
     forall b', covers vote b' -> covers held' b') ->
  inv (set_proposer s b (decree_phase2 b acceptors proposal (selected proposal held') ∅ None)
         [MAccept b (selected proposal held')] []).
Proof.
  intros Hinv Hna Hc Hprop HQ Hh HA.
  assert (canonical (selected proposal held') = selected proposal held' /\ proposed s (selected proposal held')) as [Hcan Hpr].
  { destruct held' as [[bv vv]|]; cbn in *; [by apply (inv_accept _ Hinv) in Hh as (_ & ? & _ & ?)|].
    done. }
  apply set_proposer_inv; try done.
  - intros m ->%list_elem_of_singleton. split_and!; [done..|by eapply selected_safe|done|].
    exists A. split; [done|]. intros i Hi. destruct (HA i Hi) as (vote & Hm & _). by apply (inv_promise _ Hinv) in Hm as [? _].
  - by intros v v' [= <-]%list_elem_of_singleton [= <-]%list_elem_of_singleton.
  - constructor; [by left|]. intros i Hi. by apply elem_of_empty in Hi.
  - intros b' v Hm. by apply not_elem_of_nil in Hm.
Qed.

Lemma promised_step s i b vote d :
  inv s -> MReply i (RPromised b vote) ∈ s_sent s -> s_proposers s !! b = Some d ->
  exists d' outcome, on_promise d i vote = Done (d', outcome) /\
    inv (set_proposer s b d' (accepts_of b outcome) []).
Proof using Hwf.
  intros Hinv Hm Hd. pose proof (inv_proposer _ Hinv _ _ Hd) as Hok.
  destruct (inv_promise _ Hinv _ _ _ Hm) as (_ & Hi & Hvm & _).
  destruct Hok as [proposal A held pre Hna Hc Hp Hh HA|proposal value votes pre Hs Hv].
  2: { eexists _, _. split; [by apply on_promise_phase2|]. apply proposer_unmoved_inv; [done|by constructor]. }
  assert (agree held vote) as Hag by by eapply reports_agree.
  destruct (decide (is_Some pre \/ i ∈ A)) as [Hign|Hcount].
  { eexists _, _. split; [apply on_promise_ignored; [done|tauto|done]|].
    apply proposer_unmoved_inv; [done|by constructor]. }
  destruct pre as [?|]; [destruct Hcount; left; by eexists|].
  pose proof (promise_counted s i b vote A held Hm HA) as HA'. pose proof (best_sent s held vote Hh Hvm) as Hb.
  assert (i ∉ A) as Hnew by tauto.
  pose proof (on_promise_ok b acceptors proposal Hwf A held i vote Hi Hnew Hag) as E. cbn zeta in E.
  case_decide as Hq; (eexists _, _; split; [exact E|]).
  - by eapply quorum_step_inv.
  - apply proposer_unmoved_inv; [done|]. by constructor.
Qed.

Lemma accepted_step s i b d :
  inv s -> MReply i (RAccepted b) ∈ s_sent s -> s_proposers s !! b = Some d ->
  exists d' outcome, on_accepted d i = Done (d', outcome) /\
    inv (set_proposer s b d' [] (chosen_of b outcome)).
Proof using Hwf.
  intros Hinv Hm Hd. pose proof (inv_proposer _ Hinv _ _ Hd) as Hok.
  destruct (inv_voted _ Hinv i b Hm) as [Hi _].
  destruct Hok as [proposal A held pre Hna Hc Hp Hh HA|proposal value votes pre Hs Hv].
  { eexists _, _. split; [by apply on_accepted_phase1|]. apply proposer_unmoved_inv; [done|by constructor]. }
  destruct (decide (is_Some pre \/ i ∈ votes)) as [Hign|Hcount].
  { eexists _, _. split; [apply on_accepted_ignored; [done|tauto]|].
    apply proposer_unmoved_inv; [done|by constructor]. }
  destruct pre as [?|]; [destruct Hcount; left; by eexists|].
  assert (forall j, j ∈ {[ i ]} ∪ votes -> j ∈ c_members acceptors /\ voted s j b) as Hv'
    by (intros j [->%elem_of_singleton|?]%elem_of_union; [done|by apply Hv]).
  eexists _, _. split; [apply on_accepted_ok; [done|done|tauto|intros; by apply Hv]|].
  apply set_proposer_inv; try done.
  - intros m Hm'. by apply not_elem_of_nil in Hm'.
  - intros v v' Hm'. by apply not_elem_of_nil in Hm'.
  - by constructor.
  - intros b' v Hin. case_decide as Hq; cbn in Hin; [|by apply not_elem_of_nil in Hin].
    apply list_elem_of_singleton in Hin as [= -> ->]. split; [done|]. eexists. split; [done|]. apply Hv'.
Qed.

Lemma nacked_step s b promised d :
  inv s -> s_proposers s !! b = Some d ->
  exists d', on_nack d promised = Done d' /\ inv (set_proposer s b d' [] []).
Proof using Type.
  intros Hinv Hd. pose proof (inv_proposer _ Hinv _ _ Hd) as Hok.
  assert (d_ballot d = b) as Eb by by destruct Hok.
  eexists. split; [by apply (on_nack_ok b)|]. apply proposer_unmoved_inv; [done|].
  destruct Hok; cbn; by constructor.
Qed.

Lemma step_inv s s' : inv s -> step s s' -> inv s'.
Proof using Hwf.
  intros Hinv [b v d ? ? ?|i b serves r reply ? ? ?|i b v serves r reply ? ? ?|i b vote d d' outcome Hm Hd E
    |i b d d' outcome Hm Hd E|i b promised d d' Hm Hd E].
  - by eapply propose_step_inv.
  - by eapply prepare_step_inv.
  - by eapply accept_step_inv.
  - destruct (promised_step s i b vote d Hinv Hm Hd) as (? & ? & E' & ?). rewrite E in E'. by injection E' as <- <-.
  - destruct (accepted_step s i b d Hinv Hm Hd) as (? & ? & E' & ?). rewrite E in E'. by injection E' as <- <-.
  - destruct (nacked_step s b promised d Hinv Hd) as (? & E' & ?). rewrite E in E'. by injection E' as <-.
Qed.

Lemma steps_inv s s' : rtc step s s' -> inv s -> inv s'.
Proof using Hwf. induction 1; [done|]. intros Hi. apply IHrtc. by eapply step_inv. Qed.

Lemma reachable_inv s : reachable s -> inv s.
Proof using Hwf. intros Hr. by eapply steps_inv, sys_init_inv. Qed.

Lemma accepts_agree s b1 v1 b2 v2 :
  inv s -> (b1, v1) ∈ s_chosen s -> (b2, v2) ∈ s_chosen s -> (b1 < b2)%B -> v1 = v2.
Proof using Hwf.
  intros Hinv H1 H2 Hlt. apply (inv_chosen _ Hinv) in H1 as (Hm1 & W & HW & Hv), H2 as (Hm2 & _).
  destruct (inv_accept _ Hinv _ _ Hm2) as (_ & _ & Hs & _).
  destruct (Hs b1 Hlt) as [Hm|(Q & HQ & Hb)]; [by eapply (inv_unique _ Hinv)|].
  destruct (config_quorums_meet acceptors Hwf Q W HQ HW) as (i & HiQ & HiW).
  destruct (Hb i HiQ) as [_ Hnv]. by destruct (Hnv (Hv i HiW)).
Qed.

Lemma chosen_agree s b1 v1 b2 v2 :
  inv s -> (b1, v1) ∈ s_chosen s -> (b2, v2) ∈ s_chosen s -> v1 = v2.
Proof using Hwf.
  intros Hinv H1 H2. destruct (ord_lt_cases b1 b2) as [Hlt|[->|Hlt]].
  - by eapply accepts_agree.
  - apply (inv_chosen _ Hinv) in H1 as [? _], H2 as [? _]. by eapply (inv_unique _ Hinv).
  - symmetry. by eapply accepts_agree.
Qed.
End system.

(** ** The specification: consensus

    One register, written at most once. *)

Inductive consensus_step {V : Type} : option V -> option V -> Prop :=
| consensus_keep x : consensus_step x x
| consensus_choose v : consensus_step None (Some v).

(** The value the system has decided: the first one a proposer saw chosen. *)
Definition decision {I V} `{Countable I} (s : Sys (I:=I) (V:=V)) : option V := snd <$> last (s_chosen s).

Section spec.
Context {I : Type} `{Ord I, !Countable I} {V : Type} `{!EqDecision V, !Fingerprint V, !Canonical V}.
Context (acceptors : AcceptorConfig I) (Hwf : config_wf acceptors).
Implicit Types (s : Sys (I:=I) (V:=V)).

Lemma decision_chosen s b v : inv acceptors s -> (b, v) ∈ s_chosen s -> decision s = Some v.
Proof using Hwf.
  intros Hinv Hc. unfold decision. destruct (last (s_chosen s)) as [[b' v']|] eqn:E.
  - cbn. f_equal. apply last_Some_elem_of in E. by eapply (chosen_agree acceptors).
  - apply last_None in E. rewrite E in Hc. by apply not_elem_of_nil in Hc.
Qed.

Lemma decision_grows s s' : step acceptors s s' -> consensus_step (decision s) (decision s').
Proof using Type.
  assert (forall c, consensus_step (decision s) (snd <$> last (c ++ s_chosen s))) as Hgen.
  { intros c. unfold decision. rewrite last_app. destruct (last (s_chosen s)) as [[b v]|]; [constructor|].
    destruct (last c) as [[b v]|]; constructor. }
  intros []; unfold decision; cbn; first [apply Hgen | apply (Hgen [])].
Qed.
End spec.

(** ** Running the system

    A schedule of events, executed; what it executes are steps. *)

#[export] Instance DecreeReply_eq_dec {V} `{!EqDecision V} : EqDecision (DecreeReply V).
Proof. solve_decision. Defined.
#[export] Instance Msg_eq_dec {I V} `{!EqDecision I, !EqDecision V} : EqDecision (Msg (I:=I) (V:=V)).
Proof. solve_decision. Defined.

Inductive Event (I V : Type) :=
| EPropose (b : Ballot) (v : V)
| EPrepare (i : I) (b : Ballot)
| EAccept (i : I) (b : Ballot) (v : V)
| EPromised (i : I) (b : Ballot) (vote : option (Ballot * V))
| EAccepted (i : I) (b : Ballot).
Arguments EPropose {_ _} _ _.
Arguments EPrepare {_ _} _ _.
Arguments EAccept {_ _} _ _ _.
Arguments EPromised {_ _} _ _ _.
Arguments EAccepted {_ _} _ _.

Section exec.
Context {I : Type} `{Ord I, !Countable I} {V : Type} `{!EqDecision V, !Fingerprint V, !Canonical V}.
Context (acceptors : AcceptorConfig I).
Implicit Types (s : Sys (I:=I) (V:=V)) (e : Event I V).

Definition finished {A} (c : run A) : option A := match c with Done a => Some a | Panic _ => None end.

Definition exec s e : option (Sys (I:=I) (V:=V)) :=
  match e with
  | EPropose b v =>
      guard (canonical v = v);;
      guard (unsent s b);;
      d ← finished (decree_new b acceptors v); Some (set_proposer (add_proposal s v) b d [MPrepare b] [])
  | EPrepare i b =>
      guard (i ∈ c_members acceptors);; guard (MPrepare b ∈ s_sent s);;
      '(r, reply) ← finished (on_decree_prepare true (s_records s i) b); Some (set_record s i r reply)
  | EAccept i b v =>
      guard (i ∈ c_members acceptors);; guard (MAccept b v ∈ s_sent s);;
      '(r, reply) ← finished (on_decree_accept true (s_records s i) b v); Some (set_record s i r reply)
  | EPromised i b vote =>
      guard (MReply i (RPromised b vote) ∈ s_sent s);; d ← s_proposers s !! b;
      '(d', outcome) ← finished (on_promise d i vote); Some (set_proposer s b d' (accepts_of b outcome) [])
  | EAccepted i b =>
      guard (MReply i (RAccepted b) ∈ s_sent s);; d ← s_proposers s !! b;
      '(d', outcome) ← finished (on_accepted d i); Some (set_proposer s b d' [] (chosen_of b outcome))
  end.

Definition schedule s (es : list (Event I V)) : option (Sys (I:=I) (V:=V)) :=
  foldl (fun o e => s ← o; exec s e) (Some s) es.

Lemma finished_Some {A} (c : run A) a : finished c = Some a -> c = Done a.
Proof using Type. destruct c; simpl; congruence. Qed.

Lemma exec_step s e s' : exec s e = Some s' -> step acceptors s s'.
Proof using Type.
  destruct e; cbn [exec]; intros E; repeat case_guard; try done; cbn [mbind option_bind] in E;
    repeat match goal with
    | E : (match ?o with Some _ => _ | None => _ end) = Some _ |- _ => destruct o eqn:?; try discriminate E
    | E : (finished ?c ≫= _) = Some _ |- _ => destruct (finished c) eqn:?; [cbn [mbind option_bind] in E|discriminate E]
    | E : (_ ≫= _) = Some _ |- _ => apply bind_Some in E as (? & ? & E)
    | E : (let '_ := ?p in _) = Some _ |- _ => destruct p
    | E : finished _ = Some _ |- _ => apply finished_Some in E
    end; injection E as <-;
    eauto using step_propose, step_prepare, step_accept, step_promised, step_accepted.
Qed.

Lemma schedule_steps es s s' : schedule s es = Some s' -> rtc (step acceptors) s s'.
Proof using Type.
  unfold schedule. revert s. induction es as [|e es IH]; intros s; cbn; [by intros [= <-]|].
  destruct (exec s e) as [s1|] eqn:E.
  - intros Hs. eapply rtc_l; [by eapply exec_step|by apply IH].
  - intros Hs. assert (foldl (fun o e => s ← o; exec s e) None es = None) as Hn by (clear; by induction es).
    by rewrite Hn in Hs.
Qed.
End exec.

(** ** Progress: a lone highest proposer decides *)

Section progress.
Context {I : Type} `{Ord I, !Countable I} {V : Type} `{!EqDecision V, !Fingerprint V, !Canonical V}.
Context (acceptors : AcceptorConfig I) (Hwf : config_wf acceptors) (b : Ballot).
Implicit Types (s : Sys (I:=I) (V:=V)) (A votes : gset I).

Lemma union_shift i A votes : {[ i ]} ∪ A ∪ votes = A ∪ ({[ i ]} ∪ votes).
Proof using Type. by rewrite (assoc_L (∪)), (comm_L (∪) A). Qed.

(** No acceptor has promised above [b]. *)
Definition unopposed s : Prop := forall i, i ∈ c_members acceptors -> (dr_promised (s_records s i) ≤ b)%B.

Lemma set_record_unopposed s i vote reply : unopposed s -> unopposed (set_record s i (mkRecord b vote) reply).
Proof using Type. intros Hu j Hj. cbn. case_decide; [apply ord_le_refl|by apply Hu]. Qed.

Lemma promise_round s i proposal A held :
  inv acceptors s -> unopposed s -> i ∈ c_members acceptors -> (i ∉ A) -> MPrepare b ∈ s_sent s ->
  s_proposers s !! b = Some (decree_phase1 b acceptors proposal A held None) ->
  exists s' held', rtc (step acceptors) s s' /\ unopposed s' /\ MPrepare b ∈ s_sent s' /\
    if decide (promise_quorum acceptors ({[ i ]} ∪ A)) then
      s_proposers s' !! b = Some (decree_phase2 b acceptors proposal (selected proposal held') ∅ None) /\
      MAccept b (selected proposal held') ∈ s_sent s'
    else s_proposers s' !! b = Some (decree_phase1 b acceptors proposal ({[ i ]} ∪ A) held' None).
Proof using Hwf.
  intros Hinv Hu Hi HA Hm Hd.
  assert (step acceptors s (set_record s i (mkRecord b (dr_vote (s_records s i))) (RPromised b (dr_vote (s_records s i))))) as Hs1.
  { apply (step_prepare acceptors s i b true); [done..|]. rewrite on_decree_prepare_ok by apply Hinv.
    rewrite decide_False by (by apply ord_not_lt, Hu). done. }
  set (vote := dr_vote (s_records s i)) in *. set (s1 := set_record s i _ _) in *.
  assert (inv acceptors s1) as Hinv1 by by eapply step_inv.
  assert (MReply i (RPromised b vote) ∈ s_sent s1) as Hm1 by by left.
  destruct (inv_promise _ _ Hinv1 _ _ _ Hm1) as (_ & _ & Hv & _).
  assert (agree held vote) as Hag.
  { pose proof (inv_proposer _ _ Hinv1 b _ Hd) as Hok. inversion Hok as [? ? held0 ? _ _ _ Hh|]; simplify_eq. by eapply reports_agree. }
  pose proof (on_promise_ok b acceptors proposal Hwf A held i vote Hi HA Hag) as E. cbn zeta in E.
  case_decide as Hq; (pose proof (step_promised acceptors s1 i b vote _ _ _ Hm1 Hd E) as Hs2;
    eexists _, (best held vote); split; [eapply rtc_l; [exact Hs1|by apply rtc_once]|]; cbn [accepts_of] in *).
  - split_and!; [by apply set_record_unopposed|by right; right| |by left]. cbn. by rewrite lookup_insert_eq.
  - split_and!; [by apply set_record_unopposed|by right|]. cbn. by rewrite lookup_insert_eq.
Qed.

Lemma phase1_completes proposal (l : list I) s A held :
  inv acceptors s -> unopposed s -> MPrepare b ∈ s_sent s ->
  s_proposers s !! b = Some (decree_phase1 b acceptors proposal A held None) ->
  ~ promise_quorum acceptors A -> promise_quorum acceptors (A ∪ list_to_set l) ->
  NoDup l -> (forall i, i ∈ l -> i ∈ c_members acceptors /\ (i ∉ A)) ->
  exists s' w, rtc (step acceptors) s s' /\ unopposed s' /\
    s_proposers s' !! b = Some (decree_phase2 b acceptors proposal w ∅ None) /\ MAccept b w ∈ s_sent s'.
Proof using Hwf.
  revert s A held. induction l as [|i l IH]; intros s A held Hinv Hu Hm Hd Hnq Hq Hnd Hl.
  { destruct Hnq. cbn in Hq. by rewrite (right_id_L ∅ (∪)) in Hq. }
  apply NoDup_cons in Hnd as [Hil Hnd]. destruct (Hl i) as [Hi HiA]; [by left|].
  destruct (promise_round s i proposal A held) as (s' & held' & Hs & Hu' & Hm' & Hcase); [done..|].
  case_decide as Hq'; [by exists s', (selected proposal held')|].
  destruct (IH s' ({[ i ]} ∪ A) held') as (s'' & w & Hs' & ?); [by eapply steps_inv|done..| |done| |].
  - cbn in Hq. by rewrite union_shift.
  - intros j Hj. destruct (Hl j) as [? ?]; [by right|]. split; [done|].
    rewrite elem_of_union, elem_of_singleton. intros [->|?]; done.
  - exists s'', w. split; [by etrans|done].
Qed.

Lemma vote_round s i proposal w votes :
  inv acceptors s -> unopposed s -> i ∈ c_members acceptors -> (i ∉ votes) -> MAccept b w ∈ s_sent s ->
  s_proposers s !! b = Some (decree_phase2 b acceptors proposal w votes None) ->
  exists s', rtc (step acceptors) s s' /\ unopposed s' /\ MAccept b w ∈ s_sent s' /\
    s_proposers s' !! b = Some (decree_phase2 b acceptors proposal w ({[ i ]} ∪ votes) None) /\
    (vote_quorum acceptors ({[ i ]} ∪ votes) -> (b, w) ∈ s_chosen s').
Proof using Hwf.
  intros Hinv Hu Hi Hiv Hm Hd.
  assert (step acceptors s (set_record s i (mkRecord b (Some (b, w))) (RAccepted b))) as Hs1.
  { apply (step_accept acceptors s i b w true); [done..|].
    rewrite on_decree_accept_ok; [|apply Hinv|by apply (inv_accept _ _ Hinv _ _ Hm)|by eapply accept_agrees].
    by rewrite decide_False by (by apply ord_not_lt, Hu). }
  set (s1 := set_record s i _ _) in *. assert (MReply i (RAccepted b) ∈ s_sent s1) as Hm1 by by left.
  assert (forall m, m ∈ votes -> m ∈ c_members acceptors) as Hsub.
  { intros m Hmv. by eapply (phase2_voters _ s b), Hmv; apply (inv_proposer _ _ Hinv). }
  pose proof (on_accepted_ok b acceptors proposal Hwf w votes i Hi Hiv Hsub) as E. cbn zeta in E.
  pose proof (step_accepted acceptors s1 i b _ _ _ Hm1 Hd E) as Hs2.
  eexists. split; [eapply rtc_l; [exact Hs1|by apply rtc_once]|].
  split_and!; [by apply set_record_unopposed|by right|cbn; by rewrite lookup_insert_eq|].
  intros Hq. cbn. rewrite decide_True by done. by left.
Qed.

Lemma phase2_completes proposal w (l : list I) s votes :
  inv acceptors s -> unopposed s -> MAccept b w ∈ s_sent s ->
  s_proposers s !! b = Some (decree_phase2 b acceptors proposal w votes None) ->
  ~ vote_quorum acceptors votes -> vote_quorum acceptors (votes ∪ list_to_set l) ->
  NoDup l -> (forall i, i ∈ l -> i ∈ c_members acceptors /\ (i ∉ votes)) ->
  exists s', rtc (step acceptors) s s' /\ (b, w) ∈ s_chosen s'.
Proof using Hwf.
  revert s votes. induction l as [|i l IH]; intros s votes Hinv Hu Hm Hd Hnq Hq Hnd Hl.
  { destruct Hnq. cbn in Hq. by rewrite (right_id_L ∅ (∪)) in Hq. }
  apply NoDup_cons in Hnd as [Hil Hnd]. destruct (Hl i) as [Hi Hiv]; [by left|].
  destruct (vote_round s i proposal w votes) as (s' & Hs & Hu' & Hm' & Hd' & Hch); [done..|].
  destruct (decide (vote_quorum acceptors ({[ i ]} ∪ votes))) as [Hq'|Hq']; [exists s'; auto|].
  destruct (IH s' ({[ i ]} ∪ votes)) as (s'' & Hs' & ?); [by eapply steps_inv|done..| |done| |].
  - cbn in Hq. by rewrite union_shift.
  - intros j Hj. destruct (Hl j) as [? ?]; [by right|]. split; [done|].
    rewrite elem_of_union, elem_of_singleton. intros [->|?]; done.
  - exists s''. split; [by etrans|done].
Qed.
End progress.

(** ** Properties *)

(** C10: agreement.  However many proposers run, whatever the network loses,
    duplicates or reorders, and whatever the acceptors refuse, all values the
    proposers see chosen are the same value. *)
Theorem decree_agreement {I} `{Ord I, !Countable I} {V} `{!EqDecision V, !Fingerprint V, !Canonical V}
  (acceptors : AcceptorConfig I) (s : Sys (I:=I) (V:=V)) b1 v1 b2 v2 :
  config_wf acceptors -> reachable acceptors s ->
  (b1, v1) ∈ s_chosen s -> (b2, v2) ∈ s_chosen s -> v1 = v2.
Proof. intros Hwf Hr. by eapply chosen_agree, reachable_inv. Qed.

(** C11: the decree implements consensus, and chooses only proposals.  Every step
    of the system is a step of a write-once register, every value a proposer
    sees chosen is the register's, and it is one that some proposer proposed. *)
Theorem decree_refines_consensus {I} `{Ord I, !Countable I} {V} `{!EqDecision V, !Fingerprint V, !Canonical V}
  (acceptors : AcceptorConfig I) (s s' : Sys (I:=I) (V:=V)) :
  config_wf acceptors -> reachable acceptors s -> step acceptors s s' ->
  consensus_step (decision s) (decision s') /\
  forall b v, (b, v) ∈ s_chosen s' -> decision s' = Some v /\ proposed s' v.
Proof.
  intros Hwf Hr Hs. apply (reachable_inv _ Hwf) in Hr as Hinv.
  assert (inv acceptors s') as Hinv' by by eapply step_inv.
  split; [by eapply decision_grows|]. intros b v Hc. split; [by eapply decision_chosen|].
  apply (inv_chosen _ _ Hinv') in Hc as [Hm _]. apply (inv_accept _ _ Hinv' _ _ Hm).
Qed.

(** C12: no assertion of the protocol fires.  In every reachable state each
    handler returns on each message it can be delivered: opening a decree, both
    acceptor handlers and all three reply handlers. *)
Theorem decree_never_panics {I} `{Ord I, !Countable I} {V} `{!EqDecision V, !Fingerprint V, !Canonical V}
  (acceptors : AcceptorConfig I) (s : Sys (I:=I) (V:=V)) :
  config_wf acceptors -> reachable acceptors s ->
  (forall b (v : V), returns (decree_new b acceptors v)) /\
  (forall i b serves, MPrepare b ∈ s_sent s -> returns (on_decree_prepare serves (s_records s i) b)) /\
  (forall i b v serves, MAccept b v ∈ s_sent s -> returns (on_decree_accept serves (s_records s i) b v)) /\
  (forall i b vote d, MReply i (RPromised b vote) ∈ s_sent s -> s_proposers s !! b = Some d ->
     returns (on_promise d i vote)) /\
  (forall i b d, MReply i (RAccepted b) ∈ s_sent s -> s_proposers s !! b = Some d -> returns (on_accepted d i)) /\
  (forall i b promised d, MReply i (RNacked b promised) ∈ s_sent s -> s_proposers s !! b = Some d ->
     returns (on_nack d promised)).
Proof.
  intros Hwf Hr. apply (reachable_inv _ Hwf) in Hr as Hinv. split_and!.
  - intros b v. eexists. by apply decree_new_ok.
  - intros i b serves _. destruct serves; [|by eexists]. rewrite on_decree_prepare_ok by apply Hinv. by eexists.
  - intros i b v serves Hm. destruct serves; [|by eexists]. destruct (inv_accept _ _ Hinv _ _ Hm) as (_ & ? & _).
    rewrite on_decree_accept_ok; [by eexists|apply Hinv|done|by eapply accept_agrees].
  - intros i b vote d Hm Hd. destruct (promised_step _ Hwf _ _ _ _ _ Hinv Hm Hd) as (? & ? & -> & _). by eexists.
  - intros i b d Hm Hd. destruct (accepted_step _ Hwf _ _ _ _ Hinv Hm Hd) as (? & ? & -> & _). by eexists.
  - intros i b promised d _ Hd. destruct (nacked_step _ _ _ promised _ Hinv Hd) as (? & -> & _). by eexists.
Qed.

(** C13: progress.  From any reachable state, however the earlier ballots ended, a
    proposer at a fresh ballot above every promise has a run in which it sees a
    value chosen. *)
Theorem decree_progress {I} `{Ord I, !Countable I} {V} `{!EqDecision V, !Fingerprint V, !Canonical V}
  (acceptors : AcceptorConfig I) (s : Sys (I:=I) (V:=V)) b v :
  config_wf acceptors -> reachable acceptors s -> unopposed acceptors b s ->
  s_proposers s !! b = None -> canonical v = v ->
  exists s' w, rtc (step acceptors) s s' /\ (b, w) ∈ s_chosen s'.
Proof.
  intros Hwf Hr Hu Hb Hc. apply (reachable_inv _ Hwf) in Hr as Hinv.
  assert (unsent s b) as Hun.
  { apply unsent_iff. intros w [[? Hw] _]%(inv_accept _ _ Hinv). by rewrite Hb in Hw. }
  pose proof (step_propose acceptors s b v _ Hun Hc (decree_new_ok b acceptors v Hwf)) as Hs0.
  set (s0 := set_proposer _ _ _ _ _) in Hs0. apply (step_inv _ Hwf) in Hs0 as Hinv0; [|done].
  pose proof (members_NoDup _ (cwf_sorted _ Hwf)) as Hnd.
  destruct (everyone_holds (c_quorum_system acceptors) (c_members acceptors) (∅ ∪ list_to_set (c_members acceptors)))
    as [Hq1 Hq2]; [apply Hwf|apply Forall_forall; set_solver|].
  destruct (phase1_completes acceptors Hwf b v (c_members acceptors) s0 ∅ None) as (s1 & w & Hs1 & Hu1 & Hd1 & Hm1);
    [done|done|by left|by apply lookup_insert_eq| |done|done|set_solver|].
  { intros Hq. by apply phase1_holds_nonempty in Hq. }
  destruct (phase2_completes acceptors Hwf b v w (c_members acceptors) s1 ∅) as (s2 & Hs2 & Hch);
    [by eapply steps_inv|done|done|done| |done|done|set_solver|].
  { intros Hq. by apply phase2_holds_nonempty in Hq. }
  exists s2, w. split; [|done]. eapply rtc_l; [done|]. by etrans.
Qed.

(** ** Witnesses

    Three acceptors.  The proposer at ballot 1 has [1; 2] chosen by acceptors 1
    and 2; the one at ballot 2 proposes [5], hears of the vote from acceptor 2,
    and has [1; 2] chosen again by acceptors 2 and 3. *)

Definition ex_b1 : Ballot := mkBallot 1 1.
Definition ex_b2 : Ballot := mkBallot 2 2.

Definition ex_first : list (Event NodeId (list N)) :=
  [EPropose ex_b1 [1; 2]; EPrepare 1 ex_b1; EPrepare 2 ex_b1; EPromised 1 ex_b1 None; EPromised 2 ex_b1 None;
   EAccept 1 ex_b1 [1; 2]; EAccept 2 ex_b1 [1; 2]; EAccepted 1 ex_b1; EAccepted 2 ex_b1].
Definition ex_second : list (Event NodeId (list N)) :=
  [EPropose ex_b2 [5]; EPrepare 2 ex_b2; EPrepare 3 ex_b2; EPromised 3 ex_b2 None;
   EPromised 2 ex_b2 (Some (ex_b1, [1; 2])); EAccept 2 ex_b2 [1; 2]; EAccept 3 ex_b2 [1; 2];
   EAccepted 2 ex_b2; EAccepted 3 ex_b2].

Definition ex_state (es : list (Event NodeId (list N))) : Sys (I:=NodeId) (V:=list N) :=
  default sys_init (schedule ex_config sys_init es).

Lemma ex_state_reachable es :
  is_Some (schedule ex_config sys_init es) -> reachable ex_config (ex_state es).
Proof.
  intros [s' E]. unfold ex_state. rewrite E. by eapply schedule_steps.
Qed.

Lemma ex_runs : is_Some (schedule ex_config sys_init (ex_first ++ ex_second)).
Proof. by vm_compute; eexists. Qed.

Lemma decree_agreement_witness :
  (ex_b1, [1; 2]) ∈ s_chosen (ex_state (ex_first ++ ex_second)) /\
  (ex_b2, [1; 2]) ∈ s_chosen (ex_state (ex_first ++ ex_second)) /\ [1; 2] = [1; 2].
Proof.
  assert ((ex_b1, [1; 2]) ∈ s_chosen (ex_state (ex_first ++ ex_second))) as H1
    by (change (s_chosen (ex_state (ex_first ++ ex_second))) with [(ex_b2, [1; 2]); (ex_b1, [1; 2])]; right; left).
  assert ((ex_b2, [1; 2]) ∈ s_chosen (ex_state (ex_first ++ ex_second))) as H2
    by (change (s_chosen (ex_state (ex_first ++ ex_second))) with [(ex_b2, [1; 2]); (ex_b1, [1; 2])]; left).
  split_and!; [done|done|].
  apply (decree_agreement ex_config (ex_state (ex_first ++ ex_second)) ex_b1 [1; 2] ex_b2 [1; 2]);
    [apply ex_config_wf|apply ex_state_reachable, ex_runs|done|done].
Defined.

Lemma decree_refines_consensus_witness :
  decision (ex_state (removelast ex_first)) = None /\
  exists s', step ex_config (ex_state (removelast ex_first)) s' /\
    consensus_step (decision (ex_state (removelast ex_first))) (decision s').
Proof.
  split; [by vm_compute|].
  destruct (exec ex_config (ex_state (removelast ex_first)) (EAccepted 2 ex_b1)) as [s'|] eqn:E; [|by vm_compute in E].
  exists s'. apply exec_step in E as Hs. split; [done|].
  apply (decree_refines_consensus ex_config (ex_state (removelast ex_first)) s');
    [apply ex_config_wf|apply ex_state_reachable; by vm_compute; eexists|done].
Defined.

Lemma decree_never_panics_witness :
  returns (on_decree_prepare true (s_records (ex_state ex_first) 3) ex_b1).
Proof.
  destruct (decree_never_panics ex_config (ex_state ex_first)) as (_ & Hp & _);
    [apply ex_config_wf|apply ex_state_reachable; by vm_compute; eexists|].
  apply Hp. by apply (bool_decide_unpack _); vm_compute.
Defined.

Lemma decree_progress_witness :
  exists s' w, rtc (step ex_config) (ex_state ex_first) s' /\ (ex_b2, w) ∈ s_chosen s'.
Proof.
  apply (decree_progress ex_config (ex_state ex_first) ex_b2 [5]);
    [apply ex_config_wf|apply ex_state_reachable; by vm_compute; eexists| |by vm_compute|by vm_compute].
  unfold unopposed. apply Forall_forall. apply (bool_decide_unpack _). by vm_compute.
Defined.
