(* ===== verification/Batcher.v ===== *)
(** * Batchers and unbatchers ([batcher.rs])

    The roles that merge many writers' writes of one multi-writer journal into
    one log slot and hand each write its own range back.  [chunks] reads the
    writes of a batch back out of its merged records; in those terms a batcher
    neither loses, reorders, repeats nor mixes a write ([batcher_conserves]), and
    a merged write is what its writes applied one by one would be
    ([batch_transparent]). *)

From S2P Require Import Prelude BTree Types Journal.

(** ** Limits *)

Record BatchLimits := mkLimits {
  bl_max_records : N;
  bl_max_bytes : N;
  bl_flush_records : N }.

(** [BatchLimits::valid]. *)
Definition batch_limits_valid (l : BatchLimits) : Prop :=
  1 <= bl_max_records l /\ 1 <= bl_max_bytes l /\ 1 <= bl_flush_records l /\
  bl_flush_records l <= bl_max_records l.

#[export] Instance batch_limits_valid_dec l : Decision (batch_limits_valid l).
Proof. unfold batch_limits_valid. apply _. Defined.

(** The record bytes of [records], saturating. *)
Definition bytes_of (records : list bytes) : N := foldl usize_saturating_add 0 (len <$> records).

Section batcher.
Context {J : Type} `{Ord J, !Countable J} {T : Type}.

(** ** Batches and lanes *)

Record Batch := mkBatch {
  b_journal : J;
  b_writes : list (T * N);
  b_records : list bytes }.

Definition merged (batch : Batch) : bool := bool_decide (1 < len (b_writes batch)).
Definition batch_bytes (batch : Batch) : N := bytes_of (b_records batch).

Record Lane := mkLane {
  l_writes : list (T * N);
  l_records : list bytes;
  l_bytes : N }.

Definition lane_new : Lane := mkLane [] [] 0.

(** [Lane::take]: the lane as a batch, and the lane emptied. *)
Definition lane_take (lane : Lane) (journal : J) : run (Batch * Lane) :=
  let batch := mkBatch journal (l_writes lane) (l_records lane) in
  total ← usize_sum (b_writes batch).*2;
  rassert (total = len (b_records batch)) "a batch's counts cover its records exactly";;
  rassert (batch_bytes batch = l_bytes lane) "a lane counts its bytes";;
  let lane := mkLane [] [] 0 in
  rassert (l_writes lane = [] /\ l_records lane = []) "assertion failed";;
  mret (batch, lane).

(** ** The batcher *)

Record Batcher := mkBatcher {
  bt_limits : BatchLimits;
  bt_lanes : gmap J Lane }.

Definition put_lane (b : Batcher) (journal : J) (lane : Lane) : Batcher :=
  mkBatcher (bt_limits b) (<[journal := lane]> (bt_lanes b)).

Definition batcher_pending (b : Batcher) : run N :=
  usize_sum ((fun e : J * Lane => len (l_writes e.2)) <$> bt_entries (bt_lanes b)).

Definition batcher_new (limits : BatchLimits) : run Batcher :=
  rassert (batch_limits_valid limits) "a batcher's limits keep their floors";;
  let b := mkBatcher limits ∅ in
  waiting ← batcher_pending b;
  rassert (waiting = 0) "a new batcher holds nothing";;
  mret b.

Definition lower_limits (b : Batcher) (max_records max_bytes : N) : run Batcher :=
  let before := bt_limits b in
  let records := N.min (bl_max_records before) (N.max max_records 1) in
  let limits := mkLimits records (N.min (bl_max_bytes before) (N.max max_bytes 1))
                  (N.min (bl_flush_records before) records) in
  rassert (batch_limits_valid limits) "lowered limits keep their floors";;
  rassert (bl_max_records limits <= bl_max_records before /\ bl_max_bytes limits <= bl_max_bytes before)
    "a limit only goes down";;
  mret (mkBatcher limits (bt_lanes b)).

Definition fits_alone (b : Batcher) (records : list bytes) : bool :=
  bool_decide (len records <= bl_max_records (bt_limits b) /\ bytes_of records <= bl_max_bytes (bt_limits b)).

(** The checks a push and a tick make of what they return. *)
Definition flushes (journal : J) (batch : Batch) : run unit :=
  rassert (b_journal batch = journal) "a push flushes only its journal";;
  rassert (b_writes batch <> []) "a batch holds a write".

(** Whether a write would take its lane past the limits. *)
Definition overfull (limits : BatchLimits) (lane : Lane) (count bytes : N) : run bool :=
  total ← usize_add (len (l_records lane)) count;
  if decide (bl_max_records limits < total) then mret true else
  size ← usize_add (l_bytes lane) bytes;
  mret (bool_decide (bl_max_bytes limits < size)).

(** The lane a write joins, flushed first when it would be overfull. *)
Definition make_room (limits : BatchLimits) (lane : Lane) (journal : J) (count bytes : N)
  : run (Lane * list Batch) :=
  over ← overfull limits lane count bytes;
  if over : bool then
    rassert (l_writes lane <> []) "a write that fits alone fits an empty lane";;
    '(batch, lane) ← lane_take lane journal;
    mret (lane, [batch])
  else mret (lane, []).

(** A write that goes alone, after the writes before it on its journal. *)
Definition push_alone (b : Batcher) (journal : J) (token : T) (records : list bytes)
  : run (Batcher * list Batch) :=
  '(b, out) ← match bt_lanes b !! journal with
              | Some lane =>
                  if decide (l_writes lane = []) then mret (b, []) else
                  '(batch, lane) ← lane_take lane journal;
                  mret (put_lane b journal lane, [batch])
              | None => mret (b, [])
              end;
  mret (b, out ++ [mkBatch journal [(token, len records)] records]).

Definition push (b : Batcher) (journal : J) (token : T) (records : list bytes)
  : run (Batcher * list Batch) :=
  before ← batcher_pending b;
  let count := len records in
  if decide (records = [] \/ fits_alone b records = false) then
    '(b, out) ← push_alone b journal token records;
    after ← batcher_pending b;
    rassert (after <= before) "a lone write queues nothing";;
    mret (b, out)
  else
  let bytes := bytes_of records in
  let limits := bt_limits b in
  let lane := default lane_new (bt_lanes b !! journal) in
  '(lane, out) ← make_room limits lane journal count bytes;
  size ← usize_add (l_bytes lane) bytes;
  let lane := mkLane (l_writes lane ++ [(token, count)]) (l_records lane ++ records) size in
  rassert (len (l_records lane) <= bl_max_records limits /\ l_bytes lane <= bl_max_bytes limits)
    "a lane stays within the limits";;
  '(lane, out) ← (if decide (bl_flush_records limits <= len (l_records lane)) then
                    '(batch, lane) ← lane_take lane journal;
                    mret (lane, out ++ [batch])
                  else mret (lane, out));
  let b := put_lane b journal lane in
  foldM (fun _ batch => flushes journal batch) tt out;;
  mret (b, out).

(** A lane a tick flushes. *)
Definition tick_lane (out : list Batch) (entry : J * Lane) : run (list Batch) :=
  if decide (l_writes entry.2 = []) then mret out else
  '(batch, _) ← lane_take entry.2 entry.1;
  mret (out ++ [batch]).

Definition tick (b : Batcher) : run (Batcher * list Batch) :=
  out ← foldM tick_lane [] (bt_entries (bt_lanes b));
  let b := mkBatcher (bt_limits b) ∅ in
  waiting ← batcher_pending b;
  rassert (waiting = 0) "a tick flushes every lane";;
  foldM (fun _ batch => rassert (b_writes batch <> []) "a batch holds a write") tt out;;
  mret (b, out).

(** ** The scatter *)

(** A write's range, and where the next one starts. *)
Definition scatter_one (acc : N * list (T * N * N)) (write : T * N) : run (N * list (T * N * N)) :=
  let '(at_, out) := acc in
  let '(token, n) := write in
  next ← u64_add at_ n;
  mret (next, out ++ [(token, at_, n)]).

(** [Unbatcher::scatter]. *)
Definition scatter (writes : list (T * N)) (seq count : N) : run (list (T * N * N)) :=
  total ← u64_sum writes.*2;
  rassert (total = count) "a merged write is accepted whole";;
  '(at_, out) ← foldM scatter_one (seq, []) writes;
  stop ← u64_add seq count;
  rassert (at_ = stop) "the ranges cover the merged write";;
  rassert (len out = len writes) "one answer per write";;
  mret out.
End batcher.
Arguments Batch : clear implicits.
Arguments Lane : clear implicits.
Arguments Batcher J {_ _} T.

(** ** What a batch holds *)

(** The writes of a batch, read back out of its merged records. *)
Fixpoint chunks {T} (writes : list (T * N)) (records : list bytes) : list (T * list bytes) :=
  match writes with
  | [] => []
  | (token, n) :: rest =>
      (token, take (N.to_nat n) records) :: chunks rest (drop (N.to_nat n) records)
  end.

(** A batch's counts cover its records, and a merged one holds no empty write. *)
Definition counts_cover {T} (writes : list (T * N)) (records : list bytes) : Prop :=
  Nsum writes.*2 = len records.
Definition nonempty {T} (writes : list (T * N)) : Prop := Forall (fun w => 0 < w.2) writes.

Lemma counts_cover_nil {T} records : counts_cover ([] : list (T * N)) records -> records = [].
Proof. unfold counts_cover, len. destruct records; simpl; [done|lia]. Qed.

Lemma counts_cover_cons {T} (t : T) n w r :
  counts_cover ((t, n) :: w) r -> (N.to_nat n <= length r)%nat /\ counts_cover w (drop (N.to_nat n) r).
Proof.
  unfold counts_cover, len. change (Nsum ((t, n) :: w).*2) with (n + Nsum w.*2). rewrite length_drop. lia.
Qed.

Lemma counts_cover_app {T} (w1 w2 : list (T * N)) r1 r2 :
  counts_cover w1 r1 -> counts_cover w2 r2 -> counts_cover (w1 ++ w2) (r1 ++ r2).
Proof. unfold counts_cover, len. rewrite fmap_app, Nsum_app, length_app. lia. Qed.

Lemma counts_cover_one {T} (t : T) records : counts_cover [(t, len records)] records.
Proof. unfold counts_cover. simpl. lia. Qed.

Lemma chunks_app {T} (w1 w2 : list (T * N)) r1 r2 :
  counts_cover w1 r1 -> chunks (w1 ++ w2) (r1 ++ r2) = chunks w1 r1 ++ chunks w2 r2.
Proof.
  revert r1. induction w1 as [|[t n] w1 IH]; intros r1 Hc.
  - by apply counts_cover_nil in Hc as ->.
  - apply counts_cover_cons in Hc as [? Hc]. cbn [chunks app].
    rewrite take_app_le, drop_app_le by done. f_equal. by apply IH.
Qed.

Lemma chunks_one {T} (t : T) records : chunks [(t, len records)] records = [(t, records)].
Proof. simpl. unfold len. by rewrite Nat2N.id, take_ge. Qed.

(** A batch's writes are its chunks with their records counted, its records
    theirs in turn. *)
Lemma chunks_spec {T} (w : list (T * N)) r :
  counts_cover w r -> w = (fun c => (c.1, len c.2)) <$> chunks w r /\ r = concat (chunks w r).*2.
Proof.
  revert r. induction w as [|[t n] w IH]; intros r Hc.
  - by apply counts_cover_nil in Hc as ->.
  - apply counts_cover_cons in Hc as [? Hc]. destruct (IH _ Hc) as [E1 E2].
    split.
    + cbn [chunks fmap list_fmap fst snd]. rewrite <-E1. unfold len. rewrite length_take.
      repeat f_equal. lia.
    + cbn [chunks fmap list_fmap fst snd concat]. rewrite <-E2. by rewrite take_drop.
Qed.

Lemma bytes_from l a : foldl usize_saturating_add a l = N.min (a + Nsum l) usize_max \/ usize_max < a.
Proof.
  revert a. induction l as [|n l IH]; intros a; simpl.
  - destruct (decide (a <= usize_max)); [left|right]; lia.
  - destruct (decide (a <= usize_max)); [left|right; lia].
    destruct (IH (usize_saturating_add a n)) as [->|Hgt]; unfold usize_saturating_add in *; lia.
Qed.

Lemma bytes_of_ok records : bytes_of records = N.min (Nsum (len <$> records)) usize_max.
Proof.
  unfold bytes_of. destruct (bytes_from (len <$> records) 0) as [->|Hgt]; [done|]. exfalso.
  apply N.nlt_ge in Hgt; [done|]. lia.
Qed.

Lemma bytes_of_app r1 r2 :
  bytes_of r1 + bytes_of r2 <= usize_max -> bytes_of (r1 ++ r2) = bytes_of r1 + bytes_of r2.
Proof. rewrite !bytes_of_ok, fmap_app, Nsum_app. lia. Qed.

(** ** The invariant, and each call under it

    [top] is the limits the batcher was made with; a lane filled before its
    limits went down stays within those. *)

Section correct.
Context {J : Type} `{Ord J, !Countable J} {T : Type} (top : BatchLimits).
Implicit Types (b : Batcher J T) (lane : Lane T) (batch : Batch J T) (journal : J).

Record lane_wf lane : Prop := {
  lw_covers : counts_cover (l_writes lane) (l_records lane);
  lw_nonempty : nonempty (l_writes lane);
  lw_bytes : l_bytes lane = bytes_of (l_records lane);
  lw_records : len (l_records lane) <= bl_max_records top;
  lw_size : l_bytes lane <= bl_max_bytes top }.

Record batcher_wf b : Prop := {
  bw_valid : batch_limits_valid (bt_limits b);
  bw_records : bl_max_records (bt_limits b) <= bl_max_records top;
  bw_bytes : bl_max_bytes (bt_limits b) <= bl_max_bytes top;
  bw_lanes : map_Forall (fun _ lane => lane_wf lane) (bt_lanes b) }.

(** The writes waiting on a journal, and those a list of batches carries for it. *)
Definition queued b journal : list (T * list bytes) :=
  match bt_lanes b !! journal with
  | Some lane => chunks (l_writes lane) (l_records lane)
  | None => []
  end.
Definition sent journal (out : list (Batch J T)) : list (T * list bytes) :=
  filter (fun batch => b_journal batch = journal) out ≫=
    fun batch => chunks (b_writes batch) (b_records batch).

(** What a driver may rely on of a batch: it holds a write, its counts cover its
    records, and merged writes are not empty and within the limits. *)
Record batch_ok batch : Prop := {
  bo_some : b_writes batch <> [];
  bo_covers : counts_cover (b_writes batch) (b_records batch);
  bo_merged : 1 < len (b_writes batch) ->
    nonempty (b_writes batch) /\ len (b_records batch) <= bl_max_records top /\
    batch_bytes batch <= bl_max_bytes top }.

Definition waiting b : N := Nsum ((fun e : J * Lane T => len (l_writes e.2)) <$> bt_entries (bt_lanes b)).

Lemma lane_new_wf : lane_wf lane_new.
Proof. constructor; simpl; try done; [constructor|apply N.le_0_l..]. Qed.

Lemma sent_app journal out1 out2 : sent journal (out1 ++ out2) = sent journal out1 ++ sent journal out2.
Proof. unfold sent. by rewrite filter_app, bind_app. Qed.

Lemma sent_own journal batch :
  sent journal [batch] = if decide (b_journal batch = journal) then chunks (b_writes batch) (b_records batch) else [].
Proof. unfold sent. rewrite filter_cons. case_decide; [|done]. simpl. by rewrite app_nil_r. Qed.

Lemma sent_other journal j out :
  Forall (fun batch => b_journal batch = journal) out -> journal <> j -> sent j out = [].
Proof.
  unfold sent. induction 1 as [|batch out E _ IH]; intros Hne; [done|].
  rewrite filter_cons, decide_False by congruence. auto.
Qed.

Lemma queued_put b journal lane j :
  queued (put_lane b journal lane) j =
    if decide (journal = j) then chunks (l_writes lane) (l_records lane) else queued b j.
Proof.
  unfold queued, put_lane. simpl. case_decide as E; [subst; by rewrite lookup_insert_eq|].
  by rewrite lookup_insert_ne.
Qed.

Lemma waiting_put b journal lane :
  waiting (put_lane b journal lane) + len (l_writes (default lane_new (bt_lanes b !! journal))) =
    len (l_writes lane) + waiting b.
Proof.
  unfold waiting, put_lane. simpl.
  rewrite <-(Nsum_update (fun lane => len (l_writes lane)) (bt_lanes b) journal lane).
  by destruct (bt_lanes b !! journal).
Qed.

Lemma batcher_pending_ok b : waiting b <= usize_max -> batcher_pending b = Done (waiting b).
Proof. apply usize_sum_ok. Qed.

Lemma put_lane_wf b journal lane : batcher_wf b -> lane_wf lane -> batcher_wf (put_lane b journal lane).
Proof. intros [] ?. constructor; simpl; try done. by apply map_Forall_insert_2. Qed.

Lemma lane_of_wf b journal : batcher_wf b -> lane_wf (default lane_new (bt_lanes b !! journal)).
Proof.
  intros Hwf. destruct (bt_lanes b !! journal) eqn:E; simpl; [|apply lane_new_wf].
  by eapply (bw_lanes _ Hwf).
Qed.

Lemma queued_default b journal :
  queued b journal = chunks (l_writes (default lane_new (bt_lanes b !! journal)))
                            (l_records (default lane_new (bt_lanes b !! journal))).
Proof. unfold queued. by destruct (bt_lanes b !! journal). Qed.

Hypothesis Hrecords : 2 * bl_max_records top <= usize_max.
Hypothesis Hbytes : 2 * bl_max_bytes top <= usize_max.

Lemma lane_take_ok lane journal :
  lane_wf lane -> lane_take lane journal = Done (mkBatch journal (l_writes lane) (l_records lane), lane_new).
Proof using Hrecords Hbytes.
  intros []. unfold lane_take. simpl. rewrite usize_sum_ok by (unfold counts_cover in *; lia). rsimpl.
  rassert_by done. rassert_by done. done.
Qed.

Lemma lane_batch_ok lane journal :
  lane_wf lane -> l_writes lane <> [] -> batch_ok (mkBatch journal (l_writes lane) (l_records lane)).
Proof. intros [] ?. constructor; simpl; try done. intros _. unfold batch_bytes. simpl. rewrite <-lw_bytes0. done. Qed.

Lemma lone_batch_ok journal (t : T) records : batch_ok (mkBatch journal [(t, len records)] records).
Proof. constructor; simpl; try done. apply counts_cover_one. Qed.

(** A call's account: nothing sent or kept but what was kept or pushed, in order. *)
Definition accounts b (out : list (Batch J T)) b' journal (writes : list (T * list bytes)) : Prop :=
  forall j, sent j out ++ queued b' j = queued b j ++ (if decide (journal = j) then writes else []).

Definition pushed_ok b journal token records (out : list (Batch J T)) b' : Prop :=
  batcher_wf b' /\ waiting b' <= waiting b + 1 /\
  Forall (fun batch => batch_ok batch /\ b_journal batch = journal) out /\
  accounts b out b' journal [(token, records)].

Lemma push_alone_ok b journal token records :
  batcher_wf b -> exists b' out,
    push_alone b journal token records = Done (b', out) /\ waiting b' <= waiting b /\
    pushed_ok b journal token records out b'.
Proof using Hrecords Hbytes.
  intros Hwf. unfold push_alone. pose proof (lane_of_wf _ journal Hwf) as Hlane.
  pose proof (queued_default b journal) as Hq. pose proof (waiting_put b journal lane_new) as Hw.
  destruct (bt_lanes b !! journal) as [lane|] eqn:El; simpl in *; [case_decide as Ew|].
  - eexists _, _. split; [done|]. split; [lia|]. split_and!; [done|lia| |].
    + constructor; [|done]. split; [apply lone_batch_ok|done].
    + intros j. cbn [app]. rewrite sent_own. cbn [b_journal b_writes b_records]. case_decide; [subst|simpl; by rewrite app_nil_r].
      by rewrite Hq, Ew, chunks_one.
  - rewrite lane_take_ok by done. rsimpl. eexists _, _. split; [done|]. split; [unfold len in Hw; simpl in Hw; lia|].
    split_and!; [apply put_lane_wf; [done|apply lane_new_wf]|unfold len in Hw; simpl in Hw; lia| |].
    + apply Forall_cons. split; [by split; [apply lane_batch_ok|]|]. apply Forall_singleton.
      split; [apply lone_batch_ok|done].
    + intros j. rewrite queued_put, sent_app, !sent_own. cbn [b_journal b_writes b_records].
      case_decide; [subst|simpl; by rewrite app_nil_r]. rewrite Hq, chunks_one. by rewrite app_nil_r.
  - eexists _, _. split; [done|]. split; [lia|]. split_and!; [done|lia| |].
    + constructor; [|done]. split; [apply lone_batch_ok|done].
    + intros j. cbn [app]. rewrite sent_own. cbn [b_journal b_writes b_records].
      case_decide; [subst|simpl; by rewrite app_nil_r]. by rewrite Hq, chunks_one.
Qed.

(** A lane that took one more write. *)
Definition grown lane (token : T) records : Lane T :=
  mkLane (l_writes lane ++ [(token, len records)]) (l_records lane ++ records) (l_bytes lane + bytes_of records).

Lemma grown_wf lane token records :
  lane_wf lane -> records <> [] -> len (l_records lane) + len records <= bl_max_records top ->
  l_bytes lane + bytes_of records <= bl_max_bytes top -> lane_wf (grown lane token records).
Proof using Hrecords Hbytes.
  intros [] Hne Hr Hb. constructor; simpl.
  - by apply counts_cover_app, counts_cover_one.
  - apply Forall_app. split; [done|]. apply Forall_singleton. destruct records; [done|]. unfold len. simpl. lia.
  - rewrite bytes_of_app; [by rewrite lw_bytes0|]. rewrite <-lw_bytes0. lia.
  - unfold len in *. rewrite length_app. lia.
  - done.
Qed.

Lemma grown_chunks lane token records :
  lane_wf lane -> chunks (l_writes (grown lane token records)) (l_records (grown lane token records)) =
    chunks (l_writes lane) (l_records lane) ++ [(token, records)].
Proof. intros []. unfold grown. cbn [l_writes l_records]. by rewrite chunks_app, chunks_one. Qed.

(** The lane a write joins: the journal's own, or an empty one once it is flushed. *)
Lemma make_room_ok lane journal records limits :
  lane_wf lane -> bl_max_records limits <= bl_max_records top -> bl_max_bytes limits <= bl_max_bytes top ->
  len records <= bl_max_records limits -> bytes_of records <= bl_max_bytes limits ->
  exists lane' out,
    make_room limits lane journal (len records) (bytes_of records) = Done (lane', out) /\
    lane_wf lane' /\ len (l_records lane') + len records <= bl_max_records limits /\
    l_bytes lane' + bytes_of records <= bl_max_bytes limits /\
    Forall (fun batch => batch_ok batch /\ b_journal batch = journal) out /\
    sent journal out ++ chunks (l_writes lane') (l_records lane') = chunks (l_writes lane) (l_records lane) /\
    len (l_writes lane') <= len (l_writes lane).
Proof using Hrecords Hbytes.
  intros Hwf HR HB Hr Hb. pose proof Hwf as [Hc _ Hy Hlr Hlb].
  assert (overfull limits lane (len records) (bytes_of records) =
    Done (bool_decide (bl_max_records limits < len (l_records lane) + len records \/
                       bl_max_bytes limits < l_bytes lane + bytes_of records))) as Eo.
  { unfold overfull. rewrite !usize_add_ok by lia. rsimpl. case_decide.
    - rewrite bool_decide_eq_true_2; [done|by left].
    - unfold mret, run_ret. f_equal. apply bool_decide_ext. tauto. }
  unfold make_room. rewrite Eo. rsimpl. case_bool_decide as Hover.
  - assert (l_writes lane <> []) as Hne.
    { intros E. unfold counts_cover in Hc. rewrite E in Hc. simpl in Hc.
      assert (l_records lane = []) as Er by (destruct (l_records lane); [done|unfold len in Hc; simpl in Hc; lia]).
      rewrite Er in Hy. change (bytes_of []) with 0 in Hy. lia. }
    rewrite (rassert_true (l_writes lane <> [])) by done. rsimpl.
    rewrite lane_take_ok by done. rsimpl. eexists _, _. split; [done|].
    split_and!; [apply lane_new_wf|change (len (l_records lane_new)) with 0; lia|change (l_bytes lane_new) with 0; lia| | |].
    + apply Forall_singleton. split; [by apply lane_batch_ok|done].
    + rewrite sent_own. simpl. rewrite decide_True by done. by rewrite app_nil_r.
    + change (len (l_writes lane_new)) with 0. lia.
  - eexists _, _. split; [done|]. split_and!; try done; lia.
Qed.

Lemma push_ok b journal token records :
  batcher_wf b -> waiting b <= usize_max -> exists b' out,
    push b journal token records = Done (b', out) /\ pushed_ok b journal token records out b'.
Proof using Hrecords Hbytes.
  intros Hwf Hw. unfold push. rewrite batcher_pending_ok by done. rsimpl. case_decide as Hal.
  { destruct (push_alone_ok b journal token records Hwf) as (b' & out & -> & Hw' & Hok). rsimpl.
    rewrite batcher_pending_ok by lia. rsimpl. rewrite rassert_true by done. by eexists _, _. }
  apply Decidable.not_or in Hal as [Hne Hfit]. apply not_false_iff_true in Hfit.
  unfold fits_alone in Hfit. apply bool_decide_eq_true in Hfit as [Hr Hb].
  pose proof (lane_of_wf _ journal Hwf) as Hlane. pose proof Hwf as [_ HR HB _].
  destruct (make_room_ok _ journal records _ Hlane HR HB Hr Hb) as (lane & out & -> & Hl & Hlr & Hlb & Hout & Hs & Hlw).
  rsimpl. rewrite usize_add_ok by lia. rsimpl. fold (grown lane token records).
  assert (lane_wf (grown lane token records)) as Hg by (apply grown_wf; [done..|lia|lia]).
  rewrite rassert_true by (simpl; unfold len in *; rewrite length_app; lia). rsimpl.
  assert (exists lane' out',
    (if decide (bl_flush_records (bt_limits b) <= len (l_records (grown lane token records))) then
       '(batch, lane') ← lane_take (grown lane token records) journal; mret (lane', out ++ [batch])
     else mret (grown lane token records, out)) = Done (lane', out') /\ lane_wf lane' /\
    len (l_writes lane') <= len (l_writes lane) + 1 /\
    Forall (fun batch => batch_ok batch /\ b_journal batch = journal) out' /\
    sent journal out' ++ chunks (l_writes lane') (l_records lane') = queued b journal ++ [(token, records)])
    as (lane' & out' & -> & Hl' & Hw' & Hout' & Hs').
  { pose proof (grown_chunks lane token records Hl) as Hgc. case_decide.
    - rewrite lane_take_ok by done. rsimpl. eexists _, _. split; [done|].
      split_and!; [apply lane_new_wf|apply N.le_0_l| |].
      + apply Forall_app. split; [done|]. apply Forall_singleton. split; [|done].
        apply lane_batch_ok; [done|]. simpl. by destruct (l_writes lane).
      + rewrite sent_app, sent_own. cbn [b_journal b_writes b_records]. rewrite decide_True by done.
        cbn [lane_new l_writes l_records chunks]. rewrite app_nil_r, Hgc, queued_default, app_assoc. by rewrite Hs.
    - eexists _, _. split; [done|]. split_and!; try done.
      + simpl. unfold len. rewrite length_app. simpl. lia.
      + rewrite Hgc, queued_default, app_assoc. by rewrite Hs. }
  rsimpl. rewrite foldM_checks.
  - rsimpl. eexists _, _. split; [done|]. split_and!.
    + by apply put_lane_wf.
    + pose proof (waiting_put b journal lane'). lia.
    + done.
    + intros j. rewrite queued_put. case_decide as E; [by subst|]. rewrite app_nil_r.
      rewrite (sent_other journal); [done| |done]. eapply Forall_impl; [exact Hout'|]. by intros ? [].
  - intros batch Hin. rewrite Forall_forall in Hout'. destruct (Hout' _ Hin) as [[] ?].
    unfold flushes. rassert_by done. by apply rassert_true.
Qed.

(** The batches of a tick: every lane that holds a write, in journal order. *)
Definition flushed (l : list (J * Lane T)) : list (Batch J T) :=
  (fun e => mkBatch e.1 (l_writes e.2) (l_records e.2)) <$> filter (fun e => l_writes e.2 <> []) l.

Lemma tick_lanes_ok l out :
  Forall (fun e => lane_wf e.2) l -> foldM tick_lane out l = Done (out ++ flushed l).
Proof using Hrecords Hbytes.
  intros Hl. revert out. induction Hl as [|e l He _ IH]; intros out; simpl; [by rewrite app_nil_r|].
  unfold flushed, tick_lane in *. rewrite filter_cons. case_decide as Ew.
  - rewrite decide_False by tauto. apply IH.
  - rewrite decide_True by done. rewrite lane_take_ok by done. rsimpl. rewrite IH. simpl. by rewrite <-app_assoc.
Qed.

Lemma sent_flushed l j :
  NoDup l.*1 -> sent j (flushed l) =
    match (list_to_map l : gmap J (Lane T)) !! j with
    | Some lane => chunks (l_writes lane) (l_records lane)
    | None => []
    end.
Proof.
  induction l as [|[k lane] l IH]; intros Hnd; [done|]. apply NoDup_cons in Hnd as [Hk Hnd].
  assert (sent j (flushed ((k, lane) :: l)) =
          (if decide (k = j) then chunks (l_writes lane) (l_records lane) else []) ++ sent j (flushed l)) as ->.
  { unfold flushed. rewrite filter_cons. simpl. case_decide as Ew.
    - cbn [fmap list_fmap]. unfold sent at 1. rewrite filter_cons. cbn [b_journal fst snd]. case_decide; reflexivity.
    - rewrite Ew. case_decide; reflexivity. }
  rewrite IH by done. simpl. case_decide as E.
  - subst. rewrite lookup_insert_eq. assert (list_to_map l !! j = None) as ->; [|by rewrite app_nil_r].
    by apply not_elem_of_list_to_map_1.
  - by rewrite lookup_insert_ne.
Qed.

Lemma tick_ok b :
  batcher_wf b -> exists b' out, tick b = Done (b', out) /\ batcher_wf b' /\ waiting b' = 0 /\
    Forall batch_ok out /\ forall j, sent j out = queued b j /\ queued b' j = [].
Proof using Hrecords Hbytes.
  intros Hwf. unfold tick.
  assert (Forall (fun e => lane_wf e.2) (bt_entries (bt_lanes b))) as Hl.
  { apply Forall_forall. intros [j lane] Hin%elem_of_bt_entries. by apply (bw_lanes _ Hwf) in Hin. }
  rewrite (tick_lanes_ok _ []) by done. rsimpl.
  assert (Forall batch_ok (flushed (bt_entries (bt_lanes b)))) as Hout.
  { apply Forall_fmap, Forall_forall. intros e [Hne Hin]%list_elem_of_filter.
    rewrite Forall_forall in Hl. by apply lane_batch_ok; [apply Hl|]. }
  change (batcher_pending (mkBatcher (bt_limits b) ∅)) with (Done (A := N) 0). rsimpl.
  rewrite rassert_true by done. rsimpl. rewrite foldM_checks.
  - rsimpl. eexists _, _. split; [done|]. split_and!; [| |done|].
    + destruct Hwf. by constructor; [..|apply map_Forall_empty].
    + done.
    + intros j. split; [|done]. rewrite app_nil_l, sent_flushed by apply NoDup_bt_keys. unfold queued.
      by rewrite <-(list_to_map_flip (bt_lanes b) (bt_entries (bt_lanes b)))
        by (symmetry; apply merge_sort_Permutation).
  - intros batch Hin. rewrite Forall_forall in Hout. apply rassert_true. by apply Hout.
Qed.

Lemma lower_limits_ok b max_records max_bytes :
  batcher_wf b -> exists b', lower_limits b max_records max_bytes = Done b' /\ batcher_wf b' /\
    bt_lanes b' = bt_lanes b.
Proof using Hrecords Hbytes.
  intros [(? & ? & ? & ?) ? ? ?]. unfold lower_limits.
  eexists. split.
  { rassert_by (unfold batch_limits_valid; cbn; lia). rassert_by (cbn; lia). done. }
  split; [|done].
  constructor; cbn [bt_limits bl_max_records bl_max_bytes]; [unfold batch_limits_valid; cbn; lia|lia|lia|done].
Qed.

(** ** Sequences of calls *)

Inductive BatchOp :=
| BPush (journal : J) (token : T) (records : list bytes)
| BTick
| BLower (max_records max_bytes : N).

Definition run_op (st : Batcher J T * list (Batch J T)) (op : BatchOp) : run (Batcher J T * list (Batch J T)) :=
  let '(b, out) := st in
  '(b, new) ← match op with
              | BPush journal token records => push b journal token records
              | BTick => tick b
              | BLower max_records max_bytes => b ← lower_limits b max_records max_bytes; mret (b, [])
              end;
  mret (b, out ++ new).

(** The writes pushed on a journal. *)
Definition pushed j (ops : list BatchOp) : list (T * list bytes) :=
  omap (fun op => match op with
                  | BPush journal token records => if decide (journal = j) then Some (token, records) else None
                  | _ => None
                  end) ops.

Lemma run_op_ok b out op :
  batcher_wf b -> waiting b <= usize_max -> exists b' new, run_op (b, out) op = Done (b', out ++ new) /\
    batcher_wf b' /\ waiting b' <= waiting b + 1 /\ Forall batch_ok new /\
    forall j, sent j new ++ queued b' j = queued b j ++ pushed j [op].
Proof using Hrecords Hbytes.
  intros Hwf Hw. destruct op as [journal token records| |mr mb]; cbn [run_op].
  - destruct (push_ok b journal token records Hwf Hw) as (b' & new & -> & ? & ? & Hout & Hacc). rsimpl.
    eexists _, _. split; [done|]. split_and!; try done.
    + eapply Forall_impl; [exact Hout|]. by intros ? [].
    + intros j. rewrite Hacc. unfold pushed. cbn. by case_decide.
  - destruct (tick_ok b Hwf) as (b' & new & -> & ? & ? & ? & Hacc). rsimpl.
    eexists _, _. split; [done|]. split_and!; try done; [lia|]. intros j. destruct (Hacc j) as [-> ->]. done.
  - destruct (lower_limits_ok b mr mb Hwf) as (b' & -> & ? & El). rsimpl.
    eexists _, []. split; [done|]. unfold waiting, queued. rewrite El. split_and!; try done; [lia|].
    intros j. by rewrite app_nil_r.
Qed.

Lemma run_ops_ok ops b out :
  batcher_wf b -> waiting b + len ops <= usize_max -> exists b' new,
    foldM run_op (b, out) ops = Done (b', out ++ new) /\ batcher_wf b' /\ Forall batch_ok new /\
    forall j, sent j new ++ queued b' j = queued b j ++ pushed j ops.
Proof using Hrecords Hbytes.
  revert b out. induction ops as [|op ops IH]; intros b out Hwf Hw.
  { exists b, []. split; [simpl; by rewrite app_nil_r|]. split_and!; try done. intros j. by rewrite app_nil_r. }
  assert (len (op :: ops) = 1 + len ops) as El by (unfold len; simpl; lia).
  destruct (run_op_ok b out op Hwf ltac:(lia)) as (b1 & new1 & E1 & Hwf1 & Hw1 & Hok1 & Hacc1).
  destruct (IH b1 (out ++ new1) Hwf1 ltac:(lia)) as (b2 & new2 & E2 & Hwf2 & Hok2 & Hacc2).
  exists b2, (new1 ++ new2). cbn [foldM]. rewrite E1. rsimpl. rewrite E2. split; [by rewrite app_assoc|].
  split_and!; [done|by apply Forall_app|]. intros j. rewrite sent_app, <-app_assoc, Hacc2, app_assoc, Hacc1, <-app_assoc.
  f_equal. unfold pushed. change (op :: ops) with ([op] ++ ops). by rewrite omap_app.
Qed.
End correct.

(** C31: over any sequence of pushes, ticks and lowered limits (valid limits of which twice
    the records and the bytes fit the machine word, and no more operations than it counts) no
    assertion of the batcher fires, every batch it sends is sound (its counts cover its records; a
    merged one holds no empty write and stays within the limits), and on every
    journal the writes sent followed by those still waiting are exactly the writes
    pushed, in order: none is lost, repeated, reordered or mixed with another
    journal's. *)
Theorem batcher_conserves {J} `{Ord J, !Countable J} {T} (limits : BatchLimits) (ops : list (BatchOp (J:=J) (T:=T))) :
  batch_limits_valid limits -> 2 * bl_max_records limits <= usize_max -> 2 * bl_max_bytes limits <= usize_max ->
  len ops <= usize_max ->
  exists b out, (b ← batcher_new limits; foldM run_op (b, []) ops) = Done (b, out) /\
    Forall (batch_ok limits) out /\ forall j, sent j out ++ queued b j = pushed j ops.
Proof.
  intros Hv Hr Hb Hlen. unfold batcher_new. rewrite rassert_true by done. rsimpl.
  change (batcher_pending (mkBatcher limits ∅)) with (Done (A := N) 0). rsimpl. rewrite rassert_true by done. rsimpl.
  assert (batcher_wf limits (mkBatcher (J:=J) (T:=T) limits ∅)) as Hwf by (constructor; simpl; done || apply map_Forall_empty).
  destruct (run_ops_ok limits Hr Hb ops _ [] Hwf) as (b & out & E & _ & Hok & Hacc); [done|]. by exists b, out.
Qed.

(** ** The merged write *)

(** A batch's writes applied one by one, with the range each is accepted at. *)
Fixpoint apply_each {T} (q : Seq) (s : JournalState) (writes : list (T * list bytes))
  : run (JournalState * list (T * N * N)) :=
  match writes with
  | [] => mret (s, [])
  | (token, records) :: rest =>
      '(s, outcome) ← apply s Multi (Write (mkEntry 0 q records)) (fun _ => None);
      match outcome with
      | OAccepted seq n => '(s, out) ← apply_each q s rest; mret (s, (token, seq, n) :: out)
      | _ => Panic "refused"
      end
  end.

(** The ranges of consecutive writes. *)
Fixpoint ranges {T} (seq : N) (writes : list (T * N)) : list (T * N * N) :=
  match writes with
  | [] => []
  | (token, n) :: rest => (token, seq, n) :: ranges (seq + n) rest
  end.

Lemma multi_write_ok s q records accepted_at :
  journal_wf Multi s -> records <> [] -> j_next_seq s + len records <= u64_max ->
  apply s Multi (Write (mkEntry 0 q records)) accepted_at =
    Done (set_next_seq s (j_next_seq s + len records), OAccepted (j_next_seq s) (len records)) /\
  journal_wf Multi (set_next_seq s (j_next_seq s + len records)).
Proof.
  intros Hwf Hne Hfit. change (apply s Multi ?c accepted_at) with (apply s Multi c (fun _ => None)).
  assert (journal_spec s Multi (Write (mkEntry 0 q records)) (fun _ => None) =
          (set_next_seq s (j_next_seq s + len records), OAccepted (j_next_seq s) (len records))) as Es.
  { simpl. unfold write_multi. by rewrite decide_False. }
  pose proof Hwf as (H1 & H2 & H3 & H4). split.
  - rewrite apply_ok, Es; [done|done| | |].
    + intros ? ? ?. done.
    + split; [lia|]. unfold count. simpl. lia.
    + rewrite H4 in H2 by done. destruct (decide (0 < j_term s)) as [Ht|]; [|lia].
      apply H2 in Ht. by destruct Ht.
  - unfold set_next_seq. split_and!; simpl; try done. lia.
Qed.

Lemma scatter_ranges {T} (writes : list (T * N)) seq out :
  seq + Nsum writes.*2 <= u64_max ->
  foldM scatter_one (seq, out) writes = Done (seq + Nsum writes.*2, out ++ ranges seq writes).
Proof.
  revert seq out. induction writes as [|[t n] writes IH]; intros seq out Hl.
  { simpl. by rewrite app_nil_r, N.add_0_r. }
  change (Nsum ((t, n) :: writes).*2) with (n + Nsum writes.*2) in *. cbn [foldM ranges scatter_one].
  rewrite u64_add_ok by lia. rsimpl. rewrite IH by lia. by rewrite <-app_assoc, N.add_assoc.
Qed.

Lemma ranges_length {T} (writes : list (T * N)) seq : len (ranges seq writes) = len writes.
Proof.
  unfold len. f_equal. revert seq. induction writes as [|[t n] w IH]; intros; simpl; [done|]. by rewrite IH.
Qed.

Lemma scatter_ok {T} (writes : list (T * N)) seq count :
  Nsum writes.*2 = count -> seq + count <= u64_max -> scatter writes seq count = Done (ranges seq writes).
Proof.
  intros <- Hfit. unfold scatter. rewrite u64_sum_ok by lia.
  rsimpl. rassert_by done. rewrite scatter_ranges by done. rsimpl. rewrite u64_add_ok by done. rsimpl.
  rassert_by done. rassert_by (by rewrite app_nil_l, ranges_length). done.
Qed.

Lemma apply_each_ok {T} q (writes : list (T * list bytes)) s :
  journal_wf Multi s -> Forall (fun w => w.2 <> []) writes ->
  j_next_seq s + Nsum ((fun w => len w.2) <$> writes) <= u64_max ->
  apply_each q s writes =
    Done (set_next_seq s (j_next_seq s + Nsum ((fun w => len w.2) <$> writes)),
          ranges (j_next_seq s) ((fun w => (w.1, len w.2)) <$> writes)).
Proof.
  intros Hwf Hne. revert s Hwf. induction Hne as [|[t r] writes Hr _ IH]; intros s Hwf Hfit.
  { simpl. unfold mret, run_ret. f_equal. f_equal. destruct s. unfold set_next_seq. simpl.
    change (Nsum _) with 0. f_equal. lia. }
  change (Nsum ((fun w : T * list bytes => len w.2) <$> (t, r) :: writes)) with
    (len r + Nsum ((fun w : T * list bytes => len w.2) <$> writes)) in *. cbn [snd] in Hr.
  destruct (multi_write_ok s q r (fun _ => None) Hwf Hr ltac:(lia)) as [E Hwf'].
  cbn [apply_each]. rewrite E. rsimpl. rewrite IH by (done || (simpl; lia)). rsimpl.
  unfold mret, run_ret, set_next_seq. simpl. by rewrite N.add_assoc.
Qed.

(** C30: a merged write is transparent.  A multi-writer journal accepts the merged
    write of a sound batch whole; the state it moves to, and the range the
    unbatcher hands each write, are those of the batch's writes applied one by
    one, in order. *)
Theorem batch_transparent {J T} (top : BatchLimits) (batch : Batch J T) s q accepted_at :
  batch_ok top batch -> nonempty (b_writes batch) -> journal_wf Multi s ->
  j_next_seq s + len (b_records batch) <= u64_max ->
  exists s' out,
    apply s Multi (Write (mkEntry 0 q (b_records batch))) accepted_at =
      Done (s', OAccepted (j_next_seq s) (len (b_records batch))) /\
    scatter (b_writes batch) (j_next_seq s) (len (b_records batch)) = Done out /\
    apply_each q s (chunks (b_writes batch) (b_records batch)) = Done (s', out).
Proof.
  intros [Hsome Hcov _] Hne Hwf Hfit. destruct (chunks_spec _ _ Hcov) as [Ew Er].
  assert (Nsum ((fun w : T * list bytes => len w.2) <$> chunks (b_writes batch) (b_records batch)) =
          len (b_records batch)) as Hsum.
  { rewrite <-Hcov. rewrite Ew at 2. f_equal. by rewrite <-list_fmap_compose. }
  assert (b_records batch <> []) as Hrec.
  { intros E. unfold counts_cover in Hcov. rewrite E in Hcov. destruct (b_writes batch) as [|[t n] ws]; [done|].
    apply Forall_cons in Hne as [Hn _]. simpl in *. unfold len in Hcov. simpl in Hcov. lia. }
  eexists _, _. split_and!.
  - by apply multi_write_ok.
  - by apply scatter_ok.
  - rewrite apply_each_ok, Hsum; [by rewrite <-Ew|done| |by rewrite Hsum].
    apply Forall_forall. intros [t r] Hin Hr. simpl in Hr. subst r. unfold nonempty in Hne. rewrite Ew, Forall_forall in Hne.
    assert ((t, 0) ∈ (fun c : T * list bytes => (c.1, len c.2)) <$> chunks (b_writes batch) (b_records batch)) as Hz.
    { apply list_elem_of_fmap. by exists (t, []). }
    apply Hne in Hz. simpl in Hz. lia.
Qed.

Definition sample_ops : list (BatchOp (J:=N) (T:=N)) :=
  [BPush 1 10 [[7]]; BPush 2 11 [[1]; [2]]; BPush 1 12 [[8]; [9]]; BPush 1 13 []; BLower 2 50; BPush 1 14 [[5]]; BTick].

Lemma batcher_conserves_witness :
  exists b out, (b ← batcher_new (mkLimits 4 100 3); foldM run_op (b, []) sample_ops) = Done (b, out) /\
    Forall (batch_ok (mkLimits 4 100 3)) out /\ forall j, sent j out ++ queued b j = pushed j sample_ops.
Proof.
  apply (batcher_conserves (mkLimits 4 100 3) sample_ops); apply (bool_decide_unpack _); vm_compute; exact I.
Defined.

Lemma batch_transparent_witness :
  exists s' out,
    apply journal_default Multi (Write (mkEntry 0 0 [[7]; [8]; [9]])) (fun _ => None) = Done (s', OAccepted 0 3) /\
    scatter [(10, 1); (11, 2)] 0 3 = Done out /\
    apply_each 0 journal_default (chunks [(10, 1); (11, 2)] [[7]; [8]; [9]]) = Done (s', out).
Proof.
  apply (batch_transparent (mkLimits 4 100 3) (mkBatch 1 [(10, 1); (11, 2)] [[7]; [8]; [9]]) journal_default 0 (fun _ => None)).
  - split; [done|done|]. intros _. split_and!; [repeat constructor|vm_compute; discriminate..].
  - repeat constructor.
  - split_and!; try done. split; [by intros []|done].
  - vm_compute. discriminate.
Defined.
