(* ===== verification/MatchmakerSet.v ===== *)
(** * Matchmaker sets ([membership/matchmaker_set.rs])

    A matchmaker set is a sorted membership bound to a generation.  Every
    matchmaker-side quorum is a majority of one; [set_wf] is what the only
    constructor establishes, and under it each question returns its reference
    answer and two quorums of one set meet. *)

From S2P Require Import Prelude BTree Types QuorumSystem AcceptorConfig.

Abbreviation MatchmakerId := N (only parsing).
Abbreviation MatchmakerGeneration := N (only parsing).

(** [MatchmakerGeneration::next]. *)
Definition generation_next (g : MatchmakerGeneration) : run MatchmakerGeneration :=
  let next := u64_saturating_add g 1 in
  rassert (g <= next) "a generation never moves back";;
  (if decide (g < u64_max) then
     rassert (g < next) "a successor generation is strictly newer" else mret tt);;
  mret next.

Record MatchmakerSet := mkSet {
  ms_generation : MatchmakerGeneration;
  ms_members : list MatchmakerId }.

#[export] Instance MatchmakerSet_eq_dec : EqDecision MatchmakerSet.
Proof. solve_decision. Defined.

Implicit Types (s : MatchmakerSet) (voters : gset MatchmakerId).

Definition set_is_well_formed s : run bool :=
  let n := len (ms_members s) in
  if decide (n = 0) then mret false else
  cross ← cross_intersects Majority n;
  mret (cross && bool_decide (sorted_members (ms_members s))).

Definition set_quorum_size s : run N :=
  quorum ← majority_of (len (ms_members s));
  doubled ← usize_mul quorum 2;
  rassert (len (ms_members s) < doubled) "a matchmaker quorum is a majority";;
  mret quorum.

(** [MatchmakerSet::new]. *)
Definition set_new (generation : MatchmakerGeneration) (members : list MatchmakerId) : run MatchmakerSet :=
  let members := normalize members in
  rassert (members <> []) "a matchmaker set names at least one matchmaker";;
  let set := mkSet generation members in
  ok ← set_is_well_formed set;
  rassert (ok = true) "a matchmaker set admits the matchmaker quorum system";;
  quorum ← set_quorum_size set;
  rassert (quorum <= len (ms_members set)) "a matchmaker quorum fits the set";;
  mret set.

Definition set_members s : run (list MatchmakerId) :=
  rassert (ms_members s <> []) "a matchmaker set names a matchmaker";;
  mret (ms_members s).

Definition set_has_quorum s voters : run bool :=
  quorum ← is_majority (ms_members s) voters;
  (if quorum : bool then
     count ← counted (ms_members s) voters;
     size ← set_quorum_size s;
     rassert (size <= count) "a matchmaker quorum is a majority of members"
   else mret tt);;
  mret quorum.

Definition set_remaining s voters : run N :=
  size ← set_quorum_size s;
  let remaining := size - ssize voters in
  held ← set_has_quorum s voters;
  (if held : bool then rassert (remaining = 0) "a held quorum waits for nothing more" else mret tt);;
  size ← set_quorum_size s;
  rassert (remaining <= size) "a tally never owes more than a quorum";;
  mret remaining.

Definition set_unanswered s voters : list MatchmakerId :=
  filter (fun mm => mm ∉ voters) (ms_members s).

Definition set_contains s (id : MatchmakerId) : run bool :=
  let member := bool_decide (is_Some (position (ms_members s) id)) in
  rassert (sorted_members (ms_members s)) "a matchmaker set is sorted and deduplicated";;
  mret member.

(** ** The invariant and the operations under it *)

(** What [set_new] establishes; the last part is the width of the code's own
    doubling of the quorum size. *)
Record set_wf s : Prop := {
  swf_sorted : sorted_members (ms_members s);
  swf_nonempty : ms_members s <> [];
  swf_width : len (ms_members s) + 2 <= usize_max }.

Lemma set_wf_alt s :
  sorted_members (ms_members s) /\ ms_members s <> [] /\ len (ms_members s) + 2 <= usize_max <-> set_wf s.
Proof. split; [intros (? & ? & ?); by constructor|by intros []]. Qed.

#[export] Instance set_wf_dec s : Decision (set_wf s).
Proof.
  destruct (decide (sorted_members (ms_members s) /\ ms_members s <> [] /\
                    len (ms_members s) + 2 <= usize_max)) as [Hs|Hs];
    [left|right]; by rewrite <-set_wf_alt.
Defined.

Definition set_majority s voters : Prop := len (ms_members s) / 2 + 1 <= votes_in (ms_members s) voters.

#[export] Instance set_majority_dec s voters : Decision (set_majority s voters).
Proof. unfold set_majority. apply _. Defined.

Lemma generation_next_ok g : g < u64_max -> generation_next g = Done (g + 1).
Proof.
  intros Hg. unfold generation_next, u64_saturating_add.
  replace (N.min (g + 1) u64_max) with (g + 1) by lia.
  rassert_by lia. rewrite decide_True by done. by rassert_by lia.
Qed.

(** At the last generation the successor saturates. *)
Lemma generation_next_total g : g <= u64_max -> generation_next g = Done (N.min (g + 1) u64_max).
Proof.
  intros Hg. destruct (decide (g < u64_max)).
  - rewrite generation_next_ok by done. f_equal. lia.
  - unfold generation_next, u64_saturating_add. rassert_by lia. by rewrite decide_False.
Qed.

Lemma len_pos {A} (l : list A) : l <> [] -> 1 <= len l.
Proof. unfold len. destruct l; simpl; [done|lia]. Qed.

Section wf.
Context (s : MatchmakerSet) (Hwf : set_wf s).

Lemma set_width : len (ms_members s) < usize_max.
Proof using Hwf. pose proof (swf_width s Hwf). lia. Qed.

Lemma set_is_well_formed_ok : set_is_well_formed s = Done true.
Proof using Hwf.
  pose proof (len_pos _ (swf_nonempty s Hwf)). unfold set_is_well_formed.
  rewrite decide_False by lia. rewrite cross_intersects_ok by (done || apply set_width). rsimpl.
  cbn [andb]. by rewrite bool_decide_eq_true_2 by apply Hwf.
Qed.

Lemma set_quorum_size_ok : set_quorum_size s = Done (len (ms_members s) / 2 + 1).
Proof using Hwf.
  pose proof (swf_width s Hwf). pose proof (half_spec (len (ms_members s))).
  unfold set_quorum_size. rewrite majority_of_ok by apply set_width. rsimpl.
  unfold usize_mul. rewrite decide_True by lia. rsimpl. by rassert_by lia.
Qed.

Lemma set_members_ok : set_members s = Done (ms_members s).
Proof using Hwf. unfold set_members. by rassert_by apply Hwf. Qed.

Lemma set_has_quorum_ok voters : set_has_quorum s voters = Done (bool_decide (set_majority s voters)).
Proof using Hwf.
  unfold set_has_quorum. rewrite is_majority_ok by (apply Hwf || apply set_width). rsimpl.
  rewrite (bool_decide_ext _ (set_majority s voters)) by done. case_bool_decide as Hm; [|done].
  rewrite counted_ok by apply Hwf. rsimpl. rewrite set_quorum_size_ok. rsimpl. by rassert_by done.
Qed.

Lemma set_contains_ok id : set_contains s id = Done (bool_decide (id ∈ ms_members s)).
Proof using Hwf.
  unfold set_contains. rassert_by apply Hwf. f_equal. apply bool_decide_ext, position_Some.
Qed.

Lemma votes_in_le_ssize voters : votes_in (ms_members s) voters <= ssize voters.
Proof using Hwf.
  pose proof (members_NoDup _ (swf_sorted s Hwf)) as Hnd. unfold votes_in, ssize, len.
  rewrite <-(size_list_to_set (C := gset N)) by by apply NoDup_filter.
  assert (size (list_to_set (filter (fun m => m ∈ voters) (ms_members s)) : gset N) <= size voters)%nat;
    [|lia].
  apply subseteq_size. intros m. rewrite elem_of_list_to_set, list_elem_of_filter. naive_solver.
Qed.

Lemma set_remaining_ok voters : set_remaining s voters = Done (len (ms_members s) / 2 + 1 - ssize voters).
Proof using Hwf.
  unfold set_remaining. rewrite set_quorum_size_ok. rsimpl. rewrite set_has_quorum_ok. rsimpl.
  eapply bind_seq; [|cbv beta; rsimpl; by rassert_by apply N.le_sub_l].
  case_bool_decide as Hm; [|done]. unfold set_majority in Hm.
  pose proof (votes_in_le_ssize voters). apply rassert_true. lia.
Qed.

(** Two majorities of one set share a member. *)
Lemma set_majorities_meet v1 v2 :
  set_majority s v1 -> set_majority s v2 -> exists m, m ∈ ms_members s /\ m ∈ v1 /\ m ∈ v2.
Proof using Hwf.
  unfold set_majority. intros H1 H2.
  apply (holds_intersect Majority (ms_members s) v1 v2 None None); try done.
  apply len_pos, Hwf.
Qed.

Lemma set_majority_nonempty voters : set_majority s voters -> voters <> ∅.
Proof using.
  intros Hm ->. unfold set_majority in Hm. rewrite votes_in_empty in Hm.
  pose proof (N.le_0_l (len (ms_members s) / 2)). lia.
Qed.
End wf.

Lemma votes_in_mono (l : list N) v1 v2 : v1 ⊆ v2 -> votes_in l v1 <= votes_in l v2.
Proof.
  intros Hsub. unfold votes_in, len. induction l as [|x l IH]; [done|].
  rewrite !filter_cons. repeat case_decide; cbn [length]; try lia. set_solver.
Qed.

Lemma set_majority_mono s v1 v2 : v1 ⊆ v2 -> set_majority s v1 -> set_majority s v2.
Proof. intros Hsub Hm. unfold set_majority in *. etrans; [exact Hm|by apply votes_in_mono]. Qed.

(** The constructor returns a well-formed set, exactly of the given members. *)
Lemma set_new_ok g members :
  members <> [] -> len (normalize members) + 2 <= usize_max ->
  set_new g members = Done (mkSet g (normalize members)) /\ set_wf (mkSet g (normalize members)).
Proof.
  intros Hne Hw. assert (normalize members <> []) as Hn.
  { destruct members as [|x l]; [done|]. intros E.
    assert (x ∈ normalize (x :: l)) as Hx by (apply elem_of_normalize; left). rewrite E in Hx. by inversion Hx. }
  assert (set_wf (mkSet g (normalize members))) as Hwf by (constructor; simpl; [apply normalize_sorted|done..]).
  split; [|done]. unfold set_new. rassert_by done. rewrite set_is_well_formed_ok by done. rsimpl.
  rassert_by done. rewrite set_quorum_size_ok by done. rsimpl. rassert_by idtac; [|done].
  simpl. pose proof (len_pos _ Hn). pose proof (half_spec (len (normalize members))). lia.
Qed.

(** A well-formed membership is its own normal form. *)
Lemma normalize_id (l : list N) : sorted_members l -> normalize l = l.
Proof.
  intros Hs. assert (StronglySorted ord_lt l) as Hss by by apply members_strongly_sorted.
  assert (merge_sort ord_le l = l) as E.
  { apply (StronglySorted_unique ord_le); [apply StronglySorted_merge_sort; apply _| |apply merge_sort_Permutation].
    clear Hs. induction Hss as [|x l ? IH Hall]; constructor; [done|].
    eapply Forall_impl; [done|]. intros y. apply ord_lt_le. }
  unfold normalize. rewrite E. clear E.
  clear Hs. induction Hss as [|x l Hs IH Hall]; simpl; [done|]. rewrite IH.
  destruct l as [|y l]; [done|]. rewrite bool_decide_eq_false_2; [done|].
  apply Forall_cons in Hall as [Hxy _]. by apply ord_lt_ne.
Qed.
