(* ===== verification/MatchmakerState.v ===== *)
(** * What a matchmaker stores and says ([matchmaker/state.rs], [matchmaker/message.rs])

    The durable state of a matchmaker (its generation phase, the decree record,
    pending bootstraps, every journal's scalars), the ledger record a
    registration writes, and the messages of the three protocols it serves. *)

From S2P Require Import Prelude BTree Types Retained Contract QuorumSystem AcceptorConfig Acceptor Decree MatchmakerSet.

Abbreviation JournalId := N (only parsing).
Abbreviation Config := (AcceptorConfig NodeId) (only parsing).

(** ** Registrations *)

Inductive RegistrationKind := Belief | Reconfiguration.

Definition is_reconfiguration (kind : RegistrationKind) : bool :=
  match kind with Reconfiguration => true | Belief => false end.

Record Registration := mkReg { rg_config : Config; rg_kind : RegistrationKind }.

#[export] Instance RegistrationKind_eq_dec : EqDecision RegistrationKind.
Proof. solve_decision. Defined.
#[export] Instance Registration_eq_dec : EqDecision Registration.
Proof. solve_decision. Defined.

(** [Registration::belief] and [Registration::reconfiguration]. *)
Definition registration_belief (config : Config) : run Registration :=
  let registration := mkReg config Belief in
  rassert (is_reconfiguration (rg_kind registration) = false) "a belief is no reconfiguration";;
  mret registration.
Definition registration_reconfiguration (config : Config) : run Registration :=
  let registration := mkReg config Reconfiguration in
  rassert (is_reconfiguration (rg_kind registration) = true) "a reconfiguration is flagged";;
  mret registration.

(** ** The durable state *)

Record JournalRegistry := mkRegistry {
  jr_watermark : Ballot;
  jr_history : gmap Ballot Registration;
  jr_effective : option (Ballot * Config) }.

#[export] Instance JournalRegistry_eq_dec : EqDecision JournalRegistry.
Proof. solve_decision. Defined.

(** [JournalRegistry::is_blank]. *)
Definition registry_is_blank (r : JournalRegistry) : bool :=
  bool_decide (jr_watermark r = zero /\ jr_history r = ∅ /\ jr_effective r = None).

Record PendingBootstrap := mkBootstrap {
  bo_set : MatchmakerSet;
  bo_registries : gmap JournalId JournalRegistry;
  bo_complete : bool }.

#[export] Instance PendingBootstrap_eq_dec : EqDecision PendingBootstrap.
Proof. solve_decision. Defined.

(** [PendingBootstrap::held]. *)
Definition bootstrap_held (b : PendingBootstrap) : option JournalId := last_key_of (bo_registries b).

Record BootstrapPage := mkBootstrapPage {
  bp_set : MatchmakerSet;
  bp_after : option JournalId;
  bp_registries : gmap JournalId JournalRegistry;
  bp_last : bool }.

(** Strictly above a cursor: [after.is_none_or(|after| journal > after)]. *)
Definition above_cursor (after : option JournalId) (journal : JournalId) : Prop :=
  is_none_or (fun after => after < journal) after.

#[export] Instance above_cursor_dec after journal : Decision (above_cursor after journal).
Proof. unfold above_cursor. apply _. Defined.

(** [BootstrapPage::is_well_formed]. *)
Definition page_is_well_formed (p : BootstrapPage) : bool :=
  bool_decide (msize (bp_registries p) <= REGISTRY_PAGE) &&
  bool_decide (Forall (above_cursor (bp_after p)) (bt_keys (bp_registries p))) &&
  forallb (fun e => negb (registry_is_blank e.2)) (bt_entries (bp_registries p)) &&
  (bp_last p || negb (bool_decide (bp_registries p = ∅))).

(** [PendingBootstrap::page]. *)
Definition bootstrap_page (b : PendingBootstrap) (after : option JournalId) (page : N) : run BootstrapPage :=
  rassert (0 < page) "a bootstrap page carries a journal";;
  rassert (page <= REGISTRY_PAGE) "a bootstrap page never exceeds its ceiling";;
  rassert (bo_complete b = true) "only a whole reconstruction is paged out";;
  let above := filter (fun e => above_cursor after e.1) (bt_entries (bo_registries b)) in
  let registries : gmap JournalId JournalRegistry := list_to_map (take (N.to_nat page) above) in
  let last := bool_decide (len above <= page) in
  let cut := mkBootstrapPage (bo_set b) after registries last in
  rassert (bp_last cut = true \/ msize (bp_registries cut) = page) "a cut page is full";;
  rassert (page_is_well_formed cut = true) "a page of a reconstruction is well formed";;
  mret cut.

Inductive MatchmakerPhase := Fresh | Inactive | Active | Stopped.

#[export] Instance MatchmakerPhase_eq_dec : EqDecision MatchmakerPhase.
Proof. solve_decision. Defined.

Record JournalScalars := mkScalars {
  js_watermark : Ballot;
  js_effective : option (Ballot * Config) }.

#[export] Instance JournalScalars_eq_dec : EqDecision JournalScalars.
Proof. solve_decision. Defined.

(** [JournalScalars::default]. *)
Definition scalars_default : JournalScalars := mkScalars zero None.

(** The decree record of a matchmaker: the acceptor half's promise and vote. *)
Abbreviation SetRecord := (DecreeRecord (list MatchmakerId)) (only parsing).

#[export] Instance SetRecord_eq_dec : EqDecision SetRecord.
Proof. solve_decision. Defined.

(** [DecreeRecord::default]. *)
Definition record_default : SetRecord := mkRecord zero None.

Record MatchmakerHardState := mkHardState {
  mh_generation : MatchmakerGeneration;
  mh_members : list MatchmakerId;
  mh_phase : MatchmakerPhase;
  mh_successor : option MatchmakerSet;
  mh_decree : SetRecord;
  mh_pending : list PendingBootstrap;
  mh_journals : gmap JournalId JournalScalars }.

#[export] Instance MatchmakerHardState_eq_dec : EqDecision MatchmakerHardState.
Proof. solve_decision. Defined.

(** [MatchmakerHardState::default]. *)
Definition hard_default : MatchmakerHardState := mkHardState 0 [] Fresh None record_default [] ∅.

Definition hard_watermark (h : MatchmakerHardState) (journal : JournalId) : Ballot :=
  match mh_journals h !! journal with Some scalars => js_watermark scalars | None => zero end.

Definition hard_effective (h : MatchmakerHardState) (journal : JournalId) : option (Ballot * Config) :=
  mh_journals h !! journal ≫= js_effective.

(** [entry(journal).or_default()]. *)
Definition scalars_of (journals : gmap JournalId JournalScalars) (journal : JournalId) : JournalScalars :=
  default scalars_default (journals !! journal).

(** [journal_mut(journal)], written through. *)
Definition journal_mut (h : MatchmakerHardState) (journal : JournalId) (f : JournalScalars -> JournalScalars)
  : MatchmakerHardState :=
  mkHardState (mh_generation h) (mh_members h) (mh_phase h) (mh_successor h) (mh_decree h) (mh_pending h)
    (<[journal := f (scalars_of (mh_journals h) journal)]> (mh_journals h)).

Definition resolved_set (scalars : MatchmakerHardState) (bootstrap : list MatchmakerId) : run MatchmakerSet :=
  set ← (if decide (mh_generation scalars = 0 /\ mh_members scalars = []) then set_new 0 bootstrap
         else set_new (mh_generation scalars) (mh_members scalars));
  rassert (ms_generation set = mh_generation scalars) "the resolved set is the durable generation";;
  members ← set_members set;
  rassert (members <> []) "a resolved set names a matchmaker";;
  mret set.

Definition resolved_phase (scalars : MatchmakerHardState) (id : MatchmakerId) (bootstrap : list MatchmakerId)
  : run MatchmakerPhase :=
  let phase := match mh_phase scalars with
               | Fresh => if decide (is_Some (position bootstrap id)) then Active else Inactive
               | phase => phase
               end in
  rassert (phase <> Fresh) "a resolved phase is never fresh";;
  (if decide (mh_phase scalars <> Fresh) then
     rassert (phase = mh_phase scalars) "a durable phase resolves to itself" else mret tt);;
  mret phase.

Definition raise_effective (held : option (Ballot * Config)) (ballot : Ballot) (config : Config)
  : run (option (Ballot * Config) * bool) :=
  let '(held, raised) := if decide (is_none_or (fun h : Ballot * Config => h.1 < ballot)%B held)
                         then (Some (ballot, config), true) else (held, false) in
  rassert (is_some_and (fun h : Ballot * Config => ballot ≤ h.1)%B held)
    "the effective configuration covers every ballot offered";;
  (if raised : bool then
     rassert (is_some_and (fun h : Ballot * Config => h.2 = config) held)
       "a raised effective configuration is the one offered" else mret tt);;
  mret (held, raised).

(** ** Messages *)

Inductive MatchPurpose := PRegister (kind : RegistrationKind) | PProbe.

#[export] Instance MatchPurpose_eq_dec : EqDecision MatchPurpose.
Proof. solve_decision. Defined.

Definition purpose_is_reconfiguration (p : MatchPurpose) : bool :=
  match p with PRegister kind => is_reconfiguration kind | PProbe => false end.
Definition purpose_is_probe (p : MatchPurpose) : bool :=
  match p with PProbe => true | PRegister _ => false end.

Record MatchRequest := mkRequest {
  rq_from : NodeId;
  rq_journal : JournalId;
  rq_ballot : Ballot;
  rq_config : Config;
  rq_purpose : MatchPurpose;
  rq_generation : MatchmakerGeneration;
  rq_from_ballot : option Ballot }.

(** [MatchRequest::new], [reconfigure], [for_kind], [probe] and [from_page]. *)
Definition request_new (journal : JournalId) (from : NodeId) (ballot : Ballot) (config : Config)
  (generation : MatchmakerGeneration) : run MatchRequest :=
  let request := mkRequest from journal ballot config (PRegister Belief) generation None in
  rassert (purpose_is_reconfiguration (rq_purpose request) = false) "a belief is no reconfiguration";;
  rassert (rq_from_ballot request = None) "a fresh request starts at the watermark";;
  mret request.
Definition request_reconfigure (journal : JournalId) (from : NodeId) (ballot : Ballot) (config : Config)
  (generation : MatchmakerGeneration) : run MatchRequest :=
  let request := mkRequest from journal ballot config (PRegister Reconfiguration) generation None in
  rassert (purpose_is_reconfiguration (rq_purpose request) = true) "a reconfiguration is flagged";;
  rassert (rq_from_ballot request = None) "a fresh request starts at the watermark";;
  mret request.
Definition request_for_kind (kind : RegistrationKind) (journal : JournalId) (from : NodeId) (ballot : Ballot)
  (config : Config) (generation : MatchmakerGeneration) : run MatchRequest :=
  request ← match kind with
            | Belief => request_new journal from ballot config generation
            | Reconfiguration => request_reconfigure journal from ballot config generation
            end;
  rassert (rq_purpose request = PRegister kind) "a request registers its kind";;
  mret request.
Definition request_probe (journal : JournalId) (from : NodeId) (ballot : Ballot) (believed : Config)
  (generation : MatchmakerGeneration) : run MatchRequest :=
  let request := mkRequest from journal ballot believed PProbe generation None in
  rassert (purpose_is_probe (rq_purpose request) = true) "a probe registers nothing";;
  mret request.
Definition request_from_page (r : MatchRequest) (from : Ballot) : MatchRequest :=
  mkRequest (rq_from r) (rq_journal r) (rq_ballot r) (rq_config r) (rq_purpose r) (rq_generation r) (Some from).

Inductive MatchRefusal :=
| Stale (highest : Ballot)
| BelowWatermark (watermark : Ballot)
| RStopped (successor : option MatchmakerSet)
| RGeneration (current : MatchmakerSet)
| RInactive.

(** The page a registration is answered with: the fields of
    [MatchOutcome::Registered], and [RegisteredPage] of the candidate. *)
Record RegisteredPage := mkPage {
  pg_from : Ballot;
  pg_history : gmap Ballot Registration;
  pg_next : option Ballot;
  pg_watermark : Ballot;
  pg_effective : option (Ballot * Config) }.

Inductive MatchOutcome :=
| Registered (page : RegisteredPage)
| Probed (effective : option (Ballot * Config))
| MRefused (refusal : MatchRefusal).

Record MatchReply := mkReply {
  rp_matchmaker : MatchmakerId;
  rp_journal : JournalId;
  rp_to : NodeId;
  rp_ballot : Ballot;
  rp_generation : MatchmakerGeneration;
  rp_outcome : MatchOutcome }.

Record GcRequest := mkGcRequest {
  gq_from : NodeId;
  gq_journal : JournalId;
  gq_generation : MatchmakerGeneration;
  gq_watermark : Ballot }.

Record GcAck := mkGcAck {
  ga_matchmaker : MatchmakerId;
  ga_journal : JournalId;
  ga_generation : MatchmakerGeneration;
  ga_applied : bool;
  ga_watermark : Ballot;
  ga_newer : option MatchmakerSet;
  ga_stopped : bool }.

Inductive ReconfigureRequest :=
| QStop (from : NodeId) (generation : MatchmakerGeneration) (after : option JournalId)
| QBootstrap (from : NodeId) (bootstrap : BootstrapPage)
| QDecreePrepare (from : NodeId) (generation : MatchmakerGeneration) (ballot : Ballot)
| QDecreeAccept (from : NodeId) (generation : MatchmakerGeneration) (ballot : Ballot)
    (members : list MatchmakerId)
| QChosen (from : NodeId) (generation : MatchmakerGeneration) (successor : MatchmakerSet).

Inductive ReconfigureReply :=
| YStopped (matchmaker : MatchmakerId) (generation : MatchmakerGeneration) (after next : option JournalId)
    (registries : gmap JournalId JournalRegistry) (successor : option MatchmakerSet) (decree_promised : Ballot)
| YBootstrapped (matchmaker : MatchmakerId) (set : MatchmakerSet) (held : option JournalId) (complete : bool)
| YPromised (matchmaker : MatchmakerId) (generation : MatchmakerGeneration) (ballot : Ballot)
    (vote : option (Ballot * list MatchmakerId))
| YAccepted (matchmaker : MatchmakerId) (generation : MatchmakerGeneration) (ballot : Ballot)
| YNacked (matchmaker : MatchmakerId) (generation : MatchmakerGeneration) (ballot promised : Ballot)
| YLearned (matchmaker : MatchmakerId) (generation : MatchmakerGeneration) (activated : bool)
    (at_ : MatchmakerGeneration)
| YRefused (matchmaker : MatchmakerId) (current : MatchmakerSet) (phase : MatchmakerPhase)
    (successor : option MatchmakerSet).

Definition request_from (r : ReconfigureRequest) : NodeId :=
  match r with
  | QStop from _ _ | QBootstrap from _ | QDecreePrepare from _ _ | QDecreeAccept from _ _ _
  | QChosen from _ _ => from
  end.

Definition reply_matchmaker (r : ReconfigureReply) : MatchmakerId :=
  match r with
  | YStopped m _ _ _ _ _ _ | YBootstrapped m _ _ _ | YPromised m _ _ _ | YAccepted m _ _
  | YNacked m _ _ _ | YLearned m _ _ _ | YRefused m _ _ _ => m
  end.

(** [MatchmakerWriteOp] ([matchmaker/ready.rs]). *)
Inductive MatchmakerWriteOp :=
| MRegister (journal : JournalId) (ballot : Ballot) (registration : Registration)
| MSetGcWatermark (journal : JournalId) (watermark : Ballot)
| MSetScalars (scalars : MatchmakerHardState)
| MInstallRegistry (scalars : MatchmakerHardState) (registrations : gmap JournalId (gmap Ballot Registration)).

#[export] Instance MatchmakerWriteOp_eq_dec : EqDecision MatchmakerWriteOp.
Proof. solve_decision. Defined.

(** ** Facts *)

Lemma raise_effective_ok held ballot config :
  raise_effective held ballot config =
    Done (if decide (is_none_or (fun h : Ballot * Config => h.1 < ballot)%B held)
          then (Some (ballot, config), true) else (held, false)).
Proof.
  unfold raise_effective. case_decide as Hd.
  - rassert_by (simpl; reflexivity). by rassert_by done.
  - destruct held as [[b c]|]; simpl in *; [|done]. rassert_by by apply dec_stable in Hd. done.
Qed.

(** The higher of two effective configurations; a tie keeps the held one. *)
Definition max_effective (held theirs : option (Ballot * Config)) : option (Ballot * Config) :=
  match theirs with
  | Some (b, c) => if decide (is_none_or (fun h : Ballot * Config => h.1 < b)%B held) then Some (b, c) else held
  | None => held
  end.

Lemma raise_effective_max held ballot config :
  exists raised, raise_effective held ballot config = Done (max_effective held (Some (ballot, config)), raised).
Proof. rewrite raise_effective_ok. simpl. by case_decide; eexists. Qed.

(** The ballot an effective configuration stands at. *)
Abbreviation effective_at e := (fst <$> e) (only parsing).

Lemma max_effective_ge held theirs :
  ord_le (effective_at held) (effective_at (max_effective held theirs)) /\
  ord_le (effective_at theirs) (effective_at (max_effective held theirs)).
Proof.
  destruct theirs as [[b c]|]; simpl; [|split; [reflexivity|done]].
  case_decide as Hh; destruct held as [[b' c']|]; simpl in *; try done; split; try done; ord_N; simpl.
  - by apply ord_lt_le in Hh.
  - by apply ord_not_lt in Hh.
Qed.

Lemma max_effective_cases held theirs :
  max_effective held theirs = held \/ max_effective held theirs = theirs.
Proof. destruct theirs as [[b c]|]; simpl; [|by left]. by case_decide; auto. Qed.

Lemma resolved_phase_ok h id bootstrap :
  resolved_phase h id bootstrap =
    Done (match mh_phase h with
          | Fresh => if decide (id ∈ bootstrap) then Active else Inactive
          | phase => phase
          end).
Proof.
  unfold resolved_phase.
  assert ((if decide (is_Some (position bootstrap id)) then Active else Inactive) =
          (if decide (id ∈ bootstrap) then Active else Inactive)) as ->.
  { by apply decide_ext, position_Some. }
  destruct (mh_phase h); [destruct (decide (id ∈ bootstrap))|..]; reflexivity.
Qed.

Lemma lookup_journal_mut h journal f j :
  mh_journals (journal_mut h journal f) !! j =
    if decide (j = journal) then Some (f (scalars_of (mh_journals h) journal)) else mh_journals h !! j.
Proof. unfold journal_mut; simpl. rewrite lookup_insert. repeat case_decide; congruence. Qed.

Lemma hard_watermark_scalars h j : hard_watermark h j = js_watermark (scalars_of (mh_journals h) j).
Proof. unfold hard_watermark, scalars_of. by destruct (mh_journals h !! j). Qed.

Lemma hard_effective_scalars h j : hard_effective h j = js_effective (scalars_of (mh_journals h) j).
Proof. unfold hard_effective, scalars_of. by destruct (mh_journals h !! j). Qed.

Lemma scalars_of_insert m j s j' :
  scalars_of (<[j := s]> m) j' = if decide (j' = j) then s else scalars_of m j'.
Proof. unfold scalars_of. rewrite lookup_insert. repeat case_decide; subst; done. Qed.
