(* ===== verification/Matchmaker.v ===== *)
(** * The matchmaker ([matchmaker.rs], [matchmaker/ready.rs])

    The per-ballot registry of acceptor configurations: boot, registrations and
    their paged histories, membership probes, the garbage-collection floor, and
    the batch a driver drains.  The generation handover over the same state is
    [Generation.v]; the invariant and what every call does under it are
    [MatchmakerInv.v]. *)

From S2P Require Import Prelude BTree Types Retained Contract QuorumSystem AcceptorConfig Acceptor Decree MatchmakerSet MatchmakerState.

Abbreviation Ledger := (gmap Ballot Registration) (only parsing).
Abbreviation RegistryWindow := (RetainedWindow Ballot Registration) (only parsing).

Record MatchmakerConfig := mkMatchmakerConfig {
  mc_id : MatchmakerId;
  mc_bootstrap : list MatchmakerId }.

Record Matchmaker := mkMatchmaker {
  mm_config : MatchmakerConfig;
  mm_hard : MatchmakerHardState;
  mm_set : MatchmakerSet;
  mm_registries : gmap JournalId RegistryWindow;
  mm_writes : list MatchmakerWriteOp;
  mm_replies : list MatchReply;
  mm_reconfigure_replies : list ReconfigureReply;
  mm_limits : Limits }.

Abbreviation mm_id m := (mc_id (mm_config m)) (only parsing).
Implicit Types m : Matchmaker.

(** Field updates. *)
Definition with_hard m h : Matchmaker :=
  mkMatchmaker (mm_config m) h (mm_set m) (mm_registries m) (mm_writes m) (mm_replies m)
    (mm_reconfigure_replies m) (mm_limits m).
Definition with_set m s : Matchmaker :=
  mkMatchmaker (mm_config m) (mm_hard m) s (mm_registries m) (mm_writes m) (mm_replies m)
    (mm_reconfigure_replies m) (mm_limits m).
Definition with_registries m r : Matchmaker :=
  mkMatchmaker (mm_config m) (mm_hard m) (mm_set m) r (mm_writes m) (mm_replies m)
    (mm_reconfigure_replies m) (mm_limits m).
Definition push_write m op : Matchmaker :=
  mkMatchmaker (mm_config m) (mm_hard m) (mm_set m) (mm_registries m) (mm_writes m ++ [op]) (mm_replies m)
    (mm_reconfigure_replies m) (mm_limits m).
Definition push_reply m r : Matchmaker :=
  mkMatchmaker (mm_config m) (mm_hard m) (mm_set m) (mm_registries m) (mm_writes m) (mm_replies m ++ [r])
    (mm_reconfigure_replies m) (mm_limits m).
Definition push_reconfigure_reply m r : Matchmaker :=
  mkMatchmaker (mm_config m) (mm_hard m) (mm_set m) (mm_registries m) (mm_writes m) (mm_replies m)
    (mm_reconfigure_replies m ++ [r]) (mm_limits m).

(** ** One page of a history *)

(** The backward walk: which records a later one of the window does not
    repeat, with the configurations seen so far. *)
Fixpoint keep_flags (window : list (Ballot * Registration)) : list Config * list bool :=
  match window with
  | [] => ([], [])
  | (_, registration) :: rest =>
      let '(above, kept) := keep_flags rest in
      let repeated := bool_decide (rg_config registration ∈ above) in
      (if repeated then above else above ++ [rg_config registration],
       (is_reconfiguration (rg_kind registration) || negb repeated) :: kept)
  end.

(** The records whose flag is set. *)
Definition kept_records (window : list (Ballot * Registration)) : list (Ballot * Registration) :=
  (filter (fun p : (Ballot * Registration) * bool => p.2 = true) (zip window (keep_flags window).2)).*1.

Definition history_page (window : list (Ballot * Registration)) (limit : N)
  : run (gmap Ballot Registration * option Ballot) :=
  rassert (0 < limit) "a registry page carries at least one registration";;
  let kept := (keep_flags window).2 in
  let elided := length (filter (fun keep => keep = false) kept) in
  let records := kept_records window in
  let page : gmap Ballot Registration := list_to_map (take (N.to_nat limit) records) in
  let cursor := fst <$> head (drop (N.to_nat limit) records) in
  rassert (msize page <= limit) "a page honours its limit";;
  rassert (cursor = None \/ msize page = limit) "a continuation cursor follows a full page";;
  (match cursor with
   | Some cursor =>
       rassert (is_none_or (fun last => last < cursor)%B (last_key_of page))
         "the continuation lies past the page"
   | None => mret tt
   end);;
  rassert (length window = elided + length (filter (fun keep => keep = true) kept))%nat
    "every record is kept or left out";;
  mret (page, cursor).

(** ** Reads *)

Definition mm_registry m (journal : JournalId) : run Ledger :=
  match mm_registries m !! journal with
  | Some window => window_entries window
  | None => mret ∅
  end.

(** Every journal with scalars has its window. *)
Definition scalars_windowed m : Prop :=
  Forall (fun journal => is_Some (mm_registries m !! journal)) (bt_keys (mh_journals (mm_hard m))).

#[export] Instance scalars_windowed_dec m : Decision (scalars_windowed m).
Proof. unfold scalars_windowed. apply _. Defined.

Definition mm_journals m : run (list JournalId) :=
  let journals := bt_keys (mm_registries m) in
  rassert (scalars_windowed m) "every journal with scalars has a registry window";;
  mret journals.

(** Writing the window back through the borrow. *)
Definition put_window m (journal : JournalId) (w : RegistryWindow) : Matchmaker :=
  with_registries m (<[journal := w]> (mm_registries m)).

(** [registries.entry(journal).or_insert_with(..)]. *)
Definition entry_window m (journal : JournalId) (floor : Ballot) : run (Matchmaker * RegistryWindow) :=
  match mm_registries m !! journal with
  | Some window => mret (m, window)
  | None =>
      window ← (window_new ∅ floor : run RegistryWindow);
      mret (put_window m journal window, window)
  end.

(** [window(journal)]: the window, created empty at its floor on first use. *)
Definition mm_window m (journal : JournalId) : run (Matchmaker * RegistryWindow) :=
  let floor := hard_watermark (mm_hard m) journal in
  entry ← entry_window m journal floor;
  held ← window_floor entry.2;
  rassert (held = floor) "a registry window sits at its journal's watermark";;
  mret entry.

Definition mm_highest m (journal : JournalId) : run (option Ballot) :=
  highest ← match mm_registries m !! journal with
            | Some window => window_last_key window
            | None => mret None
            end;
  rassert (is_none_or (fun h => hard_watermark (mm_hard m) journal ≤ h)%B highest)
    "the highest registration sits at or above the watermark";;
  mret highest.

Definition mm_phase m : run MatchmakerPhase :=
  resolved_phase (mm_hard m) (mm_id m) (mc_bootstrap (mm_config m)).

Definition derive_set m : run MatchmakerSet := resolved_set (mm_hard m) (mc_bootstrap (mm_config m)).

Definition refresh_set m : run Matchmaker :=
  set ← derive_set m;
  rassert (ms_generation set = mh_generation (mm_hard m))
    "the materialized set is the durable generation";;
  mret (with_set m set).

Definition mm_successor m : run (option MatchmakerSet) :=
  (match mh_successor (mm_hard m) with
   | Some successor =>
       next ← generation_next (mh_generation (mm_hard m));
       rassert (ms_generation successor = next) "a recorded successor is the next generation";;
       rassert (mh_phase (mm_hard m) = Stopped) "a generation with a successor is frozen"
   | None => mret tt
   end);;
  mret (mh_successor (mm_hard m)).

(** ** The cross-field checker *)

Definition assert_window m (entry : JournalId * RegistryWindow) : run unit :=
  let '(journal, window) := entry in
  let watermark := hard_watermark (mm_hard m) journal in
  lowest ← window_first_key window;
  rassert (is_none_or (fun lowest => watermark ≤ lowest)%B lowest)
    "no registration survives below the gc watermark";;
  floor ← window_floor window;
  rassert (floor = watermark) "the registry's floor is the durable gc watermark".

Definition assert_effective m (entry : JournalId * JournalScalars) : run unit :=
  let '(journal, scalars) := entry in
  match js_effective scalars with
  | Some (ballot, config) =>
      registry ← mm_registry m journal;
      rassert (is_none_or (fun r => is_reconfiguration (rg_kind r) = true /\ rg_config r = config)
                 (registry !! ballot))
        "the effective configuration agrees with its own retained record"
  | None => mret tt
  end.

Definition mm_assert_invariants m : run unit :=
  let h := mm_hard m in
  rassert (0 < registry_page (mm_limits m)) "a registry page is never empty";;
  rassert (registry_page (mm_limits m) <= REGISTRY_PAGE) "a registry page never exceeds its ceiling";;
  foldM (fun _ entry => assert_window m entry) tt (bt_entries (mm_registries m));;
  rassert (scalars_windowed m) "every journal with scalars has a registry window";;
  (if decide (0 < mh_generation h) then
     rassert (mh_members h <> []) "an activated generation has a durable membership";;
     rassert (mh_phase h <> Fresh) "an activated generation is never fresh"
   else mret tt);;
  (match mh_successor h with
   | Some successor =>
       next ← generation_next (mh_generation h);
       rassert (ms_generation successor = next) "a recorded successor is the next generation";;
       rassert (mh_phase h = Stopped) "a generation with a successor is frozen";;
       rassert (Forall (fun p => ms_generation successor < ms_generation (bo_set p) \/ bo_set p = successor)
                  (mh_pending h))
         "a settled generation keeps no pending bootstrap but the successor's"
   | None => mret tt
   end);;
  let current := ms_generation (mm_set m) in
  rassert (Forall (fun p => current < ms_generation (bo_set p)) (mh_pending h))
    "a pending bootstrap is for a later generation";;
  mine ← allM (fun p => set_contains (bo_set p) (mm_id m)) (mh_pending h);
  rassert (mine = true) "a pending bootstrap is for a set this matchmaker is a member of";;
  rassert (sorted_members (mc_bootstrap (mm_config m))) "the bootstrap set is sorted and deduplicated";;
  derived ← derive_set m;
  rassert (mm_set m = derived) "the materialized set is the one the durable scalars describe";;
  foldM (fun _ entry => assert_effective m entry) tt (bt_entries (mh_journals h)).

(** ** Boot *)

(** [trait RegistryStorage]. *)
Class RegistryStorage (S : Type) := {
  rs_initial_state : S -> MatchmakerHardState;
  rs_registration : S -> JournalId -> Ballot -> option Registration;
  rs_registered : S -> list (JournalId * Ballot) }.

Definition read_ledger {S} `{RegistryStorage S} (storage : S) (ledgers : gmap JournalId Ledger)
  (key : JournalId * Ballot) : run (gmap JournalId Ledger) :=
  let '(journal, ballot) := key in
  registration ← rexpect (rs_registration storage journal ballot)
                   "every registered ballot the walk names has a readable record";
  let ledger := default ∅ (ledgers !! journal) in
  rassert (ledger !! ballot = None) "the registry walk names each ballot once";;
  mret (<[journal := <[ballot := registration]> ledger]> ledgers).

Definition boot_empty_window (registries : gmap JournalId RegistryWindow) (entry : JournalId * JournalScalars)
  : run (gmap JournalId RegistryWindow) :=
  window ← (window_new ∅ (js_watermark entry.2) : run RegistryWindow);
  mret (<[entry.1 := window]> registries).

Definition boot_window (h : MatchmakerHardState) (registries : gmap JournalId RegistryWindow)
  (entry : JournalId * Ledger) : run (gmap JournalId RegistryWindow) :=
  window ← (window_new entry.2 (hard_watermark h entry.1) : run RegistryWindow);
  mret (<[entry.1 := window]> registries).

(** [Matchmaker::new]. *)
Definition matchmaker_new {S} `{RegistryStorage S} (config : MatchmakerConfig) (storage : S) (limits : Limits)
  : run Matchmaker :=
  limits_assert_valid limits;;
  let hard_state := rs_initial_state storage in
  ledgers ← foldM (read_ledger storage) ∅ (rs_registered storage);
  rassert (Forall (fun e : JournalId * Ledger =>
             is_none_or (fun lowest => hard_watermark hard_state e.1 ≤ lowest)%B (first_key_of e.2))
             (bt_entries ledgers))
    "no registration survives below the gc watermark";;
  registries ← foldM boot_empty_window ∅ (bt_entries (mh_journals hard_state));
  registries ← foldM (boot_window hard_state) registries (bt_entries ledgers);
  let bootstrap := normalize (mc_bootstrap config) in
  rassert (bootstrap <> []) "a matchmaker deployment bootstraps at least one matchmaker";;
  set ← resolved_set hard_state bootstrap;
  let matchmaker := mkMatchmaker (mkMatchmakerConfig (mc_id config) bootstrap) hard_state set registries
                      [] [] [] limits in
  mm_assert_invariants matchmaker;;
  mret matchmaker.

(** ** The generation fence *)

Definition judge_generation m (generation : MatchmakerGeneration) : run (option MatchRefusal) :=
  let current := mm_set m in
  phase ← mm_phase m;
  match phase with
  | Active => mret (if decide (ms_generation current = generation) then None else Some (RGeneration current))
  | Stopped =>
      if decide (ms_generation current = generation) then
        mret (Some (RStopped (mh_successor (mm_hard m))))
      else
      match mh_successor (mm_hard m) with
      | Some successor =>
          next ← generation_next (ms_generation current);
          mret (if decide (generation < next) then Some (RStopped (Some successor)) else Some RInactive)
      | None =>
          mret (if decide (generation < ms_generation current) then Some (RGeneration current)
                else Some RInactive)
      end
  | Inactive | Fresh => mret (Some RInactive)
  end.

Definition generation_refusal m (generation : MatchmakerGeneration) : run (option MatchRefusal) :=
  refusal ← judge_generation m generation;
  (match refusal with
   | None =>
       phase ← mm_phase m;
       rassert (phase = Active) "only an active matchmaker serves";;
       rassert (ms_generation (mm_set m) = generation) "a request is served at its generation"
   | Some _ => mret tt
   end);;
  mret refusal.

Definition newer_set m (generation : MatchmakerGeneration) : run (option MatchmakerSet) :=
  refusal ← judge_generation m generation;
  match refusal with
  | None => mret None
  | Some refusal =>
      let newer := match refusal with
                   | RStopped successor => successor
                   | RGeneration current =>
                       if decide (generation < ms_generation current) then Some current else None
                   | _ => None
                   end in
      rassert (is_none_or (fun set => generation < ms_generation set) newer)
        "a refusal names only a later generation";;
      mret newer
  end.

Definition frozen_without_successor m (generation : MatchmakerGeneration) : run bool :=
  refusal ← judge_generation m generation;
  let frozen := match refusal with Some (RStopped None) => true | _ => false end in
  (if frozen : bool then
     phase ← mm_phase m;
     rassert (phase = Stopped) "a frozen generation is a stopped matchmaker's";;
     newer ← newer_set m generation;
     rassert (newer = None) "a frozen generation with no successor names no later set"
   else mret tt);;
  mret frozen.

(** ** Registration *)

(** [page]: one [MatchB] page. *)
Definition mm_page m (journal : JournalId) (cursor : option Ballot) (ballot : Ballot) : run MatchOutcome :=
  let watermark := hard_watermark (mm_hard m) journal in
  let from_ballot := ord_max (default watermark cursor) watermark in
  '(history, next_from_ballot) ← match mm_registries m !! journal with
                                 | Some window =>
                                     records ← window_range window from_ballot ballot;
                                     history_page records (registry_page (mm_limits m))
                                 | None => mret (∅, None)
                                 end;
  rassert (watermark ≤ from_ballot)%B "a page never starts below the watermark";;
  rassert (Forall (fun b => b < ballot)%B (bt_keys history))
    "a page stays strictly below the ballot it answers";;
  mret (Registered (mkPage from_ballot history next_from_ballot watermark
                      (hard_effective (mm_hard m) journal))).

(** [stage_scalars] ([generation.rs]). *)
Definition stage_scalars m : run Matchmaker :=
  let m' := push_write m (MSetScalars (mm_hard m)) in
  rassert (length (mm_writes m') = length (mm_writes m) + 1)%nat "staging scalars is one write";;
  rassert (last (mm_writes m') = Some (MSetScalars (mm_hard m')))
    "the staged scalars are the scalars in memory";;
  mret m'.

Definition assert_registered_answer m (outcome : MatchOutcome) (journal : JournalId) (ballot : Ballot)
  (generation : MatchmakerGeneration) : run unit :=
  match outcome with
  | Registered page =>
      registry ← mm_registry m journal;
      rassert (is_Some (registry !! ballot)) "a Registered reply names a registered ballot";;
      rassert (Forall (fun b => b < ballot)%B (bt_keys (pg_history page)))
        "a history stays strictly below the ballot it answers";;
      rassert (Forall (fun b => hard_watermark (mm_hard m) journal ≤ b)%B (bt_keys (pg_history page)))
        "a history never reaches below the watermark";;
      rassert (Forall (fun b => pg_from page ≤ b)%B (bt_keys (pg_history page)))
        "a page starts at the cursor it names";;
      rassert (msize (pg_history page) <= registry_page (mm_limits m))
        "a page carries at most REGISTRY_PAGE registrations";;
      (if decide (is_Some (pg_next page)) then
         rassert (msize (pg_history page) = registry_page (mm_limits m))
           "a continuation cursor follows a full page"
       else mret tt);;
      rassert (is_none_or (fun next => is_none_or (fun last => last < next)%B (last_key_of (pg_history page)))
                 (pg_next page))
        "a continuation cursor lies past the page";;
      phase ← mm_phase m;
      rassert (phase = Active) "only an active matchmaker registers";;
      rassert (ms_generation (mm_set m) = generation)
        "only a matchmaker of the addressed generation registers"
  | _ => mret tt
  end.

Definition answer_probe m (from : NodeId) (journal : JournalId) (ballot : Ballot)
  (generation : MatchmakerGeneration) : run Matchmaker :=
  let writes := length (mm_writes m) in
  registry ← mm_registry m journal;
  let registered := bool_decide (is_Some (registry !! ballot)) in
  refusal ← generation_refusal m generation;
  let outcome := match refusal with
                 | Some refusal => MRefused refusal
                 | None => Probed (hard_effective (mm_hard m) journal)
                 end in
  rassert (length (mm_writes m) = writes) "a membership probe stages no write";;
  registry ← mm_registry m journal;
  rassert (bool_decide (is_Some (registry !! ballot)) = registered)
    "a membership probe registers nothing";;
  let m := push_reply m (mkReply (mm_id m) journal from ballot generation outcome) in
  mm_assert_invariants m;;
  mret m.

(** The fresh-registration arm: the page first, then the record. *)
Definition register_fresh m (journal : JournalId) (ballot : Ballot) (from_ballot : option Ballot)
  (registration : Registration) : run (Matchmaker * MatchOutcome) :=
  page ← mm_page m journal from_ballot ballot;
  '(m, window) ← mm_window m journal;
  '(window, previous) ← window_insert window ballot registration;
  let m := put_window m journal window in
  rassert (previous = None) "a fresh registration lands on an unregistered ballot";;
  highest ← mm_highest m journal;
  rassert (highest = Some ballot) "a fresh registration becomes the registry's highest ballot";;
  m ← (if is_reconfiguration (rg_kind registration) then
         '(effective, raised) ← raise_effective (js_effective (scalars_of (mh_journals (mm_hard m)) journal))
                                  ballot (rg_config registration);
         let m := with_hard m (journal_mut (mm_hard m) journal
                                 (fun s => mkScalars (js_watermark s) effective)) in
         if raised : bool then stage_scalars m else mret m
       else mret m);
  mret (push_write m (MRegister journal ballot registration), page).

(** The outcome of a registration request, and the state it leaves. *)
Definition register_outcome m (journal : JournalId) (ballot : Ballot) (generation : MatchmakerGeneration)
  (from_ballot : option Ballot) (registration : Registration) : run (Matchmaker * MatchOutcome) :=
  refusal ← generation_refusal m generation;
  match refusal with
  | Some refusal => mret (m, MRefused refusal)
  | None =>
      let watermark := hard_watermark (mm_hard m) journal in
      if decide (ballot < watermark)%B then mret (m, MRefused (BelowWatermark watermark)) else
      highest ← mm_highest m journal;
      match highest with
      | Some highest =>
          if decide (ballot ≤ highest)%B then
            registry ← mm_registry m journal;
            if decide (registry !! ballot = Some registration) then
              page ← mm_page m journal from_ballot ballot; mret (m, page)
            else mret (m, MRefused (Stale highest))
          else register_fresh m journal ballot from_ballot registration
      | None => register_fresh m journal ballot from_ballot registration
      end
  end.

(** [Matchmaker::step]. *)
Definition mm_step m (request : MatchRequest) : run Matchmaker :=
  mm_assert_invariants m;;
  let '(mkRequest from journal ballot config purpose generation from_ballot) := request in
  match purpose with
  | PProbe => answer_probe m from journal ballot generation
  | PRegister kind =>
      '(m, outcome) ← register_outcome m journal ballot generation from_ballot (mkReg config kind);
      assert_registered_answer m outcome journal ballot generation;;
      let m := push_reply m (mkReply (mm_id m) journal from ballot generation outcome) in
      mm_assert_invariants m;;
      mret m
  end.

(** ** Garbage collection *)

Inductive GcOutcome := GRaised | GUnchanged | GRefused.

#[export] Instance GcOutcome_eq_dec : EqDecision GcOutcome.
Proof. solve_decision. Defined.

Definition advance_gc_watermark m (journal : JournalId) (generation : MatchmakerGeneration) (watermark : Ballot)
  : run (Matchmaker * GcOutcome) :=
  mm_assert_invariants m;;
  refusal ← generation_refusal m generation;
  if decide (is_Some refusal) then mret (m, GRefused) else
  if decide (watermark ≤ hard_watermark (mm_hard m) journal)%B then mret (m, GUnchanged) else
  let writes := length (mm_writes m) in
  let siblings := (fun e : JournalId * JournalScalars => (e.1, js_watermark e.2)) <$>
                  filter (fun e : JournalId * JournalScalars => e.1 <> journal)
                    (bt_entries (mh_journals (mm_hard m))) in
  '(m, window) ← mm_window m journal;
  window ← window_raise_floor window watermark;
  let m := put_window m journal window in
  let m := with_hard m (journal_mut (mm_hard m) journal (fun s => mkScalars watermark (js_effective s))) in
  let m := push_write m (MSetGcWatermark journal watermark) in
  '(m, window) ← mm_window m journal;
  floor ← window_floor window;
  rassert (floor = watermark) "the registry floor is the new watermark";;
  rassert (Forall (fun s : JournalId * Ballot => hard_watermark (mm_hard m) s.1 = s.2) siblings)
    "a raise moves no sibling journal's watermark";;
  rassert (length (mm_writes m) = writes + 1)%nat "a raise stages exactly one write";;
  mm_assert_invariants m;;
  mret (m, GRaised).

Definition gc_ack m (request : GcRequest) (outcome : GcOutcome) : run GcAck :=
  let refused := bool_decide (outcome = GRefused) in
  let generation := gq_generation request in
  newer ← (if refused then newer_set m generation else mret None);
  stopped ← (if refused then frozen_without_successor m generation else mret false);
  let ack := mkGcAck (mm_id m) (gq_journal request) generation (negb refused)
               (hard_watermark (mm_hard m) (gq_journal request)) newer stopped in
  (if ga_applied ack then mret tt else
     refusal ← generation_refusal m generation;
     rassert (is_Some refusal) "only a matchmaker not active for the generation refuses");;
  rassert (ga_stopped ack = true -> ga_newer ack = None) "a frozen generation names no successor";;
  rassert (ga_applied ack = true -> (gq_watermark request ≤ ga_watermark ack)%B)
    "an applied raise acks a floor at or above the request";;
  mret ack.

(** ** The frozen report *)

(** [frozen_page]: one page of the frozen registries. *)
Definition frozen_entry m (journal : JournalId) : run (JournalId * JournalRegistry) :=
  registry ← mm_registry m journal;
  mret (journal, mkRegistry (hard_watermark (mm_hard m) journal) registry (hard_effective (mm_hard m) journal)).

(** A fallible [map] over an iterator. *)
Fixpoint mapR {A B} (f : A -> run B) (l : list A) : run (list B) :=
  match l with
  | [] => mret []
  | a :: l => b ← f a; rest ← mapR f l; mret (b :: rest)
  end.

Definition frozen_page m (after : option JournalId) (page : N)
  : run (gmap JournalId JournalRegistry * option JournalId) :=
  rassert (0 < page) "a frozen page carries a journal";;
  journals ← mm_journals m;
  entries ← mapR (frozen_entry m) (filter (above_cursor after) journals);
  let above := filter (fun e : JournalId * JournalRegistry => registry_is_blank e.2 = false) entries in
  let registries : gmap JournalId JournalRegistry := list_to_map (take (N.to_nat page) above) in
  let next := if decide (drop (N.to_nat page) above <> []) then last_key_of registries else None in
  rassert (Forall (fun e : JournalId * JournalRegistry =>
             is_none_or (fun b => jr_watermark e.2 ≤ b)%B (first_key_of (jr_history e.2)))
             (bt_entries registries))
    "a reported history starts at or above the watermark";;
  (if decide (is_Some next) then
     rassert (msize registries = page) "a cut frozen page is full";;
     rassert (next = last_key_of registries) "a cut frozen page continues after its last journal"
   else mret tt);;
  mret (registries, next).

(** ** The batch ([matchmaker/ready.rs]) *)

Definition floors_covered m (scalars : MatchmakerHardState) : Prop :=
  Forall (fun e : JournalId * JournalScalars => js_watermark e.2 ≤ hard_watermark (mm_hard m) e.1)%B
    (bt_entries (mh_journals scalars)).

Definition write_covered m (op : MatchmakerWriteOp) : Prop :=
  match op with
  | MRegister _ _ _ => True
  | MSetGcWatermark journal watermark => (watermark ≤ hard_watermark (mm_hard m) journal)%B
  | MSetScalars scalars | MInstallRegistry scalars _ => floors_covered m scalars
  end.

#[export] Instance write_covered_dec m op : Decision (write_covered m op).
Proof. destruct op; simpl; unfold floors_covered; apply _. Defined.

(** [MatchmakerReady::writes], [replies], [reconfigure_replies] and [advance]. *)
Definition ready_writes m : run (list MatchmakerWriteOp) :=
  rassert (Forall (write_covered m) (mm_writes m))
    "a matchmaker batch never stages a floor above the one it holds";;
  mret (mm_writes m).
Definition ready_replies m : run (list MatchReply) :=
  rassert (Forall (fun r => rp_matchmaker r = mm_id m) (mm_replies m)) "a matchmaker answers in its own name";;
  mret (mm_replies m).
Definition ready_reconfigure_replies m : run (list ReconfigureReply) :=
  rassert (Forall (fun r => reply_matchmaker r = mm_id m) (mm_reconfigure_replies m))
    "a matchmaker answers a handover in its own name";;
  mret (mm_reconfigure_replies m).
Definition ready_advance m : run Matchmaker :=
  let m := mkMatchmaker (mm_config m) (mm_hard m) (mm_set m) (mm_registries m) [] [] [] (mm_limits m) in
  rassert (mm_writes m = []) "an advanced batch has no write left";;
  rassert (mm_replies m = []) "an advanced batch has no reply left";;
  mret m.
