(* ===== verification/MatchmakerInv.v ===== *)
(** * The matchmaker's invariant, and every registry call under it

    [mm_wf] is the invariant of a matchmaker; [reg] assigns each ballot the one
    registration its proposer makes.  Under it no assertion of [Matchmaker.v]
    fires, and each call is its short reference function: [register_result] for
    a registration, [gc_result] for a garbage collection, [judged] for the
    generation fence, [answer] for a page. *)

From S2P Require Import Prelude BTree Types Retained Contract QuorumSystem AcceptorConfig Acceptor Decree MatchmakerSet MatchmakerState Matchmaker.

Implicit Types m : Matchmaker.

(** ** The history page *)

Abbreviation record := (Ballot * Registration)%type (only parsing).
Definition config_of (e : record) : Config := rg_config e.2.

(** A record is kept when it is a reconfiguration or no later record of the
    window carries its configuration. *)
Definition keeps (e : record) (rest : list record) : bool :=
  is_reconfiguration (rg_kind e.2) || negb (bool_decide (config_of e ∈ config_of <$> rest)).

Lemma keep_flags_above window c : c ∈ (keep_flags window).1 <-> c ∈ config_of <$> window.
Proof.
  induction window as [|[b r] rest IH]; simpl; [done|].
  destruct (keep_flags rest) as [above kept]; simpl in *. rewrite elem_of_cons, <-IH.
  case_bool_decide as Hr; [|rewrite elem_of_app, list_elem_of_singleton; tauto].
  split; [by right|intros [->|?]; done].
Qed.

Lemma keep_flags_length window : length (keep_flags window).2 = length window.
Proof.
  induction window as [|[b r] rest IH]; simpl; [done|].
  destruct (keep_flags rest) as [above kept]; simpl in *. by rewrite IH.
Qed.

Lemma kept_records_cons e rest :
  kept_records (e :: rest) = if keeps e rest then e :: kept_records rest else kept_records rest.
Proof.
  unfold kept_records. destruct e as [b r]. simpl.
  pose proof (keep_flags_above rest (rg_config r)) as Ha.
  destruct (keep_flags rest) as [above kept] eqn:E; simpl in *. unfold keeps, config_of at 1; simpl.
  rewrite (bool_decide_ext _ _ Ha). rewrite filter_cons. simpl.
  destruct (is_reconfiguration (rg_kind r) || _); by rewrite ?decide_True, ?decide_False by done.
Qed.

Lemma kept_records_sublist window : kept_records window `sublist_of` window.
Proof.
  induction window as [|e rest IH]; [done|]. rewrite kept_records_cons.
  destruct (keeps e rest); by constructor.
Qed.

(** Nothing is lost by eliding: a configuration of the window is still named,
    at the same ballot or a later one of the window. *)
Lemma kept_records_covers window e :
  StronglySorted key_lt window -> e ∈ window ->
  exists e', e' ∈ kept_records window /\ config_of e' = config_of e /\ (e.1 ≤ e'.1)%B.
Proof.
  intros Hw. revert e. induction Hw as [|x rest Hs IH Hall]; intros e; [by intros ?%elem_of_nil|].
  rewrite kept_records_cons. intros [->|Hin]%elem_of_cons.
  - unfold keeps. destruct (is_reconfiguration (rg_kind x.2)); simpl.
    { exists x. split_and!; [left|done|reflexivity]. }
    case_bool_decide as Hc; simpl; [|exists x; split_and!; [left|done|reflexivity]].
    apply list_elem_of_fmap in Hc as (y & Ey & Hy). destruct (IH y Hy) as (e' & Hk & Hc & Hle).
    exists e'. split_and!; [done|congruence|]. rewrite Forall_forall in Hall.
    etrans; [|done]. by apply ord_lt_le, Hall.
  - destruct (IH e Hin) as (e' & ? & ? & ?). exists e'. split_and!; [|done..].
    destruct (keeps x rest); [by right|done].
Qed.

(** A reconfiguration is never elided. *)
Lemma kept_records_reconfiguration window e :
  e ∈ window -> rg_kind e.2 = Reconfiguration -> e ∈ kept_records window.
Proof.
  intros Hin Hk. induction window as [|x rest IH]; [by apply elem_of_nil in Hin|].
  rewrite kept_records_cons. apply elem_of_cons in Hin as [->|Hin].
  - unfold keeps. rewrite Hk. left.
  - destruct (keeps x rest); [right|]; by apply IH.
Qed.

(** The criterion looks only forward: a window cut at a cursor keeps what the
    whole one keeps there. *)
Lemma kept_records_app l k :
  exists l', kept_records (l ++ k) = l' ++ kept_records k /\ l' `sublist_of` l.
Proof.
  induction l as [|e l (l' & IH & Hsub)]; [by exists []|]. simpl. rewrite kept_records_cons, IH.
  destruct (keeps e (l ++ k)); [exists (e :: l')|exists l']; split; try done; by constructor.
Qed.

Definition kept_page (window : list record) (limit : N) : gmap Ballot Registration :=
  list_to_map (take (N.to_nat limit) (kept_records window)).
Definition kept_cursor (window : list record) (limit : N) : option Ballot :=
  fst <$> head (drop (N.to_nat limit) (kept_records window)).

Lemma count_flags (flags : list bool) :
  (length flags = length (filter (fun keep => keep = false) flags) +
                  length (filter (fun keep => keep = true) flags))%nat.
Proof.
  induction flags as [|[] flags IH]; [done|..]; rewrite !filter_cons;
    repeat case_decide; simplify_eq; cbn [length]; lia.
Qed.

Section page.
Context (window : list record) (limit : N) (Hs : StronglySorted key_lt window) (Hl : 0 < limit).

Lemma kept_sorted : StronglySorted key_lt (kept_records window).
Proof using Hs. eapply StronglySorted_sublist; [apply kept_records_sublist|done]. Qed.

Lemma taken_sorted : StronglySorted key_lt (take (N.to_nat limit) (kept_records window)).
Proof using Hs.
  eapply StronglySorted_sublist; [|apply kept_sorted]. apply sublist_take.
Qed.

Lemma lookup_page_of b r :
  kept_page window limit !! b = Some r <-> (b, r) ∈ take (N.to_nat limit) (kept_records window).
Proof using Hs. apply lookup_sorted_list_to_map, taken_sorted. Qed.

Lemma page_of_window b r : kept_page window limit !! b = Some r -> (b, r) ∈ window.
Proof using Hs.
  intros Hb%lookup_page_of. eapply elem_of_sublist; [|apply kept_records_sublist].
  eapply elem_of_sublist; [done|apply sublist_take].
Qed.

Lemma page_of_size : msize (kept_page window limit) <= limit.
Proof using Hs.
  unfold msize, kept_page. rewrite size_sorted_list_to_map by apply taken_sorted.
  rewrite length_take. clear Hl. lia.
Qed.

Lemma cursor_of_full next : kept_cursor window limit = Some next ->
  msize (kept_page window limit) = limit /\
  is_none_or (fun last => last < next)%B (last_key_of (kept_page window limit)).
Proof using Hs.
  unfold kept_cursor. intros Hc. apply fmap_Some_1 in Hc as (e & Ee & ->).
  apply (sorted_page_last _ _ _ kept_sorted) in Ee as [Hlen Hlast].
  unfold msize, kept_page. rewrite size_sorted_list_to_map, last_key_of_list_to_map by apply taken_sorted.
  split; [by rewrite Hlen, N2Nat.id|done].
Qed.

Lemma history_page_ok :
  history_page window limit = Done (kept_page window limit, kept_cursor window limit).
Proof using Hs Hl.
  unfold history_page. fold (kept_page window limit) (kept_cursor window limit).
  rassert_by done. rassert_by apply page_of_size.
  rassert_by (destruct (kept_cursor window limit) eqn:E; [right; by eapply cursor_of_full|by left]).
  eapply bind_seq.
  { destruct (kept_cursor window limit) eqn:E; [|done]. apply rassert_true. by eapply cursor_of_full. }
  cbv beta. rassert_by (rewrite <-count_flags; symmetry; apply keep_flags_length). done.
Qed.

Lemma cursor_of_window next : kept_cursor window limit = Some next -> exists r, (next, r) ∈ window.
Proof using.
  unfold kept_cursor. intros Hc. apply fmap_Some_1 in Hc as ([b r] & Ee & ->). exists r.
  eapply elem_of_sublist; [|apply kept_records_sublist]. eapply elem_of_sublist; [|apply (sublist_drop _ (N.to_nat limit))].
  by apply head_Some_elem_of.
Qed.

(** The page is exactly the kept records below the cursor. *)
Lemma page_below_cursor e : e ∈ kept_records window ->
  kept_page window limit !! e.1 = Some e.2 \/
  exists next, kept_cursor window limit = Some next /\ (next ≤ e.1)%B.
Proof using Hs.
  intros He. rewrite <-(take_drop (N.to_nat limit) (kept_records window)) in He.
  apply elem_of_app in He as [He|He].
  - left. apply lookup_page_of. by destruct e.
  - right. unfold kept_cursor. pose proof kept_sorted as Hk.
    rewrite <-(take_drop (N.to_nat limit) (kept_records window)) in Hk.
    apply StronglySorted_app_1_r in Hk. destruct (drop _ _) as [|x l]; [by apply elem_of_nil in He|].
    exists x.1. split; [done|]. apply elem_of_cons in He as [->|He]; [reflexivity|].
    apply StronglySorted_inv in Hk as [_ Hall]. rewrite Forall_forall in Hall.
    by apply ord_lt_le, Hall.
Qed.
End page.

(** ** The invariant *)

(** Every ballot has one proposer, which registers one configuration under it:
    [reg] is that assignment, and a state is owned when all it holds of a
    journal is what the assignment says. *)
Section owned.
Context (reg : JournalId -> Ballot -> Registration).

Definition owned_ledger (j : JournalId) (l : Ledger) : Prop := forall b r, l !! b = Some r -> r = reg j b.
Definition owned_effective (j : JournalId) (e : option (Ballot * Config)) : Prop :=
  forall b c, e = Some (b, c) -> reg j b = mkReg c Reconfiguration.
(** No reconfiguration of a ledger is above the effective configuration. *)
Definition reconfigured_below (l : Ledger) (e : option (Ballot * Config)) : Prop :=
  forall b r, l !! b = Some r -> rg_kind r = Reconfiguration -> ord_le (Some b) (effective_at e).
Definition owned_registry (j : JournalId) (r : JournalRegistry) : Prop :=
  owned_ledger j (jr_history r) /\ owned_effective j (jr_effective r) /\
  reconfigured_below (jr_history r) (jr_effective r).
Definition owned_bootstrap (p : PendingBootstrap) : Prop :=
  forall j r, bo_registries p !! j = Some r -> owned_registry j r.
End owned.

Definition registry_of m (j : JournalId) : Ledger :=
  match mm_registries m !! j with Some w => w_entries w | None => ∅ end.

Definition phase_of m : MatchmakerPhase :=
  match mh_phase (mm_hard m) with
  | Fresh => if decide (mm_id m ∈ mc_bootstrap (mm_config m)) then Active else Inactive
  | phase => phase
  end.

(** The successor of a generation, at its width. *)
Definition next_generation (g : MatchmakerGeneration) : MatchmakerGeneration := N.min (g + 1) u64_max.

Definition settles (successor : MatchmakerSet) (p : PendingBootstrap) : Prop :=
  ms_generation successor < ms_generation (bo_set p) \/ bo_set p = successor.

Record mm_wf (reg : JournalId -> Ballot -> Registration) m : Prop := {
  wf_limits : 0 < registry_page (mm_limits m) <= REGISTRY_PAGE;
  wf_windows : forall j w, mm_registries m !! j = Some w ->
    window_wf w /\ w_floor w = hard_watermark (mm_hard m) j;
  wf_scalars : forall j, is_Some (mh_journals (mm_hard m) !! j) -> is_Some (mm_registries m !! j);
  wf_generation : mh_generation (mm_hard m) <= u64_max;
  wf_activated : 0 < mh_generation (mm_hard m) ->
    mh_members (mm_hard m) <> [] /\ mh_phase (mm_hard m) <> Fresh;
  wf_successor : is_none_or (fun s =>
      ms_generation s = next_generation (mh_generation (mm_hard m)) /\
      mh_phase (mm_hard m) = Stopped /\ Forall (settles s) (mh_pending (mm_hard m)))
    (mh_successor (mm_hard m));
  wf_pending : Forall (fun p => set_wf (bo_set p) /\ mm_id m ∈ ms_members (bo_set p) /\
      ms_generation (mm_set m) < ms_generation (bo_set p)) (mh_pending (mm_hard m));
  wf_bootstrap : sorted_members (mc_bootstrap (mm_config m));
  wf_derive : derive_set m = Done (mm_set m);
  wf_set : set_wf (mm_set m);
  wf_member : phase_of m = Active \/ phase_of m = Stopped -> mm_id m ∈ ms_members (mm_set m);
  wf_decree : record_ok (mh_decree (mm_hard m));
  wf_owned : forall j, owned_ledger reg j (registry_of m j) /\
      owned_effective reg j (hard_effective (mm_hard m) j);
  wf_reconfigured : forall j, reconfigured_below (registry_of m j) (hard_effective (mm_hard m) j);
  wf_owned_pending : Forall (owned_bootstrap reg) (mh_pending (mm_hard m));
  wf_pending_once : NoDup (bo_set <$> mh_pending (mm_hard m)) }.

(** The invariant reads neither the batch nor the replies. *)
Lemma mm_wf_push_write reg m op : mm_wf reg m -> mm_wf reg (push_write m op).
Proof. intros []. by constructor. Qed.
Lemma mm_wf_push_reply reg m r : mm_wf reg m -> mm_wf reg (push_reply m r).
Proof. intros []. by constructor. Qed.
Lemma mm_wf_push_reconfigure_reply reg m r : mm_wf reg m -> mm_wf reg (push_reconfigure_reply m r).
Proof. intros []. by constructor. Qed.
#[export] Hint Resolve mm_wf_push_write mm_wf_push_reply mm_wf_push_reconfigure_reply : paros.

Lemma generation_next_min g : g <= u64_max -> generation_next g = Done (next_generation g).
Proof. apply generation_next_total. Qed.

Lemma resolved_set_generation h bootstrap s : resolved_set h bootstrap = Done s -> ms_generation s = mh_generation h.
Proof. unfold resolved_set. intros Hs. rinv Hs. injection Hs as <-. done. Qed.

Section wf.
Context (reg : JournalId -> Ballot -> Registration) (m : Matchmaker) (Hwf : mm_wf reg m).

Lemma mm_set_generation : ms_generation (mm_set m) = mh_generation (mm_hard m).
Proof using Hwf. eapply resolved_set_generation, (wf_derive _ _ Hwf). Qed.

Lemma registry_floor j b r : registry_of m j !! b = Some r -> (hard_watermark (mm_hard m) j ≤ b)%B.
Proof using Hwf.
  unfold registry_of. destruct (mm_registries m !! j) as [w|] eqn:E; [|by rewrite lookup_empty].
  destruct (wf_windows _ _ Hwf _ _ E) as [Hw <-]. intros Hb. apply Hw. by exists r.
Qed.

Lemma mm_registry_ok j : mm_registry m j = Done (registry_of m j).
Proof using Hwf.
  unfold mm_registry, registry_of. destruct (mm_registries m !! j) as [w|] eqn:E; [|done].
  apply window_entries_ok. by eapply wf_windows.
Qed.

Lemma mm_phase_ok : mm_phase m = Done (phase_of m).
Proof using. apply resolved_phase_ok. Qed.

Lemma mm_highest_ok j : mm_highest m j = Done (last_key_of (registry_of m j)).
Proof using Hwf.
  unfold mm_highest. eapply bind_seq.
  { instantiate (1 := last_key_of (registry_of m j)). unfold registry_of.
    destruct (mm_registries m !! j) as [w|] eqn:E.
    - apply window_last_key_ok. by eapply wf_windows.
    - done. }
  cbv beta. rassert_by idtac; [|done].
  destruct (last_key_of _) as [b|] eqn:E; simpl; [|done].
  apply last_key_of_Some in E as [[r Hr] _]. by eapply registry_floor.
Qed.

Lemma scalars_windowed_ok : scalars_windowed m.
Proof using Hwf.
  apply Forall_forall. intros j Hj. apply elem_of_bt_keys in Hj. by eapply wf_scalars.
Qed.

Lemma assert_window_ok e : e ∈ bt_entries (mm_registries m) -> assert_window m e = Done tt.
Proof using Hwf.
  destruct e as [j w]. intros He%elem_of_bt_entries.
  destruct (wf_windows _ _ Hwf _ _ He) as [Hw Hf]. unfold assert_window. window_ok.
  rassert_by (rewrite <-Hf; by apply window_wf_first). window_ok. by apply rassert_true.
Qed.

Lemma assert_effective_ok e : e ∈ bt_entries (mh_journals (mm_hard m)) -> assert_effective m e = Done tt.
Proof using Hwf.
  destruct e as [j s]. intros He%elem_of_bt_entries. unfold assert_effective.
  destruct (js_effective s) as [[b c]|] eqn:Es; [|done]. rewrite mm_registry_ok. rsimpl.
  apply rassert_true. destruct (registry_of m j !! b) as [r|] eqn:Er; simpl; [|done].
  destruct (wf_owned _ _ Hwf j) as [Hl Heff]. apply Hl in Er as ->.
  rewrite (Heff b c); [done|]. unfold hard_effective. by rewrite He.
Qed.

Lemma mm_assert_invariants_ok : mm_assert_invariants m = Done tt.
Proof using Hwf.
  unfold mm_assert_invariants. rassert_by apply Hwf. rassert_by apply Hwf.
  rewrite (foldM_checks (assert_window m)) by apply assert_window_ok. rsimpl. rassert_by apply scalars_windowed_ok.
  eapply bind_seq.
  { case_decide; [|done]. rassert_by by apply (wf_activated _ _ Hwf). 
    apply rassert_true. by apply (wf_activated _ _ Hwf). }
  cbv beta. eapply bind_seq.
  { pose proof (wf_successor _ _ Hwf) as Hs. destruct (mh_successor _) as [s|]; [|done].
    destruct Hs as (Hg & Hp & Hf). rewrite generation_next_min by apply Hwf. rsimpl.
    rassert_by done. rassert_by done. by apply rassert_true. }
  cbv beta. pose proof (wf_pending _ _ Hwf) as Hp.
  rassert_by (eapply Forall_impl; [exact Hp|]; by intros ? (? & ? & ?)).
  rewrite (allM_ok _ (fun p => mm_id m ∈ ms_members (bo_set p))).
  2:{ intros p Hin. rewrite Forall_forall in Hp. apply set_contains_ok. by apply Hp. }
  rsimpl. rassert_by (apply bool_decide_eq_true_2; eapply Forall_impl; [exact Hp|]; by intros ? (? & ? & ?)).
  rassert_by apply Hwf. rewrite (wf_derive _ _ Hwf). rsimpl. rassert_by done.
  apply foldM_checks, assert_effective_ok.
Qed.

(** The generation fence, without its assertions. *)
Definition judged (g : MatchmakerGeneration) : option MatchRefusal :=
  let current := mm_set m in
  match phase_of m with
  | Active => if decide (ms_generation current = g) then None else Some (RGeneration current)
  | Stopped =>
      if decide (ms_generation current = g) then Some (RStopped (mh_successor (mm_hard m))) else
      match mh_successor (mm_hard m) with
      | Some successor =>
          if decide (g < next_generation (ms_generation current)) then Some (RStopped (Some successor))
          else Some RInactive
      | None => if decide (g < ms_generation current) then Some (RGeneration current) else Some RInactive
      end
  | _ => Some RInactive
  end.

Lemma judge_generation_ok g : judge_generation m g = Done (judged g).
Proof using Hwf.
  unfold judge_generation, judged. rewrite mm_phase_ok. rsimpl.
  destruct (phase_of m); try done. case_decide; [done|].
  destruct (mh_successor _) as [s|]; [|done].
  rewrite generation_next_min; [done|]. rewrite mm_set_generation. apply Hwf.
Qed.

Lemma judged_None g : judged g = None <-> phase_of m = Active /\ ms_generation (mm_set m) = g.
Proof using.
  unfold judged. split; [|by intros [-> ->]; rewrite decide_True].
  destruct (phase_of m); [done..| |].
  - by case_decide.
  - case_decide; [done|]. by destruct (mh_successor _); case_decide.
Qed.

Lemma generation_refusal_ok g : generation_refusal m g = Done (judged g).
Proof using Hwf.
  unfold generation_refusal. rewrite judge_generation_ok. rsimpl.
  destruct (judged g) eqn:E; [done|]. apply judged_None in E as [Hp Hg].
  rewrite mm_phase_ok. rsimpl.
  eapply bind_seq; [|reflexivity]. rassert_by done. by apply rassert_true.
Qed.
End wf.

(** ** Registration under the invariant *)

Definition window_records m (j : JournalId) (lo hi : Ballot) : list record :=
  filter (fun e => (lo ≤ e.1)%B /\ (e.1 < hi)%B) (bt_entries (registry_of m j)).

Definition page_from m (j : JournalId) (cursor : option Ballot) : Ballot :=
  ord_max (default (hard_watermark (mm_hard m) j) cursor) (hard_watermark (mm_hard m) j).

(** The page a registration of [ballot] is answered with. *)
Definition answer m (j : JournalId) (cursor : option Ballot) (ballot : Ballot) : RegisteredPage :=
  let window := window_records m j (page_from m j cursor) ballot in
  let limit := registry_page (mm_limits m) in
  mkPage (page_from m j cursor) (kept_page window limit) (kept_cursor window limit)
    (hard_watermark (mm_hard m) j) (hard_effective (mm_hard m) j).

Lemma window_records_sorted m j lo hi : StronglySorted key_lt (window_records m j lo hi).
Proof. eapply StronglySorted_sublist; [apply sublist_filter|apply bt_entries_sorted]. Qed.

Lemma elem_of_window_records m j lo hi b r :
  (b, r) ∈ window_records m j lo hi <-> registry_of m j !! b = Some r /\ (lo ≤ b)%B /\ (b < hi)%B.
Proof. unfold window_records. rewrite list_elem_of_filter, elem_of_bt_entries. simpl. tauto. Qed.

#[export] Hint Resolve window_records_sorted : paros.

(** A page holds only records of its window. *)
Lemma answer_history m j cursor ballot b r :
  pg_history (answer m j cursor ballot) !! b = Some r ->
  registry_of m j !! b = Some r /\ (page_from m j cursor ≤ b)%B /\ (b < ballot)%B.
Proof.
  simpl. intros Hb. apply page_of_window in Hb; [|apply window_records_sorted].
  by apply elem_of_window_records in Hb.
Qed.

Lemma page_from_ge m j cursor : (hard_watermark (mm_hard m) j ≤ page_from m j cursor)%B.
Proof. apply ord_max_ge_r. Qed.

(** The state after a fresh registration. *)
Definition raises m (j : JournalId) (b : Ballot) (r : Registration) : Prop :=
  rg_kind r = Reconfiguration /\
  is_none_or (fun h : Ballot * Config => h.1 < b)%B (hard_effective (mm_hard m) j).

#[export] Instance raises_dec m j b r : Decision (raises m j b r).
Proof. unfold raises. apply _. Defined.

Definition new_effective m (j : JournalId) (b : Ballot) (r : Registration) : option (Ballot * Config) :=
  if decide (raises m j b r) then Some (b, rg_config r) else hard_effective (mm_hard m) j.

Definition registered_hard m (j : JournalId) (b : Ballot) (r : Registration) : MatchmakerHardState :=
  if decide (rg_kind r = Reconfiguration) then
    journal_mut (mm_hard m) j (fun s => mkScalars (js_watermark s) (new_effective m j b r))
  else mm_hard m.

Definition registered m (j : JournalId) (b : Ballot) (r : Registration) : Matchmaker :=
  let h := registered_hard m j b r in
  mkMatchmaker (mm_config m) h (mm_set m)
    (<[j := mkWindow (<[b := r]> (registry_of m j)) (hard_watermark (mm_hard m) j)]> (mm_registries m))
    (mm_writes m ++ (if decide (raises m j b r) then [MSetScalars h] else []) ++ [MRegister j b r])
    (mm_replies m) (mm_reconfigure_replies m) (mm_limits m).

Lemma registered_hard_watermark m j b r j' :
  hard_watermark (registered_hard m j b r) j' = hard_watermark (mm_hard m) j'.
Proof.
  unfold registered_hard. case_decide; [|done]. rewrite !hard_watermark_scalars. simpl.
  rewrite scalars_of_insert. by case_decide; subst.
Qed.

Lemma registered_hard_effective m j b r j' :
  hard_effective (registered_hard m j b r) j' =
    if decide (j' = j) then new_effective m j b r else hard_effective (mm_hard m) j'.
Proof.
  unfold registered_hard. case_decide as Hk.
  - rewrite !hard_effective_scalars. simpl. rewrite scalars_of_insert. by case_decide; subst.
  - case_decide; [|done]. subst. unfold new_effective. rewrite decide_False; [done|]. by intros [? _].
Qed.

Lemma new_effective_ge m j b r :
  ord_le (effective_at (hard_effective (mm_hard m) j)) (effective_at (new_effective m j b r)) /\
  (rg_kind r = Reconfiguration -> ord_le (Some b) (effective_at (new_effective m j b r))).
Proof.
  unfold new_effective. destruct (decide (rg_kind r = Reconfiguration)) as [Hk|Hk].
  - destruct (max_effective_ge (hard_effective (mm_hard m) j) (Some (b, rg_config r))) as [H1 H2].
    unfold max_effective in H1, H2.
    destruct (decide (raises m j b r)) as [[_ Hr]|Hr]; [rewrite decide_True in H1, H2 by done|
      rewrite decide_False in H1, H2 by (intros ?; by apply Hr)]; done.
  - rewrite decide_False by by intros []. by split; [reflexivity|].
Qed.

Lemma registered_hard_rest m j b r :
  let h := registered_hard m j b r in
  mh_generation h = mh_generation (mm_hard m) /\ mh_members h = mh_members (mm_hard m) /\
  mh_phase h = mh_phase (mm_hard m) /\ mh_successor h = mh_successor (mm_hard m) /\
  mh_decree h = mh_decree (mm_hard m) /\ mh_pending h = mh_pending (mm_hard m).
Proof. unfold registered_hard. by case_decide. Qed.

Lemma registered_registry m j b r j' :
  registry_of (registered m j b r) j' =
    if decide (j' = j) then <[b := r]> (registry_of m j) else registry_of m j'.
Proof.
  unfold registry_of at 1. simpl. rewrite lookup_insert. repeat case_decide; subst; done.
Qed.

Lemma resolved_set_ext h h' bootstrap :
  mh_generation h = mh_generation h' -> mh_members h = mh_members h' ->
  resolved_set h bootstrap = resolved_set h' bootstrap.
Proof. unfold resolved_set. by intros -> ->. Qed.

Lemma registered_wf reg m j b r :
  mm_wf reg m -> (hard_watermark (mm_hard m) j ≤ b)%B -> r = reg j b -> mm_wf reg (registered m j b r).
Proof.
  intros Hwf Hb Hr. destruct (registered_hard_rest m j b r) as (Eg & Em & Ep & Es & Ed & Epd).
  pose proof Hwf as []. constructor; simpl; rewrite ?Eg, ?Em, ?Ep, ?Es, ?Ed, ?Epd; try done.
  - intros j' w. rewrite registered_hard_watermark, lookup_insert. case_decide as E; [|by apply wf_windows0].
    intros [= <-]. subst j'. split; [|done]. intros b'. simpl. rewrite lookup_insert.
    case_decide; [by subst|]. intros [r' Hr']. by eapply registry_floor.
  - intros j' Hj'. destruct (decide (j = j')) as [<-|Hne]; [rewrite lookup_insert_eq; by eexists|].
    rewrite lookup_insert_ne by done. apply wf_scalars0. revert Hj'. unfold registered_hard.
    case_decide; [|done]. simpl. by rewrite lookup_insert_ne.
  - unfold derive_set. rewrite <-wf_derive0. by apply resolved_set_ext.
  - intros Hph. apply wf_member0. revert Hph. unfold phase_of. simpl. by rewrite Ep.
  - intros j'. rewrite registered_registry, registered_hard_effective. case_decide; [subst j'|by apply wf_owned0].
    destruct (wf_owned0 j) as [Hl He]. split.
    + intros b' r'. rewrite lookup_insert. case_decide; [by intros [= <-]; subst|apply Hl].
    + intros b' c. unfold new_effective. case_decide as Hra; [|apply He].
      intros [= <- <-]. destruct Hra as [Hk _]. rewrite <-Hr. destruct r; simpl in *. by subst.
  - intros j'. rewrite registered_registry, registered_hard_effective. case_decide; [subst j'|by apply wf_reconfigured0].
    destruct (new_effective_ge m j b r) as [Hge Hnew]. intros b' r'. rewrite lookup_insert.
    case_decide; [intros [= <-]; subst b'; apply Hnew|]. intros Hr' Hk. etrans; [by eapply wf_reconfigured0|done].
Qed.

Section register.
Context (reg : JournalId -> Ballot -> Registration) (m : Matchmaker) (Hwf : mm_wf reg m).

Lemma mm_page_ok j cursor ballot :
  (hard_watermark (mm_hard m) j ≤ ballot)%B -> is_none_or (fun c => c ≤ ballot)%B cursor ->
  mm_page m j cursor ballot = Done (Registered (answer m j cursor ballot)).
Proof using Hwf.
  intros Hb Hc. unfold mm_page. fold (page_from m j cursor).
  eapply (bind_seq _ (kept_page (window_records m j (page_from m j cursor) ballot) (registry_page (mm_limits m)),
                      kept_cursor (window_records m j (page_from m j cursor) ballot) (registry_page (mm_limits m)))).
  { unfold window_records, registry_of. destruct (mm_registries m !! j) as [w|] eqn:E.
    2:{ change (bt_entries (∅ : Ledger)) with (@nil record). unfold kept_page, kept_cursor, kept_records.
        cbn [filter list_filter zip zip_with keep_flags fmap list_fmap snd]. by rewrite take_nil, drop_nil. }
    unfold window_range. rewrite bt_range_ok.
    - rsimpl. apply history_page_ok; [|apply Hwf].
      eapply StronglySorted_sublist; [apply sublist_filter|apply bt_entries_sorted].
    - apply ord_max_lub; [|done]. by destruct cursor. }
  cbv beta iota. rassert_by apply page_from_ge. rassert_by idtac; [|done].
  apply Forall_forall. intros b [r Hr]%elem_of_bt_keys.
  by apply (answer_history m j cursor ballot) in Hr as (_ & _ & ?).
Qed.

(** A cursor above the ballot it asks for crosses the bounds of the range. *)
Lemma mm_page_crossed j c ballot :
  is_Some (mm_registries m !! j) -> (ballot < c)%B ->
  mm_page m j (Some c) ballot = Panic "range start is greater than range end in BTreeMap".
Proof using.
  intros [w Hw] Hc. unfold mm_page. rewrite Hw. unfold window_range, bt_range.
  rewrite decide_True; [done|]. eapply ord_lt_le_trans; [exact Hc|apply ord_max_ge_l].
Qed.

Lemma mm_window_ok j :
  exists m', mm_window m j = Done (m', mkWindow (registry_of m j) (hard_watermark (mm_hard m) j)) /\
    forall w, put_window m' j w = put_window m j w.
Proof using Hwf.
  unfold mm_window, entry_window, registry_of. destruct (mm_registries m !! j) as [w|] eqn:E.
  - destruct (wf_windows _ _ Hwf _ _ E) as [Hw Hf]. exists m. split; [|done]. rsimpl. window_ok.
    rassert_by done. rewrite <-Hf. by destruct w.
  - assert (window_wf (mkWindow (∅ : Ledger) (hard_watermark (mm_hard m) j))) as Hw
      by (intros b [? Hb]; simpl in Hb; by rewrite lookup_empty in Hb).
    exists (put_window m j (mkWindow ∅ (hard_watermark (mm_hard m) j))). split.
    + rewrite window_new_ok by done. rsimpl. window_ok. by rassert_by done.
    + intros w. unfold put_window, with_registries; simpl. by rewrite insert_insert_eq.
Qed.

Lemma above_highest_unregistered j b :
  is_none_or (fun h => h < b)%B (last_key_of (registry_of m j)) ->
  registry_of m j !! b = None /\ last_key_of (<[b := reg j b]> (registry_of m j)) = Some b.
Proof using.
  intros Hh. assert (forall b' r, registry_of m j !! b' = Some r -> (b' < b)%B) as Hlt.
  { intros b' r Hr. destruct (last_key_of (registry_of m j)) as [h|] eqn:E; simpl in Hh.
    - apply last_key_of_Some in E as [_ Hmax]. eapply ord_le_lt_trans; [|exact Hh]. apply Hmax. by exists r.
    - apply last_key_of_None in E. rewrite E, lookup_empty in Hr. done. }
  split.
  - destruct (registry_of m j !! b) eqn:E; [|done]. apply Hlt in E. by apply ord_lt_irrefl in E.
  - destruct (last_key_of (<[b := _]> _)) as [k|] eqn:E.
    + apply last_key_of_Some in E as [[r Hk] Hmax]. f_equal. apply ord_le_antisymm.
      * revert Hk. rewrite lookup_insert. case_decide; [intros _; subst; reflexivity|].
        intros Hk%Hlt. by apply ord_lt_le.
      * apply Hmax. rewrite lookup_insert_eq. by eexists.
    + apply last_key_of_None in E. by apply insert_non_empty in E.
Qed.

Lemma stage_scalars_ok m' : stage_scalars m' = Done (push_write m' (MSetScalars (mm_hard m'))).
Proof using.
  unfold stage_scalars. rassert_by (simpl; rewrite length_app; simpl; lia).
  rassert_by (simpl; by rewrite last_snoc). done.
Qed.

Lemma register_fresh_ok j b cursor :
  (hard_watermark (mm_hard m) j ≤ b)%B -> is_none_or (fun c => c ≤ b)%B cursor ->
  is_none_or (fun h => h < b)%B (last_key_of (registry_of m j)) ->
  register_fresh m j b cursor (reg j b) = Done (registered m j b (reg j b), Registered (answer m j cursor b)).
Proof using Hwf.
  intros Hb Hc Hh. destruct (above_highest_unregistered j b Hh) as [Hnone Hlast].
  unfold register_fresh. rewrite mm_page_ok by done. rsimpl.
  destruct (mm_window_ok j) as (m' & -> & Hput). rsimpl. cbv beta iota.
  assert (window_wf (mkWindow (registry_of m j) (hard_watermark (mm_hard m) j))) as Hww
    by (intros b' [r' Hr']; by eapply registry_floor).
  rewrite window_insert_ok by done. rsimpl. cbv beta iota. simpl w_entries. simpl w_floor.
  rewrite Hput. rassert_by done.
  set (m1 := put_window m j _).
  assert (mm_highest m1 j = Done (Some b)) as ->.
  { unfold mm_highest, m1, put_window; simpl. rewrite lookup_insert_eq.
    rewrite window_last_key_ok by by apply (window_insert_wf (mkWindow _ _)). rsimpl. simpl.
    rewrite Hlast. by rassert_by done. }
  rsimpl. rassert_by done. unfold registered, registered_hard, new_effective.
  rewrite <-hard_effective_scalars. change (mm_hard m1) with (mm_hard m).
  destruct (decide (rg_kind (reg j b) = Reconfiguration)) as [Ek|Ek].
  - rewrite Ek at 1. cbn [is_reconfiguration]. rewrite raise_effective_ok. rsimpl.
    destruct (decide (is_none_or _ _)) as [Hr|Hr]; cbv beta iota.
    + rewrite stage_scalars_ok. rsimpl. rewrite !(decide_True (P := raises m j b (reg j b))) by done.
      unfold push_write, with_hard, m1; simpl. by rewrite <-app_assoc.
    + rsimpl. by rewrite !(decide_False (P := raises m j b (reg j b))) by by intros [].
  - rewrite (decide_False (P := raises m j b (reg j b))) by by intros [].
    by destruct (rg_kind (reg j b)).
Qed.

(** The outcome of a registration, on every branch. *)
Definition register_result (j : JournalId) (b : Ballot) (g : MatchmakerGeneration) (cursor : option Ballot)
  (r : Registration) : Matchmaker * MatchOutcome :=
  match judged m g with
  | Some refusal => (m, MRefused refusal)
  | None =>
      let watermark := hard_watermark (mm_hard m) j in
      if decide (b < watermark)%B then (m, MRefused (BelowWatermark watermark)) else
      match last_key_of (registry_of m j) with
      | Some highest =>
          if decide (b ≤ highest)%B then
            if decide (registry_of m j !! b = Some r) then (m, Registered (answer m j cursor b))
            else (m, MRefused (Stale highest))
          else (registered m j b r, Registered (answer m j cursor b))
      | None => (registered m j b r, Registered (answer m j cursor b))
      end
  end.

Lemma register_outcome_ok j b g cursor :
  is_none_or (fun c => c ≤ b)%B cursor ->
  register_outcome m j b g cursor (reg j b) = Done (register_result j b g cursor (reg j b)).
Proof using Hwf.
  intros Hc. unfold register_outcome, register_result.
  rewrite (generation_refusal_ok reg) by done. rsimpl. destruct (judged m g); [done|].
  case_decide as Hlt; [done|]. apply ord_not_lt in Hlt.
  rewrite (mm_highest_ok reg) by done. rsimpl.
  destruct (last_key_of (registry_of m j)) as [h|] eqn:Eh.
  - case_decide as Hle.
    + rewrite (mm_registry_ok reg) by done. rsimpl. case_decide; [|done].
      rewrite mm_page_ok by done. done.
    + apply register_fresh_ok; [done..|]. by rewrite Eh.
  - apply register_fresh_ok; [done..|]. by rewrite Eh.
Qed.

Lemma register_result_wf j b g cursor : mm_wf reg (register_result j b g cursor (reg j b)).1.
Proof using Hwf.
  unfold register_result. destruct (judged m g); [done|]. case_decide as Hlt; [done|].
  apply ord_not_lt in Hlt.
  destruct (last_key_of _); [case_decide; [by case_decide|]|]; simpl; by apply registered_wf.
Qed.
End register.

(** ** The calls *)

Lemma registered_phase m j b r : phase_of (registered m j b r) = phase_of m.
Proof.
  unfold phase_of. simpl. destruct (registered_hard_rest m j b r) as (_ & _ & -> & _). done.
Qed.

(** What a successful answer carries, and the state it leaves. *)
Lemma register_result_answers m j b g cursor r m' page :
  register_result m j b g cursor r = (m', Registered page) ->
  page = answer m j cursor b /\ registry_of m' j = <[b := r]> (registry_of m j) /\
  (hard_watermark (mm_hard m) j ≤ b)%B /\ hard_watermark (mm_hard m') j = hard_watermark (mm_hard m) j /\
  mm_limits m' = mm_limits m /\ mm_set m' = mm_set m /\ phase_of m' = Active /\ ms_generation (mm_set m) = g.
Proof.
  unfold register_result. intros E. destruct (judged m g) eqn:Ej; [done|].
  apply judged_None in Ej as [Hp Hg]. case_decide as Hlt; [done|]. apply ord_not_lt in Hlt.
  assert (forall o, (registered m j b r, Registered (answer m j cursor b)) = (m', Registered page) ->
            o = Some page -> page = answer m j cursor b /\ registry_of m' j = <[b := r]> (registry_of m j) /\
            (hard_watermark (mm_hard m) j ≤ b)%B /\ hard_watermark (mm_hard m') j = hard_watermark (mm_hard m) j /\
            mm_limits m' = mm_limits m /\ mm_set m' = mm_set m /\ phase_of m' = Active /\
            ms_generation (mm_set m) = g) as Hfresh.
  { intros o [= <- <-] _. rewrite registered_registry, decide_True by done.
    rewrite registered_phase. simpl. by rewrite registered_hard_watermark. }
  destruct (last_key_of (registry_of m j)); [|by eapply Hfresh].
  case_decide; [|by eapply Hfresh]. case_decide; [|done]. injection E as <- <-. by rewrite insert_id.
Qed.

Section calls.
Context (reg : JournalId -> Ballot -> Registration) (m : Matchmaker) (Hwf : mm_wf reg m).

Lemma assert_registered_answer_ok j b g cursor :
  let result := register_result m j b g cursor (reg j b) in
  assert_registered_answer result.1 result.2 j b g = Done tt.
Proof using Hwf.
  intros result. pose proof (register_result_wf reg m Hwf j b g cursor) as Hwf'. fold result in Hwf'.
  destruct result as [m' outcome] eqn:E. unfold result in E. simpl in *. destruct outcome as [page| |]; [|done..].
  apply register_result_answers in E as (-> & Hreg & Hb & Hwm & Hlim & Hset & Hph & Hg).
  unfold assert_registered_answer. rewrite (mm_registry_ok reg) by done. rsimpl.
  assert (forall b', b' ∈ bt_keys (pg_history (answer m j cursor b)) ->
            (hard_watermark (mm_hard m) j ≤ b')%B /\ (page_from m j cursor ≤ b')%B /\ (b' < b)%B) as Hk.
  { intros b' [r Hr]%elem_of_bt_keys. apply answer_history in Hr as (? & ? & ?). split_and!; [|done..].
    by eapply registry_floor. }
  rassert_by (rewrite Hreg, lookup_insert_eq; by eexists). rassert_by (apply Forall_forall; intros; by apply Hk).
  rassert_by (apply Forall_forall; intros; rewrite Hwm; by apply Hk).
  rassert_by (apply Forall_forall; intros; by apply Hk).
  pose proof (window_records_sorted m j (page_from m j cursor) b) as Hs. rewrite Hlim.
  rassert_by by apply page_of_size.
  eapply bind_seq; [|cbv beta].
  { case_decide as Hn; [|done]. apply rassert_true. destruct Hn as [next Hn]. by eapply cursor_of_full. }
  rassert_by (destruct (pg_next _) eqn:En; [by eapply cursor_of_full|done]).
  rewrite mm_phase_ok. rsimpl. rassert_by done. apply rassert_true. by rewrite Hset.
Qed.

(** A registration request, on every branch. *)
Lemma step_register_ok from j b config kind g cursor :
  mkReg config kind = reg j b -> is_none_or (fun c => c ≤ b)%B cursor ->
  let result := register_result m j b g cursor (reg j b) in
  mm_step m (mkRequest from j b config (PRegister kind) g cursor) =
    Done (push_reply result.1 (mkReply (mm_id m) j from b g result.2)).
Proof using Hwf.
  intros Hr Hc result. unfold mm_step. rewrite (mm_assert_invariants_ok reg) by done. rsimpl. rewrite Hr.
  rewrite (register_outcome_ok reg) by done. fold result. rsimpl.
  pose proof (assert_registered_answer_ok j b g cursor) as Ha. fold result in Ha.
  pose proof (register_result_wf reg m Hwf j b g cursor) as Hwf'. fold result in Hwf'.
  assert (mm_config result.1 = mm_config m) as Ec.
  { unfold result, register_result. repeat case_match; done. }
  destruct result as [m' outcome]; simpl in *. rewrite Ha. rsimpl. rewrite Ec.
  rewrite (mm_assert_invariants_ok reg) by eauto with paros. done.
Qed.

(** A probe answers the effective configuration and changes nothing else. *)
Lemma step_probe_ok from j b config g cursor :
  mm_step m (mkRequest from j b config PProbe g cursor) =
    Done (push_reply m (mkReply (mm_id m) j from b g
            match judged m g with
            | Some refusal => MRefused refusal
            | None => Probed (hard_effective (mm_hard m) j)
            end)).
Proof using Hwf.
  unfold mm_step. rewrite (mm_assert_invariants_ok reg) by done. rsimpl. unfold answer_probe.
  rewrite (mm_registry_ok reg) by done. rsimpl. rewrite (generation_refusal_ok reg) by done. rsimpl.
  rassert_by done. rassert_by done. rewrite (mm_assert_invariants_ok reg) by eauto with paros. done.
Qed.

(** ** Garbage collection *)

Definition collected (j : JournalId) (watermark : Ballot) : Matchmaker :=
  mkMatchmaker (mm_config m)
    (journal_mut (mm_hard m) j (fun s => mkScalars watermark (js_effective s))) (mm_set m)
    (<[j := mkWindow (bt_split_off watermark (registry_of m j)) watermark]> (mm_registries m))
    (mm_writes m ++ [MSetGcWatermark j watermark]) (mm_replies m) (mm_reconfigure_replies m) (mm_limits m).

Lemma collected_watermark j watermark j' :
  hard_watermark (mm_hard (collected j watermark)) j' =
    if decide (j' = j) then watermark else hard_watermark (mm_hard m) j'.
Proof using.
  rewrite !hard_watermark_scalars. simpl. rewrite scalars_of_insert. by case_decide; subst.
Qed.

Lemma collected_effective j watermark j' :
  hard_effective (mm_hard (collected j watermark)) j' = hard_effective (mm_hard m) j'.
Proof using.
  rewrite !hard_effective_scalars. simpl. rewrite scalars_of_insert. by case_decide; subst.
Qed.

Lemma collected_registry j watermark j' :
  registry_of (collected j watermark) j' =
    if decide (j' = j) then bt_split_off watermark (registry_of m j) else registry_of m j'.
Proof using.
  unfold registry_of at 1. simpl. rewrite lookup_insert. repeat case_decide; subst; done.
Qed.

Lemma collected_wf j watermark : mm_wf reg (collected j watermark).
Proof using Hwf.
  pose proof Hwf as []. constructor; try done.
  - intros j' w. rewrite collected_watermark. simpl. rewrite lookup_insert.
    repeat case_decide; subst; try done; [|by apply wf_windows0].
    intros [= <-]. split; [|done]. intros b. simpl. rewrite lookup_bt_split_off.
    case_decide; [done|by intros []].
  - intros j' Hj'. simpl. destruct (decide (j = j')) as [<-|Hne]; [rewrite lookup_insert_eq; by eexists|].
    rewrite lookup_insert_ne by done. apply wf_scalars0. simpl in Hj'. by rewrite lookup_insert_ne in Hj'.
  - intros j'. rewrite collected_registry, collected_effective. case_decide; [subst|by apply wf_owned0].
    destruct (wf_owned0 j) as [Hl He]. split; [|done]. intros b r. rewrite lookup_bt_split_off.
    case_decide; [apply Hl|done].
  - intros j'. rewrite collected_registry, collected_effective. case_decide; [subst|by apply wf_reconfigured0].
    intros b r. rewrite lookup_bt_split_off. case_decide; [apply wf_reconfigured0|done].
Qed.

Definition gc_result (j : JournalId) (g : MatchmakerGeneration) (watermark : Ballot) : Matchmaker * GcOutcome :=
  if decide (is_Some (judged m g)) then (m, GRefused) else
  if decide (watermark ≤ hard_watermark (mm_hard m) j)%B then (m, GUnchanged)
  else (collected j watermark, GRaised).

Lemma advance_gc_watermark_ok j g watermark :
  advance_gc_watermark m j g watermark = Done (gc_result j g watermark).
Proof using Hwf.
  unfold advance_gc_watermark, gc_result. rewrite (mm_assert_invariants_ok reg) by done. rsimpl.
  rewrite (generation_refusal_ok reg) by done. rsimpl. case_decide; [done|].
  case_decide as Hle; [done|].
  destruct (mm_window_ok reg m Hwf j) as (m' & Ew & Hput).
  assert (mm_hard m' = mm_hard m /\ mm_config m' = mm_config m /\ mm_set m' = mm_set m /\
          mm_writes m' = mm_writes m /\ mm_replies m' = mm_replies m /\
          mm_reconfigure_replies m' = mm_reconfigure_replies m /\ mm_limits m' = mm_limits m)
    as (Eh & Ec & Es & Ewr & Er & Err & El).
  { specialize (Hput (mkWindow ∅ watermark)). unfold put_window, with_registries in Hput.
    injection Hput. intros. split_and!; assumption. }
  rewrite Ew. rsimpl. cbv beta iota. rewrite window_raise_floor_ok by (by apply ord_lt_le). rsimpl.
  simpl w_entries. rewrite Hput.
  set (m1 := push_write _ _). assert (m1 = collected j watermark) as ->.
  { unfold m1, push_write, with_hard, put_window, with_registries, collected; simpl. done. }
  pose proof (collected_wf j watermark) as Hwf'.
  destruct (mm_window_ok reg _ Hwf' j) as (m2 & Ew2 & Hput2).
  assert (m2 = collected j watermark) as ->.
  { revert Ew2. unfold mm_window, entry_window. simpl. rewrite lookup_insert_eq. rsimpl.
    intros Ew2. rinv Ew2. by injection Ew2 as <-. }
  rewrite Ew2. rsimpl. cbv beta iota. rewrite window_floor_ok.
  2:{ intros b [r Hr]. by eapply registry_floor. }
  rsimpl. cbn [w_floor]. rassert_by (by rewrite collected_watermark, decide_True by done).
  rassert_by idtac.
  { apply Forall_forall. intros [j' wm'] Hin.
    apply list_elem_of_fmap in Hin as ([j1 s] & [= -> ->] & Hin). apply list_elem_of_filter in Hin as [Hne Hin].
    cbn [fst snd] in *. rewrite collected_watermark, decide_False by done.
    apply elem_of_bt_entries in Hin. unfold hard_watermark. by rewrite Hin. }
  rassert_by (simpl; rewrite length_app; simpl; lia).
  rewrite (mm_assert_invariants_ok reg) by done. done.
Qed.

(** ** The answer to a garbage collection *)

Definition newer_of (g : MatchmakerGeneration) : option MatchmakerSet :=
  match judged m g with
  | Some (RStopped successor) => successor
  | Some (RGeneration current) => if decide (g < ms_generation current) then Some current else None
  | _ => None
  end.

Lemma newer_set_ok g : mh_generation (mm_hard m) < u64_max -> newer_set m g = Done (newer_of g).
Proof using Hwf.
  intros Hlt. unfold newer_set, newer_of. rewrite (judge_generation_ok reg) by done. rsimpl.
  pose proof (wf_successor _ _ Hwf) as Hs. pose proof (mm_set_generation reg m Hwf) as Hg.
  unfold judged. unfold next_generation in *. destruct (phase_of m); try done.
  - case_decide; [done|]. by case_decide; rassert_by done.
  - case_decide as Eg; destruct (mh_successor (mm_hard m)) as [s|]; simpl in Hs; try by rassert_by done.
    + rassert_by (simpl; lia). done.
    + case_decide as Hn; [|by rassert_by done]. rassert_by (simpl; lia). done.
    + case_decide as Hn; [|by rassert_by done]. rewrite decide_True by done. by rassert_by done.
Qed.

Definition frozen_of (g : MatchmakerGeneration) : bool :=
  match judged m g with Some (RStopped None) => true | _ => false end.

Lemma frozen_without_successor_ok g :
  mh_generation (mm_hard m) < u64_max -> frozen_without_successor m g = Done (frozen_of g).
Proof using Hwf.
  intros Hlt. unfold frozen_without_successor, frozen_of. rewrite (judge_generation_ok reg) by done. rsimpl.
  rewrite mm_phase_ok, newer_set_ok by done. rsimpl. unfold newer_of.
  destruct (judged m g) as [[| |[s|]| |]|] eqn:E; try done.
  eapply bind_seq; [|done]. rassert_by idtac; [|by apply rassert_true].
  revert E. unfold judged. destruct (phase_of m); try done. by case_decide.
Qed.

(** The ack of a request whose raise returned [outcome]. *)
Lemma gc_ack_ok request :
  mh_generation (mm_hard m) < u64_max ->
  let result := gc_result (gq_journal request) (gq_generation request) (gq_watermark request) in
  exists ack, gc_ack result.1 request result.2 = Done ack /\
    ga_applied ack = bool_decide (judged m (gq_generation request) = None) /\
    (ga_applied ack = true -> (gq_watermark request ≤ ga_watermark ack)%B) /\
    (ga_applied ack = false -> ga_newer ack = newer_of (gq_generation request) /\
    ga_stopped ack = frozen_of (gq_generation request)).
Proof using Hwf.
  intros Hlt result. unfold gc_ack. destruct result as [m' o] eqn:E. unfold result, gc_result in E.
  destruct (judged m (gq_generation request)) as [ref|] eqn:Ej.
  - rewrite decide_True in E by by eexists. injection E as <- <-. simpl.
    rewrite newer_set_ok, frozen_without_successor_ok, (generation_refusal_ok reg) by done. rsimpl.
    rewrite Ej. eapply ex_intro. split.
    { eapply bind_seq; [by apply rassert_true; eexists|]. cbv beta.
      rassert_by (unfold frozen_of, newer_of; rewrite Ej; by destruct ref as [| |[]| |]). done. }
    done.
  - rewrite decide_False in E by by intros []. simpl.
    assert ((gq_watermark request ≤ hard_watermark (mm_hard m') (gq_journal request))%B /\ o <> GRefused) as [Hw Ho].
    { case_decide; injection E as <- <-; [done|]. rewrite collected_watermark, decide_True by done. done. }
    rewrite bool_decide_eq_false_2 by done. simpl. rsimpl. eapply ex_intro. split.
    { rassert_by done. done. }
    done.
Qed.
End calls.

(** ** A matchmaker that holds nothing *)

Definition fresh_matchmaker (i : MatchmakerId) (bootstrap : list MatchmakerId) (limits : Limits) : Matchmaker :=
  mkMatchmaker (mkMatchmakerConfig i bootstrap) hard_default (mkSet 0 bootstrap) ∅ [] [] [] limits.

Lemma fresh_wf reg i bootstrap limits :
  set_wf (mkSet 0 bootstrap) -> limits_valid limits -> mm_wf reg (fresh_matchmaker i bootstrap limits).
Proof.
  intros Hs Hl. constructor; simpl; try done; try (by apply Hl).
  - intros j [sc Hsc]. by rewrite lookup_empty in Hsc.
  - apply Hs.
  - unfold derive_set, resolved_set; simpl.
    pose proof (normalize_id bootstrap (swf_sorted _ Hs)) as En.
    destruct (set_new_ok 0 bootstrap) as [-> _]; [apply Hs|rewrite En; apply Hs|]. rewrite En. rsimpl.
    rassert_by done. rewrite set_members_ok by done. rsimpl. by rassert_by apply (swf_nonempty _ Hs).
  - unfold phase_of; simpl. case_decide; [done|]. by intros [?|?].
  - apply NoDup_nil_2.
Qed.


(** ** The pages of a history *)

(** Asking for page after page, each from the cursor of the one before. *)
Fixpoint all_pages (fuel : nat) (window : list record) (limit : N) : run (list (gmap Ballot Registration)) :=
  match fuel with
  | O => Panic "out of pages"
  | S fuel =>
      '(page, cursor) ← history_page window limit;
      match cursor with
      | None => mret [page]
      | Some c => pages ← all_pages fuel (filter (fun e => (c ≤ e.1)%B) window) limit; mret (page :: pages)
      end
  end.

(** From a kept record on, the rest of the window keeps what the whole does. *)
Lemma kept_records_from window c r e :
  StronglySorted key_lt window -> (c, r) ∈ kept_records window ->
  e ∈ kept_records (filter (fun e => (c ≤ e.1)%B) window) <-> e ∈ kept_records window /\ (c ≤ e.1)%B.
Proof.
  intros Hs Hin. assert ((c, r) ∈ window) as Hw by (eapply elem_of_sublist; [done|apply kept_records_sublist]).
  apply list_elem_of_split in Hw as (l1 & l2 & ->).
  assert (Forall (fun e : record => ~ (c ≤ e.1)%B) l1) as H1.
  { apply Forall_forall. intros x Hx. apply ord_not_le.
    apply (StronglySorted_app_1_elem_of key_lt l1 ((c, r) :: l2) x (c, r)); [done|done|left]. }
  assert (Forall (fun e : record => (c ≤ e.1)%B) ((c, r) :: l2)) as H2.
  { apply StronglySorted_app_1_r, StronglySorted_inv in Hs as [_ Hall]. constructor; [reflexivity|].
    eapply Forall_impl; [exact Hall|]. intros x. apply ord_lt_le. }
  rewrite filter_app, (filter_none _ l1 H1), (filter_all _ _ H2), app_nil_l.
  destruct (kept_records_app l1 ((c, r) :: l2)) as (l & -> & Hsub). rewrite elem_of_app. split.
  - intros He. split; [by right|]. rewrite Forall_forall in H2. apply H2.
    eapply elem_of_sublist; [done|apply kept_records_sublist].
  - intros [[He|He] Hc]; [|done]. rewrite Forall_forall in H1. exfalso. eapply H1; [|exact Hc].
    by eapply elem_of_sublist.
Qed.

Lemma all_pages_ok fuel window limit :
  StronglySorted key_lt window -> 0 < limit -> (length window < fuel)%nat ->
  exists pages, all_pages fuel window limit = Done pages /\ Forall (fun p => msize p <= limit) pages /\
    forall b r, (exists p, p ∈ pages /\ p !! b = Some r) <-> (b, r) ∈ kept_records window.
Proof.
  revert window. induction fuel as [|fuel IH]; intros window Hs Hl Hf; [lia|]. simpl.
  rewrite history_page_ok by done. rsimpl. cbv beta iota.
  pose proof (page_of_size window limit Hs) as Hsize.
  destruct (kept_cursor window limit) as [c|] eqn:Ec.
  - unfold kept_cursor in Ec. apply fmap_Some_1 in Ec as ([c' r] & Eh & ->). cbn [fst].
    assert ((c', r) ∈ kept_records window) as Hin.
    { eapply elem_of_sublist; [|apply (sublist_drop _ (N.to_nat limit))]. by apply head_Some_elem_of. }
    pose proof (kept_sorted window Hs) as Hks.
    rewrite <-(take_drop (N.to_nat limit) (kept_records window)) in Hks.
    assert (forall e, e ∈ take (N.to_nat limit) (kept_records window) -> (e.1 < c')%B) as Hlt.
    { intros e He. apply (StronglySorted_app_1_elem_of key_lt _ _ e (c', r) Hks He). by apply head_Some_elem_of. }
    assert (exists e, e ∈ take (N.to_nat limit) (kept_records window)) as [e He].
    { destruct (kept_records window) as [|x l]; [by rewrite drop_nil in Eh|]. exists x.
      destruct (N.to_nat limit) eqn:El; [lia|]. left. }
    destruct (IH (filter (fun e => (c' ≤ e.1)%B) window)) as (pages & -> & Hsz & Hmem).
    { eapply StronglySorted_sublist; [apply sublist_filter|done]. }
    { done. }
    { enough (length (filter (fun e : record => (c' ≤ e.1)%B) window) < length window)%nat by lia.
      apply (length_filter_lt _ _ e).
      - eapply elem_of_sublist; [|apply kept_records_sublist]. eapply elem_of_sublist; [done|apply sublist_take].
      - apply ord_not_le. by apply Hlt. }
    rsimpl. eexists. split; [done|]. split; [by constructor|]. intros b0 r0. split.
    + intros (p & [->|Hp]%elem_of_cons & Hr).
      * apply lookup_page_of in Hr; [|done]. eapply elem_of_sublist; [done|apply sublist_take].
      * assert ((b0, r0) ∈ kept_records (filter (fun e : record => (c' ≤ e.1)%B) window)) as Hk
          by (apply Hmem; by exists p).
        by apply (kept_records_from window c' r _ Hs Hin) in Hk as [? _].
    + intros Hk. destruct (decide (c' ≤ b0)%B) as [Hc|Hc].
      * destruct (proj2 (Hmem b0 r0)) as (p & Hp & Hr); [by apply (kept_records_from window c' r _ Hs Hin)|].
        exists p. split; [by right|done].
      * exists (kept_page window limit). split; [left|]. apply lookup_page_of; [done|].
        rewrite <-(take_drop (N.to_nat limit) (kept_records window)) in Hk.
        apply elem_of_app in Hk as [?|Hk]; [done|]. destruct Hc.
        apply StronglySorted_app_1_r in Hks. destruct (drop (N.to_nat limit) (kept_records window)) as [|x l]; [done|].
        injection Eh as ->. apply elem_of_cons in Hk as [[= -> ->]|Hk]; [reflexivity|].
        apply StronglySorted_inv in Hks as [_ Hall]. rewrite Forall_forall in Hall. apply ord_lt_le. by apply (Hall _ Hk).
  - eexists. split; [done|]. split; [by constructor|]. intros b0 r0. split.
    + intros (p & ->%list_elem_of_singleton & Hr). apply lookup_page_of in Hr; [|done].
      eapply elem_of_sublist; [done|apply sublist_take].
    + intros Hk. exists (kept_page window limit). split; [left|]. apply lookup_page_of; [done|].
      rewrite <-(take_drop (N.to_nat limit) (kept_records window)) in Hk.
      apply elem_of_app in Hk as [?|Hk]; [done|]. unfold kept_cursor in Ec.
      destruct (drop (N.to_nat limit) (kept_records window)); [by apply elem_of_nil in Hk|done].
Qed.

(** ** Theorems *)

(** C34: the pages of a history lose nothing.  Asking page after page from each
    page's cursor ends, every page is within its limit, and together the pages
    hold only records of the window; every configuration of the window is on
    some page, at its own ballot or a later one, and every reconfiguration at
    its own. *)
Theorem history_pages_complete window limit :
  StronglySorted key_lt window -> 0 < limit ->
  exists pages, all_pages (S (length window)) window limit = Done pages /\
    Forall (fun p => msize p <= limit) pages /\
    (forall p b r, p ∈ pages -> p !! b = Some r -> (b, r) ∈ window) /\
    (forall b r, (b, r) ∈ window -> exists p b' r', p ∈ pages /\ p !! b' = Some r' /\
       (b ≤ b')%B /\ rg_config r' = rg_config r) /\
    (forall b r, (b, r) ∈ window -> rg_kind r = Reconfiguration -> exists p, p ∈ pages /\ p !! b = Some r).
Proof.
  intros Hs Hl. destruct (all_pages_ok (S (length window)) window limit Hs Hl) as (pages & E & Hsz & Hmem); [lia|].
  exists pages. split_and!; [done|done|..].
  - intros p b r Hp Hr. eapply elem_of_sublist; [|apply kept_records_sublist]. apply Hmem. by exists p.
  - intros b r Hin. destruct (kept_records_covers window (b, r) Hs Hin) as ([b' r'] & Hk & Hc & Hle).
    apply Hmem in Hk as (p & Hp & Hr). by exists p, b', r'.
  - intros b r Hin Hk. apply Hmem. by apply kept_records_reconfiguration.
Qed.

Section theorems.
Context (reg : JournalId -> Ballot -> Registration) (m : Matchmaker) (Hwf : mm_wf reg m).

(** A registration, on every branch: a request of another generation or
    phase is refused with the fence's verdict; one below the watermark with the
    watermark; the same registration again is answered and changes nothing; any
    other at or below the highest registered ballot is refused as stale; above
    it, the record lands, the effective configuration rises with a
    reconfiguration, and both are staged.  The answer pages the history strictly
    below the ballot. *)
Theorem register_exact from j b config kind g cursor :
  mkReg config kind = reg j b -> is_none_or (fun c => c ≤ b)%B cursor ->
  let watermark := hard_watermark (mm_hard m) j in
  exists m' outcome,
    mm_step m (mkRequest from j b config (PRegister kind) g cursor) =
      Done (push_reply m' (mkReply (mm_id m) j from b g outcome)) /\ mm_wf reg m' /\
    (forall refusal, judged m g = Some refusal -> outcome = MRefused refusal /\ m' = m) /\
    (judged m g = None -> (b < watermark)%B -> outcome = MRefused (BelowWatermark watermark) /\ m' = m) /\
    (judged m g = None -> (watermark ≤ b)%B -> registry_of m j !! b = Some (reg j b) ->
       outcome = Registered (answer m j cursor b) /\ m' = m) /\
    (forall highest, judged m g = None -> (watermark ≤ b)%B -> registry_of m j !! b <> Some (reg j b) ->
       last_key_of (registry_of m j) = Some highest -> (b ≤ highest)%B ->
       outcome = MRefused (Stale highest) /\ m' = m) /\
    (judged m g = None -> (watermark ≤ b)%B -> is_none_or (fun h => h < b)%B (last_key_of (registry_of m j)) ->
       outcome = Registered (answer m j cursor b) /\ m' = registered m j b (reg j b)).
Proof using Hwf.
  intros Hr Hc watermark. pose proof (step_register_ok reg m Hwf from j b config kind g cursor Hr Hc) as E.
  pose proof (register_result_wf reg m Hwf j b g cursor) as Hwf'. unfold register_result in *. fold watermark in E, Hwf'.
  exists (register_result m j b g cursor (reg j b)).1, (register_result m j b g cursor (reg j b)).2.
  unfold register_result. fold watermark. split; [exact E|]. split; [exact Hwf'|]. clear E Hwf'.
  split_and!.
  - intros refusal ->. done.
  - intros -> Hlt. by rewrite decide_True.
  - intros -> Hle Hreg. rewrite decide_False by by apply ord_not_lt.
    destruct (last_key_of (registry_of m j)) as [h|] eqn:El.
    + apply last_key_of_Some in El as [_ Hmax]. rewrite !decide_True; [done|done|apply Hmax; by eexists].
    + apply last_key_of_None in El. by rewrite El, lookup_empty in Hreg.
  - intros h -> Hle Hreg -> Hh. rewrite decide_False by by apply ord_not_lt. rewrite decide_True by done.
    by rewrite decide_False.
  - intros -> Hle Hh. rewrite decide_False by by apply ord_not_lt.
    destruct (last_key_of (registry_of m j)) as [h|]; [|done]. rewrite decide_False; [done|].
    by apply ord_not_le.
Qed.

(** C40: a request whose page cursor is above its own ballot stops the
    matchmaker: when the generation is the one it serves, the ballot is at or above the
    journal's collected floor, the journal has a registry and the ballot is registered with
    this configuration or above every registered one, the range of the history has crossed bounds and
    the call panics. *)
Theorem cursor_above_ballot_panics from j b config kind g c :
  mkReg config kind = reg j b -> judged m g = None -> (hard_watermark (mm_hard m) j ≤ b)%B ->
  is_Some (mm_registries m !! j) ->
  registry_of m j !! b = Some (reg j b) \/ is_none_or (fun h => h < b)%B (last_key_of (registry_of m j)) ->
  (b < c)%B ->
  mm_step m (mkRequest from j b config (PRegister kind) g (Some c)) =
    Panic "range start is greater than range end in BTreeMap".
Proof using Hwf.
  intros Hr Hj Hle Hw Hb Hc. unfold mm_step. rewrite (mm_assert_invariants_ok reg) by done. rsimpl. rewrite Hr.
  assert (register_outcome m j b g (Some c) (reg j b) = Panic "range start is greater than range end in BTreeMap") as E.
  { unfold register_outcome. rewrite (generation_refusal_ok reg) by done. rsimpl. rewrite Hj.
    rewrite decide_False by by apply ord_not_lt. rewrite (mm_highest_ok reg) by done. rsimpl.
    pose proof (mm_page_crossed m j c b Hw Hc) as Hp.
    assert (register_fresh m j b (Some c) (reg j b) = Panic "range start is greater than range end in BTreeMap") as Hf
      by (unfold register_fresh; by rewrite Hp).
    destruct (last_key_of (registry_of m j)) as [h|] eqn:El; [|done].
    case_decide as Hh; [|done]. destruct Hb as [Hb|Hb]; [|by destruct (ord_lt_irrefl b (ord_le_lt_trans _ _ _ Hh Hb))].
    rewrite (mm_registry_ok reg) by done. rsimpl. by rewrite decide_True, Hp. }
  by rewrite E.
Qed.

(** Raising the garbage-collection floor, on every branch, with its ack: a
    generation the matchmaker does not serve is refused and told what replaced
    it; a floor not above the held one changes nothing; otherwise exactly the
    records below it go, the effective configuration stays, the raise is staged,
    and the ack names a floor that covers the request. *)
Theorem gc_exact request :
  mh_generation (mm_hard m) < u64_max ->
  let '(j, g, watermark) := (gq_journal request, gq_generation request, gq_watermark request) in
  exists m' outcome ack,
    advance_gc_watermark m j g watermark = Done (m', outcome) /\ gc_ack m' request outcome = Done ack /\
    mm_wf reg m' /\ (ga_applied ack = true <-> judged m g = None) /\
    (judged m g <> None -> m' = m /\ outcome = GRefused /\ ga_newer ack = newer_of m g /\ ga_stopped ack = frozen_of m g) /\
    (judged m g = None -> (watermark ≤ hard_watermark (mm_hard m) j)%B -> m' = m /\ outcome = GUnchanged) /\
    (judged m g = None -> (hard_watermark (mm_hard m) j < watermark)%B ->
       outcome = GRaised /\ mm_writes m' = mm_writes m ++ [MSetGcWatermark j watermark] /\
       (forall j', hard_watermark (mm_hard m') j' = if decide (j' = j) then watermark else hard_watermark (mm_hard m) j') /\
       (forall j', hard_effective (mm_hard m') j' = hard_effective (mm_hard m) j') /\
       (forall b r, registry_of m' j !! b = Some r <-> registry_of m j !! b = Some r /\ (watermark ≤ b)%B) /\
       (forall j', j' <> j -> registry_of m' j' = registry_of m j')) /\
    (ga_applied ack = true -> (watermark ≤ ga_watermark ack)%B).
Proof using Hwf.
  intros Hlt. set (j := gq_journal request). set (g := gq_generation request). set (wm := gq_watermark request).
  destruct (gc_ack_ok reg m Hwf request Hlt) as (ack & Ea & Happ & Hcov & Hnew). fold j g wm in Ea, Happ, Hcov, Hnew.
  exists (gc_result m j g wm).1, (gc_result m j g wm).2, ack.
  split; [rewrite (advance_gc_watermark_ok reg) by done; by destruct (gc_result m j g wm)|].
  split; [exact Ea|]. clear Ea.
  assert (ga_applied ack = true <-> judged m g = None) as Hiff by by rewrite Happ, bool_decide_eq_true.
  unfold gc_result. split_and!; [|done|..|done].
  - case_decide; [done|]. case_decide; [done|]. by apply collected_wf.
  - intros Hn. destruct (judged m g) eqn:Ej; [|done]. rewrite decide_True by by eexists. split_and!; try done;
      apply Hnew; apply not_true_is_false; rewrite Hiff; done.
  - intros -> Hle. rewrite decide_False by by intros []. by rewrite decide_True.
  - intros -> Hgt. rewrite decide_False by by intros []. rewrite decide_False by by apply ord_not_le. cbn [fst snd].
    split_and!; [done|done|..].
    + intros j'. by rewrite collected_watermark.
    + intros j'. by rewrite collected_effective.
    + intros b r. rewrite collected_registry, decide_True by done. rewrite lookup_bt_split_off. case_decide; naive_solver.
    + intros j' Hne. by rewrite collected_registry, decide_False.
Qed.
End theorems.

(** A matchmaker of three that registered one ballot. *)
Definition sample_config : Config := mkConfig [0; 1; 2] Majority [] 0 0 0.
Definition sample_reg (j : JournalId) (b : Ballot) : Registration := mkReg sample_config Belief.
Definition sample_fresh : Matchmaker := fresh_matchmaker 0 [0; 1; 2] limits_default.
Definition sample_mm : Matchmaker := registered sample_fresh 0 (mkBallot 1 0) (mkReg sample_config Belief).

Lemma sample_set_wf : set_wf (mkSet 0 [0; 1; 2]).
Proof. apply set_wf_alt. split_and!; [by apply (bool_decide_unpack _); vm_compute|done|by vm_compute]. Qed.
Lemma sample_fresh_wf : mm_wf sample_reg sample_fresh.
Proof. apply fresh_wf; [apply sample_set_wf|apply limits_default_valid]. Qed.
Lemma sample_mm_wf : mm_wf sample_reg sample_mm.
Proof. apply registered_wf; [apply sample_fresh_wf|by apply (bool_decide_unpack _); vm_compute|done]. Qed.

Lemma history_pages_complete_witness :
  exists pages, all_pages 3 [(mkBallot 1 0, mkReg sample_config Belief); (mkBallot 2 0, mkReg sample_config Belief)] 1 =
    Done pages /\ Forall (fun p => msize p <= 1) pages.
Proof.
  destruct (history_pages_complete [(mkBallot 1 0, mkReg sample_config Belief); (mkBallot 2 0, mkReg sample_config Belief)] 1)
    as (pages & E & Hs & _).
  - repeat constructor; by apply (bool_decide_unpack _); vm_compute.
  - lia.
  - by exists pages.
Defined.

Lemma register_exact_witness :
  exists m' outcome, mm_step sample_mm (mkRequest 7 0 (mkBallot 2 0) sample_config (PRegister Belief) 0 None) =
    Done (push_reply m' (mkReply 0 0 7 (mkBallot 2 0) 0 outcome)).
Proof.
  destruct (register_exact sample_reg sample_mm sample_mm_wf 7 0 (mkBallot 2 0) sample_config Belief 0 None
              eq_refl I) as (m' & outcome & E & _). by exists m', outcome.
Defined.

Lemma cursor_above_ballot_panics_witness :
  mm_step sample_mm (mkRequest 7 0 (mkBallot 1 0) sample_config (PRegister Belief) 0 (Some (mkBallot 9 0))) =
    Panic "range start is greater than range end in BTreeMap".
Proof.
  apply (cursor_above_ballot_panics sample_reg sample_mm sample_mm_wf); try reflexivity.
  - by apply (bool_decide_unpack _); vm_compute.
  - by eexists.
  - by left.
  - by apply (bool_decide_unpack _); vm_compute.
Defined.

Lemma gc_exact_witness :
  exists m' outcome, advance_gc_watermark sample_mm 0 0 (mkBallot 2 0) = Done (m', outcome) /\ mm_wf sample_reg m'.
Proof.
  destruct (gc_exact sample_reg sample_mm sample_mm_wf (mkGcRequest 7 0 0 (mkBallot 2 0)))
    as (m' & outcome & ack & E & _ & Hwf & _); [by vm_compute|]. by exists m', outcome.
Defined.
