(* ===== verification/MatchmakerStorage.v ===== *)
(** * The matchmaker's registry store ([matchmaker/storage.rs])

    [MemRegistry], the reference store of a matchmaker's durable records, with
    the semantics of every staged write; and what a boot reads back from it.
    [image d m] says that the store [d] holds what the matchmaker [m] does:
    applying the writes a matchmaker stages keeps the store its image, and a
    boot from an image is the matchmaker again. *)

From S2P Require Import Prelude BTree Types Retained Contract QuorumSystem AcceptorConfig Acceptor Decree MatchmakerSet MatchmakerState Matchmaker MatchmakerInv.

Implicit Types m : Matchmaker.

(** ** The store *)

Record MemRegistry := mkMem {
  mem_hard : MatchmakerHardState;
  mem_registry : gmap JournalId Ledger }.

Implicit Types d : MemRegistry.

Definition holds_records (e : JournalId * Ledger) : Prop := e.2 <> ∅.

#[export] Instance holds_records_dec e : Decision (holds_records e).
Proof. unfold holds_records. apply _. Defined.

(** [MemRegistry::new]. *)
Definition registry_new (h : MatchmakerHardState) (registrations : gmap JournalId Ledger) : MemRegistry :=
  mkMem h (filter holds_records registrations).

(** [MemRegistry::collect]. *)
Definition mem_collect d (journal : JournalId) (watermark : Ballot) : MemRegistry :=
  match mem_registry d !! journal with
  | Some ledger =>
      let kept : Ledger := bt_split_off watermark ledger in
      mkMem (mem_hard d) (if decide (kept = ∅) then delete journal (mem_registry d)
                          else <[journal := kept]> (mem_registry d))
  | None => d
  end.

(** A journal of the replaced scalars keeps the higher watermark. *)
Definition keep_floor (h : MatchmakerHardState) (entry : JournalId * JournalScalars) : MatchmakerHardState :=
  let watermark := ord_max (hard_watermark h entry.1) (js_watermark entry.2) in
  journal_mut h entry.1 (fun s => mkScalars watermark (js_effective s)).

(** Nothing below a journal's floor. *)
Definition mem_floors d : Prop :=
  Forall (fun e : JournalId * Ledger =>
    is_none_or (fun b => hard_watermark (mem_hard d) e.1 ≤ b)%B (first_key_of e.2))
    (bt_entries (mem_registry d)).

(** [MemRegistry::apply]. *)
Definition registry_apply d (op : MatchmakerWriteOp) : run MemRegistry :=
  d ← match op with
      | MRegister journal ballot registration =>
          rassert (hard_watermark (mem_hard d) journal ≤ ballot)%B
            "a registration is persisted at or above the watermark";;
          let ledger : Ledger := default ∅ (mem_registry d !! journal) in
          mret (mkMem (mem_hard d) (<[journal := <[ballot := registration]> ledger]> (mem_registry d)))
      | MSetGcWatermark journal watermark =>
          let d :=
            if decide (hard_watermark (mem_hard d) journal < watermark)%B then
              mem_collect (mkMem (journal_mut (mem_hard d) journal (fun s => mkScalars watermark (js_effective s)))
                             (mem_registry d)) journal watermark
            else d in
          rassert (watermark ≤ hard_watermark (mem_hard d) journal)%B "a persisted watermark covers the raise";;
          mret d
      | MSetScalars scalars =>
          let h := foldl keep_floor scalars (bt_entries (mh_journals (mem_hard d))) in
          mret (foldl (fun d (e : JournalId * JournalScalars) => mem_collect d e.1 (js_watermark e.2))
                  (mkMem h (mem_registry d)) (bt_entries (mh_journals h)))
      | MInstallRegistry scalars registrations =>
          mret (mkMem scalars (filter holds_records
                  (map_imap (fun journal (ledger : Ledger) =>
                     Some (bt_split_off (hard_watermark scalars journal) ledger)) registrations)))
      end;
  rassert (mem_floors d) "a persisted registry holds nothing below its watermark";;
  mret d.

(** [impl RegistryStorage for MemRegistry]. *)
#[export] Instance MemRegistry_storage : RegistryStorage MemRegistry := {
  rs_initial_state := mem_hard;
  rs_registration d journal ballot := (mem_registry d !! journal) ≫= (fun ledger : Ledger => ledger !! ballot);
  rs_registered d :=
    concat ((fun e : JournalId * Ledger => (fun ballot => (e.1, ballot)) <$> bt_keys e.2) <$>
            bt_entries (mem_registry d)) }.

(** A batch, in the order it was staged. *)
Definition registry_apply_all d (ops : list MatchmakerWriteOp) : run MemRegistry := foldM registry_apply d ops.

(** ** What the store holds *)

Definition mem_ledger d (j : JournalId) : Ledger := default ∅ (mem_registry d !! j).

Definition ledgers_above (h : MatchmakerHardState) d : Prop :=
  forall j b, is_Some (mem_ledger d j !! b) -> (hard_watermark h j ≤ b)%B.

Lemma mem_floors_ok d : ledgers_above (mem_hard d) d -> mem_floors d.
Proof.
  intros Hd. apply Forall_forall. intros [j l] Hin. apply elem_of_bt_entries in Hin. simpl.
  apply first_key_ge. intros b Hb. apply Hd. unfold mem_ledger. by rewrite Hin.
Qed.

Lemma mem_collect_hard d j watermark : mem_hard (mem_collect d j watermark) = mem_hard d.
Proof. unfold mem_collect. by destruct (mem_registry d !! j). Qed.

Lemma mem_collect_ledger d j watermark j' :
  mem_ledger (mem_collect d j watermark) j' =
    if decide (j' = j) then bt_split_off watermark (mem_ledger d j) else mem_ledger d j'.
Proof.
  unfold mem_ledger, mem_collect. destruct (mem_registry d !! j) as [l|] eqn:E; simpl.
  - case_decide as Hk; simpl; [rewrite lookup_delete|rewrite lookup_insert];
      repeat case_decide; subst; rewrite ?E; simpl; congruence.
  - case_decide; [|done]. subst. rewrite E. simpl. apply map_eq. intros b.
    rewrite lookup_bt_split_off, lookup_empty. by case_decide.
Qed.

Lemma bt_split_off_id (l : Ledger) watermark :
  (forall b, is_Some (l !! b) -> (watermark ≤ b)%B) -> bt_split_off watermark l = l.
Proof.
  intros Hl. apply map_eq. intros b. rewrite lookup_bt_split_off. case_decide as Hb; [done|].
  destruct (l !! b) eqn:E; [|done]. destruct Hb. apply Hl. by rewrite E.
Qed.

(** Collecting at floors every record is above already changes no ledger. *)
Lemma mem_collects_above l d :
  (forall j sc b, (j, sc) ∈ l -> is_Some (mem_ledger d j !! b) -> (js_watermark sc ≤ b)%B) ->
  let d' := foldl (fun d (e : JournalId * JournalScalars) => mem_collect d e.1 (js_watermark e.2)) d l in
  mem_hard d' = mem_hard d /\ forall j, mem_ledger d' j = mem_ledger d j.
Proof.
  revert d. induction l as [|[j sc] l IH]; intros d Hl; simpl; [done|].
  assert (forall j', mem_ledger (mem_collect d j (js_watermark sc)) j' = mem_ledger d j') as Hc.
  { intros j'. rewrite mem_collect_ledger. case_decide; [|done]. subst. apply bt_split_off_id.
    intros b. apply Hl. left. }
  destruct (IH (mem_collect d j (js_watermark sc))) as [H1 H2].
  { intros j' sc' b Hin. rewrite Hc. apply Hl. by right. }
  rewrite H1, mem_collect_hard. split; [done|]. intros j'. by rewrite H2.
Qed.

(** Keeping floors the scalars have already changes nothing. *)
Lemma keep_floor_id h l :
  (forall j sc, (j, sc) ∈ l -> is_Some (mh_journals h !! j) /\ js_watermark sc = hard_watermark h j) ->
  foldl keep_floor h l = h.
Proof.
  induction l as [|[j sc] l IH]; intros Hl; simpl; [done|].
  assert (keep_floor h (j, sc) = h) as ->; [|apply IH; intros; apply Hl; by right].
  destruct (Hl j sc) as [[s Hs] Hw]; [left|]. unfold keep_floor, journal_mut; simpl. rewrite Hw.
  unfold scalars_of, hard_watermark. rewrite Hs. simpl. unfold ord_max.
  rewrite insert_id; [by destruct h|]. rewrite Hs. by case_decide; destruct s.
Qed.

(** [d] holds what [m] does, up to scalars [m] has still to stage. *)
Record rough d m : Prop := {
  ro_ledger : forall j, mem_ledger d j = registry_of m j;
  ro_floor : forall j, hard_watermark (mem_hard d) j = hard_watermark (mm_hard m) j;
  ro_journals : forall j, is_Some (mh_journals (mem_hard d) !! j) -> is_Some (mh_journals (mm_hard m) !! j) }.

Record image d m : Prop := {
  im_ledger : forall j, mem_ledger d j = registry_of m j;
  im_hard : mem_hard d = mm_hard m }.

Lemma image_rough d m : image d m -> rough d m.
Proof. intros [Hl Hh]. constructor; [done|by rewrite Hh..]. Qed.
Lemma rough_image d m : rough d m -> mem_hard d = mm_hard m -> image d m.
Proof. by intros [] ?. Qed.

Lemma registry_apply_checked d' :
  ledgers_above (mem_hard d') d' ->
  (rassert (mem_floors d') "a persisted registry holds nothing below its watermark";; mret d') = Done d'.
Proof. intros Hd. by rewrite rassert_true by by apply mem_floors_ok. Qed.

Section apply.
Context (reg : JournalId -> Ballot -> Registration).

Lemma image_above d m : mm_wf reg m -> rough d m -> ledgers_above (mem_hard d) d.
Proof using.
  intros Hwf [Hl Hf _] j b [r Hr]. rewrite Hf. rewrite Hl in Hr. by eapply registry_floor.
Qed.

(** Scalars with the floors the store holds replace its own and move no record. *)
Lemma apply_scalars_at d h :
  ledgers_above (mem_hard d) d -> (forall j, hard_watermark (mem_hard d) j = hard_watermark h j) ->
  (forall j, is_Some (mh_journals (mem_hard d) !! j) -> is_Some (mh_journals h !! j)) ->
  exists d', registry_apply d (MSetScalars h) = Done d' /\ mem_hard d' = h /\
    forall j, mem_ledger d' j = mem_ledger d j.
Proof using.
  intros Hab Hf Hj. unfold registry_apply. rewrite keep_floor_id.
  2:{ intros j sc Hin. apply elem_of_bt_entries in Hin. split; [apply Hj; by eexists|].
      rewrite <-Hf. unfold hard_watermark. by rewrite Hin. }
  destruct (mem_collects_above (bt_entries (mh_journals h)) (mkMem h (mem_registry d))) as [H1 H2].
  { intros j sc b Hin Hb. apply elem_of_bt_entries in Hin.
    assert (js_watermark sc = hard_watermark (mem_hard d) j) as ->.
    { rewrite Hf. unfold hard_watermark. by rewrite Hin. }
    by apply Hab. }
  set (d' := foldl _ _ _) in *. exists d'. rsimpl. split; [|done].
  apply registry_apply_checked. intros j b. rewrite H1, H2. cbn [mem_hard]. rewrite <-Hf. apply (Hab j b).
Qed.

(** Staging the matchmaker's own scalars stores them. *)
Lemma apply_scalars d m :
  mm_wf reg m -> rough d m ->
  exists d', registry_apply d (MSetScalars (mm_hard m)) = Done d' /\ image d' m.
Proof using.
  intros Hwf Hro. pose proof (image_above _ _ Hwf Hro) as Hab. destruct Hro as [Hl Hf Hj].
  destruct (apply_scalars_at d (mm_hard m) Hab Hf Hj) as (d' & E & Hh & Hd). exists d'. split; [done|].
  constructor; [|done]. intros j. by rewrite Hd.
Qed.

Lemma apply_register_at d (ledger : JournalId -> Ledger) j b r :
  (forall j, mem_ledger d j = ledger j) -> ledgers_above (mem_hard d) d -> (hard_watermark (mem_hard d) j ≤ b)%B ->
  exists d', registry_apply d (MRegister j b r) = Done d' /\ mem_hard d' = mem_hard d /\
    forall j', mem_ledger d' j' = if decide (j' = j) then <[b := r]> (ledger j) else ledger j'.
Proof using.
  intros Hl Hab Hb. unfold registry_apply. rewrite rassert_true by done. rsimpl. set (d' := mkMem _ _).
  assert (forall j', mem_ledger d' j' = if decide (j' = j) then <[b := r]> (ledger j) else ledger j') as Hl'.
  { intros j'. rewrite <-!Hl. unfold d', mem_ledger; simpl. rewrite lookup_insert.
    repeat case_decide; subst; done. }
  exists d'. split_and!; [|done..]. apply registry_apply_checked. intros j' b'. rewrite Hl'. simpl. case_decide.
  - subst. rewrite lookup_insert. case_decide; [intros _; by subst|]. rewrite <-Hl. apply Hab.
  - rewrite <-Hl. apply Hab.
Qed.

Lemma apply_gc d m j watermark :
  mm_wf reg m -> image d m -> (hard_watermark (mm_hard m) j < watermark)%B ->
  exists d', registry_apply d (MSetGcWatermark j watermark) = Done d' /\ image d' (collected m j watermark).
Proof using.
  intros Hwf Him Hlt. pose proof (image_above _ _ Hwf (image_rough _ _ Him)) as Hab. destruct Him as [Hl Hh].
  unfold registry_apply. rewrite Hh, decide_True by done.
  set (h := journal_mut _ _ _). set (d' := mem_collect _ _ _).
  assert (mem_hard d' = h) as Hh' by apply mem_collect_hard.
  assert (image d' (collected m j watermark)) as Him'.
  { constructor; [|done]. intros j'. unfold d'. rewrite mem_collect_ledger, collected_registry.
    rewrite <-!Hl. done. }
  exists d'. split; [|done]. rewrite Hh'. rewrite rassert_true.
  2:{ change h with (mm_hard (collected m j watermark)). by rewrite collected_watermark, decide_True. }
  rsimpl. apply registry_apply_checked.
  eapply image_above; [by apply (collected_wf reg)|by apply image_rough].
Qed.

(** Installing a registry whose records are above the floors it installs. *)
Lemma apply_install d h (R : gmap JournalId Ledger) :
  (forall j b, is_Some (default ∅ (R !! j) !! b) -> (hard_watermark h j ≤ b)%B) ->
  exists d', registry_apply d (MInstallRegistry h R) = Done d' /\ mem_hard d' = h /\
    forall j, mem_ledger d' j = default ∅ (R !! j).
Proof using.
  intros HR. unfold registry_apply. rsimpl. set (d' := mkMem _ _).
  assert (forall j, mem_ledger d' j = default ∅ (R !! j)) as Hl.
  { intros j. unfold mem_ledger, d'; simpl. rewrite map_lookup_filter, map_lookup_imap.
    destruct (R !! j) as [l|] eqn:E; simpl; [|done].
    rewrite bt_split_off_id by (intros b Hb; apply HR; by rewrite E).
    case_guard as Hg; simpl; [done|]. unfold holds_records in Hg. simpl in Hg. symmetry. by apply dec_stable. }
  exists d'. split_and!; [|done..]. apply registry_apply_checked. intros j b. rewrite Hl. apply HR.
Qed.
End apply.

(** ** Boot *)

(** Reading one journal's records back. *)
Lemma read_ledger_ok d j ks (acc : gmap JournalId Ledger) :
  NoDup ks -> (forall b, b ∈ ks -> is_Some (mem_ledger d j !! b) /\ (default ∅ (acc !! j) : Ledger) !! b = None) ->
  exists acc', foldM (read_ledger d) acc ((fun ballot => (j, ballot)) <$> ks) = Done acc' /\
    (forall j', j' <> j -> acc' !! j' = acc !! j') /\
    forall b, (default ∅ (acc' !! j) : Ledger) !! b =
      if decide (b ∈ ks) then mem_ledger d j !! b else (default ∅ (acc !! j) : Ledger) !! b.
Proof.
  revert acc. induction ks as [|b ks IH]; intros acc Hnd Hks.
  { exists acc. split_and!; [done..|]. intros b. by rewrite decide_False by apply not_elem_of_nil. }
  apply NoDup_cons in Hnd as [Hb Hnd]. destruct (Hks b) as [[r Hr] Hacc]; [left|].
  assert (read_ledger d acc (j, b) = Done (<[j := <[b := r]> (default ∅ (acc !! j))]> acc)) as E.
  { unfold read_ledger; simpl. unfold mem_ledger in Hr.
    destruct (mem_registry d !! j) as [l|]; simpl in Hr; [|by rewrite lookup_empty in Hr].
    simpl. rewrite Hr. simpl. by rassert_by done. }
  destruct (IH (<[j := <[b := r]> (default ∅ (acc !! j))]> acc) Hnd) as (acc' & E' & Hne & Hj).
  { intros b' Hb'. destruct (Hks b') as [H1 H2]; [by right|]. split; [done|]. rewrite lookup_insert_eq. simpl.
    by rewrite lookup_insert_ne by (intros <-; done). }
  exists acc'. split_and!.
  - cbn [fmap list_fmap foldM]. by rewrite E.
  - intros j' Hj'. rewrite Hne by done. by rewrite lookup_insert_ne.
  - intros b'. rewrite Hj, lookup_insert_eq. cbn [default]. destruct (decide (b' ∈ b :: ks)) as [Hin|Hin].
    + case_decide as Hk; [done|]. apply elem_of_cons in Hin as [->|]; [|done]. simpl. by rewrite lookup_insert_eq.
    + apply not_elem_of_cons in Hin as [Hne' Hin]. rewrite decide_False by done. simpl. by rewrite lookup_insert_ne.
Qed.

Lemma read_ledgers_ok d : exists L,
  foldM (read_ledger d) ∅ (rs_registered d) = Done L /\ forall j, default ∅ (L !! j) = mem_ledger d j.
Proof.
  assert (forall es (acc : gmap JournalId Ledger), NoDup es.*1 ->
    (forall j l, (j, l) ∈ es -> mem_registry d !! j = Some l /\ acc !! j = None) ->
    exists acc', foldM (read_ledger d) acc
        (concat ((fun e : JournalId * Ledger => (fun ballot => (e.1, ballot)) <$> bt_keys e.2) <$> es)) = Done acc' /\
      (forall j, j ∉ es.*1 -> acc' !! j = acc !! j) /\
      forall j l, (j, l) ∈ es -> default ∅ (acc' !! j) = l) as H.
  { induction es as [|[j l] es IH]; intros acc Hnd Hes.
    { exists acc. split_and!; [done..|]. by intros j l ?%elem_of_nil. }
    cbn [fmap list_fmap concat fst snd] in *. apply NoDup_cons in Hnd as [Hj Hnd].
    destruct (Hes j l) as [Hl Hacc]; [left|]. rewrite foldM_app.
    destruct (read_ledger_ok d j (bt_keys l) acc) as (acc1 & -> & Hne & Hjl); [apply NoDup_bt_keys|..].
    { intros b Hb%elem_of_bt_keys. rewrite Hacc. simpl. unfold mem_ledger. by rewrite Hl, lookup_empty. }
    rsimpl. destruct (IH acc1 Hnd) as (acc' & E & Hrest & Hin).
    { intros j' l' Hin. destruct (Hes j' l') as [H1 H2]; [by right|]. split; [done|]. rewrite Hne; [done|].
      intros ->. apply Hj. apply list_elem_of_fmap. by exists (j, l'). }
    exists acc'. split_and!; [done|..].
    - intros j' Hj'. apply not_elem_of_cons in Hj' as [H1 H2]. rewrite Hrest by done. by apply Hne.
    - intros j' l' [[= -> ->]|Hin']%elem_of_cons; [|by apply Hin]. rewrite Hrest by done. apply map_eq. intros b.
      rewrite Hjl, Hacc. unfold mem_ledger. rewrite Hl. simpl. case_decide as Hb; [done|].
      rewrite elem_of_bt_keys in Hb. destruct (l !! b) eqn:Eb; [by destruct Hb; eexists|]. by rewrite lookup_empty. }
  destruct (H (bt_entries (mem_registry d)) ∅ (NoDup_bt_keys _)) as (L & E & Hout & Hin).
  { intros j l Hin%elem_of_bt_entries. by rewrite lookup_empty. }
  exists L. split; [exact E|]. intros j. unfold mem_ledger. destruct (mem_registry d !! j) as [l|] eqn:Ej.
  - apply Hin. by apply elem_of_bt_entries.
  - rewrite Hout; [done|]. fold (bt_keys (mem_registry d)). rewrite elem_of_bt_keys, Ej. by intros [].
Qed.

(** Two matchmakers an observer cannot tell apart: the same identity, scalars,
    limits and registries. *)
Record alike m1 m2 : Prop := {
  al_config : mm_config m1 = mm_config m2;
  al_hard : mm_hard m1 = mm_hard m2;
  al_set : mm_set m1 = mm_set m2;
  al_limits : mm_limits m1 = mm_limits m2;
  al_registry : forall j, registry_of m1 j = registry_of m2 j }.

#[export] Instance alike_equivalence : Equivalence alike.
Proof.
  split.
  - by intros m.
  - intros m1 m2 []. constructor; try done. 
  - intros m1 m2 m3 [] []. constructor; try congruence. 
Qed.

(** A boot from the image of a matchmaker is that matchmaker with nothing
    staged. *)
Lemma boot_image reg m d :
  mm_wf reg m -> image d m -> limits_valid (mm_limits m) -> mc_bootstrap (mm_config m) <> [] ->
  exists m', matchmaker_new (mm_config m) d (mm_limits m) = Done m' /\ mm_wf reg m' /\ alike m' m /\
    mm_writes m' = [] /\ mm_replies m' = [] /\ mm_reconfigure_replies m' = [].
Proof.
  intros Hwf Him Hlim Hboot. pose proof (image_above reg d m Hwf (image_rough _ _ Him)) as Hab.
  destruct Him as [Hl Hh]. unfold matchmaker_new.
  rewrite (proj2 (limits_assert_valid_iff _)) by done. rsimpl.
  destruct (read_ledgers_ok d) as (L & -> & HL). rsimpl. cbn [rs_initial_state MemRegistry_storage]. rewrite Hh.
  assert (forall j l, L !! j = Some l -> window_wf (mkWindow l (hard_watermark (mm_hard m) j))) as Hww.
  { intros j l Ej b Hb. simpl in *. rewrite <-Hh. apply Hab. rewrite <-HL, Ej. done. }
  rewrite (rassert_true (Forall _ _)).
  2:{ apply Forall_forall. intros [j l] Hin%elem_of_bt_entries. simpl. apply first_key_ge.
      intros b Hb. by apply (Hww j l Hin). }
  rsimpl.
  destruct (foldM_insert boot_empty_window (fun j sc => mkWindow (∅ : Ledger) (js_watermark sc))
              (mh_journals (mm_hard m)) ∅) as (W0 & -> & HW0).
  { intros acc j sc _. unfold boot_empty_window; simpl. rewrite window_new_ok; [done|].
    intros b [? Hb]; simpl in Hb. by rewrite lookup_empty in Hb. }
  rsimpl. destruct (foldM_insert (boot_window (mm_hard m)) (fun j l => mkWindow l (hard_watermark (mm_hard m) j)) L W0)
    as (W & -> & HW).
  { intros acc j l Ej. unfold boot_window; simpl. rewrite window_new_ok; [done|]. by apply (Hww j l). }
  rsimpl. rewrite (normalize_id _ (wf_bootstrap _ _ Hwf)).
  rewrite rassert_true by done. rsimpl. pose proof (wf_derive _ _ Hwf) as Hd. unfold derive_set in Hd. rewrite Hd. rsimpl.
  replace (mkMatchmakerConfig (mc_id (mm_config m)) (mc_bootstrap (mm_config m))) with (mm_config m)
    by by destruct (mm_config m).
  set (m' := mkMatchmaker _ _ _ _ _ _ _ _).
  assert (forall j, registry_of m' j = registry_of m j) as Hreg.
  { intros j. rewrite <-Hl, <-HL. unfold registry_of; simpl. rewrite HW, HW0.
    destruct (L !! j) as [l|]; simpl; [done|]. by destruct (mh_journals (mm_hard m) !! j). }
  assert (mm_wf reg m') as Hwf'.
  { pose proof Hwf as []. constructor; try done.
    - intros j w. simpl. rewrite HW, HW0. destruct (L !! j) as [l|] eqn:Ej.
      + intros [= <-]. split; [by apply (Hww j l)|done].
      + destruct (mh_journals (mm_hard m) !! j) as [sc|] eqn:Es; [|done]. intros [= <-].
        split; [intros b [? Hb]; simpl in Hb; by rewrite lookup_empty in Hb|]. unfold hard_watermark. by rewrite Es.
    - intros j [sc Es]. simpl in *. rewrite HW, HW0, Es. destruct (L !! j); by eexists.
    - intros j. rewrite Hreg. apply wf_owned.
    - intros j. rewrite Hreg. apply wf_reconfigured. }
  exists m'. split_and!; [|done|by constructor|done..].
  rewrite (mm_assert_invariants_ok reg) by done. done.
Qed.

(** ** Staged writes *)

(** From [m] to [m'] some writes were staged, none above the floors [m'] holds,
    and applying them takes a store that roughly holds [m] to one that roughly
    holds [m']; or, for [settled], an image to an image. *)
Definition staged (holds : MemRegistry -> Matchmaker -> Prop) m m' : Prop :=
  exists ws, mm_writes m' = mm_writes m ++ ws /\ Forall (write_covered m') ws /\
    forall d, holds d m -> exists d', registry_apply_all d ws = Done d' /\ holds d' m'.

Abbreviation trail := (staged rough).
Abbreviation settled := (staged image).

Lemma staged_refl holds m : staged holds m m.
Proof. exists []. rewrite app_nil_r. split_and!; [done..|]. intros d Hd. by exists d. Qed.

Lemma write_covered_mono m1 m2 op :
  (forall j, hard_watermark (mm_hard m1) j ≤ hard_watermark (mm_hard m2) j)%B ->
  write_covered m1 op -> write_covered m2 op.
Proof.
  intros Hf. destruct op; simpl; [done|by intros; etrans|..];
    unfold floors_covered; rewrite !Forall_forall; intros Hc e He; etrans; eauto.
Qed.

Lemma staged_trans holds m1 m2 m3 :
  (forall j, hard_watermark (mm_hard m2) j ≤ hard_watermark (mm_hard m3) j)%B ->
  staged holds m1 m2 -> staged holds m2 m3 -> staged holds m1 m3.
Proof.
  intros Hf (ws1 & E1 & C1 & A1) (ws2 & E2 & C2 & A2). exists (ws1 ++ ws2). split_and!.
  - by rewrite E2, E1, app_assoc.
  - apply Forall_app. split; [|done]. eapply Forall_impl; [exact C1|]. intros op. by apply write_covered_mono.
  - intros d Hd. destruct (A1 d Hd) as (d1 & Ed1 & H1). destruct (A2 d1 H1) as (d2 & Ed2 & H2).
    exists d2. split; [|done]. unfold registry_apply_all in *. by rewrite foldM_app, Ed1.
Qed.

Lemma registry_apply_one d op d' : registry_apply d op = Done d' -> registry_apply_all d [op] = Done d'.
Proof. intros E. unfold registry_apply_all. cbn [foldM]. by rewrite E. Qed.

(** A change of the scalars that touches no journal, not staged yet. *)
Lemma trail_quiet m m' :
  mm_writes m' = mm_writes m -> (forall j, registry_of m' j = registry_of m j) ->
  mh_journals (mm_hard m') = mh_journals (mm_hard m) -> trail m m'.
Proof.
  intros Ew Er Ej. exists []. rewrite app_nil_r. split_and!; [done..|]. intros d [Hl Hf Hd]. exists d.
  split; [done|]. 
  constructor; [intros j; by rewrite Er|intros j; rewrite Hf; unfold hard_watermark; by rewrite Ej|by rewrite Ej].
Qed.

Lemma own_scalars_covered m : write_covered m (MSetScalars (mm_hard m)).
Proof.
  apply Forall_forall. intros [j sc] Hin%elem_of_bt_entries. simpl. unfold hard_watermark. by rewrite Hin.
Qed.

Section staging.
Context (reg : JournalId -> Ballot -> Registration).

(** Staging the scalars settles everything before. *)
Lemma stage_settles m m1 :
  mm_wf reg m1 -> trail m m1 ->
  trail m (push_write m1 (MSetScalars (mm_hard m1))) /\ settled m (push_write m1 (MSetScalars (mm_hard m1))).
Proof using.
  intros Hwf (ws & E & C & A).
  assert (forall d, rough d m -> exists d', registry_apply_all d (ws ++ [MSetScalars (mm_hard m1)]) = Done d' /\ image d' m1)
    as Hd.
  { intros d Hd. destruct (A d Hd) as (d1 & E1 & H1).
    destruct (apply_scalars reg d1 m1 Hwf H1) as (d2 & E2 & H2). exists d2. split; [|done].
    unfold registry_apply_all in *. rewrite foldM_app, E1. rsimpl. by apply registry_apply_one. }
  assert (Forall (write_covered m1) (ws ++ [MSetScalars (mm_hard m1)])) as Hc.
  { apply Forall_app. split; [done|]. apply Forall_singleton, own_scalars_covered. }
  split; exists (ws ++ [MSetScalars (mm_hard m1)]); simpl; rewrite E, app_assoc; (split_and!; [done|exact Hc|]).
  - intros d H. destruct (Hd d H) as (d' & E' & H'). exists d'. split; [done|].
    apply image_rough in H'. destruct H'. by constructor.
  - intros d H. destruct (Hd d (image_rough _ _ H)) as (d' & E' & H'). exists d'. split; [done|].
    destruct H'. by constructor.
Qed.

(** A registration and a collection stage what they did. *)
Lemma registered_settled m j b r :
  mm_wf reg m -> (hard_watermark (mm_hard m) j ≤ b)%B -> reg j b = r -> settled m (registered m j b r).
Proof using.
  intros Hwf Hb Hr. set (h := registered_hard m j b r).
  set (ops := if decide (raises m j b r) then [MSetScalars h] else []).
  exists (ops ++ [MRegister j b r]).
  assert (forall j', hard_watermark h j' = hard_watermark (mm_hard m) j') as Hf by apply registered_hard_watermark.
  split_and!.
  - done.
  - unfold ops. case_decide; repeat constructor. apply own_scalars_covered.
  - intros d Him.
    assert (exists d1, registry_apply_all d ops = Done d1 /\ mem_hard d1 = h /\ forall j, mem_ledger d1 j = registry_of m j)
      as (d1 & E1 & Hh1 & Hl1).
    { pose proof (image_above reg d m Hwf (image_rough _ _ Him)) as Hab. destruct Him as [Hl Hh].
      unfold ops. destruct (decide (raises m j b r)) as [Hra|Hra].
      - destruct (apply_scalars_at d h Hab) as (d1 & E1 & H1 & H2).
        + intros j'. by rewrite Hf, Hh.
        + intros j'. rewrite Hh. unfold h, registered_hard. rewrite decide_True by apply Hra.
          rewrite lookup_journal_mut. case_decide; [by eexists|done].
        + exists d1. split_and!; [by apply registry_apply_one|done|]. intros j'. by rewrite H2.
      - exists d. split_and!; [done| |done]. rewrite Hh. unfold h, registered_hard.
        case_decide as Hk; [|done]. unfold new_effective. rewrite decide_False by done.
        assert (exists sc, mh_journals (mm_hard m) !! j = Some sc) as [sc Hsc].
        { destruct (mh_journals (mm_hard m) !! j) as [sc|] eqn:E; [by exists sc|]. destruct Hra. split; [done|].
          unfold hard_effective. by rewrite E. }
        unfold journal_mut, scalars_of, hard_effective. rewrite Hsc. simpl.
        rewrite insert_id by (rewrite Hsc; by destruct sc). by destruct (mm_hard m). }
    assert (ledgers_above h d1) as Hab.
    { intros j' b' [r' Hr']. rewrite Hl1 in Hr'. rewrite Hf. by eapply registry_floor. }
    assert (exists d2, registry_apply d1 (MRegister j b r) = Done d2 /\ mem_hard d2 = h /\
              forall j', mem_ledger d2 j' = if decide (j' = j) then <[b := r]> (registry_of m j) else registry_of m j')
      as (d2 & E2 & Hh2 & Hl2).
    { rewrite <-Hh1. apply apply_register_at; rewrite ?Hh1, ?Hf; [done..|]. done. }
    exists d2. split.
    + unfold registry_apply_all in *. rewrite foldM_app, E1. rsimpl. by apply registry_apply_one.
    + constructor; [|done]. intros j'. by rewrite Hl2, registered_registry.
Qed.

Lemma collected_settled m j watermark :
  mm_wf reg m -> (hard_watermark (mm_hard m) j < watermark)%B -> settled m (collected m j watermark).
Proof using.
  intros Hwf Hlt. exists [MSetGcWatermark j watermark]. split_and!; [done|..].
  - apply Forall_singleton. cbn [write_covered]. by rewrite collected_watermark, decide_True.
  - intros d Hd. destruct (apply_gc reg d m j watermark Hwf Hd Hlt) as (d' & E & H). exists d'.
    split; [by apply registry_apply_one|done].
Qed.
End staging.
