(* ===== verification/Generation.v ===== *)
(** * The generation handover, matchmaker side ([matchmaker/generation.rs])

    The five messages that replace one matchmaker set by the next: [Stop]
    freezes and reports, [Bootstrap] holds a proposed successor's
    reconstruction, the decree pair is the acceptor half of the single-decree
    Paxos that chooses the successor, and [Chosen] records the chain link or
    activates.  What each does under the invariant is in [GenerationInv.v]. *)

From S2P Require Import Prelude BTree Types Retained Contract QuorumSystem AcceptorConfig Acceptor Decree MatchmakerSet MatchmakerState Matchmaker.

Implicit Types m : Matchmaker.

(** Field updates of the durable scalars. *)
Definition with_decree (h : MatchmakerHardState) (r : SetRecord) : MatchmakerHardState :=
  mkHardState (mh_generation h) (mh_members h) (mh_phase h) (mh_successor h) r (mh_pending h) (mh_journals h).
Definition with_pending (h : MatchmakerHardState) (pending : list PendingBootstrap) : MatchmakerHardState :=
  mkHardState (mh_generation h) (mh_members h) (mh_phase h) (mh_successor h) (mh_decree h) pending (mh_journals h).
Definition with_successor (h : MatchmakerHardState) (s : MatchmakerSet) : MatchmakerHardState :=
  mkHardState (mh_generation h) (mh_members h) (mh_phase h) (Some s) (mh_decree h) (mh_pending h) (mh_journals h).
Definition frozen_at (h : MatchmakerHardState) (s : MatchmakerSet) (members : list MatchmakerId)
  : MatchmakerHardState :=
  mkHardState (ms_generation s) members Stopped (mh_successor h) (mh_decree h) (mh_pending h) (mh_journals h).

Definition refusal m : run ReconfigureReply :=
  rassert (ms_generation (mm_set m) = mh_generation (mm_hard m)) "a refusal names the durable generation";;
  phase ← mm_phase m;
  mret (YRefused (mm_id m) (mm_set m) phase (mh_successor (mm_hard m))).

Definition serves_handover_of m (generation : MatchmakerGeneration) : run bool :=
  phase ← mm_phase m;
  let serves := bool_decide (ms_generation (mm_set m) = generation) &&
                match phase with Active | Stopped => true | _ => false end in
  (if serves : bool then
     member ← set_contains (mm_set m) (mm_id m);
     rassert (member = true) "a handover member is in its set"
   else mret tt);;
  mret serves.

Definition freeze m : run Matchmaker :=
  let set := mm_set m in
  members ← set_members set;
  let m := with_hard m (frozen_at (mm_hard m) set members) in
  m ← refresh_set m;
  m ← stage_scalars m;
  rassert (mm_set m = set) "a freeze keeps the generation's set";;
  phase ← mm_phase m;
  rassert (phase = Stopped) "a frozen generation is stopped";;
  mret m.

(** [StopA]. *)
Definition on_stop m (generation : MatchmakerGeneration) (after : option JournalId)
  : run (Matchmaker * ReconfigureReply) :=
  serves ← serves_handover_of m generation;
  if negb serves then reply ← refusal m; mret (m, reply) else
  phase ← mm_phase m;
  m ← (if decide (phase = Active) then freeze m else mret m);
  phase ← mm_phase m;
  rassert (phase = Stopped) "a stop leaves the generation frozen";;
  '(registries, next) ← frozen_page m after (registry_page (mm_limits m));
  mret (m, YStopped (mm_id m) generation after next registries (mh_successor (mm_hard m))
             (dr_promised (mh_decree (mm_hard m)))).

(** The bootstrap held for a set, with its index. *)
Definition pending_for (pending : list PendingBootstrap) (set : MatchmakerSet)
  : option (nat * PendingBootstrap) := list_find (fun p => bo_set p = set) pending.

Definition on_bootstrap m (page : BootstrapPage) : run (Matchmaker * ReconfigureReply) :=
  let me := mm_id m in
  let current_generation := ms_generation (mm_set m) in
  let set := bp_set page in
  let settled := bool_decide (is_some_and (fun s => ms_generation set <= ms_generation s /\ set <> s)
                                (mh_successor (mm_hard m))) in
  member ← set_contains set me;
  if negb member || bool_decide (ms_generation set <= current_generation) || settled then
    reply ← refusal m; mret (m, reply) else
  let pending := mh_pending (mm_hard m) in
  let found := pending_for pending set in
  let whole := bool_decide (is_some_and (fun e : nat * PendingBootstrap => bo_complete e.2 = true) found) in
  let fits := page_is_well_formed page && negb whole &&
              (bool_decide (bp_after page = None) ||
               bool_decide (is_some_and (fun e : nat * PendingBootstrap => bootstrap_held e.2 = bp_after page) found)) in
  m ← (if fits : bool then
         let registries := match bp_after page, found with
                           | Some _, Some (_, held) => bo_registries held
                           | _, _ => ∅
                           end in
         let bootstrap := mkBootstrap set (bp_registries page ∪ registries) (bp_last page) in
         let pending := match found with
                        | Some (i, _) => <[i := bootstrap]> pending
                        | None => pending ++ [bootstrap]
                        end in
         stage_scalars (with_hard m (with_pending (mm_hard m) pending))
       else mret m);
  let pending := mh_pending (mm_hard m) in
  rassert (length (filter (fun p => bo_set p = set) pending) <= 1)%nat
    "a bootstrap is held once per proposed set";;
  rassert (current_generation < ms_generation set) "a bootstrap is for a later generation";;
  let held := snd <$> pending_for pending set in
  (if whole then
     rassert (is_some_and (fun p => bo_complete p = true) held) "a whole bootstrap is never replaced"
   else mret tt);;
  mret (m, YBootstrapped me set (held ≫= bootstrap_held)
             (match held with Some p => bo_complete p | None => false end)).

(** ** The decree, over the whole matchmaker *)

Definition mm_store_decree m (acceptor : Acceptor (list MatchmakerId))
  (writes : list (AcceptorWrite (list MatchmakerId))) : run Matchmaker :=
  r ← store_decree (mh_decree (mm_hard m)) acceptor writes;
  if decide (writes = []) then mret m else stage_scalars (with_hard m (with_decree (mm_hard m) r)).

Definition mm_on_decree_prepare m (generation : MatchmakerGeneration) (ballot : Ballot)
  : run (Matchmaker * ReconfigureReply) :=
  serves ← serves_handover_of m generation;
  if negb serves then reply ← refusal m; mret (m, reply) else
  let me := mm_id m in
  acceptor ← decree_acceptor (mh_decree (mm_hard m));
  '(acceptor, writes, outcome) ← prepare acceptor ballot DECREE_SLOT [];
  match outcome with
  | PPromised _ =>
      vote ← acceptor_record acceptor DECREE_SLOT;
      m ← mm_store_decree m acceptor writes;
      rassert (dr_promised (mh_decree (mm_hard m)) = ballot) "a decree promise lands on the prepared ballot";;
      mret (m, YPromised me generation ballot vote)
  | PRefused | PBelowFloor =>
      held ← promised acceptor;
      rassert (ballot < held)%B "a decree Nack names a higher promise";;
      mret (m, YNacked me generation ballot held)
  end.

Definition mm_on_decree_accept m (generation : MatchmakerGeneration) (ballot : Ballot)
  (members : list MatchmakerId) : run (Matchmaker * ReconfigureReply) :=
  serves ← serves_handover_of m generation;
  if negb serves then reply ← refusal m; mret (m, reply) else
  let me := mm_id m in
  let members := normalize members in
  acceptor ← decree_acceptor (mh_decree (mm_hard m));
  outcome ← acceptor_admit acceptor ballot DECREE_SLOT;
  match outcome with
  | AAdmitted =>
      '(acceptor, writes) ← set_promise acceptor ballot [];
      '(acceptor, writes, _) ← record_accepted acceptor DECREE_SLOT ballot members writes;
      m ← mm_store_decree m acceptor writes;
      rassert (dr_promised (mh_decree (mm_hard m)) = ballot)
        "a decree vote lands with the promise at its ballot";;
      rassert (is_some_and (fun v : Ballot * list MatchmakerId => v.1 = ballot)
                 (dr_vote (mh_decree (mm_hard m))))
        "a decree vote is recorded at its ballot";;
      mret (m, YAccepted me generation ballot)
  | ARefused | ABelowFloor =>
      held ← promised acceptor;
      rassert (ballot < held)%B "a decree Nack names a higher promise";;
      mret (m, YNacked me generation ballot held)
  end.

(** ** Learning the successor *)

Definition prune_settled_pending m (successor : MatchmakerSet) : run (Matchmaker * bool) :=
  let before := mh_pending (mm_hard m) in
  let kept := filter (fun p => ms_generation successor < ms_generation (bo_set p) \/ bo_set p = successor)
                before in
  rassert (Forall (fun p => bo_set p = successor)
             (filter (fun p => ms_generation (bo_set p) = ms_generation successor) kept))
    "a decided generation keeps only the chosen bootstrap";;
  rassert (length kept <= length before)%nat "pruning only removes";;
  mret (with_hard m (with_pending (mm_hard m) kept), bool_decide (length kept <> length before)).

(** One journal of an activation. *)
Definition activate_journal (acc : gmap JournalId JournalScalars * gmap JournalId Ledger)
  (entry : JournalId * JournalRegistry) : run (gmap JournalId JournalScalars * gmap JournalId Ledger) :=
  let '(journals, registries) := acc in
  let '(journal, reconstructed) := entry in
  let held := scalars_of journals journal in
  let local := js_watermark held in
  let watermark := ord_max (jr_watermark reconstructed) local in
  effective ← match jr_effective reconstructed with
              | Some (theirs, other) =>
                  '(effective, _) ← raise_effective (js_effective held) theirs other; mret effective
              | None => mret (js_effective held)
              end;
  let registry : Ledger := bt_split_off watermark (jr_history reconstructed) in
  rassert (jr_watermark reconstructed ≤ watermark)%B
    "an activation never lowers the reconstructed watermark";;
  rassert (local ≤ watermark)%B "an activation never lowers its own watermark";;
  rassert (Forall (fun b => watermark ≤ b)%B (bt_keys registry))
    "an activated registry holds nothing below the activated watermark";;
  mret (<[journal := mkScalars watermark effective]> journals,
        if decide (registry = ∅) then registries else <[journal := registry]> registries).

Definition activate_window (registries : gmap JournalId Ledger) (windows : gmap JournalId RegistryWindow)
  (entry : JournalId * JournalScalars) : run (gmap JournalId RegistryWindow) :=
  window ← (window_new (default ∅ (registries !! entry.1)) (js_watermark entry.2) : run RegistryWindow);
  mret (<[entry.1 := window]> windows).

Definition activate m (successor : MatchmakerSet) : run (Matchmaker * bool) :=
  member ← set_contains successor (mm_id m);
  if negb member || bool_decide (ms_generation successor <= ms_generation (mm_set m)) then mret (m, false) else
  match list_find (fun p => bo_set p = successor /\ bo_complete p = true) (mh_pending (mm_hard m)) with
  | None => mret (m, false)
  | Some (index, bootstrap) =>
      let pending := delete index (mh_pending (mm_hard m)) in
      rassert (bo_complete bootstrap = true) "an activation reads a whole bootstrap";;
      '(journals, registries) ← foldM activate_journal (mh_journals (mm_hard m), ∅)
                                  (bt_entries (bo_registries bootstrap));
      members ← set_members successor;
      let h := mkHardState (ms_generation successor) members Active None record_default
                 (filter (fun p => ms_generation successor < ms_generation (bo_set p)) pending) journals in
      m ← refresh_set (with_hard m h);
      windows ← foldM (activate_window registries) ∅ (bt_entries journals);
      let m := with_registries m windows in
      let m := push_write m (MInstallRegistry h registries) in
      rassert (mm_set m = successor) "an activation serves the successor set";;
      phase ← mm_phase m;
      rassert (phase = Active) "an activated generation is active";;
      rassert (mh_successor (mm_hard m) = None) "a fresh generation has no successor";;
      mret (m, true)
  end.

(** The arm of a member of the succeeded generation. *)
Definition learn_successor m (generation : MatchmakerGeneration) (successor : MatchmakerSet)
  (phase : MatchmakerPhase) : run (Matchmaker * ReconfigureReply) :=
  let me := mm_id m in
  '(m, changed) ← (if decide (mh_successor (mm_hard m) = None) then
                     m ← (if decide (phase = Active) then freeze m else mret m);
                     mret (with_hard m (with_successor (mm_hard m) successor), true)
                   else mret (m, false));
  '(m, pruned) ← prune_settled_pending m successor;
  m ← (if changed || pruned then stage_scalars m else mret m);
  '(m, activated) ← activate m successor;
  (if activated : bool then
     rassert (mm_set m = successor) "an activated member serves the successor"
   else
     rassert (mh_successor (mm_hard m) = Some successor)
       "a member of the succeeded generation records the chain link");;
  mret (m, YLearned me generation activated (ms_generation (mm_set m))).

(** The arm of a matchmaker that is no member of the succeeded generation. *)
Definition learn_elsewhere m (generation : MatchmakerGeneration) (successor : MatchmakerSet)
  : run (Matchmaker * ReconfigureReply) :=
  let me := mm_id m in
  '(m, pruned) ← prune_settled_pending m successor;
  '(m, activated) ← activate m successor;
  if activated : bool then
    rassert (mm_set m = successor) "an activated spare serves the successor";;
    phase ← mm_phase m;
    rassert (phase = Active) "an activated spare is active";;
    mret (m, YLearned me generation activated (ms_generation (mm_set m)))
  else
    m ← (if pruned : bool then stage_scalars m else mret m);
    reply ← refusal m;
    mret (m, reply).

Definition on_chosen m (generation : MatchmakerGeneration) (successor : MatchmakerSet)
  : run (Matchmaker * ReconfigureReply) :=
  let me := mm_id m in
  let current := mm_set m in
  phase ← mm_phase m;
  next ← generation_next generation;
  if decide (ms_generation successor <> next) then reply ← refusal m; mret (m, reply) else
  if decide (current = successor) then mret (m, YLearned me generation false (ms_generation current)) else
  serves ← serves_handover_of m generation;
  if serves : bool then
    if decide (is_some_and (fun recorded => recorded <> successor) (mh_successor (mm_hard m))) then
      reply ← refusal m; mret (m, reply)
    else learn_successor m generation successor phase
  else if decide (ms_generation current < ms_generation successor \/ phase = Inactive \/ phase = Fresh) then
    learn_elsewhere m generation successor
  else reply ← refusal m; mret (m, reply).

(** [Matchmaker::step_reconfigure]. *)
Definition step_reconfigure m (request : ReconfigureRequest) : run Matchmaker :=
  mm_assert_invariants m;;
  let replies := length (mm_reconfigure_replies m) in
  let floors := (fun e : JournalId * JournalScalars => (e.1, js_watermark e.2)) <$>
                bt_entries (mh_journals (mm_hard m)) in
  let generation := mh_generation (mm_hard m) in
  '(m, reply) ← match request with
                | QStop _ generation after => on_stop m generation after
                | QBootstrap _ bootstrap => on_bootstrap m bootstrap
                | QDecreePrepare _ generation ballot => mm_on_decree_prepare m generation ballot
                | QDecreeAccept _ generation ballot members => mm_on_decree_accept m generation ballot members
                | QChosen _ generation successor => on_chosen m generation successor
                end;
  rassert (reply_matchmaker reply = mm_id m) "a handover reply names its matchmaker";;
  let m := push_reconfigure_reply m reply in
  rassert (length (mm_reconfigure_replies m) = replies + 1)%nat "every handover request is answered once";;
  rassert (Forall (fun f : JournalId * Ballot => f.2 ≤ hard_watermark (mm_hard m) f.1)%B floors)
    "a handover never lowers a watermark";;
  rassert (generation <= mh_generation (mm_hard m)) "a handover never moves a generation back";;
  mm_assert_invariants m;;
  mret m.
