(* ===== verification/GenerationInv.v ===== *)
(** * The handover under the invariant

    Every arm of the handover keeps the matchmaker's invariant, never lowers a
    floor and never moves a generation back ([handover]); the decree arms over
    the whole matchmaker are the record handlers of [Decree.v]; activation and
    the frozen report are given exactly.  Every call of a
    matchmaker together is in [MatchNode.v]. *)

From S2P Require Import Prelude BTree Types Retained Contract QuorumSystem AcceptorConfig Acceptor Tally Decree MatchmakerSet MatchmakerState Matchmaker MatchmakerInv MatchmakerStorage Generation.

Implicit Types m : Matchmaker.

(** ** What a handover step may change *)

(** Every arm keeps the invariant and the identity, lowers no floor and moves no
    generation back. *)
Record handover (reg : JournalId -> Ballot -> Registration) m m' : Prop := {
  ho_wf : mm_wf reg m';
  ho_config : mm_config m' = mm_config m;
  ho_limits : mm_limits m' = mm_limits m;
  ho_replies : mm_reconfigure_replies m' = mm_reconfigure_replies m;
  ho_match_replies : mm_replies m' = mm_replies m;
  ho_floor : forall j, (hard_watermark (mm_hard m) j ≤ hard_watermark (mm_hard m') j)%B;
  ho_generation : mh_generation (mm_hard m) <= mh_generation (mm_hard m');
  ho_registry : mh_generation (mm_hard m') = mh_generation (mm_hard m) ->
    forall j, registry_of m' j = registry_of m j;
  ho_effective : forall j, ord_le (effective_at (hard_effective (mm_hard m) j))
                                  (effective_at (hard_effective (mm_hard m') j));
  ho_trail : trail m m' }.

Lemma handover_refl reg m : mm_wf reg m -> handover reg m m.
Proof. intros. constructor; try done. apply staged_refl. Qed.
Lemma handover_trans reg m1 m2 m3 : handover reg m1 m2 -> handover reg m2 m3 -> handover reg m1 m3.
Proof.
  intros [] []. constructor; try congruence; try done; [| |..].
  - intros j. etrans; [apply ho_floor0|apply ho_floor1].
  - lia.
  - intros Eg j. rewrite ho_registry1, ho_registry0 by lia. done.
  - intros j. etrans; [apply ho_effective0|apply ho_effective1].
  - by eapply staged_trans.
Qed.

(** Staging the scalars after a step settles it. *)
Lemma handover_stage reg m m' : handover reg m m' ->
  handover reg m (push_write m' (MSetScalars (mm_hard m'))) /\ settled m (push_write m' (MSetScalars (mm_hard m'))).
Proof.
  intros []. destruct (stage_settles reg m m' ho_wf0 ho_trail0) as [Ht Hs]. split; [|done].
  constructor; try done. by apply mm_wf_push_write.
Qed.

(** A change of the scalars that leaves generation and journals alone. *)
Lemma handover_quiet reg m m' :
  mm_wf reg m' -> mm_config m' = mm_config m -> mm_limits m' = mm_limits m ->
  mm_reconfigure_replies m' = mm_reconfigure_replies m -> mm_replies m' = mm_replies m ->
  mh_generation (mm_hard m') = mh_generation (mm_hard m) -> mh_journals (mm_hard m') = mh_journals (mm_hard m) ->
  mm_registries m' = mm_registries m -> mm_writes m' = mm_writes m -> handover reg m m'.
Proof.
  intros Hwf ? ? ? ? Eg Ej Er Ew.
  assert (forall j, registry_of m' j = registry_of m j) as Hr by (intros; unfold registry_of; by rewrite Er).
  constructor; try done.
  - intros j. unfold hard_watermark. by rewrite Ej.
  - by rewrite Eg.
  - intros j. unfold hard_effective. by rewrite Ej.
  - by apply trail_quiet.
Qed.
#[export] Hint Resolve handover_refl : paros.

Lemma resolved_set_of h bootstrap s :
  set_wf s -> mh_generation h = ms_generation s -> mh_members h = ms_members s ->
  resolved_set h bootstrap = Done s.
Proof.
  intros Hs Eg Em. unfold resolved_set. rewrite Eg, Em.
  rewrite decide_False by (intros [_ ?]; by apply (swf_nonempty s Hs)).
  pose proof (normalize_id _ (swf_sorted s Hs)) as En.
  destruct (set_new_ok (ms_generation s) (ms_members s)) as [-> _];
    [apply Hs|rewrite En; apply Hs|]. rewrite En. destruct s as [g l]; simpl in *. rsimpl.
  rassert_by done. rewrite set_members_ok by done. rsimpl. by rassert_by apply (swf_nonempty _ Hs).
Qed.

Lemma refresh_set_ok m s : derive_set m = Done s -> refresh_set m = Done (with_set m s).
Proof.
  intros E. unfold refresh_set. rewrite E. rsimpl. by rassert_by by eapply resolved_set_generation.
Qed.

Section handover.
Context (reg : JournalId -> Ballot -> Registration) (m : Matchmaker) (Hwf : mm_wf reg m).

Definition refused : ReconfigureReply := YRefused (mm_id m) (mm_set m) (phase_of m) (mh_successor (mm_hard m)).

Lemma refusal_ok : refusal m = Done refused.
Proof using Hwf.
  unfold refusal. rassert_by by eapply mm_set_generation. rewrite mm_phase_ok. done.
Qed.

(** Active or frozen for exactly this generation. *)
Definition serves (g : MatchmakerGeneration) : bool :=
  bool_decide (ms_generation (mm_set m) = g) && match phase_of m with Active | Stopped => true | _ => false end.

Lemma serves_handover_of_ok g : serves_handover_of m g = Done (serves g).
Proof using Hwf.
  unfold serves_handover_of. rewrite mm_phase_ok. rsimpl. fold (serves g).
  destruct (serves g) eqn:Es; [|done]. rewrite set_contains_ok by apply Hwf. rsimpl.
  eapply bind_seq; [|done]. apply rassert_true, bool_decide_eq_true_2. apply Hwf.
  unfold serves in Es. apply andb_true_iff in Es as [_ Es]. destruct (phase_of m); by auto.
Qed.

Lemma active_no_successor : phase_of m = Active -> mh_successor (mm_hard m) = None.
Proof using Hwf.
  intros Hp. pose proof (wf_successor _ _ Hwf) as Hs. destruct (mh_successor _); [|done].
  simpl in Hs. destruct Hs as (_ & Hst & _). unfold phase_of in Hp. by rewrite Hst in Hp.
Qed.

Definition frozen : Matchmaker :=
  let h := frozen_at (mm_hard m) (mm_set m) (ms_members (mm_set m)) in push_write (with_hard m h) (MSetScalars h).

Lemma frozen_handover : phase_of m = Active -> handover reg m frozen /\ settled m frozen.
Proof using Hwf.
  intros Hp. pose proof (mm_set_generation reg m Hwf) as Hg. 
  pose proof (active_no_successor Hp) as Hn. pose proof Hwf as [].
  apply (handover_stage reg m (with_hard m (frozen_at (mm_hard m) (mm_set m) (ms_members (mm_set m))))).
  apply handover_quiet; try done. constructor; simpl; try done.
  - by rewrite Hg.
  - intros _. split; [apply (swf_nonempty _ wf_set)|done].
  - by rewrite Hn.
  - unfold derive_set. simpl. apply resolved_set_of; [apply Hwf|done..].
  - intros _. apply wf_member. by left.
Qed.

Lemma freeze_ok : phase_of m = Active -> freeze m = Done frozen.
Proof using Hwf.
  intros Hp. destruct (frozen_handover Hp) as [[Hwf'] _].
  unfold freeze. rewrite set_members_ok by apply Hwf. rsimpl.
  rewrite (refresh_set_ok _ (mm_set m)) by apply (wf_derive _ _ Hwf'). rsimpl.
  rewrite stage_scalars_ok. rsimpl. rassert_by done. rewrite mm_phase_ok. rsimpl. by rassert_by done.
Qed.

(** ** The frozen report *)

Definition frozen_entries (after : option JournalId) : list (JournalId * JournalRegistry) :=
  filter (fun e => registry_is_blank e.2 = false)
    ((fun j => (j, mkRegistry (hard_watermark (mm_hard m) j) (registry_of m j) (hard_effective (mm_hard m) j)))
       <$> filter (above_cursor after) (bt_keys (mm_registries m))).

Lemma elem_of_frozen_entries after j r :
  (j, r) ∈ frozen_entries after <->
    r = mkRegistry (hard_watermark (mm_hard m) j) (registry_of m j) (hard_effective (mm_hard m) j) /\
    registry_is_blank r = false /\ above_cursor after j /\ is_Some (mm_registries m !! j).
Proof using.
  unfold frozen_entries. rewrite list_elem_of_filter, list_elem_of_fmap. simpl. split.
  - intros (Hb & j' & [= -> ->] & Hj). apply list_elem_of_filter in Hj as [? Hj].
    apply elem_of_bt_keys in Hj. done.
  - intros (-> & Hb & Ha & Hj). split; [done|]. exists j. split; [done|].
    apply list_elem_of_filter. by rewrite elem_of_bt_keys.
Qed.

Lemma frozen_entries_sorted after : StronglySorted key_lt (frozen_entries after).
Proof using.
  eapply StronglySorted_sublist; [apply sublist_filter|].
  apply (StronglySorted_fmap _ ord_lt); [done|].
  eapply StronglySorted_sublist; [apply sublist_filter|apply bt_keys_sorted].
Qed.

Lemma frozen_entry_ok l : mapR (frozen_entry m) l =
  Done ((fun j => (j, mkRegistry (hard_watermark (mm_hard m) j) (registry_of m j)
                        (hard_effective (mm_hard m) j))) <$> l).
Proof using Hwf.
  assert (forall j, frozen_entry m j =
    Done (j, mkRegistry (hard_watermark (mm_hard m) j) (registry_of m j) (hard_effective (mm_hard m) j))) as Hj.
  { intros j. unfold frozen_entry. by rewrite (mm_registry_ok reg) by done. }
  induction l as [|j l IH]; [done|]. cbn [mapR]. rewrite Hj. rsimpl. by rewrite IH.
Qed.

(** The page of the report strictly above [after], and where the next starts. *)
Definition frozen_report (after : option JournalId) (page : N)
  : gmap JournalId JournalRegistry * option JournalId :=
  let above := frozen_entries after in
  let registries := list_to_map (take (N.to_nat page) above) in
  (registries, if decide (drop (N.to_nat page) above <> []) then last_key_of registries else None).

Lemma frozen_page_ok after page : 0 < page -> frozen_page m after page = Done (frozen_report after page).
Proof using Hwf.
  intros Hp. unfold frozen_page, mm_journals. rassert_by done.
  rewrite rassert_true by by eapply scalars_windowed_ok. rsimpl. rewrite frozen_entry_ok. rsimpl.
  fold (frozen_entries after). pose proof (frozen_entries_sorted after) as Hs.
  assert (StronglySorted key_lt (take (N.to_nat page) (frozen_entries after))) as Ht.
  { eapply StronglySorted_sublist; [apply sublist_take|done]. }
  rassert_by idtac.
  { apply Forall_forall. intros [j r]. rewrite bt_entries_list_to_map by done. intros Hin.
    assert ((j, r) ∈ frozen_entries after) as Hj by (eapply elem_of_sublist; [done|apply sublist_take]).
    apply elem_of_frozen_entries in Hj as (-> & _). simpl. apply first_key_ge. intros b [r Hr].
    by eapply registry_floor. }
  eapply bind_seq; [|done]. case_decide as Hn; [|done]. rassert_by idtac.
  { destruct (decide (drop _ _ <> [])) as [Hd|Hd]; [|by destruct Hn].
    destruct (drop (N.to_nat page) (frozen_entries after)) as [|e l] eqn:Ed; [done|].
    destruct (sorted_page_last _ (N.to_nat page) e Hs) as [Hlen _]; [by rewrite Ed|].
    unfold msize. rewrite size_sorted_list_to_map by done. rewrite Hlen. lia. }
  apply rassert_true. case_decide; [done|by destruct Hn].
Qed.
End handover.

(** ** The arms *)

(** An arm returns, keeps the invariant and answers in the matchmaker's name. *)
Definition arm_ok (reg : JournalId -> Ballot -> Registration) m (c : run (Matchmaker * ReconfigureReply)) : Prop :=
  exists m' reply, c = Done (m', reply) /\ handover reg m m' /\ settled m m' /\ reply_matchmaker reply = mm_id m.

Lemma arm_rassert reg m P `{Decision P} msg f : P -> arm_ok reg m (f tt) -> arm_ok reg m (rassert P msg ≫= f).
Proof. intros HP Hf. by rewrite rassert_true. Qed.

(** One proposed set, one pending bootstrap. *)
Lemma pending_once pending set :
  NoDup (bo_set <$> pending) -> (length (filter (fun p => bo_set p = set) pending) <= 1)%nat.
Proof.
  induction pending as [|p pending IH]; simpl; [lia|]. intros [Hp Hnd]%NoDup_cons.
  rewrite filter_cons. case_decide as E; [|by apply IH]. simpl.
  assert (filter (fun p => bo_set p = set) pending = []) as ->; [|simpl; lia].
  apply elem_of_nil_inv. intros q [Eq Hq]%list_elem_of_filter. apply Hp.
  apply list_elem_of_fmap. exists q. by rewrite E.
Qed.

Lemma sublist_same_length {A} (l k : list A) : l `sublist_of` k -> length l = length k -> l = k.
Proof.
  induction 1 as [|x l k Hs IH|x l k Hs IH]; simpl; intros El; [done|by rewrite IH by lia|].
  apply sublist_length in Hs. lia.
Qed.

(** The invariant over another pending list. *)
Lemma with_pending_handover reg m pending :
  mm_wf reg m ->
  Forall (fun p => set_wf (bo_set p) /\ mm_id m ∈ ms_members (bo_set p) /\
            ms_generation (mm_set m) < ms_generation (bo_set p)) pending ->
  is_none_or (fun s => Forall (settles s) pending) (mh_successor (mm_hard m)) ->
  Forall (owned_bootstrap reg) pending -> NoDup (bo_set <$> pending) ->
  handover reg m (with_hard m (with_pending (mm_hard m) pending)).
Proof.
  intros Hwf Hp Hs Ho Hnd. apply handover_quiet; try done. destruct Hwf. constructor; try done.
  simpl. destruct (mh_successor (mm_hard m)); [|done]. by destruct wf_successor as (? & ? & _).
Qed.

Section arms.
Context (reg : JournalId -> Ballot -> Registration) (m : Matchmaker) (Hwf : mm_wf reg m).

Lemma refused_arm : arm_ok reg m (reply ← refusal m; mret (m, reply)).
Proof using Hwf. exists m, (refused m). rewrite (refusal_ok reg) by done. 
  split_and!; [done|by apply handover_refl|apply staged_refl|done].
Qed.

Definition stopped : Matchmaker := if decide (phase_of m = Active) then frozen m else m.

Lemma stopped_handover : handover reg m stopped /\ settled m stopped.
Proof using Hwf.
  unfold stopped. case_decide; [by apply frozen_handover|]. split; [by apply handover_refl|apply staged_refl].
Qed.

(** A stop freezes and reports one page of the registries. *)
Lemma on_stop_ok g after : on_stop m g after =
  Done (if serves m g then
          let report := frozen_report m after (registry_page (mm_limits m)) in
          (stopped, YStopped (mm_id m) g after report.2 report.1 (mh_successor (mm_hard m))
                      (dr_promised (mh_decree (mm_hard m))))
        else (m, refused m)).
Proof using Hwf.
  unfold on_stop. rewrite (serves_handover_of_ok reg) by done. rsimpl.
  destruct (serves m g) eqn:Es; cbn [negb]; [|by rewrite (refusal_ok reg) by done].
  rewrite mm_phase_ok. rsimpl.
  apply (bind_seq _ stopped).
  { unfold stopped. case_decide; [by apply (freeze_ok reg)|done]. }
  cbv beta. rewrite mm_phase_ok. rsimpl. rassert_by idtac.
  { unfold stopped. case_decide as Ea; [done|]. unfold serves in Es.
    apply andb_true_iff in Es as [_ Es]. by destruct (phase_of m). }
  rewrite (frozen_page_ok reg) by (apply stopped_handover || apply (ho_wf _ _ _ (proj1 stopped_handover))).
  rsimpl.
  assert (frozen_report stopped after (registry_page (mm_limits stopped)) =
          frozen_report m after (registry_page (mm_limits m))) as -> by (unfold stopped; by case_decide).
  assert (mm_config stopped = mm_config m /\ mh_successor (mm_hard stopped) = mh_successor (mm_hard m) /\
          mh_decree (mm_hard stopped) = mh_decree (mm_hard m)) as (-> & -> & ->)
    by (unfold stopped; by case_decide).
  done.
Qed.

Lemma on_stop_arm g after : arm_ok reg m (on_stop m g after).
Proof using Hwf.
  rewrite on_stop_ok. destruct (serves m g); eexists _, _; (split; [done|]).
  - split_and!; [apply stopped_handover..|done].
  - split_and!; [by apply handover_refl|apply staged_refl|done].
Qed.

Lemma pending_for_Some pending set i p :
  pending_for pending set = Some (i, p) -> pending !! i = Some p /\ bo_set p = set.
Proof using. unfold pending_for. rewrite list_find_Some. naive_solver. Qed.

(** A page of a well-formed set, its registries the ballots' own. *)
Definition page_ok (page : BootstrapPage) : Prop :=
  set_wf (bp_set page) /\ forall j r, bp_registries page !! j = Some r -> owned_registry reg j r.

Lemma union_owned page registries set last :
  page_ok page -> owned_bootstrap reg (mkBootstrap set registries last) ->
  owned_bootstrap reg (mkBootstrap set (bp_registries page ∪ registries) (bp_last page)).
Proof using.
  intros [_ Hpage] Hr j r. simpl. rewrite lookup_union_Some_raw. intros [Hj|[_ Hj]]; [by apply Hpage|].
  by apply Hr.
Qed.

Lemma on_bootstrap_arm page : page_ok page -> arm_ok reg m (on_bootstrap m page).
Proof using Hwf.
  intros Hpage. pose proof Hpage as [Hset Howned]. unfold on_bootstrap.
  rewrite set_contains_ok by done. rsimpl.
  case_bool_decide as Hme; cbn [negb orb]; [|apply refused_arm].
  case_bool_decide as Hgen; cbn [orb]; [apply refused_arm|].
  case_bool_decide as Hsettled; [apply refused_arm|].
  set (pending := mh_pending (mm_hard m)). set (found := pending_for pending (bp_set page)).
  set (whole := bool_decide (is_some_and _ found)). set (fits := _ && _).
  pose proof (wf_pending _ _ Hwf) as Hp. pose proof (wf_owned_pending _ _ Hwf) as Ho.
  pose proof (wf_pending_once _ _ Hwf) as Hnd. fold pending in Hp, Ho, Hnd.
  assert (exists m', (if fits then
            stage_scalars (with_hard m (with_pending (mm_hard m)
              (match found with
               | Some (i, _) => <[i := mkBootstrap (bp_set page) (bp_registries page ∪
                   match bp_after page, found with Some _, Some (_, held) => bo_registries held | _, _ => ∅ end)
                   (bp_last page)]> pending
               | None => pending ++ [mkBootstrap (bp_set page) (bp_registries page ∪
                   match bp_after page, found with Some _, Some (_, held) => bo_registries held | _, _ => ∅ end)
                   (bp_last page)]
               end)))
          else mret m) = Done m' /\ (handover reg m m' /\ settled m m') /\ (fits = false -> m' = m)) as (m' & -> & [Hho Hset'] & Hsame).
  { destruct fits eqn:Ef; [|exists m; split_and!; [done|by apply handover_refl|apply staged_refl|done]].
    rewrite stage_scalars_ok. eexists. split; [done|]. split; [|done]. apply handover_stage.
    set (b := mkBootstrap (bp_set page) _ _).
    assert (owned_bootstrap reg b) as Hb.
    { unfold b. apply (union_owned _ _ _ true); [done|].
      destruct (bp_after page), found as [[i held]|] eqn:Efo; intros j r; simpl; try by rewrite lookup_empty.
      unfold found in Efo. apply pending_for_Some in Efo as [Hi _]. rewrite Forall_lookup in Ho.
      by apply (Ho i held). }
    assert (set_wf (bo_set b) /\ mm_id m ∈ ms_members (bo_set b) /\
            ms_generation (mm_set m) < ms_generation (bo_set b)) as Hb' by (simpl; split_and!; [done..|lia]).
    assert (is_none_or (fun s => settles s b) (mh_successor (mm_hard m))) as Hb''.
    { destruct (mh_successor (mm_hard m)) as [s|]; simpl in *; [|done].
      destruct (decide (bp_set page = s)); [by right|]. left.
      destruct (decide (ms_generation (bp_set page) <= ms_generation s)); [by destruct Hsettled|simpl; lia]. }
    pose proof (wf_successor _ _ Hwf) as Hs. fold pending in Hs.
    destruct found as [[i p]|] eqn:Efo; unfold found in Efo.
    - apply pending_for_Some in Efo as [Hi Hpi].
      apply with_pending_handover; [done|by apply Forall_insert|..].
      + destruct (mh_successor (mm_hard m)); [|done]. simpl in *. apply Forall_insert; [apply Hs|done].
      + by apply Forall_insert.
      + rewrite list_fmap_insert. rewrite list_insert_id; [done|]. rewrite list_lookup_fmap, Hi. simpl.
        by rewrite Hpi.
    - apply with_pending_handover; [done|by rewrite Forall_app, Forall_singleton|..].
      + destruct (mh_successor (mm_hard m)); [|done]. simpl in *. rewrite Forall_app, Forall_singleton. by split; [apply Hs|].
      + by rewrite Forall_app, Forall_singleton.
      + rewrite fmap_app. simpl. apply NoDup_app. split_and!; [done| |apply NoDup_singleton].
        intros s Hin ->%list_elem_of_singleton. apply list_elem_of_fmap in Hin as (q & Eq & Hq).
        unfold pending_for in Efo. apply list_find_None in Efo. rewrite Forall_forall in Efo.
        by apply (Efo q Hq). }
  rsimpl. apply arm_rassert; [by apply pending_once, (wf_pending_once _ _ (ho_wf _ _ _ Hho))|].
  apply arm_rassert; [lia|]. eexists m', _. split.
  { eapply bind_seq; [|done]. destruct whole eqn:Ew; [|done]. apply rassert_true.
    rewrite Hsame by (unfold fits; by rewrite andb_false_r). fold pending found.
    unfold whole in Ew. apply bool_decide_eq_true in Ew. by destruct found as [[i p]|]. }
  done.
Qed.
End arms.

(** ** The decree arms *)

Definition decreed m (r : SetRecord) : Matchmaker := with_hard m (with_decree (mm_hard m) r).

Lemma decreed_handover reg m r : mm_wf reg m -> record_ok r -> handover reg m (decreed m r).
Proof. intros Hwf Hr. apply handover_quiet; try done. destruct Hwf. by constructor. Qed.

(** What a decree reply says of the record, in the matchmaker's words. *)
Definition lift_reply m (g : MatchmakerGeneration) (r : DecreeReply (list MatchmakerId)) : ReconfigureReply :=
  match r with
  | RPromised ballot vote => YPromised (mm_id m) g ballot vote
  | RAccepted ballot => YAccepted (mm_id m) g ballot
  | RNacked ballot promised => YNacked (mm_id m) g ballot promised
  | RRefused => refused m
  end.

(** [m'] is [m] with the decree record [r], and at most one more write, which
    carries exactly those scalars. *)
Definition decree_moved m m' (r : SetRecord) : Prop :=
  (m' = m /\ mh_decree (mm_hard m) = r) \/
  m' = push_write (decreed m r) (MSetScalars (with_decree (mm_hard m) r)).

(** What a single-decree acceptor does with the two phases, and answers. *)
Definition decree_prepare_spec m (g : MatchmakerGeneration) (ballot : Ballot) : SetRecord * ReconfigureReply :=
  let r := mh_decree (mm_hard m) in
  if negb (serves m g) then (r, refused m) else
  if decide (ballot < dr_promised r)%B then (r, YNacked (mm_id m) g ballot (dr_promised r))
  else (mkRecord ballot (dr_vote r), YPromised (mm_id m) g ballot (dr_vote r)).
Definition decree_accept_spec m (g : MatchmakerGeneration) (ballot : Ballot) (members : list MatchmakerId) : SetRecord * ReconfigureReply :=
  let r := mh_decree (mm_hard m) in
  if negb (serves m g) then (r, refused m) else
  if decide (ballot < dr_promised r)%B then (r, YNacked (mm_id m) g ballot (dr_promised r))
  else (mkRecord ballot (Some (ballot, normalize members)), YAccepted (mm_id m) g ballot).

(** An Accept is of the canonical list, whatever the order it came in. *)
Lemma on_decree_accept_canonical (r : SetRecord) ballot members : record_ok r ->
  agree (dr_vote r) (Some (ballot, normalize members)) ->
  on_decree_accept true r ballot members =
    Done (if decide (ballot < dr_promised r)%B then (r, RNacked ballot (dr_promised r))
          else (mkRecord ballot (Some (ballot, normalize members)), RAccepted ballot)).
Proof.
  intros Hd Hag. assert (normalize (normalize members) = normalize members) as Hn by apply normalize_id, normalize_sorted.
  rewrite <-(on_decree_accept_ok r ballot (normalize members)) by done. unfold on_decree_accept.
  change (canonical (normalize members)) with (normalize (normalize members)). rewrite Hn. done.
Qed.

Lemma mm_store_decree_refines m a writes r :
  store_decree (mh_decree (mm_hard m)) a writes = Done r ->
  exists m', mm_store_decree m a writes = Done m' /\ decree_moved m m' r /\ mh_decree (mm_hard m') = r.
Proof.
  intros E. unfold mm_store_decree. rewrite E. rsimpl. case_decide as Ew.
  - subst writes. simpl in E. injection E as <-. exists m. split_and!; try done. by left.
  - rewrite stage_scalars_ok. eexists. split_and!; [done|by right|done].
Qed.

Section decree_arms.
Context (reg : JournalId -> Ballot -> Registration) (m : Matchmaker) (Hwf : mm_wf reg m).

(** Over the whole matchmaker the decree handlers are those of the record. *)
Lemma mm_prepare_refines g ballot r reply :
  on_decree_prepare (serves m g) (mh_decree (mm_hard m)) ballot = Done (r, reply) ->
  exists m', mm_on_decree_prepare m g ballot = Done (m', lift_reply m g reply) /\ decree_moved m m' r.
Proof using Hwf.
  intros E. unfold mm_on_decree_prepare. rewrite (serves_handover_of_ok reg) by done. rsimpl.
  unfold on_decree_prepare in E. destruct (serves m g); cbn [negb] in *.
  2:{ injection E as <- <-. rewrite (refusal_ok reg) by done. exists m. split; [done|by left]. }
  apply bind_Done_inv in E as (a & Ea & E). rewrite Ea. rsimpl.
  apply bind_Done_inv in E as ([[a' writes] o] & Ep & E). rewrite Ep. rsimpl. cbv beta iota in *.
  destruct o; rinv E; injection E as <- <-.
  - rewrite E0. rsimpl. exists m. split; [by rassert_by done|by left].
  - rewrite E0. rsimpl. exists m. split; [by rassert_by done|by left].
  - rewrite E0. rsimpl. destruct (mm_store_decree_refines m a' writes _ E1) as (m' & -> & Hm & Hd).
    rsimpl. exists m'. split; [|done]. rewrite Hd. by rassert_by done.
Qed.

Lemma mm_accept_refines g ballot members r reply :
  on_decree_accept (serves m g) (mh_decree (mm_hard m)) ballot members = Done (r, reply) ->
  exists m', mm_on_decree_accept m g ballot members = Done (m', lift_reply m g reply) /\ decree_moved m m' r.
Proof using Hwf.
  intros E. unfold mm_on_decree_accept. rewrite (serves_handover_of_ok reg) by done. rsimpl.
  unfold on_decree_accept in E. destruct (serves m g); cbn [negb] in *.
  2:{ injection E as <- <-. rewrite (refusal_ok reg) by done. exists m. split; [done|by left]. }
  apply bind_Done_inv in E as (a & Ea & E). rewrite Ea. rsimpl.
  apply bind_Done_inv in E as (o & Ep & E). rewrite Ep. rsimpl. cbv beta iota in *.
  destruct o.
  - rinv E; injection E as <- <-. rewrite E0. rsimpl. exists m. split; [by rassert_by done|by left].
  - rinv E; injection E as <- <-. rewrite E0. rsimpl. exists m. split; [by rassert_by done|by left].
  - apply bind_Done_inv in E as ([a1 w1] & E1 & E). rewrite E1. rsimpl. cbv beta iota in *.
    apply bind_Done_inv in E as ([[a2 w2] b] & E2 & E).
    change (canonical members) with (normalize members) in E2. rewrite E2. rsimpl. cbv beta iota in *.
    rinv E. injection E as <- <-.
    destruct (mm_store_decree_refines m a2 w2 _ E0) as (m' & -> & Hm & Hd).
    rsimpl. exists m'. split; [|done]. rewrite Hd. rassert_by done. by rassert_by done.
Qed.

Lemma decree_moved_arm c r reply m' g :
  c = Done (m', lift_reply m g reply) -> decree_moved m m' r -> record_ok r -> arm_ok reg m c.
Proof using Hwf.
  intros E Hm Hr. exists m', (lift_reply m g reply). split; [done|].
  assert (handover reg m m' /\ settled m m') as [Hh Hs].
  { destruct Hm as [[-> _]| ->]; [split; [by apply handover_refl|apply staged_refl]|].
    apply handover_stage. by apply decreed_handover. }
  split_and!; [done..|]. by destruct reply.
Qed.

Lemma decree_prepare_returns g ballot : exists r reply,
  on_decree_prepare (serves m g) (mh_decree (mm_hard m)) ballot = Done (r, reply) /\ record_ok r.
Proof using Hwf.
  pose proof (wf_decree _ _ Hwf) as Hd. pose proof (on_decree_prepare_ok _ ballot Hd) as E.
  destruct (serves m g); [|by do 2 eexists]. rewrite E. case_decide as Hlt; do 2 eexists; (split; [done|]); [done|].
  apply ord_not_lt in Hlt. unfold record_ok in *. simpl. destruct (dr_vote _); simpl in *; [|done]. by etrans.
Qed.

Lemma decree_prepare_arm g ballot : arm_ok reg m (mm_on_decree_prepare m g ballot).
Proof using Hwf.
  destruct (decree_prepare_returns g ballot) as (r & reply & Er & Hr).
  destruct (mm_prepare_refines _ _ _ _ Er) as (m' & Em & Hm). by eapply decree_moved_arm.
Qed.

(** The vote is the one value of its ballot. *)
Lemma decree_accept_returns g ballot members :
  agree (dr_vote (mh_decree (mm_hard m))) (Some (ballot, normalize members)) ->
  exists r reply, on_decree_accept (serves m g) (mh_decree (mm_hard m)) ballot members = Done (r, reply) /\ record_ok r.
Proof using Hwf.
  intros Hag. pose proof (wf_decree _ _ Hwf) as Hd.
  destruct (serves m g); [|by do 2 eexists]. rewrite on_decree_accept_canonical by done.
  case_decide; do 2 eexists; (split; [done|]); [done|]. unfold record_ok; simpl. reflexivity.
Qed.

Lemma decree_accept_arm g ballot members :
  agree (dr_vote (mh_decree (mm_hard m))) (Some (ballot, normalize members)) ->
  arm_ok reg m (mm_on_decree_accept m g ballot members).
Proof using Hwf.
  intros Hag. destruct (decree_accept_returns g ballot members Hag) as (r & reply & Er & Hr).
  destruct (mm_accept_refines _ _ _ _ _ Er) as (m' & Em & Hm). by eapply decree_moved_arm.
Qed.
End decree_arms.

(** ** Activation *)

(** The scalars and the records a journal has after an activation. *)
Definition merge_scalars (held : JournalScalars) (r : JournalRegistry) : JournalScalars :=
  mkScalars (ord_max (jr_watermark r) (js_watermark held)) (max_effective (js_effective held) (jr_effective r)).
Definition merged_ledger (held : JournalScalars) (r : JournalRegistry) : Ledger :=
  bt_split_off (js_watermark (merge_scalars held r)) (jr_history r).

Lemma activate_journal_ok journals registries j r :
  activate_journal (journals, registries) (j, r) =
    Done (<[j := merge_scalars (scalars_of journals j) r]> journals,
          if decide (merged_ledger (scalars_of journals j) r = ∅) then registries
          else <[j := merged_ledger (scalars_of journals j) r]> registries).
Proof.
  unfold activate_journal.
  eapply (bind_seq _ (max_effective (js_effective (scalars_of journals j)) (jr_effective r))).
  { unfold max_effective. destruct (jr_effective r) as [[b c]|]; [|done].
    rewrite raise_effective_ok. rsimpl. by case_decide. }
  cbv beta. rassert_by apply ord_max_ge_l. rassert_by apply ord_max_ge_r. rassert_by idtac; [|done].
  apply Forall_forall. intros b [x Hx]%elem_of_bt_keys. rewrite lookup_bt_split_off in Hx.
  by case_decide.
Qed.

Lemma activate_journals_ok l journals registries :
  NoDup l.*1 -> exists journals' registries',
    foldM activate_journal (journals, registries) l = Done (journals', registries') /\
    (forall j, j ∉ l.*1 -> journals' !! j = journals !! j /\ registries' !! j = registries !! j) /\
    (forall j r, (j, r) ∈ l -> journals' !! j = Some (merge_scalars (scalars_of journals j) r) /\
       (registries !! j = None -> default ∅ (registries' !! j) = merged_ledger (scalars_of journals j) r)).
Proof.
  revert journals registries. induction l as [|[j r] l IH]; intros journals registries Hnd.
  { exists journals, registries. split_and!; [done..|]. by intros ? ? ?%elem_of_nil. }
  apply NoDup_cons in Hnd as [Hj Hnd]. cbn [foldM]. rewrite activate_journal_ok. rsimpl.
  set (registries1 := if decide _ then _ else _).
  assert (forall j', j' <> j -> registries1 !! j' = registries !! j') as Hr1.
  { intros j' Hne. unfold registries1. case_decide; [done|]. by rewrite lookup_insert_ne. }
  destruct (IH (<[j := merge_scalars (scalars_of journals j) r]> journals) registries1 Hnd)
    as (journals' & registries' & -> & Hout & Hin).
  exists journals', registries'. split_and!; [done|..].
  - intros j' [Hne Hj']%not_elem_of_cons. simpl in Hne. destruct (Hout j' Hj') as [-> ->].
    rewrite lookup_insert_ne by done. by rewrite Hr1.
  - intros j' r' [[= -> ->]|Hl]%elem_of_cons.
    + destruct (Hout j Hj) as [-> ->]. rewrite lookup_insert_eq. split; [done|].
      intros Hn. unfold registries1. case_decide as E; [by rewrite Hn, E|by rewrite lookup_insert_eq].
    + assert (j' <> j) as Hne.
      { intros ->. apply Hj, list_elem_of_fmap. by exists (j, r'). }
      destruct (Hin j' r' Hl) as [-> Hd]. rewrite scalars_of_insert, decide_False in Hd |- * by done.
      split; [done|]. intros Hn. apply Hd. by rewrite Hr1.
Qed.

Lemma max_effective_owned reg j held theirs :
  owned_effective reg j held -> owned_effective reg j theirs -> owned_effective reg j (max_effective held theirs).
Proof.
  intros Hh Ht. unfold max_effective. destruct theirs as [[b c]|]; [|done]. by case_decide.
Qed.

(** What the two loops of an activation of [b] over [m] build. *)
Record activation m (b : PendingBootstrap) (J : gmap JournalId JournalScalars)
  (R : gmap JournalId Ledger) (W : gmap JournalId RegistryWindow) : Prop := {
  an_journals : forall j, J !! j =
    match bo_registries b !! j with
    | Some r => Some (merge_scalars (scalars_of (mh_journals (mm_hard m)) j) r)
    | None => mh_journals (mm_hard m) !! j
    end;
  an_registries : forall j, default ∅ (R !! j) =
    match bo_registries b !! j with
    | Some r => merged_ledger (scalars_of (mh_journals (mm_hard m)) j) r
    | None => ∅
    end;
  an_windows : forall j, W !! j =
    match J !! j with Some sc => Some (mkWindow (default ∅ (R !! j)) (js_watermark sc)) | None => None end }.

Lemma activation_loops m b : exists J R W,
  foldM activate_journal (mh_journals (mm_hard m), ∅) (bt_entries (bo_registries b)) = Done (J, R) /\
  foldM (activate_window R) ∅ (bt_entries J) = Done W /\ activation m b J R W /\
  forall j sc, J !! j = Some sc -> window_wf (mkWindow (default ∅ (R !! j)) (js_watermark sc)).
Proof.
  destruct (activate_journals_ok (bt_entries (bo_registries b)) (mh_journals (mm_hard m)) ∅ (NoDup_bt_keys _))
    as (J & R & E & Hout & Hin).
  assert (forall j, J !! j = match bo_registries b !! j with
            | Some r => Some (merge_scalars (scalars_of (mh_journals (mm_hard m)) j) r)
            | None => mh_journals (mm_hard m) !! j end /\
          default ∅ (R !! j) = match bo_registries b !! j with
            | Some r => merged_ledger (scalars_of (mh_journals (mm_hard m)) j) r
            | None => ∅ end) as HJR.
  { intros j. destruct (bo_registries b !! j) as [r|] eqn:Ej.
    - apply elem_of_bt_entries in Ej. destruct (Hin j r Ej) as [-> Hd]. split; [done|].
      apply Hd, lookup_empty.
    - destruct (Hout j) as [-> ->]; [|by rewrite lookup_empty].
      fold (bt_keys (bo_registries b)). rewrite elem_of_bt_keys, Ej. by intros []. }
  assert (forall j sc, J !! j = Some sc -> window_wf (mkWindow (default ∅ (R !! j)) (js_watermark sc))) as Hww.
  { intros j sc Ej. destruct (HJR j) as [EJ ER]. intros bl. simpl. rewrite ER.
    destruct (bo_registries b !! j) as [r|]; [|rewrite lookup_empty; by intros []].
    rewrite EJ in Ej. injection Ej as <-. unfold merged_ledger. rewrite lookup_bt_split_off.
    case_decide; [done|by intros []]. }
  destruct (foldM_insert (activate_window R) (fun j sc => mkWindow (default ∅ (R !! j)) (js_watermark sc)) J ∅)
    as (W & EW & HW).
  { intros acc j sc Ej. unfold activate_window. simpl. rewrite window_new_ok by by eapply Hww. done. }
  exists J, R, W. split_and!; [done..| |done]. constructor; [apply HJR..|].
  intros j. rewrite HW. by rewrite lookup_empty.
Qed.

Section activate.
Context (reg : JournalId -> Ballot -> Registration) (m : Matchmaker) (Hwf : mm_wf reg m).

(** The whole bootstrap held for [s], if any. *)
Definition whole_bootstrap (s : MatchmakerSet) : option (nat * PendingBootstrap) :=
  list_find (fun p => bo_set p = s /\ bo_complete p = true) (mh_pending (mm_hard m)).

(** The state an activation leaves: its scalars, and the whole matchmaker. *)
Definition activated_hard (s : MatchmakerSet) (i : nat) (J : gmap JournalId JournalScalars) : MatchmakerHardState :=
  mkHardState (ms_generation s) (ms_members s) Active None record_default
    (filter (fun p => ms_generation s < ms_generation (bo_set p)) (delete i (mh_pending (mm_hard m)))) J.
Definition activated (s : MatchmakerSet) (i : nat) J (R : gmap JournalId Ledger) W : Matchmaker :=
  push_write (with_registries (with_set (with_hard m (activated_hard s i J)) s) W)
    (MInstallRegistry (activated_hard s i J) R).

Lemma activated_registry s i b J R W j : activation m b J R W ->
  registry_of (activated s i J R W) j =
    match bo_registries b !! j with
    | Some r => merged_ledger (scalars_of (mh_journals (mm_hard m)) j) r
    | None => ∅
    end.
Proof using.
  intros [HJ HR HW]. unfold registry_of; simpl. rewrite HW, HJ, HR.
  destruct (bo_registries b !! j) as [r|]; [done|]. by destruct (mh_journals (mm_hard m) !! j).
Qed.

(** The one write of an activation takes any store to the image of the result. *)
Lemma activated_staged holds m0 s i b J R W :
  (forall d x, image d x -> holds d x) -> activation m b J R W ->
  (forall j sc, J !! j = Some sc -> window_wf (mkWindow (default ∅ (R !! j)) (js_watermark sc))) ->
  (forall j, hard_watermark (mm_hard m) j ≤ hard_watermark (activated_hard s i J) j)%B ->
  (exists ws, mm_writes m = mm_writes m0 ++ ws /\ Forall (write_covered m) ws /\
     forall d, holds d m0 -> returns (registry_apply_all d ws)) ->
  staged holds m0 (activated s i J R W).
Proof using.
  intros Hholds Ha Hww Hfl (ws & E & C & A). pose proof Ha as [HJ HR _].
  exists (ws ++ [MInstallRegistry (activated_hard s i J) R]). split_and!.
  - simpl. by rewrite E, app_assoc.
  - apply Forall_app. split; [eapply Forall_impl; [exact C|]; intros op; by apply write_covered_mono|].
    apply Forall_singleton. exact (own_scalars_covered (activated s i J R W)).
  - intros d Hd. destruct (A d Hd) as [d1 E1].
    destruct (apply_install d1 (activated_hard s i J) R) as (d2 & E2 & Hh & Hl).
    { intros j bl Hb. destruct (J !! j) as [sc|] eqn:Ej.
      - unfold hard_watermark; simpl. rewrite Ej. by apply (Hww j sc Ej).
      - rewrite HR in Hb. rewrite HJ in Ej. destruct (bo_registries b !! j); [done|].
        rewrite lookup_empty in Hb. by destruct Hb. }
    exists d2. split; [unfold registry_apply_all in *; rewrite foldM_app, E1; rsimpl; by apply registry_apply_one|].
    apply Hholds. constructor; [|done]. intros j. rewrite (activated_registry s i b J R W j Ha). by rewrite Hl, HR.
Qed.

Lemma activated_handover s i b J R W :
  set_wf s -> ms_generation s <= u64_max -> mm_id m ∈ ms_members s ->
  ms_generation (mm_set m) < ms_generation s -> mh_pending (mm_hard m) !! i = Some b ->
  activation m b J R W ->
  (forall j sc, J !! j = Some sc -> window_wf (mkWindow (default ∅ (R !! j)) (js_watermark sc))) ->
  handover reg m (activated s i J R W) /\
  forall m0, trail m0 m -> settled m0 (activated s i J R W).
Proof using Hwf.
  intros Hs Hmax Hme Hgen Hi Ha Hww. pose proof Ha as [HJ HR HW].
  assert (forall j, hard_watermark (mm_hard m) j ≤ hard_watermark (activated_hard s i J) j)%B as Hfl.
  { intros j. rewrite !hard_watermark_scalars. simpl. unfold scalars_of at 2. rewrite HJ.
    destruct (bo_registries b !! j); simpl; [apply ord_max_ge_r|].
    unfold scalars_of. by destruct (mh_journals (mm_hard m) !! j). }
  split.
  2:{ intros m0 (ws & E & C & A). eapply activated_staged; [done..|]. exists ws. split_and!; [done..|].
      intros d Hd%image_rough. destruct (A d Hd) as (d' & -> & _). by exists d'. }
  pose proof (wf_owned_pending _ _ Hwf) as Hop. rewrite Forall_lookup in Hop. specialize (Hop i b Hi).
  constructor; try done.
  - apply mm_wf_push_write. pose proof Hwf as []. constructor; try done.
    + intros j w. simpl. rewrite HW. destruct (J !! j) as [sc|] eqn:Ej; [|done]. intros [= <-].
      split; [by eapply Hww|]. unfold hard_watermark; simpl. by rewrite Ej.
    + intros j. simpl. intros [sc Ej]. rewrite HW, Ej. by eexists.
    + intros _. simpl. split; [apply Hs|done].
    + simpl. apply Forall_forall. intros p [Hp Hin']%list_elem_of_filter.
      rewrite Forall_forall in wf_pending.
      destruct (wf_pending p) as (? & ? & _); [|done]. eapply elem_of_sublist; [done|apply sublist_delete].
    + simpl. unfold derive_set; simpl. by apply resolved_set_of.
    + intros j. change (registry_of _ j) with (registry_of (activated s i J R W) j).
      rewrite (activated_registry s i b J R W j Ha). unfold hard_effective; simpl. rewrite HJ.
      destruct (wf_owned j) as [_ Heff]. unfold hard_effective in Heff.
      destruct (bo_registries b !! j) as [r|] eqn:Ej; simpl; [|by split; [intros bl x; rewrite lookup_empty|]].
      destruct (Hop j r Ej) as (Hl & He & _). split.
      * intros bl x. unfold merged_ledger. rewrite lookup_bt_split_off. case_decide; [apply Hl|done].
      * apply max_effective_owned; [|done]. unfold scalars_of. by destruct (mh_journals (mm_hard m) !! j).
    + intros j. change (registry_of _ j) with (registry_of (activated s i J R W) j).
      rewrite (activated_registry s i b J R W j Ha). unfold hard_effective; simpl. rewrite HJ.
      destruct (bo_registries b !! j) as [r|] eqn:Ej; simpl; [|by intros bl x; rewrite lookup_empty].
      destruct (Hop j r Ej) as (_ & _ & Hr). intros bl x. unfold merged_ledger. rewrite lookup_bt_split_off.
      case_decide; [|done]. intros Hx Hk. etrans; [by eapply Hr|apply max_effective_ge].
    + simpl. eapply Forall_forall. intros p [_ Hp]%list_elem_of_filter.
      rewrite Forall_forall in wf_owned_pending. apply wf_owned_pending.
      eapply elem_of_sublist; [done|apply sublist_delete].
    + simpl. eapply sublist_NoDup; [exact wf_pending_once|]. apply fmap_sublist.
      etrans; [apply sublist_filter|apply sublist_delete].
  - simpl. pose proof (mm_set_generation reg m Hwf). lia.
  - simpl. pose proof (mm_set_generation reg m Hwf). lia.
  - intros j. rewrite !hard_effective_scalars. simpl. unfold scalars_of at 2. rewrite HJ.
    destruct (bo_registries b !! j); simpl; [apply max_effective_ge|].
    unfold scalars_of. by destruct (mh_journals (mm_hard m) !! j).
  - eapply activated_staged; [apply image_rough|done..|]. exists [].
    rewrite app_nil_r. split_and!; [done..|]. intros d _. by exists d.
Qed.

(** Activation on every branch: exactly for a member below the successor that
    holds its bootstrap whole. *)
Lemma activate_ok s :
  set_wf s -> ms_generation s <= u64_max ->
  (exists i b J R W, mm_id m ∈ ms_members s /\ ms_generation (mm_set m) < ms_generation s /\
     whole_bootstrap s = Some (i, b) /\ activation m b J R W /\
     activate m s = Done (activated s i J R W, true) /\ handover reg m (activated s i J R W) /\
     forall m0, trail m0 m -> settled m0 (activated s i J R W)) \/
  (activate m s = Done (m, false) /\
     (mm_id m ∉ ms_members s \/ ms_generation s <= ms_generation (mm_set m) \/ whole_bootstrap s = None)).
Proof using Hwf.
  intros Hs Hmax. unfold activate. rewrite set_contains_ok by done. rsimpl.
  case_bool_decide as Hme; cbn [negb orb]; [|by auto].
  case_bool_decide as Hgen; [by auto|]. fold (whole_bootstrap s).
  destruct (whole_bootstrap s) as [[i b]|] eqn:Ef; [left|by auto].
  apply list_find_Some in Ef as (Hi & [Hbs Hbc] & _).
  destruct (activation_loops m b) as (J & R & W & E & EW & Ha & Hww).
  exists i, b, J, R, W. split; [done|]. split; [lia|]. split; [done|]. split; [done|]. split.
  2:{ eapply activated_handover; try done. lia. }
  rassert_by done. rewrite E. rsimpl. cbv beta iota. rewrite set_members_ok by done. rsimpl.
  fold (activated_hard s i J). rewrite (refresh_set_ok _ s) by by apply resolved_set_of. rsimpl.
  rewrite EW. rsimpl. rassert_by done. rewrite mm_phase_ok. rsimpl. rassert_by done. by rassert_by done.
Qed.
End activate.

(** ** Learning *)

Definition settled_pending (s : MatchmakerSet) (pending : list PendingBootstrap) : list PendingBootstrap :=
  filter (fun p => ms_generation s < ms_generation (bo_set p) \/ bo_set p = s) pending.
Definition pruned m (s : MatchmakerSet) : Matchmaker :=
  with_hard m (with_pending (mm_hard m) (settled_pending s (mh_pending (mm_hard m)))).

Lemma prune_settled_pending_ok m s : exists changed,
  prune_settled_pending m s = Done (pruned m s, changed) /\ (changed = false -> pruned m s = m).
Proof.
  unfold prune_settled_pending. eexists.
  split; [rassert_by idtac; [|rassert_by idtac; [|done]]|].
  - apply Forall_forall. intros p [Hg Hp]%list_elem_of_filter. apply list_elem_of_filter in Hp as [[?|?] _]; [lia|done].
  - apply sublist_length, sublist_filter.
  - intros Hc%bool_decide_eq_false%dec_stable. unfold pruned. fold (settled_pending s (mh_pending (mm_hard m))) in Hc.
    assert (settled_pending s (mh_pending (mm_hard m)) = mh_pending (mm_hard m)) as ->.
    { apply sublist_same_length; [apply sublist_filter|lia]. }
    by destruct m as [? []].
Qed.

Lemma settled_pending_settles s pending : Forall (settles s) (settled_pending s pending).
Proof. apply Forall_forall. intros p [Hp _]%list_elem_of_filter. done. Qed.

Lemma pruned_handover reg m s : mm_wf reg m -> handover reg m (pruned m s).
Proof.
  intros Hwf. assert (settled_pending s (mh_pending (mm_hard m)) `sublist_of` mh_pending (mm_hard m)) as Hsub
    by apply sublist_filter.
  assert (forall P : PendingBootstrap -> Prop, Forall P (mh_pending (mm_hard m)) ->
            Forall P (settled_pending s (mh_pending (mm_hard m)))) as HF.
  { intros P HP. rewrite Forall_forall in *. intros p Hp. apply HP. by eapply elem_of_sublist. }
  pose proof Hwf as []. apply with_pending_handover; auto.
  - destruct (mh_successor (mm_hard m)); [|done]. simpl in *. apply HF, wf_successor.
  - eapply sublist_NoDup; [exact wf_pending_once|]. by apply fmap_sublist.
Qed.

(** Recording the chain link, in a generation that is frozen. *)
Definition linked m (s : MatchmakerSet) : Matchmaker := pruned (with_hard m (with_successor (mm_hard m) s)) s.

Lemma linked_handover reg m s :
  mm_wf reg m -> mh_phase (mm_hard m) = Stopped ->
  ms_generation s = next_generation (mh_generation (mm_hard m)) -> handover reg m (linked m s).
Proof.
  intros Hwf Hst Hg. destruct (pruned_handover reg m s Hwf) as [Hwf'].
  apply handover_quiet; try done. destruct Hwf'. constructor; try done.
  split_and!; [done..|]. apply settled_pending_settles.
Qed.

Section learn.
Context (reg : JournalId -> Ballot -> Registration) (m : Matchmaker) (Hwf : mm_wf reg m).

Lemma serves_phase g : serves m g = true -> phase_of m = Active \/ phase_of m = Stopped.
Proof using. unfold serves. intros [_ Hp]%andb_true_iff. destruct (phase_of m); try done; auto. Qed.

Lemma serves_generation g : serves m g = true -> mh_generation (mm_hard m) = g.
Proof using Hwf.
  unfold serves. intros [Hg _]%andb_true_iff. apply bool_decide_eq_true in Hg.
  by rewrite <-(mm_set_generation reg m Hwf).
Qed.

Lemma stopped_phase g : serves m g = true -> mh_phase (mm_hard (stopped m)) = Stopped.
Proof using.
  intros Hs%serves_phase. unfold stopped. case_decide as Ha; [done|].
  destruct Hs as [|Hs]; [done|]. unfold phase_of in *. destruct (mh_phase (mm_hard m)); try done.
  by case_decide.
Qed.

Lemma learn_successor_arm g s :
  serves m g = true -> set_wf s -> g <= u64_max -> ms_generation s = next_generation g ->
  is_none_or (fun recorded => recorded = s) (mh_successor (mm_hard m)) ->
  arm_ok reg m (learn_successor m g s (phase_of m)).
Proof using Hwf.
  intros Hserves Hs Hmax Hgen Hrec. unfold learn_successor.
  assert (exists m1 changed, (if decide (mh_successor (mm_hard m) = None) then
             m ← (if decide (phase_of m = Active) then freeze m else mret m);
             mret (with_hard m (with_successor (mm_hard m) s), true)
           else mret (m, false)) = Done (m1, changed) /\ handover reg m (pruned m1 s) /\
           mh_successor (mm_hard m1) = Some s /\ (changed = false -> m1 = m)) as (m1 & changed & -> & Hho & Hsucc & Hsame).
  { destruct (decide (mh_successor (mm_hard m) = None)) as [Hn|Hn].
    - exists (with_hard (stopped m) (with_successor (mm_hard (stopped m)) s)), true. split_and!; [| |done..].
      { eapply (bind_seq _ (stopped m)); [|done]. unfold stopped.
        case_decide; [by apply (freeze_ok reg)|done]. }
      destruct (stopped_handover reg m Hwf) as [Hst _]. eapply handover_trans; [exact Hst|].
      apply linked_handover; [apply Hst|by eapply stopped_phase|].
      assert (mh_generation (mm_hard (stopped m)) = mh_generation (mm_hard m)) as ->.
      { unfold stopped. case_decide; [|done]. simpl. by eapply mm_set_generation. }
      by rewrite (serves_generation g).
    - exists m, false. split_and!; [done|by apply pruned_handover| |done].
      destruct (mh_successor (mm_hard m)); simpl in Hrec; [by subst|done]. }
  rsimpl. cbv beta iota. destruct (prune_settled_pending_ok m1 s) as (prn & -> & Hprn). rsimpl. cbv beta iota.
  set (m2 := if changed || prn then push_write (pruned m1 s) (MSetScalars (mm_hard (pruned m1 s))) else pruned m1 s).
  assert ((if changed || prn then stage_scalars (pruned m1 s) else mret (pruned m1 s)) = Done m2) as ->.
  { unfold m2. destruct (changed || prn); [apply stage_scalars_ok|done]. }
  assert (handover reg m m2 /\ settled m m2) as [Hho2 Hset2].
  { unfold m2. destruct changed; cbn [orb]; [by apply handover_stage|]. destruct prn; [by apply handover_stage|].
    rewrite Hprn, Hsame by done. split; [by apply handover_refl|apply staged_refl]. }
  assert (mh_successor (mm_hard m2) = Some s) as Hsucc2 by (unfold m2; by destruct (changed || prn)).
  clearbody m2. rsimpl.
  destruct (activate_ok reg m2 (ho_wf _ _ _ Hho2) s) as [(i & b & J & R & W & _ & _ & _ & _ & -> & Hact & Hsact)|[-> _]];
    [done|rewrite Hgen; unfold next_generation; lia|..]; rsimpl; cbv beta iota.
  - eexists _, _. split; [eapply bind_seq; [by apply rassert_true|done]|].
    split_and!; [by eapply handover_trans|apply Hsact, Hho2|done].
  - eexists _, _. split; [eapply bind_seq; [by apply rassert_true|done]|]. done.
Qed.

Lemma learn_elsewhere_arm g s :
  set_wf s -> ms_generation s <= u64_max -> arm_ok reg m (learn_elsewhere m g s).
Proof using Hwf.
  intros Hs Hmax. unfold learn_elsewhere. destruct (prune_settled_pending_ok m s) as (prn & -> & Hprn). rsimpl. cbv beta iota.
  pose proof (pruned_handover reg m s Hwf) as Hho.
  destruct (activate_ok reg _ (ho_wf _ _ _ Hho) s) as [(i & b & J & R & W & _ & _ & _ & _ & -> & Hact & Hsact)|[-> _]];
    [done|lia|..]; rsimpl; cbv beta iota.
  - apply arm_rassert; [done|]. rewrite mm_phase_ok. rsimpl. apply arm_rassert; [done|].
    eexists _, _. split; [done|]. split_and!; [by eapply handover_trans|apply Hsact, Hho|done].
  - set (m2 := if prn then push_write (pruned m s) (MSetScalars (mm_hard (pruned m s))) else pruned m s).
    assert ((if prn then stage_scalars (pruned m s) else mret (pruned m s)) = Done m2) as ->.
    { unfold m2. destruct prn; [apply stage_scalars_ok|done]. }
    assert (handover reg m m2 /\ settled m m2) as [Hho2 Hset2].
    { unfold m2. destruct prn; [by apply handover_stage|]. rewrite Hprn by done.
      split; [by apply handover_refl|apply staged_refl]. }
    rsimpl.
    exists m2, (refused m2). rewrite (refusal_ok reg) by apply Hho2. split_and!; [done..|].
    simpl. by rewrite (ho_config _ _ _ Hho2).
Qed.

Lemma on_chosen_arm g s : set_wf s -> g <= u64_max -> arm_ok reg m (on_chosen m g s).
Proof using Hwf.
  intros Hs Hmax. unfold on_chosen. rewrite mm_phase_ok, generation_next_min by done. rsimpl.
  case_decide as Hg; [by apply refused_arm|].
  case_decide as Hcur; [eexists _, _; split_and!; [done|by apply handover_refl|apply staged_refl|done]|].
  rewrite (serves_handover_of_ok reg) by done. rsimpl. destruct (serves m g) eqn:Es.
  - case_decide as Hr; [by apply refused_arm|]. apply learn_successor_arm; try done.
    destruct (mh_successor (mm_hard m)); simpl in *; [by apply dec_stable in Hr|done].
  - case_decide; [|by apply refused_arm]. apply learn_elsewhere_arm; [done|].
    rewrite Hg. unfold next_generation. lia.
Qed.

(** What the wire contract promises of a handover request: sets come from their
    constructor, a bootstrap page carries the ballots' own registrations, and a
    decree ballot carries one value. *)
Definition request_ok (request : ReconfigureRequest) : Prop :=
  match request with
  | QStop _ _ _ | QDecreePrepare _ _ _ => True
  | QBootstrap _ page => page_ok reg page
  | QDecreeAccept _ _ ballot members => agree (dr_vote (mh_decree (mm_hard m))) (Some (ballot, normalize members))
  | QChosen _ generation successor => set_wf successor /\ generation <= u64_max
  end.

Lemma step_reconfigure_ok request : request_ok request ->
  exists m' reply, step_reconfigure m request = Done (push_reconfigure_reply m' reply) /\
    handover reg m m' /\ settled m m' /\ reply_matchmaker reply = mm_id m /\
    match request with
    | QStop _ generation after => on_stop m generation after
    | QBootstrap _ bootstrap => on_bootstrap m bootstrap
    | QDecreePrepare _ generation ballot => mm_on_decree_prepare m generation ballot
    | QDecreeAccept _ generation ballot members => mm_on_decree_accept m generation ballot members
    | QChosen _ generation successor => on_chosen m generation successor
    end = Done (m', reply).
Proof using Hwf.
  intros Hr. unfold step_reconfigure. rewrite (mm_assert_invariants_ok reg) by done. rsimpl.
  set (arm := match request with QStop _ _ _ => _ | _ => _ end).
  assert (arm_ok reg m arm) as (m' & reply & Earm & Hho & Hset & Hreply).
  { unfold arm. destruct request; simpl in Hr.
    - by apply on_stop_arm.
    - by apply on_bootstrap_arm.
    - by apply decree_prepare_arm.
    - by apply decree_accept_arm.
    - apply on_chosen_arm; apply Hr. }
  exists m', reply. split_and!; [|done..]. rewrite Earm. rsimpl. cbv beta iota.
  rassert_by (by rewrite (ho_config _ _ _ Hho)).
  rassert_by (simpl; rewrite length_app, (ho_replies _ _ _ Hho); simpl; lia).
  rassert_by idtac.
  { apply Forall_forall. intros f Hf. apply list_elem_of_fmap in Hf as ([j sc] & -> & Hin). simpl.
    apply elem_of_bt_entries in Hin. pose proof (ho_floor _ _ _ Hho j) as Hfl.
    unfold hard_watermark in Hfl at 1. by rewrite Hin in Hfl. }
  rassert_by apply (ho_generation _ _ _ Hho).
  rewrite (mm_assert_invariants_ok reg) by (apply mm_wf_push_reconfigure_reply, Hho). done.
Qed.
End learn.

(** ** Theorems *)

Section theorems.
Context (reg : JournalId -> Ballot -> Registration) (m : Matchmaker) (Hwf : mm_wf reg m).

(** The record's handlers give what the specification says. *)
Lemma decree_prepare_specified g ballot :
  exists reply, on_decree_prepare (serves m g) (mh_decree (mm_hard m)) ballot = Done ((decree_prepare_spec m g ballot).1, reply) /\
    lift_reply m g reply = (decree_prepare_spec m g ballot).2.
Proof using Hwf.
  pose proof (on_decree_prepare_ok _ ballot (wf_decree _ _ Hwf)) as E. unfold decree_prepare_spec.
  destruct (serves m g); cbn [negb]; [|by eexists]. rewrite E. case_decide; by eexists.
Qed.

Lemma decree_accept_specified g ballot members :
  agree (dr_vote (mh_decree (mm_hard m))) (Some (ballot, normalize members)) ->
  exists reply, on_decree_accept (serves m g) (mh_decree (mm_hard m)) ballot members = Done ((decree_accept_spec m g ballot members).1, reply) /\
    lift_reply m g reply = (decree_accept_spec m g ballot members).2.
Proof using Hwf.
  intros Hag. unfold decree_accept_spec. destruct (serves m g); cbn [negb]; [|by eexists].
  rewrite (on_decree_accept_canonical _ _ _ (wf_decree _ _ Hwf) Hag). case_decide; by eexists.
Qed.

(** C32: the decree's Prepare and Accept on a whole matchmaker, on every branch and against
    a specification that mentions no acceptor.  They return (an Accept provided it names the
    value already voted for when it names the voted ballot, which one proposer per ballot
    gives).  Of another generation than the one it serves the matchmaker refuses and changes
    nothing; below its decree promise it answers with that promise and changes nothing; else
    a Prepare raises the promise to its ballot, keeps the vote and reports it, and an Accept
    raises the promise to its ballot and records the members, sorted and without duplicates,
    as the vote at it.  Only the decree record changes, staged whole in at most one write, and
    record and answer are those of the record's own handlers, whose agreement is therefore
    the matchmakers'. *)
Theorem matchmaker_decree_refines g ballot members :
  agree (dr_vote (mh_decree (mm_hard m))) (Some (ballot, normalize members)) ->
  (exists m', mm_on_decree_prepare m g ballot = Done (m', (decree_prepare_spec m g ballot).2) /\
     decree_moved m m' (decree_prepare_spec m g ballot).1 /\
     exists reply, on_decree_prepare (serves m g) (mh_decree (mm_hard m)) ballot =
       Done ((decree_prepare_spec m g ballot).1, reply) /\ lift_reply m g reply = (decree_prepare_spec m g ballot).2) /\
  (exists m', mm_on_decree_accept m g ballot members = Done (m', (decree_accept_spec m g ballot members).2) /\
     decree_moved m m' (decree_accept_spec m g ballot members).1 /\
     exists reply, on_decree_accept (serves m g) (mh_decree (mm_hard m)) ballot members =
       Done ((decree_accept_spec m g ballot members).1, reply) /\ lift_reply m g reply = (decree_accept_spec m g ballot members).2).
Proof using Hwf.
  intros Hag. split.
  - destruct (decree_prepare_specified g ballot) as (reply & E & <-).
    destruct (mm_prepare_refines reg m Hwf _ _ _ _ E) as (m' & E' & Hm). exists m'. split_and!; [done..|]. by exists reply.
  - destruct (decree_accept_specified g ballot members Hag) as (reply & E & <-).
    destruct (mm_accept_refines reg m Hwf _ _ _ _ _ E) as (m' & E' & Hm). exists m'. split_and!; [done..|]. by exists reply.
Qed.

(** Activation, on every branch.  A member of a later set that holds its
    bootstrap whole starts that generation: per journal the higher of the two
    floors, the newer of the two effective configurations, and exactly the
    bootstrap's records at or above the floor, all staged in one write, with no
    successor, a blank decree and only later bootstraps pending.  Anyone else is
    left unchanged. *)
Theorem activate_exact s :
  set_wf s -> ms_generation s <= u64_max ->
  exists m' activated, activate m s = Done (m', activated) /\ mm_wf reg m' /\
    (activated = true <-> mm_id m ∈ ms_members s /\ ms_generation (mm_set m) < ms_generation s /\
       is_Some (whole_bootstrap m s)) /\
    (activated = false -> m' = m) /\
    (forall i b, activated = true -> whole_bootstrap m s = Some (i, b) ->
       mm_set m' = s /\ phase_of m' = Active /\ mh_successor (mm_hard m') = None /\
       mh_decree (mm_hard m') = record_default /\
       (forall j r, bo_registries b !! j = Some r ->
          hard_watermark (mm_hard m') j = ord_max (jr_watermark r) (hard_watermark (mm_hard m) j) /\
          hard_effective (mm_hard m') j = max_effective (hard_effective (mm_hard m) j) (jr_effective r) /\
          forall bl x, registry_of m' j !! bl = Some x <->
            jr_history r !! bl = Some x /\ (hard_watermark (mm_hard m') j ≤ bl)%B) /\
       (forall j, bo_registries b !! j = None ->
          hard_watermark (mm_hard m') j = hard_watermark (mm_hard m) j /\
          hard_effective (mm_hard m') j = hard_effective (mm_hard m) j /\ registry_of m' j = ∅)).
Proof using Hwf.
  intros Hs Hmax. destruct (activate_ok reg m Hwf s Hs Hmax)
    as [(i & b & J & R & W & Hme & Hgen & Hwh & Ha & E & Hho & _)|[E Hno]].
  - exists (activated m s i J R W), true. split; [done|]. split; [apply Hho|].
    split; [split; [intros _; split_and!; [done..|by eexists]|done]|]. split; [done|]. intros i' b' _ Hwh'. rewrite Hwh in Hwh'. injection Hwh' as <- <-.
    pose proof Ha as [HJ HR HW]. split_and!; [done|done|done|done|..].
    + intros j r Hj. rewrite !hard_watermark_scalars, !hard_effective_scalars.
      assert (scalars_of (mh_journals (mm_hard (activated m s i J R W))) j =
              merge_scalars (scalars_of (mh_journals (mm_hard m)) j) r) as ->.
      { simpl. unfold scalars_of at 1. by rewrite HJ, Hj. }
      split_and!; [done|done|]. intros bl x. rewrite (activated_registry m s i b J R W j Ha), Hj.
      unfold merged_ledger. rewrite lookup_bt_split_off. simpl. case_decide; naive_solver.
    + intros j Hj. rewrite (activated_registry m s i b J R W j Ha), Hj.
      unfold hard_watermark, hard_effective; simpl. by rewrite HJ, Hj.
  - exists m, false. split; [done|]. split; [done|]. split; [|done]. split; [done|]. intros (H1 & H2 & [e He]).
    destruct Hno as [?|[?|Hn]]; [done|lia|congruence].
Qed.
End theorems.

(** A spare that holds a whole bootstrap of generation 1. *)
Definition sample_next : MatchmakerSet := mkSet 1 [0; 3].
Definition sample_bootstrap : PendingBootstrap :=
  mkBootstrap sample_next {[ 0 := mkRegistry zero {[ mkBallot 1 0 := mkReg sample_config Belief ]} None ]} true.
Definition sample_spare : Matchmaker :=
  with_hard (fresh_matchmaker 3 [0; 1; 2] limits_default) (with_pending hard_default [sample_bootstrap]).

Lemma sample_next_wf : set_wf sample_next.
Proof. apply set_wf_alt. split_and!; [by apply (bool_decide_unpack _); vm_compute|done|by vm_compute]. Qed.

Lemma sample_spare_wf : mm_wf sample_reg sample_spare.
Proof.
  apply (with_pending_handover sample_reg (fresh_matchmaker 3 [0; 1; 2] limits_default) [sample_bootstrap]).
  - apply fresh_wf; [apply sample_set_wf|apply limits_default_valid].
  - apply Forall_singleton. split_and!; [apply sample_next_wf|by apply (bool_decide_unpack _); vm_compute|by vm_compute].
  - done.
  - apply Forall_singleton. intros j r. simpl. intros [<- <-]%lookup_singleton_Some.
    split_and!; [|done|]; intros b x; simpl; intros [<- <-]%lookup_singleton_Some; done.
  - apply NoDup_singleton.
Qed.

Lemma matchmaker_decree_refines_witness :
  (exists m', mm_on_decree_prepare sample_mm 0 (mkBallot 1 0) = Done (m', YPromised 0 0 (mkBallot 1 0) None)) /\
  (exists m', mm_on_decree_accept sample_mm 0 (mkBallot 1 0) [3; 0; 3] = Done (m', YAccepted 0 0 (mkBallot 1 0)) /\
     dr_vote (mh_decree (mm_hard m')) = Some (mkBallot 1 0, [0; 3])).
Proof.
  destruct (matchmaker_decree_refines sample_reg sample_mm sample_mm_wf 0 (mkBallot 1 0) [3; 0; 3])
    as [(m' & E & _) (m'' & E' & Hm & _)]; [done|]. split; [by exists m'|]. exists m''. split; [exact E'|].
  destruct Hm as [[_ Hr]| ->]; [discriminate Hr|reflexivity].
Defined.

Lemma activate_exact_witness :
  exists m', activate sample_spare sample_next = Done (m', true) /\ mm_set m' = sample_next.
Proof.
  destruct (activate_exact sample_reg sample_spare sample_spare_wf sample_next sample_next_wf) as (m' & a & E & _ & Hiff & _ & Hact).
  - by vm_compute.
  - assert (a = true) as ->.
    { apply Hiff. split_and!; [by apply (bool_decide_unpack _); vm_compute|by vm_compute|by vm_compute; eexists]. }
    exists m'. split; [done|]. by destruct (Hact 0%nat sample_bootstrap) as [? _]; [..|reflexivity|].
Defined.
