(* ===== verification/MatchNode.v ===== *)
(** * A matchmaker over its store

    Every call a driver makes of a matchmaker ([Matchmaker::step],
    [step_reconfigure], [advance_gc_watermark]), the drain that persists a batch
    before its replies leave ([drain] of [paros-roles/src/matchmaker.rs]), and a
    restart from the store.  What any of them may change is [evolves]; the last
    part shows that a restarted matchmaker answers as the original would. *)

From S2P Require Import Prelude BTree Types Retained Contract QuorumSystem AcceptorConfig Acceptor Decree MatchmakerSet MatchmakerState Matchmaker MatchmakerInv MatchmakerStorage Generation GenerationInv.

Implicit Types m : Matchmaker.

(** ** Calls *)

Inductive Call :=
| CMatch (request : MatchRequest)
| CReconfigure (request : ReconfigureRequest)
| CGc (journal : JournalId) (generation : MatchmakerGeneration) (watermark : Ballot).

Definition call m (c : Call) : run Matchmaker :=
  match c with
  | CMatch request => mm_step m request
  | CReconfigure request => step_reconfigure m request
  | CGc journal generation watermark =>
      '(m, _) ← advance_gc_watermark m journal generation watermark; mret m
  end.

(** ** A matchmaker with its store *)

Record Node := mkNode { nd_mm : Matchmaker; nd_disk : MemRegistry }.

Implicit Types n : Node.

(** [drain]: take the batch, persist it, and only then hand the replies out. *)
Definition drain n : run (Node * (list MatchReply * list ReconfigureReply)) :=
  let m := nd_mm n in
  writes ← ready_writes m;
  replies ← ready_replies m;
  reconfigure_replies ← ready_reconfigure_replies m;
  m ← ready_advance m;
  disk ← registry_apply_all (nd_disk n) writes;
  mret (mkNode m disk, (replies, reconfigure_replies)).

(** A crash loses the batch whole; the next incarnation boots from the store. *)
Definition restart n : run Node :=
  m ← matchmaker_new (mm_config (nd_mm n)) (nd_disk n) (mm_limits (nd_mm n));
  mret (mkNode m (nd_disk n)).

(** ** What a call may change *)

Section calls.
Context (reg : JournalId -> Ballot -> Registration).

(** A registration carries its ballot's own configuration and pages up to its
    ballot; a handover request is what the wire contract promises. *)
Definition call_ok m (c : Call) : Prop :=
  match c with
  | CMatch request =>
      match rq_purpose request with
      | PRegister kind => mkReg (rq_config request) kind = reg (rq_journal request) (rq_ballot request) /\
          is_none_or (fun cursor => cursor ≤ rq_ballot request)%B (rq_from_ballot request)
      | PProbe => True
      end
  | CReconfigure request => request_ok reg m request
  | CGc _ _ _ => True
  end.

Abbreviation generation_of m := (mh_generation (mm_hard m)).

(** Within a generation the registry is append-only: a record stays until the
    floor passes it, and a new one is above every record and the floor. *)
Record evolves m m' : Prop := {
  ev_wf : mm_wf reg m';
  ev_config : mm_config m' = mm_config m;
  ev_limits : mm_limits m' = mm_limits m;
  ev_settled : settled m m';
  ev_floor : forall j, (hard_watermark (mm_hard m) j ≤ hard_watermark (mm_hard m') j)%B;
  ev_generation : generation_of m <= generation_of m';
  ev_effective : forall j, ord_le (effective_at (hard_effective (mm_hard m) j))
                                  (effective_at (hard_effective (mm_hard m') j));
  ev_kept : generation_of m' = generation_of m -> forall j b r, registry_of m j !! b = Some r ->
    registry_of m' j !! b = Some r \/ (b < hard_watermark (mm_hard m') j)%B;
  ev_fresh : generation_of m' = generation_of m -> forall j b r, registry_of m' j !! b = Some r ->
    registry_of m j !! b = Some r \/
    (hard_watermark (mm_hard m) j ≤ b)%B /\ forall b', is_Some (registry_of m j !! b') -> (b' < b)%B }.

Lemma handover_evolves m m' : handover reg m m' -> settled m m' -> evolves m m'.
Proof using.
  intros [] Hs. constructor; try done.
  - intros Eg j b r Hr. left. by rewrite ho_registry.
  - intros Eg j b r Hr. left. by rewrite <-ho_registry.
Qed.

Lemma evolves_refl m : mm_wf reg m -> evolves m m.
Proof using. intros Hwf. apply handover_evolves; [by apply handover_refl|apply staged_refl]. Qed.

(** Replies change nothing an evolution reads. *)
Lemma evolves_push_reply m m' r : evolves m m' -> evolves m (push_reply m' r).
Proof using.
  intros []. constructor; try done; [by apply mm_wf_push_reply|].
  destruct ev_settled0 as (ws & E & C & A). exists ws. split_and!; [done..|].
  intros d Hd. destruct (A d Hd) as (d' & Ed & []). exists d'. done.
Qed.
Lemma evolves_push_reconfigure_reply m m' r : evolves m m' -> evolves m (push_reconfigure_reply m' r).
Proof using.
  intros []. constructor; try done; [by apply mm_wf_push_reconfigure_reply|].
  destruct ev_settled0 as (ws & E & C & A). exists ws. split_and!; [done..|].
  intros d Hd. destruct (A d Hd) as (d' & Ed & []). exists d'. done.
Qed.

Lemma registered_evolves m j b :
  mm_wf reg m -> (hard_watermark (mm_hard m) j ≤ b)%B ->
  is_none_or (fun h => h < b)%B (last_key_of (registry_of m j)) -> evolves m (registered m j b (reg j b)).
Proof using.
  intros Hwf Hb Hh. destruct (above_highest_unregistered reg m j b Hh) as [Hnone _].
  constructor; try done.
  - by apply registered_wf.
  - by apply (registered_settled reg).
  - intros j'. simpl. by rewrite registered_hard_watermark.
  - simpl. by rewrite (proj1 (registered_hard_rest _ _ _ _)).
  - intros j'. simpl. rewrite registered_hard_effective. case_decide; [subst; apply new_effective_ge|done].
  - intros _ j' b' r' Hr'. left. rewrite registered_registry. case_decide; [subst|done].
    rewrite lookup_insert_ne; [done|]. intros ->. by rewrite Hnone in Hr'.
  - intros _ j' b' r'. rewrite registered_registry. case_decide; [subst|by left]. rewrite lookup_insert.
    case_decide; [intros _; subst; right|by left]. split; [done|]. intros b'' Hb''.
    destruct (last_key_of (registry_of m j)) as [h|] eqn:E; simpl in Hh.
    + apply last_key_of_Some in E as [_ Hmax]. eapply ord_le_lt_trans; [by apply Hmax|done].
    + apply last_key_of_None in E. rewrite E, lookup_empty in Hb''. by destruct Hb''.
Qed.

Lemma collected_evolves m j watermark :
  mm_wf reg m -> (hard_watermark (mm_hard m) j < watermark)%B -> evolves m (collected m j watermark).
Proof using.
  intros Hwf Hlt. constructor; try done.
  - by apply collected_wf.
  - by apply (collected_settled reg).
  - intros j'. rewrite collected_watermark. case_decide; [subst; by apply ord_lt_le|done].
  - intros j'. by rewrite collected_effective.
  - intros _ j' b r Hr. rewrite collected_registry, collected_watermark. case_decide; [subst|by left].
    rewrite lookup_bt_split_off. case_decide as Hb; [by left|right]. by apply ord_not_le.
  - intros _ j' b r. rewrite collected_registry. case_decide; [subst|by left].
    rewrite lookup_bt_split_off. case_decide; [by left|done].
Qed.

Lemma register_result_evolves m j b g cursor :
  mm_wf reg m -> evolves m (register_result m j b g cursor (reg j b)).1.
Proof using.
  intros Hwf. unfold register_result. destruct (judged m g); [by apply evolves_refl|].
  case_decide as Hlt; [by apply evolves_refl|]. apply ord_not_lt in Hlt.
  destruct (last_key_of (registry_of m j)) as [h|] eqn:Eh.
  - case_decide as Hle; [case_decide; by apply evolves_refl|]. apply registered_evolves; [done..|]. by rewrite Eh.
  - apply registered_evolves; [done..|]. by rewrite Eh.
Qed.

(** Every reply a call adds is in the matchmaker's name; a registration it
    answers is of the generation served, durable with the batch, and carries the
    page of the state it was asked in. *)
Definition answers m m' (c : Call) : Prop :=
  match c with
  | CMatch request => exists outcome,
      mm_replies m' = mm_replies m ++ [mkReply (mm_id m) (rq_journal request) (rq_from request)
                                         (rq_ballot request) (rq_generation request) outcome] /\
      mm_reconfigure_replies m' = mm_reconfigure_replies m /\
      forall page, outcome = Registered page -> rq_purpose request <> PProbe /\
        page = answer m (rq_journal request) (rq_from_ballot request) (rq_ballot request) /\
        rq_generation request = generation_of m /\ generation_of m' = generation_of m /\
        hard_watermark (mm_hard m') (rq_journal request) = hard_watermark (mm_hard m) (rq_journal request) /\
        registry_of m' (rq_journal request) =
          <[rq_ballot request := reg (rq_journal request) (rq_ballot request)]> (registry_of m (rq_journal request)) /\
        (hard_watermark (mm_hard m) (rq_journal request) ≤ rq_ballot request)%B
  | CReconfigure _ => mm_replies m' = mm_replies m /\
      exists reply, mm_reconfigure_replies m' = mm_reconfigure_replies m ++ [reply] /\
        reply_matchmaker reply = mm_id m
  | CGc _ _ _ => mm_replies m' = mm_replies m /\ mm_reconfigure_replies m' = mm_reconfigure_replies m
  end.

Lemma call_evolves m c :
  mm_wf reg m -> call_ok m c -> exists m', call m c = Done m' /\ evolves m m' /\ answers m m' c.
Proof using.
  intros Hwf Hc. destruct c as [[from j b config purpose g cursor]|request|j g watermark]; cbn [call].
  - destruct purpose as [kind|]; simpl in Hc.
    + destruct Hc as [Hr Hcur]. rewrite (step_register_ok reg m Hwf from j b config kind g cursor Hr Hcur).
      pose proof (register_result_evolves m j b g cursor Hwf) as Hev.
      eexists. split; [done|]. split; [by apply evolves_push_reply|].
      assert (mm_replies (register_result m j b g cursor (reg j b)).1 = mm_replies m /\
              mm_reconfigure_replies (register_result m j b g cursor (reg j b)).1 = mm_reconfigure_replies m)
        as [E1 E2] by (unfold register_result; repeat case_match; done).
      exists (register_result m j b g cursor (reg j b)).2. simpl. rewrite E1, E2. split_and!; [done..|].
      intros page Hpage. destruct (register_result m j b g cursor (reg j b)) as [m' o] eqn:E. simpl in *. subst o.
      apply register_result_answers in E as (-> & Hreg & Hb & Hw & _ & Hset & _ & Hg).
      pose proof (mm_set_generation reg m Hwf) as Eg. pose proof (mm_set_generation reg m' (ev_wf _ _ Hev)) as Eg'.
      split_and!; [done|done|congruence|congruence|done..].
    + rewrite (step_probe_ok reg m Hwf). eexists. split; [done|].
      split; [by apply evolves_push_reply, evolves_refl|]. eexists. split_and!; [done..|].
      intros page. by destruct (judged m g).
  - destruct (step_reconfigure_ok reg m Hwf request Hc) as (m' & reply & -> & Hho & Hset & Hrep & _).
    eexists. split; [done|]. split; [by apply evolves_push_reconfigure_reply, handover_evolves|].
    simpl. rewrite (ho_match_replies _ _ _ Hho), (ho_replies _ _ _ Hho). split; [done|]. by exists reply.
  - rewrite (advance_gc_watermark_ok reg m Hwf). rsimpl. unfold gc_result. case_decide; [|case_decide as Hle].
    + exists m. split; [done|]. split; [by apply evolves_refl|done].
    + exists m. split; [done|]. split; [by apply evolves_refl|done].
    + eexists. split; [done|]. split; [|done]. apply collected_evolves; [done|]. by apply ord_not_le.
Qed.
End calls.

(** ** Over the store *)

(** The store is the image of [m0], the state at the last drain or boot, and the
    batch takes it to the image of the matchmaker. *)
Record saved (reg : JournalId -> Ballot -> Registration) n m0 : Prop := {
  sv_wf : mm_wf reg (nd_mm n);
  sv_wf0 : mm_wf reg m0;
  sv_image : image (nd_disk n) m0;
  sv_writes : mm_writes m0 = [];
  sv_settled : settled m0 (nd_mm n);
  sv_floor : forall j, (hard_watermark (mm_hard m0) j ≤ hard_watermark (mm_hard (nd_mm n)) j)%B;
  sv_config : mm_config (nd_mm n) = mm_config m0;
  sv_limits : mm_limits (nd_mm n) = mm_limits m0;
  sv_valid : limits_valid (mm_limits m0);
  sv_bootstrap : mc_bootstrap (mm_config m0) <> [];
  sv_replies : Forall (fun r => rp_matchmaker r = mm_id (nd_mm n)) (mm_replies (nd_mm n));
  sv_reconfigure_replies :
    Forall (fun r => reply_matchmaker r = mm_id (nd_mm n)) (mm_reconfigure_replies (nd_mm n)) }.

Section node.
Context (reg : JournalId -> Ballot -> Registration).

Lemma answers_named m m' c :
  mm_config m' = mm_config m -> answers reg m m' c ->
  Forall (fun r => rp_matchmaker r = mm_id m) (mm_replies m) ->
  Forall (fun r => reply_matchmaker r = mm_id m) (mm_reconfigure_replies m) ->
  Forall (fun r => rp_matchmaker r = mm_id m') (mm_replies m') /\
  Forall (fun r => reply_matchmaker r = mm_id m') (mm_reconfigure_replies m').
Proof using.
  intros -> Ha H1 H2. destruct c; simpl in Ha.
  - destruct Ha as (o & -> & -> & _). by rewrite Forall_app, Forall_singleton.
  - destruct Ha as (-> & reply & -> & ?). by rewrite Forall_app, Forall_singleton.
  - by destruct Ha as [-> ->].
Qed.

(** A call keeps the store's distance to one batch. *)
Lemma saved_call n m0 m' c :
  saved reg n m0 -> evolves reg (nd_mm n) m' -> answers reg (nd_mm n) m' c -> saved reg (mkNode m' (nd_disk n)) m0.
Proof using.
  intros [] [] Ha. destruct (answers_named _ _ c ev_config0 Ha) as [Hn1 Hn2]; [done..|].
  constructor; simpl; try done; try congruence.
  - eapply staged_trans; [|exact sv_settled0|done]. done.
  - intros j. etrans; [apply sv_floor0|done].
Qed.

Definition drained m : Matchmaker :=
  mkMatchmaker (mm_config m) (mm_hard m) (mm_set m) (mm_registries m) [] [] [] (mm_limits m).

(** A drain returns, releases the batch's replies, and leaves the store the
    image of the matchmaker. *)
Lemma drain_ok n m0 :
  saved reg n m0 -> exists disk,
    drain n = Done (mkNode (drained (nd_mm n)) disk, (mm_replies (nd_mm n), mm_reconfigure_replies (nd_mm n))) /\
    saved reg (mkNode (drained (nd_mm n)) disk) (drained (nd_mm n)).
Proof using.
  intros []. destruct sv_settled0 as (ws & E & C & A). rewrite sv_writes0 in E. simpl in E.
  destruct (A _ sv_image0) as (d & Ed & [Hl Hh]). exists d. split.
  - unfold drain, ready_writes. rewrite E. rewrite rassert_true by done. rsimpl.
    unfold ready_replies. rewrite rassert_true by done. rsimpl.
    unfold ready_reconfigure_replies. rewrite rassert_true by done. rsimpl.
    unfold ready_advance. do 2 (rewrite rassert_true by done; rsimpl). rewrite Ed. done.
  - assert (mm_wf reg (drained (nd_mm n))) as Hwf by (destruct sv_wf1; by constructor).
    constructor; simpl; try done; try congruence. apply staged_refl.
Qed.

(** A restart is the state of the last drain. *)
Lemma restart_ok n m0 :
  saved reg n m0 -> exists m', restart n = Done (mkNode m' (nd_disk n)) /\ alike m' m0 /\
    mm_writes m' = [] /\ mm_replies m' = [] /\ mm_reconfigure_replies m' = [] /\
    saved reg (mkNode m' (nd_disk n)) m'.
Proof using.
  intros []. unfold restart. rewrite sv_config0, sv_limits0.
  destruct (boot_image reg m0 (nd_disk n)) as (m' & -> & Hwf & Hal & Ew & Er & Err); [done..|].
  exists m'. split; [done|]. split_and!; [done..|]. destruct Hal. destruct sv_image0.
  constructor; simpl; rewrite ?Er, ?Err; try done; try congruence.
  - constructor; [|congruence]. intros j. by rewrite al_registry.
  - apply staged_refl.
Qed.
End node.

(** ** Alike matchmakers answer alike *)

#[export] Instance phase_of_proper : Proper (alike ==> eq) phase_of.
Proof. intros m1 m2 []. unfold phase_of. by rewrite al_config, al_hard. Qed.

#[export] Instance judged_proper : Proper (alike ==> eq ==> eq) judged.
Proof.
  intros m1 m2 Hal g g' <-. unfold judged. rewrite (phase_of_proper m1 m2 Hal).
  destruct Hal. by rewrite al_set, al_hard.
Qed.

#[export] Instance answer_proper : Proper (alike ==> eq ==> eq ==> eq ==> eq) answer.
Proof.
  intros m1 m2 [] j j' <- c c' <- b b' <-. unfold answer, page_from, window_records.
  by rewrite al_hard, al_limits, al_registry.
Qed.

Lemma registered_alike m1 m2 j b r : alike m1 m2 -> alike (registered m1 j b r) (registered m2 j b r).
Proof.
  intros []. constructor; try done.
  - simpl. unfold registered_hard. case_decide; [|done].
    assert (new_effective m1 j b r = new_effective m2 j b r) as ->; [|by rewrite al_hard].
    unfold new_effective. rewrite (decide_ext (raises m1 j b r) (raises m2 j b r)).
    + by rewrite al_hard.
    + unfold raises. by rewrite al_hard.
  - intros j'. rewrite !registered_registry. by rewrite !al_registry.
Qed.

Lemma register_result_alike m1 m2 j b g cursor r :
  alike m1 m2 -> alike (register_result m1 j b g cursor r).1 (register_result m2 j b g cursor r).1 /\
  (register_result m1 j b g cursor r).2 = (register_result m2 j b g cursor r).2.
Proof.
  intros Hal. unfold register_result. rewrite (judged_proper m1 m2 Hal g g eq_refl).
  rewrite (answer_proper m1 m2 Hal j j eq_refl cursor cursor eq_refl b b eq_refl).
  pose proof Hal as []. rewrite al_hard, al_registry.
  repeat case_match; try done; split; try done; by apply registered_alike.
Qed.

Lemma collected_alike m1 m2 j watermark : alike m1 m2 -> alike (collected m1 j watermark) (collected m2 j watermark).
Proof.
  intros []. constructor; try done.
  - simpl. by rewrite al_hard.
  - intros j'. rewrite !collected_registry. by rewrite !al_registry.
Qed.

(** Registrations, probes and collections: the same replies, alike states. *)
Lemma call_alike reg m1 m2 c :
  mm_wf reg m1 -> mm_wf reg m2 -> alike m1 m2 -> mm_replies m1 = mm_replies m2 ->
  call_ok reg m1 c -> (forall request, c <> CReconfigure request) ->
  exists m1' m2', call m1 c = Done m1' /\ call m2 c = Done m2' /\ alike m1' m2' /\ mm_replies m1' = mm_replies m2'.
Proof.
  intros Hwf1 Hwf2 Hal Hrep Hc Hno. pose proof Hal as [].
  destruct c as [[from j b config purpose g cursor]|request|j g watermark]; cbn [call]; [|by destruct (Hno request)|].
  - destruct purpose as [kind|]; simpl in Hc.
    + destruct Hc as [Hr Hcur]. rewrite (step_register_ok reg m1 Hwf1 from j b config kind g cursor Hr Hcur).
      rewrite (step_register_ok reg m2 Hwf2 from j b config kind g cursor Hr Hcur).
      destruct (register_result_alike m1 m2 j b g cursor (reg j b) Hal) as [[] E2].
      assert (forall m, mm_replies (register_result m j b g cursor (reg j b)).1 = mm_replies m) as E
        by (intros; unfold register_result; repeat case_match; done).
      do 2 eexists. split_and!; [done..|by constructor|]. simpl. rewrite !E, E2. congruence.
    + rewrite (step_probe_ok reg m1 Hwf1), (step_probe_ok reg m2 Hwf2).
      rewrite (judged_proper m1 m2 Hal g g eq_refl). do 2 eexists. split_and!; [done..|by constructor|].
      simpl. rewrite al_hard. congruence.
  - rewrite (advance_gc_watermark_ok reg m1 Hwf1), (advance_gc_watermark_ok reg m2 Hwf2). rsimpl. unfold gc_result.
    rewrite (judged_proper m1 m2 Hal g g eq_refl). rewrite al_hard. case_decide; [|case_decide].
    + by do 2 eexists.
    + by do 2 eexists.
    + do 2 eexists. split_and!; [done..|by apply collected_alike|done].
Qed.

(** ** First boot *)

Lemma fresh_boot reg i bootstrap limits :
  set_wf (mkSet 0 bootstrap) -> limits_valid limits ->
  exists m, matchmaker_new (mkMatchmakerConfig i bootstrap) (registry_new hard_default ∅) limits = Done m /\
    mm_replies m = [] /\ mm_config m = mkMatchmakerConfig i bootstrap /\ mm_set m = mkSet 0 bootstrap /\
    phase_of m = (if decide (i ∈ bootstrap) then Active else Inactive) /\
    (forall j, registry_of m j = ∅ /\ hard_watermark (mm_hard m) j = zero /\ hard_effective (mm_hard m) j = None) /\
    saved reg (mkNode m (registry_new hard_default ∅)) m.
Proof.
  intros Hs Hl. pose proof (fresh_wf reg i bootstrap limits Hs Hl) as Hwf.
  destruct (boot_image reg (fresh_matchmaker i bootstrap limits) (registry_new hard_default ∅) Hwf)
    as (m & E & Hwf' & Hal & Ew & Er & Err); [|done|apply (swf_nonempty _ Hs)|].
  { constructor; [|done]. intros j. unfold mem_ledger, registry_new; simpl. by rewrite map_filter_empty, lookup_empty. }
  exists m. split; [done|]. pose proof Hal as [Ec Eh Es El Ereg]. rewrite Ec, Es.
  split_and!; [done..| | |].
  - by rewrite (phase_of_proper _ _ Hal).
  - intros j. by rewrite Ereg, Eh.
  - constructor; simpl; rewrite ?Er, ?Err, ?Ec, ?El; try done.
    + apply staged_refl.
    + apply (swf_nonempty _ Hs).
Qed.

(** ** Theorems *)

(** A boot from an empty store returns a matchmaker that satisfies the
    invariant every call keeps, over a store that is its image: it holds no
    registration, floor or effective configuration in any journal, and serves
    generation 0 exactly when the deployment's bootstrap names it. *)
Theorem first_boot_wf reg i bootstrap limits :
  set_wf (mkSet 0 bootstrap) -> limits_valid limits ->
  exists m, matchmaker_new (mkMatchmakerConfig i bootstrap) (registry_new hard_default ∅) limits = Done m /\
    mm_wf reg m /\ image (registry_new hard_default ∅) m /\ mm_set m = mkSet 0 bootstrap /\
    phase_of m = (if decide (i ∈ bootstrap) then Active else Inactive) /\
    (forall j, registry_of m j = ∅ /\ hard_watermark (mm_hard m) j = zero /\ hard_effective (mm_hard m) j = None).
Proof.
  intros Hs Hl. destruct (fresh_boot reg i bootstrap limits Hs Hl) as (m & E & _ & _ & Hset & Hph & Hj & Hsv).
  exists m. split_and!; [done|apply Hsv|apply (sv_image _ _ _ Hsv)|done..].
Qed.

(** C25: the registry is append-only within a generation.  Take any probe or collection; a
    registration that carries the one configuration and kind of its journal's ballot and
    whose page cursor is not above its ballot; or a handover request whose sets come from
    their constructor, whose bootstrap page carries the ballots' own registrations, whose
    decree ballot carries one value and whose generation fits its width ([call_ok]).  The
    call returns, keeps the invariant, lowers no floor, no effective configuration and no
    generation; and while the generation stays, a record changes never and leaves only when
    the floor passes it, and a new record lands above the floor and above every
    record held. *)
Theorem registry_append_only reg m c :
  mm_wf reg m -> call_ok reg m c ->
  exists m', call m c = Done m' /\ mm_wf reg m' /\
    (forall j, (hard_watermark (mm_hard m) j ≤ hard_watermark (mm_hard m') j)%B /\
       ord_le (effective_at (hard_effective (mm_hard m) j)) (effective_at (hard_effective (mm_hard m') j))) /\
    mh_generation (mm_hard m) <= mh_generation (mm_hard m') /\
    (mh_generation (mm_hard m') = mh_generation (mm_hard m) -> forall j b r,
       (registry_of m j !! b = Some r ->
          registry_of m' j !! b = Some r \/ (b < hard_watermark (mm_hard m') j)%B) /\
       (registry_of m' j !! b = Some r -> registry_of m j !! b = Some r \/
          (hard_watermark (mm_hard m) j ≤ b)%B /\ forall b', is_Some (registry_of m j !! b') -> (b' < b)%B)).
Proof.
  intros Hwf Hc. destruct (call_evolves reg m c Hwf Hc) as (m' & E & Hev & _). destruct Hev.
  exists m'. split_and!; [done|done|by intros; split|done|]. intros Eg j b r. split; eauto.
Qed.


Lemma first_boot_wf_witness :
  exists m, matchmaker_new (mkMatchmakerConfig 0 [0; 1; 2]) (registry_new hard_default ∅) limits_default = Done m /\
    phase_of m = Active.
Proof.
  destruct (first_boot_wf sample_reg 0 [0; 1; 2] limits_default sample_set_wf limits_default_valid)
    as (m & E & _ & _ & _ & Hph & _). by exists m.
Defined.

Lemma registry_append_only_witness :
  exists m', call sample_mm (CMatch (mkRequest 7 0 (mkBallot 2 0) sample_config (PRegister Belief) 0 None)) = Done m' /\
    mm_wf sample_reg m'.
Proof.
  destruct (registry_append_only sample_reg sample_mm
              (CMatch (mkRequest 7 0 (mkBallot 2 0) sample_config (PRegister Belief) 0 None)) sample_mm_wf)
    as (m' & E & Hwf & _); [done|]. by exists m'.
Defined.

