(* ===== verification/Matchmaking.v ===== *)
(** * The matchmaking phase ([matchmaking.rs], [matchmaking/probe.rs])

    What a candidate learns from the matchmakers before it sends a [Prepare]:
    the tally of complete answers, the union of the histories, the maximum
    watermark, the effective configuration; and its registration-free sibling,
    the membership probe. *)

From S2P Require Import Prelude BTree Types Retained Contract QuorumSystem AcceptorConfig Acceptor Decree MatchmakerSet MatchmakerState.

(** ** Decoding a reply *)

(** [RegisteredPage::decode]: the page registered or the refusal; nothing for a
    probe's answer. *)
Definition page_decode (outcome : MatchOutcome) : option (RegisteredPage + MatchRefusal) :=
  match outcome with
  | Registered page => Some (inl page)
  | MRefused refusal => Some (inr refusal)
  | Probed _ => None
  end.

Definition page_from_outcome (outcome : MatchOutcome) : run (option (RegisteredPage + MatchRefusal)) :=
  let probed := match outcome with Probed _ => true | _ => false end in
  let decoded := page_decode outcome in
  rassert (decoded = None <-> probed = true) "only a probe's answer is not a page";;
  mret decoded.

Definition page_from_reply (reply : MatchReply)
  : run (MatchmakerId * option (RegisteredPage + MatchRefusal)) :=
  decoded ← page_from_outcome (rp_outcome reply); mret (rp_matchmaker reply, decoded).

(** ** The phase *)

Inductive MatchFold := FIgnored | FPaged (next : Ballot) | FRegistered.

Record Matchmaking := mkMatchmaking {
  mk_ballot : Ballot;
  mk_config : Config;
  mk_kind : RegistrationKind;
  mk_registered_by : gset MatchmakerId;
  mk_page_next : gmap MatchmakerId Ballot;
  mk_history : gmap Ballot (list Config);
  mk_effective : option (Ballot * Config);
  mk_watermark : Ballot;
  mk_disagreements : N }.

Implicit Types k : Matchmaking.

Definition count_extra (extra : N) (entry : Ballot * list Config) : run N :=
  more ← rexpect (u64_checked_sub (len entry.2) 1) "attempt to subtract with overflow";
  u64_add extra more.

(** [Matchmaking::assert_invariants]. *)
Definition mk_assert_invariants k : run unit :=
  rassert (Forall (fun m => m ∉ mk_registered_by k) (bt_keys (mk_page_next k)))
    "a registered matchmaker owes no further page";;
  rassert (Forall (fun e : Ballot * list Config => e.2 <> []) (bt_entries (mk_history k)))
    "every unioned ballot holds a configuration";;
  extra ← foldM count_extra 0 (bt_entries (mk_history k));
  rassert (mk_disagreements k = extra)
    "every extra configuration at a ballot was counted as a disagreement".

(** [Matchmaking::new]. *)
Definition matchmaking_new (ballot : Ballot) (config : Config) (kind : RegistrationKind) : run Matchmaking :=
  let matchmaking := mkMatchmaking ballot config kind ∅ ∅ ∅ None zero 0 in
  mk_assert_invariants matchmaking;;
  mret matchmaking.

Definition heard_anyone k : Prop := mk_registered_by k <> ∅ \/ mk_page_next k <> ∅.

#[export] Instance heard_anyone_dec k : Decision (heard_anyone k).
Proof. unfold heard_anyone. apply _. Defined.

(** The reads [watermark], [effective] and [disagreements]. *)
Definition matchmaking_watermark k : run Ballot :=
  (if decide (zero < mk_watermark k)%B then rassert (heard_anyone k) "a raised watermark was reported"
   else mret tt);;
  mret (mk_watermark k).
Definition matchmaking_effective k : run (option (Ballot * Config)) :=
  (if decide (is_Some (mk_effective k)) then
     rassert (heard_anyone k) "an effective configuration was reported" else mret tt);;
  mret (mk_effective k).
Definition matchmaking_disagreements k : run N :=
  (if decide (0 < mk_disagreements k) then
     rassert (mk_history k <> ∅) "a disagreement lies in the union" else mret tt);;
  mret (mk_disagreements k).

(** The shape of a page, as its receiver checks it. *)
Definition page_shape (page : RegisteredPage) : bool :=
  bool_decide (msize (pg_history page) <= REGISTRY_PAGE) &&
  bool_decide (Forall (fun b => pg_from page ≤ b)%B (bt_keys (pg_history page))) &&
  bool_decide (is_none_or (fun next =>
    pg_history page <> ∅ /\ (pg_from page < next)%B /\
    is_none_or (fun last => last < next)%B (last_key_of (pg_history page))) (pg_next page)).

(** [Matchmaking::accepts]. *)
Definition mk_accepts k (matchmaker : MatchmakerId) (page : RegisteredPage) : run bool :=
  if decide (matchmaker ∈ mk_registered_by k) then mret false else
  match mk_page_next k !! matchmaker with
  | Some expected =>
      let at_cursor := bool_decide (pg_from page = expected) in
      let cursor_collected := bool_decide ((expected < pg_from page)%B /\ pg_from page = pg_watermark page) in
      if negb at_cursor && negb cursor_collected then mret false else
      rassert (expected ≤ pg_from page)%B "a later page starts at or above its cursor";;
      mret (page_shape page)
  | None => mret (page_shape page)
  end.

(** Field updates. *)
Definition mk_with_effective k e : Matchmaking :=
  mkMatchmaking (mk_ballot k) (mk_config k) (mk_kind k) (mk_registered_by k) (mk_page_next k) (mk_history k)
    e (mk_watermark k) (mk_disagreements k).

(** [Matchmaking::raise_effective]. *)
Definition mk_raise_effective k (ballot : Ballot) (config : Config) : run Matchmaking :=
  let held := fst <$> mk_effective k in
  '(effective, _) ← raise_effective (mk_effective k) ballot config;
  let now := fst <$> effective in
  rassert (ord_le held now) "the effective configuration only moves forward";;
  rassert (ord_le (Some ballot) now) "a raise lands at or above the offered ballot";;
  mret (mk_with_effective k effective).

(** One record of a page: its reconfiguration folded, its configuration joined. *)
Definition fold_record k (entry : Ballot * Registration) : run Matchmaking :=
  let '(ballot, registration) := entry in
  let config := rg_config registration in
  k ← (if is_reconfiguration (rg_kind registration) then mk_raise_effective k ballot config else mret k);
  let held := default [] (mk_history k !! ballot) in
  if decide (config ∈ held) then
    mret (mkMatchmaking (mk_ballot k) (mk_config k) (mk_kind k) (mk_registered_by k) (mk_page_next k)
            (<[ballot := held]> (mk_history k)) (mk_effective k) (mk_watermark k) (mk_disagreements k))
  else
    let disagreements := if decide (held = []) then mk_disagreements k
                         else u64_saturating_add (mk_disagreements k) 1 in
    mret (mkMatchmaking (mk_ballot k) (mk_config k) (mk_kind k) (mk_registered_by k) (mk_page_next k)
            (<[ballot := held ++ [config]]> (mk_history k)) (mk_effective k) (mk_watermark k) disagreements).

(** [Matchmaking::fold]. *)
Definition mk_fold k (matchmaker : MatchmakerId) (page : RegisteredPage) : run (Matchmaking * MatchFold) :=
  accepts ← mk_accepts k matchmaker page;
  if negb accepts then mret (k, FIgnored) else
  let watermark := mk_watermark k in
  let disagreements := mk_disagreements k in
  k ← foldM fold_record k (bt_entries (pg_history page));
  k ← match pg_effective page with
      | Some (ballot, config) => mk_raise_effective k ballot config
      | None => mret k
      end;
  let raised := ord_max (mk_watermark k) (pg_watermark page) in
  let '(registered_by, page_next, fold) :=
    match pg_next page with
    | Some next => (mk_registered_by k, <[matchmaker := next]> (mk_page_next k), FPaged next)
    | None => ({[ matchmaker ]} ∪ mk_registered_by k, delete matchmaker (mk_page_next k), FRegistered)
    end in
  let k := mkMatchmaking (mk_ballot k) (mk_config k) (mk_kind k) registered_by page_next (mk_history k)
             (mk_effective k) raised (mk_disagreements k) in
  rassert (watermark ≤ mk_watermark k)%B "the unioned watermark never falls";;
  rassert (disagreements <= mk_disagreements k) "disagreements are never forgotten";;
  mk_assert_invariants k;;
  mret (k, fold).

Definition mk_quorum_held k (matchmakers : MatchmakerSet) : run bool :=
  held ← set_has_quorum matchmakers (mk_registered_by k);
  (if held : bool then rassert (mk_registered_by k <> ∅) "a registered quorum is someone" else mret tt);;
  mret held.

Definition mk_remaining k (matchmakers : MatchmakerSet) : run N :=
  members ← allM (fun m => set_contains matchmakers m) (bs_elements (mk_registered_by k));
  rassert (members = true) "a registration is counted only from a member";;
  remaining ← set_remaining matchmakers (mk_registered_by k);
  held ← mk_quorum_held k matchmakers;
  rassert (remaining = 0 <-> held = true) "nothing remains exactly when the quorum holds";;
  mret remaining.

Definition mk_unanswered k (matchmakers : MatchmakerSet) : run (list (MatchmakerId * option Ballot)) :=
  let unanswered := (fun mm => (mm, mk_page_next k !! mm)) <$> set_unanswered matchmakers (mk_registered_by k) in
  rassert (Forall (fun e : MatchmakerId * option Ballot => e.1 ∉ mk_registered_by k) unanswered)
    "a registered matchmaker is never re-asked";;
  mret unanswered.

Definition mk_registered k : N := ssize (mk_registered_by k).

(** Joining a configuration to a list that names each once. *)
Definition add_config (prior : list Config) (config : Config) : list Config :=
  if decide (config ∈ prior) then prior else prior ++ [config].

(** Each element is absent from those before it. *)
Definition names_each_once (prior : list Config) : Prop :=
  Forall (fun i => forall c, prior !! i = Some c -> c ∉ take i prior) (seq 0 (length prior)).

#[export] Instance names_each_once_dec prior : Decision (names_each_once prior).
Proof.
  apply Forall_dec. intros i. destruct (prior !! i) as [c|] eqn:E; [|by left].
  destruct (decide (c ∉ take i prior)) as [H|H]; [left|right]; [by intros c' [= <-]|].
  intros Hc. by apply H, Hc.
Defined.

(** [Matchmaking::prior]: [H_b]. *)
Definition mk_prior k : run (list Config) :=
  let prior := foldl (fun prior configs => foldl add_config prior configs) []
                 (bt_range_from (mk_watermark k) (mk_history k)).*2 in
  rassert (names_each_once prior) "H_b names each configuration once";;
  total ← foldM (fun total (e : Ballot * list Config) => usize_add total (len e.2)) 0 (bt_entries (mk_history k));
  rassert (len prior <= total) "H_b holds nothing the histories did not report";;
  mret prior.

Definition stale_belief k : run (option (Ballot * Config)) :=
  if is_reconfiguration (mk_kind k) then mret None else
  match mk_effective k with
  | None => mret None
  | Some (newest, config) =>
      if decide (config = mk_config k) then mret None else
      rassert (is_reconfiguration (mk_kind k) = false) "a reconfiguration is never stale";;
      mret (Some (newest, config))
  end.

(** ** The membership probe *)

Record MembershipProbe := mkMembershipProbe {
  mp_ballot : Ballot;
  mp_believed : Config;
  mp_answered : gset MatchmakerId;
  mp_effective : option (Ballot * Config) }.

Implicit Types p : MembershipProbe.

Definition membership_new (ballot : Ballot) (believed : Config) : MembershipProbe :=
  mkMembershipProbe ballot believed ∅ None.

Definition membership_fold p (matchmaker : MatchmakerId) (effective : option (Ballot * Config))
  : run (MembershipProbe * bool) :=
  if decide (matchmaker ∈ mp_answered p) then mret (p, false) else
  let answered := {[ matchmaker ]} ∪ mp_answered p in
  let held := fst <$> mp_effective p in
  effective ← match effective with
              | Some (ballot, config) => '(e, _) ← raise_effective (mp_effective p) ballot config; mret e
              | None => mret (mp_effective p)
              end;
  rassert (ord_le held (fst <$> effective)) "the probed effective configuration only moves forward";;
  mret (mkMembershipProbe (mp_ballot p) (mp_believed p) answered effective, true).

Definition membership_quorum_held p (matchmakers : MatchmakerSet) : run bool :=
  held ← set_has_quorum matchmakers (mp_answered p);
  (if held : bool then rassert (mp_answered p <> ∅) "an answered quorum is someone" else mret tt);;
  mret held.

Definition answered_by p : N := ssize (mp_answered p).

Definition membership_unanswered p (matchmakers : MatchmakerSet) : run (list MatchmakerId) :=
  let unanswered := set_unanswered matchmakers (mp_answered p) in
  rassert (Forall (fun m => m ∉ mp_answered p) unanswered) "an answered matchmaker is never re-asked";;
  mret unanswered.

Definition membership_effective p : run (option (Ballot * Config)) :=
  (if decide (is_Some (mp_effective p)) then
     rassert (mp_answered p <> ∅) "a probed configuration was reported" else mret tt);;
  mret (mp_effective p).

(** ** The invariant *)

(** Configurations beyond the first of their ballot, and all of them. *)
Definition extra_of (h : gmap Ballot (list Config)) : N := Nsum ((fun e => len e.2 - 1) <$> bt_entries h).
Definition total_of (h : gmap Ballot (list Config)) : N := Nsum ((fun e => len e.2) <$> bt_entries h).

Record mk_wf k : Prop := {
  kw_disjoint : forall m, is_Some (mk_page_next k !! m) -> m ∉ mk_registered_by k;
  kw_nonempty : forall b l, mk_history k !! b = Some l -> l <> [] /\ NoDup l;
  kw_extra : mk_disagreements k = extra_of (mk_history k);
  kw_width : mk_disagreements k <= u64_max }.

Lemma count_extra_ok l a :
  Forall (fun e : Ballot * list Config => e.2 <> []) l -> a + Nsum ((fun e => len e.2 - 1) <$> l) <= u64_max ->
  foldM count_extra a l = Done (a + Nsum ((fun e => len e.2 - 1) <$> l)).
Proof.
  intros Hl. revert a. induction Hl as [|[b c] l Hc _ IH]; intros a Ha.
  { cbn. f_equal. lia. }
  assert (1 <= len c) as Hlen by (unfold len; destruct c; simpl; [done|lia]).
  change (Nsum ((fun e => len e.2 - 1) <$> (b, c) :: l)) with
    (len c - 1 + Nsum ((fun e : Ballot * list Config => len e.2 - 1) <$> l)) in *.
  cbn [foldM]. assert (count_extra a (b, c) = Done (a + (len c - 1))) as ->.
  { unfold count_extra, u64_checked_sub. cbn [snd]. rewrite decide_True by done. simpl.
    apply u64_add_ok. lia. }
  rsimpl. rewrite IH by lia. f_equal. lia.
Qed.

Lemma mk_assert_invariants_ok k : mk_wf k -> mk_assert_invariants k = Done tt.
Proof.
  intros [Hd Hn He Hw]. unfold mk_assert_invariants.
  rassert_by (apply Forall_forall; intros m Hm%elem_of_bt_keys; by apply Hd).
  assert (Forall (fun e : Ballot * list Config => e.2 <> []) (bt_entries (mk_history k))) as Hf.
  { apply Forall_forall. intros [b l] Hin. apply elem_of_bt_entries in Hin. by apply (Hn b l). }
  rassert_by done. rewrite count_extra_ok; [|done|]; fold (extra_of (mk_history k)); [|lia].
  rsimpl. apply rassert_true. lia.
Qed.

Lemma matchmaking_new_ok ballot config kind :
  matchmaking_new ballot config kind = Done (mkMatchmaking ballot config kind ∅ ∅ ∅ None zero 0) /\
  mk_wf (mkMatchmaking ballot config kind ∅ ∅ ∅ None zero 0).
Proof.
  assert (mk_wf (mkMatchmaking ballot config kind ∅ ∅ ∅ None zero 0)) as Hwf.
  { by constructor. }
  split; [|done]. unfold matchmaking_new. by rewrite mk_assert_invariants_ok.
Qed.

(** ** Folding a page *)

Lemma mk_raise_effective_ok k b c :
  mk_raise_effective k b c = Done (mk_with_effective k (max_effective (mk_effective k) (Some (b, c)))).
Proof.
  unfold mk_raise_effective. destruct (raise_effective_max (mk_effective k) b c) as [raised ->]. rsimpl.
  cbv beta iota. destruct (max_effective_ge (mk_effective k) (Some (b, c))) as [H1 H2].
  rassert_by done. by rassert_by done.
Qed.

(** What folding the records [l] does: configurations are joined ballot by
    ballot, and the effective configuration is at least every reconfiguration. *)
Record joined (l : list (Ballot * Registration)) k k' : Prop := {
  jn_rest : mk_ballot k' = mk_ballot k /\ mk_config k' = mk_config k /\ mk_kind k' = mk_kind k /\
    mk_registered_by k' = mk_registered_by k /\ mk_page_next k' = mk_page_next k /\
    mk_watermark k' = mk_watermark k;
  jn_keeps : forall b cs, mk_history k !! b = Some cs ->
    exists cs', mk_history k' !! b = Some cs' /\ cs ⊆ cs';
  jn_joins : forall b r, (b, r) ∈ l -> exists cs, mk_history k' !! b = Some cs /\ rg_config r ∈ cs;
  jn_only : forall b cs c, mk_history k' !! b = Some cs -> c ∈ cs ->
    (exists r, (b, r) ∈ l /\ rg_config r = c) \/ exists cs0, mk_history k !! b = Some cs0 /\ c ∈ cs0;
  jn_effective : ord_le (effective_at (mk_effective k)) (effective_at (mk_effective k'));
  jn_reconfigured : forall b r, (b, r) ∈ l -> rg_kind r = Reconfiguration ->
    ord_le (Some b) (effective_at (mk_effective k'));
  jn_named : mk_effective k' = mk_effective k \/
    exists b r, (b, r) ∈ l /\ rg_kind r = Reconfiguration /\ mk_effective k' = Some (b, rg_config r);
  jn_disagreements : mk_disagreements k <= mk_disagreements k' <= mk_disagreements k + len l;
  jn_wf : mk_wf k' }.

Lemma joined_nil k : mk_wf k -> joined [] k k.
Proof.
  intros Hwf. constructor; try done.
  - intros b cs Hb. by exists cs.
  - by intros b r ?%elem_of_nil.
  - intros b cs c Hb Hc. right. by exists cs.
  - by intros b r ?%elem_of_nil.
  - by left.
  - unfold len; simpl. lia.
Qed.

Lemma joined_app l1 l2 k1 k2 k3 : joined l1 k1 k2 -> joined l2 k2 k3 -> joined (l1 ++ l2) k1 k3.
Proof.
  intros J1 J2. constructor.
  - destruct (jn_rest _ _ _ J1) as (? & ? & ? & ? & ? & ?), (jn_rest _ _ _ J2) as (? & ? & ? & ? & ? & ?).
    split_and!; congruence.
  - intros b cs Hb. destruct (jn_keeps _ _ _ J1 _ _ Hb) as (cs1 & Hb1 & Hs1).
    destruct (jn_keeps _ _ _ J2 _ _ Hb1) as (cs2 & Hb2 & Hs2). exists cs2. split; [done|by etrans].
  - intros b r [Hr|Hr]%elem_of_app; [|by apply (jn_joins _ _ _ J2)].
    destruct (jn_joins _ _ _ J1 _ _ Hr) as (cs1 & Hb1 & Hc).
    destruct (jn_keeps _ _ _ J2 _ _ Hb1) as (cs2 & Hb2 & Hs2). exists cs2. split; [done|by apply Hs2].
  - intros b cs c Hb Hc. destruct (jn_only _ _ _ J2 _ _ _ Hb Hc) as [(r & Hr & E)|(cs0 & Hb0 & Hc0)].
    + left. exists r. by rewrite elem_of_app; auto.
    + destruct (jn_only _ _ _ J1 _ _ _ Hb0 Hc0) as [(r & Hr & E)|?]; [left|by right].
      exists r. by rewrite elem_of_app; auto.
  - etrans; [apply (jn_effective _ _ _ J1)|apply (jn_effective _ _ _ J2)].
  - intros b r [Hr|Hr]%elem_of_app Hk; [|by apply (jn_reconfigured _ _ _ J2 b r)].
    etrans; [by apply (jn_reconfigured _ _ _ J1 b r)|apply (jn_effective _ _ _ J2)].
  - destruct (jn_named _ _ _ J2) as [->|(b & r & Hr & ?)]; [|right; exists b, r; rewrite elem_of_app; naive_solver].
    destruct (jn_named _ _ _ J1) as [->|(b & r & Hr & ?)]; [by left|right; exists b, r; rewrite elem_of_app; naive_solver].
  - pose proof (jn_disagreements _ _ _ J1). pose proof (jn_disagreements _ _ _ J2).
    unfold len in *. rewrite length_app. lia.
  - apply J2.
Qed.

Lemma fold_record_ok k b r :
  mk_wf k -> mk_disagreements k + 1 <= u64_max -> exists k', fold_record k (b, r) = Done k' /\ joined [(b, r)] k k'.
Proof.
  intros Hwf Hd. unfold fold_record.
  set (k1 := if is_reconfiguration (rg_kind r)
             then mk_with_effective k (max_effective (mk_effective k) (Some (b, rg_config r))) else k).
  assert ((if is_reconfiguration (rg_kind r) then mk_raise_effective k b (rg_config r) else mret k) = Done k1) as ->.
  { unfold k1. destruct (is_reconfiguration _); [apply mk_raise_effective_ok|done]. }
  rsimpl.
  assert (mk_history k1 = mk_history k /\ mk_disagreements k1 = mk_disagreements k /\
          mk_ballot k1 = mk_ballot k /\ mk_config k1 = mk_config k /\ mk_kind k1 = mk_kind k /\
          mk_registered_by k1 = mk_registered_by k /\ mk_page_next k1 = mk_page_next k /\
          mk_watermark k1 = mk_watermark k) as (Eh & Ed & E1 & E2 & E3 & E4 & E5 & E6).
  { unfold k1. by destruct (is_reconfiguration _). }
  assert (ord_le (effective_at (mk_effective k)) (effective_at (mk_effective k1)) /\
          (rg_kind r = Reconfiguration -> ord_le (Some b) (effective_at (mk_effective k1))) /\
          (mk_effective k1 = mk_effective k \/
           rg_kind r = Reconfiguration /\ mk_effective k1 = Some (b, rg_config r))) as (He1 & He2 & He3).
  { unfold k1. destruct (max_effective_ge (mk_effective k) (Some (b, rg_config r))) as [H1 H2].
    destruct (rg_kind r); cbn [is_reconfiguration mk_effective mk_with_effective].
    - split_and!; [reflexivity|done|by left].
    - split_and!; [done|done|]. destruct (max_effective_cases (mk_effective k) (Some (b, rg_config r))) as [->| ->];
        [by left|by right]. }
  clearbody k1. rewrite Eh, E1, E2, E3, E4, E5, E6, Ed.
  set (held := default [] (mk_history k !! b)). set (cs := if decide (rg_config r ∈ held) then held else held ++ [rg_config r]).
  set (d := if decide (rg_config r ∈ held) then mk_disagreements k
            else if decide (held = []) then mk_disagreements k else u64_saturating_add (mk_disagreements k) 1).
  exists (mkMatchmaking (mk_ballot k) (mk_config k) (mk_kind k) (mk_registered_by k) (mk_page_next k)
            (<[b := cs]> (mk_history k)) (mk_effective k1) (mk_watermark k) d).
  split; [unfold cs, d; by case_decide|].
  assert (rg_config r ∈ cs) as Hin by (unfold cs; case_decide; [done|set_solver]).
  assert (held ⊆ cs) as Hsub by (unfold cs; case_decide; [done|intros ?; set_solver]).
  assert (len cs - 1 + mk_disagreements k = d + (len held - 1) /\ mk_disagreements k <= d <= mk_disagreements k + 1)
    as [Hlen Hdd].
  { unfold cs, d, u64_saturating_add, len. repeat case_decide; try lia.
    - subst held. rewrite H0. simpl. lia.
    - rewrite length_app. destruct held; [done|]. simpl. lia. }
  constructor; simpl; try done.
  - intros b' cs' Hb'. destruct (decide (b' = b)) as [->|Hne]; [|exists cs'; by rewrite lookup_insert_ne].
    exists cs. rewrite lookup_insert_eq. split; [done|]. unfold held in Hsub. by rewrite Hb' in Hsub.
  - intros b' r' [= -> ->]%list_elem_of_singleton. exists cs. by rewrite lookup_insert_eq.
  - intros b' cs' c. rewrite lookup_insert. case_decide as E; [|intros; right; by exists cs'].
    intros [= <-] Hc. subst b'. unfold cs in Hc. case_decide.
    + right. unfold held in Hc. destruct (mk_history k !! b) as [l|]; [|by apply elem_of_nil in Hc]. by exists l.
    + apply elem_of_app in Hc as [Hc| ->%list_elem_of_singleton].
      * right. unfold held in Hc. destruct (mk_history k !! b) as [l|]; [|by apply elem_of_nil in Hc]. by exists l.
      * left. exists r. by rewrite list_elem_of_singleton.
  - intros b' r' [= -> ->]%list_elem_of_singleton. done.
  - destruct He3 as [?|[? ?]]; [by left|right]. exists b, r. by rewrite list_elem_of_singleton.
  - destruct Hwf as [H1 H2 H3 H4]. constructor; simpl; [done|..].
    + intros b' l. rewrite lookup_insert. case_decide; [|by apply H2]. intros [= <-].
      split; [intros E; rewrite E in Hin; by apply elem_of_nil in Hin|].
      assert (NoDup held) as Hnd.
      { unfold held. destruct (mk_history k !! b) eqn:El; [by eapply H2|apply NoDup_nil_2]. }
      unfold cs. case_decide; [done|]. apply NoDup_app. split_and!; [done| |apply NoDup_singleton].
      by intros x Hx ->%list_elem_of_singleton.
    + pose proof (Nsum_update (fun l => len l - 1) (mk_history k) b cs) as Hs. cbv beta in Hs.
      fold (extra_of (<[b := cs]> (mk_history k))) (extra_of (mk_history k)) in Hs. rewrite <-H3 in Hs.
      unfold held in Hlen. destruct (mk_history k !! b) as [l|] eqn:El; simpl in Hlen; [lia|].
      change (len (@nil Config)) with 0 in Hlen. lia.
    + lia.
Qed.

Lemma fold_records_ok l k :
  mk_wf k -> mk_disagreements k + len l <= u64_max -> exists k', foldM fold_record k l = Done k' /\ joined l k k'.
Proof.
  revert k. induction l as [|[b r] l IH]; intros k Hwf Hd; [exists k; split; [done|by apply joined_nil]|].
  unfold len in Hd. cbn [length] in Hd.
  destruct (fold_record_ok k b r Hwf) as (k1 & E1 & J1); [lia|]. cbn [foldM]. rewrite E1. rsimpl.
  destruct (IH k1 (jn_wf _ _ _ J1)) as (k' & E & J).
  { pose proof (jn_disagreements _ _ _ J1). unfold len in *. simpl in *. lia. }
  exists k'. split; [done|]. apply (joined_app [(b, r)] l _ _ _ J1 J).
Qed.

(** Whether a page counts: its sender not done, its cursor the one owed (or past
    it at the sender's raised floor), its shape right. *)
Definition accepted k (mm : MatchmakerId) (page : RegisteredPage) : bool :=
  negb (bool_decide (mm ∈ mk_registered_by k)) &&
  match mk_page_next k !! mm with
  | Some expected =>
      bool_decide (pg_from page = expected \/ (expected < pg_from page)%B /\ pg_from page = pg_watermark page)
  | None => true
  end && page_shape page.

Lemma mk_accepts_ok k mm page : mk_accepts k mm page = Done (accepted k mm page).
Proof.
  unfold mk_accepts, accepted. case_decide as Hr; [by rewrite bool_decide_eq_true_2|].
  rewrite bool_decide_eq_false_2 by done. cbn [negb andb].
  destruct (mk_page_next k !! mm) as [expected|]; [|done].
  destruct (decide (pg_from page = expected \/ (expected < pg_from page)%B /\ pg_from page = pg_watermark page))
    as [Hc|Hc].
  - rewrite (bool_decide_eq_true_2 _ Hc). cbn [andb].
    assert (negb (bool_decide (pg_from page = expected)) &&
            negb (bool_decide ((expected < pg_from page)%B /\ pg_from page = pg_watermark page)) = false) as ->.
    { destruct Hc as [Hc|Hc]; rewrite (bool_decide_eq_true_2 _ Hc); by rewrite ?andb_false_r. }
    rassert_by idtac; [|done]. destruct Hc as [<-|[? _]]; [reflexivity|by apply ord_lt_le].
  - rewrite !bool_decide_eq_false_2 by tauto. done.
Qed.

(** The phase after an accepted page. *)
Record folded (mm : MatchmakerId) (page : RegisteredPage) k k' : Prop := {
  fl_rest : mk_ballot k' = mk_ballot k /\ mk_config k' = mk_config k /\ mk_kind k' = mk_kind k;
  fl_joined : exists k1, joined (bt_entries (pg_history page)) k k1 /\ mk_history k' = mk_history k1 /\
    mk_effective k' = max_effective (mk_effective k1) (pg_effective page);
  fl_watermark : mk_watermark k' = ord_max (mk_watermark k) (pg_watermark page);
  fl_next : match pg_next page with
    | Some next => mk_registered_by k' = mk_registered_by k /\ mk_page_next k' = <[mm := next]> (mk_page_next k)
    | None => mk_registered_by k' = {[ mm ]} ∪ mk_registered_by k /\ mk_page_next k' = delete mm (mk_page_next k)
    end;
  fl_disagreements : mk_disagreements k <= mk_disagreements k' <= mk_disagreements k + msize (pg_history page);
  fl_wf : mk_wf k' }.

Definition fold_outcome (page : RegisteredPage) : MatchFold :=
  match pg_next page with Some next => FPaged next | None => FRegistered end.

Lemma mk_fold_ok k mm page :
  mk_wf k -> mk_disagreements k + msize (pg_history page) <= u64_max ->
  if accepted k mm page then exists k', mk_fold k mm page = Done (k', fold_outcome page) /\ folded mm page k k'
  else mk_fold k mm page = Done (k, FIgnored).
Proof.
  intros Hwf Hd. unfold mk_fold. rewrite mk_accepts_ok. rsimpl.
  destruct (accepted k mm page) eqn:Ea; cbn [negb]; [|done].
  assert (len (bt_entries (pg_history page)) = msize (pg_history page)) as El
    by (unfold len, msize; by rewrite length_bt_entries).
  destruct (fold_records_ok (bt_entries (pg_history page)) k Hwf) as (k1 & -> & J); [lia|]. rsimpl.
  destruct (jn_rest _ _ _ J) as (E1 & E2 & E3 & E4 & E5 & E6).
  pose proof (jn_disagreements _ _ _ J) as Hdd. rewrite El in Hdd.
  pose proof (jn_wf _ _ _ J) as [Hw1 Hw2 Hw3 Hw4].
  set (k2 := mk_with_effective k1 (max_effective (mk_effective k1) (pg_effective page))).
  assert (match pg_effective page with Some (ballot, config) => mk_raise_effective k1 ballot config
          | None => mret k1 end = Done k2) as ->.
  { unfold k2. destruct (pg_effective page) as [[b c]|]; [apply mk_raise_effective_ok|]. by destruct k1. }
  rsimpl.
  assert (mm ∉ mk_registered_by k) as Hmm.
  { unfold accepted in Ea. apply andb_true_iff in Ea as [Ea _]. apply andb_true_iff in Ea as [Ea _].
    by apply negb_true_iff, bool_decide_eq_false in Ea. }
  set (k' := mkMatchmaking (mk_ballot k) (mk_config k) (mk_kind k)
               (match pg_next page with Some _ => mk_registered_by k | None => {[ mm ]} ∪ mk_registered_by k end)
               (match pg_next page with Some next => <[mm := next]> (mk_page_next k) | None => delete mm (mk_page_next k) end)
               (mk_history k1) (mk_effective k2) (ord_max (mk_watermark k) (pg_watermark page)) (mk_disagreements k1)).
  assert (mk_wf k') as Hwf'.
  { destruct Hwf as [Hw _ _ _]. constructor; simpl; try done. intros m'. destruct (pg_next page).
    - rewrite lookup_insert. case_decide; [by subst|apply Hw].
    - rewrite lookup_delete. case_decide as E; [by intros []|]. intros Hm'. apply not_elem_of_union.
      split; [by apply not_elem_of_singleton|by apply Hw]. }
  exists k'. split.
  2:{ constructor; try done. { by exists k1. } unfold k'; simpl. by destruct (pg_next page). }
  assert (forall fold : MatchFold, (rassert (mk_watermark k ≤ mk_watermark k')%B "the unioned watermark never falls";;
            rassert (mk_disagreements k <= mk_disagreements k') "disagreements are never forgotten";;
            mk_assert_invariants k';; mret (k', fold)) = @Done (Matchmaking * MatchFold) (k', fold)) as Hfin.
  { intros f. rassert_by apply ord_max_ge_l. rassert_by (simpl; lia). by rewrite mk_assert_invariants_ok. }
  unfold fold_outcome. rewrite <-(Hfin _). unfold k', k2; simpl. rewrite E1, E2, E3, E4, E5, E6.
  by destruct (pg_next page).
Qed.

(** ** The quorum, and what is asked of it *)

Lemma mk_quorum_held_ok k s : set_wf s -> mk_quorum_held k s = Done (bool_decide (set_majority s (mk_registered_by k))).
Proof.
  intros Hs. unfold mk_quorum_held. rewrite set_has_quorum_ok by done. rsimpl.
  case_bool_decide as Hm; [|done]. rewrite rassert_true by by eapply set_majority_nonempty. done.
Qed.

(** [H_b]: the configurations of the ballots at or above the watermark, once each. *)
Lemma add_config_elem prior c c' : c' ∈ add_config prior c <-> c' ∈ prior \/ c' = c.
Proof. unfold add_config. case_decide; [naive_solver|]. rewrite elem_of_app, list_elem_of_singleton. done. Qed.

Lemma add_configs_elem cs prior c : c ∈ foldl add_config prior cs <-> c ∈ prior \/ c ∈ cs.
Proof.
  revert prior. induction cs as [|c' cs IH]; intros prior; simpl; [rewrite elem_of_nil; tauto|].
  rewrite IH, add_config_elem, elem_of_cons. tauto.
Qed.

Lemma add_config_NoDup prior c : NoDup prior -> NoDup (add_config prior c).
Proof.
  intros Hnd. unfold add_config. case_decide; [done|]. apply NoDup_app.
  split_and!; [done| |apply NoDup_singleton]. intros x Hx ->%list_elem_of_singleton. done.
Qed.

Lemma add_configs_NoDup cs prior : NoDup prior -> NoDup (foldl add_config prior cs).
Proof. revert prior. induction cs as [|c cs IH]; intros prior Hnd; simpl; [done|]. by apply IH, add_config_NoDup. Qed.

Lemma add_configs_length cs prior : (length (foldl add_config prior cs) <= length prior + length cs)%nat.
Proof.
  revert prior. induction cs as [|c cs IH]; intros prior; simpl; [lia|]. etrans; [apply IH|].
  unfold add_config. case_decide; [lia|]. rewrite length_app. simpl. lia.
Qed.

Lemma names_each_once_NoDup prior : NoDup prior -> names_each_once prior.
Proof.
  intros Hnd. apply Forall_forall. intros i _ c Hc Hin.
  apply list_elem_of_lookup in Hin as [i' Hi']. apply lookup_take_Some in Hi' as [Hi' Hlt].
  pose proof (NoDup_lookup _ _ _ _ Hnd Hc Hi'). lia.
Qed.

Definition union_of (l : list (list Config)) : list Config :=
  foldl (fun prior configs => foldl add_config prior configs) [] l.

Lemma union_of_spec l :
  NoDup (union_of l) /\ (forall c, c ∈ union_of l <-> exists cs, cs ∈ l /\ c ∈ cs) /\
  (len (union_of l) <= Nsum (len <$> l)).
Proof.
  unfold union_of. assert (forall prior, NoDup prior ->
    let u := foldl (fun prior configs => foldl add_config prior configs) prior l in
    NoDup u /\ (forall c, c ∈ u <-> c ∈ prior \/ exists cs, cs ∈ l /\ c ∈ cs) /\
    len u <= len prior + Nsum (len <$> l)) as H.
  { induction l as [|cs l IH]; intros prior Hnd; cbn [foldl].
    - split_and!; [done| |cbn; lia]. intros c. split; [by left|]. intros [?|(? & ?%elem_of_nil & _)]; done.
    - destruct (IH (foldl add_config prior cs) (add_configs_NoDup cs prior Hnd)) as (H1 & H2 & H3).
      split_and!; [done| |].
      + intros c. rewrite H2, add_configs_elem. setoid_rewrite elem_of_cons. naive_solver.
      + pose proof (add_configs_length cs prior) as Hl. change (Nsum (len <$> cs :: l)) with (len cs + Nsum (len <$> l)).
        generalize dependent (Nsum (len <$> l)). unfold len in *. lia. }
  destruct (H [] (NoDup_nil_2)) as (H1 & H2 & H3). split_and!; [done| |done].
  intros c. rewrite H2, elem_of_nil. tauto.
Qed.

Definition prior_of k : list Config := union_of (bt_range_from (mk_watermark k) (mk_history k)).*2.

Lemma elem_of_prior_of k c :
  c ∈ prior_of k <-> exists b cs, mk_history k !! b = Some cs /\ (mk_watermark k ≤ b)%B /\ c ∈ cs.
Proof.
  unfold prior_of. destruct (union_of_spec (bt_range_from (mk_watermark k) (mk_history k)).*2) as (_ & -> & _).
  setoid_rewrite list_elem_of_fmap. split.
  - intros (cs & ([b cs'] & -> & Hin) & Hc). apply elem_of_bt_range_from in Hin as [? ?]. by exists b, cs'.
  - intros (b & cs & Hb & Hw & Hc). exists cs. split; [|done]. exists (b, cs).
    by rewrite elem_of_bt_range_from.
Qed.

Lemma total_ok l a :
  a + Nsum ((fun e : Ballot * list Config => len e.2) <$> l) <= usize_max ->
  foldM (fun total (e : Ballot * list Config) => usize_add total (len e.2)) a l =
    Done (a + Nsum ((fun e => len e.2) <$> l)).
Proof.
  revert a. induction l as [|e l IH]; intros a Ha; [cbn; f_equal; lia|].
  change (Nsum ((fun e => len e.2) <$> e :: l)) with (len e.2 + Nsum ((fun e : Ballot * list Config => len e.2) <$> l)) in *.
  cbn [foldM]. rewrite usize_add_ok by lia. rsimpl. rewrite IH by lia. f_equal. lia.
Qed.

Lemma mk_prior_ok k : total_of (mk_history k) <= usize_max -> mk_prior k = Done (prior_of k).
Proof.
  intros Ht. unfold mk_prior. fold (union_of (bt_range_from (mk_watermark k) (mk_history k)).*2).
  fold (prior_of k).
  destruct (union_of_spec (bt_range_from (mk_watermark k) (mk_history k)).*2) as (H1 & _ & H3).
  fold (prior_of k) in H1, H3. rassert_by by apply names_each_once_NoDup.
  rewrite total_ok by done. rsimpl. rassert_by idtac; [|done].
  etrans; [exact H3|]. change (0 + Nsum ((fun e => len e.2) <$> bt_entries (mk_history k))) with (total_of (mk_history k)).
  unfold total_of. rewrite <-list_fmap_compose. apply Nsum_sublist.
  apply fmap_sublist, sublist_filter.
Qed.
