(* ===== verification/Campaign.v ===== *)
(** * A campaign's registration ([node/matchmaking.rs])

    The candidate's half of the matchmaker contract: the requests an open phase
    queues, and what one reply does to it.  Only the registration of a campaign
    is here; what the node does with the verdict (stepping back, adopting a
    configuration, opening Phase 1) and the membership probe's replies are not:
    the node's pool, round floor and won configuration are arguments.  So are
    not the assertions those handlers make over the node's own fields: its
    role, its open election, its operating ballot, the closed phase and probe,
    and the node-wide checks that end each handler; the assertions over the
    phase, the believed set and the pool are all here. *)

From S2P Require Import Prelude BTree Types Retained Contract QuorumSystem AcceptorConfig Acceptor Decree MatchmakerSet MatchmakerState Matchmaking.

Implicit Types k : Matchmaking.

(** ** Requests *)

Definition phase_request (journal : JournalId) (me : NodeId) k (generation : MatchmakerGeneration) : run MatchRequest :=
  request_for_kind (mk_kind k) journal me (mk_ballot k) (mk_config k) generation.

(** [queue_match_requests]: every matchmaker that has not answered completely,
    each from the page it owes next.  The node's own assertion, that the phase
    runs at its operating ballot, is over a field that is not here. *)
Definition queue_match_requests (journal : JournalId) (me : NodeId) k (matchmakers : MatchmakerSet)
  : run (list (MatchmakerId * MatchRequest)) :=
  request ← phase_request journal me k (ms_generation matchmakers);
  unanswered ← mk_unanswered k matchmakers;
  let queued := (fun e : MatchmakerId * option Ballot =>
                   (e.1, match e.2 with Some from => request_from_page request from | None => request end)) <$>
                unanswered in
  members ← allM (fun e : MatchmakerId * MatchRequest => set_contains matchmakers e.1) queued;
  rassert (members = true) "a registration addresses only the believed generation's matchmakers";;
  mret queued.

(** ** Replies *)

Inductive Answer :=
| NPage (page : RegisteredPage)
| NProbed (effective : option (Ballot * Config))
| NRefused (refusal : MatchRefusal).

(** [split_reply]; its last arm is unreachable. *)
Definition split_reply (reply : MatchReply) : run (MatchmakerId * (NodeId * (Ballot * Answer))) :=
  answer ← match rp_outcome reply with
           | Probed effective => mret (NProbed effective)
           | outcome =>
               decoded ← page_from_outcome outcome;
               match decoded with
               | Some (inl page) => mret (NPage page)
               | Some (inr refusal) => mret (NRefused refusal)
               | None => Panic "only a probe's answer decodes to no page"
               end
           end;
  mret (rp_matchmaker reply, (rp_to reply, (rp_ballot reply, answer))).

(** What one reply did to the campaign. *)
Inductive MatchStep :=
| MsIgnored
| MsRegistered (remaining : N)
| MsPaged (next : Ballot)
| MsCompleted (prior : list Config) (watermark : Ballot) (registered_by : N) (disagreements : N)
| MsRefused (refusal : MatchRefusal)
| MsStaleConfiguration (newest : Ballot) (config : Config)
| MsUnknownMember.

Definition unknown (pool : list NodeId) (config : Config) : run bool :=
  drawn ← is_drawn_from config pool; mret (negb drawn).

(** Whether the histories name a configuration this node cannot run. *)
Definition meets_unknown k (matchmakers : MatchmakerSet) (pool : list NodeId) : run bool :=
  held ← mk_quorum_held k matchmakers;
  if negb held then mret false else
  stale ← stale_belief k;
  outside ← match stale with Some (_, config) => unknown pool config | None => mret false end;
  if outside : bool then mret true else
  prior ← mk_prior k;
  anyM (unknown pool) prior.

Definition binding (floor : Ballot) (honored : option Config) (stale : option (Ballot * Config))
  : option (Ballot * Config) :=
  match stale with
  | Some (newest, config) => if decide (floor < newest \/ honored = Some config)%B then stale else None
  | None => None
  end.

(** [pooled_all]. *)
Definition pooled_all (pool : list NodeId) (config : Config) : Prop :=
  Forall (fun m => is_Some (position pool m)) (c_members config).

(** [fold_registration]: the phase after the page, the requests queued, and the
    verdict. *)
Definition fold_registration (journal : JournalId) (me : NodeId) (matchmakers : MatchmakerSet) (pool : list NodeId)
  (floor : Ballot) (honored : option Config) k (matchmaker : MatchmakerId) (page : RegisteredPage)
  : run (Matchmaking * (list (MatchmakerId * MatchRequest) * MatchStep)) :=
  '(k, fold) ← mk_fold k matchmaker page;
  match fold with
  | FIgnored => mret (k, ([], MsIgnored))
  | FPaged next =>
      request ← phase_request journal me k (ms_generation matchmakers);
      mret (k, ([(matchmaker, request_from_page request next)], MsPaged next))
  | FRegistered =>
      let registered := mk_registered k in
      met ← meets_unknown k matchmakers pool;
      if met : bool then mret (k, ([], MsUnknownMember)) else
      held ← mk_quorum_held k matchmakers;
      if negb held then remaining ← mk_remaining k matchmakers; mret (k, ([], MsRegistered remaining)) else
      stale ← stale_belief k;
      match binding floor honored stale with
      | Some (newest, config) => mret (k, ([], MsStaleConfiguration newest config))
      | None =>
          prior ← mk_prior k;
          watermark ← matchmaking_watermark k;
          disagreements ← matchmaking_disagreements k;
          held ← mk_quorum_held k matchmakers;
          rassert (held = true) "Phase 1 opens only once a matchmaker quorum registered the ballot";;
          rassert (Forall (pooled_all pool) prior) "every prior configuration is drawn from the node pool";;
          mret (k, ([], MsCompleted prior watermark registered disagreements))
      end
  end.

(** The campaign's arm of [on_match_reply]: what a reply that is not for it
    changes is nothing.  Answers from outside the believed set and answers to a
    probe are the node's, and so are the assertions after the fold, over the
    role, the election and the phase the node left behind. *)
Definition on_match_reply (journal : JournalId) (me : NodeId) (matchmakers : MatchmakerSet) (pool : list NodeId)
  (floor : Ballot) (honored : option Config) k (reply : MatchReply)
  : run (Matchmaking * (list (MatchmakerId * MatchRequest) * MatchStep)) :=
  if decide (rp_journal reply <> journal) then mret (k, ([], MsIgnored)) else
  '(matchmaker, (to, (ballot, answer))) ← split_reply reply;
  if decide (to <> me) then mret (k, ([], MsIgnored)) else
  member ← set_contains matchmakers matchmaker;
  if negb member then mret (k, ([], MsIgnored)) else
  if decide (rp_generation reply <> ms_generation matchmakers) then mret (k, ([], MsIgnored)) else
  if decide (mk_ballot k <> ballot) then mret (k, ([], MsIgnored)) else
  match answer with
  | NPage page => fold_registration journal me matchmakers pool floor honored k matchmaker page
  | NRefused refusal => mret (k, ([], MsRefused refusal))
  | NProbed _ => mret (k, ([], MsIgnored))
  end.

Definition answer_of (outcome : MatchOutcome) : Answer :=
  match outcome with
  | Registered page => NPage page
  | Probed effective => NProbed effective
  | MRefused refusal => NRefused refusal
  end.

Lemma split_reply_ok reply : split_reply reply =
  Done (rp_matchmaker reply, (rp_to reply, (rp_ballot reply, answer_of (rp_outcome reply)))).
Proof. unfold split_reply. by destruct (rp_outcome reply). Qed.

(** ** Requests, exactly *)

Definition request_of (journal : JournalId) (me : NodeId) k (generation : MatchmakerGeneration)
  (cursor : option Ballot) : MatchRequest :=
  mkRequest me journal (mk_ballot k) (mk_config k) (PRegister (mk_kind k)) generation cursor.

Lemma phase_request_ok journal me k g : phase_request journal me k g = Done (request_of journal me k g None).
Proof. unfold phase_request, request_for_kind, request_of. by destruct (mk_kind k). Qed.

Lemma mk_unanswered_ok k s : set_wf s ->
  exists l, mk_unanswered k s = Done l /\
    forall i cursor, (i, cursor) ∈ l <->
      i ∈ ms_members s /\ i ∉ mk_registered_by k /\ cursor = mk_page_next k !! i.
Proof.
  intros Hs. unfold mk_unanswered. set (l := _ <$> _).
  assert (forall i cursor, (i, cursor) ∈ l <->
    i ∈ ms_members s /\ i ∉ mk_registered_by k /\ cursor = mk_page_next k !! i) as Hl.
  { intros i cursor. unfold l. rewrite list_elem_of_fmap. unfold set_unanswered. split.
    - intros (i' & [= -> ->] & Hin). apply list_elem_of_filter in Hin as [? ?]. done.
    - intros (Hi & Hn & ->). exists i. split; [done|]. by apply list_elem_of_filter. }
  exists l. split; [|done]. rassert_by idtac; [|done].
  apply Forall_forall. intros [i c] Hin. by apply Hl in Hin as (_ & ? & _).
Qed.

Lemma queue_match_requests_ok journal me k s : set_wf s ->
  exists queued, queue_match_requests journal me k s = Done queued /\
    forall i request, (i, request) ∈ queued <->
      i ∈ ms_members s /\ i ∉ mk_registered_by k /\
      request = request_of journal me k (ms_generation s) (mk_page_next k !! i).
Proof.
  intros Hs. unfold queue_match_requests. rewrite phase_request_ok. rsimpl.
  destruct (mk_unanswered_ok k s Hs) as (l & -> & Hl). rsimpl. set (queued := _ <$> l).
  assert (forall i request, (i, request) ∈ queued <->
      i ∈ ms_members s /\ i ∉ mk_registered_by k /\
      request = request_of journal me k (ms_generation s) (mk_page_next k !! i)) as Hq.
  { intros i request. unfold queued. rewrite list_elem_of_fmap. split.
    - intros ([i' c] & [= -> ->] & Hin). apply Hl in Hin as (? & ? & ->). split_and!; [done..|]. simpl.
      by destruct (mk_page_next k !! i').
    - intros (? & ? & ->). exists (i, mk_page_next k !! i). split; [|by apply Hl]. simpl.
      by destruct (mk_page_next k !! i). }
  exists queued. split; [|done].
  rewrite (allM_ok _ (fun e : MatchmakerId * MatchRequest => e.1 ∈ ms_members s)).
  2:{ intros e _. by apply set_contains_ok. }
  rsimpl. rassert_by idtac; [|done]. apply bool_decide_eq_true_2, Forall_forall.
  intros [i request] Hin. by apply Hq in Hin as [? _].
Qed.

(** ** Verdicts, exactly *)

Definition stale_of k : option (Ballot * Config) :=
  if is_reconfiguration (mk_kind k) then None else
  match mk_effective k with
  | Some (newest, config) => if decide (config = mk_config k) then None else Some (newest, config)
  | None => None
  end.

Lemma stale_belief_ok k : stale_belief k = Done (stale_of k).
Proof.
  unfold stale_belief, stale_of. destruct (is_reconfiguration (mk_kind k)) eqn:E; [done|].
  destruct (mk_effective k) as [[n c]|]; [|done]. case_decide; [done|]. by rassert_by done.
Qed.

(** The histories name a configuration outside the pool. *)
Definition outside k (pool : list NodeId) : Prop :=
  is_some_and (fun e : Ballot * Config => ~ pooled_all pool e.2) (stale_of k) \/
  Exists (fun c => ~ pooled_all pool c) (prior_of k).

#[export] Instance pooled_all_dec pool c : Decision (pooled_all pool c).
Proof. unfold pooled_all. apply _. Defined.
#[export] Instance outside_dec k pool : Decision (outside k pool).
Proof. unfold outside. apply _. Defined.

(** The verdict of a phase whose last fold was a complete answer. *)
Definition verdict (s : MatchmakerSet) (pool : list NodeId) (floor : Ballot) (honored : option Config) k : MatchStep :=
  if decide (set_majority s (mk_registered_by k)) then
    if decide (outside k pool) then MsUnknownMember else
    match binding floor honored (stale_of k) with
    | Some (newest, config) => MsStaleConfiguration newest config
    | None => MsCompleted (prior_of k) (mk_watermark k) (mk_registered k) (mk_disagreements k)
    end
  else MsRegistered (len (ms_members s) / 2 + 1 - mk_registered k).

Lemma unknown_ok pool c : sorted_members pool -> unknown pool c = Done (bool_decide (~ pooled_all pool c)).
Proof.
  intros Hp. unfold unknown, is_drawn_from. rewrite rassert_true by done. rsimpl. unfold mret, run_ret. f_equal.
  rewrite bool_decide_not. f_equal. unfold pooled_all. apply eq_true_iff_eq.
  rewrite bool_decide_eq_true, forallb_forall, Forall_forall. setoid_rewrite list_elem_of_In.
  by setoid_rewrite bool_decide_eq_true.
Qed.

Lemma meets_unknown_ok k s pool :
  set_wf s -> sorted_members pool -> total_of (mk_history k) <= usize_max ->
  meets_unknown k s pool = Done (bool_decide (set_majority s (mk_registered_by k) /\ outside k pool)).
Proof.
  intros Hs Hp Ht. unfold meets_unknown. rewrite mk_quorum_held_ok by done. rsimpl.
  destruct (decide (set_majority s (mk_registered_by k))) as [Hm|Hm].
  2:{ rewrite (bool_decide_eq_false_2 _ Hm). cbn [negb]. rewrite bool_decide_eq_false_2 by tauto. done. }
  rewrite (bool_decide_eq_true_2 _ Hm). cbn [negb]. rewrite stale_belief_ok. rsimpl. unfold outside.
  assert ((match stale_of k with Some (_, config) => unknown pool config | None => mret false end) =
          Done (bool_decide (is_some_and (fun e : Ballot * Config => ~ pooled_all pool e.2) (stale_of k)))) as ->.
  { destruct (stale_of k) as [[n c]|]; [|done]. by rewrite unknown_ok. }
  rsimpl. case_bool_decide as Ho.
  - rewrite bool_decide_eq_true_2 by tauto. done.
  - rewrite mk_prior_ok by done. rsimpl. rewrite (anyM_ok _ (fun c => ~ pooled_all pool c)).
    + f_equal. apply bool_decide_ext. tauto.
    + intros c _. by apply unknown_ok.
Qed.

Lemma votes_in_subset s voters : set_wf s -> (forall i, i ∈ voters -> i ∈ ms_members s) ->
  votes_in (ms_members s) voters = ssize voters.
Proof.
  intros Hs Hsub. apply N.le_antisymm; [by apply votes_in_le_ssize|].
  unfold votes_in, len, ssize. rewrite <-(size_list_to_set (C := gset N)).
  2:{ apply NoDup_filter. apply members_NoDup, Hs. }
  assert (forall x y : nat, (x <= y)%nat -> N.of_nat x <= N.of_nat y) as Hle by lia. apply Hle, subseteq_size. intros i Hi. apply elem_of_list_to_set.
  apply list_elem_of_filter. auto.
Qed.

Lemma mk_remaining_ok k s : set_wf s -> (forall i, i ∈ mk_registered_by k -> i ∈ ms_members s) ->
  mk_remaining k s = Done (len (ms_members s) / 2 + 1 - mk_registered k).
Proof.
  intros Hs Hsub. unfold mk_remaining. rewrite (allM_ok _ (fun i => i ∈ ms_members s)).
  2:{ intros i _. by apply set_contains_ok. }
  rsimpl. rassert_by idtac.
  { apply bool_decide_eq_true_2, Forall_forall. intros i Hi. by apply Hsub, elem_of_bs_elements. }
  rewrite set_remaining_ok by done. rsimpl. rewrite mk_quorum_held_ok by done. rsimpl.
  rassert_by idtac; [|done]. rewrite bool_decide_eq_true. unfold set_majority.
  rewrite votes_in_subset by done. unfold mk_registered. lia.
Qed.

Lemma completed_reads k s : mk_wf k -> set_majority s (mk_registered_by k) ->
  matchmaking_watermark k = Done (mk_watermark k) /\ matchmaking_disagreements k = Done (mk_disagreements k).
Proof.
  intros Hwf Hm. pose proof (set_majority_nonempty s _ Hm) as Hne. split.
  - unfold matchmaking_watermark. eapply bind_seq; [|done]. case_decide; [|done]. apply rassert_true. by left.
  - unfold matchmaking_disagreements. eapply bind_seq; [|done]. case_decide as Hd; [|done]. apply rassert_true.
    intros E. rewrite (kw_extra _ Hwf), E in Hd. by vm_compute in Hd.
Qed.

(** What one page does to a campaign, on every branch. *)
Lemma fold_registration_ok journal me s pool floor honored k mm page :
  mk_wf k -> mk_disagreements k + msize (pg_history page) <= u64_max -> set_wf s -> sorted_members pool ->
  mm ∈ ms_members s -> (forall i, i ∈ mk_registered_by k -> i ∈ ms_members s) ->
  (forall k', accepted k mm page = true -> folded mm page k k' -> total_of (mk_history k') <= usize_max) ->
  if accepted k mm page then exists k', folded mm page k k' /\
    fold_registration journal me s pool floor honored k mm page =
      Done (k', match pg_next page with
                | Some next => ([(mm, request_of journal me k' (ms_generation s) (Some next))], MsPaged next)
                | None => ([], verdict s pool floor honored k')
                end)
  else fold_registration journal me s pool floor honored k mm page = Done (k, ([], MsIgnored)).
Proof.
  intros Hwf Hd Hs Hp Hmm Hsub Ht. unfold fold_registration.
  pose proof (mk_fold_ok k mm page Hwf Hd) as Hf. destruct (accepted k mm page) eqn:Ea; [|by rewrite Hf].
  destruct Hf as (k' & -> & Hfo). exists k'. split; [done|]. rsimpl. cbv beta iota. unfold fold_outcome.
  pose proof (fl_next _ _ _ _ Hfo) as Hn. pose proof (fl_wf _ _ _ _ Hfo) as Hwf'. specialize (Ht k' eq_refl Hfo).
  destruct (pg_next page) as [next|].
  { rewrite phase_request_ok. done. }
  assert (forall i, i ∈ mk_registered_by k' -> i ∈ ms_members s) as Hsub'.
  { destruct Hn as [-> _]. intros i [->%elem_of_singleton|?]%elem_of_union; auto. }
  rewrite meets_unknown_ok by done. rsimpl. unfold verdict.
  destruct (decide (set_majority s (mk_registered_by k'))) as [Hm|Hm].
  - destruct (decide (outside k' pool)) as [Ho|Ho].
    { rewrite bool_decide_eq_true_2 by done. done. }
    rewrite bool_decide_eq_false_2 by tauto. rewrite mk_quorum_held_ok by done. rsimpl.
    rewrite bool_decide_eq_true_2 by done. cbn [negb]. rewrite stale_belief_ok. rsimpl.
    destruct (binding floor honored (stale_of k')) as [[n c]|]; [done|].
    rewrite mk_prior_ok by done. rsimpl. destruct (completed_reads k' s Hwf' Hm) as [-> ->]. rsimpl.
    rassert_by done. rassert_by idtac; [|done]. apply Forall_forall. intros c Hc.
    destruct (decide (pooled_all pool c)); [done|]. destruct Ho. right. apply Exists_exists. by exists c.
  - rewrite bool_decide_eq_false_2 by tauto. rewrite mk_quorum_held_ok by done. rsimpl.
    rewrite bool_decide_eq_false_2 by done. cbn [negb]. rewrite mk_remaining_ok by done. done.
Qed.

(** ** Theorems *)

(** One page of a registration, on every branch.  A page out of turn or out
    of shape changes nothing; a paged answer queues exactly the next page's
    request; the last page of an answer decides the campaign: short of a majority
    it waits for exactly the missing registrations, a configuration outside the
    pool abandons it, a binding reconfiguration to another configuration makes it
    stale, and otherwise it completes with [H_b], the union's configurations at or
    above the watermark, each once. *)
Theorem fold_registration_exact journal me s pool floor honored k mm page :
  mk_wf k -> mk_disagreements k + msize (pg_history page) <= u64_max -> set_wf s -> sorted_members pool ->
  mm ∈ ms_members s -> (forall i, i ∈ mk_registered_by k -> i ∈ ms_members s) ->
  (forall k', accepted k mm page = true -> folded mm page k k' -> total_of (mk_history k') <= usize_max) ->
  exists k' queued step,
    fold_registration journal me s pool floor honored k mm page = Done (k', (queued, step)) /\ mk_wf k' /\
    (accepted k mm page = false -> k' = k /\ queued = [] /\ step = MsIgnored) /\
    (accepted k mm page = true -> folded mm page k k') /\
    (forall next, accepted k mm page = true -> pg_next page = Some next -> step = MsPaged next /\
       queued = [(mm, request_of journal me k' (ms_generation s) (Some next))]) /\
    (accepted k mm page = true -> pg_next page = None -> queued = [] /\
       (~ set_majority s (mk_registered_by k') ->
          step = MsRegistered (len (ms_members s) / 2 + 1 - mk_registered k')) /\
       (set_majority s (mk_registered_by k') -> outside k' pool -> step = MsUnknownMember) /\
       (forall newest config, set_majority s (mk_registered_by k') -> ~ outside k' pool ->
          binding floor honored (stale_of k') = Some (newest, config) -> step = MsStaleConfiguration newest config) /\
       (set_majority s (mk_registered_by k') -> ~ outside k' pool -> binding floor honored (stale_of k') = None ->
          exists prior, step = MsCompleted prior (mk_watermark k') (mk_registered k') (mk_disagreements k') /\
            NoDup prior /\ forall c, c ∈ prior <-> exists b cs, mk_history k' !! b = Some cs /\
              (mk_watermark k' ≤ b)%B /\ c ∈ cs)).
Proof.
  intros Hwf Hd Hs Hp Hmm Hsub Ht.
  pose proof (fold_registration_ok journal me s pool floor honored k mm page Hwf Hd Hs Hp Hmm Hsub Ht) as Hf.
  destruct (accepted k mm page) eqn:Ea.
  - destruct Hf as (k' & Hfo & E). exists k'.
    exists (match pg_next page with
            | Some next => [(mm, request_of journal me k' (ms_generation s) (Some next))] | None => [] end).
    exists (match pg_next page with Some next => MsPaged next | None => verdict s pool floor honored k' end).
    split; [rewrite E; by destruct (pg_next page)|]. split; [apply Hfo|]. split; [done|]. split; [done|].
    split; [intros next _ ->; done|]. intros _ ->. split; [done|]. unfold verdict. split_and!.
    + intros Hm. by rewrite decide_False.
    + intros Hm Ho. by rewrite !decide_True.
    + intros n c Hm Ho ->. by rewrite decide_True, decide_False.
    + intros Hm Ho ->. rewrite decide_True, decide_False by done. exists (prior_of k'). split_and!; [done| |].
      * apply union_of_spec.
      * intros c. apply elem_of_prior_of.
  - exists k, [], MsIgnored. by split_and!.
Qed.

Lemma fold_registration_exact_witness :
  let page := mkPage zero ∅ None zero None in
  exists k', fold_registration 0 7 (mkSet 0 [0]) [0] zero None
    (mkMatchmaking (mkBallot 1 7) (mkConfig [0] Majority [] 0 0 0) Belief ∅ ∅ ∅ None zero 0) 0 page =
    Done (k', ([], MsCompleted [] zero 1 0)).
Proof.
  intros page. set (k := mkMatchmaking _ _ _ _ _ _ _ _ _).
  destruct (matchmaking_new_ok (mkBallot 1 7) (mkConfig [0] Majority [] 0 0 0) Belief) as [_ Hwf].
  assert (set_wf (mkSet 0 [0])) as Hs
    by (apply set_wf_alt; split_and!; [by apply (bool_decide_unpack _); vm_compute|done|by vm_compute]).
  assert (forall k', folded 0 page k k' -> mk_history k' = ∅ /\ mk_registered_by k' = {[0]} /\ mk_effective k' = None /\
            mk_watermark k' = zero /\ mk_disagreements k' = 0) as Hk'.
  { intros k' Hf. destruct (fl_joined _ _ _ _ Hf) as (k1 & J & Eh & Ee).
    pose proof (fl_watermark _ _ _ _ Hf) as Ew. destruct (fl_next _ _ _ _ Hf) as [Er _].
    pose proof (fl_disagreements _ _ _ _ Hf) as Hdis. simpl in Hdis. change (msize (∅ : gmap Ballot Registration)) with 0 in Hdis.
    assert (mk_history k' = ∅) as E0.
    { apply map_eq. intros b. rewrite lookup_empty. destruct (mk_history k' !! b) as [cs|] eqn:Eb; [|done].
      destruct (kw_nonempty _ (fl_wf _ _ _ _ Hf) b cs Eb) as [Hne _]. destruct cs as [|c cs]; [done|].
      rewrite Eh in Eb. destruct (jn_only _ _ _ J _ _ c Eb ltac:(left)) as [(r & Hr & _)|(cs0 & H0 & _)].
      - by apply elem_of_nil in Hr.
      - simpl in H0. by rewrite lookup_empty in H0. }
    split_and!; [done|by rewrite Er| |by rewrite Ew|lia].
    rewrite Ee. simpl. destruct (jn_named _ _ _ J) as [->|(b & r & Hr & _)]; [done|by apply elem_of_nil in Hr]. }
  destruct (fold_registration_exact 0 7 (mkSet 0 [0]) [0] zero None k 0 page Hwf) as (k' & queued & step & E & _ & _ & Hfo & _ & Hlast).
  - by vm_compute.
  - done.
  - by apply (bool_decide_unpack _); vm_compute.
  - left.
  - by intros i ?%elem_of_empty.
  - intros k' _ Hf. destruct (Hk' k' Hf) as [-> _]. by vm_compute.
  - exists k'. destruct (Hk' k' (Hfo eq_refl)) as (E1 & E2 & E3 & E4 & E5).
    destruct (Hlast eq_refl eq_refl) as (Eq & _ & _ & _ & Hdone).
    destruct Hdone as (prior & Est & _ & Hprior).
    + rewrite E2. by vm_compute.
    + unfold outside, stale_of, prior_of. rewrite E1, E3. intros [H|H]; [by destruct (mk_kind k')|].
      by apply Exists_nil in H.
    + unfold stale_of. rewrite E3. by destruct (mk_kind k').
    + assert (prior = []) as ->.
      { destruct prior as [|c prior]; [done|]. destruct (proj1 (Hprior c)) as (b & cs & Hb & _); [left|].
        by rewrite E1, lookup_empty in Hb. }
      rewrite E, Eq, Est, E4, E5. unfold mk_registered. rewrite E2. by vm_compute.
Defined.
