(* ===== verification/MatchSystem.v ===== *)
(** * Matchmaking as a distributed system

    Any number of campaigns registering with any number of matchmakers, over a
    network that loses, duplicates and reorders, with matchmakers that crash and
    restart from their stores, collect garbage and hand their generation over.
    A label is one thing that may happen; [happen] runs the code of it.

    The point of the protocol is that a leader's Phase 1 covers every
    configuration an earlier leader may have used: if two campaigns of a journal
    complete at the same matchmaker set, the later one's [H_b] names the earlier
    one's configuration, unless garbage collection has passed the earlier ballot
    ([matchmaking_covers]); and a completed reconfiguration is never missed, even
    when its record is collected ([reconfiguration_honored]).  No assertion of
    the code fires on the way ([matchmaking_never_panics]). *)

From stdpp Require Import functions.
From S2P Require Import Prelude BTree Types Retained Contract QuorumSystem AcceptorConfig Acceptor Decree MatchmakerSet MatchmakerState Matchmaker MatchmakerInv MatchmakerStorage Generation GenerationInv MatchNode Matchmaking Campaign.

Implicit Types m : Matchmaker.
Implicit Types k : Matchmaking.

(** ** The world *)

(** A campaign is registering, abandoned, or leads: the phase it completed with,
    what the verdict was given, and the [H_b] and watermark Phase 1 opened with. *)
Inductive Stage :=
| Registering (k : Matchmaking)
| Abandoned
| Leading (k : Matchmaking) (floor : Ballot) (honored : option Config) (prior : list Config) (watermark : Ballot).

Record Candidacy := mkCandidacy { cp_set : MatchmakerSet; cp_stage : Stage }.

Record World := mkWorld {
  w_nodes : MatchmakerId -> Node;
  w_asks : list (MatchmakerId * MatchRequest);
  w_net : list MatchReply;
  w_camps : gmap (JournalId * Ballot) Candidacy }.

Implicit Types w : World.

Inductive Label :=
| LOpen (journal : JournalId) (ballot : Ballot) (set : MatchmakerSet)
| LAsk (journal : JournalId) (ballot : Ballot)
| LCall (matchmaker : MatchmakerId) (c : Call)
| LDrain (matchmaker : MatchmakerId)
| LRestart (matchmaker : MatchmakerId)
| LReply (reply : MatchReply) (floor : Ballot) (honored : option Config).

Definition stage_after (k : Matchmaking) (floor : Ballot) (honored : option Config) (step : MatchStep) : Stage :=
  match step with
  | MsIgnored | MsRegistered _ | MsPaged _ => Registering k
  | MsCompleted prior watermark _ _ => Leading k floor honored prior watermark
  | MsRefused _ | MsStaleConfiguration _ _ | MsUnknownMember => Abandoned
  end.

Section system.
Context (reg : JournalId -> Ballot -> Registration) (pool : list NodeId).

Definition happen w (l : Label) : run World :=
  match l with
  | LOpen j b s =>
      k ← matchmaking_new b (rg_config (reg j b)) (rg_kind (reg j b));
      mret (mkWorld (w_nodes w) (w_asks w) (w_net w) (<[(j, b) := mkCandidacy s (Registering k)]> (w_camps w)))
  | LAsk j b =>
      match w_camps w !! (j, b) with
      | Some (mkCandidacy s (Registering k)) =>
          queued ← queue_match_requests j (node b) k s;
          mret (mkWorld (w_nodes w) (w_asks w ++ queued) (w_net w) (w_camps w))
      | _ => mret w
      end
  | LCall i c =>
      m ← call (nd_mm (w_nodes w i)) c;
      mret (mkWorld (<[i := mkNode m (nd_disk (w_nodes w i))]> (w_nodes w)) (w_asks w) (w_net w) (w_camps w))
  | LDrain i =>
      '(n, replies) ← drain (w_nodes w i);
      mret (mkWorld (<[i := n]> (w_nodes w)) (w_asks w) (w_net w ++ replies.1) (w_camps w))
  | LRestart i =>
      n ← restart (w_nodes w i);
      mret (mkWorld (<[i := n]> (w_nodes w)) (w_asks w) (w_net w) (w_camps w))
  | LReply reply floor honored =>
      match w_camps w !! (rp_journal reply, rp_ballot reply) with
      | Some (mkCandidacy s (Registering k)) =>
          '(k, (queued, step)) ← on_match_reply (rp_journal reply) (node (rp_ballot reply)) s pool floor honored k reply;
          mret (mkWorld (w_nodes w) (w_asks w ++ queued) (w_net w)
                  (<[(rp_journal reply, rp_ballot reply) := mkCandidacy s (stage_after k floor honored step)]> (w_camps w)))
      | _ => mret w
      end
  end.

(** A ballot opens one campaign; a registration is delivered where it was sent,
    a probe or a collection anywhere; a handover request keeps the wire contract;
    a reply was sent, and the histories fit in memory. *)
Definition enabled w (l : Label) : Prop :=
  match l with
  | LOpen j b s => w_camps w !! (j, b) = None /\ set_wf s
  | LAsk _ _ | LDrain _ | LRestart _ => True
  | LCall i (CMatch request) => (i, request) ∈ w_asks w \/ rq_purpose request = PProbe
  | LCall i c => call_ok reg (nd_mm (w_nodes w i)) c
  | LReply reply _ _ => reply ∈ w_net w /\
      forall s k page, w_camps w !! (rp_journal reply, rp_ballot reply) = Some (mkCandidacy s (Registering k)) ->
        rp_outcome reply = Registered page -> msize (mk_history k) + msize (pg_history page) <= usize_max
  end.

(** Booted matchmakers, nothing sent. *)
Definition initial w : Prop :=
  (forall i, saved reg (w_nodes w i) (nd_mm (w_nodes w i)) /\ mm_id (nd_mm (w_nodes w i)) = i /\
     mm_replies (nd_mm (w_nodes w i)) = []) /\
  w_asks w = [] /\ w_net w = [] /\ w_camps w = ∅.

Inductive match_reachable : World -> Prop :=
| reach_initial w : initial w -> match_reachable w
| reach_step w l w' : match_reachable w -> enabled w l -> happen w l = Done w' -> match_reachable w'.

(** ** What a matchmaker ever registered *)

(** The ballots a matchmaker registered, per generation and journal. *)
Abbreviation Registered_set := (MatchmakerGeneration -> JournalId -> Ballot -> Prop).
Implicit Types S : MatchmakerGeneration -> JournalId -> Ballot -> Prop.

Abbreviation generation_of m := (mh_generation (mm_hard m)).

(** [S] is the log of [m]: what [m] holds, and what it held and collected. *)
Record tracked S m : Prop := {
  tr_registry : forall j b, is_Some (registry_of m j !! b) -> S (generation_of m) j b;
  tr_generation : forall g j b, S g j b -> g <= generation_of m;
  tr_kept : forall j b, S (generation_of m) j b ->
    is_Some (registry_of m j !! b) \/ (b < hard_watermark (mm_hard m) j)%B;
  tr_effective : forall g j b, S g j b -> rg_kind (reg j b) = Reconfiguration ->
    ord_le (Some b) (effective_at (hard_effective (mm_hard m) j)) }.

(** [S'] only adds ballots above all of [S]. *)
Record extends S S' : Prop := {
  ex_sub : forall g j b, S g j b -> S' g j b;
  ex_above : forall g j b, S' g j b -> S g j b \/ forall b', S g j b' -> (b' < b)%B }.

Lemma extends_refl S : extends S S.
Proof using. split; auto. Qed.
Lemma extends_trans S1 S2 S3 : extends S1 S2 -> extends S2 S3 -> extends S1 S3.
Proof using.
  intros [H1 A1] [H2 A2]. split; [auto|]. intros g j b Hb. destruct (A2 g j b Hb) as [?|Hab]; [by apply A1|].
  right. intros b' Hb'. by apply Hab, H1.
Qed.

(** Below a ballot of [S] nothing is added. *)
Lemma extends_below S S' g j b b0 : extends S S' -> S g j b -> S' g j b0 -> (b0 < b)%B -> S g j b0.
Proof using.
  intros [_ A] Hb Hb0 Hlt. destruct (A g j b0 Hb0) as [?|Hab]; [done|].
  specialize (Hab b Hb). exfalso. eapply ord_lt_irrefl, ord_lt_trans; eauto.
Qed.

Definition grow S m : Registered_set := fun g j b => S g j b \/ g = generation_of m /\ is_Some (registry_of m j !! b).

Lemma tracked_boot m : mm_wf reg m -> tracked (grow (fun _ _ _ => False) m) m.
Proof using.
  intros Hwf. constructor.
  - intros j b Hb. by right.
  - intros g j b [[]|[-> _]]. done.
  - intros j b [[]|[_ ?]]. by left.
  - intros g j b [[]|[-> [r Hr]]] Hk. destruct (wf_owned _ _ Hwf j) as [Hl _].
    eapply (wf_reconfigured _ _ Hwf j b r Hr). by rewrite (Hl b r Hr).
Qed.

Lemma tracked_evolves S m m' :
  tracked S m -> evolves reg m m' -> tracked (grow S m') m' /\ extends S (grow S m').
Proof using.
  intros [Hr Hg Hk He] [Hwf _ _ _ Hfl Hgen Heff Hkept Hfresh]. split; constructor.
  - intros j b Hb. by right.
  - intros g j b [Hb|[-> _]]; [|done]. specialize (Hg g j b Hb). lia.
  - intros j b [Hb|[_ Hb]]; [|by left]. pose proof (Hg _ _ _ Hb) as Hle.
    assert (generation_of m' = generation_of m) as Eg by lia. rewrite Eg in Hb.
    destruct (Hk j b Hb) as [[r Hrb]|Hlt].
    + destruct (Hkept Eg j b r Hrb) as [H|H]; [left; by eexists|by right].
    + right. eapply ord_lt_le_trans; [done|apply Hfl].
  - intros g j b [Hb|[-> [r Hrb]]] Hkind; [etrans; [by eapply He|apply Heff]|].
    destruct (wf_owned _ _ Hwf j) as [Hl _]. eapply (wf_reconfigured _ _ Hwf j b r Hrb).
    by rewrite (Hl b r Hrb).
  - intros g j b Hb. by left.
  - intros g j b [Hb|[-> [r Hrb]]]; [by left|].
    destruct (decide (generation_of m' = generation_of m)) as [Eg|Hne].
    + destruct (Hfresh Eg j b r Hrb) as [Hold|[Hw Habove]].
      { left. rewrite Eg. apply Hr. by eexists. }
      right. intros b' Hb'. rewrite Eg in Hb'. destruct (Hk j b' Hb') as [Hin|Hlt]; [by apply Habove|].
      by eapply ord_lt_le_trans.
    + right. intros b' Hb'. pose proof (Hg _ _ _ Hb'). lia.
Qed.

Lemma tracked_alike S m m' : alike m' m -> tracked S m -> tracked S m'.
Proof using.
  intros [_ Eh _ _ Er] []. constructor; intros *; rewrite ?Er, ?Eh; eauto.
Qed.

(** ** What a page promises *)

Record page_good S (g : MatchmakerGeneration) (j : JournalId) (b : Ballot) (page : RegisteredPage) : Prop := {
  pd_known : S g j b;
  pd_from : (pg_watermark page ≤ pg_from page)%B;
  pd_next : is_none_or (fun next => next ≤ b)%B (pg_next page);
  pd_size : msize (pg_history page) <= REGISTRY_PAGE;
  pd_owned : owned_ledger reg j (pg_history page) /\ owned_effective reg j (pg_effective page);
  pd_effective : forall b0, S g j b0 -> (b0 < b)%B -> rg_kind (reg j b0) = Reconfiguration ->
    ord_le (Some b0) (effective_at (pg_effective page));
  pd_covers : forall b0, S g j b0 -> (b0 < b)%B -> (b0 < pg_from page)%B \/
    exists b1, S g j b1 /\ (b0 ≤ b1)%B /\ (b1 < b)%B /\ rg_config (reg j b1) = rg_config (reg j b0) /\
      (pg_history page !! b1 = Some (reg j b1) \/ exists next, pg_next page = Some next /\ (next ≤ b1)%B) }.

Lemma page_good_extends S S' g j b page : extends S S' -> page_good S g j b page -> page_good S' g j b page.
Proof using.
  intros Hex []. pose proof Hex as [Hsub _]. constructor; try done; [by apply Hsub|..].
  - intros b0 Hb0 Hlt. apply pd_effective0; [|done]. by eapply extends_below.
  - intros b0 Hb0 Hlt. destruct (pd_covers0 b0) as [?|(b1 & H1 & ?)]; [by eapply extends_below|done|by left|].
    right. exists b1. split; [by apply Hsub|done].
Qed.

(** The page a registration is answered with. *)
Lemma answer_good S m m' j b cursor :
  mm_wf reg m -> tracked S m -> evolves reg m m' -> generation_of m' = generation_of m ->
  hard_watermark (mm_hard m') j = hard_watermark (mm_hard m) j ->
  registry_of m' j = <[b := reg j b]> (registry_of m j) ->
  page_good (grow S m') (generation_of m) j b (answer m j cursor b) /\
  (cursor = None -> pg_from (answer m j cursor b) = pg_watermark (answer m j cursor b)).
Proof using.
  intros Hwf Htr Hev Eg Ew Ereg. pose proof (window_records_sorted m j (page_from m j cursor) b) as Hs.
  assert (forall b0, grow S m' (generation_of m) j b0 -> (b0 < b)%B -> S (generation_of m) j b0) as Hbelow.
  { intros b0 [Hb0|[_ Hb0]] Hlt; [done|]. rewrite Ereg, lookup_insert in Hb0. case_decide as E.
    - subst. by apply ord_lt_irrefl in Hlt.
    - by apply Htr. }
  split; [constructor|].
  - right. split; [done|]. rewrite Ereg, lookup_insert_eq. by eexists.
  - apply page_from_ge.
  - simpl. destruct (kept_cursor _ _) as [next|] eqn:En; [|done]. simpl.
    apply cursor_of_window in En as [r Hr]. apply elem_of_window_records in Hr as (_ & _ & ?). by apply ord_lt_le.
  - etrans; [by apply page_of_size|]. apply Hwf.
  - split; [|apply Hwf]. intros b0 r Hr. apply answer_history in Hr as (Hr & _). by apply (wf_owned _ _ Hwf) in Hr.
  - intros b0 Hb0 Hlt Hk. simpl. eapply (tr_effective _ _ Htr); [|done]. by apply Hbelow.
  - intros b0 Hb0 Hlt. apply Hbelow in Hb0; [|done]. simpl.
    destruct (decide (b0 < page_from m j cursor)%B) as [|Hfrom]; [by left|right]. apply ord_not_lt in Hfrom.
    assert (exists r, registry_of m j !! b0 = Some r) as [r Hr].
    { destruct (tr_kept _ _ Htr j b0 Hb0) as [[r ?]|Hw]; [by exists r|]. exfalso. eapply ord_lt_irrefl.
      eapply ord_lt_le_trans; [exact Hw|]. etrans; [apply page_from_ge|exact Hfrom]. }
    destruct (kept_records_covers _ (b0, r) Hs) as ([b1 r1] & Hin & Hc & Hle).
    { by apply elem_of_window_records. }
    assert (registry_of m j !! b1 = Some r1 /\ (b1 < b)%B) as [Hr1 Hb1].
    { assert ((b1, r1) ∈ window_records m j (page_from m j cursor) b) as Hw
        by (eapply elem_of_sublist; [done|apply kept_records_sublist]).
      by apply elem_of_window_records in Hw as (? & _ & ?). }
    destruct (wf_owned _ _ Hwf j) as [Hown _]. pose proof (Hown _ _ Hr) as ->. pose proof (Hown _ _ Hr1) as ->.
    exists b1. split_and!; [|done..|].
    + left. apply Htr. by eexists.
    + exact (page_below_cursor _ (registry_page (mm_limits m)) Hs _ Hin).
  - intros ->. simpl. unfold page_from, ord_max; simpl. by case_decide.
Qed.
End system.

(** ** What a campaign knows *)

Section campaign.
Context (reg : JournalId -> Ballot -> Registration).

Definition heard k (i : MatchmakerId) : Prop := i ∈ mk_registered_by k \/ is_Some (mk_page_next k !! i).

(** The configuration of [b] is unioned at or above [b], or collected. *)
Definition seen (j : JournalId) k (b : Ballot) : Prop :=
  (b < mk_watermark k)%B \/
  exists b1 cs, mk_history k !! b1 = Some cs /\ (b ≤ b1)%B /\ rg_config (reg j b) ∈ cs.

Abbreviation Log := (MatchmakerId -> MatchmakerGeneration -> JournalId -> Ballot -> Prop).

(** A campaign of ballot [b] at the set [s] knows, of every matchmaker it heard,
    every lower ballot that one registered: seen, or owed by a later page. *)
Record camp_ok (dur : Log) (j : JournalId) (b : Ballot) (s : MatchmakerSet) k : Prop := {
  co_wf : mk_wf k;
  co_set : set_wf s;
  co_ballot : mk_ballot k = b;
  co_registers : mkReg (mk_config k) (mk_kind k) = reg j b;
  co_owned : forall b1 cs, mk_history k !! b1 = Some cs -> cs = [rg_config (reg j b1)];
  co_effective : owned_effective reg j (mk_effective k);
  co_members : forall i, i ∈ mk_registered_by k -> i ∈ ms_members s;
  co_cursor : forall i next, mk_page_next k !! i = Some next -> (next ≤ b)%B;
  co_known : forall i, heard k i -> dur i (ms_generation s) j b;
  co_reconfigured : forall i, heard k i -> forall b0, dur i (ms_generation s) j b0 -> (b0 < b)%B ->
    rg_kind (reg j b0) = Reconfiguration -> ord_le (Some b0) (effective_at (mk_effective k));
  co_covers : forall i, heard k i -> forall b0, dur i (ms_generation s) j b0 -> (b0 < b)%B ->
    seen j k b0 \/ exists next b1, mk_page_next k !! i = Some next /\ dur i (ms_generation s) j b1 /\
      (next ≤ b1)%B /\ (b0 ≤ b1)%B /\ (b1 < b)%B /\ rg_config (reg j b1) = rg_config (reg j b0) }.

Lemma camp_ok_extends (dur dur' : Log) j b s k :
  (forall i, extends (dur i) (dur' i)) -> camp_ok dur j b s k -> camp_ok dur' j b s k.
Proof using.
  intros Hex []. constructor; try done.
  - intros i Hi. by apply (Hex i), co_known0.
  - intros i Hi b0 Hb0 Hlt. apply (co_reconfigured0 i Hi); [|done].
    eapply extends_below; [apply Hex|by apply co_known0|done..].
  - intros i Hi b0 Hb0 Hlt.
    destruct (co_covers0 i Hi b0) as [?|(n & b1 & ? & ? & ?)]; [|done|by left|].
    + eapply extends_below; [apply Hex|by apply co_known0|done..].
    + right. exists n, b1. split; [done|]. split; [by apply (Hex i)|done].
Qed.

(** A campaign that has just opened. *)
Lemma camp_ok_new dur j b s :
  set_wf s -> exists k, matchmaking_new b (rg_config (reg j b)) (rg_kind (reg j b)) = Done k /\ camp_ok dur j b s k.
Proof using.
  intros Hs. destruct (matchmaking_new_ok b (rg_config (reg j b)) (rg_kind (reg j b))) as [-> Hwf].
  eexists. split; [done|].
  assert (forall i, heard (mkMatchmaking b (rg_config (reg j b)) (rg_kind (reg j b)) ∅ ∅ ∅ None zero 0) i -> False) as Hno.
  { intros i [Hi|[n Hi]]; simpl in Hi; [by apply elem_of_empty in Hi|by rewrite lookup_empty in Hi]. }
  constructor; simpl; try done; try (intros i Hi; by destruct (Hno i Hi)).
  by destruct (reg j b).
Qed.

(** Below the completed union every registered ballot is in [H_b] or collected. *)
Lemma seen_prior j k b : seen j k b -> rg_config (reg j b) ∈ prior_of k \/ (b < mk_watermark k)%B.
Proof using.
  intros [?|(b1 & cs & Hh & Hle & Hc)]; [by right|].
  destruct (decide (mk_watermark k ≤ b1)%B) as [Hw|Hw].
  - left. apply elem_of_prior_of. by exists b1, cs.
  - right. apply ord_not_le in Hw. by eapply ord_le_lt_trans.
Qed.

Lemma owned_disagreements j k :
  mk_wf k -> (forall b1 cs, mk_history k !! b1 = Some cs -> cs = [rg_config (reg j b1)]) ->
  mk_disagreements k = 0 /\ total_of (mk_history k) = msize (mk_history k).
Proof using.
  intros Hwf Hown. rewrite (kw_extra _ Hwf). unfold extra_of, total_of.
  assert (Forall (fun e : Ballot * list Config => len e.2 = 1) (bt_entries (mk_history k))) as Hall.
  { apply Forall_forall. intros [b1 cs] Hin%elem_of_bt_entries. by rewrite (Hown b1 cs Hin). }
  unfold msize. rewrite <-length_bt_entries.
  induction Hall as [|e l He _ [IH1 IH2]]; [done|].
  cbn [fmap list_fmap length]. unfold Nsum in *. cbn [foldr]. rewrite He. split; [lia|].
  change (list_fmap _ _ ?f ?l) with (f <$> l) in *. rewrite IH2. lia.
Qed.

Section fold.
Context (dur : Log) (j : JournalId) (b : Ballot) (s : MatchmakerSet) (k k' : Matchmaking)
  (i : MatchmakerId) (page : RegisteredPage)
  (Hok : camp_ok dur j b s k) (Hi : i ∈ ms_members s)
  (Hgood : page_good reg (dur i) (ms_generation s) j b page)
  (Hstart : pg_from page = pg_watermark page \/ heard k i)
  (Hacc : accepted k i page = true) (Hfold : folded i page k k').

Lemma fold_heard i' : heard k' i' -> i' = i \/ heard k i' /\ i' <> i /\ mk_page_next k' !! i' = mk_page_next k !! i'.
Proof using Hfold.
  intros Hh. destruct (decide (i' = i)) as [|Hne]; [by left|right].
  pose proof (fl_next _ _ _ _ Hfold) as Hn. unfold heard in Hh |- *. destruct (pg_next page); destruct Hn as [Er En].
  - rewrite Er, En, lookup_insert_ne in Hh by done. rewrite En, lookup_insert_ne by done. done.
  - rewrite Er, En, lookup_delete_ne, elem_of_union, elem_of_singleton in Hh by done.
    rewrite En, lookup_delete_ne by done. split; [|done].
    destruct Hh as [[?|?]|?]; [done|by left|by right].
Qed.

Lemma fold_heard_mono i' : heard k i' -> heard k' i'.
Proof using Hfold.
  pose proof (fl_next _ _ _ _ Hfold) as Hn. unfold heard. destruct (pg_next page); destruct Hn as [-> ->].
  - rewrite lookup_insert. case_decide; [right; by eexists|done].
  - rewrite lookup_delete. case_decide as E; [intros _; left; by apply elem_of_union_l, elem_of_singleton|].
    intros [?|?]; [left; by apply elem_of_union_r|by right].
Qed.

Lemma fold_seen b0 : seen j k b0 -> seen j k' b0.
Proof using Hfold.
  intros [Hw|(b1 & cs & Hh & Hle & Hc)].
  - left. rewrite (fl_watermark _ _ _ _ Hfold). eapply ord_lt_le_trans; [done|apply ord_max_ge_l].
  - right. destruct (fl_joined _ _ _ _ Hfold) as (k1 & J & Eh & _).
    destruct (jn_keeps _ _ _ J _ _ Hh) as (cs' & Hh' & Hsub). exists b1, cs'. rewrite Eh. auto.
Qed.

Lemma fold_watermark b0 : (b0 < pg_watermark page)%B -> seen j k' b0.
Proof using Hfold.
  intros Hw. left. rewrite (fl_watermark _ _ _ _ Hfold). eapply ord_lt_le_trans; [done|apply ord_max_ge_r].
Qed.

(** Before the page: every lower ballot of [i] is seen, or stands at or above
    where the page starts. *)
Lemma fold_owed b0 : dur i (ms_generation s) j b0 -> (b0 < b)%B ->
  seen j k' b0 \/ exists b1, dur i (ms_generation s) j b1 /\ (pg_from page ≤ b1)%B /\ (b0 ≤ b1)%B /\ (b1 < b)%B /\
    rg_config (reg j b1) = rg_config (reg j b0).
Proof using Hok Hgood Hstart Hacc Hfold.
  intros Hb0 Hlt. unfold accepted in Hacc. apply andb_true_iff in Hacc as [Hacc1 _].
  apply andb_true_iff in Hacc1 as [Hnr Hcur]. apply negb_true_iff, bool_decide_eq_false in Hnr.
  destruct (mk_page_next k !! i) as [expected|] eqn:En.
  - apply bool_decide_eq_true in Hcur.
    destruct (co_covers _ _ _ _ _ Hok i) with b0 as [Hs|(n & b1 & [= <-]%(eq_trans (eq_sym En)) & Hd & Hn & Hle & Hl & Hc)];
      [by right; eexists|done..|left; by apply fold_seen|].
    destruct (decide (pg_from page ≤ b1)%B) as [Hf|Hf]; [right; by exists b1|]. apply ord_not_le in Hf.
    left. destruct Hcur as [Hcur|[_ Hcur]].
    + rewrite Hcur in Hf. exfalso. eapply ord_lt_irrefl, ord_lt_le_trans; eauto.
    + apply fold_watermark. rewrite <-Hcur. by eapply ord_le_lt_trans.
  - destruct Hstart as [Hs|[Hr|[n Hp]]]; [|done|congruence].
    destruct (decide (b0 < pg_from page)%B) as [Hf|Hf].
    + left. apply fold_watermark. by rewrite <-Hs.
    + right. exists b0. apply ord_not_lt in Hf. by split_and!.
Qed.

Lemma fold_camp_ok : camp_ok dur j b s k'.
Proof using Hok Hi Hgood Hstart Hacc Hfold.
  pose proof Hok as []. pose proof Hgood as []. destruct pd_owned0 as [Hol Hoe].
  destruct (fl_joined _ _ _ _ Hfold) as (k1 & J & Eh & Ee). destruct (fl_rest _ _ _ _ Hfold) as (Eb & Ec & Ekd).
  pose proof (fl_next _ _ _ _ Hfold) as Hn. pose proof (fl_wf _ _ _ _ Hfold) as Hwf'.
  assert (ord_le (effective_at (mk_effective k)) (effective_at (mk_effective k')) /\
          ord_le (effective_at (pg_effective page)) (effective_at (mk_effective k'))) as [He1 He2].
  { rewrite Ee. destruct (max_effective_ge (mk_effective k1) (pg_effective page)) as [H1 H2]. split; [|done].
    etrans; [apply (jn_effective _ _ _ J)|done]. }
  constructor; try done.
  - by rewrite Eb.
  - by rewrite Ec, Ekd.
  - intros b1 cs Hh. destruct (kw_nonempty _ Hwf' b1 cs Hh) as [Hne Hnd].
    assert (forall c, c ∈ cs -> c = rg_config (reg j b1)) as Hall.
    { intros c Hc. rewrite Eh in Hh. destruct (jn_only _ _ _ J _ _ _ Hh Hc) as [(r & Hr & <-)|(cs0 & H0 & Hc0)].
      - apply elem_of_bt_entries in Hr. by rewrite (Hol b1 r Hr).
      - rewrite (co_owned0 b1 cs0 H0) in Hc0. by apply list_elem_of_singleton in Hc0. }
    destruct cs as [|c1 [|c2 cs]]; [done| |].
    + f_equal. apply Hall. left.
    + exfalso. apply NoDup_cons in Hnd as [Hn1 _]. apply Hn1. rewrite (Hall c1 ltac:(left)).
      rewrite <-(Hall c2 ltac:(right; left)). left.
  - rewrite Ee. destruct (max_effective_cases (mk_effective k1) (pg_effective page)) as [-> | ->]; [|done].
    destruct (jn_named _ _ _ J) as [-> |(b1 & r & Hr & Hk & ->)]; [done|].
    intros b2 c [= <- <-]. apply elem_of_bt_entries in Hr. rewrite <-(Hol b1 r Hr). destruct r; simpl in *. by subst.
  - intros i'. destruct (pg_next page); destruct Hn as [-> _]; [apply co_members0|].
    intros [->%elem_of_singleton|?]%elem_of_union; [done|by apply co_members0].
  - intros i' n'. destruct (pg_next page) as [n|]; destruct Hn as [_ ->].
    + rewrite lookup_insert. case_decide; [intros [= <-]; done|apply co_cursor0].
    + rewrite lookup_delete. case_decide; [done|apply co_cursor0].
  - intros i' Hh'. destruct (fold_heard i' Hh') as [->|(Hh & _)]; [done|by apply co_known0].
  - intros i' Hh' b0 Hb0 Hlt Hk. destruct (fold_heard i' Hh') as [->|(Hh & _)].
    + etrans; [by apply pd_effective0|done].
    + etrans; [by eapply co_reconfigured0|done].
  - intros i' Hh' b0 Hb0 Hlt. destruct (fold_heard i' Hh') as [->|(Hh & _ & ->)].
    2:{ destruct (co_covers0 i' Hh b0 Hb0 Hlt); [left; by apply fold_seen|by right]. }
    destruct (fold_owed b0 Hb0 Hlt) as [?|(b1 & Hd1 & Hf & Hle & Hl1 & Hc1)]; [by left|].
    destruct (pd_covers0 b1 Hd1 Hl1) as [Hlt'|(b2 & Hd2 & Hle2 & Hl2 & Hc2 & Hin)].
    { exfalso. eapply ord_lt_irrefl, ord_lt_le_trans; eauto. }
    assert (b0 ≤ b2)%B as Hle' by by etrans.
    assert (rg_config (reg j b2) = rg_config (reg j b0)) as Hc' by congruence.
    destruct Hin as [Hin|(next & En & Hnx)].
    + left. right. apply elem_of_bt_entries in Hin. destruct (jn_joins _ _ _ J _ _ Hin) as (cs & Hh & Hc).
      exists b2, cs. rewrite Eh, <-Hc'. done.
    + right. exists next, b2. rewrite En in Hn. destruct Hn as [_ ->]. rewrite lookup_insert_eq. by split_and!.
Qed.
End fold.
End campaign.

(** ** The invariant *)

Definition stage_phase (stage : Stage) : option Matchmaking :=
  match stage with Registering k | Leading k _ _ _ _ => Some k | Abandoned => None end.

(** A campaign that asks a matchmaker for a later page has heard from it. *)
Definition started w (j : JournalId) (b : Ballot) (i : MatchmakerId) : Prop :=
  match w_camps w !! (j, b) with
  | Some c => match stage_phase (cp_stage c) with Some k => heard k i | None => True end
  | None => False
  end.

Section invariant.
Context (reg : JournalId -> Ballot -> Registration) (pool : list NodeId) (Hpool : sorted_members pool).

Abbreviation Log := (MatchmakerId -> MatchmakerGeneration -> JournalId -> Ballot -> Prop).

Definition reply_good w (S : MatchmakerGeneration -> JournalId -> Ballot -> Prop) (r : MatchReply) : Prop :=
  forall page, rp_outcome r = Registered page ->
    page_good reg S (rp_generation r) (rp_journal r) (rp_ballot r) page /\
    (pg_from page = pg_watermark page \/ started w (rp_journal r) (rp_ballot r) (rp_matchmaker r)).

Definition ask_ok w (i : MatchmakerId) (q : MatchRequest) : Prop :=
  rq_purpose q = PRegister (rg_kind (reg (rq_journal q) (rq_ballot q))) /\
  rq_config q = rg_config (reg (rq_journal q) (rq_ballot q)) /\
  is_none_or (fun c => c ≤ rq_ballot q)%B (rq_from_ballot q) /\
  (is_Some (rq_from_ballot q) -> started w (rq_journal q) (rq_ballot q) i).

(** A leading campaign completed at a majority with nothing binding. *)
Definition lead_ok (c : Candidacy) : Prop :=
  match cp_stage c with
  | Leading k floor honored prior watermark =>
      set_majority (cp_set c) (mk_registered_by k) /\ prior = prior_of k /\ watermark = mk_watermark k /\
      binding floor honored (stale_of k) = None
  | _ => True
  end.

Record node_inv (mem dur : Log) w (i : MatchmakerId) : Prop := {
  nv_saved : exists m0, saved reg (w_nodes w i) m0 /\ tracked reg (dur i) m0;
  nv_tracked : tracked reg (mem i) (nd_mm (w_nodes w i));
  nv_extends : extends (dur i) (mem i);
  nv_id : mm_id (nd_mm (w_nodes w i)) = i;
  nv_pending : forall r, r ∈ mm_replies (nd_mm (w_nodes w i)) -> reply_good w (mem i) r }.

Record match_inv (mem dur : Log) w : Prop := {
  iv_node : forall i, node_inv mem dur w i;
  iv_net : forall r, r ∈ w_net w -> reply_good w (dur (rp_matchmaker r)) r;
  iv_asks : forall i q, (i, q) ∈ w_asks w -> ask_ok w i q;
  iv_camps : forall j b c k, w_camps w !! (j, b) = Some c -> stage_phase (cp_stage c) = Some k ->
    camp_ok reg dur j b (cp_set c) k;
  iv_lead : forall key c, w_camps w !! key = Some c -> lead_ok c }.

Lemma reply_good_mono w w' S S' r :
  (forall j b i, started w j b i -> started w' j b i) -> extends S S' -> reply_good w S r -> reply_good w' S' r.
Proof using.
  intros Hst Hex Hr page Hp. destruct (Hr page Hp) as [Hg Hs]. split; [by eapply page_good_extends|].
  destruct Hs; [by left|right; auto].
Qed.

Lemma ask_ok_mono w w' i q :
  (forall j b i, started w j b i -> started w' j b i) -> ask_ok w i q -> ask_ok w' i q.
Proof using. intros Hst (? & ? & ? & Hs). split_and!; auto. Qed.

(** The world with one node replaced, and its log with it. *)
Lemma node_replaced mem dur w i n mem_i dur_i net :
  match_inv mem dur w ->
  node_inv (<[i := mem_i]> mem) (<[i := dur_i]> dur)
    (mkWorld (<[i := n]> (w_nodes w)) (w_asks w) (w_net w ++ net) (w_camps w)) i ->
  extends (dur i) dur_i ->
  (forall r, r ∈ net -> rp_matchmaker r = i /\ reply_good w dur_i r) ->
  match_inv (<[i := mem_i]> mem) (<[i := dur_i]> dur)
    (mkWorld (<[i := n]> (w_nodes w)) (w_asks w) (w_net w ++ net) (w_camps w)).
Proof using.
  intros [Hn Hnet Hasks Hcamps Hlead] Hi Hex Hnew.
  assert (forall i', extends (dur i') ((<[i := dur_i]> dur) i')) as Hexs.
  { intros i'. destruct (decide (i = i')) as [<-|Hne]; [by rewrite fn_lookup_insert|].
    rewrite fn_lookup_insert_ne by done. apply extends_refl. }
  constructor; try done.
  - intros i'. destruct (decide (i = i')) as [<-|Hne]; [done|]. destruct (Hn i') as [].
    constructor; simpl; rewrite !fn_lookup_insert_ne by done; done.
  - intros r [Hr|Hr]%elem_of_app.
    + eapply reply_good_mono; [|apply Hexs|by apply Hnet]. done.
    + destruct (Hnew r Hr) as [-> Hg]. by rewrite fn_lookup_insert.
  - intros j b c k Hc Hk. eapply camp_ok_extends; [exact Hexs|by apply Hcamps].
Qed.

(** The pending replies of a call. *)
Lemma call_pending mem dur w i c m' :
  match_inv mem dur w -> enabled reg w (LCall i c) ->
  mm_wf reg (nd_mm (w_nodes w i)) -> evolves reg (nd_mm (w_nodes w i)) m' -> answers reg (nd_mm (w_nodes w i)) m' c ->
  forall r, r ∈ mm_replies m' -> reply_good w (grow (mem i) m') r.
Proof using.
  intros Hinv Hen Hwf Hev Ha r Hr. destruct (iv_node _ _ _ Hinv i) as [_ Htr _ Hid Hpend].
  destruct (tracked_evolves reg _ _ _ Htr Hev) as [_ Hex].
  assert (r ∈ mm_replies (nd_mm (w_nodes w i)) -> reply_good w (grow (mem i) m') r) as Hold.
  { intros Hin. eapply reply_good_mono; [done|exact Hex|by apply Hpend]. }
  destruct c as [[from j b config purpose g cursor]|request|j g wm]; simpl in Ha.
  - destruct Ha as (o & Er & _ & Hpage). rewrite Er in Hr. apply elem_of_app in Hr as [Hr|Hr]; [by apply Hold|].
    apply list_elem_of_singleton in Hr as ->. intros page Hp. simpl in Hp. 
    destruct (Hpage page Hp) as (Hpur & -> & -> & Eg & Ew & Ereg & _).
    destruct (answer_good reg (mem i) _ _ j b cursor Hwf Htr Hev Eg Ew Ereg) as [Hg Hc]. split; [done|]. simpl.
    destruct cursor as [cu|]; [right|left; by apply Hc].
    destruct Hen as [Hen|Hen]; [|done].
    apply (iv_asks _ _ _ Hinv) in Hen as (_ & _ & _ & Hs). rewrite Hid. apply Hs. by eexists.
  - destruct Ha as [Er _]. rewrite Er in Hr. by apply Hold.
  - destruct Ha as [Er _]. rewrite Er in Hr. by apply Hold.
Qed.

Lemma enabled_call_ok mem dur w i c :
  match_inv mem dur w -> enabled reg w (LCall i c) -> call_ok reg (nd_mm (w_nodes w i)) c.
Proof using.
  intros Hinv Hen. destruct c as [q|request|j g wm]; [|done..]. simpl in *.
  destruct Hen as [Hen|Hen]; [|by rewrite Hen].
  apply (iv_asks _ _ _ Hinv) in Hen as (-> & -> & Hcur & _). split; [|done]. by destruct (reg _ _).
Qed.

(** The four kinds of steps a matchmaker makes. *)
Lemma call_step mem dur w i c :
  match_inv mem dur w -> enabled reg w (LCall i c) ->
  exists w' mem' dur', happen reg pool w (LCall i c) = Done w' /\ match_inv mem' dur' w'.
Proof using.
  intros Hinv Hen. pose proof (iv_node _ _ _ Hinv i) as [(m0 & Hsv & Htr0) Htr Hex Hid Hpend].
  pose proof (sv_wf _ _ _ Hsv) as Hwf.
  destruct (call_evolves reg (nd_mm (w_nodes w i)) c Hwf) as (m' & E & Hev & Ha).
  { by eapply enabled_call_ok. }
  destruct (tracked_evolves reg _ _ _ Htr Hev) as [Htr' Hex'].
  exists (mkWorld (<[i := mkNode m' (nd_disk (w_nodes w i))]> (w_nodes w)) (w_asks w) (w_net w) (w_camps w)).
  exists (<[i := grow (mem i) m']> mem), (<[i := dur i]> dur). split; [simpl; by rewrite E|].
  rewrite <-(app_nil_r (w_net w)). apply node_replaced; [done| |apply extends_refl|by intros r ?%elem_of_nil].
  constructor; simpl; rewrite !fn_lookup_insert.
  - exists m0. split; [|done]. by eapply saved_call.
  - done.
  - by eapply extends_trans.
  - simpl. by rewrite (ev_config _ _ _ Hev).
  - simpl. intros r Hr. exact (call_pending mem dur w i c m' Hinv Hen Hwf Hev Ha r Hr).
Qed.

Lemma drain_step mem dur w i :
  match_inv mem dur w -> exists w' mem' dur', happen reg pool w (LDrain i) = Done w' /\ match_inv mem' dur' w'.
Proof using.
  intros Hinv. pose proof (iv_node _ _ _ Hinv i) as [(m0 & Hsv & Htr0) Htr Hex Hid Hpend].
  destruct (drain_ok reg _ _ Hsv) as (disk & E & Hsv').
  eexists _, (<[i := mem i]> mem), (<[i := mem i]> dur). split; [simpl; rewrite E; done|].
  apply node_replaced; [done| |done|].
  - constructor; simpl; rewrite !fn_lookup_insert.
    + exists (drained (nd_mm (w_nodes w i))). split; [done|]. destruct Htr. by constructor.
    + destruct Htr. by constructor.
    + apply extends_refl.
    + done.
    + simpl. by intros r ?%elem_of_nil.
  - intros r Hr. simpl in Hr. split; [|by apply Hpend].
    pose proof (sv_replies _ _ _ Hsv) as Hn. rewrite Forall_forall in Hn. rewrite <-Hid. by apply Hn.
Qed.

Lemma restart_step mem dur w i :
  match_inv mem dur w -> exists w' mem' dur', happen reg pool w (LRestart i) = Done w' /\ match_inv mem' dur' w'.
Proof using.
  intros Hinv. pose proof (iv_node _ _ _ Hinv i) as [(m0 & Hsv & Htr0) Htr Hex Hid Hpend].
  destruct (restart_ok reg _ _ Hsv) as (m' & E & Hal & _ & Er & _ & Hsv').
  exists (mkWorld (<[i := mkNode m' (nd_disk (w_nodes w i))]> (w_nodes w)) (w_asks w) (w_net w) (w_camps w)).
  exists (<[i := dur i]> mem), (<[i := dur i]> dur). split; [simpl; by rewrite E|].
  rewrite <-(app_nil_r (w_net w)). apply node_replaced; [done| |apply extends_refl|by intros r ?%elem_of_nil].
  pose proof (tracked_alike reg _ _ _ Hal Htr0) as Htr'.
  constructor; simpl; rewrite !fn_lookup_insert.
  - by exists m'.
  - done.
  - apply extends_refl.
  - simpl. rewrite (al_config _ _ Hal), <-(sv_config _ _ _ Hsv). done.
  - simpl. rewrite Er. by intros r ?%elem_of_nil.
Qed.
End invariant.

(** ** The campaigns' steps *)

Lemma folded_size i page k k' :
  folded i page k k' -> msize (mk_history k') <= msize (mk_history k) + msize (pg_history page).
Proof.
  intros Hf. pose proof (fl_wf _ _ _ _ Hf) as Hwf. destruct (fl_joined _ _ _ _ Hf) as (k1 & J & Eh & _).
  unfold msize. rewrite <-!(size_dom (D := gset Ballot)).
  assert (dom (mk_history k') ⊆ dom (mk_history k) ∪ dom (pg_history page)) as Hsub%subseteq_size.
  { intros b. rewrite elem_of_union, !elem_of_dom. intros [cs Hcs].
    destruct (kw_nonempty _ Hwf b cs Hcs) as [Hne _]. destruct cs as [|c cs]; [done|]. rewrite Eh in Hcs.
    destruct (jn_only _ _ _ J _ _ c Hcs) as [(r & Hr & _)|(cs0 & H0 & _)]; [left| |].
    - right. apply elem_of_bt_entries in Hr. by eexists.
    - left. by eexists. }
  pose proof (size_union_alt (dom (mk_history k)) (dom (pg_history page))) as Hu.
  assert (size (dom (pg_history page) ∖ dom (mk_history k)) <= size (dom (pg_history page)))%nat as Hd
    by (apply subseteq_size; set_solver).
  lia.
Qed.

Section camps.
Context (reg : JournalId -> Ballot -> Registration) (pool : list NodeId) (Hpool : sorted_members pool).

(** A reply to an open campaign is ignored, refuses it, or is the page it owes. *)
Definition reply_effect (dur : MatchmakerId -> MatchmakerGeneration -> JournalId -> Ballot -> Prop) (b : Ballot)
  (s : MatchmakerSet) (floor : Ballot) (honored : option Config) (reply : MatchReply) k
  (result : Matchmaking * (list (MatchmakerId * MatchRequest) * MatchStep)) : Prop :=
  let j := rp_journal reply in
  let '(k', (queued, step)) := result in
  (k' = k /\ queued = [] /\ (step = MsIgnored \/ exists refusal, step = MsRefused refusal)) \/
  exists page, camp_ok reg dur j b s k' /\ folded (rp_matchmaker reply) page k k' /\
    (queued, step) = match pg_next page with
      | Some next => ([(rp_matchmaker reply, request_of j (node b) k' (ms_generation s) (Some next))], MsPaged next)
      | None => ([], verdict s pool floor honored k')
      end.

Lemma page_reply_ok dur b s k reply floor honored page :
  let j := rp_journal reply in let i := rp_matchmaker reply in
  camp_ok reg dur j b s k -> i ∈ ms_members s -> page_good reg (dur i) (ms_generation s) j b page ->
  (pg_from page = pg_watermark page \/ heard k i) ->
  msize (mk_history k) + msize (pg_history page) <= usize_max ->
  exists result, fold_registration j (node b) s pool floor honored k i page = Done result /\
    reply_effect dur b s floor honored reply k result.
Proof using Hpool.
  intros j i Hok Hi Hpg Hst Hmem.
  destruct (owned_disagreements reg j k (co_wf _ _ _ _ _ _ Hok) (co_owned _ _ _ _ _ _ Hok)) as [Hd _].
  assert (forall k', accepted k i page = true -> folded i page k k' -> camp_ok reg dur j b s k') as Hok'.
  { intros k' Ha Hf. exact (fold_camp_ok reg dur j b s k k' i page Hok Hi Hpg Hst Ha Hf). }
  pose proof (fold_registration_ok j (node b) s pool floor honored k i page) as Hf.
  assert (if accepted k i page then exists k', folded i page k k' /\
            fold_registration j (node b) s pool floor honored k i page =
              Done (k', match pg_next page with
                        | Some next => ([(i, request_of j (node b) k' (ms_generation s) (Some next))], MsPaged next)
                        | None => ([], verdict s pool floor honored k')
                        end)
          else fold_registration j (node b) s pool floor honored k i page = Done (k, ([], MsIgnored))) as Hf'.
  { apply Hf; [apply Hok| |apply Hok|done|done|apply Hok|].
    - rewrite Hd. pose proof (pd_size _ _ _ _ _ _ Hpg) as Hsz. unfold REGISTRY_PAGE, u64_max in *. lia.
    - intros k' Ha Hfo. pose proof (Hok' k' Ha Hfo) as Hok''.
      destruct (owned_disagreements reg j k' (co_wf _ _ _ _ _ _ Hok'') (co_owned _ _ _ _ _ _ Hok'')) as [_ ->].
      etrans; [by eapply folded_size|done]. }
  destruct (accepted k i page).
  - destruct Hf' as (k' & Hfo & E). eexists. split; [exact E|].
    destruct (pg_next page) as [next|] eqn:En; right; exists page; (split; [by apply Hok'|]); (split; [done|]); by rewrite En.
  - eexists. split; [exact Hf'|]. left. by auto.
Qed.

Lemma on_match_reply_ok dur b s k reply floor honored w :
  let j := rp_journal reply in
  camp_ok reg dur j b s k -> b = rp_ballot reply ->
  w_camps w !! (j, b) = Some (mkCandidacy s (Registering k)) ->
  reply_good reg w (dur (rp_matchmaker reply)) reply ->
  (forall page, rp_outcome reply = Registered page -> msize (mk_history k) + msize (pg_history page) <= usize_max) ->
  exists result, on_match_reply j (node b) s pool floor honored k reply = Done result /\
    reply_effect dur b s floor honored reply k result.
Proof using Hpool.
  intros j Hok Eb Hcamp Hgood Hmem.
  assert (exists result, @Done (Matchmaking * (list (MatchmakerId * MatchRequest) * MatchStep)) (k, ([], MsIgnored)) =
            Done result /\ reply_effect dur b s floor honored reply k result) as Hign.
  { eexists. split; [done|]. left. by auto. }
  unfold on_match_reply. rewrite decide_False by tauto.
  rewrite split_reply_ok. rsimpl. cbv beta iota.
  case_decide; [exact Hign|]. rewrite set_contains_ok by apply Hok. rsimpl.
  case_bool_decide as Hi; cbn [negb]; [|exact Hign].
  case_decide as Hgen; [exact Hign|]. case_decide; [exact Hign|].
  destruct (rp_outcome reply) as [page|effective|refusal] eqn:Eo; cbn [answer_of].
  - destruct (Hgood page Eo) as [Hpg Hst]. rewrite Hgen, <-Eb in Hpg. apply page_reply_ok; [done..| |by apply Hmem].
    destruct Hst as [?|Hst]; [by left|right]. unfold started in Hst. fold j in Hst. by rewrite <-Eb, Hcamp in Hst.
  - exact Hign.
  - eexists. split; [done|]. left. by eauto.
Qed.
End camps.

Section steps.
Context (reg : JournalId -> Ballot -> Registration) (pool : list NodeId) (Hpool : sorted_members pool).

(** The world with one campaign moved: what it has heard only grows. *)
Lemma camp_replaced mem dur w j b s stage asks :
  match_inv reg mem dur w ->
  (forall k, stage_phase stage = Some k -> camp_ok reg dur j b s k) -> lead_ok (mkCandidacy s stage) ->
  (forall i, started w j b i -> is_none_or (fun k => heard k i) (stage_phase stage)) ->
  (forall i q, (i, q) ∈ asks ->
     ask_ok reg (mkWorld (w_nodes w) (w_asks w ++ asks) (w_net w) (<[(j, b) := mkCandidacy s stage]> (w_camps w))) i q) ->
  match_inv reg mem dur (mkWorld (w_nodes w) (w_asks w ++ asks) (w_net w) (<[(j, b) := mkCandidacy s stage]> (w_camps w))).
Proof using.
  intros [Hn Hnet Hasks Hcamps Hlead] Hok Hld Hheard Hnew. set (w' := mkWorld _ _ _ _).
  assert (forall j' b' i, started w j' b' i -> started w' j' b' i) as Hst.
  { intros j' b' i Hs. unfold started, w'; simpl. destruct (decide ((j, b) = (j', b'))) as [[= <- <-]|Hne].
    - rewrite lookup_insert_eq. simpl. specialize (Hheard i Hs). by destruct (stage_phase stage).
    - by rewrite lookup_insert_ne. }
  constructor; simpl.
  - intros i. destruct (Hn i). constructor; try done. intros r Hr.
    eapply reply_good_mono; [exact Hst|apply extends_refl|by apply nv_pending0].
  - intros r Hr. eapply reply_good_mono; [exact Hst|apply extends_refl|by apply Hnet].
  - intros i q [Hq|Hq]%elem_of_app; [eapply ask_ok_mono; [exact Hst|by apply Hasks]|by apply Hnew].
  - intros j' b' c k. rewrite lookup_insert. case_decide as E; [|apply Hcamps]. injection E as <- <-.
    intros [= <-] Hk. by apply Hok.
  - intros key c. rewrite lookup_insert. case_decide; [by intros [= <-]|apply Hlead].
Qed.

Lemma open_step mem dur w j b s :
  match_inv reg mem dur w -> enabled reg w (LOpen j b s) ->
  exists w', happen reg pool w (LOpen j b s) = Done w' /\ match_inv reg mem dur w'.
Proof using.
  intros Hinv [Hnone Hs]. destruct (camp_ok_new reg dur j b s Hs) as (k & E & Hok). simpl. rewrite E. rsimpl.
  eexists. split; [done|]. rewrite <-(app_nil_r (w_asks w)). apply camp_replaced; [done|..].
  - by intros k' [= <-].
  - done.
  - intros i Hst. unfold started in Hst. by rewrite Hnone in Hst.
  - by intros i q ?%elem_of_nil.
Qed.

(** Every request an open campaign sends is its own registration. *)
Lemma request_ask_ok dur w j b s k i cursor :
  camp_ok reg dur j b s k -> is_none_or (fun c => c ≤ b)%B cursor -> (is_Some cursor -> started w j b i) ->
  ask_ok reg w i (request_of j (node b) k (ms_generation s) cursor).
Proof using.
  intros Hok Hc Hs. pose proof (co_registers _ _ _ _ _ _ Hok) as Er. pose proof (co_ballot _ _ _ _ _ _ Hok) as Eb.
  unfold ask_ok; simpl. rewrite Eb, <-Er. done.
Qed.

Lemma ask_step mem dur w j b :
  match_inv reg mem dur w -> exists w', happen reg pool w (LAsk j b) = Done w' /\ match_inv reg mem dur w'.
Proof using.
  intros Hinv. simpl. destruct (w_camps w !! (j, b)) as [[s [k| |]]|] eqn:Ec; try by exists w.
  pose proof (iv_camps _ _ _ _ Hinv j b _ k Ec eq_refl) as Hok. simpl in Hok.
  destruct (queue_match_requests_ok j (node b) k s (co_set _ _ _ _ _ _ Hok)) as (queued & -> & Hq). rsimpl.
  eexists. split; [done|]. rewrite <-(insert_id (w_camps w) (j, b) _ Ec) at 1. apply camp_replaced; [done|..].
  - by intros k' [= <-].
  - done.
  - intros i Hst. unfold started in Hst. by rewrite Ec in Hst.
  - intros i q (Hi & Hn & ->)%Hq. apply (request_ask_ok dur); [done| |].
    + destruct (mk_page_next k !! i) eqn:En; [|done]. by eapply co_cursor.
    + intros Hp. unfold started; simpl. rewrite lookup_insert_eq. simpl. by right.
Qed.

Lemma lead_ok_verdict s k floor honored :
  lead_ok (mkCandidacy s (stage_after k floor honored (verdict s pool floor honored k))).
Proof using.
  unfold lead_ok, verdict. case_decide as Hm; [|done]. case_decide; [done|].
  destruct (binding floor honored (stale_of k)) as [[n c]|] eqn:Eb; done.
Qed.

Lemma stage_after_phase k floor honored step k' :
  stage_phase (stage_after k floor honored step) = Some k' -> k' = k.
Proof using. destruct step; simpl; congruence. Qed.

Lemma reply_step mem dur w reply floor honored :
  match_inv reg mem dur w -> enabled reg w (LReply reply floor honored) ->
  exists w', happen reg pool w (LReply reply floor honored) = Done w' /\ match_inv reg mem dur w'.
Proof using Hpool.
  intros Hinv [Hnet Hmem]. simpl. set (j := rp_journal reply) in *. set (b := rp_ballot reply) in *.
  destruct (w_camps w !! (j, b)) as [[s [k| |]]|] eqn:Ec; try by exists w.
  pose proof (iv_camps _ _ _ _ Hinv j b _ k Ec eq_refl) as Hok. simpl in Hok.
  destruct (on_match_reply_ok reg pool Hpool dur b s k reply floor honored w Hok eq_refl Ec) as ([k' [queued step]] & E & Heff).
  { by apply (iv_net _ _ _ _ Hinv). }
  { intros page. by apply (Hmem s k page). }
  fold j in E. rewrite E. rsimpl. eexists. split; [done|].
  assert (camp_ok reg dur j b s k' /\ (forall i, heard k i -> heard k' i) /\
          lead_ok (mkCandidacy s (stage_after k' floor honored step)) /\
          (forall i q, (i, q) ∈ queued -> exists next, q = request_of j (node b) k' (ms_generation s) (Some next) /\
             (next ≤ b)%B /\ heard k' i /\ stage_after k' floor honored step = Registering k')) as (Hok' & Hh & Hl & Hq).
  { destruct Heff as [(-> & -> & Hst)|(page & Hok' & Hf & Eq)].
    - split_and!; [done|done| |by intros i q ?%elem_of_nil]. by destruct Hst as [-> |[refusal ->]].
    - split; [done|]. split; [by eapply fold_heard_mono|]. pose proof (fl_next _ _ _ _ Hf) as Hn.
      destruct (pg_next page) as [next|]; injection Eq as -> ->.
      + split; [done|]. intros i q [= -> ->]%list_elem_of_singleton. exists next. destruct Hn as [_ Hn].
        assert (mk_page_next k' !! rp_matchmaker reply = Some next) as Hnx by (by rewrite Hn, lookup_insert_eq).
        split_and!; [done|by eapply co_cursor|right; by eexists|done].
      + split; [apply lead_ok_verdict|by intros i q ?%elem_of_nil]. }
  apply camp_replaced; [done| |done| |].
  - intros k0 Hk0. apply stage_after_phase in Hk0 as ->. done.
  - intros i Hst. unfold started in Hst. rewrite Ec in Hst. simpl in Hst. destruct step; simpl; auto.
  - intros i q Hin. destruct (Hq i q Hin) as (next & -> & Hnx & Hhi & Hst). apply (request_ask_ok dur); [done..|].
    intros _. unfold started; simpl. rewrite lookup_insert_eq. by rewrite Hst.
Qed.

Lemma initial_inv w : initial reg w -> exists mem dur, match_inv reg mem dur w.
Proof using.
  intros (Hn & Ha & Hnet & Hc). set (log := fun i => grow (fun _ _ _ => False) (nd_mm (w_nodes w i))).
  exists log, log. constructor.
  - intros i. destruct (Hn i) as (Hsv & Hid & Hr). pose proof (tracked_boot reg _ (sv_wf _ _ _ Hsv)) as Htr.
    constructor; [by exists (nd_mm (w_nodes w i))|done|apply extends_refl|done|].
    rewrite Hr. by intros r ?%elem_of_nil.
  - rewrite Hnet. by intros r ?%elem_of_nil.
  - rewrite Ha. by intros i q ?%elem_of_nil.
  - rewrite Hc. intros j b c k. by rewrite lookup_empty.
  - rewrite Hc. intros key c. by rewrite lookup_empty.
Qed.

Lemma match_step_inv mem dur w l :
  match_inv reg mem dur w -> enabled reg w l ->
  exists w' mem' dur', happen reg pool w l = Done w' /\ match_inv reg mem' dur' w'.
Proof using Hpool.
  intros Hinv Hen. destruct l as [j b s|j b|i c|i|i|reply floor honored].
  - destruct (open_step _ _ _ _ _ _ Hinv Hen) as (w' & ? & ?). by exists w', mem, dur.
  - destruct (ask_step _ _ _ j b Hinv) as (w' & ? & ?). by exists w', mem, dur.
  - by eapply call_step.
  - by eapply drain_step.
  - by eapply restart_step.
  - destruct (reply_step _ _ _ _ _ _ Hinv Hen) as (w' & ? & ?). by exists w', mem, dur.
Qed.

Lemma match_reachable_inv w : match_reachable reg pool w -> exists mem dur, match_inv reg mem dur w.
Proof using Hpool.
  induction 1 as [w Hw|w l w' _ (mem & dur & Hinv) Hen E]; [by apply initial_inv|].
  destruct (match_step_inv _ _ _ _ Hinv Hen) as (w'' & mem' & dur' & E' & Hinv'). rewrite E in E'. injection E' as <-.
  by exists mem', dur'.
Qed.
End steps.

(** ** A concrete run *)

(** Moves of a concrete run: messages are named by their place in the network. *)
Inductive Move := MOpen (ballot : Ballot) | MAsk (ballot : Ballot) | MDeliver (ask : nat) | MGc (watermark : Ballot)
| MDrain (i : MatchmakerId) | MRestart (i : MatchmakerId) | MReply (sent : nat).

Section demo.
Context (reg : JournalId -> Ballot -> Registration) (pool : list NodeId) (s : MatchmakerSet) (Hs : set_wf s).

Definition label_of w (move : Move) : option Label :=
  match move with
  | MOpen b => if decide (w_camps w !! (0, b) = None) then Some (LOpen 0 b s) else None
  | MAsk b => Some (LAsk 0 b)
  | MDeliver n => match w_asks w !! n with Some (i, q) => Some (LCall i (CMatch q)) | None => None end
  | MGc watermark => match ms_members s with i :: _ => Some (LCall i (CGc 0 (ms_generation s) watermark)) | [] => None end
  | MDrain i => Some (LDrain i)
  | MRestart i => Some (LRestart i)
  | MReply n =>
      match w_net w !! n with
      | Some reply =>
          match w_camps w !! (rp_journal reply, rp_ballot reply), rp_outcome reply with
          | Some (mkCandidacy _ (Registering k)), Registered page =>
              if decide (msize (mk_history k) + msize (pg_history page) <= usize_max)
              then Some (LReply reply zero None) else None
          | _, _ => None
          end
      | None => None
      end
  end.

Definition play w (move : Move) : run World :=
  match label_of w move with Some l => happen reg pool w l | None => Panic "not enabled" end.

Lemma label_enabled w move l : label_of w move = Some l -> enabled reg w l.
Proof using Hs.
  destruct move; simpl.
  - case_decide; [|done]. by intros [= <-].
  - by intros [= <-].
  - destruct (w_asks w !! ask) as [[i q]|] eqn:E; [|done]. intros [= <-]. left. by eapply list_elem_of_lookup_2.
  - destruct (ms_members s); [done|]. by intros [= <-].
  - by intros [= <-].
  - by intros [= <-].
  - destruct (w_net w !! sent) as [reply|] eqn:E; [|done].
    destruct (w_camps w !! _) as [[s' [k| |]]|] eqn:Ec; try done.
    destruct (rp_outcome reply) as [page| |] eqn:Eo; try done. case_decide; [|done]. intros [= <-].
    split; [by eapply list_elem_of_lookup_2|]. intros s0 k0 page0. rewrite Ec, Eo. by intros [= <- <-] [= <-].
Qed.

Lemma play_reachable moves w w' :
  match_reachable reg pool w -> foldM play w moves = Done w' -> match_reachable reg pool w'.
Proof using Hs.
  revert w. induction moves as [|move moves IH]; intros w Hw; simpl; [by intros [= <-]|].
  intros (w1 & E1 & E)%bind_Done_inv. eapply IH; [|exact E]. unfold play in E1.
  destruct (label_of w move) as [l|] eqn:El; [|done]. eapply reach_step; [done|by eapply label_enabled|done].
Qed.
End demo.

(** Three matchmakers; round 1 believes in three nodes, round 2 reconfigures to
    two of them, later rounds believe in those two. *)
Definition demo_config (members : list NodeId) : Config := mkConfig members Majority [] 0 0 0.
Definition demo_reg (j : JournalId) (b : Ballot) : Registration :=
  if decide (round b = 2) then mkReg (demo_config [0; 1]) Reconfiguration
  else if decide (round b = 1) then mkReg (demo_config [0; 1; 2]) Belief
  else mkReg (demo_config [0; 1]) Belief.
Definition demo_pool : list NodeId := [0; 1; 2].
Definition demo_set : MatchmakerSet := mkSet 0 [0; 1; 2].
Definition demo_node (i : MatchmakerId) : Node :=
  let disk := registry_new hard_default ∅ in
  match matchmaker_new (mkMatchmakerConfig i [0; 1; 2]) disk limits_default with
  | Done m => mkNode m disk
  | Panic _ => mkNode (fresh_matchmaker i [] limits_default) disk
  end.
Definition demo_start : World := mkWorld demo_node [] [] ∅.

(** A first leader at matchmakers 0 and 1; a reconfiguration at 1 and 2, the
    first restarted in between; garbage collection; a third leader at 0 and 2. *)
Definition demo_moves : list Move :=
  [MOpen (mkBallot 1 0); MAsk (mkBallot 1 0); MDeliver 0; MDeliver 1; MDrain 0; MDrain 1; MReply 0; MReply 1;
   MRestart 1; MOpen (mkBallot 2 1); MAsk (mkBallot 2 1); MDeliver 4; MDeliver 5; MDrain 1; MDrain 2; MReply 2; MReply 3;
   MGc (mkBallot 1 1); MOpen (mkBallot 3 0); MAsk (mkBallot 3 0); MDeliver 6; MDeliver 8; MDrain 0; MDrain 2;
   MReply 4; MReply 5].

Lemma demo_set_wf : set_wf demo_set.
Proof. apply set_wf_alt. split_and!; [by apply (bool_decide_unpack _); vm_compute|done|by vm_compute]. Qed.
Lemma demo_pool_sorted : sorted_members demo_pool.
Proof. by apply (bool_decide_unpack _); vm_compute. Qed.

Lemma demo_initial : initial demo_reg demo_start.
Proof.
  split; [|done]. intros i. simpl. unfold demo_node.
  destruct (fresh_boot demo_reg i [0; 1; 2] limits_default demo_set_wf limits_default_valid)
    as (m & -> & Er & Ec & _ & _ & _ & Hsv). simpl. by rewrite Ec.
Qed.

Definition leads w (b : Ballot) : option (list Config * Ballot) :=
  match w_camps w !! (0, b) with
  | Some (mkCandidacy _ (Leading _ _ _ prior watermark)) => Some (prior, watermark)
  | _ => None
  end.
Definition demo_end : run World := foldM (play demo_reg demo_pool demo_set) demo_start demo_moves.

(** The end of the run: three leaders. *)
Lemma demo_reached : exists w k1 k2 k3,
  match_reachable demo_reg demo_pool w /\
  w_camps w !! (0, mkBallot 1 0) = Some (mkCandidacy demo_set (Leading k1 zero None [] zero)) /\
  w_camps w !! (0, mkBallot 2 1) =
    Some (mkCandidacy demo_set (Leading k2 zero None [demo_config [0; 1; 2]] zero)) /\
  w_camps w !! (0, mkBallot 3 0) =
    Some (mkCandidacy demo_set (Leading k3 zero None [demo_config [0; 1]] (mkBallot 1 1))).
Proof.
  destruct demo_end as [w|msg] eqn:E; [|by vm_compute in E].
  assert (match_reachable demo_reg demo_pool w) as Hw
    by (eapply play_reachable; [apply demo_set_wf|apply reach_initial, demo_initial|exact E]).
  vm_compute in E. injection E as E. exists w. subst w. do 3 eexists. split; [exact Hw|].
  split_and!; vm_compute; reflexivity.
Qed.

(** ** Theorems *)

Section theorems.
Context (reg : JournalId -> Ballot -> Registration) (pool : list NodeId) (Hpool : sorted_members pool).

Lemma majorities_share mem dur w j b0 b s stage0 stage k0 k :
  match_inv reg mem dur w ->
  w_camps w !! (j, b0) = Some (mkCandidacy s stage0) -> stage_phase stage0 = Some k0 ->
  w_camps w !! (j, b) = Some (mkCandidacy s stage) -> stage_phase stage = Some k ->
  set_majority s (mk_registered_by k0) -> set_majority s (mk_registered_by k) ->
  camp_ok reg dur j b s k /\ exists i, i ∈ mk_registered_by k /\ dur i (ms_generation s) j b0.
Proof using.
  intros Hinv E0 Ek0 E Ek Hm0 Hm.
  pose proof (iv_camps _ _ _ _ Hinv j b0 _ k0 E0 Ek0) as Hok0. pose proof (iv_camps _ _ _ _ Hinv j b _ k E Ek) as Hok.
  simpl in *. split; [done|].
  destruct (set_majorities_meet s (co_set _ _ _ _ _ _ Hok) _ _ Hm0 Hm) as (i & _ & Hi0 & Hi).
  exists i. split; [done|]. apply (co_known _ _ _ _ _ _ Hok0). by left.
Qed.

(** The prior configurations of a completed campaign: everything a lower completed
    campaign registered and that was not collected, and registered configurations
    only. *)
Lemma leading_prior w j b0 b s k0 f0 h0 p0 wm0 k floor honored prior watermark :
  match_reachable reg pool w ->
  w_camps w !! (j, b0) = Some (mkCandidacy s (Leading k0 f0 h0 p0 wm0)) ->
  w_camps w !! (j, b) = Some (mkCandidacy s (Leading k floor honored prior watermark)) ->
  ((b0 < b)%B -> rg_config (reg j b0) ∈ prior \/ (b0 < watermark)%B) /\
  (forall c, c ∈ prior -> exists b1, c = rg_config (reg j b1)).
Proof using Hpool.
  intros Hr E0 E. destruct (match_reachable_inv reg pool Hpool w Hr) as (mem & dur & Hinv).
  destruct (iv_lead _ _ _ _ Hinv _ _ E0) as (Hm0 & _). destruct (iv_lead _ _ _ _ Hinv _ _ E) as (Hm & -> & -> & _).
  destruct (majorities_share mem dur w j b0 b s _ _ k0 k Hinv E0 eq_refl E eq_refl Hm0 Hm) as (Hok & i & Hi & Hd). split.
  - intros Hlt. apply seen_prior.
    destruct (co_covers _ _ _ _ _ _ Hok i (or_introl Hi) b0 Hd Hlt) as [?|(n & b1 & Hn & _)]; [done|].
    exfalso. eapply (kw_disjoint _ (co_wf _ _ _ _ _ _ Hok)); [by eexists|done].
  - intros c (b1 & cs & Hh & _ & Hc)%elem_of_prior_of. exists b1. rewrite (co_owned _ _ _ _ _ _ Hok _ _ Hh) in Hc.
    by apply list_elem_of_singleton in Hc.
Qed.

Lemma leading_prior_once w j b s k floor honored prior watermark :
  match_reachable reg pool w ->
  w_camps w !! (j, b) = Some (mkCandidacy s (Leading k floor honored prior watermark)) -> NoDup prior.
Proof using Hpool.
  intros Hr E. destruct (match_reachable_inv reg pool Hpool w Hr) as (mem & dur & Hinv).
  destruct (iv_lead _ _ _ _ Hinv _ _ E) as (_ & -> & _). apply union_of_spec.
Qed.

(** C8: [H_b] is complete.  In every reachable state, when two campaigns of a
    journal have completed at the same matchmaker set, the prior configurations
    the higher one's Phase 1 opened with name the lower one's configuration,
    unless the garbage-collection watermark it opened with is above the lower
    ballot.  Crashes, restarts, lost and repeated messages, paged histories,
    elided records and collections in between do not matter. *)
Theorem matchmaking_covers w j b0 b s k0 f0 h0 p0 wm0 k floor honored prior watermark :
  match_reachable reg pool w ->
  w_camps w !! (j, b0) = Some (mkCandidacy s (Leading k0 f0 h0 p0 wm0)) ->
  w_camps w !! (j, b) = Some (mkCandidacy s (Leading k floor honored prior watermark)) ->
  (b0 < b)%B ->
  rg_config (reg j b0) ∈ prior \/ (b0 < watermark)%B.
Proof using Hpool.
  intros Hr E0 E Hlt. by apply (leading_prior w j b0 b s k0 f0 h0 p0 wm0 k floor honored prior watermark).
Qed.

(** C9: a completed reconfiguration is never missed.  A campaign that completes
    at a higher ballot at the same matchmaker set as a completed reconfiguration
    knows an effective configuration at least as new, registered as a
    reconfiguration; and if it is no reconfiguration itself, it runs under that
    configuration, unless a leadership the node knows won is above it under
    another one. *)
Theorem reconfiguration_honored w j b0 b s k0 f0 h0 p0 wm0 k floor honored prior watermark :
  match_reachable reg pool w ->
  w_camps w !! (j, b0) = Some (mkCandidacy s (Leading k0 f0 h0 p0 wm0)) ->
  w_camps w !! (j, b) = Some (mkCandidacy s (Leading k floor honored prior watermark)) ->
  (b0 < b)%B -> rg_kind (reg j b0) = Reconfiguration ->
  exists b1 c, mk_effective k = Some (b1, c) /\ (b0 ≤ b1)%B /\ reg j b1 = mkReg c Reconfiguration /\
    (rg_kind (reg j b) = Reconfiguration \/ rg_config (reg j b) = c \/ (b1 ≤ floor)%B /\ honored <> Some c).
Proof using Hpool.
  intros Hr E0 E Hlt Hk. destruct (match_reachable_inv reg pool Hpool w Hr) as (mem & dur & Hinv).
  destruct (iv_lead _ _ _ _ Hinv _ _ E0) as (Hm0 & _). destruct (iv_lead _ _ _ _ Hinv _ _ E) as (Hm & _ & _ & Hbind).
  destruct (majorities_share mem dur w j b0 b s _ _ k0 k Hinv E0 eq_refl E eq_refl Hm0 Hm) as (Hok & i & Hi & Hd).
  pose proof (co_reconfigured _ _ _ _ _ _ Hok i (or_introl Hi) b0 Hd Hlt Hk) as Heff.
  destruct (mk_effective k) as [[b1 c]|] eqn:Ee; [|done]. exists b1, c. split_and!; [done|done| |].
  - by apply (co_effective _ _ _ _ _ _ Hok).
  - rewrite <-(co_registers _ _ _ _ _ _ Hok). simpl. unfold stale_of in Hbind. rewrite Ee in Hbind.
    destruct (mk_kind k); [right|by left]. cbn [is_reconfiguration] in Hbind.
    case_decide as Ec; [by left|right]. unfold binding in Hbind. case_decide as Hb; [done|].
    split; [apply ord_not_lt|]; tauto.
Qed.

End theorems.

Lemma matchmaking_covers_witness :
  demo_config [0; 1; 2] ∈ [demo_config [0; 1; 2]] \/ (mkBallot 1 0 < zero)%B.
Proof.
  destruct demo_reached as (w & k1 & k2 & k3 & Hr & E1 & E2 & _).
  exact (matchmaking_covers demo_reg demo_pool demo_pool_sorted w 0 (mkBallot 1 0) (mkBallot 2 1) demo_set
           k1 zero None [] zero k2 zero None _ zero Hr E1 E2 ltac:(by apply (bool_decide_unpack _); vm_compute)).
Defined.

Lemma reconfiguration_honored_witness :
  exists b1 c, (mkBallot 2 1 ≤ b1)%B /\ demo_reg 0 b1 = mkReg c Reconfiguration.
Proof.
  destruct demo_reached as (w & k1 & k2 & k3 & Hr & _ & E2 & E3).
  destruct (reconfiguration_honored demo_reg demo_pool demo_pool_sorted w 0 (mkBallot 2 1) (mkBallot 3 0) demo_set
           k2 zero None _ zero k3 zero None _ _ Hr E2 E3 ltac:(by apply (bool_decide_unpack _); vm_compute) eq_refl)
    as (b1 & c & _ & H1 & H2 & _). by exists b1, c.
Defined.

