(* ===== verification/Collector.v ===== *)
(** * Garbage collection of configurations ([collector.rs], [node/gc.rs])

    A leader may have the matchmakers forget every configuration registered below
    its ballot once the chosen prefix is held by a Phase-2 quorum of its own
    configuration, and calls the floor effective only when a matchmaker quorum
    holds it.  The first part is the tally, the second the wiring around it on one
    leadership; the third runs them with acceptors, matchmakers and a network, and
    shows the forgettability condition ([gc_effective_safe]). *)

From stdpp Require Import functions.
From S2P Require Import Prelude BTree Types QuorumSystem AcceptorConfig MatchmakerSet MatchmakerState Matchmaker.

(** ** The tally *)

Inductive GcStep :=
| GcIgnored
| GcAcked (remaining : N)
| GcFrozen (generation : MatchmakerGeneration)
| GcEffective (watermark : Ballot) (retired : list NodeId).

Record Collector := mkCollector {
  gc_generation : MatchmakerGeneration;
  gc_fence : option Slot;
  gc_prior_members : gset NodeId;
  gc_prior : list Config;
  gc_peer_chosen : gmap NodeId Slot;
  gc_requested : bool;
  gc_acked_by : gset MatchmakerId;
  gc_effective : option (Ballot * list NodeId) }.

Implicit Types (c : Collector) (config : Config).

Definition collector_assert_invariants c : run unit :=
  (if decide (is_Some (gc_effective c)) then
     rassert (gc_requested c = true) "an effective floor was requested first" else mret tt);;
  (if gc_requested c then mret tt else rassert (gc_acked_by c = ∅) "no ack is counted before the requests");;
  match gc_effective c with
  | Some (_, retired) =>
      rassert (Forall (fun n => n ∈ gc_prior_members c) retired) "a floor retires only members of H_b"
  | None => mret tt
  end.

(** [Vec::contains] then [push]. *)
Definition keep_once (kept : list Config) config : list Config :=
  if decide (config ∈ kept) then kept else kept ++ [config].

Definition collector_new (generation : MatchmakerGeneration) (fence : option Slot) (prior : list Config) : run Collector :=
  let c := mkCollector generation fence (list_to_set (prior ≫= c_members)) (foldl keep_once [] prior) ∅ false ∅ None in
  rassert (Forall (fun config => Forall (fun m => m ∈ gc_prior_members c) (c_members config)) prior)
    "the retirement pool names every member of H_b";;
  rassert (gc_peer_chosen c = ∅) "a fresh campaign has heard no peer";;
  collector_assert_invariants c;;
  mret c.

Definition collector_prior c : run (list Config) :=
  rassert (Forall (fun config => Forall (fun m => m ∈ gc_prior_members c) (c_members config)) (gc_prior c))
    "every prior configuration's members are in the retirement pool";;
  mret (gc_prior c).

Definition collector_effective c : run (option (Ballot * list NodeId)) :=
  (if decide (is_Some (gc_effective c)) then
     rassert (gc_requested c = true) "an effective floor was requested first";;
     rassert (gc_acked_by c <> ∅) "an effective floor was acked"
   else mret tt);;
  mret (gc_effective c).

Definition collector_unacked c (matchmakers : MatchmakerSet) : list MatchmakerId :=
  set_unanswered matchmakers (gc_acked_by c).

Definition collector_request c : run Collector :=
  rassert (gc_requested c = false) "the GC requests go out once per generation";;
  rassert (gc_effective c = None) "an effective floor is never re-requested";;
  mret (mkCollector (gc_generation c) (gc_fence c) (gc_prior_members c) (gc_prior c) (gc_peer_chosen c) true
          (gc_acked_by c) (gc_effective c)).

Definition reset_for_generation c (generation : MatchmakerGeneration) : run Collector :=
  let c :=
    if decide (gc_effective c = None /\ gc_generation c <> generation) then
      mkCollector generation (gc_fence c) (gc_prior_members c) (gc_prior c) (gc_peer_chosen c) false ∅ (gc_effective c)
    else c in
  (if decide (gc_effective c = None) then
     rassert (gc_generation c = generation) "an open GC tally follows the generation" else mret tt);;
  collector_assert_invariants c;;
  mret c.

Definition note_chosen c (from : NodeId) (chosen : option Slot) : run Collector :=
  let before := gc_peer_chosen c !! from in
  c ← match chosen with
      | Some chosen =>
          let entry := N.max (default chosen (gc_peer_chosen c !! from)) chosen in
          let c := mkCollector (gc_generation c) (gc_fence c) (gc_prior_members c) (gc_prior c)
                     (<[from := entry]> (gc_peer_chosen c)) (gc_requested c) (gc_acked_by c) (gc_effective c) in
          rassert (chosen <= entry) "a peer's chosen index covers its latest report";;
          mret c
      | None => mret c
      end;
  rassert (ord_le before (gc_peer_chosen c !! from)) "a peer's tallied chosen index never decreases";;
  mret c.

(** [reached]: at or past the fence. *)
Definition reached (fence chosen : option Slot) : Prop :=
  match fence with None => True | Some fence => is_some_and (fun index => fence <= index) chosen end.

#[export] Instance reached_dec fence chosen : Decision (reached fence chosen).
Proof. destruct fence; simpl; apply _. Defined.

(** Region 1 is held. *)
Definition collector_covered c config (own : option (NodeId * option Slot)) : run bool :=
  let me := fst <$> own in
  (match me with
   | Some id =>
       member ← config_contains config id;
       rassert (member = true) "the local half is counted only for a member"
   | None => mret tt
   end);;
  let mine : gset NodeId :=
    match own with
    | Some (id, chosen) => if decide (reached (gc_fence c) chosen) then {[ id ]} else ∅
    | None => ∅
    end in
  let holders := mine ∪ list_to_set
    (filter (fun m => Some m <> me /\ reached (gc_fence c) (gc_peer_chosen c !! m)) (c_members config)) in
  ok ← allM (config_contains config) (bs_elements holders);
  rassert (ok = true) "only members of the configuration count toward Region 1";;
  has_phase2_quorum config holders.

(** [Iterator::filter] with a predicate that may panic. *)
Fixpoint filterM {A} (f : A -> run bool) (l : list A) : run (list A) :=
  match l with
  | [] => mret []
  | a :: l =>
      keep ← f a;
      rest ← filterM f l;
      mret (if keep : bool then a :: rest else rest)
  end.

Definition fold_ack c (ack : GcAck) (matchmakers : MatchmakerSet) (ballot : Ballot) config : run (Collector * GcStep) :=
  let generation := ms_generation matchmakers in
  if decide (gc_requested c = false \/ is_Some (gc_effective c) \/ ga_generation ack <> generation \/
             gc_generation c <> generation) then mret (c, GcIgnored) else
  if decide (ga_watermark ack < ballot)%B then mret (c, GcIgnored) else
  if decide (ga_matchmaker ack ∈ gc_acked_by c) then mret (c, GcIgnored) else
  let c := mkCollector (gc_generation c) (gc_fence c) (gc_prior_members c) (gc_prior c) (gc_peer_chosen c) (gc_requested c)
             ({[ ga_matchmaker ack ]} ∪ gc_acked_by c) (gc_effective c) in
  quorum ← set_has_quorum matchmakers (gc_acked_by c);
  if decide (quorum = false) then
    remaining ← set_remaining matchmakers (gc_acked_by c);
    mret (c, GcAcked remaining)
  else
    retired ← filterM (fun n => member ← config_contains config n; mret (negb member)) (bs_elements (gc_prior_members c));
    rassert (Forall (fun m => m ∉ retired) (c_members config)) "a floor never retires a member of the configuration in force";;
    rassert (ballot ≤ ga_watermark ack)%B "an effective floor rests on acks at or above the ballot";;
    let c := mkCollector (gc_generation c) (gc_fence c) (gc_prior_members c) (gc_prior c) (gc_peer_chosen c) (gc_requested c)
               (gc_acked_by c) (Some (ballot, retired)) in
    collector_assert_invariants c;;
    mret (c, GcEffective ballot retired).

(** ** The wiring ([node/gc.rs])

    The fields of a node the collection reads and writes.  [gn_deployment] is the
    configuration's matchmaker list, [gn_settled] is that neither a recovery nor a
    repair probe is open, [gn_chosen] the replica's chosen index. *)

Record GcNode := mkGcNode {
  gn_id : NodeId;
  gn_journal : JournalId;
  gn_deployment : list MatchmakerId;
  gn_matchmaker_pool : list MatchmakerId;
  gn_pool : list NodeId;
  gn_leads : bool;
  gn_ballot : Ballot;
  gn_acceptors : Config;
  gn_since : Ballot;
  gn_last_member : Ballot;
  gn_matchmakers : option MatchmakerSet;
  gn_settled : bool;
  gn_chosen : option Slot;
  gn_gc : option Collector;
  gn_requests : list (MatchmakerId * GcRequest) }.

Implicit Types n : GcNode.

Definition with_gc n (gc : option Collector) : GcNode :=
  mkGcNode (gn_id n) (gn_journal n) (gn_deployment n) (gn_matchmaker_pool n) (gn_pool n) (gn_leads n) (gn_ballot n)
    (gn_acceptors n) (gn_since n) (gn_last_member n) (gn_matchmakers n) (gn_settled n) (gn_chosen n) gc (gn_requests n).
Definition with_requests n requests : GcNode :=
  mkGcNode (gn_id n) (gn_journal n) (gn_deployment n) (gn_matchmaker_pool n) (gn_pool n) (gn_leads n) (gn_ballot n)
    (gn_acceptors n) (gn_since n) (gn_last_member n) (gn_matchmakers n) (gn_settled n) (gn_chosen n) (gn_gc n) requests.
Definition with_matchmakers n matchmakers : GcNode :=
  mkGcNode (gn_id n) (gn_journal n) (gn_deployment n) (gn_matchmaker_pool n) (gn_pool n) (gn_leads n) (gn_ballot n)
    (gn_acceptors n) (gn_since n) (gn_last_member n) matchmakers (gn_settled n) (gn_chosen n) (gn_gc n) (gn_requests n).

Definition has_matchmakers n : Prop := gn_deployment n <> [].

#[export] Instance has_matchmakers_dec n : Decision (has_matchmakers n).
Proof. unfold has_matchmakers. apply _. Defined.

(** [in_pool], [is_acceptor]. *)
Definition in_pool n (node : NodeId) : run bool :=
  let pooled := bool_decide (is_Some (position (gn_pool n) node)) in
  member ← config_contains (gn_acceptors n) node;
  (if member : bool then rassert (pooled = true) "a member of the configuration in force is pooled" else mret tt);;
  mret pooled.
Definition is_acceptor n : run bool :=
  member ← config_contains (gn_acceptors n) (gn_id n);
  (if member : bool then
     pooled ← in_pool n (gn_id n);
     rassert (pooled = true) "a member of the configuration is pooled"
   else mret tt);;
  (if decide (has_matchmakers n) then mret tt else
     rassert (member = true) "a plain deployment's node is always a member");;
  mret member.

Definition deployment_matchmakers n : run MatchmakerSet :=
  rassert (has_matchmakers n) "the matchmaker plane runs only on a matchmaker deployment";;
  rexpect (gn_matchmakers n) "the matchmaker plane runs only on a matchmaker deployment".

(** [is_some_and] with the collector's own assertions. *)
Definition gc_pending n : run bool :=
  if gn_leads n then
    match gn_gc n with
    | Some gc =>
        if gc_requested gc then
          effective ← collector_effective gc;
          mret (bool_decide (effective = None))
        else mret false
    | None => mret false
    end
  else mret false.

Definition gc_covered n : run bool :=
  match gn_gc n with
  | None => mret false
  | Some gc =>
      if gn_settled n then
        rassert (gn_leads n = true) "only a leader judges the forgettability condition";;
        member ← is_acceptor n;
        collector_covered gc (gn_acceptors n) (if member : bool then Some (gn_id n, gn_chosen n) else None)
      else mret false
  end.

Definition queue_gc_requests n : run GcNode :=
  match gn_gc n with
  | None => mret n
  | Some gc =>
      rassert (gc_requested gc = true) "requests are queued only once the campaign asked";;
      effective ← collector_effective gc;
      rassert (effective = None) "an effective floor needs no request";;
      matchmakers ← deployment_matchmakers n;
      let request := mkGcRequest (gn_id n) (gn_journal n) (ms_generation matchmakers) (gn_ballot n) in
      let targets := collector_unacked gc matchmakers in
      ok ← allM (set_contains matchmakers) targets;
      rassert (ok = true) "a GC request addresses only the current generation's matchmakers";;
      mret (with_requests n (gn_requests n ++ ((fun matchmaker => (matchmaker, request)) <$> targets)))
  end.

Definition try_gc n : run GcNode :=
  if decide (gn_leads n = false \/ ~ has_matchmakers n) then mret n else
  match gn_gc n with
  | None => mret n
  | Some gc =>
      if gc_requested gc then mret n else
      held ← gc_covered n;
      if negb held then mret n else
      gc ← collector_request gc;
      n ← queue_gc_requests (with_gc n (Some gc));
      pending ← gc_pending n;
      rassert (pending = true) "a covered campaign leaves a GC request pending";;
      mret n
  end.

Definition open_gc n (fence : option Slot) (prior : list Config) : run GcNode :=
  rassert (gn_leads n = true) "a GC campaign opens on a leader";;
  rassert (has_matchmakers n) "only a matchmaker deployment collects configurations";;
  matchmakers ← deployment_matchmakers n;
  gc ← collector_new (ms_generation matchmakers) fence prior;
  try_gc (with_gc n (Some gc)).

Definition note_peer_chosen n (from : NodeId) (chosen : option Slot) : run GcNode :=
  match gn_gc n with
  | None => mret n
  | Some gc =>
      gc ← note_chosen gc from chosen;
      try_gc (with_gc n (Some gc))
  end.

Definition resend_gc n : run GcNode :=
  pending ← gc_pending n;
  if negb pending then mret n else
  let queued := len (gn_requests n) in
  n ← queue_gc_requests n;
  rassert (queued <= len (gn_requests n)) "a GC re-send never drops a queued request";;
  mret n.

Definition reset_gc_for_generation n : run GcNode :=
  matchmakers ← deployment_matchmakers n;
  rassert (has_matchmakers n) "only a matchmaker deployment has generations";;
  gc ← match gn_gc n with
       | Some gc => gc ← reset_for_generation gc (ms_generation matchmakers); mret (Some gc)
       | None => mret None
       end;
  try_gc (with_gc n gc).

(** [learn_matchmakers] on a leader, which holds neither a membership probe nor an
    open matchmaking. *)
Definition learn_matchmakers n (set : MatchmakerSet) : run (GcNode * bool) :=
  match gn_matchmakers n with
  | None => mret (n, false)
  | Some believed =>
      if decide (ms_generation set <= ms_generation believed) then mret (n, false) else
      members ← set_members set;
      if decide (Forall (fun m => is_Some (position (gn_matchmaker_pool n) m)) members) then
        n ← reset_gc_for_generation (with_matchmakers n (Some set));
        rassert (is_some_and (fun m => ms_generation m = ms_generation set) (gn_matchmakers n))
          "a learned set is the believed generation";;
        mret (n, true)
      else mret (n, false)
  end.

Definition gc_effective_floor n : run (option (Ballot * list NodeId)) :=
  effective ← match gn_gc n with Some gc => collector_effective gc | None => mret None end;
  (if decide (is_Some effective) then rassert (has_matchmakers n) "only a matchmaker deployment collects" else mret tt);;
  mret effective.

Definition configs_in_force n : run (option (list Config * Config)) :=
  if gn_leads n then
    let current := gn_acceptors n in
    prior ← match gn_gc n with
            | Some gc =>
                effective ← collector_effective gc;
                if decide (effective = None) then
                  prior ← collector_prior gc;
                  mret (filter (fun config => config <> current) prior)
                else mret []
            | None => mret []
            end;
    rassert (Forall (fun config => config <> current) prior) "the configuration in force is never its own prior";;
    (if decide (has_matchmakers n) then mret tt else
       rassert (prior = []) "a plain deployment has no prior configuration");;
    mret (Some (prior, current))
  else mret None.

(** The refusal of a stopped generation teaches its successor. *)
Definition learn_from_refusal n (ack : GcAck) : run (GcNode * bool) :=
  match ga_newer ack with
  | Some newer =>
      if decide (ga_applied ack = false /\ ga_generation ack < ms_generation newer) then
        '(n, learned) ← learn_matchmakers n newer;
        (if learned : bool then
           rassert (is_some_and (fun m => ms_generation m = ms_generation newer) (gn_matchmakers n))
             "a taught successor is believed"
         else mret tt);;
        mret (n, learned)
      else mret (n, false)
  | None => mret (n, false)
  end.

Definition on_gc_ack n (ack : GcAck) : run (GcNode * GcStep) :=
  match gn_matchmakers n with
  | None => mret (n, GcIgnored)
  | Some believed =>
      if negb (gn_leads n) then mret (n, GcIgnored) else
      member ← set_contains believed (ga_matchmaker ack);
      if decide (member = false \/ ga_journal ack <> gn_journal n) then mret (n, GcIgnored) else
      '(n, taught) ← learn_from_refusal n ack;
      if taught : bool then mret (n, GcIgnored) else
      if decide (ga_applied ack = false /\ ga_stopped ack = true) then
        rassert (ga_newer ack = None) "a frozen generation names no successor";;
        if decide (is_some_and (fun set => ms_generation set = ga_generation ack) (gn_matchmakers n)) then
          mret (n, GcFrozen (ga_generation ack))
        else mret (n, GcIgnored)
      else
        match gn_matchmakers n, gn_gc n with
        | Some matchmakers, Some gc =>
            '(gc, step) ← fold_ack gc ack matchmakers (gn_ballot n) (gn_acceptors n);
            let n := with_gc n (Some gc) in
            (match step with
             | GcEffective _ retired =>
                 if decide (gn_id n ∈ retired) then
                   member ← config_contains (gn_acceptors n) (gn_id n);
                   rassert (member = false) "a leader inside its configuration is never retired"
                 else mret tt
             | _ => mret tt
             end);;
            mret (n, step)
        | _, _ => mret (n, GcIgnored)
        end
  end.

Definition may_retire n (watermark : Ballot) : run bool :=
  may ← (if decide (has_matchmakers n) then
           member ← is_acceptor n;
           mret (negb member && negb (gn_leads n) && bool_decide (gn_last_member n < watermark)%B &&
                 bool_decide (gn_since n = watermark))
         else mret false);
  (if may : bool then
     member ← config_contains (gn_acceptors n) (gn_id n);
     rassert (member = false) "a retirable node is no member";;
     rassert (gn_leads n = false) "a leader is never retirable"
   else mret tt);;
  mret may.

(** ** The invariant of one leadership's collection

    [floors] is the floor each matchmaker holds for the journal, [chosen] each
    acceptor's chosen index, [believed] the matchmaker sets the leader believed. *)

Lemma filterM_ok {A} (f : A -> run bool) (P : A -> Prop) `{forall a, Decision (P a)} (l : list A) :
  (forall a, a ∈ l -> f a = Done (bool_decide (P a))) -> filterM f l = Done (filter P l).
Proof.
  induction l as [|a l IH]; intros Hf; [done|]. cbn [filterM]. rewrite Hf by (by left). rsimpl.
  rewrite IH by (intros; apply Hf; by right). rsimpl. rewrite filter_cons.
  destruct (decide (P a)); [by rewrite bool_decide_eq_true_2|by rewrite bool_decide_eq_false_2].
Qed.

Definition retirable c config : list NodeId := filter (fun m => m ∉ c_members config) (bs_elements (gc_prior_members c)).

Section collection.
Context (floors : MatchmakerId -> Ballot) (chosen : NodeId -> option Slot) (believed : list MatchmakerSet).

(** Region 1: a Phase-2 quorum holds the prefix up to the fence. *)
Definition fence_held config (fence : option Slot) : Prop :=
  exists holders : gset NodeId, phase2_holds (c_quorum_system config) (c_members config) holders None /\
    forall m, m ∈ holders -> reached fence (chosen m).

Record collector_ok config (ballot : Ballot) (generation : MatchmakerGeneration) c : Prop := {
  ck_peers : forall m s, gc_peer_chosen c !! m = Some s -> ord_le (Some s) (chosen m);
  ck_acked : forall i, i ∈ gc_acked_by c -> (ballot ≤ floors i)%B;
  ck_silent : gc_requested c = false -> gc_acked_by c = ∅ /\ gc_effective c = None;
  ck_asked : gc_requested c = true -> fence_held config (gc_fence c);
  ck_open : gc_effective c = None -> gc_generation c = generation;
  ck_effective : forall wm retired, gc_effective c = Some (wm, retired) ->
    wm = ballot /\ retired = retirable c config /\
    exists s, s ∈ believed /\ set_wf s /\ ms_generation s = gc_generation c /\ set_majority s (gc_acked_by c);
  ck_members : forall m, m ∈ gc_prior_members c <-> exists config, config ∈ gc_prior c /\ m ∈ c_members config }.

Lemma collector_assert_ok config ballot generation c :
  collector_ok config ballot generation c -> collector_assert_invariants c = Done tt.
Proof.
  intros [_ _ Hsil _ _ Heff _]. unfold collector_assert_invariants.
  destruct (gc_requested c) eqn:Er.
  - eapply bind_seq; [case_decide; [by apply rassert_true|done]|]. rsimpl.
    destruct (gc_effective c) as [[wm retired]|] eqn:Ee; [|done]. apply rassert_true.
    destruct (Heff wm retired eq_refl) as (_ & -> & _). apply Forall_forall. intros m.
    by intros [_ Hm%elem_of_bs_elements]%list_elem_of_filter.
  - destruct (Hsil eq_refl) as [Ha He]. rewrite He. rewrite decide_False by (by intros [? ?]). rsimpl.
    by rassert_by done.
Qed.

Lemma collector_effective_ok config ballot generation c :
  collector_ok config ballot generation c -> collector_effective c = Done (gc_effective c).
Proof.
  intros [_ _ Hsil _ _ Heff _]. unfold collector_effective. eapply bind_seq; [|done]. case_decide as He; [|done].
  destruct He as [[wm retired] He]. rassert_by idtac.
  { destruct (gc_requested c); [done|]. destruct (Hsil eq_refl). congruence. }
  apply rassert_true. destruct (Heff _ _ He) as (_ & _ & s & _ & _ & _ & Hq). by eapply set_majority_nonempty.
Qed.

Lemma collector_prior_ok config ballot generation c :
  collector_ok config ballot generation c -> collector_prior c = Done (gc_prior c).
Proof.
  intros [_ _ _ _ _ _ Hm]. unfold collector_prior. rassert_by idtac; [|done]. apply Forall_forall. intros x Hx.
  apply Forall_forall. intros m Hin. apply Hm. eauto.
Qed.

Lemma keep_once_elem prior kept config : config ∈ foldl keep_once kept prior <-> config ∈ kept \/ config ∈ prior.
Proof.
  revert kept. induction prior as [|x prior IH]; intros kept; cbn [foldl].
  - rewrite elem_of_nil. tauto.
  - rewrite IH. unfold keep_once. rewrite elem_of_cons. case_decide; [naive_solver|].
    rewrite elem_of_app, list_elem_of_singleton. tauto.
Qed.

Lemma collector_new_ok config ballot generation fence prior :
  exists c, collector_new generation fence prior = Done c /\ collector_ok config ballot generation c /\
    gc_requested c = false /\ gc_fence c = fence.
Proof.
  set (c := mkCollector generation fence (list_to_set (prior ≫= c_members)) (foldl keep_once [] prior) ∅ false ∅ None).
  assert (forall m, m ∈ gc_prior_members c <-> exists config, config ∈ gc_prior c /\ m ∈ c_members config) as Hm.
  { intros m. simpl. rewrite elem_of_list_to_set, list_elem_of_bind. setoid_rewrite keep_once_elem.
    setoid_rewrite elem_of_nil. naive_solver. }
  assert (collector_ok config ballot generation c) as Hc by (constructor; done).
  exists c. split; [|done]. unfold collector_new. fold c. rassert_by idtac.
  { apply Forall_forall. intros x Hx. apply Forall_forall. intros m Hin. apply Hm. exists x. split; [|done].
    apply keep_once_elem. by right. }
  rassert_by done. by rewrite (collector_assert_ok _ _ _ _ Hc).
Qed.

Lemma collector_request_ok config ballot generation c :
  collector_ok config ballot generation c -> gc_requested c = false -> fence_held config (gc_fence c) ->
  exists c', collector_request c = Done c' /\ collector_ok config ballot generation c' /\
    gc_requested c' = true /\ gc_effective c' = None.
Proof.
  intros [Hp Ha Hs Hr Ho He Hm] Hn Hf. destruct (Hs Hn) as [Ha0 He0]. unfold collector_request.
  rewrite rassert_true by done. rsimpl. rewrite rassert_true by done. rsimpl. eexists. split; [done|].
  split; [|done]. by constructor.
Qed.

Lemma reset_for_generation_ok config ballot generation generation' c :
  collector_ok config ballot generation c ->
  exists c', reset_for_generation c generation' = Done c' /\ collector_ok config ballot generation' c'.
Proof.
  intros Hc. pose proof Hc as [Hp Ha Hs Hr Ho He Hm]. unfold reset_for_generation.
  assert (exists c', (if decide (gc_effective c = None /\ gc_generation c <> generation') then
      mkCollector generation' (gc_fence c) (gc_prior_members c) (gc_prior c) (gc_peer_chosen c) false ∅ (gc_effective c)
    else c) = c' /\ collector_ok config ballot generation' c') as (c' & -> & Hc').
  { case_decide as Hd; eexists; (split; [done|]); constructor; try done; simpl.
    - intros _. split; [done|apply Hd].
    - intros wm retired E. destruct Hd. congruence.
    - intros He'. destruct (decide (gc_generation c = generation')); [done|]. tauto. }
  exists c'. split; [|done]. eapply bind_seq; [|by rewrite (collector_assert_ok _ _ _ _ Hc')].
  case_decide; [|done]. apply rassert_true. by apply Hc'.
Qed.

Lemma note_chosen_ok config ballot generation c from index :
  collector_ok config ballot generation c -> ord_le index (chosen from) ->
  exists c', note_chosen c from index = Done c' /\ collector_ok config ballot generation c' /\ gc_requested c' = gc_requested c.
Proof.
  intros Hc Hi. pose proof Hc as [Hp Ha Hs Hr Ho He Hm]. unfold note_chosen. destruct index as [i|].
  - rewrite (rassert_true (i <= _)) by lia. rsimpl. rewrite rassert_true.
    2: { simpl. rewrite lookup_insert_eq. destruct (gc_peer_chosen c !! from); [|done]. simpl. olia. }
    rsimpl. eexists. split; [done|]. split; [|done]. constructor; try done. simpl. intros m s.
    rewrite lookup_insert. case_decide as E; [|apply Hp]. subst. intros [= <-].
    destruct (gc_peer_chosen c !! m) as [old|] eqn:Em; simpl in *; [|by rewrite N.max_id].
    specialize (Hp _ _ Em). destruct (N.max_spec old i) as [[_ ->]|[_ ->]]; done.
  - rsimpl. rewrite rassert_true by reflexivity. rsimpl. by exists c.
Qed.

Lemma reached_mono fence a b : ord_le a b -> reached fence a -> reached fence b.
Proof. unfold reached. destruct fence, a, b; simpl; try done. intros H. ord_N. lia. Qed.

(** The tally of Region 1 counts only what the acceptors hold. *)
Lemma collector_covered_ok config ballot generation c own :
  collector_ok config ballot generation c -> config_wf config ->
  is_none_or (fun o => o.1 ∈ c_members config /\ o.2 = chosen o.1) own ->
  exists b, collector_covered c config own = Done b /\ (b = true -> fence_held config (gc_fence c)).
Proof.
  intros Hc Hwf Hown. unfold collector_covered. set (me := fst <$> own).
  assert ((match me with
   | Some id =>
       member ← config_contains config id;
       rassert (member = true) "the local half is counted only for a member"
   | None => mret tt
   end) = Done tt) as ->.
  { destruct own as [[id index]|]; [|done]. simpl. rewrite config_contains_ok by done. rsimpl.
    apply rassert_true, bool_decide_eq_true_2, Hown. }
  rsimpl. set (mine := match own with Some (id, chosen) => if decide (reached (gc_fence c) chosen) then {[ id ]} else ∅ | None => ∅ end : gset NodeId).
  set (holders := mine ∪ _).
  assert (forall m, m ∈ holders -> m ∈ c_members config /\ reached (gc_fence c) (chosen m)) as Hh.
  { intros m [Hm|Hm]%elem_of_union.
    - unfold mine in Hm. destruct own as [[id index]|]; [|by apply elem_of_empty in Hm]. simpl in Hown.
      destruct Hown as [Hin ->]. case_decide; [|by apply elem_of_empty in Hm]. by apply elem_of_singleton in Hm as ->.
    - apply elem_of_list_to_set, list_elem_of_filter in Hm as [[_ Hr] Hin]. split; [done|].
      destruct (gc_peer_chosen c !! m) as [i|] eqn:Em; [|by eapply (reached_mono _ None)].
      eapply reached_mono; [|done]. by apply (ck_peers _ _ _ _ Hc). }
  rewrite (allM_ok _ (fun m => m ∈ c_members config)) by (intros; by apply config_contains_ok). rsimpl.
  rewrite (rassert_true (_ = true)).
  2: { apply bool_decide_eq_true_2, Forall_forall. intros m Hm%elem_of_bs_elements. by apply Hh. }
  rsimpl. rewrite has_phase2_quorum_ok by done. eexists. split; [done|]. intros Hq%bool_decide_eq_true.
  exists holders. split; [done|]. intros m Hm. by apply Hh.
Qed.

Lemma fold_ack_ok config ballot s c ack :
  collector_ok config ballot (ms_generation s) c -> config_wf config -> set_wf s -> s ∈ believed ->
  (ga_watermark ack ≤ floors (ga_matchmaker ack))%B ->
  exists c' step, fold_ack c ack s ballot config = Done (c', step) /\ collector_ok config ballot (ms_generation s) c' /\
    (forall wm retired, step = GcEffective wm retired -> retired = retirable c config).
Proof.
  intros Hc Hwf Hs Hin Hack. pose proof Hc as [Hp Ha Hsil Hr Ho He Hm]. unfold fold_ack.
  case_decide as Hd; [by exists c, GcIgnored|]. case_decide as Hw; [by exists c, GcIgnored|]. apply ord_not_lt in Hw.
  case_decide as Hnew; [by exists c, GcIgnored|]. cbn [gc_acked_by gc_prior_members].
  assert (gc_requested c = true) as Hreq by (destruct (gc_requested c); [done|tauto]).
  assert (gc_effective c = None) as Hnone by (destruct (gc_effective c); [destruct Hd; eauto|done]).
  assert (gc_generation c = ms_generation s) as Hgen by by apply Ho.
  set (acked := {[ ga_matchmaker ack ]} ∪ gc_acked_by c).
  assert (forall i, i ∈ acked -> (ballot ≤ floors i)%B) as Hacked.
  { intros i [->%elem_of_singleton|Hi]%elem_of_union; [by eapply ord_le_trans|by apply Ha]. }
  rewrite set_has_quorum_ok by done. rsimpl. case_bool_decide as Hq.
  - rewrite decide_False by done.
    rewrite (filterM_ok _ (fun m => m ∉ c_members config)).
    2: { intros m _. rewrite config_contains_ok by done. rsimpl. unfold mret, run_ret. by rewrite bool_decide_not. }
    fold (retirable c config). rsimpl. rewrite (rassert_true (Forall _ _)).
    2: { apply Forall_forall. intros m Hmem [? _]%list_elem_of_filter. done. }
    rsimpl. rewrite (rassert_true (ballot ≤ _)%B) by done. rsimpl. set (c' := mkCollector _ _ _ _ _ _ _ _).
    assert (collector_ok config ballot (ms_generation s) c') as Hc'.
    { constructor; try done; simpl; [by rewrite Hreq|]. intros wm retired [= <- <-]. split; [done|]. split; [done|].
      by exists s. }
    rewrite (collector_assert_ok _ _ _ _ Hc'). rsimpl. eexists _, _. split; [done|]. split; [done|]. by intros ? ? [= <- <-].
  - rewrite decide_True by done. rewrite set_remaining_ok by done. rsimpl. eexists _, _. split; [done|]. split; [|done].
    constructor; try done; simpl; congruence.
Qed.

End collection.

(** *** The wiring under the invariant *)

Section wiring.
Context (floors : MatchmakerId -> Ballot) (chosen : NodeId -> option Slot) (believed : list MatchmakerSet).

Record gc_node_ok (s : MatchmakerSet) n : Prop := {
  gk_leads : gn_leads n = true;
  gk_deployed : has_matchmakers n;
  gk_config : config_wf (gn_acceptors n);
  gk_pooled : forall m, m ∈ c_members (gn_acceptors n) -> m ∈ gn_pool n;
  gk_chosen : gn_chosen n = chosen (gn_id n);
  gk_set : gn_matchmakers n = Some s /\ set_wf s /\ s ∈ believed;
  gk_gc : is_none_or (collector_ok floors chosen believed (gn_acceptors n) (gn_ballot n) (ms_generation s)) (gn_gc n) }.

Lemma with_gc_ok s n gc :
  gc_node_ok s n ->
  is_none_or (collector_ok floors chosen believed (gn_acceptors n) (gn_ballot n) (ms_generation s)) gc ->
  gc_node_ok s (with_gc n gc).
Proof. intros [] Hgc. by constructor. Qed.

Lemma with_requests_ok s n requests : gc_node_ok s n -> gc_node_ok s (with_requests n requests).
Proof. intros []. by constructor. Qed.

Lemma deployment_matchmakers_ok s n : gc_node_ok s n -> deployment_matchmakers n = Done s.
Proof. intros []. unfold deployment_matchmakers. rassert_by done. by destruct gk_set0 as [-> _]. Qed.

Lemma is_acceptor_ok s n : gc_node_ok s n -> is_acceptor n = Done (bool_decide (gn_id n ∈ c_members (gn_acceptors n))).
Proof.
  intros []. unfold is_acceptor, in_pool. rewrite config_contains_ok by done. rsimpl.
  eapply bind_seq; [|rewrite decide_True by done; done]. case_bool_decide as Hm; [|done].
  rewrite bool_decide_eq_true_2 by by apply position_Some, gk_pooled0. rewrite rassert_true by done. rsimpl. by rewrite rassert_true.
Qed.

Lemma gc_pending_ok s n :
  gc_node_ok s n ->
  gc_pending n = Done (bool_decide (is_some_and (fun gc => gc_requested gc = true /\ gc_effective gc = None) (gn_gc n))).
Proof.
  intros []. unfold gc_pending. rewrite gk_leads0. destruct (gn_gc n) as [gc|]; [|done]. simpl in *.
  destruct (gc_requested gc) eqn:Er; [|unfold mret, run_ret; by rewrite bool_decide_eq_false_2 by naive_solver].
  erewrite collector_effective_ok by done. rsimpl. unfold mret, run_ret. f_equal. apply bool_decide_ext. naive_solver.
Qed.

Lemma gc_covered_ok s n gc :
  gc_node_ok s n -> gn_gc n = Some gc ->
  exists b, gc_covered n = Done b /\ (b = true -> fence_held chosen (gn_acceptors n) (gc_fence gc)).
Proof.
  intros Hn Hgc. pose proof Hn as []. unfold gc_covered. rewrite Hgc in *. simpl in gk_gc0.
  destruct (gn_settled n); [|by exists false]. rewrite rassert_true by done. rsimpl.
  rewrite (is_acceptor_ok s) by done. rsimpl. eapply collector_covered_ok; [done..|]. case_bool_decide; [|done]. by split.
Qed.

Lemma queue_gc_requests_ok s n :
  gc_node_ok s n -> is_none_or (fun gc => gc_requested gc = true /\ gc_effective gc = None) (gn_gc n) ->
  exists requests, queue_gc_requests n = Done (with_requests n (gn_requests n ++ requests)).
Proof.
  intros Hn Hopen. pose proof Hn as []. unfold queue_gc_requests. destruct (gn_gc n) as [gc|] eqn:Eg; simpl in *.
  2: { exists []. rewrite app_nil_r. by destruct n. }
  destruct Hopen as [Hr He]. rewrite rassert_true by done. rsimpl. erewrite collector_effective_ok by done. rsimpl.
  rewrite rassert_true by done. rsimpl. rewrite (deployment_matchmakers_ok s) by done. rsimpl.
  destruct gk_set0 as (_ & Hs & _).
  rewrite (allM_ok _ (fun i => i ∈ ms_members s)) by (intros; by apply set_contains_ok). rsimpl.
  rewrite rassert_true.
  2: { apply bool_decide_eq_true_2, Forall_forall. by intros i [_ ?]%list_elem_of_filter. }
  rsimpl. eexists. done.
Qed.

Lemma try_gc_ok s n : gc_node_ok s n -> exists n', try_gc n = Done n' /\ gc_node_ok s n' /\ gn_matchmakers n' = gn_matchmakers n.
Proof.
  intros Hn. pose proof Hn as []. unfold try_gc. rewrite decide_False by (intros [?|?]; [congruence|done]).
  destruct (gn_gc n) as [gc|] eqn:Eg; [|by exists n]. simpl in gk_gc0.
  destruct (gc_requested gc) eqn:Er; [by exists n|].
  destruct (gc_covered_ok s n gc Hn Eg) as (b & -> & Hb). rsimpl. destruct b; [|by exists n]. cbn [negb].
  destruct (collector_request_ok _ _ _ _ _ _ _ gk_gc0 Er (Hb eq_refl)) as (gc' & -> & Hgc' & Er' & Ee'). rsimpl.
  assert (gc_node_ok s (with_gc n (Some gc'))) as Hn' by by apply with_gc_ok.
  destruct (queue_gc_requests_ok s (with_gc n (Some gc')) Hn') as [requests ->]; [done|]. rsimpl.
  assert (gc_node_ok s (with_requests (with_gc n (Some gc')) (gn_requests (with_gc n (Some gc')) ++ requests))) as Hn2
    by by apply with_requests_ok.
  rewrite (gc_pending_ok s) by done. rsimpl. rewrite rassert_true by by apply bool_decide_eq_true_2. rsimpl. eauto.
Qed.

Lemma open_gc_ok s n fence prior :
  gc_node_ok s n -> exists n', open_gc n fence prior = Done n' /\ gc_node_ok s n'.
Proof.
  intros Hn. unfold open_gc. rewrite rassert_true by apply Hn. rsimpl. rewrite rassert_true by apply Hn. rsimpl.
  rewrite (deployment_matchmakers_ok s) by done. rsimpl.
  destruct (collector_new_ok floors chosen believed (gn_acceptors n) (gn_ballot n) (ms_generation s) fence prior)
    as (gc & -> & Hgc & _). rsimpl.
  destruct (try_gc_ok s (with_gc n (Some gc))) as (n' & -> & Hn' & _); [by apply with_gc_ok|]. eauto.
Qed.

Lemma note_peer_chosen_ok s n from index :
  gc_node_ok s n -> ord_le index (chosen from) -> exists n', note_peer_chosen n from index = Done n' /\ gc_node_ok s n'.
Proof.
  intros Hn Hi. pose proof (gk_gc _ _ Hn) as Hgc. unfold note_peer_chosen. destruct (gn_gc n) as [gc|]; [|by exists n].
  destruct (note_chosen_ok _ _ _ _ _ _ _ _ _ Hgc Hi) as (gc' & -> & Hgc' & _). rsimpl.
  destruct (try_gc_ok s (with_gc n (Some gc'))) as (n' & -> & Hn' & _); [by apply with_gc_ok|]. eauto.
Qed.

Lemma resend_gc_ok s n : gc_node_ok s n -> exists n', resend_gc n = Done n' /\ gc_node_ok s n'.
Proof.
  intros Hn. unfold resend_gc. rewrite (gc_pending_ok s) by done. rsimpl. case_bool_decide as Hp; cbn [negb]; [|by exists n].
  destruct (queue_gc_requests_ok s n Hn) as [requests ->]; [by destruct (gn_gc n)|]. rsimpl.
  rewrite rassert_true by (simpl; unfold len; rewrite length_app; lia). rsimpl. eexists. split; [done|]. by apply with_requests_ok.
Qed.

Lemma reset_gc_for_generation_ok s s' n :
  gc_node_ok s n -> set_wf s' -> s' ∈ believed ->
  exists n', reset_gc_for_generation (with_matchmakers n (Some s')) = Done n' /\ gc_node_ok s' n' /\ gn_matchmakers n' = Some s'.
Proof.
  intros Hn Hs Hin. pose proof (gk_gc _ _ Hn) as Hgc. unfold reset_gc_for_generation, deployment_matchmakers.
  rewrite rassert_true by apply Hn. rsimpl. cbn [gn_matchmakers with_matchmakers rexpect]. rsimpl.
  rewrite rassert_true by apply Hn. rsimpl. cbn [gn_gc with_matchmakers].
  assert (exists gc, (match gn_gc n with
       | Some gc => gc ← reset_for_generation gc (ms_generation s'); mret (Some gc)
       | None => mret None
       end) = Done gc /\
    is_none_or (collector_ok floors chosen believed (gn_acceptors n) (gn_ballot n) (ms_generation s')) gc) as (gc & -> & Hgc').
  { destruct (gn_gc n) as [gc|]; [|by exists None]. simpl in Hgc.
    destruct (reset_for_generation_ok _ _ _ _ _ _ (ms_generation s') _ Hgc) as (gc' & -> & Hgc'). by exists (Some gc'). }
  rsimpl. destruct (try_gc_ok s' (with_gc (with_matchmakers n (Some s')) gc)) as (n' & -> & Hn' & Em).
  { destruct Hn. by constructor. }
  by exists n'.
Qed.
End wiring.

Lemma learn_matchmakers_ok floors chosen believed s n set :
  gc_node_ok floors chosen believed s n -> set_wf set -> set ∈ believed ->
  exists n' b, learn_matchmakers n set = Done (n', b) /\
    if b : bool then gc_node_ok floors chosen believed set n' else n' = n.
Proof.
  intros Hn Hs Hin. unfold learn_matchmakers. destruct (gk_set _ _ _ _ _ Hn) as (-> & _).
  case_decide; [by exists n, false|]. rewrite set_members_ok by done. rsimpl. case_decide; [|by exists n, false].
  destruct (reset_gc_for_generation_ok _ _ _ _ set n Hn Hs Hin) as (n' & -> & Hn' & Em). rsimpl.
  rewrite rassert_true by by rewrite Em. rsimpl. by exists n', true.
Qed.

(** What a matchmaker's ack promises. *)
Definition ack_sound (floors : MatchmakerId -> Ballot) (ack : GcAck) : Prop :=
  (ga_watermark ack ≤ floors (ga_matchmaker ack))%B /\ (ga_stopped ack = true -> ga_newer ack = None) /\
  is_none_or set_wf (ga_newer ack).

Lemma on_gc_ack_ok floors chosen believed s n ack :
  gc_node_ok floors chosen believed s n -> ack_sound floors ack -> is_none_or (fun s => s ∈ believed) (ga_newer ack) ->
  exists n' step, on_gc_ack n ack = Done (n', step) /\ exists s', gc_node_ok floors chosen believed s' n'.
Proof.
  intros Hn (Hw & Hst & Hnw) Hin. unfold on_gc_ack. destruct (gk_set _ _ _ _ _ Hn) as (Em & Hs & _). rewrite Em.
  rewrite (gk_leads _ _ _ _ _ Hn). cbn [negb]. rewrite set_contains_ok by done. rsimpl.
  destruct (decide (bool_decide (ga_matchmaker ack ∈ ms_members s) = false \/ ga_journal ack <> gn_journal n)); [eauto|].
  assert (exists n' b, learn_from_refusal n ack = Done (n', b) /\
    if b : bool then exists s', gc_node_ok floors chosen believed s' n' else n' = n) as (n1 & b & -> & Hb).
  { unfold learn_from_refusal. destruct (ga_newer ack) as [newer|]; [|by exists n, false].
    destruct (decide (ga_applied ack = false /\ ga_generation ack < ms_generation newer)); [|by exists n, false]. simpl in *.
    destruct (learn_matchmakers_ok _ _ _ _ _ _ Hn Hnw Hin) as (n' & b & -> & Hb). rsimpl. destruct b.
    - rewrite rassert_true. 2: { destruct (gk_set _ _ _ _ _ Hb) as (-> & _). done. } rsimpl. exists n', true. eauto.
    - rsimpl. by exists n', false. }
  rsimpl. destruct b; [eauto|]. subst n1.
  destruct (decide (ga_applied ack = false /\ ga_stopped ack = true)) as [Hfr|_].
  { destruct Hfr as [_ Hfr]. rewrite rassert_true by auto. rsimpl.
    destruct (decide (is_some_and (fun set => ms_generation set = ga_generation ack) (gn_matchmakers n))); eauto. }
  rewrite Em. pose proof (gk_gc _ _ _ _ _ Hn) as Hgc. destruct (gn_gc n) as [gc|]; [|eauto]. simpl in Hgc.
  destruct (fold_ack_ok _ _ _ _ _ s _ ack Hgc) as (gc' & step & -> & Hgc' & Hret);
    [apply Hn|done|by apply (gk_set _ _ _ _ _ Hn)|done|]. rsimpl.
  exists (with_gc n (Some gc')), step. split; [|exists s; by apply with_gc_ok].
  eapply bind_seq with (a := tt); [|done]. destruct step as [| | |wm retired]; try done.
  destruct (decide (gn_id (with_gc n (Some gc')) ∈ retired)) as [Hme|]; [|done].
  rewrite config_contains_ok by apply Hn. rsimpl. apply rassert_true, bool_decide_eq_false_2.
  rewrite (Hret _ _ eq_refl) in Hme. by apply list_elem_of_filter in Hme as [? _].
Qed.

(** The matchmaker side of the contract: an ack names the floor the matchmaker
    holds, and a frozen generation's ack no successor. *)
Lemma gc_ack_reports (m : Matchmaker) request outcome ack :
  gc_ack m request outcome = Done ack ->
  ga_matchmaker ack = mm_id m /\ ga_journal ack = gq_journal request /\
  ga_watermark ack = hard_watermark (mm_hard m) (gq_journal request) /\ (ga_stopped ack = true -> ga_newer ack = None).
Proof. intros E. unfold gc_ack in E. rinv E. by injection E as <-. Qed.

(** ** A leadership among acceptors and matchmakers *)

Record GcWorld := mkGcWorld {
  gw_node : GcNode;
  gw_floors : MatchmakerId -> Ballot;
  gw_chosen : NodeId -> option Slot;
  gw_believed : list MatchmakerSet }.

Implicit Types w : GcWorld.

Inductive GcLabel :=
| GOpen (fence : option Slot) (prior : list Config)
| GTry
| GPeer (from : NodeId) (index : option Slot)
| GResend
| GLearn (set : MatchmakerSet)
| GAck (ack : GcAck)
| GSettle (settled : bool)
| GChosen (m : NodeId) (slot : Slot)
| GFloor (i : MatchmakerId) (watermark : Ballot).

(** The node's own view of its replica. *)
Definition gc_view n (settled : bool) (chosen : option Slot) : GcNode :=
  mkGcNode (gn_id n) (gn_journal n) (gn_deployment n) (gn_matchmaker_pool n) (gn_pool n) (gn_leads n) (gn_ballot n)
    (gn_acceptors n) (gn_since n) (gn_last_member n) (gn_matchmakers n) settled chosen (gn_gc n) (gn_requests n).

Definition with_node w n : GcWorld := mkGcWorld n (gw_floors w) (gw_chosen w) (gw_believed w).
Definition believes w (sets : list MatchmakerSet) n : GcWorld := mkGcWorld n (gw_floors w) (gw_chosen w) (sets ++ gw_believed w).

Definition gc_happens w (l : GcLabel) : run GcWorld :=
  let n := gw_node w in
  match l with
  | GOpen fence prior => n ← open_gc n fence prior; mret (with_node w n)
  | GTry => n ← try_gc n; mret (with_node w n)
  | GPeer from index => n ← note_peer_chosen n from index; mret (with_node w n)
  | GResend => n ← resend_gc n; mret (with_node w n)
  | GLearn set => '(n, _) ← learn_matchmakers n set; mret (believes w [set] n)
  | GAck ack => '(n, _) ← on_gc_ack n ack; mret (believes w (option_list (ga_newer ack)) n)
  | GSettle settled => mret (with_node w (gc_view n settled (gn_chosen n)))
  | GChosen m slot =>
      let index := ord_max (gw_chosen w m) (Some slot) in
      mret (mkGcWorld (if decide (m = gn_id n) then gc_view n (gn_settled n) index else n) (gw_floors w)
              (<[m := index]> (gw_chosen w)) (gw_believed w))
  | GFloor i watermark =>
      mret (mkGcWorld n (<[i := ord_max (gw_floors w i) watermark]> (gw_floors w)) (gw_chosen w) (gw_believed w))
  end.

(** An acceptor reports at most its chosen index, a matchmaker acks at most the
    floor it holds; both only rise. *)
Definition gc_enabled w (l : GcLabel) : Prop :=
  match l with
  | GPeer from index => ord_le index (gw_chosen w from)
  | GLearn set => set_wf set
  | GAck ack => ack_sound (gw_floors w) ack
  | _ => True
  end.

Definition gc_initial w : Prop :=
  gn_gc (gw_node w) = None /\
  exists s, gn_matchmakers (gw_node w) = Some s /\
    gc_node_ok (gw_floors w) (gw_chosen w) (gw_believed w) s (gw_node w).

Inductive gc_reachable : GcWorld -> Prop :=
| gc_start w : gc_initial w -> gc_reachable w
| gc_moves w l w' : gc_reachable w -> gc_enabled w l -> gc_happens w l = Done w' -> gc_reachable w'.

Definition gc_inv w : Prop := exists s, gc_node_ok (gw_floors w) (gw_chosen w) (gw_believed w) s (gw_node w).

Lemma collector_ok_mono floors floors' chosen chosen' believed believed' config ballot generation c :
  (forall i, floors i ≤ floors' i)%B -> (forall m, ord_le (chosen m) (chosen' m)) -> believed ⊆ believed' ->
  collector_ok floors chosen believed config ballot generation c ->
  collector_ok floors' chosen' believed' config ballot generation c.
Proof.
  intros Hf Hc Hb []. constructor; try done.
  - intros m s Hs. eapply ord_le_trans; [by apply ck_peers0|done].
  - intros i Hi. eapply ord_le_trans; [by apply ck_acked0|done].
  - intros Hr. destruct (ck_asked0 Hr) as (holders & Hq & Hh). exists holders. split; [done|]. intros m Hm.
    eapply reached_mono; [apply Hc|by apply Hh].
  - intros wm retired He. destruct (ck_effective0 _ _ He) as (? & ? & s & ? & ?). split; [done|]. split; [done|].
    exists s. split; [by apply Hb|done].
Qed.

Lemma gc_node_ok_mono floors floors' chosen chosen' believed believed' s n n' :
  (forall i, floors i ≤ floors' i)%B -> (forall m, ord_le (chosen m) (chosen' m)) -> believed ⊆ believed' ->
  n' = gc_view n (gn_settled n') (chosen' (gn_id n)) ->
  gc_node_ok floors chosen believed s n -> gc_node_ok floors' chosen' believed' s n'.
Proof.
  intros Hf Hc Hb -> []. constructor; try done; simpl.
  - destruct gk_set0 as (? & ? & ?). split_and!; auto.
  - destruct (gn_gc n); [|done]. simpl in *. by eapply collector_ok_mono.
Qed.

Lemma gc_happens_ok w l : gc_inv w -> gc_enabled w l -> exists w', gc_happens w l = Done w' /\ gc_inv w'.
Proof.
  intros [s Hn] Hen.
  assert (forall sets, gc_node_ok (gw_floors w) (gw_chosen w) (sets ++ gw_believed w) s (gw_node w)) as Hmore.
  { intros sets. eapply gc_node_ok_mono; [..|done]; try done; [intros; apply ord_le_refl..| |].
    - by apply list_subseteq_app_r.
    - rewrite <-(gk_chosen _ _ _ _ _ Hn). by destruct (gw_node w). }
  destruct l as [fence prior| |from index| |set|ack|settled|m slot|i watermark]; cbn [gc_happens].
  - destruct (open_gc_ok _ _ _ _ _ fence prior Hn) as (n' & -> & Hn'). eexists. split; [done|by exists s].
  - destruct (try_gc_ok _ _ _ _ _ Hn) as (n' & -> & Hn' & _). eexists. split; [done|by exists s].
  - destruct (note_peer_chosen_ok _ _ _ _ _ from index Hn Hen) as (n' & -> & Hn'). eexists. split; [done|by exists s].
  - destruct (resend_gc_ok _ _ _ _ _ Hn) as (n' & -> & Hn'). eexists. split; [done|by exists s].
  - destruct (learn_matchmakers_ok _ _ _ _ _ set (Hmore [set]) Hen) as (n' & b & -> & Hb); [by left|]. eexists. split; [done|].
    destruct b; [by exists set|]. subst n'. exists s. apply Hmore.
  - destruct (on_gc_ack_ok _ _ _ _ _ ack (Hmore (option_list (ga_newer ack))) Hen) as (n' & step & -> & s' & Hs').
    { destruct (ga_newer ack); [by left|done]. }
    eexists. split; [done|by exists s'].
  - eexists. split; [done|]. exists s. eapply gc_node_ok_mono; [..|done]; try done; [intros; apply ord_le_refl..|].
    simpl. by rewrite (gk_chosen _ _ _ _ _ Hn).
  - eexists. split; [done|]. exists s. eapply gc_node_ok_mono; [..|done]; try done.
    + intros x. simpl. destruct (decide (x = m)) as [->|Hne]; [rewrite fn_lookup_insert; apply ord_max_ge_l|].
      rewrite fn_lookup_insert_ne by done. apply ord_le_refl.
    + simpl. case_decide as E.
      * subst. by rewrite fn_lookup_insert.
      * rewrite fn_lookup_insert_ne by done. rewrite <-(gk_chosen _ _ _ _ _ Hn). by destruct (gw_node w).
  - eexists. split; [done|]. exists s. eapply gc_node_ok_mono; [..|done]; try done.
    + intros x. simpl. destruct (decide (x = i)) as [->|Hne]; [rewrite fn_lookup_insert; apply ord_max_ge_l|].
      rewrite fn_lookup_insert_ne by done. apply ord_le_refl.
    + simpl. rewrite <-(gk_chosen _ _ _ _ _ Hn). by destruct (gw_node w).
Qed.

Lemma gc_reachable_inv w : gc_reachable w -> gc_inv w.
Proof.
  induction 1 as [w (_ & s & _ & Hn)|w l w' _ IH Hen Hw]; [by exists s|].
  destruct (gc_happens_ok w l IH Hen) as (w2 & E & Hinv). congruence.
Qed.

(** ** Properties *)

(** C28: a configuration is forgotten only when no later leader can need it.  In any
    run of a leadership, its acceptors and the matchmakers, with lost, repeated and
    reordered reports and acks and with handovers on the way, an effective floor is
    the leader's ballot and
    - every quorum of a matchmaker set the leader believed in has a member whose
      floor is at or above it, so every later campaign's history excludes what is
      below;
    - every Phase-1 quorum of the leader's configuration has a member whose chosen
      index covers the election fence, so what was chosen before is found there;
    - the acceptors it retires are exactly the members of the collected
      configurations that the configuration in force does not name. *)
Theorem gc_effective_safe w gc wm retired :
  gc_reachable w -> gn_gc (gw_node w) = Some gc -> gc_effective gc = Some (wm, retired) ->
  wm = gn_ballot (gw_node w) /\
  (exists s, s ∈ gw_believed w /\ ms_generation s = gc_generation gc /\
     forall voters, set_has_quorum s voters = Done true -> exists i, i ∈ voters /\ (wm ≤ gw_floors w i)%B) /\
  (forall voters row, names_cell (c_quorum_system (gn_acceptors (gw_node w))) row ->
     has_phase1_quorum_in (gn_acceptors (gw_node w)) voters row = Done true ->
     exists m, m ∈ voters /\ m ∈ c_members (gn_acceptors (gw_node w)) /\ reached (gc_fence gc) (gw_chosen w m)) /\
  forall m, m ∈ retired <->
    (exists config, config ∈ gc_prior gc /\ m ∈ c_members config) /\ m ∉ c_members (gn_acceptors (gw_node w)).
Proof.
  intros [s Hn]%gc_reachable_inv Hgc He. pose proof Hn as [_ _ Hcw _ _ _ Hok]. rewrite Hgc in Hok. simpl in Hok.
  destruct Hok as [_ Hacked Hsil Hasked _ Heff Hmem]. destruct (Heff _ _ He) as (-> & -> & s' & Hin & Hs' & Eg & Hq).
  split; [done|]. split_and!.
  - exists s'. split_and!; [done..|]. intros voters Hv. rewrite set_has_quorum_ok in Hv by done.
    injection Hv as Hv%bool_decide_eq_true. destruct (set_majorities_meet _ Hs' _ _ Hq Hv) as (i & _ & Hi & Hi').
    exists i. split; [done|]. by apply Hacked.
  - intros voters row Hrow Hp1. assert (gc_requested gc = true) as Hr.
    { destruct (gc_requested gc); [done|]. destruct (Hsil eq_refl). congruence. }
    destruct (Hasked Hr) as (holders & Hp2 & Hh). rewrite has_phase1_quorum_in_ok in Hp1 by done.
    injection Hp1 as Hp1%bool_decide_eq_true.
    destruct (holds_intersect _ _ voters holders row None (cwf_admitted _ Hcw) Hp1 Hp2) as (m & Hm & Hv & Hh').
    exists m. split_and!; [done..|]. by apply Hh.
  - intros m. unfold retirable. rewrite list_elem_of_filter, elem_of_bs_elements, Hmem. tauto.
Qed.

(** Garbage collection never panics: in any such run no assertion of the
    collector or of its wiring fires, whatever happens next. *)
Theorem gc_never_panics w l : gc_reachable w -> gc_enabled w l -> exists w', gc_happens w l = Done w'.
Proof. intros Hw%gc_reachable_inv Hen. destruct (gc_happens_ok w l Hw Hen) as (w' & ? & _). by exists w'. Qed.

(** ** Witnesses: a leader of nodes 1, 2, 3 collects a configuration of 3, 4, 5 *)

Definition sample_gc_ballot : Ballot := mkBallot 4 1.
Definition sample_gc_set : MatchmakerSet := mkSet 0 [10; 11; 12].
Definition sample_old : Config := mkConfig [3; 4; 5] Majority [] 0 0 0.
Definition sample_gc_node : GcNode :=
  mkGcNode 1 7 [10; 11; 12] [10; 11; 12] [1; 2; 3; 4; 5] true sample_gc_ballot ex_config sample_gc_ballot sample_gc_ballot
    (Some sample_gc_set) false None None [].
Definition sample_gc_world : GcWorld := mkGcWorld sample_gc_node (fun _ => zero) (fun _ => None) [sample_gc_set].

Lemma sample_gc_set_wf : set_wf sample_gc_set.
Proof. apply (bool_decide_unpack _). by vm_compute. Qed.

Lemma sample_gc_start : gc_reachable sample_gc_world.
Proof.
  apply gc_start. split; [done|]. exists sample_gc_set. split; [done|]. constructor; try done.
  - exact ex_config_wf.
  - intros m Hm. apply (elem_of_app [1; 2; 3] [4; 5]). by left.
  - split_and!; [done|exact sample_gc_set_wf|by left].
Qed.

Definition gc_after w (l : GcLabel) : GcWorld := match gc_happens w l with Done w' => w' | Panic _ => w end.
Ltac gc_next l :=
  match goal with
  | Hw : gc_reachable ?w |- _ =>
      let Hen := fresh in let E := fresh in
      assert (gc_enabled w l) as Hen by first [exact Logic.I|(apply (bool_decide_unpack _); vm_compute; exact Logic.I)|
          (split; [apply (bool_decide_unpack _); vm_compute; exact Logic.I|split; [discriminate|exact Logic.I]])];
      assert (gc_happens w l = Done (gc_after w l)) as E by (vm_compute; reflexivity);
      apply (gc_moves w l _ Hw Hen) in E; clear Hw Hen; rename E into Hw
  end.
Definition sample_ack (i : MatchmakerId) : GcAck := mkGcAck i 7 0 true sample_gc_ballot None false.

Lemma sample_gc_reached :
  exists w, gc_reachable w /\ gn_acceptors (gw_node w) = ex_config /\ exists gc, gn_gc (gw_node w) = Some gc /\
    gc_effective gc = Some (sample_gc_ballot, [4; 5]) /\ gc_fence gc = Some 3.
Proof.
  pose proof sample_gc_start as Hw.
  gc_next (GOpen (Some 3) [sample_old]). gc_next (GSettle true). gc_next (GChosen 1 5). gc_next (GChosen 2 4).
  gc_next (GPeer 2 (Some 4)). gc_next GResend. gc_next (GFloor 10 sample_gc_ballot). gc_next (GAck (sample_ack 10)).
  gc_next (GFloor 11 sample_gc_ballot). gc_next (GAck (sample_ack 11)).
  eexists. split; [eassumption|]. split; [vm_compute; reflexivity|]. eexists. split_and!; vm_compute; reflexivity.
Qed.

Lemma gc_effective_safe_witness :
  exists w, forall voters, has_phase1_quorum_in ex_config voters None = Done true ->
    exists m, m ∈ voters /\ m ∈ c_members ex_config /\ reached (Some 3) (gw_chosen w m).
Proof.
  destruct sample_gc_reached as (w & Hw & Ha & gc & Hgc & He & Hf). exists w.
  destruct (gc_effective_safe w gc _ _ Hw Hgc He) as (_ & _ & Hp1 & _). rewrite Ha, Hf in Hp1.
  intros voters Hv. apply (Hp1 voters None); [done|exact Hv].
Defined.

Lemma gc_never_panics_witness :
  exists w', gc_happens sample_gc_world (GOpen (Some 3) [sample_old]) = Done w'.
Proof. apply gc_never_panics; [apply sample_gc_start|exact Logic.I]. Defined.
