(* ===== verification/LogWorld.v ===== *)
(** * The replicated log as a distributed system

    Nodes that each hold an acceptor, a proposer and the slots they know chosen
    exchange Phase-1 and Phase-2 messages over a network that loses, duplicates
    and reorders.  The handlers follow the wiring of [node/acceptor.rs],
    [node/election.rs], [node/phase2.rs], [node/learn.rs], [node/catch_up.rs],
    [node/boot.rs] and the repair tick of [node.rs] around the roles' own operations,
    with the checks of [node/invariants.rs] over the state they share.  Left out, with
    the guards and assertions over it: the addressable pool, handoff and delegation,
    matchmaking and collection, reads, heartbeats and clocks, hints, counters and the
    journal fold.  A restart reads the records back as the journal store does: a
    rewritten slot has no rotted mark left ([journal/node.rs] of [paros-storage]).
    [log_happens] is one event, [log_reachable] the states events lead to.  The history
    ([lw_rounds], [lw_votes], [lw_decided]) records what was proposed, voted and
    decided; no handler reads it. *)

From stdpp Require Import functions.
From S2P Require Import Prelude BTree Types Retained Journal Contract Acceptor PromisePage QuorumSystem AcceptorConfig Rounds Tally Leadership Proposer Election.

Inductive LogRole := Follower | Candidate (b : Ballot) | Leader (b : Ballot).

#[export] Instance LogRole_eq_dec : EqDecision LogRole.
Proof. solve_decision. Defined.

(** [ln_chosen] and [ln_first] are the replica's: the chosen commands it holds,
    and the first slot past its chosen prefix. *)
Record LogNode (V : Type) := mkLogNode {
  ln_acceptor : Acceptor V;
  ln_proposer : Proposer NodeId V;
  ln_role : LogRole;
  ln_chosen : gmap Slot V;
  ln_first : Slot }.
Arguments mkLogNode {_} _ _ _ _ _.
Arguments ln_acceptor {_} _.
Arguments ln_proposer {_} _.
Arguments ln_role {_} _.
Arguments ln_chosen {_} _.
Arguments ln_first {_} _.

Inductive LogMsg (V : Type) :=
| NPrepare (b : Ballot) (from : Slot)
| NPromise (sender : NodeId) (b : Ballot) (from : Slot) (page : PromisePage V)
| NAccept (b : Ballot) (s : Slot) (v : V)
| NAccepted (sender : NodeId) (b : Ballot) (s : Slot) (vhash : N)
| NNack (b : Ballot) (s : Slot)
| NCommit (b : Ballot) (s : Slot) (v : V)
| NReplay (entries : list (Slot * (Ballot * V)))
| NTrimmed (point : Slot).
Arguments NPrepare {_} _ _.
Arguments NPromise {_} _ _ _ _.
Arguments NAccept {_} _ _ _.
Arguments NAccepted {_} _ _ _ _.
Arguments NNack {_} _ _.
Arguments NCommit {_} _ _ _.
Arguments NReplay {_} _.
Arguments NTrimmed {_} _.

Record LogWorld (V : Type) := mkLogWorld {
  lw_nodes : NodeId -> LogNode V;
  lw_net : list (LogMsg V);
  lw_rounds : gmap (Ballot * Slot) V;
  lw_votes : gset (NodeId * Ballot * Slot);
  lw_decided : list (Ballot * Slot * V) }.
Arguments mkLogWorld {_} _ _ _ _ _.
Arguments lw_nodes {_} _ _.
Arguments lw_net {_} _.
Arguments lw_rounds {_} _.
Arguments lw_votes {_} _.
Arguments lw_decided {_} _.

(** What a walk of the chosen prefix came to: how far the replica's fold let it go,
    and the first slot kept when it applied a truncation. *)
Record Advance := mkAdvance { ad_walked : nat; ad_cut : option (Slot * JournalState) }.

(** [adv] says, per slot a handler marks chosen, what the walk behind it came to;
    [k] is the recovery page; a campaign opens above [at_least], the node's operating
    round and its round floor; [operating] is a follower's operating ballot, and
    [election_timeout] the clock a repair is given up by. *)
Inductive LogLabel (V : Type) :=
| LCampaign (m : NodeId) (at_least : N)
| LStart (m : NodeId) (k : nat) (adv : Slot -> Advance)
| LPrepare (m : NodeId) (b : Ballot) (from : Slot) (limit : N) (operating : Ballot)
| LPromise (m sender : NodeId) (b : Ballot) (from : Slot) (page : PromisePage V) (k : nat) (adv : Slot -> Advance)
| LKeepAlive (m : NodeId)
| LTickRepair (m : NodeId) (election_timeout : N)
| LPump (m : NodeId) (k : nat) (adv : Slot -> Advance)
| LPropose (m : NodeId) (v : V) (column : option N) (adv : Slot -> Advance)
| LAccept (m : NodeId) (b : Ballot) (s : Slot) (v : V) (operating : Ballot) (adv : Slot -> Advance)
| LAccepted (m sender : NodeId) (b : Ballot) (s : Slot) (vhash : N) (adv : Slot -> Advance)
| LNack (m : NodeId) (b : Ballot) (s : Slot)
| LCommit (m : NodeId) (b : Ballot) (s : Slot) (v : V) (adv : Slot -> Advance)
| LServe (m : NodeId) (from : Slot) (operating : Ballot)
| LReplay (m : NodeId) (entries : list (Slot * (Ballot * V))) (adv : Slot -> Advance)
| LAdvance (m : NodeId) (a : Advance)
| LCompact (m : NodeId) (first : Slot) (sealed : JournalState)
| LTrim (m : NodeId) (point : Slot) (state : JournalState) (a : Advance)
| LRepair (m : NodeId) (s : Slot)
| LReboot (m : NodeId) (lost : gset Slot) (first : Slot)
| LStepDown (m : NodeId).
Arguments LCampaign {_} _ _.
Arguments LStart {_} _ _ _.
Arguments LPrepare {_} _ _ _ _ _.
Arguments LPromise {_} _ _ _ _ _ _ _.
Arguments LKeepAlive {_} _.
Arguments LTickRepair {_} _ _.
Arguments LPump {_} _ _ _.
Arguments LPropose {_} _ _ _ _.
Arguments LAccept {_} _ _ _ _ _ _.
Arguments LAccepted {_} _ _ _ _ _ _.
Arguments LNack {_} _ _ _.
Arguments LCommit {_} _ _ _ _ _.
Arguments LServe {_} _ _ _.
Arguments LReplay {_} _ _ _.
Arguments LAdvance {_} _ _.
Arguments LCompact {_} _ _ _.
Arguments LTrim {_} _ _ _ _.
Arguments LRepair {_} _ _.
Arguments LReboot {_} _ _ _.
Arguments LStepDown {_} _.

(** What a campaign at [b] runs with: the configuration registered for it, the
    configurations its Phase 1 has to cover, and which ballots are campaigned at
    at all.  Matchmaking promises that the configuration of every lower ballot is
    among those covered. *)
Class LogConfigs (cfg : Ballot -> AcceptorConfig NodeId) (prior : Ballot -> list (AcceptorConfig NodeId))
  (led : Ballot -> Prop) : Prop := {
  lc_cfg : forall b, led b -> config_wf (cfg b);
  lc_prior : forall b, led b -> Forall config_wf (prior b);
  lc_once : forall b, led b -> NoDup (prior b);
  lc_covers : forall b b', led b -> led b' -> (b' < b)%B -> cfg b' ∈ prior b }.

Section world.
Context {V : Type} `{!EqDecision V, !Fingerprint V, !FromWrite V WriteOp} (noop : V).
Context (cfg : Ballot -> AcceptorConfig NodeId) (prior : Ballot -> list (AcceptorConfig NodeId)).
Implicit Types (n : LogNode V) (w : LogWorld V) (m : NodeId) (b : Ballot) (s : Slot) (v : V)
  (a : Acceptor V) (p : Proposer NodeId V).

Definition with_acceptor n a : LogNode V :=
  mkLogNode a (ln_proposer n) (ln_role n) (ln_chosen n) (ln_first n).
Definition on_proposer n p : LogNode V :=
  mkLogNode (ln_acceptor n) p (ln_role n) (ln_chosen n) (ln_first n).

(** ** One node *)

(** [clear_leadership_state]. *)
Definition clear_leadership p : run (Proposer NodeId V) :=
  p ← abandon p;
  rassert (p_election p = None) "no campaign survives the clear";;
  rassert (rs_by_slot (p_rounds p) = ∅) "no round survives the clear";;
  rassert (p_recovery p = None) "no recovery survives the clear";;
  mret p.

(** [become_follower]: the campaign or leadership is dropped whole. *)
Definition node_follow n : run (LogNode V) :=
  p ← clear_leadership (ln_proposer n);
  rassert (p_probe p = None) "a follower holds no repair probe";;
  mret (mkLogNode (ln_acceptor n) p Follower (ln_chosen n) (ln_first n)).

(** Another proposer's message ends a live campaign or leadership. *)
Definition node_contact n m b : run (LogNode V) :=
  if decide (node b <> m /\ ln_role n <> Follower) then node_follow n else mret n.

Definition is_candidate (r : LogRole) : bool := match r with Candidate _ => true | _ => false end.
Definition is_leader (r : LogRole) : bool := match r with Leader _ => true | _ => false end.

(** A learner's adoption of the choosing ballot, before the record lands. *)
Definition node_raise n b : run (LogNode V) :=
  prom ← promised (ln_acceptor n);
  if decide (prom < b)%B then
    '(a, _) ← set_promise (W:=WriteOp) (ln_acceptor n) b [];
    (if is_candidate (ln_role n) then node_follow (with_acceptor n a) else mret (with_acceptor n a))
  else mret n.

(** [record_accepted]: [writes] are the acceptor's writes of the batch. *)
Definition node_record a s b v (writes : list (AcceptorWrite V)) : run (Acceptor V * list (AcceptorWrite V)) :=
  '(a, writes', _) ← record_accepted a s b v writes;
  rassert (length writes' = length writes + 1)%nat "a record emits one write";;
  held ← acceptor_record a s;
  rassert (is_some_and (fun r : Ballot * V => r.1 = b) held) "a record lands at its ballot";;
  mret (a, writes').

(** A live campaign's promise sits at its ballot. *)
Definition campaign_live (r : LogRole) (prom : Ballot) : Prop :=
  match r with Candidate b => prom = b | _ => True end.
#[export] Instance campaign_live_dec r prom : Decision (campaign_live r prom).
Proof. destruct r; simpl; apply _. Defined.

(** The walk of the chosen prefix, at most [fuel] slots of it. *)
Fixpoint walk (fuel : nat) (chosen : gmap Slot V) s : Slot :=
  match fuel with
  | O => s
  | S fuel' => match chosen !! s with Some _ => walk fuel' chosen (s + 1) | None => s end
  end.

Definition node_walk n (fuel : nat) : LogNode V :=
  mkLogNode (ln_acceptor n) (ln_proposer n) (ln_role n) (ln_chosen n) (walk fuel (ln_chosen n) (ln_first n)).

(** The record of an applied slot carries the applied command. *)
Definition applied_record n s : Prop :=
  is_some_and (fun r : Ballot * V => ln_chosen n !! s = Some r.2) (w_entries (a_records (ln_acceptor n)) !! s).
#[export] Instance applied_record_dec n s : Decision (applied_record n s).
Proof using EqDecision0. unfold applied_record. apply _. Defined.

(** *** What a node's state may never look like ([node/invariants.rs])

    The checks over the state modelled here: the acceptor, the proposer, the role and
    the chosen slots.  What they say of the deployment, the read basis, the leader hint
    and the replica's fold is over state that is not. *)

(** The operating ballot of a campaign or a leadership. *)
Definition role_ballot (r : LogRole) : option Ballot :=
  match r with Follower => None | Candidate b | Leader b => Some b end.

(** [Replica::fold_hole]: the fold stops at the first retained slot of the chosen
    prefix that is not held. *)
Definition node_hole n : option Slot :=
  head (filter (fun s => ln_chosen n !! s = None) (range (floor_of (ln_acceptor n)) (ln_first n))).

Definition assert_hole_invariants n : run unit :=
  faulty ← acceptor_faulty (ln_acceptor n);
  match first_key_of faulty with
  | Some s =>
      if decide (s < ln_first n) then
        rassert (is_some_and (fun hole => hole <= s) (node_hole n))
          "the fold's hole covers every faulty slot under the chosen prefix"
      else mret tt
  | None => mret tt
  end;;
  match node_hole n with
  | Some hole =>
      rassert (hole < ln_first n) "a fold hole lies below the first unchosen slot";;
      rassert (ln_chosen n !! hole = None) "a fold hole is a slot not held"
  | None => mret tt
  end.

Definition assert_leader_invariants m n b : run unit :=
  let p := ln_proposer n in
  let rounds := rs_by_slot (p_rounds p) in
  open ← election p;
  rassert (open = None) "a leader has no open campaign";;
  rassert (zero < b)%B "a leader operates under a minted ballot";;
  rassert (node b = m) "an elected leader's ballot names its own node";;
  prom ← promised (ln_acceptor n);
  (if decide (prom ≤ b)%B then
     rassert (ln_first n <= p_next_slot p) "a leader's next slot never falls inside the chosen prefix" else mret tt);;
  rassert (is_none_or (fun s => s < p_next_slot p) (last_key_of rounds))
    "a leader never allocates at or below an in-flight round";;
  rassert (Forall (fun e : Slot * Round NodeId V => r_ballot e.2 = b) (bt_entries rounds))
    "a leader's in-flight rounds all run at its own ballot";;
  if decide (prom ≤ b)%B then
    recorded ← allM (fun s => r ← acceptor_record (ln_acceptor n) s; mret (bool_decide (is_Some r))) (bt_keys rounds);
    rassert (recorded = true) "a leader's every open round is recorded in its own log"
  else mret tt.

Definition assert_role_invariants m n : run unit :=
  match ln_role n with
  | Leader b => assert_leader_invariants m n b
  | Candidate b =>
      open ← election (ln_proposer n);
      match open with
      | Some e =>
          ballot ← election_ballot e;
          rassert (ballot = b) "a candidate's campaign runs at its own operating ballot"
      | None => mret tt
      end;;
      rassert (node b = m) "an operating ballot names its own node";;
      prom ← promised (ln_acceptor n);
      rassert (prom = b) "a live campaign's promise sits at its ballot"
  | Follower =>
      open ← election (ln_proposer n);
      rassert (open = None) "a follower has no open campaign"
  end.

(** Volatile leadership state exists only on a leader. *)
Definition assert_leadership_state_invariants n : run unit :=
  let p := ln_proposer n in
  let leads := is_leader (ln_role n) in
  rassert (rs_by_slot (p_rounds p) = ∅ \/ leads = true) "only a leader holds in-flight accept rounds";;
  f ← fence p;
  rassert (f = None \/ leads = true) "only a leader holds a leadership fence";;
  rassert (p_recovery p = None \/ leads = true) "only a leader holds deferred recovery work";;
  rassert (p_probe p = None \/ leads = true) "only a leader holds an open repair probe".

(** [assert_invariants]. *)
Definition node_assert_invariants m n : run unit :=
  floor ← first_slot (ln_acceptor n);
  rassert (floor <= ln_first n) "the compaction floor never outruns the chosen prefix";;
  acceptor_assert_invariants (ln_acceptor n);;
  rassert (is_none_or (fun s => floor <= s) (first_key_of (ln_chosen n)))
    "no chosen record survives below the compaction floor";;
  proposer_assert_invariants (ln_proposer n);;
  rassert (is_none_or (fun pb => pb_elapsed pb = 0 \/ is_leader (ln_role n) = true) (p_probe (ln_proposer n)))
    "only a leader's repair probe ages";;
  rassert (is_none_or (fun s => floor <= s) (first_key_of (rs_by_slot (p_rounds (ln_proposer n)))))
    "no in-flight round survives below the compaction floor";;
  assert_hole_invariants n;;
  assert_role_invariants m n;;
  assert_leadership_state_invariants n.

(** [durable_marks]: the promise, the chosen prefix and the floor. *)
Definition durable_marks n : run (Ballot * Slot * Slot) :=
  prom ← promised (ln_acceptor n);
  floor ← first_slot (ln_acceptor n);
  rassert (floor <= ln_first n) "the compaction floor never outruns the chosen prefix";;
  mret (prom, ln_first n, floor).

Definition assert_marks_monotone (before : Ballot * Slot * Slot) n : run unit :=
  '(prom, first, floor) ← durable_marks n;
  rassert (before.1.1 ≤ prom)%B "a node's promise never decreases";;
  rassert (before.1.2 <= first) "a node's chosen index never decreases";;
  rassert (before.2 <= floor) "a node's compaction floor never decreases".

(** [compact], with the first slot kept: nothing when it is at or below the floor,
    and never past the chosen prefix (the replica's compaction target). *)
Definition node_compact m n (first : Slot) (sealed : JournalState) : run (LogNode V) :=
  floor ← first_slot (ln_acceptor n);
  let first := N.min first (ln_first n) in
  if decide (first <= floor) then mret n else
  '(a, _) ← truncate (ln_acceptor n) first sealed [];
  p ← retain_rounds_from (ln_proposer n) first;
  floor' ← first_slot a;
  rassert (floor < floor') "compaction raised the floor";;
  rassert (floor' <= ln_first n) "compaction never drops an undecided slot";;
  let n := mkLogNode a p (ln_role n) (bt_split_off first (ln_chosen n)) (ln_first n) in
  node_assert_invariants m n;;
  mret n.

(** [advance_chosen_index]. *)
Definition node_advance m n (adv : Advance) : run (LogNode V) :=
  let before := ln_first n in
  let n := node_walk n (ad_walked adv) in
  rassert (Forall (applied_record n) (range before (ln_first n))) "an applied slot's accepted record carries the applied command";;
  n ← match ad_cut adv with Some (first, sealed) => node_compact m n first sealed | None => mret n end;
  rassert (before <= ln_first n) "the chosen prefix never retreats";;
  floor ← first_slot (ln_acceptor n);
  rassert (floor <= ln_first n) "a walk's compaction never outruns the chosen prefix";;
  mret n.

(** [mark_chosen] at a slot at or above the floor, up to the walk. *)
Definition node_learn n s v b (writes : list (AcceptorWrite V)) : run (LogNode V * list (AcceptorWrite V)) :=
  match ln_chosen n !! s with
  | Some known =>
      rassert (known = v) "a slot already chosen here is relearned with the same value";;
      mret (n, writes)
  | None =>
      match rs_by_slot (p_rounds (ln_proposer n)) !! s with
      | Some r =>
          if decide (r_ballot r = b) then
            rassert (r_command r = v) "a decision at the open round's ballot carries the round's command"
          else mret tt
      | None => mret tt
      end;;
      n ← node_raise n b;
      prom ← promised (ln_acceptor n);
      rassert (campaign_live (ln_role n) prom) "a learned slot leaves a live campaign's promise at its ballot";;
      held ← acceptor_record (ln_acceptor n) s;
      '(a, writes) ← (if decide (is_some_and (fun r : Ballot * V => r.2 = v /\ b ≤ r.1)%B held) then mret (ln_acceptor n, writes)
                      else node_record (ln_acceptor n) s b v writes);
      p ← probe_resolved_elsewhere (ln_proposer n) s;
      rassert (is_none_or (fun pb => s ∉ pb_blocked pb) (p_probe p))
        "a slot learned chosen leaves the repair probe";;
      held ← acceptor_record a s;
      rassert (is_Some held) "a chosen slot holds its authoritative accepted record";;
      rassert (snd <$> held = Some v) "a chosen slot's accepted record carries the chosen command";;
      mret (mkLogNode a p (ln_role n) (<[s := v]> (ln_chosen n)) (ln_first n), writes)
  end.

(** [mark_chosen], with the records it adds to the batch. *)
Definition mark_chosen_in m n s v b (adv : Slot -> Advance) (writes : list (AcceptorWrite V))
  : run (LogNode V * list (AcceptorWrite V)) :=
  floor ← first_slot (ln_acceptor n);
  if decide (s < floor) then mret (n, writes) else
  '(n, writes) ← node_learn n s v b writes;
  n ← node_advance m n (adv s);
  mret (n, writes).

Definition mark_chosen m n s v b (adv : Slot -> Advance) : run (LogNode V) :=
  '(n, _) ← mark_chosen_in m n s v b adv [];
  mret n.

(** [record_own_round]. *)
Definition record_own_round n s b v : run (LogNode V * bool) :=
  prom ← promised (ln_acceptor n);
  if decide (b < prom)%B then mret (n, false) else
  '(a, _) ← set_promise (W:=WriteOp) (ln_acceptor n) b [];
  '(a, _) ← node_record a s b v [];
  prom ← promised a;
  rassert (prom = b) "an own round's promise sits at its ballot";;
  held ← acceptor_record a s;
  rassert (is_some_and (fun r : Ballot * V => r.2 = v) held) "an own round is recorded with its command";;
  mret (with_acceptor n a, true).

(** [own_vote]. *)
Definition own_vote (config : AcceptorConfig NodeId) m (recorded : bool) (column : option N)
  : run (option NodeId) :=
  addressee ← (if recorded then config_is_phase2_addressee config m column else mret false);
  if addressee : bool then
    rassert (recorded = true) "an own vote is backed by an own record";;
    member ← config_contains config m;
    rassert (member = true) "an own vote is a member's";;
    addressees ← config_phase2_addressees config column;
    rassert (m ∈ addressees) "an own vote is in the round's column";;
    mret (Some m)
  else mret None.

(** ** The world *)

Definition log_boot : LogNode V := mkLogNode (booted zero ∅ 0 ∅) proposer_new Follower ∅ 0.
Definition log_init : LogWorld V := mkLogWorld (fun _ => log_boot) [] ∅ ∅ [].

Definition at_node w m n : LogWorld V :=
  mkLogWorld (<[m := n]> (lw_nodes w)) (lw_net w) (lw_rounds w) (lw_votes w) (lw_decided w).
Definition log_send w (msgs : list (LogMsg V)) : LogWorld V :=
  mkLogWorld (lw_nodes w) (msgs ++ lw_net w) (lw_rounds w) (lw_votes w) (lw_decided w).
Definition announce w b s v : LogWorld V :=
  mkLogWorld (lw_nodes w) (lw_net w) (<[(b, s) := v]> (lw_rounds w)) (lw_votes w) (lw_decided w).
Definition vote_if (cast : bool) w m b s : LogWorld V :=
  mkLogWorld (lw_nodes w) (lw_net w) (lw_rounds w) (if cast then {[ (m, b, s) ]} ∪ lw_votes w else lw_votes w)
    (lw_decided w).
Definition decide_at w b s v : LogWorld V :=
  mkLogWorld (lw_nodes w) (lw_net w) (lw_rounds w) (lw_votes w) ((b, s, v) :: lw_decided w).

#[export] Instance column_valid_dec (config : AcceptorConfig NodeId) c : Decision (column_valid config c).
Proof. unfold column_valid. destruct (c_quorum_system config), c; apply _. Defined.

(** *** Phase 2 *)

Definition log_try_decide w m s (adv : Slot -> Advance) : run (LogWorld V) :=
  let n := lw_nodes w m in
  match ln_role n with
  | Leader b =>
      d ← decided (ln_proposer n) s (cfg b);
      match d with
      | None => mret w
      | Some (ballot, v) =>
          rassert (ballot = b) "a decision is counted at the leadership ballot";;
          n ← mark_chosen m n s v ballot adv;
          floor ← first_slot (ln_acceptor n);
          (if decide (floor <= s) then
             rassert (ln_chosen n !! s = Some v) "a decided slot is chosen with the decided command" else mret tt);;
          mret (log_send (at_node (decide_at w ballot s v) m (on_proposer n (close_round (ln_proposer n) s)))
                  [NCommit ballot s v])
      end
  | _ => mret w
  end.

(** [start_accept_round_in], the round run by the leader itself. *)
Definition log_start_round w m s v (column : option N) (adv : Slot -> Advance) : run (LogWorld V) :=
  let n := lw_nodes w m in
  match ln_role n with
  | Leader b =>
      floor ← first_slot (ln_acceptor n);
      rassert (floor <= s) "an accept round never starts below the compaction floor";;
      rassert (s < p_next_slot (ln_proposer n)) "an accept round opens below the allocator frontier";;
      prom ← promised (ln_acceptor n);
      (if decide (prom ≤ b)%B then
         rassert (ln_chosen n !! s = None) "an accept round never re-opens a chosen slot" else mret tt);;
      rassert (column_valid (cfg b) column) "an accept round's column is a column of the active configuration";;
      '(n, recorded) ← record_own_round n s b v;
      own ← own_vote (cfg b) m recorded column;
      p ← open_round (ln_proposer n) s b v own column;
      w ← log_try_decide
            (log_send (at_node (vote_if recorded (at_node (announce w b s v) m n) m b s) m (on_proposer n p))
               [NAccept b s v]) m s adv;
      let n := lw_nodes w m in
      floor ← first_slot (ln_acceptor n);
      (if decide (is_open_at (p_rounds (ln_proposer n)) s b = false /\ floor <= s) then
         rassert (is_Some (ln_chosen n !! s)) "a closed fresh round decided its slot" else mret tt);;
      mret w
  | _ => Panic "only a leader starts an accept round"
  end.

(** [start_accept_round]. *)
Definition log_start_accept_round w m s v (adv : Slot -> Advance) : run (LogWorld V) :=
  match ln_role (lw_nodes w m) with
  | Leader b =>
      column ← config_column_of (cfg b) s;
      rassert (bool_decide (is_Some column) = match c_quorum_system (cfg b) with Grid _ _ _ => true | _ => false end)
        "a slot names a column exactly under a grid";;
      log_start_round w m s v column adv
  | _ => Panic "only a leader starts an accept round"
  end.

(** The round of a slot whose value Phase 1 decided: skipped once the slot is
    chosen here or compacted, or when it is [blocked]; [fill] says the value is this
    node's own filler. *)
Definition log_repropose w m s v (fill : bool) (blocked : run bool) (adv : Slot -> Advance) : run (LogWorld V) :=
  let n := lw_nodes w m in
  floor ← first_slot (ln_acceptor n);
  if decide (s < floor \/ is_Some (ln_chosen n !! s)) then mret w else
  blocked ← blocked;
  if blocked : bool then mret w else
  (if fill then rassert (ln_first n <= s) "a no-op never targets a slot inside the chosen prefix" else mret tt);;
  log_start_accept_round w m s v adv.

(** At most [k] slots of the recovery. *)
Fixpoint log_pump_slots (k : nat) w m (adv : Slot -> Advance) : run (LogWorld V) :=
  match k with
  | O => mret w
  | S k' =>
      let n := lw_nodes w m in
      '(p, step) ← recovery_next (ln_proposer n);
      let w := at_node w m (on_proposer n p) in
      match step with
      | None => mret w
      | Some (s, step) =>
          w ← match step with
              | Recovered v => log_repropose w m s v false (recovery_blocked p s) adv
              | Fill => log_repropose w m s noop true (recovery_blocked p s) adv
              | Undescribed => mret w
              end;
          log_pump_slots k' w m adv
      end
  end.

(** [pump_leader_recovery]. *)
Definition log_pump (k : nat) w m (adv : Slot -> Advance) : run (LogWorld V) :=
  match ln_role (lw_nodes w m) with
  | Leader _ =>
      w ← log_pump_slots k w m adv;
      let n := lw_nodes w m in
      remaining ← recovery_remaining (ln_proposer n);
      if decide (remaining = 0) then
        p ← close_drained_recovery (ln_proposer n);
        rassert (p_recovery p = None) "a drained recovery closes in the page that drains it";;
        mret (at_node w m (on_proposer n p))
      else
        rassert (is_some_and (fun rc => rc_cursor rc < rc_end rc) (p_recovery (ln_proposer n)))
          "an open recovery still has slots to sweep";;
        mret w
  | _ => mret w
  end.

(** [resolve_blocked_repairs]. *)
Definition log_resolve w m (adv : Slot -> Advance) : run (LogWorld V) :=
  let n := lw_nodes w m in
  rassert (is_leader (ln_role n) = true) "only a leader resolves blocked repairs";;
  '(p, decisions) ← resolve_probe (ln_proposer n);
  rassert (Forall (fun d : ProbeDecision V => is_none_or (fun pb => pd_slot d ∉ pb_blocked pb) (p_probe p)) decisions)
    "a decided repair is no longer blocked";;
  foldM (fun w (d : ProbeDecision V) =>
           match pd_command d with
           | Some v => log_repropose w m (pd_slot d) v false (mret false) adv
           | None => log_repropose w m (pd_slot d) noop true (mret false) adv
           end) (at_node w m (on_proposer n p)) decisions.

(** [propose_in] and [open_proposal], without delegation. *)
Definition log_propose w m v (column : option N) (adv : Slot -> Advance) : run (LogWorld V) :=
  let n := lw_nodes w m in
  match ln_role n with
  | Leader b =>
      prom ← promised (ln_acceptor n);
      if decide (b < prom)%B then mret w else
      '(p, s) ← allocate (ln_proposer n);
      rassert (s = p_next_slot (ln_proposer n)) "a proposal takes the allocator frontier";;
      floor ← first_slot (ln_acceptor n);
      rassert (floor <= s) "a proposal never lands below the floor";;
      column ← (match column with Some _ => mret column | None => config_column_of (cfg b) s end);
      w ← log_start_round (at_node w m (on_proposer n p)) m s v column adv;
      rassert (s < p_next_slot (ln_proposer (lw_nodes w m))) "the frontier moved past the proposal";;
      mret w
  | _ =>
      rassert (rs_by_slot (p_rounds (ln_proposer n)) = ∅) "a refusing non-leader holds no round";;
      mret w
  end.

(** [push_nack]. *)
Definition push_nack w m b s : run (LogWorld V) :=
  let n := lw_nodes w m in
  floor ← first_slot (ln_acceptor n);
  prom ← promised (ln_acceptor n);
  (if decide (floor <= s) then rassert (b < prom)%B "a Nack refuses a ballot below the promise" else mret tt);;
  mret (log_send w [NNack b s]).

(** [follow_ballot]: a candidate's or a leader's operating ballot is its own,
    a follower's is [operating]. *)
Definition follow_ballot (r : LogRole) (operating b : Ballot) : run Ballot :=
  let before := default operating (role_ballot r) in
  let after := if decide (before < b)%B then b else before in
  rassert (before ≤ after)%B "the operating ballot never falls";;
  rassert (b ≤ after)%B "the operating ballot reaches a followed ballot";;
  mret after.

Definition appends (s : Slot) (op : AcceptorWrite V) : Prop :=
  match op with AppendAccepted s' _ _ => s' = s | _ => False end.
#[export] Instance appends_dec s op : Decision (appends s op).
Proof. destruct op; simpl; apply _. Defined.

(** [on_accept], from another node: the append the reply rests on is in the batch. *)
Definition log_on_accept w m b s v (operating : Ballot) (adv : Slot -> Advance) : run (LogWorld V) :=
  let n := lw_nodes w m in
  outcome ← acceptor_admit (ln_acceptor n) b s;
  match outcome with
  | ABelowFloor => mret w
  | ARefused =>
      prom ← promised (ln_acceptor (lw_nodes w m));
      rassert (prom = a_promised (ln_acceptor n)) "a nacked accept never moves the promise";;
      push_nack w m b s
  | AAdmitted =>
      let role := ln_role n in
      n ← node_contact n m b;
      _ ← follow_ballot role operating b;
      '(a, writes) ← set_promise (ln_acceptor n) b [];
      let n := with_acceptor n a in
      '(n, writes) ← (if decide (s < ln_first n /\ ln_chosen n !! s = None) then mark_chosen_in m n s v b adv writes
                      else '(a, writes) ← node_record (ln_acceptor n) s b v writes; mret (with_acceptor n a, writes));
      prom ← promised (ln_acceptor n);
      rassert (prom = b) "an accept lands with the promise at its ballot";;
      rassert (Exists (appends s) writes) "an accepted reply ships with its durable append in the batch";;
      mret (log_send (vote_if true (at_node w m n) m b s) [NAccepted m b s (fingerprint v)])
  end.

(** [on_accepted]: a node that does not lead holds no open round, and counts nothing. *)
Definition log_on_accepted w m (sender : NodeId) b s (vhash : N) (adv : Slot -> Advance) : run (LogWorld V) :=
  let n := lw_nodes w m in
  match ln_role n with
  | Leader b' =>
      '(p, counted) ← fold_accepted_in (ln_proposer n) (cfg b') sender b s vhash;
      if counted : bool then
        member ← config_contains (cfg b') sender;
        rassert (member = true) "a counted Accepted comes from a member";;
        p ← (if decide (b = b') then credit_authority p sender else mret p);
        log_try_decide (at_node w m (on_proposer n p)) m s adv
      else mret (at_node w m (on_proposer n p))
  | _ => mret w
  end.

Definition log_on_nack w m b s : run (LogWorld V) :=
  let n := lw_nodes w m in
  let in_flight := bool_decide (is_some_and (fun e => t_ballot (e_promises e) = b) (p_election (ln_proposer n)))
                   || is_open_at (p_rounds (ln_proposer n)) s b in
  over ← supersedes (ln_proposer n) b s;
  n' ← (if over : bool then
          n' ← node_follow n;
          rassert (p_election (ln_proposer n') = None) "a Nack closes the campaign";;
          rassert (rs_by_slot (p_rounds (ln_proposer n')) = ∅) "a Nack abandons every round";;
          mret n'
        else mret n);
  (if in_flight then rassert (ln_role n' = Follower) "a Nack at the work in flight deposes it"
   else rassert (ln_role n' = ln_role n) "a Nack at no work in flight leaves the role alone");;
  mret (at_node w m n').

(** *** Phase 1 *)

(** The first slot a fresh leadership allocates. *)
Definition win_frontier (highest : option Slot) (first : Slot) : Slot :=
  N.max (match highest with Some s => u64_saturating_add s 1 | None => first end) first.

(** The faulty chosen slots a promise quorum heals. *)
Definition prefix_heals n (outcome : Phase1Outcome NodeId V) : list (Slot * (Ballot * V)) :=
  filter (fun e : Slot * (Ballot * V) =>
            e.1 < ln_first n /\ (e.1 ∉ po_blocked outcome) /\ ln_chosen n !! e.1 = None)
    (bt_entries (po_recovered outcome)).

(** [try_become_leader]. *)
Definition log_try_win (k : nat) w m (adv : Slot -> Advance) : run (LogWorld V) :=
  let n := lw_nodes w m in
  match ln_role n with
  | Candidate b =>
      prom ← promised (ln_acceptor n);
      rassert (prom = b) "a live campaign's promise sits at its ballot";;
      won ← phase1_won (ln_proposer n) prom;
      if negb won then
        whole ← match p_election (ln_proposer n) with Some e => covered e | None => mret false end;
        rassert (whole = false) "a covered campaign at its own promise wins";;
        mret w
      else
      '(p, outcome) ← close_phase1 (ln_proposer n) (fun s => bool_decide (is_Some (ln_chosen n !! s)));
      rassert (po_config outcome = cfg b) "a campaign runs Phase 1 for its own configuration";;
      records ← acceptor_records (ln_acceptor n);
      let next := win_frontier (opt_max (last_key_of records) (po_highest_reported outcome)) (ln_first n) in
      p ← set_next_slot p next;
      member ← config_contains (cfg b) m;
      p ← open_authority p (u64_checked_sub next 1) (if member : bool then Some m else None);
      n ← foldM (fun n (e : Slot * (Ballot * V)) => mark_chosen m n e.1 e.2.2 e.2.1 adv)
            (mkLogNode (ln_acceptor n) p (Leader (po_ballot outcome)) (ln_chosen n) (ln_first n))
            (prefix_heals n outcome);
      p ← open_recovery (ln_proposer n) (snd <$> po_recovered outcome) (po_blocked outcome) (ln_first n)
            (p_next_slot (ln_proposer n)) Phase1Backed;
      w ← log_pump k (at_node w m (on_proposer n p)) m adv;
      let n := lw_nodes w m in
      prom ← promised (ln_acceptor n);
      rassert (prom ≤ po_ballot outcome)%B "a fresh leader's ballot is at or above its own promise";;
      rassert (p_election (ln_proposer n) = None) "winning closes the campaign";;
      rassert (ln_first n <= p_next_slot (ln_proposer n)) "a fresh leader's next slot sits at or past the chosen prefix";;
      mret w
  | _ => mret w
  end.

(** [next_campaign_round]. *)
Definition next_campaign_round n (at_least : N) : run (option N) :=
  prom ← promised (ln_acceptor n);
  let next := u64_checked_add (N.max (round prom) at_least) 1 in
  match next with
  | Some r =>
      rassert (round prom < r) "a campaign opens above the promise";;
      rassert (at_least < r) "a campaign opens above the operating ballot and the round floor"
  | None => mret tt
  end;;
  mret next.

(** [campaign], up to its registration. *)
Definition log_campaign w m (at_least : N) : run (LogWorld V) :=
  let n := lw_nodes w m in
  next ← next_campaign_round n at_least;
  match next with
  | None => n ← node_follow n; mret (at_node w m n)
  | Some r =>
      let b := mkBallot r m in
      p ← clear_leadership (ln_proposer n);
      '(a, _) ← set_promise (W:=WriteOp) (ln_acceptor n) b [];
      prom ← promised a;
      rassert (prom = b) "a candidate promises the ballot it campaigns at";;
      mret (at_node w m (mkLogNode a p (Candidate b) (ln_chosen n) (ln_first n)))
  end.

(** [send_prepare]. *)
Definition send_prepare w m (targets : list NodeId) b (from : Slot) : run (LogWorld V) :=
  prom ← promised (ln_acceptor (lw_nodes w m));
  rassert (b ≤ prom)%B "a Prepare's ballot is one this node promised";;
  rassert (Forall (fun to => to <> m) targets) "a node never prepares itself over the wire";;
  mret (log_send w ((fun _ => NPrepare b from) <$> targets)).

(** [start_phase1]: [cfg b] and [prior b] are what matchmaking, or the plain path,
    hands over; the recovery range starts at the first slot past the chosen prefix,
    or at the fold's hole below it. *)
Definition log_start_phase1 w m (k : nat) (adv : Slot -> Advance) : run (LogWorld V) :=
  let n := lw_nodes w m in
  match ln_role n with
  | Candidate b =>
      prom ← promised (ln_acceptor n);
      rassert (prom = b) "Phase 1 opens at the ballot the candidate promised";;
      rassert (p_election (ln_proposer n) = None) "one Phase 1 per ballot";;
      let from := match node_hole n with Some hole => N.min hole (ln_first n) | None => ln_first n end in
      rassert (from <= ln_first n) "a campaign's recovery range starts at or below the chosen prefix";;
      rassert (is_none_or (fun hole => from <= hole) (node_hole n)) "a campaign's recovery range covers the fold's hole";;
      records ← acceptor_records (ln_acceptor n);
      faulty ← acceptor_faulty (ln_acceptor n);
      '(p, targets) ← open_phase1 (ln_proposer n) (mkCampaign (Some m) b (cfg b) (prior b) from) records faulty;
      w ← send_prepare (at_node w m (on_proposer n p)) m targets b from;
      w ← log_try_win k w m adv;
      let n := lw_nodes w m in
      (if is_candidate (ln_role n) then
         rassert (p_election (ln_proposer n) <> None) "an open campaign holds its Phase 1"
       else rassert (is_leader (ln_role n) = true) "Phase 1 ends only in a leadership");;
      mret w
  | _ => Panic "Phase 1 opens on a candidate"
  end.

Definition raises_promise b (op : AcceptorWrite V) : Prop :=
  match op with SetPromise b' => b' = b | _ => False end.
#[export] Instance raises_promise_dec b op : Decision (raises_promise b op).
Proof. destruct op; simpl; apply _. Defined.

(** [on_prepare], from another node. *)
Definition log_on_prepare w m b (from : Slot) (limit : N) (operating : Ballot) : run (LogWorld V) :=
  let n := lw_nodes w m in
  '(a, writes, outcome) ← prepare (ln_acceptor n) b from [];
  match outcome with
  | PPromised raised =>
      let role := ln_role n in
      n ← node_contact (with_acceptor n a) m b;
      operating ← follow_ballot role operating b;
      prom ← promised (ln_acceptor n);
      rassert (prom = b) "a promise reply carries the exact promised ballot";;
      rassert (b ≤ operating)%B "the operating ballot follows a raised promise";;
      page ← promise_page (ln_acceptor n) from limit;
      (if raised : bool then
         rassert (Exists (raises_promise b) writes) "a promise reply ships with its durable raise in the batch" else mret tt);;
      mret (log_send (at_node w m n) [NPromise m b from page])
  | PBelowFloor =>
      rassert (length writes = 0%nat) "a nacked prepare queues no durable write";;
      push_nack w m b from
  | PRefused =>
      prom ← promised (ln_acceptor n);
      rassert (b ≤ prom)%B "a nacked prepare never raises the promise";;
      rassert (length writes = 0%nat) "a nacked prepare queues no durable write";;
      push_nack w m b from
  end.

(** [request_promise_page]. *)
Definition request_promise_page w m (to : NodeId) b (next : Slot) : run (LogWorld V) :=
  rassert (role_ballot (ln_role (lw_nodes w m)) = Some b) "a page is requested at this node's own ballot";;
  rassert (to <> m) "a node never pages its own promise";;
  send_prepare w m [to] b next.

(** [on_promise], with [on_probe_promise] for a leader. *)
Definition log_on_promise w m (sender : NodeId) b (from : Slot) (page : PromisePage V) (k : nat) (adv : Slot -> Advance)
  : run (LogWorld V) :=
  let n := lw_nodes w m in
  let leads := is_leader (ln_role n) in
  '(p, fold) ← (if leads then fold_probe_promise else fold_promise)
                 (ln_proposer n) sender b from (p_accepted page) (p_faulty page) (p_next_from_slot page);
  let w := at_node w m (on_proposer n p) in
  match fold with
  | Ignored => mret w
  | Continue next =>
      (if leads then mret tt else rassert (from < next) "a promise page's cursor advances");;
      request_promise_page w m sender b next
  | Answered => if leads then log_resolve w m adv else log_try_win k w m adv
  end.

(** [keep_paging_promisers]: a campaign that still pages asks again, past all it
    heard of, the peers that answered completely. *)
Definition log_keep_paging w m : run (LogWorld V) :=
  let n := lw_nodes w m in
  match ln_role n with
  | Candidate b =>
      open ← election (ln_proposer n);
      match open with
      | None => mret w
      | Some e =>
          pages ← paging e;
          ballot ← election_ballot e;
          prom ← promised (ln_acceptor n);
          if decide (pages = false \/ ballot <> prom) then mret w else
          from ← keep_alive_from e;
          first ← election_from_slot e;
          rassert (first <= from) "a keep-alive asks from the campaign's first slot or past it";;
          config ← election_config e;
          prior ← election_prior e;
          let audience peer := Exists (fun c => peer ∈ c_members c) (config :: prior) in
          promisers ← election_promised e;
          let answered := filter (fun peer => peer <> m /\ audience peer) (bs_elements promisers) in
          rassert (Forall audience answered) "a keep-alive asks only the campaign's configurations";;
          if decide (answered = []) then mret w else
          rassert (ballot = b) "a keep-alive Prepare runs this node's own campaign";;
          rassert (node ballot = m) "a keep-alive Prepare runs at a ballot this node minted";;
          w ← send_prepare w m answered ballot from;
          rassert (ln_role (lw_nodes w m) = Candidate ballot) "a keep-alive Prepare leaves the campaign open at its ballot";;
          mret w
      end
  | _ => mret w
  end.

Definition REPAIR_TIMEOUT_ELECTIONS : N := 3.

(** [tick_repair]: the repair probe of a leader asks its stragglers again, or is
    given up with the leadership once the recovery timeout has passed.  The pull of
    a hole's range is a catch-up request, which [log_serve] answers at any time. *)
Definition log_tick_repair w m (election_timeout : N) : run (LogWorld V) :=
  let n := lw_nodes w m in
  w ← match ln_role n with
      | Leader b =>
          '(p, elapsed) ← tick_probe (ln_proposer n);
          let n := on_proposer n p in
          match elapsed with
          | None => mret w
          | Some elapsed =>
              let timeout := N.min (election_timeout * REPAIR_TIMEOUT_ELECTIONS) u64_max in
              if decide (election_timeout <> 0 /\ timeout <= elapsed) then
                n ← node_follow n;
                rassert (p_probe (ln_proposer n) = None) "a resigned leader holds no probe";;
                mret (at_node w m n)
              else
                pb ← rexpect (p_probe p) "checked above";
                rassert (p_election p = None) "a probe outlives its campaign, never overlaps it";;
                '(ballot, from, to) ← requery pb m;
                rassert (pb_prior pb <> []) "a repair probe covers some prior configuration";;
                rassert (t_answered (pb_promises pb) <> ∅) "a repair probe inherits a promise quorum";;
                rassert (Forall (fun c => Forall (fun x => x = m \/ x ∈ t_answered (pb_promises pb) \/ x ∈ to) (c_members c)) (pb_prior pb))
                  "a repair probe re-asks every unanswered prior member";;
                rassert (Forall (fun x => x ∉ t_answered (pb_promises pb)) to)
                  "a repair probe never re-asks a member that answered";;
                rassert (Forall (fun x => Exists (fun c => x ∈ c_members c) (pb_prior pb)) to)
                  "a repair probe asks only members of a prior configuration";;
                rassert (ballot = b) "a repair probe queries at the leader's ballot";;
                send_prepare (at_node w m n) m to ballot from
          end
      | _ => mret w
      end;
  let n := lw_nodes w m in
  floor ← first_slot (ln_acceptor n);
  rassert (is_none_or (fun hole => floor <= hole) (node_hole n)) "a repair hole is retained";;
  mret w.

(** *** Learning *)

Definition log_on_commit w m b s v (adv : Slot -> Advance) : run (LogWorld V) :=
  let n := lw_nodes w m in
  n ← mark_chosen m n s v b adv;
  let n := if is_open_at (p_rounds (ln_proposer n)) s b
           then on_proposer n (close_round (ln_proposer n) s) else n in
  floor ← first_slot (ln_acceptor n);
  (if decide (floor <= s) then rassert (is_Some (ln_chosen n !! s)) "a committed slot is learned chosen" else mret tt);;
  rassert (is_open_at (p_rounds (ln_proposer n)) s b = false) "a committed round is closed";;
  mret (at_node w m n).

Definition CATCHUP_BATCH : nat := 64.

(** The chosen commands from [s] on, contiguous, below [last], at their recorded
    ballots. *)
Fixpoint replay_page (fuel : nat) n (operating : Ballot) s (last : Slot) : run (list (Slot * (Ballot * V))) :=
  match fuel with
  | O => mret []
  | S fuel' =>
      if decide (last <= s) then mret [] else
      match ln_chosen n !! s with
      | None => mret []
      | Some v =>
          held ← acceptor_record (ln_acceptor n) s;
          rest ← replay_page fuel' n operating (s + 1) last;
          mret ((s, (from_option fst operating held, v)) :: rest)
      end
  end.

(** [serve_catchup]. *)
Definition log_serve w m (from : Slot) (operating : Ballot) : run (LogWorld V) :=
  let n := lw_nodes w m in
  if decide (ln_first n = 0) then mret w else
  floor ← first_slot (ln_acceptor n);
  if decide (from < floor) then mret (log_send w [NTrimmed floor]) else
  if decide (ln_first n <= from) then mret w else
  entries ← replay_page CATCHUP_BATCH n operating from (ln_first n);
  match last entries with
  | None => mret w
  | Some (end_, _) =>
      rassert (length entries <= CATCHUP_BATCH)%nat "a catch-up page is bounded";;
      rassert (fst <$> head entries = Some from) "a catch-up page starts at the requested slot";;
      rassert (end_ < ln_first n) "a catch-up page ends inside the chosen prefix";;
      rassert (Forall (fun e : (Slot * (Ballot * V)) * (Slot * (Ballot * V)) => e.2.1 = e.1.1 + 1) (zip entries (tail entries)))
        "a catch-up page is contiguous";;
      rassert (length entries = CATCHUP_BATCH \/ end_ + 1 = ln_first n \/ ln_chosen n !! (end_ + 1) = None)
        "a catch-up page stops only at its bound, the prefix's end or a hole";;
      mret (log_send w [NReplay entries])
  end.

(** [on_catchup_response]. *)
Definition log_on_replay w m (entries : list (Slot * (Ballot * V))) (adv : Slot -> Advance) : run (LogWorld V) :=
  let n := lw_nodes w m in
  floor ← first_slot (ln_acceptor n);
  n' ← foldM (fun n (e : Slot * (Ballot * V)) => mark_chosen m n e.1 e.2.2 e.2.1 adv) n entries;
  rassert (ln_first n <= ln_first n') "a replay never rewinds the prefix";;
  floor' ← first_slot (ln_acceptor n');
  rassert (floor <= floor') "a replay never lowers the floor";;
  mret (at_node w m n').

Definition log_advance w m (adv : Advance) : run (LogWorld V) :=
  n ← node_advance m (lw_nodes w m) adv; mret (at_node w m n).

(** *** Retention and restarts *)

Definition log_compact w m (first : Slot) (sealed : JournalState) : run (LogWorld V) :=
  n ← node_compact m (lw_nodes w m) first sealed; mret (at_node w m n).

(** [on_trimmed_to]. *)
Definition log_on_trimmed w m (point : Slot) (state : JournalState) (adv : Advance) : run (LogWorld V) :=
  let n := lw_nodes w m in
  floor ← first_slot (ln_acceptor n);
  if decide (point <= floor) then mret w else
  '(a, _) ← trim_to (ln_acceptor n) point state [];
  p ← probe_retain_from (ln_proposer n) point;
  p ← retain_rounds_from p point;
  p ← raise_next_slot p point;
  let n' := mkLogNode a p (ln_role n) (bt_split_off point (ln_chosen n)) (N.max (ln_first n) point) in
  floor ← first_slot (ln_acceptor n');
  rassert (floor = point) "a trim-point jump raises the floor to the point";;
  rassert (floor_of (ln_acceptor n) < point) "a trim-point jump never lowers the floor";;
  rassert (point <= ln_first n') "a trim-point jump chooses everything below the point";;
  rassert (ln_first n <= ln_first n') "a trim-point jump never rewinds the chosen index";;
  rassert (a_promised a = a_promised (ln_acceptor n)) "a trim-point jump never moves the promise";;
  rassert (floor <= p_next_slot p) "a trim-point jump carries the allocator past the dropped prefix";;
  rassert (is_none_or (fun pb => is_none_or (fun s => point <= s) (bs_first (pb_blocked pb))) (p_probe p))
    "a repair probe surviving a trim-point jump keeps only retained slots";;
  n' ← node_advance m n' adv;
  mret (at_node w m n').

(** What a restart reads back: the records of [lost] slots come back faulty. *)
Definition reread_records n (lost : gset Slot) : gmap Slot (Ballot * V) :=
  filter (fun e => e.1 ∉ lost) (w_entries (a_records (ln_acceptor n))).
Definition faulty_records n (lost : gset Slot) : gmap Slot Ballot :=
  (fst <$> filter (fun e : Slot * (Ballot * V) => e.1 ∈ lost) (w_entries (a_records (ln_acceptor n))))
    ∪ w_entries (a_faulty (ln_acceptor n)).

Definition log_reboot w m (lost : gset Slot) (first : Slot) : run (LogWorld V) :=
  let n := lw_nodes w m in
  let records := reread_records n lost in
  let faulty := faulty_records n lost in
  floor ← first_slot (ln_acceptor n);
  rassert (floor <= first) "the durable floor never outruns the durable chosen index";;
  rassert (Forall (fun s => is_Some (records !! s) \/ is_Some (faulty !! s)) (range floor first))
    "every retained slot below the chosen prefix has a durable record";;
  a ← acceptor_new (a_promised (ln_acceptor n)) records floor faulty;
  next ← match opt_max (last_key_of records) (last_key_of faulty) with
         | Some s => u64_add s 1
         | None => mret first
         end;
  p ← set_next_slot proposer_new (N.max next first);
  mret (at_node w m (mkLogNode a p Follower (snd <$> filter (fun e => e.1 < first) records) first)).

(** [repair_record]: a damaged record is written again from the node's own copy. *)
Definition log_repair w m s : run (LogWorld V) :=
  let n := lw_nodes w m in
  '(a, writes, rewritten) ← acceptor_rewrite (W:=WriteOp) (ln_acceptor n) s [];
  rassert (length writes = if decide (is_Some rewritten) then 1%nat else 0%nat)
    "a repair writes the record once, or nothing";;
  mret (at_node w m (with_acceptor n a)).

Definition log_step_down w m : run (LogWorld V) :=
  match ln_role (lw_nodes w m) with
  | Leader _ =>
      n ← node_follow (lw_nodes w m);
      rassert (rs_by_slot (p_rounds (ln_proposer n)) = ∅) "a resigned leader holds no round";;
      fence ← fence (ln_proposer n);
      rassert (fence = None) "a resigned leader holds no fence";;
      mret (at_node w m n)
  | _ => mret w
  end.

(** ** Events *)

Definition log_handle w (l : LogLabel V) : run (LogWorld V) :=
  match l with
  | LCampaign m at_least => log_campaign w m at_least
  | LStart m k adv => log_start_phase1 w m k adv
  | LPrepare m b from limit operating => log_on_prepare w m b from limit operating
  | LPromise m sender b from page k adv => log_on_promise w m sender b from page k adv
  | LKeepAlive m => log_keep_paging w m
  | LTickRepair m election_timeout => log_tick_repair w m election_timeout
  | LPump m k adv => log_pump k w m adv
  | LPropose m v column adv => log_propose w m v column adv
  | LAccept m b s v operating adv => log_on_accept w m b s v operating adv
  | LAccepted m sender b s vhash adv => log_on_accepted w m sender b s vhash adv
  | LNack m b s => log_on_nack w m b s
  | LCommit m b s v adv => log_on_commit w m b s v adv
  | LServe m from operating => log_serve w m from operating
  | LReplay m entries adv => log_on_replay w m entries adv
  | LAdvance m adv => log_advance w m adv
  | LCompact m first sealed => log_compact w m first sealed
  | LTrim m point state adv => log_on_trimmed w m point state adv
  | LRepair m s => log_repair w m s
  | LReboot m lost first => log_reboot w m lost first
  | LStepDown m => log_step_down w m
  end.

Definition label_node (l : LogLabel V) : NodeId :=
  match l with
  | LCampaign m _ | LStart m _ _ | LPrepare m _ _ _ _ | LPromise m _ _ _ _ _ _ | LKeepAlive m | LTickRepair m _
  | LPump m _ _ | LPropose m _ _ _ | LAccept m _ _ _ _ _ | LAccepted m _ _ _ _ _ | LNack m _ _ | LCommit m _ _ _ _
  | LServe m _ _ | LReplay m _ _ | LAdvance m _ | LCompact m _ _ | LTrim m _ _ _ | LRepair m _ | LReboot m _ _
  | LStepDown m => m
  end.

(** A restart reads its watermarks back from the disk. *)
Definition restarts (l : LogLabel V) : bool := match l with LReboot _ _ _ => true | _ => false end.

(** An entry point of the node, with the checks at its exit. *)
Definition log_happens w (l : LogLabel V) : run (LogWorld V) :=
  let m := label_node l in
  marks ← durable_marks (lw_nodes w m);
  w' ← log_handle w l;
  (if restarts l then mret tt else assert_marks_monotone marks (lw_nodes w' m));;
  node_assert_invariants m (lw_nodes w' m);;
  mret w'.

Definition floor_at w m : Slot := floor_of (ln_acceptor (lw_nodes w m)).
Definition promised_at w m : Ballot := a_promised (ln_acceptor (lw_nodes w m)).

(** The repair counter leaves room for one more, past what its faulty slots will take. *)
Definition repairs_left a : Prop := a_faulty_repaired a + msize (w_entries (a_faulty a)) < u64_max.

(** When an event can happen: messages are delivered that were sent (to any
    node: a message names no addressee), Phase 1 opens on a campaign whose
    configurations are known, and slots and repairs stay below their width. *)
Definition log_enabled (led : Ballot -> Prop) w (l : LogLabel V) : Prop :=
  match l with
  | LStart m _ _ =>
      match ln_role (lw_nodes w m) with
      | Candidate b => led b /\ p_election (ln_proposer (lw_nodes w m)) = None
      | _ => False
      end
  | LPrepare m b from limit _ => NPrepare b from ∈ lw_net w /\ node b <> m /\ 0 < limit <= PROMISE_BATCH
  | LPromise m sender b from page _ _ => NPromise sender b from page ∈ lw_net w /\ node b = m
  | LPropose m v column _ =>
      p_next_slot (ln_proposer (lw_nodes w m)) < u64_max /\
      match ln_role (lw_nodes w m) with Leader b => is_none_or (fun c => column_valid (cfg b) (Some c)) column | _ => True end
  | LAccept m b s v _ _ => NAccept b s v ∈ lw_net w /\ node b <> m
  | LAccepted m sender b s vhash _ => NAccepted sender b s vhash ∈ lw_net w
  | LNack m b s => NNack b s ∈ lw_net w
  | LCommit m b s v _ => NCommit b s v ∈ lw_net w
  | LReplay m entries _ => NReplay entries ∈ lw_net w
  | LTrim m point _ _ => NTrimmed point ∈ lw_net w
  | LRepair m _ => repairs_left (ln_acceptor (lw_nodes w m))
  | LReboot m lost first =>
      floor_at w m <= first <= ln_first (lw_nodes w m) /\ msize (faulty_records (lw_nodes w m) lost) <= u64_max
  | _ => True
  end.

Inductive log_reachable (led : Ballot -> Prop) : LogWorld V -> Prop :=
| log_starts : log_reachable led log_init
| log_moves w l w' :
    log_reachable led w -> log_enabled led w l -> log_happens w l = Done w' -> log_reachable led w'.
End world.
