(* ===== verification/LogInv.v ===== *)
(** * The invariant of the replicated log

    What every reachable state of [LogWorld] satisfies, and that it is kept by the
    elementary changes the handlers are made of: a node moving ahead, a proposal,
    a vote, a decision, a message. *)

From stdpp Require Import functions.
From S2P Require Import Prelude BTree Types Retained Journal Contract Acceptor PromisePage QuorumSystem AcceptorConfig Rounds Tally Leadership Proposer Election LogWorld.

Section inv.
Context {V : Type} `{!EqDecision V, !Fingerprint V, !FromWrite V WriteOp}.
Context (cfg : Ballot -> AcceptorConfig NodeId) (prior : Ballot -> list (AcceptorConfig NodeId)).
Context (led : Ballot -> Prop).
Implicit Types (n : LogNode V) (w : LogWorld V) (m : NodeId) (b c : Ballot) (s : Slot) (v : V)
  (a : Acceptor V) (p : Proposer NodeId V) (page : PromisePage V).

(** ** What can still be chosen *)

Definition log_voted w m b s : Prop := (m, b, s) ∈ lw_votes w.

(** [voters] decide a round of [b]. *)
Definition chooses b (voters : gset NodeId) : Prop :=
  exists column, phase2_holds (c_quorum_system (cfg b)) (c_members (cfg b)) voters column.

(** No quorum of [b] votes for slot [s] any more. *)
Definition shut w b s : Prop :=
  forall voters, chooses b voters ->
    exists m, m ∈ voters /\ (b < promised_at w m)%B /\ ~ log_voted w m b s.

(** Below [b] only [v], or nothing at all, is still choosable. *)
Definition safe w b s v : Prop :=
  forall b', led b' -> (b' < b)%B -> lw_rounds w !! (b', s) = Some v \/ shut w b' s.
Definition free w b s : Prop := forall b', led b' -> (b' < b)%B -> shut w b' s.

Definition decided_by w b s : Prop := exists c v, (c, s, v) ∈ lw_decided w /\ (c ≤ b)%B.
Definition decided_val w b s v : Prop := exists c, (c, s, v) ∈ lw_decided w /\ (c ≤ b)%B.

(** ** A node *)

(** The ballot an acceptor still holds for a slot, readable or rotted. *)
Definition held_at a s b : Prop :=
  (exists v, w_entries (a_records a) !! s = Some (b, v)) \/ w_entries (a_faulty a) !! s = Some b.

Record acc_ok w m a : Prop := {
  ak_wf : acceptor_wf a;
  ak_width : a_faulty_repaired a + msize (w_entries (a_faulty a)) <= u64_max;
  ak_record : forall s b v, w_entries (a_records a) !! s = Some (b, v) -> lw_rounds w !! (b, s) = Some v;
  ak_faulty : forall s b, w_entries (a_faulty a) !! s = Some b -> is_Some (lw_rounds w !! (b, s));
  ak_voted : forall b s, log_voted w m b s -> (b ≤ a_promised a)%B;
  ak_held : forall b s, log_voted w m b s -> floor_of a <= s ->
    exists hb, held_at a s hb /\ ((b ≤ hb)%B \/ decided_by w hb s) }.

(** The slots of the chosen prefix, and those known chosen past it: decided, with
    a record that carries the decided value.  A hole (its value lost) of a campaign
    or a leadership was decided below its ballot. *)
Definition role_above (r : LogRole) c : Prop :=
  match r with Follower => True | Candidate b | Leader b => (c < b)%B end.

Record slot_ok w n s c v : Prop := {
  so_decided : (c, s, v) ∈ lw_decided w;
  so_promised : floor_of (ln_acceptor n) <= s -> (c ≤ a_promised (ln_acceptor n))%B;
  so_record : floor_of (ln_acceptor n) <= s -> forall rb x,
    w_entries (a_records (ln_acceptor n)) !! s = Some (rb, x) -> x = v /\ (c ≤ rb)%B;
  so_chosen : forall x, ln_chosen n !! s = Some x ->
    x = v /\ is_Some (w_entries (a_records (ln_acceptor n)) !! s);
  so_held : floor_of (ln_acceptor n) <= s -> exists hb, held_at (ln_acceptor n) s hb;
  so_above : floor_of (ln_acceptor n) <= s -> ln_chosen n !! s = None -> role_above (ln_role n) c }.

(** What a tally heard: everyone it counts promised its ballot, and every earlier
    vote of theirs on a slot in scope reached it. *)
Definition told w b (reports : gmap Slot (gmap NodeId Ballot)) (have : gmap Slot (Ballot * V)) s m : Prop :=
  forall b', (b' < b)%B -> log_voted w m b' s ->
    exists hb, reported reports have s m hb /\ ((b' ≤ hb)%B \/ decided_by w hb s).

Record tally_ok w b (t : PromiseTally NodeId) (reports : gmap Slot (gmap NodeId Ballot))
  (have : gmap Slot (Ballot * V)) (scope : Slot -> Prop) : Prop := {
  tk_ballot : t_ballot t = b;
  tk_promised : forall m, m ∈ t_answered t \/ t_from_slot t < owed t m -> (b ≤ promised_at w m)%B;
  tk_have : forall s rb v, have !! s = Some (rb, v) -> lw_rounds w !! (rb, s) = Some v /\ (rb < b)%B;
  tk_told : forall m s, scope s -> t_from_slot t <= s -> m ∈ t_answered t \/ s < owed t m ->
    told w b reports have s m }.

Record election_ok w b (e : Election NodeId V) : Prop := {
  eo_wf : election_wf e;
  eo_config : e_config e = cfg b;
  eo_prior : e_prior e = prior b;
  eo_tally : tally_ok w b (e_promises e) (e_faulty_reports e) (e_recovered e) (fun _ => True);
  eo_width : forall s, is_Some (e_faulty_reports e !! s) -> s < u64_max;
  eo_fresh : forall s, lw_rounds w !! (b, s) = None }.

Record probe_ok w b (pb : RepairProbe NodeId V) : Prop := {
  bo_wf : probe_wf pb;
  bo_blocked : pb_blocked pb <> ∅;
  bo_some : prior b <> [] /\ t_answered (pb_promises pb) <> ∅;
  bo_prior : pb_prior pb = prior b;
  bo_tally : tally_ok w b (pb_promises pb) (pb_faulty_reports pb) (pb_best_have pb) (fun s => s ∈ pb_blocked pb);
  bo_fresh : forall s, s ∈ pb_blocked pb -> lw_rounds w !! (b, s) = None }.

(** A slot recovery still has to visit: what it may propose there is safe. *)
Definition sweep_ok w b (recovered : gmap Slot V) s : Prop :=
  lw_rounds w !! (b, s) = None /\
  match recovered !! s with Some v => safe w b s v | None => free w b s end.

Record recovery_ok w n b (rc : Recovery V) : Prop := {
  ro_policy : rc_policy rc = Phase1Backed;
  ro_range : rc_cursor rc <= rc_end rc <= p_next_slot (ln_proposer n);
  ro_recovered : forall s, is_Some (rc_recovered rc !! s) -> s < rc_end rc;
  ro_sweep : forall s, rc_cursor rc <= s < rc_end rc -> (s ∉ rc_blocked rc) ->
    floor_of (ln_acceptor n) <= s -> ln_chosen n !! s = None -> sweep_ok w b (rc_recovered rc) s;
  ro_first : forall s, rc_cursor rc <= s < rc_end rc ->
    floor_of (ln_acceptor n) <= s -> ln_chosen n !! s = None -> ln_first n <= s }.

Definition round_ok w b s (r : Round NodeId V) : Prop :=
  r_ballot r = b /\ lw_rounds w !! (b, s) = Some (r_command r) /\ round_wf (cfg b) r /\
  exists votes, r_custody r = Colocated votes /\ forall m, m ∈ votes -> log_voted w m b s.

Record leader_ok w n b : Prop := {
  lo_election : p_election (ln_proposer n) = None;
  lo_probe : is_none_or (probe_ok w b) (p_probe (ln_proposer n));
  lo_blocked : forall pb s, p_probe (ln_proposer n) = Some pb -> s ∈ pb_blocked pb ->
    s < p_next_slot (ln_proposer n) /\ is_none_or (fun rc => s ∈ rc_blocked rc) (p_recovery (ln_proposer n));
  lo_recovery : is_none_or (recovery_ok w n b) (p_recovery (ln_proposer n));
  lo_rounds : forall s r, rs_by_slot (p_rounds (ln_proposer n)) !! s = Some r -> round_ok w b s r;
  lo_fresh : forall s, p_next_slot (ln_proposer n) <= s -> lw_rounds w !! (b, s) = None /\ free w b s;
  lo_width : p_next_slot (ln_proposer n) <= u64_max;
  lo_first : (a_promised (ln_acceptor n) ≤ b)%B -> ln_first n <= p_next_slot (ln_proposer n) }.

Definition idle p : Prop :=
  p_election p = None /\ rounds_is_empty (p_rounds p) /\ p_probe p = None /\ p_recovery p = None.

(** A campaign: nothing proposed at its ballot, and its Phase 1, once open, sound. *)
Definition campaign_ok w b (e : option (Election NodeId V)) (first : Slot) : Prop :=
  match e with
  | Some e => led b /\ election_ok w b e /\ t_from_slot (e_promises e) <= first
  | None => forall s, lw_rounds w !! (b, s) = None
  end.

Lemma campaign_ok_first w b e first first' : first <= first' -> campaign_ok w b e first -> campaign_ok w b e first'.
Proof. intros Hle. destruct e as [e|]; [|done]. intros (? & ? & ?). split_and!; [done..|]. lia. Qed.

Definition role_ok w m n : Prop :=
  match ln_role n with
  | Follower => idle (ln_proposer n)
  | Candidate b =>
      node b = m /\ a_promised (ln_acceptor n) = b /\
      rounds_is_empty (p_rounds (ln_proposer n)) /\ p_probe (ln_proposer n) = None /\ p_recovery (ln_proposer n) = None /\
      campaign_ok w b (p_election (ln_proposer n)) (ln_first n)
  | Leader b => node b = m /\ led b /\ (b ≤ a_promised (ln_acceptor n))%B /\ leader_ok w n b
  end.

(** What the node's own checks ask for beside: a leader's rounds sit above the floor
    and in its log, its fence below its frontier, its ballot above zero; and a record
    of the chosen prefix not learned chosen is the node's own re-proposal. *)
Record node_shape m n : Prop := {
  sh_rounds : forall s, is_Some (rs_by_slot (p_rounds (ln_proposer n)) !! s) -> floor_of (ln_acceptor n) <= s;
  sh_recorded : forall s b, ln_role n = Leader b -> (a_promised (ln_acceptor n) ≤ b)%B ->
    is_Some (rs_by_slot (p_rounds (ln_proposer n)) !! s) -> is_Some (w_entries (a_records (ln_acceptor n)) !! s);
  sh_fence : is_none_or (fun f => is_leader (ln_role n) = true /\ f < p_next_slot (ln_proposer n))
    (au_fence (p_authority (ln_proposer n)));
  sh_minted : is_none_or (fun b => zero < b)%B (role_ballot (ln_role n));
  sh_own : forall s rb v, s < ln_first n -> ln_chosen n !! s = None ->
    w_entries (a_records (ln_acceptor n)) !! s = Some (rb, v) -> node rb = m }.

(** A node whose state is at or past the one the world holds for it. *)
Record node_ok w m n : Prop := {
  nk_acc : acc_ok w m (ln_acceptor n);
  nk_floor : floor_of (ln_acceptor n) <= ln_first n;
  nk_width : ln_first n <= u64_max;
  nk_retained : forall s, is_Some (ln_chosen n !! s) -> floor_of (ln_acceptor n) <= s;
  nk_slots : forall s, s < ln_first n \/ is_Some (ln_chosen n !! s) -> exists c v, slot_ok w n s c v;
  nk_ahead : (promised_at w m ≤ a_promised (ln_acceptor n))%B;
  nk_role : role_ok w m n;
  nk_shape : node_shape m n }.

(** ** Messages and the world *)

Definition page_true w m b (from : Slot) page : Prop :=
  (b ≤ promised_at w m)%B /\
  (forall s rb v, p_accepted page !! s = Some (rb, v) -> lw_rounds w !! (rb, s) = Some v /\ (rb ≤ b)%B) /\
  (forall s, is_Some (p_faulty page !! s) -> s < u64_max) /\
  (forall s b', in_slice from (p_next_from_slot page) s -> (b' < b)%B -> log_voted w m b' s ->
     exists hb, ((exists v, p_accepted page !! s = Some (hb, v)) \/ p_faulty page !! s = Some hb) /\
       ((b' ≤ hb)%B \/ decided_by w hb s)).

Definition msg_ok w (msg : LogMsg V) : Prop :=
  match msg with
  | NPrepare _ _ | NNack _ _ => True
  | NPromise m b from page => node b <> m /\ page_true w m b from page
  | NAccept b s v => lw_rounds w !! (b, s) = Some v
  | NAccepted m b s vhash => log_voted w m b s /\ exists v, lw_rounds w !! (b, s) = Some v /\ vhash = fingerprint v
  | NCommit b s v => lw_rounds w !! (b, s) = Some v /\ decided_val w b s v
  | NReplay entries => forall s b v, (s, (b, v)) ∈ entries -> lw_rounds w !! (b, s) = Some v /\ decided_val w b s v
  | NTrimmed point => point <= u64_max /\ forall s, s < point -> exists c v, (c, s, v) ∈ lw_decided w
  end.

Record log_inv w : Prop := {
  li_nodes : forall m, node_ok w m (lw_nodes w m);
  li_rounds : forall b s v, lw_rounds w !! (b, s) = Some v ->
    led b /\ s < u64_max /\ (b ≤ promised_at w (node b))%B /\ safe w b s v;
  li_votes : forall m b s, log_voted w m b s -> is_Some (lw_rounds w !! (b, s));
  li_decided : forall b s v, (b, s, v) ∈ lw_decided w ->
    lw_rounds w !! (b, s) = Some v /\ exists voters, chooses b voters /\ forall m, m ∈ voters -> log_voted w m b s;
  li_net : forall msg, msg ∈ lw_net w -> msg_ok w msg }.

(** ** Agreement from the invariant *)

Lemma decided_not_shut w b s v : log_inv w -> (b, s, v) ∈ lw_decided w -> ~ shut w b s.
Proof.
  intros Hinv (_ & voters & Hc & Hv)%(li_decided _ Hinv) Hs. destruct (Hs voters Hc) as (m & Hm & _ & Hn).
  by apply Hn, Hv.
Qed.

(** Every value proposed at or above a deciding ballot is the decided one. *)
Lemma decided_dominates w c s v b x :
  log_inv w -> (c, s, v) ∈ lw_decided w -> (c ≤ b)%B -> lw_rounds w !! (b, s) = Some x -> x = v.
Proof.
  intros Hinv Hd Hle Hx. destruct (li_decided _ Hinv _ _ _ Hd) as [Hr _].
  destruct (decide (c = b)) as [->|Hne]; [congruence|].
  destruct (li_rounds _ Hinv _ _ _ Hx) as (_ & _ & _ & Hsafe). destruct (li_rounds _ Hinv _ _ _ Hr) as (Hc & _).
  destruct (Hsafe c Hc) as [?|Hshut]; [by apply ord_le_ne_lt|congruence|].
  by destruct (decided_not_shut w c s v Hinv Hd).
Qed.

Lemma decided_agree w b1 b2 s v1 v2 :
  log_inv w -> (b1, s, v1) ∈ lw_decided w -> (b2, s, v2) ∈ lw_decided w -> v1 = v2.
Proof.
  intros Hinv H1 H2. pose proof (proj1 (li_decided _ Hinv _ _ _ H1)) as R1.
  pose proof (proj1 (li_decided _ Hinv _ _ _ H2)) as R2.
  destruct (total ord_le b1 b2) as [Hle|Hle].
  - symmetry. by eapply decided_dominates.
  - by eapply decided_dominates.
Qed.

Lemma decided_val_agree w b s v x c : log_inv w -> decided_val w b s v -> (c, s, x) ∈ lw_decided w -> x = v.
Proof. intros Hinv (c' & Hd & _) Hc. by eapply decided_agree. Qed.

(** A decided slot has a lowest deciding ballot. *)
Lemma decided_lowest w b s :
  decided_by w b s -> exists c v, (c, s, v) ∈ lw_decided w /\ (c ≤ b)%B /\
    forall c' v', (c', s, v') ∈ lw_decided w -> (c ≤ c')%B.
Proof.
  intros (c0 & v0 & Hin & Hle). unfold decided_by. clear -Hin Hle.
  assert (exists c v, (c, s, v) ∈ lw_decided w /\ (c ≤ c0)%B /\
    forall c' v', (c', s, v') ∈ lw_decided w -> (c ≤ c')%B) as (c & v & ? & ? & ?).
  2: { exists c, v. split_and!; [done| |done]. by eapply ord_le_trans. }
  clear Hle. revert c0 v0 Hin. induction (lw_decided w) as [|[[c1 s1] v1] l IH]; intros c0 v0 Hin.
  { by apply not_elem_of_nil in Hin. }
  destruct (decide (Exists (fun e : Ballot * Slot * V => e.1.2 = s) l)) as [Hex|Hnone]; rewrite Exists_exists in *.
  - destruct Hex as ([[c2 s2] v2] & H2 & E2). cbn in E2. subst s2. destruct (IH _ _ H2) as (c & v & Hc & Hcle & Hmin).
    destruct (decide (s1 = s /\ (c1 ≤ c)%B)) as [[-> Hle]|Hno].
    + exists c1, v1. split_and!; [by left| |].
      * apply elem_of_cons in Hin as [[= -> ->]|Hin]; [apply ord_le_refl|]. eapply ord_le_trans; [done|]. by eapply Hmin.
      * intros c' v' [[= -> ->]|Hin']%elem_of_cons; [apply ord_le_refl|]. eapply ord_le_trans; [done|]. by eapply Hmin.
    + assert (forall c' v', (c', s, v') ∈ (c1, s1, v1) :: l -> (c ≤ c')%B) as Hmin'.
      { intros c' v' [[= -> <- ->]|Hin']%elem_of_cons; [|by eapply Hmin].
        destruct (total ord_le c c1); [done|]. by destruct Hno. }
      exists c, v. split_and!; [by right|by eapply Hmin'|done].
  - exists c0, v0. split_and!; [done|apply ord_le_refl|]. apply elem_of_cons in Hin as [[= -> <- ->]|Hin].
    2: { destruct Hnone. by exists (c0, s, v0). }
    intros c' v' [[= -> ->]|Hin']%elem_of_cons; [apply ord_le_refl|]. destruct Hnone. by exists (c', s, v').
Qed.
(** ** What only grows *)

Record log_grows w w' : Prop := {
  g_promised : forall m, (promised_at w m ≤ promised_at w' m)%B;
  g_voted : forall m b s, log_voted w' m b s -> log_voted w m b s \/ (promised_at w m ≤ b)%B;
  g_votes : forall m b s, log_voted w m b s -> log_voted w' m b s;
  g_rounds : forall b s v, lw_rounds w !! (b, s) = Some v -> lw_rounds w' !! (b, s) = Some v;
  g_decided : forall c s v, (c, s, v) ∈ lw_decided w -> (c, s, v) ∈ lw_decided w' }.

Lemma log_grows_refl w : log_grows w w.
Proof. constructor; [intros; apply ord_le_refl|by left|done..]. Qed.

Lemma log_grows_trans w1 w2 w3 : log_grows w1 w2 -> log_grows w2 w3 -> log_grows w1 w3.
Proof.
  intros H1 H2. constructor.
  - intros m. eapply ord_le_trans; by apply g_promised.
  - intros m b s [Hv|Hle]%(g_voted _ _ H2); [by apply (g_voted _ _ H1)|right].
    eapply ord_le_trans; [|done]. by apply (g_promised _ _ H1).
  - intros m b s Hv. by apply (g_votes _ _ H2), (g_votes _ _ H1).
  - intros b s v Hr. by apply (g_rounds _ _ H2), (g_rounds _ _ H1).
  - intros c s v Hd. by apply (g_decided _ _ H2), (g_decided _ _ H1).
Qed.

Lemma log_send_grows w msgs : log_grows w (log_send w msgs).
Proof. constructor; [intros; apply ord_le_refl|by left|done..]. Qed.

Lemma decide_at_grows w b s v : log_grows w (decide_at w b s v).
Proof. constructor; [intros m; apply ord_le_refl|by left|done|done|]. intros c s' v' ?. by right. Qed.

Section growth.
Context (w w' : LogWorld V) (Hg : log_grows w w').

Lemma shut_grows b s : shut w b s -> shut w' b s.
Proof using Hg.
  intros Hs voters Hc. destruct (Hs voters Hc) as (m & Hm & Hlt & Hn). exists m. split_and!; [done|..].
  - eapply ord_lt_le_trans; [done|]. by apply g_promised.
  - intros [?|Hle]%(g_voted _ _ Hg); [done|]. by apply Hlt.
Qed.

Lemma safe_grows b s v : safe w b s v -> safe w' b s v.
Proof using Hg.
  intros Hs b' Hl Hlt. destruct (Hs b' Hl Hlt); [left; by apply (g_rounds _ _ Hg)|right; by apply shut_grows].
Qed.

Lemma free_grows b s : free w b s -> free w' b s.
Proof using Hg. intros Hs b' Hl Hlt. by apply shut_grows, Hs. Qed.

Lemma decided_by_grows b s : decided_by w b s -> decided_by w' b s.
Proof using Hg. intros (c & v & Hd & Hle). exists c, v. split; [by apply (g_decided _ _ Hg)|done]. Qed.

Lemma decided_val_grows b s v : decided_val w b s v -> decided_val w' b s v.
Proof using Hg. intros (c & Hd & Hle). exists c. split; [by apply (g_decided _ _ Hg)|done]. Qed.

(** An acceptor that promised [b] casts no new vote below it. *)
Lemma voted_below m b b' s : (b ≤ promised_at w m)%B -> (b' < b)%B -> log_voted w' m b' s -> log_voted w m b' s.
Proof using Hg.
  intros Hp Hlt [?|Hle]%(g_voted _ _ Hg); [done|]. exfalso. apply Hlt. by eapply ord_le_trans.
Qed.

Lemma told_grows b reports have s m :
  (b ≤ promised_at w m)%B -> told w b reports have s m -> told w' b reports have s m.
Proof using Hg.
  intros Hp Ht b' Hlt Hv%(voted_below _ _ _ _ Hp Hlt). destruct (Ht b' Hlt Hv) as (hb & Hr & Hd).
  exists hb. split; [done|]. destruct Hd; [by left|right; by apply decided_by_grows].
Qed.

Lemma tally_ok_grows b t reports have scope :
  tally_ok w b t reports have scope -> tally_ok w' b t reports have scope.
Proof using Hg.
  intros [Hb Hp Hh Ht]. constructor; [done|..].
  - intros m Hm. eapply ord_le_trans; [by apply Hp|]. by apply g_promised.
  - intros s rb v Hs%Hh. split; [apply (g_rounds _ _ Hg), Hs|apply Hs].
  - intros m s Hsc Hf Hm. apply told_grows; [|by apply Ht]. apply Hp. destruct Hm; [by left|right; lia].
Qed.

Lemma page_true_grows m b from page : page_true w m b from page -> page_true w' m b from page.
Proof using Hg.
  intros (Hp & Ha & Hf & Ht). split_and!; [|..].
  - eapply ord_le_trans; [done|]. by apply g_promised.
  - intros s rb v Hs%Ha. split; [apply (g_rounds _ _ Hg), Hs|apply Hs].
  - done.
  - intros s b' Hs Hlt Hv%(voted_below _ _ _ _ Hp Hlt). destruct (Ht s b' Hs Hlt Hv) as (hb & Hr & Hd).
    exists hb. split; [done|]. destruct Hd; [by left|right; by apply decided_by_grows].
Qed.

Lemma msg_ok_grows msg : msg_ok w msg -> msg_ok w' msg.
Proof using Hg.
  destruct msg as [b from|m b from page|b s v|m b s h|b s|b s v|entries|point]; simpl; try done.
  - intros [? ?]. split; [done|by apply page_true_grows].
  - apply (g_rounds _ _ Hg).
  - intros [Hv (v & Hr & ->)]. split; [by apply (g_votes _ _ Hg)|]. exists v. split; [by apply (g_rounds _ _ Hg)|done].
  - intros [Hr Hd]. split; [by apply (g_rounds _ _ Hg)|by apply decided_val_grows].
  - intros He s b v [Hr Hd]%He. split; [by apply (g_rounds _ _ Hg)|by apply decided_val_grows].
  - intros [Hp Hd]. split; [done|]. intros s Hs. destruct (Hd s Hs) as (c & v & ?). exists c, v. by apply (g_decided _ _ Hg).
Qed.

Lemma slot_ok_grows n s c v : slot_ok w n s c v -> slot_ok w' n s c v.
Proof using Hg. intros []. constructor; try done. by apply (g_decided _ _ Hg). Qed.

Lemma acc_ok_grows m a :
  (forall b s, log_voted w' m b s -> log_voted w m b s) -> acc_ok w m a -> acc_ok w' m a.
Proof using Hg.
  intros Hsame []. constructor; try done; eauto using g_rounds.
  - intros s b Hs. destruct (ak_faulty0 s b Hs) as [v Hv]. exists v. by apply (g_rounds _ _ Hg).
  - intros b s Hv%Hsame Hs. destruct (ak_held0 b s Hv Hs) as (hb & Hh & Hd). exists hb. split; [done|].
    destruct Hd; [by left|right; by apply decided_by_grows].
Qed.

Lemma round_ok_grows b s r : round_ok w b s r -> round_ok w' b s r.
Proof using Hg.
  intros (Hb & Hr & Hwf & votes & Hc & Hv). split_and!; [done|by apply (g_rounds _ _ Hg)|done|].
  exists votes. split; [done|]. intros m Hm. by apply (g_votes _ _ Hg), Hv.
Qed.

(** Ballots whose proposals did not change. *)
Context (b : Ballot) (Hsame : forall s, lw_rounds w' !! (b, s) = lw_rounds w !! (b, s)).

Lemma election_ok_grows e : election_ok w b e -> election_ok w' b e.
Proof using Hg Hsame.
  intros []. constructor; try done; [by apply tally_ok_grows|]. intros s. by rewrite Hsame.
Qed.

Lemma campaign_ok_grows e first : campaign_ok w b e first -> campaign_ok w' b e first.
Proof using Hg Hsame.
  destruct e as [e|]; [|intros Hn s; by rewrite Hsame]. intros (? & ? & ?). split_and!; [done|by apply election_ok_grows|done].
Qed.

Lemma probe_ok_grows pb : probe_ok w b pb -> probe_ok w' b pb.
Proof using Hg Hsame.
  intros []. constructor; try done; [by apply tally_ok_grows|]. intros s Hs. rewrite Hsame. by apply bo_fresh0.
Qed.

Lemma recovery_ok_grows n rc : recovery_ok w n b rc -> recovery_ok w' n b rc.
Proof using Hg Hsame.
  intros []. constructor; try done. intros s Hs Hb Hf Hc. destruct (ro_sweep0 s Hs Hb Hf Hc) as [Hn Hv].
  split; [by rewrite Hsame|]. destruct (rc_recovered rc !! s); [by apply safe_grows|by apply free_grows].
Qed.

Lemma leader_ok_grows n : leader_ok w n b -> leader_ok w' n b.
Proof using Hg Hsame.
  intros []. constructor; try done.
  - destruct (p_probe (ln_proposer n)); [by apply probe_ok_grows|done].
  - destruct (p_recovery (ln_proposer n)); [by apply recovery_ok_grows|done].
  - intros s r Hr. by apply round_ok_grows, lo_rounds0.
  - intros s Hs. destruct (lo_fresh0 s Hs). split; [by rewrite Hsame|by apply free_grows].
Qed.
End growth.

Lemma node_ok_grows w w' m n :
  log_grows w w' -> (forall b s, log_voted w' m b s -> log_voted w m b s) ->
  (forall b s, node b = m -> lw_rounds w' !! (b, s) = lw_rounds w !! (b, s)) ->
  (promised_at w' m ≤ a_promised (ln_acceptor n))%B -> node_ok w m n -> node_ok w' m n.
Proof.
  intros Hg Hv Hr Hp [Hacc Hf Hw Hret Hs _ Hrole Hsh]. constructor; try done; [by eapply acc_ok_grows|..].
  - intros s Hin. destruct (Hs s Hin) as (c & v & ?). exists c, v. by eapply slot_ok_grows.
  - unfold role_ok in *. destruct (ln_role n) as [|b|b]; [done|..].
    + destruct Hrole as (Hb & ? & ? & ? & ? & ?). split_and!; try done. eapply campaign_ok_grows; [done| |done]. intros s. by apply Hr.
    + destruct Hrole as (Hb & ? & ? & ?). split_and!; try done. eapply leader_ok_grows; [done| |done]. intros s. by apply Hr.
Qed.

(** ** Elementary changes *)

Lemma at_node_same w m n : lw_nodes (at_node w m n) m = n.
Proof. apply fn_lookup_insert. Qed.
Lemma at_node_other w m n m' : m' <> m -> lw_nodes (at_node w m n) m' = lw_nodes w m'.
Proof. intros. by apply fn_lookup_insert_ne. Qed.

Lemma at_node_promised w m n m' :
  promised_at (at_node w m n) m' = if decide (m' = m) then a_promised (ln_acceptor n) else promised_at w m'.
Proof.
  unfold promised_at. case_decide as E; [subst; by rewrite at_node_same|by rewrite at_node_other].
Qed.

Lemma at_node_grows w m n : (promised_at w m ≤ a_promised (ln_acceptor n))%B -> log_grows w (at_node w m n).
Proof.
  intros Hle. constructor; try done.
  - intros m'. rewrite at_node_promised. case_decide; [by subst|apply ord_le_refl].
  - intros m' b s Hv. by left.
Qed.

(** A node moves. *)
Lemma at_node_inv w m n : log_inv w -> node_ok w m n -> log_inv (at_node w m n).
Proof.
  intros Hinv Hn. pose proof (at_node_grows w m n (nk_ahead _ _ _ Hn)) as Hg. constructor.
  - intros m'. destruct (decide (m' = m)) as [->|Hne].
    + rewrite at_node_same. eapply node_ok_grows; [done..| |done]. rewrite at_node_promised, decide_True by done.
      apply ord_le_refl.
    + rewrite at_node_other by done. eapply node_ok_grows; [done..| |by apply li_nodes].
      rewrite at_node_promised, decide_False by done. apply ord_le_refl.
  - intros b s v Hr. destruct (li_rounds _ Hinv b s v Hr) as (? & ? & Hp & ?). split_and!; [done|done| |by eapply safe_grows].
    eapply ord_le_trans; [done|]. by apply (g_promised _ _ Hg).
  - apply (li_votes _ Hinv).
  - apply (li_decided _ Hinv).
  - intros msg Hm. by eapply msg_ok_grows, (li_net _ Hinv).
Qed.

(** A message is sent. *)
Lemma log_send_inv w msgs : log_inv w -> (forall msg, msg ∈ msgs -> msg_ok w msg) -> log_inv (log_send w msgs).
Proof.
  intros Hinv Hm. pose proof (log_send_grows w msgs) as Hg.
  constructor.
  - intros m. eapply node_ok_grows; [done..|apply ord_le_refl|by apply (li_nodes _ Hinv m)].
  - intros b s v Hr. destruct (li_rounds _ Hinv b s v Hr) as (? & ? & ? & ?). split_and!; try done; by eapply safe_grows.
  - apply (li_votes _ Hinv).
  - apply (li_decided _ Hinv).
  - intros msg [?|?]%elem_of_app; (eapply msg_ok_grows; [done|]); [by apply Hm|by apply (li_net _ Hinv)].
Qed.

(** A vote is cast at the promise, on a record unless the slot is compacted. *)
Lemma vote_inv w m b s v :
  log_inv w -> promised_at w m = b -> lw_rounds w !! (b, s) = Some v ->
  (floor_at w m <= s -> w_entries (a_records (ln_acceptor (lw_nodes w m))) !! s = Some (b, v)) ->
  log_inv (vote_if true w m b s).
Proof.
  intros Hinv Hp Hr Hrec. set (w' := vote_if true w m b s).
  assert (forall m' b' s', log_voted w' m' b' s' <-> log_voted w m' b' s' \/ (m', b', s') = (m, b, s)) as Hv.
  { intros m' b' s'. unfold log_voted. cbn. rewrite elem_of_union, elem_of_singleton. tauto. }
  assert (log_grows w w') as Hg.
  { constructor; try done.
    - intros m' b' s' [?|[= -> -> ->]]%Hv; [by left|right]. rewrite Hp. apply ord_le_refl.
    - intros m' b' s' ?. apply Hv. by left. }
  pose proof (li_nodes _ Hinv m) as Hm. constructor.
  - intros m'. destruct (decide (m' = m)) as [->|Hne].
    2: { eapply node_ok_grows; [done|..|exact (li_nodes _ Hinv m')]; [|done|apply ord_le_refl].
         intros b' s' [?|[= ? _ _]]%Hv; done. }
    pose proof Hm as [Hacc Hf Hw Hret Hs Ha Hrole Hsh]. constructor; try done.
    + destruct Hacc. constructor; try done.
      * intros b' s' [?|[= -> ->]]%Hv; [by apply ak_voted0 with s'|]. rewrite <-Hp. apply ord_le_refl.
      * intros b' s' [Hold|[= -> ->]]%Hv Hfl; [by apply ak_held0|]. exists b. split; [left; exists v; by apply Hrec|left; apply ord_le_refl].
    + intros s' Hin. destruct (Hs s' Hin) as (c & x & ?). exists c, x. by eapply slot_ok_grows.
    + unfold role_ok in *. cbn [lw_nodes w' vote_if]. destruct (ln_role (lw_nodes w m)) as [|b0|b0]; [done|..].
      * destruct Hrole as (? & ? & ? & ? & ? & ?). split_and!; try done. by eapply campaign_ok_grows.
      * destruct Hrole as (? & ? & ? & ?). split_and!; try done. by eapply leader_ok_grows.
  - intros b' s' v' Hr'. destruct (li_rounds _ Hinv b' s' v' Hr') as (? & ? & ? & ?). split_and!; try done; by eapply safe_grows.
  - intros m' b' s' [?|[= -> -> ->]]%Hv; [by eapply (li_votes _ Hinv)|]. by exists v.
  - intros b' s' v' Hd. destruct (li_decided _ Hinv _ _ _ Hd) as (? & voters & ? & Hvs). split; [done|].
    exists voters. split; [done|]. intros m' Hm'. apply Hv. left. by apply Hvs.
  - intros msg Hin. by eapply msg_ok_grows, (li_net _ Hinv).
Qed.

(** A quorum voted: the slot is decided. *)
Lemma decide_at_inv w b s v :
  log_inv w -> lw_rounds w !! (b, s) = Some v -> (exists voters, chooses b voters /\ forall m, m ∈ voters -> log_voted w m b s) ->
  log_inv (decide_at w b s v).
Proof.
  intros Hinv Hr Hq. pose proof (decide_at_grows w b s v) as Hg.
  constructor.
  - intros m. eapply node_ok_grows; [done..|apply ord_le_refl|by apply (li_nodes _ Hinv m)].
  - intros b' s' v' Hr'. destruct (li_rounds _ Hinv b' s' v' Hr') as (? & ? & ? & ?). split_and!; try done; by eapply safe_grows.
  - apply (li_votes _ Hinv).
  - intros b' s' v' [[= -> -> ->]|Hd]%elem_of_cons; [done|]. by apply (li_decided _ Hinv).
  - intros msg Hin. by eapply msg_ok_grows, (li_net _ Hinv).
Qed.
(** A leader proposes a safe value at a slot that no later sweep or repair of its
    own will propose again. *)
Lemma announce_inv w m b s v :
  log_inv w -> ln_role (lw_nodes w m) = Leader b -> lw_rounds w !! (b, s) = None -> safe w b s v ->
  s < p_next_slot (ln_proposer (lw_nodes w m)) ->
  (forall pb, p_probe (ln_proposer (lw_nodes w m)) = Some pb -> s ∉ pb_blocked pb) ->
  (forall rc, p_recovery (ln_proposer (lw_nodes w m)) = Some rc ->
     s ∈ rc_blocked rc \/ s < rc_cursor rc \/ rc_end rc <= s) ->
  log_inv (announce w b s v).
Proof.
  intros Hinv Hrole Hnone Hsafe Hlt Hpb Hrc. set (w' := announce w b s v).
  pose proof (li_nodes _ Hinv m) as Hm. pose proof (nk_role _ _ _ Hm) as Hr. unfold role_ok in Hr. rewrite Hrole in Hr.
  destruct Hr as (Hb & Hled & Hp & Hlead).
  assert (forall b' s', (b', s') <> (b, s) -> lw_rounds w' !! (b', s') = lw_rounds w !! (b', s')) as Hother.
  { intros b' s' Hne. cbn. by rewrite lookup_insert_ne. }
  assert (lw_rounds w' !! (b, s) = Some v) as Hnew by (cbn; apply lookup_insert_eq).
  assert (log_grows w w') as Hg.
  { constructor; [intros m'; apply ord_le_refl|by left|done| |done]. intros b' s' v' Hv. rewrite Hother; [done|].
    intros [= -> ->]. congruence. }
  constructor.
  - intros m'. destruct (decide (m' = m)) as [->|Hne].
    2: { eapply node_ok_grows; [done|done| |apply ord_le_refl|exact (li_nodes _ Hinv m')].
         intros b' s' Hb'. apply Hother. congruence. }
    destruct Hm as [Hacc Hf Hw Hret Hs Ha _ Hsh]. constructor; try done; [by eapply acc_ok_grows|..].
    + intros s' Hin. destruct (Hs s' Hin) as (c & x & ?). exists c, x. by eapply slot_ok_grows.
    + unfold role_ok. cbn [lw_nodes w' announce]. rewrite Hrole. split_and!; [done..|]. destruct Hlead. constructor; try done.
      * destruct (p_probe (ln_proposer (lw_nodes w m))) as [pb|]; [|done]. destruct lo_probe0. constructor; try done.
        -- by eapply tally_ok_grows.
        -- intros s' Hs'. rewrite Hother; [by apply bo_fresh0|]. intros [= ->]. by eapply Hpb.
      * destruct (p_recovery (ln_proposer (lw_nodes w m))) as [rc|]; [|done]. destruct lo_recovery0. constructor; try done.
        intros s' Hs' Hbl Hfl Hch. destruct (ro_sweep0 s' Hs' Hbl Hfl Hch) as [Hn Hv]. split.
        -- rewrite Hother; [done|]. intros [= ->]. destruct (Hrc rc eq_refl) as [?|[?|?]]; [done|lia|lia].
        -- destruct (rc_recovered rc !! s'); [by eapply safe_grows|by eapply free_grows].
      * intros s' r Hr. by eapply round_ok_grows, lo_rounds0.
      * intros s' Hs'. destruct (lo_fresh0 s' Hs'). split; [|by eapply free_grows]. rewrite Hother; [done|].
        intros [= ->]. lia.
  - intros b' s' v' Hr'. destruct (decide ((b', s') = (b, s))) as [[= -> ->]|Hne].
    + rewrite Hnew in Hr'. injection Hr' as <-. split_and!; [done| |by subst m|by eapply safe_grows].
      pose proof (lo_width _ _ _ Hlead). lia.
    + rewrite Hother in Hr' by done. destruct (li_rounds _ Hinv _ _ _ Hr') as (? & ? & ? & ?).
      split_and!; try done; by eapply safe_grows.
  - intros m' b' s' Hv. destruct (li_votes _ Hinv _ _ _ Hv) as [x Hx]. exists x. by apply (g_rounds _ _ Hg).
  - intros b' s' v' Hd. destruct (li_decided _ Hinv _ _ _ Hd) as [? ?]. split; [by apply (g_rounds _ _ Hg)|done].
  - intros msg Hin. by eapply msg_ok_grows, (li_net _ Hinv).
Qed.

(** ** The start *)

Lemma log_init_inv : log_inv log_init.
Proof.
  assert (forall m b s, ~ log_voted log_init m b s) as Hv by (intros m b s; apply not_elem_of_empty).
  constructor.
  - intros m. assert (acceptor_wf (booted (V:=V) zero ∅ 0 ∅)) as Hwf by (apply booted_wf; constructor; try done; by intros s [? ?]).
    split.
    + split; try done; try (intros b s Hb; by apply Hv in Hb).
    + done.
    + cbn. lia.
    + intros s [? Hs]. cbn in Hs. by rewrite lookup_empty in Hs.
    + intros s [Hs|[? Hs]]; cbn in Hs; [lia|by rewrite lookup_empty in Hs].
    + apply ord_le_refl.
    + done.
    + split; try done. cbn. intros s [r Hr]. by rewrite lookup_empty in Hr.
  - intros b s v Hr. cbn in Hr. by rewrite lookup_empty in Hr.
  - intros m b s Hb. by apply Hv in Hb.
  - intros b s v Hd. by apply not_elem_of_nil in Hd.
  - intros msg Hm. by apply not_elem_of_nil in Hm.
Qed.
End inv.
