(* ===== verification/LogSteps.v ===== *)
(** * The handlers of the replicated log keep its invariant

    First the moves of one node (stepping down, promising, recording a vote,
    learning a chosen slot), then what a won Phase 1 and a repair probe decide,
    then the handlers, each with the return of every assertion on its path. *)

From stdpp Require Import functions.
From S2P Require Import Prelude BTree Types Retained Journal Contract Acceptor PromisePage QuorumSystem AcceptorConfig Rounds Tally Leadership Proposer Election LogWorld LogInv.

Section steps.
Context {V : Type} `{!EqDecision V, !Fingerprint V, !FromWrite V WriteOp}.
Context (cfg : Ballot -> AcceptorConfig NodeId) (prior : Ballot -> list (AcceptorConfig NodeId)).
Context (led : Ballot -> Prop) {HC : LogConfigs cfg prior led}.
Implicit Types (n : LogNode V) (w : LogWorld V) (m : NodeId) (b c : Ballot) (s : Slot) (v : V)
  (a : Acceptor V) (p : Proposer NodeId V) (page : PromisePage V).

Local Abbreviation node_ok := (node_ok cfg prior led).
Local Abbreviation leader_ok := (leader_ok cfg prior led).
Local Abbreviation log_inv := (log_inv cfg prior led).

(** ** One node *)

Lemma abandon_ok p :
  abandon p = Done (mkProposer None None rounds_empty None (p_next_slot p) authority_default).
Proof. unfold abandon. by rewrite !rassert_true. Qed.

Definition followed n : LogNode V :=
  mkLogNode (ln_acceptor n) (mkProposer None None rounds_empty None (p_next_slot (ln_proposer n)) authority_default)
    Follower (ln_chosen n) (ln_first n).

Lemma slot_ok_role w n s c v r p :
  (ln_chosen n !! s = None -> role_above r c) -> slot_ok w n s c v ->
  slot_ok w (mkLogNode (ln_acceptor n) p r (ln_chosen n) (ln_first n)) s c v.
Proof. intros Hr []. by constructor. Qed.

Lemma followed_shape m n : node_shape m n -> node_shape m (followed n).
Proof. intros []. constructor; try done. intros s [r Hr]. cbn in Hr. by rewrite lookup_empty in Hr. Qed.

Lemma node_follow_ok w m n : node_ok w m n -> node_follow n = Done (followed n) /\ node_ok w m (followed n).
Proof.
  intros []. unfold node_follow. rewrite abandon_ok. split; [done|]. constructor; try done.
  - intros s Hs. destruct (nk_slots s Hs) as (c & v & ?). exists c, v. by apply slot_ok_role.
  - by apply followed_shape.
Qed.

Lemma node_contact_ok w m n b :
  node_ok w m n -> exists n', node_contact n m b = Done n' /\ node_ok w m n' /\ ln_acceptor n' = ln_acceptor n /\
    ln_chosen n' = ln_chosen n /\ ln_first n' = ln_first n /\ (node b <> m -> ln_role n' = Follower).
Proof.
  intros Hn. unfold node_contact. case_decide as Hd.
  - destruct (node_follow_ok w m n Hn) as [-> Hn']. by exists (followed n).
  - exists n. split_and!; try done. intros Hb. destruct (decide (ln_role n = Follower)); [done|]. by destruct Hd.
Qed.

(** Raising the promise. *)
Lemma with_promise_acc_ok w m a b : (a_promised a ≤ b)%B -> acc_ok w m a -> acc_ok w m (with_promise a b).
Proof.
  intros Hle []. constructor; try done; [by apply with_promise_wf|].
  intros b' s Hv. eapply ord_le_trans; [by eapply ak_voted|done].
Qed.

Lemma promise_node_ok w m n b :
  (a_promised (ln_acceptor n) ≤ b)%B -> is_candidate (ln_role n) = false -> node_ok w m n ->
  node_ok w m (with_acceptor n (with_promise (ln_acceptor n) b)).
Proof.
  intros Hle Hc []. constructor; try done; [by apply with_promise_acc_ok|..].
  - intros s Hs. destruct (nk_slots s Hs) as (c & v & []). exists c, v. constructor; try done.
    intros Hf. eapply ord_le_trans; [by apply so_promised|done].
  - by eapply ord_le_trans.
  - unfold role_ok in *. cbn [ln_role with_acceptor]. destruct (ln_role n) as [|b0|b0]; [done|done|].
    destruct nk_role as (? & ? & ? & []). split_and!; [done|done|by eapply ord_le_trans|]. constructor; try done.
    + cbn [ln_proposer with_acceptor]. destruct (p_recovery (ln_proposer n)); [|done]. destruct lo_recovery. by constructor.
    + intros Hp. apply lo_first. by eapply ord_le_trans.
  - destruct nk_shape. constructor; try done. intros s b' Hr Hp. apply sh_recorded with b'; [done|]. by eapply ord_le_trans.
Qed.

Lemma node_raise_ok w m n b :
  node_ok w m n -> exists n', node_raise n b = Done n' /\ node_ok w m n' /\
    ln_acceptor n' = (if decide (a_promised (ln_acceptor n) < b)%B then with_promise (ln_acceptor n) b else ln_acceptor n) /\
    ln_chosen n' = ln_chosen n /\ ln_first n' = ln_first n /\
    ((b ≤ a_promised (ln_acceptor n))%B -> n' = n).
Proof.
  intros Hn. unfold node_raise. rewrite promised_ok by apply (nk_acc _ _ _ _ _ _ Hn). rsimpl. case_decide as Hlt.
  2: { exists n. by split_and!. }
  apply ord_lt_le in Hlt as Hle. rewrite set_promise_ok by done. rsimpl.
  assert (is_candidate (ln_role n) = false -> node_ok w m (with_acceptor n (with_promise (ln_acceptor n) b))) as Hgo
    by (intros; by apply promise_node_ok).
  destruct (ln_role n) as [|b0|b0] eqn:Er; cbn [is_candidate] in *.
  - eexists. split; [done|]. split_and!; [by apply Hgo|done..|]. intros Hb. by apply Hlt in Hb.
  - destruct (node_follow_ok w m n Hn) as [_ Hf]. unfold node_follow. cbn [ln_proposer with_acceptor].
    rewrite abandon_ok. rsimpl. eexists. split; [done|]. split_and!; [|done..|].
    + apply (promise_node_ok w m (followed n)); done.
    + intros Hb. by apply Hlt in Hb.
  - eexists. split; [done|]. split_and!; [by apply Hgo|done..|]. intros Hb. by apply Hlt in Hb.
Qed.

(** Recording a vote, or the record a learner writes. *)
Lemma record_acc_ok w m a s b v :
  acc_ok w m a -> recordable a s b v -> lw_rounds w !! (b, s) = Some v ->
  a_promised a = b \/ decided_by w b s -> acc_ok w m (with_record a s b v).
Proof.
  intros [] Hrec Hr Hb. constructor; cbn; [by apply with_record_wf|..].
  - unfold was_faulty. case_bool_decide as Hf.
    + destruct Hf as [fb Hf]. unfold msize in *. rewrite map_size_delete_Some by (by eexists).
      assert (size (w_entries (a_faulty a)) <> 0%nat) by (intros E; apply map_size_empty_inv in E; rewrite E in Hf; done).
      lia.
    + assert (w_entries (a_faulty a) !! s = None) as E by (destruct (_ !! s); [destruct Hf; by eexists|done]).
      rewrite delete_id by done. lia.
  - intros s' b' v'. rewrite lookup_insert. case_decide as E; [|apply ak_record]. by intros [= <- <-]; subst.
  - intros s' b' [_ ?]%lookup_delete_Some. by apply ak_faulty.
  - intros b' s' Hv. by eapply ak_voted.
  - intros b' s' Hv Hf. destruct (decide (s = s')) as [<-|Hne].
    + exists b. split; [left; exists v; cbn; apply lookup_insert_eq|]. destruct Hb as [<-|?]; [left; by eapply ak_voted|by right].
    + destruct (ak_held b' s' Hv Hf) as (hb & Hh & ?). exists hb. split; [|done]. unfold held_at. cbn.
      by rewrite lookup_insert_ne, lookup_delete_ne.
Qed.

Lemma acc_repair_fits w m a s : acc_ok w m a -> was_faulty a s = true -> a_faulty_repaired a + 1 <= u64_max.
Proof.
  intros [] [fb Hf]%bool_decide_eq_true. unfold msize in *.
  assert (size (w_entries (a_faulty a)) <> 0%nat) by (intros E; apply map_size_empty_inv in E; rewrite E in Hf; done).
  lia.
Qed.

Lemma node_record_ok w m a s b v writes :
  acc_ok w m a -> recordable a s b v ->
  node_record a s b v writes = Done (with_record a s b v, writes ++ [AppendAccepted s b v]).
Proof.
  intros Ha Hr. unfold node_record. rewrite record_accepted_fits; [|apply Ha|done|by eapply acc_repair_fits]. rsimpl.
  rewrite rassert_true by (by rewrite length_app). rsimpl. rewrite acceptor_record_ok by (apply with_record_wf; [apply Ha|done]). rsimpl.
  by rewrite rassert_true by (cbn; by rewrite lookup_insert_eq).
Qed.

(** A node with another acceptor of the same promise and floor. *)
Lemma leader_ok_acceptor w n b a :
  a_promised a = a_promised (ln_acceptor n) -> floor_of a = floor_of (ln_acceptor n) ->
  leader_ok w n b -> leader_ok w (with_acceptor n a) b.
Proof.
  intros Hp Hf []. constructor; try done; cbn [ln_proposer ln_acceptor with_acceptor ln_first].
  - destruct (p_recovery (ln_proposer n)); [|done]. destruct lo_recovery.
    constructor; cbn [ln_proposer ln_acceptor with_acceptor ln_first ln_chosen]; try rewrite Hf; done.
  - by rewrite Hp.
Qed.

Lemma role_ok_acceptor w m n a :
  a_promised a = a_promised (ln_acceptor n) -> floor_of a = floor_of (ln_acceptor n) ->
  role_ok cfg prior led w m n -> role_ok cfg prior led w m (with_acceptor n a).
Proof.
  intros Hp Hf Hr. unfold role_ok in *. cbn [ln_role with_acceptor ln_acceptor ln_proposer ln_first].
  rewrite Hp. destruct (ln_role n); [done|done|]. destruct Hr as (? & ? & ? & ?). split_and!; try done.
  by apply leader_ok_acceptor.
Qed.

(** A vote at the promise is recorded: past the chosen prefix, on a slot held, or by
    the ballot's own node. *)
Lemma vote_node_ok w m n s b v :
  log_inv w -> node_ok w m n -> a_promised (ln_acceptor n) = b -> floor_of (ln_acceptor n) <= s ->
  lw_rounds w !! (b, s) = Some v -> (s < ln_first n -> ln_chosen n !! s = None -> node b = m) ->
  recordable (ln_acceptor n) s b v /\ node_ok w m (with_acceptor n (with_record (ln_acceptor n) s b v)).
Proof.
  intros Hinv Hn Hp Hf Hr Hown. pose proof Hn as [Hacc Hfl Hw Hret Hs Ha Hrole Hsh].
  assert (recordable (ln_acceptor n) s b v) as Hrec.
  { split; [done|]. split; [rewrite Hp; apply ord_le_refl|].
    destruct (w_entries (a_records (ln_acceptor n)) !! s) as [[hb x]|] eqn:E; [|done]. cbn. split.
    - rewrite <-Hp. pose proof (ak_wf _ _ _ Hacc) as Hwf. eapply ord_le_trans; [by eapply awf_records_le|apply Hwf].
    - intros ->. apply (ak_record _ _ _ Hacc) in E. congruence. }
  split; [done|]. constructor; try done.
  - apply record_acc_ok; auto.
  - intros s' Hin. destruct (Hs s' Hin) as (c & x & []). exists c, x. constructor; try done; cbn.
    + intros Hf' rb y. rewrite lookup_insert. case_decide as E; [|by apply so_record]. subst s'. intros [= <- <-].
      assert (c ≤ b)%B by (rewrite <-Hp; by apply so_promised). split; [|done]. by eapply decided_dominates.
    + intros y Hy. destruct (so_chosen y Hy) as [? ?]. split; [done|]. rewrite lookup_insert. case_decide; [by eexists|done].
    + intros Hf'. destruct (so_held Hf') as (hb & Hh). unfold held_at. cbn. destruct (decide (s = s')) as [<-|Hne].
      * exists b. left. exists v. apply lookup_insert_eq.
      * exists hb. by rewrite lookup_insert_ne, lookup_delete_ne.
  - by apply role_ok_acceptor.
  - destruct Hsh. constructor; try done; cbn [with_acceptor ln_acceptor ln_proposer ln_role ln_first ln_chosen].
    + intros s' b' Hl Hle Hs'. cbn. rewrite lookup_insert. case_decide; [by eexists|by eapply sh_recorded].
    + intros s' rb x Hs' Hc. cbn. rewrite lookup_insert. case_decide; [subst s'; intros [= <- _]; auto|by apply sh_own].
Qed.

(** *** The repair probe gives slots up *)

Lemma probe_drops_ok w b pb (l : list Slot) :
  probe_ok prior w b pb -> pb_blocked (foldl probe_drop pb l) <> ∅ -> probe_ok prior w b (foldl probe_drop pb l).
Proof.
  intros [] Hne. destruct (probe_drops pb l) as (Hp & Hpr & Hb & Hf & Hh).
  constructor; [by apply probe_drops_wf|done|by rewrite Hp|by rewrite Hpr| |].
  - rewrite Hp. destruct bo_tally. constructor; try done.
    + intros s rb v. rewrite Hh. case_decide; [done|]. apply tk_have.
    + intros m s [Hs Hl]%Hb Hfrom Hm b' Hlt Hv. destruct (tk_told m s Hs Hfrom Hm b' Hlt Hv) as (hb & Hr & ?).
      exists hb. split; [|done]. unfold reported in *. by rewrite Hf, Hh, !decide_False by done.
  - intros s [Hs _]%Hb. by apply bo_fresh.
Qed.

Definition probe_without (o : option (RepairProbe NodeId V)) s : option (RepairProbe NodeId V) :=
  match o with
  | Some pb => if decide (s ∈ pb_blocked pb) then
                 (if decide (pb_blocked (probe_drop pb s) = ∅) then None else Some (probe_drop pb s))
               else Some pb
  | None => None
  end.

Lemma probe_resolved_ok p s :
  is_none_or probe_wf (p_probe p) ->
  probe_resolved_elsewhere p s = Done (with_probe p (probe_without (p_probe p) s)).
Proof.
  intros Hwf. unfold probe_resolved_elsewhere, probe_without. destruct (p_probe p) as [pb|] eqn:E.
  2: { by destruct p; simpl in *; subst. }
  case_decide; [|by destruct p; simpl in *; subst]. rewrite rassert_true by (cbn; rewrite elem_of_difference, elem_of_singleton; tauto). rsimpl.
  rewrite probe_settle_ok; [done|]. by apply (probe_drops_wf pb [s]).
Qed.

Lemma probe_without_sub o s pb' :
  probe_without o s = Some pb' -> exists pb, o = Some pb /\ (s ∉ pb_blocked pb') /\
    (pb' = pb \/ pb' = probe_drop pb s /\ pb_blocked pb' <> ∅) /\ forall s', s' ∈ pb_blocked pb' -> s' ∈ pb_blocked pb.
Proof.
  unfold probe_without. destruct o as [pb|]; [|done]. destruct (decide (s ∈ pb_blocked pb)) as [Hs|Hs].
  - case_decide; [done|]. intros [= <-]. exists pb. split_and!; [done| |by right|]; cbn.
    + rewrite elem_of_difference, elem_of_singleton. tauto.
    + intros s'. rewrite elem_of_difference. tauto.
  - intros [= <-]. exists pb. split_and!; [done|done|by left|done].
Qed.

Lemma probe_without_ok w b o s :
  is_none_or (probe_ok prior w b) o -> is_none_or (probe_ok prior w b) (probe_without o s).
Proof.
  intros Ho. destruct (probe_without o s) as [pb'|] eqn:E; [|done].
  apply probe_without_sub in E as (pb & -> & _ & [->|[-> Hne]] & _); [done|]. by apply (probe_drops_ok w b pb [s]).
Qed.

(** *** Learning a chosen slot *)

(** The node after it learned [v] at [s]. *)
Definition learned n a s v : LogNode V :=
  mkLogNode a (with_probe (ln_proposer n) (probe_without (p_probe (ln_proposer n)) s)) (ln_role n)
    (<[s := v]> (ln_chosen n)) (ln_first n).

Lemma learned_role_ok w m n a s v :
  a_promised a = a_promised (ln_acceptor n) -> floor_of a = floor_of (ln_acceptor n) ->
  role_ok cfg prior led w m n -> role_ok cfg prior led w m (learned n a s v).
Proof.
  intros Hp Hf Hr. unfold role_ok in *. cbn [ln_role learned ln_acceptor ln_proposer ln_first]. rewrite Hp.
  destruct (ln_role n) as [|b|b].
  - destruct Hr as (? & ? & Hpb & ?). split_and!; try done. cbn. by rewrite Hpb.
  - destruct Hr as (? & ? & ? & Hpb & ? & ?). split_and!; try done. cbn. by rewrite Hpb.
  - destruct Hr as (? & ? & ? & []). split_and!; try done.
    constructor; cbn [ln_role learned ln_acceptor ln_proposer ln_first ln_chosen with_probe p_election p_probe p_recovery
      p_rounds p_next_slot]; try done.
    + by apply probe_without_ok.
    + intros pb' s' E Hs'. apply probe_without_sub in E as (pb & E & _ & _ & Hsub). by eapply lo_blocked, Hsub.
    + destruct (p_recovery (ln_proposer n)) as [rc|]; [|done]. destruct lo_recovery.
      constructor; cbn [ln_role learned ln_acceptor ln_proposer ln_first ln_chosen with_probe p_next_slot]; try done.
      * intros s' Hs' Hb Hfl Hc. apply ro_sweep; [done|done|by rewrite <-Hf|].
        rewrite lookup_insert in Hc. by case_decide.
      * intros s' Hs' Hfl Hc. apply ro_first; [done|by rewrite <-Hf|]. rewrite lookup_insert in Hc. by case_decide.
    + by rewrite Hp.
Qed.

Lemma learned_ok w m n a s v b :
  log_inv w -> node_ok w m n -> floor_of (ln_acceptor n) <= s -> (b ≤ a_promised (ln_acceptor n))%B ->
  decided_val w b s v -> acc_ok w m a ->
  a_promised a = a_promised (ln_acceptor n) -> floor_of a = floor_of (ln_acceptor n) ->
  (forall s', s' <> s -> w_entries (a_records a) !! s' = w_entries (a_records (ln_acceptor n)) !! s' /\
     w_entries (a_faulty a) !! s' = w_entries (a_faulty (ln_acceptor n)) !! s') ->
  (exists rb, w_entries (a_records a) !! s = Some (rb, v) /\ (b ≤ rb)%B) ->
  node_ok w m (learned n a s v).
Proof.
  intros Hinv [] Hs Hb Hd Hacc Hp Hf Hsame (rb & Hrb & Hle). destruct Hd as (c0 & Hd & Hc0).
  constructor; cbn [ln_role learned ln_acceptor ln_first ln_chosen]; rewrite ?Hf, ?Hp; try done.
  - intros s' Hs'. rewrite lookup_insert in Hs'. case_decide; [by subst|by apply nk_retained].
  - intros s' Hs'. destruct (decide (s = s')) as [<-|Hne].
    + exists c0, v. constructor; cbn [ln_role learned ln_acceptor ln_first ln_chosen]; rewrite ?Hf, ?Hp, ?lookup_insert_eq; try done.
      * intros _. by eapply ord_le_trans.
      * intros _ rb' x. rewrite Hrb. intros [= <- <-]. split; [done|by eapply ord_le_trans].
      * intros x [= <-]. split; [done|]. rewrite Hrb. by eexists.
      * intros _. exists rb. left. by exists v.
    + assert (s' < ln_first n \/ is_Some (ln_chosen n !! s')) as Hin by by rewrite lookup_insert_ne in Hs'.
      destruct (nk_slots s' Hin) as (c & x & []). destruct (Hsame s') as [Er Ef]; [done|].
      exists c, x. constructor; cbn [ln_role learned ln_acceptor ln_first ln_chosen];
        unfold held_at; rewrite ?Hf, ?Hp, ?Er, ?Ef, ?lookup_insert_ne by done; done.
  - by apply learned_role_ok.
  - destruct nk_shape. constructor; cbn [ln_role learned ln_acceptor ln_first ln_chosen ln_proposer with_probe p_rounds p_authority p_next_slot];
      rewrite ?Hf, ?Hp; try done.
    + intros s' b' Hl Hle' Hr. destruct (decide (s' = s)) as [->|Hne]; [rewrite Hrb; by eexists|].
      destruct (Hsame s' Hne) as [-> _]. by eapply sh_recorded.
    + intros s' rb' x Hs'. rewrite lookup_insert. case_decide as E; [done|]. destruct (Hsame s') as [-> _]; [done|]. by apply sh_own.
Qed.

Record learn_post n n' s v b : Prop := {
  lp_floor : floor_of (ln_acceptor n') = floor_of (ln_acceptor n);
  lp_first : ln_first n' = ln_first n;
  lp_chosen : ln_chosen n' !! s = Some v;
  lp_others : forall s', s' <> s -> ln_chosen n' !! s' = ln_chosen n !! s';
  lp_leads : (b ≤ a_promised (ln_acceptor n))%B ->
    a_promised (ln_acceptor n') = a_promised (ln_acceptor n) /\ ln_role n' = ln_role n /\
    p_rounds (ln_proposer n') = p_rounds (ln_proposer n) /\ p_recovery (ln_proposer n') = p_recovery (ln_proposer n) /\
    p_next_slot (ln_proposer n') = p_next_slot (ln_proposer n) /\ p_election (ln_proposer n') = p_election (ln_proposer n);
  lp_record : ln_chosen n !! s = None ->
    exists rb, w_entries (a_records (ln_acceptor n')) !! s = Some (rb, v) /\ (b ≤ rb)%B;
  lp_rounds : p_rounds (ln_proposer n') = p_rounds (ln_proposer n) \/ p_rounds (ln_proposer n') = rounds_empty;
  lp_probe : (b ≤ a_promised (ln_acceptor n))%B -> forall pb', p_probe (ln_proposer n') = Some pb' ->
    exists pb, p_probe (ln_proposer n) = Some pb /\ forall s', s' ∈ pb_blocked pb' -> s' ∈ pb_blocked pb }.

Lemma learn_post_refl n s v b :
  ln_chosen n !! s = Some v -> learn_post n n s v b.
Proof.
  intros Hc. constructor; try done; [|by left|].
  - intros Hn. congruence.
  - intros _ pb' E. by exists pb'.
Qed.

(** An open round at the learned ballot carries the learned command. *)
Lemma open_round_agrees w m n s b v r :
  node_ok w m n -> lw_rounds w !! (b, s) = Some v ->
  rs_by_slot (p_rounds (ln_proposer n)) !! s = Some r -> r_ballot r = b -> r_command r = v.
Proof.
  intros Hn Hr Hs <-. pose proof (nk_role _ _ _ _ _ _ Hn) as Hrole. unfold role_ok, idle, rounds_is_empty in Hrole.
  destruct (ln_role n) as [|b0|b0].
  - destruct Hrole as (_ & E & _). by rewrite E in Hs.
  - destruct Hrole as (_ & _ & E & _). by rewrite E in Hs.
  - destruct Hrole as (_ & _ & _ & Hl). destruct (lo_rounds _ _ _ _ _ _ Hl _ _ Hs) as (E & Hr' & _). congruence.
Qed.

(** The record a learner leaves: the one held when it is the chosen command at or
    above the learned ballot, the learned one otherwise. *)
Lemma learn_record_ok w m n s v b writes :
  log_inv w -> node_ok w m n -> floor_of (ln_acceptor n) <= s -> (b ≤ a_promised (ln_acceptor n))%B ->
  lw_rounds w !! (b, s) = Some v -> decided_val w b s v ->
  exists a writes', (if decide (is_some_and (fun r : Ballot * V => r.2 = v /\ b ≤ r.1)%B
                                 (w_entries (a_records (ln_acceptor n)) !! s)) then mret (ln_acceptor n, writes)
                     else node_record (ln_acceptor n) s b v writes) = Done (a, writes') /\
    ((forall rb, w_entries (a_records (ln_acceptor n)) !! s = Some (rb, v) -> (rb < b)%B) -> Exists (appends s) writes') /\
    acc_ok w m a /\ a_promised a = a_promised (ln_acceptor n) /\ floor_of a = floor_of (ln_acceptor n) /\
    (forall s', s' <> s -> w_entries (a_records a) !! s' = w_entries (a_records (ln_acceptor n)) !! s' /\
       w_entries (a_faulty a) !! s' = w_entries (a_faulty (ln_acceptor n)) !! s') /\
    exists rb, w_entries (a_records a) !! s = Some (rb, v) /\ (b ≤ rb)%B.
Proof.
  intros Hinv Hn Hs Hb Hr Hd. pose proof (nk_acc _ _ _ _ _ _ Hn) as Hacc. case_decide as Hk.
  - exists (ln_acceptor n), writes. destruct (w_entries (a_records (ln_acceptor n)) !! s) as [[rb x]|]; [|done].
    destruct Hk as [<- Hk]. split_and!; try done; [|by exists rb]. intros Hno. by destruct (Hno rb eq_refl).
  - assert (recordable (ln_acceptor n) s b v) as Hrec.
    { split; [done|]. split; [done|]. destruct (w_entries (a_records (ln_acceptor n)) !! s) as [[rb x]|] eqn:E; [|done].
      cbn in Hk |- *. apply (ak_record _ _ _ Hacc) in E. destruct Hd as (c & Hd & Hc).
      assert (b ≤ rb -> x = v)%B as Hx. { intros Hle. eapply decided_dominates; [done|done| |done]. by eapply ord_le_trans. }
      destruct (total ord_le rb b) as [Hle|Hle]; [|by destruct Hk; auto]. split; [done|]. intros ->. apply Hx, ord_le_refl. }
    rewrite (node_record_ok w m) by done. exists (with_record (ln_acceptor n) s b v), (writes ++ [AppendAccepted s b v]).
    split; [done|]. split_and!; try done.
    + intros _. apply Exists_app. right. by apply Exists_cons_hd.
    + apply record_acc_ok; try done. right. destruct Hd as (c & Hd & Hc). by exists c, v.
    + intros s' Hne. cbn. by rewrite lookup_insert_ne, lookup_delete_ne.
    + exists b. cbn. rewrite lookup_insert_eq. split; [done|apply ord_le_refl].
Qed.

Lemma node_learn_ok w m n s v b writes :
  log_inv w -> node_ok w m n -> floor_of (ln_acceptor n) <= s -> lw_rounds w !! (b, s) = Some v -> decided_val w b s v ->
  exists n' writes', node_learn n s v b writes = Done (n', writes') /\ node_ok w m n' /\ learn_post n n' s v b /\
    (ln_chosen n !! s = None -> (forall rb, w_entries (a_records (ln_acceptor n)) !! s = Some (rb, v) -> (rb < b)%B) ->
     Exists (appends s) writes').
Proof.
  intros Hinv Hn Hf Hr Hd. pose proof (nk_acc _ _ _ _ _ _ Hn) as Hacc. unfold node_learn.
  destruct (ln_chosen n !! s) as [known|] eqn:Ek.
  { destruct (nk_slots _ _ _ _ _ _ Hn s) as (c & x & Hs); [right; by eexists|].
    destruct (so_chosen _ _ _ _ _ Hs _ Ek) as [-> _]. assert (x = v) as -> by (eapply decided_val_agree; [done..|apply Hs]).
    rewrite rassert_true by done. rsimpl. exists n, writes. split_and!; [done|done|by apply learn_post_refl|done]. }
  destruct (node_raise_ok w m n b Hn) as (n1 & Eraise & Hn1 & Ea & Ec & Efi & Hsame).
  assert (floor_of (ln_acceptor n1) = floor_of (ln_acceptor n)) as Efl by (rewrite Ea; by case_decide).
  assert (b ≤ a_promised (ln_acceptor n1))%B as Hb.
  { rewrite Ea. case_decide as Hlt; [apply ord_le_refl|by apply ord_not_lt]. }
  assert (w_entries (a_records (ln_acceptor n1)) = w_entries (a_records (ln_acceptor n))) as Ere by (rewrite Ea; by case_decide).
  destruct (learn_record_ok w m n1 s v b writes) as (a & writes' & Erec & Hw & Hacc2 & Hp2 & Hf2 & Hs2 & Hrb); [done|done|rewrite Efl; lia|done|done|done|].
  pose proof (nk_acc _ _ _ _ _ _ Hn1) as Hacc1. pose proof (nk_role _ _ _ _ _ _ Hn1) as Hrole1.
  exists (learned n1 a s v), writes'. split_and!; [..|intros _ Hno; apply Hw; by rewrite Ere].
  - eapply bind_seq with (a := tt); [|cbv beta].
    { destruct (rs_by_slot (p_rounds (ln_proposer n)) !! s) as [r|] eqn:Er; [|done]. destruct (decide (r_ballot r = b)); [|done].
      apply rassert_true. by apply (open_round_agrees w m n s b). }
    rewrite Eraise. rsimpl. rewrite promised_ok by apply Hacc1. rsimpl.
    rewrite rassert_true. 2: { unfold role_ok in Hrole1. destruct (ln_role n1); cbn; try done. tauto. }
    rsimpl. rewrite acceptor_record_ok by apply Hacc1. rsimpl. rewrite Erec. rsimpl.
    rewrite probe_resolved_ok.
    2: { unfold role_ok, idle in Hrole1. destruct (ln_role n1).
         - by destruct Hrole1 as (_ & _ & -> & _).
         - by destruct Hrole1 as (_ & _ & _ & -> & _).
         - destruct Hrole1 as (_ & _ & _ & Hl). pose proof (lo_probe _ _ _ _ _ _ Hl) as Hpb.
           destruct (p_probe (ln_proposer n1)); [apply Hpb|done]. }
    rsimpl. rewrite rassert_true.
    2: { cbn [p_probe with_probe]. destruct (probe_without _ s) eqn:E; [|done]. by apply probe_without_sub in E as (? & _ & ? & _). }
    rsimpl. rewrite acceptor_record_ok by apply Hacc2. rsimpl. destruct Hrb as (rb & -> & _).
    rewrite rassert_true by (by eexists). rsimpl. by rewrite rassert_true.
  - apply (learned_ok w m n1 a s v b); try done. rewrite Efl. lia.
  - constructor; cbn [ln_acceptor ln_first ln_chosen ln_proposer ln_role learned with_probe p_rounds p_recovery p_next_slot p_election].
    + congruence.
    + done.
    + apply lookup_insert_eq.
    + intros s' Hne. rewrite lookup_insert_ne by done. by rewrite Ec.
    + intros Hle. rewrite Hp2. by rewrite (Hsame Hle).
    + by intros _.
    + unfold node_raise in Eraise. destruct (decide (b ≤ a_promised (ln_acceptor n))%B) as [Hle|Hnle].
      { left. by rewrite (Hsame Hle). }
      rewrite promised_ok in Eraise by apply Hacc. rewrite bind_Done in Eraise. rewrite decide_True in Eraise by done.
      rewrite set_promise_ok in Eraise by (by apply ord_lt_le). rewrite bind_Done in Eraise.
      unfold node_follow in Eraise. rewrite abandon_ok, bind_Done in Eraise.
      destruct (is_candidate (ln_role n)); injection Eraise as <-; [by right|by left].
    + intros Hle pb' E. cbn in E. rewrite (Hsame Hle) in E. by apply probe_without_sub in E as (pb & ? & _ & _ & ?); exists pb.
Qed.

(** ** What Phase 1 decides *)

Section decides.
Context (w : LogWorld V) (b : Ballot) (t : PromiseTally NodeId) (reports : gmap Slot (gmap NodeId Ballot)).
Context (have : gmap Slot (Ballot * V)) (scope : Slot -> Prop) (s : Slot).
Context (Hinv : log_inv w) (Hled : led b) (Ht : tally_ok w b t reports have scope).
Context (Hscope : scope s) (Hfrom : t_from_slot t <= s).
Context (Hq : promise_quorums (prior b) (qualifies (t_answered t) (reports !! s) (fst <$> have !! s))).

(** Every quorum of an earlier ballot has a member that will not vote there any
    more, and whose vote, had it one, the tally would hold. *)
Lemma quorum_meets_tally b' (voters : gset NodeId) :
  led b' -> (b' < b)%B -> chooses cfg b' voters ->
  exists m, m ∈ voters /\ (b' < promised_at w m)%B /\
    (log_voted w m b' s -> exists rb v hb, have !! s = Some (rb, v) /\ (hb ≤ rb)%B /\ ((b' ≤ hb)%B \/ decided_by w hb s)).
Proof using All.
  intros Hl Hlt [col H2]. unfold promise_quorums in Hq. rewrite Forall_forall in Hq.
  pose proof (lc_covers b b' Hled Hl Hlt) as Hin. pose proof (Hq _ Hin) as H1.
  destruct (holds_intersect _ _ _ _ _ _ (cwf_admitted _ (lc_cfg b' Hl)) H1 H2) as (m & _ & Hm & Hv).
  unfold qualifies in Hm. apply elem_of_filter in Hm as [Hth Ha]. exists m. split_and!; [done|..].
  - eapply ord_lt_le_trans; [done|]. apply (tk_promised _ _ _ _ _ _ Ht). by left.
  - intros Hvote. destruct (tk_told _ _ _ _ _ _ Ht m s Hscope Hfrom (or_introl Ha) b' Hlt Hvote) as (hb & Hr & Hd).
    destruct Hr as [(rb & v & E & Hle)|(fb & Efb & Hle)]; [by exists rb, v, hb|].
    rewrite Efb in Hth. cbn in Hth. destruct (have !! s) as [[rb v]|]; [|done]. exists rb, v, hb.
    split_and!; [done| |done]. eapply ord_le_trans; [done|]. exact Hth.
Qed.

(** A slot decided below the campaign is held, with the decided value. *)
Lemma phase1_sees c0 v0 :
  (c0, s, v0) ∈ lw_decided w -> (c0 < b)%B -> exists rb v, have !! s = Some (rb, v) /\ decided_val w rb s v.
Proof using All.
  intros Hin Hc0. destruct (decided_lowest w c0 s) as (c & vc & Hd & Hle & Hmin); [exists c0, v0; split; [done|apply ord_le_refl]|].
  assert (c < b)%B as Hc by (by eapply ord_le_lt_trans).
  destruct (li_decided _ _ _ _ Hinv _ _ _ Hd) as (Hr & voters & Hch & Hvs).
  destruct (li_rounds _ _ _ _ Hinv _ _ _ Hr) as (Hlc & _).
  destruct (quorum_meets_tally c voters Hlc Hc Hch) as (m & Hm & _ & Hv).
  destruct (Hv (Hvs _ Hm)) as (rb & v & hb & E & Hhb & Hor).
  assert (c ≤ hb)%B as Hch'. { destruct Hor as [?|(c' & v' & Hd' & ?)]; [done|]. eapply ord_le_trans; [by eapply Hmin|done]. }
  destruct (tk_have _ _ _ _ _ _ Ht _ _ _ E) as [Hrb _].
  assert (v = vc) as -> by (eapply decided_dominates; [done|done| |done]; by eapply ord_le_trans).
  exists rb, vc. split; [done|]. exists c. split; [done|]. by eapply ord_le_trans.
Qed.

Lemma phase1_decides : match have !! s with Some (_, v) => safe cfg led w b s v | None => free cfg led w b s end.
Proof using All.
  assert (forall b', led b' -> (b' < b)%B -> lw_rounds w !! (b', s) = None -> shut cfg w b' s) as Hnone.
  { intros b' Hl Hlt Hn voters Hc. destruct (quorum_meets_tally b' voters Hl Hlt Hc) as (m & Hm & Hp & _).
    exists m. split_and!; [done..|]. intros Hv. destruct (li_votes _ _ _ _ Hinv _ _ _ Hv). congruence. }
  destruct (decide (Exists (fun e : Ballot * Slot * V => e.1.2 = s /\ e.1.1 < b)%B (lw_decided w))) as [Hyes|Hno].
  - apply Exists_exists in Hyes as ([[c0 s0] v0] & Hin & Es & Hc0). cbn in Es, Hc0. subst s0.
    destruct (phase1_sees c0 v0 Hin Hc0) as (rb & v & E & c & Hd & Hle). rewrite E.
    destruct (li_decided _ _ _ _ Hinv _ _ _ Hd) as (Hr & _). destruct (li_rounds _ _ _ _ Hinv _ _ _ Hr) as (_ & _ & _ & Hsafe).
    intros b' Hl Hlt. destruct (decide (b' < c)%B) as [Hbc|Hbc]; [by apply Hsafe|]. apply ord_not_lt in Hbc.
    destruct (lw_rounds w !! (b', s)) as [x|] eqn:Ex; [left|right; by apply Hnone].
    f_equal. by eapply decided_dominates.
  - assert (forall b' rb v, have !! s = Some (rb, v) -> led b' -> (rb < b')%B -> (b' < b)%B -> shut cfg w b' s) as Habove.
    { intros b' rb v E Hl Hrb Hlt voters Hc. destruct (quorum_meets_tally b' voters Hl Hlt Hc) as (m & Hm & Hp & Hv).
      exists m. split_and!; [done..|]. intros Hvote. destruct (Hv Hvote) as (rb' & v' & hb & E' & Hhb & Hor).
      rewrite E in E'. injection E' as <- <-. destruct Hor as [Hge|(c & x & Hd & Hc')].
      - apply Hrb. by eapply ord_le_trans.
      - apply Hno, Exists_exists. exists (c, s, x). split_and!; [done..|]. cbn.
        destruct (tk_have _ _ _ _ _ _ Ht _ _ _ E) as [_ Hlb]. eapply ord_le_lt_trans; [|done]. by eapply ord_le_trans. }
    enough (forall o, have !! s = o -> match o with Some (_, v) => safe cfg led w b s v | None => free cfg led w b s end) as Hgo
      by by apply Hgo.
    intros [[rb v]|] E.
    + destruct (tk_have _ _ _ _ _ _ Ht _ _ _ E) as [Hrb Hlb]. destruct (li_rounds _ _ _ _ Hinv _ _ _ Hrb) as (_ & _ & _ & Hsafe).
      intros b' Hl Hlt. destruct (ord_lt_cases b' rb) as [?|[->|?]]; [by apply Hsafe|by left|right; by eapply Habove].
    + intros b' Hl Hlt voters Hc. destruct (quorum_meets_tally b' voters Hl Hlt Hc) as (m & Hm & Hp & Hv).
      exists m. split_and!; [done..|]. intros Hvote. destruct (Hv Hvote) as (rb' & v' & hb & E' & _). congruence.
Qed.
End decides.

Lemma free_safe w b s v : free cfg led w b s -> safe cfg led w b s v.
Proof. intros Hf b' Hl Hlt. right. by apply Hf. Qed.

(** *** A page reaches a tally *)

Lemma owed_closed t m next m' :
  owed (page_closed t m next).1 m' =
    if decide (m' = m) then default (t_from_slot t) next else owed t m'.
Proof.
  unfold owed. destruct next as [n|]; cbn; destruct (decide (m' = m)) as [->|Hne].
  - by rewrite lookup_insert_eq.
  - by rewrite lookup_insert_ne.
  - by rewrite lookup_delete_eq.
  - by rewrite lookup_delete_ne.
Qed.

Lemma answered_closed (t : PromiseTally NodeId) m next m' :
  m' ∈ t_answered (page_closed t m next).1 <-> m' ∈ t_answered t \/ (m' = m /\ next = None).
Proof.
  destruct next as [n|]; cbn; [|rewrite elem_of_union, elem_of_singleton; tauto].
  split; [by left|]. by intros [?|[_ ?]].
Qed.

Lemma fold_page_ok w b t reports have (scope : Slot -> Prop) m page reports' have' :
  tally_ok w b t reports have scope -> tally_wf t -> (m ∉ t_answered t) -> page_true w m b (owed t m) page ->
  (forall s, is_Some (p_faulty page !! s) -> owed t m <= s) ->
  (forall s, scope s -> lw_rounds w !! (b, s) = None) ->
  (forall s r, have' !! s = Some r -> have !! s = Some r \/ (scope s /\ p_accepted page !! s = Some r)) ->
  (forall s, scope s -> have' !! s = best (have !! s) (p_accepted page !! s)) ->
  (forall s m', m' <> m -> (reports' !! s ≫= fun r => r !! m') = (reports !! s ≫= fun r => r !! m')) ->
  (forall s, p_faulty page !! s = None -> reports' !! s = reports !! s) ->
  (forall s fb, scope s -> p_faulty page !! s = Some fb -> (reports' !! s ≫= fun r => r !! m) = Some fb) ->
  tally_ok w b (page_closed t m (p_next_from_slot page)).1 reports' have' scope.
Proof.
  intros [Hb Hp Hh Ht] Hwf Hna (Hprom & Hacc & _ & Htold) Hfs Hfresh Hsub Hbest Hoth Habs Hown.
  assert (forall s m' hb, scope s -> reported reports have s m' hb ->
    (m' = m -> p_faulty page !! s = None) -> reported reports' have' s m' hb) as Hlift.
  { intros s m' hb Hs [(rb & v & E & Hle)|(fb & E & Hle)] Hm.
    - left. rewrite Hbest by done. destruct (best_ge_l _ (p_accepted page !! s) _ _ E) as (rb' & v' & -> & ?).
      exists rb', v'. split; [done|]. by eapply ord_le_trans.
    - right. exists fb. split; [|done]. destruct (decide (m' = m)) as [->|Hne]; [by rewrite Habs by auto|by rewrite Hoth]. }
  assert (t_from_slot (page_closed t m (p_next_from_slot page)).1 = t_from_slot t) as Efs by by destruct (p_next_from_slot page).
  constructor; rewrite ?Efs.
  - by destruct (p_next_from_slot page).
  - intros m'. rewrite answered_closed, owed_closed. destruct (decide (m' = m)) as [->|Hne]; [done|].
    intros [[?|[? _]]|?]; [apply Hp; by left|done|apply Hp; by right].
  - intros s rb v [E|[Hs E]]%Hsub; [by apply Hh|]. apply Hacc in E as [Hr Hle]. split; [done|].
    apply ord_le_ne_lt; [done|]. intros ->. rewrite Hfresh in Hr by done. done.
  - intros m' s Hs Hfrom. rewrite answered_closed, owed_closed. destruct (decide (m' = m)) as [->|Hne].
    + intros Hm b' Hlt Hv. destruct (decide (s < owed t m)) as [Hold|Hnew].
      * destruct (Ht m s Hs Hfrom (or_intror Hold) b' Hlt Hv) as (hb & Hr & Hd). exists hb. split; [|done].
        apply Hlift; [done..|]. intros _. destruct (p_faulty page !! s) eqn:E; [|done].
        assert (owed t m <= s) by (apply Hfs; by eexists). lia.
      * destruct (Htold s b') as (hb & Hr & Hd); [|done|done|].
        { split; [lia|]. destruct (p_next_from_slot page) as [n|]; cbn in *; [|done].
          destruct Hm as [[?|[_ ?]]|?]; [done|done|done]. }
        exists hb. split; [|done]. destruct Hr as [(v & E)|E].
        -- left. rewrite Hbest by done. destruct (best_ge_r (have !! s) _ _ _ E) as (rb' & v' & -> & ?). by exists rb', v'.
        -- right. exists hb. split; [by apply Hown|apply ord_le_refl].
    + intros Hm b' Hlt Hv. destruct (Ht m' s Hs Hfrom) with b' as (hb & Hr & Hd); [|done|done|].
      { destruct Hm as [[?|[? _]]|?]; [by left|done|by right]. }
      exists hb. split; [|done]. by apply Hlift.
Qed.

(** ** The handlers *)

Lemma proposer_shape_ok w m n p :
  node_ok w m n -> node_shape m (on_proposer n p) -> role_ok cfg prior led w m (on_proposer n p) -> node_ok w m (on_proposer n p).
Proof.
  intros [] Hsh Hr. constructor; try done. intros s Hs. destruct (nk_slots s Hs) as (c & v & []). exists c, v. by constructor.
Qed.

(** A proposer that opened no round and kept its fence below its frontier. *)
Record shape_kept p p' : Prop := {
  sk_rounds : forall s, is_Some (rs_by_slot (p_rounds p') !! s) -> is_Some (rs_by_slot (p_rounds p) !! s);
  sk_fence : au_fence (p_authority p') = au_fence (p_authority p);
  sk_next : p_next_slot p <= p_next_slot p' }.

Lemma kept_shape m n p : node_shape m n -> shape_kept (ln_proposer n) p -> node_shape m (on_proposer n p).
Proof.
  intros [] []. constructor; cbn [on_proposer ln_proposer ln_acceptor ln_role ln_chosen ln_first]; try done.
  - intros s Hs. by apply sh_rounds, sk_rounds0.
  - intros s b Hl Hp Hs. eapply sh_recorded; [done..|]. by apply sk_rounds0.
  - rewrite sk_fence0. destruct (au_fence (p_authority (ln_proposer n))); [|done]. destruct sh_fence. split; [done|lia].
Qed.

Lemma proposer_node_ok w m n p :
  node_ok w m n -> shape_kept (ln_proposer n) p -> role_ok cfg prior led w m (on_proposer n p) -> node_ok w m (on_proposer n p).
Proof. intros Hn Hk. apply proposer_shape_ok; [done|]. apply kept_shape; [apply Hn|done]. Qed.

Lemma with_proposer_id n : on_proposer n (ln_proposer n) = n.
Proof. by destruct n. Qed.

(** Two reports of one slot agree: both repeat proposals. *)
Lemma reports_agree_ok w s (x y : option (Ballot * V)) :
  (forall rb v, x = Some (rb, v) -> lw_rounds w !! (rb, s) = Some v) ->
  (forall rb v, y = Some (rb, v) -> lw_rounds w !! (rb, s) = Some v) -> agree x y.
Proof.
  intros Hx Hy. destruct x as [[rb v]|], y as [[rb' v']|]; cbn; try done. intros ->.
  specialize (Hx _ _ eq_refl). specialize (Hy _ _ eq_refl). congruence.
Qed.

Lemma shape_slots expected (accepted : gmap Slot (Ballot * V)) faulty from next :
  promise_page_shape_valid expected accepted faulty from next = true ->
  from = expected /\ (forall s, is_Some (faulty !! s) -> expected <= s) /\ is_none_or (fun k => from < k) next.
Proof.
  intros (-> & _ & _ & Hf & Hnx)%bool_decide_eq_true. split_and!; [done| |by destruct next; [apply Hnx|]]. intros s Hs.
  rewrite Forall_forall in Hf. apply Hf. by apply elem_of_bt_keys.
Qed.

(** A page asked for next is the campaign's own, further along. *)
Definition continues b b' (from : Slot) (fold : PromiseFold) : Prop :=
  match fold with Continue next => b' = b /\ from < next | _ => True end.

Lemma candidate_promise_ok w m n b e sender page :
  log_inv w -> node_ok w m n -> ln_role n = Candidate b -> p_election (ln_proposer n) = Some e -> election_ok cfg prior w b e ->
  forall b' from, page_true w sender b' from page ->
  exists p fold, fold_promise (ln_proposer n) sender b' from (p_accepted page) (p_faulty page) (p_next_from_slot page) =
      Done (p, fold) /\ node_ok w m (on_proposer n p) /\ continues b b' from fold.
Proof.
  intros Hinv Hn Hrole He Heo b' from Hpage. pose proof Heo as [Hwf Hcf Hpr Ht Hwd Hfr]. pose proof Hpage as (_ & Hacc & Hfw & _).
  assert (forall s, agree (e_recovered e !! s) (p_accepted page !! s)) as Hag.
  { intros s. apply (reports_agree_ok w s); [intros rb v E; by apply (tk_have _ _ _ _ _ _ Ht) in E as [? _]|].
    intros rb v E. by apply Hacc in E as [? _]. }
  pose proof (fold_promise_ok (ln_proposer n) e sender b' from (p_accepted page) (p_faulty page) (p_next_from_slot page) He Hwf Hag) as Hok.
  case_decide as Hc; [|eexists _, _; split; [apply Hok|split; [by rewrite with_proposer_id|done]]].
  destruct Hok as (recovered & -> & _ & Hbest & Hwf').
  destruct Hc as (_ & [Eb Hna] & Hshape). apply shape_slots in Hshape as (-> & Hslots & Hnext).
  assert (b' = b) as ->. { rewrite <-Eb. apply Ht. }
  eexists _, _. split; [done|]. split; [|by destruct (p_next_from_slot page)]. apply proposer_node_ok; [done|done|].
  pose proof (nk_role _ _ _ _ _ _ Hn) as Hr. unfold role_ok in *. cbn [ln_role on_proposer]. rewrite Hrole in *.
  rewrite He in Hr. destruct Hr as (? & ? & ? & ? & ? & Hl & _ & Hfirst).
  split_and!; try done. split_and!; [done| |by destruct (p_next_from_slot page)].
  assert (NoDup (bt_entries (p_faulty page)).*1) as Hnd by apply NoDup_bt_keys.
  constructor; try done.
  - eapply fold_page_ok; try done.
    + apply Hwf.
    + intros s r. rewrite Hbest. intros [?|?]%best_some; [by left|by right].
    + intros s m' Hne. by apply merge_faulty_other.
    + intros s Hs. apply merge_faulty_absent. intros [fb Hf]%elem_of_bt_keys. congruence.
    + intros s fb _ Hs. apply merge_faulty_own; [done|]. by apply elem_of_bt_entries.
  - intros s [?|Hs]%merge_faulty_range; [by apply Hwd|]. apply Hfw. by apply elem_of_bt_keys.
Qed.

Lemma leader_promise_ok w m n b sender page :
  log_inv w -> node_ok w m n -> ln_role n = Leader b -> forall b' from, page_true w sender b' from page ->
  exists p fold, fold_probe_promise (ln_proposer n) sender b' from (p_accepted page) (p_faulty page) (p_next_from_slot page) =
      Done (p, fold) /\ node_ok w m (on_proposer n p) /\ continues b b' from fold.
Proof.
  intros Hinv Hn Hrole b' from Hpage. pose proof (nk_role _ _ _ _ _ _ Hn) as Hr. unfold role_ok in Hr. rewrite Hrole in Hr.
  destruct Hr as (Hb & Hl & Hp & Hlead). pose proof (lo_probe _ _ _ _ _ _ Hlead) as Hpb.
  destruct (p_probe (ln_proposer n)) as [pb|] eqn:Epb.
  2: { unfold fold_probe_promise. rewrite Epb. eexists _, _. split; [done|]. split; [by rewrite with_proposer_id|done]. }
  destruct Hpb as [Hwf Hne [Hsome Hans] Hpr Ht Hfr]. pose proof Hpage as (_ & Hacc & Hfw & _).
  assert (forall s, agree (pb_best_have pb !! s) (over_blocked pb (p_accepted page) !! s)) as Hag.
  { intros s. apply (reports_agree_ok w s); [intros rb v E; by apply (tk_have _ _ _ _ _ _ Ht) in E as [? _]|].
    intros rb v [E _]%lookup_over_blocked. by apply Hacc in E as [? _]. }
  pose proof (fold_probe_promise_ok (ln_proposer n) pb sender b' from (p_accepted page) (p_faulty page)
    (p_next_from_slot page) Epb Hwf Hne Hag) as Hok.
  case_decide as Hc; [|eexists _, _; split; [apply Hok|split; [by rewrite with_proposer_id|done]]].
  destruct Hok as (have & -> & Hbest & Hwf').
  destruct Hc as (_ & [Eb Hna] & Hshape). apply shape_slots in Hshape as (-> & Hslots & Hnext).
  assert (b' = b) as ->. { rewrite <-Eb. apply Ht. }
  eexists _, _. split; [done|]. split; [|by destruct (p_next_from_slot page)]. apply proposer_node_ok; [done|done|].
  unfold role_ok. cbn [ln_role on_proposer]. rewrite Hrole. split_and!; try done.
  set (l := filter (fun kv : Slot * Ballot => kv.1 ∈ pb_blocked pb) (bt_entries (p_faulty page))) in *.
  assert (NoDup l.*1) as Hnd.
  { eapply sublist_NoDup; [apply (NoDup_bt_keys (p_faulty page))|]. apply fmap_sublist, sublist_filter. }
  assert (forall s fb, (s, fb) ∈ l <-> p_faulty page !! s = Some fb /\ s ∈ pb_blocked pb) as Hl'.
  { intros s fb. unfold l. rewrite list_elem_of_filter, elem_of_bt_entries. cbn. tauto. }
  destruct Hlead. constructor; cbn [ln_proposer on_proposer p_election p_probe p_rounds p_recovery p_next_slot ln_acceptor ln_first with_probe];
    try done.
  - constructor; try done.
    { split; [done|]. unfold probe_folded, page_closed. cbn. destruct (p_next_from_slot page); cbn; clear -Hans; set_solver. }
    eapply fold_page_ok; try done.
    + apply Hwf.
    + intros s r. rewrite Hbest. intros [?|[? ?]%lookup_over_blocked]%best_some; [by left|by right].
    + intros s Hs. rewrite Hbest. f_equal. apply option_eq. intros r. rewrite lookup_over_blocked. tauto.
    + intros s m' Hne'. by apply merge_faulty_other.
    + intros s Hs. apply merge_faulty_absent. intros ([k fb] & -> & [? _]%Hl')%list_elem_of_fmap. cbn in Hs. congruence.
    + intros s fb Hs Hf. apply merge_faulty_own; [done|]. by apply Hl'.
  - intros pb' s [= <-] Hs. by apply (lo_blocked pb).
  - destruct (p_recovery (ln_proposer n)); [|done]. destruct lo_recovery. by constructor.
Qed.

(** *** The acceptor's handlers *)

Lemma with_promise_id a : with_promise a (a_promised a) = a.
Proof. by destruct a. Qed.

Lemma contact_promise_ok w m n b :
  node_ok w m n -> node b <> m -> (a_promised (ln_acceptor n) ≤ b)%B ->
  exists n', node_contact (with_acceptor n (with_promise (ln_acceptor n) b)) m b = Done n' /\ node_ok w m n' /\
    ln_acceptor n' = with_promise (ln_acceptor n) b.
Proof.
  intros Hn Hb Hle. unfold node_contact. cbn [ln_role with_acceptor]. case_decide as Hd.
  - destruct (node_follow_ok w m n Hn) as [_ Hf]. unfold node_follow. cbn [ln_proposer with_acceptor].
    rewrite abandon_ok. rsimpl. eexists. split; [done|]. split; [|done]. by apply (promise_node_ok w m (followed n)).
  - eexists. split; [done|]. split; [|done]. apply promise_node_ok; [done| |done].
    destruct (ln_role n); [done|by destruct Hd..].
Qed.

Lemma cut_page_true w m n b from limit page :
  log_inv w -> node_ok w m n -> a_promised (ln_acceptor n) = b -> floor_of (ln_acceptor n) <= from ->
  page_of (ln_acceptor n) from limit page -> page_true (at_node w m n) m b from page.
Proof.
  intros Hinv Hn Hp Hf [Ha Hfa _ _]. pose proof (nk_acc _ _ _ _ _ _ Hn) as []. split_and!.
  - rewrite at_node_promised, decide_True, Hp by done. apply ord_le_refl.
  - intros s rb v. rewrite Ha. case_decide; [|done]. intros E. split; [by apply ak_record|]. rewrite <-Hp.
    eapply ord_le_trans; [by eapply awf_records_le|apply ak_wf].
  - intros s. rewrite Hfa. case_decide; [|by intros [? ?]]. intros [fb E]. destruct (ak_faulty _ _ E) as [v Hr].
    by apply (li_rounds _ _ _ _ Hinv) in Hr as (_ & ? & _).
  - intros s b' Hs Hlt Hv. destruct (ak_held b' s Hv) as (hb & Hh & Hd); [destruct Hs; lia|].
    exists hb. split; [|done]. rewrite Ha, Hfa, !decide_True by done. exact Hh.
Qed.

Lemma push_nack_inv w m b s :
  log_inv w -> (floor_at w m <= s -> (b < promised_at w m)%B) -> exists w', push_nack w m b s = Done w' /\ log_inv w'.
Proof.
  intros Hinv Hlt. pose proof (ak_wf _ _ _ (nk_acc _ _ _ _ _ _ (li_nodes _ _ _ _ Hinv m))) as Hwf.
  unfold push_nack. rewrite first_slot_ok, promised_ok by done. rsimpl. eexists. split.
  - eapply bind_seq with (a := tt); [|done]. case_decide; [by apply rassert_true, Hlt|done].
  - apply log_send_inv; [done|]. by intros msg ->%list_elem_of_singleton.
Qed.

Lemma follow_ballot_ok r operating b : exists after, follow_ballot r operating b = Done after /\ (b ≤ after)%B.
Proof.
  unfold follow_ballot. set (before := default operating (role_ballot r)).
  assert (before ≤ (if decide (before < b)%B then b else before) /\ b ≤ (if decide (before < b)%B then b else before))%B as [H1 H2].
  { case_decide as H; [split; [by apply ord_lt_le|apply ord_le_refl]|]. split; [apply ord_le_refl|by apply ord_not_lt]. }
  eexists. split; [|exact H2]. rassert_by exact H1. by rassert_by exact H2.
Qed.

Lemma log_on_prepare_inv w m b from limit operating :
  log_inv w -> node b <> m -> 0 < limit <= PROMISE_BATCH ->
  exists w', log_on_prepare w m b from limit operating = Done w' /\ log_inv w'.
Proof.
  intros Hinv Hb Hl. pose proof (li_nodes _ _ _ _ Hinv m) as Hn. pose proof (ak_wf _ _ _ (nk_acc _ _ _ _ _ _ Hn)) as Hwf.
  unfold log_on_prepare. rewrite prepare_ok by done. unfold prepare_spec.
  destruct (decide (from < floor_of (ln_acceptor (lw_nodes w m)))) as [|Hf].
  { rsimpl. rewrite rassert_true by done. rsimpl. apply push_nack_inv; [done|]. unfold floor_at. lia. }
  destruct (decide (b < a_promised (ln_acceptor (lw_nodes w m)))%B) as [Hlt|Hle].
  { rewrite promised_ok by done. rsimpl. rewrite (rassert_true (b ≤ _)%B) by by apply ord_lt_le. rsimpl.
    rewrite rassert_true by done. rsimpl. by apply push_nack_inv. }
  apply ord_not_lt in Hle.
  assert (exists o : list (AcceptorWrite V) * bool, (if decide (b = a_promised (ln_acceptor (lw_nodes w m)))
    then (ln_acceptor (lw_nodes w m), [], PPromised false)
    else (with_promise (ln_acceptor (lw_nodes w m)) b, [] ++ [from_write (SetPromise b)], PPromised true)) =
    (with_promise (ln_acceptor (lw_nodes w m)) b, o.1, PPromised o.2) /\ (o.2 = true -> Exists (raises_promise b) o.1))
    as ([ws o] & -> & Ho).
  { case_decide as E; [exists ([], false); by rewrite E, with_promise_id|]. eexists (_, true). split; [done|].
    intros _. by apply Exists_cons_hd. }
  rsimpl. destruct (contact_promise_ok w m (lw_nodes w m) b Hn Hb Hle) as (n' & -> & Hn' & Ea). rsimpl.
  destruct (follow_ballot_ok (ln_role (lw_nodes w m)) operating b) as (after & -> & Hafter). rsimpl.
  pose proof (ak_wf _ _ _ (nk_acc _ _ _ _ _ _ Hn')) as Hwf'. rewrite promised_ok by done. rsimpl.
  assert (a_promised (ln_acceptor n') = b) as Ep by by rewrite Ea. rewrite (rassert_true (_ = b)) by done. rsimpl.
  rewrite (rassert_true (b ≤ after)%B) by done. rsimpl.
  destruct (promise_page_ok (ln_acceptor n') from limit Hwf' Hl) as (page & -> & Hpage). rsimpl.
  eexists. split.
  { eapply bind_seq with (a := tt); [|done]. destruct o; [|done]. by apply rassert_true, Ho. }
  apply log_send_inv; [by apply at_node_inv|]. intros msg ->%list_elem_of_singleton.
  split; [done|]. eapply cut_page_true; [done..| |done]. rewrite Ea. change (floor_of (ln_acceptor (lw_nodes w m)) <= from). lia.
Qed.

End steps.
