(* ===== verification/LogLearn.v ===== *)
(** * Learning a chosen slot, and what follows from it

    A node that learns a slot walks its chosen prefix and may apply a truncation
    that compacts it: the walk, the compaction and [mark_chosen] keep the invariant,
    and what they leave of the node is stated once for every handler that learns. *)

From stdpp Require Import functions.
From S2P Require Import Prelude BTree Types Retained Journal Contract Acceptor PromisePage QuorumSystem AcceptorConfig Rounds Tally Leadership Proposer Election LogWorld LogInv LogSteps.

Section learn.
Context {V : Type} `{!EqDecision V, !Fingerprint V, !FromWrite V WriteOp}.
Context (cfg : Ballot -> AcceptorConfig NodeId) (prior : Ballot -> list (AcceptorConfig NodeId)).
Context (led : Ballot -> Prop) {HC : LogConfigs cfg prior led}.
Implicit Types (n : LogNode V) (w : LogWorld V) (m : NodeId) (b c : Ballot) (s : Slot) (v : V)
  (a : Acceptor V) (p : Proposer NodeId V) (page : PromisePage V).

Local Abbreviation node_ok := (node_ok cfg prior led).
Local Abbreviation leader_ok := (leader_ok cfg prior led).
Local Abbreviation role_ok := (role_ok cfg prior led).
Local Abbreviation log_inv := (log_inv cfg prior led).
Local Abbreviation safe := (safe cfg led).
Local Abbreviation free := (free cfg led).

(** ** The chosen prefix *)

Lemma walk_ok fuel (chosen : gmap Slot V) s :
  s <= walk fuel chosen s /\ forall s', s <= s' < walk fuel chosen s -> is_Some (chosen !! s').
Proof.
  revert s. induction fuel as [|fuel IH]; intros s; cbn [walk]; [split; [lia|intros; lia]|].
  destruct (chosen !! s) as [v|] eqn:E; [|split; [lia|intros; lia]].
  destruct (IH (s + 1)) as [Hle Hall]. split; [lia|]. intros s' Hs'.
  destruct (decide (s' = s)) as [->|Hne]; [by eexists|]. apply Hall. lia.
Qed.

Lemma walk_below fuel (chosen : gmap Slot V) s hi :
  s <= hi -> (forall s', s <= s' -> is_Some (chosen !! s') -> s' < hi) -> walk fuel chosen s <= hi.
Proof.
  intros Hs Hlt. destruct (walk_ok fuel chosen s) as [Hle Hall].
  destruct (decide (walk fuel chosen s <= hi)) as [|Hgt]; [done|]. assert (hi < hi); [|lia].
  apply Hlt; [done|]. apply Hall. lia.
Qed.

(** A leader at its promise has nothing chosen past its allocator. *)
Lemma fresh_not_chosen w m n b s :
  log_inv w -> node_ok w m n -> ln_role n = Leader b -> (a_promised (ln_acceptor n) ≤ b)%B ->
  p_next_slot (ln_proposer n) <= s -> ln_chosen n !! s = None.
Proof.
  intros Hinv Hn Hrole Hp Hs. pose proof (nk_role _ _ _ _ _ _ Hn) as Hr. unfold LogInv.role_ok in Hr. rewrite Hrole in Hr.
  destruct Hr as (_ & _ & _ & Hlead). destruct (lo_fresh _ _ _ _ _ _ Hlead s Hs) as [Hnone Hfree].
  destruct (ln_chosen n !! s) as [x|] eqn:E; [exfalso|done].
  destruct (nk_slots _ _ _ _ _ _ Hn s) as (c & v & Hso); [right; by eexists|]. pose proof (so_decided _ _ _ _ _ Hso) as Hd.
  destruct (li_decided _ _ _ _ Hinv _ _ _ Hd) as [Hr _]. destruct (li_rounds _ _ _ _ Hinv _ _ _ Hr) as (Hl & _).
  assert (c ≤ b)%B as Hc. { eapply ord_le_trans; [|exact Hp]. apply (so_promised _ _ _ _ _ Hso), (nk_retained _ _ _ _ _ _ Hn). by eexists. }
  destruct (decide (c = b)) as [->|Hne]; [congruence|].
  eapply decided_not_shut; [done|exact Hd|]. apply Hfree; [done|by apply ord_le_ne_lt].
Qed.

Lemma chosen_width w m n s : log_inv w -> node_ok w m n -> is_Some (ln_chosen n !! s) -> s < u64_max.
Proof.
  intros Hinv Hn Hs. destruct (nk_slots _ _ _ _ _ _ Hn s (or_intror Hs)) as (c & v & Hso).
  destruct (li_decided _ _ _ _ Hinv _ _ _ (so_decided _ _ _ _ _ Hso)) as [Hr _]. by apply (li_rounds _ _ _ _ Hinv) in Hr as (_ & ? & _).
Qed.

Lemma node_walk_ok w m n fuel : log_inv w -> node_ok w m n -> node_ok w m (node_walk n fuel).
Proof.
  intros Hinv Hn. unfold node_walk. destruct (walk_ok fuel (ln_chosen n) (ln_first n)) as [Hge Hall].
  assert (walk fuel (ln_chosen n) (ln_first n) <= u64_max) as Hw.
  { apply walk_below; [apply Hn|]. intros s _. by eapply chosen_width. }
  assert (forall b, ln_role n = Leader b -> (a_promised (ln_acceptor n) ≤ b)%B -> ln_first n <= p_next_slot (ln_proposer n) ->
    walk fuel (ln_chosen n) (ln_first n) <= p_next_slot (ln_proposer n)) as Hnext.
  { intros b Hrole Hp Hle. apply walk_below; [done|]. intros s _ [x Hc].
    destruct (decide (s < p_next_slot (ln_proposer n))) as [|Hx]; [done|].
    rewrite (fresh_not_chosen w m n b s) in Hc; [done..|lia]. }
  set (start := walk fuel (ln_chosen n) (ln_first n)) in *.
  pose proof Hn as [Hacc Hfl _ Hret Hs Ha Hr Hsh]. constructor; cbn [ln_acceptor ln_first ln_chosen]; try done.
  - lia.
  - intros s Hin. destruct (Hs s) as (c & v & []).
    { destruct Hin as [?|?]; [|by right]. destruct (decide (s < ln_first n)); [by left|right; apply Hall; lia]. }
    exists c, v. by constructor.
  - unfold LogInv.role_ok in *. cbn [ln_role ln_proposer ln_acceptor ln_first]. destruct (ln_role n) as [|b|b] eqn:Hrole; [done|..].
    + destruct Hr as (? & ? & ? & ? & ? & ?). split_and!; try done. by eapply campaign_ok_first.
    + destruct Hr as (? & ? & ? & []). split_and!; try done. constructor; try done; cbn [ln_proposer ln_first ln_acceptor].
      * destruct (p_recovery (ln_proposer n)); [|done]. destruct lo_recovery. constructor; try done.
        intros s Hs' Hf Hc. specialize (ro_first s Hs' Hf Hc). cbn in Hc |- *.
        destruct (decide (start <= s)) as [|Hlt]; [done|]. destruct (Hall s); [lia|congruence].
      * intros Hp. by apply (Hnext b), lo_first.
  - destruct Hsh. constructor; try done. cbn [ln_acceptor ln_first ln_chosen]. intros s rb v Hlt Hc.
    apply sh_own; [|done]. destruct (decide (s < ln_first n)) as [|Hge']; [done|]. destruct (Hall s) as [x Hx]; [lia|congruence].
Qed.

(** ** The node's own checks *)

Lemma acceptor_faulty_ok a : acceptor_wf a -> acceptor_faulty a = Done (w_entries (a_faulty a)).
Proof.
  intros Hwf. unfold acceptor_faulty. rewrite window_entries_ok by apply Hwf. rsimpl. rewrite first_slot_ok by done. rsimpl.
  rewrite rassert_true; [done|]. apply first_key_geN. unfold floor_of. rewrite (awf_floor _ Hwf). apply Hwf.
Qed.

Lemma first_of_range (P : Slot -> Prop) `{forall s, Decision (P s)} lo hi s :
  lo <= s < hi -> P s -> exists h, head (filter P (range lo hi)) = Some h /\ h <= s.
Proof.
  intros Hs Hp. remember (N.to_nat (hi - lo)) as k eqn:Ek. revert lo Hs Ek.
  induction k as [|k IH]; intros lo Hs Ek; [lia|]. rewrite range_cons by lia. rewrite filter_cons.
  case_decide as Hd; [by exists lo; split; [done|lia]|]. assert (lo <> s) by by intros ->.
  apply IH; lia.
Qed.

Lemma node_hole_Some n h :
  node_hole n = Some h -> floor_of (ln_acceptor n) <= h < ln_first n /\ ln_chosen n !! h = None.
Proof.
  unfold node_hole. intros Hh. assert (h ∈ filter (fun s => ln_chosen n !! s = None) (range (floor_of (ln_acceptor n)) (ln_first n))) as Hin.
  { apply head_Some in Hh as [l ->]. by left. }
  by apply list_elem_of_filter in Hin as [? ?%elem_of_range].
Qed.

Lemma node_hole_covers n s :
  floor_of (ln_acceptor n) <= s < ln_first n -> ln_chosen n !! s = None -> exists h, node_hole n = Some h /\ h <= s.
Proof. intros. by apply (first_of_range (fun s => ln_chosen n !! s = None)). Qed.

Lemma assert_hole_invariants_ok w m n : node_ok w m n -> assert_hole_invariants n = Done tt.
Proof.
  intros Hn. pose proof (ak_wf _ _ _ (nk_acc _ _ _ _ _ _ Hn)) as Hwf. unfold assert_hole_invariants.
  rewrite acceptor_faulty_ok by done. rsimpl. eapply bind_seq with (a := tt).
  - destruct (first_key_of (w_entries (a_faulty (ln_acceptor n)))) as [s|] eqn:E; [|done]. case_decide as Hs; [|done].
    apply first_key_of_Some in E as [[fb Hf] _]. apply rassert_true.
    destruct (node_hole_covers n s) as (h & -> & ?); [|..|done].
    + split; [|done]. unfold floor_of. rewrite (awf_floor _ Hwf). apply (awf_faulty _ Hwf). by eexists.
    + destruct (ln_chosen n !! s) as [x|] eqn:Ec; [exfalso|done].
      destruct (nk_slots _ _ _ _ _ _ Hn s (or_introl Hs)) as (c & v & Hso).
      destruct (so_chosen _ _ _ _ _ Hso _ Ec) as [_ [r Hr]]. rewrite (awf_disjoint _ Hwf _ _ Hf) in Hr. done.
  - cbv beta. destruct (node_hole n) as [h|] eqn:E; [|done]. apply node_hole_Some in E as [[_ Hlt] Hc].
    rewrite (rassert_true (h < ln_first n)) by done. rsimpl. by rewrite rassert_true.
Qed.

Lemma proposer_assert_invariants_ok w m n : node_ok w m n -> proposer_assert_invariants (ln_proposer n) = Done tt.
Proof.
  intros Hn. pose proof (nk_role _ _ _ _ _ _ Hn) as Hr. unfold LogInv.role_ok, idle in Hr. unfold proposer_assert_invariants.
  destruct (ln_role n) as [|b|b].
  - destruct Hr as (He & _ & -> & ->). rewrite He. rewrite !rassert_true by done. rsimpl. rewrite decide_False by by intros [? ?].
    done.
  - destruct Hr as (_ & _ & _ & -> & -> & _). rewrite (rassert_true (is_none_or _ _)) by done. rsimpl.
    rewrite (rassert_true (true = true)) by done. rsimpl. rewrite !rassert_true by done. by case_decide.
  - destruct Hr as (_ & _ & _ & []). rewrite lo_election.
    rewrite (rassert_true (is_none_or _ _)) by (destruct (p_probe (ln_proposer n)); [apply lo_probe|done]). rsimpl.
    eapply bind_seq with (a := true).
    { destruct (p_recovery (ln_proposer n)) as [rc|]; [|done]. destruct lo_recovery as [Hpol Hrange _ _ _].
      unfold recovery_policy. rewrite decide_False by (rewrite Hpol; done). rsimpl. rewrite rassert_true by apply Hrange. rsimpl.
      f_equal. apply bool_decide_eq_true_2. by left. }
    cbv beta. rewrite (rassert_true (true = true)) by done. rsimpl. rewrite decide_False by by intros [? ?]. rsimpl.
    destruct (p_probe (ln_proposer n)) as [pb|]; [|done]. by apply probe_assert_invariants_ok; apply lo_probe.
Qed.

Lemma election_reads_ok p :
  (is_Some (p_election p) -> p_probe p = None /\ p_recovery p = None) -> election p = Done (p_election p).
Proof.
  intros H. unfold election. case_decide as Hd; [|done]. destruct (H Hd) as [H1 H2].
  rewrite (rassert_true (p_probe p = None)) by done. rsimpl. by rewrite rassert_true.
Qed.

Lemma election_ballot_ok (e : Election NodeId V) : election_wf e -> election_ballot e = Done (t_ballot (e_promises e)).
Proof.
  intros []. unfold election_ballot, in_campaign_range. rewrite !rassert_true by by apply first_key_geN. done.
Qed.

Lemma assert_leader_invariants_ok w m n b :
  node_ok w m n -> ln_role n = Leader b -> assert_leader_invariants m n b = Done tt.
Proof.
  intros Hn Hrole. pose proof (nk_role _ _ _ _ _ _ Hn) as Hr. unfold LogInv.role_ok in Hr. rewrite Hrole in Hr.
  destruct Hr as (Hb & _ & _ & []). pose proof (nk_shape _ _ _ _ _ _ Hn) as []. rewrite Hrole in sh_minted.
  pose proof (ak_wf _ _ _ (nk_acc _ _ _ _ _ _ Hn)) as Hwf. unfold assert_leader_invariants.
  rewrite election_reads_ok by (rewrite lo_election; by intros [? ?]). rewrite lo_election. rsimpl.
  rewrite (rassert_true (None = None)) by done. rsimpl. rewrite (rassert_true (zero < b)%B) by done. rsimpl.
  rewrite (rassert_true (node b = m)) by done. rsimpl. rewrite promised_ok by done. rsimpl.
  eapply bind_seq with (a := tt); [case_decide; [by apply rassert_true, lo_first|done]|]. cbv beta.
  rewrite (rassert_true (is_none_or _ _)).
  2: { destruct (last_key_of _) as [s|] eqn:E; [|done]. apply last_key_of_Some in E as [[r Hr] _]. cbn.
       destruct (decide (s < p_next_slot (ln_proposer n))) as [|Hge]; [done|]. destruct (lo_fresh s) as [Hnone _]; [lia|].
       destruct (lo_rounds s r Hr) as (_ & Hx & _). congruence. }
  rsimpl. rewrite (rassert_true (Forall _ _)).
  2: { apply Forall_forall. intros [s r] Hin%elem_of_bt_entries. by apply lo_rounds in Hin as [? _]. }
  rsimpl. case_decide as Hp; [|done].
  rewrite (allM_ok _ (fun s => is_Some (w_entries (a_records (ln_acceptor n)) !! s))).
  2: { intros s _. by rewrite acceptor_record_ok. }
  rsimpl. apply rassert_true, bool_decide_eq_true_2, Forall_forall. intros s Hs%elem_of_bt_keys. by eapply sh_recorded.
Qed.

Lemma assert_role_invariants_ok w m n : node_ok w m n -> assert_role_invariants m n = Done tt.
Proof.
  intros Hn. unfold assert_role_invariants. pose proof (nk_role _ _ _ _ _ _ Hn) as Hr. unfold LogInv.role_ok, idle in Hr.
  destruct (ln_role n) as [|b|b] eqn:Hrole; [..|by apply (assert_leader_invariants_ok w)].
  - destruct Hr as (He & _). rewrite election_reads_ok by (rewrite He; by intros [? ?]). rewrite He. rsimpl. by rewrite rassert_true.
  - destruct Hr as (Hb & Hp & _ & Hpb & Hrc & Hc). rewrite election_reads_ok by done. rsimpl.
    eapply bind_seq with (a := tt).
    { destruct (p_election (ln_proposer n)) as [e|]; [|done]. destruct Hc as (_ & Heo & _).
      rewrite election_ballot_ok by apply Heo. rsimpl. apply rassert_true, Heo. }
    cbv beta. rewrite rassert_true by done. rsimpl. rewrite promised_ok by apply (nk_acc _ _ _ _ _ _ Hn). rsimpl. by rewrite rassert_true.
Qed.

Lemma assert_leadership_state_invariants_ok w m n : node_ok w m n -> assert_leadership_state_invariants n = Done tt.
Proof.
  intros Hn. unfold assert_leadership_state_invariants. pose proof (nk_role _ _ _ _ _ _ Hn) as Hr.
  pose proof (sh_fence _ _ (nk_shape _ _ _ _ _ _ Hn)) as Hf.
  assert ((rs_by_slot (p_rounds (ln_proposer n)) = ∅ /\ p_recovery (ln_proposer n) = None /\ p_probe (ln_proposer n) = None)
    \/ is_leader (ln_role n) = true /\ p_election (ln_proposer n) = None) as Hcases.
  { unfold LogInv.role_ok, idle, rounds_is_empty in Hr. destruct (ln_role n); [left; tauto..|right].
    split; [done|]. apply Hr. }
  rewrite (rassert_true (rs_by_slot _ = ∅ \/ _)) by tauto. rsimpl.
  assert (fence (ln_proposer n) = Done (au_fence (p_authority (ln_proposer n))) /\
    (au_fence (p_authority (ln_proposer n)) = None \/ is_leader (ln_role n) = true)) as [-> Hfl].
  { unfold fence. destruct (au_fence (p_authority (ln_proposer n))) as [f|]; [|by split; [|left]].
    destruct Hf as [Hl Hlt]. split; [|by right]. rewrite (rassert_true (f < _)) by done. rsimpl.
    rewrite rassert_true; [done|]. unfold LogInv.role_ok in Hr. destruct (ln_role n); try done. apply Hr. }
  rsimpl. rewrite (rassert_true (au_fence _ = None \/ _)) by done. rsimpl.
  rewrite (rassert_true (p_recovery _ = None \/ _)) by tauto. rsimpl. apply rassert_true. tauto.
Qed.

(** What a node that satisfies the invariant looks like passes its own checks. *)
Lemma node_assert_invariants_ok w m n : node_ok w m n -> node_assert_invariants m n = Done tt.
Proof.
  intros Hn. pose proof (ak_wf _ _ _ (nk_acc _ _ _ _ _ _ Hn)) as Hwf. unfold node_assert_invariants.
  rewrite first_slot_ok by done. rsimpl. rewrite (rassert_true (floor_of (ln_acceptor n) <= ln_first n)) by apply (nk_floor _ _ _ _ _ _ Hn). rsimpl.
  rewrite acceptor_assert_invariants_ok by done. rsimpl. rewrite (rassert_true (is_none_or _ (first_key_of (ln_chosen n)))) by (apply first_key_geN, (nk_retained _ _ _ _ _ _ Hn)). rsimpl.
  rewrite (proposer_assert_invariants_ok w m) by done. rsimpl.
  rewrite (rassert_true (is_none_or _ (p_probe _))).
  2: { pose proof (nk_role _ _ _ _ _ _ Hn) as Hr. unfold LogInv.role_ok, idle in Hr. destruct (ln_role n).
       - by destruct Hr as (_ & _ & -> & _).
       - by destruct Hr as (_ & _ & _ & -> & _).
       - destruct (p_probe _); [by right|done]. }
  rsimpl. rewrite (rassert_true (is_none_or _ (first_key_of _))) by (apply first_key_geN, (nk_shape _ _ _ _ _ _ Hn)). rsimpl.
  rewrite (assert_hole_invariants_ok w m) by done. rsimpl. rewrite (assert_role_invariants_ok w) by done. rsimpl.
  by rewrite (assert_leadership_state_invariants_ok w m).
Qed.

(** ** Dropping a prefix *)

Lemma dropped_acc_ok w m a point : floor_of a <= point -> acc_ok w m a -> acc_ok w m (dropped a point).
Proof.
  intros Hle []. constructor; cbn.
  - by apply dropped_wf.
  - etrans; [|exact ak_width]. unfold msize, bt_split_off. pose proof (map_filter_subseteq (fun e : Slot * Ballot => ord_le point e.1) (w_entries (a_faulty a))).
    assert (size (filter (fun e : Slot * Ballot => ord_le point e.1) (w_entries (a_faulty a))) <= size (w_entries (a_faulty a)))%nat
      by by apply map_subseteq_size. lia.
  - intros s b v [_ E]%dropped_lookup. by apply ak_record.
  - intros s b [_ E]%dropped_lookup. by apply ak_faulty.
  - done.
  - intros b s Hv Hs. destruct (ak_held b s Hv) as (hb & Hh & Hd); [change (point <= s) in Hs; lia|]. exists hb. split; [|done].
    unfold held_at. cbn. by rewrite !lookup_bt_split_off, !decide_True.
Qed.

(** The node that dropped everything below [point], its proposer now [p]. *)
Definition cut n (point : Slot) p : LogNode V :=
  mkLogNode (dropped (ln_acceptor n) point) p (ln_role n) (bt_split_off point (ln_chosen n)) (N.max (ln_first n) point).

Record cut_proposer w n point p b : Prop := {
  ct_election : p_election p = None;
  ct_probe : forall pb', p_probe p = Some pb' -> probe_ok prior w b pb' /\
    exists pb, p_probe (ln_proposer n) = Some pb /\ forall s, s ∈ pb_blocked pb' -> s ∈ pb_blocked pb;
  ct_recovery : p_recovery p = p_recovery (ln_proposer n);
  ct_rounds : forall s r, rs_by_slot (p_rounds p) !! s = Some r -> rs_by_slot (p_rounds (ln_proposer n)) !! s = Some r;
  ct_next : p_next_slot (ln_proposer n) <= p_next_slot p <= u64_max;
  ct_first : point <= N.max (ln_first n) (p_next_slot p) }.

Lemma cut_leader_ok w n point p b :
  floor_of (ln_acceptor n) <= point -> leader_ok w n b -> cut_proposer w n point p b -> leader_ok w (cut n point p) b.
Proof.
  intros Hle [] [Helection Hprobe Hrecovery Hrounds Hnext Hfirst]. constructor; cbn [cut ln_proposer ln_acceptor ln_first]; try done.
  - destruct (p_probe p); [|done]. by apply Hprobe.
  - intros pb' s Hpb Hs. destruct (Hprobe pb' Hpb) as (_ & pb & E & Hsub). destruct (lo_blocked pb s E) as [? ?]; [by apply Hsub|].
    rewrite Hrecovery. split; [lia|done].
  - rewrite Hrecovery. destruct (p_recovery (ln_proposer n)); [|done]. destruct lo_recovery.
    constructor; cbn [cut ln_proposer ln_acceptor ln_first ln_chosen]; try done.
    + lia.
    + intros s Hs Hb Hf Hc. change (point <= s) in Hf. rewrite lookup_bt_split_off, decide_True in Hc by done. apply ro_sweep; [done|done|lia|done].
    + intros s Hs Hf Hc. change (point <= s) in Hf. rewrite lookup_bt_split_off, decide_True in Hc by done.
      assert (ln_first n <= s) by (apply ro_first; [done|lia|done]). lia.
  - intros s r Hr. by apply lo_rounds, Hrounds.
  - intros s Hs. apply lo_fresh. lia.
  - lia.
  - intros Hp. specialize (lo_first Hp). lia.
Qed.

Lemma cut_shape m n point p :
  node_shape m n -> floor_of (ln_acceptor n) <= point -> shape_kept (ln_proposer n) p ->
  (forall s, is_Some (rs_by_slot (p_rounds p) !! s) -> point <= s) -> node_shape m (cut n point p).
Proof.
  intros [] Hle [] Hrounds. constructor; cbn [cut ln_proposer ln_acceptor ln_first ln_chosen ln_role]; try done.
  - intros s b Hl Hp Hs. cbn [dropped a_records w_entries]. rewrite lookup_bt_split_off, decide_True by by apply Hrounds.
    eapply sh_recorded; [done..|by apply sk_rounds].
  - rewrite sk_fence. destruct (au_fence (p_authority (ln_proposer n))); [|done]. destruct sh_fence. split; [done|lia].
  - intros s rb v Hs Hc [Hps E]%dropped_lookup. change (point <= s) in Hps.
    rewrite lookup_bt_split_off, decide_True in Hc by done. apply (sh_own s rb v); [lia|done|done].
Qed.

Lemma cut_node_ok w m n point p :
  node_ok w m n -> floor_of (ln_acceptor n) <= point <= u64_max -> shape_kept (ln_proposer n) p ->
  (forall s, is_Some (rs_by_slot (p_rounds p) !! s) -> point <= s) ->
  (forall s, s < point -> exists c v, (c, s, v) ∈ lw_decided w) ->
  match ln_role n with
  | Follower => idle p
  | Candidate _ => p_election p = p_election (ln_proposer n) /\ rounds_is_empty (p_rounds p) /\ p_probe p = None /\ p_recovery p = None
  | Leader b => cut_proposer w n point p b
  end -> node_ok w m (cut n point p).
Proof.
  intros Hn [Hle Hmax] Hkept Hrs Hdec Hp. pose proof Hn as [Hacc Hfl Hw Hret Hs Ha Hr Hsh].
  constructor; cbn [cut ln_acceptor ln_first ln_chosen]; try done.
  - by apply dropped_acc_ok.
  - change (point <= N.max (ln_first n) point). lia.
  - lia.
  - intros s [x [? _]%dropped_lookup]. done.
  - intros s Hin. assert (forall x, bt_split_off point (ln_chosen n) !! s = Some x -> point <= s) as Hpt by by intros x [? _]%dropped_lookup.
    destruct (decide (point <= s)) as [Hps|Hps].
    + destruct (Hs s) as (c & v & []).
      { destruct Hin as [?|[x [_ E]%dropped_lookup]]; [left; lia|right; by eexists]. }
      exists c, v. constructor; cbn [cut ln_acceptor ln_first ln_chosen ln_role]; try done;
        unfold held_at; cbn [dropped a_records a_faulty w_entries]; rewrite ?lookup_bt_split_off, ?(decide_True (P:=ord_le point s)) by done; try done.
      * intros _. apply so_promised. lia.
      * intros _. apply so_record. lia.
      * intros _. apply so_held. lia.
      * intros _. apply so_above. lia.
    + destruct (Hdec s) as (c & v & Hd); [lia|]. exists c, v.
      constructor; cbn [cut ln_acceptor ln_first ln_chosen ln_role]; try done; try (intros Hx; change (point <= s) in Hx; lia).
      intros x Hx. by apply Hpt in Hx.
  - unfold LogInv.role_ok in *. cbn [cut ln_role ln_proposer ln_acceptor ln_first]. destruct (ln_role n) as [|b|b]; [done|..].
    + destruct Hr as (? & ? & _ & _ & _ & ?). destruct Hp as (Ep & ? & ? & ?). split_and!; try done.
      rewrite Ep. eapply campaign_ok_first; [|done]. lia.
    + destruct Hr as (? & ? & ? & ?). split_and!; try done. by apply cut_leader_ok.
  - by apply cut_shape.
Qed.

Lemma retain_rounds_from_ok p first :
  retain_rounds_from p first =
    Done (with_rounds p (mkRounds (filter (fun e => first <= e.1) (rs_by_slot (p_rounds p))) (rs_resend_cursor (p_rounds p)))).
Proof.
  unfold retain_rounds_from, rounds_retain_from.
  assert (is_none_or (fun s => first <= s) (first_key_of (filter (fun e : Slot * Round NodeId V => first <= e.1) (rs_by_slot (p_rounds p))))) as Hf.
  { apply first_key_geN. intros s [r [_ ?]%map_lookup_filter_Some]. done. }
  rewrite rassert_true by exact Hf. rsimpl. by rassert_by exact Hf.
Qed.

(** What a walk and a compaction leave: everything at or above the new floor, and
    the rounds still open there. *)
Record moved n n' : Prop := {
  mv_floor : floor_of (ln_acceptor n) <= floor_of (ln_acceptor n');
  mv_first : ln_first n <= ln_first n';
  mv_promised : a_promised (ln_acceptor n') = a_promised (ln_acceptor n);
  mv_role : ln_role n' = ln_role n;
  mv_election : p_election (ln_proposer n') = p_election (ln_proposer n);
  mv_probe : p_probe (ln_proposer n') = p_probe (ln_proposer n);
  mv_recovery : p_recovery (ln_proposer n') = p_recovery (ln_proposer n);
  mv_next : p_next_slot (ln_proposer n') = p_next_slot (ln_proposer n);
  mv_rounds : forall s r, rs_by_slot (p_rounds (ln_proposer n')) !! s = Some r -> rs_by_slot (p_rounds (ln_proposer n)) !! s = Some r;
  mv_chosen : forall s, floor_of (ln_acceptor n') <= s -> ln_chosen n' !! s = ln_chosen n !! s;
  mv_records : forall s, floor_of (ln_acceptor n') <= s ->
    w_entries (a_records (ln_acceptor n')) !! s = w_entries (a_records (ln_acceptor n)) !! s }.

Lemma moved_refl n : moved n n.
Proof. by constructor. Qed.

Lemma node_compact_ok w m n first sealed :
  node_ok w m n -> exists n', node_compact m n first sealed = Done n' /\ node_ok w m n' /\ moved n n' /\ ln_first n' = ln_first n.
Proof.
  intros Hn. unfold node_compact. pose proof (nk_acc _ _ _ _ _ _ Hn) as Hacc. rewrite first_slot_ok by apply Hacc. rsimpl.
  set (f := N.min first (ln_first n)). destruct (decide (f <= floor_of (ln_acceptor n))) as [|Hlt].
  { exists n. by split_and!. }
  rewrite truncate_ok; [|apply Hacc|lia]. rsimpl. rewrite retain_rounds_from_ok. rsimpl. set (p := with_rounds _ _).
  assert (node_ok w m (cut n f p)) as Hcut.
  { apply cut_node_ok; [done|pose proof (nk_width _ _ _ _ _ _ Hn); lia|..].
    - constructor; [|done|done]. intros s [r [? _]%map_lookup_filter_Some]. by eexists.
    - by intros s [r [_ ?]%map_lookup_filter_Some].
    - intros s Hs. destruct (nk_slots _ _ _ _ _ _ Hn s) as (c & v & Hso); [left; lia|]. exists c, v. apply Hso.
    - pose proof (nk_role _ _ _ _ _ _ Hn) as Hr. unfold LogInv.role_ok, idle, rounds_is_empty in *.
      destruct (ln_role n) as [|b|b].
      + destruct Hr as (? & E & ? & ?). split_and!; try done. cbn. by rewrite E, map_filter_empty.
      + destruct Hr as (? & ? & E & ? & ? & ?). split_and!; try done. cbn. by rewrite E, map_filter_empty.
      + destruct Hr as (? & ? & ? & []). constructor; try done.
        * intros pb' Hpb. cbn in Hpb. split; [by rewrite Hpb in lo_probe|by exists pb'].
        * intros s r. cbn. intros [? _]%map_lookup_filter_Some. done.
        * cbn. lia. }
  rewrite first_slot_ok by apply (nk_acc _ _ _ _ _ _ Hcut). rsimpl. change (floor_of (dropped (ln_acceptor n) f)) with f.
  rewrite (rassert_true (floor_of (ln_acceptor n) < f)) by lia. rsimpl. rewrite (rassert_true (f <= _)) by lia. rsimpl.
  assert (mkLogNode (dropped (ln_acceptor n) f) p (ln_role n) (bt_split_off f (ln_chosen n)) (ln_first n) = cut n f p) as ->
    by (unfold cut; f_equal; lia).
  rewrite (node_assert_invariants_ok w) by done. rsimpl. exists (cut n f p). split_and!; [done|done| |cbn; lia].
  constructor; try done; cbn [cut ln_acceptor ln_chosen ln_first ln_proposer].
  - change (floor_of (ln_acceptor n) <= f). lia.
  - lia.
  - intros s r. cbn. by intros [? _]%map_lookup_filter_Some.
  - intros s Hs. change (f <= s) in Hs. by rewrite lookup_bt_split_off, decide_True.
  - intros s Hs. change (f <= s) in Hs. cbn. by rewrite lookup_bt_split_off, decide_True.
Qed.

Lemma node_advance_ok w m n adv :
  log_inv w -> node_ok w m n -> exists n', node_advance m n adv = Done n' /\ node_ok w m n' /\ moved n n'.
Proof.
  intros Hinv Hn. unfold node_advance. pose proof (node_walk_ok w m n (ad_walked adv) Hinv Hn) as Hn1.
  pose proof (proj1 (walk_ok (ad_walked adv) (ln_chosen n) (ln_first n))) as Hge. set (n1 := node_walk n (ad_walked adv)) in *.
  rewrite (rassert_true (Forall _ _)).
  2: { apply Forall_forall. intros s Hs%elem_of_range. destruct (walk_ok (ad_walked adv) (ln_chosen n) (ln_first n)) as [_ Hall].
       destruct (Hall s) as [x Hx]; [exact Hs|]. destruct (nk_slots _ _ _ _ _ _ Hn1 s) as (c & v & Hso); [right; by eexists|].
       destruct (so_chosen _ _ _ _ _ Hso x Hx) as [-> [[rb y] Hy]]. unfold applied_record. rewrite Hy. cbn.
       destruct (so_record _ _ _ _ _ Hso) with rb y as [-> _]; [|done|done]. apply (nk_retained _ _ _ _ _ _ Hn1). by eexists. }
  rsimpl. assert (exists n2, (match ad_cut adv with Some (first, sealed) => node_compact m n1 first sealed | None => mret n1 end) = Done n2 /\
    node_ok w m n2 /\ moved n1 n2 /\ ln_first n2 = ln_first n1) as (n2 & -> & Hn2 & Hmv & Ef).
  { destruct (ad_cut adv) as [[first sealed]|]; [by apply node_compact_ok|]. exists n1. split_and!; [done..|apply moved_refl|done]. }
  assert (ln_first n <= ln_first n2) as Hle by (rewrite Ef; exact Hge). rsimpl. rewrite (rassert_true (ln_first n <= ln_first n2)) by done. rsimpl.
  rewrite first_slot_ok by apply (nk_acc _ _ _ _ _ _ Hn2). rsimpl. rewrite rassert_true by apply (nk_floor _ _ _ _ _ _ Hn2). rsimpl.
  exists n2. split_and!; [done..|]. by destruct Hmv; constructor.
Qed.

(** ** Learning *)

(** What learning [v] at [s] from ballot [b] leaves of a node. *)
Record marked n n' s v b : Prop := {
  md_floor : floor_of (ln_acceptor n) <= floor_of (ln_acceptor n');
  md_first : ln_first n <= ln_first n';
  md_chosen : floor_of (ln_acceptor n') <= s -> ln_chosen n' !! s = Some v;
  md_others : forall s', s' <> s -> floor_of (ln_acceptor n') <= s' -> ln_chosen n' !! s' = ln_chosen n !! s';
  md_leads : (b ≤ a_promised (ln_acceptor n))%B ->
    a_promised (ln_acceptor n') = a_promised (ln_acceptor n) /\ ln_role n' = ln_role n /\
    p_recovery (ln_proposer n') = p_recovery (ln_proposer n) /\
    p_next_slot (ln_proposer n') = p_next_slot (ln_proposer n) /\ p_election (ln_proposer n') = p_election (ln_proposer n);
  md_record : floor_of (ln_acceptor n') <= s -> ln_chosen n !! s = None ->
    exists rb, w_entries (a_records (ln_acceptor n')) !! s = Some (rb, v) /\ (b ≤ rb)%B;
  md_rounds : forall s' r, rs_by_slot (p_rounds (ln_proposer n')) !! s' = Some r -> rs_by_slot (p_rounds (ln_proposer n)) !! s' = Some r;
  md_probe : (b ≤ a_promised (ln_acceptor n))%B -> forall pb', p_probe (ln_proposer n') = Some pb' ->
    exists pb, p_probe (ln_proposer n) = Some pb /\ forall s', s' ∈ pb_blocked pb' -> s' ∈ pb_blocked pb }.

Lemma mark_chosen_in_ok w m n s v b adv writes :
  log_inv w -> node_ok w m n ->
  (floor_of (ln_acceptor n) <= s -> lw_rounds w !! (b, s) = Some v /\ decided_val w b s v) ->
  exists n' writes', mark_chosen_in m n s v b adv writes = Done (n', writes') /\ node_ok w m n' /\ marked n n' s v b /\
    (floor_of (ln_acceptor n) <= s -> ln_chosen n !! s = None ->
     (forall rb, w_entries (a_records (ln_acceptor n)) !! s = Some (rb, v) -> (rb < b)%B) -> Exists (appends s) writes').
Proof.
  intros Hinv Hn Hd. unfold mark_chosen_in. rewrite first_slot_ok by apply (nk_acc _ _ _ _ _ _ Hn). rsimpl.
  destruct (decide (s < floor_of (ln_acceptor n))) as [Hlt|Hf].
  { exists n, writes. split_and!; [done|done| |intros; lia].
    constructor; try done; try (intros; lia). intros _ pb' E. by exists pb'. }
  destruct Hd as [Hr Hd]; [lia|].
  destruct (node_learn_ok cfg prior led w m n s v b writes) as (n1 & writes' & -> & Hn1 & Hl & Hw); [done|done|lia|done|done|]. rsimpl.
  destruct (node_advance_ok w m n1 (adv s) Hinv Hn1) as (n2 & -> & Hn2 & Hmv). rsimpl.
  exists n2, writes'. split_and!; [done|done| |by intros _].
  destruct Hl, Hmv. constructor.
  - congruence.
  - congruence.
  - intros Hs. by rewrite mv_chosen0.
  - intros s' Hne Hs. rewrite mv_chosen0 by done. by apply lp_others.
  - intros Hb. destruct (lp_leads Hb) as (? & ? & _ & ? & ? & ?). split_and!; congruence.
  - intros Hs Hc. rewrite mv_records0 by done. by apply lp_record.
  - intros s' r Hs%mv_rounds0. destruct lp_rounds as [E|E]; rewrite E in Hs; done.
  - intros Hb pb' E. rewrite mv_probe0 in E. by apply lp_probe.
Qed.

Lemma mark_chosen_ok w m n s v b adv :
  log_inv w -> node_ok w m n ->
  (floor_of (ln_acceptor n) <= s -> lw_rounds w !! (b, s) = Some v /\ decided_val w b s v) ->
  exists n', mark_chosen m n s v b adv = Done n' /\ node_ok w m n' /\ marked n n' s v b.
Proof.
  intros Hinv Hn Hd. unfold mark_chosen. destruct (mark_chosen_in_ok w m n s v b adv [] Hinv Hn Hd) as (n' & ws & -> & ? & ? & _).
  by exists n'.
Qed.

(** *** Accepts *)

(** The record the accept handler leaves, in both of its branches: a slot of the chosen
    prefix it heals holds no record of another node's, so the learned one is appended. *)
Lemma accept_node_ok w m n b s v adv writes :
  log_inv w -> node_ok w m n -> a_promised (ln_acceptor n) = b -> floor_of (ln_acceptor n) <= s ->
  lw_rounds w !! (b, s) = Some v -> node b <> m ->
  exists n' writes', (if decide (s < ln_first n /\ ln_chosen n !! s = None) then mark_chosen_in m n s v b adv writes
              else '(a, writes) ← node_record (ln_acceptor n) s b v writes; mret (with_acceptor n a, writes)) = Done (n', writes') /\
    node_ok w m n' /\ a_promised (ln_acceptor n') = b /\ Exists (appends s) writes' /\
    (floor_of (ln_acceptor n') <= s -> w_entries (a_records (ln_acceptor n')) !! s = Some (b, v)).
Proof.
  intros Hinv Hn Hp Hf Hr Hb. case_decide as Hd.
  - destruct Hd as [Hs Hc]. destruct (nk_slots _ _ _ _ _ _ Hn s (or_introl Hs)) as (c & x & Hso).
    pose proof (so_promised _ _ _ _ _ Hso Hf) as Hcp. rewrite Hp in Hcp.
    assert (x = v) as -> by (symmetry; eapply decided_dominates; [done|apply Hso|done|done]).
    destruct (mark_chosen_in_ok w m n s v b adv writes Hinv Hn) as (n' & ws & -> & Hn' & Hpost & Hw).
    { intros _. split; [done|]. exists c. split; [apply Hso|done]. }
    exists n', ws. destruct (md_leads _ _ _ _ _ Hpost) as (Ep & _); [rewrite Hp; apply ord_le_refl|]. split_and!; [done|done|congruence|..].
    + apply Hw; [done|done|]. intros rb E. pose proof (sh_own _ _ (nk_shape _ _ _ _ _ _ Hn) s rb v Hs Hc E) as Erb.
      apply ord_le_ne_lt; [|congruence]. pose proof (ak_wf _ _ _ (nk_acc _ _ _ _ _ _ Hn)) as Hwf.
      rewrite <-Hp. eapply ord_le_trans; [by eapply awf_records_le|apply Hwf].
    + intros Hf'. destruct (md_record _ _ _ _ _ Hpost) as (rb & Erb & Hle); [done..|].
      pose proof (ak_wf _ _ _ (nk_acc _ _ _ _ _ _ Hn')) as Hwf.
      assert (rb ≤ b)%B. { rewrite <-Hp, <-Ep. eapply ord_le_trans; [by eapply awf_records_le|apply Hwf]. }
      assert (rb = b) as -> by (by apply ord_le_antisymm). done.
  - destruct (vote_node_ok cfg prior led w m n s b v) as [Hrec Hn']; [done..|by intros; destruct Hd|].
    rewrite (node_record_ok w m); [|apply Hn|done]. rsimpl.
    eexists _, _. split; [done|]. split_and!; [done|done| |].
    + apply Exists_app. right. by apply Exists_cons_hd.
    + intros _. cbn. apply lookup_insert_eq.
Qed.

Lemma log_on_accept_inv w m b s v operating adv :
  log_inv w -> NAccept b s v ∈ lw_net w -> node b <> m ->
  exists w', log_on_accept w m b s v operating adv = Done w' /\ log_inv w'.
Proof.
  intros Hinv Hm Hb. apply (li_net _ _ _ _ Hinv) in Hm as Hr. cbn in Hr. pose proof (li_nodes _ _ _ _ Hinv m) as Hn.
  unfold log_on_accept. rewrite acceptor_admit_ok by apply (nk_acc _ _ _ _ _ _ Hn). rsimpl.
  destruct (decide (s < floor_of (ln_acceptor (lw_nodes w m)))) as [|Hf]; [by exists w|].
  destruct (decide (b < a_promised (ln_acceptor (lw_nodes w m)))%B) as [|Hle].
  { rewrite promised_ok by apply (nk_acc _ _ _ _ _ _ Hn). rsimpl. rewrite rassert_true by done. rsimpl. by apply push_nack_inv. }
  apply ord_not_lt in Hle. destruct (node_contact_ok cfg prior led w m _ b Hn) as (n1 & -> & Hn1 & Ea & Ec & Ei & Hrole). rsimpl.
  destruct (follow_ballot_ok (ln_role (lw_nodes w m)) operating b) as (after & -> & _). rsimpl.
  specialize (Hrole Hb). rewrite set_promise_ok by by rewrite Ea. rsimpl.
  assert (node_ok w m (with_acceptor n1 (with_promise (ln_acceptor n1) b))) as Hn2.
  { apply promise_node_ok; [by rewrite Ea|by rewrite Hrole|done]. }
  set (ws := if decide (a_promised (ln_acceptor n1) = b) then [] else _).
  destruct (accept_node_ok w m _ b s v adv ws Hinv Hn2) as (n3 & ws' & -> & Hn3 & Ep & Hws & Erec); [done| |done|done|].
  { cbn. rewrite Ea. change (floor_of (ln_acceptor (lw_nodes w m)) <= s). lia. }
  rsimpl. rewrite promised_ok by apply (nk_acc _ _ _ _ _ _ Hn3). rsimpl. rewrite (rassert_true (_ = b)) by done. rsimpl.
  rewrite rassert_true by exact Hws. rsimpl.
  eexists. split; [done|]. apply log_send_inv.
  - apply vote_inv with v; [by apply at_node_inv|by rewrite at_node_promised, decide_True|done|].
    unfold floor_at. by rewrite at_node_same.
  - intros msg ->%list_elem_of_singleton. cbn. split; [|by exists v]. unfold log_voted. cbn. rewrite elem_of_union, elem_of_singleton. by left.
Qed.
End learn.
