(* ===== verification/LogLead.v ===== *)
(** * A leadership of the replicated log

    Opening a campaign, winning it, the rounds a leader opens (recovered slots, gap
    fills, repairs, fresh proposals) and the decisions it counts, each with the
    invariant kept and no assertion on its path firing. *)

From stdpp Require Import functions.
From S2P Require Import Prelude BTree Types Retained Journal Contract Acceptor PromisePage QuorumSystem AcceptorConfig Rounds Tally Leadership Proposer Election LogWorld LogInv LogSteps LogLearn.

Section lead.
Context {V : Type} `{!EqDecision V, !Fingerprint V, !FromWrite V WriteOp} (noop : V).
Context (cfg : Ballot -> AcceptorConfig NodeId) (prior : Ballot -> list (AcceptorConfig NodeId)).
Context (led : Ballot -> Prop) {HC : LogConfigs cfg prior led}.
Implicit Types (n : LogNode V) (w : LogWorld V) (m : NodeId) (b c : Ballot) (s : Slot) (v : V)
  (a : Acceptor V) (p : Proposer NodeId V) (page : PromisePage V).

Local Abbreviation node_ok := (node_ok cfg prior led).
Local Abbreviation leader_ok := (leader_ok cfg prior led).
Local Abbreviation role_ok := (role_ok cfg prior led).
Local Abbreviation log_inv := (log_inv cfg prior led).
Local Abbreviation safe := (safe cfg led).
Local Abbreviation free := (free cfg led).

(** ** Opening a round *)

Lemma leader_role w m n b : node_ok w m n -> ln_role n = Leader b ->
  node b = m /\ led b /\ (b ≤ a_promised (ln_acceptor n))%B /\ leader_ok w n b.
Proof. intros Hn Hr. pose proof (nk_role _ _ _ _ _ _ Hn) as H. unfold LogInv.role_ok in H. by rewrite Hr in H. Qed.

Lemma record_own_round_ok w m n b s v :
  log_inv w -> node_ok w m n -> ln_role n = Leader b -> floor_of (ln_acceptor n) <= s -> lw_rounds w !! (b, s) = Some v ->
  exists a recorded, record_own_round n s b v = Done (with_acceptor n a, recorded) /\ node_ok w m (with_acceptor n a) /\
    a_promised a = a_promised (ln_acceptor n) /\ floor_of a = floor_of (ln_acceptor n) /\
    (recorded = true -> a_promised a = b /\ w_entries (a_records a) !! s = Some (b, v)) /\
    ((a_promised a ≤ b)%B -> recorded = true).
Proof.
  intros Hinv Hn Hrole Hf Hr. destruct (leader_role w m n b Hn Hrole) as (Hown & _ & Hb & _).
  pose proof (nk_acc _ _ _ _ _ _ Hn) as Hacc. unfold record_own_round. rewrite promised_ok by apply Hacc. rsimpl.
  destruct (decide (b < a_promised (ln_acceptor n))%B) as [Hlt|Hle].
  { exists (ln_acceptor n), false. destruct n. by split_and!. }
  apply ord_not_lt in Hle. assert (a_promised (ln_acceptor n) = b) as Ep by by apply ord_le_antisymm.
  rewrite set_promise_ok by done. rsimpl. assert (with_promise (ln_acceptor n) b = ln_acceptor n) as -> by (rewrite <-Ep; apply with_promise_id).
  destruct (vote_node_ok cfg prior led w m n s b v) as [Hrec Hn']; [done..|]. rewrite (node_record_ok w m) by done. rsimpl.
  pose proof (nk_acc _ _ _ _ _ _ Hn') as Hacc'. rewrite promised_ok by apply Hacc'. rsimpl. rewrite rassert_true by done. rsimpl.
  rewrite acceptor_record_ok by apply Hacc'. rsimpl. rewrite rassert_true by (cbn; by rewrite lookup_insert_eq). rsimpl.
  eexists _, true. split; [done|]. split_and!; try done. intros _. split; [done|]. cbn. apply lookup_insert_eq.
Qed.

Lemma own_vote_ok config m recorded column :
  config_wf config -> column_valid config column ->
  own_vote config m recorded column =
    Done (if decide (recorded = true /\ m ∈ addressees_of config column) then Some m else None).
Proof.
  intros Hwf Hc. unfold own_vote. destruct recorded; [|by rewrite decide_False by by intros [? _]].
  rewrite config_is_phase2_addressee_ok by done. rsimpl. case_bool_decide as Hm.
  - rewrite (decide_True (P:=true = true /\ _)) by done. rewrite rassert_true by done. rsimpl.
    rewrite config_contains_ok by done. rsimpl.
    rewrite rassert_true by (by apply bool_decide_eq_true_2, (addressees_of_members config column)). rsimpl.
    rewrite config_phase2_addressees_ok by done. rsimpl. by rewrite rassert_true.
  - by rewrite decide_False by by intros [_ ?].
Qed.

(** What a round leaves of the leader: its role, its recovery and its allocator; a
    decision in it may learn the slot, walk and compact. *)
Record round_post w w' m b s : Prop := {
  rp_grows : log_grows w w';
  rp_rounds : forall s', s' <> s -> lw_rounds w' !! (b, s') = lw_rounds w !! (b, s');
  rp_role : ln_role (lw_nodes w' m) = ln_role (lw_nodes w m);
  rp_first : ln_first (lw_nodes w m) <= ln_first (lw_nodes w' m);
  rp_promised : promised_at w' m = promised_at w m;
  rp_floor : floor_at w m <= floor_at w' m;
  rp_probe : forall pb', p_probe (ln_proposer (lw_nodes w' m)) = Some pb' ->
    exists pb, p_probe (ln_proposer (lw_nodes w m)) = Some pb /\ forall s', s' ∈ pb_blocked pb' -> s' ∈ pb_blocked pb;
  rp_recovery : p_recovery (ln_proposer (lw_nodes w' m)) = p_recovery (ln_proposer (lw_nodes w m));
  rp_next : p_next_slot (ln_proposer (lw_nodes w' m)) = p_next_slot (ln_proposer (lw_nodes w m)) }.

Lemma round_post_refl w m b s : round_post w w m b s.
Proof. constructor; try done; [apply log_grows_refl|]. intros pb' E. by exists pb'. Qed.

Lemma round_post_trans w1 w2 w3 m b s : round_post w1 w2 m b s -> round_post w2 w3 m b s -> round_post w1 w3 m b s.
Proof.
  intros [] []. constructor; try congruence; [by eapply log_grows_trans|..].
  - intros s' Hne. by rewrite rp_rounds1, rp_rounds0.
  - lia.
  - lia.
  - intros pb3 E. destruct (rp_probe1 _ E) as (pb2 & E2 & ?). destruct (rp_probe0 _ E2) as (pb1 & ? & ?). exists pb1. split; eauto.
Qed.

(** ** Deciding *)

Lemma close_round_ok w m n s : node_ok w m n -> node_ok w m (on_proposer n (close_round (ln_proposer n) s)).
Proof.
  intros Hn. apply proposer_node_ok; [done| |].
  { constructor; [|done|done]. intros s' [r Hr]. cbn in Hr. apply lookup_delete_Some in Hr as [_ ?]. by eexists. }
  pose proof (nk_role _ _ _ _ _ _ Hn) as Hr. unfold LogInv.role_ok, idle, rounds_is_empty in *.
  cbn [ln_role on_proposer]. destruct (ln_role n).
  - destruct Hr as (? & E & ? & ?). split_and!; try done. cbn. by rewrite E, delete_empty.
  - destruct Hr as (? & ? & E & ? & ? & ?). split_and!; try done. cbn. by rewrite E, delete_empty.
  - destruct Hr as (? & ? & ? & []). split_and!; [done..|].
    constructor; cbn [ln_proposer on_proposer with_rounds close_round p_election p_probe p_recovery p_rounds p_next_slot ln_acceptor ln_first];
      try done.
    + destruct (p_recovery (ln_proposer n)); [|done]. destruct lo_recovery. by constructor.
    + intros s' r. cbn. intros [_ ?]%lookup_delete_Some. by apply lo_rounds.
Qed.

Lemma log_try_decide_inv w m b s adv :
  log_inv w -> ln_role (lw_nodes w m) = Leader b ->
  exists w', log_try_decide cfg w m s adv = Done w' /\ log_inv w' /\ round_post w w' m b s /\
    (w' = w \/ (floor_at w' m <= s -> is_Some (ln_chosen (lw_nodes w' m) !! s))).
Proof using HC.
  intros Hinv Hrole. pose proof (li_nodes _ _ _ _ Hinv m) as Hn. unfold log_try_decide. rewrite Hrole.
  destruct (leader_role w m _ b Hn Hrole) as (_ & Hled & Hp & Hlead).
  assert (exists w', mret w = Done w' /\ log_inv w' /\ round_post w w' m b s /\
    (w' = w \/ (floor_at w' m <= s -> is_Some (ln_chosen (lw_nodes w' m) !! s)))) as Hstay.
  { exists w. split_and!; [done|done|apply round_post_refl|by left]. }
  destruct (rs_by_slot (p_rounds (ln_proposer (lw_nodes w m))) !! s) as [r|] eqn:Er.
  2: { unfold decided, rounds_decided. by rewrite Er. }
  destruct (lo_rounds _ _ _ _ _ _ Hlead _ _ Er) as (Eb & Hround & Hwf & votes & Ec & Hvotes).
  rewrite (decided_ok _ _ _ r votes); [|by apply lc_cfg|apply Hlead|done|unfold round_accepted_by; by rewrite Ec|done]. rsimpl.
  case_decide as Hq; [|done]. rewrite rassert_true by done. rsimpl. rewrite Eb. set (v := r_command r) in *.
  assert (log_inv (decide_at w b s v)) as Hinv1.
  { apply decide_at_inv; [done..|]. exists votes. split; [by exists (r_column r)|done]. }
  set (w1 := decide_at w b s v) in *. pose proof (li_nodes _ _ _ _ Hinv1 m) as Hn1.
  assert (decided_val w1 b s v) as Hdv by (exists b; split; [by left|apply ord_le_refl]).
  destruct (mark_chosen_ok cfg prior led w1 m _ s v b adv Hinv1 Hn1) as (n' & E & Hn' & Hpost); [done|].
  change (lw_nodes w1 m) with (lw_nodes w m) in *. rewrite E. rsimpl.
  rewrite first_slot_ok by apply (nk_acc _ _ _ _ _ _ Hn'). rsimpl.
  destruct (md_leads _ _ _ _ _ Hpost) as (Epr & Ero & Ere & Enx & _); [done|].
  pose proof (close_round_ok w1 m n' s Hn') as Hclose. set (n2 := on_proposer n' (close_round (ln_proposer n') s)) in *.
  assert (forall msgs, lw_nodes (log_send (at_node w1 m n2) msgs) m = n2) as En2 by (intros; apply at_node_same).
  eexists. split_and!.
  - eapply bind_seq with (a := tt); [|done]. case_decide as Hf; [|done]. by apply rassert_true, (md_chosen _ _ _ _ _ Hpost).
  - apply log_send_inv; [by apply at_node_inv|]. intros msg ->%list_elem_of_singleton. done.
  - constructor; unfold promised_at, floor_at; rewrite ?En2; try done; [|apply Hpost..|intros pb' E'; by eapply (md_probe _ _ _ _ _ Hpost)].
    eapply log_grows_trans; [apply decide_at_grows|]. eapply log_grows_trans; [|apply log_send_grows]. by apply at_node_grows, Hclose.
  - right. unfold floor_at. rewrite En2. intros Hf. rewrite (md_chosen _ _ _ _ _ Hpost Hf : ln_chosen n2 !! s = _). by eexists.
Qed.

(** ** Opening a round, and deciding it when one vote is enough *)

Lemma vote_if_false w m b s : vote_if false w m b s = w.
Proof. by destruct w. Qed.

(** What a leader may propose at a slot. *)
Record round_free w m b s v : Prop := {
  rf_inv : log_inv w;
  rf_role : ln_role (lw_nodes w m) = Leader b;
  rf_floor : floor_at w m <= s;
  rf_next : s < p_next_slot (ln_proposer (lw_nodes w m));
  rf_fresh : lw_rounds w !! (b, s) = None;
  rf_safe : safe w b s v;
  rf_chosen : (promised_at w m ≤ b)%B -> ln_chosen (lw_nodes w m) !! s = None;
  rf_probe : forall pb, p_probe (ln_proposer (lw_nodes w m)) = Some pb -> s ∉ pb_blocked pb;
  rf_recovery : forall rc, p_recovery (ln_proposer (lw_nodes w m)) = Some rc ->
    s ∈ rc_blocked rc \/ s < rc_cursor rc \/ rc_end rc <= s }.

Lemma opened_leader_ok w m n b s v own column :
  node_ok w m n -> ln_role n = Leader b -> lw_rounds w !! (b, s) = Some v -> column_valid (cfg b) column ->
  floor_of (ln_acceptor n) <= s ->
  ((a_promised (ln_acceptor n) ≤ b)%B -> is_Some (w_entries (a_records (ln_acceptor n)) !! s)) ->
  is_none_or (fun me => log_voted w me b s /\ me ∈ addressees_of (cfg b) column) own ->
  node_ok w m (on_proposer n (with_rounds (ln_proposer n)
    (set_round (p_rounds (ln_proposer n)) s (mkRound b v (colocated own) column 0 0)))).
Proof.
  intros Hn Hrole Hr Hc Hfl Hrec Hown. apply proposer_shape_ok; [done| |].
  { destruct (nk_shape _ _ _ _ _ _ Hn) as [Hsr Hsc ? ? ?]. constructor; try done; cbn [on_proposer ln_proposer ln_acceptor ln_role].
    - intros s'. cbn. rewrite lookup_insert. case_decide; [by subst|apply Hsr].
    - intros s' b' Hl Hp. cbn. rewrite lookup_insert. case_decide; [|by apply Hsc with b']. subst s'. intros _. apply Hrec. congruence. }
  destruct (leader_role w m n b Hn Hrole) as (? & ? & ? & []).
  unfold LogInv.role_ok. cbn [ln_role on_proposer]. rewrite Hrole. split_and!; [done..|].
  constructor; cbn [ln_proposer on_proposer with_rounds p_election p_probe p_recovery p_rounds p_next_slot ln_acceptor ln_first];
    try done.
  - destruct (p_recovery (ln_proposer n)); [|done]. destruct lo_recovery. by constructor.
  - intros s' r. cbn. rewrite lookup_insert. case_decide as E; [subst s'|apply lo_rounds]. intros [= <-].
    split_and!; [done|done| |].
    + split; [done|]. destruct own; cbn in *; [|intros m' Hm'; by apply elem_of_empty in Hm'].
      intros m' ->%elem_of_singleton. apply Hown.
    + eexists. split; [done|]. destruct own; cbn in *; [|intros m' Hm'; by apply elem_of_empty in Hm'].
      intros m' ->%elem_of_singleton. apply Hown.
Qed.

(** The world with the round announced, recorded, voted and open. *)
Lemma open_round_inv w m b s v column :
  round_free w m b s v -> column_valid (cfg b) column ->
  exists n2 recorded p, record_own_round (lw_nodes w m) s b v = Done (n2, recorded) /\
    (own ← own_vote (cfg b) m recorded column; open_round (ln_proposer n2) s b v own column) = Done p /\
    let w' := log_send (at_node (vote_if recorded (at_node (announce w b s v) m n2) m b s) m (on_proposer n2 p)) [NAccept b s v] in
    log_inv w' /\ round_post w w' m b s /\ is_open_at (p_rounds p) s b = true.
Proof using HC.
  intros [Hinv Hrole Hf Hnx Hfresh Hsafe Hch Hpb Hrc] Hcol. pose proof (li_nodes _ _ _ _ Hinv m) as Hn.
  destruct (leader_role w m _ b Hn Hrole) as (Hb & Hled & Hp & Hlead). pose proof (lc_cfg b Hled) as Hcw.
  assert (log_inv (announce w b s v)) as Hinv1 by by eapply announce_inv.
  set (w1 := announce w b s v) in *. pose proof (li_nodes _ _ _ _ Hinv1 m) as Hn1. cbn [lw_nodes w1 announce] in Hn1.
  assert (lw_rounds w1 !! (b, s) = Some v) as Hr1 by (cbn; apply lookup_insert_eq).
  destruct (record_own_round_ok w1 m (lw_nodes w m) b s v) as (a & recorded & Erec & Hn2 & Epa & Efa & Hvote & Hrecd); [done..|].
  set (n2 := with_acceptor (lw_nodes w m) a) in *. set (w2 := at_node w1 m n2).
  assert (log_inv w2) as Hinv2 by by apply at_node_inv.
  set (w3 := vote_if recorded w2 m b s).
  assert (log_inv w3) as Hinv3.
  { unfold w3. destruct recorded; [|by rewrite vote_if_false]. destruct (Hvote eq_refl) as [Eb Er].
    apply vote_inv with v; [done| |done|]; unfold w2; [by rewrite at_node_promised, decide_True|intros _; by rewrite at_node_same]. }
  assert (lw_nodes w3 m = n2) as En3 by apply at_node_same.
  set (own := if decide (recorded = true /\ m ∈ addressees_of (cfg b) column) then Some m else None).
  set (p := with_rounds (ln_proposer n2) (set_round (p_rounds (ln_proposer n2)) s (mkRound b v (colocated own) column 0 0))).
  assert (node_ok w3 m (on_proposer n2 p)) as Hn4.
  { apply opened_leader_ok; try done. { rewrite <-En3. by apply li_nodes. } { by rewrite (Efa : floor_of (ln_acceptor n2) = _). }
    { intros Hle. cbn. destruct (Hvote (Hrecd Hle)) as [_ ->]. by eexists. }
    unfold own. case_decide as Hd; [|done]. destruct Hd as [-> Hm]. cbn. split; [|done].
    unfold log_voted. cbn. rewrite elem_of_union, elem_of_singleton. by left. }
  exists n2, recorded, p. split; [done|]. split; [|cbv zeta; split_and!].
  - rewrite own_vote_ok by done. rsimpl. apply open_round_ok; [by destruct Hlead|].
    cbn. destruct (rs_by_slot (p_rounds (ln_proposer (lw_nodes w m))) !! s) eqn:Er; [|done].
    destruct (lo_rounds _ _ _ _ _ _ Hlead _ _ Er) as (_ & Hx & _). congruence.
  - apply log_send_inv; [by apply at_node_inv|]. intros msg ->%list_elem_of_singleton. done.
  - assert (forall m', promised_at w3 m' = promised_at w m') as Hprom.
    { intros m'. change (promised_at w2 m' = promised_at w m'). unfold w2. rewrite at_node_promised.
      case_decide as E; [subst m'; cbn; by rewrite Epa|done]. }
    assert (log_grows w w3) as Hg.
    { constructor.
      - intros m'. rewrite Hprom. apply ord_le_refl.
      - intros m' b' s' Hv. unfold log_voted in *. cbn in Hv. destruct recorded; [|by left].
        rewrite elem_of_union, elem_of_singleton in Hv. destruct Hv as [[= -> -> ->]|?]; [right|by left].
        destruct (Hvote eq_refl) as [Eb _]. unfold promised_at. rewrite <-Epa, Eb. apply ord_le_refl.
      - intros m' b' s' Hv. unfold log_voted in *. cbn. destruct recorded; [|done]. rewrite elem_of_union. by right.
      - intros b' s' v' Hv. cbn. rewrite lookup_insert_ne; [done|]. intros [= -> ->]. congruence.
      - done. }
    assert (forall msgs, lw_nodes (log_send (at_node w3 m (on_proposer n2 p)) msgs) m = on_proposer n2 p) as En by (intros; apply at_node_same).
    constructor; unfold promised_at, floor_at; rewrite ?En; try done.
    + eapply log_grows_trans; [exact Hg|]. eapply log_grows_trans; [|apply log_send_grows]. apply at_node_grows.
      rewrite Hprom. cbn. rewrite Epa. apply ord_le_refl.
    + intros s' Hne. cbn. rewrite lookup_insert_ne; [done|]. intros [= ->]. done.
    + cbn. by rewrite Efa.
    + intros pb' E. by exists pb'.
  - unfold is_open_at. cbn. rewrite lookup_insert_eq. cbn. by apply bool_decide_eq_true_2.
Qed.

Lemma log_start_round_inv w m b s v column adv :
  round_free w m b s v -> column_valid (cfg b) column ->
  exists w', log_start_round cfg w m s v column adv = Done w' /\ log_inv w' /\ round_post w w' m b s.
Proof using HC.
  intros Hfree Hcol. pose proof Hfree as [Hinv Hrole Hf Hnx _ _ Hch _ _]. pose proof (li_nodes _ _ _ _ Hinv m) as Hn.
  pose proof (nk_acc _ _ _ _ _ _ Hn) as Hacc.
  destruct (open_round_inv w m b s v column Hfree Hcol) as (n2 & recorded & p & Erec & Eopen & Hinv1 & Hpost1 & Hopen).
  cbv zeta in *. set (w1 := log_send _ _) in *.
  destruct (log_try_decide_inv w1 m b s adv Hinv1) as (w2 & E2 & Hinv2 & Hpost2 & Hor); [by rewrite (rp_role _ _ _ _ _ Hpost1)|].
  assert (is_open_at (p_rounds (ln_proposer (lw_nodes w2 m))) s b = false -> floor_at w2 m <= s -> is_Some (ln_chosen (lw_nodes w2 m) !! s)) as Hdone.
  { destruct Hor as [->|Hor]; [|by intros _]. unfold w1. cbn [lw_nodes log_send]. rewrite at_node_same. cbn. congruence. }
  exists w2. split_and!; [|done|by eapply round_post_trans].
  unfold log_start_round. rewrite Hrole, first_slot_ok by apply Hacc. rsimpl. rassert_by exact Hf. rassert_by exact Hnx.
  rewrite promised_ok by apply Hacc. rsimpl.
  eapply bind_seq with (a := tt). { destruct (decide (a_promised (ln_acceptor (lw_nodes w m)) ≤ b)%B); [apply rassert_true; by apply Hch|done]. }
  cbv beta. rassert_by exact Hcol. rewrite Erec. rsimpl.
  destruct (own_vote (cfg b) m recorded column) as [own|]; [|done]. rewrite bind_Done in Eopen. rsimpl. rewrite Eopen. rsimpl.
  fold w1. rewrite E2. rsimpl. rewrite first_slot_ok by apply (nk_acc _ _ _ _ _ _ (li_nodes _ _ _ _ Hinv2 m)). rsimpl.
  eapply bind_seq with (a := tt); [|done]. case_decide as Hd; [|done]. apply rassert_true. destruct Hd. by apply Hdone.
Qed.
End lead.
