(* ===== verification/LogRounds.v ===== *)
(** * The rounds of a leadership

    The slots a fresh leader sweeps and the ones its repair probe decides, the
    fresh slots it allocates, the votes it counts and the decisions they make: each
    event keeps the invariant and none of its assertions fires. *)

From stdpp Require Import functions.
From S2P Require Import Prelude BTree Types Retained Journal Contract Acceptor PromisePage QuorumSystem AcceptorConfig Rounds Tally Leadership Proposer Election LogWorld LogInv LogSteps LogLearn LogLead.

Section rounds.
Context {V : Type} `{!EqDecision V, !Fingerprint V, !FromWrite V WriteOp} (noop : V).
Context (cfg : Ballot -> AcceptorConfig NodeId) (prior : Ballot -> list (AcceptorConfig NodeId)).
Context (led : Ballot -> Prop) {HC : LogConfigs cfg prior led}.
Implicit Types (n : LogNode V) (w : LogWorld V) (m : NodeId) (b c : Ballot) (s : Slot) (v : V)
  (a : Acceptor V) (p : Proposer NodeId V) (page : PromisePage V).

Local Abbreviation node_ok := (node_ok cfg prior led).
Local Abbreviation leader_ok := (leader_ok cfg prior led).
Local Abbreviation role_ok := (role_ok cfg prior led).
Local Abbreviation log_inv := (log_inv cfg prior led).
Local Abbreviation safe := (safe cfg led).
Local Abbreviation free := (free cfg led).
Local Abbreviation round_free := (round_free cfg prior led).

(** ** Slots Phase 1 decided *)

Lemma log_start_accept_round_inv w m b s v adv :
  round_free w m b s v ->
  exists w', log_start_accept_round cfg w m s v adv = Done w' /\ log_inv w' /\ round_post w w' m b s.
Proof using HC.
  intros Hfree. pose proof (rf_role _ _ _ _ _ _ _ _ Hfree) as Hrole. pose proof (rf_inv _ _ _ _ _ _ _ _ Hfree) as Hinv.
  destruct (leader_role cfg prior led w m _ b (li_nodes _ _ _ _ Hinv m) Hrole) as (_ & Hled & _).
  unfold log_start_accept_round. rewrite Hrole, config_column_of_ok by by apply lc_cfg. rsimpl. rewrite rassert_true.
  2: { unfold slot_column. by destruct (c_quorum_system (cfg b)). }
  rsimpl. apply (log_start_round_inv cfg prior led); [done|]. by apply slot_column_valid, lc_cfg.
Qed.

Lemma log_repropose_inv w m b s v fill blocked (bl : bool) adv :
  log_inv w -> ln_role (lw_nodes w m) = Leader b -> blocked = Done bl ->
  (floor_at w m <= s -> ln_chosen (lw_nodes w m) !! s = None -> bl = false ->
     round_free w m b s v /\ (fill = true -> ln_first (lw_nodes w m) <= s)) ->
  exists w', log_repropose cfg w m s v fill blocked adv = Done w' /\ log_inv w' /\ round_post w w' m b s.
Proof using HC.
  intros Hinv Hrole -> Hfree. pose proof (li_nodes _ _ _ _ Hinv m) as Hn. unfold log_repropose.
  rewrite first_slot_ok by apply (nk_acc _ _ _ _ _ _ Hn). rsimpl.
  destruct (decide (s < floor_of (ln_acceptor (lw_nodes w m)) \/ is_Some (ln_chosen (lw_nodes w m) !! s))) as [|Hno].
  { exists w. split_and!; [done|done|apply round_post_refl]. }
  destruct bl; [exists w; split_and!; [done|done|apply round_post_refl]|].
  destruct Hfree as [Hrf Hfill]; [unfold floor_at; lia| |done|].
  { destruct (ln_chosen (lw_nodes w m) !! s); [|done]. destruct Hno. right. by eexists. }
  destruct (log_start_accept_round_inv w m b s v adv Hrf) as (w' & E & Hw').
  exists w'. split; [|done]. eapply bind_seq with (a := tt); [destruct fill; [by apply rassert_true, Hfill|done]|]. exact E.
Qed.

(** *** The recovery sweep *)

Lemma swept_leader_ok w m n b rc :
  node_ok w m n -> ln_role n = Leader b -> p_recovery (ln_proposer n) = Some rc -> rc_cursor rc < rc_end rc ->
  node_ok w m (on_proposer n (with_recovery (ln_proposer n) (Some (swept rc)))).
Proof.
  intros Hn Hrole Hrc Hlt. apply proposer_node_ok; [done|done|]. destruct (leader_role _ _ _ w m n b Hn Hrole) as (? & ? & ? & []).
  unfold LogInv.role_ok. cbn [ln_role on_proposer]. rewrite Hrole. split_and!; [done..|]. rewrite Hrc in *.
  constructor; cbn [ln_proposer on_proposer with_recovery p_election p_probe p_recovery p_rounds p_next_slot ln_acceptor ln_first];
    try done.
  destruct lo_recovery. constructor; cbn; try done.
  - lia.
  - intros s. rewrite lookup_delete. case_decide; [by intros [? ?]|apply ro_recovered].
  - intros s Hs Hb Hf Hc. destruct (ro_sweep s) as [? Hv]; [lia|done..|]. split; [done|]. cbn.
    rewrite lookup_delete_ne by lia. done.
  - intros s Hs. apply ro_first. lia.
Qed.

Lemma recovery_blocked_ok p rc s :
  p_recovery p = Some rc -> rc_policy rc = Phase1Backed -> s < rc_end rc ->
  recovery_blocked p s = Done (bool_decide (s ∈ rc_blocked rc)).
Proof.
  intros Hrc Hpol Hs. unfold recovery_blocked, recovery_is_blocked. rewrite Hrc. case_bool_decide; [|done].
  by rewrite !rassert_true.
Qed.

(** One slot of the sweep. *)
Definition sweep_round (w : LogWorld V) m p s (step : RecoveryStep V) adv : run (LogWorld V) :=
  match step with
  | Recovered v => log_repropose cfg w m s v false (recovery_blocked p s) adv
  | Fill => log_repropose cfg w m s noop true (recovery_blocked p s) adv
  | Undescribed => mret w
  end.

Lemma sweep_round_inv w m b rc adv :
  log_inv w -> ln_role (lw_nodes w m) = Leader b -> p_recovery (ln_proposer (lw_nodes w m)) = Some rc -> rc_cursor rc < rc_end rc ->
  let p := with_recovery (ln_proposer (lw_nodes w m)) (Some (swept rc)) in
  let w1 := at_node w m (on_proposer (lw_nodes w m) p) in
  exists w', sweep_round w1 m p (rc_cursor rc) (sweep_at rc (rc_cursor rc)) adv = Done w' /\ log_inv w' /\
    round_post w1 w' m b (rc_cursor rc).
Proof using HC.
  intros Hinv Hrole Hrc Hlt p1 w1. pose proof (li_nodes _ _ _ _ Hinv m) as Hn.
  destruct (leader_role _ _ _ w m _ b Hn Hrole) as (_ & Hled & _ & Hlead).
  pose proof (lo_recovery _ _ _ _ _ _ Hlead) as Hro. rewrite Hrc in Hro. cbn in Hro.
  pose proof (ro_range _ _ _ _ _ _ Hro) as Hrange. set (n1 := on_proposer (lw_nodes w m) p1).
  assert (node_ok w m n1) as Hn1 by (apply (swept_leader_ok w m _ b); [done..|lia]).
  assert (log_inv w1) as Hinv1 by by apply at_node_inv.
  assert (log_grows w w1) as Hg by (apply at_node_grows; apply Hn1).
  assert (lw_nodes w1 m = n1) as En1 by apply at_node_same.
  assert (exists v fill, sweep_round w1 m p1 (rc_cursor rc) (sweep_at rc (rc_cursor rc)) adv =
      log_repropose cfg w1 m (rc_cursor rc) v fill (recovery_blocked p1 (rc_cursor rc)) adv /\
      match rc_recovered rc !! rc_cursor rc with Some v' => v = v' | None => True end) as (v & fill & -> & Hv).
  { unfold sweep_at. rewrite (ro_policy _ _ _ _ _ _ Hro). destruct (rc_recovered rc !! rc_cursor rc); by eexists _, _. }
  apply (log_repropose_inv w1 m b (rc_cursor rc) v fill (recovery_blocked p1 (rc_cursor rc))
    (bool_decide (rc_cursor rc ∈ rc_blocked rc)) adv).
  - done.
  - by rewrite En1.
  - apply (recovery_blocked_ok p1 (swept rc)); [done|by apply Hro|cbn; lia].
  - unfold floor_at. rewrite En1. cbn [ln_chosen n1 on_proposer ln_acceptor ln_first].
    intros Hf Hc Hb%bool_decide_eq_false. split; [|intros _; apply (ro_first _ _ _ _ _ _ Hro); [lia|done..]].
    destruct (ro_sweep _ _ _ _ _ _ Hro (rc_cursor rc)) as [Hr Hsafe]; [lia|done..|].
    constructor; unfold floor_at; rewrite ?En1; cbn [ln_chosen n1 on_proposer ln_acceptor ln_first ln_proposer ln_role];
      try done; cbn [p1 with_recovery p_next_slot p_probe p_recovery].
    + lia.
    + eapply safe_grows; [done|]. destruct (rc_recovered rc !! rc_cursor rc); [by subst|by apply free_safe].
    + intros pb Hpb Hs. destruct (lo_blocked _ _ _ _ _ _ Hlead pb _ Hpb Hs) as [_ Hx]. rewrite Hrc in Hx. done.
    + intros rc' [= <-]. right. left. cbn. lia.
Qed.

(** The leadership and the promise a page of the recovery leaves. *)
Definition still_leads w w' m : Prop :=
  ln_role (lw_nodes w' m) = ln_role (lw_nodes w m) /\ promised_at w' m = promised_at w m.

Lemma log_pump_slots_inv k w m b adv :
  log_inv w -> ln_role (lw_nodes w m) = Leader b ->
  exists w', log_pump_slots noop cfg k w m adv = Done w' /\ log_inv w' /\ still_leads w w' m.
Proof using HC.
  revert w. induction k as [|k IH]; intros w Hinv Hrole; [by exists w|].
  pose proof (li_nodes _ _ _ _ Hinv m) as Hn. cbn [log_pump_slots].
  destruct (leader_role _ _ _ w m _ b Hn Hrole) as (_ & Hled & _ & Hlead). unfold recovery_next.
  assert (log_inv (at_node w m (lw_nodes w m)) /\ still_leads w (at_node w m (lw_nodes w m)) m) as Hstay.
  { split; [by apply at_node_inv|]. unfold still_leads, promised_at. by rewrite at_node_same. }
  destruct (p_recovery (ln_proposer (lw_nodes w m))) as [rc|] eqn:Hrc; rsimpl.
  2: { eexists. split; [done|]. by rewrite with_proposer_id. }
  pose proof (lo_recovery _ _ _ _ _ _ Hlead) as Hro. rewrite Hrc in Hro. cbn in Hro.
  pose proof (lo_width _ _ _ _ _ _ Hlead) as Hwd. pose proof (ro_range _ _ _ _ _ _ Hro) as Hrange.
  rewrite recovery_step_ok by lia. rsimpl. destruct (decide (rc_end rc <= rc_cursor rc)) as [Hend|Hlt].
  { eexists. split; [done|]. replace (with_recovery _ _) with (ln_proposer (lw_nodes w m)) by (destruct (ln_proposer _); cbn in *; by subst).
    by rewrite with_proposer_id. }
  destruct (sweep_round_inv w m b rc adv) as (w' & E & Hinv' & Hpost); [done..|lia|]. cbv zeta in E, Hpost. unfold sweep_round in E.
  rsimpl. rewrite E. rsimpl. destruct Hpost. unfold promised_at in *. rewrite at_node_same in *. cbn [ln_role on_proposer ln_acceptor] in *.
  destruct (IH w' Hinv') as (w2 & -> & ? & ? & ?); [congruence|]. exists w2. split_and!; [done..|]. split; unfold promised_at in *; congruence.
Qed.

Lemma range_from_nil {A} k (t : gmap Slot A) : (forall s, is_Some (t !! s) -> s < k) -> bt_range_from k t = [].
Proof.
  intros Hlt. destruct (bt_range_from k t) as [|[s x] l] eqn:E; [done|].
  assert ((s, x) ∈ bt_range_from k t) as [Hs Hle]%elem_of_bt_range_from by (rewrite E; left).
  assert (s < k) by (apply Hlt; by eexists). change (k <= s) in Hle. lia.
Qed.

Lemma recovery_left_ok (rc : Recovery V) : rc_cursor rc <= rc_end rc -> recovery_left rc = Done (rc_end rc - rc_cursor rc).
Proof.
  intros Hle. unfold recovery_left. rewrite (rassert_true (rc_cursor rc <= rc_end rc)) by done. rsimpl.
  case_decide; [|done]. by rewrite rassert_true by lia.
Qed.

Lemma close_drained_ok p rc :
  p_recovery p = Some rc -> rc_cursor rc = rc_end rc -> (forall s, is_Some (rc_recovered rc !! s) -> s < rc_end rc) ->
  close_drained_recovery p = Done (with_recovery p None).
Proof.
  intros Hrc E Hrec. unfold close_drained_recovery, recovery_remaining. rewrite Hrc, recovery_left_ok by lia. rsimpl.
  rewrite decide_False by lia. unfold recovery_close.
  rewrite (rassert_true (rc_end rc <= rc_cursor rc)) by lia. rsimpl.
  by rewrite rassert_true by (apply range_from_nil; by rewrite E).
Qed.

Lemma drained_leader_ok w m n b :
  node_ok w m n -> ln_role n = Leader b -> node_ok w m (on_proposer n (with_recovery (ln_proposer n) None)).
Proof.
  intros Hn Hrole. apply proposer_node_ok; [done|done|]. destruct (leader_role _ _ _ w m n b Hn Hrole) as (? & ? & ? & []).
  unfold LogInv.role_ok. cbn [ln_role on_proposer]. rewrite Hrole. split_and!; [done..|].
  constructor; cbn [ln_proposer on_proposer with_recovery p_election p_probe p_recovery p_rounds p_next_slot ln_acceptor ln_first];
    try done.
  intros pb s Hpb Hs. split; [by eapply lo_blocked|done].
Qed.

Lemma log_pump_inv k w m adv :
  log_inv w -> exists w', log_pump noop cfg k w m adv = Done w' /\ log_inv w' /\ still_leads w w' m.
Proof using HC.
  intros Hinv. unfold log_pump. destruct (ln_role (lw_nodes w m)) as [|b|b] eqn:Hrole; [by exists w|by exists w|].
  destruct (log_pump_slots_inv k w m b adv Hinv Hrole) as (w1 & -> & Hinv1 & Hro1 & Hp1). rsimpl.
  rewrite Hrole in Hro1. pose proof (li_nodes _ _ _ _ Hinv1 m) as Hn.
  destruct (leader_role _ _ _ w1 m _ b Hn Hro1) as (_ & _ & _ & Hlead).
  assert (forall p, node_ok w1 m (on_proposer (lw_nodes w1 m) p) ->
    log_inv (at_node w1 m (on_proposer (lw_nodes w1 m) p)) /\ still_leads w (at_node w1 m (on_proposer (lw_nodes w1 m) p)) m) as Hgo.
  { intros p Hp. split; [by apply at_node_inv|]. unfold still_leads, promised_at in *. rewrite at_node_same. cbn. split; congruence. }
  assert (still_leads w w1 m) as Hst by (split; congruence). unfold recovery_remaining.
  destruct (p_recovery (ln_proposer (lw_nodes w1 m))) as [rc|] eqn:Hrc.
  2: { rsimpl. unfold close_drained_recovery, recovery_remaining. rewrite Hrc. rsimpl. destruct (decide (0 = 0)); [|done]. destruct (decide (0 <> 0)); [done|]. rsimpl. rewrite rassert_true by exact Hrc. rsimpl.
       eexists. split; [done|]. apply Hgo. by rewrite with_proposer_id. }
  pose proof (lo_recovery _ _ _ _ _ _ Hlead) as Hro. rewrite Hrc in Hro. cbn in Hro. pose proof (ro_range _ _ _ _ _ _ Hro) as Hrange.
  rewrite recovery_left_ok by lia. rsimpl. destruct (decide (rc_end rc - rc_cursor rc = 0)) as [Hz|Hnz].
  - rewrite (close_drained_ok _ rc); [|done|lia|apply Hro]. rsimpl. rewrite rassert_true by done. rsimpl.
    eexists. split; [done|]. apply Hgo. by eapply drained_leader_ok.
  - rewrite rassert_true by (cbn; lia). rsimpl. by exists w1.
Qed.

(** *** The repair probe decides *)

(** A slot the probe let go of: what its tally holds there is safe to propose. *)
Record settled w m b (have : gmap Slot (Ballot * V)) s : Prop := {
  sd_fresh : lw_rounds w !! (b, s) = None;
  sd_next : s < p_next_slot (ln_proposer (lw_nodes w m));
  sd_safe : match have !! s with Some (_, v) => safe w b s v | None => free w b s end;
  sd_probe : forall pb, p_probe (ln_proposer (lw_nodes w m)) = Some pb -> s ∉ pb_blocked pb;
  sd_recovery : forall rc, p_recovery (ln_proposer (lw_nodes w m)) = Some rc -> s ∈ rc_blocked rc }.

Lemma settled_grows w w' m b have s s' : s <> s' -> round_post w w' m b s' -> settled w m b have s -> settled w' m b have s.
Proof.
  intros Hne [] []. constructor; rewrite ?rp_rounds, ?rp_next, ?rp_recovery by done; try done.
  2: { intros pb' E Hs. destruct (rp_probe pb' E) as (pb & E0 & Hsub). by eapply sd_probe, Hsub. }
  destruct (have !! s) as [[rb v]|]; [by eapply safe_grows|by eapply free_grows].
Qed.

(** A hole of the chosen prefix was decided: Phase 1 never finds it free. *)
Lemma hole_not_free w m b s :
  log_inv w -> ln_role (lw_nodes w m) = Leader b -> floor_at w m <= s -> ln_chosen (lw_nodes w m) !! s = None ->
  free w b s -> ln_first (lw_nodes w m) <= s.
Proof.
  intros Hinv Hrole Hf Hc Hfree. destruct (decide (ln_first (lw_nodes w m) <= s)) as [|Hlt]; [done|]. exfalso.
  destruct (nk_slots _ _ _ _ _ _ (li_nodes _ _ _ _ Hinv m) s) as (c & v & Hso); [left; lia|].
  pose proof (so_decided _ _ _ _ _ Hso) as Hd. pose proof (so_above _ _ _ _ _ Hso Hf Hc) as Hlow. rewrite Hrole in Hlow.
  destruct (li_decided _ _ _ _ Hinv _ _ _ Hd) as [Hr _]. destruct (li_rounds _ _ _ _ Hinv _ _ _ Hr) as (Hl & _).
  eapply decided_not_shut; [done|exact Hd|]. by apply Hfree.
Qed.

Definition resolve_step m (adv : Slot -> Advance) : LogWorld V -> ProbeDecision V -> run (LogWorld V) :=
  fun w d => match pd_command d with
             | Some v => log_repropose cfg w m (pd_slot d) v false (mret false) adv
             | None => log_repropose cfg w m (pd_slot d) noop true (mret false) adv
             end.

Lemma resolve_step_inv w m b (pb : RepairProbe NodeId V) s adv :
  log_inv w -> ln_role (lw_nodes w m) = Leader b -> settled w m b (pb_best_have pb) s ->
  exists w', resolve_step m adv w (decision_of pb s) = Done w' /\ log_inv w' /\ round_post w w' m b s.
Proof using HC.
  intros Hinv Hrole [Hfr Hnx Hsafe Hpb Hrc]. unfold resolve_step, decision_of. cbn [pd_command pd_slot].
  assert (forall v, floor_at w m <= s -> ln_chosen (lw_nodes w m) !! s = None -> safe w b s v -> round_free w m b s v) as Hfree.
  { intros v Hf Hc Hs. constructor; try done. intros rc ?. left. by apply Hrc. }
  destruct (pb_best_have pb !! s) as [[rb v]|]; cbn.
  - eapply log_repropose_inv; [done..|]. intros Hf Hc _. split; [by apply Hfree|done].
  - eapply log_repropose_inv; [done..|]. intros Hf Hc _. split; [by apply Hfree, free_safe|].
    intros _. by eapply hole_not_free.
Qed.

Lemma resolve_fold_inv m b (pb : RepairProbe NodeId V) (l : list Slot) w adv :
  NoDup l -> log_inv w -> ln_role (lw_nodes w m) = Leader b -> (forall s, s ∈ l -> settled w m b (pb_best_have pb) s) ->
  exists w', foldM (resolve_step m adv) w (decision_of pb <$> l) = Done w' /\ log_inv w'.
Proof using HC.
  revert w. induction l as [|s l IH]; intros w Hnd Hinv Hrole Hs; [by exists w|].
  apply NoDup_cons in Hnd as [Hni Hnd]. cbn [fmap list_fmap foldM].
  destruct (resolve_step_inv w m b pb s adv) as (w1 & -> & Hinv1 & Hpost); [done..|apply Hs; by left|]. rsimpl.
  apply IH; [done|done|by rewrite (rp_role _ _ _ _ _ Hpost)|].
  intros s' Hs'. eapply settled_grows; [|exact Hpost|apply Hs; by right]. by intros ->.
Qed.

Lemma log_resolve_inv w m b adv :
  log_inv w -> ln_role (lw_nodes w m) = Leader b -> exists w', log_resolve noop cfg w m adv = Done w' /\ log_inv w'.
Proof using HC.
  intros Hinv Hrole. pose proof (li_nodes _ _ _ _ Hinv m) as Hn. unfold log_resolve. rewrite Hrole, rassert_true by done. rsimpl.
  destruct (leader_role _ _ _ w m _ b Hn Hrole) as (? & Hled & ? & Hlead).
  pose proof (lo_probe _ _ _ _ _ _ Hlead) as Hpo.
  destruct (p_probe (ln_proposer (lw_nodes w m))) as [pb|] eqn:Epb.
  2: { unfold resolve_probe. rewrite Epb. rsimpl. rewrite rassert_true by by apply Forall_nil. rsimpl.
       eexists. split; [done|]. rewrite with_proposer_id. by apply at_node_inv. }
  cbn in Hpo. pose proof (bo_wf _ _ _ _ Hpo) as Hwf. rewrite (resolve_probe_ok _ pb) by done. rsimpl.
  set (dl := filter (decidable_in pb) (bs_elements (pb_blocked pb))).
  set (probe' := if decide (pb_blocked (foldl probe_drop pb dl) = ∅) then None else Some (foldl probe_drop pb dl)).
  set (n1 := on_proposer (lw_nodes w m) (with_probe (ln_proposer (lw_nodes w m)) probe')).
  destruct (probe_drops pb dl) as (_ & _ & Hbl & _).
  assert (forall pb', probe' = Some pb' -> pb' = foldl probe_drop pb dl /\ pb_blocked pb' <> ∅) as Hprobe'.
  { unfold probe'. intros pb'. case_decide; [done|]. by intros [= <-]. }
  assert (node_ok w m n1) as Hn1.
  { apply proposer_node_ok; [done|done|]. unfold LogInv.role_ok. cbn [ln_role on_proposer]. rewrite Hrole.
    split_and!; [done..|]. destruct Hlead.
    constructor; cbn [ln_proposer on_proposer with_probe p_election p_probe p_recovery p_rounds p_next_slot ln_acceptor ln_first];
      try done.
    - destruct probe' as [pb'|] eqn:E; [|done]. destruct (Hprobe' pb' eq_refl) as [-> Hne]. by apply probe_drops_ok.
    - intros pb' s E Hs. destruct (Hprobe' pb' E) as [-> _]. apply Hbl in Hs as [Hs _]. by eapply lo_blocked.
    - destruct (p_recovery (ln_proposer (lw_nodes w m))); [|done]. destruct lo_recovery. by constructor. }
  rewrite rassert_true.
  2: { apply Forall_forall. intros d Hd. apply list_elem_of_fmap in Hd as (s & -> & Hs). cbn.
       destruct probe' as [pb'|] eqn:E; [|done]. destruct (Hprobe' pb' eq_refl) as [-> _]. cbn. rewrite Hbl. tauto. }
  rsimpl. apply (resolve_fold_inv m b pb dl); [apply NoDup_filter, NoDup_bs_elements|by apply at_node_inv|by rewrite at_node_same|].
  intros s Hs. pose proof Hs as Hdl. apply list_elem_of_filter in Hs as [Hdec Hs%elem_of_bs_elements].
  destruct (lo_blocked _ _ _ _ _ _ Hlead pb s Epb Hs) as [Hnx Hrc].
  assert (log_grows w (at_node w m n1)) as Hg by (apply at_node_grows; apply Hn1).
  constructor; rewrite ?at_node_same; cbn [n1 ln_proposer on_proposer with_probe p_probe p_recovery p_next_slot]; try done.
  - by apply (bo_fresh _ _ _ _ Hpo).
  - assert (match pb_best_have pb !! s with Some (_, v) => safe w b s v | None => free w b s end) as Hsafe.
    { apply (phase1_decides cfg prior led w b (pb_promises pb) (pb_faulty_reports pb) (pb_best_have pb) (fun s => s ∈ pb_blocked pb) s);
        try done; [by apply Hpo|by apply (pwf_range _ Hwf)|].
      unfold decidable_in in Hdec. by rewrite (bo_prior _ _ _ _ Hpo) in Hdec. }
    destruct (pb_best_have pb !! s) as [[rb v]|]; [by eapply safe_grows|by eapply free_grows].
  - intros pb' E. destruct (Hprobe' pb' E) as [-> _]. rewrite Hbl. tauto.
  - intros rc E. by rewrite E in Hrc.
Qed.

(** ** Fresh proposals *)

Lemma allocate_ok p :
  p_next_slot p < u64_max -> rs_by_slot (p_rounds p) !! p_next_slot p = None ->
  allocate p = Done (with_next_slot p (p_next_slot p + 1), p_next_slot p).
Proof.
  intros Hmax Hnone. unfold allocate. rassert_by exact Hmax. rassert_by exact Hnone. by rewrite u64_add_ok by lia.
Qed.

Lemma allocated_leader_ok w m n b :
  node_ok w m n -> ln_role n = Leader b -> p_next_slot (ln_proposer n) < u64_max ->
  node_ok w m (on_proposer n (with_next_slot (ln_proposer n) (p_next_slot (ln_proposer n) + 1))).
Proof.
  intros Hn Hrole Hlt. apply proposer_node_ok; [done|constructor; [done|done|cbn; lia]|]. destruct (leader_role _ _ _ w m n b Hn Hrole) as (? & ? & ? & []).
  unfold LogInv.role_ok. cbn [ln_role on_proposer]. rewrite Hrole. split_and!; [done..|].
  constructor; cbn [ln_proposer on_proposer with_next_slot p_election p_probe p_recovery p_rounds p_next_slot ln_acceptor ln_first];
    try done.
  - intros pb s Hpb Hs. destruct (lo_blocked pb s Hpb Hs). split; [lia|done].
  - destruct (p_recovery (ln_proposer n)); [|done]. destruct lo_recovery. constructor; try done.
    cbn [ln_proposer on_proposer with_next_slot p_next_slot]. lia.
  - intros s Hs. apply lo_fresh. lia.
  - lia.
  - intros Hp. specialize (lo_first Hp). lia.
Qed.

Lemma log_propose_inv w m v column adv :
  log_inv w -> log_enabled cfg led w (LPropose m v column adv) -> exists w', log_propose cfg w m v column adv = Done w' /\ log_inv w'.
Proof using HC.
  intros Hinv [Hmax Hcol]. pose proof (li_nodes _ _ _ _ Hinv m) as Hn. unfold log_propose.
  pose proof (nk_role _ _ _ _ _ _ Hn) as Hr. unfold LogInv.role_ok, idle, rounds_is_empty in Hr.
  destruct (ln_role (lw_nodes w m)) as [|b|b] eqn:Hrole.
  { rewrite rassert_true by apply Hr. rsimpl. by exists w. }
  { rewrite rassert_true by apply Hr. rsimpl. by exists w. }
  clear Hr. destruct (leader_role _ _ _ w m _ b Hn Hrole) as (_ & Hled & Hb & Hlead). pose proof (nk_acc _ _ _ _ _ _ Hn) as Hacc.
  rewrite promised_ok by apply Hacc. rsimpl. destruct (decide (b < a_promised (ln_acceptor (lw_nodes w m)))%B) as [|Hle]; [by exists w|].
  apply ord_not_lt in Hle. set (s := p_next_slot (ln_proposer (lw_nodes w m))) in *.
  destruct (lo_fresh _ _ _ _ _ _ Hlead s) as [Hnone Hfree]; [unfold s; lia|]. pose proof (lo_first _ _ _ _ _ _ Hlead Hle) as Hfirst.
  fold s in Hfirst. pose proof (nk_floor _ _ _ _ _ _ Hn) as Hfloor. rewrite allocate_ok; [|done|].
  2: { fold s. destruct (rs_by_slot (p_rounds (ln_proposer (lw_nodes w m))) !! s) eqn:E; [|done].
    destruct (lo_rounds _ _ _ _ _ _ Hlead _ _ E) as (_ & ? & _). congruence. }
  rsimpl. fold s. rewrite (rassert_true (s = s)) by done. rsimpl. rewrite first_slot_ok by apply Hacc. rsimpl.
  rewrite (rassert_true (floor_of _ <= s)) by lia. rsimpl.
  set (n1 := on_proposer (lw_nodes w m) (with_next_slot (ln_proposer (lw_nodes w m)) (s + 1))).
  assert (node_ok w m n1) as Hn1 by by apply (allocated_leader_ok w m _ b).
  assert (exists col, (match column with Some _ => mret column | None => config_column_of (cfg b) s end) = Done col /\
    column_valid (cfg b) col) as (col & -> & Hval).
  { destruct column as [c|]; [by exists (Some c)|]. exists (slot_column (cfg b) s).
    split; [by apply config_column_of_ok, lc_cfg|by apply slot_column_valid, lc_cfg]. }
  rsimpl. assert (log_grows w (at_node w m n1)) as Hg by (apply at_node_grows; apply Hn1).
  destruct (log_start_round_inv cfg prior led (at_node w m n1) m b s v col adv) as (w' & -> & Hw' & Hpost); [|done|].
  2: { rsimpl. rewrite rassert_true; [by exists w'|]. rewrite (rp_next _ _ _ _ _ Hpost), at_node_same. cbn. lia. }
  constructor; unfold floor_at; rewrite ?at_node_same;
    cbn [n1 ln_proposer on_proposer with_next_slot p_probe p_recovery p_next_slot ln_acceptor ln_role ln_chosen]; try done.
  - by apply at_node_inv.
  - lia.
  - lia.
  - eapply safe_grows; [done|]. by apply free_safe.
  - intros _. apply (fresh_not_chosen cfg prior led w m _ b); [done..|]. unfold s. lia.
  - intros pb Hpb Hs. destruct (lo_blocked _ _ _ _ _ _ Hlead pb s Hpb Hs). unfold s in *. lia.
  - intros rc Hrc. pose proof (lo_recovery _ _ _ _ _ _ Hlead) as Hro. rewrite Hrc in Hro. right. right. apply Hro.
Qed.

(** ** Counting votes *)

Lemma round_set_ok w m n b s r :
  node_ok w m n -> ln_role n = Leader b -> is_Some (rs_by_slot (p_rounds (ln_proposer n)) !! s) -> round_ok cfg w b s r ->
  node_ok w m (on_proposer n (with_rounds (ln_proposer n) (set_round (p_rounds (ln_proposer n)) s r))).
Proof.
  intros Hn Hrole Hs Hr. apply proposer_node_ok; [done| |].
  { constructor; [|done|done]. intros s'. cbn. rewrite lookup_insert. case_decide; [by subst|done]. }
  destruct (leader_role _ _ _ w m n b Hn Hrole) as (? & ? & ? & []).
  unfold LogInv.role_ok. cbn [ln_role on_proposer]. rewrite Hrole. split_and!; [done..|].
  constructor; cbn [ln_proposer on_proposer with_rounds p_election p_probe p_recovery p_rounds p_next_slot ln_acceptor ln_first];
    try done.
  - destruct (p_recovery (ln_proposer n)); [|done]. destruct lo_recovery. by constructor.
  - intros s' r'. cbn. rewrite lookup_insert. case_decide as E; [subst s'; by intros [= <-]|apply lo_rounds].
Qed.

(** Of the standing authority, the invariant reads the fence. *)
Lemma authority_node_ok w m n au :
  au_fence au = au_fence (p_authority (ln_proposer n)) -> node_ok w m n ->
  node_ok w m (on_proposer n (with_authority (ln_proposer n) au)).
Proof.
  intros Hf Hn. apply proposer_node_ok; [done|done|]. pose proof (nk_role _ _ _ _ _ _ Hn) as Hr. unfold LogInv.role_ok in *.
  cbn [ln_role on_proposer]. destruct (ln_role n); [done|done|]. destruct Hr as (? & ? & ? & []). split_and!; [done..|].
  constructor; try done. cbn [ln_proposer on_proposer with_authority p_recovery].
  destruct (p_recovery (ln_proposer n)); [|done]. destruct lo_recovery. by constructor.
Qed.

Lemma credit_authority_ok p from :
  p_election p = None -> exists au, credit_authority p from = Done (with_authority p au) /\ au_fence au = au_fence (p_authority p).
Proof.
  intros He. unfold credit_authority, authority_credit. rewrite (rassert_true (p_election p = None)) by done. rsimpl.
  rewrite (rassert_true (from ∈ _)) by (rewrite elem_of_union, elem_of_singleton; by left). rsimpl.
  rewrite rassert_true; [by eexists|]. apply subseteq_size, union_subseteq_r.
Qed.

(** A counted vote is a member's. *)
Lemma fold_accepted_node_ok w m n b' sender b s v :
  log_inv w -> node_ok w m n -> ln_role n = Leader b' -> log_voted w sender b s -> lw_rounds w !! (b, s) = Some v ->
  exists p counted, fold_accepted_in (ln_proposer n) (cfg b') sender b s (fingerprint v) = Done (p, counted) /\
    node_ok w m (on_proposer n p) /\ p_election p = None /\ (counted = true -> sender ∈ c_members (cfg b')).
Proof using HC.
  intros Hinv Hn Hrole Hv Hr. destruct (leader_role _ _ _ w m _ b' Hn Hrole) as (_ & Hled & _ & Hlead).
  pose proof (lo_election _ _ _ _ _ _ Hlead) as He.
  unfold fold_accepted_in. assert (with_rounds (ln_proposer n) (p_rounds (ln_proposer n)) = ln_proposer n) as Eid
    by by destruct (ln_proposer n).
  assert (exists p counted, Done (with_rounds (ln_proposer n) (p_rounds (ln_proposer n)), false) = Done (p, counted) /\
    node_ok w m (on_proposer n p) /\ p_election p = None /\ (counted = true -> sender ∈ c_members (cfg b'))) as Hstay.
  { eexists _, _. split; [done|]. rewrite Eid, with_proposer_id. by split_and!. }
  destruct (rs_by_slot (p_rounds (ln_proposer n)) !! s) as [r|] eqn:Er.
  2: { unfold rounds_fold_accepted_in, rounds_column. rewrite Er. exact Hstay. }
  destruct (lo_rounds _ _ _ _ _ _ Hlead _ _ Er) as (Eb & Hround & Hwf & votes & Ec & Hvotes).
  erewrite rounds_fold_accepted_in_ok; [|by apply lc_cfg|done|done|].
  2: { intros <-. rewrite Eb, Hround in Hr. by injection Hr as ->. }
  destruct (with_vote r sender) as [r'|] eqn:Ev; [|unfold with_vote in Ev; by rewrite Ec in Ev].
  case_decide as Hd; [|exact Hstay]. destruct Hd as [E2 Ha]. rsimpl. eexists _, _. split; [done|]. split_and!; [|done|].
  - apply (round_set_ok w m n b'); [done|done|by eexists|]. pose proof (with_vote_wf _ _ _ _ Hwf Ha Ev) as Hwf'.
    unfold with_vote in Ev. rewrite Ec in Ev. injection Ev as <-.
    split_and!; try done. eexists. split; [done|]. intros m' [->%elem_of_singleton|?]%elem_of_union; [congruence|by apply Hvotes].
  - intros _. by apply (addressees_of_members (cfg b') (r_column r)).
Qed.

Lemma log_on_accepted_inv w m sender b s vhash adv :
  log_inv w -> NAccepted sender b s vhash ∈ lw_net w ->
  exists w', log_on_accepted cfg w m sender b s vhash adv = Done w' /\ log_inv w'.
Proof using HC.
  intros Hinv Hm. apply (li_net _ _ _ _ Hinv) in Hm as (Hv & v & Hr & ->). pose proof (li_nodes _ _ _ _ Hinv m) as Hn.
  unfold log_on_accepted. destruct (ln_role (lw_nodes w m)) as [|b'|b'] eqn:Hrole; [by exists w|by exists w|].
  destruct (leader_role _ _ _ w m _ b' Hn Hrole) as (_ & Hled & _ & _).
  destruct (fold_accepted_node_ok w m _ b' sender b s v Hinv Hn Hrole Hv Hr) as (p & counted & -> & Hn1 & He & Hmem). rsimpl.
  destruct counted; [|eexists; split; [done|by apply at_node_inv]].
  rewrite config_contains_ok by by apply lc_cfg. rsimpl. rewrite rassert_true by by apply bool_decide_eq_true_2, Hmem. rsimpl.
  assert (exists p', (if decide (b = b') then credit_authority p sender else mret p) = Done p' /\
    node_ok w m (on_proposer (lw_nodes w m) p')) as (p' & -> & Hn2).
  { case_decide; [|by exists p]. destruct (credit_authority_ok p sender He) as (au & -> & Hau). eexists. split; [done|].
    exact (authority_node_ok w m (on_proposer (lw_nodes w m) p) au Hau Hn1). }
  rsimpl. destruct (log_try_decide_inv cfg prior led (at_node w m (on_proposer (lw_nodes w m) p')) m b' s adv)
    as (w' & -> & ? & _); [by apply at_node_inv|by rewrite at_node_same|by exists w'].
Qed.
End rounds.
