(* ===== verification/LogElect.v ===== *)
(** * Campaigns of the replicated log

    Opening a campaign on the node's own records, and winning it: the frontier, the
    healing of the chosen prefix, and the recovery a fresh leadership starts with,
    all justified by the promise quorum. *)

From stdpp Require Import functions.
From S2P Require Import Prelude BTree Types Retained Journal Contract Acceptor PromisePage QuorumSystem AcceptorConfig Rounds Tally Leadership Proposer Election LogWorld LogInv LogSteps LogLearn LogLead LogRounds.

Section elect.
Context {V : Type} `{!EqDecision V, !Fingerprint V, !FromWrite V WriteOp} (noop : V).
Context (cfg : Ballot -> AcceptorConfig NodeId) (prior : Ballot -> list (AcceptorConfig NodeId)).
Context (led : Ballot -> Prop) {HC : LogConfigs cfg prior led}.
Implicit Types (n : LogNode V) (w : LogWorld V) (m : NodeId) (b c : Ballot) (s : Slot) (v : V)
  (a : Acceptor V) (p : Proposer NodeId V) (e : Election NodeId V).

Local Abbreviation node_ok := (node_ok cfg prior led).
Local Abbreviation leader_ok := (leader_ok cfg prior led).
Local Abbreviation role_ok := (role_ok cfg prior led).
Local Abbreviation log_inv := (log_inv cfg prior led).
Local Abbreviation safe := (safe cfg led).
Local Abbreviation free := (free cfg led).

(** ** Opening a campaign *)

Lemma acceptor_records_ok a : acceptor_wf a -> acceptor_records a = Done (w_entries (a_records a)).
Proof.
  intros Hwf. unfold acceptor_records. rewrite window_entries_ok by apply Hwf. rsimpl. rewrite first_slot_ok by done. rsimpl.
  rewrite rassert_true; [done|]. apply first_key_geN. apply Hwf.
Qed.

Lemma owed_new b from (answered : gset NodeId) m : owed (mkTally b from answered ∅) m = from.
Proof. unfold owed. cbn. by rewrite lookup_empty. Qed.

(** The campaign opens on the candidate's own records: its own promise counts, and
    nothing it voted for at or past the first slot is missing. *)
Lemma opened_election_ok w m n b from :
  log_inv w -> node_ok w m n -> node b = m -> led b -> promised_at w m = b -> a_promised (ln_acceptor n) = b ->
  (forall s, lw_rounds w !! (b, s) = None) -> floor_of (ln_acceptor n) <= from ->
  election_ok cfg prior w b (opened_election (mkCampaign (Some m) b (cfg b) (prior b) from)
    (w_entries (a_records (ln_acceptor n))) (w_entries (a_faulty (ln_acceptor n)))).
Proof using HC.
  intros Hinv Hn Hb Hled Hpw Hp Hfresh Hf. pose proof (nk_acc _ _ _ _ _ _ Hn) as [].
  set (faulty := w_entries (a_faulty (ln_acceptor n))) in *.
  assert (NoDup (bt_range_from from faulty).*1) as Hnd.
  { eapply sublist_NoDup; [apply (NoDup_bt_keys faulty)|]. apply fmap_sublist, sublist_filter. }
  constructor; cbn; try done.
  - apply opened_election_wf; cbn; [by apply lc_cfg|by apply lc_prior].
  - constructor; cbn; try done.
    + intros m' [->%elem_of_singleton|Hlt]; [rewrite Hpw; apply ord_le_refl|]. rewrite owed_new in Hlt. lia.
    + intros s rb v. rewrite lookup_range_from. case_decide; [|done]. intros E. pose proof (ak_record _ _ _ E) as Hr.
      split; [done|]. apply ord_le_ne_lt; [|intros ->; by rewrite Hfresh in Hr].
      rewrite <-Hp. eapply ord_le_trans; [by eapply awf_records_le|apply ak_wf].
    + intros m' s _ Hs [->%elem_of_singleton|Hlt]; [|rewrite owed_new in Hlt; lia].
      intros b' Hlt Hv. destruct (ak_held b' s Hv) as (hb & Hh & Hd); [lia|]. exists hb. split; [|done].
      destruct Hh as [(v & E)|E].
      * left. exists hb, v. rewrite lookup_range_from, decide_True by done. split; [done|apply ord_le_refl].
      * right. exists hb. split; [|apply ord_le_refl]. apply merge_faulty_own; [done|]. by apply elem_of_bt_range_from.
  - intros s [Hs|Hs]%merge_faulty_range; [rewrite lookup_empty in Hs; by destruct Hs|].
    apply list_elem_of_fmap in Hs as ([k fb] & -> & [E _]%elem_of_bt_range_from). cbn.
    destruct (ak_faulty _ _ E) as [v Hr]. by apply (li_rounds _ _ _ _ Hinv) in Hr as (_ & ? & _).
Qed.

(** ** Winning it *)

Lemma key_le_last {A} (t : gmap Slot A) s : is_Some (t !! s) -> ord_le (Some s) (last_key_of t).
Proof.
  intros Hs. destruct (last_key_of t) as [k|] eqn:E.
  - apply last_key_of_Some in E as [_ Hmax]. exact (Hmax s Hs).
  - apply last_key_of_None in E as ->. rewrite lookup_empty in Hs. by destruct Hs.
Qed.

Lemma opt_max_all (P : Slot -> Prop) x y : is_none_or P x -> is_none_or P y -> is_none_or P (opt_max x y).
Proof. unfold opt_max, ord_max. by case_decide. Qed.

Lemma last_key_all {A} (P : Slot -> Prop) (t : gmap Slot A) :
  (forall s, is_Some (t !! s) -> P s) -> is_none_or P (last_key_of t).
Proof. intros Hp. destruct (last_key_of t) as [k|] eqn:E; [|done]. apply last_key_of_Some in E as [Hk _]. by apply Hp. Qed.

Lemma win_frontier_ok highest first :
  is_none_or (fun s => s < u64_max) highest -> first <= u64_max ->
  first <= win_frontier highest first <= u64_max /\ forall s, ord_le (Some s) highest -> s < win_frontier highest first.
Proof.
  intros Hh Hf. unfold win_frontier, u64_saturating_add. destruct highest as [k|]; cbn in Hh; split; try lia.
  - intros s Hs. change (s <= k) in Hs. lia.
  - intros s Hs. done.
Qed.

(** Everything an election heard of lies below the frontier. *)
Definition heard_of a e : option Slot := opt_max (last_key_of (w_entries (a_records a))) (highest_reported e).

Lemma heard_ok w m n b e :
  log_inv w -> node_ok w m n -> election_ok cfg prior w b e ->
  is_none_or (fun s => s < u64_max) (heard_of (ln_acceptor n) e) /\
  forall s, is_Some (w_entries (a_records (ln_acceptor n)) !! s) \/ is_Some (e_recovered e !! s) \/ is_Some (e_faulty_reports e !! s) ->
    ord_le (Some s) (heard_of (ln_acceptor n) e).
Proof.
  intros Hinv Hn Heo. split.
  - assert (forall s, is_Some (w_entries (a_records (ln_acceptor n)) !! s) \/ is_Some (e_recovered e !! s) \/ is_Some (e_faulty_reports e !! s) ->
      s < u64_max) as Hw.
    { intros s [[[rb v] E]|[[[rb v] E]|Hs]]; [| |by apply (eo_width _ _ _ _ _ Heo)].
      - apply (ak_record _ _ _ (nk_acc _ _ _ _ _ _ Hn)) in E. by apply (li_rounds _ _ _ _ Hinv) in E as (_ & ? & _).
      - apply (tk_have _ _ _ _ _ _ (eo_tally _ _ _ _ _ Heo)) in E as [E _]. by apply (li_rounds _ _ _ _ Hinv) in E as (_ & ? & _). }
    unfold heard_of, highest_reported. repeat apply opt_max_all; apply last_key_all; intros s Hs; apply Hw; tauto.
  - unfold heard_of, highest_reported, opt_max. intros s [Hs|[Hs|Hs]]; apply key_le_last in Hs.
    + eapply ord_le_trans; [done|]. apply ord_max_ge_l.
    + eapply ord_le_trans; [done|]. eapply ord_le_trans; [|apply ord_max_ge_r]. apply ord_max_ge_l.
    + eapply ord_le_trans; [done|]. eapply ord_le_trans; [|apply ord_max_ge_r]. apply ord_max_ge_r.
Qed.

Lemma authority_open_ok (au : Authority NodeId) f own :
  authority_open au f own = Done (mkAuthority f (match own with Some me => {[ me ]} | None => ∅ end) 0).
Proof.
  unfold authority_open, authority_renew.
  rewrite (rassert_true (size _ = _)) by (destruct own; cbn; [apply size_singleton|apply size_empty]). rsimpl.
  rassert_by done. cbn. by rassert_by done.
Qed.

Lemma open_authority_ok p next own :
  p_next_slot p = next -> p_election p = None ->
  exists au, open_authority p (u64_checked_sub next 1) own = Done (with_authority p au) /\
    is_none_or (fun f => f < next) (au_fence au).
Proof.
  intros Hn He. unfold open_authority, u64_checked_sub.
  exists (mkAuthority (if decide (1 <= next) then Some (next - 1) else None) (match own with Some me => {[ me ]} | None => ∅ end) 0).
  split; [|cbn; case_decide; cbn; lia].
  eapply bind_seq with (a := tt). { case_decide; [apply rassert_true; lia|done]. }
  cbv beta. rewrite authority_open_ok. rsimpl. unfold fence. cbn.
  eapply bind_seq with (a := if decide (1 <= next) then Some (next - 1) else None).
  { case_decide; [|done]. rewrite Hn, He. rewrite (rassert_true (next - 1 < next)) by lia. by rsimpl. }
  cbv beta. by rassert_by done.
Qed.

(** *** Healing the chosen prefix *)

Record healed n n' : Prop := {
  hl_floor : floor_of (ln_acceptor n) <= floor_of (ln_acceptor n');
  hl_first : ln_first n <= ln_first n';
  hl_promised : a_promised (ln_acceptor n') = a_promised (ln_acceptor n);
  hl_role : ln_role n' = ln_role n;
  hl_recovery : p_recovery (ln_proposer n') = p_recovery (ln_proposer n);
  hl_next : p_next_slot (ln_proposer n') = p_next_slot (ln_proposer n);
  hl_probe : forall pb', p_probe (ln_proposer n') = Some pb' ->
    exists pb, p_probe (ln_proposer n) = Some pb /\ forall s, s ∈ pb_blocked pb' -> s ∈ pb_blocked pb;
  hl_chosen : forall s, ln_first n <= s -> floor_of (ln_acceptor n') <= s -> ln_chosen n' !! s = ln_chosen n !! s }.

Lemma healed_refl n : healed n n.
Proof. constructor; try done. intros pb' E. by exists pb'. Qed.

Lemma healed_heal n1 n2 n3 s v b :
  healed n1 n2 -> marked n2 n3 s v b -> s < ln_first n1 -> (b ≤ a_promised (ln_acceptor n2))%B -> healed n1 n3.
Proof.
  intros [] [] Hs Hb. destruct (md_leads Hb) as (? & ? & ? & ? & ?). constructor; try congruence; [lia|lia|..].
  - intros pb3 E. destruct (md_probe Hb _ E) as (pb2 & E2 & ?). destruct (hl_probe0 _ E2) as (pb1 & ? & ?). exists pb1. split; eauto.
  - intros s' Hs' Hf. rewrite md_others; [|lia|done]. apply hl_chosen0; lia.
Qed.

Lemma heal_fold_ok w m (l : list (Slot * (Ballot * V))) adv n0 n :
  log_inv w -> node_ok w m n -> healed n0 n ->
  (forall s rb v, (s, (rb, v)) ∈ l -> s < ln_first n0 /\ (rb < a_promised (ln_acceptor n0))%B /\
     (floor_of (ln_acceptor n0) <= s -> lw_rounds w !! (rb, s) = Some v /\ decided_val w rb s v)) ->
  exists n', foldM (fun n (e : Slot * (Ballot * V)) => mark_chosen m n e.1 e.2.2 e.2.1 adv) n l = Done n' /\ node_ok w m n' /\ healed n0 n'.
Proof.
  intros Hinv. revert n. induction l as [|[s [rb v]] l IH]; intros n Hn Hh Hl; [by exists n|].
  destruct (Hl s rb v) as (Hs & Hlt & Hd); [by left|]. pose proof (hl_floor _ _ Hh) as Hfl.
  destruct (mark_chosen_ok cfg prior led w m n s v rb adv Hinv Hn) as (n1 & E & Hn1 & Hm); [intros ?; apply Hd; lia|].
  cbn [foldM fst snd]. rewrite E. rsimpl. apply IH; [done| |intros s' rb' v' Hin; apply Hl; by right].
  eapply healed_heal; [done..|]. rewrite (hl_promised _ _ Hh). by apply ord_lt_le.
Qed.

(** *** What the promise quorum decided *)

Section won.
Context (w : LogWorld V) (m : NodeId) (n : LogNode V) (b : Ballot) (e : Election NodeId V).
Context (Hinv : log_inv w) (Hn : node_ok w m n) (Hrole : ln_role n = Candidate b) (Hled : led b) (Hb : node b = m).
Context (Hp : a_promised (ln_acceptor n) = b) (He : election_ok cfg prior w b e).
Context (Hfrom : t_from_slot (e_promises e) <= ln_first n).
Context (Hq : promise_quorums (e_prior e) (t_answered (e_promises e))).
Context (blocked : gset Slot) (have : gmap Slot (Ballot * V)) (faulty : gmap Slot (gmap NodeId Ballot)).
Context (Hbl : forall s, s ∈ blocked <-> blocks e (fun s => bool_decide (is_Some (ln_chosen n !! s))) s).
Context (Hhave : forall s r, have !! s = Some r <-> s ∈ blocked /\ e_recovered e !! s = Some r).
Context (Hfau : forall s r, faulty !! s = Some r <-> s ∈ blocked /\ e_faulty_reports e !! s = Some r).
Context (Hpwf : is_none_or probe_wf (probe_after e blocked have faulty)).

Lemma won_quorum s :
  (s ∉ blocked) -> ln_chosen n !! s = None ->
  promise_quorums (prior b) (qualifies (t_answered (e_promises e)) (e_faulty_reports e !! s) (fst <$> e_recovered e !! s)).
Proof using All.
  intros Hs Hc. rewrite <-(eo_prior _ _ _ _ _ He). destruct (e_faulty_reports e !! s) as [r|] eqn:Er.
  - apply dec_stable. intros Hu. apply Hs, Hbl. split_and!; [by eexists| |].
    + apply bool_decide_eq_false_2. rewrite Hc. by intros [? ?].
    + unfold undecided. by rewrite Er.
  - replace (qualifies _ _ _) with (t_answered (e_promises e)); [done|]. unfold qualifies. apply set_eq. intros x.
    rewrite elem_of_filter. cbn. tauto.
Qed.

Lemma won_decides s :
  t_from_slot (e_promises e) <= s -> (s ∉ blocked) -> ln_chosen n !! s = None ->
  match e_recovered e !! s with Some (_, v) => safe w b s v | None => free w b s end.
Proof using All.
  intros Hs Hnb Hc. pose proof (won_quorum s Hnb Hc).
  apply (phase1_decides cfg prior led w b (e_promises e) (e_faulty_reports e) (e_recovered e) (fun _ => True) s); try done.
  apply He.
Qed.

(** A slot stays blocked over some prior configuration, whose quorum answered. *)
Lemma blocked_prior : blocked <> ∅ -> prior b <> [] /\ t_answered (e_promises e) <> ∅.
Proof using All.
  intros Hne. apply set_choose_L in Hne as [s Hs]. apply Hbl in Hs as (_ & _ & Hu). pose proof (eo_prior _ _ _ _ _ He) as Ep.
  assert (e_prior e <> []) as Hsome. { intros E. apply Hu. rewrite E. by apply Forall_nil. }
  split; [by rewrite <-Ep|]. destruct (e_prior e) as [|c cs] eqn:Ec; [done|]. apply Forall_cons in Hq as [Hq1 _].
  eapply phase1_holds_nonempty; [|done]. pose proof (ewf_prior _ (eo_wf _ _ _ _ _ He)) as Hw. rewrite Ec in Hw.
  by apply Forall_cons in Hw as [? _].
Qed.

Lemma probe_after_ok pb : probe_after e blocked have faulty = Some pb -> pb_blocked pb = blocked /\ probe_ok prior w b pb.
Proof using All.
  intros E. pose proof Hpwf as Hw. rewrite E in Hw. unfold probe_after in E. case_decide as Hne; [|done]. injection E as <-.
  split; [done|]. pose proof (eo_tally _ _ _ _ _ He) as []. constructor; cbn; try done.
  - by apply blocked_prior.
  - apply He.
  - constructor; cbn; try done.
    + intros m'. rewrite owed_new. intros [?|?]; [apply tk_promised; by left|lia].
    + intros s rb v [_ ?]%Hhave. by apply tk_have.
    + intros m' s Hs Hf. rewrite owed_new. intros [Ha|?]; [|lia]. intros b' Hlt Hv.
      destruct (tk_told m' s I Hf (or_introl Ha) b' Hlt Hv) as (hb & Hr & Hd). exists hb. split; [|done].
      assert (have !! s = e_recovered e !! s) as Eh by (apply option_eq; intros r; rewrite Hhave; tauto).
      assert (faulty !! s = e_faulty_reports e !! s) as Ef by (apply option_eq; intros r; rewrite Hfau; tauto).
      unfold reported in *. by rewrite Eh, Ef.
  - intros s _. apply He.
Qed.

(** The leader the win installs, before any heal. *)
Definition next_slot : Slot := win_frontier (heard_of (ln_acceptor n) e) (ln_first n).
Definition fresh_leader au : LogNode V :=
  mkLogNode (ln_acceptor n) (mkProposer None (probe_after e blocked have faulty) rounds_empty None next_slot au)
    (Leader b) (ln_chosen n) (ln_first n).

Lemma next_slot_ok :
  ln_first n <= next_slot <= u64_max /\
  forall s, is_Some (w_entries (a_records (ln_acceptor n)) !! s) \/ is_Some (e_recovered e !! s) \/ is_Some (e_faulty_reports e !! s) ->
    s < next_slot.
Proof using All.
  destruct (heard_ok w m n b e Hinv Hn He) as [Hw Hall].
  destruct (win_frontier_ok (heard_of (ln_acceptor n) e) (ln_first n)) as [? Hlt]; [done|apply Hn|].
  split; [done|]. intros s Hs. by apply Hlt, Hall.
Qed.

Lemma past_frontier s : next_slot <= s -> lw_rounds w !! (b, s) = None /\ free w b s.
Proof using All.
  destruct next_slot_ok as [Hnx Hlt]. intros Hs. split; [apply He|].
  assert (e_recovered e !! s = None) as Er.
  { destruct (e_recovered e !! s) eqn:E; [|done]. assert (s < next_slot) by (apply Hlt; right; left; by eexists). lia. }
  assert (ln_chosen n !! s = None) as Ec.
  { destruct (ln_chosen n !! s) eqn:E; [|done]. destruct (nk_slots _ _ _ _ _ _ Hn s) as (c & v' & Hso); [right; by eexists|].
    destruct (so_chosen _ _ _ _ _ Hso _ E) as [_ Hrec]. assert (s < next_slot) by (apply Hlt; by left). lia. }
  pose proof (won_decides s) as Hd. rewrite Er in Hd. apply Hd; [lia| |done].
  intros (Hf & _)%Hbl. assert (s < next_slot) by (apply Hlt; right; by right). lia.
Qed.

Lemma fresh_leader_ok au : is_none_or (fun f => f < next_slot) (au_fence au) -> node_ok w m (fresh_leader au).
Proof using All.
  intros Hau. destruct next_slot_ok as [Hnx Hlt]. pose proof Hn as [Hacc Hfl Hw Hret Hs Ha _ Hsh]. constructor; try done.
  - intros s Hin. destruct (Hs s Hin) as (c & v & []). exists c, v. constructor; try done. by rewrite Hrole in so_above.
  - unfold LogInv.role_ok. cbn [ln_role fresh_leader]. split_and!; try done; [cbn; rewrite Hp; apply ord_le_refl|].
    constructor; cbn; try done.
    + pose proof probe_after_ok as Hpa. destruct (probe_after e blocked have faulty) as [pb|]; [|done]. by apply Hpa.
    + intros pb s Hpb Hs'. apply probe_after_ok in Hpb as [<- _]. split; [|done]. apply Hlt. apply Hbl in Hs' as [? _]. tauto.
    + intros s Hs'. by apply past_frontier.
    + lia.
    + lia.
  - destruct Hsh. rewrite Hrole in sh_minted. constructor; try done; cbn.
    + intros s [r Hr]. by rewrite lookup_empty in Hr.
    + intros s b' _ _ [r Hr]. by rewrite lookup_empty in Hr.
    + by destruct (au_fence au).
Qed.

(** Every value the quorum recovered for a faulty slot of the chosen prefix is the
    decided one. *)
Lemma heals_decided s rb v :
  s < ln_first n -> (s ∉ blocked) -> ln_chosen n !! s = None -> e_recovered e !! s = Some (rb, v) ->
  (rb < b)%B /\ (floor_of (ln_acceptor n) <= s -> lw_rounds w !! (rb, s) = Some v /\ decided_val w rb s v).
Proof using All.
  intros Hs Hnb Hc E. destruct (tk_have _ _ _ _ _ _ (eo_tally _ _ _ _ _ He) _ _ _ E) as [Hr Hlt]. split; [done|].
  intros Hf. split; [done|]. destruct (nk_slots _ _ _ _ _ _ Hn s (or_introl Hs)) as (c & v' & Hso).
  pose proof (so_above _ _ _ _ _ Hso Hf Hc) as Habove. rewrite Hrole in Habove. cbn in Habove.
  pose proof (won_quorum s Hnb Hc).
  destruct (phase1_sees cfg prior led w b (e_promises e) (e_faulty_reports e) (e_recovered e) (fun _ => True) s) with c v'
    as (rb' & v'' & E' & Hd); try done.
  - apply He.
  - apply (ewf_recovered _ (eo_wf _ _ _ _ _ He)). by eexists.
  - apply Hso.
  - rewrite E in E'. by injection E' as <- <-.
Qed.

(** The leadership with its recovery open. *)
Definition first_recovery start : Recovery V := mkRecovery (snd <$> e_recovered e) blocked start next_slot Phase1Backed.

Lemma win_ok au n' :
  node_ok w m n' -> healed (fresh_leader au) n' ->
  ln_first n' <= next_slot /\ node_ok w m (on_proposer n' (with_recovery (ln_proposer n') (Some (first_recovery (ln_first n'))))).
Proof using All.
  intros Hn' Hh. destruct next_slot_ok as [Hnx Hlt].
  destruct Hh as [Hflo Hfst Hprom Hro Hrec Hnext Hprobe Hch]. cbn in Hflo, Hfst, Hprom, Hro, Hrec, Hnext, Hprobe, Hch.
  destruct (leader_role cfg prior led w m n' b Hn' Hro) as (? & ? & ? & Hlead).
  assert (ln_first n' <= next_slot) as Hstart.
  { rewrite <-Hnext. apply (lo_first _ _ _ _ _ _ Hlead). rewrite Hprom, Hp. apply ord_le_refl. }
  split; [done|]. apply proposer_node_ok; [done|done|]. destruct Hlead.
  unfold LogInv.role_ok. cbn [ln_role on_proposer]. rewrite Hro. split_and!; [done..|]. rewrite Hnext in *.
  constructor; cbn [ln_proposer on_proposer with_recovery p_election p_probe p_recovery p_rounds p_next_slot ln_acceptor ln_first];
    rewrite ?Hnext; try done.
  - intros pb s Hpb Hs'. destruct (lo_blocked pb s Hpb Hs') as [? _]. split; [done|]. cbn.
    destruct (Hprobe pb Hpb) as (pb0 & E0 & Hsub). destruct (probe_after_ok pb0 E0) as [<- _]. by apply Hsub.
  - constructor; cbn [first_recovery rc_policy rc_cursor rc_end rc_recovered rc_blocked ln_proposer on_proposer with_recovery p_next_slot
      ln_acceptor ln_chosen ln_first]; rewrite ?Hnext; try done.
    + intros s. rewrite lookup_fmap. intros [x E]. apply Hlt. right. left.
      destruct (e_recovered e !! s); [by eexists|done].
    + intros s Hs' Hnb Hf Hc. split; [apply He|]. rewrite Hch in Hc by lia. cbn.
      pose proof (won_decides s) as Hd. rewrite lookup_fmap.
      destruct (e_recovered e !! s) as [[rb v]|]; cbn; (apply Hd; [lia|done..]).
    + intros s Hs' _ _. lia.
Qed.
End won.

Lemma open_recovery_ok p recovered blocked cursor last :
  p_recovery p = None -> cursor <= last -> (forall s, s ∈ blocked -> s < last) ->
  open_recovery p recovered blocked cursor last Phase1Backed =
    Done (with_recovery p (Some (mkRecovery recovered blocked cursor last Phase1Backed))).
Proof.
  intros Hp Hle Hbl. unfold open_recovery. rewrite Hp. rewrite (rassert_true True) by done. rsimpl.
  unfold recovery_open. rewrite decide_False by done. rsimpl. rewrite !(rassert_true (cursor <= last)) by done. rsimpl.
  rewrite (rassert_true (is_none_or _ _)); [done|].
  destruct (bs_last blocked) as [s|] eqn:Es; [|done]. apply bs_last_Some in Es as [Hs _]. by apply Hbl.
Qed.

Lemma log_try_win_inv k w m adv :
  log_inv w -> exists w', log_try_win noop cfg k w m adv = Done w' /\ log_inv w' /\
    (w' = w \/ exists b, ln_role (lw_nodes w' m) = Leader b).
Proof using HC.
  intros Hinv. pose proof (li_nodes _ _ _ _ Hinv m) as Hn. unfold log_try_win. set (n := lw_nodes w m) in *.
  pose proof (nk_role _ _ _ _ _ _ Hn) as Hr. unfold LogInv.role_ok in Hr.
  destruct (ln_role n) as [|b|b] eqn:Hrole; [by exists w; auto| |by exists w; auto].
  destruct Hr as (Hb & Hp & Hrs & Hpb & Hrc & Hcamp).
  pose proof (ak_wf _ _ _ (nk_acc _ _ _ _ _ _ Hn)) as Hawf.
  rewrite promised_ok by done. rsimpl. rewrite (rassert_true (a_promised _ = b)) by done. rsimpl.
  destruct (p_election (ln_proposer n)) as [e|] eqn:Ee.
  2: { unfold phase1_won. rewrite Ee. rsimpl. cbn [negb]. rsimpl. rewrite rassert_true by done. rsimpl. exists w. auto. }
  destruct Hcamp as (Hled & He & Hfrom). pose proof (eo_wf _ _ _ _ _ He) as Hwf.
  rewrite (phase1_won_ok _ e) by done. rsimpl. pose proof (tk_ballot _ _ _ _ _ _ (eo_tally _ _ _ _ _ He)) as Hbal.
  case_bool_decide as Hwon; cbn [negb].
  2: { rewrite covered_ok by done. rsimpl. rewrite rassert_true; [rsimpl; exists w; auto|].
       apply bool_decide_eq_false_2. intros Hq. apply Hwon. split; [done|]. rewrite Hbal, Hp. apply ord_le_refl. }
  destruct Hwon as [Hq _].
  destruct (close_phase1_ok (ln_proposer n) e (fun s => bool_decide (is_Some (ln_chosen n !! s))))
    as (blocked & have & faulty & -> & Hbl & Hhave & Hfau & Hpwf); [done..|]. rsimpl.
  rewrite (rassert_true (po_config _ = cfg b)) by apply He. rsimpl.
  rewrite acceptor_records_ok by done. rsimpl. cbn [po_highest_reported po_ballot po_recovered po_blocked].
  rewrite Hrc. fold (heard_of (ln_acceptor n) e). fold (next_slot n e). unfold set_next_slot. rewrite rassert_true by done. rsimpl.
  rewrite config_contains_ok by by apply lc_cfg. rsimpl.
  edestruct open_authority_ok as (au & -> & Hau); [done|done|]. rsimpl.
  rewrite Hbal.
  pose proof (fresh_leader_ok w m n b e Hinv Hn Hrole Hled Hb Hp He Hfrom Hq blocked have faulty Hbl Hhave Hfau Hpwf au Hau) as Hfresh.
  destruct (heal_fold_ok w m (prefix_heals n (mkOutcome b (e_config e) (e_prior e) (t_answered (e_promises e)) (e_recovered e) blocked
    (highest_reported e))) adv (fresh_leader n b e blocked have faulty au) (fresh_leader n b e blocked have faulty au))
    as (n' & E & Hn' & Hh); [done|done|apply healed_refl| |].
  { intros s rb v [(Hs & Hnb & Hc) Hin%elem_of_bt_entries]%list_elem_of_filter. cbn [fst po_recovered] in *. split; [done|]. cbn [ln_acceptor fresh_leader]. rewrite Hp.
    by eapply heals_decided. }
  lazymatch goal with |- context [foldM ?f ?x ?l] => replace (foldM f x l) with (Done (A:=LogNode V) n') by (symmetry; exact E) end.
  rsimpl. destruct (win_ok w m n b e Hinv Hn Hrole Hled Hb Hp He Hfrom Hq blocked have faulty Hbl Hhave Hfau Hpwf au n' Hn' Hh)
    as [Hstart Hlead].
  destruct (next_slot_ok w m n b e Hinv Hn Hrole Hled Hb Hp He Hfrom Hq blocked have faulty Hbl Hhave Hfau Hpwf) as [_ Hlt].
  pose proof (hl_next _ _ Hh) as Enx. cbn in Enx. rewrite Enx.
  rewrite open_recovery_ok; [|by rewrite (hl_recovery _ _ Hh)|done|].
  2: { intros s Hs. apply Hbl in Hs as [? _]. apply Hlt. tauto. }
  rsimpl. set (w1 := at_node w m _). destruct (log_pump_inv noop cfg prior led k w1 m adv) as (w2 & -> & Hinv2 & Hro2 & Hp2).
  { by apply at_node_inv. }
  rsimpl. unfold promised_at, w1 in Hro2, Hp2. rewrite at_node_same in Hro2, Hp2. cbn [ln_role on_proposer ln_acceptor] in Hro2, Hp2.
  rewrite (hl_role _ _ Hh) in Hro2. rewrite (hl_promised _ _ Hh) in Hp2. cbn in Hro2, Hp2. rewrite Hp in Hp2.
  pose proof (li_nodes _ _ _ _ Hinv2 m) as Hn2. destruct (leader_role cfg prior led w2 m _ b Hn2 Hro2) as (_ & _ & _ & Hl2).
  assert (a_promised (ln_acceptor (lw_nodes w2 m)) ≤ b)%B as Hle2 by (rewrite Hp2; apply ord_le_refl).
  rewrite promised_ok by apply (nk_acc _ _ _ _ _ _ Hn2). rsimpl.
  rewrite (rassert_true (a_promised (ln_acceptor (lw_nodes w2 m)) ≤ b)%B) by done. rsimpl.
  rewrite (rassert_true (p_election _ = None)) by apply Hl2. rsimpl.
  rewrite rassert_true by by apply (lo_first _ _ _ _ _ _ Hl2). rsimpl. exists w2. split_and!; [done|done|]. right. by exists b.
Qed.

(** ** Campaigning *)

Lemma round_above b r m : round b < r -> (b < mkBallot r m)%B.
Proof. intros Hlt Hle. destruct b as [r' m']. cbn in *. unfold ord_le, Ballot_ord, ballot_le in Hle. cbn in Hle. lia. Qed.

Lemma clear_leadership_ok p :
  clear_leadership p = Done (mkProposer None None rounds_empty None (p_next_slot p) authority_default).
Proof. unfold clear_leadership. rewrite abandon_ok. rsimpl. by rewrite !rassert_true. Qed.

Lemma log_campaign_inv w m at_least : log_inv w -> exists w', log_campaign w m at_least = Done w' /\ log_inv w'.
Proof.
  intros Hinv. pose proof (li_nodes _ _ _ _ Hinv m) as Hn. unfold log_campaign. set (n := lw_nodes w m) in *.
  destruct (node_follow_ok cfg prior led w m n Hn) as [Efo Hfo].
  unfold next_campaign_round. rewrite promised_ok by apply (nk_acc _ _ _ _ _ _ Hn). rsimpl.
  unfold u64_checked_add. destruct (decide (N.max (round (a_promised (ln_acceptor n))) at_least + 1 <= u64_max)) as [|Hover].
  2: { rsimpl. rewrite Efo. rsimpl. eexists. split; [done|]. by apply at_node_inv. }
  set (r := N.max (round (a_promised (ln_acceptor n))) at_least + 1).
  rewrite (rassert_true (round _ < r)) by (unfold r; lia). rsimpl. rewrite (rassert_true (at_least < r)) by (unfold r; lia). rsimpl.
  set (b := mkBallot r m). assert (promised_at w m < b)%B as Hlt by (apply round_above; unfold promised_at; fold n; unfold r; lia).
  assert (forall s, lw_rounds w !! (b, s) = None) as Hfresh.
  { intros s. destruct (lw_rounds w !! (b, s)) eqn:E; [|done]. apply (li_rounds _ _ _ _ Hinv) in E as (_ & _ & Hle & _).
    by apply Hlt in Hle. }
  assert (a_promised (ln_acceptor n) ≤ b)%B as Hle by by apply ord_lt_le.
  assert (node_ok w m (with_acceptor (followed n) (with_promise (ln_acceptor n) b))) as Hn1
    by by apply (promise_node_ok cfg prior led w m (followed n)).
  rewrite clear_leadership_ok. rsimpl. rewrite set_promise_ok by done. rsimpl.
  rewrite promised_ok by apply (nk_acc _ _ _ _ _ _ Hn1). rsimpl. rewrite rassert_true by done. rsimpl.
  eexists. split; [done|]. apply at_node_inv; [done|]. pose proof Hn1 as [Hacc Hfl Hw Hret _ Ha _ Hsh]. constructor; try done.
  - intros s Hin. destruct (nk_slots _ _ _ _ _ _ Hn s Hin) as (x & v & []). exists x, v. constructor; try done.
    + intros Hfs. cbn. eapply ord_le_trans; [by apply so_promised|done].
    + intros Hfs _. cbn. eapply ord_le_lt_trans; [by apply so_promised|done].
  - destruct Hsh. constructor; try done. apply round_above. unfold r. cbn. lia.
Qed.

Lemma send_prepare_inv w m targets b from :
  log_inv w -> (b ≤ promised_at w m)%B -> (m ∉ targets) ->
  exists w', send_prepare w m targets b from = Done w' /\ log_inv w' /\ lw_nodes w' = lw_nodes w.
Proof.
  intros Hinv Hb Hm. unfold send_prepare. rewrite promised_ok by apply (nk_acc _ _ _ _ _ _ (li_nodes _ _ _ _ Hinv m)). rsimpl.
  rewrite (rassert_true (b ≤ _)%B) by done. rsimpl. rewrite rassert_true by (apply Forall_forall; by intros x Hx ->). rsimpl.
  eexists. split; [done|]. split; [|done]. apply log_send_inv; [done|]. by intros msg (x & -> & _)%list_elem_of_fmap.
Qed.

(** Where a campaign's recovery range starts: at or past the floor. *)
Lemma campaign_from_ok w m n :
  node_ok w m n -> let from := match node_hole n with Some hole => N.min hole (ln_first n) | None => ln_first n end in
  floor_of (ln_acceptor n) <= from <= ln_first n /\ is_none_or (fun hole => from <= hole) (node_hole n).
Proof.
  intros Hn. pose proof (nk_floor _ _ _ _ _ _ Hn) as Hfl. destruct (node_hole n) as [h|] eqn:E; cbn; [|by split; [lia|]].
  apply node_hole_Some in E as [? _]. lia.
Qed.

Lemma log_start_phase1_inv w m k adv :
  log_inv w -> log_enabled cfg led w (LStart m k adv) ->
  exists w', log_start_phase1 noop cfg prior w m k adv = Done w' /\ log_inv w'.
Proof using HC.
  intros Hinv Hen. pose proof (li_nodes _ _ _ _ Hinv m) as Hn. cbn in Hen. unfold log_start_phase1.
  set (n := lw_nodes w m) in *. destruct (ln_role n) as [|b|b] eqn:Hrole; [done| |done]. destruct Hen as (Hled & He).
  destruct (campaign_from_ok w m n Hn) as [[Hf Hfirst] Hhole].
  set (from := match node_hole n with Some hole => N.min hole (ln_first n) | None => ln_first n end) in *.
  pose proof (nk_role _ _ _ _ _ _ Hn) as Hr. unfold LogInv.role_ok in Hr. rewrite Hrole in Hr.
  destruct Hr as (Hb & Hp & Hrs & Hpb & Hrc & Hfresh). rewrite He in Hfresh. cbn in Hfresh.
  pose proof (ak_wf _ _ _ (nk_acc _ _ _ _ _ _ Hn)) as Hwf. rewrite promised_ok by done. rsimpl.
  rewrite (rassert_true (a_promised (ln_acceptor n) = b)) by done. rsimpl. rewrite (rassert_true (p_election (ln_proposer n) = None)) by done. rsimpl.
  rewrite (rassert_true (from <= ln_first n)) by done. rsimpl. rewrite (rassert_true (is_none_or _ (node_hole n))) by done. rsimpl.
  rewrite acceptor_records_ok, acceptor_faulty_ok by done. rsimpl.
  set (c := mkCampaign (Some m) b (cfg b) (prior b) from).
  edestruct (open_phase1_ok (ln_proposer n) c) as (l & -> & _ & Hl); [done..|cbn; by apply lc_cfg|cbn; by apply lc_prior|]. rsimpl.
  set (n1 := on_proposer n _). assert (node_ok w m n1) as Hn1.
  { apply proposer_node_ok; [done|done|]. unfold LogInv.role_ok. cbn [ln_role on_proposer]. rewrite Hrole. split_and!; try done.
    split_and!; [done| |done]. by apply (opened_election_ok w m n). }
  assert (log_inv (at_node w m n1)) as Hinv1 by by apply at_node_inv.
  destruct (send_prepare_inv (at_node w m n1) m l b from Hinv1) as (w1 & -> & Hinv2 & Hnodes).
  { rewrite at_node_promised, decide_True by done. cbn. rewrite Hp. apply ord_le_refl. }
  { intros [_ ?]%Hl. done. }
  rsimpl. destruct (log_try_win_inv k _ m adv Hinv2) as (w' & -> & Hinv' & Hor). rsimpl. exists w'. split; [|done].
  eapply bind_seq with (a := tt); [|done]. destruct Hor as [->|[b' ->]]; [|by apply rassert_true].
  rewrite Hnodes, at_node_same. unfold n1. cbn [ln_role on_proposer]. rewrite Hrole. cbn. by apply rassert_true.
Qed.

(** ** Promises *)

(** What the handler makes of a page, in either role. *)
Lemma promise_fold_ok w m sender b from page :
  log_inv w -> page_true w sender b from page ->
  exists p fold, (if is_leader (ln_role (lw_nodes w m)) then fold_probe_promise else fold_promise)
      (ln_proposer (lw_nodes w m)) sender b from (p_accepted page) (p_faulty page) (p_next_from_slot page) = Done (p, fold) /\
    node_ok w m (on_proposer (lw_nodes w m) p) /\
    match fold with Continue next => role_ballot (ln_role (lw_nodes w m)) = Some b /\ from < next | _ => True end.
Proof.
  intros Hinv Hpage. pose proof (li_nodes _ _ _ _ Hinv m) as Hn. pose proof (nk_role _ _ _ _ _ _ Hn) as Hr.
  unfold LogInv.role_ok in Hr. destruct (ln_role (lw_nodes w m)) as [|b0|b0] eqn:Er; cbn [is_leader role_ballot].
  - destruct Hr as (He & _). unfold fold_promise. rewrite He. eexists _, _. split; [done|]. split; [by rewrite with_proposer_id|done].
  - destruct Hr as (_ & _ & _ & _ & _ & Hc). destruct (p_election (ln_proposer (lw_nodes w m))) as [e|] eqn:He.
    2: { unfold fold_promise. rewrite He. eexists _, _. split; [done|]. split; [by rewrite with_proposer_id|done]. }
    destruct Hc as (_ & Heo & _).
    destruct (candidate_promise_ok cfg prior led w m _ b0 e sender page Hinv Hn Er He Heo b from Hpage) as (p & fold & E & Hn' & Hc).
    exists p, fold. split_and!; [done..|]. destruct fold; try done. destruct Hc as [-> ?]. done.
  - destruct (leader_promise_ok cfg prior led w m _ b0 sender page Hinv Hn Er b from Hpage) as (p & fold & E & Hn' & Hc).
    exists p, fold. split_and!; [done..|]. destruct fold; try done. destruct Hc as [-> ?]. done.
Qed.

(** A campaign or leadership asks at a ballot it promised. *)
Lemma role_ballot_promised w m n b : node_ok w m n -> role_ballot (ln_role n) = Some b -> (b ≤ a_promised (ln_acceptor n))%B.
Proof.
  intros Hn. pose proof (nk_role _ _ _ _ _ _ Hn) as Hr. unfold LogInv.role_ok in Hr.
  destruct (ln_role n) as [|b0|b0]; cbn; [done|..]; intros [= <-].
  - destruct Hr as (_ & -> & _). apply ord_le_refl.
  - apply Hr.
Qed.

Lemma log_on_promise_inv w m sender b from page k adv :
  log_inv w -> NPromise sender b from page ∈ lw_net w -> node b = m ->
  exists w', log_on_promise noop cfg w m sender b from page k adv = Done w' /\ log_inv w'.
Proof using HC.
  intros Hinv Hm Hb. apply (li_net _ _ _ _ Hinv) in Hm as [Hne Hpage].
  destruct (promise_fold_ok w m sender b from page Hinv Hpage) as (p & fold & E & Hn' & Hcont).
  unfold log_on_promise. rewrite E. rsimpl. pose proof (at_node_inv _ _ _ w m _ Hinv Hn') as Hinv'.
  destruct fold as [|next|].
  - by eexists.
  - destruct Hcont as [Hrb Hnext]. rewrite (rassert_true (from < next)) by done.
    replace (if is_leader (ln_role (lw_nodes w m)) then mret tt else Done tt) with (Done tt) by (by destruct (is_leader _)). rsimpl.
    unfold request_promise_page. rewrite at_node_same. cbn [ln_role on_proposer].
    rewrite (rassert_true (role_ballot _ = Some b)) by done. rsimpl. rewrite rassert_true by congruence. rsimpl.
    destruct (send_prepare_inv _ m [sender] b next Hinv') as (w1 & -> & ? & _); [| |by eexists].
    + rewrite at_node_promised, decide_True by done. by eapply role_ballot_promised; [exact Hn'|].
    + rewrite list_elem_of_singleton. congruence.
  - destruct (ln_role (lw_nodes w m)) as [|b0|b0] eqn:Er; cbn [is_leader].
    + destruct (log_try_win_inv k _ m adv Hinv') as (w' & ? & ? & _). by exists w'.
    + destruct (log_try_win_inv k _ m adv Hinv') as (w' & ? & ? & _). by exists w'.
    + apply (log_resolve_inv noop cfg prior led _ m b0); [done|]. by rewrite at_node_same.
Qed.

(** ** Asking again *)

Lemma election_config_ok e : election_wf e -> election_config e = Done (e_config e).
Proof.
  intros []. unfold election_config. destruct (config_is_well_formed_ok (e_config e)) as (ok & -> & Hok); [apply ewf_config|]. rsimpl.
  by rewrite rassert_true by by apply Hok.
Qed.

Lemma election_prior_ok e : election_wf e -> NoDup (e_prior e) -> election_prior e = Done (e_prior e).
Proof.
  intros Hwf Hnd. unfold election_prior. pose proof (ewf_prior _ Hwf) as Hp. rewrite Forall_forall in Hp.
  rewrite (allM_ok _ (fun _ => True)).
  - rsimpl. rewrite (rassert_true (_ = true)) by (apply bool_decide_eq_true_2, Forall_forall; done). rsimpl. by rewrite rassert_true.
  - intros c Hc. destruct (config_is_well_formed_ok c) as (ok & -> & Hok); [apply (cwf_len _ (Hp c Hc))|].
    f_equal. by apply Hok, Hp.
Qed.

Lemma election_promised_ok e : election_wf e -> election_promised e = Done (t_answered (e_promises e)).
Proof.
  intros [[Ha _] _ _ _ _]. unfold election_promised. rewrite rassert_true; [done|].
  apply Forall_forall. intros x Hx%elem_of_bt_keys. by apply Ha.
Qed.

Lemma paging_ok e : election_wf e -> paging e = Done (bool_decide (t_promise_next (e_promises e) <> ∅)).
Proof.
  intros [[Ha _] _ _ _ _]. unfold paging. rewrite rassert_true; [done|].
  apply Forall_forall. intros x Hx%elem_of_bt_keys. by apply Ha.
Qed.

Lemma election_from_slot_ok e : election_wf e -> election_from_slot e = Done (t_from_slot (e_promises e)).
Proof.
  intros [[_ Hn] _ _ _ _]. unfold election_from_slot. rewrite rassert_true; [done|].
  apply Forall_forall. intros next ([id x] & -> & Hin%elem_of_bt_entries)%list_elem_of_fmap. by eapply Hn.
Qed.

(** The slot a keep-alive asks from exists: everything heard of lies below the width. *)
Lemma keep_alive_from_ok w m n b e :
  log_inv w -> node_ok w m n -> election_ok cfg prior w b e ->
  exists from, keep_alive_from e = Done from /\ t_from_slot (e_promises e) <= from.
Proof.
  intros Hinv Hn He. pose proof (eo_wf _ _ _ _ _ He) as [].
  assert (forall s, is_Some (e_recovered e !! s) \/ is_Some (e_faulty_reports e !! s) -> s < u64_max /\ t_from_slot (e_promises e) <= s) as Hall.
  { intros s [Hs|Hs]; (split; [|auto]); [|by apply (eo_width _ _ _ _ _ He)]. destruct Hs as [[rb v] E].
    apply (tk_have _ _ _ _ _ _ (eo_tally _ _ _ _ _ He)) in E as [E _]. by apply (li_rounds _ _ _ _ Hinv) in E as (_ & ? & _). }
  unfold keep_alive_from. set (top := opt_max _ _).
  assert (is_none_or (fun s => s < u64_max /\ t_from_slot (e_promises e) <= s) top) as Htop.
  { apply opt_max_all; apply last_key_all; intros s Hs; apply Hall; tauto. }
  assert (forall s, is_Some (e_recovered e !! s) \/ is_Some (e_faulty_reports e !! s) -> ord_le (Some s) top) as Hle.
  { intros s [Hs|Hs]; apply key_le_last in Hs; (eapply ord_le_trans; [done|]); [apply ord_max_ge_l|apply ord_max_ge_r]. }
  set (from := match top with Some s => s + 1 | None => t_from_slot (e_promises e) end).
  assert (forall s, ord_le (Some s) top -> s < from) as Hlt.
  { unfold from. intros s Hs. destruct top as [k|]; [|done]. change (s <= k) in Hs. lia. }
  assert (t_from_slot (e_promises e) <= from) as Hfrom by (unfold from; destruct top; cbn in Htop; lia).
  exists from. split; [|done]. eapply bind_seq with (a := from).
  { unfold from. destruct top as [k|]; [|done]. unfold u64_checked_add. rewrite decide_True; [done|]. cbn in Htop. lia. }
  cbv beta. rewrite (rassert_true (_ <= from)) by done. rsimpl.
  rewrite (rassert_true (Forall _ (bt_keys (e_recovered e)))) by (apply Forall_forall; intros s Hs%elem_of_bt_keys; apply Hlt, Hle; tauto).
  rsimpl. rewrite rassert_true; [done|]. apply Forall_forall. intros s Hs%elem_of_bt_keys. apply Hlt, Hle. tauto.
Qed.

Lemma log_keep_paging_inv w m : log_inv w -> exists w', log_keep_paging w m = Done w' /\ log_inv w'.
Proof using HC.
  intros Hinv. pose proof (li_nodes _ _ _ _ Hinv m) as Hn. unfold log_keep_paging. set (n := lw_nodes w m) in *.
  pose proof (nk_role _ _ _ _ _ _ Hn) as Hr. unfold LogInv.role_ok in Hr.
  destruct (ln_role n) as [|b|b] eqn:Hrole; [by exists w| |by exists w].
  destruct Hr as (Hb & Hp & _ & Hpb & Hrc & Hc). rewrite election_reads_ok by done. rsimpl.
  destruct (p_election (ln_proposer n)) as [e|]; [|by exists w]. destruct Hc as (Hled & He & _).
  pose proof (eo_wf _ _ _ _ _ He) as Hwf. rewrite paging_ok, election_ballot_ok by done. rsimpl.
  rewrite (tk_ballot _ _ _ _ _ _ (eo_tally _ _ _ _ _ He)). rewrite promised_ok by apply (nk_acc _ _ _ _ _ _ Hn). rsimpl.
  case_decide; [by exists w|]. destruct (keep_alive_from_ok w m n b e Hinv Hn He) as (from & -> & Hfrom). rsimpl.
  rewrite election_from_slot_ok by done. rsimpl. rewrite (rassert_true (_ <= from)) by done. rsimpl.
  rewrite election_config_ok by done. rsimpl.
  rewrite election_prior_ok by (try done; rewrite (eo_prior _ _ _ _ _ He); by apply lc_once). rsimpl.
  rewrite election_promised_ok by done. rsimpl. set (answered := filter _ _).
  rewrite (rassert_true (Forall _ answered)).
  2: { apply Forall_forall. intros x Hx. by apply list_elem_of_filter in Hx as [[_ ?] _]. }
  rsimpl. destruct (decide (answered = [])); [by exists w|]. rewrite (rassert_true (b = b)) by done. rsimpl. rewrite (rassert_true (node b = m)) by done. rsimpl.
  destruct (send_prepare_inv w m answered b from Hinv) as (w' & -> & Hinv' & Hnodes).
  { unfold promised_at. fold n. rewrite Hp. apply ord_le_refl. }
  { intros Hx. by apply list_elem_of_filter in Hx as [[? _] _]. }
  rsimpl. rewrite rassert_true by (by rewrite Hnodes). rsimpl. by exists w'.
Qed.

Lemma requery_ok (pb : RepairProbe NodeId V) m :
  probe_wf pb -> exists to, requery pb m = Done (t_ballot (pb_promises pb), t_from_slot (pb_promises pb), to) /\
    forall x, x ∈ to <-> Exists (fun C => x ∈ c_members C) (pb_prior pb) /\ x <> m /\ (x ∉ t_answered (pb_promises pb)).
Proof.
  intros []. unfold requery. destruct (member_union_ok (pb_prior pb) pwf_prior) as (l & -> & _ & Hl). rsimpl. set (to := filter _ l).
  assert (forall x, x ∈ to <-> Exists (fun C => x ∈ c_members C) (pb_prior pb) /\ x <> m /\ (x ∉ t_answered (pb_promises pb))) as Hto.
  { intros x. unfold to. rewrite list_elem_of_filter, Hl. tauto. }
  exists to. split; [|done]. rewrite (rassert_true (m ∉ to)) by (rewrite Hto; tauto). rsimpl.
  rewrite rassert_true; [done|]. destruct (bs_first _) as [s|] eqn:E; [|done]. apply bs_first_Some in E as [? _]. cbn. auto.
Qed.

(** The straggler query of an open probe. *)
Lemma probe_query_inv w m n b pb :
  log_inv w -> node_ok w m n -> node b = m -> (b ≤ promised_at w m)%B -> p_election (ln_proposer n) = None ->
  p_probe (ln_proposer n) = Some pb -> probe_ok prior w b pb ->
  exists w', (pb ← rexpect (p_probe (ln_proposer n)) "checked above";
    rassert (p_election (ln_proposer n) = None) "a probe outlives its campaign, never overlaps it";;
    '(ballot, from, to) ← requery pb m;
    rassert (pb_prior pb <> []) "a repair probe covers some prior configuration";;
    rassert (t_answered (pb_promises pb) <> ∅) "a repair probe inherits a promise quorum";;
    rassert (Forall (fun C => Forall (fun x => x = m \/ x ∈ t_answered (pb_promises pb) \/ x ∈ to) (c_members C)) (pb_prior pb))
      "a repair probe re-asks every unanswered prior member";;
    rassert (Forall (fun x => x ∉ t_answered (pb_promises pb)) to)
      "a repair probe never re-asks a member that answered";;
    rassert (Forall (fun x => Exists (fun C => x ∈ c_members C) (pb_prior pb)) to)
      "a repair probe asks only members of a prior configuration";;
    rassert (ballot = b) "a repair probe queries at the leader's ballot";;
    send_prepare (at_node w m n) m to ballot from) = Done w' /\ log_inv w' /\ lw_nodes w' m = n.
Proof.
  intros Hinv Hn Hb Hle He Epb Hpo. rewrite Epb. cbn [rexpect]. rewrite bind_Done. cbv beta. rewrite (rassert_true (p_election _ = None)) by done. rsimpl.
  destruct (requery_ok pb m (bo_wf _ _ _ _ Hpo)) as (to & -> & Hto). rsimpl. destruct (bo_some _ _ _ _ Hpo) as [Hs1 Hs2].
  rewrite (rassert_true (pb_prior pb <> [])) by (by rewrite (bo_prior _ _ _ _ Hpo)). rsimpl.
  rewrite (rassert_true (t_answered _ <> ∅)) by done. rsimpl. rewrite (rassert_true (Forall (fun C => Forall _ _) _)).
  2: { apply Forall_forall. intros c Hc. apply Forall_forall. intros x Hx. destruct (decide (x = m)); [by left|right].
       destruct (decide (x ∈ t_answered (pb_promises pb))); [by left|right]. apply Hto. split_and!; [|done|done].
       apply Exists_exists. by exists c. }
  rsimpl. rewrite (rassert_true (Forall (fun x => x ∉ t_answered (pb_promises pb)) to)) by (apply Forall_forall; intros x Hx%Hto; tauto). rsimpl.
  rewrite (rassert_true (Forall _ to)) by (apply Forall_forall; intros x Hx%Hto; tauto). rsimpl.
  rewrite (tk_ballot _ _ _ _ _ _ (bo_tally _ _ _ _ Hpo)). rewrite (rassert_true (b = b)) by done. rsimpl.
  destruct (send_prepare_inv (at_node w m n) m to b (t_from_slot (pb_promises pb))) as (w' & -> & ? & Hnodes).
  - by apply at_node_inv.
  - rewrite at_node_promised, decide_True by done. eapply ord_le_trans; [done|]. apply Hn.
  - rewrite Hto. tauto.
  - exists w'. split_and!; [done..|]. by rewrite Hnodes, at_node_same.
Qed.

(** An aged probe, otherwise the same. *)
Lemma aged_node_ok w m n b pb elapsed :
  node_ok w m n -> ln_role n = Leader b -> p_probe (ln_proposer n) = Some pb ->
  let pb' := mkProbe (pb_promises pb) (pb_prior pb) (pb_faulty_reports pb) (pb_best_have pb) (pb_blocked pb) elapsed in
  node_ok w m (on_proposer n (with_probe (ln_proposer n) (Some pb'))) /\ probe_ok prior w b pb'.
Proof.
  intros Hn Hrole Epb pb'. destruct (leader_role cfg prior led w m n b Hn Hrole) as (? & ? & ? & []). rewrite Epb in lo_probe.
  assert (probe_ok prior w b pb') as Hpo. { destruct lo_probe as [[]]. by constructor. }
  split; [|done]. apply proposer_node_ok; [done|done|]. unfold LogInv.role_ok. cbn [ln_role on_proposer]. rewrite Hrole. split_and!; [done..|].
  constructor; try done.
  - intros pb1 s [= <-] Hs. by apply (lo_blocked pb).
  - cbn. destruct (p_recovery (ln_proposer n)); [|done]. destruct lo_recovery. by constructor.
Qed.

Lemma log_tick_repair_inv w m timeout : log_inv w -> exists w', log_tick_repair w m timeout = Done w' /\ log_inv w'.
Proof.
  intros Hinv. pose proof (li_nodes _ _ _ _ Hinv m) as Hn. unfold log_tick_repair. set (n := lw_nodes w m) in *.
  assert (forall w1, log_inv w1 -> (floor ← first_slot (ln_acceptor (lw_nodes w1 m));
    rassert (is_none_or (fun hole => floor <= hole) (node_hole (lw_nodes w1 m))) "a repair hole is retained";; mret w1) = Done w1) as Htail.
  { intros w1 H1. pose proof (li_nodes _ _ _ _ H1 m) as Hn1. rewrite first_slot_ok by apply (nk_acc _ _ _ _ _ _ Hn1). rsimpl.
    rewrite rassert_true; [done|]. destruct (node_hole _) as [h|] eqn:E; [|done]. by apply node_hole_Some in E as [[? _] _]. }
  destruct (ln_role n) as [|b|b] eqn:Hrole; [exists w; split; [by apply Htail|done]..|].
  destruct (leader_role cfg prior led w m n b Hn Hrole) as (Hb & Hled & Hle & Hlead). pose proof (lo_election _ _ _ _ _ _ Hlead) as He.
  unfold tick_probe. destruct (p_probe (ln_proposer n)) as [pb|] eqn:Epb; [|exists w; split; [by apply Htail|done]].
  set (elapsed := u64_saturating_add (pb_elapsed pb) 1).
  rewrite (rassert_true (0 < elapsed)) by (unfold elapsed, u64_saturating_add; assert (0 < u64_max) by done; lia). rsimpl.
  destruct (aged_node_ok w m n b pb elapsed Hn Hrole Epb) as [Hn1 Hpo1]. set (n1 := on_proposer n _) in *.
  case_decide.
  - destruct (node_follow_ok cfg prior led w m n1 Hn1) as [-> Hf]. rsimpl. rewrite rassert_true by done. rsimpl.
    assert (log_inv (at_node w m (followed n1))) as Hinv1 by by apply at_node_inv.
    eexists. split; [by apply Htail|done].
  - edestruct (probe_query_inv w m n1 b) as (w' & E & Hinv' & _); [done|done|done|done|done|done|done|]. cbn [n1 ln_proposer on_proposer] in E.
    rewrite E. rsimpl. exists w'. split; [by apply Htail|done].
Qed.
End elect.
