(* ===== verification/LogMarks.v ===== *)
(** * The durable watermarks only rise

    What an entry point of the node that returned left of its promise, its chosen
    prefix and its floor ([assert_marks_monotone] of [node/invariants.rs]): none of
    them fell, at any node.  The lemmas are of the handlers alone, whatever state they
    ran in. *)

From stdpp Require Import functions.
From S2P Require Import Prelude BTree Types Retained Journal Contract Acceptor PromisePage QuorumSystem AcceptorConfig Rounds Tally Leadership Proposer Election LogWorld.

(** What holds of a computation that returns. *)
Definition yields {A} (r : run A) (P : A -> Prop) : Prop := forall a, r = Done a -> P a.

Lemma yields_ret {A} (a : A) (P : A -> Prop) : P a -> yields (mret a) P.
Proof. intros Hp x [= <-]. done. Qed.
Lemma yields_bind {A B} (r : run A) (f : A -> run B) (Q : A -> Prop) P :
  yields r Q -> (forall a, Q a -> yields (f a) P) -> yields (r ≫= f) P.
Proof. intros Hr Hf b (a & Ea & Eb)%bind_Done_inv. by apply (Hf a); [apply Hr|]. Qed.
Lemma yields_any {A B} (r : run A) (f : A -> run B) P : (forall a, yields (f a) P) -> yields (r ≫= f) P.
Proof. intros Hf. by apply (yields_bind _ _ (fun _ => True)). Qed.
Lemma yields_weaken {A} (r : run A) (P Q : A -> Prop) : yields r P -> (forall a, P a -> Q a) -> yields r Q.
Proof. intros Hr Hpq a Ha. by apply Hpq, Hr. Qed.
Lemma yields_assert {B} P `{Decision P} msg (f : unit -> run B) Q : (P -> yields (f tt) Q) -> yields (rassert P msg ≫= f) Q.
Proof. intros Hf b (u & Hp%rassert_inv & Eb)%bind_Done_inv. destruct u. by apply Hf. Qed.
Lemma yields_panic {A} msg (P : A -> Prop) : yields (Panic msg) P.
Proof. done. Qed.
Lemma yields_fold {A B} (R : relation B) (f : B -> A -> run B) b l :
  PreOrder R -> (forall b a, yields (f b a) (R b)) -> yields (foldM f b l) (R b).
Proof.
  intros HR Hf. revert b. induction l as [|a l IH]; intros b; [by apply yields_ret|]. cbn.
  eapply yields_bind; [apply Hf|]. intros b' Hb. eapply yields_weaken; [apply IH|]. intros b'' ?. by etrans.
Qed.

(** Runs a body: takes its assertions as facts, skips the calls whose result no mark
    depends on, and splits its branches. *)
Ltac ystep :=
  lazymatch goal with
  | |- yields (rassert _ _ ≫= _) _ => apply yields_assert; intros ?
  | |- yields (mret _) _ => apply yields_ret
  | |- yields (Done _) _ => apply yields_ret
  | |- yields (Panic _) _ => apply yields_panic
  | |- yields ((match ?x with _ => _ end) ≫= _) _ => fail
  | |- yields (match (match ?x with _ => _ end) with _ => _ end) _ => destruct x
  | |- yields (match ?x with _ => _ end) _ => destruct x
  end.
Ltac ysteps := cbv zeta; repeat (ystep; cbv beta zeta).
Ltac yskip := lazymatch goal with |- yields (_ ≫= _) _ => apply yields_any; intros ?; ysteps end.
Ltac yskips := repeat yskip.
(** One call through its lemma. *)
Tactic Notation "ycall" uconstr(lem) := eapply yields_bind; [eapply lem|intros ? ?; ysteps].

Section marks.
Context {V : Type} `{!EqDecision V, !Fingerprint V, !FromWrite V WriteOp} (noop : V).
Context (cfg : Ballot -> AcceptorConfig NodeId) (prior : Ballot -> list (AcceptorConfig NodeId)).
Implicit Types (n : LogNode V) (w : LogWorld V) (m : NodeId) (b : Ballot) (s : Slot) (v : V)
  (a : Acceptor V) (p : Proposer NodeId V).

(** ** The acceptor *)

Definition acc_rises a a' : Prop := (a_promised a ≤ a_promised a')%B /\ floor_of a <= floor_of a'.

#[local] Instance acc_rises_preorder : PreOrder acc_rises.
Proof.
  split; [intros a; split; [apply ord_le_refl|lia]|]. intros a1 a2 a3 [H1 H2] [H3 H4]. split; [by eapply ord_le_trans|lia].
Qed.

Lemma set_promise_rises {W} `{!FromWrite V W} a b (ws : list W) : yields (set_promise a b ws) (fun r => acc_rises a r.1).
Proof.
  unfold set_promise. ysteps; (split; [|done]); cbn; [done|apply ord_le_refl].
Qed.

Lemma window_insert_floor {K A} `{Ord K, !Countable K} (x : RetainedWindow K A) k (e : A) :
  yields (window_insert x k e) (fun r => w_floor r.1 = w_floor x).
Proof. unfold window_insert. yskip. done. Qed.

Lemma record_accepted_rises {W} `{!FromWrite V W} a s b v (ws : list W) :
  yields (record_accepted a s b v ws) (fun r => acc_rises a r.1.1).
Proof.
  unfold record_accepted. cbn [window_remove]. do 5 yskip. ycall window_insert_floor. yskips.
  split; [apply ord_le_refl|]. cbn in *. unfold floor_of. cbn. lia.
Qed.

Lemma prepare_rises {W} `{!FromWrite V W} a b from (ws : list W) : yields (prepare a b from ws) (fun r => acc_rises a r.1.1).
Proof.
  unfold prepare. yskip; try reflexivity. eapply yields_bind with (Q := fun r => acc_rises a r.1).
  - case_bool_decide; [apply set_promise_rises|by apply yields_ret].
  - intros [a' ws'] Ha. ysteps. by yskips.
Qed.

Lemma drop_prefix_rises a first : yields (drop_prefix a first) (acc_rises a).
Proof.
  unfold drop_prefix. do 2 yskip. eapply yields_bind with (Q := fun x => ord_le (w_floor (a_records a)) (w_floor x)).
  - unfold window_raise_floor. ysteps. by yskip.
  - intros x Hx. yskips. split; [apply ord_le_refl|exact Hx].
Qed.

Lemma truncate_rises a first sealed ws : yields (truncate a first sealed ws) (fun r => acc_rises a r.1).
Proof. unfold truncate. yskip. ycall drop_prefix_rises. by yskips. Qed.
Lemma trim_to_rises a point state ws : yields (trim_to a point state ws) (fun r => acc_rises a r.1).
Proof. unfold trim_to. yskip. ycall drop_prefix_rises. by yskips. Qed.

Lemma rewrite_rises {W} `{!FromWrite V W} a s (ws : list W) : yields (acceptor_rewrite a s ws) (fun r => acc_rises a r.1.1).
Proof. unfold acceptor_rewrite. yskip; [|reflexivity]. yskips. split; [apply ord_le_refl|done]. Qed.

(** ** A node *)

Definition node_rises n n' : Prop := acc_rises (ln_acceptor n) (ln_acceptor n') /\ ln_first n <= ln_first n'.

#[local] Instance node_rises_preorder : PreOrder node_rises.
Proof. split; [intros n; split; [reflexivity|lia]|]. intros n1 n2 n3 [H1 H2] [H3 H4]. split; [by etrans|lia]. Qed.

Lemma node_follow_rises n : yields (node_follow n) (node_rises n).
Proof. unfold node_follow. yskips. done. Qed.

Lemma node_contact_rises n m b : yields (node_contact n m b) (node_rises n).
Proof. unfold node_contact. case_decide; [apply node_follow_rises|by apply yields_ret]. Qed.

Lemma with_acceptor_rises n a : acc_rises (ln_acceptor n) a -> node_rises n (with_acceptor n a).
Proof. by split. Qed.

Lemma node_raise_rises n b : yields (node_raise n b) (node_rises n).
Proof.
  unfold node_raise. yskip; [|reflexivity]. ycall set_promise_rises.
  - eapply yields_weaken; [apply node_follow_rises|]. intros n' ?. etrans; [|done]. by apply with_acceptor_rises.
  - by apply with_acceptor_rises.
Qed.

Lemma node_record_rises a s b v ws : yields (node_record a s b v ws) (fun r => acc_rises a r.1).
Proof. unfold node_record. ycall record_accepted_rises. by yskips. Qed.

Lemma node_compact_rises m n first sealed : yields (node_compact m n first sealed) (node_rises n).
Proof.
  unfold node_compact. yskip; [reflexivity|]. ycall truncate_rises. yskips. by split.
Qed.

Lemma node_advance_rises m n adv : yields (node_advance m n adv) (node_rises n).
Proof.
  unfold node_advance. ysteps. eapply yields_bind with (Q := node_rises (node_walk n (ad_walked adv))).
  - destruct (ad_cut adv) as [[first sealed]|]; [apply node_compact_rises|by apply yields_ret].
  - intros n' [Ha _]. ysteps. yskip. by split.
Qed.

Lemma node_learn_rises n s v b ws : yields (node_learn n s v b ws) (fun r => node_rises n r.1).
Proof.
  unfold node_learn. ysteps; [reflexivity|]. yskip. eapply yields_bind; [apply node_raise_rises|]. intros n1 Hn1. do 2 yskip.
  eapply yields_bind with (Q := fun r => acc_rises (ln_acceptor n1) r.1).
  - case_decide; [by apply yields_ret|apply node_record_rises].
  - intros [a' ws'] Ha. ysteps. yskips. etrans; [done|]. by split.
Qed.

Lemma mark_chosen_in_rises m n s v b adv ws : yields (mark_chosen_in m n s v b adv ws) (fun r => node_rises n r.1).
Proof.
  unfold mark_chosen_in. yskip; [reflexivity|]. ycall node_learn_rises. ycall node_advance_rises. cbn in *. by etrans.
Qed.

Lemma mark_chosen_rises m n s v b adv : yields (mark_chosen m n s v b adv) (node_rises n).
Proof. unfold mark_chosen. by ycall mark_chosen_in_rises. Qed.

Lemma record_own_round_rises n s b v : yields (record_own_round n s b v) (fun r => node_rises n r.1).
Proof.
  unfold record_own_round. yskip; [reflexivity|]. ycall set_promise_rises. ycall node_record_rises. yskips.
  apply with_acceptor_rises. cbn in *. by etrans.
Qed.

(** ** The world *)

Definition rises w w' : Prop := forall m, node_rises (lw_nodes w m) (lw_nodes w' m).

#[local] Instance rises_preorder : PreOrder rises.
Proof. split; [by intros w m|]. intros w1 w2 w3 H1 H2 m. etrans; [apply H1|apply H2]. Qed.

Lemma rises_to w w' m n : lw_nodes w' = <[m := n]> (lw_nodes w) -> node_rises (lw_nodes w m) n -> rises w w'.
Proof.
  intros E Hn m'. rewrite E. destruct (decide (m = m')) as [<-|Hne]; [by rewrite fn_lookup_insert|by rewrite fn_lookup_insert_ne].
Qed.

Lemma rises_same w w' : lw_nodes w' = lw_nodes w -> rises w w'.
Proof. intros E m. by rewrite E. Qed.

Lemma rises_on w m p : rises w (at_node w m (on_proposer (lw_nodes w m) p)).
Proof. by eapply rises_to. Qed.

Lemma log_try_decide_rises w m s adv : yields (log_try_decide cfg w m s adv) (rises w).
Proof.
  unfold log_try_decide. ysteps; try reflexivity. yskip; try reflexivity. ysteps. ycall mark_chosen_rises. yskips.
  by eapply rises_to.
Qed.

Lemma log_start_round_rises w m s v column adv : yields (log_start_round cfg w m s v column adv) (rises w).
Proof.
  unfold log_start_round. ysteps. do 3 yskip. eapply yields_bind; [apply record_own_round_rises|]. intros [n recorded] Hn. ysteps.
  do 2 yskip. eapply yields_bind; [apply log_try_decide_rises|]. intros w' Hw. yskips. etrans; [|exact Hw].
  etrans; [apply (rises_to w (vote_if recorded (at_node (announce w b s v) m n) m b s) m n); done|]. eapply rises_to; [done|]. cbn [vote_if at_node announce lw_nodes]. by rewrite fn_lookup_insert.
Qed.

Lemma log_start_accept_round_rises w m s v adv : yields (log_start_accept_round cfg w m s v adv) (rises w).
Proof. unfold log_start_accept_round. ysteps. yskip. apply log_start_round_rises. Qed.

Lemma log_repropose_rises w m s v fill blocked adv : yields (log_repropose cfg w m s v fill blocked adv) (rises w).
Proof. unfold log_repropose. yskip; [reflexivity|]. yskip; [reflexivity|]. yskip. apply log_start_accept_round_rises. Qed.

Lemma log_pump_slots_rises k w m adv : yields (log_pump_slots noop cfg k w m adv) (rises w).
Proof.
  revert w. induction k as [|k IH]; intros w; cbn [log_pump_slots]; [by apply yields_ret|].
  yskip; [|apply rises_on]. set (w1 := at_node _ _ _). eapply yields_bind with (Q := rises w1).
  - ysteps; try reflexivity; apply log_repropose_rises.
  - intros w2 H2. eapply yields_weaken; [apply IH|]. intros w3 H3. etrans; [apply rises_on|]. by etrans.
Qed.

Lemma log_pump_rises k w m adv : yields (log_pump noop cfg k w m adv) (rises w).
Proof.
  unfold log_pump. ysteps; try reflexivity. ycall log_pump_slots_rises. yskip; [|done]. yskip. etrans; [done|]. apply rises_on.
Qed.

Lemma log_resolve_rises w m adv : yields (log_resolve noop cfg w m adv) (rises w).
Proof.
  unfold log_resolve. ysteps. yskip. eapply yields_weaken.
  - apply (yields_fold rises); [apply _|]. intros w' d. ysteps; apply log_repropose_rises.
  - intros w' Hw. etrans; [apply rises_on|exact Hw].
Qed.

Lemma log_propose_rises w m v column adv : yields (log_propose cfg w m v column adv) (rises w).
Proof.
  unfold log_propose. ysteps; try reflexivity. yskip; [reflexivity|]. do 3 yskip.
  eapply yields_bind; [apply log_start_round_rises|]. intros w' Hw. ysteps. etrans; [apply rises_on|done].
Qed.

Lemma push_nack_rises w m b s : yields (push_nack w m b s) (rises w).
Proof. unfold push_nack. yskips. by apply rises_same. Qed.

Lemma log_on_accept_rises w m b s v operating adv : yields (log_on_accept w m b s v operating adv) (rises w).
Proof.
  unfold log_on_accept. yskip; try reflexivity; [yskip; apply push_nack_rises|].
  eapply yields_bind; [apply node_contact_rises|]. intros n1 Hn1. yskip.
  eapply yields_bind; [apply set_promise_rises|]. intros [a' ws] Ha. ysteps.
  eapply yields_bind with (Q := fun r => node_rises (with_acceptor n1 a') r.1).
  - case_decide; [apply mark_chosen_in_rises|]. ycall node_record_rises. by apply with_acceptor_rises.
  - intros [n2 ws2] Hn2. ysteps. yskips. eapply rises_to; [done|]. etrans; [exact Hn1|]. etrans; [|exact Hn2]. by apply with_acceptor_rises.
Qed.

Lemma log_on_accepted_rises w m sender b s vhash adv : yields (log_on_accepted cfg w m sender b s vhash adv) (rises w).
Proof.
  unfold log_on_accepted. ysteps; try reflexivity. yskip; [|apply rises_on]. do 2 yskip.
  eapply yields_weaken; [apply log_try_decide_rises|]. intros w' Hw. etrans; [apply rises_on|exact Hw].
Qed.

Lemma log_on_nack_rises w m b s : yields (log_on_nack w m b s) (rises w).
Proof.
  unfold log_on_nack. yskip. eapply yields_bind with (Q := node_rises (lw_nodes w m)).
  - ysteps; [|reflexivity]. eapply yields_bind; [apply node_follow_rises|]. intros n' Hn. by ysteps.
  - intros n' Hn. yskips. by eapply rises_to.
Qed.

Lemma log_try_win_rises k w m adv : yields (log_try_win noop cfg k w m adv) (rises w).
Proof.
  unfold log_try_win. ysteps; try reflexivity. yskip. yskip.
  { yskips. reflexivity. }
  do 5 yskip. eapply yields_bind; [apply (yields_fold node_rises); [apply _|]; intros n' e; apply mark_chosen_rises|].
  intros n' Hn. yskip. eapply yields_bind; [apply log_pump_rises|]. intros w' Hw. yskips. etrans; [|exact Hw].
  eapply rises_to; [done|]. exact Hn.
Qed.

Lemma log_campaign_rises w m at_least : yields (log_campaign w m at_least) (rises w).
Proof.
  unfold log_campaign. yskip.
  - yskip. eapply yields_bind; [apply set_promise_rises|]. intros [a' ws] Ha. ysteps. yskips. by eapply rises_to.
  - eapply yields_bind; [apply node_follow_rises|]. intros n Hn. ysteps. by eapply rises_to.
Qed.

Lemma send_prepare_rises w m targets b from : yields (send_prepare w m targets b from) (rises w).
Proof. unfold send_prepare. yskips. by apply rises_same. Qed.

Lemma log_start_phase1_rises w m k adv : yields (log_start_phase1 noop cfg prior w m k adv) (rises w).
Proof.
  unfold log_start_phase1. ysteps. do 4 yskip. eapply yields_bind; [apply send_prepare_rises|]. intros w1 Hw1.
  eapply yields_bind; [apply log_try_win_rises|]. intros w2 Hw2. yskips. etrans; [apply rises_on|]. by etrans.
Qed.

Lemma log_on_prepare_rises w m b from limit operating : yields (log_on_prepare w m b from limit operating) (rises w).
Proof.
  unfold log_on_prepare. eapply yields_bind; [apply prepare_rises|]. intros [[a' ws] o] Ha. ysteps.
  - apply push_nack_rises.
  - yskip. apply push_nack_rises.
  - eapply yields_bind; [apply node_contact_rises|]. intros n' Hn. yskips. eapply rises_to; [done|]. etrans; [|exact Hn].
    by apply with_acceptor_rises.
Qed.

Lemma log_on_promise_rises w m sender b from page k adv :
  yields (log_on_promise noop cfg w m sender b from page k adv) (rises w).
Proof.
  unfold log_on_promise. yskip; try apply rises_on.
  - yskip. unfold request_promise_page. ysteps. eapply yields_weaken; [apply send_prepare_rises|].
    intros w' Hw. etrans; [apply rises_on|exact Hw].
  - eapply yields_weaken; [apply log_resolve_rises|]. intros w' Hw. etrans; [apply rises_on|exact Hw].
  - eapply yields_weaken; [apply log_try_win_rises|]. intros w' Hw. etrans; [apply rises_on|exact Hw].
Qed.

Lemma log_keep_paging_rises w m : yields (log_keep_paging w m) (rises w).
Proof.
  unfold log_keep_paging. ysteps; try reflexivity. yskip; try reflexivity. do 3 yskip; [reflexivity|].
  do 5 yskip; [reflexivity|]. eapply yields_bind; [apply send_prepare_rises|]. intros w' Hw. by ysteps.
Qed.

Lemma log_tick_repair_rises w m timeout : yields (log_tick_repair w m timeout) (rises w).
Proof.
  unfold log_tick_repair. eapply yields_bind with (Q := rises w); [|intros w' Hw; by yskips].
  ysteps; try reflexivity. yskip; try reflexivity.
  - eapply yields_bind; [apply node_follow_rises|]. intros n' Hn. ysteps. by eapply rises_to.
  - do 2 yskip. eapply yields_weaken; [apply send_prepare_rises|]. intros w' Hw. etrans; [apply rises_on|exact Hw].
Qed.

Lemma log_on_commit_rises w m b s v adv : yields (log_on_commit w m b s v adv) (rises w).
Proof.
  unfold log_on_commit. eapply yields_bind; [apply mark_chosen_rises|]. intros n' Hn. ysteps. yskips.
  eapply rises_to; [done|]. destruct (is_open_at (p_rounds (ln_proposer n')) s b); exact Hn.
Qed.

Lemma log_serve_rises w m from operating : yields (log_serve w m from operating) (rises w).
Proof. unfold log_serve. ysteps; try reflexivity. yskips; try reflexivity; by apply rises_same. Qed.

Lemma log_on_replay_rises w m entries adv : yields (log_on_replay w m entries adv) (rises w).
Proof.
  unfold log_on_replay. yskip. eapply yields_bind; [apply (yields_fold node_rises); [apply _|]; intros n' e; apply mark_chosen_rises|].
  intros n' Hn. yskips. by eapply rises_to.
Qed.

Lemma log_on_trimmed_rises w m point state adv : yields (log_on_trimmed w m point state adv) (rises w).
Proof.
  unfold log_on_trimmed. yskip; [reflexivity|]. eapply yields_bind; [apply trim_to_rises|]. intros [a' ws] Ha. ysteps. do 4 yskip.
  eapply yields_bind; [apply node_advance_rises|]. intros n' Hn. ysteps. eapply rises_to; [done|]. etrans; [|exact Hn]. by split.
Qed.

Lemma log_repair_rises w m s : yields (log_repair w m s) (rises w).
Proof.
  unfold log_repair. eapply yields_bind; [apply rewrite_rises|]. intros [[a' ws] o] Ha. ysteps. eapply rises_to; [done|].
  by apply with_acceptor_rises.
Qed.

Lemma log_step_down_rises w m : yields (log_step_down w m) (rises w).
Proof.
  unfold log_step_down. ysteps; try reflexivity. eapply yields_bind; [apply node_follow_rises|]. intros n' Hn. ysteps. yskips.
  by eapply rises_to.
Qed.

(** No event but a restart lowers a mark of any node. *)
Lemma log_handle_rises w l : restarts l = false -> yields (log_handle noop cfg prior w l) (rises w).
Proof.
  intros Hl. destruct l; cbn [log_handle]; try done.
  - apply log_campaign_rises.
  - apply log_start_phase1_rises.
  - apply log_on_prepare_rises.
  - apply log_on_promise_rises.
  - apply log_keep_paging_rises.
  - apply log_tick_repair_rises.
  - apply log_pump_rises.
  - apply log_propose_rises.
  - apply log_on_accept_rises.
  - apply log_on_accepted_rises.
  - apply log_on_nack_rises.
  - apply log_on_commit_rises.
  - apply log_serve_rises.
  - apply log_on_replay_rises.
  - unfold log_advance. ycall node_advance_rises. by eapply rises_to.
  - unfold log_compact. ycall node_compact_rises. by eapply rises_to.
  - apply log_on_trimmed_rises.
  - apply log_repair_rises.
  - apply log_step_down_rises.
Qed.
End marks.
