(* ===== verification/LogSystem.v ===== *)
(** * The replicated log: every event, and agreement

    Learning, catch-up, compaction, trims and restarts keep the invariant as the
    other handlers do; so every reachable state satisfies it.  The properties
    follow: agreement on every slot, that no event can panic, and that the chosen
    prefix is sound and durable. *)

From stdpp Require Import functions.
From S2P Require Import Prelude BTree Types Retained Journal Contract Acceptor PromisePage QuorumSystem AcceptorConfig Rounds Tally Leadership Proposer Election LogWorld LogInv LogSteps LogLearn LogLead LogRounds LogElect LogMarks.

Section system.
Context {V : Type} `{!EqDecision V, !Fingerprint V, !FromWrite V WriteOp} (noop : V).
Context (cfg : Ballot -> AcceptorConfig NodeId) (prior : Ballot -> list (AcceptorConfig NodeId)).
Context (led : Ballot -> Prop) {HC : LogConfigs cfg prior led}.
Implicit Types (n : LogNode V) (w : LogWorld V) (m : NodeId) (b c : Ballot) (s : Slot) (v : V)
  (a : Acceptor V) (p : Proposer NodeId V).

Local Abbreviation node_ok := (node_ok cfg prior led).
Local Abbreviation leader_ok := (leader_ok cfg prior led).
Local Abbreviation role_ok := (role_ok cfg prior led).
Local Abbreviation log_inv := (log_inv cfg prior led).

(** ** Stepping down *)

Lemma log_step_down_inv w m : log_inv w -> exists w', log_step_down w m = Done w' /\ log_inv w'.
Proof.
  intros Hinv. unfold log_step_down. destruct (ln_role (lw_nodes w m)); [by exists w..|].
  destruct (node_follow_ok cfg prior led w m _ (li_nodes _ _ _ _ Hinv m)) as [-> Hn].
  rsimpl. rewrite (rassert_true (rs_by_slot _ = ∅)) by done. rsimpl. unfold fence. cbn. rsimpl. rewrite rassert_true by done. rsimpl.
  eexists. split; [done|]. by apply at_node_inv.
Qed.

(** A campaign holds no open round. *)
Lemma supersedes_ok w m n b s :
  node_ok w m n -> supersedes (ln_proposer n) b s =
    Done (bool_decide (is_some_and (fun e => t_ballot (e_promises e) = b) (p_election (ln_proposer n)))
          || is_open_at (p_rounds (ln_proposer n)) s b).
Proof.
  intros Hn. unfold supersedes. eapply bind_seq with (a := tt); [|done].
  case_bool_decide as He; [|done]. apply rassert_true, bool_decide_eq_false_2.
  pose proof (nk_role _ _ _ _ _ _ Hn) as Hr. unfold LogInv.role_ok, idle, rounds_is_empty in Hr. destruct (ln_role n).
  - destruct Hr as (_ & E & _). rewrite E, lookup_empty. by intros [].
  - destruct Hr as (_ & _ & E & _). rewrite E, lookup_empty. by intros [].
  - destruct Hr as (_ & _ & _ & Hl). rewrite (lo_election _ _ _ _ _ _ Hl) in He. done.
Qed.

Lemma log_on_nack_inv w m b s : log_inv w -> exists w', log_on_nack w m b s = Done w' /\ log_inv w'.
Proof.
  intros Hinv. pose proof (li_nodes _ _ _ _ Hinv m) as Hn. unfold log_on_nack. rewrite (supersedes_ok w m) by done. rsimpl.
  destruct (bool_decide (is_some_and _ _) || is_open_at _ _ _).
  - destruct (node_follow_ok cfg prior led w m _ Hn) as [-> Hn']. rsimpl. rewrite (rassert_true (p_election _ = None)) by done. rsimpl.
    rewrite (rassert_true (rs_by_slot _ = ∅)) by done. rsimpl. rewrite rassert_true by done. rsimpl.
    eexists. split; [done|]. by apply at_node_inv.
  - rsimpl. rewrite rassert_true by done. rsimpl. eexists. split; [done|]. by apply at_node_inv.
Qed.

(** ** Scrubbing *)

Lemma repaired_node_ok w m n k :
  node_ok w m n -> k + msize (w_entries (a_faulty (ln_acceptor n))) <= u64_max ->
  node_ok w m (with_acceptor n (with_repairs (ln_acceptor n) k)).
Proof.
  intros [[] ? ? ? Hs ? ? []] Hk. constructor; try done.
  - constructor; try done. by apply with_repairs_wf.
  - intros s Hin. destruct (Hs s Hin) as (c & v & []). exists c, v. by constructor.
  - by apply role_ok_acceptor.
Qed.

Lemma log_repair_inv w m s :
  log_inv w -> repairs_left (ln_acceptor (lw_nodes w m)) -> exists w', log_repair w m s = Done w' /\ log_inv w'.
Proof.
  intros Hinv Hk. pose proof (li_nodes _ _ _ _ Hinv m) as Hn. unfold log_repair, repairs_left in *.
  rewrite acceptor_rewrite_ok; [|apply (nk_acc _ _ _ _ _ _ Hn)|lia]. rsimpl.
  destruct (w_entries (a_records (ln_acceptor (lw_nodes w m))) !! s) as [[b v]|]; rsimpl; rewrite rassert_true by done; rsimpl;
    (eexists; split; [done|]; apply at_node_inv; [done|]).
  - apply repaired_node_ok; [done|lia].
  - by destruct (lw_nodes w m).
Qed.

(** ** Learning *)

Lemma log_on_commit_inv w m b s v adv :
  log_inv w -> NCommit b s v ∈ lw_net w -> exists w', log_on_commit w m b s v adv = Done w' /\ log_inv w'.
Proof.
  intros Hinv Hm. apply (li_net _ _ _ _ Hinv) in Hm as Hd.
  destruct (mark_chosen_ok cfg prior led w m _ s v b adv Hinv (li_nodes _ _ _ _ Hinv m)) as (n1 & E & Hn1 & Hpost); [by intros _|].
  unfold log_on_commit. rewrite E. rsimpl.
  set (n2 := if is_open_at (p_rounds (ln_proposer n1)) s b then on_proposer n1 (close_round (ln_proposer n1) s) else n1).
  assert (node_ok w m n2) as Hn2 by (unfold n2; destruct (is_open_at _ _ _); [by apply close_round_ok|done]).
  assert (ln_acceptor n2 = ln_acceptor n1 /\ ln_chosen n2 = ln_chosen n1) as [Ea Ec] by (unfold n2; by destruct (is_open_at _ _ _)).
  rewrite first_slot_ok by apply (nk_acc _ _ _ _ _ _ Hn2). rsimpl. eexists. split.
  - eapply bind_seq with (a := tt).
    { case_decide as Hf; [|done]. apply rassert_true. rewrite Ec, (md_chosen _ _ _ _ _ Hpost); [by eexists|]. by rewrite <-Ea. }
    cbv beta. rewrite rassert_true; [done|]. unfold n2. destruct (is_open_at (p_rounds (ln_proposer n1)) s b) eqn:Eo; [|done].
    apply bool_decide_eq_false_2. cbn. rewrite lookup_delete_eq. by intros [].
  - by apply at_node_inv.
Qed.

(** *** Catch-up *)

(** A replay page: consecutive chosen commands from [s] on, cut at its bound, at
    [hi] or at a slot not chosen here. *)
Record replays n s hi (fuel : nat) (entries : list (Slot * (Ballot * V))) : Prop := {
  rl_length : (length entries <= fuel)%nat;
  rl_slots : forall i e, entries !! i = Some e -> e.1 = s + N.of_nat i /\ e.1 < hi;
  rl_chosen : forall s' b v, (s', (b, v)) ∈ entries -> ln_chosen n !! s' = Some v /\
    exists x, w_entries (a_records (ln_acceptor n)) !! s' = Some (b, x);
  rl_stops : length entries = fuel \/ hi <= s + N.of_nat (length entries) \/ ln_chosen n !! (s + N.of_nat (length entries)) = None }.

Lemma replay_page_ok w m n op hi : node_ok w m n ->
  forall fuel s, exists entries, replay_page fuel n op s hi = Done entries /\ replays n s hi fuel entries.
Proof.
  intros Hn. induction fuel as [|fuel IH]; intros s; cbn [replay_page].
  { exists []. split; [done|]. constructor; [done|done| |by left]. by intros s' b v ?%not_elem_of_nil. }
  assert (hi <= s \/ ln_chosen n !! s = None -> replays n s hi (S fuel) []) as Hnil.
  { intros Hs. constructor; cbn; [lia|done|by intros s' b v ?%not_elem_of_nil|]. right. by rewrite N.add_0_r. }
  destruct (decide (hi <= s)) as [Hhi|Hlt]; [exists []; split; [done|]; apply Hnil; by left|].
  destruct (ln_chosen n !! s) as [v|] eqn:Ec; [|exists []; split; [done|]; apply Hnil; by right].
  rewrite acceptor_record_ok by apply (nk_acc _ _ _ _ _ _ Hn). rsimpl.
  destruct (nk_slots _ _ _ _ _ _ Hn s) as (c & v' & Hso); [right; by eexists|].
  destruct (so_chosen _ _ _ _ _ Hso _ Ec) as [-> [[rb x] Er]]. rewrite Er. rsimpl.
  destruct (IH (s + 1)) as (rest & -> & [Hlen Hslots Hch Hstop]). rsimpl. eexists. split; [done|]. constructor; cbn [length].
  - lia.
  - intros [|i] e; cbn; [intros [= <-]; cbn; lia|]. intros He. apply Hslots in He. lia.
  - intros s' b y [[= -> -> ->]|Hin]%elem_of_cons; [split; [done|by eexists]|by apply Hch].
  - replace (s + N.of_nat (S (length rest))) with (s + 1 + N.of_nat (length rest)) by lia. destruct Hstop as [?|?]; [left; lia|by right].
Qed.

Lemma log_serve_inv w m from op : log_inv w -> exists w', log_serve w m from op = Done w' /\ log_inv w'.
Proof.
  intros Hinv. pose proof (li_nodes _ _ _ _ Hinv m) as Hn. pose proof (nk_acc _ _ _ _ _ _ Hn) as Hacc. unfold log_serve.
  set (n := lw_nodes w m) in *. destruct (decide (ln_first n = 0)); [by exists w|].
  rewrite first_slot_ok by apply Hacc. rsimpl. pose proof (nk_floor _ _ _ _ _ _ Hn). pose proof (nk_width _ _ _ _ _ _ Hn).
  destruct (decide (from < floor_of (ln_acceptor n))).
  { eexists. split; [done|]. apply log_send_inv; [done|]. intros msg ->%list_elem_of_singleton. split; [lia|].
    intros s Hs. destruct (nk_slots _ _ _ _ _ _ Hn s) as (c & v & Hso); [left; lia|]. exists c, v. apply Hso. }
  destruct (decide (ln_first n <= from)); [by exists w|].
  destruct (replay_page_ok w m n op (ln_first n) Hn CATCHUP_BATCH from) as (entries & -> & [Hlen Hslots Hch Hstop]). rsimpl.
  destruct (last entries) as [[end_ r]|] eqn:El; [|by exists w]. rewrite last_lookup in El.
  assert (0 < length entries)%nat by (destruct entries; cbn in *; [done|lia]).
  destruct (Hslots _ _ El) as [Eend Hend]. cbn in Eend, Hend.
  assert (from + N.of_nat (length entries) = end_ + 1) as Enext by lia. rewrite Enext in Hstop.
  rewrite (rassert_true (length entries <= CATCHUP_BATCH)%nat) by done. rsimpl. rewrite (rassert_true (fst <$> head entries = Some from)).
  2: { rewrite head_lookup. destruct (entries !! 0%nat) as [e|] eqn:E0; [|apply lookup_ge_None_1 in E0; lia].
       cbn. f_equal. destruct (Hslots _ _ E0) as [-> _]. lia. }
  rsimpl. rewrite (rassert_true (end_ < ln_first n)) by done. rsimpl. rewrite (rassert_true (Forall _ _)).
  2: { apply Forall_lookup. intros i [x y] Hxy. apply lookup_zip_Some in Hxy as [Hx Hy]. rewrite lookup_tail in Hy. cbn.
       apply Hslots in Hx as [-> _]. apply Hslots in Hy as [-> _]. lia. }
  rsimpl. rewrite rassert_true.
  2: { destruct Hstop as [?|[?|?]]; [by left|right; left; lia|by right; right]. }
  rsimpl. eexists. split; [done|]. apply log_send_inv; [done|]. intros msg ->%list_elem_of_singleton. intros s b v Hin.
  destruct (Hch _ _ _ Hin) as [Hc [x Er]]. destruct (nk_slots _ _ _ _ _ _ Hn s) as (c & v' & Hso); [right; by eexists|].
  destruct (so_chosen _ _ _ _ _ Hso _ Hc) as [-> _].
  destruct (so_record _ _ _ _ _ Hso) with b x as [-> Hle]; [apply (nk_retained _ _ _ _ _ _ Hn); by eexists|done|].
  split; [by apply (ak_record _ _ _ Hacc)|]. exists c. split; [apply Hso|done].
Qed.

Lemma replay_fold_ok w m (l : list (Slot * (Ballot * V))) adv n :
  log_inv w -> node_ok w m n -> (forall s b v, (s, (b, v)) ∈ l -> lw_rounds w !! (b, s) = Some v /\ decided_val w b s v) ->
  exists n', foldM (fun n (e : Slot * (Ballot * V)) => mark_chosen m n e.1 e.2.2 e.2.1 adv) n l = Done n' /\ node_ok w m n' /\
    ln_first n <= ln_first n' /\ floor_of (ln_acceptor n) <= floor_of (ln_acceptor n').
Proof.
  intros Hinv. revert n. induction l as [|[s [b v]] l IH]; intros n Hn Hl; [by exists n|].
  destruct (mark_chosen_ok cfg prior led w m n s v b adv Hinv Hn) as (n1 & E & Hn1 & []); [intros _; apply Hl; by left|].
  cbn [foldM fst snd]. rewrite E. rsimpl. destruct (IH n1 Hn1) as (n2 & -> & ? & ? & ?); [intros; apply Hl; by right|].
  exists n2. split_and!; [done|done|lia|lia].
Qed.

Lemma log_on_replay_inv w m entries adv :
  log_inv w -> NReplay entries ∈ lw_net w -> exists w', log_on_replay w m entries adv = Done w' /\ log_inv w'.
Proof.
  intros Hinv Hm. apply (li_net _ _ _ _ Hinv) in Hm as Hd. pose proof (li_nodes _ _ _ _ Hinv m) as Hn. unfold log_on_replay.
  rewrite first_slot_ok by apply (nk_acc _ _ _ _ _ _ Hn). rsimpl.
  destruct (replay_fold_ok w m entries adv _ Hinv Hn Hd) as (n' & E & Hn' & Hfi & Hfl). rewrite E. rsimpl.
  rewrite (rassert_true (ln_first _ <= ln_first n')) by done. rsimpl. rewrite first_slot_ok by apply (nk_acc _ _ _ _ _ _ Hn'). rsimpl.
  rewrite rassert_true by done. rsimpl. eexists. split; [done|]. by apply at_node_inv.
Qed.

Lemma log_advance_inv w m adv : log_inv w -> exists w', log_advance w m adv = Done w' /\ log_inv w'.
Proof.
  intros Hinv. unfold log_advance. destruct (node_advance_ok cfg prior led w m _ adv Hinv (li_nodes _ _ _ _ Hinv m)) as (n' & -> & Hn' & _).
  rsimpl. eexists. split; [done|]. by apply at_node_inv.
Qed.

(** ** Retention *)

Lemma log_compact_inv w m first sealed : log_inv w -> exists w', log_compact w m first sealed = Done w' /\ log_inv w'.
Proof.
  intros Hinv. unfold log_compact.
  destruct (node_compact_ok cfg prior led w m _ first sealed (li_nodes _ _ _ _ Hinv m)) as (n' & -> & Hn' & _).
  rsimpl. eexists. split; [done|]. by apply at_node_inv.
Qed.

(** The probe over the slots at or past a trim point. *)
Definition probe_from (o : option (RepairProbe NodeId V)) (first : Slot) : option (RepairProbe NodeId V) :=
  match o with
  | None => None
  | Some pb =>
      let pb' := mkProbe (pb_promises pb) (pb_prior pb) (bt_split_off first (pb_faulty_reports pb))
                   (bt_split_off first (pb_best_have pb)) (bs_split_off first (pb_blocked pb)) (pb_elapsed pb) in
      if decide (pb_blocked pb' = ∅) then None else Some pb'
  end.

Lemma probe_retain_from_ok p first : probe_retain_from p first = Done (with_probe p (probe_from (p_probe p) first)).
Proof.
  unfold probe_retain_from, probe_from. destruct (p_probe p) as [pb|] eqn:E; rsimpl.
  - rewrite rassert_true.
    2: { destruct (bs_first _) as [s|] eqn:Es; [|done]. apply bs_first_Some in Es as [Hs _]. by apply elem_of_bs_split_off in Hs as [? _]. }
    rsimpl. rewrite rassert_true; [done|]. cbn. by case_decide.
  - rewrite rassert_true by by rewrite E. by destruct p; cbn in *; subst.
Qed.

Lemma probe_from_ok w b o first pb' :
  is_none_or (probe_ok prior w b) o -> probe_from o first = Some pb' ->
  probe_ok prior w b pb' /\ exists pb, o = Some pb /\ forall s, s ∈ pb_blocked pb' -> s ∈ pb_blocked pb.
Proof.
  unfold probe_from. destruct o as [pb|]; [|done]. intros [] E. case_decide as Hne; [done|]. injection E as <-.
  assert (forall s, s ∈ bs_split_off first (pb_blocked pb) <-> first <= s /\ s ∈ pb_blocked pb) as Hb by (intros s; exact (elem_of_bs_split_off first (pb_blocked pb) s)).
  split; [|exists pb; split; [done|]; intros s [_ ?]%Hb; done]. destruct bo_wf, bo_tally. constructor; cbn; try done.
  - constructor; cbn; try done.
    + intros s [r [? E]%dropped_lookup]. apply Hb. split; [done|]. apply pwf_have. by eexists.
    + intros s [r [? E]%dropped_lookup]. apply Hb. split; [done|]. apply pwf_faulty. by eexists.
    + intros s [_ ?]%Hb. by apply pwf_range.
  - constructor; cbn; try done.
    + intros s rb v [_ E]%dropped_lookup. by apply tk_have.
    + intros m s [Hs Hin]%Hb Hf Hm b' Hlt Hv. destruct (tk_told m s Hin Hf Hm b' Hlt Hv) as (hb & Hr & ?). exists hb. split; [|done].
      unfold reported in *. by rewrite !lookup_bt_split_off, !decide_True.
  - intros s [_ ?]%Hb. by apply bo_fresh.
Qed.

Lemma probe_from_first o first pb' :
  probe_from o first = Some pb' -> is_none_or (fun s => first <= s) (bs_first (pb_blocked pb')).
Proof.
  unfold probe_from. destruct o as [pb|]; [|done]. case_decide; [done|]. intros [= <-]. cbn.
  destruct (bs_first _) as [s|] eqn:Es; [|done]. apply bs_first_Some in Es as [Hs _]. by apply elem_of_bs_split_off in Hs as [? _].
Qed.

Lemma raise_next_slot_ok p s : raise_next_slot p s = Done (with_next_slot p (N.max (p_next_slot p) s)).
Proof. unfold raise_next_slot. by rewrite !rassert_true by (cbn; lia). Qed.

Lemma log_on_trimmed_inv w m point state adv :
  log_inv w -> NTrimmed point ∈ lw_net w -> exists w', log_on_trimmed w m point state adv = Done w' /\ log_inv w'.
Proof.
  intros Hinv Hm. apply (li_net _ _ _ _ Hinv) in Hm as [Hmax Hdec]. pose proof (li_nodes _ _ _ _ Hinv m) as Hn.
  unfold log_on_trimmed. set (n := lw_nodes w m) in *. rewrite first_slot_ok by apply (nk_acc _ _ _ _ _ _ Hn). rsimpl.
  destruct (decide (point <= floor_of (ln_acceptor n))) as [|Hlt]; [by exists w|].
  rewrite trim_to_ok; [|apply (nk_acc _ _ _ _ _ _ Hn)|lia]. rsimpl. rewrite probe_retain_from_ok. rsimpl.
  rewrite retain_rounds_from_ok. rsimpl. rewrite raise_next_slot_ok. rsimpl. set (p := with_next_slot _ _).
  assert (node_ok w m (cut n point p)) as Hcut.
  { apply (cut_node_ok cfg prior led w m n point p); [done|lia| | |done|].
    { constructor; [|done|cbn; lia]. intros s [r [? _]%map_lookup_filter_Some]. by eexists. }
    { by intros s [r [_ ?]%map_lookup_filter_Some]. }
    pose proof (nk_role _ _ _ _ _ _ Hn) as Hr. unfold LogInv.role_ok, idle, rounds_is_empty in *. destruct (ln_role n) as [|b|b].
    - destruct Hr as (? & E & Epb & ?). split_and!; try done; cbn; [by rewrite E, map_filter_empty|by rewrite Epb].
    - destruct Hr as (? & ? & E & Epb & ? & ?). split_and!; try done; cbn; [by rewrite E, map_filter_empty|by rewrite Epb].
    - destruct Hr as (? & ? & ? & []). constructor; try done.
      + intros pb'. cbn. by apply probe_from_ok.
      + intros s r. cbn. intros [? _]%map_lookup_filter_Some. done.
      + cbn. lia.
      + cbn. lia. }
  fold (cut n point p). rewrite first_slot_ok by apply (nk_acc _ _ _ _ _ _ Hcut). rsimpl.
  change (floor_of (ln_acceptor (cut n point p))) with point.
  rewrite (rassert_true (point = point)) by done. rsimpl. rewrite (rassert_true (floor_of _ < point)) by lia. rsimpl. rewrite (rassert_true (point <= ln_first (cut n point p))) by (cbn; lia). rsimpl.
  rewrite (rassert_true (ln_first n <= ln_first (cut n point p))) by (cbn; lia). rsimpl.
  rewrite (rassert_true (a_promised _ = _)) by done. rsimpl. rewrite (rassert_true (point <= p_next_slot p)) by (cbn; lia). rsimpl.
  rewrite rassert_true.
  2: { cbn. destruct (probe_from (p_probe (ln_proposer n)) point) as [pb'|] eqn:E; [|done]. by eapply probe_from_first. }
  rsimpl. destruct (node_advance_ok cfg prior led w m _ adv Hinv Hcut) as (n' & -> & Hn' & _). rsimpl.
  eexists. split; [done|]. by apply at_node_inv.
Qed.

(** ** Restarts *)

Lemma kept_lookup n lost s b v :
  reread_records n lost !! s = Some (b, v) <-> w_entries (a_records (ln_acceptor n)) !! s = Some (b, v) /\ (s ∉ lost).
Proof. unfold reread_records. by rewrite map_lookup_filter_Some. Qed.

Lemma faulty_lookup n lost s b :
  acceptor_wf (ln_acceptor n) -> faulty_records n lost !! s = Some b <->
  w_entries (a_faulty (ln_acceptor n)) !! s = Some b \/
  exists v, w_entries (a_records (ln_acceptor n)) !! s = Some (b, v) /\ s ∈ lost.
Proof.
  intros Hwf. unfold faulty_records. rewrite lookup_union_Some.
  - rewrite lookup_fmap_Some. split.
    + intros [([b' v] & <- & [? ?]%map_lookup_filter_Some)|?]; [right; by exists v|by left].
    + intros [?|(v & ? & ?)]; [by right|left]. exists (b, v). by rewrite map_lookup_filter_Some.
  - apply map_disjoint_spec. intros s' x y (r & _ & [Hr _]%map_lookup_filter_Some)%lookup_fmap_Some Hy.
    pose proof (awf_disjoint _ Hwf _ _ Hy). congruence.
Qed.

Lemma held_survives n lost s b :
  acceptor_wf (ln_acceptor n) -> held_at (ln_acceptor n) s b ->
  held_at (booted (a_promised (ln_acceptor n)) (reread_records n lost) (floor_of (ln_acceptor n)) (faulty_records n lost)) s b.
Proof.
  intros Hwf [(v & E)|E]; unfold held_at; cbn.
  - destruct (decide (s ∈ lost)); [right; apply faulty_lookup; eauto|left; exists v; by apply kept_lookup].
  - right. apply faulty_lookup; auto.
Qed.

Lemma reboot_bootable n lost :
  acceptor_wf (ln_acceptor n) ->
  bootable (a_promised (ln_acceptor n)) (reread_records n lost) (floor_of (ln_acceptor n)) (faulty_records n lost).
Proof.
  intros Hwf. pose proof Hwf as [Hwr Hwfa Hfl Hdis Hce Hre Hfe]. constructor.
  - intros s [[b v] [E _]%kept_lookup]. apply Hwr. by eexists.
  - intros s [b [E|(v & E & _)]%faulty_lookup]; [|apply Hwr; by eexists|done]. unfold floor_of. rewrite Hfl. apply Hwfa. by eexists.
  - intros s b Hf. destruct (reread_records n lost !! s) as [[b' v]|] eqn:E; [|done]. exfalso.
    apply kept_lookup in E as [E Hl]. apply faulty_lookup in Hf as [Hf|(v' & _ & ?)]; [|done..].
    rewrite (Hdis _ _ Hf) in E. done.
  - intros s b v [E _]%kept_lookup. eapply ord_le_trans; [by eapply Hre|done].
  - intros s b [E|(v & E & _)]%faulty_lookup; [|by eapply ord_le_trans; [eapply Hre|]|done].
    eapply ord_le_trans; [by eapply Hfe|done].
Qed.

Lemma reboot_acc_ok w m n lost :
  acc_ok w m (ln_acceptor n) -> msize (faulty_records n lost) <= u64_max ->
  acc_ok w m (booted (a_promised (ln_acceptor n)) (reread_records n lost) (floor_of (ln_acceptor n)) (faulty_records n lost)).
Proof.
  intros [] Hsz. constructor; cbn; try done.
  - by apply booted_wf, reboot_bootable.
  - intros s b v [E _]%kept_lookup. by apply ak_record.
  - intros s b [E|(v & E & _)]%faulty_lookup; [by apply ak_faulty| |done]. exists v. by apply ak_record.
  - intros b s Hv Hs. destruct (ak_held b s Hv Hs) as (hb & Hh & Hd). exists hb. split; [|done]. by apply held_survives.
Qed.

Lemma reboot_node_ok w m n lost first p :
  node_ok w m n -> floor_of (ln_acceptor n) <= first <= ln_first n -> msize (faulty_records n lost) <= u64_max -> idle p ->
  au_fence (p_authority p) = None ->
  node_ok w m (mkLogNode (booted (a_promised (ln_acceptor n)) (reread_records n lost) (floor_of (ln_acceptor n)) (faulty_records n lost))
    p Follower (snd <$> filter (fun e => e.1 < first) (reread_records n lost)) first).
Proof.
  intros Hn Hf Hsz Hp Hau. pose proof Hn as [Hacc Hfl Hw Hret Hs Ha _ _]. pose proof (ak_wf _ _ _ Hacc) as Hwf.
  pose proof (reboot_bootable n lost Hwf) as Hboot.
  assert (forall s x, (snd <$> filter (fun e : Slot * (Ballot * V) => e.1 < first) (reread_records n lost)) !! s = Some x ->
    s < first /\ exists b, reread_records n lost !! s = Some (b, x)) as Hch.
  { intros s x ([b v] & <- & [E ?]%map_lookup_filter_Some)%lookup_fmap_Some. split; [done|]. by exists b. }
  constructor; cbn [ln_acceptor ln_first ln_chosen]; try done.
  - by apply reboot_acc_ok.
  - cbn. lia.
  - lia.
  - intros s [x (_ & b & E)%Hch]. apply (boot_records _ _ _ _ Hboot). by eexists.
  - intros s Hin. destruct (Hs s) as (c & v & []).
    { left. destruct Hin as [?|[x [? _]%Hch]]; lia. }
    exists c, v. constructor; cbn [ln_acceptor ln_first ln_chosen ln_role booted a_records w_entries a_promised]; try done.
    + intros Hfl' rb x [E _]%kept_lookup. by apply so_record.
    + intros x (_ & b & E)%Hch. split; [|by eexists]. apply kept_lookup in E as [E _].
      destruct (so_record) with b x; [|done|done]. apply (awf_records _ Hwf). by eexists.
    + intros Hfl'. destruct (so_held Hfl') as (hb & Hh). exists hb. by apply held_survives.
  - destruct Hp as (_ & Hrs & _). constructor; cbn [ln_acceptor ln_first ln_chosen ln_proposer ln_role]; try done.
    + intros s [r Hr]. by rewrite Hrs in Hr.
    + by rewrite Hau.
    + intros s rb v Hlt Hc E. cbn in E. rewrite lookup_fmap in Hc.
      rewrite (map_lookup_filter_Some_2 _ _ s (rb, v)) in Hc by done. done.
Qed.

Lemma log_reboot_inv w m lost first :
  log_inv w -> log_enabled cfg led w (LReboot m lost first) -> exists w', log_reboot w m lost first = Done w' /\ log_inv w'.
Proof.
  intros Hinv [Hf Hsz]. pose proof (li_nodes _ _ _ _ Hinv m) as Hn. unfold floor_at in Hf. unfold log_reboot. set (n := lw_nodes w m) in *.
  pose proof (ak_wf _ _ _ (nk_acc _ _ _ _ _ _ Hn)) as Hwf. rewrite first_slot_ok by done. rsimpl.
  rewrite (rassert_true (floor_of _ <= first)) by lia. rsimpl. rewrite (rassert_true (Forall _ _)).
  2: { apply Forall_forall. intros s Hs%elem_of_range. destruct (nk_slots _ _ _ _ _ _ Hn s) as (c & v & Hso); [left; lia|].
       destruct (so_held _ _ _ _ _ Hso) as (hb & Hh); [lia|]. apply (held_survives n lost) in Hh; [|done].
       destruct Hh as [(x & E)|E]; cbn in E; [left|right]; by eexists. }
  rsimpl. rewrite acceptor_new_ok by by apply reboot_bootable. rsimpl.
  assert (exists next, (match opt_max (last_key_of (reread_records n lost)) (last_key_of (faulty_records n lost)) with
    | Some s => u64_add s 1 | None => mret first end) = Done next) as [next ->].
  { assert (is_none_or (fun s => s < u64_max) (opt_max (last_key_of (reread_records n lost)) (last_key_of (faulty_records n lost)))) as Hx.
    { pose proof (nk_acc _ _ _ _ _ _ Hn) as [].
      assert (forall s b, is_Some (lw_rounds w !! (b, s)) -> s < u64_max) as Hr.
      { intros s b [v Hv]. by apply (li_rounds _ _ _ _ Hinv) in Hv as (_ & ? & _). }
      apply opt_max_all; apply last_key_all; intros s.
      - intros [[b v] [E _]%kept_lookup]. apply (Hr s b). exists v. by apply ak_record.
      - intros [b [E|(v & E & _)]%faulty_lookup]; [by eapply Hr, ak_faulty| |done]. apply (Hr s b). exists v. by apply ak_record. }
    destruct (opt_max _ _) as [s|]; [|by eexists]. cbn in Hx. rewrite u64_add_ok by lia. by eexists. }
  rsimpl. unfold set_next_slot. rewrite rassert_true by done. rsimpl. eexists. split; [done|].
  apply at_node_inv; [done|]. by apply reboot_node_ok.
Qed.

(** ** Every event *)

Lemma log_handle_ok w l :
  log_inv w -> log_enabled cfg led w l -> exists w', log_handle noop cfg prior w l = Done w' /\ log_inv w'.
Proof using HC.
  intros Hinv Hen. destruct l as [m least|m k adv|m b from limit op|m sender b from page k adv|m|m timeout|m k adv|m v col adv
    |m b s v op adv|m sender b s h adv|m b s|m b s v adv|m from op|m entries adv|m adv|m first sealed|m point state adv|m s
    |m lost first|m]; cbn [log_handle].
  - by apply (log_campaign_inv cfg prior led).
  - by apply (log_start_phase1_inv noop cfg prior led).
  - destruct Hen as (_ & ? & ?). by apply log_on_prepare_inv.
  - destruct Hen as [? ?]. by apply (log_on_promise_inv noop cfg prior led).
  - by apply (log_keep_paging_inv cfg prior led).
  - by apply (log_tick_repair_inv cfg prior led).
  - destruct (log_pump_inv noop cfg prior led k w m adv Hinv) as (w' & ? & ? & _). by exists w'.
  - by apply (log_propose_inv cfg prior led).
  - destruct Hen as [? ?]. by apply log_on_accept_inv.
  - by apply (log_on_accepted_inv cfg prior led).
  - by apply log_on_nack_inv.
  - by apply log_on_commit_inv.
  - by apply log_serve_inv.
  - by apply log_on_replay_inv.
  - by apply log_advance_inv.
  - by apply log_compact_inv.
  - by apply log_on_trimmed_inv.
  - by apply log_repair_inv.
  - by apply log_reboot_inv.
  - by apply log_step_down_inv.
Qed.

Lemma durable_marks_ok w m n :
  node_ok w m n -> durable_marks n = Done (a_promised (ln_acceptor n), ln_first n, floor_of (ln_acceptor n)).
Proof.
  intros Hn. pose proof (ak_wf _ _ _ (nk_acc _ _ _ _ _ _ Hn)) as Hwf. unfold durable_marks. rewrite promised_ok, first_slot_ok by done.
  rsimpl. by rewrite rassert_true by apply (nk_floor _ _ _ _ _ _ Hn).
Qed.

Lemma assert_marks_monotone_ok w m n n' :
  node_ok w m n' -> node_rises n n' ->
  assert_marks_monotone (a_promised (ln_acceptor n), ln_first n, floor_of (ln_acceptor n)) n' = Done tt.
Proof.
  intros Hn [[Hp Hf] Hi]. unfold assert_marks_monotone. rewrite (durable_marks_ok w m) by done. rsimpl.
  rewrite (rassert_true (_ ≤ _)%B) by done. rsimpl. rewrite (rassert_true (ln_first n <= _)) by done. rsimpl. by rewrite rassert_true.
Qed.

Lemma log_happens_ok w l :
  log_inv w -> log_enabled cfg led w l -> exists w', log_happens noop cfg prior w l = Done w' /\ log_inv w'.
Proof using HC.
  intros Hinv Hen. destruct (log_handle_ok w l Hinv Hen) as (w' & E & Hinv'). exists w'. split; [|done]. unfold log_happens.
  set (m := label_node l). pose proof (li_nodes _ _ _ _ Hinv m) as Hn. pose proof (li_nodes _ _ _ _ Hinv' m) as Hn'.
  rewrite (durable_marks_ok w m) by done. rsimpl. rewrite E. rsimpl.
  eapply bind_seq with (a := tt).
  { destruct (restarts l) eqn:El; [done|]. apply (assert_marks_monotone_ok w' m); [done|].
    exact (log_handle_rises noop cfg prior w l El w' E m). }
  cbv beta. by rewrite (node_assert_invariants_ok cfg prior led w').
Qed.

Lemma log_reachable_inv w : log_reachable noop cfg prior led w -> log_inv w.
Proof using HC.
  induction 1 as [|w l w' _ IH Hen Hl]; [apply log_init_inv|].
  destruct (log_happens_ok w l IH Hen) as (w'' & E & ?). rewrite Hl in E. by injection E as <-.
Qed.

(** ** Chosen values

    Chosen is about votes alone, whether or not a leader has counted them. *)

Definition chosen_at w b s v : Prop :=
  lw_rounds w !! (b, s) = Some v /\
  exists voters, chooses cfg b voters /\ forall m, m ∈ voters -> log_voted w m b s.

Lemma log_chosen_agree w b1 b2 s v1 v2 : log_inv w -> chosen_at w b1 s v1 -> chosen_at w b2 s v2 -> v1 = v2.
Proof.
  intros Hinv [Hr1 Hq1] [Hr2 Hq2]. assert (log_inv (decide_at w b1 s v1)) as Hinv1 by by apply decide_at_inv.
  assert (log_inv (decide_at (decide_at w b1 s v1) b2 s v2)) as Hinv2 by by apply decide_at_inv.
  eapply decided_agree; [exact Hinv2|right; left|left].
Qed.

Lemma decided_chosen w b s v : log_inv w -> (b, s, v) ∈ lw_decided w -> chosen_at w b s v.
Proof. intros Hinv Hd. exact (li_decided _ _ _ _ Hinv _ _ _ Hd). Qed.

(** ** Properties *)

(** C1: the replicated log agrees.  In every state the deployment can reach, with
    any interleaving of campaigns, elections, repairs, proposals, votes, learning,
    catch-up, compaction, trims, crashes with lost records, and messages lost,
    duplicated or reordered: no slot has two chosen values, whatever the ballots
    and configurations of their quorums; what a leader counted as decided and what
    any node holds as chosen is the chosen value; so any two nodes that know a slot
    chosen know the same command; and no ballot at or above a choosing one ever
    proposes anything else there. *)
Theorem log_agreement w :
  log_reachable noop cfg prior led w ->
  (forall b1 b2 s v1 v2, chosen_at w b1 s v1 -> chosen_at w b2 s v2 -> v1 = v2) /\
  (forall b s v, (b, s, v) ∈ lw_decided w -> chosen_at w b s v) /\
  (forall m s v, ln_chosen (lw_nodes w m) !! s = Some v -> exists b, chosen_at w b s v) /\
  (forall m1 m2 s v1 v2, ln_chosen (lw_nodes w m1) !! s = Some v1 -> ln_chosen (lw_nodes w m2) !! s = Some v2 -> v1 = v2) /\
  (forall c b s v x, chosen_at w c s v -> (c ≤ b)%B -> lw_rounds w !! (b, s) = Some x -> x = v).
Proof using HC.
  intros Hinv%log_reachable_inv.
  assert (forall m s v, ln_chosen (lw_nodes w m) !! s = Some v -> exists b, chosen_at w b s v) as Hnode.
  { intros m s v E. destruct (nk_slots _ _ _ _ _ _ (li_nodes _ _ _ _ Hinv m) s) as (c & x & Hso); [right; by eexists|].
    destruct (so_chosen _ _ _ _ _ Hso _ E) as [-> _]. exists c. apply decided_chosen; [done|apply Hso]. }
  split_and!; [by intros; eapply log_chosen_agree|by intros; apply decided_chosen|done|..].
  - intros m1 m2 s v1 v2 [b1 H1]%Hnode [b2 H2]%Hnode. by eapply log_chosen_agree.
  - intros c b s v x [Hr Hq] Hle Hx. apply (decided_dominates cfg prior led (decide_at w c s v) c s v b); try done.
    + by apply decide_at_inv.
    + by left.
Qed.

(** C2: no event makes a node panic.  In every reachable state, every event of
    [LogLabel] that can happen runs to its end: any delivery of a message that was
    sent, any campaign the node may open, any proposal below the end of the slot space,
    any compaction, keep-alive or repair tick, any restart on the node's own records
    with some of them rotted.  No assertion of the acceptor, of the proposer with its
    elections, repairs, rounds and recovery, or of the modelled handlers fires; the
    node-wide checks at the exit of each event and of each compaction
    ([assert_marks_monotone], [assert_invariants]) pass over the acceptor, the proposer,
    the role and the chosen slots; and no arithmetic overflows.  The conditions are
    those of [log_enabled] (slots and repair counters below their width) and of
    [LogConfigs] on the campaigns.  Assertions over state that is not modelled are not
    covered: the addressable pool, handoff and delegation, matchmaking and collection,
    reads, heartbeats, clocks and observability counters, the leader hint and learned
    configurations, the journal fold, and the lengths of the message queues. *)
Theorem log_never_panics w l :
  log_reachable noop cfg prior led w -> log_enabled cfg led w l -> exists w', log_happens noop cfg prior w l = Done w'.
Proof using HC.
  intros Hinv%log_reachable_inv Hen. destruct (log_happens_ok w l Hinv Hen) as (w' & ? & _). by exists w'.
Qed.

(** C3: the chosen prefix is sound and durable.  Every slot below a node's chosen
    prefix is chosen.  At or above its floor the node still holds a record of the
    slot, readable or reported rotted; a readable one carries the chosen value at a
    ballot the node promised, and what the node replays of it is that value.  And
    an acceptor's vote is never forgotten above its floor: it holds a record at
    that ballot or above, or one at or above a ballot that decided the slot. *)
Theorem log_prefix_sound w m s :
  log_reachable noop cfg prior led w ->
  (s < ln_first (lw_nodes w m) -> exists b v, chosen_at w b s v /\
     (floor_at w m <= s ->
        (exists hb, held_at (ln_acceptor (lw_nodes w m)) s hb /\ (hb ≤ promised_at w m)%B) /\
        (forall rb x, w_entries (a_records (ln_acceptor (lw_nodes w m))) !! s = Some (rb, x) -> x = v /\ (b ≤ rb)%B) /\
        (forall x, ln_chosen (lw_nodes w m) !! s = Some x -> x = v))) /\
  (forall b, log_voted w m b s -> floor_at w m <= s ->
     exists hb, held_at (ln_acceptor (lw_nodes w m)) s hb /\ ((b ≤ hb)%B \/ exists c v, (c ≤ hb)%B /\ chosen_at w c s v)).
Proof using HC.
  intros Hinv%log_reachable_inv. pose proof (li_nodes _ _ _ _ Hinv m) as Hn. pose proof (nk_acc _ _ _ _ _ _ Hn) as [].
  assert (forall hb, held_at (ln_acceptor (lw_nodes w m)) s hb -> (hb ≤ promised_at w m)%B) as Hheld.
  { intros hb [(v & E)|E]; (eapply ord_le_trans; [|apply (awf_ceiling _ ak_wf)]); [by eapply awf_records_le|by eapply awf_faulty_le]. }
  split.
  - intros Hs. destruct (nk_slots _ _ _ _ _ _ Hn s (or_introl Hs)) as (c & v & []). exists c, v.
    split; [by apply decided_chosen|]. intros Hf. destruct (so_held Hf) as (hb & Hh). split_and!; [exists hb; auto|auto|].
    intros x Hx. by apply so_chosen.
  - intros b Hv Hf. destruct (ak_held b s Hv Hf) as (hb & Hh & Hd). exists hb. split; [done|].
    destruct Hd as [?|(c & v & Hd & ?)]; [by left|right]. exists c, v. split; [done|by apply decided_chosen].
Qed.
End system.

(** ** Deployments *)

(** One configuration for every ballot, as a cluster without reconfiguration runs. *)
Definition plain_cfg (config : AcceptorConfig NodeId) (_ : Ballot) : AcceptorConfig NodeId := config.
Definition plain_prior (config : AcceptorConfig NodeId) (_ : Ballot) : list (AcceptorConfig NodeId) := [config].
Definition every_ballot (_ : Ballot) : Prop := True.

Lemma plain_configs config : config_wf config -> LogConfigs (plain_cfg config) (plain_prior config) every_ballot.
Proof.
  intros Hwf. constructor; intros; [done|by apply Forall_singleton|apply NoDup_singleton|by apply list_elem_of_singleton].
Qed.

(** ** Runs, evaluated *)

Section runs.
Context {V : Type} `{!EqDecision V, !Fingerprint V, !FromWrite V WriteOp} (noop : V).
Context (cfg : Ballot -> AcceptorConfig NodeId) (prior : Ballot -> list (AcceptorConfig NodeId)).
Context (led : Ballot -> Prop) `{!forall b, Decision (led b)}.
Implicit Types (w : LogWorld V).

#[local] Instance PromisePage_eq_dec : EqDecision (PromisePage V).
Proof using EqDecision0. solve_decision. Defined.
#[local] Instance LogMsg_eq_dec : EqDecision (LogMsg V).
Proof using EqDecision0. solve_decision. Defined.

#[export] Instance log_enabled_dec w l : Decision (log_enabled cfg led w l).
Proof using EqDecision0 H.
  destruct l; simpl; try apply _; try (unfold repairs_left; apply _); destruct (ln_role _); apply _.
Defined.

Fixpoint log_run w (ls : list (LogLabel V)) : run (LogWorld V) :=
  match ls with
  | [] => mret w
  | l :: ls => rassert (log_enabled cfg led w l) "an event that can happen";; w' ← log_happens noop cfg prior w l; log_run w' ls
  end.

Lemma log_run_reachable w ls w' :
  log_reachable noop cfg prior led w -> log_run w ls = Done w' -> log_reachable noop cfg prior led w'.
Proof.
  revert w. induction ls as [|l ls IH]; intros w Hw E; cbn in E; [by injection E as <-|].
  rinv E. eapply IH; [|done]. by eapply log_moves.
Qed.
End runs.

(** ** Witnesses *)

(** Node 1 leads and decides a command at slot 0 with node 2; node 3, which heard
    nothing of it, campaigns, recovers the command from node 2's promise and decides
    it again at its own ballot. *)
Definition log_b1 : Ballot := mkBallot 1 1.
Definition log_b3 : Ballot := mkBallot 2 3.
Definition ex_command : Command := Ctrl (SetLeader 1 None).

(** Every walk goes as far as it can, and no walk applies a truncation. *)
Definition walks (_ : Slot) : Advance := mkAdvance 3 None.

Definition ex_events : list (LogLabel Command) :=
  [ LCampaign 1 0; LStart 1 4 walks; LPrepare 2 log_b1 0 4 zero; LPromise 1 2 log_b1 0 (mkPage ∅ ∅ None) 4 walks;
    LPropose 1 ex_command None walks; LAccept 2 log_b1 0 ex_command zero walks;
    LAccepted 1 2 log_b1 0 (fingerprint ex_command) walks;
    LCampaign 3 1; LStart 3 4 walks; LPrepare 2 log_b3 0 4 log_b1;
    LPromise 3 2 log_b3 0 (mkPage {[ 0 := (log_b1, ex_command) ]} ∅ None) 4 walks;
    LAccept 2 log_b3 0 ex_command log_b3 walks; LAccepted 3 2 log_b3 0 (fingerprint ex_command) walks;
    LCommit 2 log_b3 0 ex_command walks ].

#[local] Instance every_ballot_dec b : Decision (every_ballot b).
Proof. unfold every_ballot. apply _. Defined.

Abbreviation ex_reachable := (log_reachable (Ctrl Noop) (plain_cfg ex_config) (plain_prior ex_config) every_ballot).
Definition ex_run : run (LogWorld Command) :=
  log_run (Ctrl Noop) (plain_cfg ex_config) (plain_prior ex_config) every_ballot log_init ex_events.
Definition ex_world : LogWorld Command := match ex_run with Done w => w | Panic _ => log_init end.

Lemma ex_world_reached : ex_reachable ex_world.
Proof.
  destruct ex_run as [w|msg] eqn:E; [|by vm_compute in E]. unfold ex_world. rewrite E.
  eapply log_run_reachable; [apply log_starts|exact E].
Qed.

Lemma log_agreement_witness :
  ex_reachable ex_world /\ chosen_at (plain_cfg ex_config) ex_world log_b1 0 ex_command /\
  chosen_at (plain_cfg ex_config) ex_world log_b3 0 ex_command /\
  forall v, chosen_at (plain_cfg ex_config) ex_world log_b3 0 v -> v = ex_command.
Proof.
  destruct (log_agreement (Ctrl Noop) (plain_cfg ex_config) (plain_prior ex_config) every_ballot
    (HC:=plain_configs ex_config ex_config_wf) ex_world ex_world_reached) as (Hagree & Hdec & _).
  assert (chosen_at (plain_cfg ex_config) ex_world log_b1 0 ex_command) as H1
    by (apply Hdec, (bool_decide_unpack _); by vm_compute).
  assert (chosen_at (plain_cfg ex_config) ex_world log_b3 0 ex_command) as H3
    by (apply Hdec, (bool_decide_unpack _); by vm_compute).
  split_and!; [apply ex_world_reached|done|done|]. intros v Hv. by eapply Hagree.
Defined.

(** A restart of node 2 that finds the record of slot 0 rotted. *)
Lemma log_never_panics_witness :
  exists w', log_happens (Ctrl Noop) (plain_cfg ex_config) (plain_prior ex_config) ex_world (LReboot 2 {[ 0 ]} 0) = Done w'.
Proof.
  apply (log_never_panics (Ctrl Noop) (plain_cfg ex_config) (plain_prior ex_config) every_ballot
    (HC:=plain_configs ex_config ex_config_wf) ex_world (LReboot 2 {[ 0 ]} 0) ex_world_reached).
  apply (bool_decide_unpack _). by vm_compute.
Defined.

Lemma log_prefix_sound_witness :
  exists b v, chosen_at (plain_cfg ex_config) ex_world b 0 v /\
    forall x, ln_chosen (lw_nodes ex_world 3) !! 0 = Some x -> x = v.
Proof.
  destruct (log_prefix_sound (Ctrl Noop) (plain_cfg ex_config) (plain_prior ex_config) every_ballot
    (HC:=plain_configs ex_config ex_config_wf) ex_world 3 0 ex_world_reached) as [Hpre _].
  destruct Hpre as (b & v & Hc & Hheld); [by vm_compute|]. exists b, v. split; [done|]. apply Hheld. by vm_compute.
Defined.
