(* ===== verification/LogMatch.v ===== *)
(** * The log over matchmaking

    The campaigns of a journal that completed at one matchmaker set, before any
    collection, run the log with what matchmaking gave them: their registered
    configurations, and the [H_b] their Phase 1 opened with.  Matchmaking's promise
    discharges the interface the log is proved against, so the log agrees across
    reconfigurations. *)

From stdpp Require Import functions.
From S2P Require Import Prelude BTree Types Retained Journal Contract Acceptor PromisePage QuorumSystem AcceptorConfig Rounds Tally Leadership Proposer Election MatchmakerSet MatchmakerState Matchmaking MatchSystem LogWorld LogInv LogSystem.

Section matched.
Context (reg : JournalId -> Ballot -> Registration) (pool : list NodeId) (Hpool : sorted_members pool).
Context (wm : World) (Hwm : match_reachable reg pool wm) (j : JournalId) (s : MatchmakerSet).
Context (Hreg : forall b, config_wf (rg_config (reg j b))).

(** The campaigns that completed at [s] with no configuration collected. *)
Definition match_led (b : Ballot) : Prop :=
  exists k floor honored prior, w_camps wm !! (j, b) = Some (mkCandidacy s (Leading k floor honored prior zero)).
Definition match_cfg (b : Ballot) : AcceptorConfig NodeId := rg_config (reg j b).
Definition match_prior (b : Ballot) : list (AcceptorConfig NodeId) :=
  match w_camps wm !! (j, b) with Some (mkCandidacy _ (Leading _ _ _ prior _)) => prior | _ => [] end.

#[export] Instance matched_configs : LogConfigs match_cfg match_prior match_led.
Proof using All.
  constructor.
  - intros b _. apply Hreg.
  - intros b (k & f & h & p & E). unfold match_prior. rewrite E. apply Forall_forall. intros c Hc.
    destruct (leading_prior reg pool Hpool wm j b b s k f h p zero k f h p zero Hwm E E) as [_ Hp].
    destruct (Hp c Hc) as [b1 ->]. apply Hreg.
  - intros b (k & f & h & p & E). unfold match_prior. rewrite E. by eapply (leading_prior_once reg pool Hpool wm j b s).
  - intros b b' (k & f & h & p & E) (k' & f' & h' & p' & E') Hlt. unfold match_prior. rewrite E.
    destruct (leading_prior reg pool Hpool wm j b' b s k' f' h' p' zero k f h p zero Hwm E' E) as [Hc _].
    destruct (Hc Hlt) as [?|Hz]; [done|]. exfalso. apply Hz, zero_le.
Qed.
End matched.

(** C7: the log agrees across reconfigurations.  Take any reachable state of the
    matchmaking system and any set of matchmakers: with the campaigns that completed
    there running the log under their own registered configurations and covering the
    prior configurations matchmaking returned to them, no two chosen values of a slot
    differ, whichever configurations chose them, as long as nothing was collected. *)
Theorem log_over_matchmaking {V} `{!EqDecision V, !Fingerprint V, !FromWrite V WriteOp} (noop : V)
  reg pool wm j set (w : LogWorld V) b1 b2 s v1 v2 :
  sorted_members pool -> match_reachable reg pool wm -> (forall b, config_wf (rg_config (reg j b))) ->
  log_reachable noop (match_cfg reg j) (match_prior wm j) (match_led wm j set) w ->
  chosen_at (match_cfg reg j) w b1 s v1 -> chosen_at (match_cfg reg j) w b2 s v2 -> v1 = v2.
Proof.
  intros Hpool Hwm Hreg Hw. pose proof (matched_configs reg pool Hpool wm Hwm j set Hreg) as HC.
  apply (log_reachable_inv noop _ _ _) in Hw. by eapply log_chosen_agree.
Qed.

(** ** Witness *)

#[local] Instance match_led_dec wm j s b : Decision (match_led wm j s b).
Proof.
  unfold match_led. destruct (w_camps wm !! (j, b)) as [[s' [k| |k f h p z]]|]; cycle 2.
  - destruct (decide (s' = s /\ z = zero)) as [[-> ->]|Hne]; [left; by exists k, f, h, p|].
    right. intros (k' & f' & h' & p' & E). injection E as -> _ _ _ _ ->. by destruct Hne.
  - right. intros (k' & f' & h' & p' & E). done.
  - right. intros (k' & f' & h' & p' & E). done.
  - right. intros (k' & f' & h' & p' & E). done.
Defined.

Definition demo_world : World := match demo_end with Done w => w | Panic _ => demo_start end.

Lemma demo_world_reached : match_reachable demo_reg demo_pool demo_world.
Proof.
  destruct demo_end as [w|msg] eqn:E; [|by vm_compute in E]. unfold demo_world. rewrite E.
  eapply play_reachable; [apply demo_set_wf|apply reach_initial, demo_initial|exact E].
Qed.

Lemma demo_reg_wf b : config_wf (rg_config (demo_reg 0 b)).
Proof.
  assert (config_wf (demo_config [0; 1]) /\ config_wf (demo_config [0; 1; 2])) as [H2 H3].
  { split; constructor; try (apply (bool_decide_unpack _); by vm_compute); by left. }
  unfold demo_reg. repeat case_decide; done.
Qed.

(** The first leader runs under three nodes and decides with two of them; the
    reconfiguration's leader covers that configuration, recovers the command and
    decides it under two nodes. *)
Definition demo_b1 : Ballot := mkBallot 1 0.
Definition demo_b2 : Ballot := mkBallot 2 1.
Definition demo_events : list (LogLabel Command) :=
  [ LCampaign 0 0; LStart 0 4 walks; LPropose 0 ex_command None walks; LAccept 2 demo_b1 0 ex_command zero walks;
    LAccepted 0 2 demo_b1 0 (fingerprint ex_command) walks;
    LCampaign 1 1; LStart 1 4 walks; LPrepare 2 demo_b2 0 4 demo_b1;
    LPromise 1 2 demo_b2 0 (Acceptor.mkPage {[ 0 := (demo_b1, ex_command) ]} ∅ None) 4 walks;
    LAccept 0 demo_b2 0 ex_command demo_b1 walks; LAccepted 1 0 demo_b2 0 (fingerprint ex_command) walks ].
Definition demo_run : run (LogWorld Command) :=
  log_run (Ctrl Noop) (match_cfg demo_reg 0) (match_prior demo_world 0) (match_led demo_world 0 demo_set) log_init demo_events.
Definition demo_log : LogWorld Command := match demo_run with Done w => w | Panic _ => log_init end.

Lemma demo_log_reached :
  log_reachable (Ctrl Noop) (match_cfg demo_reg 0) (match_prior demo_world 0) (match_led demo_world 0 demo_set) demo_log.
Proof.
  destruct demo_run as [w|msg] eqn:E; [|by vm_compute in E]. unfold demo_log. rewrite E.
  eapply log_run_reachable; [apply log_starts|exact E].
Qed.

Lemma log_over_matchmaking_witness :
  match_cfg demo_reg 0 demo_b1 <> match_cfg demo_reg 0 demo_b2 /\
  chosen_at (match_cfg demo_reg 0) demo_log demo_b1 0 ex_command /\
  forall v, chosen_at (match_cfg demo_reg 0) demo_log demo_b2 0 v -> v = ex_command.
Proof.
  assert (chosen_at (match_cfg demo_reg 0) demo_log demo_b1 0 ex_command) as H1.
  { pose proof (matched_configs demo_reg demo_pool demo_pool_sorted demo_world demo_world_reached 0 demo_set demo_reg_wf) as HC.
    apply (decided_chosen _ (match_prior demo_world 0) (match_led demo_world 0 demo_set)); [exact (log_reachable_inv (Ctrl Noop) _ _ _ _ demo_log_reached)|]. apply (bool_decide_unpack _). by vm_compute. }
  split_and!; [by vm_compute|done|]. intros v Hv. symmetry.
  exact (log_over_matchmaking (Ctrl Noop) demo_reg demo_pool demo_world 0 demo_set demo_log demo_b1 demo_b2 0 ex_command v
    demo_pool_sorted demo_world_reached demo_reg_wf demo_log_reached H1 Hv).
Defined.
