(* ===== verification/Replica.v ===== *)
(** * The replica ([paros-core/src/replica.rs])

    The chosen log of one journal, the contiguous walk over it, and the journal
    state machine folded over the walk: every operation of [Replica] with its
    assertions.  [ReplicaInv] relates it to the fold of the whole decided log. *)

From S2P Require Import Prelude BTree Types Journal Contract.

(** The entry a batch of applied slots carries. *)
Abbreviation Applied := (Slot * Ballot * Command * Outcome)%type (only parsing).

Record Replica := mkReplica {
  rep_chosen : gmap Slot Command;
  rep_chosen_index : option Slot;
  rep_advance_pending : bool;
  rep_floor : Slot;
  rep_base : JournalState;
  rep_folded : Slot;
  rep_state : JournalState;
  rep_history : gmap Slot JournalState;
  rep_outcomes : gmap Slot Outcome;
  rep_positions : gmap Seq Slot;
  rep_truncate_due : bool;
  rep_compaction_due : bool;
  rep_committed : list Applied;
  rep_mode : WriterMode;
  rep_apply_page : N }.

#[export] Instance Outcome_eq_dec : EqDecision Outcome.
Proof. solve_decision. Defined.

Record LogPage := mkLogPage { lp_from : Seq; lp_records : list bytes; lp_state : JournalView }.

Inductive LogRead :=
| RTruncated (v : JournalView)
| RPage (p : LogPage)
| RNotHeld.

(** [LogPage::next]. *)
Definition page_next (p : LogPage) : run Seq :=
  rassert (lp_from p + len (lp_records p) <= u64_max) "a page ends inside the position space";;
  let next := lp_from p + len (lp_records p) in
  rassert (lp_from p <= next) "a page never ends before it starts";;
  mret next.

(** The last entry of a map at or below a key: [range(..=k).next_back()]. *)
Definition last_at_most {V} (k : N) (m : gmap N V) : option (N * V) :=
  last (filter (fun e => e.1 <= k) (bt_entries m)).
(** The last entry strictly below a key: [range(..k).next_back()]. *)
Definition last_below {V} (k : N) (m : gmap N V) : option (N * V) :=
  last (filter (fun e => e.1 < k) (bt_entries m)).
(** [last_key_value()]. *)
Definition last_entry {V} (m : gmap N V) : option (N * V) := last (bt_entries m).
Definition first_entry {V} (m : gmap N V) : option (N * V) := head (bt_entries m).

Implicit Types (r : Replica) (s : Slot) (command : Command).

(** Field updates. *)
Definition with_chosen r (chosen : gmap Slot Command) : Replica :=
  mkReplica chosen (rep_chosen_index r) (rep_advance_pending r) (rep_floor r) (rep_base r) (rep_folded r)
    (rep_state r) (rep_history r) (rep_outcomes r) (rep_positions r) (rep_truncate_due r)
    (rep_compaction_due r) (rep_committed r) (rep_mode r) (rep_apply_page r).
Definition with_index r (index : option Slot) : Replica :=
  mkReplica (rep_chosen r) index (rep_advance_pending r) (rep_floor r) (rep_base r) (rep_folded r)
    (rep_state r) (rep_history r) (rep_outcomes r) (rep_positions r) (rep_truncate_due r)
    (rep_compaction_due r) (rep_committed r) (rep_mode r) (rep_apply_page r).
Definition with_deferred r (pending : bool) : Replica :=
  mkReplica (rep_chosen r) (rep_chosen_index r) pending (rep_floor r) (rep_base r) (rep_folded r)
    (rep_state r) (rep_history r) (rep_outcomes r) (rep_positions r) (rep_truncate_due r)
    (rep_compaction_due r) (rep_committed r) (rep_mode r) (rep_apply_page r).
(** What a fold step or a jump moves: the fold's head and its indexes. *)
Definition with_fold r (folded : Slot) (state : JournalState) (history : gmap Slot JournalState)
  (outcomes : gmap Slot Outcome) (positions : gmap Seq Slot) (truncate_due : bool) : Replica :=
  mkReplica (rep_chosen r) (rep_chosen_index r) (rep_advance_pending r) (rep_floor r) (rep_base r) folded
    state history outcomes positions truncate_due
    (rep_compaction_due r) (rep_committed r) (rep_mode r) (rep_apply_page r).
Definition with_due r (truncate_due compaction_due : bool) : Replica :=
  mkReplica (rep_chosen r) (rep_chosen_index r) (rep_advance_pending r) (rep_floor r) (rep_base r) (rep_folded r)
    (rep_state r) (rep_history r) (rep_outcomes r) (rep_positions r) truncate_due
    compaction_due (rep_committed r) (rep_mode r) (rep_apply_page r).
Definition with_committed r (committed : list Applied) : Replica :=
  mkReplica (rep_chosen r) (rep_chosen_index r) (rep_advance_pending r) (rep_floor r) (rep_base r) (rep_folded r)
    (rep_state r) (rep_history r) (rep_outcomes r) (rep_positions r) (rep_truncate_due r)
    (rep_compaction_due r) committed (rep_mode r) (rep_apply_page r).
Definition with_page r (page : N) : Replica :=
  mkReplica (rep_chosen r) (rep_chosen_index r) (rep_advance_pending r) (rep_floor r) (rep_base r) (rep_folded r)
    (rep_state r) (rep_history r) (rep_outcomes r) (rep_positions r) (rep_truncate_due r)
    (rep_compaction_due r) (rep_committed r) (rep_mode r) page.

(** ** Reads *)

Definition first_unchosen r : run Slot :=
  match rep_chosen_index r with
  | Some s =>
      rassert (s < u64_max) "the chosen index never reaches the end of the slots";;
      mret (s + 1)
  | None => mret 0
  end.

Definition replica_chosen_index r : run (option Slot) :=
  end_ ← first_unchosen r;
  rassert (rep_folded r <= end_) "the fold lies inside the chosen prefix";;
  rassert (rep_floor r <= end_) "the floor lies inside the chosen prefix";;
  mret (rep_chosen_index r).

Definition replica_covers r (index : option Slot) : run bool :=
  let covered := bool_decide (is_none_or (fun i => i < rep_folded r) index) in
  match index with
  | Some i =>
      if covered then
        rassert (is_some_and (fun ci => i <= ci) (rep_chosen_index r))
          "a covered index lies inside the chosen prefix"
      else mret tt
  | None => mret tt
  end;;
  mret covered.

Definition replica_chosen r : run (gmap Slot Command) :=
  rassert (is_none_or (fun s => rep_floor r <= s) (first_key_of (rep_chosen r)))
    "no chosen value survives below the floor";;
  mret (rep_chosen r).

Definition is_chosen r s : run bool :=
  let chosen := bool_decide (is_Some (rep_chosen r !! s)) in
  (if chosen then rassert (rep_floor r <= s) "a held chosen slot is retained" else mret tt);;
  mret chosen.

Definition replica_chosen_at r s : run (option Command) :=
  (if decide (is_Some (rep_chosen r !! s)) then rassert (rep_floor r <= s) "a held chosen slot is retained"
   else mret tt);;
  mret (rep_chosen r !! s).

Definition replica_journal r : run JournalState :=
  rassert (j_next_seq (rep_base r) <= j_next_seq (rep_state r)) "the fold's head is past its base";;
  rassert (j_first_seq (rep_state r) <= j_next_seq (rep_state r)) "the head's positions are ordered";;
  mret (rep_state r).

Definition journal_base r : run JournalState :=
  rassert (j_first_seq (rep_base r) <= j_first_seq (rep_state r)) "the base lies behind the head";;
  mret (rep_base r).

Definition replica_folded r : run Slot :=
  rassert (rep_floor r <= rep_folded r) "the fold starts at the floor";;
  end_ ← first_unchosen r;
  rassert (rep_folded r <= end_) "the fold lies inside the chosen prefix";;
  mret (rep_folded r).

Definition fold_hole r : run (option Slot) :=
  end_ ← first_unchosen r;
  if decide (rep_folded r < end_) then
    let hole := rep_folded r in
    rassert (rep_chosen r !! hole = None) "a fold hole is a slot not held";;
    rassert (rep_floor r <= hole) "a fold hole lies at or above the floor";;
    rassert (hole < end_) "a fold hole lies below the first unchosen slot";;
    mret (Some hole)
  else mret None.

Definition outcome_at r s : run (option Outcome) :=
  let outcome := rep_outcomes r !! s in
  (if decide (is_Some outcome) then
     rassert (s < rep_folded r) "only a folded slot has an outcome";;
     rassert (rep_floor r <= s) "only a retained slot has an outcome"
   else mret tt);;
  mret outcome.

(** The slots of applied entries, and consecutive pairs of them ([windows(2)]). *)
Definition applied_slot (e : Applied) : Slot := e.1.1.1.
Definition windows2 (l : list Slot) : list (Slot * Slot) := zip l (tail l).

Definition replica_committed r : run (list Applied) :=
  rassert (Forall (fun pair : Slot * Slot => pair.1 < pair.2) (windows2 (applied_slot <$> rep_committed r)))
    "a batch's applied entries ascend by slot";;
  match last (rep_committed r) with
  | None => mret tt
  | Some e =>
      end_ ← first_unchosen r;
      rassert (applied_slot e < end_) "an applied entry lies inside the chosen prefix"
  end;;
  mret (rep_committed r).

Definition clear_committed r : run Replica :=
  let r := with_committed r [] in
  rassert (rep_committed r = []) "a consumed batch leaves nothing applied";;
  mret r.

Definition chosen_gap r : run (option (Slot * Slot)) :=
  hole ← first_unchosen r;
  match last (bt_range_from hole (rep_chosen r)) with
  | None => mret None
  | Some (highest, _) =>
      rassert (hole <= highest) "a gap's highest chosen slot lies at or past its hole";;
      mret (Some (hole, highest))
  end.

(** The write indexed at a position, and [accepted_at] with its read-back. *)
Definition indexed_write r (seq : Seq) : option Entry :=
  slot ← rep_positions r !! seq; command ← rep_chosen r !! slot; command_write command.

Definition accepted_at r (seq : Seq) : run (option Entry) :=
  match indexed_write r seq, rep_mode r with
  | Some entry, Single => rassert (e_seq entry = seq) "an indexed write starts at its position"
  | _, _ => mret tt
  end;;
  mret (indexed_write r seq).

Definition state_at r s : run JournalState :=
  rassert (rep_floor r <= s) "the journal state is asked at a retained slot";;
  rassert (s <= rep_folded r) "the journal state is asked at a folded slot";;
  mret (match last_below s (rep_history r) with Some e => e.2 | None => rep_base r end).

Definition slot_holding r (position : Seq) : run Slot :=
  if decide (j_next_seq (rep_state r) <= position) then mret (rep_folded r) else
  match last_at_most position (rep_positions r) with
  | None =>
      rassert (position < j_next_seq (rep_base r)) "a record the index lacks lies below the floor";;
      mret (rep_floor r)
  | Some (start, slot) =>
      entry ← rexpect (rep_chosen r !! slot ≫= command_write) "an indexed write is a retained chosen write";
      rassert (start <= position) "a retained record lies at or past its write's start";;
      end_ ← u64_add start (count entry);
      rassert (position < end_) "a retained record lies inside the write indexed below it";;
      rassert (slot < rep_folded r) "a record's write is a folded slot";;
      mret (N.max slot (rep_floor r))
  end.

(** The position a retained single-writer retry was judged against. *)
Definition retained_retry r (slot : Slot) command : run (option Seq) :=
  if decide (rep_mode r = Multi) then mret None else
  match command_write command with
  | None => mret None
  | Some entry =>
      st ← state_at r slot;
      mret (if decide (j_first_seq st <= e_seq entry < j_next_seq st) then Some (e_seq entry) else None)
  end.

(** One round of [compaction_target]'s loop: the lowest slot a retry at or above
    [first] needs. *)
Definition needed_step r (lowest : option Slot) (e : Slot * Command) : run (option Slot) :=
  retry ← retained_retry r e.1 e.2;
  match retry with
  | None => mret lowest
  | Some seq =>
      held ← slot_holding r seq;
      mret (Some (match lowest with Some l => N.min l held | None => held end))
  end.

Definition needed_floor r (first : Slot) : run Slot :=
  retained ← bt_range first (rep_folded r) (rep_chosen r);
  lowest ← foldM (needed_step r) None retained;
  mret (default first lowest).

(** The loop, on fuel: each round lowers [first], which stays at or above the
    floor ([compaction_loop_ok]). *)
Fixpoint compaction_loop (fuel : nat) r (first : Slot) : run Slot :=
  match fuel with
  | O => Panic "compaction_target: out of fuel"
  | S fuel =>
      needed ← needed_floor r first;
      if decide (first <= needed) then mret first else compaction_loop fuel r needed
  end.

Definition compaction_target r : run (option Slot) :=
  first ← slot_holding r (j_first_seq (rep_state r));
  first ← compaction_loop (S (N.to_nat (first - rep_floor r))) r first;
  rassert (rep_floor r <= first) "a compaction floor lies at or above the floor";;
  rassert (first <= rep_folded r) "a compaction floor lies at or below the fold";;
  mret (u64_checked_sub first 1).

(** The records of one write [read] copies: up to the limits, and whether one of
    them stopped the page. *)
Fixpoint copy_records (limit max_bytes : N) (page : list bytes) (size : N) (at_ : Seq) (records : list bytes)
  : run (list bytes * N * Seq * bool) :=
  match records with
  | [] => mret (page, size, at_, false)
  | record :: rest =>
      if decide (limit <= len page \/ (page <> [] /\ max_bytes < usize_saturating_add size (len record)))
      then mret (page, size, at_, true)
      else
        next ← u64_add at_ 1;
        copy_records limit max_bytes (page ++ [record]) (usize_saturating_add size (len record)) next rest
  end.

(** The writes a page is read from, on fuel: each round copies a record or stops
    ([read_loop_ok]). *)
Fixpoint read_loop (fuel : nat) r (limit max_bytes : N) (page : list bytes) (size : N) (at_ : Seq)
  : run (list bytes * N) :=
  match fuel with
  | O => Panic "read: out of fuel"
  | S fuel =>
      if decide (at_ < j_next_seq (rep_state r) /\ len page < limit) then
        '(start, slot) ← rexpect (last_at_most at_ (rep_positions r))
                           "every position below next_seq lies in a retained write";
        entry ← rexpect (rep_chosen r !! slot ≫= command_write) "an indexed write is a retained chosen write";
        let offset := at_ - start in
        rassert (offset < len (e_records entry)) "a position below next_seq lies inside the write indexed below it";;
        '(page, size, at_, stopped) ← copy_records limit max_bytes page size at_
                                        (drop (N.to_nat offset) (e_records entry));
        if stopped : bool then mret (page, size) else read_loop fuel r limit max_bytes page size at_
      else mret (page, size)
  end.

Definition replica_read r (from : Seq) (limit max_bytes : N) : run LogRead :=
  let state := view (rep_state r) in
  if decide (from < v_first_seq state) then mret (RTruncated state) else
  if decide (from < j_next_seq (rep_base r)) then
    rassert (from < v_next_seq state) "a position below the base's end lies below the journal's end";;
    mret RNotHeld
  else
  '(records, size) ← read_loop (S (N.to_nat (v_next_seq state - from))) r limit max_bytes [] 0 from;
  let page := mkLogPage from records state in
  (if decide (from < v_next_seq state) then
     next ← page_next page;
     rassert (next <= v_next_seq state) "a read page ends at or below the journal's next position"
   else rassert (records = []) "a read at the end returns no record");;
  rassert (len records <= limit) "a read page honours its record limit";;
  (if decide (1 < len records) then rassert (size <= max_bytes) "a read page honours its byte budget"
   else mret tt);;
  mret (RPage page).

Definition set_apply_page r (page : N) : run Replica :=
  rassert (0 < page) "an apply page releases at least one slot";;
  rassert (page <= APPLY_BATCH) "an apply page never exceeds its ceiling";;
  let r := with_page r page in
  rassert (rep_apply_page r = page) "the apply page is in force";;
  mret r.

(** ** The fold *)

(** The position [apply] looks up: a single-writer write inside the journal. *)
Definition retry_of (mode : WriterMode) (st : JournalState) command : option Seq :=
  match mode, command with
  | Single, Write e =>
      if decide (is_set (e_leader e) /\ j_first_seq st <= e_seq e < j_next_seq st) then Some (e_seq e) else None
  | _, _ => None
  end.

(** Whether an accepted write is the outcome, and where. *)
Definition accepted_write command (outcome : Outcome) : option Seq :=
  match command, outcome with Write _, OAccepted seq _ => Some seq | _, _ => None end.
Definition is_trimmed (outcome : Outcome) : bool := match outcome with OTrimmed _ => true | _ => false end.

Definition fold_one r s command : run (Replica * Outcome) :=
  rassert (s = rep_folded r) "the journal fold advances one slot at a time";;
  let before := rep_state r in
  match retry_of (rep_mode r) before command with
  | Some seq => _ ← accepted_at r seq; mret tt
  | None => mret tt
  end;;
  '(state, outcome) ← apply before (rep_mode r) command (indexed_write r);
  positions ← match accepted_write command outcome with
              | Some seq =>
                  rassert (is_none_or (fun e : Seq * Slot => e.1 < seq) (last_entry (rep_positions r)))
                    "the positions index grows at its last position";;
                  rassert (is_none_or (fun e : Seq * Slot => e.2 < s) (last_entry (rep_positions r)))
                    "the positions index grows at its last slot";;
                  mret (<[seq := s]> (rep_positions r))
              | None => mret (rep_positions r)
              end;
  let truncate_due := is_trimmed outcome || rep_truncate_due r in
  let history := if decide (state <> before) then <[s := state]> (rep_history r) else rep_history r in
  let outcomes := if decide (outcome <> ONoop) then <[s := outcome]> (rep_outcomes r) else rep_outcomes r in
  folded ← u64_add s 1;
  let r := with_fold r folded state history outcomes positions truncate_due in
  match outcome with
  | OAccepted seq _ => rassert (rep_positions r !! seq = Some s) "an accepted write is indexed"
  | _ => mret tt
  end;;
  rassert (s < rep_folded r) "the fold moves past the slot it folded";;
  read_back ← outcome_at r s;
  rassert (read_back = if decide (outcome <> ONoop) then Some outcome else None)
    "a folded verdict reads back as its slot's outcome";;
  mret (r, outcome).

(** The fold below [end_], on fuel: one slot a round. *)
Fixpoint refold_loop (fuel : nat) r (end_ : Slot) : run Replica :=
  match fuel with
  | O => mret r
  | S fuel =>
      if decide (rep_folded r < end_) then
        match rep_chosen r !! rep_folded r with
        | None => mret r
        | Some command => '(r, _) ← fold_one r (rep_folded r) command; refold_loop fuel r end_
        end
      else mret r
  end.

Definition refold r : run Replica :=
  end_ ← first_unchosen r;
  r ← refold_loop (N.to_nat (end_ - rep_folded r)) r end_;
  rassert (rep_folded r <= end_) "a refold never passes the chosen prefix";;
  (if decide (rep_folded r < end_) then
     rassert (rep_chosen r !! rep_folded r = None) "a refold stops only at a hole" else mret tt);;
  mret r.

(** ** Learning and the walk *)

Definition replica_learn r s command : run Replica :=
  rassert (rep_chosen r !! s = None) "a slot is learned chosen once";;
  rassert (rep_folded r <= s) "a folded slot is never relearned";;
  let folded := rep_folded r in
  let r := with_chosen r (<[s := command]> (rep_chosen r)) in
  r ← (if decide (s = rep_folded r) then
         end_ ← first_unchosen r;
         if decide (s < end_) then refold r else mret r
       else mret r);
  rassert (is_Some (rep_chosen r !! s)) "a learned slot is held chosen";;
  rassert (folded <= rep_folded r) "learning never moves the fold back";;
  mret r.

(** One round of the walk per unit of the page. *)
Fixpoint walk_loop (page : nat) (record_ballot : Slot -> Command -> option Ballot) r (next : Slot)
  (writes : list WriteOp) : run (Replica * list WriteOp * nat) :=
  match page with
  | O => mret (r, writes, O)
  | S page =>
      match rep_chosen r !! next with
      | None => mret (r, writes, O)
      | Some command =>
          end_ ← first_unchosen r;
          rassert (next = end_) "the chosen prefix advances one slot at a time";;
          ballot ← rexpect (record_ballot next command)
                     "an applied slot's accepted record carries the applied command";
          let r := with_index r (Some next) in
          let writes := writes ++ [WSetChosenIndex next] in
          '(r, outcome) ← fold_one r next command;
          let r := with_committed r (rep_committed r ++ [(next, ballot, command, outcome)]) in
          next ← u64_add next 1;
          '(r, writes, advanced) ← walk_loop page record_ballot r next writes;
          mret (r, writes, S advanced)
      end
  end.

Definition replica_advance r (record_ballot : Slot -> Command -> option Ballot) (writes : list WriteOp)
  : run (Replica * list WriteOp * option Slot) :=
  let chosen_before := rep_chosen_index r in
  let writes_before := len writes in
  r ← refold r;
  end_ ← first_unchosen r;
  '(r, writes) ←
    (if decide (rep_folded r = end_) then
       '(r, writes, advanced) ← walk_loop (N.to_nat (rep_apply_page r)) record_ballot r end_ writes;
       end_ ← first_unchosen r;
       rassert (N.of_nat advanced = rep_apply_page r \/ rep_chosen r !! end_ = None)
         "the walk consumes or bounds the contiguous chosen prefix";;
       mret (r, writes)
     else mret (r, writes));
  end_ ← first_unchosen r;
  let r := with_deferred r (bool_decide (is_Some (rep_chosen r !! end_))) in
  rassert (ord_le chosen_before (rep_chosen_index r)) "the chosen index never decreases";;
  rassert (len writes - writes_before <= rep_apply_page r) "one walk writes one bounded batch";;
  let r := with_due r false (rep_truncate_due r) in
  target ← (if rep_compaction_due r then compaction_target r else mret None);
  mret (r, writes, target).

(** The positions the floor slot's own write holds. *)
Definition held_at_floor r : run (Seq * Seq) :=
  match rep_outcomes r !! rep_floor r with
  | Some (OAccepted seq n) => end_ ← u64_add seq n; mret (seq, end_)
  | _ => mret (0, 0)
  end.
Definition at_floor r (held : Seq * Seq) (position : Seq) : Prop :=
  position < j_next_seq (rep_base r) \/ held.1 <= position < held.2.
#[export] Instance at_floor_dec r held position : Decision (at_floor r held position).
Proof. unfold at_floor. apply _. Defined.

Definition compacted_step r (held : Seq * Seq) (pinned : bool) (e : Slot * Command) : run bool :=
  match command_write e.2 with
  | None => mret pinned
  | Some entry =>
      st ← state_at r e.1;
      if decide (e_seq entry < j_first_seq st \/ j_next_seq st <= e_seq entry) then mret pinned else
      rassert (j_next_seq (rep_base r) <= e_seq entry) "a compaction keeps every record a retained retry reads";;
      mret (pinned || bool_decide (at_floor r held (e_seq entry)))
  end.

Definition assert_compacted r : run Replica :=
  let due := rep_compaction_due r in
  let r := with_due r (rep_truncate_due r) false in
  if negb due then mret r else
  rassert (rep_floor r <= rep_folded r) "a judged compaction lies at or below the fold";;
  held ← held_at_floor r;
  let pinned := bool_decide (rep_floor r = rep_folded r \/
    (j_first_seq (rep_state r) < j_next_seq (rep_state r) /\ at_floor r held (j_first_seq (rep_state r)))) in
  pinned ← (if decide (rep_mode r = Single) then
              retained ← bt_range (rep_floor r) (rep_folded r) (rep_chosen r);
              foldM (compacted_step r held) pinned retained
            else mret pinned);
  rassert (pinned = true) "a compaction leaves a needed slot at the floor";;
  mret r.

(** ** Prefix drops *)

Definition replica_drop_prefix r (first : Slot) (base : JournalState) : run Replica :=
  rassert (rep_floor r <= first) "the retention floor never moves backward";;
  rassert (first <= rep_folded r) "a prefix drop never passes the fold";;
  journal_assert_invariants base;;
  let r := mkReplica (bt_split_off first (rep_chosen r)) (rep_chosen_index r) (rep_advance_pending r) first base
             (rep_folded r) (rep_state r) (bt_split_off first (rep_history r)) (bt_split_off first (rep_outcomes r))
             (filter (fun e => first <= e.2) (rep_positions r)) (rep_truncate_due r) (rep_compaction_due r)
             (rep_committed r) (rep_mode r) (rep_apply_page r) in
  rassert (is_none_or (fun s => first <= s) (first_key_of (rep_chosen r)))
    "no chosen value survives below the floor";;
  rassert (Forall (fun e : Seq * Slot => first <= e.2) (bt_entries (rep_positions r)))
    "no position survives below the floor";;
  rassert (is_none_or (fun s => first <= s) (first_key_of (rep_outcomes r)))
    "no outcome survives below the floor";;
  mret r.

Definition replica_truncate r (first : Slot) : run (Replica * JournalState) :=
  target ← compaction_target r;
  limit ← match target with Some t => n ← u64_add t 1; mret (Some n) | None => mret None end;
  rassert (is_some_and (fun n => first <= n) limit) "a truncation never drops a retained record";;
  base ← state_at r first;
  rassert (j_next_seq base <= j_first_seq (rep_state r)) "a truncation drops no record at or past first_seq";;
  let chosen_index := rep_chosen_index r in
  r ← replica_drop_prefix r first base;
  end_ ← first_unchosen r;
  let r := with_deferred r (bool_decide (is_Some (rep_chosen r !! end_))) in
  rassert (rep_floor r = first) "a truncation lands the floor on its slot";;
  rassert (rep_chosen_index r = chosen_index) "a truncation never moves the chosen index";;
  mret (r, base).

Definition replica_trim_to r (point : Slot) (sealed : JournalState) : run (Replica * JournalState) :=
  rassert (0 < point) "a trim point has a chosen slot below it";;
  let boundary := point - 1 in
  let r := if decide (is_none_or (fun ci => ci < boundary) (rep_chosen_index r))
           then with_index r (Some boundary) else r in
  '(r, base) ←
    (if decide (point <= rep_folded r) then base ← state_at r point; mret (r, base)
     else mret (with_fold r point sealed ∅ ∅ ∅ (rep_truncate_due r), sealed));
  r ← replica_drop_prefix r point base;
  r ← refold r;
  end_ ← first_unchosen r;
  let r := with_deferred r (bool_decide (is_Some (rep_chosen r !! end_))) in
  rassert (is_some_and (fun ci => boundary <= ci) (rep_chosen_index r))
    "a trim jump covers the boundary with the chosen index";;
  rassert (point <= rep_folded r) "a trim jump folds past its point";;
  rassert (rep_floor r = point) "a trim jump lands the floor on its point";;
  mret (r, base).

(** ** Boot *)

Definition replica_from_boot (mode : WriterMode) (chosen_index : option Slot) (floor : Slot)
  (sealed : JournalState) (records : gmap Slot (Ballot * Command)) : run Replica :=
  let chosen := snd <$> filter (fun e : Slot * (Ballot * Command) => is_some_and (fun ci => e.1 <= ci) chosen_index) records in
  let r := mkReplica chosen chosen_index false floor sealed floor sealed ∅ ∅ ∅ false false [] mode APPLY_BATCH in
  r ← refold r;
  let r := with_due r false (rep_compaction_due r) in
  rassert (ord_le (last_key_of (rep_chosen r)) chosen_index)
    "a boot rebuild holds no chosen slot past the chosen index";;
  rassert (floor <= rep_folded r) "a boot fold starts at the sealed floor";;
  end_ ← first_unchosen r;
  rassert (rep_folded r <= end_) "a boot fold never passes the chosen prefix";;
  rassert (rep_committed r = []) "a boot rebuild surfaces nothing";;
  mret r.

(** ** The invariants it asserts *)

Definition replica_assert_invariants r (floor : Slot) : run unit :=
  rassert (0 < rep_apply_page r) "an apply page is never empty";;
  rassert (rep_apply_page r <= APPLY_BATCH) "an apply page never exceeds its ceiling";;
  end_ ← first_unchosen r;
  (if decide (is_Some (rep_chosen r !! end_)) then
     rassert (rep_advance_pending r = true) "a chosen first-unchosen slot has a deferred prefix continuation"
   else mret tt);;
  (if rep_advance_pending r then
     rassert (is_Some (rep_chosen r !! end_)) "a deferred prefix continuation names a chosen first-unchosen slot"
   else mret tt);;
  rassert (is_none_or (fun s => floor <= s) (first_key_of (rep_chosen r)))
    "no chosen record survives below the compaction floor";;
  rassert (rep_floor r = floor) "the journal fold's base sits at the compaction floor";;
  rassert (rep_floor r <= rep_folded r) "the journal fold lies at or above the floor";;
  rassert (rep_folded r <= end_) "the journal fold lies at or below the first unchosen slot";;
  (if decide (rep_folded r < end_) then
     rassert (rep_chosen r !! rep_folded r = None) "the journal fold stops only at a slot it does not hold"
   else mret tt);;
  rassert (is_none_or (fun s => floor <= s) (first_key_of (rep_outcomes r)))
    "no folded outcome survives below the floor";;
  rassert (is_none_or (fun s => floor <= s) (first_key_of (rep_history r)))
    "no folded state survives below the floor";;
  rassert (is_none_or (fun s => s < rep_folded r) (last_key_of (rep_outcomes r)))
    "every folded outcome lies below the fold's head";;
  rassert (is_none_or (fun s => s < rep_folded r) (last_key_of (rep_history r)))
    "every folded state lies below the fold's head";;
  journal_assert_invariants (rep_base r);;
  journal_assert_invariants (rep_state r);;
  rassert (j_next_seq (rep_base r) <= j_next_seq (rep_state r))
    "the fold's head never lies behind its base: next_seq";;
  rassert (j_first_seq (rep_base r) <= j_first_seq (rep_state r))
    "the fold's head never lies behind its base: first_seq";;
  rassert (j_term (rep_base r) <= j_term (rep_state r)) "the fold's head never lies behind its base: term";;
  rassert (is_none_or (fun e : Seq * Slot => rep_floor r <= e.2) (first_entry (rep_positions r)))
    "the positions index lies between the floor and the fold";;
  rassert (is_none_or (fun e : Seq * Slot => e.2 < rep_folded r) (last_entry (rep_positions r)))
    "the positions index lies between the floor and the fold";;
  rassert (is_none_or (fun seq => seq < j_next_seq (rep_state r)) (last_key_of (rep_positions r)))
    "every indexed write starts below the journal's next position".
