(* ===== verification/ReplicaInv.v ===== *)
(** * The replica implements the fold of the decided log

    [fold_log] is the reference: the journal state machine run over the decided
    log from its first slot, nothing ever dropped, every accepted write kept in
    the index.  A replica holds a suffix of the log, drops prefixes, jumps over
    slots it never saw and restarts from what it sealed; [replica_core] says that
    its fold is the reference's all the same, and each operation keeps it. *)

From S2P Require Import Prelude BTree Types Journal Contract Replica.

(** ** The last entry of a map that satisfies a test *)

Lemma last_filter_entries {V} (P : N * V -> Prop) `{forall e, Decision (P e)} (m : gmap N V) :
  match last (filter P (bt_entries m)) with
  | Some (k, v) => m !! k = Some v /\ P (k, v) /\ forall k' v', m !! k' = Some v' -> P (k', v') -> k' <= k
  | None => forall k' v', m !! k' = Some v' -> ~ P (k', v')
  end.
Proof.
  pose proof (StronglySorted_sublist _ _ _ (sublist_filter P (bt_entries m)) (bt_entries_sorted m)) as Hs.
  assert (forall k v, (k, v) ∈ filter P (bt_entries m) <-> P (k, v) /\ m !! k = Some v) as Hin.
  { intros k v. by rewrite list_elem_of_filter, elem_of_bt_entries. }
  revert Hs Hin. generalize (filter P (bt_entries m)) as l. intros l Hs Hin.
  destruct (last l) as [[k v]|] eqn:El.
  - apply last_Some in El as [l' ->].
    destruct (proj1 (Hin k v)) as [HP Hk]; [set_solver|]. split_and!; [done..|].
    intros k' v' Hk' HP'. assert ((k', v') ∈ l' ++ [(k, v)]) as [Hl|Hl]%elem_of_app by by apply Hin.
    + assert (key_lt (k', v') (k, v)) as Hlt by (eapply StronglySorted_app_1_elem_of; [done..|set_solver]).
      unfold key_lt in Hlt; simpl in Hlt. olia.
    + apply list_elem_of_singleton in Hl as [= -> ->]. lia.
  - apply last_None in El as ->. intros k' v' Hk' HP'.
    by assert ((k', v') ∈ []) as ?%elem_of_nil by by apply Hin.
Qed.

Lemma last_entry_filter {V} (m : gmap N V) : last_entry m = last (filter (fun _ => True) (bt_entries m)).
Proof. unfold last_entry. by rewrite filter_all by by apply Forall_true. Qed.

Lemma first_entry_Some {V} (m : gmap N V) k v : first_entry m = Some (k, v) -> m !! k = Some v.
Proof.
  unfold first_entry. intros Hh. apply elem_of_bt_entries.
  destruct (bt_entries m); simplify_eq/=. left.
Qed.

Lemma last_key_is_none_or {V} (m : gmap N V) (P : N -> Prop) :
  (forall k, is_Some (m !! k) -> P k) -> is_none_or P (last_key_of m).
Proof. intros HP. destruct (last_key_of m) eqn:E; simpl; [|done]. by apply HP, (last_key_of_Some m). Qed.
Lemma first_key_is_none_or {V} (m : gmap N V) (P : N -> Prop) :
  (forall k, is_Some (m !! k) -> P k) -> is_none_or P (first_key_of m).
Proof. intros HP. destruct (first_key_of m) eqn:E; simpl; [|done]. by apply HP, (first_key_of_Some m). Qed.

(** ** The reference fold *)

Section reference.
Context (mode : WriterMode) (L : Slot -> Command).

Fixpoint fold_log (n : nat) : JournalState * gmap Seq Entry :=
  match n with
  | O => (journal_default, ∅)
  | S n =>
      let '(j, index) := fold_log n in
      let command := L (N.of_nat n) in
      let '(j', outcome) := journal_spec j mode command (fun q => index !! q) in
      (j', match accepted_write command outcome, command_write command with
           | Some q, Some e => <[q := e]> index
           | _, _ => index
           end)
  end.

(** The state before a slot, the accepted writes below it, and its verdict. *)
Definition state_before (s : Slot) : JournalState := (fold_log (N.to_nat s)).1.
Definition writes_before (s : Slot) : gmap Seq Entry := (fold_log (N.to_nat s)).2.
Definition slot_verdict (s : Slot) : Outcome :=
  (journal_spec (state_before s) mode (L s) (fun q => writes_before s !! q)).2.
Abbreviation J := state_before (only parsing).
Abbreviation next s := (j_next_seq (state_before s)) (only parsing).
Abbreviation first s := (j_first_seq (state_before s)) (only parsing).

Lemma state_before_0 : state_before 0 = journal_default.
Proof. done. Qed.
Lemma fold_log_succ (s : Slot) :
  fold_log (N.to_nat (s + 1)) =
  ((journal_spec (state_before s) mode (L s) (fun q => writes_before s !! q)).1,
   match accepted_write (L s) (slot_verdict s), command_write (L s) with
   | Some q, Some e => <[q := e]> (writes_before s)
   | _, _ => writes_before s
   end).
Proof.
  rewrite N.add_1_r, N2Nat.inj_succ. cbn [fold_log]. unfold slot_verdict, state_before, writes_before.
  destruct (fold_log (N.to_nat s)) as [j index]. rewrite N2Nat.id. simpl. by destruct (journal_spec _ _ _ _).
Qed.
Lemma state_before_succ s :
  state_before (s + 1) = (journal_spec (state_before s) mode (L s) (fun q => writes_before s !! q)).1.
Proof. unfold state_before at 1. by rewrite fold_log_succ. Qed.
Lemma writes_before_succ s :
  writes_before (s + 1) = match accepted_write (L s) (slot_verdict s), command_write (L s) with
                          | Some q, Some e => <[q := e]> (writes_before s)
                          | _, _ => writes_before s
                          end.
Proof. unfold writes_before at 1. by rewrite fold_log_succ. Qed.

Lemma journal_default_wf : journal_wf mode journal_default.
Proof. split_and!; simpl; done. Qed.

Lemma state_before_wf s : journal_wf mode (state_before s).
Proof.
  induction s as [|s IH] using N.peano_ind; [apply journal_default_wf|].
  rewrite <-N.add_1_r, state_before_succ. eapply journal_step_wf, journal_spec_step; done.
Qed.

Lemma slot_verdict_step s : journal_step mode (state_before s) (state_before (s + 1)) (slot_verdict s).
Proof. rewrite state_before_succ. apply journal_spec_step, state_before_wf. Qed.

Lemma state_before_mono s t :
  s <= t -> j_term (J s) <= j_term (J t) /\ next s <= next t /\ first s <= first t.
Proof.
  intros Hle. replace t with (s + (t - s)) by lia. generalize (t - s) as d. clear Hle.
  induction d as [|d IH] using N.peano_ind; [rewrite N.add_0_r; lia|].
  replace (s + N.succ d) with (s + d + 1) by lia.
  pose proof (journal_step_monotone _ _ _ _ (slot_verdict_step (s + d))). lia.
Qed.

Lemma first_le_next s : first s <= next s.
Proof. apply state_before_wf. Qed.

Lemma state_before_still s t :
  s <= t -> (forall u, s <= u < t -> state_before (u + 1) = state_before u) -> state_before t = state_before s.
Proof.
  intros Hle. replace t with (s + (t - s)) by lia. generalize (t - s) as d. clear Hle.
  induction d as [|d IH] using N.peano_ind; intros Hst; [by rewrite N.add_0_r|].
  replace (s + N.succ d) with (s + d + 1) by lia. rewrite Hst by lia. apply IH. intros. apply Hst. lia.
Qed.

(** An accepted write takes the next positions, in both modes the ones it names
    when the journal has one writer. *)
Lemma verdict_accepted s q n :
  slot_verdict s = OAccepted q n ->
  exists e, L s = Write e /\ n = count e /\ 0 < n /\ q = next s /\ next (s + 1) = q + n /\
    (mode = Single -> e_seq e = q).
Proof.
  rewrite state_before_succ. unfold slot_verdict.
  destruct mode, (L s) as [e|[leader up_to|new old|]]; simpl; repeat case_decide; simpl; try done.
  - unfold write_single. repeat case_decide; simpl; try done. intros [= <- <-].
    destruct_and?. exists e. split_and!; try done. by apply count_pos.
  - unfold write_multi. case_decide; simpl; [done|]. intros [= <- <-].
    exists e. split_and!; try done. by apply count_pos.
Qed.

(** A slot that accepts nothing keeps the positions. *)
Lemma verdict_not_accepted s :
  (forall q n, slot_verdict s <> OAccepted q n) -> next (s + 1) = next s.
Proof.
  intros Hna. pose proof (slot_verdict_step s) as Hst. revert Hna.
  destruct Hst as [o ? ?|n Hn|new s' ? ? ? ->|f s' ? ->]; intros Hna; simpl; try done.
  by destruct (Hna _ _ eq_refl).
Qed.

Lemma accepted_write_iff s q :
  accepted_write (L s) (slot_verdict s) = Some q <-> exists n, slot_verdict s = OAccepted q n.
Proof.
  split.
  - unfold accepted_write. destruct (L s); [|done]. destruct (slot_verdict s); try done. intros [= ->]. by eexists.
  - intros [n Hv]. destruct (verdict_accepted _ _ _ Hv) as (e & -> & _). by rewrite Hv.
Qed.

(** The index holds exactly the accepted writes, by their first position. *)
Lemma writes_before_spec s q e :
  writes_before s !! q = Some e <-> exists t, t < s /\ L t = Write e /\ slot_verdict t = OAccepted q (count e).
Proof.
  induction s as [|s IH] using N.peano_ind.
  { split; [by unfold writes_before|]. intros (t & Ht & _). lia. }
  rewrite <-N.add_1_r, writes_before_succ.
  assert ((exists t, t < s + 1 /\ L t = Write e /\ slot_verdict t = OAccepted q (count e)) <->
          (exists t, t < s /\ L t = Write e /\ slot_verdict t = OAccepted q (count e)) \/
          (L s = Write e /\ slot_verdict s = OAccepted q (count e))) as ->.
  { split; [|intros [(t & ? & ?)|?]; [exists t|exists s]; (split; [lia|done])].
    intros (t & Ht & ?). destruct (decide (t = s)) as [->|]; [by right|]. left. exists t. split; [lia|done]. }
  rewrite <-IH. destruct (accepted_write (L s) (slot_verdict s)) as [q'|] eqn:Ea.
  - apply accepted_write_iff in Ea as [n Hv]. destruct (verdict_accepted _ _ _ Hv) as (e' & He & -> & Hn & Hq & _).
    rewrite He; simpl. rewrite Hv. destruct (decide (q' = q)) as [->|Hne].
    + rewrite lookup_insert_eq. split; [intros [= ->]; by right|]. intros [Hw|[[= ->] _]]; [|done].
      exfalso. apply IH in Hw as (t & Ht & _ & Hvt).
      destruct (verdict_accepted _ _ _ Hvt) as (? & _ & _ & ? & Hqt & Hnt & _).
      pose proof (state_before_mono (t + 1) s ltac:(lia)). lia.
    + rewrite lookup_insert_ne by done. split; [by left|]. intros [?|[_ [= ? _]]]; done.
  - split; [destruct (command_write (L s)); by left|].
    intros [?|[_ Hv]]; [by destruct (command_write (L s))|].
    assert (exists q', accepted_write (L s) (slot_verdict s) = Some q') as [? ?]; [|congruence].
    exists q. apply accepted_write_iff. by eexists.
Qed.

(** The write that holds a position. *)
Lemma position_held s q :
  q < next s -> exists t p n, t < s /\ slot_verdict t = OAccepted p n /\ p <= q < p + n.
Proof.
  induction s as [|s IH] using N.peano_ind; [rewrite state_before_0; simpl; lia|].
  rewrite <-N.add_1_r. intros Hq. destruct (decide (q < next s)) as [Hlt|Hge].
  { destruct (IH Hlt) as (t & p & n & ? & ?). exists t, p, n. split; [lia|done]. }
  destruct (accepted_write (L s) (slot_verdict s)) as [p|] eqn:Ea.
  - apply accepted_write_iff in Ea as [n Hv]. destruct (verdict_accepted _ _ _ Hv) as (e & _ & _ & ? & -> & Hn & _).
    exists s, (next s), n. split_and!; [lia|done|lia..].
  - rewrite verdict_not_accepted in Hq; [done|]. intros p n Hv.
    assert (accepted_write (L s) (slot_verdict s) = Some p) by (apply accepted_write_iff; by eexists). congruence.
Qed.

#[export] Instance writes_before_index s : PositionsIndex (state_before s) (fun q => writes_before s !! q).
Proof.
  intros q e Hq. apply writes_before_spec in Hq as (t & Ht & _ & Hv).
  destruct (verdict_accepted _ _ _ Hv) as (e' & _ & _ & _ & _ & Hn & _).
  pose proof (state_before_mono (t + 1) s ltac:(lia)). lia.
Qed.

(** Two accepted writes at one position, or covering one, are the same slot. *)
Lemma accepted_disjoint t t' p n p' n' q :
  slot_verdict t = OAccepted p n -> slot_verdict t' = OAccepted p' n' -> p <= q < p + n -> p' <= q < p' + n' ->
  t = t'.
Proof.
  intros Hv Hv' Hq Hq'.
  destruct (verdict_accepted _ _ _ Hv) as (_ & _ & _ & _ & -> & Hn & _).
  destruct (verdict_accepted _ _ _ Hv') as (_ & _ & _ & _ & -> & Hn' & _).
  destruct (N.lt_trichotomy t t') as [Hlt|[->|Hlt]]; [|done|].
  - pose proof (state_before_mono (t + 1) t' ltac:(lia)). lia.
  - pose proof (state_before_mono (t' + 1) t ltac:(lia)). lia.
Qed.

(** A slot that retries the record at a position: with one writer, a write at a
    position the journal already counts when the slot is folded. *)
Definition retries (s : Slot) (q : Seq) : Prop :=
  mode = Single /\ first s <= q < next s /\ exists e, L s = Write e /\ e_seq e = q.

(** A floor is good when no slot at or above it retries a record below it: what
    the code keeps so that a refold from the floor judges every slot alike. *)
Definition good_floor (f : Slot) : Prop := forall s q, f <= s -> retries s q -> next f <= q.

(** The command looked at decides the verdict from the index at one position. *)
Lemma journal_spec_ext j command at1 at2 :
  (forall q, retry_of mode j command = Some q -> at1 q = at2 q) ->
  journal_spec j mode command at1 = journal_spec j mode command at2.
Proof.
  intros Hat. destruct mode, command as [e|]; try done. cbn [journal_spec].
  destruct (decide (is_set (e_leader e))) as [Hset|]; [|done]. unfold write_single.
  destruct (decide (e_seq e < j_first_seq j)); [done|].
  destruct (decide (e_seq e < j_next_seq j)); [|done].
  by rewrite (Hat (e_seq e)) by (unfold retry_of; rewrite decide_True; [done|split; [done|lia]]).
Qed.

(** ** The fold's indexes *)

(** What a replica that folded the slots of [floor, folded) keeps of them. *)
Record fold_exact (floor folded : Slot) (state : JournalState) (history : gmap Slot JournalState)
  (outcomes : gmap Slot Outcome) (positions : gmap Seq Slot) : Prop := {
  fe_state : state = state_before folded;
  fe_history : forall s, history !! s =
    if decide (floor <= s < folded /\ state_before (s + 1) <> state_before s)
    then Some (state_before (s + 1)) else None;
  fe_outcomes : forall s, outcomes !! s =
    if decide (floor <= s < folded /\ slot_verdict s <> ONoop) then Some (slot_verdict s) else None;
  fe_positions : forall q s, positions !! q = Some s <-> floor <= s < folded /\ exists n, slot_verdict s = OAccepted q n }.

Lemma fold_exact_init floor : fold_exact floor floor (state_before floor) ∅ ∅ ∅.
Proof.
  split; [done|..].
  - intros s. by rewrite lookup_empty, decide_False by lia.
  - intros s. by rewrite lookup_empty, decide_False by lia.
  - intros q s. rewrite lookup_empty. split; [done|lia].
Qed.

(** One slot folded, as [fold_one] records it. *)
Lemma fold_exact_step floor folded st hist outs pos :
  floor <= folded -> fold_exact floor folded st hist outs pos ->
  fold_exact floor (folded + 1) (state_before (folded + 1))
    (if decide (state_before (folded + 1) <> st) then <[folded := state_before (folded + 1)]> hist else hist)
    (if decide (slot_verdict folded <> ONoop) then <[folded := slot_verdict folded]> outs else outs)
    (match accepted_write (L folded) (slot_verdict folded) with Some q => <[q := folded]> pos | None => pos end).
Proof.
  intros Hle [-> Hh Ho Hp]. split; [done|..].
  - intros s. destruct (decide (s = folded)) as [->|Hne].
    + destruct (decide (state_before (folded + 1) <> state_before folded)) as [Hd|Hd].
      * rewrite lookup_insert_eq, decide_True; [done|]. split; [lia|done].
      * rewrite Hh, !decide_False; [done|intros [_ ?]; done|lia].
    + transitivity (hist !! s); [case_decide; [by rewrite lookup_insert_ne|done]|].
      rewrite Hh. apply decide_ext. split; intros [? ?]; (split; [lia|done]).
  - intros s. destruct (decide (s = folded)) as [->|Hne].
    + destruct (decide (slot_verdict folded <> ONoop)) as [Hd|Hd].
      * rewrite lookup_insert_eq, decide_True; [done|]. split; [lia|done].
      * rewrite Ho, !decide_False; [done|intros [_ ?]; done|lia].
    + transitivity (outs !! s); [case_decide; [by rewrite lookup_insert_ne|done]|].
      rewrite Ho. apply decide_ext. split; intros [? ?]; (split; [lia|done]).
  - intros q s.
    assert ((floor <= s < folded + 1 /\ exists n, slot_verdict s = OAccepted q n) <->
      (floor <= s < folded /\ exists n, slot_verdict s = OAccepted q n) \/
      (s = folded /\ accepted_write (L folded) (slot_verdict folded) = Some q)) as ->.
    { rewrite accepted_write_iff. split.
      - intros [? ?]. destruct (decide (s = folded)) as [->|]; [by right|left; split; [lia|done]].
      - intros [[? ?]|[-> ?]]; (split; [lia|done]). }
    rewrite <-Hp. destruct (accepted_write (L folded) (slot_verdict folded)) as [q'|] eqn:Ea; [|naive_solver].
    destruct (decide (q' = q)) as [->|Hq].
    + rewrite lookup_insert_eq. split; [intros [= ->]; by right|]. intros [Hs|[-> _]]; [|done].
      exfalso. apply Hp in Hs as [Hs [n Hv]]. apply accepted_write_iff in Ea as [n' Hv'].
      pose proof (verdict_accepted _ _ _ Hv) as (_ & _ & _ & ? & _).
      pose proof (verdict_accepted _ _ _ Hv') as (_ & _ & _ & ? & _).
      enough (s = folded) by lia. eapply (accepted_disjoint _ _ _ _ _ _ q); [done..|lia|lia].
    + rewrite lookup_insert_ne by done. naive_solver.
Qed.

(** A prefix dropped. *)
Lemma fold_exact_drop floor folded st hist outs pos f :
  floor <= f <= folded -> fold_exact floor folded st hist outs pos ->
  fold_exact f folded st (bt_split_off f hist) (bt_split_off f outs) (filter (fun e => f <= e.2) pos).
Proof.
  intros Hf [-> Hh Ho Hp]. split; [done|..].
  - intros s. rewrite lookup_bt_split_off, Hh. ord_N. destruct (decide (f <= s)).
    + apply decide_ext. split; intros [? ?]; (split; [lia|done]).
    + rewrite decide_False; [done|]. lia.
  - intros s. rewrite lookup_bt_split_off, Ho. ord_N. destruct (decide (f <= s)).
    + apply decide_ext. split; intros [? ?]; (split; [lia|done]).
    + rewrite decide_False; [done|]. lia.
  - intros q s. rewrite map_lookup_filter_Some, Hp. simpl. split.
    + intros [[? ?] ?]. split; [lia|done].
    + intros [? ?]. split; [split; [lia|done]|lia].
Qed.

Section indexes.
Context (floor folded : Slot) (st : JournalState) (hist : gmap Slot JournalState) (outs : gmap Slot Outcome)
  (pos : gmap Seq Slot) (Hfe : fold_exact floor folded st hist outs pos).

(** The state at a retained slot is the last one recorded below it. *)
Lemma history_state s :
  floor <= s <= folded ->
  match last_below s hist with Some e => e.2 | None => state_before floor end = state_before s.
Proof using Hfe.
  intros Hs. pose proof (last_filter_entries (fun e => e.1 < s) hist) as Hl. fold (last_below s hist) in Hl.
  assert (forall u, u < s -> floor <= u -> hist !! u = None -> state_before (u + 1) = state_before u) as Hstill.
  { intros u ? ? Hu. rewrite (fe_history _ _ _ _ _ _ Hfe) in Hu. case_decide as Hd; [done|].
    apply dec_stable. intros Hne. apply Hd. split; [lia|done]. }
  destruct (last_below s hist) as [[k v]|]; simpl in Hl.
  - destruct Hl as (Hk & Hlt & Hmax). rewrite (fe_history _ _ _ _ _ _ Hfe) in Hk. case_decide as Hd; [|done].
    simplify_eq/=. symmetry. apply state_before_still; [lia|]. intros u Hu. apply Hstill; [lia..|].
    apply eq_None_not_Some. intros [v Hv]. pose proof (Hmax _ _ Hv). lia.
  - symmetry. apply state_before_still; [lia|]. intros u Hu. apply Hstill; [lia..|].
    apply eq_None_not_Some. intros [v Hv]. apply (Hl _ _ Hv). lia.
Qed.

Lemma positions_bounds q s : pos !! q = Some s -> floor <= s < folded /\ q = next s /\ next floor <= q < next folded.
Proof using Hfe.
  intros Hq. apply (fe_positions _ _ _ _ _ _ Hfe) in Hq as [Hs [n Hv]].
  destruct (verdict_accepted _ _ _ Hv) as (e & _ & _ & ? & -> & Hn & _).
  pose proof (state_before_mono floor s ltac:(lia)). pose proof (state_before_mono (s + 1) folded ltac:(lia)).
  split_and!; lia.
Qed.

(** The index at or below a position above the floor's base: the write that
    holds it. *)
Lemma positions_cover q :
  next floor <= q < next folded ->
  exists start s n, last_at_most q pos = Some (start, s) /\ floor <= s < folded /\
    slot_verdict s = OAccepted start n /\ start <= q < start + n.
Proof using Hfe.
  intros Hq. destruct (position_held folded q ltac:(lia)) as (t & p & n & Ht & Hv & Hp).
  destruct (verdict_accepted _ _ _ Hv) as (e & _ & _ & ? & Hpt & Hn & _).
  assert (floor <= t).
  { destruct (decide (floor <= t)); [done|]. pose proof (state_before_mono (t + 1) floor ltac:(lia)). lia. }
  assert (pos !! p = Some t) as Hpos by (apply (fe_positions _ _ _ _ _ _ Hfe); split; [lia|by eexists]).
  pose proof (last_filter_entries (fun e => e.1 <= q) pos) as Hl. fold (last_at_most q pos) in Hl.
  destruct (last_at_most q pos) as [[start s]|]; simpl in Hl; [|exfalso; apply (Hl _ _ Hpos); lia].
  destruct Hl as (Hs & Hsq & Hmax). pose proof (Hmax _ _ Hpos ltac:(lia)) as Hps.
  pose proof (proj1 (fe_positions _ _ _ _ _ _ Hfe _ _) Hs) as [Hsf [n' Hv']].
  pose proof (verdict_accepted _ _ _ Hv') as (_ & _ & _ & ? & Hst & Hn' & _).
  assert (t = s) as <- by (eapply (accepted_disjoint _ _ _ _ _ _ start); [done..|lia|lia]).
  exists start, t, n'. split_and!; done || lia.
Qed.

Lemma positions_lack q : q < next floor -> last_at_most q pos = None.
Proof using Hfe.
  intros Hq. pose proof (last_filter_entries (fun e => e.1 <= q) pos) as Hl. fold (last_at_most q pos) in Hl.
  destruct (last_at_most q pos) as [[start s]|]; [|done]. simpl in Hl. destruct Hl as (Hs & ? & _).
  pose proof (positions_bounds _ _ Hs). lia.
Qed.

Lemma positions_last : is_none_or (fun e : Seq * Slot => e.1 < next folded) (last_entry pos) /\
  is_none_or (fun e : Seq * Slot => e.2 < folded) (last_entry pos).
Proof using Hfe.
  rewrite last_entry_filter. pose proof (last_filter_entries (fun _ => True) pos) as Hl.
  destruct (last _) as [[k v]|]; simpl; [|done]. destruct Hl as (Hk & _).
  pose proof (positions_bounds _ _ Hk). lia.
Qed.
End indexes.

(** ** The invariant *)

(** The first slot past the chosen prefix. *)
Definition end_of (r : Replica) : Slot := match rep_chosen_index r with Some s => s + 1 | None => 0 end.

(** An applied entry reports what the log decided and how the reference judged it. *)
Definition applied_exact (e : Applied) : Prop :=
  e.1.2 = L (applied_slot e) /\ e.2 = slot_verdict (applied_slot e).

Record replica_core (r : Replica) : Prop := {
  co_mode : rep_mode r = mode;
  co_chosen : forall s c, rep_chosen r !! s = Some c -> c = L s /\ rep_floor r <= s < u64_max;
  co_index : is_none_or (fun ci => ci < u64_max) (rep_chosen_index r);
  co_floor : rep_floor r <= rep_folded r;
  co_folded : rep_folded r <= end_of r;
  co_held : forall s, rep_floor r <= s < rep_folded r -> rep_chosen r !! s = Some (L s);
  co_base : rep_base r = state_before (rep_floor r);
  co_fold : fold_exact (rep_floor r) (rep_folded r) (rep_state r) (rep_history r) (rep_outcomes r) (rep_positions r);
  co_good : good_floor (rep_floor r);
  co_page : 0 < rep_apply_page r <= APPLY_BATCH;
  co_committed : Forall (fun e => applied_exact e /\ applied_slot e < rep_folded r) (rep_committed r);
  co_ascend : StronglySorted N.lt (applied_slot <$> rep_committed r) }.

(** The fold stops below the prefix only at a slot the replica does not hold. *)
Definition at_hole (r : Replica) : Prop := rep_folded r < end_of r -> rep_chosen r !! rep_folded r = None.

Context (Hfit : forall s, fits (state_before s) (L s)).

Lemma term_fits s : j_term (state_before s) <= u64_max.
Proof using Hfit.
  induction s as [|s IH] using N.peano_ind; [rewrite state_before_0; simpl; lia|].
  rewrite <-N.add_1_r, state_before_succ. by apply journal_spec_fits.
Qed.
Lemma next_fits s : next s <= u64_max.
Proof using Hfit. apply (Hfit s). Qed.

Lemma first_unchosen_ok r : replica_core r -> first_unchosen r = Done (end_of r).
Proof.
  intros Hc. pose proof (co_index _ Hc) as Hi. unfold first_unchosen, end_of.
  destruct (rep_chosen_index r); [|done]. by rewrite rassert_true.
Qed.

Lemma state_at_ok r s : replica_core r -> rep_floor r <= s <= rep_folded r -> state_at r s = Done (state_before s).
Proof.
  intros Hc Hs. unfold state_at. rassert_by lia. rassert_by lia.
  rewrite (co_base _ Hc). by rewrite (history_state _ _ _ _ _ _ (co_fold _ Hc)).
Qed.

Lemma indexed_write_ok r q :
  replica_core r ->
  indexed_write r q = if decide (next (rep_floor r) <= q) then writes_before (rep_folded r) !! q else None.
Proof.
  intros Hc. pose proof (fe_positions _ _ _ _ _ _ (co_fold _ Hc)) as Hp. unfold indexed_write.
  destruct (rep_positions r !! q) as [s|] eqn:Eq; simpl.
  - destruct (proj1 (Hp _ _) Eq) as [Hs [n Hv]]. rewrite (co_held _ Hc s Hs); simpl.
    destruct (verdict_accepted _ _ _ Hv) as (e & He & -> & ? & Hq & _). rewrite He; simpl.
    pose proof (state_before_mono (rep_floor r) s ltac:(lia)). rewrite decide_True by lia.
    symmetry. apply writes_before_spec. exists s. split; [lia|done].
  - case_decide as Hq; [|done]. symmetry. apply eq_None_not_Some. intros [e He].
    apply writes_before_spec in He as (t & Ht & _ & Hv).
    destruct (verdict_accepted _ _ _ Hv) as (_ & _ & _ & ? & Hqt & Hn & _).
    assert (rep_floor r <= t).
    { destruct (decide (rep_floor r <= t)); [done|]. pose proof (state_before_mono (t + 1) (rep_floor r) ltac:(lia)). lia. }
    assert (rep_positions r !! q = Some t) by (apply Hp; split; [lia|by eexists]). congruence.
Qed.

Lemma retry_of_retries s q : retry_of mode (state_before s) (L s) = Some q -> retries s q.
Proof.
  unfold retry_of, retries. destruct mode, (L s) as [e|]; try done. case_decide as Hd; [|done].
  intros [= <-]. split_and!; [done|lia..|]. by exists e.
Qed.

(** The fold's head judges a slot as the reference does. *)
Lemma head_judges r :
  replica_core r ->
  apply (rep_state r) mode (L (rep_folded r)) (indexed_write r) =
    Done (state_before (rep_folded r + 1), slot_verdict (rep_folded r)).
Proof using Hfit.
  intros Hc. rewrite (fe_state _ _ _ _ _ _ (co_fold _ Hc)), state_before_succ. unfold slot_verdict.
  rewrite <-surjective_pairing.
  rewrite <-(journal_spec_ext (state_before (rep_folded r)) (L (rep_folded r)) (indexed_write r)).
  - apply apply_ok; [apply state_before_wf| |apply Hfit|apply term_fits].
    intros q e. rewrite indexed_write_ok by done. case_decide; [|done]. apply writes_before_index.
  - intros q Hq. rewrite indexed_write_ok by done. rewrite decide_True; [done|].
    eapply (co_good _ Hc (rep_folded r)); [apply (co_floor _ Hc)|by apply retry_of_retries].
Qed.

Lemma accepted_at_ok r q : replica_core r -> accepted_at r q = Done (indexed_write r q).
Proof.
  intros Hc. unfold accepted_at. pose proof (indexed_write_ok r q Hc) as Hw.
  destruct (indexed_write r q) as [e|]; [|done].
  destruct (rep_mode r) eqn:Em; [|done]. rewrite rassert_true; [done|].
  case_decide; [|done]. symmetry in Hw. apply writes_before_spec in Hw as (t & _ & Ht & Hv).
  destruct (verdict_accepted _ _ _ Hv) as (e' & He' & _ & _ & _ & _ & Hs).
  rewrite Ht in He'. injection He' as <-. apply Hs. by rewrite <-(co_mode _ Hc).
Qed.

Lemma committed_weaken (committed : list Applied) (f f' : Slot) :
  f <= f' -> Forall (fun e => applied_exact e /\ applied_slot e < f) committed ->
  Forall (fun e => applied_exact e /\ applied_slot e < f') committed.
Proof. intros Hle Hall. eapply Forall_impl; [exact Hall|]. cbv beta. intros e [? ?]. split; [done|lia]. Qed.

(** What [fold_one] leaves: the slot folded, everything else in place. *)
Definition refolded (r : Replica) : Replica :=
  let s := rep_folded r in
  with_fold r (s + 1) (state_before (s + 1))
    (if decide (state_before (s + 1) <> rep_state r) then <[s := state_before (s + 1)]> (rep_history r) else rep_history r)
    (if decide (slot_verdict s <> ONoop) then <[s := slot_verdict s]> (rep_outcomes r) else rep_outcomes r)
    (match accepted_write (L s) (slot_verdict s) with Some q => <[q := s]> (rep_positions r) | None => rep_positions r end)
    (is_trimmed (slot_verdict s) || rep_truncate_due r).

Lemma refolded_core r :
  replica_core r -> rep_chosen r !! rep_folded r = Some (L (rep_folded r)) -> rep_folded r < end_of r ->
  replica_core (refolded r).
Proof.
  intros Hc Hs Hlt. pose proof Hc as []. split; try done; simpl.
  - lia.
  - change (end_of (refolded r)) with (end_of r). lia.
  - intros s Hlo. destruct (decide (s = rep_folded r)) as [->|]; [done|]. apply (co_held _ Hc). lia.
  - apply fold_exact_step; done.
  - eapply committed_weaken; [|done]. lia.
Qed.

Lemma fold_one_ok r :
  replica_core r -> rep_chosen r !! rep_folded r = Some (L (rep_folded r)) -> rep_folded r < end_of r ->
  fold_one r (rep_folded r) (L (rep_folded r)) = Done (refolded r, slot_verdict (rep_folded r)).
Proof using Hfit.
  intros Hc Hs Hlt. unfold fold_one. rassert_by done.
  eapply bind_seq with (a := tt); [destruct (retry_of _ _ _); [by rewrite accepted_at_ok|done]|cbv beta].
  rewrite (co_mode _ Hc), head_judges by done. rsimpl.
  pose proof (refolded_core r Hc Hs Hlt) as Hc'. set (s := rep_folded r) in *.
  pose proof (positions_last _ _ _ _ _ _ (co_fold _ Hc)) as [Hp1 Hp2].
  eapply bind_seq with (a := rep_positions (refolded r)).
  { simpl. fold s. destruct (accepted_write (L s) (slot_verdict s)) as [q|] eqn:Ea; [|done].
    apply accepted_write_iff in Ea as [n Hv]. destruct (verdict_accepted _ _ _ Hv) as (_ & _ & _ & _ & -> & _).
    rassert_by exact Hp1. rassert_by exact Hp2. done. }
  cbv beta. destruct (co_chosen _ Hc _ _ Hs) as (_ & _ & Hmax). rewrite u64_add_ok by lia. rsimpl.
  cbv zeta. fold s. change (with_fold r (s + 1) _ _ _ _ _) with (refolded r).
  eapply bind_seq with (a := tt); [|cbv beta].
  { destruct (slot_verdict s) as [q n| | | | | | | | |] eqn:Hv; try done. apply rassert_true.
    apply (fe_positions _ _ _ _ _ _ (co_fold _ Hc')). simpl. fold s. pose proof (co_floor _ Hc).
    split; [unfold s in *; lia|by eexists]. }
  rassert_by (simpl; unfold s; lia). unfold outcome_at.
  rewrite (fe_outcomes _ _ _ _ _ _ (co_fold _ Hc')). pose proof (co_floor _ Hc) as Hfl.
  assert (rep_floor (refolded r) <= s < rep_folded (refolded r)) as Hin by (simpl; unfold s; lia).
  destruct (decide (slot_verdict s <> ONoop)) as [Hne|Hne].
  - rewrite !(decide_True (P := _ /\ slot_verdict s <> ONoop)) by done.
    rewrite decide_True by by eexists. rewrite !rassert_true by lia. rsimpl. by rewrite rassert_true.
  - rewrite !(decide_False (P := _ /\ slot_verdict s <> ONoop)) by (intros [_ ?]; done).
    rewrite decide_False by by intros []. rsimpl. by rewrite rassert_true.
Qed.

(** What folding leaves alone. *)
Record refolds (r r' : Replica) : Prop := {
  rf_chosen : rep_chosen r' = rep_chosen r;
  rf_index : rep_chosen_index r' = rep_chosen_index r;
  rf_floor : rep_floor r' = rep_floor r;
  rf_folded : rep_folded r <= rep_folded r';
  rf_committed : rep_committed r' = rep_committed r;
  rf_pending : rep_advance_pending r' = rep_advance_pending r;
  rf_due : rep_compaction_due r' = rep_compaction_due r;
  rf_page : rep_apply_page r' = rep_apply_page r }.

Lemma refolds_refl r : refolds r r.
Proof. split; done || lia. Qed.

(** The fold run to the end of the prefix or to a hole. *)
Lemma refold_loop_ok fuel r :
  replica_core r -> (N.to_nat (end_of r - rep_folded r) <= fuel)%nat ->
  exists r', refold_loop fuel r (end_of r) = Done r' /\ replica_core r' /\ at_hole r' /\ refolds r r'.
Proof using Hfit.
  revert r. induction fuel as [|fuel IH]; intros r Hc Hf; simpl.
  { exists r. split_and!; try apply refolds_refl; try done. intros Hlt. lia. }
  case_decide as Hlt; [|exists r; split_and!; try apply refolds_refl; try done; intros ?; lia].
  destruct (rep_chosen r !! rep_folded r) as [c|] eqn:Es;
    [|exists r; split_and!; try apply refolds_refl; try done; by intros ?].
  destruct (co_chosen _ Hc _ _ Es) as [-> _]. rewrite fold_one_ok by done. rsimpl.
  change (end_of r) with (end_of (refolded r)) in *.
  destruct (IH (refolded r) (refolded_core r Hc Es Hlt)) as (r' & -> & Hc' & Hh & []); [simpl in *; lia|].
  exists r'. split_and!; try done. split; try done. simpl in *. lia.
Qed.

Lemma refolds_end r r' : refolds r r' -> end_of r' = end_of r.
Proof. intros Hr. unfold end_of. by rewrite (rf_index _ _ Hr). Qed.

Lemma refold_ok r :
  replica_core r -> exists r', refold r = Done r' /\ replica_core r' /\ at_hole r' /\ refolds r r'.
Proof using Hfit.
  intros Hc. unfold refold. rewrite first_unchosen_ok by done. rsimpl.
  destruct (refold_loop_ok (N.to_nat (end_of r - rep_folded r)) r Hc ltac:(done)) as (r' & -> & Hc' & Hh & Hr). rsimpl.
  pose proof (refolds_end _ _ Hr) as He. pose proof (co_folded _ Hc') as Hf. rewrite He in Hf.
  exists r'. split; [|done]. rassert_by done. case_decide as Hlt; [|done].
  rewrite <-He in Hlt. by rewrite (rassert_true (rep_chosen r' !! rep_folded r' = None)) by by apply Hh.
Qed.

(** ** Compaction *)

(** The slot holding a position: [f] is at or below it exactly when a floor at
    [f] keeps the position, or there is nothing to drop. *)
Lemma slot_holding_ok r q :
  replica_core r ->
  exists h, slot_holding r q = Done h /\ rep_floor r <= h <= rep_folded r /\
    forall f, rep_floor r <= f <= rep_folded r -> (f <= h <-> f = rep_floor r \/ next f <= q).
Proof using Hfit.
  intros Hc. pose proof (co_floor _ Hc) as Hfl. unfold slot_holding.
  rewrite (fe_state _ _ _ _ _ _ (co_fold _ Hc)), (co_base _ Hc).
  case_decide as Hq.
  { exists (rep_folded r). split; [done|]. split; [lia|]. intros f Hf.
    pose proof (state_before_mono f (rep_folded r) ltac:(lia)). split; [right; lia|lia]. }
  destruct (decide (next (rep_floor r) <= q)) as [Hge|Hlt].
  - destruct (positions_cover _ _ _ _ _ _ (co_fold _ Hc) q ltac:(lia)) as (start & s & n & -> & Hs & Hv & Hsq).
    destruct (verdict_accepted _ _ _ Hv) as (e & He & -> & Hn & Hst & Hnx & _).
    rewrite (co_held _ Hc s Hs), He. simpl. exists s. split.
    { rassert_by lia. rewrite u64_add_ok by (rewrite <-Hnx; apply next_fits). rsimpl.
      rassert_by lia. rassert_by lia. unfold mret, run_ret. f_equal. lia. }
    split; [lia|]. intros f Hf. split.
    + intros. pose proof (state_before_mono f s ltac:(lia)). right. lia.
    + intros [->|Hn']; [lia|]. destruct (decide (f <= s)); [done|].
      pose proof (state_before_mono (s + 1) f ltac:(lia)). lia.
  - rewrite (positions_lack _ _ _ _ _ _ (co_fold _ Hc)) by lia. exists (rep_floor r). split; [by rassert_by lia|].
    split; [lia|]. intros f Hf. split; [left; lia|]. intros [->|Hn]; [lia|].
    pose proof (state_before_mono (rep_floor r) f ltac:(lia)). lia.
Qed.

(** A floor keeps what a refold of the retained slots reads. *)
Definition keeps_retries (f lo hi : Slot) : Prop := forall s q, lo <= s < hi -> retries s q -> next f <= q.

Lemma retained_retry_ok r s :
  replica_core r -> rep_floor r <= s < rep_folded r ->
  exists o, retained_retry r s (L s) = Done o /\ forall q, o = Some q <-> retries s q.
Proof.
  intros Hc Hs. unfold retained_retry. rewrite (co_mode _ Hc). case_decide as Hm.
  { exists None. split; [done|]. intros q. unfold retries. rewrite Hm. by split; [|intros [? _]]. }
  assert (mode = Single) as Hm' by by destruct mode.
  destruct (L s) as [e|c] eqn:El; simpl.
  - rewrite state_at_ok by (done || lia). rsimpl. eexists. split; [done|]. intros q. unfold retries. rewrite El.
    case_decide as Hd; split; try done.
    + intros [= <-]. split_and!; [done|lia..|by eexists].
    + by intros (_ & _ & e' & [= <-] & <-).
    + intros (_ & Hb & e' & [= <-] & <-). lia.
  - exists None. split; [done|]. intros q. unfold retries. rewrite El. split; [done|]. by intros (_ & _ & ? & ? & _).
Qed.

Lemma needed_fold_ok r l acc :
  replica_core r -> (forall e, e ∈ l -> rep_floor r <= e.1 < rep_folded r /\ e.2 = L e.1) ->
  exists acc', foldM (needed_step r) acc l = Done acc' /\
    forall f, rep_floor r <= f <= rep_folded r ->
      (is_none_or (fun h => f <= h) acc' <->
       is_none_or (fun h => f <= h) acc /\
       forall e q, e ∈ l -> retries e.1 q -> f = rep_floor r \/ next f <= q).
Proof using Hfit.
  intros Hc. revert acc. induction l as [|[s c] l IH]; intros acc Hl; cbn [foldM].
  { exists acc. split; [done|]. intros f Hf. split; [|naive_solver]. intros. split; [done|]. by intros ? ? ?%elem_of_nil. }
  destruct (Hl (s, c) ltac:(left)) as [Hs Hsc]. simpl in Hs, Hsc. subst c.
  destruct (retained_retry_ok r s Hc Hs) as (o & Ho & Hretry). unfold needed_step at 2. cbn [fst snd]. rewrite Ho. rsimpl.
  assert (exists acc1, match o with
     | Some seq => held ← slot_holding r seq; mret (Some match acc with Some l => N.min l held | None => held end)
     | None => mret acc end = Done acc1 /\
     forall f, rep_floor r <= f <= rep_folded r ->
      (is_none_or (fun h => f <= h) acc1 <->
       is_none_or (fun h => f <= h) acc /\ forall q, retries s q -> f = rep_floor r \/ next f <= q)) as (acc1 & -> & Hacc1).
  { destruct o as [q|].
    - destruct (slot_holding_ok r q Hc) as (h & -> & Hh & Hf). rsimpl. eexists. split; [done|]. intros f Hf'.
      assert ((forall q', retries s q' -> f = rep_floor r \/ next f <= q') <-> f <= h) as ->.
      { rewrite Hf by done. split; [intros Hq; by apply Hq, Hretry|]. intros Hq q' Hq'%Hretry. by simplify_eq. }
      destruct acc; simpl; lia.
    - exists acc. split; [done|]. intros f Hf. split; [|by intros []]. intros. split; [done|].
      by intros q ?%Hretry. }
  rsimpl. destruct (IH acc1) as (acc' & -> & Hacc'); [intros; apply Hl; by right|].
  exists acc'. split; [done|]. intros f Hf. rewrite Hacc', Hacc1 by done. split.
  - intros [[? H1] H2]. split; [done|]. intros e q [->|He]%elem_of_cons; [apply H1|by apply H2].
  - intros [? H1]. split_and!; [done|intros q; apply (H1 (s, L s)); left|].
    intros e q He. apply H1. by right.
Qed.

Lemma needed_floor_ok r fst :
  replica_core r -> rep_floor r <= fst <= rep_folded r ->
  exists n, needed_floor r fst = Done n /\ rep_floor r <= n /\
    forall f, rep_floor r <= f <= fst -> (f <= n <-> f = rep_floor r \/ keeps_retries f fst (rep_folded r)).
Proof using Hfit.
  intros Hc Hf. unfold needed_floor. rewrite bt_range_ok by olia. rsimpl. set (l := filter _ _).
  assert (forall e, e ∈ l <-> rep_chosen r !! e.1 = Some e.2 /\ fst <= e.1 < rep_folded r) as Hl.
  { intros [s c]. unfold l. rewrite list_elem_of_filter, elem_of_bt_entries. simpl. ord_N. split; intros; split_and!; try tauto; lia. }
  destruct (needed_fold_ok r l None Hc) as (acc & -> & Hacc).
  { intros e [He Hb]%Hl. split; [lia|]. by apply (co_chosen _ Hc) in He as [? _]. }
  rsimpl. exists (default fst acc). split; [done|].
  assert (forall f, rep_floor r <= f <= fst -> (f <= default fst acc <-> f = rep_floor r \/ keeps_retries f fst (rep_folded r))) as Hk.
  { intros f Hff. transitivity (is_none_or (fun h => f <= h) acc); [destruct acc; simpl; [done|lia]|].
    rewrite Hacc by lia. simpl. split.
    - intros [_ Hq]. destruct (decide (f = rep_floor r)); [by left|]. right. intros s q Hs Hr.
      destruct (Hq (s, L s) q); [|done..]. apply Hl. simpl. split; [|lia]. apply (co_held _ Hc). lia.
    - intros Hd. split; [done|]. intros e q [_ He]%Hl Hr. destruct Hd as [|Hd]; [by left|]. right. by eapply Hd. }
  split; [|done]. apply (Hk (rep_floor r)); [lia|by left].
Qed.

(** The floors a truncation may take: nothing the journal still counts is
    dropped, nothing a retained slot was judged by. *)
Definition safe_floor (r : Replica) (f : Slot) : Prop :=
  rep_floor r <= f <= rep_folded r /\
  (f = rep_floor r \/ next f <= first (rep_folded r) /\ keeps_retries f f (rep_folded r)).

Definition greatest_floor (r : Replica) (f : Slot) : Prop :=
  safe_floor r f /\ forall f', safe_floor r f' -> f' <= f.

Lemma compaction_loop_ok fuel r fst :
  replica_core r -> rep_floor r <= fst <= rep_folded r -> (N.to_nat (fst - rep_floor r) < fuel)%nat ->
  (fst = rep_floor r \/ next fst <= first (rep_folded r)) -> (forall f, safe_floor r f -> f <= fst) ->
  exists f, compaction_loop fuel r fst = Done f /\ greatest_floor r f.
Proof using Hfit.
  intros Hc. revert fst. induction fuel as [|fuel IH]; intros fst Hf Hfu Hnx Hmax; [lia|]. simpl.
  destruct (needed_floor_ok r fst Hc Hf) as (n & -> & Hn & Hk). rsimpl. case_decide as Hd.
  - exists fst. split; [done|]. split; [|done]. split; [done|].
    apply Hk in Hd; [|lia]. destruct Hd as [|Hd]; [by left|]. destruct Hnx; [by left|]. by right.
  - apply IH; [lia|lia|..].
    + destruct Hnx as [?|Hnx]; [lia|]. right. pose proof (state_before_mono n fst ltac:(lia)). lia.
    + intros f Hs. pose proof (Hmax f Hs). destruct Hs as [Hb Hs]. apply Hk; [lia|].
      destruct Hs as [|[_ Hs]]; [by left|]. right. intros s q Hs'. apply Hs. lia.
Qed.

(** [compaction_target] returns, and names the greatest safe floor. *)
Lemma compaction_target_ok r :
  replica_core r -> exists f, compaction_target r = Done (u64_checked_sub f 1) /\ greatest_floor r f.
Proof using Hfit.
  intros Hc. unfold compaction_target. rewrite (fe_state _ _ _ _ _ _ (co_fold _ Hc)).
  destruct (slot_holding_ok r (first (rep_folded r)) Hc) as (h & -> & Hh & Hf). rsimpl.
  destruct (compaction_loop_ok (S (N.to_nat (h - rep_floor r))) r h Hc Hh) as (f & -> & Hg); [lia|..].
  - apply Hf; lia.
  - intros f [Hb Hs]. apply Hf; [done|]. tauto.
  - rsimpl. exists f. split; [|done]. destruct Hg as [[Hb _] _]. rassert_by lia. rassert_by lia. done.
Qed.

Lemma safe_floor_good r f : replica_core r -> safe_floor r f -> good_floor f.
Proof.
  intros Hc [Hb [->|[Hn Hk]]]; [by apply (co_good _ Hc)|]. intros s q Hs Hr.
  destruct (decide (s < rep_folded r)) as [Hlt|Hge]; [by apply (Hk s); [lia|]|].
  destruct Hr as (_ & Hq & _). pose proof (state_before_mono (rep_folded r) s ltac:(lia)). lia.
Qed.

Lemma greatest_floor_unique r f f' : greatest_floor r f -> greatest_floor r f' -> f = f'.
Proof. intros [Hs Hm] [Hs' Hm']. pose proof (Hm _ Hs'). pose proof (Hm' _ Hs). lia. Qed.

(** ** Learning and the walk *)

(** The deferred continuation is exact: what the handlers leave between calls. *)
Definition replica_settled (r : Replica) : Prop :=
  rep_advance_pending r = bool_decide (is_Some (rep_chosen r !! end_of r)).

Lemma learned_core r s :
  replica_core r -> rep_floor r <= s < u64_max -> replica_core (with_chosen r (<[s := L s]> (rep_chosen r))).
Proof.
  intros Hc Hs. pose proof Hc as []. split; try done; simpl.
  - intros s' c. destruct (decide (s = s')) as [<-|Hne].
    + rewrite lookup_insert_eq. by intros [= <-].
    + rewrite lookup_insert_ne by done. auto.
  - intros s' Hs'. destruct (decide (s = s')) as [<-|Hne]; [by rewrite lookup_insert_eq|].
    rewrite lookup_insert_ne by done. auto.
Qed.

Lemma unheld_above r s : replica_core r -> rep_floor r <= s -> rep_chosen r !! s = None -> rep_folded r <= s.
Proof.
  intros Hc Hs Hn. destruct (decide (rep_folded r <= s)); [done|]. rewrite (co_held _ Hc) in Hn by lia. done.
Qed.

Lemma replica_learn_ok r s :
  replica_core r -> at_hole r -> rep_floor r <= s < u64_max -> rep_chosen r !! s = None ->
  exists r', replica_learn r s (L s) = Done r' /\ replica_core r' /\ at_hole r' /\
    refolds (with_chosen r (<[s := L s]> (rep_chosen r))) r'.
Proof using Hfit.
  intros Hc Hh Hs Hn. pose proof (unheld_above r s Hc ltac:(lia) Hn) as Hfs.
  pose proof (learned_core r s Hc Hs) as Hc1. unfold replica_learn. cbv zeta. set (r1 := with_chosen r _) in *.
  assert (exists r', (if decide (s = rep_folded r1) then
     end_ ← first_unchosen r1; if decide (s < end_) then refold r1 else mret r1 else mret r1) = Done r' /\
     replica_core r' /\ at_hole r' /\ refolds r1 r') as (r' & Hr & Hc' & Hh' & Hf).
  { case_decide as Hd.
    - rewrite first_unchosen_ok by done. rsimpl. case_decide as Hlt; [by apply refold_ok|].
      exists r1. split_and!; try done; try apply refolds_refl. intros Hlt'. lia.
    - exists r1. split_and!; try done; try apply refolds_refl. intros Hlt. unfold r1. simpl.
      rewrite lookup_insert_ne by done. by apply Hh. }
  exists r'. split; [|done]. rassert_by done. rassert_by done. rewrite Hr. rsimpl.
  rassert_by (rewrite (rf_chosen _ _ Hf); simpl; rewrite lookup_insert_eq; by eexists).
  pose proof (rf_folded _ _ Hf). rassert_by done. done.
Qed.

(** One slot walked: the index moved over it, the slot folded and surfaced. *)
Definition walked_one (r : Replica) (ballot : Ballot) : Replica :=
  let s := end_of r in
  let r1 := refolded (with_index r (Some s)) in
  with_committed r1 (rep_committed r1 ++ [(s, ballot, L s, slot_verdict s)]).

Lemma indexed_core r s : replica_core r -> end_of r <= s + 1 -> s < u64_max -> replica_core (with_index r (Some s)).
Proof.
  intros Hc Hs Hm. pose proof Hc as []. split; try done; simpl.
  change (end_of (with_index r (Some s))) with (s + 1). lia.
Qed.

Lemma walked_one_ok r ballot c :
  replica_core r -> rep_folded r = end_of r -> rep_chosen r !! end_of r = Some c ->
  c = L (end_of r) /\ end_of r < u64_max /\
  fold_one (with_index r (Some (end_of r))) (end_of r) c =
    Done (refolded (with_index r (Some (end_of r))), slot_verdict (end_of r)) /\
  replica_core (walked_one r ballot) /\ end_of (walked_one r ballot) = end_of r + 1.
Proof using Hfit.
  intros Hc Hf Hs. destruct (co_chosen _ Hc _ _ Hs) as (-> & _ & Hm). split; [done|]. split; [done|].
  pose proof (indexed_core r (end_of r) Hc ltac:(lia) Hm) as Hc1. set (r1 := with_index r _) in *.
  assert (end_of r1 = end_of r + 1) as He1 by done.
  assert (rep_chosen r1 !! rep_folded r1 = Some (L (rep_folded r1))) as Hs1 by (simpl; by rewrite Hf).
  assert (rep_folded r1 < end_of r1) as Hlt by (rewrite He1; simpl; lia).
  pose proof (fold_one_ok r1 Hc1 Hs1 Hlt) as Hone. change (rep_folded r1) with (rep_folded r) in Hone.
  rewrite Hf in Hone. split; [done|]. pose proof (refolded_core r1 Hc1 Hs1 Hlt) as Hc2. split; [|done].
  pose proof Hc2 as []. unfold walked_one. fold r1. split; try done; simpl.
  - apply Forall_app. split; [done|]. apply Forall_singleton. split; [done|].
    change (end_of r < rep_folded r + 1). lia.
  - rewrite fmap_app. apply StronglySorted_app_2; [|done|by repeat constructor].
    intros x y (e & -> & He)%list_elem_of_fmap Hy. simpl in Hy. apply list_elem_of_singleton in Hy as ->.
    pose proof (co_committed r Hc) as Hall. rewrite Forall_forall in Hall. rewrite <-Hf. by apply Hall.
Qed.

Lemma walk_loop_ok page record_ballot r writes :
  replica_core r -> rep_folded r = end_of r ->
  (forall s c, end_of r <= s -> rep_chosen r !! s = Some c -> is_Some (record_ballot s c)) ->
  exists r' k, walk_loop page record_ballot r (end_of r) writes =
      Done (r', writes ++ (WSetChosenIndex <$> range (end_of r) (end_of r')), k) /\
    replica_core r' /\ rep_folded r' = end_of r' /\ end_of r' = end_of r + N.of_nat k /\ (k <= page)%nat /\
    (k = page \/ rep_chosen r' !! end_of r' = None) /\
    rep_chosen r' = rep_chosen r /\ rep_floor r' = rep_floor r /\ rep_apply_page r' = rep_apply_page r /\
    (forall s, end_of r <= s < end_of r' -> is_Some (rep_chosen r !! s)).
Proof using Hfit.
  revert r writes. induction page as [|page IH]; intros r writes Hc Hf Hb; cbn [walk_loop].
  { exists r, O. unfold range. rewrite N.sub_diag, app_nil_r. split_and!; done || lia. }
  destruct (rep_chosen r !! end_of r) as [c|] eqn:Es.
  2: { exists r, O. unfold range. rewrite N.sub_diag, app_nil_r. split_and!; try done; try lia. by right. }
  rewrite first_unchosen_ok by done. rsimpl. rewrite rassert_true by done. rsimpl.
  destruct (Hb _ _ ltac:(reflexivity) Es) as [ballot Hbal]. rewrite Hbal. simpl.
  destruct (walked_one_ok r ballot c Hc Hf Es) as (-> & Hm & Hone & Hc1 & He1). rewrite Hone. rsimpl.
  rewrite u64_add_ok by lia. rsimpl. cbv zeta.
  change (with_committed _ _) with (walked_one r ballot). rewrite <-He1.
  destruct (IH (walked_one r ballot) (writes ++ [WSetChosenIndex (end_of r)]) Hc1)
    as (r' & k & -> & Hc' & Hf' & He' & Hk & Hst & Hch & Hfl & Hpg & Hall).
  { rewrite He1. simpl. lia. }
  { intros s c Hs. apply Hb. lia. }
  rsimpl. exists r', (S k). rewrite He1 in *. split_and!; try done; try lia.
  - unfold mret, run_ret. do 3 f_equal. rewrite <-app_assoc. f_equal.
    replace (range (end_of r) (end_of r')) with (end_of r :: range (end_of r + 1) (end_of r')); [done|].
    unfold range. replace (N.to_nat (end_of r' - end_of r)) with (S (N.to_nat (end_of r' - (end_of r + 1)))) by lia.
    simpl. f_equal; [lia|]. rewrite <-seq_shift, <-list_fmap_compose. apply list_fmap_ext. intros; simpl; lia.
  - destruct Hst; [left; lia|by right].
  - intros s Hs. destruct (decide (s = end_of r)) as [->|]; [by eexists|]. apply Hall. lia.
Qed.

(** The coupling a walk asks of its caller. *)
Definition coupled (r : Replica) (record_ballot : Slot -> Command -> option Ballot) : Prop :=
  forall s c, end_of r <= s -> rep_chosen r !! s = Some c -> is_Some (record_ballot s c).

(** What a walk leaves: the prefix moved over held slots only, by at most a page,
    or not at all below a hole. *)
Record replica_walks (r r' : Replica) : Prop := {
  wk_chosen : rep_chosen r' = rep_chosen r;
  wk_floor : rep_floor r' = rep_floor r;
  wk_page : rep_apply_page r' = rep_apply_page r;
  wk_end : end_of r <= end_of r' <= end_of r + rep_apply_page r;
  wk_held : forall s, end_of r <= s < end_of r' -> is_Some (rep_chosen r !! s) }.

Lemma end_of_le r r' : end_of r <= end_of r' <-> ord_le (rep_chosen_index r) (rep_chosen_index r').
Proof.
  unfold end_of. destruct (rep_chosen_index r), (rep_chosen_index r'); unfold ord_le; simpl; ord_N; try lia; intuition lia.
Qed.

Lemma deferred_core r b : replica_core r -> replica_core (with_deferred r b).
Proof. by intros []. Qed.
Lemma due_core r b b' : replica_core r -> replica_core (with_due r b b').
Proof. by intros []. Qed.

Lemma len_range lo hi : len (range lo hi) = hi - lo.
Proof. unfold range, len. rewrite length_fmap, length_seq. lia. Qed.

Lemma walk_part_ok r record_ballot writes :
  replica_core r -> at_hole r -> coupled r record_ballot ->
  exists r', (if decide (rep_folded r = end_of r) then
       '(r, writes, advanced) ← walk_loop (N.to_nat (rep_apply_page r)) record_ballot r (end_of r) writes;
       end_ ← first_unchosen r;
       rassert (N.of_nat advanced = rep_apply_page r \/ rep_chosen r !! end_ = None)
         "the walk consumes or bounds the contiguous chosen prefix";;
       mret (r, writes)
     else mret (r, writes)) = Done (r', writes ++ (WSetChosenIndex <$> range (end_of r) (end_of r'))) /\
    replica_core r' /\ at_hole r' /\ replica_walks r r'.
Proof using Hfit.
  intros Hc Hh Hb. case_decide as Hf.
  - destruct (walk_loop_ok (N.to_nat (rep_apply_page r)) record_ballot r writes Hc Hf Hb)
      as (r' & k & -> & Hc' & Hf' & He' & Hk & Hst & Hch & Hfl & Hpg & Hall). rsimpl.
    rewrite first_unchosen_ok by done. rsimpl. exists r'. rewrite Hpg. split; [|split_and!; [done| |]].
    + rassert_by (destruct Hst; [left; lia|by right]). done.
    + intros ?. lia.
    + split; try done. lia.
  - exists r. unfold range. rewrite N.sub_diag, app_nil_r. split_and!; try done. split; try done; lia.
Qed.

(** [advance]: the fold resumed, the walk, and the compaction target when a
    truncation was folded. *)
Lemma replica_advance_ok r record_ballot writes :
  replica_core r -> coupled r record_ballot ->
  exists r' target,
    replica_advance r record_ballot writes =
      Done (r', writes ++ (WSetChosenIndex <$> range (end_of r) (end_of r')), target) /\
    replica_core r' /\ at_hole r' /\ replica_settled r' /\ replica_walks r r' /\ rep_truncate_due r' = false /\
    (if rep_compaction_due r' then exists f, greatest_floor r' f /\ target = u64_checked_sub f 1 else target = None).
Proof using Hfit.
  intros Hc Hb. unfold replica_advance. cbv zeta.
  destruct (refold_ok r Hc) as (r1 & -> & Hc1 & Hh1 & Hr1). rsimpl.
  pose proof (refolds_end _ _ Hr1) as He1. rewrite first_unchosen_ok by done. rsimpl.
  destruct (walk_part_ok r1 record_ballot writes Hc1 Hh1) as (r2 & -> & Hc2 & Hh2 & Hw).
  { intros s c. rewrite He1, (rf_chosen _ _ Hr1). apply Hb. }
  rsimpl. rewrite first_unchosen_ok by done. rsimpl. rewrite He1 in *.
  destruct Hw as [Hwc Hwf Hwp Hwe Hwh]. rewrite He1, (rf_chosen _ _ Hr1) in *.
  rewrite (rassert_true (ord_le _ _)) by (simpl; apply end_of_le; lia). rsimpl.
  rewrite (rassert_true (_ <= _)).
  2: { simpl. pose proof (len_range (end_of r) (end_of r2)). unfold len in *.
       rewrite length_app, length_fmap. rewrite Hwp. lia. }
  rsimpl. set (r3 := with_due _ _ _).
  assert (replica_core r3) as Hc3 by (by apply due_core, deferred_core).
  destruct (compaction_target_ok r3 Hc3) as (f & Hct & Hg).
  exists r3, (if rep_compaction_due r3 then u64_checked_sub f 1 else None). split.
  { destruct (rep_compaction_due r3); [rewrite Hct|]; done. }
  split_and!; try done.
  - split; simpl; try done.
    + by rewrite Hwf, (rf_floor _ _ Hr1).
    + by rewrite Hwp, (rf_page _ _ Hr1).
    + change (end_of r3) with (end_of r2). rewrite (rf_page _ _ Hr1) in Hwe. lia.
  - destruct (rep_compaction_due r3); [|done]. by exists f.
Qed.

(** ** Prefix drops *)

Definition replica_dropped (r : Replica) (f : Slot) (base : JournalState) : Replica :=
  mkReplica (bt_split_off f (rep_chosen r)) (rep_chosen_index r) (rep_advance_pending r) f base
    (rep_folded r) (rep_state r) (bt_split_off f (rep_history r)) (bt_split_off f (rep_outcomes r))
    (filter (fun e => f <= e.2) (rep_positions r)) (rep_truncate_due r) (rep_compaction_due r)
    (rep_committed r) (rep_mode r) (rep_apply_page r).

Lemma split_off_above {V} (f : Slot) (m : gmap Slot V) :
  is_none_or (fun s => f <= s) (first_key_of (bt_split_off f m)).
Proof.
  apply first_key_is_none_or. intros k [v Hv]. rewrite lookup_bt_split_off in Hv. ord_N. by case_decide.
Qed.

Lemma replica_drop_prefix_ok r f :
  rep_floor r <= f <= rep_folded r ->
  replica_drop_prefix r f (state_before f) = Done (replica_dropped r f (state_before f)).
Proof.
  intros Hf. unfold replica_drop_prefix. rassert_by lia. rassert_by lia.
  rewrite (journal_assert_invariants_ok mode) by apply state_before_wf. rsimpl. cbv zeta.
  fold (replica_dropped r f (state_before f)). rassert_by apply split_off_above.
  rassert_by (apply Forall_forall; intros [q s] Hq%elem_of_bt_entries; by apply map_lookup_filter_Some in Hq as [_ ?]).
  by rassert_by apply split_off_above.
Qed.

Lemma dropped_core r f :
  replica_core r -> rep_floor r <= f <= rep_folded r -> good_floor f -> replica_core (replica_dropped r f (state_before f)).
Proof.
  intros Hc Hf Hg. pose proof Hc as []. split; try done; simpl; try lia.
  - intros s c. rewrite lookup_bt_split_off. ord_N. case_decide; [|done]. intros [? ?]%(co_chosen _ Hc). split; [done|lia].
  - intros s Hs. rewrite lookup_bt_split_off. ord_N. rewrite decide_True by lia. apply (co_held _ Hc). lia.
  - by eapply fold_exact_drop.
Qed.

(** [truncate] at or below the greatest safe floor: it returns the reference's
    state there, and what it leaves is exact when the floor is good. *)
Lemma replica_truncate_ok r top f :
  replica_core r -> at_hole r -> greatest_floor r top -> rep_floor r < f <= top -> top <= u64_max ->
  let r' := with_deferred (replica_dropped r f (state_before f)) (bool_decide (is_Some (bt_split_off f (rep_chosen r) !! end_of r))) in
  replica_truncate r f = Done (r', state_before f) /\ (good_floor f -> replica_core r' /\ at_hole r' /\ replica_settled r').
Proof using Hfit.
  intros Hc Hh Hg Hf Hm r'. pose proof Hg as [[Hb Hs] _]. split.
  - unfold replica_truncate. destruct (compaction_target_ok r Hc) as (top' & -> & Hg').
    rewrite (greatest_floor_unique _ _ _ Hg' Hg). rsimpl. unfold u64_checked_sub. rewrite decide_True by lia. rsimpl.
    rewrite u64_add_ok by lia. rsimpl. rassert_by (simpl; lia). rewrite state_at_ok by (done || lia). rsimpl.
    rassert_by (rewrite (fe_state _ _ _ _ _ _ (co_fold _ Hc)); pose proof (state_before_mono f top ltac:(lia));
      destruct Hs as [?|[? _]]; lia).
    rewrite replica_drop_prefix_ok by lia. rsimpl. pose proof (co_index _ Hc) as Hi.
    assert (first_unchosen (replica_dropped r f (state_before f)) = Done (end_of r)) as ->.
    { rewrite <-(first_unchosen_ok r Hc). done. }
    rsimpl. rassert_by done. rassert_by done. done.
  - intros Hgood. pose proof (dropped_core r f Hc ltac:(lia) Hgood). split; [by apply deferred_core|].
    split; [|done]. intros Hlt. simpl in *. rewrite lookup_bt_split_off. ord_N. case_decide; [|done]. by apply Hh.
Qed.

(** A jump over slots never seen: the fold restarts at the point. *)
Lemma jumped_core r point :
  replica_core r -> rep_folded r < point <= end_of r -> good_floor point ->
  replica_core (replica_dropped (with_fold r point (state_before point) ∅ ∅ ∅ (rep_truncate_due r)) point (state_before point)).
Proof.
  intros Hc Hp Hg. pose proof Hc as []. split; try done; simpl; try lia.
  - intros s c. rewrite lookup_bt_split_off. ord_N. case_decide; [|done]. intros [? ?]%(co_chosen _ Hc). split; [done|lia].
  - change (end_of (replica_dropped _ _ _)) with (end_of r). lia.
  - eapply fold_exact_drop, fold_exact_init. lia.
  - eapply committed_weaken; [|done]. lia.
Qed.

(** The point's state: the replica's own when its fold is past the point. *)
Lemma trim_base_ok r point :
  replica_core r -> rep_floor r <= point <= end_of r -> good_floor point ->
  exists r1, (if decide (point <= rep_folded r) then base ← state_at r point; mret (r, base)
     else mret (with_fold r point (state_before point) ∅ ∅ ∅ (rep_truncate_due r), state_before point)) =
       Done (r1, state_before point) /\
    replica_drop_prefix r1 point (state_before point) = Done (replica_dropped r1 point (state_before point)) /\
    replica_core (replica_dropped r1 point (state_before point)) /\ point <= rep_folded r1 /\
    rep_chosen r1 = rep_chosen r /\ rep_chosen_index r1 = rep_chosen_index r /\ rep_committed r1 = rep_committed r /\
    rep_apply_page r1 = rep_apply_page r /\ rep_compaction_due r1 = rep_compaction_due r.
Proof.
  intros Hc Hp Hg. case_decide as Hd.
  - rewrite state_at_ok by (done || lia). rsimpl. exists r. split_and!; try done.
    + apply replica_drop_prefix_ok. lia.
    + apply dropped_core; [done|lia|done].
  - eexists. split; [done|]. split_and!; try done; simpl; try lia.
    + apply replica_drop_prefix_ok. simpl. lia.
    + apply jumped_core; [done|lia|done].
Qed.

(** [trim_to] a peer's good floor, with the state the reference has there. *)
Lemma replica_trim_to_ok r point :
  replica_core r -> 0 < point <= u64_max -> rep_floor r <= point -> good_floor point ->
  exists r', replica_trim_to r point (state_before point) = Done (r', state_before point) /\
    replica_core r' /\ at_hole r' /\ replica_settled r' /\ rep_floor r' = point /\
    rep_chosen r' = bt_split_off point (rep_chosen r) /\ end_of r' = N.max (end_of r) point /\
    rep_committed r' = rep_committed r /\ rep_apply_page r' = rep_apply_page r /\
    rep_compaction_due r' = rep_compaction_due r.
Proof using Hfit.
  intros Hc Hp Hfl Hg. unfold replica_trim_to. rewrite (rassert_true (0 < point)) by lia. rsimpl. cbv zeta.
  set (r0 := if decide (is_none_or _ _) then _ else _).
  assert (replica_core r0 /\ end_of r0 = N.max (end_of r) point /\ rep_floor r0 = rep_floor r /\
    rep_chosen r0 = rep_chosen r /\ rep_committed r0 = rep_committed r /\ rep_apply_page r0 = rep_apply_page r /\
    rep_compaction_due r0 = rep_compaction_due r /\ is_some_and (fun ci => point - 1 <= ci) (rep_chosen_index r0))
    as (Hc0 & He0 & Hf0 & Hch0 & Hco0 & Hpg0 & Hdu0 & Hix0).
  { unfold r0. case_decide as Hd.
    - assert (end_of r <= point) as Hle by (unfold end_of; destruct (rep_chosen_index r); simpl in Hd; lia).
      split_and!; try done; simpl; try lia.
      + apply indexed_core; [done|lia..].
      + change (end_of _) with (point - 1 + 1) at 1. lia.
    - destruct (rep_chosen_index r) as [ci|] eqn:Ei; simpl in Hd; [|done].
      split_and!; try done; simpl; [|lia]. unfold end_of. rewrite Ei. lia. }
  destruct (trim_base_ok r0 point Hc0) as (r1 & -> & Hdrop & Hc1 & Hfd1 & Hch1 & Hix1 & Hco1 & Hpg1 & Hdu1); [lia|done|].
  rsimpl. rewrite Hdrop. rsimpl. destruct (refold_ok _ Hc1) as (r2 & -> & Hc2 & Hh2 & Hr2). rsimpl.
  pose proof (refolds_end _ _ Hr2) as He2. rewrite first_unchosen_ok by done. rsimpl.
  assert (end_of r2 = end_of r0) as He. { rewrite He2. unfold end_of, replica_dropped. simpl. by rewrite Hix1. }
  pose proof (rf_folded _ _ Hr2) as Hfd2. simpl in Hfd2.
  rewrite (rassert_true (is_some_and _ _)) by (simpl; rewrite (rf_index _ _ Hr2); simpl; by rewrite Hix1).
  rsimpl. rewrite (rassert_true (point <= _)) by (simpl; lia). rsimpl.
  rewrite (rassert_true (_ = point)) by (simpl; by rewrite (rf_floor _ _ Hr2)). rsimpl.
  eexists. split; [done|]. split_and!.
  - by apply deferred_core.
  - done.
  - done.
  - simpl. by rewrite (rf_floor _ _ Hr2).
  - simpl. rewrite (rf_chosen _ _ Hr2). simpl. by rewrite Hch1, Hch0.
  - change (end_of r2 = N.max (end_of r) point). lia.
  - simpl. rewrite (rf_committed _ _ Hr2). simpl. by rewrite Hco1.
  - simpl. rewrite (rf_page _ _ Hr2). simpl. by rewrite Hpg1.
  - simpl. rewrite (rf_due _ _ Hr2). simpl. by rewrite Hdu1.
Qed.

(** ** Boot *)

(** What the durable state has to say for a boot to resume the fold: the sealed
    state is the reference's at a good floor inside the prefix, and the records
    of the prefix carry the decided commands. *)
Record boot_ok (chosen_index : option Slot) (floor : Slot) (sealed : JournalState)
  (records : gmap Slot (Ballot * Command)) : Prop := {
  bo_index : is_none_or (fun ci => ci < u64_max) chosen_index;
  bo_floor : floor <= match chosen_index with Some s => s + 1 | None => 0 end;
  bo_sealed : sealed = state_before floor;
  bo_good : good_floor floor;
  bo_records : forall s b c, records !! s = Some (b, c) -> is_some_and (fun ci => s <= ci) chosen_index ->
    floor <= s /\ c = L s }.

Lemma replica_from_boot_ok chosen_index floor sealed records :
  boot_ok chosen_index floor sealed records ->
  exists r, replica_from_boot mode chosen_index floor sealed records = Done r /\
    replica_core r /\ at_hole r /\ replica_settled r /\ rep_chosen_index r = chosen_index /\ rep_floor r = floor /\
    rep_committed r = [] /\ rep_compaction_due r = false /\
    rep_chosen r = snd <$> filter (fun e : Slot * (Ballot * Command) => is_some_and (fun ci => e.1 <= ci) chosen_index) records.
Proof using Hfit.
  intros [Hi Hf -> Hg Hrec]. unfold replica_from_boot. cbv zeta. set (ch := snd <$> _).
  assert (forall s c, ch !! s = Some c -> is_some_and (fun ci => s <= ci) chosen_index /\ c = L s /\ floor <= s) as Hch.
  { intros s c. unfold ch. rewrite lookup_fmap_Some. intros ([b c'] & <- & Hs). simpl.
    apply map_lookup_filter_Some in Hs as [Hs Hle]. simpl in Hle. destruct (Hrec _ _ _ Hs Hle). done. }
  set (r0 := mkReplica _ _ _ _ _ _ _ _ _ _ _ _ _ _ _).
  assert (replica_core r0) as Hc0.
  { split; try done; simpl; try lia.
    - intros s c (Hle & -> & ?)%Hch. split; [done|]. destruct chosen_index as [ci|]; simpl in *; [lia|done].
    - apply fold_exact_init.
    - constructor. }
  destruct (refold_ok r0 Hc0) as (r & -> & Hc & Hh & Hr). rsimpl.
  pose proof (refolds_end _ _ Hr) as He. pose proof (co_folded _ Hc) as Hfo.
  pose proof (rf_index _ _ Hr) as Hix. pose proof (rf_chosen _ _ Hr) as Hchr. simpl in Hix, Hchr.
  rewrite (rassert_true (ord_le _ _)).
  2: { simpl. rewrite Hchr. destruct (last_key_of ch) as [k|] eqn:Ek; [|done].
       apply last_key_of_Some in Ek as [[c Hk] _]. apply Hch in Hk as (Hle & _).
       destruct chosen_index; simpl in Hle; [|done]. done. }
  rsimpl. pose proof (rf_folded _ _ Hr) as Hfd. simpl in Hfd.
  rewrite (rassert_true (floor <= _)) by done. rsimpl.
  rewrite (first_unchosen_ok (with_due _ _ _)) by by apply due_core. rsimpl.
  rewrite (rassert_true (_ <= _)) by done. rsimpl.
  pose proof (rf_committed _ _ Hr) as Hco. simpl in Hco. rewrite (rassert_true (_ = [])) by done. rsimpl.
  eexists. split; [done|]. split_and!; try done.
  - by apply due_core.
  - unfold replica_settled. simpl. rewrite (rf_pending _ _ Hr). simpl. symmetry. apply bool_decide_eq_false_2.
    change (end_of (with_due r _ _)) with (end_of r). rewrite He, Hchr. unfold end_of. simpl.
    intros [c (Hle & _)%Hch]. destruct chosen_index; simpl in Hle; [lia|done].
  - simpl. by rewrite (rf_floor _ _ Hr).
  - simpl. by rewrite (rf_due _ _ Hr).
Qed.

(** ** The assertions *)

Lemma chosen_above r : replica_core r -> is_none_or (fun s => rep_floor r <= s) (first_key_of (rep_chosen r)).
Proof. intros Hc. apply first_key_is_none_or. intros s [c Hs]. by apply (co_chosen _ Hc) in Hs as (_ & ? & _). Qed.

Lemma outcome_bounds r s : replica_core r -> is_Some (rep_outcomes r !! s) -> rep_floor r <= s < rep_folded r.
Proof. intros Hc [o Ho]. rewrite (fe_outcomes _ _ _ _ _ _ (co_fold _ Hc)) in Ho. case_decide; [tauto|done]. Qed.
Lemma history_bounds r s : replica_core r -> is_Some (rep_history r !! s) -> rep_floor r <= s < rep_folded r.
Proof. intros Hc [o Ho]. rewrite (fe_history _ _ _ _ _ _ (co_fold _ Hc)) in Ho. case_decide; [tauto|done]. Qed.

Lemma positions_ends r :
  replica_core r ->
  is_none_or (fun e : Seq * Slot => rep_floor r <= e.2) (first_entry (rep_positions r)) /\
  is_none_or (fun e : Seq * Slot => e.2 < rep_folded r) (last_entry (rep_positions r)) /\
  is_none_or (fun q => q < next (rep_folded r)) (last_key_of (rep_positions r)).
Proof.
  intros Hc. pose proof (positions_bounds _ _ _ _ _ _ (co_fold _ Hc)) as Hb. split_and!.
  - destruct (first_entry (rep_positions r)) as [[q s]|] eqn:E; simpl; [|done].
    apply first_entry_Some in E. by apply Hb in E as [[? _] _].
  - apply (positions_last _ _ _ _ _ _ (co_fold _ Hc)).
  - apply last_key_is_none_or. intros q [s Hs]. apply Hb in Hs as (_ & _ & ? & ?). done.
Qed.

Lemma replica_assert_invariants_ok r :
  replica_core r -> at_hole r -> replica_settled r -> replica_assert_invariants r (rep_floor r) = Done tt.
Proof.
  intros Hc Hh Hs. unfold replica_assert_invariants. pose proof (co_page _ Hc) as [Hp1 Hp2].
  rassert_by done. rassert_by done. rewrite first_unchosen_ok by done. rsimpl. rewrite Hs.
  eapply bind_seq with (a := tt);
    [case_decide; [by rewrite rassert_true by by apply bool_decide_eq_true_2|done]|cbv beta].
  eapply bind_seq with (a := tt); [case_bool_decide; [by rewrite rassert_true|done]|cbv beta].
  rassert_by by apply chosen_above. rassert_by done.
  rassert_by apply (co_floor _ Hc). rassert_by apply (co_folded _ Hc).
  eapply bind_seq with (a := tt); [case_decide; [by rewrite rassert_true by by apply Hh|done]|cbv beta].
  rassert_by (apply first_key_is_none_or; intros s Ho; apply (outcome_bounds r s Hc Ho)).
  rassert_by (apply first_key_is_none_or; intros s Ho; apply (history_bounds r s Hc Ho)).
  rassert_by (apply last_key_is_none_or; intros s Ho; apply (outcome_bounds r s Hc Ho)).
  rassert_by (apply last_key_is_none_or; intros s Ho; apply (history_bounds r s Hc Ho)).
  rewrite (co_base _ Hc), (fe_state _ _ _ _ _ _ (co_fold _ Hc)).
  rewrite !(journal_assert_invariants_ok mode) by apply state_before_wf. rsimpl.
  pose proof (state_before_mono _ _ (co_floor _ Hc)) as (? & ? & ?).
  rassert_by done. rassert_by done. rassert_by done.
  destruct (positions_ends r Hc) as (? & ? & ?). rassert_by done. rassert_by done. by apply rassert_true.
Qed.

Lemma compacted_fold_ok r held l b :
  replica_core r -> mode = Single -> (forall e, e ∈ l -> rep_floor r <= e.1 < rep_folded r /\ e.2 = L e.1) ->
  exists b', foldM (compacted_step r held) b l = Done b' /\
    (b = true -> b' = true) /\ (forall e q, e ∈ l -> retries e.1 q -> at_floor r held q -> b' = true).
Proof.
  intros Hc Hm. revert b. induction l as [|[s c] l IH]; intros b Hl; cbn [foldM].
  { exists b. split_and!; [done..|]. by intros e q ?%elem_of_nil. }
  destruct (Hl (s, c) ltac:(left)) as [Hs Hsc]. simpl in Hs, Hsc. subst c.
  assert (exists b1, compacted_step r held b (s, L s) = Done b1 /\ (b = true -> b1 = true) /\
    forall q, retries s q -> at_floor r held q -> b1 = true) as (b1 & -> & Hb1 & Hq1).
  { unfold compacted_step. cbn [fst snd]. destruct (L s) as [e|c] eqn:El; simpl.
    2: { exists b. split_and!; try done. intros q (_ & _ & e & ? & _). congruence. }
    rewrite state_at_ok by (done || lia). rsimpl. case_decide as Hd.
    { exists b. split_and!; try done. intros q (_ & Hq & e' & He & <-). rewrite El in He. injection He as <-. lia. }
    assert (retries s (e_seq e)) as Hr by (split_and!; [done|lia..|by exists e]).
    rewrite rassert_true; [|rewrite (co_base _ Hc); eapply (co_good _ Hc s); [lia|done]]. rsimpl.
    eexists. split; [done|]. split; [by intros ->|]. intros q (_ & Hq & e' & He & <-) Hat.
    rewrite El in He. injection He as <-. rewrite bool_decide_eq_true_2 by done. by destruct b. }
  rsimpl. destruct (IH b1) as (b' & -> & Hb' & Hq'); [intros; apply Hl; by right|].
  exists b'. split_and!; [done|auto|]. intros e q [->|He]%elem_of_cons; [simpl; eauto|]. by eapply Hq'.
Qed.

Lemma held_at_floor_ok r :
  replica_core r -> rep_floor r < rep_folded r ->
  exists held, held_at_floor r = Done held /\ forall q, q < next (rep_floor r + 1) -> at_floor r held q.
Proof using Hfit.
  intros Hc Hlt. unfold held_at_floor, at_floor. rewrite (fe_outcomes _ _ _ _ _ _ (co_fold _ Hc)), (co_base _ Hc).
  destruct (accepted_write (L (rep_floor r)) (slot_verdict (rep_floor r))) as [p|] eqn:Ea.
  - apply accepted_write_iff in Ea as [n Hv]. destruct (verdict_accepted _ _ _ Hv) as (e & _ & _ & _ & Hp & Hn & _).
    rewrite Hv. rewrite decide_True by (split; [lia|done]).
    rewrite u64_add_ok by (rewrite <-Hn; apply next_fits). rsimpl. eexists. split; [done|]. simpl. intros q Hq. lia.
  - assert (next (rep_floor r + 1) = next (rep_floor r)) as ->.
    { apply verdict_not_accepted. intros q n Hv.
      assert (accepted_write (L (rep_floor r)) (slot_verdict (rep_floor r)) = Some q) by (apply accepted_write_iff; by eexists).
      congruence. }
    exists (0, 0). split; [|by left]. case_decide; [|done].
    destruct (slot_verdict (rep_floor r)) as [q n| | | | | | | | |] eqn:Hv; try done.
    assert (accepted_write (L (rep_floor r)) (slot_verdict (rep_floor r)) = Some q) by (apply accepted_write_iff; by eexists).
    congruence.
Qed.

(** The check of a compaction passes once the floor is the greatest safe one. *)
Lemma assert_compacted_ok r :
  replica_core r -> (rep_compaction_due r = true -> forall f, safe_floor r f -> f <= rep_floor r) ->
  assert_compacted r = Done (with_due r (rep_truncate_due r) false).
Proof using Hfit.
  intros Hc Hmax. unfold assert_compacted. cbv zeta. set (r1 := with_due _ _ _).
  destruct (rep_compaction_due r); [|done]. specialize (Hmax eq_refl). cbn [negb].
  assert (replica_core r1) as Hc1 by by apply due_core. pose proof (co_floor _ Hc1) as Hfl.
  rassert_by done. destruct (decide (rep_floor r1 = rep_folded r1)) as [Heq|Hne].
  - assert (exists held, held_at_floor r1 = Done held) as [held ->].
    { unfold held_at_floor. rewrite (fe_outcomes _ _ _ _ _ _ (co_fold _ Hc1)), decide_False by lia. by eexists. }
    rsimpl. rewrite bool_decide_eq_true_2 by by left. rewrite (co_mode _ Hc1). case_decide as Hm; rsimpl.
    + rewrite bt_range_ok by olia. rsimpl. rewrite filter_none; [done|].
      apply Forall_forall. intros e _ Hb. olia.
    + done.
  - destruct (held_at_floor_ok r1 Hc1 ltac:(lia)) as (held & -> & Hat). rsimpl.
    rewrite (fe_state _ _ _ _ _ _ (co_fold _ Hc1)), (co_mode _ Hc1). set (b := bool_decide _).
    assert (exists b', (if decide (mode = Single) then
       retained ← bt_range (rep_floor r1) (rep_folded r1) (rep_chosen r1); foldM (compacted_step r1 held) b retained
       else mret b) = Done b' /\ (b = true -> b' = true) /\
       (forall s q, rep_floor r1 < s < rep_folded r1 -> retries s q -> at_floor r1 held q -> b' = true))
      as (b' & -> & Hb & Hq).
    { case_decide as Hm; [|exists b; split_and!; try done; by intros ? ? ? (? & _)].
      rewrite bt_range_ok by olia. rsimpl. destruct (compacted_fold_ok r1 held
        (filter (fun kv => ord_le (rep_floor r1) kv.1 /\ ord_lt kv.1 (rep_folded r1)) (bt_entries (rep_chosen r1))) b Hc1 Hm)
        as (b' & -> & Hb' & Hq').
      - intros [s c] [Hs Hin]%list_elem_of_filter. apply elem_of_bt_entries in Hin. simpl in *.
        apply (co_chosen _ Hc1) in Hin as [-> _]. split; [olia|done].
      - exists b'. split_and!; [done..|]. intros s q Hs. apply (Hq' (s, L s)).
        apply list_elem_of_filter. rewrite elem_of_bt_entries. cbn [fst snd]. split; [olia|]. apply (co_held _ Hc1). lia. }
    rsimpl. destruct b' eqn:Eb; [by rewrite rassert_true|exfalso].
    assert (rep_floor r1 + 1 <= rep_floor r1) as ?; [|lia]. apply Hmax. split; [simpl in *; lia|]. right. split.
    + destruct (decide (next (rep_floor r1 + 1) <= first (rep_folded r1))) as [|Hgt]; [done|].
      enough (b = true) by (by specialize (Hb H)). apply bool_decide_eq_true_2. right.
      pose proof (state_before_mono (rep_floor r1 + 1) (rep_folded r1) ltac:(lia)). split; [lia|]. apply Hat. lia.
    + intros s q Hs Hr. destruct (decide (next (rep_floor r1 + 1) <= q)) as [|Hgt]; [done|].
      enough (false = true) by done. apply (Hq s q); [simpl in *; lia|done|]. apply Hat. lia.
Qed.

Lemma replica_chosen_index_ok r : replica_core r -> replica_chosen_index r = Done (rep_chosen_index r).
Proof.
  intros Hc. unfold replica_chosen_index. rewrite first_unchosen_ok by done. rsimpl.
  pose proof (co_folded _ Hc). pose proof (co_floor _ Hc). rassert_by done. by rassert_by lia.
Qed.

Lemma replica_covers_ok r index :
  replica_core r -> replica_covers r index = Done (bool_decide (is_none_or (fun i => i < rep_folded r) index)).
Proof.
  intros Hc. unfold replica_covers. destruct index as [i|]; [|done]. simpl.
  case_bool_decide as Hi; [|done]. pose proof (co_folded _ Hc) as Hf. unfold end_of in Hf.
  destruct (rep_chosen_index r); simpl; [|lia]. by rewrite rassert_true by lia.
Qed.

Lemma is_chosen_ok r s : replica_core r -> is_chosen r s = Done (bool_decide (is_Some (rep_chosen r !! s))).
Proof.
  intros Hc. unfold is_chosen. case_bool_decide as Hs; [|done]. destruct Hs as [c Hs].
  apply (co_chosen _ Hc) in Hs as (_ & ? & _). by rewrite rassert_true.
Qed.

Lemma replica_chosen_at_ok r s : replica_core r -> replica_chosen_at r s = Done (rep_chosen r !! s).
Proof.
  intros Hc. unfold replica_chosen_at. case_decide as Hs; [|done]. destruct Hs as [c Hs].
  apply (co_chosen _ Hc) in Hs as (_ & ? & _). by rewrite rassert_true.
Qed.

Lemma replica_committed_ok r : replica_core r -> replica_committed r = Done (rep_committed r).
Proof.
  intros Hc. unfold replica_committed. rassert_by idtac.
  { pose proof (co_ascend _ Hc) as Hs. induction Hs as [|s l Hs IH Hall]; [constructor|].
    unfold windows2. simpl. destruct l as [|s' l]; simpl; constructor; [|by apply IH].
    simpl. by apply Forall_cons in Hall as [? _]. }
  destruct (last (rep_committed r)) as [e|] eqn:El; [|done]. rewrite first_unchosen_ok by done. rsimpl.
  rewrite rassert_true; [done|]. apply last_Some in El as [l El]. pose proof (co_committed _ Hc) as Hall.
  rewrite El, Forall_app, Forall_singleton in Hall. destruct Hall as [_ [_ ?]]. pose proof (co_folded _ Hc). lia.
Qed.

Lemma outcome_at_ok r s :
  replica_core r ->
  outcome_at r s = Done (if decide (rep_floor r <= s < rep_folded r /\ slot_verdict s <> ONoop) then Some (slot_verdict s) else None).
Proof.
  intros Hc. unfold outcome_at. rewrite (fe_outcomes _ _ _ _ _ _ (co_fold _ Hc)).
  case_decide as Hd; [|by rewrite decide_False by by intros []].
  rewrite decide_True by by eexists. destruct Hd as [[? ?] _]. by rewrite !rassert_true by done.
Qed.

Lemma fold_hole_ok r :
  replica_core r -> at_hole r -> fold_hole r = Done (if decide (rep_folded r < end_of r) then Some (rep_folded r) else None).
Proof.
  intros Hc Hh. unfold fold_hole. rewrite first_unchosen_ok by done. rsimpl. case_decide as Hd; [|done].
  rassert_by by apply Hh. pose proof (co_floor _ Hc). rassert_by done. by rassert_by done.
Qed.

Lemma replica_journal_ok r : replica_core r -> replica_journal r = Done (state_before (rep_folded r)).
Proof.
  intros Hc. unfold replica_journal. rewrite (fe_state _ _ _ _ _ _ (co_fold _ Hc)), (co_base _ Hc).
  pose proof (state_before_mono _ _ (co_floor _ Hc)) as (_ & ? & _).
  rassert_by done. by rassert_by apply first_le_next.
Qed.
End reference.
