(* ===== verification/ReplicaRead.v ===== *)
(** * Journal reads from a replica ([Replica::read])

    The records of a journal are one sequence ([records_before]); a read serves a
    stretch of it, cut by the two limits of the call. *)

From S2P Require Import Prelude BTree Types Journal Contract Replica ReplicaInv.

(** ** Cutting a page *)

(** The records a page takes from a sequence, and their bytes. *)
Fixpoint page_cut (limit max_bytes : N) (page : list bytes) (size : N) (l : list bytes) : list bytes * N :=
  match l with
  | [] => (page, size)
  | record :: rest =>
      if decide (limit <= len page \/ (page <> [] /\ max_bytes < usize_saturating_add size (len record)))
      then (page, size)
      else page_cut limit max_bytes (page ++ [record]) (usize_saturating_add size (len record)) rest
  end.

(** The bytes of records, as the saturating [usize] sum counts them. *)
Definition page_bytes (l : list bytes) : N := N.min (Nsum ((fun r => len r) <$> l)) usize_max.

Lemma page_bytes_snoc l record : page_bytes (l ++ [record]) = usize_saturating_add (page_bytes l) (len record).
Proof. unfold page_bytes, usize_saturating_add. rewrite fmap_app, Nsum_app. simpl. lia. Qed.

(** A page is the longest stretch that has at most [limit] records and, past its
    first record, at most [max_bytes] bytes. *)
Lemma page_cut_longest limit max_bytes page l :
  len page <= limit -> (1 < len page -> page_bytes page <= max_bytes) ->
  exists k, page_cut limit max_bytes page (page_bytes page) l = (page ++ take k l, page_bytes (page ++ take k l)) /\
    (k <= length l)%nat /\ len (page ++ take k l) <= limit /\
    (1 < len (page ++ take k l) -> page_bytes (page ++ take k l) <= max_bytes) /\
    (forall record, l !! k = Some record ->
      len (page ++ take k l) = limit \/
      (page ++ take k l <> [] /\ max_bytes < page_bytes (page ++ take k l ++ [record]))).
Proof.
  revert page. induction l as [|record l IH]; intros page Hl Hb; simpl.
  { exists O. rewrite app_nil_r. split_and!; try done. }
  case_decide as Hd.
  - exists O. simpl. rewrite app_nil_r. split_and!; try done; try lia.
    intros ? [= <-]. destruct Hd as [|[? ?]]; [left; lia|]. right. split; [done|]. by rewrite page_bytes_snoc.
  - assert (limit <= len page -> False) as Hlt by tauto. rewrite <-page_bytes_snoc.
    destruct (IH (page ++ [record])) as (k & -> & Hk & H1 & H2 & H3).
    { unfold len in *. rewrite length_app. simpl. lia. }
    { intros Hlen. rewrite page_bytes_snoc. apply N.le_ngt. intros Hgt. apply Hd. right. split; [|done].
      intros ->. unfold len in Hlen. simpl in Hlen. lia. }
    exists (S k). simpl. rewrite <-!app_assoc in *. simpl in *. split_and!; try done; try lia.
    intros x Hx. destruct (H3 x Hx) as [|[? Hy]]; [by left|right]. split; [done|]. by rewrite <-app_assoc in Hy.
Qed.

Lemma page_cut_full limit max_bytes page size l :
  limit <= len page -> page_cut limit max_bytes page size l = (page, size).
Proof. intros Hl. destruct l; [done|]. simpl. by rewrite decide_True by by left. Qed.

Lemma copy_records_ok limit max_bytes page size at_ records rest :
  at_ + len records <= u64_max ->
  exists page' size' at' stopped,
    copy_records limit max_bytes page size at_ records = Done (page', size', at', stopped) /\
    (page_cut limit max_bytes page size (records ++ rest) =
       if stopped : bool then (page', size') else page_cut limit max_bytes page' size' rest) /\
    (stopped = false -> at' = at_ + len records).
Proof.
  revert page size at_. induction records as [|record records IH]; intros page size at_ Hat; simpl.
  { exists page, size, at_, false. split_and!; try done. intros _. unfold len. simpl. lia. }
  unfold len in Hat. simpl in Hat. case_decide as Hd.
  { by exists page, size, at_, true. }
  rewrite u64_add_ok by (unfold len; lia). rsimpl.
  destruct (IH (page ++ [record]) (usize_saturating_add size (len record)) (at_ + 1)) as (p & z & a & st & -> & Hc & Ha).
  { unfold len. lia. }
  exists p, z, a, st. split_and!; try done. intros Hst. rewrite (Ha Hst). unfold len. simpl. lia.
Qed.

Section reads.
Context (mode : WriterMode) (L : Slot -> Command).
Abbreviation next s := (j_next_seq (state_before mode L s)) (only parsing).

(** ** The records of the journal *)

Definition records_of (s : Slot) : list bytes :=
  match slot_verdict mode L s, L s with OAccepted _ _, Write e => e_records e | _, _ => [] end.
Definition records_before (s : Slot) : list bytes := concat (records_of <$> range 0 s).

Lemma range_split (lo mid hi : N) : lo <= mid <= hi -> range lo hi = range lo mid ++ range mid hi.
Proof.
  intros Hm. unfold range. replace (N.to_nat (hi - lo)) with (N.to_nat (mid - lo) + N.to_nat (hi - mid))%nat by lia.
  rewrite seq_app, fmap_app. f_equal. rewrite Nat.add_0_l. rewrite <-(Nat.add_0_r (N.to_nat (mid - lo))).
  rewrite <-fmap_add_seq, <-list_fmap_compose. apply list_fmap_ext. intros; simpl; lia.
Qed.

Lemma range_one (s : N) : range s (s + 1) = [s].
Proof. unfold range. replace (N.to_nat (s + 1 - s)) with 1%nat by lia. simpl. f_equal. lia. Qed.

Lemma records_before_succ s : records_before (s + 1) = records_before s ++ records_of s.
Proof.
  unfold records_before. rewrite (range_split 0 s (s + 1)) by lia. rewrite fmap_app, concat_app, range_one.
  simpl. by rewrite app_nil_r.
Qed.

(** The journal's next position counts its records. *)
Lemma records_before_len s : len (records_before s) = next s.
Proof.
  induction s as [|s IH] using N.peano_ind; [done|].
  rewrite <-N.add_1_r, records_before_succ. unfold len in *. rewrite length_app.
  destruct (accepted_write (L s) (slot_verdict mode L s)) as [q|] eqn:Ea.
  - apply accepted_write_iff in Ea as [n Hv].
    destruct (verdict_accepted _ _ _ _ _ Hv) as (e & He & -> & _ & Hq & Hn & _).
    unfold records_of. rewrite Hv, He. unfold count, len in Hn. lia.
  - assert (forall q n, slot_verdict mode L s <> OAccepted q n) as Hna.
    { intros q n Hv. assert (accepted_write (L s) (slot_verdict mode L s) = Some q) by (apply accepted_write_iff; by eexists).
      congruence. }
    rewrite verdict_not_accepted by done. unfold records_of.
    destruct (slot_verdict mode L s); try (simpl; lia). by destruct (Hna seq count).
Qed.

(** The sequence from a position inside a write on. *)
Lemma records_from s t e p n i :
  s < t -> L s = Write e -> slot_verdict mode L s = OAccepted p n -> (i <= length (e_records e))%nat ->
  exists rest, drop (N.to_nat p + i) (records_before t) = drop i (e_records e) ++ rest /\
    rest = drop (N.to_nat p + length (e_records e)) (records_before t).
Proof.
  intros Hst He Hv Hi. destruct (verdict_accepted _ _ _ _ _ Hv) as (_ & _ & _ & _ & Hp & _).
  assert (exists rest, records_before t = records_before s ++ e_records e ++ rest) as [rest ->].
  { exists (concat (records_of <$> range (s + 1) t)). unfold records_before.
    rewrite (range_split 0 s t) by lia. rewrite (range_split s (s + 1) t) by lia.
    rewrite !fmap_app, !concat_app, range_one. simpl. rewrite app_nil_r. do 2 f_equal.
    unfold records_of. by rewrite Hv, He. }
  assert (length (records_before s) = N.to_nat p) as Hlen.
  { pose proof (records_before_len s) as Hl. unfold len in Hl. lia. }
  exists rest. rewrite <-Hlen. split.
  - rewrite <-drop_drop, drop_app_length, drop_app_le by done. done.
  - by rewrite <-drop_drop, drop_app_length, drop_app_length.
Qed.

(** ** The read *)

Context (Hfit : forall s, fits (state_before mode L s) (L s)).

Lemma read_loop_ok fuel r limit max_bytes page size at_ :
  replica_core mode L r -> next (rep_floor r) <= at_ -> (N.to_nat (next (rep_folded r) - at_) < fuel)%nat ->
  read_loop fuel r limit max_bytes page size at_ =
    Done (page_cut limit max_bytes page size (drop (N.to_nat at_) (records_before (rep_folded r)))).
Proof using Hfit.
  intros Hc. pose proof (records_before_len (rep_folded r)) as Hlen. unfold len in Hlen.
  revert page size at_. induction fuel as [|fuel IH]; intros page size at_ Hlo Hf; [lia|]. cbn [read_loop].
  rewrite (fe_state _ _ _ _ _ _ _ _ (co_fold _ _ _ Hc)). case_decide as Hd.
  2: { destruct (decide (at_ < next (rep_folded r))) as [Hlt|Hge].
       - rewrite page_cut_full; [done|]. apply N.le_ngt. tauto.
       - rewrite drop_ge by lia. done. }
  destruct Hd as [Hlt Hl].
  destruct (positions_cover _ _ _ _ _ _ _ _ (co_fold _ _ _ Hc) at_ ltac:(lia)) as (start & s & n & -> & Hs & Hv & Hsq).
  destruct (verdict_accepted _ _ _ _ _ Hv) as (e & He & -> & Hn & Hst & Hnx & _). rsimpl.
  simpl rexpect. rsimpl. rewrite (co_held _ _ _ Hc s Hs), He. simpl rexpect. rsimpl.
  unfold count, len in Hsq, Hnx. rewrite rassert_true by (unfold len; lia). rsimpl.
  set (i := N.to_nat (at_ - start)).
  destruct (records_from s (rep_folded r) e start (count e) i ltac:(lia) He Hv ltac:(unfold i; lia)) as (rest & Hdrop & Hrest).
  replace (N.to_nat start + i)%nat with (N.to_nat at_) in Hdrop by (unfold i; lia).
  destruct (copy_records_ok limit max_bytes page size at_ (drop i (e_records e)) rest) as (p & z & a & st & -> & Hcut & Ha).
  { unfold len. rewrite length_drop. pose proof (next_fits mode L Hfit (s + 1)). unfold i. lia. }
  rsimpl. rewrite Hdrop, Hcut. destruct st; [done|]. rewrite Hrest.
  assert (a = start + N.of_nat (length (e_records e))) as ->.
  { rewrite Ha by done. unfold len. rewrite length_drop. unfold i. lia. }
  rewrite IH by lia. do 3 f_equal. lia.
Qed.

(** What [read] answers: where the journal now starts, that the record is not
    held here, or a page cut from the records. *)
Lemma replica_read_ok r from limit max_bytes :
  replica_core mode L r ->
  replica_read r from limit max_bytes = Done (
    let j := state_before mode L (rep_folded r) in
    if decide (from < j_first_seq j) then RTruncated (view j)
    else if decide (from < next (rep_floor r)) then RNotHeld
    else RPage (mkLogPage from (page_cut limit max_bytes [] 0
                  (drop (N.to_nat from) (records_before (rep_folded r)))).1 (view j))).
Proof using Hfit.
  intros Hc. unfold replica_read. cbv zeta. rewrite (fe_state _ _ _ _ _ _ _ _ (co_fold _ _ _ Hc)), (co_base _ _ _ Hc).
  cbn [view v_first_seq v_next_seq]. case_decide as Hfirst; [done|].
  pose proof (state_before_mono mode L _ _ (co_floor _ _ _ Hc)) as (_ & Hmono & _).
  destruct (decide (from < next (rep_floor r))) as [Hlow|Hlow].
  { rewrite rassert_true by lia. done. }
  rewrite read_loop_ok by (done || lia).
  destruct (page_cut_longest limit max_bytes [] (drop (N.to_nat from) (records_before (rep_folded r))))
    as (k & Hcut & Hk & Hlim & Hbytes & _); [unfold len; simpl; lia|unfold len; simpl; lia|].
  change (page_bytes []) with 0 in Hcut. rewrite Hcut. rsimpl. simpl in Hlim, Hbytes. simpl.
  set (p := take k _) in *. pose proof (records_before_len (rep_folded r)) as Hlen. unfold len in Hlen.
  assert (len p <= next (rep_folded r) - from) as Hp.
  { unfold p, len. rewrite length_take, length_drop. lia. }
  pose proof (next_fits mode L Hfit (rep_folded r)) as Hmax.
  eapply bind_seq with (a := tt); [|cbv beta].
  { case_decide as Hd.
    - unfold page_next. simpl. rewrite rassert_true by lia. rsimpl. rewrite rassert_true by lia. rsimpl.
      by rewrite rassert_true by lia.
    - apply rassert_true. apply length_zero_iff_nil. unfold len in Hp. lia. }
  rassert_by done. case_decide; [|done]. by rewrite rassert_true by auto.
Qed.
End reads.
