(* ===== verification/ReplicaNode.v ===== *)
(** * The replica node ([paros-core/src/replica_node.rs], [replica_node/ready.rs])

    A node that learns the chosen log and serves reads, and never votes: a
    [Replica] over a durable log, the ballots of the records its walk has not
    applied, the faulty records it pulls, the configuration it reads under and its
    open quorum reads.  Every handler is here with its assertions, and the boot
    from a store; the counters of the audit report are left out.

    A replica node sends only catch-up requests and pre-reads: [ReplicaSend] has no
    other message. *)

From S2P Require Import Prelude BTree Types Journal Contract Acceptor QuorumSystem AcceptorConfig DeployConfig QuorumRead Storage Replica.

Inductive ReplicaSend :=
| SCatchUpRequest (to : NodeId) (from_slot : Slot)
| SPreRead (to : NodeId) (ctx : N).

(** What a replica node hears; [ROther] is every message that is not a replica's. *)
Inductive ReplicaMsg :=
| RCommit (ballot : Ballot) (slot : Slot) (command : Command)
| RCatchUpResponse (entries : list (Slot * (Ballot * Command)))
| RTrimmedTo (point : Slot) (state : JournalState)
| RHeartbeat (from : NodeId) (ballot : Ballot) (commit : option Slot) (config : option (AcceptorConfig NodeId))
    (fence : option Slot)
| RPreReadAck (from : NodeId) (ctx : N) (watermark : option Slot) (config_since : option Ballot)
| ROther.

Abbreviation Basis := (ReadBasis (I:=NodeId)) (only parsing).
Abbreviation Read := (QuorumRead (I:=NodeId)) (only parsing).

Record ReplicaNode := mkReplicaNode {
  rn_config : DeployConfig;
  rn_replica : Replica;
  rn_floor : Slot;
  rn_faulty : gset Slot;
  rn_unwalked : gmap Slot Ballot;
  rn_leader : option NodeId;
  rn_acceptors : AcceptorConfig NodeId;
  rn_acceptors_since : Ballot;
  rn_read_basis : option Basis;
  rn_quorum_reads : list Read;
  rn_limits : Limits;
  rn_tick_count : N;
  rn_writes : list WriteOp;
  rn_messages : list ReplicaSend;
  rn_read_states : list (N * option Slot) }.

Implicit Types (n : ReplicaNode) (s slot : Slot).

(** The learner's part moved: the replica, its floor, its faulty records, the
    ballots of unwalked records, the batch's writes. *)
Definition on_learner n (r : Replica) (floor : Slot) (faulty : gset Slot) (unwalked : gmap Slot Ballot)
  (writes : list WriteOp) : ReplicaNode :=
  mkReplicaNode (rn_config n) r floor faulty unwalked (rn_leader n) (rn_acceptors n) (rn_acceptors_since n)
    (rn_read_basis n) (rn_quorum_reads n) (rn_limits n) (rn_tick_count n) writes (rn_messages n) (rn_read_states n).
(** The reader's part moved. *)
Definition on_reader n (acceptors : AcceptorConfig NodeId) (since : Ballot) (basis : option Basis)
  (reads : list Read) (read_states : list (N * option Slot)) : ReplicaNode :=
  mkReplicaNode (rn_config n) (rn_replica n) (rn_floor n) (rn_faulty n) (rn_unwalked n) (rn_leader n) acceptors since
    basis reads (rn_limits n) (rn_tick_count n) (rn_writes n) (rn_messages n) read_states.
Definition set_reads n (reads : list Read) (read_states : list (N * option Slot)) : ReplicaNode :=
  on_reader n (rn_acceptors n) (rn_acceptors_since n) (rn_read_basis n) reads read_states.
Definition replica_send n (msgs : list ReplicaSend) : ReplicaNode :=
  mkReplicaNode (rn_config n) (rn_replica n) (rn_floor n) (rn_faulty n) (rn_unwalked n) (rn_leader n) (rn_acceptors n)
    (rn_acceptors_since n) (rn_read_basis n) (rn_quorum_reads n) (rn_limits n) (rn_tick_count n) (rn_writes n)
    (rn_messages n ++ msgs) (rn_read_states n).
Definition set_leader n (leader : option NodeId) : ReplicaNode :=
  mkReplicaNode (rn_config n) (rn_replica n) (rn_floor n) (rn_faulty n) (rn_unwalked n) leader (rn_acceptors n)
    (rn_acceptors_since n) (rn_read_basis n) (rn_quorum_reads n) (rn_limits n) (rn_tick_count n) (rn_writes n)
    (rn_messages n) (rn_read_states n).
Definition set_ticks n (ticks : N) : ReplicaNode :=
  mkReplicaNode (rn_config n) (rn_replica n) (rn_floor n) (rn_faulty n) (rn_unwalked n) (rn_leader n) (rn_acceptors n)
    (rn_acceptors_since n) (rn_read_basis n) (rn_quorum_reads n) (rn_limits n) ticks (rn_writes n)
    (rn_messages n) (rn_read_states n).
Definition set_config n (config : DeployConfig) : ReplicaNode :=
  mkReplicaNode config (rn_replica n) (rn_floor n) (rn_faulty n) (rn_unwalked n) (rn_leader n) (rn_acceptors n)
    (rn_acceptors_since n) (rn_read_basis n) (rn_quorum_reads n) (rn_limits n) (rn_tick_count n) (rn_writes n)
    (rn_messages n) (rn_read_states n).

(** [assert_replica_config_shape]. *)
Definition assert_replica_config_shape (config : DeployConfig) : run unit :=
  rassert (nc_peers config <> []) "a replica knows at least one acceptor to learn from";;
  rassert (sorted_members (nc_peers config)) "membership is sorted and deduplicated";;
  rassert (sorted_members (nc_nodes config)) "the node pool is sorted and deduplicated";;
  rassert (Forall (pooled config) (nc_peers config)) "the bootstrap membership is drawn from the node pool";;
  rassert (~ pooled config (nc_id config)) "a replica is never in the node pool".

(** ** Watermarks and invariants *)

Definition replica_marks n : run (option Slot * Slot) :=
  index ← replica_chosen_index (rn_replica n);
  end_ ← first_unchosen (rn_replica n);
  rassert (rn_floor n <= end_) "a replica's floor never outruns its chosen prefix";;
  mret (index, rn_floor n).

Definition replica_marks_monotone n (before : option Slot * Slot) : run unit :=
  index ← replica_chosen_index (rn_replica n);
  rassert (ord_le before.1 index) "a replica's chosen index never decreases";;
  rassert (before.2 <= rn_floor n) "a replica's floor never decreases".

Definition replica_node_invariants n : run unit :=
  end_ ← first_unchosen (rn_replica n);
  rassert (rn_floor n <= end_) "a replica's floor never outruns its chosen prefix";;
  replica_assert_invariants (rn_replica n) (rn_floor n);;
  rassert (is_none_or (fun s => end_ <= s) (first_key_of (rn_unwalked n)))
    "an unwalked ballot sits at or above the chosen prefix";;
  held ← allM (is_chosen (rn_replica n)) (bt_keys (rn_unwalked n));
  rassert (held = true) "an unwalked ballot belongs to a slot this replica learned chosen";;
  rassert (is_none_or (fun s => rn_floor n <= s) (bs_first (rn_faulty n)))
    "no faulty record survives below a replica's floor";;
  lost ← allM (fun s => b ← is_chosen (rn_replica n) s; mret (negb b)) (bs_elements (rn_faulty n));
  rassert (lost = true) "a faulty record is one whose chosen value this replica cannot read";;
  rassert (existsb is_acceptor_write (rn_writes n) = false) "a replica never emits an acceptor write";;
  pending ← reads_pending (rn_quorum_reads n);
  known ← allM (fun r => watermarks ← read_watermarks r;
                         mret (forallb (fun id => bool_decide (pooled (rn_config n) id)) (bt_keys watermarks))) pending;
  rassert (known = true) "a replica folds no watermark from outside the pool".

(** ** The learner *)

(** [compact]: clamped to what the fold lets go. *)
Definition replica_compact n (up_to : Slot) : run ReplicaNode :=
  target ← compaction_target (rn_replica n);
  match target with
  | None => mret n
  | Some target =>
      let highest_drop := N.min up_to target in
      first ← u64_add highest_drop 1;
      let first := N.max first (rn_floor n) in
      if decide (first <= rn_floor n) then mret n else
      let writes := len (rn_writes n) in
      '(r, sealed) ← replica_truncate (rn_replica n) first;
      let n := on_learner n r first (bs_split_off first (rn_faulty n)) (rn_unwalked n)
                 (rn_writes n ++ [WTruncate first sealed]) in
      rassert (len (rn_writes n) = writes + 1) "a truncation is one durable write";;
      end_ ← first_unchosen (rn_replica n);
      rassert (rn_floor n <= end_) "a replica's compaction never drops an undecided slot";;
      mret n
  end.

(** [advance]: the walk, then the truncation it decided. *)
Definition node_replica_advance n : run ReplicaNode :=
  chosen ← replica_chosen_index (rn_replica n);
  '(r, writes, truncate_up_to) ← replica_advance (rn_replica n) (fun slot _ => rn_unwalked n !! slot) (rn_writes n);
  end_ ← first_unchosen r;
  let n := on_learner n r (rn_floor n) (rn_faulty n) (bt_split_off end_ (rn_unwalked n)) writes in
  n ← match truncate_up_to with Some up_to => replica_compact n up_to | None => mret n end;
  r ← assert_compacted (rn_replica n);
  let n := on_learner n r (rn_floor n) (rn_faulty n) (rn_unwalked n) (rn_writes n) in
  end_ ← first_unchosen (rn_replica n);
  rassert (is_none_or (fun slot => end_ <= slot) (first_key_of (rn_unwalked n)))
    "a replica keeps a ballot only for a slot the walk has not applied";;
  index ← replica_chosen_index (rn_replica n);
  rassert (ord_le chosen index) "a replica's walk never retreats";;
  mret n.

(** [learn]. *)
Definition node_replica_learn n slot (ballot : Ballot) (command : Command) : run ReplicaNode :=
  if decide (slot < rn_floor n) then mret n else
  known ← replica_chosen_at (rn_replica n) slot;
  match known with
  | Some known =>
      rassert (known = command) "a slot already chosen at a replica is relearned with the same value";;
      node_replica_advance n
  | None =>
      r ← replica_learn (rn_replica n) slot command;
      let n := on_learner n r (rn_floor n) (rn_faulty n ∖ {[ slot ]}) (<[slot := ballot]> (rn_unwalked n))
                 (rn_writes n ++ [WLearned slot ballot command]) in
      n ← node_replica_advance n;
      (if decide (rn_floor n <= slot) then
         held ← replica_chosen_at (rn_replica n) slot;
         rassert (held = Some command) "a learned slot is chosen with its value"
       else mret tt);;
      rassert (slot ∉ rn_faulty n) "a learned slot is no longer faulty";;
      mret n
  end.

(** [trim_to]. *)
Definition node_replica_trim n (point : Slot) (state : JournalState) : run ReplicaNode :=
  if decide (point <= rn_floor n) then mret n else
  old ← replica_chosen_index (rn_replica n);
  '(r, sealed) ← replica_trim_to (rn_replica n) point state;
  let n := on_learner n r point (bs_split_off point (rn_faulty n)) (rn_unwalked n)
             (rn_writes n ++ [WTrimmedTo point sealed]) in
  rassert (rn_floor n = point) "a replica's trim jump lands its floor on the point";;
  index ← replica_chosen_index (rn_replica n);
  rassert (ord_le old index) "a replica's trim-point jump never rewinds its chosen index";;
  end_ ← first_unchosen (rn_replica n);
  rassert (rn_floor n <= end_) "a replica's trim-point jump keeps its floor inside the prefix";;
  node_replica_advance n.

Definition request_catch_up n (to : NodeId) (from_slot : Slot) : run ReplicaNode :=
  rassert (to <> nc_id (rn_config n)) "a replica never pulls from itself";;
  rassert (pooled (rn_config n) to) "a replica pulls only from a pooled node";;
  mret (replica_send n [SCatchUpRequest to from_slot]).

(** ** The reader *)

Definition node_read_basis n : run (option Basis) :=
  if config_has_matchmakers (rn_config n) then
    match rn_read_basis n with
    | Some basis =>
        drawn ← is_drawn_from (rb_config basis) (pool (rn_config n));
        rassert (drawn = true) "a replica's read basis is drawn from the pool"
    | None => mret tt
    end;;
    mret (rn_read_basis n)
  else
    rassert (rn_read_basis n = None) "a plain replica stores no read basis";;
    mret (Some (mkBasis (rn_acceptors n) (rn_acceptors_since n) None)).

Definition learn_read_basis n (config : AcceptorConfig NodeId) (ballot : Ballot) (fence : option Slot) : run ReplicaNode :=
  if decide (config_has_matchmakers (rn_config n) = false \/
             is_some_and (fun b => ballot < rb_since b)%B (rn_read_basis n)) then mret n else
  drawn ← is_drawn_from config (pool (rn_config n));
  if negb drawn then mret n else
  let before := rb_since <$> rn_read_basis n in
  let n := on_reader n (rn_acceptors n) (rn_acceptors_since n) (Some (mkBasis config ballot fence))
             (rn_quorum_reads n) (rn_read_states n) in
  rassert (is_none_or (fun b => b ≤ ballot)%B before) "a read basis never moves back";;
  rassert (is_some_and (fun b => rb_since b = ballot) (rn_read_basis n)) "a learned read basis binds its ballot";;
  rassert (is_some_and (fun b => rb_fence b = fence) (rn_read_basis n)) "a learned read basis binds its fence";;
  mret n.

Definition node_learn_config n (ballot : Ballot) (config : option (AcceptorConfig NodeId)) : run ReplicaNode :=
  match config with
  | None => mret n
  | Some config =>
      if decide (config_has_matchmakers (rn_config n) = false \/ (ballot ≤ rn_acceptors_since n)%B) then mret n else
      drawn ← is_drawn_from config (pool (rn_config n));
      if negb drawn then mret n else
      let since := rn_acceptors_since n in
      reads ← abandon_superseded (rn_quorum_reads n) ballot;
      let n := on_reader n config ballot (rn_read_basis n) reads (rn_read_states n) in
      rassert (since < rn_acceptors_since n)%B "a learned configuration is strictly newer";;
      drawn ← is_drawn_from (rn_acceptors n) (pool (rn_config n));
      rassert (drawn = true) "a replica's configuration is drawn from the pool";;
      mret n
  end.

Definition replica_on_heartbeat n (from : NodeId) (ballot : Ballot) (commit : option Slot)
  (config : option (AcceptorConfig NodeId)) (fence : option Slot) : run ReplicaNode :=
  if decide (~ pooled (rn_config n) from) then mret n else
  let n := set_leader n (Some from) in
  rassert (is_some_and (pooled (rn_config n)) (rn_leader n)) "a replica follows a pooled node";;
  n ← match config with Some config => learn_read_basis n config ballot fence | None => mret n end;
  n ← node_learn_config n ballot config;
  index ← replica_chosen_index (rn_replica n);
  if decide (ord_lt index commit) then
    end_ ← first_unchosen (rn_replica n);
    request_catch_up n from end_
  else mret n.

Definition replica_on_pre_read_ack n (from : NodeId) (ctx : N) (watermark : option Slot) (config_since : option Ballot)
  : run ReplicaNode :=
  if decide (~ pooled (rn_config n) from) then mret n else
  '(reads, _) ← reads_fold (rn_quorum_reads n) ctx from watermark config_since;
  mret (set_reads n reads (rn_read_states n)).

(** [serve_quorum_reads]: the reads the fold covers.  An index found covered is
    served, and is put to [covers] again by the check of what was served. *)
Definition replica_serve n : run ReplicaNode :=
  '(reads, served) ← reads_serve (rn_quorum_reads n)
      (fun index => bool_decide (is_none_or (fun i => i < rep_folded (rn_replica n)) index));
  ok ← allM (fun e : N * option Slot => replica_covers (rn_replica n) e.2) served;
  rassert (ok = true) "a served read's index is covered by the replica's fold";;
  mret (set_reads n reads (rn_read_states n ++ served)).

Definition names_read_row (qs : QuorumSystem) : bool :=
  match qs with Grid rows _ acks => bool_decide (acks = rows) | _ => false end.

Definition replica_quorum_read n (ctx : N) (row : option N) : run ReplicaNode :=
  basis ← node_read_basis n;
  match basis with
  | None =>
      rassert (config_has_matchmakers (rn_config n) = true) "only a matchmaker deployment reads without a basis";;
      replica_node_invariants n;;
      mret n
  | Some basis =>
      row ← config_read_row (rb_config basis) ctx row;
      qs ← config_quorum_system (rb_config basis);
      rassert (bool_decide (is_Some row) = names_read_row qs) "a read names a row exactly under a grid";;
      '(reads, addressees) ← reads_open (rn_quorum_reads n) ctx row basis (rn_tick_count n) None;
      let n := set_reads n reads (rn_read_states n) in
      rassert (Forall (pooled (rn_config n)) addressees) "a replica pre-reads only pooled acceptors";;
      pending ← reads_pending (rn_quorum_reads n);
      opened ← anyM (fun r => c ← read_ctx r; mret (bool_decide (c = ctx))) pending;
      rassert (opened = true) "an opened read is pending";;
      let n := replica_send n ((fun to => SPreRead to ctx) <$> addressees) in
      replica_node_invariants n;;
      mret n
  end.

(** ** Inputs *)

Definition replica_handle n (msg : ReplicaMsg) : run ReplicaNode :=
  match msg with
  | RCommit ballot slot command => node_replica_learn n slot ballot command
  | RCatchUpResponse entries =>
      foldM (fun n (e : Slot * (Ballot * Command)) => node_replica_learn n e.1 e.2.1 e.2.2) n entries
  | RTrimmedTo point state => node_replica_trim n point state
  | RHeartbeat from ballot commit config fence => replica_on_heartbeat n from ballot commit config fence
  | RPreReadAck from ctx watermark since => replica_on_pre_read_ack n from ctx watermark since
  | ROther => mret n
  end.

(** [ReplicaNode::step]. *)
Definition replica_step n (msg : ReplicaMsg) : run ReplicaNode :=
  marks ← replica_marks n;
  n ← replica_handle n msg;
  n ← replica_serve n;
  replica_marks_monotone n marks;;
  replica_node_invariants n;;
  mret n.

Definition replica_tick n : run ReplicaNode :=
  marks ← replica_marks n;
  let ticks := rn_tick_count n in
  next ← u64_add ticks 1;
  let n := set_ticks n next in
  rassert (READ_TTL_TICKS <= read_window (rn_limits n)) "a read window keeps its floor";;
  reads ← reads_expire (rn_quorum_reads n) (rn_tick_count n) (read_window (rn_limits n));
  n ← replica_serve (set_reads n reads (rn_read_states n));
  n ← match bs_first (rn_faulty n) with
      | None => mret n
      | Some from_slot =>
          let targets := match rn_leader n with Some leader => [leader] | None => nc_peers (rn_config n) end in
          foldM (fun n to => request_catch_up n to from_slot) n targets
      end;
  rassert (rn_tick_count n = ticks + 1) "a tick advances logical time by one";;
  replica_marks_monotone n marks;;
  replica_node_invariants n;;
  mret n.

(** [advance_recovery]. *)
Definition replica_advance_recovery n : run ReplicaNode :=
  marks ← replica_marks n;
  n ← node_replica_advance n;
  replica_marks_monotone n marks;;
  replica_node_invariants n;;
  mret n.

Definition replica_extend_pool n (nodes : list NodeId) : run (ReplicaNode * bool) :=
  if negb (config_has_matchmakers (rn_config n)) then mret (n, false) else
  let before := len (pool (rn_config n)) in
  let extended := normalize (pool (rn_config n) ++ filter (fun id => id <> nc_id (rn_config n)) nodes) in
  let n := set_config n (with_nodes (rn_config n) extended) in
  let grew := bool_decide (before < len (pool (rn_config n))) in
  rassert (before <= len (pool (rn_config n))) "the pool never shrinks";;
  rassert (Forall (pooled (rn_config n)) (nc_peers (rn_config n))) "the pool always holds the bootstrap membership";;
  rassert (~ pooled (rn_config n) (nc_id (rn_config n))) "a replica is never in the node pool";;
  replica_node_invariants n;;
  mret (n, grew).

(** [read_log]. *)
Definition replica_read_log n (from : Seq) (limit max_bytes : N) : run LogRead :=
  read ← replica_read (rn_replica n) from limit max_bytes;
  match read with
  | RPage page =>
      journal ← replica_journal (rn_replica n);
      rassert (lp_state page = view journal) "a page names the fold's head";;
      rassert (lp_from page = from) "a page starts where the read asked"
  | _ => mret tt
  end;;
  mret read.

(** ** The batch ([ReplicaReady]) *)

Definition ready_replica_writes n : run (list WriteOp) :=
  rassert (existsb is_acceptor_write (rn_writes n) = false) "a replica persists no acceptor op";;
  mret (rn_writes n).

Definition ready_read_states n : run (list (N * option Slot)) :=
  ok ← allM (fun e : N * option Slot => replica_covers (rn_replica n) e.2) (rn_read_states n);
  rassert (ok = true) "a surfaced read is covered by this replica's fold";;
  mret (rn_read_states n).

Definition ready_committed n : run (list Applied) := replica_committed (rn_replica n).

(** [ReplicaReady::advance]: [clear_pending]. *)
Definition replica_clear_pending n : run ReplicaNode :=
  r ← clear_committed (rn_replica n);
  let n := mkReplicaNode (rn_config n) r (rn_floor n) (rn_faulty n) (rn_unwalked n) (rn_leader n) (rn_acceptors n)
             (rn_acceptors_since n) (rn_read_basis n) (rn_quorum_reads n) (rn_limits n) (rn_tick_count n) [] [] [] in
  rassert (rn_writes n = []) "an advanced batch has no write left";;
  rassert (rn_messages n = []) "an advanced batch has no message left";;
  mret n.

(** ** Boot *)

Section boot.
Context {S : Type} `{!Storage S}.
Implicit Types st : S.

(** The records below and at or above the chosen prefix. *)
Definition scan_record st (first_unchosen : Slot) (acc : gmap Slot (Ballot * Command) * gmap Slot (Ballot * Command)) s
  : gmap Slot (Ballot * Command) * gmap Slot (Ballot * Command) :=
  match st_accepted st s with
  | None => acc
  | Some record => if decide (s < first_unchosen) then (<[s := record]> acc.1, acc.2) else (acc.1, <[s := record]> acc.2)
  end.

Definition replica_node_new (config : DeployConfig) st (limits : Limits) : run ReplicaNode :=
  limits_assert_valid limits;;
  window ← kept_read_window limits;
  let limits := mkLimits (recovery_page limits) (promise_page_limit limits) (resend_page_limit limits)
                  (apply_page limits) window (registry_page limits) in
  assert_replica_config_shape config;;
  let floor := st_first_slot st in
  let index := chosen_index (st_hard_state st) in
  end_ ← match index with Some ci => u64_add ci 1 | None => mret 0 end;
  rassert (floor <= end_) "the durable floor never outruns the durable chosen index";;
  let '(below, above) := foldl (scan_record st end_) (∅, ∅) (slot_range floor (st_last_slot st)) in
  let faulty : gset Slot := list_to_set (filter (fun s => floor <= s < end_) ((st_faulty_entries st).*1)) in
  foldM (fun _ s => rassert (is_Some (below !! s) \/ s ∈ faulty)
           "every retained slot below a replica's chosen prefix has a durable record") tt (range floor end_);;
  r ← replica_from_boot (nc_writer_mode config) index floor (st_sealed_state st) below;
  r ← set_apply_page r (apply_page limits);
  acceptors ← bootstrap config;
  let n := mkReplicaNode config r floor faulty ∅ None acceptors zero None [] limits 0 [] [] [] in
  n ← foldM (fun n (e : Slot * (Ballot * Command)) =>
               r ← replica_learn (rn_replica n) e.1 e.2.2;
               mret (on_learner n r (rn_floor n) (rn_faulty n) (<[e.1 := e.2.1]> (rn_unwalked n)) (rn_writes n)))
        n (bt_entries above);
  n ← node_replica_advance n;
  resumed ← replica_chosen_index (rn_replica n);
  rassert (ord_le index resumed) "a replica's boot never rewinds the durable chosen index";;
  rassert (Forall (fun s => floor <= s) (bs_elements (rn_faulty n))) "a replica's faulty records lie above its floor";;
  replica_node_invariants n;;
  mret n.
End boot.
