(* ===== verification/ReplicaNodeInv.v ===== *)
(** * The replica node over its store: invariant and restarts

    [learner_ok] is what the learner's half of a replica node keeps, [stored] what
    its store mirrors once the batch is persisted.  Each learner operation keeps
    both; the reader's half is [reader_ok]. *)

From S2P Require Import Prelude BTree Types Journal Contract Acceptor QuorumSystem AcceptorConfig DeployConfig QuorumRead Storage Replica ReplicaInv ReplicaRead ReplicaNode.

(** ** Reads and configurations *)

Definition drawn (config : AcceptorConfig NodeId) (members : list NodeId) : Prop :=
  forall m, m ∈ c_members config -> m ∈ members.

Lemma is_drawn_from_ok (config : AcceptorConfig NodeId) members :
  sorted_members members -> exists b, is_drawn_from config members = Done b /\ (b = true <-> drawn config members).
Proof.
  intros Hs. unfold is_drawn_from. rewrite rassert_true by done. rsimpl. eexists. split; [done|].
  unfold drawn. rewrite forallb_forall. setoid_rewrite <-list_elem_of_In. setoid_rewrite bool_decide_eq_true.
  by setoid_rewrite position_Some.
Qed.

(** The configuration of a replica: a sorted pool that holds the bootstrap
    membership and not the replica. *)
Record deployed (config : DeployConfig) : Prop := {
  dp_peers : nc_peers config <> [];
  dp_peers_sorted : sorted_members (nc_peers config);
  dp_nodes_sorted : sorted_members (nc_nodes config);
  dp_pooled : Forall (pooled config) (nc_peers config);
  dp_outside : ~ pooled config (nc_id config) }.

Lemma pool_sorted config : deployed config -> sorted_members (pool config).
Proof. intros []. unfold pool. by case_decide. Qed.

Lemma assert_replica_config_shape_iff config : assert_replica_config_shape config = Done tt <-> deployed config.
Proof.
  unfold assert_replica_config_shape. split.
  - intros H. rinv H. apply rassert_inv in H. by split.
  - intros []. rassert_by done. rassert_by done. rassert_by done. rassert_by done. by apply rassert_true.
Qed.

Lemma tokens_once_iff (seen : list N) (reads : list Read) :
  tokens_once seen reads <-> NoDup (qr_ctx <$> reads) /\ forall c, c ∈ qr_ctx <$> reads -> c ∉ seen.
Proof.
  revert seen. induction reads as [|q reads IH]; intros seen; simpl.
  - split; [|done]. intros _. split; [constructor|]. by intros c ?%elem_of_nil.
  - rewrite IH, NoDup_cons. split.
    + intros (H1 & H2 & H3). split_and!; [|done|].
      * intros Hin. apply (H3 _ Hin). set_solver.
      * intros c [->|Hc]%elem_of_cons; [done|]. specialize (H3 c Hc). set_solver.
    + intros [[H1 H2] H3]. split_and!; [apply H3; set_solver|done|].
      intros c Hc. rewrite elem_of_app, list_elem_of_singleton. intros [Hin|Hin]; [|by subst].
      apply (H3 c); [set_solver|done].
Qed.

Lemma reads_pending_ok (reads : list Read) : NoDup (qr_ctx <$> reads) -> reads_pending reads = Done reads.
Proof.
  intros Hnd. unfold reads_pending. rewrite rassert_true; [done|]. apply tokens_once_iff. split; [done|].
  by intros c _ ?%elem_of_nil.
Qed.

Lemma read_watermarks_ok (q : Read) : read_wf q -> read_watermarks q = Done (qr_watermarks q).
Proof.
  intros [Hc Hr Hm _]. unfold read_watermarks.
  rewrite (allM_ok _ (fun id => id ∈ row_members (qr_config q) (qr_row q)))
    by (intros; by apply config_is_phase1_addressee_ok).
  rsimpl. rewrite rassert_true; [done|]. apply bool_decide_eq_true_2, Forall_forall.
  intros m Hin%elem_of_bt_keys. by apply Hm.
Qed.

(** The row a read asks: one exactly where a full-column grid names rows. *)
Lemma config_read_row_ok (config : AcceptorConfig NodeId) ctx row :
  config_wf config -> exists row', config_read_row config ctx row = Done row' /\
    config_admits_read_row config row' = true /\
    bool_decide (is_Some row') = names_read_row (c_quorum_system config).
Proof.
  intros Hwf. pose proof (cwf_admitted _ Hwf) as Hadm. unfold config_read_row, config_admits_read_row.
  assert (exists row', row_of (c_quorum_system config) ctx = Done row' /\
    admits_read_row (c_quorum_system config) row' = true /\
    bool_decide (is_Some row') = names_read_row (c_quorum_system config)) as (row0 & E0 & Ha0 & Hn0).
  { unfold row_of. destruct (c_quorum_system config) as [|q1 q2|rows cols acks]; [by exists None..|].
    destruct Hadm as (Hrows & _). unfold names_read_row. destruct (decide (acks = rows)) as [->|Hne].
    - assert (residue ctx rows = Done (ctx mod rows)) as ->.
      { unfold residue. replace (N.max rows 1) with rows by lia. pose proof (N.mod_lt ctx rows ltac:(lia)). by rassert_by done. }
      rsimpl. pose proof (N.mod_lt ctx rows ltac:(lia)). rewrite (rassert_true (_ < _)) by lia. rsimpl.
      rewrite rassert_true by done. rsimpl. eexists. split; [done|]. split; [by apply bool_decide_eq_true_2|].
      rewrite (bool_decide_eq_true_2 (rows = rows)) by done. apply bool_decide_eq_true_2. by eexists.
    - exists None. split; [done|]. split; [done|]. by rewrite (bool_decide_eq_false_2 (acks = rows)). }
  assert (exists row', match row with
     | Some row => if admits_read_row (c_quorum_system config) (Some row) then mret (Some row)
                   else row_of (c_quorum_system config) ctx
     | None => row_of (c_quorum_system config) ctx end = Done row' /\
     admits_read_row (c_quorum_system config) row' = true /\
     bool_decide (is_Some row') = names_read_row (c_quorum_system config)) as (row' & E & Ha & Hn).
  { destruct row as [row|]; [|eauto]. destruct (admits_read_row (c_quorum_system config) (Some row)) eqn:Ea; [|eauto].
    exists (Some row). split_and!; [done..|]. rewrite bool_decide_eq_true_2 by by eexists.
    unfold admits_read_row in Ea. destruct (c_quorum_system config); try done.
    apply bool_decide_eq_true in Ea as [-> _]. simpl. by rewrite bool_decide_eq_true_2. }
  exists row'. split; [|done]. unfold read_row. rewrite E. rsimpl.
  eapply bind_seq with (a := row'); [|cbv beta; by rewrite rassert_true].
  destruct (c_quorum_system config); try done. case_decide; [|done]. by rewrite rassert_true.
Qed.

Lemma config_system_ok (config : AcceptorConfig NodeId) :
  config_wf config -> config_quorum_system config = Done (c_quorum_system config).
Proof.
  intros []. unfold config_quorum_system. rewrite admits_ok by done. rsimpl.
  by rewrite rassert_true by by apply bool_decide_eq_true_2.
Qed.

(** A read opened without a watermark of the reader's own. *)
Lemma reads_open_none (reads : list Read) ctx row basis now :
  ctx ∉ (qr_ctx <$> reads) -> config_wf (rb_config basis) -> config_admits_read_row (rb_config basis) row = true ->
  reads_open reads ctx row basis now None =
    Done (reads ++ [fresh_read ctx row basis now None], row_members (rb_config basis) row) /\
  read_wf (fresh_read ctx row basis now None).
Proof.
  intros Hctx Hc Hrow. destruct (reads_open_ok reads ctx row basis now None Hctx Hc Hrow ltac:(done)) as (_ & _ & Hwf).
  split; [|done]. unfold reads_open.
  rewrite (rassert_true (Forall _ _)) by (apply Forall_forall; intros q Hq E; apply Hctx, list_elem_of_fmap; by exists q).
  rsimpl. rewrite (rassert_true (config_admits_read_row _ _ = true)) by done. rsimpl.
  rewrite config_phase1_addressees_ok by done. rsimpl.
  by rewrite rassert_true by (unfold len; rewrite length_app; simpl; lia).
Qed.

Section node.
Context (mode : WriterMode) (L : Slot -> Command).
Context (Hfit : forall s, fits (state_before mode L s) (L s)).
Implicit Types (n : ReplicaNode) (r : Replica) (st : MemStorage).

Abbreviation chosen n := (rep_chosen (rn_replica n)) (only parsing).
Abbreviation end_ n := (end_of (rn_replica n)) (only parsing).

(** ** The learner *)

(** Before a walk: an unwalked ballot per held slot past the prefix. *)
Record learner_ready n : Prop := {
  ln_core : replica_core mode L (rn_replica n);
  ln_hole : at_hole (rn_replica n);
  ln_floor : rn_floor n = rep_floor (rn_replica n);
  ln_faulty : forall s, s ∈ rn_faulty n <-> rep_floor (rn_replica n) <= s < end_ n /\ chosen n !! s = None;
  ln_unwalked : forall s, end_ n <= s -> (is_Some (rn_unwalked n !! s) <-> is_Some (chosen n !! s));
  ln_writes : existsb is_acceptor_write (rn_writes n) = false }.

(** Between handlers. *)
Record learner_ok n : Prop := {
  lo_ready : learner_ready n;
  lo_settled : replica_settled (rn_replica n);
  lo_walked : forall s, is_Some (rn_unwalked n !! s) -> end_ n <= s;
  lo_due : rep_compaction_due (rn_replica n) = false }.

(** The store holds what the node holds. *)
Record stored n st : Prop := {
  sd_floor : m_first_slot st = rn_floor n;
  sd_sealed : m_sealed st = rep_base (rn_replica n);
  sd_index : chosen_index (m_hard_state st) = rep_chosen_index (rn_replica n);
  sd_records : forall s, snd <$> m_accepted st !! s = chosen n !! s;
  sd_faulty : forall s, s ∈ rn_faulty n -> s ∈ (m_faulty st).*1 }.

(** The writes a change adds to the batch carry the store along. *)
Definition persists n n' : Prop :=
  exists ws, rn_writes n' = rn_writes n ++ ws /\
    forall st, stored n st -> exists st', mem_apply st ws = Done st' /\ stored n' st'.

Lemma persists_refl n : persists n n.
Proof. exists []. rewrite app_nil_r. split; [done|]. intros st Hst. by exists st. Qed.

Lemma persists_trans n1 n2 n3 : persists n1 n2 -> persists n2 n3 -> persists n1 n3.
Proof.
  intros (ws & Ew & Hw) (ws' & Ew' & Hw'). exists (ws ++ ws'). split; [by rewrite Ew', Ew, app_assoc|].
  intros st (st1 & E1 & (st2 & E2 & H2)%Hw')%Hw. exists st2. split; [|done].
  unfold mem_apply in *. by rewrite foldM_app, E1.
Qed.

(** The learner's half only: the rest of the node is left in place. *)
Definition learner_moves n n' : Prop :=
  exists r floor faulty unwalked writes, n' = on_learner n r floor faulty unwalked writes /\
    rep_folded (rn_replica n) <= rep_folded r /\ end_ n <= end_of r /\ rn_floor n <= floor.

Lemma learner_moves_refl n : learner_moves n n.
Proof.
  exists (rn_replica n), (rn_floor n), (rn_faulty n), (rn_unwalked n), (rn_writes n).
  split; [by destruct n|]. lia.
Qed.
Lemma learner_moves_trans n1 n2 n3 : learner_moves n1 n2 -> learner_moves n2 n3 -> learner_moves n1 n3.
Proof.
  intros (r & f & fa & u & w & -> & ? & ? & ?) (r' & f' & fa' & u' & w' & -> & ? & ? & ?).
  exists r', f', fa', u', w'. split; [done|]. simpl in *. lia.
Qed.

Lemma learner_moves_le n n' :
  learner_moves n n' ->
  rep_folded (rn_replica n) <= rep_folded (rn_replica n') /\ end_ n <= end_ n' /\ rn_floor n <= rn_floor n'.
Proof. by intros (r & f & fa & u & w & -> & ? & ? & ?). Qed.

(** The chosen index walked over a stretch of slots. *)
Lemma mem_apply_indices st lo hi :
  lo <= hi ->
  exists st', mem_apply st (WSetChosenIndex <$> range lo hi) = Done st' /\
    m_accepted st' = m_accepted st /\ m_first_slot st' = m_first_slot st /\ m_faulty st' = m_faulty st /\
    m_sealed st' = m_sealed st /\
    chosen_index (m_hard_state st') = if decide (lo < hi) then Some (hi - 1) else chosen_index (m_hard_state st).
Proof.
  intros Hle. replace hi with (lo + (hi - lo)) by lia. generalize (hi - lo) as d. clear hi Hle.
  induction d as [|d IH] using N.peano_ind.
  { exists st. unfold range. rewrite N.add_0_r, N.sub_diag, decide_False by lia. done. }
  destruct IH as (st1 & E & Ha & Hf & Hfa & Hs & _).
  rewrite (range_split lo (lo + d)) by lia. replace (lo + N.succ d) with (lo + d + 1) by lia.
  rewrite range_one, fmap_app. unfold mem_apply in *. rewrite foldM_app, E. eexists. split; [done|].
  split_and!; try done. simpl. rewrite decide_True by lia. f_equal. lia.
Qed.

Lemma index_of_end r r' :
  end_of r <= end_of r' ->
  rep_chosen_index r' = if decide (end_of r < end_of r') then Some (end_of r' - 1) else rep_chosen_index r.
Proof.
  unfold end_of. destruct (rep_chosen_index r), (rep_chosen_index r'); intros; case_decide; try done; try lia;
    f_equal; lia.
Qed.

(** [raise_floor] of a floor that rises. *)
Lemma mem_raise_floor_ge st f :
  m_first_slot st <= f ->
  mem_raise_floor st f = Done (mkMem (m_hard_state st) (bt_split_off f (m_accepted st)) f
    (filter (fun e => f <= e.1) (m_faulty st)) (m_sealed st)).
Proof.
  intros Hf. unfold mem_raise_floor. replace (N.max (m_first_slot st) f) with f by lia.
  by rassert_by apply split_off_above.
Qed.

Lemma elem_of_faulty_from (l : list (Slot * Ballot)) f s :
  f <= s -> s ∈ l.*1 -> s ∈ (filter (fun e => f <= e.1) l).*1.
Proof.
  intros Hf (e & -> & He)%list_elem_of_fmap. apply list_elem_of_fmap. exists e. split; [done|].
  by apply list_elem_of_filter.
Qed.

(** ** Compaction *)

Lemma greatest_floor_le_end r f : replica_core mode L r -> greatest_floor mode L r f -> f <= u64_max.
Proof.
  intros Hc [[Hb _] _]. pose proof (co_folded _ _ _ Hc) as Hf. pose proof (co_index _ _ _ Hc) as Hi.
  unfold end_of in Hf. destruct (rep_chosen_index r); simpl in Hi; lia.
Qed.

(** A compaction to the walk's target lands the floor on the greatest safe one. *)
Lemma replica_compact_ok n top up_to :
  learner_ready n -> replica_settled (rn_replica n) -> greatest_floor mode L (rn_replica n) top ->
  u64_checked_sub top 1 = Some up_to ->
  exists n', replica_compact n up_to = Done n' /\ learner_ready n' /\ replica_settled (rn_replica n') /\
    learner_moves n n' /\ persists n n' /\ rn_floor n' = top /\
    end_ n' = end_ n /\ rn_unwalked n' = rn_unwalked n /\
    chosen n' = bt_split_off top (chosen n) /\
    (forall f, safe_floor mode L (rn_replica n') f -> f <= rn_floor n').
Proof using Hfit.
  intros Hn Hs Hg Hup. pose proof (ln_core _ Hn) as Hc. unfold replica_compact.
  destruct (compaction_target_ok mode L Hfit _ Hc) as (top' & -> & Hg').
  rewrite (greatest_floor_unique _ _ _ _ _ Hg' Hg). rsimpl. rewrite Hup.
  pose proof (greatest_floor_le_end _ _ Hc Hg) as Hm. pose proof Hg as [[Hb Hsafe] Hmax].
  unfold u64_checked_sub in Hup. case_decide; [|done]. injection Hup as <-.
  rewrite N.min_id, u64_add_ok by lia. rsimpl. replace (N.max (top - 1 + 1) (rn_floor n)) with top
    by (rewrite (ln_floor _ Hn); lia).
  rewrite (ln_floor _ Hn). case_decide as Hd.
  { assert (rep_floor (rn_replica n) = top) as Htop by lia.
    exists n. split_and!; try done; try apply learner_moves_refl; try apply persists_refl.
    - by rewrite (ln_floor _ Hn).
    - apply map_eq. intros s. rewrite lookup_bt_split_off. ord_N. case_decide; [done|].
      apply eq_None_not_Some. intros [c Hsc]. apply (co_chosen _ _ _ Hc) in Hsc as (_ & ? & _). lia.
    - intros f Hf. rewrite (ln_floor _ Hn), Htop. by apply Hmax. }
  destruct (replica_truncate_ok mode L Hfit (rn_replica n) top top Hc (ln_hole _ Hn) Hg ltac:(lia) Hm) as [-> Hr].
  destruct (Hr (safe_floor_good mode L _ _ Hc (conj Hb Hsafe))) as (Hc' & Hh' & Hs'). rsimpl. clear Hr.
  set (r' := with_deferred _ _) in *. set (n' := on_learner _ _ _ _ _ _).
  assert (end_of r' = end_ n) as He by done.
  assert (rep_floor r' = top) as Hfl by done.
  rewrite (rassert_true (_ = _)) by (unfold len; simpl; rewrite length_app; simpl; lia). rsimpl.
  rewrite (first_unchosen_ok mode L) by done. rsimpl. pose proof (co_floor _ _ _ Hc'). pose proof (co_folded _ _ _ Hc').
  rewrite (rassert_true (_ <= _)) by (simpl; simpl in *; lia). rsimpl.
  exists n'. split; [done|]. split_and!.
  - split; try done.
    + intros s. simpl. rewrite elem_of_bs_split_off, (ln_faulty _ Hn), lookup_bt_split_off. ord_N.
      change (end_of _) with (end_ n). case_decide; split; intros; split_and?; try tauto; try lia.
    + intros s. simpl. change (end_of _) with (end_ n). intros Hse. rewrite (ln_unwalked _ Hn) by done.
      rewrite lookup_bt_split_off. ord_N. pose proof (co_folded _ _ _ Hc). by rewrite decide_True by lia.
    + simpl. rewrite existsb_app, (ln_writes _ Hn). done.
  - done.
  - exists r', top, (bs_split_off top (rn_faulty n)), (rn_unwalked n), (rn_writes n ++ [WTruncate top (state_before mode L top)]).
    split; [done|]. rewrite (ln_floor _ Hn), He. simpl. lia.
  - exists [WTruncate top (state_before mode L top)]. split; [done|]. intros st Hst. unfold mem_apply. simpl.
    rewrite mem_raise_floor_ge by (simpl; rewrite (sd_floor _ _ Hst), (ln_floor _ Hn); lia). rsimpl.
    eexists. split; [done|]. pose proof Hst as []. split; simpl; try done.
    + intros s. rewrite !lookup_bt_split_off. ord_N. by case_decide; [apply sd_records0|].
    + intros s [? Hs1]%elem_of_bs_split_off. apply elem_of_faulty_from; [done|]. by apply sd_faulty0.
  - done.
  - done.
  - done.
  - done.
  - intros f [Hbf Hsf]. simpl in *. apply Hmax. split; [lia|]. right. destruct Hsf as [->|?]; [|done].
    destruct Hsafe as [?|?]; [lia|done].
Qed.

(** ** The walk *)

(** The prefix walked forward, its records already stored. *)
Lemma walked_ready n r' :
  learner_ready n -> replica_core mode L r' -> at_hole r' -> replica_settled r' ->
  replica_walks (rn_replica n) r' ->
  let n' := on_learner n r' (rn_floor n) (rn_faulty n) (bt_split_off (end_of r') (rn_unwalked n))
              (rn_writes n ++ (WSetChosenIndex <$> range (end_ n) (end_of r'))) in
  learner_ready n' /\ persists n n' /\ (forall s, is_Some (rn_unwalked n' !! s) -> end_ n' <= s).
Proof.
  intros Hn Hc Hh Hs [Hwc Hwf Hwp Hwe Hwh] n'. split_and!.
  - split; try done; simpl.
    + by rewrite (ln_floor _ Hn).
    + intros s. rewrite (ln_faulty _ Hn), Hwf, Hwc. split; intros [? Hno]; (split; [|done]); [lia|].
      destruct (decide (s < end_ n)); [lia|]. destruct (Hwh s ltac:(lia)). congruence.
    + intros s Hse. rewrite lookup_bt_split_off. ord_N. rewrite decide_True by done.
      rewrite (ln_unwalked _ Hn) by lia. by rewrite Hwc.
    + rewrite existsb_app, (ln_writes _ Hn). simpl. by induction (range _ _).
  - exists (WSetChosenIndex <$> range (end_ n) (end_of r')). split; [done|]. intros st [].
    destruct (mem_apply_indices st (end_ n) (end_of r') ltac:(lia)) as (st' & E & Ha & Hf & Hfa & Hse & Hix).
    exists st'. split; [done|]. split; simpl.
    + by rewrite Hf.
    + rewrite Hse, sd_sealed0, (co_base _ _ _ Hc), Hwf. apply (co_base _ _ _ (ln_core _ Hn)).
    + rewrite Hix, sd_index0. symmetry. apply index_of_end. lia.
    + intros s. by rewrite Ha, Hwc.
    + intros s. rewrite Hfa. apply sd_faulty0.
  - intros s [b Hb]. simpl in Hb. rewrite lookup_bt_split_off in Hb. ord_N. by case_decide.
Qed.

Lemma due_settled r b b' : replica_settled r -> replica_settled (with_due r b b').
Proof. done. Qed.

(** The compaction a walk ordered, or none. *)
Lemma compact_ordered_ok n1 target :
  learner_ready n1 -> replica_settled (rn_replica n1) ->
  (if rep_compaction_due (rn_replica n1)
   then exists f, greatest_floor mode L (rn_replica n1) f /\ target = u64_checked_sub f 1 else target = None) ->
  exists n2, match target with Some up_to => replica_compact n1 up_to | None => mret n1 end = Done n2 /\
    learner_ready n2 /\ replica_settled (rn_replica n2) /\ learner_moves n1 n2 /\ persists n1 n2 /\
    end_ n2 = end_ n1 /\ rn_unwalked n2 = rn_unwalked n1 /\
    (forall s, rn_floor n2 <= s -> chosen n2 !! s = chosen n1 !! s) /\ rn_faulty n2 ⊆ rn_faulty n1 /\
    (rep_compaction_due (rn_replica n2) = true -> forall f, safe_floor mode L (rn_replica n2) f -> f <= rep_floor (rn_replica n2)).
Proof using Hfit.
  intros Hn1 Hs1 Htarget.
  assert (forall n2, learner_ready n2 -> rep_floor (rn_replica n2) = rn_floor n2) as Hfeq by (intros; by rewrite ln_floor).
  destruct (rep_compaction_due (rn_replica n1)) eqn:Ed.
  - destruct Htarget as (top & Hg & ->). destruct (u64_checked_sub top 1) as [up_to|] eqn:Eu.
    + destruct (replica_compact_ok n1 top up_to Hn1 Hs1 Hg Eu)
        as (n2 & E & Hn2 & Hs2 & Hm2 & Hp2 & Hf2 & He2 & Hu2 & Hch2 & Hmax2).
      exists n2. split_and!; try done.
      * intros s Hs. rewrite Hch2, lookup_bt_split_off. ord_N. rewrite decide_True; [done|]. lia.
      * intros s. rewrite (ln_faulty _ Hn2), (ln_faulty _ Hn1), Hch2, He2.
        rewrite lookup_bt_split_off, (Hfeq _ Hn2), (Hfeq _ Hn1), Hf2. ord_N.
        pose proof (learner_moves_le _ _ Hm2) as (_ & _ & Hge).
        intros [? Hno]. case_decide; [|lia]. split; [lia|done].
      * intros _. by rewrite (Hfeq _ Hn2).
    + exists n1. split_and!; try done; try apply learner_moves_refl; try apply persists_refl.
      intros _ f Hf. apply Hg in Hf. unfold u64_checked_sub in Eu. case_decide; [done|]. lia.
  - subst target. exists n1. split_and!; try done; try apply learner_moves_refl; try apply persists_refl. congruence.
Qed.

Lemma node_replica_advance_ok n :
  learner_ready n ->
  exists n', node_replica_advance n = Done n' /\ learner_ok n' /\ learner_moves n n' /\ persists n n' /\
    (forall s, rn_floor n' <= s -> chosen n' !! s = chosen n !! s) /\ rn_faulty n' ⊆ rn_faulty n /\
    end_ n' <= end_ n + rep_apply_page (rn_replica n).
Proof using Hfit.
  intros Hn. pose proof (ln_core _ Hn) as Hc. unfold node_replica_advance.
  rewrite (replica_chosen_index_ok mode L) by done. rsimpl.
  destruct (replica_advance_ok mode L Hfit (rn_replica n) (fun slot _ => rn_unwalked n !! slot) (rn_writes n) Hc)
    as (r1 & target & -> & Hc1 & Hh1 & Hs1 & Hw & Htd & Htarget).
  { intros s c Hs Hsc. apply (ln_unwalked _ Hn); [done|]. by eexists. }
  rsimpl. rewrite (first_unchosen_ok mode L) by done. rsimpl.
  destruct (walked_ready n r1 Hn Hc1 Hh1 Hs1 Hw) as (Hn1 & Hp1 & Hu1). set (n1 := on_learner _ _ _ _ _ _) in *.
  assert (learner_moves n n1) as Hm1.
  { eexists _, _, _, _, _. split; [done|]. pose proof (wk_end _ _ Hw). split; [|split; [lia|lia]].
    pose proof (ln_hole _ Hn) as Hh. pose proof (co_folded _ _ _ Hc). pose proof (co_folded _ _ _ Hc1).
    destruct (decide (rep_folded (rn_replica n) <= rep_folded r1)); [done|]. exfalso.
    assert (chosen n !! rep_folded r1 = Some (L (rep_folded r1))) as Hheld.
    { apply (co_held _ _ _ Hc). rewrite <-(wk_floor _ _ Hw). pose proof (co_floor _ _ _ Hc1). lia. }
    rewrite <-(wk_chosen _ _ Hw), Hh1 in Hheld; [done|]. lia. }
  destruct (compact_ordered_ok n1 target Hn1 Hs1 Htarget)
    as (n2 & -> & Hn2 & Hs2 & Hm2 & Hp2 & He2 & Hu2 & Hch2 & Hfa2 & Hmax2).
  rsimpl. rewrite (assert_compacted_ok mode L Hfit) by (apply Hn2 || done). rsimpl.
  set (n3 := on_learner _ _ _ _ _ _). assert (replica_core mode L (rn_replica n3)) as Hc3 by (by apply due_core, Hn2).
  rewrite (first_unchosen_ok mode L) by done. rsimpl.
  rewrite (rassert_true (is_none_or _ _)).
  2: { apply first_key_is_none_or. intros s. change (rn_unwalked n3) with (rn_unwalked n2). rewrite Hu2.
       change (end_ n3) with (end_ n2). rewrite He2. apply Hu1. }
  rsimpl. rewrite (replica_chosen_index_ok mode L) by done. rsimpl. pose proof (wk_end _ _ Hw) as Hwe.
  rewrite (rassert_true (ord_le _ _)).
  2: { apply end_of_le. change (end_ n3) with (end_ n2). rewrite He2. change (end_ n1) with (end_of r1). lia. }
  rsimpl. exists n3. split; [done|]. split_and!.
  - split; [|done| |done].
    + destruct Hn2. split; done.
    + intros s. change (rn_unwalked n3) with (rn_unwalked n2). rewrite Hu2. change (end_ n3) with (end_ n2).
      rewrite He2. apply Hu1.
  - eapply learner_moves_trans; [exact Hm1|]. eapply learner_moves_trans; [exact Hm2|].
    exists (rn_replica n3), (rn_floor n2), (rn_faulty n2), (rn_unwalked n2), (rn_writes n2).
    split; [done|]. change (end_ n3) with (end_ n2). simpl. lia.
  - eapply persists_trans; [exact Hp1|]. eapply persists_trans; [exact Hp2|].
    exists []. rewrite app_nil_r. split; [done|]. intros st []. exists st. by split.
  - intros s Hs. change (chosen n3) with (chosen n2). rewrite Hch2 by done. simpl. by rewrite (wk_chosen _ _ Hw).
  - done.
  - change (end_ n3) with (end_ n2). rewrite He2. simpl. lia.
Qed.

(** ** Learning, jumping *)

Lemma learned_ready n s b r' :
  learner_ok n -> rn_floor n <= s -> chosen n !! s = None ->
  replica_core mode L r' -> at_hole r' -> refolds (with_chosen (rn_replica n) (<[s := L s]> (chosen n))) r' ->
  let n' := on_learner n r' (rn_floor n) (rn_faulty n ∖ {[ s ]}) (<[s := b]> (rn_unwalked n))
              (rn_writes n ++ [WLearned s b (L s)]) in
  learner_ready n' /\ learner_moves n n' /\ persists n n'.
Proof.
  intros [Hn Hse Hu Hd] Hs Hno Hc' Hh' Hr n'. pose proof (refolds_end _ _ Hr) as He.
  change (end_of (with_chosen _ _)) with (end_ n) in He. pose proof Hr as []. simpl in *. split_and!.
  - split; try done; simpl.
    + by rewrite rf_floor, (ln_floor _ Hn).
    + intros s'. rewrite elem_of_difference, elem_of_singleton, (ln_faulty _ Hn), He, rf_floor, rf_chosen.
      destruct (decide (s = s')) as [<-|Hne]; [rewrite lookup_insert_eq; naive_solver|].
      rewrite lookup_insert_ne by done. naive_solver.
    + intros s'. rewrite He, rf_chosen. intros Hs'. destruct (decide (s = s')) as [<-|Hne].
      * rewrite !lookup_insert_eq. split; eauto.
      * rewrite !lookup_insert_ne by done. by apply (ln_unwalked _ Hn).
    + by rewrite existsb_app, (ln_writes _ Hn).
  - eexists _, _, _, _, _. split; [done|]. rewrite He. lia.
  - exists [WLearned s b (L s)]. split; [done|]. intros st []. eexists. split; [done|]. split; simpl; try done.
    + rewrite sd_sealed0, (co_base _ _ _ Hc'), rf_floor. apply (co_base _ _ _ (ln_core _ Hn)).
    + by rewrite rf_index.
    + intros s'. rewrite rf_chosen. destruct (decide (s = s')) as [<-|Hne]; [by rewrite !lookup_insert_eq|].
      by rewrite !lookup_insert_ne by done.
    + intros s' [Hf _]%elem_of_difference. by apply sd_faulty0.
Qed.

(** A handler of the learner's half. *)
Definition learner_step n n' : Prop := learner_ok n' /\ learner_moves n n' /\ persists n n'.

Lemma learner_step_refl n : learner_ok n -> learner_step n n.
Proof. intros. split_and!; [done|apply learner_moves_refl|apply persists_refl]. Qed.
Lemma learner_step_trans n1 n2 n3 : learner_step n1 n2 -> learner_step n2 n3 -> learner_step n1 n3.
Proof. intros (_ & ? & ?) (? & ? & ?). split_and!; eauto using learner_moves_trans, persists_trans. Qed.

Lemma node_replica_learn_ok n s b :
  learner_ok n -> s < u64_max -> exists n', node_replica_learn n s b (L s) = Done n' /\ learner_step n n'.
Proof using Hfit.
  intros Hn Hm. pose proof (lo_ready _ Hn) as Hr. pose proof (ln_core _ Hr) as Hc. unfold node_replica_learn.
  case_decide as Hlt; [exists n; split; [done|by apply learner_step_refl]|].
  rewrite (replica_chosen_at_ok mode L) by done. rsimpl. destruct (chosen n !! s) as [c|] eqn:Es.
  - destruct (co_chosen _ _ _ Hc _ _ Es) as [-> _]. rewrite rassert_true by done. rsimpl.
    destruct (node_replica_advance_ok n Hr) as (n' & -> & ? & ? & ? & _). exists n'. by split_and!.
  - destruct (replica_learn_ok mode L Hfit (rn_replica n) s Hc (ln_hole _ Hr)) as (r' & -> & Hc' & Hh' & Hrf); [|done|].
    { rewrite <-(ln_floor _ Hr). lia. }
    rsimpl. destruct (learned_ready n s b r' Hn ltac:(lia) Es Hc' Hh' Hrf) as (Hn1 & Hm1 & Hp1).
    set (n1 := on_learner _ _ _ _ _ _) in *.
    destruct (node_replica_advance_ok n1 Hn1) as (n' & -> & Hn' & Hm' & Hp' & Hch & Hfa & _). rsimpl.
    eapply ex_intro. split.
    + eapply bind_seq with (a := tt); [|cbv beta].
      { case_decide as Hfl; [|done]. rewrite (replica_chosen_at_ok mode L) by apply Hn'. rsimpl.
        apply rassert_true. rewrite Hch by done. simpl. rewrite (rf_chosen _ _ Hrf). simpl.
        by rewrite lookup_insert_eq. }
      rewrite rassert_true; [done|]. intros Hin%Hfa. simpl in Hin. set_solver.
    + split_and!; [done|by eapply learner_moves_trans|by eapply persists_trans].
Qed.

Lemma trimmed_ready n point r' :
  learner_ok n -> rn_floor n < point ->
  replica_core mode L r' -> at_hole r' -> rep_floor r' = point ->
  rep_chosen r' = bt_split_off point (chosen n) -> end_of r' = N.max (end_ n) point ->
  let n' := on_learner n r' point (bs_split_off point (rn_faulty n)) (rn_unwalked n)
              (rn_writes n ++ [WTrimmedTo point (state_before mode L point)]) in
  learner_ready n' /\ learner_moves n n' /\ persists n n'.
Proof.
  intros [Hn Hse Hu Hd] Hp Hc' Hh' Hf' Hch' He' n'. split_and!.
  - split; try done; simpl.
    + intros s. rewrite elem_of_bs_split_off, (ln_faulty _ Hn), Hf', Hch', He', lookup_bt_split_off. ord_N.
      rewrite <-(ln_floor _ Hn). case_decide; split; intros; split_and?; try tauto; try lia; split_and!; try done; lia.
    + intros s Hs. rewrite He' in Hs. rewrite (ln_unwalked _ Hn) by lia. rewrite Hch', lookup_bt_split_off. ord_N.
      by rewrite decide_True by lia.
    + by rewrite existsb_app, (ln_writes _ Hn).
  - eexists _, _, _, _, _. split; [done|]. rewrite He'. split; [|lia].
    pose proof (co_floor _ _ _ Hc') as Hfo. rewrite Hf' in Hfo. pose proof (co_folded _ _ _ (ln_core _ Hn)).
    destruct (decide (rep_folded (rn_replica n) <= rep_folded r')); [done|]. exfalso.
    assert (chosen n !! rep_folded r' = Some (L (rep_folded r'))) as Hheld
      by (apply (co_held _ _ _ (ln_core _ Hn)); rewrite <-(ln_floor _ Hn); lia).
    assert (rep_chosen r' !! rep_folded r' = None) as Hno by (apply Hh'; lia).
    rewrite Hch', lookup_bt_split_off in Hno. ord_N. rewrite decide_True in Hno by lia. congruence.
  - exists [WTrimmedTo point (state_before mode L point)]. split; [done|]. intros st []. unfold mem_apply. cbn [foldM apply_one].
    unfold u64_checked_sub. rewrite decide_True by lia. cbn [rexpect]. rsimpl. set (st1 := if decide _ then _ else _).
    assert (m_first_slot st1 = m_first_slot st /\ m_accepted st1 = m_accepted st /\ m_faulty st1 = m_faulty st /\
      m_sealed st1 = state_before mode L point /\ chosen_index (m_hard_state st1) = rep_chosen_index r') as (E1 & E2 & E3 & E4 & E5).
    { unfold st1. cbn [m_hard_state mem_seal]. rewrite sd_index0. unfold end_of in He'.
      case_decide as Hcd; split_and!; try done; simpl; rewrite ?sd_index0;
        destruct (rep_chosen_index (rn_replica n)), (rep_chosen_index r'); simpl in *; try done; try lia; f_equal; lia. }
    rewrite mem_raise_floor_ge by (rewrite E1, sd_floor0; lia). rsimpl. eexists. split; [done|]. split; simpl; try done.
    + by rewrite E4, (co_base _ _ _ Hc'), Hf'.
    + intros s. rewrite Hch', E2, !lookup_bt_split_off. ord_N. by case_decide.
    + intros s [? Hs1]%elem_of_bs_split_off. rewrite E3. apply elem_of_faulty_from; [done|]. by apply sd_faulty0.
Qed.

Lemma node_replica_trim_ok n point :
  learner_ok n -> point <= u64_max -> good_floor mode L point ->
  exists n', node_replica_trim n point (state_before mode L point) = Done n' /\ learner_step n n'.
Proof using Hfit.
  intros Hn Hm Hg. pose proof (lo_ready _ Hn) as Hr. pose proof (ln_core _ Hr) as Hc. unfold node_replica_trim.
  case_decide as Hlt; [exists n; split; [done|by apply learner_step_refl]|].
  rewrite (replica_chosen_index_ok mode L) by done. rsimpl.
  destruct (replica_trim_to_ok mode L Hfit (rn_replica n) point Hc) as
    (r' & -> & Hc' & Hh' & Hs' & Hf' & Hch' & He' & _ & _ & Hd'); [lia|rewrite <-(ln_floor _ Hr); lia|done|].
  rsimpl. destruct (trimmed_ready n point r' Hn ltac:(lia) Hc' Hh' Hf' Hch' He') as (Hn1 & Hm1 & Hp1).
  set (n1 := on_learner _ _ _ _ _ _) in *.
  rewrite (rassert_true (_ = point)) by done. rsimpl.
  rewrite (replica_chosen_index_ok mode L) by done. rsimpl.
  rewrite (rassert_true (ord_le _ _)) by (apply end_of_le; simpl; lia). rsimpl.
  rewrite (first_unchosen_ok mode L) by done. rsimpl.
  rewrite (rassert_true (_ <= _)) by (simpl; lia). rsimpl.
  destruct (node_replica_advance_ok n1 Hn1) as (n' & -> & Hn' & Hm' & Hp' & _). exists n'. split; [done|].
  split_and!; [done|by eapply learner_moves_trans|by eapply persists_trans].
Qed.

Lemma catch_up_ok n (entries : list (Slot * (Ballot * Command))) :
  learner_ok n -> Forall (fun e => e.1 < u64_max /\ e.2.2 = L e.1) entries ->
  exists n', foldM (fun n (e : Slot * (Ballot * Command)) => node_replica_learn n e.1 e.2.1 e.2.2) n entries = Done n' /\
    learner_step n n'.
Proof using Hfit.
  intros Hn Hall. revert n Hn. induction Hall as [|[s [b c]] l [Hs Hc] _ IH]; intros n Hn; simpl in *.
  - exists n. split; [done|]. by apply learner_step_refl.
  - subst c. destruct (node_replica_learn_ok n s b Hn Hs) as (n1 & -> & Hst). rsimpl.
    destruct (IH n1 (proj1 Hst)) as (n2 & -> & Hst2). exists n2. split; [done|]. by eapply learner_step_trans.
Qed.

(** ** The reader *)

Definition covered_by (r : Replica) (index : option Slot) : Prop := is_none_or (fun i => i < rep_folded r) index.

Record reader_ok n : Prop := {
  rk_deployed : deployed (rn_config n);
  rk_leader : is_none_or (pooled (rn_config n)) (rn_leader n);
  rk_acceptors : config_wf (rn_acceptors n) /\ drawn (rn_acceptors n) (pool (rn_config n));
  rk_plain : config_has_matchmakers (rn_config n) = false -> rn_read_basis n = None;
  rk_basis : is_none_or (fun b => config_wf (rb_config b) /\ drawn (rb_config b) (pool (rn_config n))) (rn_read_basis n);
  rk_reads : Forall (fun q => read_wf q /\ drawn (qr_config q) (pool (rn_config n)) /\ qr_created q <= rn_tick_count n)
    (rn_quorum_reads n);
  rk_tokens : NoDup (qr_ctx <$> rn_quorum_reads n);
  rk_window : READ_TTL_TICKS <= read_window (rn_limits n);
  rk_states : Forall (fun e => covered_by (rn_replica n) e.2) (rn_read_states n) }.

(** The fold only grows: what was covered stays covered. *)
Lemma reader_learner_moves n n' : reader_ok n -> learner_moves n n' -> reader_ok n'.
Proof.
  intros [] (r & f & fa & u & w & -> & Hfo & _). split; try done. simpl.
  eapply Forall_impl; [done|]. intros [ctx [i|]]; unfold covered_by; simpl; [lia|done].
Qed.

Lemma read_wf_reads n : reader_ok n -> Forall read_wf (rn_quorum_reads n).
Proof. intros Hn. eapply Forall_impl; [apply (rk_reads _ Hn)|]. by intros q [? _]. Qed.

(** The node's own assertions hold. *)
Lemma replica_node_invariants_ok n : learner_ok n -> reader_ok n -> replica_node_invariants n = Done tt.
Proof.
  intros [Hr Hs Hu Hd] Hk. pose proof (ln_core _ Hr) as Hc. unfold replica_node_invariants.
  rewrite (first_unchosen_ok mode L) by done. rsimpl. pose proof (co_floor _ _ _ Hc). pose proof (co_folded _ _ _ Hc).
  rewrite (ln_floor _ Hr). rassert_by lia.
  rewrite (replica_assert_invariants_ok mode L) by (done || apply Hr). rsimpl.
  rassert_by (by apply first_key_is_none_or). 
  eapply bind_seq; [apply (allM_ok _ (fun s => is_Some (chosen n !! s))); intros; by apply (is_chosen_ok mode L)|cbv beta].
  rassert_by idtac.
  { apply bool_decide_eq_true_2, Forall_forall. intros s Hs'%elem_of_bt_keys.
    apply (ln_unwalked _ Hr); [by apply Hu|done]. }
  rassert_by idtac.
  { destruct (bs_first (rn_faulty n)) as [s|] eqn:E; simpl; [|done]. apply bs_first_Some in E as [Hin _].
    apply (ln_faulty _ Hr) in Hin. lia. }
  rewrite (allM_ok _ (fun s => chosen n !! s = None)).
  2: { intros s _. rewrite (is_chosen_ok mode L) by done. rsimpl. unfold mret, run_ret. f_equal.
       destruct (chosen n !! s); [by rewrite bool_decide_eq_true_2 by by eexists|].
       rewrite bool_decide_eq_false_2 by by intros []. by rewrite bool_decide_eq_true_2. }
  rsimpl. rassert_by idtac.
  { apply bool_decide_eq_true_2, Forall_forall. intros s Hin%elem_of_bs_elements. by apply (ln_faulty _ Hr) in Hin as [_ ?]. }
  rassert_by apply (ln_writes _ Hr). rewrite reads_pending_ok by apply Hk. rsimpl.
  pose proof (rk_reads _ Hk) as Hreads. rewrite Forall_forall in Hreads.
  rewrite (allM_ok _ (fun _ => True)).
  2: { intros q Hq. destruct (Hreads q Hq) as (Hwf & Hdr & _). rewrite read_watermarks_ok by done. rsimpl.
       unfold mret, run_ret. f_equal. rewrite bool_decide_eq_true_2 by done. apply forallb_forall.
       intros m Hm%list_elem_of_In%elem_of_bt_keys. apply bool_decide_eq_true_2, pooled_iff, Hdr.
       by eapply row_members_subset, (rd_members _ Hwf). }
  rsimpl. apply rassert_true. apply bool_decide_eq_true_2. by apply Forall_true.
Qed.

(** What a handler of the reader's half moves. *)
Definition same_learner n n' : Prop :=
  rn_replica n' = rn_replica n /\ rn_floor n' = rn_floor n /\ rn_faulty n' = rn_faulty n /\
  rn_unwalked n' = rn_unwalked n /\ rn_writes n' = rn_writes n.

Lemma same_learner_ok n n' : learner_ok n -> same_learner n n' -> learner_ok n'.
Proof.
  intros [[] ? ? ?] (E1 & E2 & E3 & E4 & E5). split; [split|..]; rewrite ?E1, ?E2, ?E3, ?E4, ?E5; done.
Qed.
Lemma same_learner_persists n n' : same_learner n n' -> persists n n'.
Proof.
  intros (E1 & E2 & E3 & E4 & E5). exists []. rewrite app_nil_r. split; [done|].
  intros st []. exists st. split; [done|]. split; rewrite ?E1, ?E2, ?E3; done.
Qed.
Lemma same_learner_trans n1 n2 n3 : same_learner n1 n2 -> same_learner n2 n3 -> same_learner n1 n3.
Proof. unfold same_learner. intros (? & ? & ? & ? & ?) (? & ? & ? & ? & ?). split_and!; congruence. Qed.

(** [serve_quorum_reads] returns, and surfaces only covered reads. *)
Lemma replica_serve_ok n :
  replica_core mode L (rn_replica n) -> reader_ok n ->
  exists n', replica_serve n = Done n' /\ reader_ok n' /\ same_learner n n' /\ rn_config n' = rn_config n /\
    rn_leader n' = rn_leader n /\ rn_tick_count n' = rn_tick_count n /\ rn_messages n' = rn_messages n.
Proof.
  intros Hc Hn. unfold replica_serve.
  destruct (reads_serve_ok (fun index => bool_decide (covered_by (rn_replica n) index)) (rn_quorum_reads n)
    (read_wf_reads n Hn) (rk_tokens _ Hn)) as (kept & served & E & Hk & Hsv & Hnd).
  unfold covered_by in E. rewrite E. rsimpl.
  rewrite (allM_ok _ (fun e : N * option Slot => covered_by (rn_replica n) e.2)) by (intros; by apply (replica_covers_ok mode L)).
  rewrite Forall_forall in Hsv.
  assert (Forall (fun e => covered_by (rn_replica n) e.2) served) as Hcov.
  { apply Forall_forall. intros e He. destruct (Hsv e He) as (q & _ & _ & _ & Hb). by apply bool_decide_eq_true in Hb. }
  rsimpl. rewrite rassert_true by by apply bool_decide_eq_true_2. rsimpl. eexists. split; [done|].
  split; [|done]. destruct Hn. split; try done; simpl.
  - apply Forall_forall. intros q' Hq'. rewrite Forall_forall in Hk, rk_reads0.
    destruct (Hk q' Hq') as (Hwf & q & Hq & (_ & _ & E1 & _ & _ & _ & E2)). destruct (rk_reads0 q Hq) as (_ & ? & ?).
    by rewrite E1, E2.
  - by apply NoDup_app in Hnd as [? _].
  - by apply Forall_app.
Qed.

Lemma request_catch_up_ok n to from_slot :
  deployed (rn_config n) -> pooled (rn_config n) to ->
  request_catch_up n to from_slot = Done (replica_send n [SCatchUpRequest to from_slot]).
Proof.
  intros Hd Hto. unfold request_catch_up. rassert_by (intros ->; by destruct (dp_outside _ Hd)). by rassert_by done.
Qed.

Lemma request_all_ok n (targets : list NodeId) from_slot :
  deployed (rn_config n) -> Forall (pooled (rn_config n)) targets ->
  foldM (fun n to => request_catch_up n to from_slot) n targets =
    Done (replica_send n ((fun to => SCatchUpRequest to from_slot) <$> targets)).
Proof.
  revert n. induction targets as [|to targets IH]; intros n Hd Hall; simpl.
  - unfold replica_send. rewrite app_nil_r. by destruct n.
  - apply Forall_cons in Hall as [Hto Hall]. rewrite request_catch_up_ok by done. rsimpl. rewrite IH by done.
    unfold replica_send. simpl. by rewrite <-app_assoc.
Qed.

Lemma replica_send_reader n msgs : reader_ok n -> reader_ok (replica_send n msgs).
Proof. by intros []. Qed.

(** ** The handlers *)

Definition replica_node_ok n : Prop := learner_ok n /\ reader_ok n.

(** What a message may say: a commit and a replay carry the decided commands, a
    trim point is a good floor with the state folded to it, a configuration is well
    formed. *)
Definition replica_message_ok (msg : ReplicaMsg) : Prop :=
  match msg with
  | RCommit _ slot command => slot < u64_max /\ command = L slot
  | RCatchUpResponse entries => Forall (fun e => e.1 < u64_max /\ e.2.2 = L e.1) entries
  | RTrimmedTo point state => point <= u64_max /\ good_floor mode L point /\ state = state_before mode L point
  | RHeartbeat _ _ _ config _ => is_none_or config_wf config
  | RPreReadAck _ _ _ _ | ROther => True
  end.

(** What a handler may change: the fold, the prefix and the floor only rise, and
    the batch's writes carry the store along. *)
Record node_moves n n' : Prop := {
  mv_folded : rep_folded (rn_replica n) <= rep_folded (rn_replica n');
  mv_end : end_ n <= end_ n';
  mv_floor : rn_floor n <= rn_floor n';
  mv_persists : persists n n' }.

Lemma learner_step_moves n n' : learner_step n n' -> node_moves n n'.
Proof. intros (_ & Hm & Hp). destruct (learner_moves_le _ _ Hm) as (? & ? & ?). by split. Qed.
Lemma same_learner_moves n n' : same_learner n n' -> node_moves n n'.
Proof.
  intros Hs. pose proof (same_learner_persists _ _ Hs). destruct Hs as (E1 & E2 & _). split; rewrite ?E1, ?E2; done || lia.
Qed.
Lemma node_moves_trans n1 n2 n3 : node_moves n1 n2 -> node_moves n2 n3 -> node_moves n1 n3.
Proof. intros [] []. split; try lia. by eapply persists_trans. Qed.

Lemma learn_read_basis_ok n config ballot fence :
  reader_ok n -> config_wf config ->
  exists n', learn_read_basis n config ballot fence = Done n' /\ reader_ok n' /\ same_learner n n' /\
    rn_config n' = rn_config n.
Proof.
  intros Hn Hwf. unfold learn_read_basis. case_decide as Hd; [by exists n; split_and!|].
  destruct (is_drawn_from_ok config (pool (rn_config n)) (pool_sorted _ (rk_deployed _ Hn))) as ([] & -> & Hb); rsimpl;
    cbn [negb]; [|by exists n; split_and!].
  rewrite (rassert_true (is_none_or _ _)).
  2: { destruct (rn_read_basis n) as [b|] eqn:Eb; simpl in *; [|done]. apply ord_not_lt. tauto. }
  rsimpl. rewrite rassert_true by done. rsimpl. rewrite rassert_true by done. rsimpl.
  eexists. split; [done|]. split; [|done]. destruct Hn. split; try done; simpl.
  - intros Hp. destruct Hd. by left.
  - split; [done|]. by apply Hb.
Qed.

Lemma node_learn_config_ok n ballot config :
  reader_ok n -> is_none_or config_wf config ->
  exists n', node_learn_config n ballot config = Done n' /\ reader_ok n' /\ same_learner n n' /\
    rn_config n' = rn_config n.
Proof.
  intros Hn Hwf. unfold node_learn_config. destruct config as [config|]; [|by exists n; split_and!]. simpl in Hwf.
  case_decide as Hd; [by exists n; split_and!|]. pose proof (pool_sorted _ (rk_deployed _ Hn)) as Hsort.
  destruct (is_drawn_from_ok config (pool (rn_config n)) Hsort) as (b & E & Hb). rewrite E. rsimpl.
  destruct b; cbn [negb]; [|by exists n; split_and!].
  rewrite abandon_superseded_ok. rsimpl. rewrite (rassert_true (_ < _)%B) by (simpl; apply ord_not_le; tauto). rsimpl.
  cbn [rn_acceptors rn_config on_reader]. rewrite E. rsimpl. rewrite rassert_true by done. rsimpl.
  eexists. split; [done|]. split; [|done]. destruct Hn. split; try done; simpl.
  - split; [done|]. by apply Hb.
  - apply Forall_forall. intros q [_ Hq]%list_elem_of_filter. rewrite Forall_forall in rk_reads0. by apply rk_reads0.
  - eapply sublist_NoDup; [done|]. apply fmap_sublist, sublist_filter.
Qed.

Lemma replica_on_heartbeat_ok n from ballot commit config fence :
  replica_core mode L (rn_replica n) -> reader_ok n -> is_none_or config_wf config ->
  exists n', replica_on_heartbeat n from ballot commit config fence = Done n' /\ reader_ok n' /\ same_learner n n'.
Proof.
  intros Hc Hn Hwf. unfold replica_on_heartbeat. destruct (decide (pooled (rn_config n) from)) as [Hp|Hp];
    [rewrite decide_False by tauto|rewrite decide_True by done; by exists n; split_and!]. cbv zeta. set (n1 := set_leader _ _).
  rewrite (rassert_true (is_some_and _ _)) by done. rsimpl.
  assert (reader_ok n1) as Hn1 by by destruct Hn.
  assert (exists n2, match config with Some config => learn_read_basis n1 config ballot fence | None => mret n1 end = Done n2 /\
    reader_ok n2 /\ same_learner n1 n2 /\ rn_config n2 = rn_config n1) as (n2 & -> & Hn2 & Hs2 & E2).
  { destruct config; [by apply learn_read_basis_ok|by exists n1; split_and!]. }
  rsimpl. destruct (node_learn_config_ok n2 ballot config Hn2 Hwf) as (n3 & -> & Hn3 & Hs3 & E3). rsimpl.
  assert (same_learner n n3) as Hs by (eapply same_learner_trans; [|exact Hs3]; exact Hs2).
  assert (replica_core mode L (rn_replica n3)) as Hc3 by (destruct Hs as (-> & _); done).
  rewrite (replica_chosen_index_ok mode L) by done. rsimpl. case_decide; [|by exists n3].
  rewrite (first_unchosen_ok mode L) by done. rsimpl.
  rewrite request_catch_up_ok; [|apply Hn3|by rewrite E3, E2]. eexists. split; [done|]. split; [by apply replica_send_reader|done].
Qed.

Lemma replica_on_pre_read_ack_ok n from ctx watermark since :
  reader_ok n ->
  exists n', replica_on_pre_read_ack n from ctx watermark since = Done n' /\ reader_ok n' /\ same_learner n n'.
Proof.
  intros Hn. unfold replica_on_pre_read_ack. case_decide; [by exists n; split_and!|].
  destruct (reads_fold_ok (rn_quorum_reads n) ctx from watermark since (read_wf_reads n Hn)) as (reads' & fold & -> & Hr).
  rsimpl. eexists. split; [done|]. split; [|done]. destruct Hn. split; try done; simpl.
  - destruct Hr as [->|[[i ->]|(i & q & Hi & _ & Hwf & _ & ->)]]; [done|by apply Forall_delete|].
    apply Forall_insert; [done|]. split; [done|]. rewrite Forall_forall in rk_reads0.
    by apply (rk_reads0 q), list_elem_of_lookup_2 with i.
  - destruct Hr as [->|[[i ->]|(i & q & Hi & _ & Hwf & _ & ->)]]; [done| |].
    + eapply sublist_NoDup; [done|]. apply fmap_sublist, sublist_delete.
    + rewrite list_fmap_insert. simpl. rewrite list_insert_id; [done|]. by rewrite list_lookup_fmap, Hi.
Qed.

Lemma replica_handle_ok n msg :
  replica_node_ok n -> replica_message_ok msg ->
  exists n', replica_handle n msg = Done n' /\ replica_node_ok n' /\ node_moves n n'.
Proof using Hfit.
  intros [Hl Hk] Hm. pose proof (ln_core _ (lo_ready _ Hl)) as Hc.
  assert (forall c, (exists n', c = Done n' /\ learner_step n n') -> exists n', c = Done n' /\ replica_node_ok n' /\ node_moves n n') as Hlearn.
  { intros c (n' & -> & Hst). exists n'. split; [done|]. split; [|by apply learner_step_moves].
    destruct Hst as (? & ? & _). split; [done|by eapply reader_learner_moves]. }
  assert (forall c, (exists n', c = Done n' /\ reader_ok n' /\ same_learner n n') ->
    exists n', c = Done n' /\ replica_node_ok n' /\ node_moves n n') as Hread.
  { intros c (n' & -> & ? & ?). exists n'. split; [done|]. split; [|by apply same_learner_moves].
    split; [by eapply same_learner_ok|done]. }
  destruct msg as [b s c|entries|point state|from b commit config fence|from ctx w since|]; simpl in Hm |- *.
  - destruct Hm as [? ->]. by apply Hlearn, node_replica_learn_ok.
  - by apply Hlearn, catch_up_ok.
  - destruct Hm as (? & ? & ->). by apply Hlearn, node_replica_trim_ok.
  - by apply Hread, replica_on_heartbeat_ok.
  - by apply Hread, replica_on_pre_read_ack_ok.
  - apply Hread. by exists n; split_and!.
Qed.

Lemma replica_marks_ok n : learner_ok n -> replica_marks n = Done (rep_chosen_index (rn_replica n), rn_floor n).
Proof.
  intros Hl. pose proof (lo_ready _ Hl) as Hr. pose proof (ln_core _ Hr) as Hc. unfold replica_marks.
  rewrite (replica_chosen_index_ok mode L) by done. rsimpl. rewrite (first_unchosen_ok mode L) by done. rsimpl.
  pose proof (co_floor _ _ _ Hc). pose proof (co_folded _ _ _ Hc). rewrite (ln_floor _ Hr). by rassert_by lia.
Qed.

(** How every entry point ends: its watermarks rose, its invariants hold. *)
Lemma replica_exit_ok n n' :
  replica_node_ok n' -> node_moves n n' ->
  (replica_marks_monotone n' (rep_chosen_index (rn_replica n), rn_floor n);; replica_node_invariants n';; mret n') = Done n'.
Proof.
  intros [Hl Hk] []. unfold replica_marks_monotone.
  rewrite (replica_chosen_index_ok mode L) by apply Hl. rsimpl.
  rewrite (rassert_true (ord_le _ _)) by by apply end_of_le. rsimpl. rewrite rassert_true by done. rsimpl.
  by rewrite replica_node_invariants_ok.
Qed.

Lemma replica_step_ok n msg :
  replica_node_ok n -> replica_message_ok msg ->
  exists n', replica_step n msg = Done n' /\ replica_node_ok n' /\ node_moves n n'.
Proof using Hfit.
  intros Hn Hm. unfold replica_step. rewrite replica_marks_ok by apply Hn. rsimpl.
  destruct (replica_handle_ok n msg Hn Hm) as (n1 & -> & [Hl1 Hk1] & Hm1). rsimpl.
  destruct (replica_serve_ok n1) as (n2 & -> & Hk2 & Hs2 & _); [apply Hl1|done|]. rsimpl.
  assert (node_moves n n2) as Hm2 by (eapply node_moves_trans; [done|by apply same_learner_moves]).
  assert (replica_node_ok n2) as Hn2 by (split; [by eapply same_learner_ok|done]).
  rewrite replica_exit_ok by done. by exists n2.
Qed.

Lemma replica_advance_recovery_ok n :
  replica_node_ok n -> exists n', replica_advance_recovery n = Done n' /\ replica_node_ok n' /\ node_moves n n'.
Proof using Hfit.
  intros Hn. unfold replica_advance_recovery. rewrite replica_marks_ok by apply Hn. rsimpl.
  destruct (node_replica_advance_ok n) as (n1 & -> & Hl1 & Hm1 & Hp1 & _); [apply Hn|]. rsimpl.
  assert (node_moves n n1) by (by apply learner_step_moves).
  assert (replica_node_ok n1) by (split; [done|eapply reader_learner_moves; [apply Hn|done]]).
  rewrite replica_exit_ok by done. by exists n1.
Qed.

Lemma node_read_basis_ok n :
  reader_ok n -> exists o, node_read_basis n = Done o /\
    is_none_or (fun b => config_wf (rb_config b) /\ drawn (rb_config b) (pool (rn_config n))) o /\
    (o = None -> config_has_matchmakers (rn_config n) = true).
Proof.
  intros Hn. unfold node_read_basis. destruct (config_has_matchmakers (rn_config n)) eqn:Em.
  - exists (rn_read_basis n). split; [|split; [apply Hn|done]]. pose proof (rk_basis _ Hn) as Hb.
    destruct (rn_read_basis n) as [b|]; [|done]. destruct Hb as [_ Hb].
    destruct (is_drawn_from_ok (rb_config b) (pool (rn_config n)) (pool_sorted _ (rk_deployed _ Hn))) as (d & -> & Hd).
    rsimpl. by rewrite rassert_true by by apply Hd.
  - rewrite rassert_true by by apply (rk_plain _ Hn). rsimpl. eexists. split; [done|]. split; [|done]. apply Hn.
Qed.

Lemma opened_reader n basis ctx row :
  reader_ok n -> ctx ∉ (qr_ctx <$> rn_quorum_reads n) -> drawn (rb_config basis) (pool (rn_config n)) ->
  read_wf (fresh_read ctx row basis (rn_tick_count n) None) ->
  reader_ok (set_reads n (rn_quorum_reads n ++ [fresh_read ctx row basis (rn_tick_count n) None]) (rn_read_states n)).
Proof.
  intros [] Hctx Hdr Hwf. split; try done; simpl.
  - apply Forall_app. split; [done|]. apply Forall_singleton. split_and!; [done..|]. simpl. lia.
  - rewrite fmap_app. apply NoDup_app. split; [done|]. split; [|apply NoDup_singleton].
    intros c Hc. simpl. rewrite list_elem_of_singleton. by intros ->.
Qed.

(** A quorum read opens at a fresh token, and sends its pre-reads to pooled nodes. *)
Lemma replica_quorum_read_ok n ctx row :
  replica_node_ok n -> ctx ∉ (qr_ctx <$> rn_quorum_reads n) ->
  exists n', replica_quorum_read n ctx row = Done n' /\ replica_node_ok n' /\ same_learner n n'.
Proof.
  intros [Hl Hk] Hctx. unfold replica_quorum_read.
  destruct (node_read_basis_ok n Hk) as ([basis|] & -> & Hb & Hnone); rsimpl.
  2: { rewrite rassert_true by by apply Hnone. rsimpl. rewrite replica_node_invariants_ok by done.
       exists n. by split_and!. }
  destruct Hb as [Hwf Hdr].
  destruct (config_read_row_ok (rb_config basis) ctx row Hwf) as (row' & -> & Hrow & Hnames). rsimpl.
  rewrite config_system_ok by done. rsimpl. rewrite (rassert_true (bool_decide _ = _)) by done. rsimpl.
  destruct (reads_open_none (rn_quorum_reads n) ctx row' basis (rn_tick_count n) Hctx Hwf Hrow) as [-> Hfresh]. rsimpl.
  pose proof (opened_reader n basis ctx row' Hk Hctx Hdr Hfresh) as Hk1. set (n1 := set_reads _ _ _) in *.
  rewrite (rassert_true (Forall _ _)).
  2: { apply Forall_forall. intros m Hm%row_members_subset. by apply pooled_iff, Hdr. }
  rsimpl. rewrite reads_pending_ok by apply Hk1. rsimpl.
  rewrite (anyM_ok _ (fun q => qr_ctx q = ctx)).
  2: { intros q Hq. pose proof (rk_reads _ Hk1) as Hall. rewrite Forall_forall in Hall. destruct (Hall q Hq) as ([_ Hr _ _] & _).
       unfold read_ctx. by rewrite rassert_true. }
  rsimpl. rewrite rassert_true.
  2: { apply bool_decide_eq_true_2, Exists_exists. exists (fresh_read ctx row' basis (rn_tick_count n) None).
       split; [|done]. simpl. apply elem_of_app. right. by apply list_elem_of_singleton. }
  rsimpl. set (n2 := replica_send _ _).
  assert (replica_node_ok n2) as [Hl2 Hk2].
  { split; [by eapply (same_learner_ok n)|]. by apply replica_send_reader. }
  rewrite replica_node_invariants_ok by done. exists n2. by split_and!.
Qed.

Lemma ticked_reader n reads :
  reader_ok n -> reads `sublist_of` rn_quorum_reads n ->
  reader_ok (set_reads (set_ticks n (rn_tick_count n + 1)) reads (rn_read_states n)).
Proof.
  intros [] Hsub. split; try done; simpl.
  - apply Forall_forall. intros q Hq. rewrite Forall_forall in rk_reads0.
    destruct (rk_reads0 q) as (? & ? & ?); [by eapply elem_of_sublist|]. split_and!; [done..|lia].
  - eapply sublist_NoDup; [done|]. by apply fmap_sublist.
Qed.

(** Where a tick pulls from. *)
Definition pull_targets n : list NodeId :=
  match rn_leader n with Some leader => [leader] | None => nc_peers (rn_config n) end.

Lemma pull_targets_pooled n : reader_ok n -> Forall (pooled (rn_config n)) (pull_targets n).
Proof.
  intros Hn. unfold pull_targets. pose proof (rk_leader _ Hn) as Hl. destruct (rn_leader n); [by apply Forall_singleton|].
  apply (dp_pooled _ (rk_deployed _ Hn)).
Qed.

(** A tick: while a record of the prefix is missing it asks for the first one. *)
Lemma replica_tick_ok n :
  replica_node_ok n -> rn_tick_count n < u64_max ->
  exists n', replica_tick n = Done n' /\ replica_node_ok n' /\ same_learner n n' /\
    rn_messages n' = rn_messages n ++
      match bs_first (rn_faulty n) with
      | Some s => (fun to => SCatchUpRequest to s) <$> pull_targets n
      | None => []
      end.
Proof.
  intros [Hl Hk] Ht. unfold replica_tick. rewrite replica_marks_ok by done. rsimpl. rewrite u64_add_ok by lia. rsimpl.
  cbv zeta. rewrite (rassert_true (READ_TTL_TICKS <= _)) by apply Hk. rsimpl.
  rewrite reads_expire_ok.
  2: { eapply Forall_impl; [apply (rk_reads _ Hk)|]. simpl. intros q (_ & _ & ?). lia. }
  rsimpl. set (reads := filter _ _).
  pose proof (ticked_reader n reads Hk ltac:(apply sublist_filter)) as Hk1. set (n1 := set_reads _ _ _) in Hk1.
  change (set_reads _ _ _) with n1.
  destruct (replica_serve_ok n1) as (n2 & -> & Hk2 & Hs2 & Ec2 & El2 & Et2 & Em2); [apply Hl|done|]. rsimpl.
  assert (same_learner n n2) as Hs by done.
  set (msgs := match bs_first (rn_faulty n) with Some s => (fun to => SCatchUpRequest to s) <$> pull_targets n | None => [] end).
  assert (match bs_first (rn_faulty n2) with
     | Some from_slot =>
         foldM (fun n to => request_catch_up n to from_slot) n2
           match rn_leader n2 with Some leader => [leader] | None => nc_peers (rn_config n2) end
     | None => mret n2 end = Done (replica_send n2 msgs)) as ->.
  { destruct Hs as (_ & _ & Ef & _). unfold msgs. rewrite Ef. destruct (bs_first (rn_faulty n)) as [s|].
    - pose proof (pull_targets_pooled _ Hk2) as Hp. unfold pull_targets in Hp.
      rewrite request_all_ok by (done || apply Hk2). rewrite El2, Ec2. done.
    - unfold replica_send. rewrite app_nil_r. by destruct n2. }
  rsimpl. set (n3 := replica_send _ _). rewrite (rassert_true (_ = _)) by (simpl; by rewrite Et2). rsimpl.
  assert (replica_node_ok n3) as Hn3.
  { split; [by eapply (same_learner_ok n)|]. by apply replica_send_reader. }
  rewrite replica_exit_ok by (done || by apply (same_learner_moves n)).
  exists n3. split_and!; try done. simpl. by rewrite Em2.
Qed.

Lemma drawn_mono config members members' : (forall m, m ∈ members -> m ∈ members') -> drawn config members -> drawn config members'.
Proof. unfold drawn. auto. Qed.

(** The pool extended: everything known stays known. *)
Lemma extended_reader n nodes :
  reader_ok n ->
  let extended := normalize (pool (rn_config n) ++ filter (fun id => id <> nc_id (rn_config n)) nodes) in
  reader_ok (set_config n (with_nodes (rn_config n) extended)) /\
  pool (with_nodes (rn_config n) extended) = extended /\ (forall m, m ∈ pool (rn_config n) -> m ∈ extended).
Proof.
  intros Hn extended. assert (forall m, m ∈ pool (rn_config n) -> m ∈ extended) as Hsub.
  { intros m Hm. unfold extended. rewrite elem_of_normalize, elem_of_app. by left. }
  assert (pool (with_nodes (rn_config n) extended) = extended) as Ep.
  { unfold pool at 1. simpl. case_decide as Hnil; [|done]. pose proof (dp_peers _ (rk_deployed _ Hn)) as Hp.
    pose proof (dp_pooled _ (rk_deployed _ Hn)) as Hall. destruct (nc_peers (rn_config n)) as [|m l]; [done|].
    apply Forall_cons in Hall as [Hm _]. apply pooled_iff, Hsub in Hm. rewrite Hnil in Hm. by apply elem_of_nil in Hm. }
  split_and!; [|done..]. destruct Hn as [Hd Hl Ha Hpl Hb Hr Htk Hw Hst].
  assert (forall m, pooled (rn_config n) m -> pooled (with_nodes (rn_config n) extended) m) as Hpool.
  { intros m. rewrite !pooled_iff, Ep. apply Hsub. }
  split; try done; simpl.
  - destruct Hd as [H1 H2 H3 H4 H5]. split; simpl; try done.
    + apply normalize_sorted.
    + eapply Forall_impl; [exact H4|]. done.
    + rewrite pooled_iff, Ep. unfold extended. rewrite elem_of_normalize, elem_of_app, list_elem_of_filter.
      rewrite pooled_iff in H5. tauto.
  - destruct (rn_leader n); simpl in *; [by apply Hpool|done].
  - rewrite Ep. split; [apply Ha|]. eapply drawn_mono; [done|apply Ha].
  - rewrite Ep. destruct (rn_read_basis n); simpl in *; [|done]. split; [apply Hb|]. by eapply drawn_mono, Hb.
  - rewrite Ep. eapply Forall_impl; [exact Hr|]. intros q (? & ? & ?). split_and!; [done| |done]. by eapply drawn_mono.
Qed.

Lemma replica_extend_pool_ok n nodes :
  replica_node_ok n ->
  exists n' grew, replica_extend_pool n nodes = Done (n', grew) /\ replica_node_ok n' /\ same_learner n n'.
Proof.
  intros [Hl Hk]. unfold replica_extend_pool. destruct (config_has_matchmakers (rn_config n)); cbn [negb];
    [|by exists n, false; split_and!].
  destruct (extended_reader n nodes Hk) as (Hk1 & Ep & Hsub). cbv zeta. set (extended := normalize _) in *.
  set (n1 := set_config _ _) in *. change (rn_config n1) with (with_nodes (rn_config n) extended). rewrite Ep.
  rewrite (rassert_true (_ <= _)).
  2: { pose proof (members_NoDup _ (pool_sorted _ (rk_deployed _ Hk))) as Hnd.
       pose proof (NoDup_submseteq _ _ Hnd Hsub) as Hle%submseteq_length. unfold len. lia. }
  rsimpl. rewrite (rassert_true (Forall _ _)) by apply (dp_pooled _ (rk_deployed _ Hk1)). rsimpl.
  rewrite (rassert_true (~ _)) by apply (dp_outside _ (rk_deployed _ Hk1)). rsimpl.
  rewrite replica_node_invariants_ok by (done || by eapply (same_learner_ok n)). rsimpl.
  eexists _, _. split; [done|]. split; [|done]. split; [by eapply (same_learner_ok n)|done].
Qed.

(** ** Boot *)

(** What a store has to hold for a boot to resume the fold: the prefix's records,
    each readable with the decided command or reported faulty, above a good floor
    with the reference's state sealed at it. *)
Record replica_bootable st : Prop := {
  bt_index : is_none_or (fun ci => ci < u64_max) (chosen_index (m_hard_state st));
  bt_floor : m_first_slot st <= match chosen_index (m_hard_state st) with Some s => s + 1 | None => 0 end;
  bt_sealed : m_sealed st = state_before mode L (m_first_slot st);
  bt_good : good_floor mode L (m_first_slot st);
  bt_records : forall s b c, m_accepted st !! s = Some (b, c) -> c = L s /\ m_first_slot st <= s < u64_max;
  bt_complete : forall s, m_first_slot st <= s < match chosen_index (m_hard_state st) with Some s => s + 1 | None => 0 end ->
    is_Some (m_accepted st !! s) \/ s ∈ (m_faulty st).*1;
  bt_lost : forall s, s ∈ (m_faulty st).*1 -> m_accepted st !! s = None }.

Lemma scan_records_ok st mid l below above :
  let '(below', above') := foldl (scan_record st mid) (below, above) l in
  forall s,
    below' !! s = (if decide (s ∈ l /\ is_Some (m_accepted st !! s) /\ s < mid) then m_accepted st !! s else below !! s) /\
    above' !! s = (if decide (s ∈ l /\ is_Some (m_accepted st !! s) /\ mid <= s) then m_accepted st !! s else above !! s).
Proof.
  revert below above. induction l as [|x l IH]; intros below above; cbn [foldl].
  { intros s. by rewrite !decide_False by (intros [?%elem_of_nil _]; done). }
  destruct (scan_record st mid (below, above) x) as [below1 above1] eqn:E1.
  specialize (IH below1 above1). destruct (foldl (scan_record st mid) (below1, above1) l) as [below' above'].
  intros s. destruct (IH s) as [-> ->]. unfold scan_record in E1. simpl in E1.
  assert (forall P : Prop, (s ∈ x :: l /\ P) <-> (s = x /\ P) \/ (s ∈ l /\ P)) as Hx
    by (intros P; rewrite elem_of_cons; tauto).
  destruct (m_accepted st !! x) as [rec|] eqn:Ex.
  - case_decide as Hmid; injection E1 as <- <-; (split;
      [|]; [destruct (decide (s ∈ x :: l /\ is_Some (m_accepted st !! s) /\ s < mid)) as [Hd|Hd]
           |destruct (decide (s ∈ x :: l /\ is_Some (m_accepted st !! s) /\ mid <= s)) as [Hd|Hd]];
      rewrite Hx in Hd; case_decide as Hl; try tauto;
      destruct (decide (x = s)) as [->|Hne]; rewrite ?lookup_insert_eq, ?lookup_insert_ne by done; try done;
      try (destruct Hd as [[? _]|?]; [by subst|tauto]);
      try (exfalso; apply Hd; left; split; [done|]; rewrite Ex; split; [by eexists|lia])).
    + exfalso. destruct Hd as [(_ & _ & ?)|?]; [lia|tauto].
    + exfalso. destruct Hd as [(_ & _ & ?)|?]; [lia|tauto].
  - injection E1 as <- <-. split; apply decide_ext; rewrite Hx; split; try tauto; intros [(-> & [? ?] & _)|?]; [congruence|tauto|congruence|tauto].
Qed.

(** The records of the scan split at the end of the prefix. *)
Lemma scan_split st mid :
  replica_bootable st ->
  exists below above, foldl (scan_record st mid) (∅, ∅) (slot_range (m_first_slot st) (st_last_slot st)) = (below, above) /\
    (forall s, below !! s = if decide (s < mid) then m_accepted st !! s else None) /\
    (forall s, above !! s = if decide (mid <= s) then m_accepted st !! s else None).
Proof.
  intros Hb. pose proof (scan_records_ok st mid (slot_range (m_first_slot st) (st_last_slot st)) ∅ ∅) as Hs.
  destruct (foldl _ _ _) as [below above]. exists below, above. split; [done|].
  assert (forall s, is_Some (m_accepted st !! s) -> s ∈ slot_range (m_first_slot st) (st_last_slot st)) as Hin.
  { intros s [[b c] Hsc]. apply elem_of_slot_range. pose proof (bt_records _ Hb _ _ _ Hsc) as (_ & ? & _).
    split; [done|]. simpl. destruct (last_key_of (m_accepted st)) as [k|] eqn:Ek; simpl.
    - apply last_key_of_Some in Ek as [_ Hmax]. apply Hmax. by eexists.
    - apply last_key_of_None in Ek. by rewrite Ek, lookup_empty in Hsc. }
  split; intros s; destruct (Hs s) as [E1 E2]; [rewrite E1|rewrite E2]; rewrite lookup_empty;
    (destruct (m_accepted st !! s) as [rec|] eqn:Er; [|by repeat case_decide]);
    (apply decide_ext; split; [tauto|]; intros; split_and!; [apply Hin; rewrite Er; by eexists|by eexists|done]).
Qed.

(** Learning the records above the prefix again. *)
Lemma relearn_ok n (l : list (Slot * (Ballot * Command))) :
  replica_core mode L (rn_replica n) -> at_hole (rn_replica n) -> NoDup l.*1 ->
  (forall e, e ∈ l -> end_ n <= e.1 < u64_max /\ rep_floor (rn_replica n) <= e.1 /\ e.2.2 = L e.1 /\ chosen n !! e.1 = None) ->
  exists r unwalked,
    foldM (fun n (e : Slot * (Ballot * Command)) =>
             r ← replica_learn (rn_replica n) e.1 e.2.2;
             mret (on_learner n r (rn_floor n) (rn_faulty n) (<[e.1 := e.2.1]> (rn_unwalked n)) (rn_writes n))) n l =
      Done (on_learner n r (rn_floor n) (rn_faulty n) unwalked (rn_writes n)) /\
    replica_core mode L r /\ at_hole r /\ rep_chosen_index r = rep_chosen_index (rn_replica n) /\
    rep_floor r = rep_floor (rn_replica n) /\ rep_compaction_due r = rep_compaction_due (rn_replica n) /\
    (forall s, rep_chosen r !! s = if decide (s ∈ l.*1) then Some (L s) else chosen n !! s) /\
    (forall s, is_Some (unwalked !! s) <-> s ∈ l.*1 \/ is_Some (rn_unwalked n !! s)).
Proof using Hfit.
  revert n. induction l as [|[s [b c]] l IH]; intros n Hc Hh Hnd Hl; cbn [foldM].
  { exists (rn_replica n), (rn_unwalked n). split; [by destruct n|]. split_and!; try done.
    intros s. split; [by right|]. by intros [?%elem_of_nil|?]. }
  cbn [fmap list_fmap fst] in Hnd. apply NoDup_cons in Hnd as [Hns Hnd].
  destruct (Hl (s, (b, c)) ltac:(left)) as (Hs & Hfl & Hsc & Hno). simpl in Hs, Hfl, Hsc, Hno. subst c.
  destruct (replica_learn_ok mode L Hfit (rn_replica n) s Hc Hh) as (r1 & E1 & Hc1 & Hh1 & Hr1); [lia|done|].
  cbn [fst snd]. rewrite E1. rsimpl. set (n1 := on_learner _ _ _ _ _ _).
  pose proof (refolds_end _ _ Hr1) as He. change (end_of (with_chosen _ _)) with (end_ n) in He. destruct Hr1. simpl in *.
  destruct (IH n1) as (r & u & -> & Hcr & Hhr & Hix & Hfr & Hdr & Hch & Hu); [done..| |].
  { intros [s' [b' c']] He'. simpl. rewrite He, rf_floor, rf_chosen.
    destruct (Hl (s', (b', c')) ltac:(by right)) as (H1 & H2 & H3 & H4). split_and!; try done; try apply H1.
    rewrite lookup_insert_ne; [done|]. intros <-. apply Hns, list_elem_of_fmap. by exists (s, (b', c')). }
  exists r, u. simpl in *. split; [done|]. rewrite Hix, Hfr, Hdr. split_and!; try done.
  - intros s'. rewrite Hch, rf_chosen. destruct (decide (s' ∈ l.*1)) as [Hin|Hin].
    + by rewrite decide_True by by right.
    + destruct (decide (s' = s)) as [->|Hne].
      * rewrite lookup_insert_eq, decide_True by by left. done.
      * rewrite lookup_insert_ne by done. rewrite decide_False; [done|]. by intros [?|?]%elem_of_cons.
  - intros s'. rewrite Hu, elem_of_cons. destruct (decide (s' = s)) as [->|Hne].
    + rewrite lookup_insert_eq. split; [by left; left|]. intros _. right. by eexists.
    + rewrite lookup_insert_ne by done. tauto.
Qed.

Definition effective_limits (limits : Limits) : Limits :=
  mkLimits (recovery_page limits) (promise_page_limit limits) (resend_page_limit limits)
    (apply_page limits) (N.max (read_window limits) READ_TTL_TICKS) (registry_page limits).

Lemma kept_read_window_ok limits : kept_read_window limits = Done (N.max (read_window limits) READ_TTL_TICKS).
Proof. unfold kept_read_window. rassert_by lia. by rassert_by lia. Qed.

Lemma page_core r page :
  replica_core mode L r -> 0 < page <= APPLY_BATCH -> replica_core mode L (with_page r page).
Proof. by intros []. Qed.

(** The deployment a replica boots under. *)
Record boots_under (config : DeployConfig) (acceptors : AcceptorConfig NodeId) (limits : Limits) : Prop := {
  bu_deployed : deployed config;
  bu_mode : nc_writer_mode config = mode;
  bu_len : len (nc_peers config) < usize_max;
  bu_bootstrap : bootstrap config = Done acceptors;
  bu_limits : limits_valid limits }.

Lemma boots_acceptors config acceptors limits :
  boots_under config acceptors limits -> config_wf acceptors /\ drawn acceptors (pool config).
Proof.
  intros [Hd _ Hlen Hb _]. destruct (bootstrap_inv _ _ Hlen Hb) as [? Hm]. split; [done|].
  intros m Hin%Hm. apply pooled_iff. pose proof (dp_pooled _ Hd) as Hp. rewrite Forall_forall in Hp. by apply Hp.
Qed.

(** The role a boot rebuilds from the records below the end of the prefix. *)
Lemma boot_replica_ok st limits below :
  replica_bootable st -> limits_valid limits ->
  (forall s, below !! s = if decide (s < match chosen_index (m_hard_state st) with Some s => s + 1 | None => 0 end)
                          then m_accepted st !! s else None) ->
  exists r, replica_from_boot mode (chosen_index (m_hard_state st)) (m_first_slot st) (m_sealed st) below = Done r /\
    set_apply_page r (apply_page limits) = Done (with_page r (apply_page limits)) /\
    replica_core mode L (with_page r (apply_page limits)) /\ at_hole (with_page r (apply_page limits)) /\
    rep_chosen_index r = chosen_index (m_hard_state st) /\ rep_floor r = m_first_slot st /\
    rep_compaction_due r = false /\ rep_chosen r = snd <$> below.
Proof using Hfit.
  intros Hb Hlim Hbelow. set (mid := match chosen_index (m_hard_state st) with Some s => s + 1 | None => 0 end) in *.
  destruct (replica_from_boot_ok mode L Hfit (chosen_index (m_hard_state st)) (m_first_slot st) (m_sealed st) below)
    as (r & -> & Hc & Hh & Hs & Hix & Hfl & _ & Hdue & Hch).
  { split; [apply Hb..|]. intros s b c Hsc _. rewrite Hbelow in Hsc. case_decide; [|done].
    apply (bt_records _ Hb) in Hsc as (-> & ? & _). done. }
  destruct Hlim as (_ & _ & _ & Hpage & _). exists r. split; [done|]. split.
  { unfold set_apply_page. rassert_by lia. rassert_by lia. by rassert_by done. }
  split; [by apply page_core|]. split_and!; try done. rewrite Hch. f_equal. apply map_filter_id.
  intros s rec Hrec. simpl. rewrite Hbelow in Hrec. case_decide as Hlt; [|done]. unfold mid in Hlt.
  destruct (chosen_index (m_hard_state st)); simpl; lia.
Qed.

Lemma boot_faulty st mid s :
  s ∈ (list_to_set (filter (fun s => m_first_slot st <= s < mid) ((m_faulty st).*1)) : gset Slot) <->
  m_first_slot st <= s < mid /\ s ∈ (m_faulty st).*1.
Proof. by rewrite elem_of_list_to_set, list_elem_of_filter. Qed.

(** The learner as the scan leaves it, and the store it mirrors. *)
Lemma booted_ready st n (below above : gmap Slot (Ballot * Command)) r (unwalked : gmap Slot Ballot) :
  replica_bootable st ->
  (forall s, below !! s = if decide (s < end_of r) then m_accepted st !! s else None) ->
  (forall s, above !! s = if decide (end_of r <= s) then m_accepted st !! s else None) ->
  replica_core mode L r -> at_hole r -> rep_chosen_index r = chosen_index (m_hard_state st) ->
  rep_floor r = m_first_slot st -> rn_floor n = m_first_slot st -> rn_writes n = [] ->
  rn_faulty n = list_to_set (filter (fun s => m_first_slot st <= s < end_of r) ((m_faulty st).*1)) ->
  (forall s, rep_chosen r !! s = if decide (s ∈ bt_keys above) then Some (L s) else (snd <$> below) !! s) ->
  (forall s, is_Some (unwalked !! s) <-> s ∈ bt_keys above) ->
  let n' := on_learner n r (rn_floor n) (rn_faulty n) unwalked (rn_writes n) in
  learner_ready n' /\ stored n' st.
Proof.
  intros Hb Hbelow Habove Hc Hh Hix Hfl Hnf Hnw Hfa Hch Hu n'.
  assert (forall s, snd <$> m_accepted st !! s = rep_chosen r !! s) as Hrec.
  { intros s. rewrite Hch, lookup_fmap, Hbelow. destruct (decide (s ∈ bt_keys above)) as [Hin|Hin].
    - apply elem_of_bt_keys in Hin as [[b c] Hs]. rewrite Habove in Hs. case_decide; [|done].
      rewrite Hs. simpl. f_equal. by apply (bt_records _ Hb) in Hs as [? _].
    - case_decide as Hlt; [done|]. rewrite elem_of_bt_keys, Habove, decide_True in Hin by lia.
      destruct (m_accepted st !! s); [|done]. by destruct Hin. }
  assert (end_of r = match chosen_index (m_hard_state st) with Some s => s + 1 | None => 0 end) as He
    by (unfold end_of; by rewrite Hix).
  assert (forall s, m_accepted st !! s = None <-> rep_chosen r !! s = None) as Hnone.
  { intros s. rewrite <-Hrec. by destruct (m_accepted st !! s). }
  split.
  - split; try done; simpl.
    + by rewrite Hnf, Hfl.
    + intros s. rewrite Hfa, boot_faulty, Hfl, <-Hnone. split; intros [Hs Hf]; (split; [done|]).
      * by apply (bt_lost _ Hb).
      * destruct (bt_complete _ Hb s) as [Hsome|?]; [by rewrite <-He|rewrite Hf in Hsome; by destruct Hsome|done].
    + intros s Hs. rewrite Hu, elem_of_bt_keys, Habove, decide_True by done. rewrite <-Hrec. by rewrite fmap_is_Some.
    + by rewrite Hnw.
  - split; simpl; try done.
    + by rewrite (bt_sealed _ Hb), (co_base _ _ _ Hc), Hfl.
    + intros s. rewrite Hfa, boot_faulty. by intros [_ ?].
Qed.

(** The walk a boot ends with. *)
Lemma booted_walks st n1 :
  learner_ready n1 -> stored n1 st -> reader_ok n1 -> rn_writes n1 = [] ->
  exists n st', node_replica_advance n1 = Done n /\ replica_node_ok n /\ learner_moves n1 n /\
    mem_apply st (rn_writes n) = Done st' /\ stored n st' /\
    (forall s, rn_floor n <= s -> snd <$> m_accepted st !! s = chosen n !! s) /\
    (forall s, s ∈ rn_faulty n -> s ∈ rn_faulty n1).
Proof using Hfit.
  intros Hr Hst Hk Hnw. destruct (node_replica_advance_ok n1 Hr) as (n & E & Hl & Hm & (ws & Ew & Hp) & Hchn & Hfan & _).
  destruct (Hp st Hst) as (st' & Est & Hst'). exists n, st'. rewrite Ew, Hnw.
  split; [done|]. split; [split; [done|by eapply reader_learner_moves]|]. split_and!; try done.
  intros s Hs. rewrite Hchn by done. apply (sd_records _ _ Hst).
Qed.

(** A replica boots from any such store: no assertion fires, the node is well
    formed, and the store mirrors it once its first batch is persisted. *)
Lemma replica_node_new_ok config acceptors limits st :
  boots_under config acceptors limits -> replica_bootable st ->
  exists n st', replica_node_new config st limits = Done n /\ replica_node_ok n /\
    mem_apply st (rn_writes n) = Done st' /\ stored n st' /\ rn_config n = config /\ rn_limits n = effective_limits limits /\
    (forall s, rn_floor n <= s -> snd <$> m_accepted st !! s = chosen n !! s) /\
    m_first_slot st <= rn_floor n /\ ord_le (chosen_index (m_hard_state st)) (rep_chosen_index (rn_replica n)).
Proof using Hfit.
  intros Hunder Hb. destruct (boots_acceptors _ _ _ Hunder) as [Hwf Hdr]. destruct Hunder as [Hd Hmode _ Hboot Hlim].
  unfold replica_node_new.
  rewrite (proj2 (limits_assert_valid_iff _)) by done. rsimpl. rewrite kept_read_window_ok. rsimpl.
  rewrite (proj2 (assert_replica_config_shape_iff _)) by done. rsimpl. 
  change (st_first_slot st) with (m_first_slot st). change (st_hard_state st) with (m_hard_state st).
  change (st_sealed_state st) with (m_sealed st). change (st_faulty_entries st) with (m_faulty st).
  set (mid := match chosen_index (m_hard_state st) with Some s => s + 1 | None => 0 end).
  assert (match chosen_index (m_hard_state st) with Some ci => u64_add ci 1 | None => mret 0 end = Done mid) as ->.
  { pose proof (bt_index _ Hb) as Hi. unfold mid. destruct (chosen_index (m_hard_state st)); simpl in Hi; [|done].
    by rewrite u64_add_ok by lia. }
  rsimpl. rewrite (rassert_true (_ <= mid)) by apply (bt_floor _ Hb). rsimpl.
  destruct (scan_split st mid Hb) as (below & above & -> & Hbelow & Habove).
  rewrite foldM_checks.
  2: { intros s Hs%elem_of_range. apply rassert_true. rewrite Hbelow, boot_faulty, decide_True by lia.
       destruct (bt_complete _ Hb s Hs); [by left|by right]. }
  rsimpl. rewrite Hmode. destruct (boot_replica_ok st limits below Hb Hlim Hbelow)
    as (r0 & E0 & Epage & Hc0 & Hh0 & Hix0 & Hfl0 & Hdue0 & Hch0).
  cbn [apply_page]. rewrite E0. rsimpl. rewrite Epage. rsimpl. rewrite Hboot. rsimpl.
  set (n0 := mkReplicaNode _ _ _ _ _ _ _ _ _ _ _ _ _ _ _).
  assert (end_of (with_page r0 (apply_page limits)) = mid) as He0 by (unfold end_of; simpl; by rewrite Hix0).
  destruct (relearn_ok n0 (bt_entries above) Hc0 Hh0 (NoDup_bt_keys above))
    as (r & u & -> & Hc & Hh & Hix & Hfl & Hdue & Hch & Hu).
  { intros [s [b c]] Hs%elem_of_bt_entries. simpl. rewrite Habove in Hs. case_decide as Hge; [|done].
    apply (bt_records _ Hb) in Hs as Hrec. destruct Hrec as (-> & ? & ?). rewrite Hfl0, Hch0, lookup_fmap, Hbelow.
    unfold end_of. simpl. rewrite Hix0. fold mid. rewrite decide_False by lia. split_and!; done || lia. }
  simpl in Hix, Hfl, Hdue, Hch. rsimpl.
  assert (end_of r = mid) as He by (unfold end_of; by rewrite Hix, Hix0).
  destruct (booted_ready st n0 below above r u Hb) as [Hr Hst]; rewrite ?He; try done; try congruence.
  { intros s. rewrite Hch. unfold bt_keys. by rewrite Hch0. }
  { intros s. rewrite Hu. simpl. rewrite lookup_empty. unfold bt_keys. split; [|by left]. by intros [?|[? ?]]. }
  set (n1 := on_learner _ _ _ _ _ _) in *.
  assert (reader_ok n1) as Hk1.
  { split; try done; simpl; try lia; constructor. }
  destruct (booted_walks st n1 Hr Hst Hk1) as (n & st' & -> & [Hl Hk] & Hm & Est & Hst' & Hq & Hfan); [done|]. rsimpl.
  rewrite (replica_chosen_index_ok mode L) by apply Hl. rsimpl. destruct (learner_moves_le _ _ Hm) as (_ & Hle & Hfle).
  assert (ord_le (chosen_index (m_hard_state st)) (rep_chosen_index (rn_replica n))) as Hie
    by (rewrite <-Hix0, <-Hix; by apply end_of_le).
  rewrite (rassert_true (ord_le _ _)) by done. rsimpl.
  rewrite (rassert_true (Forall _ _)).
  2: { apply Forall_forall. intros s Hs%elem_of_bs_elements%Hfan. simpl in Hs. apply boot_faulty in Hs. lia. }
  rsimpl. rewrite replica_node_invariants_ok by done. exists n, st'. rsimpl.
  destruct Hm as (? & ? & ? & ? & ? & -> & _). by split_and!.
Qed.
End node.
