(* ===== verification/ReplicaSystem.v ===== *)
(** * Replica nodes over their stores, through messages, drains and restarts

    A replica node and its store, driven by any sequence of messages, ticks, reads,
    drains and crashes.  A crash loses the batch not yet persisted, any part of the
    chosen index (its writes need no fsync) and may find any records rotted.  What
    the messages say is [replica_message_ok]: commits and replays carry the one decided log,
    trim points are floors other replicas took ([trim_message_ok]). *)

From S2P Require Import Prelude BTree Types Journal Contract Acceptor QuorumSystem AcceptorConfig DeployConfig QuorumRead Storage Replica ReplicaInv ReplicaRead ReplicaNode ReplicaNodeInv.

(** ** The world *)

Record ReplicaWorld := mkReplicaWorld {
  xw_node : ReplicaNode;
  xw_disk : MemStorage;
  xw_reported : list Applied }.

Inductive ReplicaLabel :=
| XStep (msg : ReplicaMsg)
| XTick
| XRead (ctx : N) (row : option N)
| XAdvance
| XExtend (nodes : list NodeId)
| XDrain
| XCrash (lost : gset Slot) (index : option Slot).

(** [drain]: take the batch, persist it, and only then report and send; the fold
    it hands back covers every slot it reported. *)
Definition replica_drain (w : ReplicaWorld) : run ReplicaWorld :=
  let n := xw_node w in
  writes ← ready_replica_writes n;
  committed ← ready_committed n;
  _ ← ready_read_states n;
  n ← replica_clear_pending n;
  _ ← for_batch writes;
  disk ← mem_apply (xw_disk w) writes;
  folded ← replica_folded (rn_replica n);
  match last committed with
  | Some e => rassert (is_some_and (fun head => applied_slot e <= head) (u64_checked_sub folded 1))
                "a drained batch's fold covers every slot it reported"
  | None => mret tt
  end;;
  mret (mkReplicaWorld n disk (xw_reported w ++ committed)).

(** The chosen index a boot goes by: as far as it reached the disk, and everything below the
    floor. *)
Definition scanned_index (floor : Slot) (index : option Slot) : option Slot :=
  match u64_checked_sub floor 1 with
  | Some below => if decide (is_none_or (fun c => c < below) index) then Some below else index
  | None => index
  end.

(** What the next boot scan reads, as the journal store does it ([JournalStorage::load] of
    [paros-storage/src/journal/node.rs]): the readable records; as faulty, those that
    rotted in [lost] and those found faulty before that nothing has overwritten, so a slot is
    accepted or faulty and never both; and the chosen index.  The in-memory store of the
    tests keeps a faulty entry it has overwritten ([Storage.mem_repair_breaks_boot]), and a
    boot over it after a repair is not one of these. *)
Definition scanned (st : MemStorage) (lost : gset Slot) (index : option Slot) : MemStorage :=
  let readable := filter (fun e : Slot * (Ballot * Command) => e.1 ∉ lost) (m_accepted st) in
  mkMem (mkHard (max_promised_ballot (m_hard_state st)) (scanned_index (m_first_slot st) index)) readable (m_first_slot st)
    (filter (fun e => readable !! e.1 = None) (m_faulty st ++ ((fun e => (e.1, e.2.1)) <$> bt_entries (m_accepted st))))
    (m_sealed st).

Section world.
Context (config : DeployConfig) (limits : Limits).

Definition replica_happens (w : ReplicaWorld) (l : ReplicaLabel) : run ReplicaWorld :=
  let at_node n := mkReplicaWorld n (xw_disk w) (xw_reported w) in
  match l with
  | XStep msg => n ← replica_step (xw_node w) msg; mret (at_node n)
  | XTick => n ← replica_tick (xw_node w); mret (at_node n)
  | XRead ctx row => n ← replica_quorum_read (xw_node w) ctx row; mret (at_node n)
  | XAdvance => n ← replica_advance_recovery (xw_node w); mret (at_node n)
  | XExtend nodes => '(n, _) ← replica_extend_pool (xw_node w) nodes; mret (at_node n)
  | XDrain => replica_drain w
  | XCrash lost index =>
      let disk := scanned (xw_disk w) lost index in
      n ← replica_node_new config disk limits;
      mret (mkReplicaWorld n disk (xw_reported w))
  end.

(** A fresh replica. *)
Definition replica_init : run ReplicaWorld :=
  n ← replica_node_new config mem_new limits;
  mret (mkReplicaWorld n mem_new []).

Context (mode : WriterMode) (L : Slot -> Command).

Definition index_end (index : option Slot) : Slot := match index with Some s => s + 1 | None => 0 end.

(** What the environment keeps to: messages say what was decided, a read token is
    fresh, ticks fit their counter, and a crash finds no more of the chosen index than was
    written. *)
Definition replica_enabled (w : ReplicaWorld) (l : ReplicaLabel) : Prop :=
  match l with
  | XStep msg => replica_message_ok mode L msg
  | XTick => rn_tick_count (xw_node w) < u64_max
  | XRead ctx _ => ctx ∉ (qr_ctx <$> rn_quorum_reads (xw_node w))
  | XCrash _ index => ord_le index (chosen_index (m_hard_state (xw_disk w)))
  | XAdvance | XExtend _ | XDrain => True
  end.

Inductive replica_reachable : ReplicaWorld -> Prop :=
| replica_start w : replica_init = Done w -> replica_reachable w
| replica_moves w l w' :
    replica_reachable w -> replica_enabled w l -> replica_happens w l = Done w' -> replica_reachable w'.

(** ** The invariant *)

(** A store a crash may leave. *)
Record disk_ok (st : MemStorage) : Prop := {
  dk_index : is_none_or (fun ci => ci < u64_max) (chosen_index (m_hard_state st));
  dk_floor : m_first_slot st <= index_end (chosen_index (m_hard_state st));
  dk_sealed : m_sealed st = state_before mode L (m_first_slot st);
  dk_good : good_floor mode L (m_first_slot st);
  dk_records : forall s b c, m_accepted st !! s = Some (b, c) -> c = L s /\ m_first_slot st <= s < u64_max;
  dk_complete : forall s, m_first_slot st <= s < index_end (chosen_index (m_hard_state st)) ->
    is_Some (m_accepted st !! s) \/ s ∈ (m_faulty st).*1 }.

Record replica_world_ok (w : ReplicaWorld) : Prop := {
  ro_node : replica_node_ok mode L (xw_node w);
  ro_disk : disk_ok (xw_disk w);
  ro_stored : exists st, mem_apply (xw_disk w) (rn_writes (xw_node w)) = Done st /\ stored (xw_node w) st;
  ro_reported : Forall (applied_exact mode L) (xw_reported w) }.

Lemma stored_disk_ok n st : replica_node_ok mode L n -> stored n st -> disk_ok st.
Proof.
  intros [Hl _] []. pose proof (lo_ready _ _ _ Hl) as Hr. pose proof (ln_core _ _ _ Hr) as Hc.
  assert (index_end (chosen_index (m_hard_state st)) = end_of (rn_replica n)) as He by by rewrite sd_index.
  pose proof (ln_floor _ _ _ Hr) as Hfl. pose proof (co_floor _ _ _ Hc). pose proof (co_folded _ _ _ Hc).
  split; rewrite ?He, ?sd_floor, ?Hfl.
  - rewrite sd_index. apply (co_index _ _ _ Hc).
  - lia.
  - by rewrite sd_sealed, (co_base _ _ _ Hc).
  - apply (co_good _ _ _ Hc).
  - intros s b c Hs. apply (co_chosen _ _ _ Hc). by rewrite <-sd_records, Hs.
  - intros s Hs. destruct (rep_chosen (rn_replica n) !! s) as [c|] eqn:Ec.
    + left. rewrite <-sd_records in Ec. by apply fmap_Some in Ec as (? & -> & _).
    + right. by apply sd_faulty, (ln_faulty _ _ _ Hr).
Qed.

(** The index a boot goes by is the disk's at most, and covers the floor. *)
Lemma scanned_index_ok floor index top :
  ord_le index top -> floor <= index_end top ->
  ord_le index (scanned_index floor index) /\ ord_le (scanned_index floor index) top /\ floor <= index_end (scanned_index floor index).
Proof.
  intros Hle Hfl. unfold scanned_index, u64_checked_sub. case_decide; [case_decide as Hd|];
    destruct index as [i|], top as [t|]; unfold ord_le in *; simpl in *; ord_N; split_and!; try done; try lia.
Qed.

Lemma scanned_bootable st lost index0 :
  disk_ok st -> ord_le index0 (chosen_index (m_hard_state st)) ->
  replica_bootable mode L (scanned st lost index0).
Proof.
  intros Hd Hle0. destruct (scanned_index_ok _ _ _ Hle0 (dk_floor _ Hd)) as (_ & Hle & Hfl). unfold scanned.
  remember (scanned_index (m_first_slot st) index0) as index eqn:Eindex. destruct Hd. assert (index_end index <= index_end (chosen_index (m_hard_state st))) as Hend.
  { destruct index, (chosen_index (m_hard_state st)); unfold ord_le in Hle; simpl in *; try done; ord_N; lia. }
  set (readable := filter (fun e : Slot * (Ballot * Command) => e.1 ∉ lost) (m_accepted st)).
  assert (forall s rec, readable !! s = Some rec -> m_accepted st !! s = Some rec) as Hread.
  { intros s rec Hs. by apply map_lookup_filter_Some in Hs as [? _]. }
  assert (forall s, s ∈ (filter (fun e : Slot * Ballot => readable !! e.1 = None)
      (m_faulty st ++ ((fun e => (e.1, e.2.1)) <$> bt_entries (m_accepted st)))).*1 <->
    readable !! s = None /\ (s ∈ (m_faulty st).*1 \/ is_Some (m_accepted st !! s))) as Hfa.
  { intros s. rewrite list_elem_of_fmap. setoid_rewrite list_elem_of_filter.
    setoid_rewrite elem_of_app. split.
    - intros ([s' b] & -> & Hn & Hin). simpl in *. split; [done|]. destruct Hin as [Hin|Hin].
      + left. apply list_elem_of_fmap. by exists (s', b).
      + right. apply list_elem_of_fmap in Hin as ([s2 [b2 c2]] & [= -> ->] & Hin%elem_of_bt_entries). by eexists.
    - intros [Hn [(e & -> & He)%list_elem_of_fmap|[[b c] Hs]]].
      + exists e. split_and!; [done..|by left].
      + exists (s, b). split_and!; [done..|]. right. apply list_elem_of_fmap. exists (s, (b, c)).
        split; [done|]. by apply elem_of_bt_entries. }
  split; simpl; fold readable; try done.
  - destruct index, (chosen_index (m_hard_state st)); unfold ord_le in Hle; simpl in *; try done; ord_N; lia.
  - intros s b c Hs%Hread. by eapply dk_records0.
  - intros s Hs. destruct (readable !! s) eqn:Er; [left; by eexists|]. right. apply Hfa. split; [done|].
    destruct (dk_complete0 s) as [?|?]; [unfold index_end in *; lia|by right|by left].
  - intros s Hs. by apply Hfa in Hs as [? _].
Qed.

Lemma mem_new_bootable : replica_bootable mode L mem_new.
Proof.
  split; simpl; try done; try lia.
  intros s q _ (_ & Hq & _). rewrite state_before_0. simpl. lia.
Qed.

Lemma bootable_disk_ok st : replica_bootable mode L st -> disk_ok st.
Proof. by intros []. Qed.

Context (Hfit : forall s, fits (state_before mode L s) (L s)).
Context (acceptors : AcceptorConfig NodeId) (Hunder : boots_under mode config acceptors limits).

Lemma replica_boot_ok st reported :
  replica_bootable mode L st -> Forall (applied_exact mode L) reported ->
  exists n, replica_node_new config st limits = Done n /\ replica_world_ok (mkReplicaWorld n st reported).
Proof using Hfit Hunder.
  intros Hb Hr. destruct (replica_node_new_ok mode L Hfit config acceptors limits st Hunder Hb)
    as (n & st' & E & Hn & Ea & Hs & _). exists n. split; [done|]. split; simpl; [done|by apply bootable_disk_ok|eauto|done].
Qed.

Lemma moved_world_ok w n :
  replica_world_ok w -> replica_node_ok mode L n -> persists (xw_node w) n ->
  replica_world_ok (mkReplicaWorld n (xw_disk w) (xw_reported w)).
Proof.
  intros [? ? (st & E & Hst) ?] Hn (ws & Ew & Hp). split; simpl; try done.
  destruct (Hp st Hst) as (st' & E' & Hst'). exists st'. split; [|done]. rewrite Ew. unfold mem_apply in *.
  by rewrite foldM_app, E.
Qed.

Lemma replica_drain_ok w :
  replica_world_ok w -> exists w', replica_drain w = Done w' /\ replica_world_ok w' /\
    rn_replica (xw_node w') = with_committed (rn_replica (xw_node w)) [] /\
    rn_writes (xw_node w') = [] /\ stored (xw_node w') (xw_disk w').
Proof.
  intros [[Hl Hk] Hd (st & E & Hst) Hrep]. pose proof (lo_ready _ _ _ Hl) as Hr. pose proof (ln_core _ _ _ Hr) as Hc.
  unfold replica_drain, ready_replica_writes, ready_committed, ready_read_states.
  rewrite (rassert_true (existsb _ _ = false)) by apply Hr. rsimpl. rewrite (replica_committed_ok mode L) by done. rsimpl.
  rewrite (allM_ok _ (fun e : N * option Slot => covered_by (rn_replica (xw_node w)) e.2))
    by (intros; by apply (replica_covers_ok mode L)). rsimpl.
  rewrite (rassert_true (_ = true)) by (apply bool_decide_eq_true_2, Hk). rsimpl.
  unfold replica_clear_pending, clear_committed. rewrite rassert_true by done. rsimpl.
  rewrite rassert_true by done. rsimpl. rewrite rassert_true by done. rsimpl. set (n := mkReplicaNode _ _ _ _ _ _ _ _ _ _ _ _ _ _ _).
  rewrite for_batch_persists_votes. rsimpl. rewrite E. rsimpl.
  assert (replica_core mode L (rn_replica n)) as Hcn by (destruct Hc; split; try done; constructor).
  assert (replica_node_ok mode L n) as Hn.
  { split.
    - destruct Hl as [[] ? ? ?]. split; [split; done|done..].
    - by destruct Hk. }
  assert (replica_folded (rn_replica n) = Done (rep_folded (rn_replica n))) as ->.
  { unfold replica_folded. rassert_by apply (co_floor _ _ _ Hcn). rewrite (first_unchosen_ok mode L) by done. rsimpl.
    by rassert_by apply (co_folded _ _ _ Hcn). }
  rsimpl. pose proof (co_committed _ _ _ Hc) as Hcom.
  eexists. split; [eapply bind_seq with (a := tt); [|done]|].
  { destruct (last (rep_committed (rn_replica (xw_node w)))) as [e|] eqn:El; [|done].
    apply last_Some in El as [l El]. rewrite El, Forall_app, Forall_singleton in Hcom. destruct Hcom as [_ [_ Hlt]].
    apply rassert_true. unfold u64_checked_sub. simpl. rewrite decide_True by lia. simpl. lia. }
  split; [|split; [done|split; [done|by destruct Hst]]].
  split; simpl; [done|by eapply (stored_disk_ok (xw_node w))| |].
  - exists st. split; [done|]. by destruct Hst.
  - apply Forall_app. split; [done|]. eapply Forall_impl; [exact Hcom|]. by intros e [? _].
Qed.

Lemma replica_happens_ok w l :
  replica_world_ok w -> replica_enabled w l -> exists w', replica_happens w l = Done w' /\ replica_world_ok w'.
Proof using Hfit Hunder.
  intros Hw Hen. pose proof (ro_node _ Hw) as Hn.
  assert (forall c, (exists n, c = Done n /\ replica_node_ok mode L n /\ persists (xw_node w) n) ->
    exists w', (n ← c; mret (mkReplicaWorld n (xw_disk w) (xw_reported w))) = Done w' /\ replica_world_ok w') as Hmove.
  { intros c (n & -> & ? & ?). eexists. split; [done|]. by apply moved_world_ok. }
  destruct l as [msg| |ctx row| |nodes| |lost index]; cbn [replica_happens]; simpl in Hen.
  - apply Hmove. destruct (replica_step_ok mode L Hfit _ msg Hn Hen) as (n & ? & ? & []). eauto.
  - apply Hmove. destruct (replica_tick_ok mode L _ Hn Hen) as (n & ? & ? & ? & _). eauto using same_learner_persists.
  - apply Hmove. destruct (replica_quorum_read_ok mode L _ ctx row Hn Hen) as (n & ? & ? & ?). eauto using same_learner_persists.
  - apply Hmove. destruct (replica_advance_recovery_ok mode L Hfit _ Hn) as (n & ? & ? & []). eauto.
  - destruct (replica_extend_pool_ok mode L _ nodes Hn) as (n & grew & -> & ? & ?). rsimpl.
    eexists. split; [done|]. apply moved_world_ok; eauto using same_learner_persists.
  - destruct (replica_drain_ok w Hw) as (w' & ? & ? & _). eauto.
  - destruct (replica_boot_ok (scanned (xw_disk w) lost index) (xw_reported w)) as (n & -> & Hw');
      [by apply scanned_bootable; [apply Hw|..]|apply Hw|]. eauto.
Qed.

Lemma replica_reachable_ok w : replica_reachable w -> replica_world_ok w.
Proof using Hfit Hunder.
  induction 1 as [w E|w l w' _ IH Hen E].
  - unfold replica_init in E. destruct (replica_boot_ok mem_new []) as (n & En & Hw); [apply mem_new_bootable|done|].
    rewrite En in E. by injection E as <-.
  - destruct (replica_happens_ok w l IH Hen) as (w'' & E' & Hw). congruence.
Qed.

(** What a peer's floor says is a message a replica takes. *)
Lemma trim_message_ok r :
  replica_core mode L r -> replica_message_ok mode L (RTrimmedTo (rep_floor r) (rep_base r)).
Proof.
  intros Hc. pose proof (co_floor _ _ _ Hc). pose proof (co_folded _ _ _ Hc). pose proof (co_index _ _ _ Hc) as Hi.
  split; [|split; [apply (co_good _ _ _ Hc)|apply (co_base _ _ _ Hc)]].
  unfold end_of in *. destruct (rep_chosen_index r); simpl in Hi; lia.
Qed.

(** The first faulty slot is the one the fold stops at. *)
Lemma faulty_first n :
  learner_ready mode L n ->
  bs_first (rn_faulty n) =
    if decide (rep_folded (rn_replica n) < end_of (rn_replica n)) then Some (rep_folded (rn_replica n)) else None.
Proof.
  intros Hn. pose proof (ln_core _ _ _ Hn) as Hc. pose proof (co_floor _ _ _ Hc).
  assert (forall s, s ∈ rn_faulty n -> rep_folded (rn_replica n) <= s < end_of (rn_replica n)) as Hlow.
  { intros s [Hs Hno]%(ln_faulty _ _ _ Hn). destruct (decide (s < rep_folded (rn_replica n))); [|lia].
    rewrite (co_held _ _ _ Hc) in Hno by lia. done. }
  case_decide as Hd.
  - assert (rep_folded (rn_replica n) ∈ rn_faulty n) as Hin
      by (apply (ln_faulty _ _ _ Hn); split; [lia|by apply (ln_hole _ _ _ Hn)]).
    destruct (bs_first (rn_faulty n)) as [s|] eqn:Eb.
    + apply bs_first_Some in Eb as [Hs Hmin]. specialize (Hmin _ Hin). apply Hlow in Hs.
      f_equal. unfold ord_le in Hmin. ord_N. lia.
    + apply head_None in Eb. apply elem_of_bs_elements in Hin. rewrite Eb in Hin. by apply elem_of_nil in Hin.
  - destruct (bs_first (rn_faulty n)) as [s|] eqn:Eb; [|done].
    apply bs_first_Some in Eb as [Hs%Hlow _]. lia.
Qed.

(** A replica over the same records, prefix and floor, or higher ones, folded as far. *)
Lemma folds_as_far r r' :
  replica_core mode L r -> replica_core mode L r' -> at_hole r' ->
  end_of r <= end_of r' -> rep_floor r <= rep_floor r' ->
  (forall s, rep_floor r' <= s -> rep_chosen r' !! s = rep_chosen r !! s) -> rep_folded r <= rep_folded r'.
Proof.
  intros Hc Hc' Hh' He Hf Hch. destruct (decide (rep_folded r' < rep_folded r)) as [Hlt|]; [exfalso|lia].
  pose proof (co_folded _ _ _ Hc). pose proof (co_floor _ _ _ Hc').
  specialize (Hh' ltac:(lia)). rewrite Hch, (co_held _ _ _ Hc) in Hh' by lia. done.
Qed.

(** A boot from a store that mirrors a node. *)
Lemma replica_rebooted n st :
  learner_ok mode L n -> disk_ok st -> stored n st ->
  exists n', replica_node_new config (scanned st ∅ (rep_chosen_index (rn_replica n))) limits = Done n' /\
    replica_node_ok mode L n' /\
    (forall s, rep_floor (rn_replica n') <= s -> rep_chosen (rn_replica n') !! s = rep_chosen (rn_replica n) !! s) /\
    rep_floor (rn_replica n) <= rep_floor (rn_replica n') /\ end_of (rn_replica n) <= end_of (rn_replica n').
Proof using Hfit Hunder.
  intros Hl Hd Hst. pose proof (ln_floor _ _ _ (lo_ready _ _ _ Hl)) as Hfl.
  destruct (replica_node_new_ok mode L Hfit config acceptors limits (scanned st ∅ (rep_chosen_index (rn_replica n))) Hunder)
    as (n' & st' & E & Hn' & _ & _ & _ & _ & Hch & Hfl' & Hix).
  { rewrite <-(sd_index _ _ Hst). apply scanned_bootable; [done|apply ord_le_refl]. }
  exists n'. pose proof (ln_floor _ _ _ (lo_ready _ _ _ (proj1 Hn'))) as Hf'.
  rewrite (sd_floor _ _ Hst : m_first_slot (scanned st ∅ _) = _), Hfl, Hf' in Hfl'. split_and!; try done.
  - intros s Hs. rewrite <-Hch by by rewrite Hf'. rewrite <-(sd_records _ _ Hst). f_equal. simpl.
    destruct (m_accepted st !! s) as [rec|] eqn:Es.
    + apply map_lookup_filter_Some. by split.
    + by apply map_lookup_filter_None_2; left.
  - apply end_of_le. etrans; [|exact Hix]. cbn [scanned m_hard_state chosen_index].
    pose proof (scanned_index_ok (m_first_slot st) (chosen_index (m_hard_state st)) _ (ord_le_refl _) (dk_floor _ Hd)) as [Hge _].
    by rewrite (sd_index _ _ Hst) in Hge.
Qed.

(** ** Properties *)

(** C5: no assertion of a replica node fires on what a sound log sends it.  Take any
    sequence of messages, ticks, reads, pool extensions, drains and crashes that lose the
    staged batch, part of the chosen index and any records, where: commits, replays and trim
    points carry the commands and the sealed states of one decided log, below slot 2^64 - 1
    and at floors that keep every retried position ([replica_message_ok]); a heartbeat's
    configuration is well formed; a read's token is not one that is open; the tick counter is
    below its width; the positions and terms of the decided log fit 64 bits; the deployment
    record and the limits are valid; and a boot reads what the journal store's scan finds
    ([scanned]), a slot accepted or faulty and never both.  Then every next step returns: the
    handlers' entry and exit checks, the fold, the walk, the compaction it orders, the drain
    and the boot, none of which overflows or runs out of fuel. *)
Theorem replica_never_panics w l :
  replica_reachable w -> replica_enabled w l -> exists w', replica_happens w l = Done w'.
Proof using Hfit Hunder.
  intros Hw%replica_reachable_ok Hen. destruct (replica_happens_ok w l Hw Hen) as (w' & E & _). by exists w'.
Qed.

(** C6: a replica is the fold of the decided log.  However it got there, over holes,
    page bounds, truncations, jumps to a peer's floor and restarts from a sealed
    state, its journal is the reference fold of the whole log up to its folded slot,
    the state it sealed is the reference's at its floor, the state before any slot it
    retains and the verdict on it are the reference's, and so is every entry it ever
    reported or is about to report. *)
Theorem replica_fold_exact w :
  replica_reachable w ->
  let r := rn_replica (xw_node w) in
  replica_journal r = Done (state_before mode L (rep_folded r)) /\
  rep_base r = state_before mode L (rep_floor r) /\
  (forall s, rep_floor r <= s <= rep_folded r -> state_at r s = Done (state_before mode L s)) /\
  (forall s, rep_floor r <= s < rep_folded r -> slot_verdict mode L s <> ONoop ->
     outcome_at r s = Done (Some (slot_verdict mode L s))) /\
  Forall (applied_exact mode L) (xw_reported w ++ rep_committed r).
Proof using Hfit Hunder.
  intros [[Hl _] _ _ Hrep]%replica_reachable_ok r. pose proof (ln_core _ _ _ (lo_ready _ _ _ Hl)) as Hc.
  split_and!.
  - by apply replica_journal_ok.
  - apply (co_base _ _ _ Hc).
  - intros s Hs. by apply state_at_ok.
  - intros s Hs Hv. rewrite (outcome_at_ok mode L) by done. by rewrite decide_True.
  - apply Forall_app. split; [done|]. eapply Forall_impl; [apply (co_committed _ _ _ Hc)|]. by intros e [? _].
Qed.

(** C20: [read_log] serves the journal.  On every replica: a position the journal
    truncated is answered so; one below the records the replica holds is answered
    not held; any other is answered the records of the log from it on, a
    contiguous page that has at most [limit] records and, past its first record, at
    most [max_bytes] bytes, and that ends only at the end of the records or where the
    next record would break a bound. *)
Theorem replica_read_exact w from limit max_bytes :
  replica_reachable w ->
  let r := rn_replica (xw_node w) in
  let j := state_before mode L (rep_folded r) in
  let records := drop (N.to_nat from) (records_before mode L (rep_folded r)) in
  replica_read_log (xw_node w) from limit max_bytes =
    Done (if decide (from < j_first_seq j) then RTruncated (view j)
          else if decide (from < j_next_seq (state_before mode L (rep_floor r))) then RNotHeld
          else RPage (mkLogPage from (page_cut limit max_bytes [] 0 records).1 (view j))) /\
  exists k, (page_cut limit max_bytes [] 0 records).1 = take k records /\ len (take k records) <= limit /\
    (1 < len (take k records) -> page_bytes (take k records) <= max_bytes) /\
    (forall record, records !! k = Some record ->
       len (take k records) = limit \/ (take k records <> [] /\ max_bytes < page_bytes (take k records ++ [record]))).
Proof using Hfit Hunder.
  intros [[Hl _] _ _ _]%replica_reachable_ok r j records. pose proof (ln_core _ _ _ (lo_ready _ _ _ Hl)) as Hc.
  split.
  - unfold replica_read_log. rewrite (replica_read_ok mode L Hfit) by done. fold r j records. rsimpl.
    case_decide; [done|]. case_decide; [done|]. rsimpl. rewrite (replica_journal_ok mode L) by done. rsimpl.
    rewrite (rassert_true (_ = view _)) by done. rsimpl. by rewrite rassert_true.
  - destruct (page_cut_longest limit max_bytes [] records) as (k & Hcut & _ & H1 & H2 & H3); [unfold len; simpl; lia..|].
    exists k. change (page_bytes []) with 0 in Hcut. by rewrite Hcut.
Qed.

(** C19: compaction drops all it may and nothing more.  [compaction_target] returns on
    every replica, its floor is the greatest one that drops no record the journal
    still counts and no record a retained slot was judged by, and no slot decided
    above such a floor, folded or not, retries a record below it. *)
Theorem compaction_target_greatest w :
  replica_reachable w ->
  exists f, compaction_target (rn_replica (xw_node w)) = Done (u64_checked_sub f 1) /\
    greatest_floor mode L (rn_replica (xw_node w)) f /\ good_floor mode L f.
Proof using Hfit Hunder.
  intros [[Hl _] _ _ _]%replica_reachable_ok. pose proof (ln_core _ _ _ (lo_ready _ _ _ Hl)) as Hc.
  destruct (compaction_target_ok mode L Hfit _ Hc) as (f & E & Hg). exists f. split_and!; [done..|].
  destruct Hg as [Hg _]. by eapply safe_floor_good.
Qed.

(** A replica asks for what it misses.  When its fold stops below the prefix it
    knows chosen, the slot it stops at is the first it reports faulty, and a tick
    requests the log from exactly that slot, from the leader it follows or from every
    bootstrap acceptor; when nothing is missing, a tick requests nothing. *)
Theorem tick_pulls_the_hole w :
  replica_reachable w -> rn_tick_count (xw_node w) < u64_max ->
  exists n' hole, replica_tick (xw_node w) = Done n' /\ fold_hole (rn_replica (xw_node w)) = Done hole /\
    (is_Some hole <-> rep_folded (rn_replica (xw_node w)) < end_of (rn_replica (xw_node w))) /\
    bs_first (rn_faulty (xw_node w)) = hole /\
    rn_messages n' = rn_messages (xw_node w) ++
      match hole with Some s => (fun to => SCatchUpRequest to s) <$> pull_targets (xw_node w) | None => [] end.
Proof using Hfit Hunder.
  intros [Hn _ _ _]%replica_reachable_ok Ht. destruct (replica_tick_ok mode L _ Hn Ht) as (n' & E & _ & _ & Hm).
  destruct Hn as [[Hr _ _ _] _]. set (r := rn_replica (xw_node w)).
  assert (bs_first (rn_faulty (xw_node w)) = if decide (rep_folded r < end_of r) then Some (rep_folded r) else None) as Hb
    by by apply faulty_first.
  exists n', (bs_first (rn_faulty (xw_node w))). split_and!; try done.
  - rewrite Hb. apply fold_hole_ok with (mode := mode) (L := L); apply Hr.
  - rewrite Hb. case_decide; split; try done; by intros [].
Qed.

(** C18: a restart forgets nothing it persisted.  A replica whose batch is drained and
    whose records are readable boots, and the rebuilt one is at least as far: its fold,
    prefix and floor did not fall; it holds the same command in every slot at or above
    its floor; and it gives the same state before, and the same verdict on, every slot
    both retain. *)
Theorem replica_restart_rebuilds w :
  replica_reachable w -> rn_writes (xw_node w) = [] ->
  let r := rn_replica (xw_node w) in
  exists w', replica_happens w (XCrash ∅ (rep_chosen_index r)) = Done w' /\
    let r' := rn_replica (xw_node w') in
    rep_folded r <= rep_folded r' /\ end_of r <= end_of r' /\ rep_floor r <= rep_floor r' /\
    (forall s, rep_floor r' <= s -> rep_chosen r' !! s = rep_chosen r !! s) /\
    (forall s, rep_floor r' <= s < rep_folded r -> state_at r' s = state_at r s /\ outcome_at r' s = outcome_at r s).
Proof using Hfit Hunder.
  intros [[Hl Hk] Hd (st & E & Hst) Hrep]%replica_reachable_ok Hw r. rewrite Hw in E. injection E as <-.
  pose proof (ln_core _ _ _ (lo_ready _ _ _ Hl)) as Hc. pose proof (ln_hole _ _ _ (lo_ready _ _ _ Hl)) as Hh.
  destruct (replica_rebooted (xw_node w) (xw_disk w)) as (n & E & [Hl' _] & Hch & Hfl & Hend); [done..|].
  pose proof (ln_core _ _ _ (lo_ready _ _ _ Hl')) as Hc'. pose proof (ln_hole _ _ _ (lo_ready _ _ _ Hl')) as Hh'.
  cbn [replica_happens]. fold r in E. rewrite E. eexists. split; [done|]. cbv zeta. simpl. set (r' := rn_replica n) in *. fold r in Hc, Hch, Hfl, Hend.
  assert (rep_folded r <= rep_folded r') as Hfo by by apply (folds_as_far r r').
  split_and!; try done. intros s Hs. pose proof (co_floor _ _ _ Hc).
  rewrite !(state_at_ok mode L) by (done || lia). split; [done|]. rewrite !(outcome_at_ok mode L) by done.
  f_equal. apply decide_ext. split; intros [? ?]; (split; [lia|done]).
Qed.
End world.

(** ** A run *)

(** A finite log, nothing decided past it but no-ops. *)
Definition log_of_list (l : list Command) (s : Slot) : Command := default (Ctrl Noop) (l !! N.to_nat s).

Lemma log_of_list_fits mode l :
  Forall (fun s => fits (state_before mode (log_of_list l) s) (log_of_list l s)) (range 0 (len l + 1)) ->
  forall s, fits (state_before mode (log_of_list l) s) (log_of_list l s).
Proof.
  intros Hall s. rewrite Forall_forall in Hall. destruct (decide (s < len l + 1)) as [Hlt|Hge].
  { apply Hall, elem_of_range. lia. }
  assert (forall u, len l <= u -> log_of_list l u = Ctrl Noop) as Hno.
  { intros u Hu. unfold log_of_list. rewrite lookup_ge_None_2; [done|]. unfold len in Hu. lia. }
  rewrite Hno by lia. rewrite (state_before_still mode (log_of_list l) (len l)) by
    (lia || (intros u Hu; rewrite state_before_succ, Hno by lia; by destruct mode)).
  destruct (Hall (len l)) as [? _]; [apply elem_of_range; lia|done].
Qed.

Section runs.
Context (config : DeployConfig) (limits : Limits) (mode : WriterMode) (L : Slot -> Command).

(** Labels enabled in every state. *)
Definition plain_label (l : ReplicaLabel) : Prop :=
  match l with
  | XStep (RCommit _ s c) => s < u64_max /\ c = L s
  | XAdvance | XExtend _ | XDrain => True
  | _ => False
  end.
#[export] Instance plain_label_dec l : Decision (plain_label l).
Proof. destruct l as [[]| | | | | |]; apply _. Defined.

Definition replica_run (labels : list ReplicaLabel) : run ReplicaWorld :=
  w ← replica_init config limits; foldM (replica_happens config limits) w labels.

Lemma replica_run_reachable labels w :
  Forall plain_label labels -> replica_run labels = Done w -> replica_reachable config limits mode L w.
Proof.
  intros Hp E. unfold replica_run in E. apply bind_Done_inv in E as (w0 & E0 & E).
  assert (replica_reachable config limits mode L w0) as Hw by by apply replica_start. clear E0.
  revert w0 E Hw. induction Hp as [|l labels Hl _ IH]; intros w0 E Hw; [by injection E as <-|].
  simpl in E. apply bind_Done_inv in E as (w1 & E1 & E). eapply IH; [exact E|]. eapply replica_moves; [done| |exact E1].
  by destruct l as [[]| | | | | |].
Qed.
End runs.

Definition demo_commands : list Command :=
  [Ctrl (SetLeader 7 None); Write (mkEntry 7 0 [[1]; [2]]); Write (mkEntry 7 2 [[3]]); Write (mkEntry 7 2 [[3]]);
   Ctrl (Truncate 7 2); Write (mkEntry 7 3 [[4; 5]])].
Abbreviation demo_L := (log_of_list demo_commands).
Definition demo_deploy : DeployConfig := mkDeploy 9 [0; 1; 2] Majority [] [] [] 0 0 0 Single [] 0.
Definition demo_commit (s : Slot) : ReplicaLabel := XStep (RCommit (mkBallot 1 0) s (demo_L s)).
Definition demo_replica_run : run ReplicaWorld :=
  replica_run demo_deploy limits_default ((demo_commit <$> [1; 0; 3; 2; 4; 5]) ++ [XDrain]).

Lemma demo_fits s : fits (state_before Single demo_L s) (demo_L s).
Proof. apply log_of_list_fits. repeat (constructor; [vm_compute; done|]). constructor. Qed.

Definition demo_acceptors : AcceptorConfig NodeId := mkConfig [0; 1; 2] Majority [] 0 0 0.
Lemma demo_boots : boots_under Single demo_deploy demo_acceptors limits_default.
Proof.
  assert (deployed demo_deploy) as Hd by (by apply assert_replica_config_shape_iff; vm_compute).
  split; [done|done|done|by vm_compute|apply limits_default_valid].
Qed.

Lemma demo_run_reached w : demo_replica_run = Done w -> replica_reachable demo_deploy limits_default Single demo_L w.
Proof. apply replica_run_reachable. repeat (constructor; [vm_compute; done|]). constructor. Qed.

(** The replica that folded the log in the order its commits arrived, truncated it
    and persisted it. *)
Lemma demo_replica (P : ReplicaWorld -> Prop) :
  match demo_replica_run with Done w => P w | Panic _ => False end ->
  exists w, replica_reachable demo_deploy limits_default Single demo_L w /\ P w.
Proof.
  destruct demo_replica_run as [w|] eqn:E; [|intros []]. intros HP. exists w.
  split; [apply demo_run_reached; exact E|exact HP].
Qed.

Lemma replica_never_panics_witness :
  exists w w', replica_reachable demo_deploy limits_default Single demo_L w /\
    replica_happens demo_deploy limits_default w (XCrash {[ 3 ]} (Some 4)) = Done w'.
Proof.
  destruct (demo_replica (fun w => replica_enabled Single demo_L w (XCrash {[ 3 ]} (Some 4)))) as (w & Hw & Hen);
    [vm_compute; done|].
  destruct (replica_never_panics demo_deploy limits_default Single demo_L demo_fits demo_acceptors demo_boots
    w (XCrash {[ 3 ]} (Some 4)) Hw Hen) as [w' E]. by exists w, w'.
Defined.

Lemma replica_fold_exact_witness :
  exists w, replica_reachable demo_deploy limits_default Single demo_L w /\
    rep_folded (rn_replica (xw_node w)) = 6 /\ rep_floor (rn_replica (xw_node w)) = 2 /\
    outcome_at (rn_replica (xw_node w)) 3 = Done (Some (ODuplicate 2 1)).
Proof.
  destruct (demo_replica (fun w => rep_folded (rn_replica (xw_node w)) = 6 /\ rep_floor (rn_replica (xw_node w)) = 2))
    as (w & Hw & Hfo & Hfl); [vm_compute; done|]. exists w. split_and!; [done..|].
  destruct (replica_fold_exact demo_deploy limits_default Single demo_L demo_fits demo_acceptors demo_boots w Hw)
    as (_ & _ & _ & Hout & _).
  assert (slot_verdict Single demo_L 3 = ODuplicate 2 1) as Hv by (by vm_compute).
  rewrite <-Hv. apply Hout; [rewrite Hfo, Hfl; lia|by rewrite Hv].
Defined.

Lemma replica_read_exact_witness :
  exists w, replica_reachable demo_deploy limits_default Single demo_L w /\
    replica_read_log (xw_node w) 2 1 10 = Done (RPage (mkLogPage 2 [[3]] (mkView (Some 7) 4 2))).
Proof.
  destruct (demo_replica (fun w => rep_folded (rn_replica (xw_node w)) = 6 /\ rep_floor (rn_replica (xw_node w)) = 2))
    as (w & Hw & Hfo & Hfl); [vm_compute; done|]. exists w. split; [done|].
  destruct (replica_read_exact demo_deploy limits_default Single demo_L demo_fits demo_acceptors demo_boots w 2 1 10 Hw)
    as [-> _]. rewrite Hfo, Hfl. by vm_compute.
Defined.

Lemma compaction_target_greatest_witness :
  exists w f, replica_reachable demo_deploy limits_default Single demo_L w /\
    compaction_target (rn_replica (xw_node w)) = Done (u64_checked_sub f 1) /\ f <= 6.
Proof.
  destruct (demo_replica (fun w => rep_folded (rn_replica (xw_node w)) = 6)) as (w & Hw & Hfo); [vm_compute; done|].
  destruct (compaction_target_greatest demo_deploy limits_default Single demo_L demo_fits demo_acceptors demo_boots w Hw)
    as (f & E & [[[_ Hle] _] _] & _). exists w, f. split_and!; [done..|]. by rewrite <-Hfo.
Defined.

(** A boot that finds the record of slot 3 rotted, and the tick after it. *)
Lemma tick_pulls_the_hole_witness :
  exists w n', replica_reachable demo_deploy limits_default Single demo_L w /\
    replica_tick (xw_node w) = Done n' /\
    rn_messages n' = [SCatchUpRequest 0 3; SCatchUpRequest 1 3; SCatchUpRequest 2 3].
Proof.
  pose (crashed w := replica_happens demo_deploy limits_default w (XCrash {[ 3 ]} (Some 5))).
  destruct (demo_replica (fun w => replica_enabled Single demo_L w (XCrash {[ 3 ]} (Some 5)) /\
    match crashed w with
    | Done w => (rn_tick_count (xw_node w), fold_hole (rn_replica (xw_node w)), rn_messages (xw_node w), pull_targets (xw_node w))
                = (0, Done (Some 3), [], [0; 1; 2])
    | Panic _ => False
    end)) as (w & Hw & Hen & Hc); [vm_compute; done|].
  destruct (crashed w) as [w1|] eqn:E; [|done]. injection Hc as Ht Hh Hm Hp.
  assert (replica_reachable demo_deploy limits_default Single demo_L w1) as Hw1 by by eapply replica_moves.
  destruct (tick_pulls_the_hole demo_deploy limits_default Single demo_L demo_fits demo_acceptors demo_boots w1 Hw1)
    as (n' & hole & Et & Eh & _ & _ & Hmsg); [by rewrite Ht|].
  exists w1, n'. split_and!; [done..|]. rewrite Hh in Eh. injection Eh as <-. by rewrite Hmsg, Hm, Hp.
Defined.

Lemma replica_restart_rebuilds_witness :
  exists w w', replica_reachable demo_deploy limits_default Single demo_L w /\
    replica_happens demo_deploy limits_default w (XCrash ∅ (Some 5)) = Done w' /\
    6 <= rep_folded (rn_replica (xw_node w')).
Proof.
  destruct (demo_replica (fun w => (rn_writes (xw_node w), rep_chosen_index (rn_replica (xw_node w)),
    rep_folded (rn_replica (xw_node w))) = ([], Some 5, 6))) as (w & Hw & [= Hws Hix Hfo]); [vm_compute; done|].
  destruct (replica_restart_rebuilds demo_deploy limits_default Single demo_L demo_fits demo_acceptors demo_boots w Hw Hws)
    as (w' & E & Hle & _). exists w, w'. rewrite Hix in E. rewrite Hfo in Hle. done.
Defined.

(** ** A floor below the target

    A truncation may name any floor up to the target; only the target itself is
    known to keep every retained retry's record. *)

Definition partial_log : list Command :=
  [Ctrl (SetLeader 7 None); Write (mkEntry 7 0 [[1]]); Write (mkEntry 7 1 [[2]]); Write (mkEntry 7 0 [[1]]);
   Ctrl (Truncate 7 2)].
Definition partial_records (from : Slot) : gmap Slot (Ballot * Command) :=
  list_to_map ((fun s => (s, (mkBallot 1 0, log_of_list partial_log s))) <$> range from 5).

(** A replica of the whole log, the same truncated to slot 2, the state that sealed,
    and the replica the next boot makes of it. *)
Definition partial_run : run (Replica * Replica * JournalState * Replica) :=
  r ← replica_from_boot Single (Some 4) 0 journal_default (partial_records 0);
  '(r', sealed) ← replica_truncate r 2;
  booted ← replica_from_boot Single (Some 4) 2 sealed (partial_records 2);
  mret (r, r', sealed, booted).

(** A truncation below the compaction target is taken, and a restart from it
    judges a retained slot differently.  The target here is slot 4; truncated to
    slot 2 instead, which no assertion refuses, the replica still answers that the
    retry in slot 3 is a duplicate, while the replica booted from what was sealed
    answers that it was refused. *)
Example partial_truncation_rejudges :
  exists r r' sealed booted, partial_run = Done (r, r', sealed, booted) /\
    compaction_target r = Done (Some 4) /\
    outcome_at r' 3 = Done (Some (ODuplicate 0 1)) /\
    outcome_at booted 3 = Done (Some (ORefused (mkView (Some 7) 2 0))) /\
    rep_state booted = rep_state r'.
Proof.
  assert (match partial_run with
          | Done (r, r', sealed, booted) =>
              compaction_target r = Done (Some 4) /\ outcome_at r' 3 = Done (Some (ODuplicate 0 1)) /\
              outcome_at booted 3 = Done (Some (ORefused (mkView (Some 7) 2 0))) /\ rep_state booted = rep_state r'
          | Panic _ => False
          end) as H by (vm_compute; split_and!; reflexivity).
  destruct partial_run as [[[[r r'] sealed] booted]|]; [|destruct H].
  exists r, r', sealed, booted. split; [reflexivity|exact H].
Qed.
