(* ===== verification/LogReplica.v ===== *)
(** * Replicas fed by the replicated log

    The replicas of [ReplicaSystem] assume messages that carry the one decided log.
    Here that log is the one [LogWorld] decides.  A fleet of replica nodes, each with its
    own deployment record, limits, store and crashes, takes commits and replays off the
    log's network, and trim points off the acceptors' nodes: [TrimmedTo] is an acceptor's
    node's answer ([serve_catchup] of [node/catch_up.rs]), with the floor and the
    sealed state of the replica colocated with it.  A replica node serves no peer. *)

From S2P Require Import Prelude BTree Types Journal Contract Acceptor QuorumSystem AcceptorConfig DeployConfig QuorumRead Storage LogWorld LogInv LogSystem Replica ReplicaInv ReplicaNode ReplicaNodeInv ReplicaSystem.

(** The log a world decided, no-ops where nothing is yet. *)
Definition decided_log (w : LogWorld Command) (s : Slot) : Command :=
  match list_find (fun d : Ballot * Slot * Command => d.1.2 = s) (lw_decided w) with
  | Some (_, d) => d.2
  | None => Ctrl Noop
  end.

Section fleet.
Context (cfg : Ballot -> AcceptorConfig NodeId) (prior : Ballot -> list (AcceptorConfig NodeId)) (led : Ballot -> Prop).
Context `{HC : !LogConfigs cfg prior led}.
Context (mode : WriterMode) (w : LogWorld Command).

(** What the log's network offers a replica.  A heartbeat's configuration and a read
    acknowledgement are not the log's: they are bounded as [replica_message_ok] says. *)
Inductive delivers : ReplicaMsg -> Prop :=
| delivers_commit b s v : NCommit b s v ∈ lw_net w -> delivers (RCommit b s v)
| delivers_replay entries : NReplay entries ∈ lw_net w -> delivers (RCatchUpResponse entries)
| delivers_heartbeat from b commit config fence :
    is_none_or config_wf config -> delivers (RHeartbeat from b commit config fence)
| delivers_ack from ctx watermark since : delivers (RPreReadAck from ctx watermark since)
| delivers_other : delivers ROther.

(** The replica colocated with an acceptor, and what it has reported: the calls its node
    makes of it ([node/boot.rs], [node/learn.rs], [node/catch_up.rs], [compact] of
    [node.rs]).  It learns what the log decided, in any order and with any gaps; its walk
    finds the ballot of every slot it has yet to apply; it truncates to its own target and
    jumps to another acceptor's trim point; and it boots from a floor and a sealed state it
    had, with any part of the decided records and of the chosen index. *)
Inductive colocated_replica : Replica -> list Applied -> Prop :=
| colocated_new r :
    replica_from_boot mode None 0 journal_default ∅ = Done r -> colocated_replica r []
| colocated_boots r0 reported index records r page r' :
    colocated_replica r0 reported -> ord_le index (rep_chosen_index r0) -> rep_floor r0 <= index_end index ->
    (forall s b v, records !! s = Some (b, v) -> is_some_and (fun ci => s <= ci) index ->
       rep_floor r0 <= s /\ exists c, (c, s, v) ∈ lw_decided w) ->
    replica_from_boot mode index (rep_floor r0) (rep_base r0) records = Done r ->
    set_apply_page r page = Done r' -> colocated_replica r' reported
| colocated_learns r reported c s v r' :
    colocated_replica r reported -> (c, s, v) ∈ lw_decided w -> rep_floor r <= s -> rep_chosen r !! s = None ->
    replica_learn r s v = Done r' -> colocated_replica r' reported
| colocated_walks r reported record_ballot writes r' writes' target :
    colocated_replica r reported -> coupled r record_ballot ->
    replica_advance r record_ballot writes = Done (r', writes', target) -> colocated_replica r' reported
| colocated_truncates r reported target r' sealed :
    colocated_replica r reported -> compaction_target r = Done (Some target) -> rep_floor r <= target ->
    replica_truncate r (target + 1) = Done (r', sealed) -> colocated_replica r' reported
| colocated_compacted r reported r' :
    colocated_replica r reported -> assert_compacted r = Done r' -> colocated_replica r' reported
| colocated_trims r reported r0 reported0 r' sealed :
    colocated_replica r reported -> colocated_replica r0 reported0 -> rep_floor r < rep_floor r0 ->
    replica_trim_to r (rep_floor r0) (rep_base r0) = Done (r', sealed) -> colocated_replica r' reported
| colocated_reports r reported committed r' :
    colocated_replica r reported -> replica_committed r = Done committed -> clear_committed r = Done r' ->
    colocated_replica r' (reported ++ committed).

Inductive fleet : DeployConfig -> Limits -> ReplicaWorld -> Prop :=
| fleet_boots config acceptors limits x :
    boots_under mode config acceptors limits -> replica_init config limits = Done x -> fleet config limits x
| fleet_delivers config limits x msg x' :
    fleet config limits x -> delivers msg -> replica_happens config limits x (XStep msg) = Done x' -> fleet config limits x'
| fleet_trims config limits x r reported x' :
    fleet config limits x -> colocated_replica r reported ->
    replica_happens config limits x (XStep (RTrimmedTo (rep_floor r) (rep_base r))) = Done x' ->
    fleet config limits x'
| fleet_local config limits x l x' :
    fleet config limits x -> (forall msg, l <> XStep msg) -> replica_enabled mode (decided_log w) x l ->
    replica_happens config limits x l = Done x' -> fleet config limits x'.

(** A replica of the deployment, at an acceptor or at a node of its own. *)
Definition deployed_replica (r : Replica) (reported : list Applied) : Prop :=
  colocated_replica r reported \/
  exists config limits x, fleet config limits x /\ rn_replica (xw_node x) = r /\ xw_reported x = reported.

Lemma decided_log_is c s v : log_inv cfg prior led w -> (c, s, v) ∈ lw_decided w -> decided_log w s = v.
Proof.
  intros Hinv Hd. unfold decided_log. destruct (list_find _ _) as [[i [[c' s'] v']]|] eqn:El.
  - apply list_find_Some in El as (Hi & Hs & _). simpl in Hs. subst s'.
    eapply decided_agree; [exact Hinv| |exact Hd]. by eapply list_elem_of_lookup_2.
  - apply list_find_None in El. rewrite Forall_forall in El. by destruct (El _ Hd).
Qed.

(** The log's messages say what it decided. *)
Lemma delivers_ok msg : log_inv cfg prior led w -> delivers msg -> replica_message_ok mode (decided_log w) msg.
Proof.
  intros Hinv Hmsg.
  assert (forall b s v, lw_rounds w !! (b, s) = Some v /\ decided_val w b s v ->
    s < u64_max /\ v = decided_log w s) as Hdec.
  { intros b s v (Hr & c & Hd & _). split; [by apply (li_rounds _ _ _ _ Hinv) in Hr as (_ & ? & _)|].
    symmetry. by eapply decided_log_is. }
  destruct Hmsg as [b s v Hin|entries Hin|from b commit config fence Hwf| |]; simpl; try done;
    apply (li_net _ _ _ _ Hinv) in Hin; simpl in Hin; [by eapply Hdec|].
  apply Forall_forall. intros [s [b v]] He. simpl. by eapply Hdec, Hin.
Qed.

Context (Hlog : log_reachable (Ctrl Noop) cfg prior led w).
Context (Hfit : forall s, fits (state_before mode (decided_log w) s) (decided_log w s)).

Lemma page_bounds r page r' : set_apply_page r page = Done r' -> r' = with_page r page /\ 0 < page <= APPLY_BATCH.
Proof using. intros E. unfold set_apply_page in E. rinv E. by injection E as <-. Qed.

(** A colocated replica is the fold of the decided log. *)
Lemma colocated_replica_core r reported : colocated_replica r reported ->
  replica_core mode (decided_log w) r /\ at_hole r /\ Forall (applied_exact mode (decided_log w)) reported.
Proof using HC Hlog Hfit.
  assert (log_inv cfg prior led w) as Hinv by (by eapply log_reachable_inv).
  set (L := decided_log w) in *.
  assert (forall c s v, (c, s, v) ∈ lw_decided w -> s < u64_max /\ L s = v) as Hdec.
  { intros c s v Hd. split; [|by eapply decided_log_is]. apply (li_decided _ _ _ _ Hinv) in Hd as [(_ & ? & _)%(li_rounds _ _ _ _ Hinv) _]. done. }
  induction 1 as [r E|r0 rep0 index records r page r' _ (Hc & _ & Hr) Hle Hfl Hrec E Ep
    |r reported c s v r' _ (Hc & Hh & Hr) Hd Hs Hn E|r reported rb writes r' writes' target _ (Hc & Hh & Hr) Hcp E
    |r reported target r' sealed _ (Hc & Hh & Hr) Ht Hlt E|r reported r' _ (Hc & Hh & Hr) E
    |r reported r0 rep0 r' sealed _ (Hc & _ & Hr) _ (Hc0 & _ & _) Hlt E
    |r reported committed r' _ (Hc & Hh & Hr) E Ec].
  - destruct (replica_from_boot_ok mode L Hfit None 0 journal_default ∅) as (r' & E' & ? & ? & _); [|by rewrite E in E'; injection E' as <-].
    split; [done|done|by rewrite state_before_0| |done]. apply (bt_good _ _ _ (mem_new_bootable mode L)).
  - destruct (replica_from_boot_ok mode L Hfit index (rep_floor r0) (rep_base r0) records) as (r1 & E' & Hc' & Hh' & _).
    { pose proof (co_index _ _ _ Hc) as Hi. split; [|done|apply (co_base _ _ _ Hc)|apply (co_good _ _ _ Hc)|].
      - destruct index, (rep_chosen_index r0); unfold ord_le in Hle; simpl in *; try done; ord_N; lia.
      - intros s b v Hsv Hci. destruct (Hrec s b v Hsv Hci) as (? & c & Hd). split; [done|]. by destruct (Hdec c s v Hd). }
    rewrite E in E'. injection E' as <-. apply page_bounds in Ep as [-> Hp]. split; [by apply page_core|]. split; [exact Hh'|done].
  - destruct (Hdec c s v Hd) as [Hlt <-].
    destruct (replica_learn_ok mode L Hfit r s) as (r1 & E' & ? & ? & _); [done..|]. rewrite E in E'. by injection E' as <-.
  - destruct (replica_advance_ok mode L Hfit r rb writes Hc Hcp) as (r1 & tg & E' & ? & ? & _). rewrite E in E'. by injection E' as <-.
  - destruct (compaction_target_ok mode L Hfit r Hc) as (f & E' & Hg). rewrite Ht in E'. injection E' as E'.
    unfold u64_checked_sub in E'. destruct (decide (1 <= f)) as [H1|]; [|discriminate]. injection E' as ->.
    pose proof (greatest_floor_le_end mode L r f Hc Hg) as Hw. replace (f - 1 + 1) with f in E by lia.
    destruct (replica_truncate_ok mode L Hfit r f f Hc Hh Hg) as [E' Hk]; [lia|done|]. rewrite E in E'. injection E' as -> ->.
    destruct Hk as (? & ? & _); [|done]. eapply safe_floor_good; [exact Hc|apply Hg].
  - unfold assert_compacted in E. cbv zeta in E. destruct (rep_compaction_due r); cbn [negb] in E.
    + assert (r' = with_due r (rep_truncate_due r) false) as -> by (rinv E; repeat case_match; rinv E; by injection E as <-).
      split_and!; [by apply due_core|exact Hh|done].
    + injection E as <-. split_and!; [by apply due_core|exact Hh|done].
  - pose proof (trim_message_ok mode L r0 Hc0) as (Hb & Hg & Hbase).
    rewrite Hbase in E. destruct (replica_trim_to_ok mode L Hfit r (rep_floor r0) Hc) as (r1 & E' & ? & ? & _);
      [lia|lia|done|]. rewrite E in E'. by injection E' as <-.
  - rewrite (replica_committed_ok mode L) in E by done. injection E as <-. unfold clear_committed in Ec. rinv Ec. injection Ec as <-.
    pose proof (co_committed _ _ _ Hc) as Hcom. split_and!; [|exact Hh|].
    + destruct Hc; split; try done; constructor.
    + apply Forall_app. split; [done|]. eapply Forall_impl; [exact Hcom|]. by intros e [? _].
Qed.

Lemma fleet_reaches config limits x :
  fleet config limits x ->
  exists acceptors, boots_under mode config acceptors limits /\ replica_reachable config limits mode (decided_log w) x.
Proof using HC Hlog Hfit.
  assert (log_inv cfg prior led w) as Hinv by (by eapply log_reachable_inv).
  induction 1 as [config acceptors limits x Hb E|config limits x msg x' _ (acceptors & Hb & Hx) Hm E
    |config limits x r reported x' _ (acceptors & Hb & Hx) Hr E
    |config limits x l x' _ (acceptors & Hb & Hx) _ Hen E]; exists acceptors; split; try done.
  - by apply replica_start.
  - eapply replica_moves; [exact Hx| |exact E]. by apply delivers_ok.
  - eapply replica_moves; [exact Hx| |exact E]. by apply trim_message_ok, (colocated_replica_core r reported).
  - eapply replica_moves; [exact Hx|exact Hen|exact E].
Qed.

Lemma deployed_core r reported : deployed_replica r reported ->
  replica_core mode (decided_log w) r /\ Forall (applied_exact mode (decided_log w)) reported.
Proof using HC Hlog Hfit.
  intros [(? & _ & ?)%colocated_replica_core|(config & limits & x & (a & Hb & Hx)%fleet_reaches & <- & <-)]; [done|].
  apply (replica_reachable_ok _ _ _ _ Hfit _ Hb) in Hx as [[Hl _] _ _ Hrep].
  split; [|done]. apply (ln_core _ _ _ (lo_ready _ _ _ Hl)).
Qed.

(** C4: replicas agree.  In a deployment whose log is decided by the acceptors of
    [LogWorld] (configurations as [LogConfigs] asks, which a plain deployment and completed
    matchmaking campaigns meet), over any interleaving of elections, votes, lost, duplicated
    and reordered messages, take any two replicas, each colocated with an acceptor or on a
    node of its own, and whatever each heard, missed, truncated, jumped over or lost in a
    crash.  They report the same command and the same verdict for a slot both report, answer
    the same verdict for a slot both retain, hold the same command in a slot both hold, have
    the same journal when they folded as far, and the same sealed state at the same floor.
    A replica node hears commits and replays of the log's network and an acceptor's trim
    point, its own labels are those of [replica_enabled], and journal positions, terms and
    byte counts of the decided log fit 64 bits. *)
Theorem fleet_agrees r1 reported1 r2 reported2 :
  deployed_replica r1 reported1 -> deployed_replica r2 reported2 ->
  (forall e1 e2, e1 ∈ reported1 -> e2 ∈ reported2 -> applied_slot e1 = applied_slot e2 ->
     e1.1.2 = e2.1.2 /\ e1.2 = e2.2) /\
  (forall s o1 o2, outcome_at r1 s = Done (Some o1) -> outcome_at r2 s = Done (Some o2) -> o1 = o2) /\
  (forall s c1 c2, rep_chosen r1 !! s = Some c1 -> rep_chosen r2 !! s = Some c2 -> c1 = c2) /\
  (rep_folded r1 = rep_folded r2 -> replica_journal r1 = replica_journal r2) /\
  (rep_floor r1 = rep_floor r2 -> rep_base r1 = rep_base r2).
Proof using HC Hlog Hfit.
  intros [Hc1 Hrep1]%deployed_core [Hc2 Hrep2]%deployed_core.
  rewrite Forall_forall in Hrep1, Hrep2. split_and!.
  - intros e1 e2 [-> ->]%Hrep1 [-> ->]%Hrep2 ->. done.
  - intros s o1 o2 E1 E2. rewrite (outcome_at_ok mode (decided_log w)) in E1 by done.
    rewrite (outcome_at_ok mode (decided_log w)) in E2 by done. repeat case_decide; congruence.
  - intros s c1 c2 [-> _]%(co_chosen _ _ _ Hc1) [-> _]%(co_chosen _ _ _ Hc2). done.
  - intros E. rewrite !(replica_journal_ok mode (decided_log w)) by done. by rewrite E.
  - intros E. by rewrite (co_base _ _ _ Hc1), (co_base _ _ _ Hc2), E.
Qed.
End fleet.

(** ** A fleet of two

    The two leaders of [ex_world] decide slot 0 one after the other: one replica
    hears of it from the first, the other from the second. *)

Lemma fold_log_ext mode L1 L2 n : (forall s, L1 s = L2 s) -> fold_log mode L1 n = fold_log mode L2 n.
Proof. intros He. induction n as [|n IH]; simpl; [done|]. by rewrite IH, He. Qed.

Lemma ex_decided s : decided_log ex_world s = log_of_list [ex_command] s.
Proof.
  assert (lw_decided ex_world = [(log_b3, 0, ex_command); (log_b1, 0, ex_command)]) as Hd by (by vm_compute).
  unfold decided_log. rewrite Hd. destruct s as [|p]; [done|]. unfold log_of_list.
  rewrite (lookup_ge_None_2 [ex_command]); [done|]. simpl. lia.
Qed.

Lemma ex_fits s : fits (state_before Single (decided_log ex_world) s) (decided_log ex_world s).
Proof.
  unfold state_before. rewrite (fold_log_ext _ _ (log_of_list [ex_command])), ex_decided by apply ex_decided.
  apply log_of_list_fits. repeat (constructor; [by vm_compute|]). constructor.
Qed.

Definition ex_deploy (id : NodeId) : DeployConfig := mkDeploy id [0; 1; 2] Majority [] [] [] 0 0 0 Single [] 0.
Definition ex_replica (id : NodeId) (b : Ballot) : run ReplicaWorld :=
  x ← replica_init (ex_deploy id) limits_default;
  x ← replica_happens (ex_deploy id) limits_default x (XStep (RCommit b 0 ex_command));
  replica_happens (ex_deploy id) limits_default x XDrain.

Lemma ex_fleet id b x :
  boots_under Single (ex_deploy id) demo_acceptors limits_default -> NCommit b 0 ex_command ∈ lw_net ex_world ->
  ex_replica id b = Done x -> fleet Single ex_world (ex_deploy id) limits_default x.
Proof.
  intros Hb Hin E. apply bind_Done_inv in E as (x0 & E0 & E). apply bind_Done_inv in E as (x1 & E1 & E).
  eapply fleet_local with (l := XDrain); [|intros msg Heq; discriminate Heq|exact I|exact E].
  eapply fleet_delivers; [|by apply delivers_commit|exact E1]. eapply fleet_boots; [exact Hb|exact E0].
Qed.

(** An acceptor's replica that learned the decision and applied it. *)
Lemma ex_colocated : exists r reported, colocated_replica Single ex_world r reported /\ rep_folded r = 1 /\ applied_slot <$> reported = [0].
Proof.
  pose (r0 := replica_from_boot Single None 0 journal_default ∅).
  pose (r1 := r ← r0; replica_learn r 0 ex_command).
  pose (walk r := '(r, _, _) ← replica_advance r (fun _ _ => Some log_b1) []; mret r : run Replica).
  assert (match (r ← r1; r ← walk r; committed ← replica_committed r; r ← clear_committed r; mret (r, committed)) with
    | Done (r, committed) => rep_folded r = 1 /\ applied_slot <$> committed = [0] | Panic _ => False end) as H
    by (vm_compute; done).
  destruct (r ← r1; _) as [[r committed]|] eqn:E; [|done]. exists r, committed. split; [|done].
  apply bind_Done_inv in E as (ra & Ea & E). apply bind_Done_inv in E as (rb & Eb & E).
  apply bind_Done_inv in E as (cs & Ec & E). apply bind_Done_inv in E as (rc & Ed & E). injection E as <- <-.
  apply bind_Done_inv in Ea as (r00 & E0 & Ea). apply bind_Done_inv in Eb as ([[rb' ws] tg] & Eb & E'). injection E' as ->.
  apply (colocated_reports Single ex_world rb [] cs rc); [|done..].
  eapply (colocated_walks Single ex_world ra []); [|by intros s c _ _; eexists|exact Eb].
  assert (rep_floor r00 = 0 /\ rep_chosen r00 !! 0 = None) as [Hf Hc] by (injection E0 as <-; by vm_compute).
  apply (colocated_learns Single ex_world r00 [] log_b1 0 ex_command ra); [by apply colocated_new| |by rewrite Hf|done|exact Ea].
  apply list_elem_of_lookup_2 with (i := 1%nat). by vm_compute.
Qed.

Lemma fleet_agrees_witness :
  exists x1 x2 e1 e2, ex_replica 9 log_b1 = Done x1 /\ ex_replica 10 log_b3 = Done x2 /\
    xw_reported x1 = [e1] /\ xw_reported x2 = [e2] /\ e1.1.2 = e2.1.2 /\ e1.2 = e2.2.
Proof.
  pose (reports c := match c with Done x => applied_slot <$> xw_reported x = [0] | Panic _ => False end).
  assert (reports (ex_replica 9 log_b1)) as H1 by (vm_compute; reflexivity).
  assert (reports (ex_replica 10 log_b3)) as H2 by (vm_compute; reflexivity).
  destruct (ex_replica 9 log_b1) as [x1|] eqn:E1; [|destruct H1].
  destruct (ex_replica 10 log_b3) as [x2|] eqn:E2; [|destruct H2]. simpl in H1, H2.
  apply fmap_cons_inv in H1 as (e1 & l1 & S1 & H1%eq_sym%fmap_nil_inv & R1); subst l1.
  apply fmap_cons_inv in H2 as (e2 & l2 & S2 & H2%eq_sym%fmap_nil_inv & R2); subst l2.
  exists x1, x2, e1, e2. split; [reflexivity|]. split; [reflexivity|]. split; [exact R1|]. split; [exact R2|].
  destruct (fleet_agrees (plain_cfg ex_config) (plain_prior ex_config) every_ballot
    (HC:=plain_configs ex_config ex_config_wf) Single ex_world ex_world_reached ex_fits
    (rn_replica (xw_node x1)) (xw_reported x1) (rn_replica (xw_node x2)) (xw_reported x2)) as [Hag _].
  - right. exists (ex_deploy 9), limits_default, x1. split; [|split; reflexivity]. apply (ex_fleet 9 log_b1); [|apply list_elem_of_lookup_2 with (i := 6%nat); vm_compute; reflexivity|exact E1].
    split; [apply assert_replica_config_shape_iff; vm_compute; reflexivity|reflexivity|vm_compute; reflexivity|vm_compute; reflexivity|apply limits_default_valid].
  - right. exists (ex_deploy 10), limits_default, x2. split; [|split; reflexivity]. apply (ex_fleet 10 log_b3); [|apply list_elem_of_lookup_2 with (i := 0%nat); vm_compute; reflexivity|exact E2].
    split; [apply assert_replica_config_shape_iff; vm_compute; reflexivity|reflexivity|vm_compute; reflexivity|vm_compute; reflexivity|apply limits_default_valid].
  - apply Hag; [rewrite R1; apply list_elem_of_singleton; reflexivity|rewrite R2; apply list_elem_of_singleton; reflexivity|].
    rewrite <-S1, <-S2. reflexivity.
Defined.
