(* ===== verification/Reconfigurer.v ===== *)
(** * The matchmaker reconfigurer ([matchmaker/reconfigurer.rs])

    The state machine that replaces one matchmaker set by the next: freeze the old
    members and read their registries page by page, hand their union to every member
    of the proposed successor, choose the successor by a decree over the old set,
    publish it.  What each operation does under the invariant is in
    [ReconfigurerInv.v]. *)

From S2P Require Import Prelude BTree Types Contract QuorumSystem AcceptorConfig Decree MatchmakerSet MatchmakerState.

(** [usize] subtraction. *)
Definition usize_sub (a b : N) : run N :=
  if decide (b <= a) then Done (a - b) else Panic "attempt to subtract with overflow".

Abbreviation Registries := (gmap JournalId JournalRegistry) (only parsing).
Abbreviation SuccessorDecree := (Decree MatchmakerId (list MatchmakerId)) (only parsing).

Inductive StartRefusal := RefusedBusy | RefusedEmpty.

Inductive ReconfigurerPhase :=
| RIdle
| RStopping (old : MatchmakerSet) (target : option (list MatchmakerId)) (acks : gmap MatchmakerId Registries)
    (partial : gmap MatchmakerId (Registries * JournalId)) (decree_floor : Ballot)
| RBootstrapping (old : MatchmakerSet) (bootstrap : PendingBootstrap) (acks : gset MatchmakerId)
    (held : gmap MatchmakerId (option JournalId)) (decree_floor : Ballot)
| RDeciding (old : MatchmakerSet) (bootstrap : PendingBootstrap) (decree : SuccessorDecree)
| RPublishing (old successor : MatchmakerSet) (old_acks new_acks : gset MatchmakerId).

Inductive ReconfigurerStep :=
| TIgnored
| TStopped (remaining : N)
| TBootstrapped (remaining : N)
| TDeciding (ballot : Ballot)
| TPromised (remaining : N)
| TAccepted (remaining : N)
| TPublished (old_remaining new_remaining : N)
| TProposing (ballot : Ballot) (members : list MatchmakerId) (adopted : bool)
| TPreempted (promised ballot : Ballot)
| TChosen (successor : MatchmakerSet)
| TDone (successor : MatchmakerSet)
| TSuperseded (successor : MatchmakerSet).

Record Reconstruction := mkReconstruction { rb_bootstrap : PendingBootstrap; rb_disagreements : N }.

Record Reconfigurer := mkReconfigurer {
  rc_node : NodeId;
  rc_round : N;
  rc_phase : ReconfigurerPhase;
  rc_pending : list (MatchmakerId * ReconfigureRequest);
  rc_elapsed : N;
  rc_limits : Limits;
  rc_cut : option N }.

Implicit Types r : Reconfigurer.

(** Field updates. *)
Definition with_phase r (phase : ReconfigurerPhase) : Reconfigurer :=
  mkReconfigurer (rc_node r) (rc_round r) phase (rc_pending r) (rc_elapsed r) (rc_limits r) (rc_cut r).
Definition with_elapsed r (elapsed : N) : Reconfigurer :=
  mkReconfigurer (rc_node r) (rc_round r) (rc_phase r) (rc_pending r) elapsed (rc_limits r) (rc_cut r).
Definition with_round r (round : N) : Reconfigurer :=
  mkReconfigurer (rc_node r) round (rc_phase r) (rc_pending r) (rc_elapsed r) (rc_limits r) (rc_cut r).
Definition with_cut r (cut : option N) : Reconfigurer :=
  mkReconfigurer (rc_node r) (rc_round r) (rc_phase r) (rc_pending r) (rc_elapsed r) (rc_limits r) cut.
Definition queue_requests r (queue : list (MatchmakerId * ReconfigureRequest)) : Reconfigurer :=
  mkReconfigurer (rc_node r) (rc_round r) (rc_phase r) (rc_pending r ++ queue) (rc_elapsed r) (rc_limits r) (rc_cut r).
Definition with_no_pending r : Reconfigurer :=
  mkReconfigurer (rc_node r) (rc_round r) (rc_phase r) [] (rc_elapsed r) (rc_limits r) (rc_cut r).

(** ** Views and invariants *)

Definition rc_is_busy r : bool := match rc_phase r with RIdle => false | _ => true end.

Definition rc_is_stopping r : bool := match rc_phase r with RStopping _ _ _ _ _ => true | _ => false end.

Definition rc_old r : run (option MatchmakerSet) :=
  rassert (rc_is_busy r <> match rc_phase r with RIdle => true | _ => false end) "busy is exactly not idle";;
  mret match rc_phase r with
       | RIdle => None
       | RStopping old _ _ _ _ | RBootstrapping old _ _ _ _ | RDeciding old _ _ | RPublishing old _ _ _ => Some old
       end.

(** Whether every journal's history sits at or above its own watermark. *)
Definition holds_nothing_below (registries : Registries) : bool :=
  forallb (fun e : JournalId * JournalRegistry =>
             bool_decide (is_none_or (fun b => jr_watermark e.2 ≤ b)%B (first_key_of (jr_history e.2))))
    (bt_entries registries).

Definition rc_assert_invariants r : run unit :=
  match rc_phase r with
  | RIdle =>
      rassert (rc_pending r = []) "an idle reconfigurer queues nothing";;
      rassert (rc_elapsed r = 0) "an idle reconfigurer's clock is stopped"
  | RStopping old target acks partial _ =>
      counted ← allM (set_contains old) (bt_keys acks);
      rassert (counted = true) "only members of the replaced generation acknowledge its freeze";;
      cut ← allM (fun m => member ← set_contains old m; mret (member && bool_decide (acks !! m = None))) (bt_keys partial);
      rassert (cut = true) "a report still cut short is a member's that is not whole";;
      rassert (is_none_or (fun t => t <> []) target) "a reconfiguration targets a non-empty set"
  | RBootstrapping old bootstrap acks held _ =>
      rassert (bo_complete bootstrap = true) "a bootstrap is paged out of a whole reconstruction";;
      cut ← allM (fun m => member ← set_contains (bo_set bootstrap) m; mret (member && bool_decide (m ∉ acks))) (bt_keys held);
      rassert (cut = true) "a bootstrap still cut short is a member's that is not whole";;
      next ← generation_next (ms_generation old);
      rassert (ms_generation (bo_set bootstrap) = next) "a bootstrap proposes the next generation";;
      counted ← allM (set_contains (bo_set bootstrap)) (bs_elements acks);
      rassert (counted = true) "only members of the proposed set acknowledge its bootstrap";;
      rassert (holds_nothing_below (bo_registries bootstrap) = true) "a reconstruction holds nothing below its watermark"
  | RDeciding old bootstrap decree =>
      next ← generation_next (ms_generation old);
      rassert (ms_generation (bo_set bootstrap) = next) "a decree decides the next generation";;
      rassert (node (d_ballot decree) = rc_node r) "a decree runs at this node's ballot";;
      rassert (round (d_ballot decree) <= rc_round r) "a decree's round was minted here"
  | RPublishing old successor old_acks new_acks =>
      next ← generation_next (ms_generation old);
      rassert (ms_generation successor = next) "a published successor is the next generation";;
      counted ← allM (set_contains old) (bs_elements old_acks);
      rassert (counted = true) "only members of the replaced set count toward its quorum";;
      counted ← allM (set_contains successor) (bs_elements new_acks);
      rassert (counted = true) "only members of the successor count toward its quorum"
  end.

(** [MatchmakerReconfigurer::new]. *)
Definition reconfigurer_new (me : NodeId) (limits : Limits) : run Reconfigurer :=
  limits_assert_valid limits;;
  let r := mkReconfigurer me 0 RIdle [] 0 limits None in
  rassert (rc_is_busy r = false) "a fresh reconfigurer is idle";;
  rc_assert_invariants r;;
  mret r.

(** [ReconfigurerReady::requests] and [advance]. *)
Definition rc_requests r : run (list (MatchmakerId * ReconfigureRequest)) :=
  rassert (Forall (fun e : MatchmakerId * ReconfigureRequest => request_from e.2 = rc_node r) (rc_pending r))
    "a handover request names its own reconfigurer";;
  (if rc_is_busy r then mret tt else rassert (rc_pending r = []) "an idle reconfigurer sends nothing");;
  mret (rc_pending r).
Definition rc_advance r : run Reconfigurer :=
  let r := with_no_pending r in
  rassert (rc_pending r = []) "an advanced batch has no request left";;
  mret r.

(** [abort], [abandon] and [tick]. *)
Definition rc_abort r : run Reconfigurer :=
  let r := with_elapsed (with_no_pending (with_phase r RIdle)) 0 in
  rassert (rc_is_busy r = false) "an aborted handover is idle";;
  rassert (rc_pending r = []) "an aborted handover queues nothing";;
  mret r.
Definition rc_abandon r : run (Reconfigurer * bool) :=
  if rc_is_busy r then
    r ← rc_abort r;
    rassert (rc_is_busy r = false) "an abandoned handover is idle";;
    mret (r, true)
  else mret (r, false).
Definition rc_tick r : run Reconfigurer :=
  let elapsed := rc_elapsed r in
  let r := if rc_is_busy r then with_elapsed r (u64_saturating_add elapsed 1) else r in
  rassert (elapsed <= rc_elapsed r) "a stall clock never runs backward";;
  rc_assert_invariants r;;
  mret r.

Definition stop_quorum_reached r : run bool :=
  match rc_phase r with
  | RStopping old _ acks _ _ => set_has_quorum old (dom acks)
  | _ => mret false
  end.

(** ** Re-sends *)

(** [successor_decree]. *)
Definition successor_decree (ballot : Ballot) (old : MatchmakerSet) (proposal : list MatchmakerId) : run SuccessorDecree :=
  members ← set_members old;
  acceptors ← config_new members Majority;
  decree ← decree_new ballot acceptors proposal;
  held ← config_members (d_acceptors decree);
  rassert (held = members) "a decree's acceptors are exactly the set being replaced";;
  qs ← config_quorum_system (d_acceptors decree);
  rassert (qs = Majority) "a handover decree counts majorities only";;
  mret decree.

(** The narrower of the page a frozen member was cut at and the driver's. *)
Definition page_width r : N :=
  match rc_cut r with Some cut => N.min cut (registry_page (rc_limits r)) | None => registry_page (rc_limits r) end.

(** [MatchmakerReconfigurer::bootstrap_page]. *)
Definition rc_bootstrap_page r : run N :=
  let page := page_width r in
  rassert (0 < page) "a bootstrap page carries a journal";;
  rassert (page <= registry_page (rc_limits r)) "a bootstrap page is no wider than the driver's";;
  mret page.

Definition not_counted (phase : ReconfigurerPhase) (m : MatchmakerId) : Prop :=
  match phase with
  | RStopping _ _ acks _ _ => acks !! m = None
  | RBootstrapping _ _ acks _ _ => m ∉ acks
  | _ => False
  end.
#[export] Instance not_counted_dec phase m : Decision (not_counted phase m).
Proof. destruct phase; simpl; apply _. Defined.

(** The next page of a bootstrap for a member. *)
Definition bootstrap_request r (bootstrap : PendingBootstrap) (after : option JournalId) (page : N) (m : MatchmakerId)
  : run (MatchmakerId * ReconfigureRequest) :=
  cut ← bootstrap_page bootstrap after page;
  mret (m, QBootstrap (rc_node r) cut).

Definition paged_requests r : run (list (MatchmakerId * ReconfigureRequest)) :=
  page ← rc_bootstrap_page r;
  queue ← match rc_phase r with
          | RStopping old _ acks partial _ =>
              members ← set_members old;
              mret ((fun m => (m, QStop (rc_node r) (ms_generation old) (snd <$> partial !! m))) <$>
                    filter (fun m => acks !! m = None) members)
          | RBootstrapping _ bootstrap acks held _ =>
              members ← set_members (bo_set bootstrap);
              foldM (fun queue m =>
                       request ← bootstrap_request r bootstrap (mjoin (held !! m)) page m;
                       mret (queue ++ [request])) []
                (filter (fun m => m ∉ acks) members)
          | _ => mret []
          end;
  rassert (Forall (fun e : MatchmakerId * ReconfigureRequest => not_counted (rc_phase r) e.1) queue)
    "a re-send asks only a member not counted yet";;
  mret queue.

(** The decree's half: a preempted decree is reopened above the promise that refused
    it, then whoever has not answered is asked. *)
Definition reopen r (old : MatchmakerSet) (bootstrap : PendingBootstrap) (decree : SuccessorDecree)
  : run (Reconfigurer * SuccessorDecree) :=
  preempted ← decree_preempted decree;
  match preempted with
  | Some promised =>
      let fresh := u64_saturating_add (N.max (rc_round r) (round promised)) 1 in
      members ← set_members (bo_set bootstrap);
      decree ← successor_decree (mkBallot fresh (rc_node r)) old members;
      mret (with_round r fresh, decree)
  | None => mret (r, decree)
  end.

Definition decree_requests r (old : MatchmakerSet) (decree : SuccessorDecree)
  : run (list (MatchmakerId * ReconfigureRequest)) :=
  targets ← unanswered decree;
  mret ((fun m => (m, match decree_value decree with
                      | None => QDecreePrepare (rc_node r) (ms_generation old) (d_ballot decree)
                      | Some members => QDecreeAccept (rc_node r) (ms_generation old) (d_ballot decree) members
                      end)) <$> (targets : list MatchmakerId)).

Definition publish_requests r (old successor : MatchmakerSet) (old_acks new_acks : gset MatchmakerId)
  : run (list (MatchmakerId * ReconfigureRequest)) :=
  old_members ← set_members old;
  new_members ← set_members successor;
  let targets := normalize (filter (fun m => m ∉ old_acks) old_members ++ filter (fun m => m ∉ new_acks) new_members) in
  mret ((fun m => (m, QChosen (rc_node r) (ms_generation old) successor)) <$> (targets : list MatchmakerId)).

Definition assert_requests_since r (queued : nat) : run unit :=
  rassert (queued <= length (rc_pending r))%nat "a re-send never drops a queued request";;
  rassert (Forall (fun e : MatchmakerId * ReconfigureRequest => request_from e.2 = rc_node r) (drop queued (rc_pending r)))
    "a re-sent request names its own reconfigurer".

(** The part of a re-send that is the running phase's own. *)
Definition phase_requests r (queue : list (MatchmakerId * ReconfigureRequest))
  : run (Reconfigurer * list (MatchmakerId * ReconfigureRequest)) :=
  match rc_phase r with
  | RDeciding old bootstrap decree =>
      '(r, decree) ← reopen r old bootstrap decree;
      requests ← decree_requests r old decree;
      mret (with_phase r (RDeciding old bootstrap decree), queue ++ requests)
  | RPublishing old successor old_acks new_acks =>
      requests ← publish_requests r old successor old_acks new_acks;
      mret (r, queue ++ requests)
  | _ => mret (r, queue)
  end.

(** [MatchmakerReconfigurer::resend]. *)
Definition rc_resend r : run Reconfigurer :=
  let queued := length (rc_pending r) in
  queue ← paged_requests r;
  '(r, queue) ← phase_requests r queue;
  let r := queue_requests r queue in
  assert_requests_since r queued;;
  mret r.

(** ** Opening a handover *)

Definition begin_stopping r (current : MatchmakerSet) (target : option (list MatchmakerId)) : run Reconfigurer :=
  let r := with_cut (with_elapsed (with_phase r (RStopping current target ∅ ∅ zero)) 0) None in
  r ← rc_resend r;
  rassert (rc_is_stopping r = true) "a handover opens by freezing";;
  rc_assert_invariants r;;
  mret r.

(** [MatchmakerReconfigurer::start] and [finish]. *)
Definition rc_start r (current : MatchmakerSet) (target : list MatchmakerId) : run (Reconfigurer + StartRefusal) :=
  if rc_is_busy r then mret (inr RefusedBusy) else
  if decide (target = []) then mret (inr RefusedEmpty) else
  next ← generation_next (ms_generation current);
  set ← set_new next target;
  target ← set_members set;
  rassert (target <> []) "a normalized target names a matchmaker";;
  r ← begin_stopping r current (Some target);
  rassert (rc_is_busy r = true) "a started handover is busy";;
  mret (inl r).
Definition rc_finish r (current : MatchmakerSet) : run (Reconfigurer + StartRefusal) :=
  if rc_is_busy r then mret (inr RefusedBusy) else
  r ← begin_stopping r current None;
  rassert (rc_is_busy r = true) "a finishing handover is busy";;
  old ← rc_old r;
  rassert (is_some_and (fun old => old = current) old) "a finish freezes the generation it was handed";;
  mret (inl r).

(** ** The reconstruction *)

Definition registry_default : JournalRegistry := mkRegistry zero ∅ None.

(** One journal of one frozen member: the watermark and the effective configuration. *)
Definition merge_frozen (registries : Registries) (e : JournalId * JournalRegistry) : run Registries :=
  let held := default registry_default (registries !! e.1) in
  effective ← match jr_effective e.2 with
              | Some (ballot, config) => '(effective, _) ← raise_effective (jr_effective held) ballot config; mret effective
              | None => mret (jr_effective held)
              end;
  mret (<[e.1 := mkRegistry (ord_max (jr_watermark held) (jr_watermark e.2)) (jr_history held) effective]> registries).

(** One registration: the first seen is kept, a different one is counted. *)
Definition merge_registration (acc : gmap Ballot Registration * N) (e : Ballot * Registration)
  : gmap Ballot Registration * N :=
  match acc.1 !! e.1 with
  | None => (<[e.1 := e.2]> acc.1, acc.2)
  | Some held => if decide (held <> e.2) then (acc.1, u64_saturating_add acc.2 1) else acc
  end.

Definition merge_history (acc : Registries * N) (e : JournalId * JournalRegistry) : run (Registries * N) :=
  held ← rexpect (acc.1 !! e.1) "every reported journal is held";
  let '(history, disagreements) :=
    foldl merge_registration (jr_history held, acc.2) (bt_range_from (jr_watermark held) (jr_history e.2)) in
  mret (<[e.1 := mkRegistry (jr_watermark held) history (jr_effective held)]> acc.1, disagreements).

(** Every journal of every frozen member, in order. *)
Definition frozen_reports (acks : gmap MatchmakerId Registries) : list (JournalId * JournalRegistry) :=
  bt_entries acks ≫= (fun e => bt_entries e.2).

Definition reconstruct (acks : gmap MatchmakerId Registries) : run (Registries * N) :=
  registries ← foldM merge_frozen ∅ (frozen_reports acks);
  '(registries, disagreements) ← foldM merge_history (registries, 0) (frozen_reports acks);
  mret (filter (fun e : JournalId * JournalRegistry => registry_is_blank e.2 = false) registries, disagreements).

(** [MatchmakerReconfigurer::close_stop]. *)
Definition close_stop r : run (Reconfigurer * option Reconstruction) :=
  match rc_phase r with
  | RStopping old target acks _ decree_floor =>
      quorum ← set_has_quorum old (dom acks);
      if negb quorum then mret (r, None) else
      '(registries, disagreements) ← reconstruct acks;
      let target := match target with Some target => target | None => bt_keys acks end in
      next ← generation_next (ms_generation old);
      set ← set_new next target;
      let bootstrap := mkBootstrap set registries true in
      rassert (holds_nothing_below (bo_registries bootstrap) = true) "a reconstruction holds nothing below its watermark";;
      rassert (Forall (fun e : JournalId * JournalRegistry => is_Some (bo_registries bootstrap !! e.1))
                 (filter (fun e : JournalId * JournalRegistry => registry_is_blank e.2 = false) (frozen_reports acks)))
        "a reconstruction carries every reported journal";;
      rassert (ms_generation (bo_set bootstrap) = next) "a reconstruction proposes the next generation";;
      let r := with_elapsed (with_phase r (RBootstrapping old bootstrap ∅ ∅ decree_floor)) 0 in
      r ← rc_resend r;
      rc_assert_invariants r;;
      mret (r, Some (mkReconstruction bootstrap disagreements))
  | _ => mret (r, None)
  end.

(** ** Replies *)

(** A matchmaker that moved on names the successor to adopt. *)
Definition fold_refused r (old : MatchmakerSet) (current : MatchmakerSet) (successor : option MatchmakerSet)
  : run (Reconfigurer * ReconfigurerStep) :=
  if decide (ms_generation old < ms_generation current) then
    r ← rc_abort r; mret (r, TSuperseded current)
  else if decide (ms_generation current = ms_generation old) then
    match successor with
    | Some successor => r ← rc_abort r; mret (r, TSuperseded successor)
    | None => mret (r, TIgnored)
    end
  else mret (r, TIgnored).

(** A page of a frozen report that the reconfigurer takes. *)
Definition report_well_formed (after next : option JournalId) (registries : Registries) : bool :=
  bool_decide (msize registries <= REGISTRY_PAGE) &&
  bool_decide (Forall (above_cursor after) (bt_keys registries)) &&
  bool_decide (is_none_or (fun next => last_key_of registries = Some next) next).

Definition fold_stopped r (old : MatchmakerSet) (target : option (list MatchmakerId)) (acks : gmap MatchmakerId Registries)
  (partial : gmap MatchmakerId (Registries * JournalId)) (decree_floor : Ballot)
  (from : MatchmakerId) (generation : MatchmakerGeneration) (after next : option JournalId)
  (registries : Registries) (successor : option MatchmakerSet) (decree_promised : Ballot)
  : run (Reconfigurer * ReconfigurerStep) :=
  if decide (generation <> ms_generation old) then mret (r, TIgnored) else
  member ← set_contains old from;
  if negb member then mret (r, TIgnored) else
  match successor with
  | Some successor => r ← rc_abort r; mret (r, TSuperseded successor)
  | None =>
      if decide (is_Some (acks !! from)) then mret (r, TIgnored) else
      let cursor := snd <$> partial !! from in
      if bool_decide (after <> cursor) || negb (report_well_formed after next registries) then mret (r, TIgnored) else
      let width := msize registries in
      let report := registries ∪ default ∅ (fst <$> partial !! from) in
      let partial := delete from partial in
      let decree_floor := ord_max decree_floor decree_promised in
      match next with
      | Some next =>
          rassert (0 < width) "a cut frozen page carries a journal";;
          let cut := Some (match rc_cut r with Some cut => N.min cut width | None => width end) in
          let phase := RStopping old target acks (<[from := (report, next)]> partial) decree_floor in
          let r := queue_requests (with_phase (with_cut r cut) phase) [(from, QStop (rc_node r) generation (Some next))] in
          quorum ← set_quorum_size old;
          mret (r, TStopped (quorum - msize acks))
      | None =>
          let acks := <[from := report]> acks in
          rassert (is_Some (acks !! from)) "a counted freeze is recorded";;
          rassert (decree_promised ≤ decree_floor)%B "the decree floor covers every frozen promise";;
          quorum ← set_quorum_size old;
          mret (with_phase r (RStopping old target acks partial decree_floor), TStopped (quorum - msize acks))
      end
  end.

Definition fold_bootstrapped r (old : MatchmakerSet) (bootstrap : PendingBootstrap) (acks : gset MatchmakerId)
  (held : gmap MatchmakerId (option JournalId)) (decree_floor : Ballot)
  (from : MatchmakerId) (set : MatchmakerSet) (holds : option JournalId) (complete : bool)
  : run (Reconfigurer * ReconfigurerStep) :=
  if decide (set <> bo_set bootstrap) then mret (r, TIgnored) else
  member ← set_contains set from;
  if negb member || bool_decide (from ∈ acks) then mret (r, TIgnored) else
  if negb complete then
    if decide (mjoin (held !! from) = holds /\ is_Some (held !! from)) then mret (r, TIgnored) else
    let held := <[from := holds]> held in
    request ← bootstrap_request r bootstrap holds (page_width r) from;
    members ← set_members (bo_set bootstrap);
    remaining ← usize_sub (len members) (ssize acks);
    mret (queue_requests (with_phase r (RBootstrapping old bootstrap acks held decree_floor)) [request],
          TBootstrapped remaining)
  else
  let held := delete from held in
  let acks := {[ from ]} ∪ acks in
  members ← set_members (bo_set bootstrap);
  rassert (ssize acks <= len members) "only members of the proposed set acknowledge its bootstrap";;
  remaining ← usize_sub (len members) (ssize acks);
  if decide (0 < remaining) then
    mret (with_phase r (RBootstrapping old bootstrap acks held decree_floor), TBootstrapped remaining)
  else
  let r := with_round r (u64_saturating_add (N.max (rc_round r) (round decree_floor)) 1) in
  let ballot := mkBallot (rc_round r) (rc_node r) in
  rassert (round decree_floor < round ballot) "a decree opens above the stop quorum's promises";;
  rassert (node ballot = rc_node r) "a decree runs at this node's ballot";;
  members ← set_members (bo_set bootstrap);
  decree ← successor_decree ballot old members;
  r ← rc_resend (with_phase r (RDeciding old bootstrap decree));
  mret (r, TDeciding ballot).

Definition fold_promised r (old : MatchmakerSet) (bootstrap : PendingBootstrap) (decree : SuccessorDecree)
  (from : MatchmakerId) (ballot : Ballot) (vote : option (Ballot * list MatchmakerId))
  : run (Reconfigurer * ReconfigurerStep) :=
  '(decree, fold) ← on_promise decree from vote;
  let r := with_phase r (RDeciding old bootstrap decree) in
  match fold with
  | DIgnored => mret (r, TIgnored)
  | DCounted remaining => mret (r, TPromised remaining)
  | DQuorum members =>
      let adopted := adopted_prior_vote decree in
      rassert (decree_value decree = Some members) "the decree proposes the selected value";;
      rassert (d_ballot decree = ballot) "the decree proposes at its own ballot";;
      r ← rc_resend r;
      mret (r, TProposing ballot members adopted)
  end.

Definition fold_accept r (old : MatchmakerSet) (bootstrap : PendingBootstrap) (decree : SuccessorDecree)
  (from : MatchmakerId) : run (Reconfigurer * ReconfigurerStep) :=
  '(decree, fold) ← on_accepted decree from;
  let r := with_phase r (RDeciding old bootstrap decree) in
  match fold with
  | AIgnored => mret (r, TIgnored)
  | ACounted remaining => mret (r, TAccepted remaining)
  | AChosen members =>
      next ← generation_next (ms_generation old);
      successor ← set_new next members;
      rassert (ms_generation successor = next) "a chosen successor is the next generation";;
      r ← rc_resend (with_phase r (RPublishing old successor ∅ ∅));
      mret (r, TChosen successor)
  end.

Definition fold_nacked r (old : MatchmakerSet) (bootstrap : PendingBootstrap) (decree : SuccessorDecree)
  (promised : Ballot) : run (Reconfigurer * ReconfigurerStep) :=
  let ballot := d_ballot decree in
  before ← decree_preempted decree;
  decree ← on_nack decree promised;
  let r := with_phase r (RDeciding old bootstrap decree) in
  after ← decree_preempted decree;
  if decide (is_Some before \/ after = None) then mret (r, TIgnored) else mret (r, TPreempted promised ballot).

Definition fold_learned r (old successor : MatchmakerSet) (old_acks new_acks : gset MatchmakerId)
  (from : MatchmakerId) (at_ : MatchmakerGeneration) : run (Reconfigurer * ReconfigurerStep) :=
  in_old ← set_contains old from;
  let counted_old := in_old && bool_decide (from ∉ old_acks) in
  let old_acks := if in_old : bool then {[ from ]} ∪ old_acks else old_acks in
  in_new ← set_contains successor from;
  let learned := in_new && bool_decide (ms_generation successor <= at_) in
  let counted_new := learned && bool_decide (from ∉ new_acks) in
  let new_acks := if learned : bool then {[ from ]} ∪ new_acks else new_acks in
  let r := with_phase r (RPublishing old successor old_acks new_acks) in
  if negb counted_old && negb counted_new then mret (r, TIgnored) else
  (if counted_new then rassert (from ∈ new_acks) "a counted successor member is tallied" else mret tt);;
  old_quorum ← set_has_quorum old old_acks;
  new_quorum ← (if old_quorum : bool then set_has_quorum successor new_acks else mret false);
  if new_quorum : bool then mret (with_no_pending (with_phase r RIdle), TDone successor) else
  old_remaining ← set_remaining old old_acks;
  new_remaining ← set_remaining successor new_acks;
  mret (r, TPublished old_remaining new_remaining).

(** The running phase's reply. *)
Definition fold_phase r (reply : ReconfigureReply) : run (Reconfigurer * ReconfigurerStep) :=
  match rc_phase r with
  | RIdle => mret (r, TIgnored)
  | RStopping old target acks partial decree_floor =>
      match reply with
      | YStopped from generation after next registries successor decree_promised =>
          fold_stopped r old target acks partial decree_floor from generation after next registries successor decree_promised
      | _ => mret (r, TIgnored)
      end
  | RBootstrapping old bootstrap acks held decree_floor =>
      match reply with
      | YBootstrapped from set holds complete => fold_bootstrapped r old bootstrap acks held decree_floor from set holds complete
      | _ => mret (r, TIgnored)
      end
  | RDeciding old bootstrap decree =>
      member ← set_contains old (reply_matchmaker reply);
      if negb member then mret (r, TIgnored) else
      match reply with
      | YPromised from generation ballot vote =>
          if decide (generation <> ms_generation old \/ ballot <> d_ballot decree) then mret (r, TIgnored)
          else fold_promised r old bootstrap decree from ballot vote
      | YAccepted from generation ballot =>
          if decide (generation <> ms_generation old \/ ballot <> d_ballot decree) then mret (r, TIgnored)
          else fold_accept r old bootstrap decree from
      | YNacked _ generation ballot promised =>
          if decide (generation <> ms_generation old \/ ballot <> d_ballot decree) then mret (r, TIgnored)
          else fold_nacked r old bootstrap decree promised
      | _ => mret (r, TIgnored)
      end
  | RPublishing old successor old_acks new_acks =>
      match reply with
      | YLearned from generation _ at_ =>
          if decide (generation <> ms_generation old) then mret (r, TIgnored)
          else fold_learned r old successor old_acks new_acks from at_
      | _ => mret (r, TIgnored)
      end
  end.

Definition fold_reply r (reply : ReconfigureReply) : run (Reconfigurer * ReconfigurerStep) :=
  match reply with
  | YRefused _ current _ successor =>
      old ← rc_old r;
      match old with
      | Some old => fold_refused r old current successor
      | None => fold_phase r reply
      end
  | _ => fold_phase r reply
  end.

Definition is_ignored (step : ReconfigurerStep) : bool := match step with TIgnored => true | _ => false end.
Definition is_over (step : ReconfigurerStep) : bool := match step with TDone _ | TSuperseded _ => true | _ => false end.

(** [MatchmakerReconfigurer::on_reply]. *)
Definition rc_on_reply r (reply : ReconfigureReply) : run (Reconfigurer * ReconfigurerStep) :=
  let elapsed := rc_elapsed r in
  '(r, step) ← fold_reply r reply;
  let r := if is_ignored step then r else with_elapsed r 0 in
  (if is_ignored step then rassert (rc_elapsed r = elapsed) "an ignored reply leaves the stall clock alone" else mret tt);;
  (if is_over step then rassert (rc_is_busy r = false) "a finished or superseded handover is idle" else mret tt);;
  rc_assert_invariants r;;
  mret (r, step).
