(* ===== verification/Reconstruct.v ===== *)
(** * What a reconstruction holds

    [reconstructs] is what the union of the frozen registries has to be, independently of
    the order of the reports: every journal somebody holds, the highest watermark, the
    highest effective configuration, every registration at or above that watermark and
    nothing else.  [reconstruct_ok]: the two passes of [close_stop] build it. *)

From S2P Require Import Prelude BTree Types Retained Contract QuorumSystem AcceptorConfig Rounds Tally Proposer Election Decree MatchmakerSet MatchmakerState Matchmaker MatchmakerInv Generation GenerationInv Reconfigurer.

Record reconstructs (reports : list (JournalId * JournalRegistry)) (registries : gmap JournalId JournalRegistry) : Prop := {
  rx_journals : forall j, is_Some (registries !! j) <-> exists x, (j, x) ∈ reports /\ registry_is_blank x = false;
  rx_covers : forall j R x, registries !! j = Some R -> (j, x) ∈ reports ->
    (jr_watermark x ≤ jr_watermark R)%B /\ ord_le (effective_at (jr_effective x)) (effective_at (jr_effective R)) /\
    forall b, is_Some (jr_history x !! b) -> (jr_watermark R ≤ b)%B -> is_Some (jr_history R !! b);
  rx_history : forall j R b g, registries !! j = Some R -> jr_history R !! b = Some g ->
    (jr_watermark R ≤ b)%B /\ exists x, (j, x) ∈ reports /\ jr_history x !! b = Some g;
  rx_watermark : forall j R, registries !! j = Some R ->
    jr_watermark R = zero \/ exists x, (j, x) ∈ reports /\ jr_watermark x = jr_watermark R;
  rx_effective : forall j R, registries !! j = Some R ->
    jr_effective R = None \/ exists x, (j, x) ∈ reports /\ jr_effective x = jr_effective R;
  rx_blank : forall j R, registries !! j = Some R -> registry_is_blank R = false }.

(** ** The first pass *)

Definition merged_scalars (registries : gmap JournalId JournalRegistry) (e : JournalId * JournalRegistry)
  : gmap JournalId JournalRegistry :=
  let held := default registry_default (registries !! e.1) in
  <[e.1 := mkRegistry (ord_max (jr_watermark held) (jr_watermark e.2)) (jr_history held)
             (max_effective (jr_effective held) (jr_effective e.2))]> registries.

Lemma merge_frozen_ok registries e : merge_frozen registries e = Done (merged_scalars registries e).
Proof.
  unfold merge_frozen, merged_scalars. destruct (jr_effective e.2) as [[b c]|]; [|done].
  destruct (raise_effective_max (jr_effective (default registry_default (registries !! e.1))) b c) as [raised ->]. done.
Qed.

Lemma foldM_pure {A B} (f : B -> A -> run B) (g : B -> A -> B) b (l : list A) :
  (forall b a, f b a = Done (g b a)) -> foldM f b l = Done (foldl g b l).
Proof. intros Hf. revert b. induction l as [|a l IH]; intros b; simpl; [done|]. rewrite Hf. apply IH. Qed.

Record scalars_merged (reports : list (JournalId * JournalRegistry)) (registries : gmap JournalId JournalRegistry) : Prop := {
  sm_journals : forall j, is_Some (registries !! j) <-> exists x, (j, x) ∈ reports;
  sm_covers : forall j R x, registries !! j = Some R -> (j, x) ∈ reports ->
    (jr_watermark x ≤ jr_watermark R)%B /\ ord_le (effective_at (jr_effective x)) (effective_at (jr_effective R));
  sm_history : forall j R, registries !! j = Some R -> jr_history R = ∅;
  sm_watermark : forall j R, registries !! j = Some R ->
    jr_watermark R = zero \/ exists x, (j, x) ∈ reports /\ jr_watermark x = jr_watermark R;
  sm_effective : forall j R, registries !! j = Some R ->
    jr_effective R = None \/ exists x, (j, x) ∈ reports /\ jr_effective x = jr_effective R }.

Lemma merged_scalars_step reports registries j x :
  scalars_merged reports registries -> scalars_merged (reports ++ [(j, x)]) (merged_scalars registries (j, x)).
Proof.
  intros []. unfold merged_scalars. simpl. set (held := default registry_default (registries !! j)).
  assert (jr_history held = ∅ /\
    (jr_watermark held = zero \/ exists y, (j, y) ∈ reports /\ jr_watermark y = jr_watermark held) /\
    (jr_effective held = None \/ exists y, (j, y) ∈ reports /\ jr_effective y = jr_effective held) /\
    forall y, (j, y) ∈ reports -> (jr_watermark y ≤ jr_watermark held)%B /\
      ord_le (effective_at (jr_effective y)) (effective_at (jr_effective held))) as (Hh & Hw & He & Hc).
  { unfold held. destruct (registries !! j) as [R|] eqn:E; simpl; [by eauto 10|]. split_and!; try by left.
    - done.
    - intros y Hy. assert (is_Some (registries !! j)) as [? ?]; [|congruence]. apply sm_journals0. by exists y. }
  assert (forall j' y, (j', y) ∈ reports ++ [(j, x)] <-> (j', y) ∈ reports \/ (j' = j /\ y = x)) as Hin.
  { intros j' y. rewrite elem_of_app, list_elem_of_singleton. naive_solver. }
  split.
  - intros j'. setoid_rewrite Hin. rewrite lookup_insert_is_Some, sm_journals0.
    destruct (decide (j = j')) as [->|]; naive_solver.
  - intros j' R y. rewrite lookup_insert. case_decide as Hj; setoid_rewrite Hin.
    + subst j'. intros [= <-] [Hy|[_ ->]]; simpl.
      * destruct (Hc y Hy) as [Hcw Hce]. destruct (max_effective_ge (jr_effective held) (jr_effective x)) as [H1 _].
        split; [etrans; [exact Hcw|apply ord_max_ge_l]|by etrans].
      * split; [apply ord_max_ge_r|apply max_effective_ge].
    + intros HR [Hy|[-> _]]; [by eapply sm_covers0|done].
  - intros j' R. rewrite lookup_insert. case_decide; [intros [= <-]; done|apply sm_history0].
  - intros j' R. rewrite lookup_insert. setoid_rewrite Hin. case_decide as Hj.
    + subst j'. intros [= <-]; simpl. unfold ord_max. case_decide; [right; exists x; by auto|].
      destruct Hw as [|(y & ? & ?)]; [by left|right; exists y; by auto].
    + intros HR. destruct (sm_watermark0 _ _ HR) as [|(y & ? & ?)]; [by left|right; exists y; by auto].
  - intros j' R. rewrite lookup_insert. setoid_rewrite Hin. case_decide as Hj.
    + subst j'. intros [= <-]; simpl. destruct (max_effective_cases (jr_effective held) (jr_effective x)) as [->| ->].
      * destruct He as [|(y & ? & ?)]; [by left|right; exists y; by auto].
      * right. exists x. by auto.
    + intros HR. destruct (sm_effective0 _ _ HR) as [|(y & ? & ?)]; [by left|right; exists y; by auto].
Qed.

Lemma merge_frozen_all reports :
  exists registries, foldM merge_frozen ∅ reports = Done registries /\ scalars_merged reports registries.
Proof.
  rewrite (foldM_pure _ merged_scalars) by apply merge_frozen_ok. eexists. split; [done|].
  induction reports as [|[j x] reports IH] using rev_ind.
  - simpl. split; try (intros j R; by rewrite lookup_empty).
    intros j. rewrite lookup_empty. split; [by intros []|]. intros [x Hx]. by apply elem_of_nil in Hx.
  - rewrite foldl_snoc. by apply merged_scalars_step.
Qed.

(** ** The second pass *)

Lemma merge_registrations acc (l : list (Ballot * Registration)) :
  let acc' := foldl merge_registration acc l in
  (forall b g, acc.1 !! b = Some g -> acc'.1 !! b = Some g) /\
  (forall b g, acc'.1 !! b = Some g -> acc.1 !! b = Some g \/ (b, g) ∈ l) /\
  (forall b g, (b, g) ∈ l -> is_Some (acc'.1 !! b)).
Proof.
  revert acc. induction l as [|[b0 g0] l IH]; intros acc; simpl.
  { split_and!; [done|by left|]. intros b g Hin. by apply elem_of_nil in Hin. }
  destruct (IH (merge_registration acc (b0, g0))) as (Hkeep & Hfrom & Hall).
  assert (forall b g, acc.1 !! b = Some g -> (merge_registration acc (b0, g0)).1 !! b = Some g) as Hk0.
  { intros b g E. unfold merge_registration. simpl. destruct (acc.1 !! b0) eqn:E0; [case_decide; done|].
    simpl. rewrite lookup_insert_ne; [done|congruence]. }
  assert (forall b g, (merge_registration acc (b0, g0)).1 !! b = Some g -> acc.1 !! b = Some g \/ (b, g) = (b0, g0)) as Hf0.
  { intros b g. unfold merge_registration. simpl. destruct (acc.1 !! b0) eqn:E0; [case_decide; by left|].
    simpl. rewrite lookup_insert_Some. intros [[-> ->]|[_ ?]]; [by right|by left]. }
  split_and!.
  - intros b g E. by apply Hkeep, Hk0.
  - intros b g [E|E]%Hfrom; [|right; by right]. apply Hf0 in E as [?| ->]; [by left|right; left].
  - intros b g [[= -> ->]|Hin]%elem_of_cons; [|by eapply Hall].
    assert (is_Some ((merge_registration acc (b0, g0)).1 !! b0)) as [g E].
    { unfold merge_registration. simpl. destruct (acc.1 !! b0) eqn:E0; [case_decide; by eexists|].
      simpl. rewrite lookup_insert_eq. by eexists. }
    exists g. by apply Hkeep.
Qed.

(** Registrations that agree are never counted as a disagreement. *)
Lemma merge_registrations_agree acc (l : list (Ballot * Registration)) :
  (forall b g h, acc.1 !! b = Some h \/ (b, h) ∈ l -> (b, g) ∈ l -> g = h) -> (foldl merge_registration acc l).2 = acc.2.
Proof.
  revert acc. induction l as [|[b0 g0] l IH]; intros acc Hag; simpl; [done|].
  assert (merge_registration acc (b0, g0) = acc \/ merge_registration acc (b0, g0) = (<[b0 := g0]> acc.1, acc.2)) as Hor.
  { unfold merge_registration. simpl. destruct (acc.1 !! b0) as [h|] eqn:E0; [left|by right].
    rewrite decide_False; [done|]. intros Hne. apply Hne. symmetry. apply (Hag b0); [by left|left]. }
  rewrite IH; [by destruct Hor as [->| ->]|]. intros b g h Hh Hg. apply (Hag b g h); [|by right].
  destruct Hh as [Hh|Hh]; [|right; by right]. destruct Hor as [E|E]; rewrite E in Hh; [by left|]. simpl in Hh.
  apply lookup_insert_Some in Hh as [[-> ->]|[_ ?]]; [right; left|by left].
Qed.

(** One ballot, one registration: what the ledger's write-once rule gives. *)
Definition write_once (reports : list (JournalId * JournalRegistry)) : Prop :=
  forall j x y b g h, (j, x) ∈ reports -> (j, y) ∈ reports ->
    jr_history x !! b = Some g -> jr_history y !! b = Some h -> g = h.

Record histories_merged (reports done_ : list (JournalId * JournalRegistry))
  (scalars registries : gmap JournalId JournalRegistry) : Prop := {
  hm_reports : forall e, e ∈ done_ -> e ∈ reports;
  hm_scalars : forall j, (fun R => (jr_watermark R, jr_effective R)) <$> registries !! j =
    (fun R => (jr_watermark R, jr_effective R)) <$> scalars !! j;
  hm_covers : forall j R x b, registries !! j = Some R -> (j, x) ∈ done_ -> is_Some (jr_history x !! b) ->
    (jr_watermark R ≤ b)%B -> is_Some (jr_history R !! b);
  hm_from : forall j R b g, registries !! j = Some R -> jr_history R !! b = Some g ->
    (jr_watermark R ≤ b)%B /\ exists x, (j, x) ∈ done_ /\ jr_history x !! b = Some g }.

Lemma merge_history_step reports done_ scalars acc j x :
  scalars_merged reports scalars -> (j, x) ∈ reports -> histories_merged reports done_ scalars acc.1 ->
  exists acc', merge_history acc (j, x) = Done acc' /\ histories_merged reports (done_ ++ [(j, x)]) scalars acc'.1 /\
    (write_once reports -> acc'.2 = acc.2).
Proof.
  intros Hs Hx []. unfold merge_history. simpl.
  assert (is_Some (acc.1 !! j)) as [R ER].
  { apply (fmap_is_Some (fun R => (jr_watermark R, jr_effective R))). rewrite hm_scalars0, fmap_is_Some.
    apply (sm_journals _ _ Hs). by exists x. }
  rewrite ER. simpl. rsimpl.
  destruct (merge_registrations (jr_history R, acc.2) (bt_range_from (jr_watermark R) (jr_history x)))
    as (Hkeep & Hfrom & Hall).
  assert (write_once reports ->
    (foldl merge_registration (jr_history R, acc.2) (bt_range_from (jr_watermark R) (jr_history x))).2 = acc.2) as Hdis.
  { intros Hw. rewrite merge_registrations_agree; [done|]. intros b g h Hh [Hg _]%elem_of_bt_range_from.
    destruct Hh as [Hh|[Hh _]%elem_of_bt_range_from]; simpl in Hh; [|congruence].
    destruct (hm_from0 _ _ _ _ ER Hh) as [_ (y & Hy & Ey)]. exact (Hw j x y b g h Hx (hm_reports0 _ Hy) Hg Ey). }
  destruct (foldl _ _ _) as [history disagreements]. simpl in *.
  assert (forall j' y, (j', y) ∈ done_ ++ [(j, x)] <-> (j', y) ∈ done_ \/ (j' = j /\ y = x)) as Hin.
  { intros j' y. rewrite elem_of_app, list_elem_of_singleton. naive_solver. }
  eexists. split; [done|]. split; [|done]. split; simpl.
  - intros [j' y] [?|[-> ->]]%Hin; auto.
  - intros j'. rewrite lookup_insert. case_decide as Hj; [subst j'|by rewrite hm_scalars0].
    by rewrite <-hm_scalars0, ER.
  - intros j' R' y b. rewrite lookup_insert. setoid_rewrite Hin. case_decide as Hj.
    + subst j'. intros [= <-] [Hy|[_ ->]] Hb Hw; simpl in *.
      * destruct (hm_covers0 _ _ _ _ ER Hy Hb Hw) as [g Hg]. exists g. by apply Hkeep.
      * destruct Hb as [g Hb]. apply (Hall b g), elem_of_bt_range_from. done.
    + intros ER' [Hy|[-> _]]; [by eapply hm_covers0|done].
  - intros j' R' b g. rewrite lookup_insert. setoid_rewrite Hin. case_decide as Hj.
    + subst j'. intros [= <-] [Hg|Hg%elem_of_bt_range_from]%Hfrom; simpl in *.
      * destruct (hm_from0 _ _ _ _ ER Hg) as [? (y & ? & ?)]. eauto 10.
      * destruct Hg. eauto 10.
    + intros ER' Hg. destruct (hm_from0 _ _ _ _ ER' Hg) as [? (y & ? & ?)]. eauto 10.
Qed.

Lemma merge_history_all reports scalars :
  scalars_merged reports scalars ->
  exists acc, foldM merge_history (scalars, 0) reports = Done acc /\ histories_merged reports reports scalars acc.1 /\
    (write_once reports -> acc.2 = 0).
Proof.
  intros Hs. assert (forall l done_ acc, (forall e, e ∈ l -> e ∈ reports) -> histories_merged reports done_ scalars acc.1 ->
    exists acc', foldM merge_history acc l = Done acc' /\ histories_merged reports (done_ ++ l) scalars acc'.1 /\
      (write_once reports -> acc'.2 = acc.2)) as Hgen.
  { induction l as [|[j x] l IH]; intros done_ acc Hl Hm; [exists acc; by rewrite app_nil_r|].
    destruct (merge_history_step reports done_ scalars acc j x Hs) as (acc1 & E1 & Hm1 & Hd1); [apply Hl; left|done|].
    simpl. rewrite E1. rsimpl. destruct (IH (done_ ++ [(j, x)]) acc1) as (acc' & E & Hm' & Hd'); [intros; apply Hl; by right|done|].
    exists acc'. split; [done|]. rewrite <-app_assoc in Hm'. split; [done|]. intros Hw. by rewrite Hd', Hd1. }
  apply (Hgen reports [] (scalars, 0)); [done|]. split; simpl; [by intros e ?%elem_of_nil|done|..].
  - intros j R x b _ Hin. by apply elem_of_nil in Hin.
  - intros j R b g E Hb. rewrite (sm_history _ _ Hs j R E), lookup_empty in Hb. done.
Qed.

Lemma blank_iff x : registry_is_blank x = true <-> jr_watermark x = zero /\ jr_history x = ∅ /\ jr_effective x = None.
Proof. unfold registry_is_blank. apply bool_decide_eq_true. Qed.

Lemma not_blank x : registry_is_blank x = false ->
  jr_watermark x <> zero \/ (exists b, is_Some (jr_history x !! b)) \/ is_Some (jr_effective x).
Proof.
  intros Hb. destruct (decide (jr_watermark x = zero)) as [Hw|]; [|by left]. right.
  destruct (decide (jr_history x = ∅)) as [Hh|Hh].
  - right. destruct (jr_effective x) eqn:E; [by eexists|]. by rewrite (proj2 (blank_iff x)) in Hb.
  - left. apply map_choose in Hh as (b & g & Hg). exists b. by eexists.
Qed.

Lemma blank_not x : jr_watermark x <> zero \/ (exists b, is_Some (jr_history x !! b)) \/ is_Some (jr_effective x) ->
  registry_is_blank x = false.
Proof.
  intros Hx. destruct (registry_is_blank x) eqn:E; [|done]. apply blank_iff in E as (E1 & E2 & E3).
  rewrite E2, E3 in Hx. destruct Hx as [?|[[b Hb]|Hs]]; [done| |by destruct Hs].
  rewrite lookup_empty in Hb. by destruct Hb.
Qed.

(** Both passes, blank entries still in. *)
Record frozen_merged (reports : list (JournalId * JournalRegistry)) (registries : gmap JournalId JournalRegistry) : Prop := {
  mg_journals : forall j, is_Some (registries !! j) <-> exists x, (j, x) ∈ reports;
  mg_covers : forall j R x, registries !! j = Some R -> (j, x) ∈ reports ->
    (jr_watermark x ≤ jr_watermark R)%B /\ ord_le (effective_at (jr_effective x)) (effective_at (jr_effective R)) /\
    forall b, is_Some (jr_history x !! b) -> (jr_watermark R ≤ b)%B -> is_Some (jr_history R !! b);
  mg_history : forall j R b g, registries !! j = Some R -> jr_history R !! b = Some g ->
    (jr_watermark R ≤ b)%B /\ exists x, (j, x) ∈ reports /\ jr_history x !! b = Some g;
  mg_watermark : forall j R, registries !! j = Some R ->
    jr_watermark R = zero \/ exists x, (j, x) ∈ reports /\ jr_watermark x = jr_watermark R;
  mg_effective : forall j R, registries !! j = Some R ->
    jr_effective R = None \/ exists x, (j, x) ∈ reports /\ jr_effective x = jr_effective R }.

Lemma frozen_merged_of_passes reports scalars registries :
  scalars_merged reports scalars -> histories_merged reports reports scalars registries -> frozen_merged reports registries.
Proof.
  intros Hs Hm.
  assert (forall j R, registries !! j = Some R -> exists S, scalars !! j = Some S /\
    jr_watermark S = jr_watermark R /\ jr_effective S = jr_effective R) as Hsc.
  { intros j R E. pose proof (hm_scalars _ _ _ _ Hm j) as H. rewrite E in H. symmetry in H.
    simpl in H. apply fmap_Some in H as (S & ES & [= ? ?]). by exists S. }
  split.
  - intros j. rewrite <-(sm_journals _ _ Hs), <-(fmap_is_Some (fun R => (jr_watermark R, jr_effective R))).
    by rewrite (hm_scalars _ _ _ _ Hm), fmap_is_Some.
  - intros j R x E Hx. destruct (Hsc j R E) as (S & ES & Ew & Ee).
    destruct (sm_covers _ _ Hs j S x ES Hx) as [? ?]. rewrite <-Ew at 1. rewrite <-Ee. split_and!; [done..|].
    intros b Hb Hw. by eapply (hm_covers _ _ _ _ Hm).
  - intros j R b g E Hg. exact (hm_from _ _ _ _ Hm j R b g E Hg).
  - intros j R E. destruct (Hsc j R E) as (S & ES & Ew & _). rewrite <-Ew. by apply (sm_watermark _ _ Hs).
  - intros j R E. destruct (Hsc j R E) as (S & ES & _ & Ee). rewrite <-Ee. by apply (sm_effective _ _ Hs).
Qed.

(** A journal that somebody holds anything of is not blank in the union, and conversely. *)
Lemma frozen_merged_blank reports registries j R :
  frozen_merged reports registries -> registries !! j = Some R ->
  registry_is_blank R = false <-> exists x, (j, x) ∈ reports /\ registry_is_blank x = false.
Proof.
  intros Hm E. split.
  - intros [Hb|[[b [g Hb]]|Hb]]%not_blank.
    + destruct (mg_watermark _ _ Hm j R E) as [|(x & Hx & Ex)]; [done|]. exists x. split; [done|]. apply blank_not.
      left. by rewrite Ex.
    + destruct (mg_history _ _ Hm j R b g E Hb) as [_ (x & Hx & Ex)]. exists x. split; [done|]. apply blank_not.
      right; left. exists b. by eexists.
    + destruct (mg_effective _ _ Hm j R E) as [En|(x & Hx & Ex)]; [rewrite En in Hb; by destruct Hb|].
      exists x. split; [done|]. apply blank_not. right; right. by rewrite Ex.
  - intros (x & Hx & Hb). destruct (mg_covers _ _ Hm j R x E Hx) as (Hw & He & Hh). apply blank_not.
    apply not_blank in Hb as [Hb|[[b Hb]|Hb]].
    + left. intros Ez. rewrite Ez in Hw. apply Hb. apply (anti_symm (ballot_le)); [done|apply zero_le].
    + destruct (decide (jr_watermark R ≤ b)%B) as [Hle|Hgt]; [right; left; exists b; by apply Hh|].
      left. intros Ez. apply Hgt. rewrite Ez. apply zero_le.
    + right; right. destruct (jr_effective R) eqn:Er; [by eexists|]. destruct Hb as [e Hb]. by rewrite Hb in He.
Qed.

(** Every reported journal is reconstructed, from all that was reported of it. *)
Lemma reconstruct_ok acks :
  exists registries disagreements, reconstruct acks = Done (registries, disagreements) /\
    reconstructs (frozen_reports acks) registries /\ (write_once (frozen_reports acks) -> disagreements = 0).
Proof.
  unfold reconstruct. set (reports := frozen_reports acks).
  destruct (merge_frozen_all reports) as (scalars & -> & Hs). rsimpl.
  destruct (merge_history_all reports scalars Hs) as ([regs dis] & -> & Hm & Hd). rsimpl.
  apply frozen_merged_of_passes in Hm; [|done]. simpl in Hm. eexists _, dis. split; [done|].
  assert (forall j R, filter (fun e : JournalId * JournalRegistry => registry_is_blank e.2 = false) regs !! j = Some R <->
    regs !! j = Some R /\ registry_is_blank R = false) as Hfil by (intros; apply map_lookup_filter_Some).
  split; [split|exact Hd].
  - intros j. split.
    + intros [R [E Hb]%Hfil]. by apply (frozen_merged_blank _ _ _ _ Hm E).
    + intros (x & Hx & Hb). destruct (proj2 (mg_journals _ _ Hm j)) as [R E]; [by exists x|].
      exists R. apply Hfil. split; [done|]. apply (frozen_merged_blank _ _ _ _ Hm E). by exists x.
  - intros j R x [E _]%Hfil. by apply (mg_covers _ _ Hm).
  - intros j R b g [E _]%Hfil. by apply (mg_history _ _ Hm).
  - intros j R [E _]%Hfil. by apply (mg_watermark _ _ Hm).
  - intros j R [E _]%Hfil. by apply (mg_effective _ _ Hm).
  - by intros j R [_ ?]%Hfil.
Qed.
