(* ===== verification/ReconfigurerInv.v ===== *)
(** * The reconfigurer under its invariant

    [rc_wf] is what a reconfigurer keeps in every phase; under it every operation
    returns, and its lemma says what the operation leaves. *)

From S2P Require Import Prelude BTree Types Retained Contract QuorumSystem AcceptorConfig Rounds Tally Proposer Election Decree MatchmakerSet MatchmakerState Matchmaker MatchmakerInv Generation GenerationInv Reconfigurer Reconstruct.

Implicit Types r : Reconfigurer.

(** ** The invariant *)

(** A membership the constructor takes. *)
Definition members_ok (members : list MatchmakerId) : Prop := members <> [] /\ len (normalize members) + 2 <= usize_max.

Definition set_fits (s : MatchmakerSet) : Prop := set_wf s /\ ms_generation s <= u64_max.
Definition next_of (old : MatchmakerSet) : MatchmakerGeneration := N.min (ms_generation old + 1) u64_max.

Lemma set_members_fit s : set_wf s -> members_ok (ms_members s).
Proof. intros []. split; [done|]. by rewrite normalize_id. Qed.

(** The acceptors of a handover's decree. *)
Definition old_config (old : MatchmakerSet) : AcceptorConfig MatchmakerId := mkConfig (ms_members old) Majority [] 0 0 0.

Lemma old_config_wf old : set_wf old -> config_wf (old_config old).
Proof. intros Hs. split; simpl; [apply Hs|by apply len_pos, Hs|by apply set_width|by left]. Qed.

Lemma successor_decree_ok ballot old proposal :
  set_wf old -> successor_decree ballot old proposal = Done (decree_phase1 ballot (old_config old) proposal ∅ None None).
Proof.
  intros Hs. pose proof (old_config_wf old Hs) as Hwf. unfold successor_decree. rewrite set_members_ok by done. rsimpl.
  unfold config_new. rewrite normalize_id by apply Hs. destruct (config_build_ok (ms_members old) [] Majority) as [-> _];
    [apply Hs|by apply set_width|by apply len_pos, Hs|by left|].
  rsimpl. fold (old_config old). rewrite decree_new_ok by done. rsimpl. cbn [d_acceptors decree_phase1].
  rewrite config_members_ok by done. rsimpl. rassert_by done. rewrite config_quorum_system_ok by done. rsimpl. by rassert_by done.
Qed.

(** A decree of a handover, in either phase: a value that is a membership, votes of
    members only, and preempted only from above. *)
Inductive decree_ok (me : NodeId) (minted : N) (old : MatchmakerSet) : Decree MatchmakerId (list MatchmakerId) -> Prop :=
| decree_ok1 b proposal A held pre :
    node b = me -> round b <= minted -> members_ok proposal -> is_none_or (fun v : Ballot * _ => members_ok v.2) held ->
    is_none_or (fun p => b < p)%B pre -> decree_ok me minted old (decree_phase1 b (old_config old) proposal A held pre)
| decree_ok2 b proposal value votes pre :
    node b = me -> round b <= minted -> members_ok proposal -> members_ok value ->
    (forall m, m ∈ votes -> m ∈ ms_members old) ->
    is_none_or (fun p => b < p)%B pre -> decree_ok me minted old (decree_phase2 b (old_config old) proposal value votes pre).

Lemma unanswered_ok me minted old d :
  set_wf old -> decree_ok me minted old d -> exists l, unanswered d = Done l.
Proof.
  intros Hs Hd. pose proof (old_config_wf old Hs) as Hwf. unfold unanswered.
  assert (forall l, (forall m, m ∈ l -> m ∈ ms_members old) ->
    allM (fun m => config_contains (old_config old) m) l = Done true) as Hall.
  { intros l Hl. rewrite (allM_ok _ (fun m => m ∈ ms_members old)) by (intros; by rewrite config_contains_ok).
    f_equal. apply bool_decide_eq_true_2, Forall_forall. exact Hl. }
  case_decide as Hp; [by eexists|]. unfold unanswered_live. destruct Hd as [b proposal A held pre|b proposal value votes pre].
  - change (rs_by_slot _ !! DECREE_SLOT) with (None : option (Round MatchmakerId (list MatchmakerId))). cbv iota.
    rewrite decree_election. rsimpl. unfold unpromised.
    destruct (targets_ok (phase1_election b (old_config old) A held) None) as (l & -> & _ & Hl);
      [by apply phase1_election_wf|]. rsimpl. rewrite Hall.
    + rsimpl. rewrite rassert_true by done. by eexists.
    + intros m [_ [Hm _]%Hl]%list_elem_of_filter. unfold campaigned in Hm. simpl in Hm.
      destruct Hm as [Hm|Hm]; [done|]. by apply Exists_cons in Hm as [?|?%Exists_nil].
  - change (rs_by_slot _ !! DECREE_SLOT) with (Some (mkRound b value (Colocated votes) None 0 0)).
    cbn [round_accepted_by r_custody rexpect]. rsimpl. cbn [d_acceptors decree_phase2].
    rewrite config_members_ok by done. rsimpl. rewrite Hall.
    + rsimpl. rewrite rassert_true by done. by eexists.
    + by intros m [_ ?]%list_elem_of_filter.
Qed.

Definition bootstrap_fits (old : MatchmakerSet) (b : PendingBootstrap) : Prop :=
  set_wf (bo_set b) /\ ms_generation (bo_set b) = next_of old /\ bo_complete b = true /\
  forall j R, bo_registries b !! j = Some R ->
    registry_is_blank R = false /\ forall x, is_Some (jr_history R !! x) -> (jr_watermark R ≤ x)%B.

Definition phase_ok (me : NodeId) (minted : N) (phase : ReconfigurerPhase) : Prop :=
  match phase with
  | RIdle => True
  | RStopping old target acks partial decree_floor =>
      set_fits old /\ is_none_or members_ok target /\ (forall m, is_Some (acks !! m) -> m ∈ ms_members old) /\
      (forall m, is_Some (partial !! m) -> m ∈ ms_members old /\ acks !! m = None) /\ round decree_floor < u64_max
  | RBootstrapping old bootstrap acks held decree_floor =>
      set_fits old /\ bootstrap_fits old bootstrap /\ (forall m, m ∈ acks -> m ∈ ms_members (bo_set bootstrap)) /\
      (forall m, is_Some (held !! m) -> m ∈ ms_members (bo_set bootstrap) /\ m ∉ acks) /\ round decree_floor < u64_max
  | RDeciding old bootstrap decree =>
      set_fits old /\ bootstrap_fits old bootstrap /\ decree_ok me minted old decree
  | RPublishing old successor old_acks new_acks =>
      set_fits old /\ set_wf successor /\ ms_generation successor = next_of old /\
      (forall m, m ∈ old_acks -> m ∈ ms_members old) /\ (forall m, m ∈ new_acks -> m ∈ ms_members successor)
  end.

Record rc_core r : Prop := {
  rcc_limits : limits_valid (rc_limits r);
  rcc_cut : is_none_or (fun cut => 0 < cut) (rc_cut r);
  rcc_from : Forall (fun e : MatchmakerId * ReconfigureRequest => request_from e.2 = rc_node r) (rc_pending r);
  rcc_round : rc_round r <= u64_max;
  rcc_elapsed : rc_elapsed r <= u64_max;
  rcc_phase : phase_ok (rc_node r) (rc_round r) (rc_phase r) }.

(** An idle reconfigurer holds nothing. *)
Definition rc_wf r : Prop := rc_core r /\ (rc_phase r = RIdle -> rc_pending r = [] /\ rc_elapsed r = 0).

Lemma holds_nothing_below_ok registries :
  (forall j R, registries !! j = Some R -> forall x, is_Some (jr_history R !! x) -> (jr_watermark R ≤ x)%B) ->
  holds_nothing_below registries = true.
Proof.
  intros Hf. unfold holds_nothing_below. apply forallb_forall. intros [j R] Hin%list_elem_of_In%elem_of_bt_entries.
  apply bool_decide_eq_true_2. simpl. apply first_key_ge. intros x Hx. by eapply Hf.
Qed.

Lemma all_members s (l : list MatchmakerId) :
  set_wf s -> (forall m, m ∈ l -> m ∈ ms_members s) -> allM (set_contains s) l = Done true.
Proof.
  intros Hs Hl. rewrite (allM_ok _ (fun m => m ∈ ms_members s)) by (intros; by apply set_contains_ok).
  f_equal. by apply bool_decide_eq_true_2, Forall_forall.
Qed.

Lemma all_members_but s (P : MatchmakerId -> Prop) `{forall m, Decision (P m)} (l : list MatchmakerId) :
  set_wf s -> (forall m, m ∈ l -> m ∈ ms_members s /\ P m) ->
  allM (fun m => member ← set_contains s m; mret (member && bool_decide (P m))) l = Done true.
Proof.
  intros Hs Hl. rewrite (allM_ok _ (fun m => m ∈ ms_members s /\ P m)).
  - f_equal. by apply bool_decide_eq_true_2, Forall_forall.
  - intros m _. rewrite set_contains_ok by done. rsimpl. by rewrite bool_decide_and.
Qed.

Lemma rc_assert_invariants_ok r : rc_wf r -> rc_assert_invariants r = Done tt.
Proof.
  intros [Hc Hi]. pose proof (rcc_phase _ Hc) as Hp. unfold rc_assert_invariants.
  destruct (rc_phase r) as [|old target acks partial floor|old bootstrap acks held floor|old bootstrap decree|old successor oa na];
    simpl in Hp.
  - destruct (Hi eq_refl). rassert_by done. by apply rassert_true.
  - destruct Hp as ([Hs _] & Ht & Ha & Hpa & _).
    rewrite all_members by (done || intros m Hm; by apply Ha, elem_of_bt_keys). rsimpl. rassert_by done.
    rewrite all_members_but by (done || intros m Hm; by apply Hpa, elem_of_bt_keys). rsimpl. rassert_by done.
    apply rassert_true. destruct target; [apply Ht|done].
  - destruct Hp as ([Hs Hg] & (Hbs & Hbg & Hbc & Hbr) & Ha & Hh & _). rassert_by done.
    rewrite all_members_but by (done || intros m Hm; by apply Hh, elem_of_bt_keys). rsimpl. rassert_by done.
    rewrite generation_next_total by done. rsimpl. rassert_by done.
    rewrite all_members by (done || intros m Hm; by apply Ha, elem_of_bs_elements). rsimpl. rassert_by done.
    apply rassert_true, holds_nothing_below_ok. intros j R E. by destruct (Hbr j R E).
  - destruct Hp as ([Hs Hg] & (_ & Hbg & _) & Hd). rewrite generation_next_total by done. rsimpl. rassert_by done.
    destruct Hd; simpl; (rassert_by done); by apply rassert_true.
  - destruct Hp as ([Hs Hg] & Hss & Hsg & Ho & Hn). rewrite generation_next_total by done. rsimpl. rassert_by done.
    rewrite (all_members old) by (done || intros m Hm; by apply Ho, elem_of_bs_elements). rsimpl. rassert_by done.
    rewrite (all_members successor) by (done || intros m Hm; by apply Hn, elem_of_bs_elements). rsimpl. by apply rassert_true.
Qed.

(** ** Re-sends *)

(** What a queued request says of the phase that queues it. *)
Definition phase_asks (phase : ReconfigurerPhase) (request : ReconfigureRequest) : Prop :=
  match request with
  | QStop _ g _ => exists old target acks partial floor,
      phase = RStopping old target acks partial floor /\ g = ms_generation old
  | QBootstrap _ page => exists old bootstrap acks held floor,
      phase = RBootstrapping old bootstrap acks held floor /\ bp_set page = bo_set bootstrap
  | QDecreePrepare _ g b => exists old bootstrap d,
      phase = RDeciding old bootstrap d /\ g = ms_generation old /\ b = d_ballot d /\ decree_value d = None
  | QDecreeAccept _ g b members => exists old bootstrap d,
      phase = RDeciding old bootstrap d /\ g = ms_generation old /\ b = d_ballot d /\ decree_value d = Some members
  | QChosen _ g successor => exists old old_acks new_acks,
      phase = RPublishing old successor old_acks new_acks /\ g = ms_generation old
  end.
Definition asks (me : NodeId) (phase : ReconfigurerPhase) (e : MatchmakerId * ReconfigureRequest) : Prop :=
  request_from e.2 = me /\ phase_asks phase e.2.

(** The page of a bootstrap strictly above a cursor. *)
Definition bootstrap_slice (b : PendingBootstrap) (after : option JournalId) (page : N) : BootstrapPage :=
  let above := filter (fun e => above_cursor after e.1) (bt_entries (bo_registries b)) in
  mkBootstrapPage (bo_set b) after (list_to_map (take (N.to_nat page) above)) (bool_decide (len above <= page)).

Lemma bootstrap_above_sorted (b : PendingBootstrap) after :
  StronglySorted key_lt (filter (fun e : JournalId * JournalRegistry => above_cursor after e.1) (bt_entries (bo_registries b))).
Proof. eapply StronglySorted_sublist; [apply sublist_filter|apply bt_entries_sorted]. Qed.

Lemma bootstrap_page_ok b after page :
  0 < page <= REGISTRY_PAGE -> bo_complete b = true ->
  (forall j R, bo_registries b !! j = Some R -> registry_is_blank R = false) ->
  bootstrap_page b after page = Done (bootstrap_slice b after page).
Proof.
  intros Hp Hc Hb. unfold bootstrap_page. rassert_by lia. rassert_by lia. rassert_by done.
  fold (bootstrap_slice b after page). pose proof (bootstrap_above_sorted b after) as Hs.
  set (above := filter _ _) in Hs.
  assert (StronglySorted key_lt (take (N.to_nat page) above)) as Ht.
  { eapply StronglySorted_sublist; [apply sublist_take|done]. }
  assert (msize (bp_registries (bootstrap_slice b after page)) = N.min page (len above)) as Hsz.
  { unfold bootstrap_slice, msize. simpl. fold above. rewrite size_sorted_list_to_map by done. rewrite length_take.
    unfold len. lia. }
  rassert_by idtac.
  { unfold bootstrap_slice in *. simpl in *. fold above in Hsz. fold above. case_bool_decide; [by left|right]. rewrite Hsz. lia. }
  rassert_by idtac; [|done].
  assert (forall e, e ∈ bt_entries (bp_registries (bootstrap_slice b after page)) -> e ∈ above) as Hin.
  { unfold bootstrap_slice. simpl. fold above. rewrite bt_entries_list_to_map by done.
    intros e He. eapply elem_of_sublist; [exact He|apply sublist_take]. }
  unfold page_is_well_formed. rewrite !andb_true_iff, !bool_decide_eq_true. split_and!.
  - rewrite Hsz. lia.
  - apply Forall_forall. intros j Hj. unfold bt_keys in Hj. apply list_elem_of_fmap in Hj as (e & -> & He).
    apply Hin, list_elem_of_filter in He as [? _]. done.
  - apply forallb_forall. intros [j R] He%list_elem_of_In%Hin. apply list_elem_of_filter in He as [_ He%elem_of_bt_entries].
    simpl. by rewrite (Hb j R He).
  - apply orb_true_iff. destruct (decide (len above <= page)) as [Hl|Hl].
    + left. unfold bootstrap_slice. simpl. fold above. by apply bool_decide_eq_true_2.
    + right. rewrite bool_decide_eq_false_2; [done|]. intros He. rewrite He in Hsz. unfold msize in Hsz.
      rewrite map_size_empty in Hsz. lia.
Qed.

Lemma page_width_ok r : rc_core r -> 0 < page_width r <= registry_page (rc_limits r).
Proof.
  intros Hc. pose proof (rcc_limits _ Hc) as (_ & _ & _ & _ & Hl). pose proof (rcc_cut _ Hc) as Hcut.
  unfold page_width. destruct (rc_cut r); simpl in Hcut; lia.
Qed.

Lemma bootstrap_request_ok r old b after m :
  rc_core r -> bootstrap_fits old b ->
  bootstrap_request r b after (page_width r) m = Done (m, QBootstrap (rc_node r) (bootstrap_slice b after (page_width r))).
Proof.
  intros Hc (_ & _ & Hcomp & Hr). unfold bootstrap_request. pose proof (page_width_ok r Hc).
  pose proof (rcc_limits _ Hc) as (_ & _ & _ & _ & Hl). rewrite bootstrap_page_ok; [done|lia|done|].
  intros j R E. by destruct (Hr j R E).
Qed.

Lemma paged_requests_ok r :
  rc_core r -> exists queue, paged_requests r = Done queue /\ Forall (asks (rc_node r) (rc_phase r)) queue /\
    match rc_phase r with RDeciding _ _ _ => queue = [] | _ => True end.
Proof.
  intros Hc. pose proof (page_width_ok r Hc) as Hw. pose proof (rcc_phase _ Hc) as Hp.
  unfold paged_requests, rc_bootstrap_page. rewrite (rassert_true (0 < _)) by lia. rsimpl.
  rewrite (rassert_true (_ <= _)) by lia. rsimpl.
  destruct (rc_phase r) as [|old target acks partial floor|old bootstrap acks held floor|old bootstrap decree|old successor oa na] eqn:Ep;
    simpl in Hp; try (rsimpl; rewrite rassert_true by constructor; by eexists).
  - destruct Hp as ([Hs _] & _). rewrite set_members_ok by done. rsimpl. rewrite rassert_true.
    + eexists. split; [done|]. split; [|done]. apply Forall_fmap, Forall_true. intros m. split; [done|]. by do 5 eexists.
    + apply Forall_fmap, Forall_forall. intros m [Hm _]%list_elem_of_filter. done.
  - destruct Hp as ([Hs _] & Hb & _). rewrite set_members_ok by apply Hb. rsimpl.
    set (targets := filter _ _). assert (Forall (fun m => m ∉ acks) targets) as Ht
      by (apply Forall_forall; by intros m [? _]%list_elem_of_filter).
    assert (forall l queue, Forall (fun m => m ∉ acks) l -> Forall (fun e : MatchmakerId * ReconfigureRequest =>
       asks (rc_node r) (RBootstrapping old bootstrap acks held floor) e /\ e.1 ∉ acks) queue ->
      exists queue', foldM (fun queue m => request ← bootstrap_request r bootstrap (mjoin (held !! m)) (page_width r) m;
          mret (queue ++ [request])) queue l = Done queue' /\
        Forall (fun e => asks (rc_node r) (RBootstrapping old bootstrap acks held floor) e /\ e.1 ∉ acks) queue') as Hgen.
    { induction l as [|m l IH]; intros queue Hl Hq; [by exists queue|]. apply Forall_cons in Hl as [? ?]. simpl.
      rewrite (bootstrap_request_ok r old) by done. rsimpl. apply IH; [done|]. apply Forall_app. split; [done|].
      apply Forall_singleton. split; [|done]. split; [done|]. by do 5 eexists. }
    destruct (Hgen targets [] Ht) as (queue & -> & Hq); [constructor|]. rsimpl. rewrite rassert_true.
    + eexists. split; [done|]. split; [|done]. eapply Forall_impl; [exact Hq|]. by intros e [? _].
    + eapply Forall_impl; [exact Hq|]. by intros e [_ ?].
Qed.

(** A preempted decree, and only that one, starts over at a new round. *)
Definition reopened (me : NodeId) (minted : N) (old : MatchmakerSet) (b : PendingBootstrap)
  (d : Decree MatchmakerId (list MatchmakerId)) (minted' : N) (d' : Decree MatchmakerId (list MatchmakerId)) : Prop :=
  match d_preempted d with
  | None => d' = d /\ minted' = minted
  | Some promised => minted' = u64_saturating_add (N.max minted (round promised)) 1 /\
      d' = decree_phase1 (mkBallot minted' me) (old_config old) (ms_members (bo_set b)) ∅ None None
  end.

(** What a re-send leaves in place; only a preempted decree moves. *)
Record resent r r' : Prop := {
  rs_node : rc_node r' = rc_node r;
  rs_limits : rc_limits r' = rc_limits r;
  rs_cut : rc_cut r' = rc_cut r;
  rs_elapsed : rc_elapsed r' = rc_elapsed r;
  rs_round : rc_round r <= rc_round r';
  rs_queue : forall e, e ∈ rc_pending r' -> e ∈ rc_pending r \/ phase_asks (rc_phase r') e.2;
  rs_phase : match rc_phase r with
             | RDeciding old b d => exists d', rc_phase r' = RDeciding old b d' /\
                 reopened (rc_node r) (rc_round r) old b d (rc_round r') d'
             | phase => rc_phase r' = phase /\ rc_round r' = rc_round r
             end }.

Lemma decree_requests_ok r old d :
  set_wf old -> decree_ok (rc_node r) (rc_round r) old d ->
  exists queue, decree_requests r old d = Done queue /\ forall b, Forall (asks (rc_node r) (RDeciding old b d)) queue.
Proof.
  intros Hs Hd. unfold decree_requests. destruct (unanswered_ok _ _ _ _ Hs Hd) as [l ->]. rsimpl.
  eexists. split; [done|]. intros b. apply Forall_fmap, Forall_true. intros m. unfold asks. simpl.
  destruct (decree_value d) eqn:Ev; (split; [done|]); by do 3 eexists.
Qed.

Lemma decree_ok_minted me minted minted' old d : minted <= minted' -> decree_ok me minted old d -> decree_ok me minted' old d.
Proof. intros Hle Hd. destruct Hd; constructor; done || lia. Qed.

Lemma decree_preempted_ok me minted old d :
  decree_ok me minted old d -> decree_preempted d = Done (d_preempted d).
Proof.
  intros Hd. unfold decree_preempted. assert (is_none_or (fun p => d_ballot d < p)%B (d_preempted d)) as Hp by by destruct Hd.
  destruct (d_preempted d); [|done]. by rewrite rassert_true.
Qed.

Lemma reopen_ok r old b d :
  rc_round r <= u64_max -> set_wf old -> bootstrap_fits old b -> decree_ok (rc_node r) (rc_round r) old d ->
  exists minted d', reopen r old b d = Done (with_round r minted, d') /\ rc_round r <= minted <= u64_max /\
    decree_ok (rc_node r) minted old d' /\ reopened (rc_node r) (rc_round r) old b d minted d'.
Proof.
  intros Hr Hs Hb Hd. unfold reopen, reopened. rewrite (decree_preempted_ok _ _ _ _ Hd). rsimpl.
  destruct (d_preempted d) as [p|] eqn:Ep.
  - rewrite set_members_ok by apply Hb. rsimpl. rewrite successor_decree_ok by done. rsimpl.
    eexists _, _. split; [done|]. unfold u64_saturating_add. split_and!; [lia|lia| |done|done].
    apply decree_ok1; [done|simpl; lia|by apply set_members_fit, Hb|done..].
  - exists (rc_round r), d. split_and!; try done; try lia. by destruct r.
Qed.

Lemma queued_core r queue :
  rc_core r -> Forall (fun e : MatchmakerId * ReconfigureRequest => request_from e.2 = rc_node r) queue ->
  rc_core (queue_requests r queue).
Proof. intros [] Hq. split; try done. simpl. by apply Forall_app. Qed.

Lemma publish_requests_ok r old successor oa na :
  set_wf old -> set_wf successor -> exists queue, publish_requests r old successor oa na = Done queue /\
    Forall (asks (rc_node r) (RPublishing old successor oa na)) queue.
Proof.
  intros Ho Hn. unfold publish_requests. rewrite !set_members_ok by done. rsimpl.
  eexists. split; [done|]. apply Forall_fmap, Forall_true. intros m. split; [done|]. by do 3 eexists.
Qed.

Lemma phase_requests_ok r queue :
  rc_core r -> Forall (asks (rc_node r) (rc_phase r)) queue ->
  match rc_phase r with RDeciding _ _ _ => queue = [] | _ => True end ->
  exists r1 queue1, phase_requests r queue = Done (r1, queue1) /\ rc_core r1 /\ resent r r1 /\
    rc_pending r1 = rc_pending r /\ Forall (asks (rc_node r) (rc_phase r1)) queue1.
Proof.
  intros Hc Hq Hnil. pose proof (rcc_phase _ Hc) as Hp. unfold phase_requests.
  destruct (rc_phase r) as [|old target acks partial floor|old bootstrap acks held floor|old bootstrap decree|old successor oa na] eqn:Eph;
    simpl in Hp; try (exists r, queue; split_and!; [done..|split; rewrite ?Eph; try done; by left|done|by rewrite Eph]).
  - destruct Hp as ([Hs Hg] & Hb & Hd).
    subst queue.
    destruct (reopen_ok r old bootstrap decree) as (minted & d' & -> & Hm & Hd' & Hsame); [apply Hc|done..|]. rsimpl.
    destruct (decree_requests_ok (with_round r minted) old d' Hs Hd') as (requests & -> & Hreq). rsimpl.
    eexists _, _. split; [done|]. split_and!; [|split; simpl; try done|done|apply Hreq].
    + destruct Hc. by split; simpl; try lia.
    + lia.
    + by left.
    + rewrite Eph. by exists d'.
  - destruct Hp as ([Hs Hg] & Hss & _). destruct (publish_requests_ok r old successor oa na Hs Hss) as (requests & -> & Hreq).
    rsimpl. eexists _, _. split; [done|]. split_and!; [done|split; rewrite ?Eph; try done; by left|done|rewrite Eph; by apply Forall_app].
Qed.

Lemma rc_resend_ok r : rc_core r -> exists r', rc_resend r = Done r' /\ rc_core r' /\ resent r r'.
Proof.
  intros Hc. unfold rc_resend. destruct (paged_requests_ok r Hc) as (queue & -> & Hq & Hnil). rsimpl.
  destruct (phase_requests_ok r queue Hc Hq Hnil) as (r1 & queue1 & -> & Hc1 & Hs & Ep & Hq1).
  rsimpl. destruct Hs as [Hn Hl Hcut Hel Hro _ Hph]. unfold assert_requests_since.
  assert (Forall (fun e : MatchmakerId * ReconfigureRequest => request_from e.2 = rc_node r) queue1) as Hfrom
    by (eapply Forall_impl; [exact Hq1|by intros e []]).
  rewrite (rassert_true (_ <= _)%nat) by (simpl; rewrite Ep, length_app; lia). rsimpl.
  rewrite rassert_true by (simpl; rewrite Ep, drop_app_length, Hn; done). rsimpl.
  eexists. split; [done|]. split; [apply queued_core; [done|by rewrite Hn]|]. split; try done. simpl. rewrite Ep.
  intros e [?|He]%elem_of_app; [by left|right]. rewrite Forall_forall in Hq1. by apply Hq1.
Qed.

(** ** Operations *)

Definition aborted r : Reconfigurer := with_elapsed (with_no_pending (with_phase r RIdle)) 0.

Lemma rc_abort_ok r : rc_abort r = Done (aborted r).
Proof. unfold rc_abort. rassert_by done. by rassert_by done. Qed.

Lemma aborted_core r : rc_core r -> rc_core (aborted r).
Proof. intros []. split; done || apply N.le_0_l || apply Forall_nil_2. Qed.

Lemma phase_core r phase :
  rc_core r -> phase_ok (rc_node r) (rc_round r) phase -> rc_core (with_phase r phase).
Proof. intros [] ?. by split. Qed.
Lemma elapsed_core r elapsed : rc_core r -> elapsed <= u64_max -> rc_core (with_elapsed r elapsed).
Proof. intros [] ?. by split. Qed.
Lemma drained_core r : rc_core r -> rc_core (with_no_pending r).
Proof. intros []. split; done || apply Forall_nil_2. Qed.

Lemma busy_iff r : rc_is_busy r = true <-> rc_phase r <> RIdle.
Proof. unfold rc_is_busy. by destruct (rc_phase r). Qed.

Lemma busy_wf r : rc_core r -> rc_phase r <> RIdle -> rc_wf r.
Proof. intros Hc Hp. split; [done|by intros]. Qed.

(** What every operation keeps: its name, its minted rounds, and requests that are the
    running phase's. *)
Record acts r r' : Prop := {
  ac_node : rc_node r' = rc_node r;
  ac_round : rc_round r <= rc_round r';
  ac_queue : forall e, e ∈ rc_pending r' -> e ∈ rc_pending r \/ phase_asks (rc_phase r') e.2 }.

Lemma acts_refl r : acts r r.
Proof. split; [done|lia|by left]. Qed.
Lemma acts_quiet r r' :
  rc_node r' = rc_node r -> rc_round r <= rc_round r' -> (forall e, e ∈ rc_pending r' -> e ∈ rc_pending r) -> acts r r'.
Proof. intros ? ? Hp. split; [done|done|]. left. by apply Hp. Qed.

(** A change of state that queues nothing, then a re-send. *)
Lemma acts_resent r r0 r' :
  rc_node r0 = rc_node r -> rc_round r <= rc_round r0 -> rc_pending r0 = rc_pending r -> resent r0 r' -> acts r r'.
Proof.
  intros Hn Hr Hp []. split; [congruence|lia|]. intros e He. rewrite <-Hp. by apply rs_queue0.
Qed.

Lemma stopping_ok me minted current target :
  set_fits current -> is_none_or members_ok target -> phase_ok me minted (RStopping current target ∅ ∅ zero).
Proof.
  intros Hs Ht. simpl. split_and!; [done|done|..]; [intros m; rewrite lookup_empty; by intros []..|]. by vm_compute.
Qed.

Lemma begin_stopping_ok r current target :
  rc_core r -> set_fits current -> is_none_or members_ok target ->
  exists r', begin_stopping r current target = Done r' /\ rc_wf r' /\ rc_phase r' = RStopping current target ∅ ∅ zero /\
    acts r r'.
Proof.
  intros Hc Hs Ht. unfold begin_stopping. set (r0 := with_cut _ _).
  assert (rc_core r0) as Hc0 by (destruct Hc; split; done || apply N.le_0_l || by apply stopping_ok).
  destruct (rc_resend_ok r0 Hc0) as (r' & -> & Hc' & Hr). rsimpl. pose proof (rs_phase _ _ Hr) as [Hp _]. simpl in Hp.
  assert (rc_wf r') as Hw by (apply busy_wf; [done|by rewrite Hp]).
  rewrite (rassert_true (_ = true)) by (unfold rc_is_stopping; by rewrite Hp). rsimpl.
  rewrite rc_assert_invariants_ok by done. rsimpl. exists r'. split_and!; try done. by apply (acts_resent r r0).
Qed.

Lemma rc_start_ok r current target :
  rc_wf r -> set_fits current -> len (normalize target) + 2 <= usize_max ->
  exists o, rc_start r current target = Done o /\
    match o with
    | inl r' => rc_is_busy r = false /\ rc_wf r' /\ rc_phase r' = RStopping current (Some (normalize target)) ∅ ∅ zero /\ acts r r'
    | inr RefusedBusy => rc_is_busy r = true
    | inr RefusedEmpty => rc_is_busy r = false /\ target = []
    end.
Proof.
  intros [Hc _] Hs Hlen. unfold rc_start. destruct (rc_is_busy r); [by eexists|].
  case_decide as Hne; [by eexists|]. rewrite generation_next_total by apply Hs. rsimpl.
  destruct (set_new_ok (N.min (ms_generation current + 1) u64_max) target) as [-> Hn]; [done..|]. rsimpl.
  rewrite set_members_ok by done. rsimpl. rewrite rassert_true by apply (swf_nonempty _ Hn). rsimpl. cbn [ms_members].
  destruct (begin_stopping_ok r current (Some (normalize target))) as (r' & -> & Hw & Hp & Hnode); [done..|by apply (set_members_fit _ Hn)|].
  rsimpl. rewrite rassert_true by (unfold rc_is_busy; by rewrite Hp). rsimpl. by eexists.
Qed.

Lemma rc_finish_ok r current :
  rc_wf r -> set_fits current ->
  exists o, rc_finish r current = Done o /\
    match o with
    | inl r' => rc_is_busy r = false /\ rc_wf r' /\ rc_phase r' = RStopping current None ∅ ∅ zero /\ acts r r'
    | inr _ => rc_is_busy r = true
    end.
Proof.
  intros [Hc _] Hs. unfold rc_finish. destruct (rc_is_busy r); [by eexists|].
  destruct (begin_stopping_ok r current None) as (r' & -> & Hw & Hp & Hnode); [done..|]. rsimpl.
  rewrite rassert_true by (unfold rc_is_busy; by rewrite Hp). rsimpl. unfold rc_old, rc_is_busy. rewrite Hp.
  rewrite rassert_true by done. rsimpl. rewrite rassert_true by done. rsimpl. by eexists.
Qed.

Definition ticked r : Reconfigurer :=
  if rc_is_busy r then with_elapsed r (u64_saturating_add (rc_elapsed r) 1) else r.

Lemma rc_tick_ok r : rc_wf r -> rc_tick r = Done (ticked r) /\ rc_wf (ticked r).
Proof.
  intros Hw. pose proof Hw as [Hc _]. pose proof (rcc_elapsed _ Hc). unfold rc_tick. fold (ticked r).
  assert (rc_elapsed r <= rc_elapsed (ticked r) /\ rc_wf (ticked r)) as [Hle Hw'].
  { unfold ticked. destruct (rc_is_busy r) eqn:Eb; [|done]. apply busy_iff in Eb. unfold u64_saturating_add.
    split; [simpl; lia|]. apply busy_wf; [|done]. apply elapsed_core; [done|lia]. }
  rewrite rassert_true by done. rsimpl. by rewrite rc_assert_invariants_ok.
Qed.

Lemma rc_abandon_ok r : rc_wf r ->
  rc_abandon r = Done (if rc_is_busy r then (aborted r, true) else (r, false)).
Proof. intros _. unfold rc_abandon. destruct (rc_is_busy r); [|done]. rewrite rc_abort_ok. rsimpl. by rassert_by done. Qed.

Lemma aborted_wf r : rc_core r -> rc_wf (aborted r).
Proof. intros Hc. split; [by apply aborted_core|done]. Qed.

(** An idle reconfigurer re-sends nothing. *)
Lemma idle_requests_none q : ~ phase_asks RIdle q.
Proof. destruct q; simpl; naive_solver. Qed.

Lemma resend_wf r r' : rc_wf r -> rc_core r' -> resent r r' -> rc_wf r'.
Proof.
  intros [Hc Hi] Hc' Hr. split; [done|]. intros Hidle. pose proof (rs_phase _ _ Hr) as Hp.
  destruct (rc_phase r) eqn:Eph; try (destruct Hp as [Hp _]; congruence); [|by destruct Hp as (? & Hp & _); congruence].
  destruct (Hi eq_refl) as [Hpe Hel]. split; [|by rewrite (rs_elapsed _ _ Hr)].
  destruct (rc_pending r') as [|e l] eqn:E; [done|]. pose proof (rs_queue _ _ Hr e) as Hq. rewrite E, Hpe, Hidle in Hq.
  destruct Hq as [Hq|Hq]; [left|by apply elem_of_nil in Hq|]. by apply idle_requests_none in Hq.
Qed.

Lemma rc_requests_ok r : rc_wf r -> rc_requests r = Done (rc_pending r).
Proof.
  intros [Hc Hi]. unfold rc_requests. rewrite (rassert_true (Forall _ _)) by apply Hc. rsimpl. unfold rc_is_busy.
  destruct (rc_phase r); try done. rewrite rassert_true by by apply Hi. done.
Qed.

(** ** Closing the freeze *)

Lemma elem_of_frozen_reports acks (j : JournalId) (x : JournalRegistry) :
  (j, x) ∈ frozen_reports acks <-> exists m registries, acks !! m = Some registries /\ registries !! j = Some x.
Proof.
  unfold frozen_reports. rewrite list_elem_of_bind. split.
  - intros ([m registries] & Hj & Hm). exists m, registries. by rewrite <-elem_of_bt_entries, <-(elem_of_bt_entries registries).
  - intros (m & registries & Hm & Hj). exists (m, registries). by rewrite !elem_of_bt_entries.
Qed.

(** The set a closed freeze proposes. *)
Definition proposed_members (target : option (list MatchmakerId)) (acks : gmap MatchmakerId Registries) : list MatchmakerId :=
  match target with Some target => target | None => bt_keys acks end.
Definition proposed_set (old : MatchmakerSet) (target : option (list MatchmakerId)) (acks : gmap MatchmakerId Registries) : MatchmakerSet :=
  mkSet (next_of old) (normalize (proposed_members target acks)).

Lemma bt_keys_sorted_members {V} (m : gmap MatchmakerId V) : sorted_members (bt_keys m).
Proof. apply StronglySorted_Sorted, bt_keys_sorted. Qed.

Lemma proposed_set_wf old target acks :
  set_wf old -> is_none_or members_ok target -> (forall m, is_Some (acks !! m) -> m ∈ ms_members old) ->
  set_majority old (dom acks) ->
  set_new (next_of old) (proposed_members target acks) = Done (proposed_set old target acks) /\
  set_wf (proposed_set old target acks).
Proof.
  intros Hs Ht Ha Hq. apply set_new_ok.
  - destruct target as [target|]; simpl; [apply Ht|]. apply set_majority_nonempty in Hq. intros E. apply Hq.
    apply set_eq. intros m. rewrite elem_of_empty, elem_of_dom, <-elem_of_bt_keys, E. by rewrite elem_of_nil.
  - destruct target as [target|]; simpl; [apply Ht|]. rewrite normalize_id by apply bt_keys_sorted_members.
    pose proof (swf_width _ Hs) as Hw. etrans; [|exact Hw]. apply N.add_le_mono_r. unfold len.
    assert (length (bt_keys acks) <= length (ms_members old))%nat; [|lia].
    apply submseteq_length, NoDup_submseteq; [apply NoDup_bt_keys|]. intros m Hm. by apply Ha, elem_of_bt_keys.
Qed.

(** [close_stop]: nothing below a quorum; at one, the union of what was read, paged to
    the proposed set. *)
Lemma close_stop_ok r :
  rc_wf r -> exists r' o, close_stop r = Done (r', o) /\ rc_wf r' /\ acts r r' /\
    match o with
    | None => r' = r
    | Some built => exists old target acks partial floor,
        rc_phase r = RStopping old target acks partial floor /\ set_majority old (dom acks) /\
        rc_phase r' = RBootstrapping old (rb_bootstrap built) ∅ ∅ floor /\
        bo_set (rb_bootstrap built) = proposed_set old target acks /\
        reconstructs (frozen_reports acks) (bo_registries (rb_bootstrap built)) /\
        (write_once (frozen_reports acks) -> rb_disagreements built = 0)
    end.
Proof.
  intros Hw. pose proof Hw as [Hc _]. pose proof (rcc_phase _ Hc) as Hp. unfold close_stop.
  destruct (rc_phase r) as [|old target acks partial floor|old bootstrap acks held floor|old bootstrap decree|old successor oa na] eqn:Ep;
    simpl in Hp; try (eexists _, None; split_and!; [done..|apply acts_refl|done]).
  destruct Hp as ([Hs Hg] & Ht & Ha & Hpa & Hfl). rewrite set_has_quorum_ok by done. rsimpl.
  case_bool_decide as Hq; cbn [negb]; [|eexists _, None; split_and!; [done..|apply acts_refl|done]].
  destruct (reconstruct_ok acks) as (registries & disagreements & -> & Hx & Hd). rsimpl.
  rewrite generation_next_total by done. rsimpl. fold (proposed_members target acks). fold (next_of old).
  destruct (proposed_set_wf old target acks) as [-> Hps]; [done..|]. rsimpl. cbn [bo_registries bo_set].
  assert (forall j R x, registries !! j = Some R -> is_Some (jr_history R !! x) -> (jr_watermark R ≤ x)%B) as Hbelow.
  { intros j R x E [g Hx']. by apply (rx_history _ _ Hx j R x g). }
  rewrite (rassert_true (_ = true)) by (apply holds_nothing_below_ok; intros j R E x; by eapply Hbelow). rsimpl.
  rewrite (rassert_true (Forall _ _)).
  2: { apply Forall_forall. intros [j x] [Hb Hin]%list_elem_of_filter. apply (rx_journals _ _ Hx). by exists x. }
  rsimpl. rewrite rassert_true by done. rsimpl. set (bootstrap := mkBootstrap _ _ _). set (r0 := with_elapsed _ _).
  assert (rc_core r0) as Hc0.
  { apply elapsed_core; [|apply N.le_0_l]. apply phase_core; [done|]. simpl. split_and!; try done.
    - unfold bootstrap_fits. split_and!; try done. intros j R E. split; [by eapply (rx_blank _ _ Hx)|].
      intros x. by eapply Hbelow.
    - intros m. rewrite lookup_empty. by intros []. }
  destruct (rc_resend_ok r0 Hc0) as (r' & -> & Hc' & Hr). rsimpl. pose proof (rs_phase _ _ Hr) as [Hp' _]. simpl in Hp'.
  assert (rc_wf r') as Hw' by (apply busy_wf; [done|by rewrite Hp']). rewrite rc_assert_invariants_ok by done. rsimpl.
  eexists _, _. split; [done|]. split_and!; [done|by apply (acts_resent r r0)|]. by eexists _, _, _, _, _.
Qed.
