(* ===== verification/ReconfigurerFold.v ===== *)
(** * Replies under the invariant

    [reply_moves] is how one reply moves a handover from phase to phase; [on_reply]
    returns, keeps the invariant and moves by it ([rc_on_reply_ok]). *)

From S2P Require Import Prelude BTree Types Retained Contract QuorumSystem AcceptorConfig Rounds Tally Proposer Election Decree MatchmakerSet MatchmakerState Matchmaker MatchmakerInv Generation GenerationInv Reconfigurer Reconstruct ReconfigurerInv.

Implicit Types r : Reconfigurer.

(** ** Replies *)

(** The vote a decree's Phase 1 holds. *)
Definition decree_held (d : Decree MatchmakerId (list MatchmakerId)) : option (Ballot * list MatchmakerId) :=
  p_election (d_proposer d) ≫= (fun e => e_recovered e !! DECREE_SLOT).

(** What a reply brings that the reconfigurer cannot check: rounds that have not run
    out, and votes that are the one value of their ballot. *)
Definition reply_ok (phase : ReconfigurerPhase) (reply : ReconfigureReply) : Prop :=
  match reply with
  | YStopped _ _ _ _ _ _ promised => round promised < u64_max
  | YPromised _ g ballot vote =>
      match phase with
      | RDeciding old _ d => g = ms_generation old -> ballot = d_ballot d ->
          agree (decree_held d) vote /\ is_none_or (fun v : Ballot * _ => members_ok v.2) vote
      | _ => True
      end
  | _ => True
  end.

(** How one reply moves a phase. *)
Inductive reply_moves (me : NodeId) (minted : N)
  : ReconfigurerPhase -> ReconfigureReply -> ReconfigurerPhase -> N -> ReconfigurerStep -> Prop :=
| mv_ignored phase reply : reply_moves me minted phase reply phase minted TIgnored
| mv_superseded phase reply successor : phase <> RIdle -> reply_moves me minted phase reply RIdle minted (TSuperseded successor)
| mv_page old target acks partial floor from after next page promised remaining :
    from ∈ ms_members old -> acks !! from = None -> after = snd <$> partial !! from ->
    report_well_formed after (Some next) page = true ->
    reply_moves me minted (RStopping old target acks partial floor)
      (YStopped from (ms_generation old) after (Some next) page None promised)
      (RStopping old target acks (<[from := (page ∪ default ∅ (fst <$> partial !! from), next)]> (delete from partial))
         (ord_max floor promised)) minted (TStopped remaining)
| mv_whole old target acks partial floor from after page promised remaining :
    from ∈ ms_members old -> acks !! from = None -> after = snd <$> partial !! from ->
    report_well_formed after None page = true ->
    reply_moves me minted (RStopping old target acks partial floor)
      (YStopped from (ms_generation old) after None page None promised)
      (RStopping old target (<[from := page ∪ default ∅ (fst <$> partial !! from)]> acks) (delete from partial)
         (ord_max floor promised)) minted (TStopped remaining)
| mv_bootstrapped old bootstrap acks held floor acks' held' reply remaining :
    (forall m, m ∈ acks' -> m ∈ acks \/ exists holds, reply = YBootstrapped m (bo_set bootstrap) holds true) ->
    reply_moves me minted (RBootstrapping old bootstrap acks held floor) reply
      (RBootstrapping old bootstrap acks' held' floor) minted (TBootstrapped remaining)
| mv_open old bootstrap acks held floor reply minted' :
    (forall m, m ∈ ms_members (bo_set bootstrap) -> m ∈ acks \/ exists holds, reply = YBootstrapped m (bo_set bootstrap) holds true) ->
    minted' = u64_saturating_add (N.max minted (round floor)) 1 ->
    reply_moves me minted (RBootstrapping old bootstrap acks held floor) reply
      (RDeciding old bootstrap (decree_phase1 (mkBallot minted' me) (old_config old) (ms_members (bo_set bootstrap)) ∅ None None))
      minted' (TDeciding (mkBallot minted' me))
| mv_promised old bootstrap d from vote d' fold step :
    from ∈ ms_members old -> on_promise d from vote = Done (d', fold) -> is_over step = false ->
    reply_moves me minted (RDeciding old bootstrap d) (YPromised from (ms_generation old) (d_ballot d) vote)
      (RDeciding old bootstrap d') minted step
| mv_accepted old bootstrap d from d' fold step :
    from ∈ ms_members old -> on_accepted d from = Done (d', fold) -> is_over step = false ->
    match fold with AChosen _ => False | _ => True end ->
    reply_moves me minted (RDeciding old bootstrap d) (YAccepted from (ms_generation old) (d_ballot d))
      (RDeciding old bootstrap d') minted step
| mv_chosen old bootstrap d from d' members :
    from ∈ ms_members old -> on_accepted d from = Done (d', AChosen members) ->
    reply_moves me minted (RDeciding old bootstrap d) (YAccepted from (ms_generation old) (d_ballot d))
      (RPublishing old (mkSet (next_of old) (normalize members)) ∅ ∅) minted
      (TChosen (mkSet (next_of old) (normalize members)))
| mv_nacked old bootstrap d from promised d' step :
    on_nack d promised = Done d' -> is_over step = false ->
    reply_moves me minted (RDeciding old bootstrap d) (YNacked from (ms_generation old) (d_ballot d) promised)
      (RDeciding old bootstrap d') minted step
| mv_learned old successor old_acks new_acks old_acks' new_acks' reply step :
    is_over step = false ->
    reply_moves me minted (RPublishing old successor old_acks new_acks) reply
      (RPublishing old successor old_acks' new_acks') minted step
| mv_done old successor old_acks new_acks old_acks' new_acks' reply :
    set_majority old old_acks' -> set_majority successor new_acks' ->
    reply_moves me minted (RPublishing old successor old_acks new_acks) reply RIdle minted (TDone successor).

Record folds r (reply : ReconfigureReply) r' (step : ReconfigurerStep) : Prop := {
  fo_core : rc_core r';
  fo_acts : acts r r';
  fo_elapsed : is_ignored step = true -> rc_elapsed r' = rc_elapsed r;
  fo_idle : rc_phase r' = RIdle -> rc_pending r' = [];
  fo_moves : reply_moves (rc_node r) (rc_round r) (rc_phase r) reply (rc_phase r') (rc_round r') step }.

Definition fold_returns r reply (c : run (Reconfigurer * ReconfigurerStep)) : Prop :=
  exists r' step, c = Done (r', step) /\ folds r reply r' step.

Lemma ignored_returns r reply : rc_wf r -> fold_returns r reply (mret (r, TIgnored)).
Proof.
  intros [Hc Hi]. eexists _, _. split; [done|]. split; try done; [apply acts_refl|by apply Hi|constructor].
Qed.

Lemma superseded_returns r reply s :
  rc_wf r -> rc_phase r <> RIdle -> fold_returns r reply (r ← rc_abort r; mret (r, TSuperseded s)).
Proof.
  intros [Hc _] Hp. rewrite rc_abort_ok. rsimpl. eexists _, _. split; [done|].
  split; try done; [by apply aborted_core|apply acts_quiet; simpl; [done|lia|by intros e ?%elem_of_nil]|by constructor].
Qed.

Lemma fold_refused_ok r reply old current successor :
  rc_wf r -> rc_phase r <> RIdle -> fold_returns r reply (fold_refused r old current successor).
Proof.
  intros Hw Hp. unfold fold_refused. case_decide; [by apply superseded_returns|].
  case_decide; [|by apply ignored_returns]. destruct successor; [by apply superseded_returns|by apply ignored_returns].
Qed.

(** A change of phase alone. *)
Lemma moved_returns r reply phase step :
  rc_core r -> phase_ok (rc_node r) (rc_round r) phase -> phase <> RIdle ->
  reply_moves (rc_node r) (rc_round r) (rc_phase r) reply phase (rc_round r) step ->
  fold_returns r reply (mret (with_phase r phase, step)).
Proof.
  intros Hc Hp Hi Hm. eexists _, _. split; [done|].
  split; try done; [by apply phase_core|apply acts_quiet; simpl; [done|lia|done]].
Qed.

(** A change of phase and rounds, then a re-send. *)
Lemma resent_returns r reply minted phase step :
  rc_core r -> rc_round r <= minted <= u64_max -> phase_ok (rc_node r) minted phase ->
  match phase with RIdle => False | RDeciding _ _ d => d_preempted d = None | _ => True end ->
  is_ignored step = false ->
  reply_moves (rc_node r) (rc_round r) (rc_phase r) reply phase minted step ->
  fold_returns r reply (r ← rc_resend (with_phase (with_round r minted) phase); mret (r, step)).
Proof.
  intros Hc Hm Hp Hph Hstep Hmv. set (r0 := with_phase _ _).
  assert (rc_core r0) as Hc0 by (destruct Hc; by split; simpl; try lia).
  destruct (rc_resend_ok r0 Hc0) as (r' & -> & Hc' & Hr). rsimpl. eexists _, _. split; [done|].
  assert (rc_phase r' = phase /\ rc_round r' = minted) as [Ep Er].
  { pose proof (rs_phase _ _ Hr) as Hp'. unfold r0 in Hp'. simpl in Hp'. destruct phase; try done.
    destruct Hp' as (d' & -> & Hre). unfold reopened in Hre. rewrite Hph in Hre. by destruct Hre as [-> ->]. }
  split; [done|apply (acts_resent r r0); [done|simpl; lia|done..]|by rewrite Hstep|by rewrite Ep; destruct phase|].
  by rewrite Ep, Er.
Qed.

Section stopping.
Context (r : Reconfigurer) (old : MatchmakerSet) (target : option (list MatchmakerId)) (acks : gmap MatchmakerId Registries)
  (partial : gmap MatchmakerId (Registries * JournalId)) (decree_floor : Ballot).
Context (Hw : rc_wf r) (Hph : rc_phase r = RStopping old target acks partial decree_floor).

Lemma stopping_phase : phase_ok (rc_node r) (rc_round r) (RStopping old target acks partial decree_floor).
Proof using Hw Hph. rewrite <-Hph. apply Hw. Qed.

Lemma floor_raised promised : round promised < u64_max -> round (ord_max decree_floor promised) < u64_max.
Proof using Hw Hph.
  intros Hp. destruct stopping_phase as (_ & _ & _ & _ & Hfl). unfold ord_max. by case_decide.
Qed.

Lemma page_counted_ok from report next promised :
  from ∈ ms_members old -> acks !! from = None -> round promised < u64_max ->
  phase_ok (rc_node r) (rc_round r)
    (RStopping old target acks (<[from := (report, next)]> (delete from partial)) (ord_max decree_floor promised)).
Proof using Hw Hph.
  intros Hin Hna Hp. pose proof (floor_raised promised Hp). destruct stopping_phase as (Hs & Ht & Ha & Hpa & _).
  simpl. split_and!; try done. intros m. rewrite lookup_insert_is_Some', lookup_delete_is_Some.
  intros [<-|[_ ?]]; [done|by apply Hpa].
Qed.

Lemma whole_counted_ok from report promised :
  from ∈ ms_members old -> round promised < u64_max ->
  phase_ok (rc_node r) (rc_round r)
    (RStopping old target (<[from := report]> acks) (delete from partial) (ord_max decree_floor promised)).
Proof using Hw Hph.
  intros Hin Hp. pose proof (floor_raised promised Hp). destruct stopping_phase as (Hs & Ht & Ha & Hpa & _).
  simpl. split_and!; try done.
  - intros m. rewrite lookup_insert_is_Some'. intros [<-|?]; [done|by apply Ha].
  - intros m. rewrite lookup_delete_is_Some. intros [Hne Hm]. rewrite lookup_insert_ne by done. by apply Hpa.
Qed.

Lemma fold_stopped_ok from generation after next page successor promised :
  round promised < u64_max ->
  fold_returns r (YStopped from generation after next page successor promised)
    (fold_stopped r old target acks partial decree_floor from generation after next page successor promised).
Proof using Hw Hph.
  intros Hp. destruct stopping_phase as ([Hs Hg] & Ht & Ha & Hpa & Hfl). pose proof Hw as [Hc _]. unfold fold_stopped.
  case_decide as Egen; [by apply ignored_returns|]. subst generation.
  rewrite set_contains_ok by done. rsimpl. case_bool_decide as Hin; cbn [negb]; [|by apply ignored_returns].
  destruct successor as [s|]; [apply superseded_returns; [done|by rewrite Hph]|].
  case_decide as Hack; [by apply ignored_returns|]. apply eq_None_not_Some in Hack.
  destruct (bool_decide _ || _) eqn:Ecut; [by apply ignored_returns|].
  apply orb_false_iff in Ecut as [Eafter%bool_decide_eq_false Ewf%negb_false_iff]. apply dec_stable in Eafter.
  destruct next as [next|].
  - assert (0 < msize page) as Hsz.
    { unfold report_well_formed in Ewf. rewrite !andb_true_iff, !bool_decide_eq_true in Ewf. destruct Ewf as [_ El].
      simpl in El. apply last_key_of_Some in El as [[x Ex] _]. unfold msize.
      destruct (size page) eqn:Esz; [|lia]. apply map_size_empty_iff in Esz. by rewrite Esz, lookup_empty in Ex. }
    rewrite rassert_true by done. rsimpl. rewrite set_quorum_size_ok by done. rsimpl. eexists _, _. split; [done|].
    split; try done.
    + apply queued_core; [|by apply Forall_singleton]. apply phase_core; [|by apply page_counted_ok].
      destruct Hc. split; try done. simpl. destruct (rc_cut r) as [cut|]; simpl in *; lia.
    + split; simpl; [done|lia|]. intros e [?|He%list_elem_of_singleton]%elem_of_app; [by left|right]. subst e. simpl. by do 5 eexists.
    + simpl. rewrite Hph. by constructor.
  - rewrite (rassert_true (is_Some _)) by (rewrite lookup_insert_eq; by eexists). rsimpl. rewrite rassert_true by apply ord_max_ge_r. rsimpl.
    rewrite set_quorum_size_ok by done. rsimpl. apply moved_returns; [done|by apply whole_counted_ok|done|].
    rewrite Hph. by constructor.
Qed.
End stopping.

Lemma acks_width s (acks : gset MatchmakerId) :
  (forall m, m ∈ acks -> m ∈ ms_members s) -> ssize acks <= len (ms_members s).
Proof.
  intros Ha. unfold ssize, len, size, set_size. simpl. assert (length (elements acks) <= length (ms_members s))%nat; [|lia].
  apply submseteq_length, NoDup_submseteq; [apply NoDup_elements|]. intros m Hm. by apply Ha, elem_of_elements.
Qed.

Lemma acks_all s (acks : gset MatchmakerId) :
  set_wf s -> (forall m, m ∈ acks -> m ∈ ms_members s) -> len (ms_members s) <= ssize acks ->
  forall m, m ∈ ms_members s -> m ∈ acks.
Proof.
  intros Hs Ha Hle m Hm. apply elem_of_elements.
  assert (elements acks ≡ₚ ms_members s) as Hp; [|by rewrite Hp].
  apply submseteq_length_Permutation.
  - apply NoDup_submseteq; [apply NoDup_elements|]. intros x Hx. by apply Ha, elem_of_elements.
  - unfold ssize, len, size, set_size in Hle. simpl in Hle. lia.
Qed.

Section bootstrapping.
Context (r : Reconfigurer) (old : MatchmakerSet) (bootstrap : PendingBootstrap) (acks : gset MatchmakerId)
  (held : gmap MatchmakerId (option JournalId)) (decree_floor : Ballot).
Context (Hw : rc_wf r) (Hph : rc_phase r = RBootstrapping old bootstrap acks held decree_floor).

Lemma bootstrapping_phase : phase_ok (rc_node r) (rc_round r) (RBootstrapping old bootstrap acks held decree_floor).
Proof using Hw Hph. rewrite <-Hph. apply Hw. Qed.

(** A member that is not whole yet is sent the next page. *)
Lemma fold_bootstrap_page_ok from holds :
  from ∈ ms_members (bo_set bootstrap) -> (from ∉ acks) ->
  fold_returns r (YBootstrapped from (bo_set bootstrap) holds false)
    (request ← bootstrap_request r bootstrap holds (page_width r) from;
     members ← set_members (bo_set bootstrap);
     remaining ← usize_sub (len members) (ssize acks);
     mret (queue_requests (with_phase r (RBootstrapping old bootstrap acks (<[from := holds]> held) decree_floor)) [request],
           TBootstrapped remaining)).
Proof using Hw Hph.
  intros Hin Hna. destruct bootstrapping_phase as (Hs & Hb & Ha & Hh & Hfl). pose proof Hw as [Hc _].
  rewrite (bootstrap_request_ok r old) by done. rsimpl. rewrite set_members_ok by apply Hb. rsimpl.
  unfold usize_sub. rewrite decide_True by by apply acks_width. rsimpl. eexists _, _. split; [done|]. split; try done.
  - apply queued_core; [|by apply Forall_singleton]. apply phase_core; [done|]. simpl. split_and!; try done.
    intros m. rewrite lookup_insert_is_Some'. intros [<-|?]; [done|by apply Hh].
  - split; simpl; [done|lia|]. intros e [?|He%list_elem_of_singleton]%elem_of_app; [by left|right]. subst e. simpl. by do 5 eexists.
  - simpl. rewrite Hph. constructor. by left.
Qed.

(** The last member's acknowledgement opens the decree. *)
Lemma fold_open_ok reply :
  (forall m, m ∈ ms_members (bo_set bootstrap) -> m ∈ acks \/ exists holds, reply = YBootstrapped m (bo_set bootstrap) holds true) ->
  fold_returns r reply
    (let r := with_round r (u64_saturating_add (N.max (rc_round r) (round decree_floor)) 1) in
     let ballot := mkBallot (rc_round r) (rc_node r) in
     rassert (round decree_floor < round ballot) "a decree opens above the stop quorum's promises";;
     rassert (node ballot = rc_node r) "a decree runs at this node's ballot";;
     members ← set_members (bo_set bootstrap);
     decree ← successor_decree ballot old members;
     r ← rc_resend (with_phase r (RDeciding old bootstrap decree));
     mret (r, TDeciding ballot)).
Proof using Hw Hph.
  intros Hall. destruct bootstrapping_phase as ([Hs Hg] & Hb & Ha & Hh & Hfl). pose proof Hw as [Hc _].
  pose proof (rcc_round _ Hc). cbn zeta. set (minted := u64_saturating_add _ 1).
  assert (rc_round r <= minted <= u64_max /\ round decree_floor < minted) as [Hm Hlt] by (unfold minted, u64_saturating_add; lia).
  rewrite (rassert_true (_ < _)) by done. rsimpl. rewrite (rassert_true (_ = _)) by done. rsimpl.
  rewrite set_members_ok by apply Hb. rsimpl. rewrite successor_decree_ok by done. rsimpl.
  apply resent_returns; [done|done| |done|done|].
  - simpl. split; [done|]. split; [done|]. apply decree_ok1; [done|simpl; lia|by apply set_members_fit, Hb|done..].
  - rewrite Hph. by constructor.
Qed.

Lemma fold_bootstrapped_ok from set holds complete :
  fold_returns r (YBootstrapped from set holds complete)
    (fold_bootstrapped r old bootstrap acks held decree_floor from set holds complete).
Proof using Hw Hph.
  destruct bootstrapping_phase as (Hs & Hb & Ha & Hh & Hfl). pose proof Hw as [Hc _]. unfold fold_bootstrapped.
  case_decide as Eset; [by apply ignored_returns|]. subst set. rewrite set_contains_ok by apply Hb. rsimpl.
  case_bool_decide as Hin; cbn [negb orb]; [|by apply ignored_returns].
  case_bool_decide as Hack; [by apply ignored_returns|]. destruct complete; cbn [negb].
  2: { case_decide; [by apply ignored_returns|]. by apply fold_bootstrap_page_ok. }
  assert (forall m, m ∈ {[ from ]} ∪ acks -> m ∈ ms_members (bo_set bootstrap)) as Ha' by set_solver.
  assert (forall m, m ∈ {[ from ]} ∪ acks -> m ∈ acks \/
    exists h, YBootstrapped from (bo_set bootstrap) holds true = YBootstrapped m (bo_set bootstrap) h true) as Hack'.
  { intros m [->%elem_of_singleton|?]%elem_of_union; [right; by eexists|by left]. }
  rewrite set_members_ok at 1 by apply Hb. rsimpl. rewrite (rassert_true (_ <= _)) by by apply acks_width. rsimpl.
  unfold usize_sub. rewrite decide_True by by apply acks_width. rsimpl. case_decide as Hrem.
  - apply moved_returns; [done| |done|rewrite Hph; by constructor]. simpl. split_and!; try done. intros m.
    rewrite lookup_delete_is_Some. intros [Hne Hm]. destruct (Hh m Hm). split; [done|set_solver].
  - apply fold_open_ok. intros m Hm. apply Hack', (acks_all (bo_set bootstrap)); [apply Hb|done|lia|done].
Qed.
End bootstrapping.

(** ** The decree's folds *)

Lemma decree_held_phase1 b acceptors proposal A held pre :
  decree_held (decree_phase1 b acceptors proposal A held pre) = held.
Proof. unfold decree_held. simpl. apply lookup_vote_map. Qed.

Lemma best_members held vote :
  is_none_or (fun v : Ballot * list MatchmakerId => members_ok v.2) held ->
  is_none_or (fun v : Ballot * list MatchmakerId => members_ok v.2) vote ->
  is_none_or (fun v : Ballot * list MatchmakerId => members_ok v.2) (best held vote).
Proof.
  intros Hh Hv. destruct (best held vote) as [v|] eqn:E; [|done]. apply best_some in E as [->|E]; [done|]. by rewrite E in Hv.
Qed.

Section deciding.
Context (me : NodeId) (minted : N) (old : MatchmakerSet) (Hs : set_wf old).

Lemma decree_promise_ok d from vote :
  decree_ok me minted old d -> from ∈ ms_members old -> agree (decree_held d) vote ->
  is_none_or (fun v : Ballot * list MatchmakerId => members_ok v.2) vote ->
  exists d' fold, on_promise d from vote = Done (d', fold) /\ decree_ok me minted old d' /\ d_ballot d' = d_ballot d /\
    match fold with DQuorum v => decree_value d' = Some v /\ d_preempted d' = None | _ => True end.
Proof using Hs.
  intros Hd Hin Hag Hv. pose proof (old_config_wf old Hs) as Hwf.
  destruct Hd as [b proposal A held pre Hn Hr Hp Hh Hpre|b proposal value votes pre Hn Hr Hp Hval Hvo Hpre].
  2: { eexists _, _. split; [by apply on_promise_phase2|]. split_and!; [by apply decree_ok2|done..]. }
  rewrite decree_held_phase1 in Hag. destruct (decide (is_Some pre \/ from ∈ A)) as [Hig|Hcount].
  { eexists _, _. split; [by apply on_promise_ignored; [done|right|done]|]. split_and!; [by apply decree_ok1|done..]. }
  destruct pre as [?|]; [destruct Hcount; left; by eexists|].
  rewrite (on_promise_ok b (old_config old) proposal) by (done || tauto). cbv zeta.
  pose proof (best_members held vote Hh Hv) as Hbest.
  case_decide; (eexists _, _; split; [done|]); (split_and!; [|done..]).
  - apply decree_ok2; try done. unfold selected. by destruct (best held vote) as [[? ?]|].
  - by apply decree_ok1.
Qed.

Lemma decree_accepted_ok d from :
  decree_ok me minted old d -> from ∈ ms_members old ->
  exists d' fold, on_accepted d from = Done (d', fold) /\ decree_ok me minted old d' /\
    match fold with AChosen v => members_ok v | _ => True end.
Proof using Hs.
  intros Hd Hin. pose proof (old_config_wf old Hs) as Hwf.
  destruct Hd as [b proposal A held pre Hn Hr Hp Hh Hpre|b proposal value votes pre Hn Hr Hp Hval Hvo Hpre].
  { eexists _, _. split; [by apply on_accepted_phase1|]. split; [by apply decree_ok1|done]. }
  destruct (decide (is_Some pre \/ from ∈ votes)) as [Hig|Hcount].
  { eexists _, _. split; [by apply on_accepted_ignored; [done|right]|]. split; [by apply decree_ok2|done]. }
  destruct pre as [?|]; [destruct Hcount; left; by eexists|].
  rewrite (on_accepted_ok b (old_config old) proposal) by (done || tauto). eexists _, _. split; [done|]. split.
  - apply decree_ok2; try done. intros m [->%elem_of_singleton|?]%elem_of_union; [done|by apply Hvo].
  - by case_decide.
Qed.

Lemma decree_nack_ok d promised :
  decree_ok me minted old d -> exists d', on_nack d promised = Done d' /\ decree_ok me minted old d'.
Proof using.
  intros Hd. eexists. split; [by apply (on_nack_ok (d_ballot d))|].
  assert (forall b pre, is_none_or (fun p => b < p)%B pre -> is_none_or (fun p => b < p)%B (raised b pre promised)) as Hr.
  { intros b pre Hpre. unfold raised. case_decide as Hle; [done|]. apply ord_not_le in Hle. simpl.
    destruct pre as [held|]; [|done]. simpl in *. unfold ord_max. by case_decide. }
  destruct Hd; simpl; [apply decree_ok1|apply decree_ok2]; auto.
Qed.
End deciding.

Section deciding_folds.
Context (r : Reconfigurer) (old : MatchmakerSet) (bootstrap : PendingBootstrap) (d : Decree MatchmakerId (list MatchmakerId)).
Context (Hw : rc_wf r) (Hph : rc_phase r = RDeciding old bootstrap d).

Lemma deciding_phase : phase_ok (rc_node r) (rc_round r) (RDeciding old bootstrap d).
Proof using Hw Hph. rewrite <-Hph. apply Hw. Qed.

Lemma fold_promised_ok from vote :
  from ∈ ms_members old -> agree (decree_held d) vote -> is_none_or (fun v : Ballot * list MatchmakerId => members_ok v.2) vote ->
  fold_returns r (YPromised from (ms_generation old) (d_ballot d) vote)
    (fold_promised r old bootstrap d from (d_ballot d) vote).
Proof using Hw Hph.
  intros Hin Hag Hv. destruct deciding_phase as ([Hs Hg] & Hb & Hd). pose proof Hw as [Hc _]. unfold fold_promised.
  destruct (decree_promise_ok _ _ _ Hs d from vote Hd Hin Hag Hv) as (d' & fold & E & Hd' & Hbal & Hfold). rewrite E. rsimpl.
  destruct fold as [|remaining|members].
  - apply moved_returns; [done..|]. rewrite Hph. by eapply mv_promised.
  - apply moved_returns; [done..|]. rewrite Hph. by eapply mv_promised.
  - destruct Hfold as [Hval Hpre]. rewrite (rassert_true (_ = Some _)) by done. rsimpl. rewrite (rassert_true (_ = _)) by done. rsimpl.
    assert (with_phase r (RDeciding old bootstrap d') = with_phase (with_round r (rc_round r)) (RDeciding old bootstrap d')) as -> by done.
    apply resent_returns; [done|split; [lia|apply Hc]|done..|]. rewrite Hph. by eapply mv_promised.
Qed.

Lemma fold_accept_ok from :
  from ∈ ms_members old ->
  fold_returns r (YAccepted from (ms_generation old) (d_ballot d)) (fold_accept r old bootstrap d from).
Proof using Hw Hph.
  intros Hin. destruct deciding_phase as ([Hs Hg] & Hb & Hd). pose proof Hw as [Hc _]. unfold fold_accept.
  destruct (decree_accepted_ok _ _ _ Hs d from Hd Hin) as (d' & fold & E & Hd' & Hfold). rewrite E. rsimpl.
  destruct fold as [|remaining|members].
  - apply moved_returns; [done..|]. rewrite Hph. by eapply mv_accepted.
  - apply moved_returns; [done..|]. rewrite Hph. by eapply mv_accepted.
  - rewrite generation_next_total by done. rsimpl. fold (next_of old).
    destruct (set_new_ok (next_of old) members) as [-> Hsu]; [apply Hfold..|]. rsimpl. rewrite rassert_true by done. rsimpl.
    set (phase := RPublishing _ _ _ _).
    assert (with_phase (with_phase r (RDeciding old bootstrap d')) phase = with_phase (with_round r (rc_round r)) phase) as -> by done.
    apply resent_returns; [done|split; [lia|apply Hc]| |done|done|rewrite Hph; by eapply mv_chosen].
    simpl. split_and!; try done; by intros m ?%elem_of_empty.
Qed.

Lemma fold_nacked_ok from promised :
  fold_returns r (YNacked from (ms_generation old) (d_ballot d) promised) (fold_nacked r old bootstrap d promised).
Proof using Hw Hph.
  destruct deciding_phase as ([Hs Hg] & Hb & Hd). pose proof Hw as [Hc _]. unfold fold_nacked.
  rewrite (decree_preempted_ok _ _ _ _ Hd). rsimpl. destruct (decree_nack_ok _ _ _ d promised Hd) as (d' & E & Hd'). rewrite E. rsimpl.
  rewrite (decree_preempted_ok _ _ _ _ Hd'). rsimpl.
  case_decide; (apply moved_returns; [done..|rewrite Hph; by eapply mv_nacked]).
Qed.
End deciding_folds.

Section publishing.
Context (r : Reconfigurer) (old successor : MatchmakerSet) (old_acks new_acks : gset MatchmakerId).
Context (Hw : rc_wf r) (Hph : rc_phase r = RPublishing old successor old_acks new_acks).

Lemma publishing_phase : phase_ok (rc_node r) (rc_round r) (RPublishing old successor old_acks new_acks).
Proof using Hw Hph. rewrite <-Hph. apply Hw. Qed.

(** The tail of a publication's fold, over the tallies it leaves. *)
Lemma fold_published_ok reply (oa na : gset MatchmakerId) :
  phase_ok (rc_node r) (rc_round r) (RPublishing old successor oa na) ->
  fold_returns r reply
    (let r := with_phase r (RPublishing old successor oa na) in
     old_quorum ← set_has_quorum old oa;
     new_quorum ← (if old_quorum : bool then set_has_quorum successor na else mret false);
     if new_quorum : bool then mret (with_no_pending (with_phase r RIdle), TDone successor) else
     old_remaining ← set_remaining old oa;
     new_remaining ← set_remaining successor na;
     mret (r, TPublished old_remaining new_remaining)).
Proof using Hw Hph.
  intros Hp'. destruct publishing_phase as ([Hs Hg] & Hss & _). pose proof Hw as [Hc _]. cbn zeta.
  assert (fold_returns r reply (mret (with_phase r (RPublishing old successor oa na),
    TPublished (len (ms_members old) / 2 + 1 - ssize oa) (len (ms_members successor) / 2 + 1 - ssize na)))) as Hshort.
  { apply moved_returns; [done..|]. rewrite Hph. by constructor. }
  rewrite (set_has_quorum_ok old), (set_remaining_ok old), (set_remaining_ok successor) by done. rsimpl.
  case_bool_decide as Hq; [|exact Hshort]. rewrite set_has_quorum_ok by done. rsimpl.
  case_bool_decide as Hq'; [|exact Hshort]. eexists _, _. split; [done|]. split; try done.
  - apply drained_core, phase_core; [by apply phase_core|done].
  - apply acts_quiet; simpl; [done|lia|by intros e ?%elem_of_nil].
  - simpl. rewrite Hph. by eapply mv_done.
Qed.

Lemma fold_learned_ok from reply at_ : fold_returns r reply (fold_learned r old successor old_acks new_acks from at_).
Proof using Hw Hph.
  destruct publishing_phase as ([Hs Hg] & Hss & Hsg & Ho & Hn). pose proof Hw as [Hc _]. unfold fold_learned.
  rewrite !set_contains_ok by done. rsimpl.
  set (in_old := bool_decide (from ∈ ms_members old)).
  set (learned := bool_decide (from ∈ ms_members successor) && bool_decide (ms_generation successor <= at_)).
  set (oa := if in_old then _ else old_acks). set (na := if learned then _ else new_acks).
  assert (forall m, m ∈ oa -> m ∈ ms_members old) as Ho'.
  { unfold oa, in_old. case_bool_decide; [|done]. intros m [->%elem_of_singleton|?]%elem_of_union; [done|by apply Ho]. }
  assert (forall m, m ∈ na -> m ∈ ms_members successor) as Hn'.
  { unfold na. destruct learned eqn:El; [|done]. apply andb_true_iff in El as [El%bool_decide_eq_true _].
    intros m [->%elem_of_singleton|?]%elem_of_union; [done|by apply Hn]. }
  assert (phase_ok (rc_node r) (rc_round r) (RPublishing old successor oa na)) as Hp' by by simpl.
  destruct (negb _ && negb _); [apply moved_returns; [done..|rewrite Hph; by constructor]|].
  destruct (learned && bool_decide (from ∉ new_acks)) eqn:Ec; [|by apply fold_published_ok].
  apply andb_true_iff in Ec as [El _]. rewrite rassert_true by (unfold na; rewrite El; set_solver).
  by apply fold_published_ok.
Qed.
End publishing.

(** ** Every reply *)

Lemma fold_phase_ok r reply : rc_wf r -> reply_ok (rc_phase r) reply -> fold_returns r reply (fold_phase r reply).
Proof.
  intros Hw Hok. pose proof (rcc_phase _ (proj1 Hw)) as Hp. unfold fold_phase.
  destruct (rc_phase r) as [|old target acks partial floor|old bootstrap acks held floor|old bootstrap d|old successor oa na] eqn:Eph.
  - by apply ignored_returns.
  - destruct reply; try by apply ignored_returns. by apply fold_stopped_ok.
  - destruct reply; try by apply ignored_returns. by apply fold_bootstrapped_ok.
  - destruct Hp as ([Hs _] & _). rewrite set_contains_ok by done. rsimpl. case_bool_decide as Hin; cbn [negb]; [|by apply ignored_returns].
    destruct reply as [| |from g ballot vote|from g ballot|from g ballot promised| |]; try by apply ignored_returns.
    all: case_decide as Hd; [by apply ignored_returns|]; apply Decidable.not_or in Hd as [Eg%dec_stable Eb%dec_stable]; subst g ballot.
    + destruct Hok as [? ?]; [done..|]. by apply fold_promised_ok.
    + by apply fold_accept_ok.
    + by apply fold_nacked_ok.
  - destruct reply; try by apply ignored_returns. case_decide; [by apply ignored_returns|by apply fold_learned_ok].
Qed.

Lemma fold_reply_ok r reply : rc_wf r -> reply_ok (rc_phase r) reply -> fold_returns r reply (fold_reply r reply).
Proof.
  intros Hw Hok. unfold fold_reply.
  assert (exists old, rc_old r = Done old /\ (is_Some old -> rc_phase r <> RIdle)) as (old & Eold & Hold).
  { unfold rc_old, rc_is_busy. destruct (rc_phase r); rewrite rassert_true by done; rsimpl; eexists; (split; [done|]); done. }
  destruct reply; try by apply fold_phase_ok. rewrite Eold. rsimpl.
  destruct old as [old|]; [|by apply fold_phase_ok]. apply fold_refused_ok; [done|]. by apply Hold.
Qed.

Lemma moves_over me minted phase reply phase' minted' step :
  reply_moves me minted phase reply phase' minted' step ->
  (is_over step = true -> phase' = RIdle) /\ (is_ignored step = true -> phase' = RIdle -> phase = RIdle).
Proof. intros []; simpl; split; congruence. Qed.

(** [on_reply] returns, keeps the invariant, and moves the phase as the reply says. *)
Lemma rc_on_reply_ok r reply :
  rc_wf r -> reply_ok (rc_phase r) reply ->
  exists r' step, rc_on_reply r reply = Done (r', step) /\ rc_wf r' /\ acts r r' /\
    rc_elapsed r' = (if is_ignored step then rc_elapsed r else 0) /\
    reply_moves (rc_node r) (rc_round r) (rc_phase r) reply (rc_phase r') (rc_round r') step.
Proof.
  intros Hw Hok. pose proof Hw as [Hc Hi]. unfold rc_on_reply.
  destruct (fold_reply_ok r reply Hw Hok) as (r0 & step & -> & [Hc0 [Hn Hr Hq] Hel Hid Hm]). rsimpl.
  destruct (moves_over _ _ _ _ _ _ _ Hm) as [Hover Hign]. set (r' := if is_ignored step then r0 else with_elapsed r0 0).
  assert (rc_phase r' = rc_phase r0 /\ rc_pending r' = rc_pending r0 /\ rc_round r' = rc_round r0 /\ rc_node r' = rc_node r0 /\
    rc_elapsed r' = if is_ignored step then rc_elapsed r else 0) as (Ep & Eq & Er & En & Ee)
    by (unfold r'; destruct (is_ignored step); split_and!; auto).
  assert (rc_wf r') as Hw'.
  { split.
    - unfold r'. destruct (is_ignored step); [done|]. by apply elapsed_core; [|apply N.le_0_l].
    - rewrite Ep, Eq, Ee. intros Hidle. split; [by apply Hid|]. destruct (is_ignored step); [by apply Hi, Hign|done]. }
  exists r', step. split; [|split; [done|split; [|split; [done|by rewrite Ep, Er]]]].
  - destruct (is_ignored step) eqn:Es; [rewrite (rassert_true (rc_elapsed _ = _)) by exact Ee; rsimpl|rsimpl].
    + assert (is_over step = false) as -> by by destruct step. rsimpl. by rewrite rc_assert_invariants_ok.
    + destruct (is_over step); [rewrite rassert_true; [rsimpl|unfold rc_is_busy; by rewrite Ep, Hover]|];
        by rewrite rc_assert_invariants_ok.
  - split; [congruence|lia|]. intros e. rewrite Ep, Eq. apply Hq.
Qed.
