(* ===== verification/Handover.v ===== *)
(** * The handover as a distributed system

    Reconfigurers on any number of nodes replace the matchmaker set [old], over a network
    that loses, duplicates and reorders packets.  A node may crash at any point and boot
    again with an empty memory; a reply reaches only the incarnation that asked.  The old
    members answer from their decree record and from the registries they froze with.

    The world is simulated by the decree's system ([DecreeSystem.v]): from there come one
    successor per generation and the votes no handler's assertion trips over; from the
    paging and the reconstruction, that no registration of a majority is lost. *)

From S2P Require Import Prelude BTree Types Retained Contract QuorumSystem AcceptorConfig Rounds Tally Proposer Election Decree DecreeSystem MatchmakerSet MatchmakerState Matchmaker MatchmakerInv Generation GenerationInv Reconfigurer Reconstruct ReconfigurerInv ReconfigurerFold.

Implicit Types r : Reconfigurer.

(** ** The frozen report, page by page *)

(** One page of the registries [M], strictly above a cursor. *)
Definition frozen_slice (M : Registries) (after : option JournalId) (page : N) : Registries * option JournalId :=
  let above := filter (fun e => above_cursor after e.1) (bt_entries M) in
  let registries := list_to_map (take (N.to_nat page) above) in
  (registries, if decide (drop (N.to_nat page) above <> []) then last_key_of registries else None).

(** What has been read of [M] up to a cursor. *)
Definition read_upto (M : Registries) (cursor : option JournalId) : Registries :=
  match cursor with None => ∅ | Some c => filter (fun e => e.1 <= c) M end.

Lemma slice_above_sorted (M : Registries) after :
  StronglySorted key_lt (filter (fun e : JournalId * JournalRegistry => above_cursor after e.1) (bt_entries M)).
Proof. eapply StronglySorted_sublist; [apply sublist_filter|apply bt_entries_sorted]. Qed.

Lemma lookup_read_upto (M : Registries) after j x :
  read_upto M after !! j = Some x <-> M !! j = Some x /\ ~ above_cursor after j.
Proof.
  unfold read_upto, above_cursor. destruct after as [c|]; simpl.
  - rewrite map_lookup_filter_Some. simpl. ord_N. split; intros [? ?]; split; done || lia.
  - rewrite lookup_empty. split; [done|]. intros [_ Hn]. by destruct Hn.
Qed.

(** Where a page ends is where it was cut. *)
Lemma slice_cut (M : Registries) after page c e :
  let above := filter (fun e : JournalId * JournalRegistry => above_cursor after e.1) (bt_entries M) in
  last_key_of (list_to_map (take (N.to_nat page) above) : Registries) = Some c -> e ∈ above ->
  (e ∈ take (N.to_nat page) above <-> e.1 <= c).
Proof.
  intros above Hc He. pose proof (slice_above_sorted M after) as Hs. fold above in Hs.
  assert (StronglySorted key_lt (take (N.to_nat page) above)) as Ht by (eapply StronglySorted_sublist; [apply sublist_take|done]).
  apply last_key_of_Some in Hc as [[x Hx] Hmax]. split.
  - intros Hin. destruct e as [j y]. assert (is_Some (list_to_map (take (N.to_nat page) above) (M:=Registries) !! j)) as Hj.
    { exists y. by apply lookup_sorted_list_to_map. }
    apply Hmax in Hj. ord_N. exact Hj.
  - intros Hle. rewrite <-(take_drop (N.to_nat page) above) in He. apply elem_of_app in He as [?|Hd]; [done|].
    apply lookup_sorted_list_to_map in Hx; [|done]. rewrite <-(take_drop (N.to_nat page) above) in Hs.
    eapply (StronglySorted_app_1_elem_of key_lt) in Hs; [|exact Hx|exact Hd]. unfold key_lt in Hs. ord_N. simpl in Hs. lia.
Qed.

(** Each page continues what was read; a page that is not cut completes it. *)
Lemma slice_continues (M : Registries) after page :
  0 < page ->
  (frozen_slice M after page).1 ∪ read_upto M after =
  match (frozen_slice M after page).2 with Some c => read_upto M (Some c) | None => M end.
Proof.
  intros Hp. unfold frozen_slice. set (above := filter _ _). set (registries := list_to_map _). cbn [fst snd].
  pose proof (slice_above_sorted M after) as Hs. fold above in Hs.
  assert (StronglySorted key_lt (take (N.to_nat page) above)) as Ht by (eapply StronglySorted_sublist; [apply sublist_take|done]).
  assert (forall j x, registries !! j = Some x <-> (j, x) ∈ take (N.to_nat page) above) as Hreg
    by (intros; by apply lookup_sorted_list_to_map).
  assert (forall j x, (j, x) ∈ above <-> M !! j = Some x /\ above_cursor after j) as Habove.
  { intros j x. unfold above. rewrite list_elem_of_filter, elem_of_bt_entries. tauto. }
  assert (forall j x, (registries ∪ read_upto M after) !! j = Some x <->
    (j, x) ∈ take (N.to_nat page) above \/ (M !! j = Some x /\ ~ above_cursor after j)) as Hun.
  { intros j x. rewrite lookup_union_Some, Hreg, lookup_read_upto; [done|]. apply map_disjoint_spec. intros k y z.
    rewrite Hreg, lookup_read_upto. intros Hy [_ Hz]. apply Hz, (Habove k y).
    eapply elem_of_sublist; [exact Hy|apply sublist_take]. }
  apply map_eq. intros j. apply option_eq. intros x. rewrite Hun. case_decide as Hd.
  - destruct (last_key_of registries) as [c|] eqn:Ec.
    + cbv iota. rewrite lookup_read_upto. pose proof (slice_cut M after page c) as Hcut. simpl in Hcut.
      fold above registries in Hcut. specialize (Hcut (j, x) Ec). rewrite Habove in Hcut. simpl in Hcut.
      assert ((j, x) ∈ take (N.to_nat page) above -> M !! j = Some x /\ above_cursor after j) as Htake.
      { intros Hin. apply Habove. eapply elem_of_sublist; [exact Hin|apply sublist_take]. }
      assert (above_cursor after c) as Hcc.
      { apply last_key_of_Some in Ec as [[y Hy] _]. apply (Habove c y). apply Hreg in Hy.
        eapply elem_of_sublist; [exact Hy|apply sublist_take]. }
      assert (~ above_cursor after j -> j <= c) as Hbelow.
      { unfold above_cursor in *. destruct after as [a|]; simpl in *; [lia|]. intros Hn. by destruct Hn. }
      assert (~ above_cursor (Some c) j <-> j <= c) as -> by (unfold above_cursor; simpl; lia).
      destruct (decide (above_cursor after j)); naive_solver.
    + exfalso. apply last_key_of_None in Ec. destruct above as [|e l] eqn:Ea; [by rewrite drop_nil in Hd|].
      destruct (N.to_nat page) eqn:En; [lia|]. destruct e as [j' y].
      assert (registries !! j' = Some y) as Hy by (apply Hreg; left). by rewrite Ec, lookup_empty in Hy.
  - assert (take (N.to_nat page) above = above) as ->.
    { rewrite <-(take_drop (N.to_nat page) above) at 2. by rewrite Hd, app_nil_r. }
    rewrite Habove. destruct (decide (above_cursor after j)); naive_solver.
Qed.

(** The registries a matchmaker reports once frozen. *)
Definition frozen_registries (m : Matchmaker) : Registries := list_to_map (frozen_entries m None).

(** [on_stop] answers a page of them. *)
Lemma frozen_report_slice m after page : frozen_report m after page = frozen_slice (frozen_registries m) after page.
Proof.
  unfold frozen_report, frozen_slice, frozen_registries.
  rewrite bt_entries_list_to_map by apply frozen_entries_sorted.
  set (above := filter _ (frozen_entries m None)).
  assert (StronglySorted key_lt above) as Hs by (eapply StronglySorted_sublist; [apply sublist_filter|apply frozen_entries_sorted]).
  assert (frozen_entries m after = above) as ->; [|done].
  rewrite <-(bt_entries_list_to_map (frozen_entries m after)) by apply frozen_entries_sorted.
  rewrite <-(bt_entries_list_to_map above) by done. f_equal. apply map_eq. intros j. apply option_eq. intros x.
  rewrite !lookup_sorted_list_to_map by (done || apply frozen_entries_sorted). unfold above.
  rewrite list_elem_of_filter, !elem_of_frozen_entries. assert (above_cursor None j) by done. simpl. tauto.
Qed.

Lemma on_stop_slice reg m g after :
  mm_wf reg m -> serves m g = true ->
  on_stop m g after =
    Done (stopped m, YStopped (mm_id m) g after (frozen_slice (frozen_registries m) after (registry_page (mm_limits m))).2
                       (frozen_slice (frozen_registries m) after (registry_page (mm_limits m))).1
                       (mh_successor (mm_hard m)) (dr_promised (mh_decree (mm_hard m)))) /\
  frozen_registries (stopped m) = frozen_registries m.
Proof.
  intros Hwf Hs. rewrite (on_stop_ok reg) by done. rewrite Hs, frozen_report_slice. split; [done|].
  unfold stopped. by case_decide.
Qed.

(** ** The world *)

Section world.
Context (old : MatchmakerSet) (frozen_of : MatchmakerId -> Registries) (limits : Limits).
Implicit Types (n : NodeId) (i : MatchmakerId) (k : N).

(** A packet names the node's incarnation that asked. *)
Inductive Packet :=
| PRequest (n : NodeId) (k : N) (i : MatchmakerId) (q : ReconfigureRequest)
| PReply (n : NodeId) (k : N) (y : ReconfigureReply).

Record HandoverWorld := mkHandoverWorld {
  hw_nodes : gmap NodeId (N * Reconfigurer);
  hw_records : MatchmakerId -> DecreeRecord (list MatchmakerId);
  hw_net : list Packet }.
Implicit Types w : HandoverWorld.

Definition hw_init : HandoverWorld := mkHandoverWorld ∅ (fun _ => record_default) [].

Definition set_reconfigurer w n k r (sent : list Packet) : HandoverWorld :=
  mkHandoverWorld (<[n := (k, r)]> (hw_nodes w)) (hw_records w) (sent ++ hw_net w).
Definition answer_packet w i (rec : DecreeRecord (list MatchmakerId)) (reply : Packet) : HandoverWorld :=
  mkHandoverWorld (hw_nodes w) (fun j => if decide (j = i) then rec else hw_records w j) (reply :: hw_net w).

(** The driver's calls on a running reconfigurer. *)
Inductive ReconfigurerOp :=
| OStart (target : list MatchmakerId)
| OFinish
| OTick
| OResend
| OCloseStop
| OAbandon
| OReady.

(** A target is a list that fits memory. *)
Definition op_fits (op : ReconfigurerOp) : Prop :=
  match op with OStart target => len (normalize target) + 2 <= usize_max | _ => True end.
#[global] Instance op_fits_dec op : Decision (op_fits op).
Proof. destruct op; simpl; apply _. Defined.

Definition after_start r (o : Reconfigurer + StartRefusal) : Reconfigurer := match o with inl r' => r' | inr _ => r end.

Definition reconfigurer_op r (op : ReconfigurerOp) : run (Reconfigurer * list (MatchmakerId * ReconfigureRequest)) :=
  match op with
  | OStart target => o ← rc_start r old target; mret (after_start r o, [])
  | OFinish => o ← rc_finish r old; mret (after_start r o, [])
  | OTick => r ← rc_tick r; mret (r, [])
  | OResend => r ← rc_resend r; mret (r, [])
  | OCloseStop => '(r, _) ← close_stop r; mret (r, [])
  | OAbandon => '(r, _) ← rc_abandon r; mret (r, [])
  | OReady => requests ← rc_requests r; r ← rc_advance r; mret (r, requests)
  end.

(** What a matchmaker's answer depends on besides its decree record: whether it serves
    the generation, what it says otherwise, and the pages it cuts and holds.  All of it is
    left open, so that the members behave at least as freely as [step_reconfigure] lets them
    ([serve_covers] below). *)
Record Circumstance := mkCircumstance {
  cc_serves : bool;
  cc_current : MatchmakerSet;
  cc_phase : MatchmakerPhase;
  cc_successor : option MatchmakerSet;
  cc_page : N;
  cc_held : option JournalId;
  cc_complete : bool;
  cc_activated : bool;
  cc_at : MatchmakerGeneration }.
Implicit Types c : Circumstance.

Definition refuse c i : ReconfigureReply := YRefused i (cc_current c) (cc_phase c) (cc_successor c).

Definition decree_answer c i (reply : DecreeReply (list MatchmakerId)) : ReconfigureReply :=
  match reply with
  | RPromised ballot vote => YPromised i (ms_generation old) ballot vote
  | RAccepted ballot => YAccepted i (ms_generation old) ballot
  | RNacked ballot promised => YNacked i (ms_generation old) ballot promised
  | RRefused => refuse c i
  end.

Definition serve c i (rec : DecreeRecord (list MatchmakerId)) (q : ReconfigureRequest)
  : run (DecreeRecord (list MatchmakerId) * ReconfigureReply) :=
  let of_old g := cc_serves c && bool_decide (i ∈ ms_members old) && bool_decide (g = ms_generation old) in
  match q with
  | QStop _ g after =>
      let '(page, next) := frozen_slice (frozen_of i) after (cc_page c) in
      mret (rec, if of_old g then YStopped i g after next page (cc_successor c) (dr_promised rec) else refuse c i)
  | QBootstrap _ page =>
      mret (rec, if cc_serves c then YBootstrapped i (bp_set page) (cc_held c) (cc_complete c) else refuse c i)
  | QDecreePrepare _ g ballot =>
      '(rec, reply) ← on_decree_prepare (of_old g) rec ballot; mret (rec, decree_answer c i reply)
  | QDecreeAccept _ g ballot members =>
      '(rec, reply) ← on_decree_accept (of_old g) rec ballot members; mret (rec, decree_answer c i reply)
  | QChosen _ g _ =>
      mret (rec, if cc_serves c then YLearned i g (cc_activated c) (cc_at c) else refuse c i)
  end.

(** Every step.  A step is taken only while rounds have not run out of their width. *)
Inductive hstep w : HandoverWorld -> Prop :=
| hs_boot n r :
    reconfigurer_new n limits = Done r ->
    hstep w (set_reconfigurer w n (match hw_nodes w !! n with Some (k, _) => k + 1 | None => 0 end) r [])
| hs_op n k r op r' out :
    hw_nodes w !! n = Some (k, r) -> op_fits op ->
    reconfigurer_op r op = Done (r', out) -> rc_round r' < u64_max ->
    hstep w (set_reconfigurer w n k r' ((fun e => PRequest n k e.1 e.2) <$> out))
| hs_reply n k r y r' step :
    hw_nodes w !! n = Some (k, r) -> PReply n k y ∈ hw_net w ->
    rc_on_reply r y = Done (r', step) -> rc_round r' < u64_max ->
    hstep w (set_reconfigurer w n k r' [])
| hs_serve n k i q c rec y :
    PRequest n k i q ∈ hw_net w -> 0 < cc_page c ->
    serve c i (hw_records w i) q = Done (rec, y) ->
    hstep w (answer_packet w i rec (PReply n k y)).

Definition handover_reachable : HandoverWorld -> Prop := rtc hstep hw_init.

(** A set some reconfigurer publishes as the successor. *)
Definition published w (s : MatchmakerSet) : Prop :=
  (exists n k r old_acks new_acks, hw_nodes w !! n = Some (k, r) /\ rc_phase r = RPublishing old s old_acks new_acks) \/
  (exists n k i from g, PRequest n k i (QChosen from g s) ∈ hw_net w).

(** [i] has acknowledged the whole bootstrap of [s]. *)
Definition bootstrapped (net : list Packet) (s : MatchmakerSet) i : Prop :=
  exists n k holds, PReply n k (YBootstrapped i s holds true) ∈ net.
End world.

(** ** The members' answers

    [serve] leaves open what a matchmaker's answer takes from outside its decree record.
    What a whole matchmaker answers to a request of the handover is one of its answers, and
    its record moves as [serve] moves it, or the matchmaker has left the generation. *)

Section members.
Implicit Types m : Matchmaker.

(** The matchmaker and its decree are where they were, or a later set is served. *)
Definition stays m m' : Prop :=
  mm_id m' = mm_id m /\ (mh_decree (mm_hard m') = mh_decree (mm_hard m) \/ ms_generation (mm_set m) < ms_generation (mm_set m')).

Lemma freeze_stays m m' : freeze m = Done m' -> mm_id m' = mm_id m /\ mh_decree (mm_hard m') = mh_decree (mm_hard m) /\ mm_set m' = mm_set m.
Proof using.
  intros E. unfold freeze, refresh_set in E. rinv E. injection E as <-. rinv E1. injection E1 as <-.
  rewrite stage_scalars_ok in E2. injection E2 as <-. done.
Qed.

Lemma prune_stays m s m' pruned : prune_settled_pending m s = Done (m', pruned) ->
  mm_id m' = mm_id m /\ mh_decree (mm_hard m') = mh_decree (mm_hard m) /\ mm_set m' = mm_set m.
Proof using. intros E. unfold prune_settled_pending in E. rinv E. by injection E as <- <-. Qed.

Lemma activate_stays m s m' activated : activate m s = Done (m', activated) -> stays m m'.
Proof using.
  intros E. unfold activate in E. apply bind_Done_inv in E as (member & _ & E). 
  destruct (negb member || _) eqn:Eg; [injection E as <- <-; by split; [|left]|].
  apply orb_false_iff in Eg as [_ Eg%bool_decide_eq_false]. case_match; [|injection E as <- <-; by split; [|left]].
  case_match. subst.
  apply bind_Done_inv in E as (? & _ & E). apply bind_Done_inv in E as ([J R] & _ & E). cbv beta iota zeta in E. 
  rinv E. injection E as <- <-. unfold refresh_set in *. 
  match goal with H : _ = Done ?m1 |- context [?m1] => rinv H; injection H as <- end.
  split; [done|right]. simpl in *. match goal with H : _ = s |- _ => rewrite H end. lia.
Qed.

Lemma refusal_reply m y : refusal m = Done y -> exists phase, y = YRefused (mm_id m) (mm_set m) phase (mh_successor (mm_hard m)).
Proof using. intros E. unfold refusal in E. rinv E. injection E as <-. by eexists. Qed.

(** What is answered to a published successor. *)
Lemma on_chosen_answers m g s m' y : on_chosen m g s = Done (m', y) ->
  stays m m' /\ ((exists set phase succ, y = YRefused (mm_id m) set phase succ) \/ exists activated at_, y = YLearned (mm_id m) g activated at_).
Proof using.
  assert (forall m1 y1, refusal m1 = Done y1 -> mm_id m1 = mm_id m -> exists set phase succ, y1 = YRefused (mm_id m) set phase succ) as Href.
  { intros m1 y1 [phase ->]%refusal_reply ->. by eexists _, _, _. }
  assert (stays m m) as Hrefl by (split; [done|by left]).
  intros E. unfold on_chosen in E. apply bind_Done_inv in E as (phase & _ & E). apply bind_Done_inv in E as (next & _ & E).
  case_decide as H1; [rinv E; injection E as <- <-; split; [done|left; by eapply Href]|].
  case_decide as H2; [injection E as <- <-; split; [done|right; by eexists _, _]|].
  apply bind_Done_inv in E as (serving & _ & E). destruct serving.
  - case_decide as H3; [rinv E; injection E as <- <-; split; [done|left; by eapply Href]|].
    unfold learn_successor in E. apply bind_Done_inv in E as ([m1 changed] & E1 & E). cbv beta iota in E.
    assert (mm_id m1 = mm_id m /\ mh_decree (mm_hard m1) = mh_decree (mm_hard m) /\ mm_set m1 = mm_set m) as (Ei1 & Ed1 & Es1).
    { case_decide; [|by injection E1 as <- <-]. apply bind_Done_inv in E1 as (m0 & E0 & E1). injection E1 as <- <-. simpl.
      case_decide; [by apply freeze_stays|by injection E0 as <-]. }
    apply bind_Done_inv in E as ([m2 prn] & E2 & E). cbv beta iota in E. apply prune_stays in E2 as (Ei2 & Ed2 & Es2).
    apply bind_Done_inv in E as (m3 & E3 & E).
    assert (mm_id m3 = mm_id m2 /\ mh_decree (mm_hard m3) = mh_decree (mm_hard m2) /\ mm_set m3 = mm_set m2) as (Ei3 & Ed3 & Es3).
    { destruct (changed || prn); [rewrite stage_scalars_ok in E3|]; by injection E3 as <-. }
    apply bind_Done_inv in E as ([m4 activated] & E4 & E). cbv beta iota in E. apply activate_stays in E4 as [Ei4 Ed4].
    apply bind_Done_inv in E as (? & _ & E). injection E as <- <-.
    split; [|right; by eexists _, _]. split; [congruence|]. destruct Ed4; [left; congruence|right]. by rewrite <-Es1, <-Es2, <-Es3.
  - case_decide as H3; [|rinv E; injection E as <- <-; split; [done|left; by eapply Href]].
    unfold learn_elsewhere in E. apply bind_Done_inv in E as ([m2 prn] & E2 & E). cbv beta iota in E.
    apply prune_stays in E2 as (Ei2 & Ed2 & Es2).
    apply bind_Done_inv in E as ([m4 activated] & E4 & E). cbv beta iota in E. apply activate_stays in E4 as [Ei4 Ed4].
    assert (stays m m4) as Hst by (split; [congruence|destruct Ed4; [left; congruence|right; by rewrite <-Es2]]).
    destruct activated; [rinv E; injection E as <- <-; split; [done|right; by eexists _, _]|].
    apply bind_Done_inv in E as (m5 & E5 & E). rinv E. injection E as <- <-.
    assert (mm_id m5 = mm_id m4 /\ mh_decree (mm_hard m5) = mh_decree (mm_hard m4) /\ mm_set m5 = mm_set m4) as (Ei5 & Ed5 & Es5).
    { destruct prn; [rewrite stage_scalars_ok in E5|]; by injection E5 as <-. }
    destruct Hst as [Hi Hd]. split; [|left; eapply Href; [done|congruence]]. split; [congruence|]. rewrite Ed5, Es5. done.
Qed.

Lemma on_bootstrap_answers m page m' y : on_bootstrap m page = Done (m', y) ->
  stays m m' /\ ((exists set phase succ, y = YRefused (mm_id m) set phase succ) \/ exists held complete, y = YBootstrapped (mm_id m) (bp_set page) held complete).
Proof using.
  intros E. unfold on_bootstrap in E. apply bind_Done_inv in E as (member & _ & E).
  destruct (_ || _ || _).
  { apply bind_Done_inv in E as (y1 & [phase ->]%refusal_reply & E). injection E as <- <-.
    split; [by split; [|left]|left; by eexists _, _, _]. }
  apply bind_Done_inv in E as (m1 & E1 & E). cbv beta zeta in E.
  assert (mm_id m1 = mm_id m /\ mh_decree (mm_hard m1) = mh_decree (mm_hard m)) as [Ei Ed].
  { destruct (_ && _) in E1; [rewrite stage_scalars_ok in E1|]; by injection E1 as <-. }
  apply bind_Done_inv in E as (? & _ & E). apply bind_Done_inv in E as (? & _ & E).
  apply bind_Done_inv in E as (? & _ & E). injection E as <- <-.
  split; [by split; [|left]|right; by eexists _, _].
Qed.
End members.

(** The requests of this handover name its generation. *)
Definition asks_old (old : MatchmakerSet) (q : ReconfigureRequest) : Prop :=
  match q with
  | QBootstrap _ _ => True
  | QStop _ g _ | QDecreePrepare _ g _ | QDecreeAccept _ g _ _ | QChosen _ g _ => g = ms_generation old
  end.

Section covers.
Context (old : MatchmakerSet) (frozen_of : MatchmakerId -> Registries).
Context (reg : JournalId -> Ballot -> Registration) (m : Matchmaker) (Hwf : mm_wf reg m).
Hypothesis Hset : ms_generation (mm_set m) = ms_generation old -> mm_set m = old.
Hypothesis Hfrozen : serves m (ms_generation old) = true -> frozen_registries m = frozen_of (mm_id m).

(** The circumstances a matchmaker answers in. *)
Definition circumstance_of (serving : bool) (current : MatchmakerSet) phase successor held complete activated at_ : Circumstance :=
  mkCircumstance serving current phase successor (registry_page (mm_limits m)) held complete activated at_.

Lemma serving_member : serves m (ms_generation old) = true -> mm_id m ∈ ms_members old.
Proof using Hwf Hset.
  clear Hfrozen. intros Hs. pose proof (wf_member _ _ Hwf) as Hm. rewrite <-Hset; [apply Hm; by eapply serves_phase|].
  unfold serves in Hs. apply andb_true_iff in Hs as [Hs%bool_decide_eq_true _]. done.
Qed.

(** A decree's answer, when the matchmaker serves this generation and when it does not. *)
Lemma decree_covered (r : SetRecord) (reply : DecreeReply (list MatchmakerId))
  (f : bool -> run (SetRecord * DecreeReply (list MatchmakerId))) :
  f (serves m (ms_generation old)) = Done (r, reply) ->
  exists c, 0 < cc_page c /\
    ('(rec, reply) ← f (cc_serves c && bool_decide (mm_id m ∈ ms_members old) && bool_decide (ms_generation old = ms_generation old));
     mret (rec, decree_answer old c (mm_id m) reply)) = Done (r, lift_reply m (ms_generation old) reply).
Proof using Hwf Hset.
  clear Hfrozen. intros E. exists (circumstance_of (serves m (ms_generation old)) (mm_set m) (phase_of m) (mh_successor (mm_hard m)) None false false 0).
  split; [apply (wf_limits _ _ Hwf)|]. rewrite (bool_decide_eq_true_2 (ms_generation old = _)) by done. rewrite andb_true_r. simpl.
  destruct (serves m (ms_generation old)) eqn:Es; simpl.
  - rewrite bool_decide_eq_true_2 by by apply serving_member. rewrite E. rsimpl. by destruct reply.
  - rewrite E. rsimpl. by destruct reply.
Qed.

(** The step of a whole matchmaker is a [serve] in some circumstance. *)
Lemma serve_covers q :
  asks_old old q -> request_ok reg m q ->
  exists m' y c rec, step_reconfigure m q = Done (push_reconfigure_reply m' y) /\ 0 < cc_page c /\
    serve old frozen_of c (mm_id m) (mh_decree (mm_hard m)) q = Done (rec, y) /\ mm_id m' = mm_id m /\
    (mh_decree (mm_hard m') = rec \/ ms_generation (mm_set m) < ms_generation (mm_set m')).
Proof using Hwf Hset Hfrozen.
  intros Hq Hr. destruct (step_reconfigure_ok reg m Hwf q Hr) as (m' & y & E & _ & _ & _ & Earm). exists m', y.
  pose proof (proj1 (wf_limits _ _ Hwf)) as Hpage.
  destruct q as [from g after|from page|from g b|from g b v|from g s]; simpl in Hq; try subst g.
  - rewrite (on_stop_ok reg) in Earm by done. destruct (serves m (ms_generation old)) eqn:Es.
    + destruct (on_stop_slice reg m (ms_generation old) after Hwf Es) as [E' _].
      rewrite (on_stop_ok reg), Es in E' by done. rewrite E' in Earm. injection Earm as <- <-.
      exists (circumstance_of true old Active (mh_successor (mm_hard m)) None false false 0), (mh_decree (mm_hard m)).
      assert (mm_id (stopped m) = mm_id m /\ mh_decree (mm_hard (stopped m)) = mh_decree (mm_hard m)) as [Hi Hd]
        by (unfold stopped; by destruct (decide (phase_of m = Active))).
      split; [exact E|]. split; [exact Hpage|]. split; [|by auto]. unfold serve. cbn [cc_serves cc_page cc_successor circumstance_of].
      rewrite (bool_decide_eq_true_2 (_ ∈ _)), (bool_decide_eq_true_2 (_ = _)) by (done || by apply serving_member).
      cbn [andb]. rewrite <-Hfrozen by done. reflexivity.
    + injection Earm as <- <-. exists (circumstance_of false (mm_set m) (phase_of m) (mh_successor (mm_hard m)) None false false 0), (mh_decree (mm_hard m)).
      split_and!; [done|done|done|done|by left].
  - apply on_bootstrap_answers in Earm as [[Hi Hd] [(set & phase & succ & ->)|(held & complete & ->)]].
    + by exists (circumstance_of false set phase succ None false false 0), (mh_decree (mm_hard m)).
    + by exists (circumstance_of true old Active None held complete false 0), (mh_decree (mm_hard m)).
  - destruct (decree_prepare_returns reg m Hwf (ms_generation old) b) as (r & reply & Er & _).
    destruct (mm_prepare_refines reg m Hwf _ _ _ _ Er) as (m1 & E1 & Hm). rewrite E1 in Earm. injection Earm as -> <-.
    destruct (decree_covered r reply (fun serving => on_decree_prepare serving (mh_decree (mm_hard m)) b) Er) as (c & Hc & Ec).
    exists c, r. split_and!; [done|done|exact Ec|..]; destruct Hm as [[-> <-]| ->]; by auto.
  - destruct (decree_accept_returns reg m Hwf (ms_generation old) b v Hr) as (r & reply & Er & _).
    destruct (mm_accept_refines reg m Hwf _ _ _ _ _ Er) as (m1 & E1 & Hm). rewrite E1 in Earm. injection Earm as -> <-.
    destruct (decree_covered r reply (fun serving => on_decree_accept serving (mh_decree (mm_hard m)) b v) Er) as (c & Hc & Ec).
    exists c, r. split_and!; [done|done|exact Ec|..]; destruct Hm as [[-> <-]| ->]; by auto.
  - apply on_chosen_answers in Earm as [[Hi Hd] [(set & phase & succ & ->)|(activated & at_ & ->)]].
    + by exists (circumstance_of false set phase succ None false false 0), (mh_decree (mm_hard m)).
    + by exists (circumstance_of true old Active None None false activated at_), (mh_decree (mm_hard m)).
Qed.
End covers.

(** ** Running the world

    A script of steps, executed; what it executes are steps of the world. *)

Section script.
Context (old : MatchmakerSet) (frozen_of : MatchmakerId -> Registries) (limits : Limits).
Implicit Types (w : HandoverWorld) (n : NodeId).

Inductive HandoverEvent :=
| HBoot (n : NodeId)
| HOp (n : NodeId) (op : ReconfigurerOp)
| HServe (n : NodeId) (members : list MatchmakerId) (c : Circumstance)
| HReplies (n : NodeId).

Definition boot_node w n : option HandoverWorld :=
  match reconfigurer_new n limits with
  | Done r => Some (set_reconfigurer w n (match hw_nodes w !! n with Some (k, _) => k + 1 | None => 0 end) r [])
  | Panic _ => None
  end.

Definition op_node w n (op : ReconfigurerOp) : option HandoverWorld :=
  '(k, r) ← hw_nodes w !! n;
  match reconfigurer_op old r op with
  | Done (r', out) =>
      guard (op_fits op);;
      guard (rc_round r' < u64_max);;
      Some (set_reconfigurer w n k r' ((fun e => PRequest n k e.1 e.2) <$> out))
  | Panic _ => None
  end.

(** Serve what [n] asked of the given members. *)
Definition serve_packet n (members : list MatchmakerId) (c : Circumstance) w (p : Packet) : option HandoverWorld :=
  match p with
  | PRequest n' k i q =>
      if decide (n' = n /\ i ∈ members /\ 0 < cc_page c) then
        match serve old frozen_of c i (hw_records w i) q with
        | Done (rec, y) => Some (answer_packet w i rec (PReply n' k y))
        | Panic _ => None
        end
      else Some w
  | PReply _ _ _ => Some w
  end.

(** Deliver what was answered to [n]'s running incarnation. *)
Definition deliver_packet n w (p : Packet) : option HandoverWorld :=
  match p with
  | PReply n' k' y =>
      '(k, r) ← hw_nodes w !! n;
      if decide (n' = n /\ k' = k) then
        match rc_on_reply r y with
        | Done (r', _) => guard (rc_round r' < u64_max);; Some (set_reconfigurer w n k r' [])
        | Panic _ => None
        end
      else Some w
  | PRequest _ _ _ _ => Some w
  end.

Fixpoint over_packets (f : HandoverWorld -> Packet -> option HandoverWorld) w (ps : list Packet) : option HandoverWorld :=
  match ps with [] => Some w | p :: ps => w ← f w p; over_packets f w ps end.

Definition hexec w (e : HandoverEvent) : option HandoverWorld :=
  match e with
  | HBoot n => boot_node w n
  | HOp n op => op_node w n op
  | HServe n members c => over_packets (serve_packet n members c) w (reverse (hw_net w))
  | HReplies n => over_packets (deliver_packet n) w (reverse (hw_net w))
  end.

Fixpoint hscript w (es : list HandoverEvent) : option HandoverWorld :=
  match es with [] => Some w | e :: es => w ← hexec w e; hscript w es end.

Abbreviation steps := (rtc (hstep old frozen_of limits)).

Lemma over_packets_steps f w ps w' :
  (forall w p w1, p ∈ hw_net w -> f w p = Some w1 -> steps w w1 /\ forall q, q ∈ hw_net w -> q ∈ hw_net w1) ->
  (forall p, p ∈ ps -> p ∈ hw_net w) -> over_packets f w ps = Some w' -> steps w w'.
Proof using.
  intros Hf. revert w. induction ps as [|p ps IH]; intros w Hps E; simpl in E; [by injection E as <-|].
  apply bind_Some in E as (w1 & E1 & E). destruct (Hf w p w1) as [Hs Hn]; [apply Hps; left|done|].
  etrans; [exact Hs|]. apply IH; [|done]. intros q Hq. apply Hn, Hps. by right.
Qed.

Lemma serve_packet_steps n members c w p w1 :
  p ∈ hw_net w -> serve_packet n members c w p = Some w1 -> steps w w1 /\ forall q, q ∈ hw_net w -> q ∈ hw_net w1.
Proof using.
  intros Hp E. destruct p as [n' k i q|n' k y]; simpl in E; [|injection E as <-; done].
  case_decide as Hd; [|by injection E as <-]. destruct Hd as (_ & _ & Hpage).
  destruct (serve _ _ _ _ _ _) as [[rec y]|] eqn:Es; [|done]. injection E as <-. split; [|intros; by right].
  apply rtc_once. by eapply hs_serve.
Qed.

Lemma deliver_packet_steps n w p w1 :
  p ∈ hw_net w -> deliver_packet n w p = Some w1 -> steps w w1 /\ forall q, q ∈ hw_net w -> q ∈ hw_net w1.
Proof using.
  intros Hp E. destruct p as [n' k i q|n' k' y]; simpl in E; [injection E as <-; done|].
  apply bind_Some in E as ([k r] & En & E). case_decide as Hd; [|by injection E as <-]. destruct Hd as [-> ->].
  destruct (rc_on_reply r y) as [[r' step]|] eqn:Er; [|done]. case_guard; [|done]. injection E as <-. split; [|done].
  apply rtc_once. by eapply hs_reply.
Qed.

Lemma hexec_steps w e w' : hexec w e = Some w' -> steps w w'.
Proof using.
  destruct e as [n|n op|n members c|n]; simpl.
  - unfold boot_node. destruct (reconfigurer_new n limits) as [r|] eqn:E; [|done]. intros [= <-]. apply rtc_once. by constructor.
  - unfold op_node. intros E. apply bind_Some in E as ([k r] & En & E).
    destruct (reconfigurer_op old r op) as [[r' out]|] eqn:Eop; [|done]. repeat case_guard; try done. injection E as <-.
    apply rtc_once. by eapply hs_op.
  - apply over_packets_steps; [apply serve_packet_steps|]. intros p. by rewrite elem_of_reverse.
  - apply over_packets_steps; [apply deliver_packet_steps|]. intros p. by rewrite elem_of_reverse.
Qed.

Lemma hscript_steps w es w' : hscript w es = Some w' -> steps w w'.
Proof using.
  revert w. induction es as [|e es IH]; intros w E; simpl in E; [by injection E as <-|].
  apply bind_Some in E as (w1 & E1 & E). etrans; [by eapply hexec_steps|by apply IH].
Qed.
End script.
