(* ===== verification/HandoverSim.v ===== *)
(** * The handover simulated by its decree

    [sim] relates a world of reconfigurers to the decree's system of [DecreeSystem.v]: the
    records are the acceptors', every decree request and reply in flight a message of the
    system, every running decree its proposer.  Every step of the world keeps it
    ([hstep_sim]).  A ballot is opened only where the system has sent no value: a round above
    every one this incarnation minted, and above every promise of the stop quorum, which
    covers what earlier incarnations sent. *)

From S2P Require Import Prelude BTree Types Retained Contract QuorumSystem AcceptorConfig Rounds Tally Proposer Election Decree DecreeSystem MatchmakerSet MatchmakerState Matchmaker MatchmakerInv Generation GenerationInv Reconfigurer Reconstruct ReconfigurerInv ReconfigurerFold Handover.

Section world.
Context (old : MatchmakerSet) (frozen_of : MatchmakerId -> Registries) (limits : Limits).
Implicit Types (n : NodeId) (i : MatchmakerId) (k : N) (r : Reconfigurer) (w : HandoverWorld) (c : Circumstance).

(** ** The simulation *)

Abbreviation DecreeSys := (Sys (I:=MatchmakerId) (V:=list MatchmakerId)).
Implicit Types (S : Sys (I:=MatchmakerId) (V:=list MatchmakerId)) (net : list Packet).

(** What a request or a reply in flight stands for in the decree's system. *)
Definition request_sim S (q : ReconfigureRequest) : Prop :=
  match q with
  | QDecreePrepare _ g b => g = ms_generation old /\ MPrepare b ∈ s_sent S /\ round b < u64_max
  | QDecreeAccept _ g b members => g = ms_generation old /\ MAccept b members ∈ s_sent S /\ round b < u64_max
  | QChosen _ _ s => exists b v, (b, v) ∈ s_chosen S /\ s = mkSet (next_of old) (normalize v)
  | QStop _ _ _ | QBootstrap _ _ => True
  end.
Definition reply_sim S (y : ReconfigureReply) : Prop :=
  match y with
  | YStopped i _ after next page _ promised =>
      round promised < u64_max /\ exists width, 0 < width /\ frozen_slice (frozen_of i) after width = (page, next)
  | YPromised i _ b vote => MReply i (RPromised b vote) ∈ s_sent S
  | YAccepted i _ b => MReply i (RAccepted b) ∈ s_sent S
  | YNacked _ _ _ _ | YBootstrapped _ _ _ _ | YLearned _ _ _ _ | YRefused _ _ _ _ => True
  end.

(** A quorum stands above round [x] of [n], and says so to incarnation [k]. *)
Definition barrier net S n k (x : N) : Prop :=
  exists Q : gset MatchmakerId, promise_quorum (old_config old) Q /\ forall i, i ∈ Q ->
    (mkBallot x n ≤ dr_promised (s_records S i))%B /\
    forall g after next page successor promised,
      PReply n k (YStopped i g after next page successor promised) ∈ net -> (mkBallot x n ≤ promised)%B.

(** The rounds [n] sent a value at are its own memory's or barred. *)
Definition own_rounds net S n k (minted : N) : Prop :=
  forall x v, MAccept (mkBallot x n) v ∈ s_sent S -> x <= minted \/ barrier net S n k x.

(** What was read is what was frozen. *)
Definition reads (acks : gmap MatchmakerId Registries) : Prop := forall i X, acks !! i = Some X -> X = frozen_of i.
Definition reads_partly (partial : gmap MatchmakerId (Registries * JournalId)) : Prop :=
  forall i X (c : JournalId), partial !! i = Some (X, c) -> X = read_upto (frozen_of i) (Some c).

Definition floor_covers net n k (acks : gmap MatchmakerId Registries) (floor : Ballot) : Prop :=
  forall i, is_Some (acks !! i) -> exists g after next page successor promised,
    PReply n k (YStopped i g after next page successor promised) ∈ net /\ (promised ≤ floor)%B.

(** A bootstrap built from the frozen registries of a majority. *)
Definition carried (b : PendingBootstrap) : Prop :=
  exists acks, set_majority old (dom acks) /\ (forall i, is_Some (acks !! i) -> i ∈ ms_members old) /\ reads acks /\
    reconstructs (frozen_reports acks) (bo_registries b).

Definition phase_sim net S n k (minted : N) (phase : ReconfigurerPhase) : Prop :=
  match phase with
  | RIdle => True
  | RStopping o _ acks partial floor => o = old /\ reads acks /\ reads_partly partial /\ floor_covers net n k acks floor
  | RBootstrapping o b acks _ floor => o = old /\ carried b /\ (forall i, i ∈ acks -> bootstrapped net (bo_set b) i) /\
      forall x v, MAccept (mkBallot x n) v ∈ s_sent S -> x <= N.max minted (round floor)
  | RDeciding o b d => o = old /\ carried b /\ (forall i, i ∈ ms_members (bo_set b) -> bootstrapped net (bo_set b) i) /\
      s_proposers S !! d_ballot d = Some d /\ MPrepare (d_ballot d) ∈ s_sent S /\ forall x v, MAccept (mkBallot x n) v ∈ s_sent S -> x <= minted
  | RPublishing o s _ _ => o = old /\ exists b v, (b, v) ∈ s_chosen S /\ s = mkSet (next_of old) (normalize v)
  end.

Record node_sim net S n k r : Prop := {
  ns_wf : rc_wf r;
  ns_node : rc_node r = n;
  ns_round : rc_round r < u64_max;
  ns_pending : forall e, e ∈ rc_pending r -> request_sim S e.2;
  ns_own : own_rounds net S n k (rc_round r);
  ns_phase : phase_sim net S n k (rc_round r) (rc_phase r) }.

Definition packet_sim S (p : Packet) : Prop :=
  match p with PRequest _ _ _ q => request_sim S q | PReply _ _ y => reply_sim S y end.
Definition packet_of (p : Packet) : NodeId * N := match p with PRequest n k _ _ | PReply n k _ => (n, k) end.

Definition proposal_sim net (v : list MatchmakerId) : Prop :=
  members_ok v /\ forall i, i ∈ v -> bootstrapped net (mkSet (next_of old) v) i.

Record sim w S : Prop := {
  sm_inv : inv (old_config old) S;
  sm_records : forall i, s_records S i = hw_records w i;
  sm_promised : forall i, round (dr_promised (hw_records w i)) < u64_max;
  sm_proposed : forall v, proposed S v -> proposal_sim (hw_net w) v;
  sm_packets : forall p, p ∈ hw_net w -> packet_sim S p;
  sm_boots : forall p, p ∈ hw_net w -> exists k r, hw_nodes w !! (packet_of p).1 = Some (k, r) /\ (packet_of p).2 <= k;
  sm_nodes : forall n k r, hw_nodes w !! n = Some (k, r) -> node_sim (hw_net w) S n k r }.

(** ** What a node relies on across a step that is not its own *)

Record frame n net S net' S' : Prop := {
  fr_net : forall p, p ∈ net -> p ∈ net';
  fr_sent : forall m, m ∈ s_sent S -> m ∈ s_sent S';
  fr_accept : forall x v, MAccept (mkBallot x n) v ∈ s_sent S' -> MAccept (mkBallot x n) v ∈ s_sent S;
  fr_proposers : forall x d, s_proposers S !! mkBallot x n = Some d -> s_proposers S' !! mkBallot x n = Some d;
  fr_chosen : forall e, e ∈ s_chosen S -> e ∈ s_chosen S';
  fr_promised : forall i, (dr_promised (s_records S i) ≤ dr_promised (s_records S' i))%B;
  fr_stopped : forall k i g after next page successor promised,
    PReply n k (YStopped i g after next page successor promised) ∈ net' ->
    PReply n k (YStopped i g after next page successor promised) ∈ net \/ (dr_promised (s_records S i) ≤ promised)%B }.

Lemma bootstrapped_frame net net' s i : (forall p, p ∈ net -> p ∈ net') -> bootstrapped net s i -> bootstrapped net' s i.
Proof using. intros Hn (n & k & holds & Hp). exists n, k, holds. by apply Hn. Qed.

Section framed.
Context (n : NodeId) (net : list Packet) (S : Sys (I:=MatchmakerId) (V:=list MatchmakerId)) (net' : list Packet)
  (S' : Sys (I:=MatchmakerId) (V:=list MatchmakerId)) (Hf : frame n net S net' S').

Lemma request_sim_sent S1 S2 q :
  (forall m, m ∈ s_sent S1 -> m ∈ s_sent S2) -> (forall e, e ∈ s_chosen S1 -> e ∈ s_chosen S2) ->
  request_sim S1 q -> request_sim S2 q.
Proof using.
  intros Hs Hc. destruct q; simpl; try done; [intros (? & ? & ?); by auto..|]. intros (b & v & ? & ?). exists b, v. by auto.
Qed.

Lemma barrier_frame k x : barrier net S n k x -> barrier net' S' n k x.
Proof using Hf.
  intros (Q & HQ & Hb). exists Q. split; [done|]. intros i Hi. destruct (Hb i Hi) as [Hp Hr]. split.
  - etrans; [exact Hp|by apply (fr_promised _ _ _ _ _ Hf)].
  - intros g after next page s promised [Hin|Hle]%(fr_stopped _ _ _ _ _ Hf); [by eapply Hr|by etrans].
Qed.

Lemma own_rounds_frame k minted : own_rounds net S n k minted -> own_rounds net' S' n k minted.
Proof using Hf.
  intros Ho x v Hx%(fr_accept _ _ _ _ _ Hf). destruct (Ho x v Hx); [by left|right; by apply barrier_frame].
Qed.

Lemma phase_sim_frame k minted minted' phase :
  phase_ok n minted' phase -> phase_sim net S n k minted phase -> phase_sim net' S' n k minted phase.
Proof using Hf.
  intros Hok. destruct phase as [|o t acks partial floor|o b acks held floor|o b d|o s oa na]; simpl in *; [done|..].
  - intros (-> & Hr & Hp & Hc). split_and!; [done..|]. intros i Hi.
    destruct (Hc i Hi) as (g & after & next & page & s & promised & Hin & ?). exists g, after, next, page, s, promised.
    split; [by apply (fr_net _ _ _ _ _ Hf)|done].
  - intros (-> & Hca & Ha & Hx). split_and!; [done..|intros i Hi; by eapply bootstrapped_frame, Ha; [apply Hf|]|].
    intros x v ?%(fr_accept _ _ _ _ _ Hf). by eapply Hx.
  - intros (-> & Hca & Ha & Hd & Hm & Hx).
    split_and!; [done..|intros i Hi; by eapply bootstrapped_frame, Ha; [apply Hf|]| |by apply (fr_sent _ _ _ _ _ Hf)|].
    + destruct Hok as (_ & _ & Hdec). assert (d_ballot d = mkBallot (round (d_ballot d)) n) as Eb
        by (destruct Hdec; simpl; subst; by destruct b0).
      rewrite Eb in *. by apply (fr_proposers _ _ _ _ _ Hf).
    + intros x v ?%(fr_accept _ _ _ _ _ Hf). by eapply Hx.
  - intros (-> & b & v & ? & ?). split; [done|]. exists b, v. split; [by apply (fr_chosen _ _ _ _ _ Hf)|done].
Qed.

Lemma node_sim_frame k r : node_sim net S n k r -> node_sim net' S' n k r.
Proof using Hf.
  intros []. split; try done.
  - intros e He. eapply request_sim_sent; [apply Hf..|by apply ns_pending0].
  - by apply own_rounds_frame.
  - eapply phase_sim_frame; [|done]. subst n. apply ns_wf0.
Qed.
End framed.

(** ** A matchmaker's step *)

(** An answer adds replies only. *)
Record answers_as S S' : Prop := {
  aa_inv : inv (old_config old) S';
  aa_sent : forall m, m ∈ s_sent S -> m ∈ s_sent S';
  aa_accept : forall b v, MAccept b v ∈ s_sent S' -> MAccept b v ∈ s_sent S;
  aa_proposers : s_proposers S' = s_proposers S;
  aa_chosen : s_chosen S' = s_chosen S;
  aa_proposed : s_proposed S' = s_proposed S;
  aa_promised : forall i, (dr_promised (s_records S i) ≤ dr_promised (s_records S' i))%B }.

Lemma answers_as_refl S : inv (old_config old) S -> answers_as S S.
Proof using. intros Hi. split; done. Qed.

Lemma answers_as_record S i rec reply :
  inv (old_config old) (set_record S i rec reply) -> (dr_promised (s_records S i) ≤ dr_promised rec)%B ->
  answers_as S (set_record S i rec reply).
Proof using.
  intros Hi Hle. split; try done.
  - intros m Hm. by right.
  - intros b v. cbn. rewrite elem_of_cons. by intros [?|?].
  - intros j. cbn. case_decide; by subst.
Qed.

Lemma answered_sim w S S' i rec n k y :
  sim w S -> answers_as S S' -> (forall j, s_records S' j = if decide (j = i) then rec else hw_records w j) ->
  round (dr_promised rec) < u64_max -> reply_sim S' y ->
  match y with YStopped j _ _ _ _ _ promised => (dr_promised (hw_records w j) ≤ promised)%B | _ => True end ->
  (exists k' r, hw_nodes w !! n = Some (k', r) /\ k <= k') ->
  sim (answer_packet w i rec (PReply n k y)) S'.
Proof using.
  intros [] [] Hrec Hround Hy Hstop Hboot. split; simpl; try done.
  - intros j. case_decide; auto.
  - intros v Hv. unfold proposed in Hv. rewrite aa_proposed0 in Hv. destruct (sm_proposed0 v Hv) as [? Hb]. split; [done|].
    intros j Hj. eapply bootstrapped_frame, Hb; [|done]. intros p Hp. by right.
  - intros p [->|Hp]%elem_of_cons; [done|]. specialize (sm_packets0 p Hp).
    destruct p as [? ? ? q|? ? y']; simpl in *; [eapply request_sim_sent; [done|by rewrite aa_chosen0|done]|].
    destruct y'; simpl in *; auto.
  - intros p [->|Hp]%elem_of_cons; [done|by apply sm_boots0].
  - intros n' k' r' Hn. eapply node_sim_frame; [|by apply sm_nodes0]. split; simpl; try done.
    + intros p Hp. by right.
    + intros x v. apply aa_accept0.
    + by rewrite aa_proposers0.
    + by rewrite aa_chosen0.
    + intros k1 j g after next page s promised. rewrite elem_of_cons. intros [[= _ _ <-]|?]; [right|by left].
      by rewrite sm_records0.
Qed.

Lemma unchanged_sim w S i n k y :
  sim w S -> reply_sim S y ->
  match y with YStopped j _ _ _ _ _ promised => (dr_promised (hw_records w j) ≤ promised)%B | _ => True end ->
  (exists k' r, hw_nodes w !! n = Some (k', r) /\ k <= k') ->
  sim (answer_packet w i (hw_records w i) (PReply n k y)) S.
Proof using.
  intros Hs Hy Hstop Hb. eapply answered_sim; try done.
  - apply answers_as_refl, Hs.
  - intros j. rewrite (sm_records _ _ Hs). case_decide; by subst.
  - apply Hs.
Qed.

(** A decree handler's step is the system's. *)
Lemma decree_served_sim w S c i n k rec reply :
  sim w S -> (exists k' r, hw_nodes w !! n = Some (k', r) /\ k <= k') ->
  inv (old_config old) (set_record S i rec reply) ->
  (dr_promised (hw_records w i) ≤ dr_promised rec)%B -> round (dr_promised rec) < u64_max ->
  sim (answer_packet w i rec (PReply n k (decree_answer old c i reply))) (set_record S i rec reply).
Proof using.
  intros Hs Hb Hi Hle Hr. apply (answered_sim w S); try done.
  - apply answers_as_record; [done|]. by rewrite (sm_records _ _ Hs).
  - intros j. cbn. case_decide; [done|apply Hs].
  - destruct reply; simpl; [by left..|done|done].
  - by destruct reply.
Qed.

Lemma prepare_served w S c i n k b rec reply :
  sim w S -> (exists k' r, hw_nodes w !! n = Some (k', r) /\ k <= k') -> i ∈ ms_members old -> round b < u64_max ->
  on_decree_prepare true (hw_records w i) b = Done (rec, reply) ->
  sim (answer_packet w i rec (PReply n k (decree_answer old c i reply))) (set_record S i rec reply).
Proof using.
  intros Hs Hb Hin Hround E. rewrite <-(sm_records _ _ Hs) in E. pose proof (sm_inv _ _ Hs) as Hinv.
  apply decree_served_sim; [done|done|by eapply (prepare_step_inv (old_config old))|..].
  all: rewrite on_decree_prepare_ok in E by apply Hinv; injection E as E; rewrite (sm_records _ _ Hs) in E.
  all: case_decide as Hlt; injection E as <- <-; try done; try apply Hs. simpl. by apply ord_not_lt.
Qed.

Lemma accept_served w S c i n k b v rec reply :
  sim w S -> (exists k' r, hw_nodes w !! n = Some (k', r) /\ k <= k') -> i ∈ ms_members old -> round b < u64_max ->
  MAccept b v ∈ s_sent S -> on_decree_accept true (hw_records w i) b v = Done (rec, reply) ->
  sim (answer_packet w i rec (PReply n k (decree_answer old c i reply))) (set_record S i rec reply).
Proof using.
  intros Hs Hb Hin Hround Hm E. rewrite <-(sm_records _ _ Hs) in E. pose proof (sm_inv _ _ Hs) as Hinv.
  apply decree_served_sim; [done|done|by eapply (accept_step_inv (old_config old))|..].
  all: destruct (inv_accept _ _ Hinv _ _ Hm) as (_ & Hcan & _).
  all: rewrite on_decree_accept_ok in E; [|apply Hinv|done|by eapply (accept_agrees (old_config old))].
  all: injection E as E; rewrite (sm_records _ _ Hs) in E.
  all: case_decide as Hlt; injection E as <- <-; try done; try apply Hs. simpl. by apply ord_not_lt.
Qed.

Lemma serve_sim w S n k i q c rec y :
  sim w S -> PRequest n k i q ∈ hw_net w -> 0 < cc_page c -> serve old frozen_of c i (hw_records w i) q = Done (rec, y) ->
  exists S', sim (answer_packet w i rec (PReply n k y)) S'.
Proof using.
  intros Hs Hq Hp E. pose proof (sm_boots _ _ Hs _ Hq) as Hb. simpl in Hb. pose proof (sm_packets _ _ Hs _ Hq) as Hreq. simpl in Hreq.
  assert (sim (answer_packet w i (hw_records w i) (PReply n k (refuse c i))) S) as Href by by apply unchanged_sim.
  unfold serve in E. destruct q as [from g after|from page|from g b|from g b v|from g s].
  - destruct (frozen_slice _ _ _) as [page next] eqn:Eslice. injection E as <- <-. exists S.
    destruct (_ && _); [|exact Href]. apply unchanged_sim; [done| |done|done]. simpl. split; [apply Hs|]. by exists (cc_page c).
  - injection E as <- <-. exists S. destruct (cc_serves c); [|exact Href]. by apply unchanged_sim.
  - destruct (_ && _) eqn:Eserves.
    + apply bind_Done_inv in E as ([rec' reply] & E & Er). injection Er as <- <-.
      rewrite !andb_true_iff, !bool_decide_eq_true in Eserves. destruct Eserves as [[_ Hin] _].
      eexists. by eapply prepare_served; [..|apply Hreq|].
    + injection E as <- <-. by exists S.
  - destruct (_ && _) eqn:Eserves.
    + apply bind_Done_inv in E as ([rec' reply] & E & Er). injection Er as <- <-.
      rewrite !andb_true_iff, !bool_decide_eq_true in Eserves. destruct Eserves as [[_ Hin] _].
      eexists. destruct Hreq as (_ & ? & ?). by eapply accept_served.
    + injection E as <- <-. by exists S.
  - injection E as <- <-. exists S. destruct (cc_serves c); [|exact Href]. by apply unchanged_sim.
Qed.

(** ** A node's step *)

(** A node proposes at its own ballots only. *)
Record proposes n net S S' : Prop := {
  po_inv : inv (old_config old) S';
  po_records : forall i, s_records S' i = s_records S i;
  po_sent : forall m, m ∈ s_sent S -> m ∈ s_sent S';
  po_accept : forall b v, MAccept b v ∈ s_sent S' -> MAccept b v ∈ s_sent S \/ node b = n;
  po_proposers : forall b d, node b <> n -> s_proposers S !! b = Some d -> s_proposers S' !! b = Some d;
  po_chosen : forall e, e ∈ s_chosen S -> e ∈ s_chosen S';
  po_proposed : forall v, proposed S' v -> proposed S v \/ proposal_sim net v }.

Lemma proposes_refl n net S : inv (old_config old) S -> proposes n net S S.
Proof using. intros Hi. split; auto. Qed.

Lemma proposes_set_proposer n net S b d sent chosen :
  inv (old_config old) (set_proposer S b d sent chosen) -> node b = n ->
  (forall b' v, MAccept b' v ∈ sent -> b' = b) -> proposes n net S (set_proposer S b d sent chosen).
Proof using.
  intros Hi Hn Ha. split; cbn; try done.
  - intros m Hm. apply elem_of_app. by right.
  - intros b' v [Hm|Hm]%elem_of_app; [right; by rewrite (Ha b' v Hm)|by left].
  - intros b' d' Hne Hd. rewrite lookup_insert_ne; [done|]. intros ->. done.
  - intros e He. apply elem_of_app. by right.
  - by left.
Qed.

Lemma proposes_propose n net S b v d :
  inv (old_config old) (set_proposer (add_proposal S v) b d [MPrepare b] []) -> node b = n -> proposal_sim net v ->
  proposes n net S (set_proposer (add_proposal S v) b d [MPrepare b] []).
Proof using.
  intros Hi Hn Hv. split; cbn; try done.
  - intros m Hm. by right.
  - intros b' v' [Hm|Hm]%elem_of_cons; [done|by left].
  - intros b' d' Hne Hd. rewrite lookup_insert_ne; [done|]. intros ->. done.
  - intros v'. unfold proposed. cbn. rewrite elem_of_cons. intros [->|?]; [by right|by left].
Qed.

Lemma node_stepped w S S' n k r r' (sent : list Packet) :
  sim w S -> hw_nodes w !! n = Some (k, r) -> proposes n (hw_net w) S S' -> node_sim (hw_net w) S' n k r' ->
  (forall p, p ∈ sent -> exists i q, p = PRequest n k i q /\ request_sim S' q) ->
  sim (set_reconfigurer w n k r' sent) S'.
Proof using.
  intros [] Hn [] Hnode Hsent. split; simpl; try done.
  - intros i. by rewrite po_records0.
  - intros v Hv. assert (proposal_sim (hw_net w) v) as [? Hb] by (destruct (po_proposed0 v Hv); auto). split; [done|].
    intros i Hi. eapply bootstrapped_frame, Hb; [|done]. intros p Hp. apply elem_of_app. by right.
  - intros p [Hp|Hp]%elem_of_app; [by destruct (Hsent p Hp) as (i & q & -> & ?)|]. specialize (sm_packets0 p Hp).
    destruct p as [? ? ? q|? ? y]; simpl in *; [by eapply request_sim_sent|]. destruct y; simpl in *; auto.
  - intros p Hp. destruct (decide ((packet_of p).1 = n)) as [En|Hne].
    + rewrite En, lookup_insert_eq. exists k, r'. split; [done|]. apply elem_of_app in Hp as [Hp|Hp].
      * destruct (Hsent p Hp) as (i & q & -> & _). simpl. lia.
      * destruct (sm_boots0 p Hp) as (k' & r0 & E & ?). rewrite En, Hn in E. by injection E as <- <-.
    + rewrite lookup_insert_ne by done. apply sm_boots0. apply elem_of_app in Hp as [Hp|Hp]; [|done].
      by destruct (Hsent p Hp) as (i & q & -> & _).
  - intros n' k' r0. assert (forall k1 n1 i g after next page s promised,
      PReply n1 k1 (YStopped i g after next page s promised) ∈ sent ++ hw_net w ->
      PReply n1 k1 (YStopped i g after next page s promised) ∈ hw_net w) as Hstop.
    { intros ? ? ? ? ? ? ? ? ? [Hp|?]%elem_of_app; [|done]. by destruct (Hsent _ Hp) as (? & ? & ? & _). }
    rewrite lookup_insert. case_decide as Hd; [intros [= <- <-]; subst n'|intros Hn'].
    + eapply node_sim_frame; [|exact Hnode]. split; try done; [|by left; eapply Hstop]. intros p Hp. apply elem_of_app. by right.
    + eapply node_sim_frame; [|by apply sm_nodes0]. split; try done.
      * intros p Hp. apply elem_of_app. by right.
      * intros x v [?|Hx]%po_accept0; [done|]. simpl in Hx. by subst n'.
      * intros x d. apply po_proposers0. simpl. congruence.
      * intros i. by rewrite po_records0.
      * left. by eapply Hstop.
Qed.

(** A running phase's requests stand for messages of the system. *)
Lemma requests_sim net S n k minted phase q :
  inv (old_config old) S -> phase_ok n minted phase -> minted < u64_max -> phase_sim net S n k minted phase ->
  phase_asks phase q -> request_sim S q.
Proof using.
  intros Hinv Hok Hm Hp Hq. destruct q as [| |from g b|from g b v|from g s]; simpl in *; [done|done|..].
  - destruct Hq as (o & b' & d & -> & -> & -> & _). destruct Hp as (-> & _ & _ & _ & Hmsg & _).
    destruct Hok as (_ & _ & Hd). split_and!; [done..|]. destruct Hd; simpl; lia.
  - destruct Hq as (o & b' & d & -> & -> & -> & Hv). destruct Hp as (-> & _ & _ & Hpr & _).
    destruct Hok as (_ & _ & Hd). split_and!; [done| |destruct Hd; simpl; lia].
    apply (inv_proposer _ _ Hinv) in Hpr. remember (d_ballot d) as b eqn:Eb. clear Eb Hd.
    destruct Hpr; [done|]. by injection Hv as <-.
  - destruct Hq as (o & oa & na & -> & _). by destruct Hp as (-> & ?).
Qed.

Lemma node_moved net S S' n k r r' :
  node_sim net S n k r -> proposes n net S S' -> rc_wf r' -> acts r r' -> rc_round r' < u64_max ->
  (forall x v, MAccept (mkBallot x n) v ∈ s_sent S' -> MAccept (mkBallot x n) v ∈ s_sent S \/ x <= rc_round r') ->
  phase_sim net S' n k (rc_round r') (rc_phase r') -> node_sim net S' n k r'.
Proof using.
  intros [] Hpo Hw [Hn Hr Hq] Hround Hacc Hp.
  assert (rc_node r' = n) as Hnode by congruence. split; try done.
  - intros e [He|He]%Hq; [eapply request_sim_sent; [apply Hpo..|by apply ns_pending0]|].
    eapply requests_sim; [apply Hpo| |exact Hround|done|done]. rewrite <-Hnode. apply Hw.
  - intros x v Hx. destruct (Hacc x v Hx) as [Hx'|?]; [|by left]. destruct (ns_own0 x v Hx') as [?|(Q & HQ & Hb)]; [left; lia|right].
    exists Q. split; [done|]. intros i Hi. rewrite (po_records _ _ _ _ Hpo). by apply Hb.
Qed.

(** A step that leaves the system alone. *)
Lemma node_quiet net S n k r r' :
  inv (old_config old) S -> node_sim net S n k r -> rc_wf r' -> acts r r' -> rc_round r' < u64_max ->
  phase_sim net S n k (rc_round r') (rc_phase r') -> node_sim net S n k r'.
Proof using. intros Hi Hs Hw Ha Hr Hp. eapply node_moved; [done|by apply proposes_refl|done..|by left|done]. Qed.

(** ** Replies *)

Context (Hold : set_fits old).

Lemma old_wf : config_wf (old_config old).
Proof using Hold. apply old_config_wf, Hold. Qed.

Lemma accept_members w S b v : sim w S -> MAccept b v ∈ s_sent S -> members_ok v.
Proof using.
  intros Hs Hm. apply (inv_accept _ _ (sm_inv _ _ Hs)) in Hm as (_ & _ & _ & Hp). by apply (sm_proposed _ _ Hs).
Qed.

(** Every reply in flight is one the reconfigurer may rely on. *)
Lemma replies_ok w S n k r y :
  sim w S -> hw_nodes w !! n = Some (k, r) -> PReply n k y ∈ hw_net w -> reply_ok (rc_phase r) y.
Proof using.
  intros Hs Hn Hy. pose proof (sm_inv _ _ Hs) as Hinv. pose proof (sm_packets _ _ Hs _ Hy) as Hsim.
  pose proof (ns_phase _ _ _ _ _ (sm_nodes _ _ Hs _ _ _ Hn)) as Hp.
  destruct y as [i g after next page s promised| |i g b vote| | | |]; simpl in *; try done; [apply Hsim|].
  destruct (rc_phase r) as [| | |o bo d|]; try done. destruct Hp as (-> & _ & _ & Hpr & _). intros _ ->.
  apply (inv_promise _ _ Hinv) in Hsim as (_ & _ & Hv & _). split.
  - apply (reports_agree (old_config old) S); [done| |done]. apply (inv_proposer _ _ Hinv) in Hpr.
    remember (d_ballot d) as b eqn:Eb. clear Eb. destruct Hpr; [|done]. by rewrite decree_held_phase1.
  - destruct vote as [[bv vv]|]; [|done]. by eapply (accept_members w S).
Qed.

(** A fresh decree at a round [n] never sent a value at. *)
Lemma open_sim net S n k minted r r' b :
  inv (old_config old) S -> node_sim net S n k r -> rc_wf r' -> acts r r' -> rc_round r' < u64_max ->
  minted = rc_round r' -> bootstrap_fits old b -> carried b ->
  (forall i, i ∈ ms_members (bo_set b) -> bootstrapped net (bo_set b) i) ->
  rc_phase r' = RDeciding old b (decree_phase1 (mkBallot minted n) (old_config old) (ms_members (bo_set b)) ∅ None None) ->
  (forall x v, MAccept (mkBallot x n) v ∈ s_sent S -> x < minted) ->
  exists S', proposes n net S S' /\ node_sim net S' n k r'.
Proof using Hold.
  intros Hinv Hs Hw Ha Hr -> (Hbw & Hbg & _) Hc Hb Hp Hx. set (ballot := mkBallot (rc_round r') n) in *.
  set (v := ms_members (bo_set b)) in *. set (d := decree_phase1 _ _ _ _ _ _) in *.
  assert (unsent S ballot) as Hun by (apply unsent_iff; intros v' Hm; apply Hx in Hm; lia).
  assert (normalize v = v) as Hcan by apply normalize_id, Hbw.
  assert (inv (old_config old) (set_proposer (add_proposal S v) ballot d [MPrepare ballot] [])) as Hinv'
    by (apply (propose_step_inv _ old_wf); [done..|by apply decree_new_ok, old_wf]).
  assert (proposal_sim net v) as Hprop.
  { split; [by apply set_members_fit|]. intros i Hi. replace (mkSet (next_of old) v) with (bo_set b); [by apply Hb|].
    unfold v. rewrite <-Hbg. by destruct (bo_set b). }
  assert (proposes n net S (set_proposer (add_proposal S v) ballot d [MPrepare ballot] [])) as Hpo by by apply proposes_propose.
  eexists. split; [exact Hpo|]. assert (forall x v', MAccept (mkBallot x n) v' ∈ MPrepare ballot :: s_sent S ->
    MAccept (mkBallot x n) v' ∈ s_sent S) as Hsent by (intros x v' [?|?]%elem_of_cons; done).
  eapply node_moved; [exact Hs|done..| |].
  - intros x v' Hm. left. by apply Hsent.
  - rewrite Hp. simpl. split_and!; [done|done|done|by rewrite lookup_insert_eq|by left|].
    intros x v' Hm%Hsent. apply Hx in Hm. lia.
Qed.

(** A decree's own move. *)
Lemma decide_sim net S n k r r' b d d' sent chosen :
  node_sim net S n k r -> rc_phase r = RDeciding old b d -> rc_wf r' -> acts r r' -> rc_round r' < u64_max ->
  rc_round r' = rc_round r ->
  inv (old_config old) (set_proposer S (d_ballot d) d' sent chosen) ->
  (forall b' v, MAccept b' v ∈ sent -> b' = d_ballot d) ->
  (rc_phase r' = RDeciding old b d' \/ exists s v, rc_phase r' = RPublishing old s ∅ ∅ /\
     (d_ballot d, v) ∈ chosen /\ s = mkSet (next_of old) (normalize v)) ->
  exists S', proposes n net S S' /\ node_sim net S' n k r'.
Proof using.
  intros Hs Hph Hw Ha Hr Er Hinv Hsent Hp'. pose proof (ns_phase _ _ _ _ _ Hs) as Hp. rewrite Hph in Hp. simpl in Hp.
  destruct Hp as (_ & Hc & Hb & Hd & Hm & Hx). pose proof (rcc_phase _ (proj1 (ns_wf _ _ _ _ _ Hs))) as Hok.
  rewrite Hph, (ns_node _ _ _ _ _ Hs) in Hok. destruct Hok as (_ & _ & Hdec).
  assert (node (d_ballot d) = n /\ round (d_ballot d) <= rc_round r) as [Hbn Hbr] by by destruct Hdec.
  assert (d_ballot d' = d_ballot d) as Eb.
  { assert (proposer_ok (old_config old) (set_proposer S (d_ballot d) d' sent chosen) (d_ballot d) d') as Hok'
      by (apply (inv_proposer _ _ Hinv); cbn; by rewrite lookup_insert_eq).
    by destruct Hok'. }
  assert (proposes n net S (set_proposer S (d_ballot d) d' sent chosen)) as Hpo by by apply proposes_set_proposer.
  assert (forall x v, MAccept (mkBallot x n) v ∈ sent ++ s_sent S -> MAccept (mkBallot x n) v ∈ s_sent S \/ x <= rc_round r') as Hx'.
  { intros x v [Hin|?]%elem_of_app; [|by left]. right. apply Hsent in Hin. rewrite <-Hin in Hbr. simpl in Hbr. lia. }
  eexists. split; [exact Hpo|]. eapply node_moved; [exact Hs|done..|exact Hx'|].
  destruct Hp' as [->|(s & v & -> & Hch & ->)]; simpl.
  - split_and!; [done|done|done|by rewrite Eb, lookup_insert_eq|rewrite Eb; apply elem_of_app; by right|].
    intros x v [Hin|?]%Hx'; [rewrite Er; by eapply Hx|done].
  - split; [done|]. exists (d_ballot d), v. split; [apply elem_of_app; by left|done].
Qed.

(** A page read from a frozen member. *)
Lemma page_read (partial : gmap MatchmakerId (Registries * JournalId)) from after next page width :
  reads_partly partial -> after = snd <$> partial !! from -> 0 < width ->
  frozen_slice (frozen_of from) after width = (page, next) ->
  page ∪ default ∅ (fst <$> partial !! from) = match next with Some c => read_upto (frozen_of from) (Some c) | None => frozen_of from end.
Proof using.
  intros Hr Ha Hw Hs. pose proof (slice_continues (frozen_of from) after width Hw) as H. rewrite Hs in H. cbn [fst snd] in H.
  rewrite <-H. f_equal. subst after. destruct (partial !! from) as [[X c]|] eqn:E; simpl; [by apply (Hr from)|done].
Qed.

Lemma floor_covers_raised net n k acks floor promised :
  floor_covers net n k acks floor -> floor_covers net n k acks (ord_max floor promised).
Proof using.
  intros Hc i Hi. destruct (Hc i Hi) as (g & after & next & page & s & p & Hin & Hle). exists g, after, next, page, s, p.
  split; [done|]. etrans; [exact Hle|apply ord_max_ge_l].
Qed.

Section reply_step.
Context (w : HandoverWorld) (S : Sys (I:=MatchmakerId) (V:=list MatchmakerId)) (n : NodeId) (k : N) (r r' : Reconfigurer)
  (y : ReconfigureReply).
Context (Hs : sim w S) (Hn : hw_nodes w !! n = Some (k, r)) (Hy : PReply n k y ∈ hw_net w)
  (Hw : rc_wf r') (Ha : acts r r') (Hround : rc_round r' < u64_max).

Definition node_steps : Prop := exists S', proposes n (hw_net w) S S' /\ node_sim (hw_net w) S' n k r'.

Lemma node_before : node_sim (hw_net w) S n k r.
Proof using Hs Hn. by apply (sm_nodes _ _ Hs). Qed.

Lemma stepped_quiet : phase_sim (hw_net w) S n k (rc_round r') (rc_phase r') -> node_steps.
Proof using Hs Hn Hw Ha Hround.
  intros Hp. exists S. split; [apply proposes_refl, Hs|]. eapply node_quiet; [apply Hs|apply node_before|done..].
Qed.

Lemma stopped_stepped o t acks partial floor from g after next page promised acks' partial' :
  y = YStopped from g after next page None promised ->
  rc_phase r = RStopping o t acks partial floor -> after = snd <$> partial !! from ->
  rc_phase r' = RStopping o t acks' partial' (ord_max floor promised) ->
  match next with
  | Some next => acks' = acks /\ partial' = <[from := (page ∪ default ∅ (fst <$> partial !! from), next)]> (delete from partial)
  | None => acks' = <[from := page ∪ default ∅ (fst <$> partial !! from)]> acks /\ partial' = delete from partial
  end -> node_steps.
Proof using Hs Hn Hy Hw Ha Hround.
  intros -> Hph Haf Hph' Hcase. pose proof (ns_phase _ _ _ _ _ node_before) as Hp. rewrite Hph in Hp.
  destruct Hp as (-> & Hr & Hpa & Hc). pose proof (sm_packets _ _ Hs _ Hy) as (_ & width & Hwi & Hsl).
  pose proof (page_read partial from after next page width Hpa Haf Hwi Hsl) as Hread.
  assert (reads_partly (delete from partial)) as Hdel.
  { intros i X c E. apply lookup_delete_Some in E as [_ E]. by apply (Hpa i). }
  apply stepped_quiet. rewrite Hph'. destruct next as [next|]; destruct Hcase as [-> ->]; simpl; rewrite Hread; split_and!; try done.
  - intros i X c. rewrite lookup_insert_Some. intros [[<- [= <- <-]]|[_ E]]; [done|by apply (Hdel i)].
  - by apply floor_covers_raised.
  - intros i X. rewrite lookup_insert_Some. intros [[<- <-]|[_ E]]; [done|by apply Hr].
  - intros i. rewrite lookup_insert_is_Some'. intros [<-|Hi]; [|exact (floor_covers_raised _ _ _ _ _ promised Hc i Hi)].
    eexists _, _, _, _, _, _. split; [exact Hy|apply ord_max_ge_r].
Qed.

Lemma acked_bootstrapped (acks : gset MatchmakerId) s i :
  (forall j, j ∈ acks -> bootstrapped (hw_net w) s j) -> i ∈ acks \/ (exists holds, y = YBootstrapped i s holds true) ->
  bootstrapped (hw_net w) s i.
Proof using Hy. intros Hb [?|[holds ->]]; [by apply Hb|]. by exists n, k, holds. Qed.

Lemma opened_stepped o b acks held floor :
  rc_phase r = RBootstrapping o b acks held floor ->
  (forall m, m ∈ ms_members (bo_set b) -> m ∈ acks \/ exists holds, y = YBootstrapped m (bo_set b) holds true) ->
  rc_round r' = u64_saturating_add (N.max (rc_round r) (round floor)) 1 ->
  rc_phase r' = RDeciding o b (decree_phase1 (mkBallot (rc_round r') n) (old_config o) (ms_members (bo_set b)) ∅ None None) ->
  node_steps.
Proof using Hold Hs Hn Hy Hw Ha Hround.
  intros Hph Hacks Hmint Hph'. pose proof node_before as Hnode. pose proof (ns_phase _ _ _ _ _ Hnode) as Hp. rewrite Hph in Hp.
  destruct Hp as (-> & Hc & Hb & Hx). pose proof (rcc_phase _ (proj1 (ns_wf _ _ _ _ _ Hnode))) as Hok. rewrite Hph in Hok.
  eapply (open_sim (hw_net w) S n k (rc_round r') r r' b); try done; [apply Hs|apply Hok| |].
  - intros i Hi. eapply acked_bootstrapped; [exact Hb|by apply Hacks].
  - intros x v Hm. apply Hx in Hm. unfold u64_saturating_add in Hmint. lia.
Qed.

Lemma deciding_before o b d : rc_phase r = RDeciding o b d ->
  o = old /\ s_proposers S !! d_ballot d = Some d.
Proof using Hs Hn. intros Hph. pose proof (ns_phase _ _ _ _ _ node_before) as Hp. rewrite Hph in Hp. by destruct Hp as (-> & _ & _ & ? & _). Qed.

Lemma promised_stepped o b d from g vote d' fold :
  y = YPromised from g (d_ballot d) vote -> rc_phase r = RDeciding o b d -> on_promise d from vote = Done (d', fold) ->
  rc_round r' = rc_round r -> rc_phase r' = RDeciding o b d' -> node_steps.
Proof using Hold Hs Hn Hy Hw Ha Hround.
  intros -> Hph Eon Er Hph'. destruct (deciding_before o b d Hph) as [-> Hd]. pose proof (sm_packets _ _ Hs _ Hy) as Hmsg. simpl in Hmsg.
  destruct (promised_step (old_config old) old_wf S from (d_ballot d) vote d (sm_inv _ _ Hs) Hmsg Hd) as (d1 & fold1 & E1 & Hinv).
  rewrite Eon in E1. injection E1 as <- <-.
  eapply (decide_sim (hw_net w) S n k r r' b d d'); [apply node_before|done..|exact Hinv| |by left].
  intros b' v Hin. destruct fold; simpl in Hin; [by apply elem_of_nil in Hin..|]. apply list_elem_of_singleton in Hin. congruence.
Qed.

Lemma accepted_stepped o b d from g d' fold :
  y = YAccepted from g (d_ballot d) -> rc_phase r = RDeciding o b d -> on_accepted d from = Done (d', fold) ->
  rc_round r' = rc_round r ->
  match fold with
  | AChosen v => rc_phase r' = RPublishing o (mkSet (next_of o) (normalize v)) ∅ ∅
  | _ => rc_phase r' = RDeciding o b d'
  end -> node_steps.
Proof using Hold Hs Hn Hy Hw Ha Hround.
  intros -> Hph Eon Er Hph'. destruct (deciding_before o b d Hph) as [-> Hd]. pose proof (sm_packets _ _ Hs _ Hy) as Hmsg. simpl in Hmsg.
  destruct (accepted_step (old_config old) old_wf S from (d_ballot d) d (sm_inv _ _ Hs) Hmsg Hd) as (d1 & fold1 & E1 & Hinv).
  rewrite Eon in E1. injection E1 as <- <-.
  eapply (decide_sim (hw_net w) S n k r r' b d d'); [apply node_before|done..|exact Hinv|by intros b' v ?%elem_of_nil|].
  destruct fold as [| |v]; [by left..|right]. eexists _, v. split; [done|]. split; [by left|done].
Qed.

Lemma nacked_stepped o b d from g promised d' :
  y = YNacked from g (d_ballot d) promised -> rc_phase r = RDeciding o b d -> on_nack d promised = Done d' ->
  rc_round r' = rc_round r -> rc_phase r' = RDeciding o b d' -> node_steps.
Proof using Hold Hs Hn Hy Hw Ha Hround.
  intros -> Hph Eon Er Hph'. destruct (deciding_before o b d Hph) as [-> Hd].
  destruct (nacked_step (old_config old) S (d_ballot d) promised d (sm_inv _ _ Hs) Hd) as (d1 & E1 & Hinv).
  rewrite Eon in E1. injection E1 as <-.
  eapply (decide_sim (hw_net w) S n k r r' b d d'); [apply node_before|done..|exact Hinv|by intros b' v ?%elem_of_nil|by left].
Qed.

(** Every move a reply makes is simulated. *)
Lemma reply_stepped phase reply phase' minted' step :
  reply_moves n (rc_round r) phase reply phase' minted' step ->
  rc_phase r = phase -> y = reply -> rc_phase r' = phase' -> rc_round r' = minted' -> node_steps.
Proof using Hold Hs Hn Hy Hw Ha Hround.
  intros Hm Eph Ey Eph' Em. pose proof (ns_phase _ _ _ _ _ node_before) as Hp. rewrite Eph in Hp. destruct Hm.
  - apply stepped_quiet. by rewrite Eph', Em.
  - apply stepped_quiet. by rewrite Eph'.
  - by eapply (stopped_stepped _ _ _ _ _ _ _ _ (Some _)).
  - by eapply (stopped_stepped _ _ _ _ _ _ _ _ None).
  - apply stepped_quiet. rewrite Eph', Em. destruct Hp as (-> & Hc & Hb & Hx). split_and!; [done|done| |done].
    intros i Hi. eapply acked_bootstrapped; [exact Hb|]. rewrite Ey. by apply H.
  - eapply opened_stepped; [exact Eph|by rewrite Ey|congruence|]. by rewrite Eph', Em.
  - by eapply promised_stepped.
  - eapply accepted_stepped; [done..|]. by destruct fold.
  - by eapply (accepted_stepped _ _ _ _ _ _ (AChosen _)).
  - by eapply nacked_stepped.
  - apply stepped_quiet. by rewrite Eph'.
  - apply stepped_quiet. by rewrite Eph'.
Qed.
End reply_step.

(** ** Operations *)

Lemma ballot_le_round (a b : Ballot) : (a ≤ b)%B -> round a <= round b.
Proof using. intros Hle. blia. Qed.

Lemma majority_meets (Q A : gset MatchmakerId) :
  promise_quorum (old_config old) Q -> set_majority old A -> exists i, i ∈ Q /\ i ∈ A.
Proof using Hold.
  intros HQ HA. destruct (set_majorities_meet old (proj1 Hold) Q A) as (i & _ & ? & ?); [exact HQ|done|]. by exists i.
Qed.

(** The stop quorum's promises cover every round [n] ever sent a value at. *)
Lemma floor_covers_rounds net S n k minted acks floor :
  own_rounds net S n k minted -> floor_covers net n k acks floor -> set_majority old (dom acks) ->
  forall x v, MAccept (mkBallot x n) v ∈ s_sent S -> x <= N.max minted (round floor).
Proof using Hold.
  intros Ho Hf Hm x v Hx. destruct (Ho x v Hx) as [?|(Q & HQ & Hb)]; [lia|].
  destruct (majority_meets Q (dom acks) HQ Hm) as (i & HiQ & Hi%elem_of_dom).
  destruct (Hf i Hi) as (g & after & next & page & s & promised & Hin & Hle). destruct (Hb i HiQ) as [_ Hp].
  assert (mkBallot x n ≤ floor)%B as Hxf by (etrans; [by eapply Hp|exact Hle]).
  apply ballot_le_round in Hxf. simpl in Hxf. lia.
Qed.

Section op_step.
Context (w : HandoverWorld) (S : Sys (I:=MatchmakerId) (V:=list MatchmakerId)) (n : NodeId) (k : N) (r r' : Reconfigurer).
Context (Hs : sim w S) (Hn : hw_nodes w !! n = Some (k, r)) (Hw : rc_wf r') (Ha : acts r r') (Hround : rc_round r' < u64_max).

Lemma closed_stepped built target acks partial floor :
  rc_phase r = RStopping old target acks partial floor -> set_majority old (dom acks) ->
  rc_phase r' = RBootstrapping old built ∅ ∅ floor -> reconstructs (frozen_reports acks) (bo_registries built) ->
  node_steps w S n k r'.
Proof using Hold Hs Hn Hw Ha Hround.
  intros Hph Hm Hph' Hx. pose proof (node_before w S n k r Hs Hn) as Hnode. pose proof (ns_phase _ _ _ _ _ Hnode) as Hp.
  rewrite Hph in Hp. destruct Hp as (_ & Hr & _ & Hf). apply (stepped_quiet w S n k r); try done. rewrite Hph'. simpl.
  pose proof (rcc_phase _ (proj1 (ns_wf _ _ _ _ _ Hnode))) as Hok. rewrite Hph in Hok. destruct Hok as (_ & _ & Hacks & _).
  split_and!; [done|by exists acks|by intros i ?%elem_of_empty|]. intros x v Hin.
  pose proof (floor_covers_rounds _ _ _ _ _ _ _ (ns_own _ _ _ _ _ Hnode) Hf Hm x v Hin). pose proof (ac_round _ _ Ha). lia.
Qed.

Lemma resent_stepped : resent r r' -> node_steps w S n k r'.
Proof using Hold Hs Hn Hw Ha Hround.
  intros Hr. pose proof (node_before w S n k r Hs Hn) as Hnode. pose proof (ns_phase _ _ _ _ _ Hnode) as Hp.
  pose proof (rs_phase _ _ Hr) as Hph. pose proof (rcc_phase _ (proj1 (ns_wf _ _ _ _ _ Hnode))) as Hok.
  destruct (rc_phase r) as [|o t acks partial floor|o b acks held floor|o b d|o s oa na] eqn:Eph;
    try (apply (stepped_quiet w S n k r); try done; destruct Hph as [-> ->]; done).
  destruct Hph as (d' & Hph' & Hre). unfold reopened in Hre. destruct Hp as (-> & Hc & Hb & Hd & Hm & Hx).
  destruct (d_preempted d) as [promised|].
  - destruct Hre as [Er ->]. rewrite (ns_node _ _ _ _ _ Hnode) in Hph'.
    eapply (open_sim (hw_net w) S n k (rc_round r') r r' b); try done; [apply Hs|apply Hok|].
    intros x v Hin. apply Hx in Hin. unfold u64_saturating_add in Er. lia.
  - destruct Hre as [-> Er]. apply (stepped_quiet w S n k r); try done. rewrite Hph', Er. simpl. split_and!; done.
Qed.
End op_step.

(** Every operation returns, and leaves what its lemma says. *)
Lemma op_returns r op :
  rc_wf r -> op_fits op ->
  exists r' out, reconfigurer_op old r op = Done (r', out) /\ rc_wf r' /\ acts r r' /\
    (forall e, e ∈ out -> e ∈ rc_pending r) /\
    match op with
    | OStart _ | OFinish => r' = r \/ exists target, rc_phase r' = RStopping old target ∅ ∅ zero
    | OTick | OReady => rc_phase r' = rc_phase r /\ rc_round r' = rc_round r
    | OAbandon => r' = r \/ rc_phase r' = RIdle
    | OResend => resent r r'
    | OCloseStop => r' = r \/ exists o built target acks partial floor,
        rc_phase r = RStopping o target acks partial floor /\ set_majority o (dom acks) /\
        rc_phase r' = RBootstrapping o built ∅ ∅ floor /\ reconstructs (frozen_reports acks) (bo_registries built)
    end.
Proof using Hold.
  intros Hw Hop. pose proof Hw as [Hc Hi]. pose proof (acts_refl r) as Hrefl.
  assert (forall e : MatchmakerId * ReconfigureRequest, e ∈ [] -> e ∈ rc_pending r) as Hnil by by intros e ?%elem_of_nil.
  destruct op as [target| | | | | |]; simpl.
  - destruct (rc_start_ok r old target Hw Hold Hop) as (o & -> & Ho). rsimpl. eexists _, _. split; [done|].
    destruct o as [r'|]; simpl; [|by split_and!; try done; left]. destruct Ho as (_ & ? & ? & ?). split_and!; try done. right. by eexists.
  - destruct (rc_finish_ok r old Hw Hold) as (o & -> & Ho). rsimpl. eexists _, _. split; [done|].
    destruct o as [r'|]; simpl; [|by split_and!; try done; left]. destruct Ho as (_ & ? & ? & ?). split_and!; try done. right. by eexists.
  - destruct (rc_tick_ok r Hw) as [-> Hw']. rsimpl. eexists _, _. split; [done|]. unfold ticked in *.
    destruct (rc_is_busy r); split_and!; try done. apply acts_quiet; simpl; [done|lia|done].
  - destruct (rc_resend_ok r Hc) as (r' & -> & Hc' & Hr). rsimpl. eexists _, _. split; [done|].
    split_and!; try done; [by eapply resend_wf|]. by apply (acts_resent r r); try lia.
  - destruct (close_stop_ok r Hw) as (r' & o & -> & Hw' & Ha & Ho). rsimpl. eexists _, _. split; [done|]. split_and!; try done.
    destruct o as [built|]; [right|by left]. destruct Ho as (o & t & acks & partial & floor & ? & ? & ? & _ & ? & _).
    by exists o, (rb_bootstrap built), t, acks, partial, floor.
  - rewrite (rc_abandon_ok r Hw). rsimpl. destruct (rc_is_busy r); rsimpl; (eexists _, _; split; [done|]).
    + split_and!; try done; [by apply aborted_wf|apply acts_quiet; simpl; [done|lia|by intros e ?%elem_of_nil]|by right].
    + split_and!; try done. by left.
  - rewrite rc_requests_ok by done. rsimpl. eexists _, _. split; [done|]. split_and!; try done.
    + split; [by apply drained_core|]. intros Hp. split; [done|by apply Hi].
    + apply acts_quiet; simpl; [done|lia|by intros e ?%elem_of_nil].
Qed.

Context (Hlimits : limits_valid limits).

Definition fresh_reconfigurer n : Reconfigurer := mkReconfigurer n 0 RIdle [] 0 limits None.

Lemma reconfigurer_new_ok n : reconfigurer_new n limits = Done (fresh_reconfigurer n) /\ rc_wf (fresh_reconfigurer n).
Proof using Hlimits.
  assert (rc_wf (fresh_reconfigurer n)) as Hw by (split; [split; done || apply N.le_0_l || apply Forall_nil_2|done]).
  split; [|done]. unfold reconfigurer_new. rewrite (proj2 (limits_assert_valid_iff limits)) by done. rsimpl.
  fold (fresh_reconfigurer n). rewrite rassert_true by done. rsimpl. by rewrite rc_assert_invariants_ok.
Qed.

Lemma boot_sim w S n :
  sim w S -> sim (set_reconfigurer w n (match hw_nodes w !! n with Some (k, _) => k + 1 | None => 0 end) (fresh_reconfigurer n) []) S.
Proof using Hlimits.
  intros Hs. pose proof Hs as []. set (k := match hw_nodes w !! n with Some (k, _) => k + 1 | None => 0 end).
  assert (forall p, p ∈ hw_net w -> (packet_of p).1 = n -> (packet_of p).2 < k) as Hold'.
  { intros p Hp En. destruct (sm_boots0 p Hp) as (k' & r & E & ?). rewrite En in E. unfold k. rewrite E. lia. }
  split; simpl; try done.
  - intros p Hp. destruct (decide ((packet_of p).1 = n)) as [En|Hne].
    + rewrite En, lookup_insert_eq. eexists _, _. split; [done|]. pose proof (Hold' p Hp En). lia.
    + rewrite lookup_insert_ne by done. by apply sm_boots0.
  - intros n' k' r'. rewrite lookup_insert. case_decide as Hd; [subst n'; intros [= <- <-]|apply sm_nodes0].
    split; simpl; try done; [by intros e ?%elem_of_nil|]. intros x v Hx. right.
    destruct (inv_fenced _ _ sm_inv0 _ _ Hx) as (Q & HQ & Hb). exists Q. split; [done|]. intros i Hi. split; [by apply Hb|].
    intros g after next page s promised Hin. apply Hold' in Hin; [|done]. simpl in Hin. lia.
Qed.

Lemma op_stepped w S n k r op r' out :
  sim w S -> hw_nodes w !! n = Some (k, r) ->
  op_fits op ->
  reconfigurer_op old r op = Done (r', out) -> rc_round r' < u64_max ->
  exists S', sim (set_reconfigurer w n k r' ((fun e => PRequest n k e.1 e.2) <$> out)) S'.
Proof using Hold.
  intros Hs Hn Hop E Hround. pose proof (node_before w S n k r Hs Hn) as Hnode.
  destruct (op_returns r op (ns_wf _ _ _ _ _ Hnode) Hop) as (r1 & out1 & E1 & Hw & Ha & Hout & Hcase).
  rewrite E in E1. injection E1 as <- <-.
  assert (node_steps w S n k r') as (S' & Hpo & Hnode').
  { assert (r' = r -> node_steps w S n k r') as Hsame by (intros ->; exists S; split; [apply proposes_refl, Hs|done]).
    pose proof (stepped_quiet w S n k r r' Hs Hn Hw Ha Hround) as Hquiet. pose proof (ns_phase _ _ _ _ _ Hnode) as Hp.
    assert ((exists target, rc_phase r' = RStopping old target ∅ ∅ zero) -> node_steps w S n k r') as Hstart.
    { intros [t Ht]. apply Hquiet. rewrite Ht. simpl. unfold reads, reads_partly, floor_covers.
      split_and!; [done|intros i X; by rewrite lookup_empty|intros i X c; by rewrite lookup_empty|].
      intros i. rewrite lookup_empty. by intros []. }
    destruct op; [destruct Hcase; by auto..| | | | |].
    - apply Hquiet. destruct Hcase as [-> ->]. done.
    - by apply (resent_stepped w S n k r r').
    - destruct Hcase as [?|(o & built & t & acks & partial & floor & Hph & Hm & Hph' & Hx)]; [by apply Hsame|].
      rewrite Hph in Hp. destruct Hp as [-> _]. by eapply (closed_stepped w S n k r r').
    - destruct Hcase as [?|Hph]; [by apply Hsame|]. apply Hquiet. by rewrite Hph.
    - apply Hquiet. destruct Hcase as [-> ->]. done. }
  exists S'. eapply node_stepped; [done..|]. intros p (e & -> & He)%list_elem_of_fmap. eexists _, _. split; [done|].
  eapply request_sim_sent; [apply Hpo..|]. by apply (ns_pending _ _ _ _ _ Hnode), Hout.
Qed.

Lemma hstep_sim w S w' : sim w S -> hstep old frozen_of limits w w' -> exists S', sim w' S'.
Proof using Hold Hlimits.
  intros Hs [n r E|n k r op r' out Hn Hop E Hr|n k r y r' step Hn Hy E Hr|n k i q c rec y Hq Hp E].
  - rewrite (proj1 (reconfigurer_new_ok n)) in E. injection E as <-. exists S. by apply boot_sim.
  - by eapply op_stepped.
  - pose proof (node_before w S n k r Hs Hn) as Hnode.
    destruct (rc_on_reply_ok r y (ns_wf _ _ _ _ _ Hnode)) as (r1 & step1 & E1 & Hw & Ha & _ & Hm); [by eapply replies_ok|].
    rewrite E in E1. injection E1 as <- <-. rewrite (ns_node _ _ _ _ _ Hnode) in Hm.
    destruct (reply_stepped w S n k r r' y Hs Hn Hy Hw Ha Hr _ _ _ _ _ Hm) as (S' & Hpo & Hnode'); [done..|].
    exists S'. eapply node_stepped; [done..|]. by intros p ?%elem_of_nil.
  - by eapply serve_sim.
Qed.

Lemma hw_init_sim : sim hw_init sys_init.
Proof using.
  split; simpl; try done; try (intros p Hp; by apply elem_of_nil in Hp).
  apply sys_init_inv.
Qed.

Lemma handover_sim w : handover_reachable old frozen_of limits w -> exists S, sim w S.
Proof using Hold Hlimits.
  intros Hr. unfold handover_reachable in Hr. assert (exists S, sim hw_init S) as Hi by (eexists; apply hw_init_sim).
  induction Hr as [|w1 w2 w3 Hst _ IH]; [done|]. destruct Hi as [S Hi]. apply IH. by eapply hstep_sim.
Qed.

(** A published successor is a chosen value of the decree. *)
Lemma published_chosen w S s :
  sim w S -> published old w s -> exists b v, (b, v) ∈ s_chosen S /\ s = mkSet (next_of old) (normalize v).
Proof using.
  intros Hs [(n & k & r & oa & na & Hn & Hp)|(n & k & i & from & g & Hq)].
  - pose proof (ns_phase _ _ _ _ _ (sm_nodes _ _ Hs _ _ _ Hn)) as Hph. rewrite Hp in Hph. apply Hph.
  - by apply (sm_packets _ _ Hs) in Hq.
Qed.

Lemma published_bootstrapped w S s i :
  sim w S -> published old w s -> i ∈ ms_members s -> bootstrapped (hw_net w) s i.
Proof using.
  intros Hs Hp Hi. destruct (published_chosen w S s Hs Hp) as (b & v & Hc & ->). simpl in Hi.
  pose proof (sm_inv _ _ Hs) as Hinv. apply (inv_chosen _ _ Hinv) in Hc as [Hm _].
  apply (inv_accept _ _ Hinv) in Hm as (_ & Hcan & _ & Hprop). change (canonical v) with (normalize v) in Hcan.
  rewrite Hcan in *. by apply (sm_proposed _ _ Hs v Hprop).
Qed.

(** A bootstrap some reconfigurer hands out or proposes. *)
Definition offered w (b : PendingBootstrap) : Prop :=
  exists n k r, hw_nodes w !! n = Some (k, r) /\
    ((exists acks held floor, rc_phase r = RBootstrapping old b acks held floor) \/ exists d, rc_phase r = RDeciding old b d).

Lemma offered_carried w S b : sim w S -> offered w b -> carried b.
Proof using.
  intros Hs (n & k & r & Hn & Hp). pose proof (ns_phase _ _ _ _ _ (sm_nodes _ _ Hs _ _ _ Hn)) as Hph.
  destruct Hp as [(acks & held & floor & Hp)|[d Hp]]; rewrite Hp in Hph; apply Hph.
Qed.

(** What the majority [H] held of journal [j], against what a carried bootstrap has. *)
Lemma carried_covers b (H : gset MatchmakerId) j (X : MatchmakerId -> JournalRegistry) :
  carried b -> set_majority old H ->
  (forall i, i ∈ H -> frozen_of i !! j = Some (X i) /\ registry_is_blank (X i) = false) ->
  exists R i, bo_registries b !! j = Some R /\ i ∈ H /\ (jr_watermark (X i) ≤ jr_watermark R)%B /\
    ord_le (effective_at (jr_effective (X i))) (effective_at (jr_effective R)) /\
    (forall bl, is_Some (jr_history (X i) !! bl) -> (jr_watermark R ≤ bl)%B -> is_Some (jr_history R !! bl)) /\
    (jr_watermark R = zero \/
     exists i' x, i' ∈ ms_members old /\ frozen_of i' !! j = Some x /\ jr_watermark x = jr_watermark R) /\
    (forall bl g, jr_history R !! bl = Some g ->
       exists i' x, i' ∈ ms_members old /\ frozen_of i' !! j = Some x /\ jr_history x !! bl = Some g).
Proof using Hold.
  intros (acks & Hm & Hin & Hr & Hx) HH HX. destruct (majority_meets H (dom acks) HH Hm) as (i & Hi & [Y HY]%elem_of_dom).
  destruct (HX i Hi) as [Ej Hb]. assert ((j, X i) ∈ frozen_reports acks) as Hrep.
  { apply elem_of_frozen_reports. exists i, Y. split; [done|]. by rewrite (Hr i Y HY). }
  assert (forall x, (j, x) ∈ frozen_reports acks -> exists i', i' ∈ ms_members old /\ frozen_of i' !! j = Some x) as Hfrom.
  { intros x (i' & Z & HZ & E)%elem_of_frozen_reports. exists i'. split; [by apply Hin; eexists|]. by rewrite <-(Hr i' Z HZ). }
  destruct (proj2 (rx_journals _ _ Hx j)) as [R HR]; [by exists (X i)|].
  destruct (rx_covers _ _ Hx j R (X i) HR Hrep) as (Hw & He & Hh). exists R, i. split_and!; try done.
  - destruct (rx_watermark _ _ Hx j R HR) as [?|(x & Hin' & Ex)]; [by left|right].
    destruct (Hfrom x Hin') as (i' & ? & ?). by exists i', x.
  - intros bl g Hg. destruct (rx_history _ _ Hx j R bl g HR Hg) as [_ (x & Hin' & Ex)].
    destruct (Hfrom x Hin') as (i' & ? & ?). by exists i', x.
Qed.

(** The decree's handlers return on what is on its way to a record. *)
Lemma decree_handlers_return w S n k i q serving : sim w S -> PRequest n k i q ∈ hw_net w ->
  match q with
  | QDecreePrepare _ _ b => returns (on_decree_prepare serving (hw_records w i) b)
  | QDecreeAccept _ _ b v => returns (on_decree_accept serving (hw_records w i) b v)
  | _ => True
  end.
Proof using.
  intros Hs Hq. apply (sm_packets _ _ Hs) in Hq. simpl in Hq. pose proof (sm_inv _ _ Hs) as Hinv.
  pose proof (inv_records _ _ Hinv i) as Hrec. rewrite (sm_records _ _ Hs) in Hrec.
  destruct q as [from g after|from page|from g b|from g b v|from g s]; simpl in Hq; try done.
  - destruct serving; [|by eexists]. rewrite on_decree_prepare_ok by done. case_decide; by eexists.
  - destruct serving; [|by eexists]. destruct Hq as (_ & Hm & _). destruct (inv_accept _ _ Hinv _ _ Hm) as (_ & Hcan & _).
    pose proof (accept_agrees _ S i b v Hinv Hm) as Hag. rewrite (sm_records _ _ Hs) in Hag.
    rewrite on_decree_accept_ok by done. case_decide; by eexists.
Qed.
End world.
