(* ===== verification/HandoverSafety.v ===== *)
(** * One successor, and nothing lost

    All reconfigurers of a generation publish the same successor, only after every one of
    its members holds its whole bootstrap; what a majority of the old set registered is in
    every bootstrap; no assertion fires. *)

From S2P Require Import Prelude BTree Types Retained Contract QuorumSystem AcceptorConfig Rounds Tally Proposer Election Decree DecreeSystem MatchmakerSet MatchmakerState Matchmaker MatchmakerInv Generation GenerationInv Reconfigurer Reconstruct ReconfigurerInv ReconfigurerFold Handover HandoverSim.

(** ** Theorems *)

(** C14: one successor per generation.  Whatever the network loses, repeats or reorders,
    however many nodes finish or start a handover of the same generation, and however often
    they crash and forget everything, all successors they publish are the same set. *)
Theorem successors_agree old frozen_of limits w s1 s2 :
  set_fits old -> limits_valid limits -> handover_reachable old frozen_of limits w ->
  published old w s1 -> published old w s2 -> s1 = s2.
Proof.
  intros Ho Hl Hr H1 H2. destruct (handover_sim old frozen_of limits Ho Hl w Hr) as [S Hs].
  destruct (published_chosen old frozen_of w S s1 Hs H1) as (b1 & v1 & Hc1 & ->).
  destruct (published_chosen old frozen_of w S s2 Hs H2) as (b2 & v2 & Hc2 & ->).
  by rewrite (chosen_agree (old_config old) (old_config_wf old (proj1 Ho)) S b1 v1 b2 v2 (sm_inv _ _ _ _ Hs) Hc1 Hc2).
Qed.

(** C16: a successor is published only once it can serve.  It is the next generation, and
    every one of its members has acknowledged holding that set's whole bootstrap. *)
Theorem successor_bootstrapped old frozen_of limits w s :
  set_fits old -> limits_valid limits -> handover_reachable old frozen_of limits w -> published old w s ->
  ms_generation s = next_of old /\ forall i, i ∈ ms_members s -> bootstrapped (hw_net w) s i.
Proof.
  intros Ho Hl Hr Hp. destruct (handover_sim old frozen_of limits Ho Hl w Hr) as [S Hs]. split.
  - by destruct (published_chosen old frozen_of w S s Hs Hp) as (b & v & _ & ->).
  - intros i. by eapply published_bootstrapped.
Qed.

(** C15: a handover loses no registration.  If a majority of the old set holds a
    registration of a journal when it is frozen, and no member of the old set holds another
    one at its ballot, every bootstrap handed to a successor holds
    the journal, and either holds that registration or a watermark above it that an old
    member had reached; its effective configuration is no older than the majority's, and
    every registration it holds is an old member's. *)
Theorem handover_carries old frozen_of limits w b (H : gset MatchmakerId) (X : MatchmakerId -> JournalRegistry) j bl g e :
  set_fits old -> limits_valid limits -> handover_reachable old frozen_of limits w -> offered old w b ->
  set_majority old H ->
  (forall i, i ∈ H -> frozen_of i !! j = Some (X i) /\ jr_history (X i) !! bl = Some g /\
     ord_le e (effective_at (jr_effective (X i)))) ->
  (forall i x g', i ∈ ms_members old -> frozen_of i !! j = Some x -> jr_history x !! bl = Some g' -> g' = g) ->
  exists R, bo_registries b !! j = Some R /\
    (jr_history R !! bl = Some g \/
     (bl < jr_watermark R)%B /\ exists i x, i ∈ ms_members old /\ frozen_of i !! j = Some x /\ jr_watermark x = jr_watermark R) /\
    ord_le e (effective_at (jr_effective R)) /\
    (forall bl' g', jr_history R !! bl' = Some g' ->
       exists i x, i ∈ ms_members old /\ frozen_of i !! j = Some x /\ jr_history x !! bl' = Some g').
Proof.
  intros Ho Hl Hr Hof HH HX Honce. destruct (handover_sim old frozen_of limits Ho Hl w Hr) as [S Hs].
  destruct (carried_covers old frozen_of Ho b H j X) as (R & i & HR & Hi & Hw & He & Hh & Hwm & Hfrom);
    [by eapply offered_carried|done|..].
  { intros i Hi. destruct (HX i Hi) as (? & Hg & _). split; [done|]. apply blank_not. right; left. exists bl. by eexists. }
  destruct (HX i Hi) as (Ei & Hg & Hei). exists R. split_and!; [done| |by etrans|done].
  destruct (decide (jr_watermark R ≤ bl)%B) as [Hle|Hgt].
  - left. destruct (Hh bl) as [g' Hg']; [by eexists|done|]. rewrite Hg'. f_equal.
    destruct (Hfrom bl g' Hg') as (i' & x & ? & ? & ?). by eapply Honce.
  - right. apply ord_not_le in Hgt. split; [done|]. destruct Hwm as [Hz|Hwm]; [|done]. exfalso. rewrite Hz in Hgt.
    apply Hgt, zero_le.
Qed.

(** C17: no assertion of the reconfigurer fires.  In every reachable world of a handover,
    with competing and crashing nodes, a node boots, and every call its driver may make of
    its reconfigurer (a target of a length that fits its width) and every reply the running
    incarnation is delivered returns; and so do the decree's two handlers at the record of
    the member a Prepare or an Accept is on its way to, whether or not it serves the
    generation. *)
Theorem handover_never_panics old frozen_of limits w :
  set_fits old -> limits_valid limits -> handover_reachable old frozen_of limits w ->
  (forall n, returns (reconfigurer_new n limits)) /\
  (forall n k r op, hw_nodes w !! n = Some (k, r) -> op_fits op -> returns (reconfigurer_op old r op)) /\
  (forall n k r y, hw_nodes w !! n = Some (k, r) -> PReply n k y ∈ hw_net w -> returns (rc_on_reply r y)) /\
  (forall n k i from g b serving, PRequest n k i (QDecreePrepare from g b) ∈ hw_net w ->
     returns (on_decree_prepare serving (hw_records w i) b)) /\
  (forall n k i from g b members serving, PRequest n k i (QDecreeAccept from g b members) ∈ hw_net w ->
     returns (on_decree_accept serving (hw_records w i) b members)).
Proof.
  intros Ho Hl Hr. destruct (handover_sim old frozen_of limits Ho Hl w Hr) as [S Hs]. split_and!.
  - intros n. eexists. by apply (reconfigurer_new_ok limits Hl n).
  - intros n k r op Hn Hop. pose proof (ns_wf _ _ _ _ _ _ _ (sm_nodes _ _ _ _ Hs _ _ _ Hn)) as Hw.
    destruct (op_returns old Ho r op Hw Hop) as (r' & out & -> & _). by eexists.
  - intros n k r y Hn Hy. pose proof (ns_wf _ _ _ _ _ _ _ (sm_nodes _ _ _ _ Hs _ _ _ Hn)) as Hw.
    destruct (rc_on_reply_ok r y Hw) as (r' & step & -> & _); [by eapply replies_ok|]. by eexists.
  - intros n k i from g b serving Hq. exact (decree_handlers_return old frozen_of w S n k i _ serving Hs Hq).
  - intros n k i from g b members serving Hq. exact (decree_handlers_return old frozen_of w S n k i _ serving Hs Hq).
Qed.

(** ** Witnesses

    Node 7 starts to replace [0; 1; 2] by [0; 3], reading the frozen members one journal at a
    time, has its votes cast, and crashes before it hears of them.  Its next incarnation
    finishes with the members that answer, 1 and 2, hears of the vote and publishes
    [0; 3]; node 8, told to install [1; 2], publishes [0; 3] as well. *)

Definition demo_old : MatchmakerSet := mkSet 0 [0; 1; 2].
Definition demo_registry : JournalRegistry :=
  mkRegistry zero {[ mkBallot 1 0 := mkReg sample_config Belief ]} None.
Definition demo_frozen (i : MatchmakerId) : Registries :=
  if decide (i = 2) then ∅ else {[ 0 := demo_registry; 5 := demo_registry ]}.
Definition demo_answer : Circumstance := mkCircumstance true demo_old Active None 1 None true false 0.

Definition demo_round (n : NodeId) (members : list MatchmakerId) : list HandoverEvent :=
  [HOp n OReady; HServe n members demo_answer; HReplies n].
Definition demo_freeze (n : NodeId) (op : ReconfigurerOp) (members : list MatchmakerId) : list HandoverEvent :=
  [HBoot n; HOp n op] ++ demo_round n members ++ demo_round n members ++ [HOp n OCloseStop].
Definition demo_decide (n : NodeId) (target members : list MatchmakerId) : list HandoverEvent :=
  demo_round n target ++ demo_round n members ++ demo_round n members.

Definition demo_frozen_run : list HandoverEvent := demo_freeze 7 (OStart [0; 3]) [0; 1].
Definition demo_crashed_run : list HandoverEvent :=
  demo_frozen_run ++ demo_round 7 [0; 3] ++ demo_round 7 [0; 1] ++ [HOp 7 OReady; HServe 7 [0; 1] demo_answer].
Definition demo_whole_run : list HandoverEvent :=
  demo_crashed_run ++ demo_freeze 7 OFinish [1; 2] ++ demo_decide 7 [1; 2] [1; 2] ++
  demo_freeze 8 (OStart [1; 2]) [1; 2] ++ demo_decide 8 [1; 2] [1; 2].

Definition handover_world (es : list HandoverEvent) : HandoverWorld :=
  default hw_init (hscript demo_old demo_frozen limits_default hw_init es).

Definition phase_at (w : HandoverWorld) (n : NodeId) : option ReconfigurerPhase := (fun e => rc_phase e.2) <$> hw_nodes w !! n.

Lemma demo_old_fits : set_fits demo_old.
Proof. split; [|by vm_compute]. apply set_wf_alt. split_and!; [by apply (bool_decide_unpack _); vm_compute|done|by vm_compute]. Qed.

Lemma demo_reachable es :
  is_Some (hscript demo_old demo_frozen limits_default hw_init es) ->
  handover_reachable demo_old demo_frozen limits_default (handover_world es).
Proof. intros [w E]. unfold handover_world. rewrite E. by eapply hscript_steps. Qed.

(** The phase of a node, read off the run. *)
Lemma demo_phase es n phase :
  phase_at (handover_world es) n = Some phase ->
  exists k r, hw_nodes (handover_world es) !! n = Some (k, r) /\ rc_phase r = phase.
Proof. unfold phase_at. intros ([k r] & E & ->)%fmap_Some. by exists k, r. Qed.

Lemma demo_published n : phase_at (handover_world demo_whole_run) n = Some (RPublishing demo_old (mkSet 1 [0; 3]) ∅ ∅) ->
  published demo_old (handover_world demo_whole_run) (mkSet 1 [0; 3]).
Proof. intros (k & r & E & Hp)%demo_phase. left. exact (ex_intro _ n (ex_intro _ k (ex_intro _ r (ex_intro _ ∅ (ex_intro _ ∅ (conj E Hp)))))). Qed.

Lemma demo_runs : is_Some (hscript demo_old demo_frozen limits_default hw_init demo_whole_run) /\
  is_Some (hscript demo_old demo_frozen limits_default hw_init demo_frozen_run).
Proof. split; by vm_compute; eexists. Qed.

Lemma successors_agree_witness :
  published demo_old (handover_world demo_whole_run) (mkSet 1 [0; 3]) /\ mkSet 1 [0; 3] = mkSet 1 [0; 3].
Proof.
  split; [apply (demo_published 7); by vm_compute|].
  apply (successors_agree demo_old demo_frozen limits_default (handover_world demo_whole_run)).
  - apply demo_old_fits.
  - apply limits_default_valid.
  - apply demo_reachable, demo_runs.
  - apply (demo_published 7). by vm_compute.
  - apply (demo_published 8). by vm_compute.
Defined.

Lemma successor_bootstrapped_witness : bootstrapped (hw_net (handover_world demo_whole_run)) (mkSet 1 [0; 3]) 3.
Proof.
  destruct (successor_bootstrapped demo_old demo_frozen limits_default (handover_world demo_whole_run) (mkSet 1 [0; 3])) as [_ Hb].
  - apply demo_old_fits.
  - apply limits_default_valid.
  - apply demo_reachable, demo_runs.
  - apply (demo_published 8). by vm_compute.
  - apply Hb. by apply (bool_decide_unpack _); vm_compute.
Defined.

Definition offered_at (w : HandoverWorld) (n : NodeId) : option PendingBootstrap :=
  match phase_at w n with
  | Some (RBootstrapping o b _ _ _) => if decide (o = demo_old) then Some b else None
  | _ => None
  end.

Lemma offered_at_ok es n b : offered_at (handover_world es) n = Some b -> offered demo_old (handover_world es) b.
Proof.
  unfold offered_at. destruct (phase_at (handover_world es) n) as [[| |o b' acks held floor| |]|] eqn:E; try discriminate.
  case_decide as Ho; [|discriminate]. intros [= ->]. subst o. apply demo_phase in E as (k & r & E & Hp).
  exists n, k, r. split; [exact E|]. left. exists acks, held, floor. exact Hp.
Qed.

Lemma demo_offers : is_Some (offered_at (handover_world demo_frozen_run) 7).
Proof. by vm_compute; eexists. Qed.

Lemma handover_carries_witness : exists b R, offered demo_old (handover_world demo_frozen_run) b /\
  bo_registries b !! 5 = Some R /\ ord_le None (effective_at (jr_effective R)).
Proof.
  destruct demo_offers as [b Hb%offered_at_ok]. exists b.
  destruct (handover_carries demo_old demo_frozen limits_default (handover_world demo_frozen_run) b {[ 0; 1 ]}
    (fun _ => demo_registry) 5 (mkBallot 1 0) (mkReg sample_config Belief) None) as (R & HR & _ & He & _).
  - apply demo_old_fits.
  - apply limits_default_valid.
  - apply demo_reachable, demo_runs.
  - exact Hb.
  - by vm_compute.
  - intros i Hi. assert (i = 0 \/ i = 1) as Hor by set_solver. split_and!; [|done|done]. by destruct Hor as [->| ->].
  - intros i x g' _. unfold demo_frozen. case_decide; [by rewrite lookup_empty|]. intros Hx Hg.
    assert (x = demo_registry) as -> by (change (Some demo_registry = Some x) in Hx; congruence).
    change (Some (mkReg sample_config Belief) = Some g') in Hg. congruence.
  - exists R. exact (conj Hb (conj HR He)).
Defined.

Lemma handover_never_panics_witness :
  exists k r, hw_nodes (handover_world demo_whole_run) !! 8 = Some (k, r) /\ returns (reconfigurer_op demo_old r OResend).
Proof.
  destruct (demo_phase demo_whole_run 8 (RPublishing demo_old (mkSet 1 [0; 3]) ∅ ∅)) as (k & r & E & _); [by vm_compute|].
  exists k, r. split; [exact E|].
  destruct (handover_never_panics demo_old demo_frozen limits_default (handover_world demo_whole_run)) as (_ & Hop & _).
  - apply demo_old_fits.
  - apply limits_default_valid.
  - apply demo_reachable, demo_runs.
  - exact (Hop 8 k r OResend E I).
Defined.
