(* ===== verification/HandoverDriver.v ===== *)
(** * The handover's driver ([paros-roles/src/node/handover.rs])

    The policy around a reconfigurer: the re-send clock with its doubling backoff
    ([Cadence] of [node/report.rs]), the wait of a preempted decree, one tick of a node's
    loop ([pace_handover] of [node/shared.rs]) and the arm that folds a reply
    ([node.rs]).  Every beat returns and is a sequence of the calls of [Handover.v], so what
    is proved of the world there holds of the driver's runs. *)

From S2P Require Import Prelude BTree Types Retained Contract QuorumSystem AcceptorConfig Rounds Tally Proposer Election Decree MatchmakerSet MatchmakerState Matchmaker MatchmakerInv Reconfigurer Reconstruct ReconfigurerInv ReconfigurerFold Handover HandoverSim HandoverSafety.

(** ** The re-send clock *)

Definition MAX_DOUBLINGS : N := 3.
Definition u32_max : N := 2 ^ 32 - 1.
Definition u64_saturating_mul (a b : N) : N := N.min (a * b) u64_max.

Record Cadence := mkCadence { cad_elapsed : N; cad_misses : N }.
Implicit Types cad : Cadence.

Definition cadence_default : Cadence := mkCadence 0 0.

Definition cadence_current cad (cadence : N) : run N :=
  let base := N.max cadence 1 in
  let paced := u64_saturating_mul base (N.shiftl 1 (N.min (cad_misses cad) MAX_DOUBLINGS)) in
  rassert (base <= paced) "a backoff never re-sends sooner than the cadence";;
  rassert (paced <= u64_saturating_mul base (N.shiftl 1 MAX_DOUBLINGS)) "a backoff stays within its cap";;
  mret paced.

Definition cadence_tick cad (cadence : N) : run (Cadence * bool) :=
  elapsed ← u64_add (cad_elapsed cad) 1;
  let cad := mkCadence elapsed (cad_misses cad) in
  paced ← cadence_current cad cadence;
  if decide (paced <= elapsed) then mret (mkCadence 0 (N.min (cad_misses cad + 1) u32_max), true)
  else mret (cad, false).

Definition cadence_heard cad : run Cadence :=
  let cad := mkCadence (cad_elapsed cad) 0 in
  rassert (cad_misses cad = 0) "an answer ends the backoff";;
  mret cad.

Definition cadence_reset cad : run Cadence :=
  let cad := mkCadence 0 0 in
  rassert (cad_elapsed cad = 0) "a reset cadence starts from zero";;
  mret cad.

Definition cadence_tick_if cad (open : bool) (cadence : N) : run (Cadence * bool) :=
  if open then cadence_tick cad cadence else cad ← cadence_reset cad; mret (cad, false).

(** ** The driver *)

Record HandoverDriver := mkHandoverDriver {
  hd_reconfigurer : Reconfigurer;
  hd_resend_clock : Cadence;
  hd_backoff : N }.
Implicit Types d : HandoverDriver.

Definition with_reconfigurer d (r : Reconfigurer) : HandoverDriver := mkHandoverDriver r (hd_resend_clock d) (hd_backoff d).
Definition with_clock d cad : HandoverDriver := mkHandoverDriver (hd_reconfigurer d) cad (hd_backoff d).
Definition with_backoff d (ticks : N) : HandoverDriver := mkHandoverDriver (hd_reconfigurer d) (hd_resend_clock d) ticks.

Definition hd_is_busy d : bool := rc_is_busy (hd_reconfigurer d).

Definition hd_assert_invariants d : run unit :=
  if hd_is_busy d then mret tt else rassert (hd_backoff d = 0) "an idle handover holds no backoff".

(** [Limits { registry_page: page.clamp(1, REGISTRY_PAGE), ..Limits::DEFAULT }]. *)
Definition driver_limits (page : N) : Limits :=
  mkLimits (recovery_page limits_default) (promise_page_limit limits_default) (resend_page_limit limits_default)
    (apply_page limits_default) (read_window limits_default) (N.max 1 (N.min page REGISTRY_PAGE)).

Definition hd_new (me : NodeId) (page : N) : run HandoverDriver :=
  r ← reconfigurer_new me (driver_limits page);
  let d := mkHandoverDriver r cadence_default 0 in
  rassert (hd_is_busy d = false) "a fresh handover driver is idle";;
  hd_assert_invariants d;;
  mret d.

Definition hd_target d : option (list MatchmakerId) :=
  match rc_phase (hd_reconfigurer d) with
  | RIdle => None
  | RStopping _ target _ _ _ => target
  | RBootstrapping _ bootstrap _ _ _ | RDeciding _ bootstrap _ => Some (ms_members (bo_set bootstrap))
  | RPublishing _ successor _ _ => Some (ms_members successor)
  end.

Definition hd_start d (current : MatchmakerSet) (target : list MatchmakerId) : run (HandoverDriver * option StartRefusal) :=
  o ← rc_start (hd_reconfigurer d) current target;
  match o with
  | inl r =>
      let d := with_reconfigurer d r in
      rassert (hd_is_busy d = true) "a started handover is busy";;
      mret (d, None)
  | inr refusal => mret (d, Some refusal)
  end.

Definition hd_finish d (current : MatchmakerSet) : run (HandoverDriver * option StartRefusal) :=
  o ← rc_finish (hd_reconfigurer d) current;
  match o with
  | inl r =>
      let d := with_reconfigurer d r in
      rassert (hd_is_busy d = true) "a finishing handover is busy";;
      mret (d, None)
  | inr refusal => mret (d, Some refusal)
  end.

Definition hd_take_requests d : run (HandoverDriver * list (MatchmakerId * ReconfigureRequest)) :=
  requests ← rc_requests (hd_reconfigurer d);
  r ← rc_advance (hd_reconfigurer d);
  left_over ← rc_requests r;
  rassert (left_over = []) "a taken handover batch is drained";;
  mret (with_reconfigurer d r, requests).

Definition hd_old d : run (option MatchmakerSet) :=
  old ← rc_old (hd_reconfigurer d);
  rassert (is_Some old <-> hd_is_busy d = true) "a running handover replaces a set";;
  mret old.

Definition hd_stop_quorum_reached d : run bool :=
  reached ← stop_quorum_reached (hd_reconfigurer d);
  (if reached : bool then rassert (hd_is_busy d = true) "a freeze with a quorum is a running handover" else mret tt);;
  mret reached.

Definition hd_close_stop d : run (HandoverDriver * option (MatchmakerGeneration * Reconstruction)) :=
  reached ← stop_quorum_reached (hd_reconfigurer d);
  if negb reached then mret (d, None) else
  '(r, built) ← close_stop (hd_reconfigurer d);
  let d := with_reconfigurer d r in
  match built with
  | None => mret (d, None)
  | Some built =>
      old ← rc_old r;
      let old := match old with Some set => ms_generation set | None => 0 end in
      rassert (hd_is_busy d = true) "a closed freeze moves on to the bootstrap";;
      next ← generation_next old;
      rassert (ms_generation (bo_set (rb_bootstrap built)) = next) "a reconstruction proposes the generation after the frozen one";;
      mret (d, Some (old, built))
  end.

Definition clear_pacing d : run HandoverDriver :=
  cad ← cadence_reset (hd_resend_clock d);
  mret (with_backoff (with_clock d cad) 0).

Definition hd_on_reply d (reply : ReconfigureReply) : run (HandoverDriver * ReconfigurerStep) :=
  '(r, step) ← rc_on_reply (hd_reconfigurer d) reply;
  cad ← cadence_heard (hd_resend_clock d);
  let d := with_clock (with_reconfigurer d r) cad in
  d ← (if rc_is_busy r then mret d else clear_pacing d);
  hd_assert_invariants d;;
  mret (d, step).

Definition hd_back_off d (ticks : N) : run HandoverDriver :=
  rassert (hd_is_busy d = true) "only a running handover backs off";;
  let d := with_backoff d ticks in
  hd_assert_invariants d;;
  mret d.

Definition hd_tick d : run HandoverDriver :=
  r ← rc_tick (hd_reconfigurer d); mret (with_reconfigurer d r).

Definition hd_stalled_for d : run N :=
  let stalled := rc_elapsed (hd_reconfigurer d) in
  (if hd_is_busy d then mret tt else rassert (stalled = 0) "an idle handover has not stalled");;
  mret stalled.

Definition hd_abandon d : run (HandoverDriver * bool) :=
  '(r, abandoned) ← rc_abandon (hd_reconfigurer d);
  let d := with_reconfigurer d r in
  d ← (if abandoned : bool then clear_pacing d else mret d);
  rassert (hd_is_busy d = false) "an abandoned handover is idle";;
  hd_assert_invariants d;;
  mret (d, abandoned).

Definition hd_resend_due d (cadence : N) : run (HandoverDriver * bool) :=
  if negb (hd_is_busy d) then cad ← cadence_reset (hd_resend_clock d); mret (with_clock d cad, false) else
  if decide (0 < hd_backoff d) then mret (with_backoff d (hd_backoff d - 1), false) else
  '(cad, due) ← cadence_tick (hd_resend_clock d) cadence;
  let d := with_clock d cad in
  (if due : bool then rassert (hd_backoff d = 0) "a backed-off handover re-sends nothing" else mret tt);;
  mret (d, due).

Definition hd_resend d : run HandoverDriver :=
  rassert (hd_is_busy d = true) "only a running handover re-sends";;
  rassert (hd_backoff d = 0) "a backed-off handover re-sends nothing";;
  r ← rc_resend (hd_reconfigurer d);
  mret (with_reconfigurer d r).

(** ** The node's beats *)

(** What a tick finds: the stall budget, the cadence, and what the fault-injection points
    decide (always no outside a simulation). *)
Record Beat := mkBeat {
  be_stall_budget : N;
  be_cadence : N;
  be_abandon_early : bool;
  be_hasty : bool;
  be_skip : bool }.
Implicit Types beat : Beat.

Abbreviation Requests := (list (MatchmakerId * ReconfigureRequest)).

(** The two ways a handover is given up. *)
Definition stop_trying d beat : run HandoverDriver :=
  d ← (if hd_is_busy d && bool_decide (be_stall_budget beat <> 0) then
         stalled ← hd_stalled_for d;
         if decide (be_stall_budget beat <= stalled) then '(d, _) ← hd_abandon d; mret d else mret d
       else mret d);
  if hd_is_busy d && be_abandon_early beat then '(d, _) ← hd_abandon d; mret d else mret d.

(** The first half of a beat: the clocks, and whether anything is due. *)
Definition handover_due d beat : run (HandoverDriver * bool * bool) :=
  d ← hd_tick d;
  d ← stop_trying d beat;
  reached ← hd_stop_quorum_reached d;
  let hasty := reached && be_hasty beat in
  '(d, due) ← (if hasty then mret (d, true) else hd_resend_due d (be_cadence beat));
  mret (d, hasty, due).

(** The second: close a freeze whose quorum answered, and re-send. *)
Definition handover_send d beat (hasty : bool) : run (HandoverDriver * Requests) :=
  '(d, built) ← hd_close_stop d;
  '(d, sent) ← (match built with Some _ => hd_take_requests d | None => mret (d, []) end);
  if hasty || be_skip beat then mret (d, sent) else
  d ← hd_resend d;
  '(d, resent) ← hd_take_requests d;
  mret (d, sent ++ resent).

(** [pace_handover], which the loop calls on a matchmaker deployment: the driver after one
    tick, and what it sent. *)
Definition pace_handover d beat : run (HandoverDriver * Requests) :=
  '(d, hasty, due) ← handover_due d beat;
  if negb due then mret (d, []) else handover_send d beat hasty.

(** The arm of a matchmaker's reply; [ticks] is the drawn backoff. *)
Definition on_handover_reply d (reply : ReconfigureReply) (ticks : N) : run (HandoverDriver * ReconfigurerStep * Requests) :=
  '(d, step) ← hd_on_reply d reply;
  d ← (match step with TPreempted _ _ => hd_back_off d ticks | _ => mret d end);
  '(d, sent) ← hd_take_requests d;
  mret (d, step, sent).

(** ** The driver under its invariant *)

Record hd_wf d : Prop := {
  hw_reconfigurer : rc_wf (hd_reconfigurer d);
  hw_backoff : hd_is_busy d = false -> hd_backoff d = 0;
  hw_clock : cad_elapsed (hd_resend_clock d) < u64_max }.

Lemma hd_assert_invariants_ok d : hd_wf d -> hd_assert_invariants d = Done tt.
Proof.
  intros [_ Hb _]. unfold hd_assert_invariants. destruct (hd_is_busy d); [done|]. by rewrite rassert_true by by apply Hb.
Qed.

(** The waits double up to eight times the base, and never below it. *)
Lemma cadence_current_ok cad cadence : cadence <= u64_max ->
  cadence_current cad cadence =
    Done (N.min (N.max cadence 1 * 2 ^ N.min (cad_misses cad) MAX_DOUBLINGS) u64_max).
Proof.
  intros Hc. unfold cadence_current, u64_saturating_mul. rewrite !N.shiftl_1_l.
  assert (1 <= 2 ^ N.min (cad_misses cad) MAX_DOUBLINGS) as H1
    by (pose proof (N.pow_nonzero 2 (N.min (cad_misses cad) MAX_DOUBLINGS)); lia).
  assert (2 ^ N.min (cad_misses cad) MAX_DOUBLINGS <= 2 ^ MAX_DOUBLINGS) as H2 by (apply N.pow_le_mono_r; lia).
  assert (1 <= u64_max) as H3 by by vm_compute.
  rewrite rassert_true by nia. rsimpl. rewrite rassert_true by nia. done.
Qed.

Lemma cadence_tick_ok cad cadence :
  cad_elapsed cad < u64_max -> cadence <= u64_max ->
  exists cad' due, cadence_tick cad cadence = Done (cad', due) /\ cad_elapsed cad' < u64_max.
Proof.
  intros He Hc. unfold cadence_tick, u64_add. rewrite decide_True by lia. rsimpl.
  rewrite cadence_current_ok by done. rsimpl. case_decide as Hd; (eexists _, _; split; [done|]); simpl; [by vm_compute|]. lia.
Qed.

(** ** A beat is a sequence of calls *)

Section calls.
Context (old : MatchmakerSet) (Hold : set_fits old).
Implicit Types (r : Reconfigurer) (ops : list ReconfigurerOp).

Fixpoint run_ops r ops : run (Reconfigurer * Requests) :=
  match ops with
  | [] => mret (r, [])
  | op :: ops => '(r, out) ← reconfigurer_op old r op; '(r, outs) ← run_ops r ops; mret (r, out ++ outs)
  end.

(** [d'] is [d] after some calls of its reconfigurer, which sent [sent]. *)
Definition calls d d' (sent : Requests) : Prop :=
  exists ops, Forall op_fits ops /\ run_ops (hd_reconfigurer d) ops = Done (hd_reconfigurer d', sent).

Lemma calls_none d d' : hd_reconfigurer d' = hd_reconfigurer d -> calls d d' [].
Proof using. intros E. exists []. split; [done|]. simpl. by rewrite E. Qed.

Lemma calls_once d d' op out : op_fits op -> reconfigurer_op old (hd_reconfigurer d) op = Done (hd_reconfigurer d', out) -> calls d d' out.
Proof using. intros Hop E. exists [op]. split; [by apply Forall_singleton|]. simpl. rewrite E. rsimpl. by rewrite app_nil_r. Qed.

Lemma run_ops_app r ops1 ops2 r1 out1 r2 out2 :
  run_ops r ops1 = Done (r1, out1) -> run_ops r1 ops2 = Done (r2, out2) -> run_ops r (ops1 ++ ops2) = Done (r2, out1 ++ out2).
Proof using.
  revert r r1 out1. induction ops1 as [|op ops1 IH]; intros r r1 out1 E1 E2; simpl in *; [by injection E1 as <- <-|].
  apply bind_Done_inv in E1 as ([r0 out0] & E0 & E1). rewrite E0. rsimpl.
  apply bind_Done_inv in E1 as ([r3 out3] & E3 & E1). injection E1 as <- <-. rewrite (IH _ _ _ E3 E2). rsimpl. by rewrite app_assoc.
Qed.

Lemma calls_trans d1 d2 d3 s1 s2 : calls d1 d2 s1 -> calls d2 d3 s2 -> calls d1 d3 (s1 ++ s2).
Proof using. intros (ops1 & F1 & E1) (ops2 & F2 & E2). exists (ops1 ++ ops2). split; [by apply Forall_app|by eapply run_ops_app]. Qed.

(** A call through the driver: it returns, keeps the invariant, and is those calls. *)
Definition driven d (c : run HandoverDriver) : Prop := exists d', c = Done d' /\ hd_wf d' /\ calls d d' [].
Definition driven_out {A} d (c : run (HandoverDriver * A)) (P : HandoverDriver -> A -> Prop) : Prop :=
  exists d' a, c = Done (d', a) /\ hd_wf d' /\ P d' a.

Lemma busy_rewrite d : hd_is_busy d = true <-> rc_phase (hd_reconfigurer d) <> RIdle.
Proof using. apply busy_iff. Qed.

Lemma take_requests_ok d :
  hd_wf d -> driven_out d (hd_take_requests d) (fun d' sent =>
    reconfigurer_op old (hd_reconfigurer d) OReady = Done (hd_reconfigurer d', sent) /\
    rc_phase (hd_reconfigurer d') = rc_phase (hd_reconfigurer d) /\ hd_backoff d' = hd_backoff d /\
    rc_requests (hd_reconfigurer d') = Done []).
Proof using Hold.
  intros Hd. pose proof Hd as [Hw Hb Hc]. pose proof Hw as [Hcore Hi]. unfold hd_take_requests.
  set (r := hd_reconfigurer d) in *. assert (rc_wf (with_no_pending r)) as Hw'.
  { split; [by apply drained_core|]. intros Hp. split; [done|by apply Hi]. }
  rewrite rc_requests_ok by done. rsimpl. change (rc_advance r) with (Done (with_no_pending r)). rsimpl.
  rewrite rc_requests_ok by done. rsimpl. rewrite rassert_true by done. rsimpl. eexists _, _. split; [done|].
  split; [by split|]. split_and!; [|done|done|by rewrite rc_requests_ok]. simpl. fold r.
  rewrite rc_requests_ok by done. done.
Qed.

Lemma cleared_wf d r : rc_wf r -> rc_is_busy r = false ->
  exists d', clear_pacing (with_reconfigurer d r) = Done d' /\ hd_wf d' /\ hd_reconfigurer d' = r /\ hd_backoff d' = 0.
Proof using. intros Hw Hb. eexists. split; [done|]. split; [|done]. by split. Qed.

Lemma hd_abandon_ok d :
  hd_wf d -> driven_out d (hd_abandon d) (fun d' abandoned => calls d d' [] /\ hd_is_busy d' = false /\ abandoned = hd_is_busy d).
Proof using Hold.
  intros Hd. pose proof Hd as [Hw Hb Hc]. unfold hd_abandon.
  destruct (op_returns old Hold (hd_reconfigurer d) OAbandon Hw I) as (r & out & E & Hw' & _ & _ & _).
  rewrite rc_abandon_ok by done. simpl in E. rewrite rc_abandon_ok in E by done. unfold hd_is_busy in *.
  destruct (rc_is_busy (hd_reconfigurer d)) eqn:Eb; rsimpl; simpl in E; injection E as <- <-.
  - destruct (cleared_wf d (aborted (hd_reconfigurer d))) as (d' & -> & Hd' & Er & Hz); [done..|]. rsimpl. rewrite Er.
    rewrite rassert_true by done. rsimpl. rewrite hd_assert_invariants_ok by done. rsimpl. eexists _, _. split; [done|].
    split; [done|]. split_and!; [|by rewrite Er|done]. apply (calls_once _ _ OAbandon); [done|]. simpl. rewrite rc_abandon_ok by done. by rewrite Eb, Er.
  - rewrite rassert_true by done. rsimpl. assert (hd_wf (with_reconfigurer d (hd_reconfigurer d))) as Hd' by (split; simpl; auto).
    rewrite hd_assert_invariants_ok by done. rsimpl. eexists _, _. split; [done|]. split; [done|]. split_and!; [by apply calls_none|done|done].
Qed.

Lemma abandon_driven d : hd_wf d -> exists d', ('(d, _) ← hd_abandon d; mret d) = Done d' /\ hd_wf d' /\ calls d d' [] /\ hd_is_busy d' = false.
Proof using Hold.
  intros Hd. destruct (hd_abandon_ok d Hd) as (d' & a & -> & Hd' & Hc & Hb & _). rsimpl. by exists d'.
Qed.

Lemma stop_trying_ok d beat :
  hd_wf d -> exists d', stop_trying d beat = Done d' /\ hd_wf d' /\ calls d d' [] /\ (hd_is_busy d' = true -> d' = d).
Proof using Hold.
  intros Hd. unfold stop_trying.
  assert (exists d1, (if hd_is_busy d && bool_decide (be_stall_budget beat <> 0) then
         stalled ← hd_stalled_for d;
         if decide (be_stall_budget beat <= stalled) then '(d, _) ← hd_abandon d; mret d else mret d
       else mret d) = Done d1 /\ hd_wf d1 /\ calls d d1 [] /\ (hd_is_busy d1 = true -> d1 = d)) as (d1 & -> & Hd1 & Hc1 & Hs1).
  { assert (exists d1, mret d = Done d1 /\ hd_wf d1 /\ calls d d1 [] /\ (hd_is_busy d1 = true -> d1 = d)) as Hkeep
      by (exists d; split_and!; [done|done|by apply calls_none|done]).
    destruct (hd_is_busy d && _) eqn:Eb; [|exact Hkeep]. apply andb_true_iff in Eb as [Eb _]. unfold hd_stalled_for. rewrite Eb. rsimpl.
    case_decide; [|exact Hkeep]. destruct (abandon_driven d Hd) as (d1 & -> & ? & ? & Hi). exists d1. rewrite Hi. done. }
  rsimpl. destruct (hd_is_busy d1 && be_abandon_early beat); [|by exists d1].
  destruct (abandon_driven d1 Hd1) as (d2 & -> & ? & Hc2 & Hi). exists d2. rewrite Hi. split_and!; try done.
  exact (calls_trans _ _ _ _ _ Hc1 Hc2).
Qed.

Lemma hd_tick_ok d : hd_wf d -> exists d', hd_tick d = Done d' /\ hd_wf d' /\ calls d d' [] /\
  hd_is_busy d' = hd_is_busy d /\ hd_backoff d' = hd_backoff d.
Proof using.
  intros [Hw Hb Hc]. unfold hd_tick. destruct (rc_tick_ok _ Hw) as [E Hw']. rewrite E. rsimpl.
  assert (rc_is_busy (ticked (hd_reconfigurer d)) = rc_is_busy (hd_reconfigurer d)) as Eb
    by (unfold ticked; destruct (rc_is_busy (hd_reconfigurer d)) eqn:Eb; [|done]; exact Eb).
  eexists. split; [done|]. unfold hd_is_busy. simpl. split_and!; try done.
  - split; simpl; [done| |done]. unfold hd_is_busy. simpl. by rewrite Eb.
  - apply (calls_once _ _ OTick); [done|]. simpl. by rewrite E.
Qed.

Lemma hd_resend_due_ok d cadence :
  hd_wf d -> cadence <= u64_max ->
  driven_out d (hd_resend_due d cadence) (fun d' due => calls d d' [] /\ hd_reconfigurer d' = hd_reconfigurer d /\
    (due = true -> hd_is_busy d = true /\ hd_backoff d = 0 /\ hd_backoff d' = 0)).
Proof using.
  intros Hd Hc. pose proof Hd as [Hw Hb Hcl]. unfold hd_resend_due. destruct (hd_is_busy d) eqn:Eb; cbn [negb].
  - case_decide as Hpos.
    + eexists _, _. split; [done|]. split; [by split; simpl; try done; unfold hd_is_busy in *; simpl; congruence|].
      split_and!; try done. by apply calls_none.
    + destruct (cadence_tick_ok (hd_resend_clock d) cadence Hcl Hc) as (cad & due & -> & Hcl'). rsimpl.
      assert (hd_backoff d = 0) as Hz by lia. eexists _, due. split.
      { destruct due; [rewrite rassert_true by done|]; done. }
      split; [by split; simpl; try done; intros; lia|]. split_and!; try done. by apply calls_none.
  - eexists _, _. split; [done|]. split; [split; simpl; [done|by intros _; apply Hb|by vm_compute]|]. split_and!; try done.
    by apply calls_none.
Qed.

Lemma stop_quorum_reached_ok r : rc_wf r -> exists reached, stop_quorum_reached r = Done reached /\
  (reached = true -> rc_phase r <> RIdle).
Proof using.
  intros [Hc _]. pose proof (rcc_phase _ Hc) as Hp. unfold stop_quorum_reached.
  destruct (rc_phase r); try by eexists. rewrite set_has_quorum_ok by apply Hp. by eexists.
Qed.

Lemma hd_close_stop_ok d :
  hd_wf d -> driven_out d (hd_close_stop d) (fun d' built => calls d d' [] /\ hd_is_busy d' = hd_is_busy d /\
    hd_backoff d' = hd_backoff d).
Proof using Hold.
  intros Hd. pose proof Hd as [Hw Hb Hcl]. unfold hd_close_stop.
  destruct (stop_quorum_reached_ok _ Hw) as (reached & -> & _). rsimpl.
  destruct reached; cbn [negb]; [|eexists _, _; split; [done|]; split; [done|]; split_and!; [by apply calls_none|done..]].
  destruct (close_stop_ok _ Hw) as (r & o & E & Hw' & Ha & Ho). rewrite E. rsimpl.
  assert (calls d (with_reconfigurer d r) []) as Hc by (apply (calls_once _ _ OCloseStop); [done|]; simpl; by rewrite E).
  destruct o as [built|].
  2: { subst r. eexists _, _. split; [done|]. split; [by split|]. done. }
  destruct Ho as (o & t & acks & partial & floor & Hph & _ & Hph' & Hset & _).
  assert (rc_is_busy r = true /\ rc_is_busy (hd_reconfigurer d) = true) as [Eb Eb'].
  { unfold rc_is_busy. by rewrite Hph, Hph'. }
  unfold rc_old. rewrite Eb, Hph', (rassert_true (_ <> _)) by done. rsimpl.
  rewrite (rassert_true (hd_is_busy _ = true)) by exact Eb. rsimpl.
  pose proof (rcc_phase _ (proj1 Hw')) as Hok. rewrite Hph' in Hok. destruct Hok as ([_ Hg] & (_ & Hbg & _) & _).
  rewrite generation_next_total by done. rsimpl. rewrite rassert_true by exact Hbg. rsimpl. eexists _, _. split; [done|].
  split; [|split_and!; [done|unfold hd_is_busy; simpl; by rewrite Eb, Eb'|done]]. split; simpl; [done| |done]. unfold hd_is_busy. simpl. by rewrite Eb.
Qed.

Lemma hd_resend_ok d :
  hd_wf d -> hd_is_busy d = true -> hd_backoff d = 0 -> exists d', hd_resend d = Done d' /\ hd_wf d' /\ calls d d' [].
Proof using Hold.
  intros [Hw Hb Hcl] Eb Ez. unfold hd_resend. rewrite rassert_true by done. rsimpl. rewrite rassert_true by done. rsimpl.
  destruct (rc_resend_ok _ (proj1 Hw)) as (r & E & Hc & Hr). rewrite E. rsimpl. eexists. split; [done|]. split.
  - split; simpl; [by eapply resend_wf|done|done].
  - apply (calls_once _ _ OResend); [done|]. simpl. by rewrite E.
Qed.

Lemma handover_due_ok d beat :
  hd_wf d -> be_cadence beat <= u64_max ->
  exists d' hasty due, handover_due d beat = Done (d', hasty, due) /\ hd_wf d' /\ calls d d' [] /\
    (hasty = true -> be_hasty beat = true) /\
    (due = true -> hasty = true \/ (hd_is_busy d' = true /\ hd_backoff d = 0 /\ hd_backoff d' = 0)).
Proof using Hold.
  intros Hd Hcad. unfold handover_due.
  destruct (hd_tick_ok d Hd) as (d1 & -> & Hd1 & Hc1 & Eb1 & Ez1). rsimpl.
  destruct (stop_trying_ok d1 beat Hd1) as (d2 & -> & Hd2 & Hc2 & Hs2). rsimpl.
  pose proof (calls_trans _ _ _ _ _ Hc1 Hc2) as Hc12. simpl in Hc12.
  unfold hd_stop_quorum_reached. destruct (stop_quorum_reached_ok _ (hw_reconfigurer _ Hd2)) as (reached & -> & Hre). rsimpl.
  assert ((if reached then rassert (hd_is_busy d2 = true) "a freeze with a quorum is a running handover" else mret tt) = Done tt) as ->.
  { destruct reached; [|done]. rewrite rassert_true; [done|]. by apply busy_rewrite, Hre. }
  rsimpl. destruct (reached && be_hasty beat) eqn:Eh.
  { apply andb_true_iff in Eh as [_ Eh]. eexists _, _, _. split; [done|]. split_and!; try done. by left. }
  destruct (hd_resend_due_ok d2 (be_cadence beat) Hd2 Hcad) as (d3 & due & -> & Hd3 & Hc3 & Er & Hdue). rsimpl.
  eexists _, _, _. split; [done|]. split_and!; [done|exact (calls_trans _ _ _ _ _ Hc12 Hc3)|done|].
  intros Ht. right. destruct (Hdue Ht) as (Eb & Ez & Ez').
  split_and!; [unfold hd_is_busy in *; by rewrite Er| |done]. rewrite <-Ez1. by rewrite <-(Hs2 Eb).
Qed.

Lemma handover_send_ok d beat hasty :
  hd_wf d -> hasty = true \/ (hd_is_busy d = true /\ hd_backoff d = 0) ->
  exists d' sent, handover_send d beat hasty = Done (d', sent) /\ hd_wf d' /\ calls d d' sent.
Proof using Hold.
  intros Hd3 Hdue. unfold handover_send.
  destruct (hd_close_stop_ok d Hd3) as (d4 & built & -> & Hd4 & Hc4 & Eb4 & Ez4). rsimpl.
  assert (exists d5 sent, match built with Some _ => hd_take_requests d4 | None => mret (d4, []) end = Done (d5, sent) /\ hd_wf d5 /\
    calls d d5 sent /\ hd_is_busy d5 = hd_is_busy d4 /\ hd_backoff d5 = hd_backoff d4) as (d5 & sent & -> & Hd5 & Hc5 & Eb5 & Ez5).
  { destruct built; [|by exists d4, []]. destruct (take_requests_ok d4 Hd4) as (d5 & sent & -> & Hd5 & Hc5%(calls_once _ _ OReady _ I) & Ep & Ez & _).
    exists d5, sent. split_and!; [done|done|exact (calls_trans _ _ _ _ _ Hc4 Hc5)| |done].
    unfold hd_is_busy, rc_is_busy. by rewrite Ep. }
  rsimpl. destruct (hasty || be_skip beat) eqn:Esk; [by exists d5, sent|].
  apply orb_false_iff in Esk as [Eh _]. destruct Hdue as [?|(Eb3 & Ez3)]; [congruence|].
  destruct (hd_resend_ok d5 Hd5) as (d6 & -> & Hd6 & Hc6); [congruence..|]. rsimpl.
  destruct (take_requests_ok d6 Hd6) as (d7 & sent' & -> & Hd7 & Hc7%(calls_once _ _ OReady _ I) & _). rsimpl. exists d7, (sent ++ sent').
  split_and!; [done|done|]. pose proof (calls_trans _ _ _ _ _ Hc5 Hc6) as Hc56. rewrite app_nil_r in Hc56.
  exact (calls_trans _ _ _ _ _ Hc56 Hc7).
Qed.

(** One tick of the loop. *)
Lemma pace_handover_ok d beat :
  hd_wf d -> be_cadence beat <= u64_max ->
  exists d' sent, pace_handover d beat = Done (d', sent) /\ hd_wf d' /\ calls d d' sent /\
    (0 < hd_backoff d -> be_hasty beat = false -> sent = []).
Proof using Hold.
  intros Hd Hcad. unfold pace_handover.
  destruct (handover_due_ok d beat Hd Hcad) as (d1 & hasty & due & -> & Hd1 & Hc1 & Hh & Hdue). rsimpl.
  destruct due; cbn [negb]; [|by exists d1, []]. specialize (Hdue eq_refl).
  destruct (handover_send_ok d1 beat hasty Hd1) as (d2 & sent & -> & Hd2 & Hc2); [tauto|]. exists d2, sent.
  split_and!; [done|done|exact (calls_trans _ _ _ _ _ Hc1 Hc2)|]. intros Hpos Hn. exfalso.
  destruct Hdue as [->|(_ & ? & _)]; [|lia]. rewrite Hh in Hn; done.
Qed.

(** A reply and what it sends. *)
Lemma on_handover_reply_ok d reply ticks :
  hd_wf d -> reply_ok (rc_phase (hd_reconfigurer d)) reply ->
  exists d' step sent, on_handover_reply d reply ticks = Done (d', step, sent) /\ hd_wf d' /\
    (exists r1, rc_on_reply (hd_reconfigurer d) reply = Done (r1, step) /\ reconfigurer_op old r1 OReady = Done (hd_reconfigurer d', sent)) /\
    match step with TPreempted _ _ => hd_backoff d' = ticks | _ => True end /\ rc_requests (hd_reconfigurer d') = Done [].
Proof using Hold.
  intros Hd Hok. pose proof Hd as [Hw Hb Hcl]. unfold on_handover_reply, hd_on_reply.
  destruct (rc_on_reply_ok _ _ Hw Hok) as (r1 & step & E & Hw1 & Ha & _ & Hm). rewrite E. rsimpl.
  change (cadence_heard (hd_resend_clock d)) with (Done (mkCadence (cad_elapsed (hd_resend_clock d)) 0)). rsimpl.
  set (d0 := with_clock _ _).
  assert (exists d1, (if rc_is_busy r1 then mret d0 else clear_pacing d0) = Done d1 /\ hd_wf d1 /\ hd_reconfigurer d1 = r1) as (d1 & -> & Hd1 & Er).
  { destruct (rc_is_busy r1) eqn:Eb; eexists; (split; [done|]); (split; [|done]); split; simpl; try done.
    unfold hd_is_busy. simpl. congruence. }
  rsimpl. rewrite hd_assert_invariants_ok by done. rsimpl.
  assert (exists d2, match step with TPreempted _ _ => hd_back_off d1 ticks | _ => mret d1 end = Done d2 /\ hd_wf d2 /\
    hd_reconfigurer d2 = r1 /\ match step with TPreempted _ _ => hd_backoff d2 = ticks | _ => True end) as (d2 & -> & Hd2 & Er2 & Hpre).
  { destruct step; try by exists d1. assert (hd_is_busy d1 = true) as Eb.
    { apply busy_rewrite. rewrite Er. inversion Hm; congruence. }
    unfold hd_back_off. rewrite rassert_true by done. rsimpl.
    assert (hd_wf (with_backoff d1 ticks)) as Hd2 by (destruct Hd1; split; simpl; try done; unfold hd_is_busy in *; simpl; congruence).
    rewrite hd_assert_invariants_ok by done. rsimpl. by eexists. }
  rsimpl. destruct (take_requests_ok d2 Hd2) as (d3 & sent & -> & Hd3 & Hc3 & _ & Ez & Hempty). rsimpl.
  exists d3, step, sent. split_and!; try done; [|by rewrite Ez].
  exists r1. split; [done|]. by rewrite Er2 in Hc3.
Qed.

(** Opening a handover: it is the reconfigurer's own call, and pacing is left alone. *)
Lemma opened_ok d c op :
  hd_wf d -> op_fits op ->
  (exists o, c = Done o /\ match o with inl r => rc_wf r /\ rc_is_busy r = true | inr _ => True end) ->
  reconfigurer_op old (hd_reconfigurer d) op = (o ← c; mret (after_start (hd_reconfigurer d) o, [])) ->
  forall message, exists d' refusal,
    (o ← c; match o with
            | inl r => let d := with_reconfigurer d r in rassert (hd_is_busy d = true) message;; mret (d, None)
            | inr refusal => mret (d, Some refusal)
            end) = Done (d', refusal) /\ hd_wf d' /\ calls d d' [].
Proof using.
  intros Hd Hop (o & -> & Ho) E message. rsimpl. simpl in E. destruct o as [r|refusal].
  - destruct Ho as [Hw Hb]. rewrite rassert_true by exact Hb. rsimpl. eexists _, _. split; [done|]. destruct Hd. split.
    + split; simpl; [done| |done]. unfold hd_is_busy. simpl. congruence.
    + by apply (calls_once _ _ op).
  - eexists _, _. split; [done|]. split; [done|]. by apply calls_none.
Qed.

Lemma hd_start_ok d target : hd_wf d -> op_fits (OStart target) ->
  exists d' refusal, hd_start d old target = Done (d', refusal) /\ hd_wf d' /\ calls d d' [].
Proof using Hold.
  intros Hd Hop. apply (opened_ok d _ (OStart target)); [done|done| |done].
  destruct (rc_start_ok _ old target (hw_reconfigurer _ Hd) Hold Hop) as (o & -> & Ho). exists o. split; [done|].
  destruct o; [|done]. destruct Ho as (_ & ? & Hp & _). split; [done|]. unfold rc_is_busy. by rewrite Hp.
Qed.

Lemma hd_finish_ok d : hd_wf d ->
  exists d' refusal, hd_finish d old = Done (d', refusal) /\ hd_wf d' /\ calls d d' [].
Proof using Hold.
  intros Hd. apply (opened_ok d _ OFinish); [done|done| |done].
  destruct (rc_finish_ok _ old (hw_reconfigurer _ Hd) Hold) as (o & -> & Ho). exists o. split; [done|].
  destruct o; [|done]. destruct Ho as (_ & ? & Hp & _). split; [done|]. unfold rc_is_busy. by rewrite Hp.
Qed.

(** ** The driver in the world of a handover *)

Context (frozen_of : MatchmakerId -> Registries) (limits : Limits).
Implicit Types w : HandoverWorld.

(** Steps of the world lead from [w] to one that differs in two places: the reconfigurer of
    [n]'s incarnation [k] is now [r'], and the network has gained the requests of [sent],
    each once and nothing besides. *)
Definition moves w n k r' (sent : Requests) : Prop :=
  exists w', rtc (hstep old frozen_of limits) w w' /\ hw_nodes w' = <[n := (k, r')]> (hw_nodes w) /\
    hw_records w' = hw_records w /\
    hw_net w' ≡ₚ ((fun e => PRequest n k e.1 e.2) <$> sent) ++ hw_net w.

Lemma run_ops_round r ops r' out : rc_wf r -> Forall op_fits ops -> run_ops r ops = Done (r', out) -> rc_round r <= rc_round r'.
Proof using Hold.
  revert r out. induction ops as [|op ops IH]; intros r out Hw Hf E; simpl in E; [by injection E as <- <-|].
  apply Forall_cons in Hf as [Hop Hf]. destruct (op_returns old Hold r op Hw Hop) as (r1 & out1 & E1 & Hw1 & Ha & _).
  rewrite E1 in E. simpl in E. apply bind_Done_inv in E as ([r2 out2] & E2 & E). injection E as <- <-.
  etrans; [apply (ac_round _ _ Ha)|by eapply IH].
Qed.

(** Calls of a running reconfigurer are steps of the world. *)
Lemma run_ops_moves w n k r ops r' out :
  hw_nodes w !! n = Some (k, r) -> rc_wf r -> Forall op_fits ops -> run_ops r ops = Done (r', out) -> rc_round r' < u64_max ->
  moves w n k r' out.
Proof using Hold.
  revert w r out. induction ops as [|op ops IH]; intros w r out Hn Hw Hf E Hr; simpl in E.
  { injection E as <- <-. exists w. split_and!; [done|by rewrite insert_id|done|done]. }
  apply Forall_cons in Hf as [Hop Hf]. destruct (op_returns old Hold r op Hw Hop) as (r1 & out1 & E1 & Hw1 & Ha & _).
  rewrite E1 in E. simpl in E. apply bind_Done_inv in E as ([r2 out2] & E2 & E). injection E as <- <-.
  pose proof (run_ops_round _ _ _ _ Hw1 Hf E2) as Hle.
  destruct (IH (set_reconfigurer w n k r1 ((fun e => PRequest n k e.1 e.2) <$> out1)) r1 out2) as (w' & Hs & Hn' & Hrec & Hnet);
    [by simpl; rewrite lookup_insert_eq|done..|].
  exists w'. simpl in Hn', Hrec, Hnet. rewrite insert_insert_eq in Hn'. split_and!; [|done|done|].
  - eapply rtc_l; [|exact Hs]. apply (hs_op old frozen_of limits w n k r op r1 out1); [done..|lia].
  - rewrite Hnet, fmap_app, <-app_assoc. apply Permutation_app_swap_app.
Qed.

Lemma calls_moves w n k d d' sent :
  hw_nodes w !! n = Some (k, hd_reconfigurer d) -> hd_wf d -> calls d d' sent -> rc_round (hd_reconfigurer d') < u64_max ->
  moves w n k (hd_reconfigurer d') sent.
Proof using Hold. intros Hn [Hw _ _] (ops & Hf & E) Hr. by eapply run_ops_moves. Qed.

(** A delivered reply, then the drained queue. *)
Lemma reply_moves_ok w n k r reply r1 step r' sent :
  hw_nodes w !! n = Some (k, r) -> PReply n k reply ∈ hw_net w -> rc_on_reply r reply = Done (r1, step) -> rc_wf r1 ->
  reconfigurer_op old r1 OReady = Done (r', sent) -> rc_round r' < u64_max -> moves w n k r' sent.
Proof using Hold.
  intros Hn Hy E Hw E1 Hr. assert (run_ops r1 [OReady] = Done (r', sent)) as Ero
    by (cbn [run_ops]; rewrite E1; rsimpl; by rewrite app_nil_r).
  assert (Forall op_fits [OReady]) as Hf by by apply Forall_singleton.
  pose proof (run_ops_round _ _ _ _ Hw Hf Ero) as Hle.
  destruct (run_ops_moves (set_reconfigurer w n k r1 []) n k r1 [OReady] r' sent) as (w' & Hs & Hn' & Hrec & Hnet);
    [by simpl; rewrite lookup_insert_eq|done..|].
  exists w'. simpl in Hn', Hrec, Hnet. rewrite insert_insert_eq in Hn'. split_and!; [|done..]. eapply rtc_l; [|exact Hs]. apply (hs_reply old frozen_of limits w n k r reply r1 step); [done..|lia].
Qed.
End calls.

(** ** Theorems *)

(** The pacing of a driver: an idle one holds no backoff, and the clock fits its width. *)
Record paced d : Prop := {
  pd_backoff : hd_is_busy d = false -> hd_backoff d = 0;
  pd_clock : cad_elapsed (hd_resend_clock d) < u64_max }.

Lemma paced_wf d : hd_wf d <-> rc_wf (hd_reconfigurer d) /\ paced d.
Proof. split; [by intros [? ? ?]|]. by intros [? [? ?]]. Qed.

(** C33: the driver refines the handover.  In a reachable world, with the reconfigurer of a
    running node under a driver whose pacing is in order (an idle one holds no backoff, the
    clock is below its width), a tick of the node's loop and the arm of a delivered reply
    return and keep the pacing in order.  As long as the node's round stays below its width,
    they are steps of the world after which only that node's reconfigurer has changed and the
    network holds what it held and the requests the driver returned as sent, each once and
    nothing besides.  A backed-off driver sends nothing at a tick that no injected fault makes
    hasty; a reply's arm leaves no request queued; and a preempted decree waits the ticks that
    were drawn. *)
Theorem handover_driver_refines old frozen_of limits w n k d :
  set_fits old -> limits_valid limits -> handover_reachable old frozen_of limits w ->
  hw_nodes w !! n = Some (k, hd_reconfigurer d) -> paced d ->
  (forall beat, be_cadence beat <= u64_max ->
     exists d' sent, pace_handover d beat = Done (d', sent) /\ paced d' /\
       (0 < hd_backoff d -> be_hasty beat = false -> sent = []) /\
       (rc_round (hd_reconfigurer d') < u64_max -> moves old frozen_of limits w n k (hd_reconfigurer d') sent)) /\
  (forall reply ticks, PReply n k reply ∈ hw_net w ->
     exists d' step sent, on_handover_reply d reply ticks = Done (d', step, sent) /\ paced d' /\
       match step with TPreempted _ _ => hd_backoff d' = ticks | _ => True end /\
       rc_requests (hd_reconfigurer d') = Done [] /\
       (rc_round (hd_reconfigurer d') < u64_max -> moves old frozen_of limits w n k (hd_reconfigurer d') sent)).
Proof.
  intros Ho Hl Hr Hn Hp. destruct (handover_sim old frozen_of limits Ho Hl w Hr) as [S Hs].
  assert (hd_wf d) as Hd by (apply paced_wf; split; [apply (ns_wf _ _ _ _ _ _ _ (sm_nodes _ _ _ _ Hs _ _ _ Hn))|done]).
  split.
  - intros beat Hc. destruct (pace_handover_ok old Ho d beat Hd Hc) as (d' & sent & E & Hd' & Hcalls & Hback).
    exists d', sent. split_and!; [done|by apply paced_wf|done|]. by apply (calls_moves old Ho frozen_of limits w n k d d' sent).
  - intros reply ticks Hy.
    destruct (on_handover_reply_ok old Ho d reply ticks Hd) as (d' & step & sent & E & Hd' & (r1 & E1 & E2) & Hpre & Hempty);
      [by eapply replies_ok|].
    exists d', step, sent. split_and!; [done|by apply paced_wf|done|done|]. intros Hround.
    destruct (rc_on_reply_ok _ reply (hw_reconfigurer _ Hd)) as (r2 & step2 & E3 & Hw2 & _); [by eapply replies_ok|].
    rewrite E1 in E3. injection E3 as <- <-.
    by apply (reply_moves_ok old Ho frozen_of limits w n k (hd_reconfigurer d) reply r1 step).
Qed.

(** What a node does before its first beat: it boots its driver and is told a target. *)
Lemma hd_new_ok me page : exists d, hd_new me page = Done d /\ hd_wf d /\ rc_phase (hd_reconfigurer d) = RIdle.
Proof.
  assert (limits_valid (driver_limits page)) as Hl.
  { pose proof limits_default_valid as (? & ? & ? & ? & _). unfold limits_valid. simpl. split_and!; [done..| |]; unfold REGISTRY_PAGE; lia. }
  unfold hd_new. destruct (reconfigurer_new_ok _ Hl me) as [-> Hw]. rsimpl. rewrite rassert_true by done. rsimpl.
  eexists. split; [done|]. split; [|done]. by split.
Qed.

(** ** Witness: node 7, which has just closed its freeze, sends the bootstrap at its next beat. *)

Definition demo_driver (r : Reconfigurer) : HandoverDriver := mkHandoverDriver r cadence_default 0.
Definition demo_beat : Beat := mkBeat 0 1 false false false.

Lemma handover_driver_refines_witness :
  exists k d, hw_nodes (handover_world demo_frozen_run) !! 7 = Some (k, hd_reconfigurer d) /\ hd_is_busy d = true /\
    exists d' sent, pace_handover d demo_beat = Done (d', sent) /\ paced d'.
Proof.
  assert (match phase_at (handover_world demo_frozen_run) 7 with None | Some RIdle => false | _ => true end = true) as Hbusy by by vm_compute.
  destruct (phase_at (handover_world demo_frozen_run) 7) as [phase|] eqn:Hphase; [|discriminate Hbusy].
  destruct (demo_phase _ _ _ Hphase) as (k & r & E & Hp). exists k, (demo_driver r). split; [exact E|]. split.
  - apply busy_iff. intros Hi. change (rc_phase r = RIdle) in Hi. rewrite Hi in Hp. subst phase. discriminate Hbusy.
  - destruct (handover_driver_refines demo_old demo_frozen limits_default (handover_world demo_frozen_run) 7 k (demo_driver r)
      demo_old_fits limits_default_valid (demo_reachable _ (proj2 demo_runs)) E) as [Hpace _]; [by split|].
    destruct (Hpace demo_beat) as (d' & sent & Ed & Hd' & _); [by vm_compute|]. exists d', sent. split; [exact Ed|exact Hd'].
Defined.
